(* ===== verification/_CoqProject ===== *)
-Q . S2P
Prelude.v
Prog.v
ProgPartial.v
Config.v
Blocking.v
Wait.v
Publication.v
Ready.v
YRing.v
YRingInv.v
YRingSpec.v
YRingThm.v
YRingEquiv.v
YRingConc.v
YRingClose.v
YRingWake.v
Waker.v
YAsync.v
YAsyncConc.v
YAsyncThm.v
Ids.v
YOwner.v
Handoff.v
HandoffSeq.v
Teardown.v
HandoffConc.v
MpscLane.v
MpscLaneInv.v
MpscLaneThm.v
Mpsc.v
MpscRegistry.v
MpscBlocking.v
MpscPoll.v
MpscConc.v
MpscLaneConc.v
MpscRecvConc.v
MpscRecvLoop.v
MpscBatchConc.v
MpscSendConc.v
MpscSetup.v
MpscThm.v
MpscTeardown.v
MpscReady.v
MpscReadySend.v
MpscReadyLane.v
MpscReadyRecv.v
MpscReadyPoll.v
MpscReadyCollect.v
MpscReadyTake.v
MpscReadyBatch.v
MpscDrain.v
MpscParked.v
MpscBlockingThm.v
MpscAsync.v
MpscAsyncThm.v
Work.v
MpmcShared.v
Mpmc.v
MpmcBlocking.v
MpmcThm.v
MpmcConc.v
MpmcTokens.v
MpmcLaneConc.v
MpmcRecvConc.v
MpmcSendConc.v
MpmcSetup.v
MpmcConcThm.v
MpmcTeardown.v
TeardownThm.v
ChartStd.v
F64.v
ChartRow.v
ChartPlot.v
ChartHardware.v
ChartRender.v
ChartSummary.v
ChartLatency.v
Chart.v
ChartRowThm.v
ChartThm.v
