(* ===== verification/Prelude.v ===== *)
(** * A verification development for fanring and yring

    ** The program

    fanring ([src/src]) is a library of bounded channels for threads.  Every
    sender has a lane of its own, a single-producer single-consumer ring from
    the crate yring ([src/yring/src]).  The receiver of an MPSC channel
    ([src/src/mpsc]) rotates over the lanes that have values, found through an
    index of ready bits; several receivers of an MPMC channel ([src/src/mpmc])
    take ready lanes from shared pages, stage what they drain in work queues
    and steal from one another.  Blocked threads sleep on wait cells; the async
    operations of both crates register wakers instead.  A lane is dropped
    together with its ring when both sides are gone, or under the coordinated
    policy as soon as the receiving side is.  The chart binary
    ([src/src/bin/chart.rs], [src/src/bin/chart]) reads benchmark results,
    selects complete runs and draws them.

    ** How code is modelled

    A function of the source is a definition with the source's name,
    [Type_method].  A [usize] is a [Z] below 2^64 with wrap-around written out
    ([wrap], [wrapping_add], [checked_add]); slot contents are options and a
    read of an empty slot is undefined behaviour.  Code that touches shared
    memory is a [prog S A] of file Prog: a tree of atomic steps on a shared
    state [S].  [run] executes it alone; [pstep] interleaves a pool of
    programs one step at a time, so every access to an atomic is a point where
    threads can interleave (memory is sequentially consistent; the weaker
    orderings of the source are not modelled).  A section under a mutex that
    nothing else reads is one step.  A weak compare-exchange takes a list of
    booleans that says which attempts fail spuriously.  Panics and undefined
    behaviour are the values [Fault]/[Fail]; a debug build's arithmetic and
    [debug_assert] checks are kept.  [wp] is a rely-guarantee weakest
    precondition over interleavings: [pool_sound] turns specifications of the
    threads into one of every schedule of the pool.  [wlp] of ProgPartial is
    its partial version, for a second argument about the same programs;
    [wp_wlp] joins the two.  The chart binary is pure apart from a monad of
    events (reads, writes, drawing commands, messages) in ChartPlot; its
    doubles are the IEEE numbers of the Standard Library's SpecFloat.

    Loops without a structural bound take fuel.  A theorem that needs fuel
    says how much is enough: a receive makes at most one round per remaining
    mark of a sender ([MpscThm.rounds], [MpscRecvLoop.bound]), a compare
    exchange loop one per spurious failure and per competing change
    ([attempts], [MpmcConcThm.group_changes]).  Running out of fuel
    is a [Fail], so those theorems show that it does not happen.  A blocking
    call gets a finite record of what it sees (clock readings, and how each
    sleep ends); a call that uses it up still waits, which is a result of its
    own ([None]) and not a fault.  The loop
    that draws the lines of a chart's axis ([grid_lines]) takes its fuel from
    the caller; no theorem depends on it.

    Code outside the repository is a parameter: [concurrent_queue] and
    [arc_swap] of the MPMC channel are the classes [ConcurrentQueue] and
    [ArcSwap] of MpmcShared, [atomic_waker] is the class [AtomicWaker] of
    Waker, each with its documented laws and a concrete instance; the clock is
    an argument of what reads it.  The file system, the environment, the
    drawing backend, [powf] and [log10] are the class [Host] of ChartPlot, the
    JSON parsers of a row are arguments of what reads rows.

    ** Files

    - Prelude (this file): results, faults, machine words, lists indexed by
      [Z], tactics.  Prog: programs, interleavings, [wp].  ProgPartial: [wlp].
    - Config: [error.rs], [config.rs], [teardown.rs].  Blocking:
      [blocking.rs], the spin-then-park loop over an interface of endpoints.
      Wait: [wait.rs], both wait cells.  Publication: [publication.rs].
      Ready: [ready.rs], groups, pages and lane signals.  Ids: the identity
      counters of [mpsc.rs] and [yring/src/producer.rs].
    - YRing: [yring/src/ring.rs], [producer.rs], [consumer.rs], [lib.rs].
      YRingInv: its invariant.  YRingSpec: an abstract bounded queue and the
      refinement of every operation.  YRingThm, YRingEquiv: sequential
      theorems.  YRingConc, YRingClose, YRingWake: all interleavings, what
      closed endpoints no longer do, and the wakeup flags.  YOwner: [ProducerOwner], a producer handle shared by threads.
    - Waker: tasks and waker cells ([yring/src/compat.rs]).  YAsync: the async
      ring of [yring/src/async.rs]; YAsyncConc, YAsyncThm: its theorems.
    - Handoff: [ring.rs] of fanring, the two teardown policies; HandoffSeq:
      its operations without interference, and a ring nobody has used;
      HandoffConc: all interleavings of a sender with a closing receiver.
    - MpscLane: [mpsc/receiver/lane.rs] and the shared state; MpscLaneInv,
      MpscLaneThm: a lane's counters and its FIFO theorem.  Mpsc: [mpsc.rs],
      [sender.rs], [receiver.rs] with its [registry.rs], [lane_control.rs] and
      [batch.rs].  MpscRegistry: lane identities.  MpscBlocking: the blocking
      operations and [iter.rs], and that those with a deadline answer once it
      has passed.  MpscPoll: the poll budget of a receive, and when it
      underflows.
    - MpscConc, MpscLaneConc, MpscRecvConc, MpscRecvLoop, MpscBatchConc,
      MpscSendConc, MpscSetup, MpscThm: the whole channel under every
      interleaving, from the shared state and its guarantees over lanes, the
      receiver and its loops to the senders, the initial state and the
      theorems.
    - MpscReady: where the marks of the readiness index are on their way from
      a sender to the receiver, as an invariant over a ghost state.
      MpscReadySend: the senders.  MpscReadyLane, MpscReadyRecv,
      MpscReadyPoll, MpscReadyCollect, MpscReadyTake, MpscReadyBatch: the
      receiver, from a lane over taking marks, polling and collecting to its
      operations.  MpscDrain: no mark is lost, the channel can be drained.
    - MpscParked: who is registered on which wait cell of the channel.
      MpscBlockingThm: the endpoints keep the contract of Blocking, and
      threads that block under every interleaving.
    - MpscAsync: [mpsc/asynchronous.rs] and the async registrations of
      [wait.rs]; MpscAsyncThm: tasks under every interleaving.
    - Work: [mpmc/work.rs].  MpmcShared: [mpmc.rs] and [receiver/lane.rs].
      Mpmc: [mpmc/sender.rs], [mpmc/receiver.rs], [drain.rs].  MpmcBlocking:
      blocking operations and [iter.rs].  MpmcThm: receiver identities, the
      constructors, a run of a whole channel.
    - MpmcConc: the MPMC channel's shared state, who owns each lane token and
      what each thread guarantees.  MpmcTokens: moving a token between slots,
      pages and receivers.  MpmcLaneConc: draining a lane, claiming
      one, the work queues.  MpmcRecvConc, MpmcSendConc: the operations of
      receivers and senders.  MpmcSetup: a channel with
      registered senders and cloned receivers.  MpmcConcThm: the whole channel
      under every interleaving.
    - Teardown: the probe of [examples/teardown.rs] over a class of channels
      and its laws; MpscTeardown, MpmcTeardown: the two channels as instances;
      TeardownThm: when payloads are destroyed.
    - ChartStd, F64: the standard library and the doubles of the chart binary.
      ChartRow: the result rows of [bin/chart.rs], completeness and selection
      of runs.  ChartPlot: [chart/plot.rs], the monad of events and its host.
      ChartHardware, ChartRender, ChartSummary, ChartLatency:
      [chart/hardware.rs], [render.rs], [summary.rs], [latency.rs].  Chart:
      [chart/support.rs] and the commands of [bin/chart.rs].  ChartRowThm,
      ChartThm: their theorems.

    ** What the theorems show

    The ring refines an abstract queue for every capacity and cursor, never
    overfills, drops each item exactly once, pops in bulk what single pops
    would; under every interleaving of its endpoints it delivers in order and
    loses no wakeup, also in its async form and behind an owner handle.  A
    lane delivers in order through every sequence of its operations.  An MPSC
    channel with any number of concurrent senders keeps every lane's order,
    never panics or hangs in a non-blocking operation, reports disconnection
    only when everything was received, and its shared state is well-formed in
    every reachable state; the blocking operations and the async adapters keep
    the same promises, no wait cell ever gets a second waiter, and a blocking
    call can only be left waiting when it has no deadline or its clock does not
    show that the deadline has passed.  A spin phase ends at its budget or at
    the deadline.  Once
    the senders are gone receiving alone returns every accepted value and never
    reports an empty channel: no mark of the readiness index is lost.  Lane
    keys, receiver ids, channel ids and thread tokens are never reused.  An MPMC channel with
    any number of concurrent senders and receivers neither loses nor duplicates
    a value, never panics or hangs in a non-blocking operation, and retires a
    lane only when everything in it was taken.  Both teardown policies destroy
    each payload once, at the time they promise; coordinated teardown also
    under every interleaving of a sender with a closing receiver.  MPMC work
    queues and the publication counters neither lose nor duplicate work.  Wait
    cells lose no wakeup.  Constructors, and the registration of a sender with
    a capacity of its own, accept exactly the documented capacities.  The chart binary selects complete, comparable runs, expands
    and measures cached ones without changing their medians, accounts for
    every input line and keeps its tables inside the image.  MpscPoll proves
    that a receive after a pause or a close underflows its poll budget exactly
    when the budget was used up and the first lane it collects has a value.

    ** Not modelled

    The orderings of atomics weaker than sequential consistency; interleavings
    of the MPMC channel in which receivers are cloned or dropped or block, and
    in which senders register (these operations are modelled, their theorems
    are sequential); allocation
    failure and unwinding out of a payload's [Drop]; the operating system's
    scheduling of parked threads, and so how long a call without a deadline
    waits (that a notification ends a sleep is proved of the wait cells, of the
    ring and of the async endpoints); [Debug] output; the re-exports of the
    compatibility shims; benches and tests, and the runs of the teardown probe
    on other crates. *)

From Stdlib Require Export ZArith Lia.
From stdpp Require Export base list relations option numbers strings.
#[global] Unset Default Proof Using.

(** ** Notations *)

Declare Scope fanring_scope.
Delimit Scope fanring_scope with fanring.

(** ** Results and faults

    [result] is Rust's [Result].  [fault] is what a model can end in besides
    returning: a panic ([assert!], [expect], an overflow that a debug build
    traps, an index out of bounds) or undefined behaviour (a read of a
    [MaybeUninit] slot that holds no value).  [outcome] is a pure computation
    that may fault. *)

Inductive result (A E : Type) : Type :=
| Ok (a : A)
| Err (e : E).
Arguments Ok {A E} a.
Arguments Err {A E} e.

Inductive fault : Type :=
| Panic (msg : string)
| UB (msg : string).

Inductive outcome (A : Type) : Type :=
| Done (a : A)
| Fault (e : fault).
Arguments Done {A} a.
Arguments Fault {A} e.

Definition is_ok {A E} (r : result A E) : bool :=
  match r with Ok _ => true | Err _ => false end.

(** ** Machine integers

    The target has 64-bit pointers: [usize] is a [Z] in [0, 2^64), and every
    wrapping operation is written out as a reduction modulo [2^64]. *)

Open Scope Z_scope.

Definition usize_mod : Z := 2 ^ 64.
Definition usize_max : Z := usize_mod - 1.
Definition wrap (x : Z) : Z := x mod usize_mod.
Definition wrapping_add (a b : Z) : Z := wrap (a + b).
Definition wrapping_sub (a b : Z) : Z := wrap (a - b).
Definition checked_add (a b : Z) : option Z :=
  if a + b <=? usize_max then Some (a + b) else None.
Definition saturating_sub (a b : Z) : Z := Z.max 0 (a - b).
Definition div_ceil (a b : Z) : Z := (a + b - 1) / b.

(** [usize::checked_next_power_of_two] of the standard library. *)
Definition checked_next_power_of_two (n : Z) : option Z :=
  let p := 2 ^ Z.log2_up n in
  if p <=? usize_max then Some p else None.

Definition is_usize (x : Z) : Prop := 0 <= x < usize_mod.

Lemma usize_mod_pos : 0 < usize_mod.
Proof. reflexivity. Qed.

Lemma usize_mod_eq : usize_mod = 18446744073709551616.
Proof. reflexivity. Qed.

(** Literal arithmetic on the width: unfold the constants, then [lia]. *)
Ltac usize :=
  unfold usize_max, is_usize in *; rewrite ?usize_mod_eq in *; lia.

Lemma wrap_range x : is_usize (wrap x).
Proof. apply Z.mod_pos_bound, usize_mod_pos. Qed.

Lemma wrap_small x : is_usize x -> wrap x = x.
Proof. apply Z.mod_small. Qed.

Lemma wrap_add_l a b : wrap (wrap a + b) = wrap (a + b).
Proof. apply Zplus_mod_idemp_l. Qed.

Lemma wrapping_add_wrap a b : wrapping_add (wrap a) b = wrap (a + b).
Proof. apply wrap_add_l. Qed.

(** The distance of two wrapped cursors is the true distance as long as that
    fits the width. *)
Lemma wrapping_sub_wrap a b :
  0 <= a - b < usize_mod -> wrapping_sub (wrap a) (wrap b) = a - b.
Proof.
  intros H. unfold wrapping_sub, wrap.
  rewrite <- Zminus_mod, Z.mod_small; auto.
Qed.

Lemma wrap_inj a b :
  0 <= a - b < usize_mod -> wrap a = wrap b -> a = b.
Proof.
  intros H E. pose proof (wrapping_sub_wrap a b H) as D.
  rewrite E in D. unfold wrapping_sub in D. rewrite Z.sub_diag in D.
  rewrite wrap_small in D by usize. lia.
Qed.

Lemma wrap_eqb a b :
  0 <= a - b < usize_mod -> (wrap a =? wrap b) = (a =? b).
Proof.
  intros H. destruct (Z.eqb_spec a b) as [->|N].
  - apply Z.eqb_refl.
  - apply Z.eqb_neq. intros E. apply N. eapply wrap_inj; eauto.
Qed.

(** Masking a wrapped cursor is reduction modulo the power-of-two capacity. *)
Lemma land_mask_wrap a k :
  0 <= k <= 64 -> Z.land (wrap a) (2 ^ k - 1) = a mod 2 ^ k.
Proof.
  intros Hk. replace (2 ^ k - 1) with (Z.ones k) by (rewrite Z.ones_equiv; lia).
  rewrite Z.land_ones by lia. unfold wrap, usize_mod.
  apply Z.mod_mod_divide.
  exists (2 ^ (64 - k)). rewrite <- Z.pow_add_r by lia. f_equal. lia.
Qed.

Lemma mod_inj_window a b m :
  0 < m -> a mod m = b mod m -> - m < a - b < m -> a = b.
Proof.
  intros Hm E H.
  pose proof (Z_div_mod_eq_full a m) as Ha. pose proof (Z_div_mod_eq_full b m) as Hb.
  assert (D : a - b = m * (a / m - b / m)) by nia.
  set (q := a / m - b / m) in *. assert (q = 0) by nia. nia.
Qed.

Lemma mod_succ a m : 0 < m -> a mod m + 1 < m -> (a + 1) mod m = a mod m + 1.
Proof.
  intros Hm H. pose proof (Z.mod_pos_bound a m Hm).
  rewrite <- Zplus_mod_idemp_l. apply Z.mod_small. lia.
Qed.

(** The distance to the next multiple. *)
Lemma mod_wrap_start b a m : 0 < m -> (b + (a + (m - (b + a) mod m))) mod m = 0.
Proof.
  intros Hm. replace (b + (a + (m - (b + a) mod m))) with (b + a - (b + a) mod m + 1 * m) by lia.
  by rewrite Z_mod_plus_full, Zminus_mod_idemp_r, Z.sub_diag.
Qed.

Lemma next_power_of_two_spec n p :
  0 < n -> checked_next_power_of_two n = Some p ->
  exists k, 0 <= k < 64 /\ p = 2 ^ k /\ n <= p /\ p < 2 * n.
Proof.
  unfold checked_next_power_of_two. intros Hn H.
  destruct (Z.leb_spec (2 ^ Z.log2_up n) usize_max); simplify_eq.
  pose proof (Z.log2_up_nonneg n).
  exists (Z.log2_up n). split_and!; auto.
  - apply (Z.pow_lt_mono_r_iff 2); try lia. unfold usize_max, usize_mod in *. lia.
  - destruct (Z.eq_dec n 1) as [->|]; [done|].
    apply Z.log2_up_spec; lia.
  - destruct (Z.eq_dec n 1) as [->|]; [done|].
    pose proof (Z.log2_up_spec n ltac:(lia)) as [L _].
    replace (Z.log2_up n) with (Z.succ (Z.pred (Z.log2_up n))) by lia.
    rewrite Z.pow_succ_r; [lia|].
    pose proof (Z.log2_up_pos n ltac:(lia)). lia.
Qed.

(** ** Lists indexed by [Z] *)

Definition zlength {A} (l : list A) : Z := Z.of_nat (length l).
Definition zlookup {A} (l : list A) (i : Z) : option A :=
  if i <? 0 then None else l !! Z.to_nat i.
Definition zinsert {A} (l : list A) (i : Z) (x : A) : list A :=
  <[Z.to_nat i := x]> l.

Lemma zlookup_Some_range {A} (l : list A) i x :
  zlookup l i = Some x -> 0 <= i < zlength l.
Proof.
  unfold zlookup, zlength. destruct (Z.ltb_spec i 0); [done|].
  intros H1%lookup_lt_Some. lia.
Qed.

Lemma zlookup_is_Some {A} (l : list A) i :
  0 <= i < zlength l -> exists x, zlookup l i = Some x.
Proof.
  unfold zlookup, zlength. intros H. destruct (Z.ltb_spec i 0); [lia|].
  destruct (lookup_lt_is_Some_2 l (Z.to_nat i)) as [x Hx]; [lia|eauto].
Qed.

Lemma zlookup_zinsert_eq {A} (l : list A) i x :
  0 <= i < zlength l -> zlookup (zinsert l i x) i = Some x.
Proof.
  unfold zlookup, zlength, zinsert. intros H. destruct (Z.ltb_spec i 0); [lia|].
  apply list_lookup_insert_eq. lia.
Qed.

Lemma zlookup_zinsert_ne {A} (l : list A) i j x :
  0 <= i -> i <> j -> zlookup (zinsert l i x) j = zlookup l j.
Proof.
  unfold zlookup, zinsert. intros Hi Hn. destruct (Z.ltb_spec j 0); [done|].
  apply list_lookup_insert_ne. lia.
Qed.

Lemma zlookup_of_nat {A} (l : list A) k : zlookup l (Z.of_nat k) = l !! k.
Proof. unfold zlookup. destruct (Z.ltb_spec (Z.of_nat k) 0); [lia|]. by rewrite Nat2Z.id. Qed.
Lemma zinsert_of_nat {A} (l : list A) k x : zinsert l (Z.of_nat k) x = <[k := x]> l.
Proof. unfold zinsert. by rewrite Nat2Z.id. Qed.

Lemma zlength_zinsert {A} (l : list A) i x : zlength (zinsert l i x) = zlength l.
Proof. unfold zlength, zinsert. by rewrite length_insert. Qed.

Lemma zlength_app {A} (l1 l2 : list A) : zlength (l1 ++ l2) = zlength l1 + zlength l2.
Proof. unfold zlength. rewrite length_app. lia. Qed.

Lemma zlength_cons {A} x (l : list A) : zlength (x :: l) = 1 + zlength l.
Proof. unfold zlength. cbn [length]. lia. Qed.

Lemma zlength_nil {A} : zlength (@nil A) = 0.
Proof. reflexivity. Qed.

Lemma zlength_snoc {A} (l : list A) x : zlength (l ++ [x]) = zlength l + 1.
Proof. unfold zlength. rewrite length_app. cbn [length]. lia. Qed.

Lemma zlength_nonneg {A} (l : list A) : 0 <= zlength l.
Proof. unfold zlength. lia. Qed.

Lemma zlookup_app_l {A} (l1 l2 : list A) i :
  i < zlength l1 -> zlookup (l1 ++ l2) i = zlookup l1 i.
Proof.
  unfold zlookup, zlength. intros H. destruct (Z.ltb_spec i 0); [done|].
  apply lookup_app_l. lia.
Qed.

Lemma zlookup_snoc {A} (l : list A) x : zlookup (l ++ [x]) (zlength l) = Some x.
Proof.
  unfold zlookup, zlength. destruct (Z.ltb_spec (Z.of_nat (length l)) 0); [lia|].
  rewrite Nat2Z.id. by apply list_lookup_middle.
Qed.

Lemma zlookup_elem {A} (l : list A) i x : zlookup l i = Some x -> x ∈ l.
Proof. unfold zlookup. destruct (i <? 0); [done|]. apply list_elem_of_lookup_2. Qed.

Lemma Forall_zinsert {A} (P : A -> Prop) l i x : Forall P l -> P x -> Forall P (zinsert l i x).
Proof. intros H1 H2. by apply Forall_insert. Qed.

Lemma zlookup_zinsert_same {A} (l : list A) i x y :
  zlookup l i = Some x -> zlookup (zinsert l i y) i = Some y.
Proof. intros H%zlookup_Some_range. by apply zlookup_zinsert_eq. Qed.

Lemma zinsert_zinsert {A} (l : list A) i x y : zinsert (zinsert l i x) i y = zinsert l i y.
Proof. unfold zinsert. apply list_insert_insert_eq. Qed.

Lemma zlookup_valid_insert {A} (l : list A) i j x y :
  zlookup l j = Some y -> exists z, zlookup (zinsert l i x) j = Some z.
Proof.
  intros H%zlookup_Some_range. apply zlookup_is_Some. by rewrite zlength_zinsert.
Qed.

Lemma zlookup_Forall {A} (P : A -> Prop) (l : list A) i x : Forall P l -> zlookup l i = Some x -> P x.
Proof. intros H E. rewrite Forall_forall in H. by eapply H, zlookup_elem. Qed.

Lemma zlookup_prefix {A} (l1 l2 : list A) i x : l1 `prefix_of` l2 -> zlookup l1 i = Some x -> zlookup l2 i = Some x.
Proof.
  intros [l ->] H. pose proof (zlookup_Some_range _ _ _ H). by rewrite zlookup_app_l by lia.
Qed.

Lemma zlookup_zinsert {A} (l : list A) i j x :
  0 <= i < zlength l -> zlookup (zinsert l i x) j = if decide (i = j) then Some x else zlookup l j.
Proof.
  intros Hi. destruct (decide (i = j)) as [<-|N]; [by apply zlookup_zinsert_eq|apply zlookup_zinsert_ne; lia].
Qed.

Lemma zlookup_snoc_Some {A} (l : list A) x i y :
  zlookup (l ++ [x]) i = Some y <-> zlookup l i = Some y \/ (i = zlength l /\ y = x).
Proof.
  destruct (decide (i < zlength l)) as [Hlt|Hge].
  - rewrite zlookup_app_l by done. split; [auto|]. intros [|[]]; [done|lia].
  - split.
    + intros H. pose proof (zlookup_Some_range _ _ _ H) as R. rewrite zlength_snoc in R.
      assert (i = zlength l) as -> by lia. rewrite zlookup_snoc in H. right. split; congruence.
    + intros [H|[-> ->]]; [apply zlookup_Some_range in H; lia|apply zlookup_snoc].
Qed.

Lemma NoDup_snoc {A} (l : list A) x : NoDup l -> x ∉ l -> NoDup (l ++ [x]).
Proof.
  intros H1 H2. apply NoDup_app. split_and!; [done| |apply NoDup_singleton].
  intros y Hy ->%list_elem_of_singleton. done.
Qed.

Lemma sum_list_pred l i c : l !! i = Some c -> (0 < c)%nat -> (sum_list (<[i := pred c]> l) < sum_list l)%nat.
Proof.
  revert i. induction l as [|a l IH]; intros [|i] Hi Hc; cbn in *; [done..| |].
  - injection Hi as ->. destruct c; cbn; lia.
  - specialize (IH i Hi Hc). change (a + sum_list (<[i := pred c]> l) < a + sum_list l)%nat. lia.
Qed.

(** The segment [a, b) of a list. *)
Definition seg {A} (l : list A) (a b : Z) : list A :=
  take (Z.to_nat (b - a)) (drop (Z.to_nat a) l).

Lemma zlength_seg {A} (l : list A) a b :
  0 <= a <= b -> b <= zlength l -> zlength (seg l a b) = b - a.
Proof.
  unfold seg, zlength. intros H1 H2. rewrite length_take, length_drop. lia.
Qed.

Lemma seg_app {A} (l : list A) a b c :
  0 <= a <= b -> b <= c -> seg l a c = seg l a b ++ seg l b c.
Proof.
  unfold seg. intros H1 H2.
  replace (Z.to_nat (c - a)) with (Z.to_nat (b - a) + Z.to_nat (c - b))%nat by lia.
  rewrite <- take_take_drop, drop_drop. do 3 f_equal. lia.
Qed.

(** ** Permutations of appended lists

    [perm] proves that two sums of the same lists are permutations of each
    other: it brings the first summand of the left side to the front of the
    right side and cancels it. *)

Section perm.
Context {A : Type}.
Implicit Types (a b r l : list A) (x : A).

Lemma front_skip a b r r' : r ≡ₚ a ++ r' -> b ++ r ≡ₚ a ++ (b ++ r').
Proof. intros ->. apply Permutation_app_swap_app. Qed.
Lemma front_skip_cons a x r r' : r ≡ₚ a ++ r' -> x :: r ≡ₚ a ++ (x :: r').
Proof. intros ->. apply Permutation_middle. Qed.
Lemma front_last a : a ≡ₚ a ++ [].
Proof. by rewrite app_nil_r. Qed.
Lemma front_cons_skip b x r r' : r ≡ₚ x :: r' -> b ++ r ≡ₚ x :: (b ++ r').
Proof. intros ->. symmetry. apply Permutation_middle. Qed.
Lemma front_cons_skip_cons x y r r' : r ≡ₚ x :: r' -> y :: r ≡ₚ x :: (y :: r').
Proof. intros ->. apply perm_swap. Qed.
Lemma perm_cancel a l r r' : r ≡ₚ a ++ r' -> l ≡ₚ r' -> a ++ l ≡ₚ r.
Proof. by intros -> ->. Qed.
Lemma perm_cancel_cons x l r r' : r ≡ₚ x :: r' -> l ≡ₚ r' -> x :: l ≡ₚ r.
Proof. by intros -> ->. Qed.
Lemma perm_cancel_last a r : r ≡ₚ a ++ [] -> a ≡ₚ r.
Proof. rewrite app_nil_r. by intros ->. Qed.
End perm.

Ltac perm_front :=
  first [ apply Permutation_refl | apply front_last
        | apply front_skip; perm_front | apply front_skip_cons; perm_front
        | apply front_cons_skip; perm_front | apply front_cons_skip_cons; perm_front ].

Ltac perm :=
  rewrite ?app_nil_r, <- ?(assoc_L (++)); cbn [app];
  repeat first [ apply Permutation_refl
               | eapply perm_cancel; [perm_front|] | eapply perm_cancel_cons; [perm_front|]
               | apply perm_cancel_last; perm_front ];
  rewrite ?app_nil_r; try apply Permutation_refl.

Create HintDb fanring.
Create Rewrite HintDb fanring.
#[export] Hint Rewrite @zlength_app @zlength_cons @zlength_nil @zlength_zinsert : fanring.
#[export] Hint Resolve wrap_range usize_mod_pos zlength_nonneg : fanring.
