(* ===== verification/Prog.v ===== *)
(** * Programs, sequential runs and interleavings

    Every operation of the Rust code that touches shared memory is a value of
    [prog S A]: a tree whose nodes are single atomic accesses to a shared state
    of type [S].  The same definition is executed sequentially by [run] (the
    caller owns the state for the whole operation) and interleaved with other
    threads by [pstep] (every atomic access is one step).  The memory is
    sequentially consistent; the orderings of the source are recorded in the
    comments of the models, not in the semantics.

    The second half is a small rely-guarantee logic with ghost state: [wp]
    states what a thread establishes under any interference its peers'
    guarantees allow, and [pool_sound] turns one [wp] per thread into a
    statement about every interleaving. *)

From S2P Require Import Prelude.

(** ** Programs *)

Inductive prog (S A : Type) : Type :=
| Ret (a : A)
| Act {R : Type} (f : S -> R * S) (k : R -> prog S A)
| Fail (e : fault).
Arguments Ret {S A} a.
Arguments Act {S A R} f k.
Arguments Fail {S A} e.

Fixpoint bind {S A B} (p : prog S A) (k : A -> prog S B) : prog S B :=
  match p with
  | Ret a => k a
  | Act f c => Act f (fun r => bind (c r) k)
  | Fail e => Fail e
  end.

Declare Scope prog_scope.
Delimit Scope prog_scope with prog.
Bind Scope prog_scope with prog.

Notation "'let*' x := p 'in' q" := (bind p (fun x => q))
  (at level 10, x binder, p at level 99, q at level 200) : prog_scope.

(** One atomic access. *)
Definition atomic {S R} (f : S -> R * S) : prog S R := Act f Ret.
Definition load {S R} (get : S -> R) : prog S R := atomic (fun s => (get s, s)).
Definition store {S} (upd : S -> S) : prog S unit := atomic (fun s => (tt, upd s)).
Definition swap {S R} (get : S -> R) (upd : S -> S) : prog S R :=
  atomic (fun s => (get s, upd s)).
Definition when {S} (b : bool) (p : prog S unit) : prog S unit :=
  if b then p else Ret tt.

(** Running a program of a component inside a larger shared state. *)
Fixpoint lift {S1 S2 A} (get : S2 -> S1) (put : S1 -> S2 -> S2) (p : prog S1 A) : prog S2 A :=
  match p with
  | Ret a => Ret a
  | Act f k =>
      Act (fun s => let '(r, s1) := f (get s) in (r, put s1 s))
          (fun r => lift get put (k r))
  | Fail e => Fail e
  end.

(** Running a program of a component that a partial accessor finds: a store
    of objects whose handle is valid.  Without the object the access faults. *)
Fixpoint focus {S1 S2 A} (get : S2 -> option S1) (put : S1 -> S2 -> S2) (p : prog S1 A) : prog S2 A :=
  match p with
  | Ret a => Ret a
  | Act f k =>
      Act (fun s => match get s with
                    | Some s1 => let '(r, s1') := f s1 in (Some r, put s1' s)
                    | None => (None, s)
                    end)
          (fun o => match o with Some r => focus get put (k r) | None => Fail (UB "dangling handle") end)
  | Fail e => Fail e
  end.

Definition of_outcome {S A} (o : outcome A) : prog S A :=
  match o with Done a => Ret a | Fault e => Fail e end.

(** [usize] subtraction in a checked build. *)
Definition usub {S} (a b : Z) : prog S Z :=
  if a <? b then Fail (Panic "attempt to subtract with overflow") else Ret (a - b).

(** [catch_unwind]: a panic ends the thread that raises it and nothing else. *)
Fixpoint catch {S A} (p : prog S A) : prog S (result A fault) :=
  match p with
  | Ret a => Ret (Ok a)
  | Act f k => Act f (fun r => catch (k r))
  | Fail e => Ret (Err e)
  end.

(** A program all of whose steps leave a part of the state as it is. *)
Fixpoint keeps {S R A} (get : S -> R) (p : prog S A) : Prop :=
  match p with
  | Ret _ | Fail _ => True
  | Act f k => (forall s, get (f s).2 = get s) /\ forall r, keeps get (k r)
  end.

Lemma keeps_bind {S R A B} (get : S -> R) (p : prog S A) (k : A -> prog S B) :
  keeps get p -> (forall a, keeps get (k a)) -> keeps get (bind p k).
Proof.
  intros Hp Hk. induction p as [a|X f c IH|e]; cbn; auto. destruct Hp as [H1 H2]. split; auto.
Qed.

Lemma keeps_lift {S1 S2 R A} (get : S2 -> S1) (put : S1 -> S2 -> S2) (part : S2 -> R) (p : prog S1 A) :
  (forall s1 s, part (put s1 s) = part s) -> keeps part (lift get put p).
Proof.
  intros H. induction p as [a|X f k IH|e]; cbn; auto. split; [|auto].
  intros s. destruct (f (get s)) as [r s1]. apply H.
Qed.

(** Steps through binds and branches down to the accesses. *)
Ltac keeps_tac := repeat first [ exact I | solve [auto with fanring]
  | (apply keeps_lift; by intros) | apply keeps_bind | progress intros
  | (split; [by intros|by intros]) | case_match ].

(** ** Sequential runs *)

Fixpoint run {S A} (p : prog S A) (s : S) : outcome A * S :=
  match p with
  | Ret a => (Done a, s)
  | Act f k => let '(r, s') := f s in run (k r) s'
  | Fail e => (Fault e, s)
  end.

Lemma run_bind {S A B} (p : prog S A) (k : A -> prog S B) s :
  run (bind p k) s =
    match run p s with
    | (Done a, s') => run (k a) s'
    | (Fault e, s') => (Fault e, s')
    end.
Proof.
  revert s. induction p as [a|R f c IH|e]; intros s; simpl; auto.
  destruct (f s) as [r s']. apply IH.
Qed.

Lemma run_bind_Done {S A B} (p : prog S A) (k : A -> prog S B) s a s' :
  run p s = (Done a, s') -> run (bind p k) s = run (k a) s'.
Proof. intros H. by rewrite run_bind, H. Qed.

Lemma bind_assoc {S A B C} (p : prog S A) (k : A -> prog S B) (h : B -> prog S C) s :
  run (bind (bind p k) h) s = run (bind p (fun a => bind (k a) h)) s.
Proof.
  rewrite !run_bind. destruct (run p s) as [[a|e] s']; auto. by rewrite run_bind.
Qed.

Lemma run_lift {S1 S2 A} (get : S2 -> S1) (put : S1 -> S2 -> S2) (p : prog S1 A) :
  (forall s1 s, get (put s1 s) = s1) ->
  (forall s1 s1' s, put s1' (put s1 s) = put s1' s) ->
  (forall s, put (get s) s = s) ->
  forall s, run (lift get put p) s =
    let '(o, s1) := run p (get s) in (o, put s1 s).
Proof.
  intros Hgp Hpp Hpg. induction p as [a|R f k IH|e]; intros s; simpl.
  - by rewrite Hpg.
  - destruct (f (get s)) as [r s1] eqn:E. rewrite IH, Hgp.
    destruct (run (k r) s1) as [o s2]. by rewrite Hpp.
  - by rewrite Hpg.
Qed.

Lemma run_focus {S1 S2 A} (get : S2 -> option S1) (put : S1 -> S2 -> S2) (p : prog S1 A) :
  (forall s1 s1' s, get s = Some s1 -> get (put s1' s) = Some s1') ->
  (forall s1 s1' s, put s1' (put s1 s) = put s1' s) ->
  (forall s1 s, get s = Some s1 -> put s1 s = s) ->
  forall s s1, get s = Some s1 ->
    run (focus get put p) s = let '(o, s1') := run p s1 in (o, put s1' s).
Proof.
  intros Hgp Hpp Hpg. induction p as [a|R f k IH|e]; intros s s1 Hg; simpl.
  - by rewrite Hpg.
  - rewrite Hg. destruct (f s1) as [r s1'] eqn:E. rewrite (IH r _ s1') by eauto.
    destruct (run (k r) s1') as [o s2]. by rewrite Hpp.
  - by rewrite Hpg.
Qed.

(** Total correctness of a sequential run: it returns, and what it returns
    satisfies [Q]. *)
Definition runs {S A} (p : prog S A) (s : S) (Q : A -> S -> Prop) : Prop :=
  match run p s with (Done a, s') => Q a s' | (Fault _, _) => False end.

Arguments runs : simpl never.

Lemma runs_intro {S A} (p : prog S A) s a s' (Q : A -> S -> Prop) :
  run p s = (Done a, s') -> Q a s' -> runs p s Q.
Proof. unfold runs. by intros ->. Qed.

Lemma runs_elim {S A} (p : prog S A) s (Q : A -> S -> Prop) :
  runs p s Q -> exists a s', run p s = (Done a, s') /\ Q a s'.
Proof. unfold runs. destruct (run p s) as [[a|e] s']; [eauto|done]. Qed.

Lemma runs_ret {S A} (a : A) (s : S) (Q : A -> S -> Prop) : Q a s -> runs (Ret a) s Q.
Proof. done. Qed.

Lemma runs_bind {S A B} (p : prog S A) (k : A -> prog S B) s (Q : B -> S -> Prop) :
  runs p s (fun a s' => runs (k a) s' Q) -> runs (bind p k) s Q.
Proof. unfold runs. rewrite run_bind. by destruct (run p s) as [[a|e] s']. Qed.

Lemma runs_mono {S A} (p : prog S A) s (Q Q' : A -> S -> Prop) :
  runs p s Q -> (forall a s', Q a s' -> Q' a s') -> runs p s Q'.
Proof. unfold runs. destruct (run p s) as [[a|e] s']; auto. Qed.

(** Sequencing with the specification of the first part. *)
Lemma runs_seq {S A B} (p : prog S A) (k : A -> prog S B) s (R : A -> S -> Prop) (Q : B -> S -> Prop) :
  runs p s R -> (forall a s', R a s' -> runs (k a) s' Q) -> runs (bind p k) s Q.
Proof. intros H1 H2. apply runs_bind. eapply runs_mono; eauto. Qed.

(** ** Interleavings *)

Definition step_prog {S A} (p : prog S A) (s : S) : option (S * prog S A) :=
  match p with
  | Act f k => let '(r, s') := f s in Some (s', k r)
  | _ => None
  end.

(** A configuration is the shared state and the pool of threads; a step
    performs one atomic access of one thread. *)
Definition config (S A : Type) : Type := S * list (prog S A).

Inductive pstep {S A} : config S A -> config S A -> Prop :=
| pstep_thread (s s' : S) (ps : list (prog S A)) (i : nat) (p p' : prog S A) :
    ps !! i = Some p ->
    step_prog p s = Some (s', p') ->
    pstep (s, ps) (s', <[i := p']> ps).

Definition finished {S A} (c : config S A) : Prop :=
  Forall (fun p => exists a, p = Ret a) c.2.

Lemma finished_values {S A} (s : S) (ps : list (prog S A)) : finished (s, ps) -> exists vs, ps = Ret <$> vs.
Proof.
  unfold finished. cbn. induction 1 as [|p ps [a ->] _ [vs ->]]; [by exists []|]. by exists (a :: vs).
Qed.

(** A finished pool whose threads but the first end in the right summand. *)
Lemma list_all_inr {A B} (l : list (A + B)) :
  (forall i r, l !! i = Some r -> exists b, r = inr b) -> exists bs, l = inr <$> bs.
Proof.
  induction l as [|r l IH]; intros H; [by exists []|].
  destruct (H O r eq_refl) as [b ->]. destruct IH as [bs ->]; [intros i r; apply (H (S i))|]. by exists (b :: bs).
Qed.

Lemma pool_length {S A} (c c' : config S A) : rtc pstep c c' -> length c'.2 = length c.2.
Proof.
  induction 1 as [|c c1 c2 H _ IH]; [done|]. rewrite IH. inversion H; subst. cbn. apply length_insert.
Qed.

(** A scheduler: run the threads in the order of a list of thread indices
    (an index whose thread cannot step is skipped). *)
Fixpoint sched {S A} (c : config S A) (order : list nat) : config S A :=
  match order with
  | [] => c
  | i :: order' =>
      match c.2 !! i with
      | Some p =>
          match step_prog p c.1 with
          | Some (s', p') => sched (s', <[i := p']> c.2) order'
          | None => sched c order'
          end
      | None => sched c order'
      end
  end.

Lemma sched_reachable {S A} order (c : config S A) : rtc pstep c (sched c order).
Proof.
  revert c. induction order as [|i order IH]; intros [s ps]; simpl; [constructor|].
  destruct (ps !! i) as [p|] eqn:Ei; [|apply IH].
  destruct (step_prog p s) as [[s' p']|] eqn:Ep; [|apply IH].
  eapply rtc_l; [econstructor; eauto|apply IH].
Qed.

(** ** Termination

    A program tree is well founded, so every schedule of a pool is finite:
    the interleaving relation admits no infinite run. *)

Inductive thread_step {S A} : prog S A -> prog S A -> Prop :=
| thread_step_act {R} (f : S -> R * S) k r : thread_step (k r) (Act f k).

Lemma thread_step_acc {S A} (p : prog S A) : Acc thread_step p.
Proof.
  induction p as [a|R f k IH|e]; constructor; intros q H.
  - inversion H.
  - remember (Act f k) as p eqn:E. destruct H as [R' f' k' r].
    assert (Hq : exists r0, k' r = k r0).
    { refine (match E in _ = p return
                match p with Act f0 k0 => exists r0, k' r = k0 r0 | _ => False end
              with eq_refl => _ end). eauto. }
    destruct Hq as [r0 ->]. apply IH.
  - inversion H.
Qed.

Lemma step_prog_thread_step {S A} (p p' : prog S A) s s' :
  step_prog p s = Some (s', p') -> thread_step p' p.
Proof.
  destruct p as [a|R f k|e]; simpl; try done.
  destruct (f s) as [r s1]. intros [= <- <-]. constructor.
Qed.

Lemma pool_acc {S A} (ps : list (prog S A)) :
  Acc (fun qs ps => exists i p p', ps !! i = Some p /\ thread_step p' p /\ qs = <[i:=p']> ps) ps.
Proof.
  induction ps as [|p ps IH].
  - constructor. intros qs (i & p & p' & H & _). by rewrite lookup_nil in H.
  - revert ps IH. induction (thread_step_acc p) as [p _ IHp]. intros ps IHps.
    induction IHps as [ps Hps IHps'].
    constructor. intros qs (i & q & q' & Hi & Hs & ->).
    destruct i as [|i]; simpl in *.
    + simplify_eq. apply IHp; auto. by constructor.
    + apply IHps'. eauto 10.
Qed.

Lemma pstep_terminating {S A} (c : config S A) : Acc (flip pstep) c.
Proof.
  destruct c as [s ps]. revert s. induction (pool_acc ps) as [ps _ IH].
  intros s. constructor. intros c' H. unfold flip in H.
  inversion H as [s0 s' ps0 i p p' Hi Hp]; subst.
  apply IH. exists i, p, p'. split_and!; eauto using step_prog_thread_step.
Qed.

(** ** Rely-guarantee reasoning with ghost state *)

Section logic.
Context {S G : Type}.

(** [guar i] is what thread [i] may do in one step to the shared state and the
    ghost state; what thread [i] relies on is that the others keep theirs. *)
Variable guar : nat -> relation (S * G).

Definition rely (i : nat) : relation (S * G) :=
  fun x y => exists j, j <> i /\ guar j x y.

Fixpoint wp {A} (i : nat) (p : prog S A) (Q : A -> S * G -> Prop) (x : S * G) : Prop :=
  forall y, rtc (rely i) x y ->
    match p with
    | Ret a => Q a y
    | Act f k => exists g', guar i y ((f y.1).2, g') /\ wp i (k (f y.1).1) Q ((f y.1).2, g')
    | Fail _ => False
    end.

Definition stable (i : nat) (P : S * G -> Prop) : Prop :=
  forall x y, P x -> rely i x y -> P y.

Lemma stable_rtc i P x y : stable i P -> P x -> rtc (rely i) x y -> P y.
Proof. intros HS Hx H. induction H; eauto. Qed.

Lemma stable_and i P Q : stable i P -> stable i Q -> stable i (fun x => P x /\ Q x).
Proof. intros HP HQ x y [H1 H2] Hr. eauto. Qed.

Lemma wp_ret {A} i (a : A) (Q : A -> S * G -> Prop) x :
  stable i (Q a) -> Q a x -> wp i (Ret a) Q x.
Proof. intros HS Hx y Hy. eapply stable_rtc; eauto. Qed.

(** Return under a stable assertion that implies the postcondition. *)
Lemma wp_retP {A} i (P : S * G -> Prop) (a : A) (Q : A -> S * G -> Prop) x :
  stable i P -> P x -> (forall y, P y -> Q a y) -> wp i (Ret a) Q x.
Proof. intros HS Hx HQ y Hy. apply HQ. eapply stable_rtc; eauto. Qed.

Lemma wp_act {A R} i (P : S * G -> Prop) (f : S -> R * S) (k : R -> prog S A) Q x :
  stable i P -> P x ->
  (forall s g, P (s, g) ->
     exists g', guar i (s, g) ((f s).2, g') /\ wp i (k (f s).1) Q ((f s).2, g')) ->
  wp i (Act f k) Q x.
Proof.
  intros HS Hx H [s g] Hy. cbn [fst snd]. apply H. eapply stable_rtc; eauto.
Qed.

Lemma wp_rely {A} i (p : prog S A) Q x y :
  wp i p Q x -> rtc (rely i) x y -> wp i p Q y.
Proof.
  intros H Hxy. destruct p; simpl in *; intros z Hz;
    apply (H z (transitivity Hxy Hz)).
Qed.

Lemma wp_mono {A} i (p : prog S A) (Q Q' : A -> S * G -> Prop) x :
  (forall a y, Q a y -> Q' a y) -> wp i p Q x -> wp i p Q' x.
Proof.
  intros HQ. revert x. induction p as [a|R f k IH|e]; simpl; intros x H y Hy; auto.
  - destruct (H y Hy) as (g' & Hg & Hk). eauto.
  - exact (H y Hy).
Qed.

Lemma wp_bind {A B} i (p : prog S A) (k : A -> prog S B) Q x :
  wp i p (fun a => wp i (k a) Q) x -> wp i (bind p k) Q x.
Proof.
  revert x. induction p as [a|R f c IH|e]; simpl; intros x H.
  - apply (H x). constructor.
  - intros y Hy. destruct (H y Hy) as (g' & Hg & Hk). eauto.
  - intros y Hy. exact (H y Hy).
Qed.

Lemma wp_bind_inv {A B} i (p : prog S A) (k : A -> prog S B) Q x :
  wp i (bind p k) Q x -> wp i p (fun a => wp i (k a) Q) x.
Proof.
  revert x. induction p as [a|R f c IH|e]; simpl; intros x H.
  - intros y Hy. by eapply wp_rely.
  - intros y Hy. destruct (H y Hy) as (g' & Hg & Hk). eauto.
  - intros y Hy. exact (H y Hy).
Qed.

Lemma wp_bind_ret {A} i (p : prog S A) Q x : wp i (bind p Ret) Q x -> wp i p Q x.
Proof.
  revert x. induction p as [a|R f c IH|e]; simpl; intros x H.
  - exact H.
  - intros y Hy. destruct (H y Hy) as (g' & Hg & Hk). eauto.
  - intros y Hy. exact (H y Hy).
Qed.

(** A program that cannot fault needs no handler; a handler distributes over
    sequencing. *)
Lemma wp_catch {A} i (p : prog S A) (Q : result A fault -> S * G -> Prop) x :
  wp i p (fun a => Q (Ok a)) x -> wp i (catch p) Q x.
Proof.
  revert x. induction p as [a|R f c IH|e]; simpl; intros x H y Hy.
  - by apply H.
  - destruct (H y Hy) as (g' & Hg & Hk). eauto.
  - destruct (H y Hy).
Qed.

Lemma wp_catch_bind {A B} i (p : prog S A) (k : A -> prog S B) (Q : result B fault -> S * G -> Prop) x :
  wp i (catch p) (fun r => match r with Ok a => wp i (catch (k a)) Q | Err e => Q (Err e) end) x ->
  wp i (catch (bind p k)) Q x.
Proof.
  revert x. induction p as [a|R f c IH|e]; simpl; intros x H.
  - apply (H x). constructor.
  - intros y Hy. destruct (H y Hy) as (g' & Hg & Hk). eauto.
  - intros y Hy. exact (H y Hy).
Qed.

(** Continuations that agree. *)
Lemma wp_bind_ext {A B} i (p : prog S A) (k k' : A -> prog S B) Q x :
  (forall a, k a = k' a) -> wp i (bind p k) Q x -> wp i (bind p k') Q x.
Proof.
  intros E H. apply wp_bind. eapply wp_mono; [|exact (wp_bind_inv i p k Q x H)]. cbn. intros a y. by rewrite E.
Qed.

(** A call of a sub-program with a specification. *)
Lemma wp_call {A B} i (p : prog S A) (k : A -> prog S B) (R : A -> S * G -> Prop) Q x :
  wp i p R x ->
  (forall a y, R a y -> wp i (k a) Q y) ->
  wp i (bind p k) Q x.
Proof. intros H1 H2. apply wp_bind. eapply wp_mono; eauto. Qed.

(** What every step of every thread keeps. *)
Lemma wp_inv {A} i (I : S * G -> Prop) (p : prog S A) Q x :
  (forall j x y, I x -> guar j x y -> I y) -> I x -> wp i p Q x -> wp i p (fun a y => Q a y /\ I y) x.
Proof.
  intros HI. assert (Hrt : forall x y, I x -> rtc (rely i) x y -> I y).
  { intros u v Hu H. induction H as [|u w v (j & _ & Hg) _ IH]; [done|]. eauto. }
  revert x. induction p as [a|R f k IH|e]; intros x Hx Hw y Hy.
  - split; [by apply Hw|eauto].
  - destruct (Hw y Hy) as (g' & Hg & Hk). exists g'. split; [done|]. apply IH; [eauto|done].
  - exact (Hw y Hy).
Qed.

(** A thread whose specification holds runs to completion when it is alone,
    and what it does on the way is allowed to it. *)
Lemma wp_run_guar {A} i (p : prog S A) Q s g :
  wp i p Q (s, g) ->
  exists a s' g', run p s = (Done a, s') /\ Q a (s', g') /\ rtc (guar i) (s, g) (s', g').
Proof.
  revert s g. induction p as [a|R f k IH|e]; simpl; intros s g H.
  - exists a, s, g. split_and!; auto; [apply H; constructor|constructor].
  - destruct (H (s, g)) as (g' & Hg & Hk); [constructor|].
    destruct (f s) as [r s1] eqn:E. simpl in *. rewrite E in Hg, Hk.
    destruct (IH _ _ _ Hk) as (a & s' & g2 & Hr & HQ & Hrt). exists a, s', g2. split_and!; auto.
    eapply rtc_l; eauto.
  - destruct (H (s, g)). constructor.
Qed.

Lemma wp_run {A} i (p : prog S A) Q s g :
  wp i p Q (s, g) -> exists a s' g', run p s = (Done a, s') /\ Q a (s', g').
Proof. intros (a & s' & g' & H1 & H2 & _)%wp_run_guar. eauto. Qed.

(** What another thread knows stays true meanwhile. *)
Lemma stable_guar i j P x y : i <> j -> stable j P -> P x -> rtc (guar i) x y -> P y.
Proof. intros Hne HS Hx H. induction H as [|x z y Hxz _ IH]; [done|]. apply IH. eapply HS; [done|]. by exists i. Qed.

(** Soundness: when every thread of the pool has a specification, all of them
    still hold after any number of steps of any schedule. *)
Definition pool_wp {A} (Q : nat -> A -> S * G -> Prop) (ps : list (prog S A)) (x : S * G) : Prop :=
  forall i p, ps !! i = Some p -> wp i p (Q i) x.

Lemma pool_step {A} (Q : nat -> A -> S * G -> Prop) s ps s' ps' g :
  pool_wp Q ps (s, g) -> pstep (s, ps) (s', ps') ->
  exists i g', guar i (s, g) (s', g') /\ pool_wp Q ps' (s', g').
Proof.
  intros HW H. inversion H as [s0 s1 ps0 i p p' Hi Hp]; subst.
  destruct p as [a|R f k|e]; simpl in Hp; try done.
  destruct (f s) as [r s1] eqn:E. simplify_eq.
  pose proof (HW _ _ Hi) as Hw. simpl in Hw.
  destruct (Hw (s, g)) as (g' & Hg & Hk); [constructor|].
  simpl in *. rewrite E in Hg, Hk. simpl in *.
  exists i, g'. split; auto. intros j q Hj.
  destruct (decide (i = j)) as [<-|Hne].
  - rewrite list_lookup_insert_eq in Hj by (eapply lookup_lt_Some; eauto). by simplify_eq.
  - rewrite list_lookup_insert_ne in Hj by done.
    eapply wp_rely; [apply HW; eauto|]. apply rtc_once. exists i. auto.
Qed.

Theorem pool_sound {A} (Q : nat -> A -> S * G -> Prop) s ps s' ps' g :
  pool_wp Q ps (s, g) -> rtc pstep (s, ps) (s', ps') ->
  exists g', pool_wp Q ps' (s', g').
Proof.
  intros HW H. remember (s, ps) as c eqn:Ec. remember (s', ps') as c' eqn:Ec'.
  revert s ps g Ec HW. induction H as [|c c1 c2 H1 H2 IH]; intros; simplify_eq.
  - eauto.
  - destruct c1 as [s1 ps1]. destruct (pool_step Q s ps s1 ps1 g) as (i & g1 & _ & HW1); auto.
    eapply IH; eauto.
Qed.

(** What every step keeps holds in every state of every schedule. *)
Lemma pool_inv {A} (I : S * G -> Prop) (Q : nat -> A -> S * G -> Prop) s ps s' ps' g :
  (forall i x y, I x -> guar i x y -> I y) -> I (s, g) -> pool_wp Q ps (s, g) -> rtc pstep (s, ps) (s', ps') ->
  exists g', I (s', g') /\ pool_wp Q ps' (s', g').
Proof.
  intros HI Hi HW H. remember (s, ps) as c eqn:Ec. remember (s', ps') as c' eqn:Ec'.
  revert s ps g Ec Hi HW. induction H as [|c c1 c2 H1 H2 IH]; intros; simplify_eq.
  - eauto.
  - destruct c1 as [s1 ps1]. destruct (pool_step Q s ps s1 ps1 g) as (i & g1 & Hg & HW1); auto.
    eapply IH; eauto.
Qed.

(** No thread of the pool faults, and a finished thread has its
    postcondition. *)
Lemma pool_wp_not_fail {A} (Q : nat -> A -> S * G -> Prop) ps x i e :
  pool_wp Q ps x -> ps !! i = Some (Fail e) -> False.
Proof. intros HW Hi. apply (HW _ _ Hi x). constructor. Qed.

Lemma pool_wp_ret {A} (Q : nat -> A -> S * G -> Prop) ps x i a :
  pool_wp Q ps x -> ps !! i = Some (Ret a) -> Q i a x.
Proof. intros HW Hi. apply (HW _ _ Hi x). constructor. Qed.

(** A pool whose specifications hold is never stuck: it can step or every
    thread has returned. *)
Lemma pool_progress {A} (Q : nat -> A -> S * G -> Prop) ps x :
  pool_wp Q ps x -> forall c : config S A, c.2 = ps -> (exists c', pstep c c') \/ finished c.
Proof.
  intros HW [s qs] E. cbn in E. subst qs. unfold finished. cbn [snd].
  destruct (decide (Exists (fun p => is_Some (step_prog p s)) ps)) as [He|He].
  - left. apply Exists_exists in He as (p & Hin & [s1 p1] & Hp).
    apply list_elem_of_lookup in Hin as [i Hi]. eexists. econstructor; eauto.
  - right. apply Forall_forall. intros p Hin. apply list_elem_of_lookup in Hin as [i Hi].
    destruct p as [a|R f k|e]; [eauto| |].
    + destruct He. apply Exists_exists. exists (Act f k). split; [by eapply list_elem_of_lookup_2|].
      cbn. destruct (f s). eauto.
    + exfalso. eapply pool_wp_not_fail; eauto.
Qed.

(** One thread of one kind and any number of another: what they end with. *)
Definition one_many {E A} (P : E -> S * G -> Prop) (Q : nat -> A -> S * G -> Prop) (i : nat) (r : E + A) (x : S * G) : Prop :=
  match i with O => exists e, r = inl e /\ P e x | Datatypes.S k => exists a, r = inr a /\ Q k a x end.

Lemma pool_one_many {E A} (P : E -> S * G -> Prop) (Q : nat -> A -> S * G -> Prop) (ps ps' : list (prog S (E + A))) s s' g :
  pool_wp (one_many P Q) ps (s, g) -> rtc pstep (s, ps) (s', ps') -> ps <> [] ->
  (exists c', pstep (s', ps') c') \/
  exists e l g', ps' = Ret (inl e) :: ((fun a => Ret (inr a)) <$> l) /\ Datatypes.S (length l) = length ps /\
    P e (s', g') /\ forall k a, l !! k = Some a -> Q k a (s', g').
Proof.
  intros Hw Hr Hne. destruct (pool_sound _ _ _ _ _ _ Hw Hr) as [g' Hw'].
  destruct (pool_progress _ _ _ Hw' (s', ps') eq_refl) as [|Hfin]; [by left|right].
  destruct (finished_values _ _ Hfin) as [rs ->]. pose proof (pool_length _ _ Hr) as Hlen. cbn [snd] in Hlen. rewrite length_fmap in Hlen.
  destruct rs as [|r0 rs]; [by destruct ps|]. destruct (pool_wp_ret _ _ _ 0 r0 Hw' eq_refl) as (e & -> & HP).
  assert (Hpost : forall k r, rs !! k = Some r -> one_many P Q (Datatypes.S k) r (s', g')).
  { intros k r Hk. apply (pool_wp_ret _ _ _ (Datatypes.S k) _ Hw'). cbn.
    change ((Ret <$> rs) !! k = Some (Ret (S := S) r)). by rewrite list_lookup_fmap, Hk. }
  destruct (list_all_inr rs) as [l ->]; [intros k r Hk; destruct (Hpost k r Hk) as (a & -> & _); eauto|].
  exists e, l, g'. rewrite <- Hlen. cbn. rewrite length_fmap. split; [|split; [done|split; [done|]]].
  - f_equal. change (Ret <$> (inr <$> l) = (fun a => Ret (S := S) (A := E + A) (inr a)) <$> l). by rewrite <- list_fmap_compose.
  - intros k a Hk. destruct (Hpost k (inr a)) as (a' & [= <-] & HQ); [by rewrite list_lookup_fmap, Hk|done].
Qed.

End logic.
Arguments wp : simpl never.

(** [focus] and [lift] distribute over [bind]. *)
Lemma wp_focus_bind {S1 S2 G A B} (guar : nat -> relation (S2 * G)) i
    (get : S2 -> option S1) (put : S1 -> S2 -> S2) (p : prog S1 A) (k : A -> prog S1 B) Q x :
  wp guar i (bind (focus get put p) (fun a => focus get put (k a))) Q x ->
  wp guar i (focus get put (bind p k)) Q x.
Proof.
  revert x. induction p as [a|R f c IH|e]; intros x H.
  - exact H.
  - intros y Hy. destruct (H y Hy) as (g' & Hg & Hk). exists g'. split; [exact Hg|].
    cbn in *. destruct (get y.1) as [s1|]; [|exact Hk]. destruct (f s1) as [r s1']. cbn in *. by apply IH.
  - exact H.
Qed.

Lemma wp_lift_bind {S1 S2 G A B} (guar : nat -> relation (S2 * G)) i
    (get : S2 -> S1) (put : S1 -> S2 -> S2) (p : prog S1 A) (k : A -> prog S1 B) Q x :
  wp guar i (bind (lift get put p) (fun a => lift get put (k a))) Q x ->
  wp guar i (lift get put (bind p k)) Q x.
Proof.
  revert x. induction p as [a|R f c IH|e]; intros x H.
  - exact H.
  - intros y Hy. destruct (H y Hy) as (g' & Hg & Hk). exists g'. split; [exact Hg|]. by apply IH.
  - exact H.
Qed.

Lemma usub_ret {S} a b : b <= a -> usub (S := S) a b = Ret (a - b).
Proof. intros H. unfold usub. destruct (Z.ltb_spec a b); [lia|done]. Qed.

Lemma stable_pure {S G} (guar : nat -> relation (S * G)) i (P : Prop) (Q : S * G -> Prop) :
  stable guar i Q -> stable guar i (fun x => P /\ Q x).
Proof. intros H x y [HP HQ] Hr. split; [done|]. eauto. Qed.

Lemma stable_ex {S G A} (guar : nat -> relation (S * G)) i (Q : A -> S * G -> Prop) :
  (forall a, stable guar i (Q a)) -> stable guar i (fun x => exists a, Q a x).
Proof. intros H x y [a HQ] Hr. exists a. by eapply H. Qed.

(** ** Embedding a component's argument in a larger one

    The component's programs run in a part of a larger shared state, with a
    part of a larger ghost state.  [F] is what the caller knows about the rest:
    under [F] the other threads behave as the component relies on, and the
    component's own steps are allowed to the caller's thread [j]. *)

Section embed.
Context {S1 S2 G1 G2 : Type} (guar1 : nat -> relation (S1 * G1)) (guar2 : nat -> relation (S2 * G2)).
Context (get : S2 -> S1) (put : S1 -> S2 -> S2) (gget : G2 -> G1) (gput : G1 -> G2 -> G2).
Context (get_put : forall s1 s, get (put s1 s) = s1) (gget_gput : forall g1 g, gget (gput g1 g) = g1).

Definition embeds (i j : nat) (F : S2 * G2 -> Prop) : Prop :=
  (forall x y, F x -> rely guar2 j x y -> F y /\ rtc (rely guar1 i) (get x.1, gget x.2) (get y.1, gget y.2)) /\
  (forall s g s1 g1, F (s, g) -> guar1 i (get s, gget g) (s1, g1) ->
     guar2 j (s, g) (put s1 s, gput g1 g) /\ F (put s1 s, gput g1 g)).

Lemma embeds_rely i j F x y :
  embeds i j F -> F x -> rtc (rely guar2 j) x y ->
  F y /\ rtc (rely guar1 i) (get x.1, gget x.2) (get y.1, gget y.2).
Proof.
  intros [H _] Hx Hr. revert Hx. induction Hr as [x|x y z Hxy _ IH]; intros Hx; [by split|].
  destruct (H _ _ Hx Hxy) as [Hy R1]. destruct (IH Hy) as [Hz R2]. split; [done|]. by etransitivity.
Qed.

Lemma wp_embed {A} i j F (p : prog S1 A) (Q : A -> S1 * G1 -> Prop) x :
  embeds i j F -> F x -> wp guar1 i p Q (get x.1, gget x.2) ->
  wp guar2 j (lift get put p) (fun a y => Q a (get y.1, gget y.2) /\ F y) x.
Proof.
  intros HE. revert x. induction p as [a|R f k IH|e]; intros x Hx H y Hy;
    destruct (embeds_rely _ _ _ _ _ HE Hx Hy) as [HF Hr]; specialize (H _ Hr).
  - by split.
  - destruct y as [s g]. destruct H as (g1 & Hg & Hk). cbn [fst snd] in *.
    destruct HE as [HE1 HE2]. destruct (f (get s)) as [r s1] eqn:E. cbn [fst snd] in *.
    destruct (HE2 _ _ _ _ HF Hg) as [Hg2 HF2]. exists (gput g1 g). split; [done|].
    apply IH; [done|]. cbn [fst snd]. by rewrite get_put, gget_gput.
  - done.
Qed.

(** An assertion on the component alone, kept by the component's rely, is
    stable together with [F]. *)
Lemma embeds_stable i j F (P : S1 * G1 -> Prop) :
  embeds i j F -> stable guar1 i P -> stable guar2 j (fun x => F x /\ P (get x.1, gget x.2)).
Proof.
  intros [HE _] HP x y [HF Hx] Hy. destruct (HE _ _ HF Hy) as [HF' Hr]. split; [done|].
  by eapply stable_rtc.
Qed.

End embed.
