(* ===== verification/ProgPartial.v ===== *)
(** * Partial specifications

    [wp] of Prog is total: a program that satisfies it does not fault.  A second
    aspect of the same program can be argued separately, taking for granted
    that it does not fault and that an invariant [J] of the first argument
    holds at every step: that is [wlp].  [wp_wlp] joins the two arguments. *)

From S2P Require Import Prelude Prog.
Local Open Scope prog_scope.

Section partial.
Context {S G : Type} (J : S -> Prop) (guar : nat -> relation (S * G)).

Fixpoint wlp {A} (i : nat) (p : prog S A) (Q : A -> S * G -> Prop) (x : S * G) : Prop :=
  forall y, rtc (rely guar i) x y -> J y.1 ->
    match p with
    | Ret a => Q a y
    | Act f k => exists g', guar i y ((f y.1).2, g') /\ wlp i (k (f y.1).1) Q ((f y.1).2, g')
    | Fail _ => True
    end.

Lemma wlp_mono {A} i (p : prog S A) (Q Q' : A -> S * G -> Prop) x :
  (forall a y, Q a y -> Q' a y) -> wlp i p Q x -> wlp i p Q' x.
Proof.
  intros HQ. revert x. induction p as [a|R f k IH|e]; simpl; intros x H y Hy Hj; auto.
  destruct (H y Hy Hj) as (g' & Hg & Hk). eauto.
Qed.

Lemma wlp_bind {A B} i (p : prog S A) (k : A -> prog S B) Q x :
  wlp i p (fun a y => J y.1 -> wlp i (k a) Q y) x -> wlp i (bind p k) Q x.
Proof.
  revert x. induction p as [a|R f c IH|e]; simpl; intros x H.
  - destruct (k a) as [b|R f c|e] eqn:E; intros y Hy Hj; specialize (H y Hy Hj Hj); simpl in H; by apply (H y).
  - intros y Hy Hj. destruct (H y Hy Hj) as (g' & Hg & Hk). eauto.
  - done.
Qed.

Lemma wlp_call {A B} i (p : prog S A) (k : A -> prog S B) (R : A -> S * G -> Prop) Q x :
  wlp i p R x -> (forall a y, R a y -> J y.1 -> wlp i (k a) Q y) -> wlp i (bind p k) Q x.
Proof. intros H1 H2. apply wlp_bind. eapply wlp_mono; eauto. Qed.

Lemma wlp_ret {A} i (P : S * G -> Prop) (a : A) (Q : A -> S * G -> Prop) x :
  stable guar i P -> P x -> (forall y, P y -> Q a y) -> wlp i (Ret a) Q x.
Proof. intros HS Hx HQ y Hy _. apply HQ. eapply stable_rtc; eauto. Qed.

Lemma wlp_act {A R} i (P : S * G -> Prop) (f : S -> R * S) (k : R -> prog S A) Q x :
  stable guar i P -> P x ->
  (forall s g, P (s, g) -> J s -> exists g', guar i (s, g) ((f s).2, g') /\ wlp i (k (f s).1) Q ((f s).2, g')) ->
  wlp i (Act f k) Q x.
Proof. intros HS Hx H [s g] Hy Hj. apply H; [by eapply stable_rtc|done]. Qed.

Lemma wlp_bind_ext {A B} i (p : prog S A) (k k' : A -> prog S B) Q x :
  (forall a, k a = k' a) -> wlp i (bind p k) Q x -> wlp i (bind p k') Q x.
Proof.
  intros E. revert x. induction p as [a|R f c IH|e]; simpl; intros x H.
  - by rewrite <- E.
  - intros y Hy Hj. destruct (H y Hy Hj) as (g' & Hg & Hk). eauto.
  - done.
Qed.

Lemma wlp_bind_ret {A} i (p : prog S A) Q x : wlp i (bind p Ret) Q x -> wlp i p Q x.
Proof.
  revert x. induction p as [a|R f c IH|e]; simpl; intros x H; [exact H| |exact H].
  intros y Hy Hj. destruct (H y Hy Hj) as (g' & Hg & Hk). eauto.
Qed.

Lemma wlp_lift_bind {S1 A B} i (get : S -> S1) (put : S1 -> S -> S) (p : prog S1 A) (k : A -> prog S1 B) Q x :
  wlp i (bind (lift get put p) (fun a => lift get put (k a))) Q x -> wlp i (lift get put (bind p k)) Q x.
Proof.
  revert x. induction p as [a|R f c IH|e]; intros x H; [exact H| |exact H].
  intros y Hy Hj. destruct (H y Hy Hj) as (g' & Hg & Hk). exists g'. split; [exact Hg|]. by apply IH.
Qed.

End partial.
Arguments wlp : simpl never.

(** ** The product of two arguments *)

Section product.
Context {S G1 G2 : Type} (J : S -> Prop) (guar1 : nat -> relation (S * G1)) (guar2 : nat -> relation (S * G2)).

Definition guar_both (i : nat) : relation (S * (G1 * G2)) := fun x y =>
  guar1 i (x.1, x.2.1) (y.1, y.2.1) /\ guar2 i (x.1, x.2.2) (y.1, y.2.2).

Lemma rely_both i x y :
  rtc (rely guar_both i) x y ->
  rtc (rely guar1 i) (x.1, x.2.1) (y.1, y.2.1) /\ rtc (rely guar2 i) (x.1, x.2.2) (y.1, y.2.2).
Proof.
  induction 1 as [|x y z (j & Hj & H1 & H2) _ [IH1 IH2]]; [by split; constructor|].
  split; (eapply rtc_l; [|eassumption]); by exists j.
Qed.

Lemma wp_wlp {A} i (p : prog S A) (Q1 : A -> S * G1 -> Prop) (Q2 : A -> S * G2 -> Prop) (I : S * G1 -> Prop) x :
  (forall y, I y -> J y.1) -> (forall j y z, I y -> guar1 j y z -> I z) -> I (x.1, x.2.1) ->
  wp guar1 i p Q1 (x.1, x.2.1) -> wlp J guar2 i p Q2 (x.1, x.2.2) ->
  wp guar_both i p (fun a y => Q1 a (y.1, y.2.1) /\ Q2 a (y.1, y.2.2) /\ I (y.1, y.2.1)) x.
Proof.
  intros HJ HI. assert (Hrt : forall y z, I y -> rtc (rely guar1 i) y z -> I z).
  { intros y z Hy H. induction H as [|u v w (j & _ & Hg) _ IH]; [done|]. eauto. }
  revert x. induction p as [a|R f k IH|e]; intros x Hx H1 H2 y Hy; destruct (rely_both _ _ _ Hy) as [Hy1 Hy2].
  - split; [by apply H1|]. split; [apply H2; [done|]; apply (HJ (y.1, y.2.1))|]; eauto.
  - destruct (H1 _ Hy1) as (g1 & Hg1 & Hk1). destruct (H2 _ Hy2) as (g2 & Hg2 & Hk2); [apply (HJ (y.1, y.2.1)); eauto|].
    exists (g1, g2). split; [by split|]. apply IH; [|exact Hk1|exact Hk2]. eapply HI; [by eapply Hrt|exact Hg1].
  - exact (H1 _ Hy1).
Qed.

End product.

(** ** Results that do not depend on the state *)

Fixpoint yields {S A} (p : prog S A) (P : A -> Prop) : Prop :=
  match p with
  | Ret a => P a
  | Act f k => forall s, yields (k (f s).1) P
  | Fail _ => True
  end.

Lemma yields_bind {S A B} (p : prog S A) (k : A -> prog S B) (P : A -> Prop) (P' : B -> Prop) :
  yields p P -> (forall a, P a -> yields (k a) P') -> yields (bind p k) P'.
Proof. intros Hp Hk. induction p as [a|R f c IH|e]; cbn in *; auto. Qed.

Lemma yields_mono {S A} (p : prog S A) (P P' : A -> Prop) : (forall a, P a -> P' a) -> yields p P -> yields p P'.
Proof. intros H Hp. induction p as [a|R f c IH|e]; cbn in *; auto. Qed.

Lemma yields_true {S A} (p : prog S A) : yields p (fun _ => True).
Proof. induction p; cbn; auto. Qed.

Lemma yields_skip {S A B} (p : prog S A) (k : A -> prog S B) (P : B -> Prop) :
  (forall a, yields (k a) P) -> yields (bind p k) P.
Proof. intros Hk. eapply yields_bind; [apply yields_true|]. intros a _. apply Hk. Qed.

Lemma yields_run {S A} (P : A -> Prop) (p : prog S A) s a s' : yields p P -> run p s = (Done a, s') -> P a.
Proof.
  revert s. induction p as [b|R f k IH|e]; intros s Hp E; cbn in *; [by simplify_eq| |done].
  specialize (Hp s). destruct (f s) as [r s0]. by eapply IH.
Qed.

Lemma wp_yields {S G A} (guar : nat -> relation (S * G)) i (P : A -> Prop) (p : prog S A) Q x :
  yields p P -> wp guar i p Q x -> wp guar i p (fun a y => Q a y /\ P a) x.
Proof.
  revert x. induction p as [a|R f k IH|e]; intros x Hp H y Hy.
  - split; [by apply H|done].
  - destruct (H y Hy) as (g' & Hg & Hk). exists g'. split; [done|]. by apply IH.
  - exact (H y Hy).
Qed.

Lemma yields_lift {S1 S2 A} (get : S2 -> S1) (put : S1 -> S2 -> S2) (p : prog S1 A) P : yields p P -> yields (lift get put p) P.
Proof.
  intros H. induction p as [a|R f k IH|e]; cbn in *; auto. intros s. specialize (H (get s)). destruct (f (get s)). by apply IH.
Qed.

Lemma yields_focus {S1 S2 A} (get : S2 -> option S1) (put : S1 -> S2 -> S2) (p : prog S1 A) P :
  yields p P -> yields (focus get put p) P.
Proof.
  intros H. induction p as [a|R f k IH|e]; cbn in *; auto. intros s. destruct (get s) as [s1|]; cbn; [|done].
  specialize (H s1). destruct (f s1). by apply IH.
Qed.

(** A part of the state a component's program keeps. *)
Lemma keeps_focus {S1 S2 R1 R2 A} (get : S2 -> option S1) (put : S1 -> S2 -> S2) (part1 : S1 -> R1) (part : S2 -> R2) (p : prog S1 A) :
  (forall s s1 s1', get s = Some s1 -> part1 s1' = part1 s1 -> part (put s1' s) = part s) ->
  keeps part1 p -> keeps part (focus get put p).
Proof.
  intros H Hp. induction p as [a|R f k IH|e]; cbn; auto. destruct Hp as [H1 H2]. split.
  - intros s. destruct (get s) as [s1|] eqn:E; [|done]. specialize (H1 s1). destruct (f s1) as [r s1']. by eapply H.
  - intros [r|]; [by apply IH|done].
Qed.

Lemma keeps_lift_part {S1 S2 R1 R2 A} (get : S2 -> S1) (put : S1 -> S2 -> S2) (part1 : S1 -> R1) (part : S2 -> R2) (p : prog S1 A) :
  (forall s s1, part1 s1 = part1 (get s) -> part (put s1 s) = part s) -> keeps part1 p -> keeps part (lift get put p).
Proof.
  intros H Hp. induction p as [a|R f k IH|e]; cbn; auto. destruct Hp as [H1 H2]. split; [|auto].
  intros s. specialize (H1 (get s)). destruct (f (get s)) as [r s1]. by apply H.
Qed.

(** Results that depend on what holds of the state at every step. *)
Fixpoint yields_in {S A} (I : S -> Prop) (p : prog S A) (P : A -> Prop) : Prop :=
  match p with
  | Ret a => P a
  | Act f k => forall s, I s -> yields_in I (k (f s).1) P
  | Fail _ => True
  end.

Lemma yields_in_bind {S A B} I (p : prog S A) (k : A -> prog S B) (P : A -> Prop) (P' : B -> Prop) :
  yields_in I p P -> (forall a, P a -> yields_in I (k a) P') -> yields_in I (bind p k) P'.
Proof. intros Hp Hk. induction p as [a|R f c IH|e]; cbn in *; auto. Qed.

Lemma yields_yields_in {S A} I (p : prog S A) P : yields p P -> yields_in I p P.
Proof. intros H. induction p as [a|R f c IH|e]; cbn in *; auto. Qed.

Lemma yields_in_lift {S1 S2 A} (I1 : S1 -> Prop) (I2 : S2 -> Prop) (get : S2 -> S1) (put : S1 -> S2 -> S2) (p : prog S1 A) P :
  (forall s, I2 s -> I1 (get s)) -> yields_in I1 p P -> yields_in I2 (lift get put p) P.
Proof.
  intros HI H. induction p as [a|R f k IH|e]; cbn in *; auto. intros s Hs. specialize (H (get s) (HI s Hs)).
  destruct (f (get s)). by apply IH.
Qed.

Lemma yields_in_focus {S1 S2 A} (I1 : S1 -> Prop) (I2 : S2 -> Prop) (get : S2 -> option S1) (put : S1 -> S2 -> S2) (p : prog S1 A) P :
  (forall s s1, I2 s -> get s = Some s1 -> I1 s1) -> yields_in I1 p P -> yields_in I2 (focus get put p) P.
Proof.
  intros HI H. induction p as [a|R f k IH|e]; cbn in *; auto. intros s Hs. destruct (get s) as [s1|] eqn:E; cbn; [|done].
  specialize (H s1 (HI s s1 Hs E)). destruct (f s1). by apply IH.
Qed.
