(* ===== verification/Config.v ===== *)
(** * Errors, configuration and teardown policies

    Models [src/src/error.rs] (every error type with its predicates, its
    [into_inner] and its [Display] text), [src/src/config.rs] (capacity
    validation, wait strategies and the spin phase of blocking operations) and
    [src/src/teardown.rs].  Instants and durations are nanosecond counts; the
    value [Instant::now()] returns is an argument of the functions that read
    the clock. *)

From stdpp Require Import pretty.
From S2P Require Import Prelude.

(** ** error.rs *)

Inductive ChannelError : Type :=
| ZeroCapacity
| CapacityTooLarge (requested max : Z).

Definition ChannelError_is_zero_capacity (e : ChannelError) : bool :=
  match e with ZeroCapacity => true | CapacityTooLarge _ _ => false end.
Definition ChannelError_is_capacity_too_large (e : ChannelError) : bool :=
  match e with CapacityTooLarge _ _ => true | ZeroCapacity => false end.

(** Decimal printing of a [usize]. *)
Definition fmt_usize (n : Z) : string := pretty (Z.to_N n).

Definition ChannelError_fmt (e : ChannelError) : string :=
  match e with
  | ZeroCapacity => "capacity_per_sender must be > 0"
  | CapacityTooLarge _ max => String.append "capacity_per_sender must be <= " (fmt_usize max)
  end.

Inductive TryRegisterError : Type := TryRegister_Disconnected.
Definition TryRegisterError_is_disconnected (e : TryRegisterError) : bool := true.
Definition TryRegisterError_fmt (e : TryRegisterError) : string :=
  match e with TryRegister_Disconnected => "all receivers have been dropped" end.

Inductive TryRegisterBoundedError : Type :=
| TryRegisterBounded_Disconnected
| TryRegisterBounded_AtCapacity.
Definition TryRegisterBoundedError_is_disconnected (e : TryRegisterBoundedError) : bool :=
  match e with TryRegisterBounded_Disconnected => true | _ => false end.
Definition TryRegisterBoundedError_fmt (e : TryRegisterBoundedError) : string :=
  match e with
  | TryRegisterBounded_Disconnected => "all receivers have been dropped"
  | TryRegisterBounded_AtCapacity => "sender registration limit reached"
  end.

Inductive SendError (T : Type) : Type := mkSendError (value : T).
Arguments mkSendError {T} value.
Definition SendError_into_inner {T} (e : SendError T) : T := match e with mkSendError v => v end.
Definition SendError_is_disconnected {T} (e : SendError T) : bool := true.
Definition SendError_fmt {T} (e : SendError T) : string := "all receivers have been dropped".

Inductive TrySendError (T : Type) : Type :=
| Full (value : T)
| TrySend_Disconnected (value : T).
Arguments Full {T} value.
Arguments TrySend_Disconnected {T} value.
Definition TrySendError_into_inner {T} (e : TrySendError T) : T :=
  match e with Full v | TrySend_Disconnected v => v end.
Definition TrySendError_is_full {T} (e : TrySendError T) : bool :=
  match e with Full _ => true | _ => false end.
Definition TrySendError_is_disconnected {T} (e : TrySendError T) : bool :=
  match e with TrySend_Disconnected _ => true | _ => false end.
Definition TrySendError_fmt {T} (e : TrySendError T) : string :=
  match e with
  | Full _ => "sender ring is full"
  | TrySend_Disconnected _ => "all receivers have been dropped"
  end.

Inductive SendTimeoutError (T : Type) : Type :=
| SendTimeout_Timeout (value : T)
| SendTimeout_Disconnected (value : T).
Arguments SendTimeout_Timeout {T} value.
Arguments SendTimeout_Disconnected {T} value.
Definition SendTimeoutError_into_inner {T} (e : SendTimeoutError T) : T :=
  match e with SendTimeout_Timeout v | SendTimeout_Disconnected v => v end.
Definition SendTimeoutError_is_timeout {T} (e : SendTimeoutError T) : bool :=
  match e with SendTimeout_Timeout _ => true | _ => false end.
Definition SendTimeoutError_is_disconnected {T} (e : SendTimeoutError T) : bool :=
  match e with SendTimeout_Disconnected _ => true | _ => false end.
Definition SendTimeoutError_fmt {T} (e : SendTimeoutError T) : string :=
  match e with
  | SendTimeout_Timeout _ => "timed out waiting for sender capacity"
  | SendTimeout_Disconnected _ => "all receivers have been dropped"
  end.

Inductive RecvError : Type := mkRecvError.
Definition RecvError_is_disconnected (e : RecvError) : bool := true.
Definition RecvError_fmt (e : RecvError) : string := "all senders have been dropped".

Inductive TryRecvError : Type := TryRecv_Empty | TryRecv_Disconnected.
Definition TryRecvError_is_empty (e : TryRecvError) : bool :=
  match e with TryRecv_Empty => true | _ => false end.
Definition TryRecvError_is_disconnected (e : TryRecvError) : bool :=
  match e with TryRecv_Disconnected => true | _ => false end.
Definition TryRecvError_fmt (e : TryRecvError) : string :=
  match e with
  | TryRecv_Empty => "channel is empty"
  | TryRecv_Disconnected => "all senders have been dropped"
  end.

Inductive RecvTimeoutError : Type := RecvTimeout_Timeout | RecvTimeout_Disconnected.
Definition RecvTimeoutError_is_timeout (e : RecvTimeoutError) : bool :=
  match e with RecvTimeout_Timeout => true | _ => false end.
Definition RecvTimeoutError_is_disconnected (e : RecvTimeoutError) : bool :=
  match e with RecvTimeout_Disconnected => true | _ => false end.
Definition RecvTimeoutError_fmt (e : RecvTimeoutError) : string :=
  match e with
  | RecvTimeout_Timeout => "timed out waiting for a message"
  | RecvTimeout_Disconnected => "all senders have been dropped"
  end.

#[export] Instance TryRecvError_eq_dec : EqDecision TryRecvError.
Proof. solve_decision. Defined.

(** ** teardown.rs *)

Inductive Teardown : Type := Deferred | Coordinated.
Definition COORDINATED (p : Teardown) : bool :=
  match p with Deferred => false | Coordinated => true end.

(** ** config.rs *)

Definition CLOCK_CHECK_INTERVAL : Z := 16.
Definition PARK_SPIN : Z := 10000.

Inductive WaitStrategy : Type :=
| Park
| SpinFor (duration : Z).

Inductive SpinMode : Type :=
| SpinDone
| SpinTimed (started duration : Z) (operation_deadline : option Z) (until_clock_check : Z).

Record SpinWait : Type := mkSpinWait { spin_mode : SpinMode }.

Definition SpinWait_new (strategy : WaitStrategy) (park_spin : Z) (operation_deadline : option Z)
    (now : Z) : SpinWait :=
  let duration := match strategy with Park => park_spin | SpinFor duration => duration end in
  if duration =? 0 then mkSpinWait SpinDone
  else mkSpinWait (SpinTimed now duration operation_deadline 0).

Definition SpinWait_blocking (strategy : WaitStrategy) (now : Z) : SpinWait :=
  SpinWait_new strategy PARK_SPIN None now.

Definition SpinWait_deadline (strategy : WaitStrategy) (deadline now : Z) : SpinWait :=
  SpinWait_new strategy 0 (Some deadline) now.

(** [Instant::duration_since] saturates at zero. *)
Definition duration_since (now earlier : Z) : Z := Z.max 0 (now - earlier).

Definition SpinWait_step (s : SpinWait) (now : Z) : bool * SpinWait :=
  match spin_mode s with
  | SpinDone => (false, s)
  | SpinTimed started duration operation_deadline until_clock_check =>
      match operation_deadline with
      | Some deadline =>
          ((duration_since now started <? duration) && (now <? deadline), s)
      | None =>
          if negb (until_clock_check =? 0) then
            (true, mkSpinWait (SpinTimed started duration None (until_clock_check - 1)))
          else if duration_since now started >=? duration then (false, s)
          else (true, mkSpinWait (SpinTimed started duration None (CLOCK_CHECK_INTERVAL - 1)))
      end
  end.

(** The spin phase under a sequence of clock readings: how many attempts it
    makes before it stops, if it stops within the readings. *)
Fixpoint spin_attempts (s : SpinWait) (clock : list Z) : option nat :=
  match clock with
  | [] => None
  | now :: clock' =>
      let '(again, s') := SpinWait_step s now in
      if again then option_map S (spin_attempts s' clock') else Some O
  end.

Definition validate_capacity (capacity max : Z) : result unit ChannelError :=
  if capacity =? 0 then Err ZeroCapacity
  else if capacity >? max then Err (CapacityTooLarge capacity max)
  else Ok tt.

(** ** Properties *)

Lemma validate_capacity_ok capacity max :
  0 <= capacity -> validate_capacity capacity max = Ok tt <-> 0 < capacity <= max.
Proof.
  intros Hc. unfold validate_capacity. destruct (Z.eqb_spec capacity 0); [split; [done|lia]|].
  destruct (capacity >? max) eqn:E; split; intros; try done; lia.
Qed.

(** When a phase is due to stop: its budget is spent or the deadline of the
    operation has passed. *)
Definition spin_over (started duration : Z) (deadline : option Z) (now : Z) : Prop :=
  duration <= duration_since now started \/ exists d, deadline = Some d /\ d <= now.

(** A phase with a deadline looks at every reading. *)
Lemma spin_step_deadline started duration d k now :
  let s := mkSpinWait (SpinTimed started duration (Some d) k) in
  (SpinWait_step s now = (false, s) /\ spin_over started duration (Some d) now) \/
  (SpinWait_step s now = (true, s) /\ ~ spin_over started duration (Some d) now).
Proof.
  intros s. unfold SpinWait_step, spin_over. cbn.
  destruct (Z.ltb_spec (duration_since now started) duration); cbn; [|by left; auto].
  destruct (Z.ltb_spec now d); [right|left; by eauto].
  split; [done|]. intros [?|(? & [= <-] & ?)]; lia.
Qed.

(** It stops at the first reading that is past one of the limits. *)
Lemma spin_attempts_deadline started duration d k clock : forall n now,
  clock !! n = Some now -> spin_over started duration (Some d) now ->
  exists m, spin_attempts (mkSpinWait (SpinTimed started duration (Some d) k)) clock = Some m /\ (m <= n)%nat /\
    Forall (fun now => ~ spin_over started duration (Some d) now) (take m clock).
Proof.
  induction clock as [|t clock IH]; intros n now Hn Hover; [done|]. cbn [spin_attempts].
  destruct (spin_step_deadline started duration d k t) as [[-> H]|[-> H]].
  { exists O. split_and!; [done|lia|constructor]. }
  destruct n as [|n]; [by simplify_eq/=|]. destruct (IH n now Hn Hover) as (m & -> & Hm & Hb).
  exists (S m). split_and!; [done|lia|by constructor].
Qed.

(** An untimed phase: [k] more attempts are allowed without a clock read. *)
Lemma spin_attempts_untimed started duration clock : forall k,
  0 <= k < CLOCK_CHECK_INTERVAL ->
  Forall (spin_over started duration None) (take (S (Z.to_nat k)) clock) ->
  (Z.to_nat k < length clock)%nat ->
  spin_attempts (mkSpinWait (SpinTimed started duration None k)) clock = Some (Z.to_nat k).
Proof.
  induction clock as [|now clock IH]; intros k Hk Hcl Hlen; simpl in Hlen; [lia|].
  cbn [take] in Hcl. apply Forall_cons in Hcl as [Hnow Hcl].
  cbn [spin_attempts]. unfold SpinWait_step. cbn [spin_mode].
  destruct (Z.eqb_spec k 0) as [->|Hne]; cbn [negb].
  - destruct Hnow as [Hnow|(? & ? & ?)]; [|done]. destruct (duration_since now started >=? duration) eqn:E; [done|lia].
  - replace (Z.to_nat k) with (S (Z.to_nat (k - 1))) in * by lia. rewrite IH by (done || lia). done.
Qed.

(** From any reading on, sixteen readings past the budget are enough. *)
Lemma spin_attempts_sixteen started duration clock : forall k n,
  0 <= k < CLOCK_CHECK_INTERVAL -> (n + 16 <= length clock)%nat ->
  Forall (spin_over started duration None) (take 16 (drop n clock)) ->
  exists m, spin_attempts (mkSpinWait (SpinTimed started duration None k)) clock = Some m /\ (m < n + 16)%nat.
Proof.
  unfold CLOCK_CHECK_INTERVAL. induction clock as [|now clock IH]; intros k n Hk Hlen Hcl; [simpl in *; lia|].
  destruct n as [|n].
  { exists (Z.to_nat k). split; [|lia]. apply spin_attempts_untimed; [done| |simpl in *; lia].
    rewrite drop_0 in Hcl. rewrite <- (Nat.min_l (S (Z.to_nat k)) 16), <- take_take by lia. by apply Forall_take. }
  cbn [spin_attempts]. unfold SpinWait_step. cbn [spin_mode]. simpl in Hlen. cbn [drop] in Hcl.
  destruct (negb (k =? 0)) eqn:E; [|destruct (duration_since now started >=? duration); [exists O; split; [done|lia]|]].
  - destruct (IH (k - 1) n) as (m & -> & Hm); [lia|lia|done|]. exists (S m). split; [done|lia].
  - destruct (IH (CLOCK_CHECK_INTERVAL - 1) n) as (m & -> & Hm); [unfold CLOCK_CHECK_INTERVAL; lia|lia|done|].
    exists (S m). split; [done|lia].
Qed.

(** No phase gives up early. *)
Lemma spin_attempts_over started duration deadline clock : forall k n,
  spin_attempts (mkSpinWait (SpinTimed started duration deadline k)) clock = Some n ->
  exists now, clock !! n = Some now /\ spin_over started duration deadline now.
Proof.
  induction clock as [|now clock IH]; intros k n H; [done|]. cbn [spin_attempts] in H. destruct deadline as [d|].
  - destruct (spin_step_deadline started duration d k now) as [[E Ho]|[E Ho]]; rewrite E in H; [simplify_eq/=; eauto|].
    destruct (spin_attempts _ clock) as [m|] eqn:Em; simplify_eq/=. eauto.
  - unfold SpinWait_step in H. cbn [spin_mode] in H.
    destruct (negb (k =? 0)); [|destruct (duration_since now started >=? duration) eqn:E].
    1, 3: destruct (spin_attempts _ clock) as [m|] eqn:Em; simplify_eq/=; eauto.
    simplify_eq/=. exists now. split; [done|]. left. lia.
Qed.

(** C21: the spin phase of an operation runs until its budget (of the strategy
    of the handle, or the default [park_spin] of the operation) is spent or
    the deadline of the operation has passed, and no longer: with a deadline it
    stops at the first clock reading past either limit; without one it looks
    at the clock on every sixteenth attempt and so stops within sixteen
    attempts of the moment from which the readings are past the budget.
    Whenever it stops, the reading it stops at is past a limit. *)
Theorem spin_phase_bounded (strategy : WaitStrategy) (park_spin : Z) (deadline : option Z) (started : Z)
    (clock : list Z) (n : nat) :
  let budget := match strategy with Park => park_spin | SpinFor duration => duration end in
  let over := spin_over started budget deadline in
  let slack := match deadline with Some _ => 1%nat | None => 16%nat end in
  (n + slack <= length clock)%nat -> Forall over (take slack (drop n clock)) ->
  exists m now, spin_attempts (SpinWait_new strategy park_spin deadline started) clock = Some m /\
    (m < n + slack)%nat /\ clock !! m = Some now /\ over now /\ (budget = 0 -> m = O) /\
    (deadline <> None -> Forall (fun now => ~ over now) (take m clock)).
Proof.
  intros budget over slack Hlen Hcl. unfold SpinWait_new. fold budget. destruct (Z.eqb_spec budget 0) as [E|E].
  { destruct clock as [|now clock]; [subst slack; destruct deadline; simpl in Hlen; lia|].
    exists O, now. split_and!; [done|subst slack; destruct deadline; lia|done| |done|by constructor].
    left. rewrite E. unfold duration_since. lia. }
  subst over slack. destruct deadline as [d|].
  - destruct (lookup_lt_is_Some_2 clock n) as [t Ht]; [lia|]. erewrite drop_S in Hcl by done.
    apply Forall_cons in Hcl as [Ho _].
    destruct (spin_attempts_deadline _ _ _ 0 _ _ _ Ht Ho) as (m & Hm & Hmn & Hb).
    destruct (spin_attempts_over _ _ _ _ _ _ Hm) as (now & Hnow & Hov).
    exists m, now. by split_and!; try lia.
  - destruct (spin_attempts_sixteen started budget clock 0 n) as (m & Hm & Hmn); [done|done|done|].
    destruct (spin_attempts_over _ _ _ _ _ _ Hm) as (now & Hnow & Hov). by exists m, now.
Qed.

(** The deadline of the operation, 10, comes before the end of the budget. *)
Lemma spin_phase_bounded_witness :
  exists m now, spin_attempts (SpinWait_new (SpinFor 100) 0 (Some 10) 0) [3; 7; 12; 50] = Some m /\
    (m < 2 + 1)%nat /\ [3; 7; 12; 50] !! m = Some now /\ spin_over 0 100 (Some 10) now /\
    (100 = 0 -> m = O) /\ (Some 10 <> None -> Forall (fun now => ~ spin_over 0 100 (Some 10) now) (take m [3; 7; 12; 50])).
Proof.
  apply (spin_phase_bounded (SpinFor 100) 0 (Some 10) 0 [3; 7; 12; 50] 2); [simpl; lia|].
  cbn. apply Forall_singleton. right. exists 10. split; [done|lia].
Defined.
