(* ===== verification/Blocking.v ===== *)
(** * Blocking operations

    Models [src/src/blocking.rs]: the spin-then-park loop every blocking send
    and receive runs.  The trait [Blocking] is the record [Blocking] of an
    endpoint's operations; the clock and the condition variable are explicit:
    the spin phase consumes one clock reading per step, and every round of the
    parking loop consumes one [round], which says what the clock shows and
    whether a timed sleep ends by its timeout.  A sleep may end at any time
    (a condition variable also wakes spuriously), so a round stands for every
    way the operating system can resume the thread.  [None] is the answer of
    an operation that is still waiting when the given rounds are used up. *)

From S2P Require Import Prelude Prog ProgPartial Config.
Local Open Scope prog_scope.

(** ** Results of attempts *)

Inductive Attempt (V R : Type) : Type :=
| AttemptDone (output : R)
| AttemptPending (input : V).
Arguments AttemptDone {V R} output.
Arguments AttemptPending {V R} input.

Inductive Recheck (V R D : Type) : Type :=
| RecheckDone (output : R) (deferred : D)
| RecheckProgressed (input : V) (deferred : D)
| RecheckPending (input : V).
Arguments RecheckDone {V R D} output deferred.
Arguments RecheckProgressed {V R D} input deferred.
Arguments RecheckPending {V R D} input.

(** [Blocking<V>] for an endpoint [E] over the shared state [S]; the wait
    source's registration is part of it ([register], the drop of a
    registration, and the two ways to park on it). *)
Record Blocking (S E V Output Deferred Reg : Type) : Type := mkBlocking {
  bl_attempt : E -> V -> prog S (Attempt V Output * E);
  bl_recheck : E -> V -> prog S (Recheck V Output Deferred * E);
  bl_notify : E -> Deferred -> prog S E;
  bl_register : E -> prog S Reg;
  bl_unregister : E -> Reg -> prog S unit;
  bl_wait : E -> Reg -> prog S unit;
  bl_wait_timeout : E -> Reg -> bool -> prog S bool
}.
Arguments mkBlocking {S E V Output Deferred Reg}.
Arguments bl_attempt {S E V Output Deferred Reg}.
Arguments bl_recheck {S E V Output Deferred Reg}.
Arguments bl_notify {S E V Output Deferred Reg}.
Arguments bl_register {S E V Output Deferred Reg}.
Arguments bl_unregister {S E V Output Deferred Reg}.
Arguments bl_wait {S E V Output Deferred Reg}.
Arguments bl_wait_timeout {S E V Output Deferred Reg}.

(** What the environment does in one round of the loop: the clock when the
    remaining time is computed, and whether a timed sleep times out. *)
Record round : Type := mkRound { round_now : Z; round_timed_out : bool }.

(** [Instant::saturating_duration_since]. *)
Definition remaining_time (deadline now : Z) : Z := Z.max 0 (deadline - now).

Section blocking.
Context {S E V Output Deferred Reg : Type} (B : Blocking S E V Output Deferred Reg).

(** The spin phase: the answer, or the input when the phase is over. *)
Fixpoint run_spin (clock : list Z) (spin : SpinWait) (e : E) (input : V)
    : prog S (option (Attempt V Output) * E) :=
  match clock with
  | [] => Ret (None, e)
  | now :: clock' =>
      let '(again, spin) := SpinWait_step spin now in
      if again : bool then
        let* '(a, e) := bl_attempt B e input in
        match a with
        | AttemptDone output => Ret (Some (AttemptDone output), e)
        | AttemptPending input => run_spin clock' spin e input
        end
      else Ret (Some (AttemptPending input), e)
  end.

(** The parking loop. *)
Fixpoint run_park (rounds : list round) (deadline : option Z) (e : E) (input : V)
    : prog S (option (result Output V) * E) :=
  match rounds with
  | [] => Ret (None, e)
  | r :: rounds' =>
      let* '(a, e) := bl_attempt B e input in
      match a with
      | AttemptDone output => Ret (Some (Ok output), e)
      | AttemptPending input =>
          let* registration := bl_register B e in
          let* '(c, e) := bl_recheck B e input in
          match c with
          | RecheckDone output deferred =>
              let* _ := bl_unregister B e registration in
              let* e := bl_notify B e deferred in
              Ret (Some (Ok output), e)
          | RecheckProgressed input deferred =>
              let* _ := bl_unregister B e registration in
              let* e := bl_notify B e deferred in
              run_park rounds' deadline e input
          | RecheckPending input =>
              match deadline with
              | None =>
                  let* _ := bl_wait B e registration in
                  run_park rounds' deadline e input
              | Some d =>
                  if remaining_time d (round_now r) =? 0 then
                    let* _ := bl_unregister B e registration in
                    Ret (Some (Err input), e)
                  else
                    let* timed_out := bl_wait_timeout B e registration (round_timed_out r) in
                    if timed_out : bool then
                      let* '(a, e) := bl_attempt B e input in
                      match a with
                      | AttemptDone output => Ret (Some (Ok output), e)
                      | AttemptPending input => Ret (Some (Err input), e)
                      end
                    else run_park rounds' deadline e input
              end
          end
      end
  end.

Definition run_blocking (clock : list Z) (rounds : list round) (spin : SpinWait) (deadline : option Z)
    (e : E) (input : V) : prog S (option (result Output V) * E) :=
  let* '(o, e) := run_spin clock spin e input in
  match o with
  | None => Ret (None, e)
  | Some (AttemptDone output) => Ret (Some (Ok output), e)
  | Some (AttemptPending input) => run_park rounds deadline e input
  end.

Definition block (clock : list Z) (rounds : list round) (spin : SpinWait) (e : E) (input : V)
    : prog S (option Output * E) :=
  let* '(o, e) := run_blocking clock rounds spin None e input in
  match o with
  | None => Ret (None, e)
  | Some (Ok output) => Ret (Some output, e)
  | Some (Err _) => Fail (Panic "waits without a deadline never time out")
  end.

Definition block_until (clock : list Z) (rounds : list round) (spin : SpinWait) (deadline : Z) (e : E) (input : V)
    : prog S (option (result Output V) * E) :=
  run_blocking clock rounds spin (Some deadline) e input.

End blocking.

(** The clock when the call starts, the readings of its spin phase, and the
    rounds of its parking loop. *)
Record wait_env : Type := mkWaitEnv { env_now : Z; env_clock : list Z; env_rounds : list round }.

(** [Instant] on 64-bit Unix: seconds in an [i64]. *)
Definition instant_max : Z := 2 ^ 63 * 10 ^ 9 - 1.
Definition Instant_checked_add (now timeout : Z) : option Z :=
  if now + timeout <=? instant_max then Some (now + timeout) else None.

(** ** Mapping results *)

Definition send_attempt {T} (r : result unit (TrySendError T)) : Attempt T (result unit T) :=
  match r with
  | Ok _ => AttemptDone (Ok tt)
  | Err (TrySend_Disconnected value) => AttemptDone (Err value)
  | Err (Full value) => AttemptPending value
  end.

Definition send_recheck {T} (r : result unit (TrySendError T)) (wake_receiver : bool)
    : Recheck T (result unit T) bool :=
  match r with
  | Ok _ => RecheckDone (Ok tt) wake_receiver
  | Err (TrySend_Disconnected value) => RecheckDone (Err value) false
  | Err (Full value) => RecheckPending value
  end.

Definition recv_attempt {V I} (r : result V TryRecvError) (input : I) : Attempt I (result V RecvError) :=
  match r with
  | Ok value => AttemptDone (Ok value)
  | Err TryRecv_Disconnected => AttemptDone (Err mkRecvError)
  | Err TryRecv_Empty => AttemptPending input
  end.

Definition send_timeout_result {T} (r : result (result unit T) T) : result unit (SendTimeoutError T) :=
  match r with
  | Ok (Ok _) => Ok tt
  | Ok (Err value) => Err (SendTimeout_Disconnected value)
  | Err value => Err (SendTimeout_Timeout value)
  end.

Definition recv_timeout_result {V I} (r : result (result V RecvError) I) : result V RecvTimeoutError :=
  match r with
  | Ok (Ok value) => Ok value
  | Ok (Err _) => Err RecvTimeout_Disconnected
  | Err _ => Err RecvTimeout_Timeout
  end.

(** ** The loop keeps what an attempt promises *)

Section contract.
Context {S E V Output Deferred Reg G : Type} (B : Blocking S E V Output Deferred Reg).
Context (guar : nat -> relation (S * G)) (i : nat).

(** What an endpoint promises to the loop.  [waiting e v o]: the operation on
    [v] has had no effect yet, and [o] is the registration held; [finishing]
    and [progressing]: the same with a notification still to be sent, after
    the operation finished or only freed capacity.  Every attempt either
    finishes or has no effect, whatever the other threads do, and
    registering, parking and notifying change neither. *)
Record contract : Type := mkContract {
  waiting : E -> V -> option Reg -> S * G -> Prop;
  finishing : E -> Output -> option Reg -> Deferred -> S * G -> Prop;
  progressing : E -> V -> option Reg -> Deferred -> S * G -> Prop;
  finished : E -> Output -> S * G -> Prop
}.

Class Keeps (C : contract) : Prop := {
  keeps_waiting e v : stable guar i (waiting C e v None);
  keeps_finished e o : stable guar i (finished C e o);
  keeps_attempt e v x : waiting C e v None x ->
    wp guar i (bl_attempt B e v) (fun '(a, e') y =>
      match a with
      | AttemptDone o => finished C e' o y
      | AttemptPending v' => v' = v /\ waiting C e' v None y
      end) x;
  keeps_register e v x : waiting C e v None x ->
    wp guar i (bl_register B e) (fun r => waiting C e v (Some r)) x;
  keeps_recheck e v r x : waiting C e v (Some r) x ->
    wp guar i (bl_recheck B e v) (fun '(c, e') y =>
      match c with
      | RecheckDone o d => finishing C e' o (Some r) d y
      | RecheckProgressed v' d => v' = v /\ progressing C e' v (Some r) d y
      | RecheckPending v' => v' = v /\ waiting C e' v (Some r) y
      end) x;
  keeps_unregister_waiting e v r x : waiting C e v (Some r) x ->
    wp guar i (bl_unregister B e r) (fun _ => waiting C e v None) x;
  keeps_unregister_finishing e o r d x : finishing C e o (Some r) d x ->
    wp guar i (bl_unregister B e r) (fun _ => finishing C e o None d) x;
  keeps_unregister_progressing e v r d x : progressing C e v (Some r) d x ->
    wp guar i (bl_unregister B e r) (fun _ => progressing C e v None d) x;
  keeps_notify_finishing e o d x : finishing C e o None d x ->
    wp guar i (bl_notify B e d) (fun e' => finished C e' o) x;
  keeps_notify_progressing e v d x : progressing C e v None d x ->
    wp guar i (bl_notify B e d) (fun e' => waiting C e' v None) x;
  keeps_wait e v r x : waiting C e v (Some r) x ->
    wp guar i (bl_wait B e r) (fun _ => waiting C e v None) x;
  keeps_wait_timeout e v r b x : waiting C e v (Some r) x ->
    wp guar i (bl_wait_timeout B e r b) (fun _ => waiting C e v None) x
}.

Context (C : contract) `{K : !Keeps C}.

(** What the caller of the loop gets: the finished operation, its input back
    at a deadline, or an operation that still waits. *)
Definition loop_post (deadline : option Z) (v : V) (a : option (result Output V) * E) (y : S * G) : Prop :=
  match a.1 with
  | Some (Ok o) => finished C a.2 o y
  | Some (Err v') => v' = v /\ deadline <> None /\ waiting C a.2 v None y
  | None => waiting C a.2 v None y
  end.

Lemma wp_run_spin clock : forall spin e v x,
  waiting C e v None x ->
  wp guar i (run_spin B clock spin e v) (fun '(o, e') y =>
    match o with
    | Some (AttemptDone out) => finished C e' out y
    | Some (AttemptPending v') => v' = v /\ waiting C e' v None y
    | None => waiting C e' v None y
    end) x.
Proof.
  induction clock as [|now clock IH]; intros spin e v x Hx; cbn [run_spin].
  - eapply wp_retP; [apply keeps_waiting|exact Hx|done].
  - destruct (SpinWait_step spin now) as [[] spin'].
    + eapply wp_call; [eapply keeps_attempt, Hx|]. intros [[o|v'] e'] y Hy.
      * eapply wp_retP; [apply keeps_finished|exact Hy|done].
      * destruct Hy as [-> Hy]. by apply IH.
    + eapply wp_retP; [apply keeps_waiting|exact Hx|done].
Qed.

Lemma wp_run_park deadline rounds : forall e v x,
  waiting C e v None x -> wp guar i (run_park B rounds deadline e v) (loop_post deadline v) x.
Proof.
  induction rounds as [|r rounds IH]; intros e v x Hx; cbn [run_park].
  { eapply wp_retP; [apply keeps_waiting|exact Hx|done]. }
  eapply wp_call; [eapply keeps_attempt, Hx|]. intros [[o|v'] e1] y Hy; cbv beta iota in Hy.
  { eapply wp_retP; [apply keeps_finished|exact Hy|done]. }
  destruct Hy as [-> Hy]. eapply wp_call; [eapply keeps_register, Hy|]. clear x y Hx Hy. intros reg x Hx.
  eapply wp_call; [eapply keeps_recheck, Hx|]. intros [[o d|v' d|v'] e2] y Hy; cbv beta iota in Hy.
  - eapply wp_call; [eapply keeps_unregister_finishing, Hy|]. intros u z Hz.
    eapply wp_call; [eapply keeps_notify_finishing, Hz|]. intros e3 w Hw.
    eapply wp_retP; [apply keeps_finished|exact Hw|done].
  - destruct Hy as [-> Hy]. eapply wp_call; [eapply keeps_unregister_progressing, Hy|]. intros u z Hz.
    eapply wp_call; [eapply keeps_notify_progressing, Hz|]. intros e3 w Hw. by apply IH.
  - destruct Hy as [-> Hy]. destruct deadline as [dl|].
    + destruct (remaining_time dl (round_now r) =? 0).
      * eapply wp_call; [eapply keeps_unregister_waiting, Hy|]. intros u z Hz.
        eapply wp_retP; [apply keeps_waiting|exact Hz|done].
      * eapply wp_call; [eapply keeps_wait_timeout, Hy|]. intros [] z Hz; [|by apply IH].
        eapply wp_call; [eapply keeps_attempt, Hz|]. intros [[o|v'] e3] w Hw; cbv beta iota in Hw.
        -- eapply wp_retP; [apply keeps_finished|exact Hw|done].
        -- destruct Hw as [-> Hw]. eapply wp_retP; [apply keeps_waiting|exact Hw|done].
    + eapply wp_call; [eapply keeps_wait, Hy|]. intros u z Hz. by apply IH.
Qed.

Lemma wp_run_blocking clock rounds spin deadline e v x :
  waiting C e v None x ->
  wp guar i (run_blocking B clock rounds spin deadline e v) (loop_post deadline v) x.
Proof.
  intros Hx. unfold run_blocking. eapply wp_call; [eapply wp_run_spin, Hx|].
  intros [[[o|v']|] e'] y Hy; cbv beta iota in Hy.
  - eapply wp_retP; [apply keeps_finished|exact Hy|done].
  - destruct Hy as [-> Hy]. by apply wp_run_park.
  - eapply wp_retP; [apply keeps_waiting|exact Hy|done].
Qed.

(** A wait without a deadline never reaches the [unreachable!]. *)
Lemma wp_block clock rounds spin e v x :
  waiting C e v None x ->
  wp guar i (block B clock rounds spin e v) (fun '(o, e') y =>
    match o with Some out => finished C e' out y | None => waiting C e' v None y end) x.
Proof.
  intros Hx. unfold block. eapply wp_call; [eapply wp_run_blocking, Hx|].
  intros [[[o|v']|] e'] y Hy; unfold loop_post in Hy; cbn [fst snd] in Hy.
  - eapply wp_retP; [apply keeps_finished|exact Hy|done].
  - destruct Hy as (_ & [] & _). done.
  - eapply wp_retP; [apply keeps_waiting|exact Hy|done].
Qed.

End contract.

(** ** Calls with a deadline come back *)

(** The environment shows a call that the deadline has passed: once while it
    spins, and in more than [m] rounds of its parking loop. *)
Definition late (deadline : Z) (rounds : list round) : nat :=
  length (filter (fun r => deadline <= round_now r) rounds).

Definition passes (deadline : Z) (m : nat) (env : wait_env) : Prop :=
  Exists (fun now => deadline <= now) (env_clock env) /\ (m < late deadline (env_rounds env))%nat.

#[export] Instance passes_dec deadline m env : Decision (passes deadline m env).
Proof. unfold passes. apply _. Defined.

(** The same for a timeout, which is a deadline if the clock can reach it. *)
Definition times_out (timeout : Z) (m : nat) (env : wait_env) : Prop :=
  match Instant_checked_add (env_now env) timeout with Some deadline => passes deadline m env | None => False end.

#[export] Instance times_out_dec timeout m env : Decision (times_out timeout m env).
Proof. unfold times_out. destruct (Instant_checked_add _ _); apply _. Defined.

Section come_back.
Context {S E V Output Deferred Reg : Type} (B : Blocking S E V Output Deferred Reg).

(** [Owes m e]: at most [m] rechecks of the endpoint still free capacity
    instead of answering. *)
Class Settles (Owes : nat -> E -> Prop) : Prop := {
  settles_attempt m e v : Owes m e ->
    yields (bl_attempt B e v) (fun '(a, e') => match a with AttemptDone _ => True | AttemptPending _ => Owes m e' end);
  settles_recheck m e v : Owes m e ->
    yields (bl_recheck B e v) (fun '(c, e') =>
      match c with
      | RecheckDone _ _ => True
      | RecheckProgressed _ _ => exists m', m = Datatypes.S m' /\ Owes m' e'
      | RecheckPending _ => Owes m e'
      end);
  settles_notify m e d : Owes m e -> yields (bl_notify B e d) (Owes m)
}.

Context (Owes : nat -> E -> Prop) `{K : !Settles Owes}.

Definition of_deadline (deadline : Z) (spin : SpinWait) : Prop :=
  match spin_mode spin with SpinDone => True | SpinTimed _ _ d _ => d = Some deadline end.

Lemma deadline_spin strategy deadline now : of_deadline deadline (SpinWait_deadline strategy deadline now).
Proof. unfold SpinWait_deadline, SpinWait_new, of_deadline. by destruct (_ =? 0). Qed.

(** The spin phase of a timed call stops at its deadline. *)
Lemma yields_run_spin deadline clock : forall spin m e v,
  of_deadline deadline spin -> Exists (fun now => deadline <= now) clock -> Owes m e ->
  yields (run_spin B clock spin e v) (fun '(o, e') =>
    match o with None => False | Some (AttemptDone _) => True | Some (AttemptPending _) => Owes m e' end).
Proof.
  induction clock as [|now clock IH]; intros spin m e v Hs Hc He; cbn [run_spin]; [by apply Exists_nil in Hc|].
  destruct spin as [[|started duration d k]]; cbn in Hs; [exact He|]. subst d.
  destruct (spin_step_deadline started duration deadline k now) as [[-> _]|[-> Hn]]; [exact He|].
  eapply yields_bind; [by apply settles_attempt|]. intros [[o|v'] e'] He'; [done|].
  apply IH; [done| |done]. apply Exists_cons in Hc as [Hc|Hc]; [|done]. contradict Hn. right. by exists deadline.
Qed.

(** Its parking loop answers once it owes nothing and the deadline passed. *)
Lemma yields_run_park deadline rounds : forall m e v,
  (m < late deadline rounds)%nat -> Owes m e -> yields (run_park B rounds (Some deadline) e v) (fun r => is_Some r.1).
Proof.
  induction rounds as [|r rounds IH]; intros m e v Hm He; cbn [run_park]; [unfold late in Hm; cbn in Hm; lia|].
  assert (Hstep : forall m' e' v', (m' < m)%nat \/ (m' <= m)%nat /\ ~ deadline <= round_now r -> Owes m' e' ->
    yields (run_park B rounds (Some deadline) e' v') (fun r => is_Some r.1)).
  { intros m' e' v' Hm' He'. apply (IH m'); [|done]. unfold late in *. destruct (decide (deadline <= round_now r)).
    - rewrite filter_cons_True in Hm by done. cbn in Hm. lia.
    - rewrite filter_cons_False in Hm by done. lia. }
  eapply yields_bind; [by apply settles_attempt|]. intros [[o|v'] e1] He1; [by eexists|]. apply yields_skip. intros reg.
  eapply yields_bind; [by apply settles_recheck|]. intros [[o d|v2 d|v2] e2] He2.
  - apply yields_skip. intros _. apply yields_skip. intros e3. by eexists.
  - destruct He2 as (m' & -> & He2). apply yields_skip. intros _.
    eapply yields_bind; [by apply settles_notify|]. intros e3 He3. apply (Hstep m'); [left; lia|done].
  - destruct (Z.eqb_spec (remaining_time deadline (round_now r)) 0) as [E0|E0]; [apply yields_skip; intros _; by eexists|].
    unfold remaining_time in E0. apply yields_skip. intros [|]; [|apply (Hstep m); [right; lia|done]].
    apply yields_skip. intros [[o|v3] e3]; by eexists.
Qed.

Lemma yields_block_until clock rounds strategy now deadline m e v :
  Exists (fun now => deadline <= now) clock -> (m < late deadline rounds)%nat -> Owes m e ->
  yields (block_until B clock rounds (SpinWait_deadline strategy deadline now) deadline e v) (fun r => is_Some r.1).
Proof.
  intros Hc Hm He. unfold block_until, run_blocking.
  eapply yields_bind; [by eapply yields_run_spin; [apply deadline_spin|..]|].
  intros [[[o|v']|] e'] He'; [by eexists| |done]. by apply (yields_run_park _ _ m).
Qed.

End come_back.
