(* ===== verification/Wait.v ===== *)
(** * Wait cells

    Models [src/src/wait.rs] of the default build (the [async] feature adds a
    waker next to the condition variable).  A cell is its atomic state word,
    the value its mutex guards and the threads asleep on its condition
    variable.  A section under the mutex is one step: nothing else of the cell
    is read or written under that mutex except in such a section.

    [wait_step] is the protocol of one waiter and any number of notifiers with
    every atomic access and every section under the mutex as a step; spurious
    wakeups of the condition variable are steps too. *)

From S2P Require Import Prelude Prog.
Local Open Scope prog_scope.

Definition WAITING : Z := 1.
Definition NOTIFY_INCREMENT : Z := 2.

(** ** The single-waiter cell *)

Record WaitCell : Type := mkWaitCell {
  wc_state : Z;
  wc_asleep : bool
}.

Definition set_wc_state (s : Z) (c : WaitCell) : WaitCell := mkWaitCell s (wc_asleep c).

Definition WaitCell_new : WaitCell := mkWaitCell 0 false.

Record WaitRegistration : Type := mkWaitRegistration { snapshot : Z }.

Definition WaitCell_prepare : prog WaitCell WaitRegistration :=
  let* previous := swap wc_state (fun c => set_wc_state (Z.lor (wc_state c) WAITING) c) in
  if negb (Z.land previous WAITING =? 0) then Fail (Panic "debug_assert: one waiter")
  else Ret (mkWaitRegistration (Z.lor previous WAITING)).

(** [notify_waiter]: the section under the mutex. *)
Definition WaitCell_notify_waiter : prog WaitCell unit :=
  store (fun c => if negb (Z.land (wc_state c) WAITING =? 0)
                  then mkWaitCell (wc_state c) false else c).

Definition WaitCell_notify : prog WaitCell unit :=
  let* previous := swap wc_state (fun c => set_wc_state (wrapping_add (wc_state c) NOTIFY_INCREMENT) c) in
  if negb (Z.land previous WAITING =? 0) then WaitCell_notify_waiter else Ret tt.

Definition WaitRegistration_is_current (r : WaitRegistration) (c : WaitCell) : bool :=
  wc_state c =? snapshot r.

(** [wait] up to the point where the thread sleeps: returns whether it does. *)
Definition WaitRegistration_wait_begin (r : WaitRegistration) : prog WaitCell bool :=
  atomic (fun c => if WaitRegistration_is_current r c
                   then (true, mkWaitCell (wc_state c) true) else (false, c)).

(** [!WAITING] on a 64-bit word. *)
Definition WaitRegistration_drop : prog WaitCell unit :=
  store (fun c => set_wc_state (Z.land (wc_state c) (usize_max - WAITING)) c).

(** The whole of [wait] and [wait_timeout]: the sleep ends at an arbitrary
    later step (woken, spuriously, or timed out), and the registration is
    dropped.  [timed_out] is how a sleep of [wait_timeout] ends. *)
Definition WaitRegistration_wake : prog WaitCell unit :=
  store (fun c => mkWaitCell (wc_state c) false).

Definition WaitRegistration_wait (r : WaitRegistration) : prog WaitCell unit :=
  let* asleep := WaitRegistration_wait_begin r in
  let* _ := when asleep WaitRegistration_wake in
  WaitRegistration_drop.

Definition WaitRegistration_wait_timeout (r : WaitRegistration) (timed_out : bool) : prog WaitCell bool :=
  let* asleep := WaitRegistration_wait_begin r in
  let* _ := when asleep WaitRegistration_wake in
  let* _ := WaitRegistration_drop in
  Ret (asleep && timed_out).

(** ** The multi-waiter cell

    [mw_asleep] counts the sleeps that no notification has answered yet; no
    operation reads it. *)

Record MultiWaitCell : Type := mkMultiWaitCell {
  mw_state : Z;
  mw_waiters : Z;
  mw_asleep : nat
}.

Definition MultiWaitCell_new : MultiWaitCell := mkMultiWaitCell 0 0 0.

Definition MultiWaitCell_prepare : prog MultiWaitCell WaitRegistration :=
  let* o := atomic (fun c =>
    match checked_add (mw_waiters c) 1 with
    | None => (None, c)
    | Some n => (Some (Z.lor (mw_state c) WAITING),
                 mkMultiWaitCell (Z.lor (mw_state c) WAITING) n (mw_asleep c))
    end) in
  match o with
  | None => Fail (Panic "waiter count overflow")
  | Some s => Ret (mkWaitRegistration s)
  end.

(** Under the mutex. *)
Definition MultiWaitCell_remove_waiter (c : MultiWaitCell) : option MultiWaitCell :=
  if mw_waiters c =? 0 then None
  else
    let n := mw_waiters c - 1 in
    Some (mkMultiWaitCell (if n =? 0 then Z.land (mw_state c) (usize_max - WAITING) else mw_state c)
            n (mw_asleep c)).

Definition MultiWaitCell_notify (all : bool) : prog MultiWaitCell unit :=
  let* previous := swap mw_state (fun c =>
    mkMultiWaitCell (wrapping_add (mw_state c) NOTIFY_INCREMENT) (mw_waiters c) (mw_asleep c)) in
  if Z.land previous WAITING =? 0 then Ret tt
  else store (fun c =>
    if negb (mw_waiters c =? 0)
    then mkMultiWaitCell (mw_state c) (mw_waiters c) (if all then O else Nat.pred (mw_asleep c))
    else c).

Definition MultiWaitCell_notify_one : prog MultiWaitCell unit := MultiWaitCell_notify false.
Definition MultiWaitCell_notify_all : prog MultiWaitCell unit := MultiWaitCell_notify true.

(** [finish] and [Drop] of a registration: both remove the waiter. *)
Definition MultiWaitRegistration_drop : prog MultiWaitCell unit :=
  let* ok := atomic (fun c =>
    match MultiWaitCell_remove_waiter c with Some c' => (true, c') | None => (false, c) end) in
  if ok : bool then Ret tt else Fail (Panic "waiter count underflow").

(** [wait]: either the snapshot is outdated and the registration ends in the
    same section, or the thread goes to sleep and ends it after it wakes. *)
Definition MultiWaitRegistration_wait_begin (r : WaitRegistration) : prog MultiWaitCell bool :=
  let* o := atomic (fun c =>
    if mw_state c =? snapshot r
    then (Some true, mkMultiWaitCell (mw_state c) (mw_waiters c) (S (mw_asleep c)))
    else match MultiWaitCell_remove_waiter c with
         | Some c' => (Some false, c')
         | None => (None, c)
         end) in
  match o with Some b => Ret b | None => Fail (Panic "waiter count underflow") end.

(** [finish] after a sleep, under the mutex. *)
Definition MultiWaitRegistration_finish : prog MultiWaitCell unit := MultiWaitRegistration_drop.

Definition MultiWaitRegistration_wait (r : WaitRegistration) : prog MultiWaitCell unit :=
  let* asleep := MultiWaitRegistration_wait_begin r in
  if asleep : bool then MultiWaitRegistration_finish else Ret tt.

Definition MultiWaitRegistration_wait_timeout (r : WaitRegistration) (timed_out : bool) : prog MultiWaitCell bool :=
  let* asleep := MultiWaitRegistration_wait_begin r in
  if asleep : bool then let* _ := MultiWaitRegistration_finish in Ret timed_out else Ret false.

(** ** Bits of the state word *)

Lemma land_waiting s : Z.land s WAITING = s mod 2.
Proof. change WAITING with (Z.ones 1). by rewrite Z.land_ones. Qed.

Lemma lor_waiting s : Z.lor s WAITING = s + 1 - s mod 2.
Proof. pose proof (Z.add_lor_land s WAITING). rewrite land_waiting in *. unfold WAITING in *. lia. Qed.

Lemma land_clear_waiting s : is_usize s -> Z.land s (usize_max - WAITING) = s - s mod 2.
Proof.
  intros Hs. replace (usize_max - WAITING) with (Z.ldiff (Z.ones 64) (Z.ones 1)) by done.
  rewrite Z.ldiff_land, Z.land_assoc, Z.land_ones by lia.
  rewrite (Z.mod_small s) by exact Hs. rewrite <- Z.ldiff_land, Z.ldiff_ones_r by lia.
  rewrite Z.shiftr_div_pow2, Z.shiftl_mul_pow2 by lia.
  change (2 ^ 1) with 2. pose proof (Z_div_mod_eq_full s 2). lia.
Qed.

Lemma notify_parity s : (wrapping_add s NOTIFY_INCREMENT) mod 2 = s mod 2.
Proof.
  unfold wrapping_add, wrap, NOTIFY_INCREMENT.
  rewrite Z.mod_mod_divide by (by exists (2 ^ 63)).
  replace (s + 2) with (s + 1 * 2) by lia. apply Z_mod_plus_full.
Qed.

(** ** The multi-waiter invariant *)

(** The low bit is set exactly while registrations count, and only
    registered threads sleep. *)
Definition mw_ok (c : MultiWaitCell) : Prop :=
  is_usize (mw_state c) /\ is_usize (mw_waiters c) /\
  mw_state c mod 2 = (if mw_waiters c =? 0 then 0 else 1).

Lemma mw_ok_new : mw_ok MultiWaitCell_new.
Proof. done. Qed.

Lemma mod2_cases s : s mod 2 = 0 \/ s mod 2 = 1.
Proof. pose proof (Z.mod_pos_bound s 2). lia. Qed.

Lemma lor_waiting_usize s : is_usize s -> is_usize (Z.lor s WAITING) /\ Z.lor s WAITING mod 2 = 1.
Proof.
  intros Hs. rewrite lor_waiting. destruct (mod2_cases s) as [E|E]; rewrite E.
  - split.
    + assert (s <> usize_max) by (intros ->; done). usize.
    + rewrite <- Zminus_mod_idemp_l, <- Zplus_mod_idemp_l, E. done.
  - replace (s + 1 - 1) with s by lia. done.
Qed.

Lemma clear_waiting_usize s :
  is_usize s -> is_usize (Z.land s (usize_max - WAITING)) /\ Z.land s (usize_max - WAITING) mod 2 = 0.
Proof.
  intros Hs. rewrite land_clear_waiting by done. destruct (mod2_cases s) as [E|E]; rewrite E.
  - rewrite Z.sub_0_r. done.
  - split; [assert (s <> 0) by (intros ->; done); usize|].
    rewrite Zminus_mod, E. done.
Qed.

(** Every operation of the multi-waiter cell, at the granularity of its
    atomic accesses. *)
Inductive mw_step : MultiWaitCell -> MultiWaitCell -> Prop :=
| mw_step_prepare c r c' : run MultiWaitCell_prepare c = (Done r, c') -> mw_step c c'
| mw_step_notify c c' all k : step_prog (MultiWaitCell_notify all) c = Some (c', k) -> mw_step c c'
| mw_step_signal c c' all k1 k2 c0 c1 :
    step_prog (MultiWaitCell_notify all) c0 = Some (c1, k1) -> step_prog k1 c = Some (c', k2) -> mw_step c c'
| mw_step_wait c r b c' : run (MultiWaitRegistration_wait_begin r) c = (Done b, c') -> mw_step c c'
| mw_step_drop c c' : run MultiWaitRegistration_drop c = (Done tt, c') -> mw_step c c'.

Lemma mw_remove_ok c c' :
  mw_ok c -> MultiWaitCell_remove_waiter c = Some c' -> mw_ok c'.
Proof.
  intros (H1 & H2 & H3) E. unfold MultiWaitCell_remove_waiter in E.
  destruct (Z.eqb_spec (mw_waiters c) 0) as [|Hn]; simplify_eq. unfold mw_ok; cbn.
  destruct (Z.eqb_spec (mw_waiters c - 1) 0).
  - destruct (clear_waiting_usize _ H1) as [H4 H5]. split_and!; auto; usize.
  - split_and!; auto; usize.
Qed.

(** C19: the multi-waiter cell's word tells notifiers the truth: after any
    sequence of registrations, notifications, waits and drops, its low bit is
    set exactly when a registration counts, so a notifier skips the condition
    variable only when nobody is registered. *)
Theorem multi_wait_bit_exact (c : MultiWaitCell) :
  rtc mw_step MultiWaitCell_new c ->
  (Z.land (mw_state c) WAITING = 0 <-> mw_waiters c = 0) /\ 0 <= mw_waiters c.
Proof.
  intros H. assert (Hok : mw_ok c).
  { revert H. generalize mw_ok_new. generalize MultiWaitCell_new. intros c0 H0 H.
    induction H as [|c0 c1 c H1 _ IH]; [done|]. apply IH. clear IH. destruct H0 as (S1 & S2 & S3).
    inversion H1 as [? r c' E|? c' all k E|? c' all k1 k2 d0 d1 E0 E|? r b c' E|? c' E]; subst.
    - cbn in E. unfold checked_add in E. destruct (Z.leb_spec (mw_waiters c0 + 1) usize_max); [|done].
      cbn in E. simplify_eq. destruct (lor_waiting_usize _ S1) as [H4 H5]. unfold mw_ok; cbn.
      destruct (Z.eqb_spec (mw_waiters c0 + 1) 0); split_and!; auto; usize.
    - cbn in E. simplify_eq. unfold mw_ok; cbn. rewrite notify_parity. split_and!; auto. apply wrap_range.
    - cbn in E0. simplify_eq. destruct (Z.land (mw_state d0) WAITING =? 0); [done|]. cbn in E. simplify_eq.
      unfold mw_ok. destruct (negb (mw_waiters c0 =? 0)); by cbn.
    - cbn in E. destruct (mw_state c0 =? snapshot r); [by cbn in E; simplify_eq|].
      destruct (MultiWaitCell_remove_waiter c0) eqn:Er; cbn in E; simplify_eq. eapply mw_remove_ok; [by split_and!|done].
    - cbn in E. destruct (MultiWaitCell_remove_waiter c0) eqn:Er; cbn in E; simplify_eq.
      eapply mw_remove_ok; [by split_and!|done]. }
  destruct Hok as (H1 & H2 & H3). rewrite land_waiting, H3.
  destruct (Z.eqb_spec (mw_waiters c) 0); split; try (unfold is_usize in *; lia); done.
Qed.

Lemma multi_wait_bit_exact_witness :
  (Z.land (mw_state (mkMultiWaitCell 3 1 1)) WAITING = 0 <-> mw_waiters (mkMultiWaitCell 3 1 1) = 0) /\
  0 <= mw_waiters (mkMultiWaitCell 3 1 1).
Proof.
  apply (multi_wait_bit_exact (mkMultiWaitCell 3 1 1)).
  eapply rtc_l; [eapply (mw_step_notify _ (mkMultiWaitCell 2 0 0) false); reflexivity|].
  eapply rtc_l; [eapply (mw_step_prepare _ (mkWaitRegistration 3) (mkMultiWaitCell 3 1 0)); reflexivity|].
  eapply rtc_l; [eapply (mw_step_wait _ (mkWaitRegistration 3) true (mkMultiWaitCell 3 1 1)); reflexivity|].
  constructor.
Defined.

(** ** The single-waiter protocol *)

Inductive waiter_pc : Type :=
| WIdle
| WRegistered (r : WaitRegistration)
| WAsleep (r : WaitRegistration)
| WEnding.

Inductive notifier_pc : Type := NStart | NSignal | NDone.
#[export] Instance notifier_pc_eq_dec : EqDecision notifier_pc.
Proof. solve_decision. Defined.

(** The code a notifier still has to run. *)
Definition notifier_prog (a : notifier_pc) : prog WaitCell unit :=
  match a with
  | NStart => WaitCell_notify
  | NSignal => WaitCell_notify_waiter
  | NDone => Ret tt
  end.

Definition notifier_next (a : notifier_pc) (c : WaitCell) : notifier_pc :=
  match a with
  | NStart => if negb (Z.land (wc_state c) WAITING =? 0) then NSignal else NDone
  | _ => NDone
  end.

(** [ws_since] counts the notifications begun since the registration. *)
Record wait_sys : Type := mkWaitSys {
  ws_cell : WaitCell;
  ws_waiter : waiter_pc;
  ws_notifiers : list notifier_pc;
  ws_since : nat
}.

Inductive wait_step : wait_sys -> wait_sys -> Prop :=
| step_prepare c ns k r c' :
    run WaitCell_prepare c = (Done r, c') ->
    wait_step (mkWaitSys c WIdle ns k) (mkWaitSys c' (WRegistered r) ns 0)
| step_recheck_done c ns k r :
    wait_step (mkWaitSys c (WRegistered r) ns k) (mkWaitSys c WEnding ns k)
| step_wait c ns k r (asleep : bool) c' :
    run (WaitRegistration_wait_begin r) c = (Done asleep, c') ->
    wait_step (mkWaitSys c (WRegistered r) ns k)
              (mkWaitSys c' (if asleep then WAsleep r else WEnding) ns k)
| step_wake c ns k r :
    wc_asleep c = false ->
    wait_step (mkWaitSys c (WAsleep r) ns k) (mkWaitSys c WEnding ns k)
| step_spurious c ns k r :
    wait_step (mkWaitSys c (WAsleep r) ns k) (mkWaitSys (mkWaitCell (wc_state c) false) WEnding ns k)
| step_drop c ns k c' :
    run WaitRegistration_drop c = (Done tt, c') ->
    wait_step (mkWaitSys c WEnding ns k) (mkWaitSys c' WIdle ns k)
| step_notifier c w ns k i a c' :
    ns !! i = Some a ->
    step_prog (notifier_prog a) c = Some (c', notifier_prog (notifier_next a c)) ->
    wait_step (mkWaitSys c w ns k)
              (mkWaitSys c' w (<[i := notifier_next a c]> ns) (if decide (a = NStart) then S k else k)).

Fixpoint not_started (ns : list notifier_pc) : nat :=
  match ns with
  | [] => O
  | NStart :: ns' => S (not_started ns')
  | _ :: ns' => not_started ns'
  end.

Record wait_inv (n : nat) (s : wait_sys) : Prop := {
  wi_usize : is_usize (wc_state (ws_cell s));
  wi_parity : wc_state (ws_cell s) mod 2 = match ws_waiter s with WIdle => 0 | _ => 1 end;
  wi_count : (ws_since s + not_started (ws_notifiers s) <= n)%nat;
  wi_asleep : wc_asleep (ws_cell s) = true -> exists r, ws_waiter s = WAsleep r;
  wi_snapshot : match ws_waiter s with
    | WRegistered r | WAsleep r => is_usize (snapshot r) /\
        wc_state (ws_cell s) = wrap (snapshot r + 2 * Z.of_nat (ws_since s))
    | _ => True
    end;
  wi_signal : wc_asleep (ws_cell s) = true -> ws_since s = O \/ NSignal ∈ ws_notifiers s
}.

Lemma not_started_insert ns i a b :
  ns !! i = Some a -> b <> NStart ->
  (not_started (<[i := b]> ns) + (if decide (a = NStart) then 1 else 0) = not_started ns)%nat.
Proof.
  revert i. induction ns as [|x ns IH]; intros i Hi Hb; [done|].
  destruct i as [|i]; cbn in Hi.
  - simplify_eq. destruct a, b; try done; simpl; lia.
  - specialize (IH i Hi Hb). destruct (decide (a = NStart)), x; simpl; lia.
Qed.

Lemma notifier_next_started a c : notifier_next a c <> NStart.
Proof. destruct a; cbn; try done. by destruct (negb _). Qed.

Lemma wrap_succ_notify s k : wrapping_add (wrap (s + 2 * Z.of_nat k)) NOTIFY_INCREMENT = wrap (s + 2 * Z.of_nat (S k)).
Proof. rewrite wrapping_add_wrap. f_equal. unfold NOTIFY_INCREMENT. lia. Qed.

Lemma wait_inv_notifier n c w ns k i a c' :
  wait_inv n (mkWaitSys c w ns k) -> ns !! i = Some a ->
  step_prog (notifier_prog a) c = Some (c', notifier_prog (notifier_next a c)) ->
  wait_inv n (mkWaitSys c' w (<[i := notifier_next a c]> ns) (if decide (a = NStart) then S k else k)).
Proof.
  intros [H1 H2 H3 H4 H5 H6] Hi Hs. cbn [ws_cell ws_waiter ws_notifiers ws_since] in *.
  pose proof (not_started_insert ns i a (notifier_next a c) Hi (notifier_next_started a c)) as Hn.
  destruct a; cbn [notifier_prog step_prog] in Hs; [| |done].
  - cbn in Hs. injection Hs as <- _. rewrite (decide_True (P := NStart = NStart)) in * by done.
    split; cbn [ws_cell ws_waiter ws_notifiers ws_since wc_state wc_asleep set_wc_state]; auto.
    + apply wrap_range.
    + by rewrite notify_parity.
    + lia.
    + destruct w; auto; destruct H5 as [Hr E]; rewrite E, wrap_succ_notify; done.
    + intros Ha. right. destruct (H4 Ha) as [r ->]. cbn. rewrite land_waiting, H2. cbn.
      apply list_elem_of_insert. by eapply lookup_lt_Some.
  - cbn in Hs. injection Hs as <-. rewrite (decide_False (P := NSignal = NStart)) in * by done.
    cbn [notifier_next] in *.
    destruct (negb (Z.land (wc_state c) WAITING =? 0)) eqn:E.
    + split; cbn; auto; [lia|done..].
    + rewrite land_waiting, H2 in E. split; cbn; auto; [lia|].
      intros Ha. destruct (H4 Ha) as [r ->]. done.
Qed.

Lemma wait_inv_step n s s' :
  Z.of_nat n < 2 ^ 63 -> wait_inv n s -> wait_step s s' -> wait_inv n s'.
Proof.
  intros Hn HI Hs.
  destruct Hs as [c ns k r c' E|c ns k r|c ns k r asleep c' E|c ns k r E|c ns k r|c ns k c' E|c w ns k i a c' Hi E];
    [..|by eapply wait_inv_notifier].
  all: destruct HI as [H1 H2 H3 H4 H5 H6]; cbn [ws_cell ws_waiter ws_notifiers ws_since] in *.
  - cbn in E. rewrite land_waiting, H2 in E. cbn in E. injection E as <- <-.
    destruct (lor_waiting_usize _ H1) as [H7 H8].
    split; cbn; auto; [lia| |].
    + intros Ha. destruct (H4 Ha) as [? [=]].
    + split; [done|]. rewrite Z.add_0_r. symmetry. by apply wrap_small.
  - split; cbn; auto. intros Ha. destruct (H4 Ha) as [? [=]].
  - cbn in E. unfold WaitRegistration_is_current in E.
    destruct (Z.eqb_spec (wc_state c) (snapshot r)) as [Es|]; cbn in E; injection E as <- <-.
    + destruct H5 as [Hr Hst]. split; cbn; eauto.
      intros _. left. rewrite Es in Hst. rewrite <- (wrap_small (snapshot r)) in Hst at 1 by done.
      assert (0 <= 2 * Z.of_nat k < usize_mod) by (unfold usize_mod; lia).
      symmetry in Hst. apply wrap_inj in Hst; lia.
    + split; cbn; auto. intros Ha. destruct (H4 Ha) as [? [=]].
  - split; cbn; auto. by rewrite E.
  - split; cbn; auto; done.
  - cbn in E. injection E as <-. destruct (clear_waiting_usize _ H1) as [H7 H8].
    split; cbn; auto. intros Ha. destruct (H4 Ha) as [? [=]].
Qed.

Definition wait_init (n : nat) : wait_sys := mkWaitSys WaitCell_new WIdle (replicate n NStart) 0.

Lemma wait_inv_init n : wait_inv n (wait_init n).
Proof.
  split; cbn; auto; try done. induction n; simpl; lia.
Qed.

(** C18: no lost wakeup in the wait cell.  One waiter that registers, rechecks,
    sleeps, wakes (also spuriously) and registers again any number of times,
    against any number of notifications (fewer than half the word, so the
    generation cannot come around): in every interleaving, a waiter that is
    asleep although a notification began after it registered will be woken,
    because a notifier is still about to signal it; so when all notifiers are
    done, no waiter sleeps through a notification.  The cell's assertion that
    there is one waiter never fails. *)
Theorem wait_cell_no_lost_wakeup (n : nat) (s : wait_sys) :
  Z.of_nat n < 2 ^ 63 -> rtc wait_step (wait_init n) s ->
  (wc_asleep (ws_cell s) = true -> (0 < ws_since s)%nat -> NSignal ∈ ws_notifiers s) /\
  (ws_waiter s = WIdle -> exists r c', run WaitCell_prepare (ws_cell s) = (Done r, c')) /\
  (forall i a, ws_notifiers s !! i = Some a -> a <> NDone -> exists s', wait_step s s' /\
     ws_notifiers s' !! i <> Some a).
Proof.
  intros Hn H. assert (HI : wait_inv n s).
  { generalize (wait_inv_init n). induction H; eauto using wait_inv_step. }
  split_and!.
  - intros Ha Hk. destruct (wi_signal _ _ HI Ha); [lia|done].
  - intros Hw. pose proof (wi_parity _ _ HI) as Hp. rewrite Hw in Hp. cbn.
    rewrite land_waiting, Hp. cbn. eauto.
  - intros i a Hi Ha. destruct s as [c w ns k]. cbn in *.
    assert (exists c', step_prog (notifier_prog a) c = Some (c', notifier_prog (notifier_next a c))) as [c' E].
    { destruct a; cbn; [|eauto|done]. destruct (negb _); eauto. }
    eexists. split; [econstructor; eauto|]. cbn.
    rewrite list_lookup_insert_eq by (by eapply lookup_lt_Some). intros [= En].
    destruct a; cbn in En; try done. by destruct (negb _).
Qed.

Lemma wait_cell_no_lost_wakeup_witness :
  exists s, rtc wait_step (wait_init 1) s /\ wc_asleep (ws_cell s) = true /\ (0 < ws_since s)%nat /\
    ((wc_asleep (ws_cell s) = true -> (0 < ws_since s)%nat -> NSignal ∈ ws_notifiers s) /\
     (ws_waiter s = WIdle -> exists r c', run WaitCell_prepare (ws_cell s) = (Done r, c')) /\
     (forall i a, ws_notifiers s !! i = Some a -> a <> NDone -> exists s', wait_step s s' /\
        ws_notifiers s' !! i <> Some a)).
Proof.
  set (s := mkWaitSys (mkWaitCell 3 true) (WAsleep (mkWaitRegistration 1)) [NSignal] 1).
  assert (H : rtc wait_step (wait_init 1) s).
  { eapply rtc_l; [eapply (step_prepare WaitCell_new _ _ (mkWaitRegistration 1)); reflexivity|].
    eapply rtc_l; [eapply (step_wait _ _ _ _ true); reflexivity|].
    eapply rtc_l; [eapply (step_notifier _ _ _ _ 0 NStart); reflexivity|]. constructor. }
  exists s. split; [exact H|]. split; [reflexivity|]. split; [simpl; lia|].
  apply (wait_cell_no_lost_wakeup 1); [reflexivity|exact H].
Defined.
