(* ===== verification/Publication.v ===== *)
(** * The publication tracker

    Models [src/src/publication.rs].  Publishers move work between queues
    inside a [Publication]; a receiver that scans the queues and finds nothing
    uses the tracker to tell a stable empty scan from one that raced a move.

    [pub_step] runs any number of publishers, one atomic access per step:
    entering, moving work (any number of times), bumping the generation, and
    leaving.  [work] is whatever the publishers move; its type is arbitrary. *)

From S2P Require Import Prelude Prog.
Local Open Scope prog_scope.

Record PublicationTracker : Type := mkTracker {
  pub_generation : Z;
  pub_in_flight : Z
}.

Definition PublicationTracker_new : PublicationTracker := mkTracker 0 0.

Definition PublicationTracker_snapshot : prog PublicationTracker Z := load pub_generation.

Definition PublicationTracker_begin : prog PublicationTracker unit :=
  store (fun t => mkTracker (pub_generation t) (wrapping_add (pub_in_flight t) 1)).

Definition PublicationTracker_changed_since (snapshot : Z) : prog PublicationTracker bool :=
  let* g := load pub_generation in Ret (negb (g =? snapshot)).

Definition PublicationTracker_is_in_flight : prog PublicationTracker bool :=
  let* n := load pub_in_flight in Ret (negb (n =? 0)).

Definition PublicationTracker_notify_change : prog PublicationTracker unit :=
  store (fun t => mkTracker (wrapping_add (pub_generation t) 1) (pub_in_flight t)).

(** [impl Drop for Publication]. *)
Definition Publication_drop : prog PublicationTracker unit :=
  let* _ := PublicationTracker_notify_change in
  store (fun t => mkTracker (pub_generation t) (wrapping_sub (pub_in_flight t) 1)).

(** ** The protocol *)

Inductive publisher_pc : Type :=
| POutside
| PMoving
| PLeaving.

(** The code a publisher runs next. *)
Definition publisher_prog (a : publisher_pc) : prog PublicationTracker unit :=
  match a with
  | POutside => PublicationTracker_begin
  | PMoving => Publication_drop
  | PLeaving => store (fun t => mkTracker (pub_generation t) (wrapping_sub (pub_in_flight t) 1))
  end.

Definition publisher_next (a : publisher_pc) : publisher_pc :=
  match a with POutside => PMoving | PMoving => PLeaving | PLeaving => POutside end.

Section protocol.
Context {W : Type}.

(** [ps_changes] counts the changes of the generation. *)
Record pub_sys : Type := mkPubSys {
  ps_tracker : PublicationTracker;
  ps_publishers : list publisher_pc;
  ps_work : W;
  ps_changes : nat
}.

Inductive pub_step : pub_sys -> pub_sys -> Prop :=
| pub_step_access t ps w k i a t' k' :
    ps !! i = Some a -> step_prog (publisher_prog a) t = Some (t', k') ->
    pub_step (mkPubSys t ps w k)
             (mkPubSys t' (<[i := publisher_next a]> ps) w (match a with PMoving => S k | _ => k end))
| pub_step_move t ps w k i w' :
    ps !! i = Some PMoving -> pub_step (mkPubSys t ps w k) (mkPubSys t ps w' k)
| pub_step_notify t ps w k t' :
    run PublicationTracker_notify_change t = (Done tt, t') ->
    pub_step (mkPubSys t ps w k) (mkPubSys t' ps w (S k)).

Definition pub_init (n : nat) (w : W) : pub_sys :=
  mkPubSys PublicationTracker_new (replicate n POutside) w 0.

(** How many publishers are inside. *)
Fixpoint inside (ps : list publisher_pc) : nat :=
  match ps with
  | [] => O
  | POutside :: ps' => inside ps'
  | _ :: ps' => S (inside ps')
  end.

Lemma inside_le ps : (inside ps <= length ps)%nat.
Proof. induction ps as [|[] ps IH]; simpl; lia. Qed.

Lemma inside_insert ps i a b :
  ps !! i = Some a ->
  (inside (<[i := b]> ps) + (match a with POutside => 0 | _ => 1 end) =
   inside ps + (match b with POutside => 0 | _ => 1 end))%nat.
Proof.
  revert i. induction ps as [|x ps IH]; intros i Hi; [done|]. destruct i as [|i]; cbn in Hi.
  - simplify_eq. destruct a, b; simpl; lia.
  - specialize (IH i Hi). destruct x; simpl; lia.
Qed.

Lemma inside_0 ps i a : ps !! i = Some a -> inside ps = O -> a = POutside.
Proof.
  revert i. induction ps as [|x ps IH]; intros i Hi Hn; [done|]. destruct i as [|i]; cbn in Hi.
  - simplify_eq. by destruct a.
  - destruct x; [|done..]. eauto.
Qed.

Record pub_inv (n : nat) (s : pub_sys) : Prop := {
  pi_len : length (ps_publishers s) = n;
  pi_flight : pub_in_flight (ps_tracker s) = Z.of_nat (inside (ps_publishers s));
  pi_gen : pub_generation (ps_tracker s) = wrap (Z.of_nat (ps_changes s))
}.

Lemma pub_inv_init n w : pub_inv n (pub_init n w).
Proof.
  split; cbn; [apply length_replicate| |done]. by induction n.
Qed.

Lemma pub_inv_step n s s' : Z.of_nat n < usize_mod -> pub_inv n s -> pub_step s s' -> pub_inv n s'.
Proof.
  intros Hn [H1 H2 H3] Hs. destruct Hs as [t ps w k i a t' k' Hi E|t ps w k i w' Hi|t ps w k t' E]; cbn in *.
  - pose proof (inside_insert ps i a (publisher_next a) Hi) as Hc.
    pose proof (inside_le (<[i := publisher_next a]> ps)) as Hle. rewrite length_insert in Hle.
    pose proof (inside_le ps).
    split; cbn; [by rewrite length_insert| |]; destruct a; cbn in E; simplify_eq; cbn in *.
    + rewrite H2. unfold wrapping_add. rewrite wrap_small by usize. lia.
    + lia.
    + rewrite H2. unfold wrapping_sub. rewrite wrap_small by usize. lia.
    + done.
    + rewrite H3, wrapping_add_wrap. f_equal. lia.
    + done.
  - by split.
  - simplify_eq. split; cbn; auto. rewrite H3, wrapping_add_wrap. f_equal. lia.
Qed.

Lemma pub_inv_reach n s s' : Z.of_nat n < usize_mod -> pub_inv n s -> rtc pub_step s s' -> pub_inv n s'.
Proof. intros Hn H Hr. induction Hr; eauto using pub_inv_step. Qed.

Lemma changes_mono s s' : rtc pub_step s s' -> (ps_changes s <= ps_changes s')%nat.
Proof.
  induction 1 as [|s s1 s' Hs _ IH]; [lia|]. inversion Hs as [? ? ? ? ? a|?|?]; subst; cbn in *; try lia.
  destruct a; lia.
Qed.

(** A run without a change of the generation: whoever is inside stays in. *)
Lemma stay_inside s s' i :
  rtc pub_step s s' -> ps_changes s' = ps_changes s ->
  ps_publishers s !! i = Some PMoving -> ps_publishers s' !! i = Some PMoving.
Proof.
  induction 1 as [|s s1 s' Hs Hr IH]; [done|]. intros E Hi. pose proof (changes_mono _ _ Hr) as Hm.
  inversion Hs as [t ps w k j a t' k' Hj Ep|t ps w k j w' Hj|t ps w k t' Ep]; subst; cbn in *.
  - apply IH; [destruct a; lia|]. destruct (decide (j = i)) as [->|Hne].
    + simplify_eq. lia.
    + by rewrite list_lookup_insert_ne.
  - apply IH; [lia|done].
  - lia.
Qed.

(** So a run that ends with nobody inside moves nothing. *)
Lemma quiet_run_keeps_work s s' :
  rtc pub_step s s' -> ps_changes s' = ps_changes s -> inside (ps_publishers s') = O ->
  ps_work s' = ps_work s.
Proof.
  induction 1 as [|s s1 s' Hs Hr IH]; [done|]. intros E Hin. pose proof (changes_mono _ _ Hr) as Hm.
  inversion Hs as [t ps w k j a t' k' Hj Ep|t ps w k j w' Hj|t ps w k t' Ep]; subst; cbn in *.
  - apply IH; [destruct a; lia|done].
  - exfalso. assert (H := stay_inside _ _ j Hr ltac:(cbn; lia) Hj). pose proof (inside_0 _ _ _ H Hin). done.
  - lia.
Qed.

End protocol.
Arguments pub_sys W : clear implicits.

(** C15: a scan that passes both checks of the tracker was stable.  Take any
    number of publishers, any reachable state [s1] in which a receiver reads
    the generation, any later state [s2] of its scan, any later [s3] in which
    it sees nothing in flight, and any later [s4] in which it sees the
    generation unchanged (with fewer than [2^64] changes in between): nothing
    was moved anywhere from [s1] to [s3], so every queue the receiver looked at
    held the same work throughout its scan. *)
Theorem publication_scan_stable {W} (n : nat) (w : W) (s1 s2 s3 s4 : pub_sys W) :
  Z.of_nat n < usize_mod ->
  rtc pub_step (pub_init n w) s1 -> rtc pub_step s1 s2 -> rtc pub_step s2 s3 -> rtc pub_step s3 s4 ->
  Z.of_nat (ps_changes s4 - ps_changes s1) < usize_mod ->
  run PublicationTracker_is_in_flight (ps_tracker s3) = (Done false, ps_tracker s3) ->
  run (PublicationTracker_changed_since (pub_generation (ps_tracker s1))) (ps_tracker s4) = (Done false, ps_tracker s4) ->
  ps_work s2 = ps_work s1 /\ ps_work s3 = ps_work s1.
Proof.
  intros Hn R1 R2 R3 R4 Hk Hf Hg.
  pose proof (pub_inv_reach n _ _ Hn (pub_inv_init n w) R1) as I1.
  pose proof (pub_inv_reach n _ _ Hn I1 (transitivity R2 R3)) as I3.
  pose proof (pub_inv_reach n _ _ Hn I3 R4) as I4.
  pose proof (changes_mono _ _ R2). pose proof (changes_mono _ _ R3). pose proof (changes_mono _ _ R4).
  assert (E : ps_changes s4 = ps_changes s1).
  { cbn in Hg. injection Hg as Hg. apply negb_false_iff, Z.eqb_eq in Hg.
    rewrite (pi_gen _ _ I4), (pi_gen _ _ I1) in Hg. apply wrap_inj in Hg; lia. }
  assert (Hin : inside (ps_publishers s3) = O).
  { cbn in Hf. injection Hf as Hf. apply negb_false_iff, Z.eqb_eq in Hf. rewrite (pi_flight _ _ I3) in Hf. lia. }
  assert (E3 : ps_work s3 = ps_work s1).
  { apply quiet_run_keeps_work; [by etransitivity|lia|done]. }
  split; [|done]. rewrite <- E3. symmetry. apply quiet_run_keeps_work; [done|lia|done].
Qed.

(** One publisher that has finished moving before the scan starts. *)
Lemma publication_scan_stable_witness :
  exists s : pub_sys nat, rtc pub_step (pub_init 1 5%nat) s /\ ps_work s = 6%nat /\
    (ps_work s = ps_work s /\ ps_work s = ps_work s).
Proof.
  set (s := mkPubSys (mkTracker 1 0) [POutside] 6%nat 1). exists s.
  assert (H : rtc pub_step (pub_init 1 5%nat) s).
  { eapply rtc_l; [eapply (pub_step_access _ _ _ _ 0 POutside); reflexivity|].
    eapply rtc_l; [eapply (pub_step_move _ _ _ _ 0 6%nat); reflexivity|].
    eapply rtc_l; [eapply (pub_step_access _ _ _ _ 0 PMoving); reflexivity|].
    eapply rtc_l; [eapply (pub_step_access _ _ _ _ 0 PLeaving); reflexivity|]. constructor. }
  split; [exact H|]. split; [reflexivity|].
  apply (publication_scan_stable 1 5%nat s s s s); [reflexivity|exact H|constructor|constructor|constructor| | |].
  - rewrite Nat.sub_diag. reflexivity.
  - reflexivity.
  - reflexivity.
Defined.
