(* ===== verification/Ready.v ===== *)
(** * The readiness index

    Models [src/src/ready.rs]: the two-level bit index (a [ReadyGroup]
    summarises 64 [ReadyPage]s, a page 64 lanes) and the per-lane coalescing
    flag [LaneSignal].  Groups, pages and signals live in the lists of a
    [ready_store]; an [Arc] is an index into its list.  Atomic
    read-modify-writes are single steps; a weak compare-exchange may fail
    spuriously, which the list [spurious] decides. *)

From S2P Require Import Prelude Prog Wait.
Local Open Scope prog_scope.

Definition IDLE : Z := 0.
Definition PENDING : Z := 1.
Definition LANES_PER_PAGE : Z := 64.
Definition PAGES_PER_GROUP : Z := 64.

(** ** 64-bit words *)

Definition u64_rotate_right (x n : Z) : Z :=
  Z.lor (Z.shiftr x n) (Z.land (Z.shiftl x (64 - n)) (Z.ones 64)).

(** The lowest set bit below [n + fuel], from [n] on. *)
Fixpoint lowest_bit (x : Z) (n : Z) (fuel : nat) : Z :=
  match fuel with
  | O => n
  | S fuel' => if Z.testbit x n then n else lowest_bit x (n + 1) fuel'
  end.

(** [u64::trailing_zeros]. *)
Definition trailing_zeros (x : Z) : Z := lowest_bit x 0 64.

Definition is_u64 (x : Z) : Prop := 0 <= x < 2 ^ 64.

(** [bits & !(1 << bit)]. *)
Definition clear_bit (x bit : Z) : Z := Z.ldiff x (Z.shiftl 1 bit).

(** ** Data *)

Record ReadyGroup : Type := mkReadyGroup { group_id : Z; group_bits : Z }.

Record ReadyPage : Type := mkReadyPage {
  page_id : Z;
  page_bits : Z;
  page_group : Z;
  page_group_bit : Z
}.

Record LaneSignal : Type := mkLaneSignal {
  signal_state : Z;
  signal_page : Z;
  signal_bit : Z;
  space_waiter : WaitCell
}.

Record ready_store : Type := mkReadyStore {
  rs_groups : list ReadyGroup;
  rs_pages : list ReadyPage;
  rs_signals : list LaneSignal
}.

Definition set_group (i : Z) (g : ReadyGroup) (s : ready_store) : ready_store :=
  mkReadyStore (zinsert (rs_groups s) i g) (rs_pages s) (rs_signals s).
Definition set_page (i : Z) (p : ReadyPage) (s : ready_store) : ready_store :=
  mkReadyStore (rs_groups s) (zinsert (rs_pages s) i p) (rs_signals s).
Definition set_signal_at (i : Z) (l : LaneSignal) (s : ready_store) : ready_store :=
  mkReadyStore (rs_groups s) (rs_pages s) (zinsert (rs_signals s) i l).

Definition with_group_bits (b : Z) (g : ReadyGroup) : ReadyGroup := mkReadyGroup (group_id g) b.
Definition with_page_bits (b : Z) (p : ReadyPage) : ReadyPage :=
  mkReadyPage (page_id p) b (page_group p) (page_group_bit p).
Definition with_signal_state (b : Z) (l : LaneSignal) : LaneSignal :=
  mkLaneSignal b (signal_page l) (signal_bit l) (space_waiter l).
Definition with_space_waiter (w : WaitCell) (l : LaneSignal) : LaneSignal :=
  mkLaneSignal (signal_state l) (signal_page l) (signal_bit l) w.

(** One atomic access to the object an [Arc] points to. *)
Definition on_group {R} (i : Z) (f : ReadyGroup -> R * ReadyGroup) : prog ready_store R :=
  let* o := atomic (fun s =>
    match zlookup (rs_groups s) i with
    | Some g => let '(r, g') := f g in (Some r, set_group i g' s)
    | None => (None, s)
    end) in
  match o with Some r => Ret r | None => Fail (UB "dangling group") end.

Definition on_page {R} (i : Z) (f : ReadyPage -> R * ReadyPage) : prog ready_store R :=
  let* o := atomic (fun s =>
    match zlookup (rs_pages s) i with
    | Some p => let '(r, p') := f p in (Some r, set_page i p' s)
    | None => (None, s)
    end) in
  match o with Some r => Ret r | None => Fail (UB "dangling page") end.

Definition on_signal {R} (i : Z) (f : LaneSignal -> R * LaneSignal) : prog ready_store R :=
  let* o := atomic (fun s =>
    match zlookup (rs_signals s) i with
    | Some l => let '(r, l') := f l in (Some r, set_signal_at i l' s)
    | None => (None, s)
    end) in
  match o with Some r => Ret r | None => Fail (UB "dangling signal") end.

(** ** ReadyGroup *)

Definition ReadyGroup_new (id : Z) : ReadyGroup := mkReadyGroup id 0.

Definition ReadyGroup_mark (g bit : Z) : prog ready_store unit :=
  on_group g (fun gr => (tt, with_group_bits (Z.lor (group_bits gr) bit) gr)).

Definition ReadyGroup_has_ready (g : Z) : prog ready_store bool :=
  on_group g (fun gr => (negb (group_bits gr =? 0), gr)).

Definition ReadyGroup_take_all (g : Z) : prog ready_store Z :=
  on_group g (fun gr => (group_bits gr, with_group_bits 0 gr)).

(** The compare-exchange loop of [take_one_from], [bits] being the last
    observed word; one element of [spurious] per iteration says whether that
    iteration's weak exchange fails although the word matches. *)
Fixpoint ReadyGroup_take_loop (g start bits : Z) (spurious : list bool) : prog ready_store (option Z) :=
  if bits =? 0 then Ret None
  else
    let offset := trailing_zeros (u64_rotate_right bits start) in
    let bit := (start + offset) mod PAGES_PER_GROUP in
    let next := clear_bit bits bit in
    match spurious with
    | [] => Fail (Panic "out of fuel")
    | fails :: spurious' =>
        let* r := on_group g (fun gr =>
          if negb fails && (group_bits gr =? bits)
          then (Ok tt, with_group_bits next gr)
          else (Err (group_bits gr), gr)) in
        match r with
        | Ok _ => Ret (Some bit)
        | Err observed => ReadyGroup_take_loop g start observed spurious'
        end
    end.

Definition ReadyGroup_take_one_from (g start : Z) (spurious : list bool) : prog ready_store (option Z) :=
  if negb (start <? PAGES_PER_GROUP) then Fail (Panic "debug_assert: start < PAGES_PER_GROUP")
  else
    let* bits := on_group g (fun gr => (group_bits gr, gr)) in
    ReadyGroup_take_loop g start bits spurious.

(** ** ReadyPage *)

Definition ReadyPage_new (id group : Z) (group_obj : ReadyGroup) : outcome ReadyPage :=
  if negb (group_id group_obj =? id / PAGES_PER_GROUP) then Fault (Panic "debug_assert_eq: group id")
  else Done (mkReadyPage id 0 group (Z.shiftl 1 (id mod PAGES_PER_GROUP))).

Definition ReadyPage_mark (p bit : Z) : prog ready_store unit :=
  let* '(old, group, group_bit) := on_page p (fun pg =>
    ((page_bits pg, page_group pg, page_group_bit pg), with_page_bits (Z.lor (page_bits pg) bit) pg)) in
  if old =? 0 then ReadyGroup_mark group group_bit else Ret tt.

Definition ReadyPage_take (p : Z) : prog ready_store Z :=
  on_page p (fun pg => (page_bits pg, with_page_bits 0 pg)).

(** ** LaneSignal *)

Definition LaneSignal_new (page lane : Z) : LaneSignal :=
  mkLaneSignal IDLE page (Z.shiftl 1 (lane mod LANES_PER_PAGE)) WaitCell_new.

Definition LaneSignal_mark (l : Z) : prog ready_store bool :=
  let* '(old, page, bit) := on_signal l (fun sg =>
    ((signal_state sg, signal_page sg, signal_bit sg), with_signal_state PENDING sg)) in
  if old =? IDLE then
    let* _ := ReadyPage_mark page bit in Ret true
  else Ret false.

Definition LaneSignal_finish_drain (l : Z) : prog ready_store unit :=
  on_signal l (fun sg => (tt, with_signal_state IDLE sg)).

Definition LaneSignal_claim_after_empty (l : Z) : prog ready_store bool :=
  on_signal l (fun sg =>
    if signal_state sg =? IDLE then (true, with_signal_state PENDING sg) else (false, sg)).

Definition LaneSignal_is_pending (l : Z) : prog ready_store bool :=
  on_signal l (fun sg => (negb (signal_state sg =? IDLE), sg)).

(** The lane's capacity cell is one of the store's cells. *)
Definition lane_cell (l : Z) (s : ready_store) : WaitCell :=
  match zlookup (rs_signals s) l with Some sg => space_waiter sg | None => WaitCell_new end.
Definition put_lane_cell (l : Z) (w : WaitCell) (s : ready_store) : ready_store :=
  match zlookup (rs_signals s) l with
  | Some sg => set_signal_at l (with_space_waiter w sg) s
  | None => s
  end.

Definition LaneSignal_notify_space (l : Z) : prog ready_store unit :=
  lift (lane_cell l) (put_lane_cell l) WaitCell_notify.

(** [WaitSource::register]: senders park on their lane's capacity cell. *)
Definition LaneSignal_register (l : Z) : prog ready_store WaitRegistration :=
  lift (lane_cell l) (put_lane_cell l) WaitCell_prepare.

Definition LaneSignal_on_cell {A} (l : Z) (p : prog WaitCell A) : prog ready_store A :=
  lift (lane_cell l) (put_lane_cell l) p.

(** ** Bits *)

Lemma lowest_bit_spec x : forall fuel n, 0 <= n ->
  let r := lowest_bit x n fuel in
  n <= r <= n + Z.of_nat fuel /\
  (forall i, n <= i < r -> Z.testbit x i = false) /\
  (r < n + Z.of_nat fuel -> Z.testbit x r = true).
Proof.
  induction fuel as [|fuel IH]; intros n Hn r; subst r; cbn [lowest_bit].
  - split_and!; try lia.
  - destruct (Z.testbit x n) eqn:E.
    + split_and!; try lia; auto.
    + destruct (IH (n + 1)) as (H1 & H2 & H3); [lia|]. split_and!; try lia.
      * intros i Hi. destruct (Z.eq_dec i n) as [->|]; [done|apply H2; lia].
      * intros Hr. apply H3. lia.
Qed.

Lemma u64_zero x : is_u64 x -> (forall i, 0 <= i < 64 -> Z.testbit x i = false) -> x = 0.
Proof.
  intros Hx H. apply Z.bits_inj_0. intros n. destruct (Z.lt_ge_cases n 0); [by apply Z.testbit_neg_r|].
  destruct (Z.lt_ge_cases n 64); [by apply H|].
  destruct (Z.eq_dec x 0) as [->|]; [apply Z.testbit_0_l|].
  apply Z.bits_above_log2; [apply Hx|]. destruct Hx. apply Z.log2_lt_pow2; [lia|].
  eapply Z.lt_le_trans; [eassumption|]. apply Z.pow_le_mono_r; lia.
Qed.

Lemma u64_high x n : is_u64 x -> 64 <= n -> Z.testbit x n = false.
Proof.
  intros [H1 H2] Hn. destruct (Z.eq_dec x 0) as [->|]; [apply Z.testbit_0_l|].
  apply Z.bits_above_log2; [done|]. apply Z.log2_lt_pow2; [lia|].
  eapply Z.lt_le_trans; [eassumption|]. apply Z.pow_le_mono_r; lia.
Qed.

Lemma trailing_zeros_spec x : is_u64 x -> x <> 0 ->
  0 <= trailing_zeros x < 64 /\ Z.testbit x (trailing_zeros x) = true /\
  forall i, 0 <= i < trailing_zeros x -> Z.testbit x i = false.
Proof.
  intros Hx Hne. unfold trailing_zeros. destruct (lowest_bit_spec x 64 0) as (H1 & H2 & H3); [lia|].
  set (o := lowest_bit x 0 64) in *. assert (o < 64).
  { destruct (Z.lt_ge_cases o 64); [done|]. exfalso. apply Hne, u64_zero; [done|]. intros i Hi. apply H2. lia. }
  split_and!; [lia|lia|apply H3; lia|done].
Qed.

(** [x & (x - 1)] clears the lowest set bit. *)
Lemma clear_lowest x t : is_u64 x -> 0 <= t -> Z.testbit x t = true -> (forall i, 0 <= i < t -> Z.testbit x i = false) ->
  is_u64 (Z.land x (x - 1)) /\ forall i, 0 <= i <= t -> Z.testbit (Z.land x (x - 1)) i = false.
Proof.
  intros Hx Ht H1 H2. assert (Hpos : 0 < x).
  { destruct Hx as [Hx _]. destruct (Z.eq_dec x 0) as [->|]; [|lia]. by rewrite Z.testbit_0_l in H1. }
  split.
  - assert (H0 : 0 <= Z.land x (x - 1)) by (apply Z.land_nonneg; left; apply Hx). split; [done|].
    destruct (Z.eq_dec (Z.land x (x - 1)) 0) as [->|]; [done|]. apply Z.log2_lt_pow2; [lia|].
    pose proof (Z.log2_land x (x - 1) ltac:(lia) ltac:(lia)). destruct Hx as [_ Hx]. apply Z.log2_lt_pow2 in Hx; lia.
  - intros i Hi. rewrite Z.land_spec. destruct (Z.eq_dec i t) as [->|]; [|by rewrite H2 by lia].
    rewrite H1. cbn. assert (E : x mod 2 ^ t = 0).
    { apply Z.bits_inj_0. intros j. destruct (Z.lt_ge_cases j 0); [by apply Z.testbit_neg_r|].
      destruct (Z.lt_ge_cases j t); [rewrite Z.mod_pow2_bits_low by lia; by apply H2|by apply Z.mod_pow2_bits_high]. }
    pose proof (Z.pow_pos_nonneg 2 t ltac:(lia) Ht) as Hp. pose proof (Z.div_mod x (2 ^ t) ltac:(lia)) as Ed.
    rewrite Z.testbit_odd, Z.shiftr_div_pow2 in * by lia. set (q := x / 2 ^ t) in *.
    replace ((x - 1) / 2 ^ t) with (q - 1).
    + rewrite Z.odd_sub, H1. done.
    + apply (Z.div_unique _ _ _ (2 ^ t - 1)); lia.
Qed.

Lemma is_u64_lor a b : is_u64 a -> is_u64 b -> is_u64 (Z.lor a b).
Proof.
  intros [A1 A2] [B1 B2]. split; [by apply Z.lor_nonneg|]. destruct (Z.eq_dec (Z.lor a b) 0) as [->|]; [done|].
  apply Z.log2_lt_pow2; [pose proof (proj2 (Z.lor_nonneg a b) (conj A1 B1)); lia|]. rewrite Z.log2_lor by done.
  apply Z.max_lub_lt; [destruct (Z.eq_dec a 0)|destruct (Z.eq_dec b 0)]; subst; try done; apply Z.log2_lt_pow2; lia.
Qed.

Lemma is_u64_shift i : is_u64 (Z.shiftl 1 (i mod 64)).
Proof.
  pose proof (Z.mod_pos_bound i 64 ltac:(lia)). rewrite Z.shiftl_1_l. split; [lia|]. apply Z.pow_lt_mono_r; lia.
Qed.

(** Bit [i] of a word rotated right by [n] is bit [(n + i) mod 64]. *)
Lemma rotate_right_testbit x n i :
  is_u64 x -> 0 <= n < 64 -> 0 <= i < 64 ->
  Z.testbit (u64_rotate_right x n) i = Z.testbit x ((n + i) mod 64).
Proof.
  intros Hx Hn Hi. unfold u64_rotate_right.
  rewrite Z.lor_spec, Z.land_spec, Z.shiftr_spec, Z.shiftl_spec by lia.
  rewrite Z.testbit_ones_nonneg by lia. replace (i <? 64) with true by lia. rewrite andb_true_r.
  destruct (Z.lt_ge_cases (n + i) 64).
  - rewrite (Z.mod_small (n + i)) by lia. rewrite (Z.testbit_neg_r x (i - (64 - n))) by lia.
    rewrite orb_false_r. f_equal. lia.
  - rewrite (u64_high x (i + n)) by (done || lia). simpl. f_equal.
    replace (n + i) with (i - (64 - n) + 1 * 64) by lia. rewrite Z_mod_plus_full. symmetry.
    apply Z.mod_small. lia.
Qed.

(** The bit [take_one_from] selects. *)
Definition first_from (bits start : Z) : Z :=
  (start + trailing_zeros (u64_rotate_right bits start)) mod PAGES_PER_GROUP.

Lemma first_from_spec bits start :
  is_u64 bits -> bits <> 0 -> 0 <= start < 64 ->
  let b := first_from bits start in
  0 <= b < 64 /\ Z.testbit bits b = true /\
  (forall d, 0 <= d < (b - start) mod 64 -> Z.testbit bits ((start + d) mod 64) = false).
Proof.
  intros Hb Hne Hs b. subst b. unfold first_from, trailing_zeros, PAGES_PER_GROUP.
  set (rot := u64_rotate_right bits start).
  destruct (lowest_bit_spec rot 64 0) as (H1 & H2 & H3); [lia|]. set (o := lowest_bit rot 0 64) in *.
  assert (Ho : o < 64).
  { destruct (Z.lt_ge_cases o 64); [done|]. exfalso. apply Hne. apply u64_zero; [done|]. intros i Hi.
    replace i with ((start + (i - start) mod 64) mod 64).
    - rewrite <- rotate_right_testbit; [apply H2|done..|]; pose proof (Z.mod_pos_bound (i - start) 64); lia.
    - rewrite Zplus_mod_idemp_r. replace (start + (i - start)) with i by lia. apply Z.mod_small. lia. }
  split_and!.
  - apply Z.mod_pos_bound. lia.
  - apply Z.mod_pos_bound. lia.
  - rewrite <- rotate_right_testbit by (done || lia). apply H3. lia.
  - rewrite Zminus_mod_idemp_l. replace (start + o - start) with o by lia. rewrite (Z.mod_small o) by lia.
    intros d Hd. rewrite <- rotate_right_testbit by (done || lia). apply H2. lia.
Qed.

(** ** One compare-exchange loop *)

Lemma run_on_group {R} i (f : ReadyGroup -> R * ReadyGroup) s g :
  zlookup (rs_groups s) i = Some g -> run (on_group i f) s = (Done (f g).1, set_group i (f g).2 s).
Proof. intros E. cbn. rewrite E. by destruct (f g). Qed.

Lemma zinsert_same {A} (l : list A) i x : zlookup l i = Some x -> zinsert l i x = l.
Proof.
  unfold zlookup, zinsert. destruct (i <? 0); [done|]. intros H. by apply list_insert_id.
Qed.

Lemma set_group_same i g s : zlookup (rs_groups s) i = Some g -> set_group i g s = s.
Proof. intros E. unfold set_group. rewrite zinsert_same by done. by destruct s. Qed.

Lemma take_loop_run g start spurious : forall s gr,
  zlookup (rs_groups s) g = Some gr -> group_bits gr <> 0 -> false ∈ spurious ->
  run (ReadyGroup_take_loop g start (group_bits gr) spurious) s =
    (Done (Some (first_from (group_bits gr) start)),
     set_group g (with_group_bits (clear_bit (group_bits gr) (first_from (group_bits gr) start)) gr) s).
Proof.
  induction spurious as [|b spurious IH]; intros s gr Hg Hne Hin; [by apply not_elem_of_nil in Hin|].
  cbn [ReadyGroup_take_loop]. replace (group_bits gr =? 0) with false by lia.
  rewrite run_bind, (run_on_group _ _ _ _ Hg), Z.eqb_refl. destruct b; cbn [negb andb fst snd].
  - apply elem_of_cons in Hin as [|Hin]; [done|]. rewrite (set_group_same _ _ _ Hg). by apply IH.
  - done.
Qed.

(** C20: a fair scan takes one ready page: from any position, whatever weak
    exchanges fail spuriously, [take_one_from] clears and returns the first
    set bit at or cyclically after the position and no other bit; on an empty
    word it returns nothing and changes nothing. *)
Theorem take_one_from_cyclic (s : ready_store) (g start : Z) (gr : ReadyGroup) (spurious : list bool) :
  zlookup (rs_groups s) g = Some gr -> is_u64 (group_bits gr) -> 0 <= start < 64 -> false ∈ spurious ->
  runs (ReadyGroup_take_one_from g start spurious) s (fun r s' =>
    match r with
    | None => group_bits gr = 0 /\ s' = s
    | Some b => 0 <= b < 64 /\ Z.testbit (group_bits gr) b = true /\
        (forall d, 0 <= d < (b - start) mod 64 -> Z.testbit (group_bits gr) ((start + d) mod 64) = false) /\
        exists gr', zlookup (rs_groups s') g = Some gr' /\ s' = set_group g gr' s /\
          forall i, 0 <= i < 64 ->
            Z.testbit (group_bits gr') i = if i =? b then false else Z.testbit (group_bits gr) i
    end).
Proof.
  intros Hg Hu Hs Hin. unfold ReadyGroup_take_one_from, PAGES_PER_GROUP.
  replace (start <? 64) with true by lia. cbn [negb].
  apply runs_bind. eapply runs_intro; [apply run_on_group, Hg|]. cbn [fst snd].
  rewrite (set_group_same _ _ _ Hg). destruct (Z.eq_dec (group_bits gr) 0) as [E|Hne].
  - destruct spurious; cbn [ReadyGroup_take_loop]; rewrite E; by apply runs_ret.
  - eapply runs_intro; [by apply take_loop_run|]. cbv beta iota.
    destruct (first_from_spec (group_bits gr) start Hu Hne Hs) as (H1 & H2 & H3).
    split_and!; auto; try lia. eexists. split; [|split; [reflexivity|]].
    + cbn. apply zlookup_zinsert_eq. by eapply zlookup_Some_range.
    + intros i Hi. cbn. unfold clear_bit. rewrite Z.ldiff_spec.
      rewrite Z.shiftl_1_l, Z.pow2_bits_eqb by lia. rewrite Z.eqb_sym.
      destruct (i =? _); simpl; [by rewrite andb_false_r|by rewrite andb_true_r].
Qed.

Lemma take_one_from_cyclic_witness :
  runs (ReadyGroup_take_one_from 0 5 [true; true; false]) (mkReadyStore [mkReadyGroup 0 12] [] []) (fun r s' =>
    match r with
    | None => group_bits (mkReadyGroup 0 12) = 0 /\ s' = mkReadyStore [mkReadyGroup 0 12] [] []
    | Some b => 0 <= b < 64 /\ Z.testbit (group_bits (mkReadyGroup 0 12)) b = true /\
        (forall d, 0 <= d < (b - 5) mod 64 -> Z.testbit (group_bits (mkReadyGroup 0 12)) ((5 + d) mod 64) = false) /\
        exists gr', zlookup (rs_groups s') 0 = Some gr' /\ s' = set_group 0 gr' (mkReadyStore [mkReadyGroup 0 12] [] []) /\
          forall i, 0 <= i < 64 ->
            Z.testbit (group_bits gr') i = if i =? b then false else Z.testbit (group_bits (mkReadyGroup 0 12)) i
    end).
Proof.
  apply (take_one_from_cyclic (mkReadyStore [mkReadyGroup 0 12] [] []) 0 5 (mkReadyGroup 0 12) [true; true; false]);
    [reflexivity|unfold is_u64; simpl; lia|lia|].
  do 2 right. left.
Defined.

(** ** The readiness index without interference

    Sequential runs of the operations on the index of [src/src/ready.rs]: with
    valid handles none of them panics, and handles stay valid. *)

(** Every handle an index object holds is valid. *)
Definition index_ok (i : ready_store) : Prop :=
  Forall (fun l => exists p, zlookup (rs_pages i) (signal_page l) = Some p) (rs_signals i) /\
  Forall (fun p => exists g, zlookup (rs_groups i) (page_group p) = Some g) (rs_pages i).

Lemma index_ok_signal i k l l' :
  index_ok i -> zlookup (rs_signals i) k = Some l -> signal_page l' = signal_page l ->
  index_ok (set_signal_at k l' i).
Proof.
  intros [H1 H2] Hk E. split; cbn; [|done]. apply Forall_zinsert; [done|]. rewrite E.
  rewrite Forall_forall in H1. apply H1. by eapply zlookup_elem.
Qed.

Lemma index_ok_page i k p p' :
  index_ok i -> zlookup (rs_pages i) k = Some p -> page_group p' = page_group p ->
  index_ok (set_page k p' i).
Proof.
  intros [H1 H2] Hk E. split; cbn.
  - eapply Forall_impl; [exact H1|]. intros l [q Hq]. by eapply zlookup_valid_insert.
  - apply Forall_zinsert; [done|]. rewrite E. rewrite Forall_forall in H2. apply H2. by eapply zlookup_elem.
Qed.

Lemma index_ok_group i k g : index_ok i -> index_ok (set_group k g i).
Proof.
  intros [H1 H2]. split; cbn; [done|].
  eapply Forall_impl; [exact H2|]. intros p [q Hq]. by eapply zlookup_valid_insert.
Qed.

(** What a lane operation may do to the index: handles stay valid. *)
Definition index_keeps (k : Z) (i i' : ready_store) : Prop :=
  index_ok i' /\ (exists l, zlookup (rs_signals i') k = Some l) /\
  length (rs_signals i') = length (rs_signals i).

Lemma index_keeps_signal i k l l' :
  index_ok i -> zlookup (rs_signals i) k = Some l -> signal_page l' = signal_page l ->
  index_keeps k i (set_signal_at k l' i).
Proof.
  intros H Hk E. split_and!.
  - by eapply index_ok_signal.
  - exists l'. cbn. by eapply zlookup_zinsert_same.
  - cbn. unfold zinsert. apply length_insert.
Qed.

Lemma runs_on_signal {R} i k l (f : LaneSignal -> R * LaneSignal) :
  index_ok i -> zlookup (rs_signals i) k = Some l -> signal_page (f l).2 = signal_page l ->
  runs (on_signal k f) i (fun r i' => r = (f l).1 /\ i' = set_signal_at k (f l).2 i /\ index_keeps k i i').
Proof.
  intros H Hk E. destruct (f l) as [r l'] eqn:Ef. eapply runs_intro.
  - cbn. rewrite Hk, Ef. reflexivity.
  - cbn in *. split_and!; auto. by eapply index_keeps_signal.
Qed.

Lemma runs_finish_drain i k l :
  index_ok i -> zlookup (rs_signals i) k = Some l ->
  runs (LaneSignal_finish_drain k) i (fun _ i' => index_keeps k i i').
Proof. intros H Hk. eapply runs_mono; [by eapply runs_on_signal|]. by intros u i' (_ & _ & ?). Qed.

Lemma runs_notify_space i k l :
  index_ok i -> zlookup (rs_signals i) k = Some l ->
  runs (LaneSignal_notify_space k) i (fun _ i' => index_keeps k i i').
Proof.
  intros H Hk. unfold LaneSignal_notify_space, WaitCell_notify.
  assert (Hput : forall w i, index_ok i -> (exists l, zlookup (rs_signals i) k = Some l) ->
    index_keeps k i (put_lane_cell k w i)).
  { intros w i0 H0 [l0 Hl]. unfold put_lane_cell. rewrite Hl. by eapply index_keeps_signal. }
  destruct (Hput (set_wc_state (wrapping_add (wc_state (lane_cell k i)) NOTIFY_INCREMENT) (lane_cell k i)) i)
    as (H1 & H2 & H3); [done|eauto|].
  unfold runs. cbn. destruct (negb _); [|by split_and!]. cbn.
  match goal with |- index_keeps k i (put_lane_cell k ?w ?j) => destruct (Hput w j H1 H2) as (H4 & H5 & H6) end.
  split_and!; auto. congruence.
Qed.

Lemma runs_mark i k l :
  index_ok i -> zlookup (rs_signals i) k = Some l ->
  runs (LaneSignal_mark k) i (fun _ i' => index_keeps k i i').
Proof.
  intros H Hk. unfold LaneSignal_mark. eapply runs_seq; [by eapply runs_on_signal|].
  intros [[old page] bit] i1 (Er & -> & Hi1). injection Er as -> -> ->.
  destruct (signal_state l =? IDLE); [|by apply runs_ret].
  destruct Hi1 as (H1 & H2 & H3). pose proof H1 as [Hs Hp].
  assert (exists pg, zlookup (rs_pages i) (signal_page l) = Some pg) as [pg Hpg].
  { destruct H as [H _]. rewrite Forall_forall in H. by eapply H, zlookup_elem. }
  set (i1 := set_signal_at _ _ _) in *. change (rs_pages i) with (rs_pages i1) in Hpg.
  eapply (runs_seq _ _ _ (fun _ i' => index_keeps k i i')); [|intros u i' Hi'; by apply runs_ret].
  unfold ReadyPage_mark. clearbody i1. apply runs_bind. eapply runs_intro; [cbn; rewrite Hpg; reflexivity|].
  set (i2 := set_page _ _ _).
  assert (Hi2 : index_keeps k i i2).
  { split_and!; [|exact H2|exact H3]. by eapply index_ok_page. }
  cbv beta iota. destruct (page_bits pg =? 0); [|by apply runs_ret].
  assert (exists g, zlookup (rs_groups i2) (page_group pg) = Some g) as [g Hg].
  { rewrite Forall_forall in Hp. by eapply Hp, zlookup_elem. }
  clearbody i2. eapply runs_intro; [cbn; rewrite Hg; reflexivity|].
  destruct Hi2 as (H4 & H5 & H6). split_and!; auto. by apply index_ok_group.
Qed.
