(* ===== verification/YRing.v ===== *)
(** * yring: the bounded SPSC ring

    Models [src/yring/src/ring.rs], [producer.rs], [consumer.rs] and the
    constructors of [lib.rs].  The shared [Ring] is the state of the programs;
    the private cursors of the two endpoints are the records [Producer] and
    [Consumer], passed in and out of every operation.  Every atomic access and
    every slot access is one atomic step.

    A slot ([UnsafeCell<MaybeUninit<T>>]) is an [option T]: [None] holds no
    value the ring owns.  Moving a value out ([assume_init_read]) empties the
    slot, so a second read of the same value, or a read of a slot that was
    never written, is a [UB] fault. *)

From S2P Require Import Prelude Prog.
Local Open Scope prog_scope.

(** ** The wakeup-hint registration of one side (ring.rs, [Waiter]) *)

Record Waiter : Type := mkWaiter {
  waiter_enabled : bool;
  waiter_armed : bool;
  waiter_waiting : bool
}.

Definition Waiter_new : Waiter := mkWaiter false false false.

Definition set_enabled (b : bool) (w : Waiter) : Waiter :=
  mkWaiter b (waiter_armed w) (waiter_waiting w).
Definition set_armed (b : bool) (w : Waiter) : Waiter :=
  mkWaiter (waiter_enabled w) b (waiter_waiting w).
Definition set_waiting (b : bool) (w : Waiter) : Waiter :=
  mkWaiter (waiter_enabled w) (waiter_armed w) b.

Definition Waiter_enable : prog Waiter unit :=
  let* e := load waiter_enabled in
  if negb e then store (set_enabled true) else Ret tt.

Definition Waiter_register : prog Waiter bool :=
  let* e := load waiter_enabled in
  if negb e then Ret false
  else
    let* _ := swap waiter_waiting (set_waiting true) in
    let* _ := store (set_armed true) in
    Ret true.

Definition Waiter_take (observed : bool) : prog Waiter bool :=
  let* wake :=
    (if observed then Ret true
     else let* a := load waiter_armed in Ret (negb a)) in
  if wake then
    let* _ := store (set_waiting false) in Ret true
  else swap waiter_waiting (set_waiting false).

(** ** Data *)

Inductive FlushResult : Type :=
| Flushed (count : Z) (was_empty : bool)
| NothingToFlush.

Record Producer : Type := mkProducer {
  producer_cursor : Z;
  producer_cached_head : Z
}.

Record Consumer : Type := mkConsumer {
  consumer_head : Z;
  consumer_cached_tail : Z
}.

Section ring.
Context {T : Type}.

Record Ring : Type := mkRing {
  ring_buf : list (option T);
  ring_mask : Z;
  ring_head : Z;
  ring_tail : Z;
  ring_consumer_waiting : Waiter;
  ring_producer_waiting : Waiter;
  ring_producer_dropped : bool;
  ring_consumer_dropped : bool
}.

Definition set_buf (b : list (option T)) (r : Ring) : Ring :=
  mkRing b (ring_mask r) (ring_head r) (ring_tail r) (ring_consumer_waiting r)
    (ring_producer_waiting r) (ring_producer_dropped r) (ring_consumer_dropped r).
Definition set_head (h : Z) (r : Ring) : Ring :=
  mkRing (ring_buf r) (ring_mask r) h (ring_tail r) (ring_consumer_waiting r)
    (ring_producer_waiting r) (ring_producer_dropped r) (ring_consumer_dropped r).
Definition set_tail (t : Z) (r : Ring) : Ring :=
  mkRing (ring_buf r) (ring_mask r) (ring_head r) t (ring_consumer_waiting r)
    (ring_producer_waiting r) (ring_producer_dropped r) (ring_consumer_dropped r).
Definition set_consumer_waiting (w : Waiter) (r : Ring) : Ring :=
  mkRing (ring_buf r) (ring_mask r) (ring_head r) (ring_tail r) w
    (ring_producer_waiting r) (ring_producer_dropped r) (ring_consumer_dropped r).
Definition set_producer_waiting (w : Waiter) (r : Ring) : Ring :=
  mkRing (ring_buf r) (ring_mask r) (ring_head r) (ring_tail r) (ring_consumer_waiting r)
    w (ring_producer_dropped r) (ring_consumer_dropped r).
Definition set_producer_dropped (b : bool) (r : Ring) : Ring :=
  mkRing (ring_buf r) (ring_mask r) (ring_head r) (ring_tail r) (ring_consumer_waiting r)
    (ring_producer_waiting r) b (ring_consumer_dropped r).
Definition set_consumer_dropped (b : bool) (r : Ring) : Ring :=
  mkRing (ring_buf r) (ring_mask r) (ring_head r) (ring_tail r) (ring_consumer_waiting r)
    (ring_producer_waiting r) (ring_producer_dropped r) b.

Definition on_consumer_waiting {A} (p : prog Waiter A) : prog Ring A :=
  lift ring_consumer_waiting set_consumer_waiting p.
Definition on_producer_waiting {A} (p : prog Waiter A) : prog Ring A :=
  lift ring_producer_waiting set_producer_waiting p.

(** ** Slots *)

Definition slot_write (idx : Z) (val : T) : prog Ring unit :=
  let* ok := atomic (fun r =>
    match zlookup (ring_buf r) idx with
    | Some _ => (true, set_buf (zinsert (ring_buf r) idx (Some val)) r)
    | None => (false, r)
    end) in
  if ok then Ret tt else Fail (Panic "index out of bounds").

Definition slot_take (idx : Z) : prog Ring T :=
  let* o := atomic (fun r =>
    match zlookup (ring_buf r) idx with
    | Some (Some v) => (Done v, set_buf (zinsert (ring_buf r) idx None) r)
    | Some None => (Fault (UB "assume_init_read of an empty slot"), r)
    | None => (Fault (Panic "index out of bounds"), r)
    end) in
  of_outcome o.

Definition slot_peek (idx : Z) : prog Ring T :=
  let* o := load (fun r =>
    match zlookup (ring_buf r) idx with
    | Some (Some v) => Done v
    | Some None => Fault (UB "assume_init_ref of an empty slot")
    | None => Fault (Panic "index out of bounds")
    end) in
  of_outcome o.

(** ** The shared ring (ring.rs, [impl Ring]) *)

Definition Ring_new (capacity : Z) : outcome Ring :=
  if negb (capacity >? 0) then Fault (Panic "capacity must be > 0")
  else
    match checked_next_power_of_two capacity with
    | None => Fault (Panic "capacity must fit in the next power of two")
    | Some cap =>
        if negb (cap <=? usize_max / 2)
        then Fault (Panic "capacity must be <= half the cursor range")
        else Done (mkRing (replicate (Z.to_nat cap) None) (cap - 1) 0 0
                     Waiter_new Waiter_new false false)
    end.

Definition Ring_capacity : prog Ring Z :=
  load (fun r => ring_mask r + 1).

Definition Ring_distance (from to : Z) : Z := wrapping_sub from to.

Definition Ring_index (cursor : Z) : prog Ring Z :=
  load (fun r => Z.land cursor (ring_mask r)).

Definition Ring_push (cursor cached_head : Z) (val : T)
    : prog Ring (result unit T * Z * Z) :=
  let* cap := Ring_capacity in
  let* '(full, cached_head) :=
    (if Ring_distance cursor cached_head >=? cap then
       let* h := load ring_head in
       Ret (Ring_distance cursor h >=? cap, h)
     else Ret (false, cached_head)) in
  if full then Ret (Err val, cursor, cached_head)
  else
    let* idx := Ring_index cursor in
    let* _ := slot_write idx val in
    Ret (Ok tt, wrapping_add cursor 1, cached_head).

Definition Ring_flush_to (cursor cached_head : Z) : prog Ring (FlushResult * Z) :=
  let* _ := on_consumer_waiting Waiter_enable in
  let* prev_tail := load ring_tail in
  if cursor =? prev_tail then Ret (NothingToFlush, cached_head)
  else
    let count := Ring_distance cursor prev_tail in
    let* cached_head := load ring_head in
    let was_empty := prev_tail =? cached_head in
    let* _ := store (set_tail cursor) in
    let* wake := on_consumer_waiting (Waiter_take was_empty) in
    Ret (Flushed count wake, cached_head).

Definition Ring_is_full (cursor cached_head : Z) : prog Ring (bool * Z) :=
  let* cap := Ring_capacity in
  if Ring_distance cursor cached_head >=? cap then
    let* h := load ring_head in
    Ret (Ring_distance cursor h >=? cap, h)
  else Ret (false, cached_head).

Definition Ring_producer_len (cursor : Z) : prog Ring Z :=
  let* h := load ring_head in Ret (wrapping_sub cursor h).

Definition Ring_producer_is_empty (cursor : Z) : prog Ring bool :=
  let* h := load ring_head in Ret (cursor =? h).

Definition Ring_pop (head cached_tail : Z) : prog Ring (option T * Z) :=
  if head =? cached_tail then Ret (None, head)
  else
    let* idx := Ring_index head in
    let* val := slot_take idx in
    Ret (Some val, wrapping_add head 1).

(** [move_slots]: [len] slots from buffer index [start], in order. *)
Fixpoint Ring_move_slots (start : Z) (len : nat) : prog Ring (list T) :=
  match len with
  | O => Ret []
  | S n =>
      let* v := slot_take start in
      let* vs := Ring_move_slots (start + 1) n in
      Ret (v :: vs)
  end.

Definition Ring_pop_into (head count : Z) (output : list T) : prog Ring (list T * Z) :=
  let* cap := Ring_capacity in
  if negb (count <=? cap) then Fail (Panic "debug_assert: count <= capacity")
  else
    let* start := Ring_index head in
    let first := Z.min count (cap - start) in
    let* seg1 := Ring_move_slots start (Z.to_nat first) in
    let* seg2 := Ring_move_slots 0 (Z.to_nat (count - first)) in
    Ret (output ++ seg1 ++ seg2, wrapping_add head count).

(** [accepted_prefix]: the closure [accepts] is a function from its captured
    state; [n] counts the items still within [limit]. *)
Fixpoint Ring_accepted_prefix {Adm : Type} (accepts : Adm -> T -> bool * Adm)
    (head : Z) (n : nat) (accepted : Z) (adm : Adm) : prog Ring (Z * Adm) :=
  match n with
  | O => Ret (accepted, adm)
  | S n' =>
      let* idx := Ring_index (wrapping_add head accepted) in
      let* v := slot_peek idx in
      let '(accept, adm') := accepts adm v in
      if negb accept then Ret (accepted, adm')
      else Ring_accepted_prefix accepts head n' (accepted + 1) adm'
  end.

Definition Ring_release (head : Z) : prog Ring unit :=
  store (set_head head).

Definition Ring_prefetch (cached_tail : Z) : prog Ring (Z * Z) :=
  let* new_tail := load ring_tail in
  Ret (wrapping_sub new_tail cached_tail, new_tail).

Definition Ring_consumer_is_empty (head cached_tail : Z) : prog Ring bool :=
  if head =? cached_tail then
    let* t := load ring_tail in Ret (t =? head)
  else Ret false.

Definition Ring_consumer_len (head : Z) : prog Ring Z :=
  let* t := load ring_tail in Ret (wrapping_sub t head).

(** [drop_remaining]: runs with exclusive access; returns the values it
    drops.  The fuel is the cursor distance the loop walks. *)
Fixpoint Ring_drop_loop (fuel : nat) (i tail : Z) : prog Ring (list T) :=
  if i =? tail then Ret []
  else
    match fuel with
    | O => Fail (Panic "out of fuel")
    | S fuel' =>
        let* idx := Ring_index i in
        let* v := slot_take idx in
        let* vs := Ring_drop_loop fuel' (wrapping_add i 1) tail in
        Ret (v :: vs)
    end.

Definition Ring_drop_remaining : prog Ring (list T) :=
  let* head := load ring_head in
  let* tail := load ring_tail in
  let* _ := store (set_head tail) in
  Ring_drop_loop (Z.to_nat (wrapping_sub tail head)) head tail.

(** [impl Drop for Ring]. *)
Definition Ring_drop : prog Ring (list T) := Ring_drop_remaining.

(** ** The sending half (producer.rs) *)

Definition Producer_push_after_full (p : Producer) (val : T)
    : prog Ring (result unit T * Producer) :=
  let* registered := on_producer_waiting Waiter_register in
  if negb registered then Ret (Err val, p)
  else
    let* '(r, cursor, cached_head) :=
      Ring_push (producer_cursor p) (producer_cached_head p) val in
    Ret (r, mkProducer cursor cached_head).

Definition Producer_push (p : Producer) (val : T) : prog Ring (result unit T * Producer) :=
  let* '(r, cursor, cached_head) :=
    Ring_push (producer_cursor p) (producer_cached_head p) val in
  let p := mkProducer cursor cached_head in
  match r with
  | Ok _ => Ret (Ok tt, p)
  | Err val => Producer_push_after_full p val
  end.

Definition Producer_flush (p : Producer) : prog Ring unit :=
  store (set_tail (producer_cursor p)).

Definition Producer_flush_and_check (p : Producer) : prog Ring (FlushResult * Producer) :=
  let* '(r, cached_head) := Ring_flush_to (producer_cursor p) (producer_cached_head p) in
  Ret (r, mkProducer (producer_cursor p) cached_head).

Definition Producer_push_and_flush (p : Producer) (val : T)
    : prog Ring (result unit T * Producer) :=
  let* '(r, p) := Producer_push p val in
  match r with
  | Err v => Ret (Err v, p)
  | Ok _ => let* _ := Producer_flush p in Ret (Ok tt, p)
  end.

Definition Producer_is_full (p : Producer) : prog Ring (bool * Producer) :=
  let* '(full, cached_head) := Ring_is_full (producer_cursor p) (producer_cached_head p) in
  let p := mkProducer (producer_cursor p) cached_head in
  if negb full then Ret (false, p)
  else
    let* registered := on_producer_waiting Waiter_register in
    if negb registered then Ret (true, p)
    else
      let* '(full, cached_head) := Ring_is_full (producer_cursor p) (producer_cached_head p) in
      Ret (full, mkProducer (producer_cursor p) cached_head).

Definition Producer_capacity : prog Ring Z := Ring_capacity.

Definition Producer_len (p : Producer) : prog Ring Z :=
  Ring_producer_len (producer_cursor p).

Definition Producer_is_empty (p : Producer) : prog Ring bool :=
  Ring_producer_is_empty (producer_cursor p).

Definition Producer_is_consumer_dropped : prog Ring bool :=
  load ring_consumer_dropped.

Definition Producer_close (p : Producer) : prog Ring unit :=
  let* _ := Producer_flush p in
  store (set_producer_dropped true).

(** [impl Drop for Producer]. *)
Definition Producer_drop (p : Producer) : prog Ring unit := Producer_close p.

(** ** The receiving half (consumer.rs) *)

Definition Consumer_pop (c : Consumer) : prog Ring (option T * Consumer) :=
  let* '(v, head) := Ring_pop (consumer_head c) (consumer_cached_tail c) in
  Ret (v, mkConsumer head (consumer_cached_tail c)).

Definition Consumer_pop_into (c : Consumer) (output : list T) (limit : Z)
    : prog Ring (Z * list T * Consumer) :=
  let count := Z.min (wrapping_sub (consumer_cached_tail c) (consumer_head c)) limit in
  if count =? 0 then Ret (0, output, c)
  else
    let* '(output, head) := Ring_pop_into (consumer_head c) count output in
    Ret (count, output, mkConsumer head (consumer_cached_tail c)).

Definition Consumer_pop_into_while {Adm : Type} (c : Consumer) (output : list T) (limit : Z)
    (accepts : Adm -> T -> bool * Adm) (adm : Adm)
    : prog Ring (Z * list T * Adm * Consumer) :=
  let window := Z.min (wrapping_sub (consumer_cached_tail c) (consumer_head c)) limit in
  if window =? 0 then Ret (0, output, adm, c)
  else
    let* '(count, adm) :=
      Ring_accepted_prefix accepts (consumer_head c) (Z.to_nat window) 0 adm in
    if count =? 0 then Ret (0, output, adm, c)
    else
      let* '(output, head) := Ring_pop_into (consumer_head c) count output in
      Ret (count, output, adm, mkConsumer head (consumer_cached_tail c)).

Definition Consumer_release (c : Consumer) : prog Ring unit :=
  Ring_release (consumer_head c).

Definition Consumer_release_with_full (c : Consumer) : prog Ring bool :=
  let* _ := on_producer_waiting Waiter_enable in
  let* published_head := load ring_head in
  if consumer_head c =? published_head then Ret false
  else
    let* cap := Ring_capacity in
    let was_full := wrapping_sub (consumer_cached_tail c) published_head >=? cap in
    let* _ := Ring_release (consumer_head c) in
    on_producer_waiting (Waiter_take was_full).

Definition Consumer_prefetch_after_empty (c : Consumer) : prog Ring (Z * Consumer) :=
  let* registered := on_consumer_waiting Waiter_register in
  if negb registered then Ret (0, c)
  else
    let* '(count, cached_tail) := Ring_prefetch (consumer_cached_tail c) in
    Ret (count, mkConsumer (consumer_head c) cached_tail).

Definition Consumer_prefetch (c : Consumer) : prog Ring (Z * Consumer) :=
  let* '(count, cached_tail) := Ring_prefetch (consumer_cached_tail c) in
  let c := mkConsumer (consumer_head c) cached_tail in
  if negb (consumer_head c =? consumer_cached_tail c) then Ret (count, c)
  else Consumer_prefetch_after_empty c.

Definition Consumer_prefetch_and_pop (c : Consumer) : prog Ring (option T * Consumer) :=
  let* c :=
    (if consumer_head c =? consumer_cached_tail c then
       let* '(_, c) := Consumer_prefetch c in Ret c
     else Ret c) in
  let* '(val, c) := Consumer_pop c in
  match val with
  | Some v => let* _ := Consumer_release c in Ret (Some v, c)
  | None => Ret (None, c)
  end.

Definition Consumer_prefetch_and_pop_with_full (c : Consumer)
    : prog Ring (option (T * bool) * Consumer) :=
  let* _ := on_producer_waiting Waiter_enable in
  let* c :=
    (if consumer_head c =? consumer_cached_tail c then
       let* '(_, c) := Consumer_prefetch c in Ret c
     else Ret c) in
  let* cap := Ring_capacity in
  let was_full := wrapping_sub (consumer_cached_tail c) (consumer_head c) >=? cap in
  let* '(val, c) := Consumer_pop c in
  match val with
  | None => Ret (None, c)
  | Some v =>
      let* _ := Consumer_release c in
      let* wake := on_producer_waiting (Waiter_take was_full) in
      Ret (Some (v, wake), c)
  end.

Definition Consumer_is_empty (c : Consumer) : prog Ring bool :=
  let* e := Ring_consumer_is_empty (consumer_head c) (consumer_cached_tail c) in
  if negb e then Ret false
  else
    let* registered := on_consumer_waiting Waiter_register in
    if negb registered then Ret true
    else Ring_consumer_is_empty (consumer_head c) (consumer_cached_tail c).

Definition Consumer_is_disconnected (c : Consumer) : prog Ring bool :=
  let* dropped := load ring_producer_dropped in
  if dropped then let* t := load ring_tail in Ret (consumer_head c =? t)
  else Ret false.

Definition Consumer_capacity : prog Ring Z := Ring_capacity.

Definition Consumer_len (c : Consumer) : prog Ring Z :=
  Ring_consumer_len (consumer_head c).

Definition Consumer_close (c : Consumer) : prog Ring unit :=
  let* _ := Consumer_release c in
  store (set_consumer_dropped true).

(** [impl Drop for Consumer]. *)
Definition Consumer_drop (c : Consumer) : prog Ring unit := Consumer_close c.

(** ** Construction (lib.rs) *)

Definition spsc (capacity : Z) : outcome (Ring * Producer * Consumer) :=
  match Ring_new capacity with
  | Fault e => Fault e
  | Done ring => Done (ring, mkProducer 0 0, mkConsumer 0 0)
  end.

(** The constructor the loom tests use to start at arbitrary cursors. *)
Definition loom_spsc_with_cursors (capacity cursor : Z) : outcome (Ring * Producer * Consumer) :=
  match Ring_new capacity with
  | Fault e => Fault e
  | Done ring =>
      Done (set_tail cursor (set_head cursor ring),
            mkProducer cursor cursor, mkConsumer cursor cursor)
  end.

End ring.

Arguments Ring T : clear implicits.
