(* ===== verification/YRingInv.v ===== *)
(** * The representation invariant of the SPSC ring

    Cursors are machine words that wrap; the proofs follow unbounded positions
    instead.  [ring_ok] ties the two together: the ring holds the items of a
    history list between the read position and its end, at the slots the
    wrapped cursors select.  Slots outside that range hold nothing.  The
    lemmas of this file say what each slot access does to the invariant; they
    serve both the sequential refinement (YRingSpec) and the interleaving
    proofs (YRingConc). *)

From S2P Require Import Prelude Prog YRing.

Section inv.
Context {T : Type}.
Implicit Types (hist : list T) (r : Ring T).

(** Capacities are the powers of two up to half the cursor range. *)
Definition valid_cap (cap : Z) : Prop := exists k, 0 <= k <= 62 /\ cap = 2 ^ k.

Definition slots_ok (cap base h : Z) hist (buf : list (option T)) : Prop :=
  zlength buf = cap /\
  forall i, h <= i < h + cap -> zlookup buf ((base + i) mod cap) = Some (zlookup hist i).

(** [ph]: published read position, [h]: the consumer's read position, [t]:
    published write position; the producer's write position is the length of
    the history [hist]. *)
Record ring_ok (cap base ph h t : Z) hist r : Prop := {
  ok_cap : valid_cap cap;
  ok_mask : ring_mask r = cap - 1;
  ok_order : 0 <= ph <= h /\ h <= t /\ t <= zlength hist /\ zlength hist <= ph + cap;
  ok_head : ring_head r = wrap (base + ph);
  ok_tail : ring_tail r = wrap (base + t);
  ok_slots : slots_ok cap base h hist (ring_buf r)
}.

Lemma valid_cap_range cap : valid_cap cap -> 0 < cap < usize_mod /\ 2 * cap <= usize_mod.
Proof.
  intros (k & Hk & ->).
  assert (2 ^ k <= 2 ^ 62) by (apply Z.pow_le_mono_r; lia).
  assert (0 < 2 ^ k) by (apply Z.pow_pos_nonneg; lia).
  change (2 ^ 62) with 4611686018427387904 in *. usize.
Qed.

(** The capacity a ring is built with is the next power of two. *)
Lemma capacity_rounded capacity cap :
  0 < capacity -> valid_cap cap -> capacity <= cap < 2 * capacity -> 2 ^ Z.log2_up capacity = cap.
Proof.
  intros Hc (k & Hk & ->) Hr. f_equal. destruct (Z.eq_dec k 0) as [->|Hne].
  - assert (capacity = 1) as -> by lia. done.
  - apply Z.log2_up_unique; [lia|]. pose proof (Z.pow_succ_r 2 (Z.pred k)). rewrite Z.succ_pred in *. lia.
Qed.

Lemma index_mod cap a : valid_cap cap -> Z.land (wrap a) (cap - 1) = a mod cap.
Proof. intros (k & Hk & ->). apply land_mask_wrap. lia. Qed.

Lemma index_range cap a : valid_cap cap -> 0 <= a mod cap < cap.
Proof. intros H%valid_cap_range. apply Z.mod_pos_bound. lia. Qed.

Lemma zlookup_ge {A} (l : list A) i : zlength l <= i -> zlookup l i = None.
Proof.
  unfold zlength, zlookup. intros H. destruct (i <? 0); [done|].
  apply lookup_ge_None. lia.
Qed.

(** Writing at the write position appends to the history. *)
Lemma slots_write cap base h hist buf v :
  valid_cap cap -> h <= zlength hist < h + cap -> slots_ok cap base h hist buf ->
  slots_ok cap base h (hist ++ [v])
    (zinsert buf ((base + zlength hist) mod cap) (Some v)).
Proof.
  intros Hcap Hlen [Hb Hs]. pose proof (valid_cap_range _ Hcap) as Hc.
  pose proof (index_range cap (base + zlength hist) Hcap) as Hi.
  split; [by rewrite zlength_zinsert|]. intros i Hi'.
  destruct (Z.eq_dec i (zlength hist)) as [->|Hne].
  - rewrite zlookup_zinsert_eq by lia. by rewrite zlookup_snoc.
  - rewrite zlookup_zinsert_ne; [|lia|].
    + rewrite Hs by lia. f_equal. destruct (Z.lt_ge_cases i (zlength hist)).
      * by rewrite zlookup_app_l.
      * rewrite !zlookup_ge; auto; rewrite ?zlength_snoc; lia.
    + intros E. apply Hne. symmetry.
      assert (base + zlength hist = base + i) by (apply (mod_inj_window _ _ cap); lia). lia.
Qed.

(** The read position holds the next item; taking it advances the position. *)
Lemma slots_read cap base h hist buf :
  valid_cap cap -> slots_ok cap base h hist buf ->
  zlookup buf ((base + h) mod cap) = Some (zlookup hist h).
Proof. intros Hcap [_ Hs]. apply Hs. apply valid_cap_range in Hcap. lia. Qed.

Lemma slots_read_at cap base h hist buf i :
  slots_ok cap base h hist buf -> h <= i < h + cap ->
  zlookup buf ((base + i) mod cap) = Some (zlookup hist i).
Proof. intros [_ Hs]. apply Hs. Qed.

Lemma slots_take cap base h hist buf :
  valid_cap cap -> 0 <= h -> zlength hist <= h + cap -> slots_ok cap base h hist buf ->
  slots_ok cap base (h + 1) hist (zinsert buf ((base + h) mod cap) None).
Proof.
  intros Hcap Hh Hlen [Hb Hs]. pose proof (valid_cap_range _ Hcap) as Hc.
  pose proof (index_range cap (base + h) Hcap) as Hi.
  split; [by rewrite zlength_zinsert|]. intros i Hi'.
  destruct (Z.eq_dec i (h + cap)) as [->|Hne].
  - replace ((base + (h + cap)) mod cap) with ((base + h) mod cap).
    + rewrite zlookup_zinsert_eq by lia. by rewrite zlookup_ge.
    + replace (base + (h + cap)) with (base + h + 1 * cap) by lia. by rewrite Z_mod_plus_full.
  - rewrite zlookup_zinsert_ne; [apply Hs; lia|lia|].
    intros E. assert (base + h = base + i) by (apply (mod_inj_window _ _ cap); lia). lia.
Qed.

Lemma slots_empty cap base :
  valid_cap cap -> slots_ok cap base 0 [] (replicate (Z.to_nat cap) None).
Proof.
  intros Hcap. pose proof (valid_cap_range _ Hcap). split.
  - unfold zlength. rewrite length_replicate. lia.
  - intros i Hi. pose proof (index_range cap (base + i) Hcap).
    unfold zlookup. destruct (Z.ltb_spec ((base + i) mod cap) 0); [lia|].
    destruct (Z.ltb_spec i 0); [lia|].
    rewrite lookup_replicate_2 by lia. by rewrite lookup_nil.
Qed.

(** ** Runs of the ring's primitive operations under the invariant *)

Lemma run_Ring_capacity r cap :
  ring_mask r = cap - 1 -> run Ring_capacity r = (Done cap, r).
Proof. simpl. intros ->. by rewrite Z.sub_add. Qed.

Lemma distance_wrap base a b :
  0 <= a - b < usize_mod -> Ring_distance (wrap (base + a)) (wrap (base + b)) = a - b.
Proof.
  intros H. unfold Ring_distance. rewrite wrapping_sub_wrap; lia.
Qed.

Lemma cursor_eqb base a b :
  0 <= a - b < usize_mod -> (wrap (base + a) =? wrap (base + b)) = (a =? b).
Proof.
  intros H. rewrite wrap_eqb by lia.
  destruct (Z.eqb_spec (base + a) (base + b)), (Z.eqb_spec a b); lia.
Qed.

Lemma cursor_eqb_sym base a b :
  0 <= b - a < usize_mod -> (wrap (base + a) =? wrap (base + b)) = (a =? b).
Proof. intros H. rewrite Z.eqb_sym, cursor_eqb, Z.eqb_sym; auto. Qed.

Lemma cursor_add base a n : wrapping_add (wrap (base + a)) n = wrap (base + (a + n)).
Proof. rewrite wrapping_add_wrap. f_equal. lia. Qed.

(** Moving out the front item. *)
Lemma ring_ok_take cap base ph h t hist r v :
  ring_ok cap base ph h t hist r -> h < t -> zlookup hist h = Some v ->
  run (slot_take ((base + h) mod cap)) r =
    (Done v, set_buf (zinsert (ring_buf r) ((base + h) mod cap) None) r) /\
  ring_ok cap base ph (h + 1) t hist
    (set_buf (zinsert (ring_buf r) ((base + h) mod cap) None) r).
Proof.
  intros [Hcap Hm Ho Hh Ht Hs] Hlt Hv. split.
  - simpl. rewrite (slots_read _ _ _ _ _ Hcap Hs), Hv. done.
  - split; simpl; auto; [lia|]. apply slots_take; auto; lia.
Qed.

(** Moving in a value at the write position. *)
Lemma ring_ok_write cap base ph h t hist r v :
  ring_ok cap base ph h t hist r -> zlength hist < ph + cap ->
  let i := (base + zlength hist) mod cap in
  run (slot_write i v) r = (Done tt, set_buf (zinsert (ring_buf r) i (Some v)) r) /\
  ring_ok cap base ph h t (hist ++ [v]) (set_buf (zinsert (ring_buf r) i (Some v)) r).
Proof.
  intros [Hcap Hm Ho Hh Ht Hs] Hlt i. split.
  - simpl. destruct (zlookup_is_Some (ring_buf r) i) as [x ->]; [|done].
    destruct Hs as [-> _]. apply index_range; auto.
  - split; simpl; auto.
    + rewrite zlength_snoc. lia.
    + apply slots_write; auto. lia.
Qed.

Lemma ring_ok_set_tail cap base ph h t t' hist r :
  ring_ok cap base ph h t hist r -> t <= t' <= zlength hist ->
  ring_ok cap base ph h t' hist (set_tail (wrap (base + t')) r).
Proof. intros [Hcap Hm Ho Hh Ht Hs] Hle. split; simpl; auto; lia. Qed.

Lemma ring_ok_set_head cap base ph ph' h t hist r :
  ring_ok cap base ph h t hist r -> ph <= ph' <= h ->
  ring_ok cap base ph' h t hist (set_head (wrap (base + ph')) r).
Proof. intros [Hcap Hm Ho Hh Ht Hs] Hle. split; simpl; auto; lia. Qed.

Lemma ring_ok_eq cap base ph h h' t t' hist r :
  ring_ok cap base ph h t hist r -> h = h' -> t = t' -> ring_ok cap base ph h' t' hist r.
Proof. by intros H <- <-. Qed.

(** The invariant does not depend on the wakeup flags or the drop flags. *)
Lemma ring_ok_ext cap base ph h t hist r r' :
  ring_ok cap base ph h t hist r ->
  ring_mask r' = ring_mask r -> ring_head r' = ring_head r ->
  ring_tail r' = ring_tail r -> ring_buf r' = ring_buf r ->
  ring_ok cap base ph h t hist r'.
Proof. intros [? ? ? ? ? ?] E1 E2 E3 E4. split; rewrite ?E1, ?E2, ?E3, ?E4; auto. Qed.

Lemma Ring_new_ok capacity :
  0 < capacity <= 2 ^ 62 ->
  exists cap, valid_cap cap /\ capacity <= cap < 2 * capacity /\
    Ring_new (T := T) capacity =
      Done (mkRing (replicate (Z.to_nat cap) None) (cap - 1) 0 0
              Waiter_new Waiter_new false false).
Proof.
  intros Hc. unfold Ring_new. destruct (Z.gtb_spec capacity 0); [|lia]. simpl.
  assert (Hp : 2 ^ Z.log2_up capacity <= 2 ^ 62).
  { apply Z.pow_le_mono_r; [lia|]. rewrite <- (Z.log2_up_pow2 62) by lia.
    apply Z.log2_up_le_mono. lia. }
  change (2 ^ 62) with 4611686018427387904 in Hp.
  destruct (checked_next_power_of_two capacity) as [cap|] eqn:E.
  - destruct (next_power_of_two_spec capacity cap) as (k & Hk & -> & Hle & Hlt); auto.
    unfold checked_next_power_of_two in E.
    destruct (Z.leb_spec (2 ^ Z.log2_up capacity) usize_max); simplify_eq.
    assert (E' : 2 ^ Z.log2_up capacity = 2 ^ k) by congruence.
    exists (2 ^ k). rewrite E' in Hp. split_and!; auto.
    + exists k. split; auto. split; [lia|].
      apply (Z.pow_le_mono_r_iff 2); try lia.
    + destruct (Z.leb_spec (2 ^ k) (usize_max / 2)) as [|Hgt]; [done|].
      change (usize_max / 2) with 9223372036854775807 in Hgt. lia.
  - unfold checked_next_power_of_two in E.
    destruct (Z.leb_spec (2 ^ Z.log2_up capacity) usize_max) as [|Hgt]; [done|].
    usize.
Qed.

End inv.
