(* ===== verification/YRingSpec.v ===== *)
(** * The SPSC ring refines a bounded FIFO queue

    [spsc_spec] is what the ring promises: four lists (items popped but not
    yet released are only counted, then the consumer's prefetched window, the
    published items, the producer's pending items), the two waiters and the
    two drop flags.  [spec_cmd] gives every operation of the two endpoints on
    it, without cursors, slots or wrap-around.  [spsc_step_refines] shows that
    the code of YRing implements it, operation by operation. *)

From S2P Require Import Prelude Prog YRing YRingInv.

(** ** The abstract queue *)

Record spsc_spec (T : Type) : Type := mkSpec {
  sp_cap : Z;
  sp_held : Z;
  sp_window : list T;
  sp_published : list T;
  sp_pending : list T;
  sp_consumer_waiting : Waiter;
  sp_producer_waiting : Waiter;
  sp_producer_dropped : bool;
  sp_consumer_dropped : bool
}.
Arguments mkSpec {T}.
Arguments sp_cap {T}.
Arguments sp_held {T}.
Arguments sp_window {T}.
Arguments sp_published {T}.
Arguments sp_pending {T}.
Arguments sp_consumer_waiting {T}.
Arguments sp_producer_waiting {T}.
Arguments sp_producer_dropped {T}.
Arguments sp_consumer_dropped {T}.

(** What a registration, an enable and a take do when nothing interferes. *)
Definition spec_enable (w : Waiter) : Waiter := set_enabled true w.
Definition spec_register (w : Waiter) : Waiter :=
  if waiter_enabled w then mkWaiter true true true else w.
Definition spec_wake (observed : bool) (w : Waiter) : bool :=
  observed || negb (waiter_armed w) || waiter_waiting w.

Section spec.
Context {T Adm : Type}.
Implicit Types (hist : list T) (r : Ring T) (sp : spsc_spec T).

Definition sp_size sp : Z :=
  sp_held sp + zlength (sp_window sp) + zlength (sp_published sp) + zlength (sp_pending sp).
Definition sp_full sp : bool := sp_size sp >=? sp_cap sp.

Definition sp_with_lists (held : Z) (window published pending : list T) sp : spsc_spec T :=
  mkSpec (sp_cap sp) held window published pending (sp_consumer_waiting sp)
    (sp_producer_waiting sp) (sp_producer_dropped sp) (sp_consumer_dropped sp).
Definition sp_with_cw (w : Waiter) sp : spsc_spec T :=
  mkSpec (sp_cap sp) (sp_held sp) (sp_window sp) (sp_published sp) (sp_pending sp) w
    (sp_producer_waiting sp) (sp_producer_dropped sp) (sp_consumer_dropped sp).
Definition sp_with_pw (w : Waiter) sp : spsc_spec T :=
  mkSpec (sp_cap sp) (sp_held sp) (sp_window sp) (sp_published sp) (sp_pending sp)
    (sp_consumer_waiting sp) w (sp_producer_dropped sp) (sp_consumer_dropped sp).
Definition sp_with_drops (pd cd : bool) sp : spsc_spec T :=
  mkSpec (sp_cap sp) (sp_held sp) (sp_window sp) (sp_published sp) (sp_pending sp)
    (sp_consumer_waiting sp) (sp_producer_waiting sp) pd cd.

(** The longest prefix a stateful predicate accepts, and its final state. *)
Fixpoint accept_prefix (accepts : Adm -> T -> bool * Adm) (adm : Adm) (l : list T) : nat * Adm :=
  match l with
  | [] => (O, adm)
  | v :: l' =>
      let '(ok, adm') := accepts adm v in
      if ok then let '(n, adm'') := accept_prefix accepts adm' l' in (S n, adm'')
      else (O, adm')
  end.

(** The operations of both endpoints. *)
Inductive spsc_cmd : Type :=
| CPush (v : T) | CFlush | CFlushCheck | CPushFlush (v : T) | CIsFull
| CProducerLen | CProducerIsEmpty | CIsConsumerDropped | CProducerClose
| CPrefetch | CPop | CPopInto (output : list T) (limit : Z)
| CPopIntoWhile (output : list T) (limit : Z) (accepts : Adm -> T -> bool * Adm) (adm : Adm)
| CRelease | CReleaseFull | CPrefetchPop | CPrefetchPopFull
| CIsEmpty | CIsDisconnected | CLen | CCapacity | CConsumerClose.

Inductive spsc_out : Type :=
| OUnit
| OPush (res : result unit T)
| OFlush (res : FlushResult)
| OBool (b : bool)
| OZ (n : Z)
| OItem (v : option T)
| OItemWake (v : option (T * bool))
| OBatch (n : Z) (output : list T)
| OBatchWhile (n : Z) (output : list T) (adm : Adm).

(** *** The operations on the abstract queue *)

Definition spec_flush sp : spsc_spec T :=
  sp_with_lists (sp_held sp) (sp_window sp) (sp_published sp ++ sp_pending sp) [] sp.

Definition spec_push (v : T) sp : result unit T * spsc_spec T :=
  if sp_full sp then (Err v, sp_with_pw (spec_register (sp_producer_waiting sp)) sp)
  else (Ok tt, sp_with_lists (sp_held sp) (sp_window sp) (sp_published sp) (sp_pending sp ++ [v]) sp).

Definition spec_prefetch sp : Z * spsc_spec T :=
  let sp' := sp_with_lists (sp_held sp) (sp_window sp ++ sp_published sp) [] (sp_pending sp) sp in
  (zlength (sp_published sp),
   match sp_window sp' with
   | [] => sp_with_cw (spec_register (sp_consumer_waiting sp')) sp'
   | _ => sp'
   end).

Definition spec_pop sp : option T * spsc_spec T :=
  match sp_window sp with
  | [] => (None, sp)
  | v :: w => (Some v, sp_with_lists (sp_held sp + 1) w (sp_published sp) (sp_pending sp) sp)
  end.

Definition spec_pop_n (n : nat) sp : list T * spsc_spec T :=
  (take n (sp_window sp),
   sp_with_lists (sp_held sp + Z.of_nat n) (drop n (sp_window sp)) (sp_published sp)
     (sp_pending sp) sp).

Definition spec_release sp : spsc_spec T :=
  sp_with_lists 0 (sp_window sp) (sp_published sp) (sp_pending sp) sp.

Definition spec_refill sp : spsc_spec T :=
  match sp_window sp with [] => (spec_prefetch sp).2 | _ => sp end.

Definition spec_take_pw (was_full : bool) sp : bool * spsc_spec T :=
  (spec_wake was_full (sp_producer_waiting sp),
   sp_with_pw (set_waiting false (sp_producer_waiting sp)) sp).

Definition spec_flush_check sp : FlushResult * spsc_spec T :=
  let sp1 := sp_with_cw (spec_enable (sp_consumer_waiting sp)) sp in
  match sp_pending sp with
  | [] => (NothingToFlush, sp1)
  | _ =>
      let was_empty := sp_held sp + zlength (sp_window sp) + zlength (sp_published sp) =? 0 in
      (Flushed (zlength (sp_pending sp)) (spec_wake was_empty (sp_consumer_waiting sp1)),
       sp_with_cw (set_waiting false (sp_consumer_waiting sp1)) (spec_flush sp1))
  end.

Definition spec_push_flush (v : T) sp : result unit T * spsc_spec T :=
  let '(res, sp') := spec_push v sp in
  (res, match res with Ok _ => spec_flush sp' | Err _ => sp' end).

Definition spec_is_full sp : bool * spsc_spec T :=
  (sp_full sp,
   if sp_full sp then sp_with_pw (spec_register (sp_producer_waiting sp)) sp else sp).

Definition spec_release_full sp : bool * spsc_spec T :=
  let sp1 := sp_with_pw (spec_enable (sp_producer_waiting sp)) sp in
  if sp_held sp =? 0 then (false, sp1)
  else
    let was_full := sp_held sp + zlength (sp_window sp) >=? sp_cap sp in
    spec_take_pw was_full (spec_release sp1).

Definition spec_prefetch_pop sp : option T * spsc_spec T :=
  let '(v, sp') := spec_pop (spec_refill sp) in
  (v, match v with Some _ => spec_release sp' | None => sp' end).

Definition spec_prefetch_pop_full sp : option (T * bool) * spsc_spec T :=
  let sp1 := spec_refill (sp_with_pw (spec_enable (sp_producer_waiting sp)) sp) in
  let was_full := zlength (sp_window sp1) >=? sp_cap sp in
  match spec_pop sp1 with
  | (None, sp2) => (None, sp2)
  | (Some v, sp2) =>
      let '(wake, sp3) := spec_take_pw was_full (spec_release sp2) in (Some (v, wake), sp3)
  end.

Definition sp_visible_empty sp : bool :=
  match sp_window sp, sp_published sp with [], [] => true | _, _ => false end.

Definition spec_is_empty sp : bool * spsc_spec T :=
  (sp_visible_empty sp,
   if sp_visible_empty sp then sp_with_cw (spec_register (sp_consumer_waiting sp)) sp else sp).

Definition spec_pop_into (limit : Z) sp : list T * spsc_spec T :=
  spec_pop_n (Nat.min (length (sp_window sp)) (Z.to_nat limit)) sp.

Definition spec_pop_into_while (limit : Z) (accepts : Adm -> T -> bool * Adm) (adm : Adm) sp
    : list T * Adm * spsc_spec T :=
  let '(n, adm') := accept_prefix accepts adm (take (Z.to_nat limit) (sp_window sp)) in
  let '(vs, sp') := spec_pop_n n sp in (vs, adm', sp').

Definition spec_cmd (cmd : spsc_cmd) sp : spsc_out * spsc_spec T :=
  match cmd with
  | CPush v => let '(res, sp') := spec_push v sp in (OPush res, sp')
  | CFlush => (OUnit, spec_flush sp)
  | CFlushCheck => let '(res, sp') := spec_flush_check sp in (OFlush res, sp')
  | CPushFlush v => let '(res, sp') := spec_push_flush v sp in (OPush res, sp')
  | CIsFull => let '(b, sp') := spec_is_full sp in (OBool b, sp')
  | CProducerLen => (OZ (sp_size sp), sp)
  | CProducerIsEmpty => (OBool (sp_size sp =? 0), sp)
  | CIsConsumerDropped => (OBool (sp_consumer_dropped sp), sp)
  | CProducerClose => (OUnit, sp_with_drops true (sp_consumer_dropped sp) (spec_flush sp))
  | CPrefetch => let '(n, sp') := spec_prefetch sp in (OZ n, sp')
  | CPop => let '(v, sp') := spec_pop sp in (OItem v, sp')
  | CPopInto output limit =>
      let '(vs, sp') := spec_pop_into limit sp in (OBatch (zlength vs) (output ++ vs), sp')
  | CPopIntoWhile output limit accepts adm =>
      let '(vs, adm', sp') := spec_pop_into_while limit accepts adm sp in
      (OBatchWhile (zlength vs) (output ++ vs) adm', sp')
  | CRelease => (OUnit, spec_release sp)
  | CReleaseFull => let '(b, sp') := spec_release_full sp in (OBool b, sp')
  | CPrefetchPop => let '(v, sp') := spec_prefetch_pop sp in (OItem v, sp')
  | CPrefetchPopFull => let '(v, sp') := spec_prefetch_pop_full sp in (OItemWake v, sp')
  | CIsEmpty => let '(b, sp') := spec_is_empty sp in (OBool b, sp')
  | CIsDisconnected => (OBool (sp_producer_dropped sp && sp_visible_empty sp), sp)
  | CLen => (OZ (zlength (sp_window sp) + zlength (sp_published sp)), sp)
  | CCapacity => (OZ (sp_cap sp), sp)
  | CConsumerClose => (OUnit, sp_with_drops (sp_producer_dropped sp) true (spec_release sp))
  end.

(** *** The same operations by the code *)

Local Open Scope prog_scope.

Definition exec_cmd (cmd : spsc_cmd) (p : Producer) (c : Consumer)
    : prog (Ring T) (spsc_out * Producer * Consumer) :=
  match cmd with
  | CPush v => let* '(res, p) := Producer_push p v in Ret (OPush res, p, c)
  | CFlush => let* _ := Producer_flush p in Ret (OUnit, p, c)
  | CFlushCheck => let* '(res, p) := Producer_flush_and_check p in Ret (OFlush res, p, c)
  | CPushFlush v => let* '(res, p) := Producer_push_and_flush p v in Ret (OPush res, p, c)
  | CIsFull => let* '(b, p) := Producer_is_full p in Ret (OBool b, p, c)
  | CProducerLen => let* n := Producer_len p in Ret (OZ n, p, c)
  | CProducerIsEmpty => let* b := Producer_is_empty p in Ret (OBool b, p, c)
  | CIsConsumerDropped => let* b := Producer_is_consumer_dropped in Ret (OBool b, p, c)
  | CProducerClose => let* _ := Producer_close p in Ret (OUnit, p, c)
  | CPrefetch => let* '(n, c) := Consumer_prefetch c in Ret (OZ n, p, c)
  | CPop => let* '(v, c) := Consumer_pop c in Ret (OItem v, p, c)
  | CPopInto output limit =>
      let* '(n, output, c) := Consumer_pop_into c output limit in Ret (OBatch n output, p, c)
  | CPopIntoWhile output limit accepts adm =>
      let* '(n, output, adm, c) := Consumer_pop_into_while c output limit accepts adm in
      Ret (OBatchWhile n output adm, p, c)
  | CRelease => let* _ := Consumer_release c in Ret (OUnit, p, c)
  | CReleaseFull => let* b := Consumer_release_with_full c in Ret (OBool b, p, c)
  | CPrefetchPop => let* '(v, c) := Consumer_prefetch_and_pop c in Ret (OItem v, p, c)
  | CPrefetchPopFull =>
      let* '(v, c) := Consumer_prefetch_and_pop_with_full c in Ret (OItemWake v, p, c)
  | CIsEmpty => let* b := Consumer_is_empty c in Ret (OBool b, p, c)
  | CIsDisconnected => let* b := Consumer_is_disconnected c in Ret (OBool b, p, c)
  | CLen => let* n := Consumer_len c in Ret (OZ n, p, c)
  | CCapacity => let* n := Consumer_capacity in Ret (OZ n, p, c)
  | CConsumerClose => let* _ := Consumer_close c in Ret (OUnit, p, c)
  end.

(** Rust's [usize] arguments are not negative. *)
Definition cmd_ok (cmd : spsc_cmd) : Prop :=
  match cmd with
  | CPopInto _ limit | CPopIntoWhile _ limit _ _ => 0 <= limit
  | _ => True
  end.

Fixpoint exec_cmds (cmds : list spsc_cmd) (p : Producer) (c : Consumer)
    : prog (Ring T) (list spsc_out * Producer * Consumer) :=
  match cmds with
  | [] => Ret ([], p, c)
  | cmd :: cmds' =>
      let* '(o, p, c) := exec_cmd cmd p c in
      let* '(os, p, c) := exec_cmds cmds' p c in
      Ret (o :: os, p, c)
  end.

Fixpoint spec_cmds (cmds : list spsc_cmd) sp : list spsc_out * spsc_spec T :=
  match cmds with
  | [] => ([], sp)
  | cmd :: cmds' =>
      let '(o, sp) := spec_cmd cmd sp in
      let '(os, sp) := spec_cmds cmds' sp in (o :: os, sp)
  end.

(** ** The representation relation *)

Record ring_rep_at (base ph ch : Z) hist r (p : Producer) (c : Consumer) sp : Prop := {
  rep_ok : ring_ok (sp_cap sp) base ph (ph + sp_held sp)
             (ph + sp_held sp + zlength (sp_window sp) + zlength (sp_published sp)) hist r;
  rep_held : 0 <= sp_held sp;
  rep_items : drop (Z.to_nat (ph + sp_held sp)) hist =
                sp_window sp ++ sp_published sp ++ sp_pending sp;
  rep_lag : 0 <= ch <= ph /\ zlength hist - ch <= sp_cap sp;
  rep_cursor : producer_cursor p = wrap (base + zlength hist);
  rep_cached_head : producer_cached_head p = wrap (base + ch);
  rep_chead : consumer_head c = wrap (base + (ph + sp_held sp));
  rep_cached_tail : consumer_cached_tail c =
    wrap (base + (ph + sp_held sp + zlength (sp_window sp)));
  rep_cw : ring_consumer_waiting r = sp_consumer_waiting sp;
  rep_pw : ring_producer_waiting r = sp_producer_waiting sp;
  rep_pd : ring_producer_dropped r = sp_producer_dropped sp;
  rep_cd : ring_consumer_dropped r = sp_consumer_dropped sp
}.

Definition ring_rep r p c sp : Prop := exists base ph ch hist, ring_rep_at base ph ch hist r p c sp.

(** ** Facts of the relation *)

Lemma drop_head hist h v l :
  0 <= h -> drop (Z.to_nat h) hist = v :: l ->
  zlookup hist h = Some v /\ drop (Z.to_nat (h + 1)) hist = l.
Proof.
  intros Hh E. unfold zlookup. destruct (Z.ltb_spec h 0); [lia|]. split.
  - rewrite <- (Nat.add_0_r (Z.to_nat h)), <- lookup_drop, E. done.
  - replace (Z.to_nat (h + 1)) with (Z.to_nat h + 1)%nat by lia.
    by rewrite <- drop_drop, E.
Qed.

Lemma rep_length base ph ch hist r p c sp :
  ring_rep_at base ph ch hist r p c sp ->
  zlength hist = ph + sp_held sp + zlength (sp_window sp) + zlength (sp_published sp)
                 + zlength (sp_pending sp).
Proof.
  intros H. pose proof (ok_order _ _ _ _ _ _ _ (rep_ok _ _ _ _ _ _ _ _ H)) as Ho.
  pose proof (f_equal zlength (rep_items _ _ _ _ _ _ _ _ H)) as E.
  rewrite !zlength_app in E. unfold zlength in E, Ho |- *.
  rewrite length_drop in E. lia.
Qed.

Lemma rep_nonneg base ph ch hist r p c sp :
  ring_rep_at base ph ch hist r p c sp ->
  0 <= zlength (sp_window sp) /\ 0 <= zlength (sp_published sp) /\ 0 <= zlength (sp_pending sp).
Proof. intros _. split_and!; apply zlength_nonneg. Qed.

(** A change of the abstract state that keeps all positions: only flags of
    the ring and of the abstract queue differ. *)
Lemma rep_flags base ph ch hist r r' p c sp sp' :
  ring_rep_at base ph ch hist r p c sp ->
  sp_cap sp' = sp_cap sp -> sp_held sp' = sp_held sp -> sp_window sp' = sp_window sp ->
  sp_published sp' = sp_published sp -> sp_pending sp' = sp_pending sp ->
  ring_mask r' = ring_mask r -> ring_head r' = ring_head r ->
  ring_tail r' = ring_tail r -> ring_buf r' = ring_buf r ->
  ring_consumer_waiting r' = sp_consumer_waiting sp' ->
  ring_producer_waiting r' = sp_producer_waiting sp' ->
  ring_producer_dropped r' = sp_producer_dropped sp' ->
  ring_consumer_dropped r' = sp_consumer_dropped sp' ->
  ring_rep_at base ph ch hist r' p c sp'.
Proof.
  intros [] E1 E2 E3 E4 E5 ? ? ? ? ? ? ? ?.
  split; rewrite ?E1, ?E2, ?E3, ?E4, ?E5; auto. eapply ring_ok_ext; eauto.
Qed.

End spec.
Arguments spsc_cmd T Adm : clear implicits.
Arguments spsc_out T Adm : clear implicits.

(** ** Proof automation for the relation *)

(** Everything a proof about one operation needs, in the context. *)
Ltac rep_facts H :=
  let Hl := fresh "Hlen" in
  pose proof (rep_length _ _ _ _ _ _ _ _ H) as Hl;
  let Hc := fresh "Hcapr" in
  pose proof (valid_cap_range _ (ok_cap _ _ _ _ _ _ _ (rep_ok _ _ _ _ _ _ _ _ H))) as Hc;
  let Ho := fresh "Hord" in
  pose proof (ok_order _ _ _ _ _ _ _ (rep_ok _ _ _ _ _ _ _ _ H)) as Ho;
  let Hh := fresh "Hheld" in
  pose proof (rep_held _ _ _ _ _ _ _ _ H) as Hh;
  let Hg := fresh "Hlag" in
  pose proof (rep_lag _ _ _ _ _ _ _ _ H) as Hg;
  let Hn := fresh "Hnn" in
  pose proof (rep_nonneg _ _ _ _ _ _ _ _ H) as Hn.

(** Close [ring_ok] goals up to the arithmetic of positions. *)
Ltac rep_arith := eapply ring_ok_eq; [eassumption | lia | lia].

(** Compute the fields of an updated abstract state. *)
Ltac sp_simpl :=
  cbn [sp_cap sp_held sp_window sp_published sp_pending sp_consumer_waiting sp_producer_waiting
       sp_producer_dropped sp_consumer_dropped sp_with_lists sp_with_cw sp_with_pw sp_with_drops
       spec_flush spec_release producer_cursor producer_cached_head consumer_head
       consumer_cached_tail fst snd] in *.

Ltac keep_rep H :=
  eapply rep_flags; [exact H | simpl; rewrite ?(rep_cw _ _ _ _ _ _ _ _ H),
    ?(rep_pw _ _ _ _ _ _ _ _ H), ?(rep_pd _ _ _ _ _ _ _ _ H), ?(rep_cd _ _ _ _ _ _ _ _ H); done ..].

Section refinement.
Context {T Adm : Type}.
Implicit Types (hist : list T) (r : Ring T) (sp : spsc_spec T) (cmd : spsc_cmd T Adm) (cmds : list (spsc_cmd T Adm)).

(** ** Waiters *)

Lemma run_enable w : run Waiter_enable w = (Done tt, spec_enable w).
Proof. by destruct w as [[] a wt]. Qed.

Lemma run_register w : run Waiter_register w = (Done (waiter_enabled w), spec_register w).
Proof. by destruct w as [[] a wt]. Qed.

Lemma run_take b w : run (Waiter_take b) w = (Done (spec_wake b w), set_waiting false w).
Proof. by destruct b, w as [e [] []]. Qed.

Lemma run_on_pw {A} (q : prog Waiter A) r o w :
  run q (ring_producer_waiting r) = (o, w) ->
  run (on_producer_waiting q) r = (o, set_producer_waiting w r).
Proof.
  intros H. unfold on_producer_waiting. rewrite run_lift, H; try done. by intros [].
Qed.

Lemma run_on_cw {A} (q : prog Waiter A) r o w :
  run q (ring_consumer_waiting r) = (o, w) ->
  run (on_consumer_waiting q) r = (o, set_consumer_waiting w r).
Proof.
  intros H. unfold on_consumer_waiting. rewrite run_lift, H; try done. by intros [].
Qed.

(** A waiter operation changes only its waiter. *)
Lemma runs_pw {A} (q : prog Waiter A) base ph ch hist r p c sp a w :
  ring_rep_at base ph ch hist r p c sp ->
  run q (sp_producer_waiting sp) = (Done a, w) ->
  runs (on_producer_waiting q) r (fun a' r' => a' = a /\
    ring_rep_at base ph ch hist r' p c (sp_with_pw w sp)).
Proof.
  intros H E. rewrite <- (rep_pw _ _ _ _ _ _ _ _ H) in E.
  eapply runs_intro; [eapply run_on_pw, E|]. split; [done|]. keep_rep H.
Qed.

Lemma runs_cw {A} (q : prog Waiter A) base ph ch hist r p c sp a w :
  ring_rep_at base ph ch hist r p c sp ->
  run q (sp_consumer_waiting sp) = (Done a, w) ->
  runs (on_consumer_waiting q) r (fun a' r' => a' = a /\
    ring_rep_at base ph ch hist r' p c (sp_with_cw w sp)).
Proof.
  intros H E. rewrite <- (rep_cw _ _ _ _ _ _ _ _ H) in E.
  eapply runs_intro; [eapply run_on_cw, E|]. split; [done|]. keep_rep H.
Qed.

(** ** The producer's operations *)

(** Whether a ring is full is decided on a fresh head when the cached one
    does not already show space. *)
Lemma runs_is_full base ph ch hist r p c sp :
  ring_rep_at base ph ch hist r p c sp ->
  runs (Ring_is_full (producer_cursor p) (producer_cached_head p)) r (fun '(full, cached) r' =>
    r' = r /\ full = sp_full sp /\
    exists ch', cached = wrap (base + ch') /\
      ring_rep_at base ph ch' hist r (mkProducer (producer_cursor p) cached) c sp /\
      (full = false -> zlength hist - ch' < sp_cap sp)).
Proof.
  intros H. rep_facts H. unfold Ring_is_full, runs.
  rewrite (run_bind_Done _ _ _ _ _ (run_Ring_capacity _ _ (ok_mask _ _ _ _ _ _ _ (rep_ok _ _ _ _ _ _ _ _ H)))).
  rewrite (rep_cursor _ _ _ _ _ _ _ _ H), (rep_cached_head _ _ _ _ _ _ _ _ H).
  rewrite distance_wrap by lia. unfold sp_full, sp_size.
  destruct (Z.geb_spec (zlength hist - ch) (sp_cap sp)) as [Hge|Hlt]; simpl.
  - rewrite (ok_head _ _ _ _ _ _ _ (rep_ok _ _ _ _ _ _ _ _ H)), distance_wrap by lia.
    split; [done|]. split; [f_equal; lia|]. exists ph. split; [done|]. split.
    + destruct H. split; simpl in *; auto; lia.
    + lia.
  - split; [done|]. split.
    + lia.
    + exists ch. split; [done|]. split; [|auto with lia]. destruct H. split; simpl in *; auto.
Qed.

(** [Ring_push] is [Ring_is_full] followed by the write. *)
Lemma runs_Ring_push base ph ch hist r p c sp v :
  ring_rep_at base ph ch hist r p c sp ->
  runs (Ring_push (producer_cursor p) (producer_cached_head p) v) r (fun '(res, cur, cached) r' =>
    if sp_full sp
    then r' = r /\ res = Err v /\ exists ch',
         ring_rep_at base ph ch' hist r (mkProducer cur cached) c sp
    else res = Ok tt /\ exists ch',
         ring_rep_at base ph ch' (hist ++ [v]) r' (mkProducer cur cached) c
           (sp_with_lists (sp_held sp) (sp_window sp) (sp_published sp) (sp_pending sp ++ [v]) sp)).
Proof.
  intros H. pose proof (runs_is_full _ _ _ _ _ _ _ _ H) as Hf.
  pose proof (ok_mask _ _ _ _ _ _ _ (rep_ok _ _ _ _ _ _ _ _ H)) as Hm.
  unfold Ring_is_full, Ring_push, runs in *. revert Hf.
  rewrite !(run_bind_Done _ _ _ _ _ (run_Ring_capacity _ _ Hm)), run_bind.
  destruct (run _ r) as [[[full cached]|] r1]; [|done].
  intros (-> & -> & ch' & -> & H' & Hlt). cbv beta iota.
  destruct (sp_full sp); [simpl; eauto 10|]. specialize (Hlt eq_refl). rep_facts H'.
  pose proof (rep_ok _ _ _ _ _ _ _ _ H') as Hok. pose proof (ok_cap _ _ _ _ _ _ _ Hok) as Hcap.
  rewrite (run_bind_Done _ _ _ ((base + zlength hist) mod sp_cap sp) r).
  2:{ simpl. rewrite Hm, (rep_cursor _ _ _ _ _ _ _ _ H), index_mod; auto. }
  destruct (ring_ok_write _ _ _ _ _ _ _ v Hok) as [Hw Hok']; [lia|].
  rewrite (run_bind_Done _ _ _ _ _ Hw). cbn [run]. split; [done|]. exists ch'.
  destruct H'. split; simpl in *; auto.
  - rewrite drop_app_le by (unfold zlength in *; lia). by rewrite rep_items0, <- !app_assoc.
  - rewrite zlength_snoc. lia.
  - rewrite (rep_cursor _ _ _ _ _ _ _ _ H), cursor_add, zlength_snoc. done.
Qed.

Lemma rep_push r p c sp v :
  ring_rep r p c sp ->
  runs (Producer_push p v) r (fun '(res, p') r' =>
    res = (spec_push v sp).1 /\ ring_rep r' p' c (spec_push v sp).2).
Proof.
  intros (base & ph & ch & hist & H). unfold Producer_push, spec_push.
  eapply runs_seq; [eapply runs_Ring_push, H|]. intros [[res cur] cached] r'.
  destruct (sp_full sp) eqn:F.
  - intros (-> & -> & ch' & H'). unfold Producer_push_after_full.
    eapply runs_seq; [eapply runs_pw; [exact H'|apply run_register]|]. intros reg r1 [-> H1].
    destruct (waiter_enabled (sp_producer_waiting sp)) eqn:E; simpl.
    + eapply runs_seq; [apply (runs_Ring_push _ _ _ _ _ _ _ _ v H1)|].
      intros [[res cur'] cached']. unfold sp_full, sp_size in *. simpl. rewrite F.
      intros r2 (-> & -> & ch2 & H2). apply runs_ret. split; [done|]. red; eauto.
    + apply runs_ret. split; [done|]. red; eauto.
  - intros (-> & ch' & H'). apply runs_ret. split; [done|]. red; eauto.
Qed.

Lemma rep_flush base ph ch hist r p c sp :
  ring_rep_at base ph ch hist r p c sp ->
  ring_rep_at base ph ch hist (set_tail (producer_cursor p) r) p c (spec_flush sp).
Proof.
  intros H. rep_facts H. destruct H. split; simpl; auto.
  - rewrite zlength_app, Z.add_assoc, <- Hlen, rep_cursor0.
    eapply ring_ok_set_tail; [eauto|lia].
  - by rewrite app_nil_r.
Qed.

Lemma runs_flush r p c sp :
  ring_rep r p c sp ->
  runs (Producer_flush p) r (fun _ r' => ring_rep r' p c (spec_flush sp)).
Proof.
  intros (base & ph & ch & hist & H). do 4 eexists. by apply rep_flush.
Qed.


Lemma rep_push_and_flush r p c sp v :
  ring_rep r p c sp ->
  runs (Producer_push_and_flush p v) r (fun '(res, p') r' =>
    res = (spec_push_flush v sp).1 /\ ring_rep r' p' c (spec_push_flush v sp).2).
Proof.
  intros H. unfold Producer_push_and_flush, spec_push_flush.
  eapply runs_seq; [eapply rep_push, H|]. intros [res p'] r1 [-> H1].
  destruct (spec_push v sp) as [[[]|e] sp1]; cbn [fst snd] in *.
  - eapply runs_seq; [eapply runs_flush, H1|]. intros u r2 H2. apply runs_ret. auto.
  - apply runs_ret. auto.
Qed.

Lemma rep_flush_and_check r p c sp :
  ring_rep r p c sp ->
  runs (Producer_flush_and_check p) r (fun '(res, p') r' =>
    res = (spec_flush_check sp).1 /\ ring_rep r' p' c (spec_flush_check sp).2).
Proof.
  intros (base & ph & ch & hist & H). rep_facts H.
  unfold Producer_flush_and_check, Ring_flush_to, spec_flush_check. apply runs_bind.
  eapply runs_seq; [eapply runs_cw; [exact H|apply run_enable]|]. intros u r1 [_ H1].
  pose proof (rep_ok _ _ _ _ _ _ _ _ H1) as Hok1. simpl in Hok1.
  apply runs_bind. eapply runs_intro; [reflexivity|].
  rewrite (ok_tail _ _ _ _ _ _ _ Hok1), (rep_cursor _ _ _ _ _ _ _ _ H), cursor_eqb by lia.
  destruct (Z.eqb_spec (zlength hist)
     (ph + sp_held sp + zlength (sp_window sp) + zlength (sp_published sp))) as [E|E].
  - assert (Hp : sp_pending sp = []).
    { destruct (sp_pending sp) as [|x l]; [done|]. rewrite zlength_cons in *.
      pose proof (zlength_nonneg l). lia. }
    rewrite Hp. apply runs_ret, runs_ret. split; [done|]. red. exists base, ph, ch, hist.
    destruct p; simpl in *. rewrite <- (rep_cursor _ _ _ _ _ _ _ _ H). exact H1.
  - assert (Hp : sp_pending sp <> []).
    { intros Ep. rewrite Ep in *. rewrite zlength_nil in *. lia. }
    apply runs_bind. eapply runs_intro; [reflexivity|].
    apply runs_bind. eapply runs_intro; [reflexivity|].
    rewrite (ok_head _ _ _ _ _ _ _ Hok1), cursor_eqb by lia. rewrite distance_wrap by lia.
    set (was_empty := _ =? ph).
    assert (H2 : ring_rep_at base ph ph hist (set_tail (wrap (base + zlength hist)) r1)
                   (mkProducer (producer_cursor p) (wrap (base + ph))) c
                   (spec_flush (sp_with_cw (spec_enable (sp_consumer_waiting sp)) sp))).
    { rewrite <- (rep_cursor _ _ _ _ _ _ _ _ H). apply rep_flush in H1.
      destruct H1. split; simpl in *; auto; lia. }
    eapply runs_seq; [eapply runs_cw; [exact H2|apply run_take]|]. intros wake r2 [-> H3].
    apply runs_ret, runs_ret. simpl in *. destruct (sp_pending sp) as [|x l] eqn:Ep; [done|].
    rewrite <- Ep in *. simpl. split.
    + do 2 f_equal; [lia|]. unfold was_empty. lia.
    + red. exists base, ph, ph, hist. rewrite <- (rep_cursor _ _ _ _ _ _ _ _ H). exact H3.
Qed.

Lemma rep_is_full r p c sp :
  ring_rep r p c sp ->
  runs (Producer_is_full p) r (fun '(b, p') r' =>
    b = (spec_is_full sp).1 /\ ring_rep r' p' c (spec_is_full sp).2).
Proof.
  intros (base & ph & ch & hist & H). unfold Producer_is_full, spec_is_full. cbn [fst snd].
  eapply runs_seq; [eapply runs_is_full, H|].
  intros [full cached] r1 (-> & -> & ch' & -> & H1 & _).
  destruct (sp_full sp) eqn:F; cbn [negb]; [|apply runs_ret; split; [done|]; red; eauto].
  eapply runs_seq; [eapply runs_pw; [exact H1|apply run_register]|]. intros reg r2 [-> H2].
  destruct (waiter_enabled (sp_producer_waiting sp)) eqn:E; cbn [negb];
    [|apply runs_ret; split; [done|]; red; eauto].
  eapply runs_seq; [eapply (runs_is_full _ _ _ _ _ _ _ _ H2)|].
  intros [full cached'] r3 (-> & -> & ch3 & -> & H3 & _). apply runs_ret.
  split; [done|]. red; eauto.
Qed.

(** ** The consumer's operations *)

Lemma runs_Ring_prefetch base ph ch hist r p c sp :
  ring_rep_at base ph ch hist r p c sp ->
  runs (Ring_prefetch (consumer_cached_tail c)) r (fun '(n, cached) r' =>
    r' = r /\ n = zlength (sp_published sp) /\
    ring_rep_at base ph ch hist r p (mkConsumer (consumer_head c) cached)
      (sp_with_lists (sp_held sp) (sp_window sp ++ sp_published sp) [] (sp_pending sp) sp)).
Proof.
  intros H. rep_facts H. pose proof (rep_ok _ _ _ _ _ _ _ _ H) as Hok.
  unfold Ring_prefetch. apply runs_bind. eapply runs_intro; [reflexivity|]. apply runs_ret.
  rewrite (ok_tail _ _ _ _ _ _ _ Hok), (rep_cached_tail _ _ _ _ _ _ _ _ H).
  rewrite wrapping_sub_wrap by lia.
  split; [done|]. split; [lia|].
  destruct H. split; simpl in *; rewrite ?zlength_app, ?zlength_nil, ?Z.add_0_r, ?Z.add_assoc; auto.
  - by rewrite <- app_assoc.
  - by rewrite <- Z.add_assoc.
Qed.

(** The consumer sees its window empty exactly when it is. *)
Lemma window_eqb base ph ch hist r p c sp :
  ring_rep_at base ph ch hist r p c sp ->
  (consumer_head c =? consumer_cached_tail c) =
    match sp_window sp with [] => true | _ => false end.
Proof.
  intros H. rep_facts H. rewrite (rep_chead _ _ _ _ _ _ _ _ H), (rep_cached_tail _ _ _ _ _ _ _ _ H).
  rewrite cursor_eqb_sym by lia. destruct (sp_window sp) as [|x l].
  - rewrite zlength_nil, Z.add_0_r. apply Z.eqb_refl.
  - rewrite zlength_cons in *. pose proof (zlength_nonneg l). lia.
Qed.

Lemma rep_prefetch r p c sp :
  ring_rep r p c sp ->
  runs (Consumer_prefetch c) r (fun '(n, c') r' =>
    n = (spec_prefetch sp).1 /\ ring_rep r' p c' (spec_prefetch sp).2).
Proof.
  intros (base & ph & ch & hist & H). unfold Consumer_prefetch, spec_prefetch. cbn [fst snd].
  eapply runs_seq; [eapply runs_Ring_prefetch, H|]. intros [n cached] r1 (-> & -> & H1).
  rewrite (window_eqb _ _ _ _ _ _ _ _ H1). cbn [sp_with_lists sp_window].
  destruct (sp_window sp ++ sp_published sp) as [|x l] eqn:E; cbn [negb].
  2:{ apply runs_ret. split; [done|]. red; eauto. }
  apply app_eq_nil in E as [E1 E2]. unfold Consumer_prefetch_after_empty.
  eapply runs_seq; [eapply runs_cw; [exact H1|apply run_register]|]. intros reg r2 [-> H2].
  cbn [sp_with_lists sp_consumer_waiting] in *.
  destruct (waiter_enabled (sp_consumer_waiting sp)) eqn:En; cbn [negb].
  - eapply runs_seq; [eapply (runs_Ring_prefetch _ _ _ _ _ _ _ _ H2)|].
    intros [n' cached'] r3 (-> & -> & H3). apply runs_ret. rewrite E2. split; [done|].
    red. do 4 eexists. exact H3.
  - apply runs_ret. rewrite E2. split; [done|]. red. do 4 eexists. exact H2.
Qed.

Lemma rep_pop r p c sp :
  ring_rep r p c sp ->
  runs (Consumer_pop c) r (fun '(v, c') r' =>
    v = (spec_pop sp).1 /\ ring_rep r' p c' (spec_pop sp).2).
Proof.
  intros (base & ph & ch & hist & H). rep_facts H. unfold Consumer_pop, Ring_pop, spec_pop.
  pose proof (rep_ok _ _ _ _ _ _ _ _ H) as Hok. pose proof (ok_cap _ _ _ _ _ _ _ Hok) as Hcap.
  apply runs_bind. rewrite (window_eqb _ _ _ _ _ _ _ _ H).
  destruct (sp_window sp) as [|v w] eqn:Ew.
  - apply runs_ret, runs_ret. split; [done|]. red. exists base, ph, ch, hist. destruct c. exact H.
  - pose proof (zlength_nonneg w). pose proof (zlength_nonneg (sp_published sp)).
    rewrite zlength_cons in *.
    pose proof (rep_items _ _ _ _ _ _ _ _ H) as Hi. rewrite Ew in Hi.
    destruct (drop_head hist (ph + sp_held sp) v (w ++ sp_published sp ++ sp_pending sp)
                ltac:(lia) Hi) as [Hv Hd].
    destruct (ring_ok_take _ _ _ _ _ _ _ v Hok) as [Ht Hok']; [lia|done|].
    apply runs_bind. eapply runs_intro; [reflexivity|].
    rewrite (rep_chead _ _ _ _ _ _ _ _ H), (ok_mask _ _ _ _ _ _ _ Hok), index_mod by done.
    apply runs_bind. eapply runs_intro; [exact Ht|]. apply runs_ret, runs_ret.
    split; [done|]. red. exists base, ph, ch, hist. cbn [snd].
    destruct H. split; sp_simpl; auto; try lia.
    + by rep_arith.
    + rewrite <- Hd. f_equal. lia.
    + rewrite cursor_add. f_equal. lia.
    + rewrite rep_cached_tail0, Ew, zlength_cons. f_equal. lia.
Qed.

(** *** Bulk moves *)

(** A contiguous run of slots moves out in order. *)
Lemma runs_move_slots cap base ph h t hist r start n :
  ring_ok cap base ph h t hist r ->
  (n <> O -> start = (base + h) mod cap) -> start + Z.of_nat n <= cap -> h + Z.of_nat n <= t ->
  runs (Ring_move_slots start n) r (fun vs r' =>
    vs = take n (drop (Z.to_nat h) hist) /\ (exists b, r' = set_buf b r) /\
    ring_ok cap base ph (h + Z.of_nat n) t hist r').
Proof.
  revert h r start. induction n as [|n IH]; intros h r start Hok Hst Hsum Hle.
  - apply runs_ret. split; [done|]. split; [by exists (ring_buf r); destruct r|].
    eapply ring_ok_eq; [exact Hok|lia|lia].
  - pose proof (ok_order _ _ _ _ _ _ _ Hok) as Ho. pose proof (ok_cap _ _ _ _ _ _ _ Hok) as Hcap.
    pose proof (valid_cap_range _ Hcap) as Hcr. rewrite (Hst ltac:(done)) in *. cbn [Ring_move_slots].
    destruct (drop (Z.to_nat h) hist) as [|v l] eqn:Ed.
    { apply (f_equal length) in Ed. rewrite length_drop in Ed. unfold zlength in *. simpl in Ed. lia. }
    destruct (drop_head hist h v l ltac:(lia) Ed) as [Hv Hd].
    destruct (ring_ok_take _ _ _ _ _ _ _ v Hok) as [Ht Hok']; [lia|done|].
    apply runs_bind. eapply runs_intro; [exact Ht|].
    eapply runs_seq; [eapply (IH (h + 1) _ ((base + h) mod cap + 1) Hok'); try lia|].
    { intros Hn. rewrite Z.add_assoc, mod_succ; lia. }
    intros vs r2 (-> & (b & ->) & Hok2). apply runs_ret. split; [by rewrite Hd|].
    split; [by eexists|]. eapply ring_ok_eq; [exact Hok2|lia|lia].
Qed.

Lemma runs_Ring_pop_into cap base ph h t hist r n output :
  ring_ok cap base ph h t hist r -> h + Z.of_nat n <= t -> Z.of_nat n <= cap ->
  runs (Ring_pop_into (wrap (base + h)) (Z.of_nat n) output) r (fun '(out, head) r' =>
    out = output ++ take n (drop (Z.to_nat h) hist) /\ head = wrap (base + (h + Z.of_nat n)) /\
    (exists b, r' = set_buf b r) /\ ring_ok cap base ph (h + Z.of_nat n) t hist r').
Proof.
  intros Hok Hle Hn. pose proof (ok_cap _ _ _ _ _ _ _ Hok) as Hcap.
  pose proof (valid_cap_range _ Hcap) as Hcr. pose proof (index_range cap (base + h) Hcap) as Hi.
  pose proof (ok_order _ _ _ _ _ _ _ Hok) as Ho. unfold Ring_pop_into.
  apply runs_bind. eapply runs_intro; [apply run_Ring_capacity, Hok|].
  destruct (Z.leb_spec (Z.of_nat n) cap); [|lia]. cbn [negb].
  apply runs_bind. eapply runs_intro; [reflexivity|].
  rewrite (ok_mask _ _ _ _ _ _ _ Hok), index_mod by done.
  set (first := Z.min (Z.of_nat n) (cap - (base + h) mod cap)).
  eapply runs_seq; [eapply (runs_move_slots _ _ _ _ _ _ _ _ (Z.to_nat first) Hok); lia|].
  intros v1 r1 (-> & (b1 & ->) & Hok1).
  eapply runs_seq; [eapply (runs_move_slots _ _ _ _ _ _ _ 0 (Z.to_nat (Z.of_nat n - first)) Hok1); try lia|].
  { intros Hne. rewrite <- (mod_wrap_start base h cap) by lia. do 2 f_equal. lia. }
  intros v2 r2 (-> & (b2 & ->) & Hok2). apply runs_ret. split_and!.
  - f_equal. replace (Z.to_nat (h + Z.of_nat (Z.to_nat first))) with (Z.to_nat h + Z.to_nat first)%nat by lia.
    rewrite <- drop_drop, take_take_drop. f_equal. lia.
  - apply cursor_add.
  - by exists b2.
  - eapply ring_ok_eq; [exact Hok2|lia|lia].
Qed.

(** Popping [n] items of the window, by the representation. *)
Lemma rep_pop_n base ph ch hist r p c sp n output :
  ring_rep_at base ph ch hist r p c sp -> (n <= length (sp_window sp))%nat ->
  runs (Ring_pop_into (consumer_head c) (Z.of_nat n) output) r (fun '(out, head) r' =>
    out = output ++ (spec_pop_n n sp).1 /\
    ring_rep r' p (mkConsumer head (consumer_cached_tail c)) (spec_pop_n n sp).2).
Proof.
  intros H Hn. rep_facts H. rewrite (rep_chead _ _ _ _ _ _ _ _ H).
  pose proof (rep_ok _ _ _ _ _ _ _ _ H) as Hok.
  assert (Hn' : Z.of_nat n <= zlength (sp_window sp)) by (unfold zlength; lia).
  eapply runs_mono; [eapply (runs_Ring_pop_into _ _ _ _ _ _ _ n output Hok); lia|].
  intros [out head] r' (-> & -> & (b & ->) & Hok'). unfold spec_pop_n. sp_simpl.
  rewrite (rep_items _ _ _ _ _ _ _ _ H), take_app_le by done. split; [done|].
  red. exists base, ph, ch, hist. destruct H. split; sp_simpl; auto; try lia.
  - unfold zlength in *. rewrite length_drop. rep_arith.
  - replace (Z.to_nat (ph + (sp_held sp + Z.of_nat n))) with (Z.to_nat (ph + sp_held sp) + n)%nat by lia.
    by rewrite <- drop_drop, rep_items0, drop_app_le.
  - f_equal. lia.
  - rewrite rep_cached_tail0. f_equal. unfold zlength in *. rewrite length_drop. lia.
Qed.

Lemma window_count base ph ch hist r p c sp :
  ring_rep_at base ph ch hist r p c sp ->
  wrapping_sub (consumer_cached_tail c) (consumer_head c) = zlength (sp_window sp).
Proof.
  intros H. rep_facts H. rewrite (rep_chead _ _ _ _ _ _ _ _ H), (rep_cached_tail _ _ _ _ _ _ _ _ H).
  rewrite wrapping_sub_wrap; lia.
Qed.

Lemma spec_pop_0 sp : spec_pop_n 0 sp = ([], sp).
Proof.
  unfold spec_pop_n. destruct sp; simpl. unfold sp_with_lists; simpl. rewrite Z.add_0_r. done.
Qed.

Lemma rep_pop_into r p c sp output limit :
  0 <= limit -> ring_rep r p c sp ->
  runs (Consumer_pop_into c output limit) r (fun '(n, out, c') r' =>
    n = zlength (spec_pop_into limit sp).1 /\ out = output ++ (spec_pop_into limit sp).1 /\
    ring_rep r' p c' (spec_pop_into limit sp).2).
Proof.
  intros Hl (base & ph & ch & hist & H). unfold Consumer_pop_into, spec_pop_into.
  rewrite (window_count _ _ _ _ _ _ _ _ H).
  set (n := Nat.min (length (sp_window sp)) (Z.to_nat limit)).
  assert (En : Z.min (zlength (sp_window sp)) limit = Z.of_nat n) by (unfold n, zlength; lia).
  rewrite En. destruct (Z.eqb_spec (Z.of_nat n) 0) as [E|E].
  - assert (n = O) as -> by lia. rewrite spec_pop_0. apply runs_ret. cbn [fst snd].
    rewrite app_nil_r. split_and!; [done..|]. red; eauto.
  - eapply runs_seq; [eapply (rep_pop_n _ _ _ _ _ _ _ _ n output H); lia|].
    intros [out head] r' [-> H']. apply runs_ret. split_and!; auto.
    unfold spec_pop_n, zlength. cbn [fst]. rewrite length_take. lia.
Qed.

(** Inspecting the window in place. *)
Lemma runs_accepted_prefix cap base ph h t hist r accepts (adm : Adm) n acc :
  ring_ok cap base ph h t hist r -> 0 <= acc -> h + acc + Z.of_nat n <= t ->
  runs (Ring_accepted_prefix accepts (wrap (base + h)) n acc adm) r (fun '(cnt, adm') r' =>
    r' = r /\ let '(k, adm'') := accept_prefix accepts adm (take n (drop (Z.to_nat (h + acc)) hist)) in
              cnt = acc + Z.of_nat k /\ adm' = adm'').
Proof.
  intros Hok. revert acc adm. induction n as [|n IH]; intros acc adm Hacc Hle.
  - apply runs_ret. simpl. split; [done|]. split; [lia|done].
  - pose proof (ok_order _ _ _ _ _ _ _ Hok) as Ho. pose proof (ok_cap _ _ _ _ _ _ _ Hok) as Hcap.
    pose proof (valid_cap_range _ Hcap) as Hcr. cbn [Ring_accepted_prefix].
    destruct (drop (Z.to_nat (h + acc)) hist) as [|v l] eqn:Ed.
    { apply (f_equal length) in Ed. rewrite length_drop in Ed. unfold zlength in *. simpl in Ed. lia. }
    destruct (drop_head hist (h + acc) v l ltac:(lia) Ed) as [Hv Hd].
    apply runs_bind. eapply runs_intro; [reflexivity|].
    rewrite cursor_add, (ok_mask _ _ _ _ _ _ _ Hok), index_mod by done.
    apply runs_bind. eapply runs_intro.
    { unfold slot_peek. simpl. rewrite (slots_read_at _ _ _ _ _ _ (ok_slots _ _ _ _ _ _ _ Hok)) by lia.
      rewrite Hv. reflexivity. }
    cbn [take accept_prefix]. destruct (accepts adm v) as [[] adm'] eqn:Ea; cbn [negb].
    + eapply runs_mono; [eapply (IH (acc + 1) adm'); lia|]. intros [cnt adm2] r' [-> Hc].
      split; [done|]. rewrite Z.add_assoc, Hd in Hc.
      destruct (accept_prefix accepts adm' (take n l)) as [k adm3]. split; [lia|apply Hc].
    + apply runs_ret. split; [done|]. split; [lia|done].
Qed.

Lemma accept_prefix_le accepts (adm : Adm) (l : list T) :
  ((accept_prefix accepts adm l).1 <= length l)%nat.
Proof.
  revert adm. induction l as [|v l IH]; intros adm; simpl; [lia|].
  destruct (accepts adm v) as [[] adm']; simpl; [|lia].
  specialize (IH adm'). destruct (accept_prefix accepts adm' l); simpl in *. lia.
Qed.

Lemma rep_pop_into_while r p c sp output limit accepts (adm : Adm) :
  0 <= limit -> ring_rep r p c sp ->
  runs (Consumer_pop_into_while c output limit accepts adm) r (fun '(n, out, adm', c') r' =>
    let '(vs, adm'', sp') := spec_pop_into_while limit accepts adm sp in
    n = zlength vs /\ out = output ++ vs /\ adm' = adm'' /\ ring_rep r' p c' sp').
Proof.
  intros Hl (base & ph & ch & hist & H). rep_facts H.
  unfold Consumer_pop_into_while, spec_pop_into_while. rewrite (window_count _ _ _ _ _ _ _ _ H).
  set (w := Z.min (zlength (sp_window sp)) limit).
  destruct (Z.eqb_spec w 0) as [E|E].
  - assert (take (Z.to_nat limit) (sp_window sp) = []) as ->.
    { apply nil_length_inv. rewrite length_take. unfold w, zlength in E. lia. }
    simpl. apply runs_ret. rewrite Z.add_0_r, app_nil_r. split_and!; [done..|].
    destruct sp. red; eauto.
  - pose proof (rep_ok _ _ _ _ _ _ _ _ H) as Hok.
    rewrite (rep_chead _ _ _ _ _ _ _ _ H).
    eapply runs_seq; [eapply (runs_accepted_prefix _ _ _ _ _ _ _ accepts adm (Z.to_nat w) 0 Hok); lia|].
    intros [cnt adm'] r1 [-> Hc]. rewrite Z.add_0_r, (rep_items _ _ _ _ _ _ _ _ H) in Hc.
    rewrite take_app_le in Hc by (unfold w, zlength; lia).
    replace (take (Z.to_nat w) (sp_window sp)) with (take (Z.to_nat limit) (sp_window sp)) in Hc.
    2:{ unfold w, zlength. destruct (Nat.le_gt_cases (Z.to_nat limit) (length (sp_window sp))).
        - f_equal. lia.
        - rewrite !take_ge; auto; lia. }
    pose proof (accept_prefix_le accepts adm (take (Z.to_nat limit) (sp_window sp))) as Hk.
    rewrite length_take in Hk.
    destruct (accept_prefix accepts adm _) as [k adm''] eqn:Ek. destruct Hc as [-> ->]. cbn [fst] in Hk.
    rewrite Z.add_0_l. destruct (Z.eqb_spec (Z.of_nat k) 0) as [E0|E0].
    + assert (k = O) as -> by lia. rewrite spec_pop_0. apply runs_ret. rewrite app_nil_r.
      split_and!; [done..|]. red; eauto.
    + rewrite <- (rep_chead _ _ _ _ _ _ _ _ H).
      eapply runs_seq; [eapply (rep_pop_n _ _ _ _ _ _ _ _ k output H); lia|].
      intros [out head] r' [-> H']. apply runs_ret. unfold spec_pop_n in *. cbn [fst snd] in *.
      split_and!; auto. unfold zlength. rewrite length_take. lia.
Qed.

(** *** Releasing slots *)

Lemma rep_release_at base ph ch hist r p c sp :
  ring_rep_at base ph ch hist r p c sp ->
  ring_rep_at base (ph + sp_held sp) ch hist (set_head (consumer_head c) r) p c (spec_release sp).
Proof.
  intros H. rep_facts H. destruct H. split; sp_simpl; rewrite ?Z.add_0_r; auto; try lia.
  rewrite rep_chead0. eapply ring_ok_set_head; [exact rep_ok0|lia].
Qed.

Lemma rep_release r p c sp :
  ring_rep r p c sp ->
  runs (Consumer_release c) r (fun _ r' => ring_rep r' p c (spec_release sp)).
Proof. intros (base & ph & ch & hist & H). do 4 eexists. by apply rep_release_at. Qed.

Lemma rep_release_with_full r p c sp :
  ring_rep r p c sp ->
  runs (Consumer_release_with_full c) r (fun b r' =>
    b = (spec_release_full sp).1 /\ ring_rep r' p c (spec_release_full sp).2).
Proof.
  intros (base & ph & ch & hist & H). rep_facts H.
  unfold Consumer_release_with_full, spec_release_full.
  eapply runs_seq; [eapply runs_pw; [exact H|apply run_enable]|]. intros u r1 [_ H1].
  pose proof (rep_ok _ _ _ _ _ _ _ _ H1) as Hok1. sp_simpl.
  apply runs_bind. eapply runs_intro; [reflexivity|].
  rewrite (ok_head _ _ _ _ _ _ _ Hok1), (rep_chead _ _ _ _ _ _ _ _ H), cursor_eqb by lia.
  replace (ph + sp_held sp =? ph) with (sp_held sp =? 0) by lia.
  destruct (Z.eqb_spec (sp_held sp) 0) as [E|E]; [apply runs_ret; split; [done|]; red; eauto|].
  apply runs_bind. eapply runs_intro; [apply run_Ring_capacity, Hok1|].
  rewrite (rep_cached_tail _ _ _ _ _ _ _ _ H), wrapping_sub_wrap by lia.
  rewrite <- (rep_chead _ _ _ _ _ _ _ _ H).
  apply runs_bind. eapply runs_intro; [reflexivity|]. apply rep_release_at in H1.
  eapply runs_mono; [eapply runs_pw; [exact H1|apply run_take]|].
  intros b r2 [-> H2]. unfold spec_take_pw. sp_simpl. split; [f_equal; lia|].
  red. do 4 eexists. exact H2.
Qed.

Lemma rep_refill r p c sp :
  ring_rep r p c sp ->
  runs (let* c := (if consumer_head c =? consumer_cached_tail c
                   then let* '(_, c) := Consumer_prefetch c in Ret c else Ret c) in Ret c) r
    (fun c' r' => ring_rep r' p c' (spec_refill sp)).
Proof.
  intros H. pose proof H as (base & ph & ch & hist & H').
  unfold spec_refill. rewrite (window_eqb _ _ _ _ _ _ _ _ H'). apply runs_bind.
  destruct (sp_window sp) as [|v w]; [|apply runs_ret, runs_ret; exact H].
  eapply runs_seq; [eapply rep_prefetch, H|]. intros [n c'] r1 [_ H1]. by apply runs_ret, runs_ret.
Qed.

Lemma rep_prefetch_and_pop r p c sp :
  ring_rep r p c sp ->
  runs (Consumer_prefetch_and_pop c) r (fun '(v, c') r' =>
    v = (spec_prefetch_pop sp).1 /\ ring_rep r' p c' (spec_prefetch_pop sp).2).
Proof.
  intros H. pose proof (rep_refill _ _ _ _ H) as Hf. apply runs_elim in Hf as (c1 & r1 & E1 & H1).
  rewrite run_bind in E1. unfold Consumer_prefetch_and_pop, spec_prefetch_pop.
  apply runs_bind. destruct (run _ r) as [[c0|] r0] eqn:E0; [|done].
  simpl in E1. simplify_eq. eapply runs_intro; [exact E0|].
  eapply runs_seq; [eapply rep_pop, H1|]. intros [v c2] r2 [-> H2].
  destruct (spec_pop (spec_refill sp)) as [[v|] sp2]; cbn [fst snd] in *.
  - eapply runs_seq; [eapply rep_release, H2|]. intros u r3 H3. by apply runs_ret.
  - by apply runs_ret.
Qed.

Lemma rep_prefetch_and_pop_with_full r p c sp :
  ring_rep r p c sp ->
  runs (Consumer_prefetch_and_pop_with_full c) r (fun '(v, c') r' =>
    v = (spec_prefetch_pop_full sp).1 /\ ring_rep r' p c' (spec_prefetch_pop_full sp).2).
Proof.
  intros (base & ph & ch & hist & H). unfold Consumer_prefetch_and_pop_with_full, spec_prefetch_pop_full.
  eapply runs_seq; [eapply runs_pw; [exact H|apply run_enable]|]. intros u r0 [_ H0].
  set (sp0 := sp_with_pw _ sp) in *.
  assert (Hr0 : ring_rep r0 p c sp0) by (red; eauto).
  pose proof (rep_refill _ _ _ _ Hr0) as Hf. apply runs_elim in Hf as (c1 & r1 & E1 & H1).
  rewrite run_bind in E1. apply runs_bind. destruct (run _ r0) as [[c0|] r0'] eqn:E0; [|done].
  simpl in E1. simplify_eq. eapply runs_intro; [exact E0|].
  pose proof H1 as (base1 & ph1 & ch1 & hist1 & H1').
  apply runs_bind. eapply runs_intro; [apply run_Ring_capacity, (rep_ok _ _ _ _ _ _ _ _ H1')|].
  rewrite (window_count _ _ _ _ _ _ _ _ H1').
  assert (Ecap : sp_cap (spec_refill sp0) = sp_cap sp).
  { unfold spec_refill, spec_prefetch, sp0. sp_simpl. destruct (sp_window sp); [|done].
    cbn [app]. by destruct (sp_published sp). }
  rewrite Ecap.
  eapply runs_seq; [eapply rep_pop, H1|]. intros [v c2] r2 [-> H2].
  destruct (spec_pop (spec_refill sp0)) as [[v|] sp2]; cbn [fst snd] in *; [|by apply runs_ret].
  eapply runs_seq; [eapply rep_release, H2|]. intros u' r3 (base3 & ph3 & ch3 & hist3 & H3).
  eapply runs_seq; [eapply runs_pw; [exact H3|apply run_take]|]. intros b r4 [-> H4].
  apply runs_ret. unfold spec_take_pw. split; [done|]. red; eauto.
Qed.

Lemma visible_eqb base ph ch hist r p c sp :
  ring_rep_at base ph ch hist r p c sp ->
  (consumer_head c =? ring_tail r) = sp_visible_empty sp.
Proof.
  intros H. rep_facts H.
  rewrite (rep_chead _ _ _ _ _ _ _ _ H), (ok_tail _ _ _ _ _ _ _ (rep_ok _ _ _ _ _ _ _ _ H)).
  rewrite cursor_eqb_sym by lia. unfold sp_visible_empty.
  destruct (sp_window sp) as [|x l], (sp_published sp) as [|y l'];
    rewrite ?zlength_nil, ?zlength_cons in *;
    try pose proof (zlength_nonneg l); try pose proof (zlength_nonneg l'); lia.
Qed.

Lemma runs_consumer_is_empty base ph ch hist r p c sp :
  ring_rep_at base ph ch hist r p c sp ->
  runs (Ring_consumer_is_empty (consumer_head c) (consumer_cached_tail c)) r (fun b r' =>
    r' = r /\ b = sp_visible_empty sp).
Proof.
  intros H. unfold Ring_consumer_is_empty. rewrite (window_eqb _ _ _ _ _ _ _ _ H).
  pose proof (visible_eqb _ _ _ _ _ _ _ _ H) as Hv. unfold sp_visible_empty in *.
  destruct (sp_window sp); [|by apply runs_ret].
  apply runs_bind. eapply runs_intro; [reflexivity|]. apply runs_ret. by rewrite Z.eqb_sym.
Qed.

Lemma rep_is_empty r p c sp :
  ring_rep r p c sp ->
  runs (Consumer_is_empty c) r (fun b r' =>
    b = (spec_is_empty sp).1 /\ ring_rep r' p c (spec_is_empty sp).2).
Proof.
  intros (base & ph & ch & hist & H). unfold Consumer_is_empty, spec_is_empty. cbn [fst snd].
  eapply runs_seq; [eapply runs_consumer_is_empty, H|]. intros b r1 [-> ->].
  destruct (sp_visible_empty sp) eqn:Ev; cbn [negb]; [|apply runs_ret; split; [done|]; red; eauto].
  eapply runs_seq; [eapply runs_cw; [exact H|apply run_register]|]. intros reg r2 [-> H2].
  destruct (waiter_enabled _); cbn [negb]; [|apply runs_ret; split; [done|]; red; eauto].
  eapply runs_mono; [eapply runs_consumer_is_empty, H2|]. intros b r3 [-> ->].
  split; [done|]. red; eauto.
Qed.

(** ** One operation, then any sequence of operations *)

Lemma rep_drops r p c sp pd cd :
  ring_rep r p c sp ->
  ring_rep (set_producer_dropped pd (set_consumer_dropped cd r)) p c (sp_with_drops pd cd sp).
Proof. intros (base & ph & ch & hist & H). red. exists base, ph, ch, hist. keep_rep H. Qed.

Lemma rep_drop_flags r p c sp :
  ring_rep r p c sp ->
  ring_producer_dropped r = sp_producer_dropped sp /\ ring_consumer_dropped r = sp_consumer_dropped sp.
Proof. intros (base & ph & ch & hist & []). auto. Qed.

Lemma rep_producer_close r p c sp :
  ring_rep r p c sp ->
  runs (Producer_close p) r (fun _ r' =>
    ring_rep r' p c (sp_with_drops true (sp_consumer_dropped sp) (spec_flush sp))).
Proof.
  intros H. eapply runs_seq; [eapply runs_flush, H|]. intros u r1 H1.
  eapply runs_intro; [reflexivity|]. pose proof (rep_drop_flags _ _ _ _ H1) as [_ E].
  apply (rep_drops _ _ _ _ true (sp_consumer_dropped sp)) in H1.
  destruct r1; simpl in *. rewrite E in *. exact H1.
Qed.

Lemma rep_consumer_close r p c sp :
  ring_rep r p c sp ->
  runs (Consumer_close c) r (fun _ r' =>
    ring_rep r' p c (sp_with_drops (sp_producer_dropped sp) true (spec_release sp))).
Proof.
  intros H. eapply runs_seq; [eapply rep_release, H|]. intros u r1 H1.
  eapply runs_intro; [reflexivity|]. pose proof (rep_drop_flags _ _ _ _ H1) as [E _].
  apply (rep_drops _ _ _ _ (sp_producer_dropped sp) true) in H1.
  destruct r1; simpl in *. rewrite E in *. exact H1.
Qed.

(** Reads that leave everything as it is. *)
Lemma rep_reads r p c sp :
  ring_rep r p c sp ->
  run (Producer_len p) r = (Done (sp_size sp), r) /\
  run (Producer_is_empty p) r = (Done (sp_size sp =? 0), r) /\
  run (Consumer_len c) r = (Done (zlength (sp_window sp) + zlength (sp_published sp)), r) /\
  run (Consumer_is_disconnected c) r = (Done (sp_producer_dropped sp && sp_visible_empty sp), r) /\
  run Consumer_capacity r = (Done (sp_cap sp), r).
Proof.
  intros (base & ph & ch & hist & H). rep_facts H. pose proof (rep_ok _ _ _ _ _ _ _ _ H) as Hok.
  unfold sp_size. split_and!; simpl.
  - rewrite (rep_cursor _ _ _ _ _ _ _ _ H), (ok_head _ _ _ _ _ _ _ Hok), wrapping_sub_wrap by lia.
    do 2 f_equal. lia.
  - rewrite (rep_cursor _ _ _ _ _ _ _ _ H), (ok_head _ _ _ _ _ _ _ Hok), cursor_eqb by lia.
    do 2 f_equal. lia.
  - rewrite (rep_chead _ _ _ _ _ _ _ _ H), (ok_tail _ _ _ _ _ _ _ Hok), wrapping_sub_wrap by lia.
    do 2 f_equal. lia.
  - rewrite (rep_pd _ _ _ _ _ _ _ _ H). destruct (sp_producer_dropped sp); [|done].
    simpl. by rewrite (visible_eqb _ _ _ _ _ _ _ _ H).
  - rewrite (ok_mask _ _ _ _ _ _ _ Hok). do 2 f_equal. lia.
Qed.

Lemma spsc_step_refines cmd r p c sp :
  cmd_ok cmd -> ring_rep r p c sp ->
  runs (exec_cmd cmd p c) r (fun '(o, p', c') r' =>
    o = (spec_cmd cmd sp).1 /\ ring_rep r' p' c' (spec_cmd cmd sp).2).
Proof.
  intros Hcmd H. pose proof (rep_reads _ _ _ _ H) as (R1 & R2 & R3 & R4 & R5).
  destruct cmd; cbn [exec_cmd spec_cmd cmd_ok] in *.
  - eapply runs_seq; [eapply rep_push, H|]. intros [res p'] r' [-> ?].
    apply runs_ret. by destruct (spec_push v sp).
  - eapply runs_seq; [eapply runs_flush, H|]. intros u r' ?. by apply runs_ret.
  - eapply runs_seq; [eapply rep_flush_and_check, H|]. intros [res p'] r' [-> ?].
    apply runs_ret. by destruct (spec_flush_check sp).
  - eapply runs_seq; [eapply rep_push_and_flush, H|]. intros [res p'] r' [-> ?].
    apply runs_ret. by destruct (spec_push_flush v sp).
  - eapply runs_seq; [eapply rep_is_full, H|]. intros [b p'] r' [-> ?]. by apply runs_ret.
  - apply runs_bind. eapply runs_intro; [exact R1|]. by apply runs_ret.
  - apply runs_bind. eapply runs_intro; [exact R2|]. by apply runs_ret.
  - apply runs_bind. eapply runs_intro; [reflexivity|]. apply runs_ret.
    by destruct (rep_drop_flags _ _ _ _ H) as [_ ->].
  - eapply runs_seq; [eapply rep_producer_close, H|]. intros u r' ?. by apply runs_ret.
  - eapply runs_seq; [eapply rep_prefetch, H|]. intros [n c'] r' [-> ?].
    apply runs_ret. by destruct (spec_prefetch sp).
  - eapply runs_seq; [eapply rep_pop, H|]. intros [v c'] r' [-> ?].
    apply runs_ret. by destruct (spec_pop sp).
  - eapply runs_seq; [eapply rep_pop_into; eauto|]. intros [[n out] c'] r' (-> & -> & ?).
    apply runs_ret. by destruct (spec_pop_into limit sp).
  - eapply runs_seq; [eapply rep_pop_into_while; eauto|]. intros [[[n out] adm'] c'] r'.
    destruct (spec_pop_into_while limit accepts adm sp) as [[vs adm''] sp'].
    intros (-> & -> & -> & ?). by apply runs_ret.
  - eapply runs_seq; [eapply rep_release, H|]. intros u r' ?. by apply runs_ret.
  - eapply runs_seq; [eapply rep_release_with_full, H|]. intros b r' [-> ?].
    apply runs_ret. by destruct (spec_release_full sp).
  - eapply runs_seq; [eapply rep_prefetch_and_pop, H|]. intros [v c'] r' [-> ?].
    apply runs_ret. by destruct (spec_prefetch_pop sp).
  - eapply runs_seq; [eapply rep_prefetch_and_pop_with_full, H|]. intros [v c'] r' [-> ?].
    apply runs_ret. by destruct (spec_prefetch_pop_full sp).
  - eapply runs_seq; [eapply rep_is_empty, H|]. intros b r' [-> ?]. by apply runs_ret.
  - apply runs_bind. eapply runs_intro; [exact R4|]. by apply runs_ret.
  - apply runs_bind. eapply runs_intro; [exact R3|]. by apply runs_ret.
  - apply runs_bind. eapply runs_intro; [exact R5|]. by apply runs_ret.
  - eapply runs_seq; [eapply rep_consumer_close, H|]. intros u r' ?. by apply runs_ret.
Qed.

Lemma spsc_cmds_refine cmds r p c sp :
  Forall cmd_ok cmds -> ring_rep r p c sp ->
  runs (exec_cmds cmds p c) r (fun '(os, p', c') r' =>
    os = (spec_cmds cmds sp).1 /\ ring_rep r' p' c' (spec_cmds cmds sp).2).
Proof.
  intros Hok. revert r p c sp. induction Hok as [|cmd cmds Hc Hok IH]; intros r p c sp H.
  - by apply runs_ret.
  - cbn [exec_cmds spec_cmds]. eapply runs_seq; [eapply spsc_step_refines; eauto|].
    intros [[o p1] c1] r1 [-> H1]. destruct (spec_cmd cmd sp) as [o sp1]. cbn [fst snd] in *.
    eapply runs_seq; [eapply IH, H1|]. intros [[os p2] c2] r2 [-> H2]. apply runs_ret.
    by destruct (spec_cmds cmds sp1).
Qed.

(** The empty queue a constructor returns. *)
Definition spec_init (cap : Z) : spsc_spec T :=
  mkSpec cap 0 [] [] [] Waiter_new Waiter_new false false.

Lemma spsc_init_rep_at capacity cursor :
  0 < capacity <= 2 ^ 62 -> is_usize cursor ->
  exists cap ring, valid_cap cap /\ capacity <= cap < 2 * capacity /\
    loom_spsc_with_cursors (T := T) capacity cursor =
      Done (ring, mkProducer cursor cursor, mkConsumer cursor cursor) /\
    (cursor = 0 -> spsc (T := T) capacity = Done (ring, mkProducer 0 0, mkConsumer 0 0)) /\
    ring_rep_at cursor 0 0 [] ring (mkProducer cursor cursor) (mkConsumer cursor cursor) (spec_init cap).
Proof.
  intros Hc Hu. destruct (Ring_new_ok (T := T) capacity Hc) as (cap & Hv & Hr & E).
  pose proof (valid_cap_range _ Hv). exists cap. eexists. unfold loom_spsc_with_cursors, spsc.
  rewrite E. split_and!; [done|lia|lia|reflexivity|by intros ->|].
  assert (Hw : forall x, x = 0 -> wrap (cursor + x) = cursor)
    by (intros x ->; rewrite Z.add_0_r; by apply wrap_small).
  split; simpl; auto; try (symmetry; apply Hw); try (unfold zlength; simpl; lia).
  split; simpl; auto; try (symmetry; apply Hw); try (unfold zlength; simpl; lia).
  by apply slots_empty.
Qed.

Lemma spsc_init_rep capacity cursor :
  0 < capacity <= 2 ^ 62 -> is_usize cursor ->
  exists cap ring, valid_cap cap /\ capacity <= cap < 2 * capacity /\
    loom_spsc_with_cursors (T := T) capacity cursor =
      Done (ring, mkProducer cursor cursor, mkConsumer cursor cursor) /\
    (cursor = 0 -> spsc (T := T) capacity = Done (ring, mkProducer 0 0, mkConsumer 0 0)) /\
    ring_rep ring (mkProducer cursor cursor) (mkConsumer cursor cursor) (spec_init cap).
Proof.
  intros Hc Hu. destruct (spsc_init_rep_at capacity cursor Hc Hu) as (cap & ring & ? & ? & ? & ? & ?).
  exists cap, ring. split_and!; auto; try lia. red. eauto.
Qed.

(** ** What the abstract queue keeps *)

(** The values a run accepted from the producer and handed to the consumer. *)
Definition cmd_accepted (cmd : spsc_cmd T Adm) (o : spsc_out T Adm) : list T :=
  match cmd, o with
  | CPush v, OPush (Ok _) | CPushFlush v, OPush (Ok _) => [v]
  | _, _ => []
  end.
Definition cmd_delivered (cmd : spsc_cmd T Adm) (o : spsc_out T Adm) : list T :=
  match cmd, o with
  | _, OItem (Some v) => [v]
  | _, OItemWake (Some (v, _)) => [v]
  | CPopInto output _, OBatch _ out => drop (length output) out
  | CPopIntoWhile output _ _ _, OBatchWhile _ out _ => drop (length output) out
  | _, _ => []
  end.
Definition accepted (cmds : list (spsc_cmd T Adm)) (os : list (spsc_out T Adm)) : list T :=
  concat (zip_with cmd_accepted cmds os).
Definition delivered (cmds : list (spsc_cmd T Adm)) (os : list (spsc_out T Adm)) : list T :=
  concat (zip_with cmd_delivered cmds os).

Definition sp_items sp : list T := sp_window sp ++ sp_published sp ++ sp_pending sp.

Lemma items_refill sp : sp_items (spec_refill sp) = sp_items sp.
Proof.
  unfold spec_refill, spec_prefetch, sp_items. destruct (sp_window sp) eqn:E; [|by rewrite E].
  simpl. by destruct (sp_published sp).
Qed.

Lemma spec_push_items v sp :
  sp_items (spec_push v sp).2 = sp_items sp ++ match (spec_push v sp).1 with Ok _ => [v] | _ => [] end.
Proof.
  unfold spec_push, sp_items. destruct (sp_full sp); simpl; by rewrite ?app_nil_r, <- ?app_assoc.
Qed.

Lemma spec_pop_items sp :
  sp_items sp = match (spec_pop sp).1 with Some v => [v] | None => [] end ++ sp_items (spec_pop sp).2.
Proof. unfold spec_pop, sp_items. destruct (sp_window sp) eqn:E; simpl; by rewrite ?E. Qed.

Lemma spec_flush_items sp : sp_items (spec_flush sp) = sp_items sp.
Proof. unfold sp_items. simpl. by rewrite app_nil_r. Qed.

Lemma spec_step_conserves cmd sp :
  sp_items sp ++ cmd_accepted cmd (spec_cmd cmd sp).1 =
  cmd_delivered cmd (spec_cmd cmd sp).1 ++ sp_items (spec_cmd cmd sp).2.
Proof.
  destruct cmd; cbn [spec_cmd]; rewrite ?app_nil_r; try done.
  - pose proof (spec_push_items v sp). by destruct (spec_push v sp) as [[[]|] ?].
  - unfold sp_items. simpl. by rewrite !app_nil_r.
  - unfold spec_flush_check, sp_items. destruct (sp_pending sp) eqn:E; simpl; by rewrite ?E, ?app_nil_r.
  - pose proof (spec_push_items v sp). unfold spec_push_flush.
    destruct (spec_push v sp) as [[[]|] ?]; simpl in *; rewrite ?spec_flush_items; done.
  - unfold spec_is_full. by destruct (sp_full sp).
  - unfold sp_items. simpl. by rewrite app_nil_r.
  - unfold spec_prefetch, sp_items. simpl. destruct (sp_window sp); [destruct (sp_published sp)|];
      simpl; by rewrite ?app_nil_r, <- ?app_assoc.
  - rewrite (spec_pop_items sp) at 1. destruct (spec_pop sp) as [[] ?]; simpl; by rewrite ?app_nil_r.
  - unfold spec_pop_into, spec_pop_n, sp_items. simpl. rewrite drop_app_length, ?app_nil_r, (app_assoc (take _ _)), take_drop.
    done.
  - unfold spec_pop_into_while, spec_pop_n, sp_items.
    destruct (accept_prefix _ _ _) as [n adm']. simpl. rewrite drop_app_length, ?app_nil_r, (app_assoc (take _ _)), take_drop. done.
  - unfold spec_release_full. by destruct (sp_held sp =? 0).
  - unfold spec_prefetch_pop. rewrite <- items_refill, (spec_pop_items (spec_refill sp)).
    destruct (spec_pop (spec_refill sp)) as [[] ?]; simpl; by rewrite ?app_nil_r.
  - unfold spec_prefetch_pop_full. set (sp0 := sp_with_pw _ sp).
    change (sp_items sp) with (sp_items sp0). rewrite <- items_refill, (spec_pop_items (spec_refill sp0)).
    destruct (spec_pop (spec_refill sp0)) as [[] ?]; simpl; by rewrite ?app_nil_r.
  - unfold spec_is_empty. by destruct (sp_visible_empty sp).
Qed.

Lemma spec_conserves cmds sp :
  sp_items sp ++ accepted cmds (spec_cmds cmds sp).1 =
  delivered cmds (spec_cmds cmds sp).1 ++ sp_items (spec_cmds cmds sp).2.
Proof.
  unfold accepted, delivered. revert sp. induction cmds as [|cmd cmds IH]; intros sp; simpl.
  - by rewrite app_nil_r.
  - pose proof (spec_step_conserves cmd sp) as Hs.
    destruct (spec_cmd cmd sp) as [o sp1]. specialize (IH sp1).
    destruct (spec_cmds cmds sp1) as [os sp2]. simpl in *.
    by rewrite app_assoc, Hs, <- !app_assoc, IH.
Qed.

(** No operation changes the capacity. *)
Lemma spec_cmd_cap cmd sp : sp_cap (spec_cmd cmd sp).2 = sp_cap sp.
Proof.
  destruct cmd; cbn [spec_cmd]; try done;
    unfold spec_push, spec_flush_check, spec_push_flush, spec_is_full, spec_prefetch, spec_pop,
      spec_pop_into, spec_pop_into_while, spec_pop_n, spec_release_full, spec_prefetch_pop,
      spec_prefetch_pop_full, spec_is_empty, spec_push, spec_pop, spec_take_pw, spec_refill, spec_prefetch;
    repeat (simpl; case_match; simplify_eq); done.
Qed.

Lemma spec_cmds_cap cmds sp : sp_cap (spec_cmds cmds sp).2 = sp_cap sp.
Proof.
  revert sp. induction cmds as [|cmd cmds IH]; intros sp; simpl; [done|].
  pose proof (spec_cmd_cap cmd sp). destruct (spec_cmd cmd sp) as [o sp1]. specialize (IH sp1).
  destruct (spec_cmds cmds sp1). simpl in *. congruence.
Qed.

End refinement.
