(* ===== verification/YRingThm.v ===== *)
(** * The theorems about sequential use of the SPSC ring

    What a caller of [spsc] that interleaves calls to both endpoints in any
    order can rely on: the outputs are those of the abstract queue, items come
    out in the order they went in, nothing is lost or duplicated up to the end
    of the ring's life, and construction accepts exactly the capacities whose
    next power of two fits half the cursor range. *)

From S2P Require Import Prelude Prog YRing YRingInv YRingSpec.
Local Open Scope prog_scope.

Section theorems.
Context {T Adm : Type}.
Implicit Types (hist : list T) (r : Ring T) (sp : spsc_spec T).

(** ** The end of the ring's life *)

(** Both handles dropped (in either order), then the last reference to the
    ring. *)
Definition drop_endpoints (producer_first : bool) (p : Producer) (c : Consumer) : prog (Ring T) (list T) :=
  let* _ := (if producer_first then
               let* _ := Producer_drop p in Consumer_drop c
             else let* _ := Consumer_drop c in Producer_drop p) in
  Ring_drop.

Lemma drop_loop_ok cap base t hist fuel : forall i r,
  valid_cap cap -> ring_mask r = cap - 1 -> slots_ok cap base i hist (ring_buf r) ->
  0 <= i -> t = zlength hist -> i + Z.of_nat fuel = t -> t <= i + cap ->
  runs (Ring_drop_loop fuel (wrap (base + i)) (wrap (base + t))) r (fun vs r' =>
    vs = drop (Z.to_nat i) hist /\ ring_tail r' = ring_tail r /\ ring_head r' = ring_head r /\
    ring_mask r' = cap - 1 /\ slots_ok cap base t hist (ring_buf r')).
Proof.
  induction fuel as [|fuel IH]; intros i r Hcap Hm Hs Hi Ht Hf Hle;
    pose proof (valid_cap_range _ Hcap); cbn [Ring_drop_loop];
    rewrite cursor_eqb_sym by lia.
  - replace i with t in * by lia. rewrite Z.eqb_refl. apply runs_ret.
    split_and!; auto. rewrite drop_ge; [done|]. unfold zlength in *. lia.
  - destruct (Z.eqb_spec i t); [lia|].
    destruct (zlookup_is_Some hist i) as [v Hv]; [lia|].
    apply runs_bind. eapply runs_intro; [reflexivity|]. cbn [fst snd].
    rewrite Hm, (index_mod _ _ Hcap).
    apply runs_bind. eapply runs_intro.
    { cbn. rewrite (slots_read _ _ _ _ _ Hcap Hs), Hv. reflexivity. }
    rewrite cursor_add. eapply runs_seq.
    + apply (IH (i + 1)); cbn; auto; try lia. apply slots_take; auto; lia.
    + intros vs r' (-> & E1 & E2 & E3 & Hs'). apply runs_ret. split_and!; auto.
      unfold zlookup in Hv. destruct (Z.ltb_spec i 0); [lia|].
      rewrite (drop_S _ _ _ Hv). do 2 f_equal. lia.
Qed.

Lemma drop_remaining_ok cap base h hist r :
  ring_ok cap base h h (zlength hist) hist r ->
  runs Ring_drop_remaining r (fun vs r' =>
    vs = drop (Z.to_nat h) hist /\
    ring_ok cap base (zlength hist) (zlength hist) (zlength hist) hist r').
Proof.
  intros [Hcap Hm Ho Hh Ht Hs]. pose proof (valid_cap_range _ Hcap). unfold Ring_drop_remaining.
  apply runs_bind. eapply runs_intro; [reflexivity|]. apply runs_bind. eapply runs_intro; [reflexivity|].
  apply runs_bind. eapply runs_intro; [reflexivity|].
  cbn [fst snd]. rewrite Hh, Ht. rewrite wrapping_sub_wrap by lia.
  eapply runs_mono; [eapply drop_loop_ok; cbn; eauto; lia|].
  cbn. intros vs r' (-> & E1 & E2 & E3 & Hs'). split; [done|].
  split; auto; try congruence. lia.
Qed.

(** Dropping the ring disposes of what the abstract queue holds, when both
    handles have published what they did. *)
Lemma ring_drop_items r p c sp :
  ring_rep r p c sp -> sp_held sp = 0 -> sp_pending sp = [] ->
  runs Ring_drop r (fun vs r' => vs = sp_items sp /\ run Ring_drop r' = (Done [], r')).
Proof.
  intros (base & ph & ch & hist & H1) Eh Ep. pose proof (rep_length _ _ _ _ _ _ _ _ H1) as Hl.
  pose proof (rep_items _ _ _ _ _ _ _ _ H1) as Hi. pose proof (rep_ok _ _ _ _ _ _ _ _ H1) as Hok.
  rewrite Eh, Ep in *. rewrite (zlength_nil (A:=T)) in Hl. rewrite !Z.add_0_r in Hl. rewrite !Z.add_0_r in Hok, Hi.
  rewrite <- Hl in Hok. unfold Ring_drop.
  eapply runs_mono; [eapply drop_remaining_ok, Hok|]. intros vs r' [-> Hok'].
  split; [rewrite Hi; unfold sp_items; by rewrite Ep|].
  unfold Ring_drop_remaining. cbn.
  rewrite (ok_tail _ _ _ _ _ _ _ Hok'), (ok_head _ _ _ _ _ _ _ Hok').
  rewrite wrapping_sub_wrap by (pose proof usize_mod_pos; lia). rewrite Z.sub_diag. change (Z.to_nat 0) with O. unfold Ring_drop_loop.
  rewrite Z.eqb_refl. cbn [run]. f_equal. pose proof (ok_head _ _ _ _ _ _ _ Hok') as E.
  destruct r'; unfold set_head; cbn in *. by rewrite E.
Qed.

(** Dropping what the abstract queue still holds, from any related state. *)
Lemma drop_endpoints_items b r p c sp :
  ring_rep r p c sp ->
  runs (drop_endpoints b p c) r (fun vs r' =>
    vs = sp_items sp /\ run Ring_drop r' = (Done [], r')).
Proof.
  intros H. unfold drop_endpoints.
  set (sp' := sp_with_drops true true (spec_release (spec_flush sp))).
  eapply (runs_seq _ _ _ (fun _ r' => ring_rep r' p c sp')).
  { destruct b; unfold Producer_drop, Consumer_drop.
    - eapply runs_seq; [eapply rep_producer_close, H|]. intros u r1 H1.
      eapply runs_mono; [eapply rep_consumer_close, H1|]. done.
    - eapply runs_seq; [eapply rep_consumer_close, H|]. intros u r1 H1.
      eapply runs_mono; [eapply rep_producer_close, H1|]. done. }
  intros u r1 H1. eapply runs_mono; [by eapply ring_drop_items|]. intros vs r' [-> E].
  split; [|done]. unfold sp', sp_items. cbn. by rewrite app_nil_r.
Qed.

(** ** Claims *)

(** C7: for every capacity the constructor admits, every starting cursor
    (including cursors about to wrap around) and every sequence of operations
    of the two endpoints, the ring never faults and returns exactly what the
    abstract bounded queue returns, including wake hints. *)
Theorem spsc_refines_queue (capacity cursor : Z) (cmds : list (spsc_cmd T Adm)) :
  0 < capacity <= 2 ^ 62 -> is_usize cursor -> Forall cmd_ok cmds ->
  exists cap ring, valid_cap cap /\ capacity <= cap < 2 * capacity /\
    loom_spsc_with_cursors capacity cursor =
      Done (ring, mkProducer cursor cursor, mkConsumer cursor cursor) /\
    runs (exec_cmds cmds (mkProducer cursor cursor) (mkConsumer cursor cursor)) ring
      (fun '(os, p, c) r => os = (spec_cmds cmds (spec_init cap)).1 /\
         ring_rep r p c (spec_cmds cmds (spec_init cap)).2).
Proof.
  intros Hc Hu Hok. destruct (spsc_init_rep (T := T) capacity cursor Hc Hu)
    as (cap & ring & Hv & Hr & E & _ & H).
  exists cap, ring. split_and!; auto; try lia. by apply spsc_cmds_refine.
Qed.

(** C8: conservation up to the last drop.  After any sequence of operations
    on a ring made by [spsc], dropping both handles in either order and then
    the ring drops exactly the items that were accepted and not delivered, in
    order: what was accepted is what was delivered followed by what was
    dropped.  No step faults (no slot is read twice or uninitialised), and
    dropping again drops nothing. *)
Theorem spsc_drop_exactly_once (capacity : Z) (cmds : list (spsc_cmd T Adm)) (producer_first : bool) :
  0 < capacity <= 2 ^ 62 -> Forall cmd_ok cmds ->
  exists ring, spsc capacity = Done (ring, mkProducer 0 0, mkConsumer 0 0) /\
    runs (let* '(os, p, c) := exec_cmds cmds (mkProducer 0 0) (mkConsumer 0 0) in
          let* dropped := drop_endpoints producer_first p c in Ret (os, dropped)) ring
      (fun '(os, dropped) r => accepted cmds os = delivered cmds os ++ dropped /\
         run Ring_drop r = (Done [], r)).
Proof.
  intros Hc Hok. destruct (spsc_init_rep (T := T) capacity 0 Hc ltac:(usize))
    as (cap & ring & Hv & Hr & _ & E & H).
  exists ring. split; [auto|]. eapply runs_seq; [eapply spsc_cmds_refine; eauto|].
  intros [[os p] c] r1 [-> H1]. eapply runs_seq; [eapply drop_endpoints_items, H1|].
  intros dropped r2 [-> E2]. apply runs_ret. split; [|done].
  by rewrite <- (spec_conserves cmds (spec_init cap)).
Qed.

(** C9: the ring is bounded: after any sequence of operations it holds at
    most its capacity, the reported length never exceeds it, and a push is
    refused exactly when the unreleased items fill the capacity. *)
Theorem spsc_bounded (capacity cursor : Z) (cmds : list (spsc_cmd T Adm)) (v : T) :
  0 < capacity <= 2 ^ 62 -> is_usize cursor -> Forall cmd_ok cmds ->
  exists cap ring, capacity <= cap /\
    loom_spsc_with_cursors capacity cursor =
      Done (ring, mkProducer cursor cursor, mkConsumer cursor cursor) /\
    runs (let* '(_, p, c) := exec_cmds cmds (mkProducer cursor cursor) (mkConsumer cursor cursor) in
          let* n := Producer_len p in let* m := Consumer_len c in
          let* '(res, _) := Producer_push p v in Ret (n, m, res)) ring
      (fun '(n, m, res) r => 0 <= m <= n /\ n <= cap /\
         res = (if n =? cap then Err v else Ok tt)).
Proof.
  intros Hc Hu Hok. destruct (spsc_init_rep (T := T) capacity cursor Hc Hu)
    as (cap & ring & Hv & Hr & E & _ & H).
  exists cap, ring. split_and!; auto; try lia.
  eapply runs_seq; [by eapply spsc_cmds_refine|]. intros [[os p] c] r1 [_ H1].
  assert (Ecap : sp_cap (spec_cmds cmds (spec_init cap)).2 = cap) by apply spec_cmds_cap.
  destruct (rep_reads _ _ _ _ H1) as (R1 & _ & R3 & _).
  apply runs_bind. eapply runs_intro; [exact R1|]. apply runs_bind. eapply runs_intro; [exact R3|].
  eapply runs_seq; [eapply rep_push, H1|]. intros [res p'] r2 [-> _]. apply runs_ret.
  destruct H1 as (base & ph & ch & hist & H1). rep_facts H1. rewrite Ecap in *. unfold sp_size.
  split_and!; try lia. unfold spec_push, sp_full, sp_size. rewrite Ecap.
  set (n := _ + _ + _ + _). assert (n <= cap) by (unfold n; lia). clearbody n.
  destruct (Z.eqb_spec n cap), (n >=? cap) eqn:En; try lia; done.
Qed.

(** C11: the constructor accepts exactly the capacities from 1 to half the
    cursor range after rounding: zero, a capacity without a next power of
    two, and one whose next power of two exceeds [usize::MAX / 2] panic. *)
Theorem spsc_accepts_iff (capacity : Z) :
  is_usize capacity ->
  (exists ring, spsc (T := T) capacity = Done (ring, mkProducer 0 0, mkConsumer 0 0))
    <-> 0 < capacity <= 2 ^ 62.
Proof.
  intros Hu. split.
  - intros [ring E]. unfold spsc, Ring_new in E. destruct (Z.gtb_spec capacity 0) as [Hp|]; [|done].
    simpl in E. destruct (checked_next_power_of_two capacity) as [cap|] eqn:En; [|done].
    destruct (Z.leb_spec cap (usize_max / 2)) as [Hle|]; [|done]. split; [lia|].
    destruct (next_power_of_two_spec _ _ Hp En) as (k & Hk & -> & Hn & _).
    etransitivity; [exact Hn|]. apply Z.pow_le_mono_r; [lia|].
    destruct (Z.le_gt_cases k 62) as [|Hgt]; [done|]. exfalso. replace k with 63 in Hle by lia.
    change (usize_max / 2) with 9223372036854775807 in Hle. lia.
  - intros Hc. destruct (spsc_init_rep (T := T) capacity 0 Hc ltac:(usize))
      as (cap & ring & _ & _ & _ & E & _). eauto.
Qed.

End theorems.

(** ** Witnesses *)

(** Three pushes into a ring of two with cursors at the top of the word: the
    third is refused, and both items come out in order. *)
Definition demo_cmds : list (spsc_cmd nat unit) :=
  [CPush 1%nat; CPush 2%nat; CPush 3%nat; CFlushCheck; CPrefetch; CPop; CPopInto [] 7;
   CReleaseFull; CPushFlush 4%nat; CLen].

Lemma demo_cmds_ok : Forall cmd_ok demo_cmds.
Proof. repeat constructor; simpl; lia. Defined.

Lemma spsc_refines_queue_witness :
  exists cap ring, valid_cap cap /\ 2 <= cap < 4 /\
    loom_spsc_with_cursors 2 usize_max =
      Done (ring, mkProducer usize_max usize_max, mkConsumer usize_max usize_max) /\
    runs (exec_cmds demo_cmds (mkProducer usize_max usize_max) (mkConsumer usize_max usize_max)) ring
      (fun '(os, p, c) r => os = (spec_cmds demo_cmds (spec_init cap)).1 /\
         ring_rep r p c (spec_cmds demo_cmds (spec_init cap)).2).
Proof.
  apply (spsc_refines_queue 2 usize_max demo_cmds); [lia|usize|apply demo_cmds_ok].
Defined.

Lemma spsc_drop_exactly_once_witness :
  exists ring, spsc 2 = Done (ring, mkProducer 0 0, mkConsumer 0 0) /\
    runs (let* '(os, p, c) := exec_cmds demo_cmds (mkProducer 0 0) (mkConsumer 0 0) in
          let* dropped := drop_endpoints false p c in Ret (os, dropped)) ring
      (fun '(os, dropped) r => accepted demo_cmds os = delivered demo_cmds os ++ dropped /\
         run Ring_drop r = (Done [], r)).
Proof. apply (spsc_drop_exactly_once 2 demo_cmds false); [lia|apply demo_cmds_ok]. Defined.

Lemma spsc_bounded_witness :
  exists cap ring, 2 <= cap /\
    loom_spsc_with_cursors 2 usize_max =
      Done (ring, mkProducer usize_max usize_max, mkConsumer usize_max usize_max) /\
    runs (let* '(_, p, c) := exec_cmds demo_cmds (mkProducer usize_max usize_max) (mkConsumer usize_max usize_max) in
          let* n := Producer_len p in let* m := Consumer_len c in
          let* '(res, _) := Producer_push p 9%nat in Ret (n, m, res)) ring
      (fun '(n, m, res) r => 0 <= m <= n /\ n <= cap /\
         res = (if n =? cap then Err 9%nat else Ok tt)).
Proof. apply (spsc_bounded 2 usize_max demo_cmds 9%nat); [lia|usize|apply demo_cmds_ok]. Defined.

Lemma spsc_accepts_iff_witness :
  (exists ring, spsc (T := nat) 3 = Done (ring, mkProducer 0 0, mkConsumer 0 0)) <-> 0 < 3 <= 2 ^ 62.
Proof. apply (spsc_accepts_iff 3); usize. Defined.

(** The run of the first witness, evaluated. *)
Example demo_outputs :
  match loom_spsc_with_cursors 2 usize_max with
  | Done (ring, p, c) =>
      match run (exec_cmds demo_cmds p c) ring with
      | (Done (os, _, _), _) => os
      | _ => []
      end
  | _ => []
  end =
  [OPush (Ok tt); OPush (Ok tt); OPush (Err 3%nat); OFlush (Flushed 2 true); OZ 2;
   OItem (Some 1%nat); OBatch 1 [2%nat]; OBool true; OPush (Ok tt); OZ 1].
Proof. vm_compute. reflexivity. Qed.
