(* ===== verification/YRingEquiv.v ===== *)
(** * Bulk pops of the SPSC ring against single pops

    [Consumer_pop_into] and [Consumer_pop_into_while] move a whole run of slots
    out of the ring, in two segments when the run wraps around the end of the
    buffer, and store the read position once.  The reference definitions here
    pop one item at a time.  In every reachable state both leave the same ring,
    the same handle and return the same items. *)

From S2P Require Import Prelude Prog YRing YRingInv YRingSpec.
Local Open Scope prog_scope.

Section equiv.
Context {T Adm : Type}.
Implicit Types (hist : list T) (r : Ring T) (sp : spsc_spec T).

(** ** The reference *)

Fixpoint pop_each (n : nat) (c : Consumer) (output : list T) : prog (Ring T) (Z * list T * Consumer) :=
  match n with
  | O => Ret (0, output, c)
  | S n' =>
      let* '(o, c) := Consumer_pop c in
      match o with
      | None => Ret (0, output, c)
      | Some v =>
          let* '(k, output, c) := pop_each n' c (output ++ [v]) in
          Ret (k + 1, output, c)
      end
  end.

(** The closure sees an item just before it is popped. *)
Fixpoint pop_each_while (accepts : Adm -> T -> bool * Adm) (n : nat) (c : Consumer) (output : list T) (adm : Adm)
    : prog (Ring T) (Z * list T * Adm * Consumer) :=
  match n with
  | O => Ret (0, output, adm, c)
  | S n' =>
      if consumer_head c =? consumer_cached_tail c then Ret (0, output, adm, c)
      else
        let* idx := Ring_index (consumer_head c) in
        let* v := slot_peek idx in
        let '(accept, adm) := accepts adm v in
        if negb accept then Ret (0, output, adm, c)
        else
          let* '(o, c) := Consumer_pop c in
          match o with
          | None => Ret (0, output, adm, c)
          | Some v =>
              let* '(k, output, adm, c) := pop_each_while accepts n' c (output ++ [v]) adm in
              Ret (k + 1, output, adm, c)
          end
  end.

(** ** The ring with slots taken out *)

Definition take_slot (cap base h : Z) r : Ring T := set_buf (zinsert (ring_buf r) ((base + h) mod cap) None) r.

Fixpoint take_slots (cap base h : Z) (n : nat) r : Ring T :=
  match n with
  | O => r
  | S n' => take_slots cap base (h + 1) n' (take_slot cap base h r)
  end.

Lemma take_slots_app cap base n m : forall h r,
  take_slots cap base h (n + m) r = take_slots cap base (h + Z.of_nat n) m (take_slots cap base h n r).
Proof.
  induction n as [|n IH]; intros h r; cbn [take_slots Nat.add].
  - by rewrite Z.add_0_r.
  - rewrite IH. f_equal. lia.
Qed.

Lemma next_item cap base ph h t hist r :
  ring_ok cap base ph h t hist r -> h < t -> exists v l, drop (Z.to_nat h) hist = v :: l /\
    drop (Z.to_nat (h + 1)) hist = l /\ zlookup hist h = Some v /\
    run (slot_take ((base + h) mod cap)) r = (Done v, take_slot cap base h r) /\
    run (slot_peek ((base + h) mod cap)) r = (Done v, r) /\ ring_ok cap base ph (h + 1) t hist (take_slot cap base h r).
Proof.
  intros Hok Hlt. pose proof (ok_order _ _ _ _ _ _ _ Hok) as Ho.
  destruct (drop (Z.to_nat h) hist) as [|v l] eqn:Ed.
  { apply (f_equal length) in Ed. rewrite length_drop in Ed. unfold zlength in *. cbn in Ed. lia. }
  destruct (drop_head hist h v l ltac:(lia) Ed) as [Hv Hd]. destruct (ring_ok_take _ _ _ _ _ _ _ v Hok) as [Ht Hok']; [lia|done|].
  exists v, l. split_and!; auto.
  cbn. by rewrite (slots_read _ _ _ _ _ (ok_cap _ _ _ _ _ _ _ Hok) (ok_slots _ _ _ _ _ _ _ Hok)), Hv.
Qed.

Lemma take_slots_ok cap base ph t hist n : forall h r,
  ring_ok cap base ph h t hist r -> h + Z.of_nat n <= t -> ring_ok cap base ph (h + Z.of_nat n) t hist (take_slots cap base h n r).
Proof.
  induction n as [|n IH]; intros h r Hok Hle; cbn [take_slots].
  - eapply ring_ok_eq; [exact Hok|lia..].
  - destruct (next_item _ _ _ _ _ _ _ Hok) as (v & l & _ & _ & _ & _ & _ & Hok'); [lia|].
    eapply ring_ok_eq; [apply (IH (h + 1)); [exact Hok'|lia]|lia..].
Qed.

(** ** What the bulk moves do to the ring *)

Lemma run_move_slots cap base ph t hist n : forall h r start,
  ring_ok cap base ph h t hist r ->
  (n <> O -> start = (base + h) mod cap) -> start + Z.of_nat n <= cap -> h + Z.of_nat n <= t ->
  run (Ring_move_slots start n) r = (Done (take n (drop (Z.to_nat h) hist)), take_slots cap base h n r).
Proof.
  induction n as [|n IH]; intros h r start Hok Hst Hsum Hle; [done|].
  pose proof (valid_cap_range _ (ok_cap _ _ _ _ _ _ _ Hok)). rewrite (Hst ltac:(done)) in *. cbn [Ring_move_slots take_slots].
  destruct (next_item _ _ _ _ _ _ _ Hok) as (v & l & Ed & Ed' & _ & Et & _ & Hok'); [lia|].
  assert (En : run (Ring_move_slots ((base + h) mod cap + 1) n) (take_slot cap base h r) =
    (Done (take n (drop (Z.to_nat (h + 1)) hist)), take_slots cap base (h + 1) n (take_slot cap base h r))).
  { apply IH; [exact Hok'| |lia|lia]. intros Hn. rewrite Z.add_assoc, mod_succ; lia. }
  rewrite (run_bind_Done _ _ _ _ _ Et), (run_bind_Done _ _ _ _ _ En). by rewrite Ed, Ed'.
Qed.

Lemma run_Ring_pop_into cap base ph h t hist r n output :
  ring_ok cap base ph h t hist r -> h + Z.of_nat n <= t -> Z.of_nat n <= cap ->
  run (Ring_pop_into (wrap (base + h)) (Z.of_nat n) output) r =
    (Done (output ++ take n (drop (Z.to_nat h) hist), wrap (base + (h + Z.of_nat n))), take_slots cap base h n r).
Proof.
  intros Hok Hle Hn. pose proof (ok_cap _ _ _ _ _ _ _ Hok) as Hcap.
  pose proof (valid_cap_range _ Hcap) as Hcr. pose proof (index_range cap (base + h) Hcap) as Hi.
  pose proof (ok_order _ _ _ _ _ _ _ Hok) as Ho. unfold Ring_pop_into.
  rewrite (run_bind_Done _ _ _ _ _ (run_Ring_capacity r cap (ok_mask _ _ _ _ _ _ _ Hok))).
  destruct (Z.leb_spec (Z.of_nat n) cap); [|lia]. cbn [negb]. unfold Ring_index. cbn [bind run load atomic fst snd].
  rewrite (ok_mask _ _ _ _ _ _ _ Hok), index_mod by done. set (first := Z.min (Z.of_nat n) (cap - (base + h) mod cap)).
  assert (Hok1 := take_slots_ok _ _ _ _ _ (Z.to_nat first) _ _ Hok ltac:(lia)).
  erewrite run_bind_Done by (apply (run_move_slots _ _ _ _ _ (Z.to_nat first) _ _ _ Hok); (done || lia)).
  erewrite run_bind_Done by (apply (run_move_slots _ _ _ _ _ (Z.to_nat (Z.of_nat n - first)) _ _ 0 Hok1);
    [intros Hne; rewrite <- (mod_wrap_start base h cap) by lia; do 2 f_equal; lia|lia|lia]).
  cbn [run]. rewrite <- take_slots_app, cursor_add. replace (Z.to_nat first + Z.to_nat (Z.of_nat n - first))%nat with n by lia.
  do 3 f_equal. replace (Z.to_nat (h + Z.of_nat (Z.to_nat first))) with (Z.to_nat h + Z.to_nat first)%nat by lia.
  rewrite <- drop_drop, take_take_drop. do 2 f_equal. lia.
Qed.

(** ** What the single pops do *)

Lemma run_pop cap base ph h t hist r ct :
  ring_ok cap base ph h t hist r -> h < t -> h < ct <= t ->
  exists v l, drop (Z.to_nat h) hist = v :: l /\ drop (Z.to_nat (h + 1)) hist = l /\
    run (slot_peek ((base + h) mod cap)) r = (Done v, r) /\
    run (Consumer_pop (mkConsumer (wrap (base + h)) (wrap (base + ct)))) r =
      (Done (Some v, mkConsumer (wrap (base + (h + 1))) (wrap (base + ct))), take_slot cap base h r) /\
    ring_ok cap base ph (h + 1) t hist (take_slot cap base h r).
Proof.
  intros Hok Hlt Hct. pose proof (ok_order _ _ _ _ _ _ _ Hok) as Ho. pose proof (valid_cap_range _ (ok_cap _ _ _ _ _ _ _ Hok)).
  destruct (next_item _ _ _ _ _ _ _ Hok) as (v & l & Ed & Ed' & _ & Et & Ep & Hok'); [lia|]. exists v, l. split_and!; auto.
  unfold Consumer_pop, Ring_pop. cbn [consumer_head consumer_cached_tail]. rewrite cursor_eqb_sym by lia.
  destruct (Z.eqb_spec h ct); [lia|]. unfold Ring_index. cbn [bind load atomic run fst snd].
  rewrite (ok_mask _ _ _ _ _ _ _ Hok), index_mod, !bind_assoc, (run_bind_Done _ _ _ _ _ Et) by apply Hok.
  cbn [bind run]. by rewrite cursor_add.
Qed.

Lemma run_pop_each cap base ph t hist n : forall h r ct output,
  ring_ok cap base ph h t hist r -> h <= ct <= t ->
  let m := Nat.min n (Z.to_nat (ct - h)) in
  run (pop_each n (mkConsumer (wrap (base + h)) (wrap (base + ct))) output) r =
    (Done (Z.of_nat m, output ++ take m (drop (Z.to_nat h) hist), mkConsumer (wrap (base + (h + Z.of_nat m))) (wrap (base + ct))),
     take_slots cap base h m r).
Proof.
  induction n as [|n IH]; intros h r ct output Hok Hct m.
  { subst m. cbn. by rewrite app_nil_r, Z.add_0_r. }
  pose proof (ok_order _ _ _ _ _ _ _ Hok) as Ho. pose proof (valid_cap_range _ (ok_cap _ _ _ _ _ _ _ Hok)). cbn [pop_each].
  destruct (Z.eq_dec h ct) as [->|Hne].
  - subst m. rewrite Z.sub_diag. unfold Consumer_pop, Ring_pop. cbn [consumer_head consumer_cached_tail]. rewrite Z.eqb_refl. cbn.
    by rewrite app_nil_r, Z.add_0_r.
  - destruct (run_pop _ _ _ _ _ _ _ ct Hok) as (v & l & Ed & Ed' & _ & Ep & Hok'); [lia..|].
    rewrite (run_bind_Done _ _ _ _ _ Ep), (run_bind_Done _ _ _ _ _ (IH _ _ ct (output ++ [v]) Hok' ltac:(lia))). cbn [run].
    replace m with (S (Nat.min n (Z.to_nat (ct - (h + 1))))) by (subst m; lia). rewrite Ed, Ed', <- app_assoc.
    cbn [take take_slots app]. by rewrite Nat2Z.inj_succ, <- Z.add_1_r, <- Z.add_assoc, (Z.add_comm 1).
Qed.

Lemma accepted_bound accepts (adm : Adm) n (l : list T) : ((accept_prefix accepts adm (take n l)).1 <= n)%nat.
Proof. pose proof (accept_prefix_le accepts adm (take n l)). rewrite length_take in *. lia. Qed.

Lemma run_pop_each_while cap base ph t hist accepts n : forall h r ct output (adm : Adm),
  ring_ok cap base ph h t hist r -> h <= ct <= t ->
  let m := Nat.min n (Z.to_nat (ct - h)) in
  let '(k, adm') := accept_prefix accepts adm (take m (drop (Z.to_nat h) hist)) in
  run (pop_each_while accepts n (mkConsumer (wrap (base + h)) (wrap (base + ct))) output adm) r =
    (Done (Z.of_nat k, output ++ take k (drop (Z.to_nat h) hist), adm',
           mkConsumer (wrap (base + (h + Z.of_nat k))) (wrap (base + ct))),
     take_slots cap base h k r).
Proof.
  induction n as [|n IH]; intros h r ct output adm Hok Hct m.
  { subst m. rewrite take_0. cbn. by rewrite app_nil_r, Z.add_0_r. }
  pose proof (ok_order _ _ _ _ _ _ _ Hok) as Ho. pose proof (valid_cap_range _ (ok_cap _ _ _ _ _ _ _ Hok)). cbn [pop_each_while].
  cbn [consumer_head consumer_cached_tail]. rewrite cursor_eqb_sym by lia. destruct (Z.eqb_spec h ct) as [->|Hne].
  - subst m. rewrite Z.sub_diag, Nat.min_0_r, take_0. cbn. by rewrite app_nil_r, Z.add_0_r.
  - destruct (run_pop _ _ _ _ _ _ _ ct Hok) as (v & l & Ed & Ed' & Epk & Ep & Hok'); [lia..|].
    replace m with (S (Nat.min n (Z.to_nat (ct - (h + 1))))) by (subst m; lia). rewrite Ed. cbn [take accept_prefix].
    unfold Ring_index. cbn [bind load atomic run fst snd].
    rewrite (ok_mask _ _ _ _ _ _ _ Hok), index_mod, (run_bind_Done _ _ _ _ _ Epk) by apply Hok.
    destruct (accepts adm v) as [[] adm1]; cbn [negb].
    + rewrite (run_bind_Done _ _ _ _ _ Ep). specialize (IH _ _ ct (output ++ [v]) adm1 Hok' ltac:(lia)). cbv zeta in IH. rewrite Ed' in IH.
      destruct (accept_prefix accepts adm1 _) as [k adm2]. rewrite (run_bind_Done _ _ _ _ _ IH). cbn [run take take_slots].
      rewrite <- app_assoc. by rewrite Nat2Z.inj_succ, <- Z.add_1_r, <- Z.add_assoc, (Z.add_comm 1).
    + cbn. by rewrite app_nil_r, Z.add_0_r.
Qed.

(** ** Bulk pops *)

Lemma pop_into_each r p c sp output limit :
  ring_rep r p c sp -> 0 <= limit -> run (Consumer_pop_into c output limit) r = run (pop_each (Z.to_nat limit) c output) r.
Proof.
  intros (base & ph & ch & hist & H) Hl. rep_facts H. pose proof (rep_ok _ _ _ _ _ _ _ _ H) as Hok.
  pose proof (ok_order _ _ _ _ _ _ _ Hok) as Ho. unfold Consumer_pop_into. rewrite (window_count _ _ _ _ _ _ _ _ H).
  pose proof (rep_chead _ _ _ _ _ _ _ _ H) as Eh. pose proof (rep_cached_tail _ _ _ _ _ _ _ _ H) as Et.
  destruct c as [hd ct]. cbn in Eh, Et. subst hd ct.
  rewrite (run_pop_each _ _ _ _ _ _ _ _ _ output Hok) by lia. cbn [consumer_head consumer_cached_tail].
  set (h := ph + sp_held sp) in *. set (m := Nat.min _ _).
  assert (Em : Z.min (zlength (sp_window sp)) limit = Z.of_nat m) by (subst m; lia). rewrite Em.
  destruct (Z.eqb_spec (Z.of_nat m) 0) as [E|E].
  - assert (m = O) as -> by lia. cbn. by rewrite app_nil_r, Z.add_0_r.
  - rewrite (run_bind_Done _ _ _ _ _ (run_Ring_pop_into _ _ _ _ _ _ _ m output Hok ltac:(lia) ltac:(lia))). done.
Qed.

Lemma pop_into_while_each r p c sp output limit accepts (adm : Adm) :
  ring_rep r p c sp -> 0 <= limit ->
  run (Consumer_pop_into_while c output limit accepts adm) r = run (pop_each_while accepts (Z.to_nat limit) c output adm) r.
Proof.
  intros (base & ph & ch & hist & H) Hl. rep_facts H. pose proof (rep_ok _ _ _ _ _ _ _ _ H) as Hok.
  pose proof (ok_order _ _ _ _ _ _ _ Hok) as Ho. unfold Consumer_pop_into_while. rewrite (window_count _ _ _ _ _ _ _ _ H).
  pose proof (rep_chead _ _ _ _ _ _ _ _ H) as Eh. pose proof (rep_cached_tail _ _ _ _ _ _ _ _ H) as Et.
  destruct c as [hd ct]. cbn in Eh, Et. subst hd ct. set (h := ph + sp_held sp) in *.
  pose proof (run_pop_each_while _ _ _ _ _ accepts (Z.to_nat limit) h r (h + zlength (sp_window sp)) output adm Hok ltac:(lia)) as Hr.
  cbv zeta in Hr. cbn [consumer_head consumer_cached_tail]. set (m := Nat.min _ _) in *.
  assert (Em : Z.min (zlength (sp_window sp)) limit = Z.of_nat m) by (subst m; lia). rewrite Em.
  destruct (accept_prefix accepts adm _) as [k adm'] eqn:Ea. rewrite Hr. clear Hr.
  destruct (Z.eqb_spec (Z.of_nat m) 0) as [E|E].
  { assert (m = O) as E' by lia. rewrite E', take_0 in Ea. cbn in Ea. injection Ea as <- <-. cbn. by rewrite app_nil_r, Z.add_0_r. }
  pose proof (accepted_bound accepts adm m (drop (Z.to_nat h) hist)) as Hk. rewrite Ea in Hk. cbn in Hk.
  destruct (runs_elim _ _ _ (runs_accepted_prefix _ _ _ _ _ _ _ accepts adm m 0 Hok ltac:(lia) ltac:(lia))) as ([cnt adm2] & r' & Er & -> & Hc).
  rewrite Nat2Z.id, (run_bind_Done _ _ _ _ _ Er). rewrite Z.add_0_r, Ea in Hc. destruct Hc as [-> ->].
  destruct (Z.eqb_spec (0 + Z.of_nat k) 0) as [E0|E0].
  - assert (k = O) as -> by lia. cbn. by rewrite app_nil_r, Z.add_0_r.
  - rewrite Z.add_0_l, (run_bind_Done _ _ _ _ _ (run_Ring_pop_into _ _ _ _ _ _ _ k output Hok ltac:(lia) ltac:(lia))). done.
Qed.

(** C37: popping in bulk is popping one at a time.  After any sequence of
    operations on a ring of any capacity and starting cursor, a bulk pop (with
    or without an admission closure) returns the count, the items and the
    closure's state of the loop of single pops, and leaves the same handle and
    the same ring, slot for slot, also where the run of slots wraps around the
    end of the buffer. *)
Theorem bulk_pop_is_single_pops (capacity cursor : Z) (cmds : list (spsc_cmd T Adm)) :
  0 < capacity <= 2 ^ 62 -> is_usize cursor -> Forall cmd_ok cmds ->
  exists ring p0 c0, loom_spsc_with_cursors capacity cursor = Done (ring, p0, c0) /\
    runs (exec_cmds cmds p0 c0) ring (fun '(_, _, c) r => forall output limit accepts adm, is_usize limit ->
      run (Consumer_pop_into c output limit) r = run (pop_each (Z.to_nat limit) c output) r /\
      run (Consumer_pop_into_while c output limit accepts adm) r = run (pop_each_while accepts (Z.to_nat limit) c output adm) r).
Proof.
  intros Hc Hu Hok. destruct (spsc_init_rep (T := T) capacity cursor Hc Hu) as (cap & ring & Hv & Hr & E & _ & H).
  exists ring, (mkProducer cursor cursor), (mkConsumer cursor cursor). split; [done|].
  eapply runs_mono; [by eapply spsc_cmds_refine|]. intros [[os p] c] r [_ Hrep] output limit accepts adm [Hl _].
  split; [by eapply pop_into_each|by eapply pop_into_while_each].
Qed.

End equiv.

(** Three items in a ring of four slots whose cursors are about to wrap. *)
Lemma bulk_pop_is_single_pops_witness :
  exists ring p0 c0, loom_spsc_with_cursors 4 (usize_mod - 2) = Done (ring, p0, c0) /\
    runs (exec_cmds (Adm := nat) [CPushFlush 1%nat; CPushFlush 2%nat; CPush 3%nat; CPrefetch; CFlush] p0 c0) ring
      (fun '(_, _, c) r => forall output limit (accepts : nat -> nat -> bool * nat) adm, is_usize limit ->
      run (Consumer_pop_into c output limit) r = run (pop_each (Z.to_nat limit) c output) r /\
      run (Consumer_pop_into_while c output limit accepts adm) r = run (pop_each_while accepts (Z.to_nat limit) c output adm) r).
Proof. apply (bulk_pop_is_single_pops 4 (usize_mod - 2)); [lia|usize|repeat constructor]. Defined.
