(* ===== verification/YRingConc.v ===== *)
(** * The SPSC ring under every interleaving of its two endpoints

    The producer and the consumer run as two threads of a pool; every atomic
    access and every slot access of either one is a step.  A rely-guarantee
    argument with the unbounded positions as ghost state shows that no
    interleaving faults (no slot is read before it is written, overwritten
    before it is released, or read twice), and that the items the consumer
    got, followed by what is left in the ring, are the items the producer's
    pushes accepted, in order. *)

From S2P Require Import Prelude Prog YRing YRingInv YRingSpec YRingThm.
Local Open Scope prog_scope.

(** A program that never faults by itself. *)
Fixpoint no_fail {S A} (p : prog S A) : Prop :=
  match p with
  | Ret _ => True
  | Act f k => forall r, no_fail (k r)
  | Fail _ => False
  end.

Lemma no_fail_enable : no_fail Waiter_enable.
Proof. by intros []. Qed.
Lemma no_fail_register : no_fail Waiter_register.
Proof. intros []; simpl; auto. Qed.
Lemma no_fail_take b : no_fail (Waiter_take b).
Proof. destruct b; simpl; auto. intros []; simpl; auto. Qed.
#[export] Hint Resolve no_fail_enable no_fail_register no_fail_take : fanring.

(** Which thread calls an operation. *)
Definition is_producer_cmd {T Adm} (cmd : spsc_cmd T Adm) : bool :=
  match cmd with
  | CPush _ | CFlush | CFlushCheck | CPushFlush _ | CIsFull
  | CProducerLen | CProducerIsEmpty | CIsConsumerDropped | CProducerClose => true
  | CCapacity => true
  | _ => false
  end.
Definition is_consumer_cmd {T Adm} (cmd : spsc_cmd T Adm) : bool :=
  match cmd with
  | CPrefetch | CPop | CPopInto _ _ | CPopIntoWhile _ _ _ _
  | CRelease | CReleaseFull | CPrefetchPop | CPrefetchPopFull
  | CIsEmpty | CIsDisconnected | CLen | CCapacity | CConsumerClose => true
  | _ => false
  end.

Section conc.
Context {T Adm : Type} (cap base : Z).
Implicit Types (hist : list T) (r : Ring T) (cmd : spsc_cmd T Adm).

(** Ghost positions: published read, read, published write, and the history
    of all items ever written. *)
Record ghost : Type := mkGhost { g_ph : Z; g_h : Z; g_t : Z; g_hist : list T }.

Definition st : Type := Ring T * ghost.

Definition ok (x : st) : Prop :=
  ring_ok cap base (g_ph x.2) (g_h x.2) (g_t x.2) (g_hist x.2) x.1.

(** The producer moves the write side only, the consumer the read side. *)
Definition guar (i : nat) : relation st := fun x y =>
  match i with
  | O => ok y /\ g_ph y.2 = g_ph x.2 /\ g_h y.2 = g_h x.2 /\
         g_t x.2 <= g_t y.2 /\ g_hist x.2 `prefix_of` g_hist y.2
  | 1%nat => ok y /\ g_t y.2 = g_t x.2 /\ g_hist y.2 = g_hist x.2 /\
         g_ph x.2 <= g_ph y.2 /\ g_h x.2 <= g_h y.2
  | _ => False
  end.

Lemma rely_0 x y : rely guar 0 x y -> guar 1 x y.
Proof. intros ([|[|j]] & Hj & H); done. Qed.
Lemma rely_1 x y : rely guar 1 x y -> guar 0 x y.
Proof. intros ([|[|j]] & Hj & H); done. Qed.

(** What each thread knows about its private cursors. *)
Definition pa (p : Producer) (t : Z) hist (x : st) : Prop :=
  ok x /\ g_t x.2 = t /\ g_hist x.2 = hist /\
  producer_cursor p = wrap (base + zlength hist) /\
  exists ch, producer_cached_head p = wrap (base + ch) /\
    0 <= ch <= g_ph x.2 /\ zlength hist - ch <= cap.

Definition ca (c : Consumer) (ct ph h : Z) (got : list T) (x : st) : Prop :=
  ok x /\ g_ph x.2 = ph /\ g_h x.2 = h /\ take (Z.to_nat h) (g_hist x.2) = got /\
  consumer_head c = wrap (base + h) /\
  consumer_cached_tail c = wrap (base + ct) /\ h <= ct <= g_t x.2.

Lemma pa_stable p t hist : stable guar 0 (pa p t hist).
Proof.
  intros [r g] [r' g'] (Hok & Ht & Hh & Hc & ch & Hch & Hr & Hl) (Hok' & E1 & E2 & L1 & L2)%rely_0.
  cbn in *. split_and!; cbn; try congruence; try done. exists ch. split_and!; auto; lia.
Qed.

Lemma ca_stable c ct ph h got : stable guar 1 (ca c ct ph h got).
Proof.
  intros [r g] [r' g'] (Hok & Hph & Hh & Hg & Hc & Hct & Hr)
    (Hok' & E1 & E2 & L1 & [l L2])%rely_1. cbn in *.
  pose proof (ok_order _ _ _ _ _ _ _ Hok) as Ho. cbn in Ho.
  split_and!; cbn; try congruence; try done.
  - rewrite L2, take_app_le; [done|]. unfold zlength in Ho. lia.
  - lia.
  - lia.
Qed.

(** The position facts of a state that satisfies the invariant. *)
Lemma ok_facts x :
  ok x -> 0 < cap < usize_mod /\ 2 * cap <= usize_mod /\
    0 <= g_ph x.2 <= g_h x.2 /\ g_h x.2 <= g_t x.2 /\ g_t x.2 <= zlength (g_hist x.2) /\
    zlength (g_hist x.2) <= g_ph x.2 + cap.
Proof.
  intros H. pose proof (valid_cap_range _ (ok_cap _ _ _ _ _ _ _ H)).
  pose proof (ok_order _ _ _ _ _ _ _ H). lia.
Qed.

Lemma guar_0_refl r r' g :
  ok (r', g) -> guar 0 (r, g) (r', g).
Proof. intros H. simpl. split_and!; auto; lia. Qed.
Lemma guar_1_refl r r' g :
  ok (r', g) -> guar 1 (r, g) (r', g).
Proof. intros H. simpl. split_and!; auto; lia. Qed.

Lemma guar_refl i r r' g : (i < 2)%nat -> ok (r', g) -> guar i (r, g) (r', g).
Proof.
  intros Hi H. destruct i as [|[|]]; [by apply guar_0_refl|by apply guar_1_refl|lia].
Qed.

(** ** Rules for the accesses *)

(** An assertion a thread may hold across its own reads and flag updates. *)
Definition owned (i : nat) (P : st -> Prop) : Prop :=
  (i < 2)%nat /\ stable guar i P /\ (forall x, P x -> ok x) /\
  (forall r r' g, P (r, g) -> ok (r', g) -> P (r', g)).

Lemma pa_owned p t hist : owned 0 (pa p t hist).
Proof.
  split_and!; [lia|apply pa_stable|by intros x []|].
  intros r r' g (Hok & H) Hok'. split; auto.
Qed.

Lemma ca_owned c ct ph h got : owned 1 (ca c ct ph h got).
Proof.
  split_and!; [lia|apply ca_stable|by intros x []|].
  intros r r' g (Hok & H) Hok'. split; auto.
Qed.

Lemma wp_load {R B} i (P : st -> Prop) (get : Ring T -> R) (k : R -> prog (Ring T) B) Q x :
  owned i P -> P x ->
  (forall r g, P (r, g) -> wp guar i (k (get r)) Q (r, g)) ->
  wp guar i (bind (load get) k) Q x.
Proof.
  intros (Hi & HS & Hok & _) Hx Hk. eapply wp_act; [exact HS|exact Hx|].
  intros r g H. exists g. cbn [fst snd]. split; [|auto]. apply guar_refl; auto.
Qed.

(** An update of flags outside the invariant. *)
Lemma wp_flags {B} i (P : st -> Prop) (upd : Ring T -> Ring T) (k : unit -> prog (Ring T) B) Q x :
  owned i P -> P x ->
  (forall r, ring_mask (upd r) = ring_mask r /\ ring_head (upd r) = ring_head r /\
             ring_tail (upd r) = ring_tail r /\ ring_buf (upd r) = ring_buf r) ->
  (forall y, P y -> wp guar i (k tt) Q y) ->
  wp guar i (bind (store upd) k) Q x.
Proof.
  intros (Hi & HS & Hok & Hf) Hx Hu Hk. eapply wp_act; [exact HS|exact Hx|].
  intros r g H. exists g. cbn [fst snd].
  assert (Hok' : ok (upd r, g)).
  { destruct (Hu r) as (E1 & E2 & E3 & E4). eapply ring_ok_ext; [exact (Hok _ H)|..]; done. }
  split; [by apply guar_refl|]. apply Hk. by eapply Hf.
Qed.

Lemma wp_lift_flags {A} i (P : st -> Prop) (q : prog Waiter A)
    (get : Ring T -> Waiter) (put : Waiter -> Ring T -> Ring T) x :
  owned i P -> no_fail q -> P x ->
  (forall w r, ring_mask (put w r) = ring_mask r /\ ring_head (put w r) = ring_head r /\
     ring_tail (put w r) = ring_tail r /\ ring_buf (put w r) = ring_buf r) ->
  wp guar i (lift get put q) (fun _ => P) x.
Proof.
  intros HO Hq Hx Hput. pose proof HO as (Hi & HS & Hok & Hf).
  revert x Hx. induction q as [a|R f k IH|e]; intros x Hx.
  - by apply wp_ret.
  - eapply wp_act; [exact HS|exact Hx|]. intros r g H. exists g.
    destruct (f (get r)) as [a w] eqn:E. cbn [fst snd].
    assert (Hok' : ok (put w r, g)).
    { destruct (Hput w r) as (E1 & E2 & E3 & E4). eapply ring_ok_ext; [exact (Hok _ H)|..]; done. }
    split; [by apply guar_refl|]. apply IH; [apply Hq|]. by eapply Hf.
  - done.
Qed.

(** Waiter operations keep what their thread owns. *)
Lemma wp_waiter {A B} i (P : st -> Prop) (q : prog Waiter A) (b : bool)
    (k : A -> prog (Ring T) B) Q x :
  owned i P -> no_fail q -> P x -> (forall a y, P y -> wp guar i (k a) Q y) ->
  wp guar i (bind (if b then on_consumer_waiting q else on_producer_waiting q) k) Q x.
Proof.
  intros HO Hq Hx Hk. eapply wp_call; [|exact Hk].
  destruct b; apply wp_lift_flags; auto.
Qed.

Lemma wp_cw {A B} i P (q : prog Waiter A) (k : A -> prog (Ring T) B) Q x :
  owned i P -> no_fail q -> P x -> (forall a y, P y -> wp guar i (k a) Q y) ->
  wp guar i (bind (on_consumer_waiting q) k) Q x.
Proof. apply (wp_waiter i P q true). Qed.
Lemma wp_pw {A B} i P (q : prog Waiter A) (k : A -> prog (Ring T) B) Q x :
  owned i P -> no_fail q -> P x -> (forall a y, P y -> wp guar i (k a) Q y) ->
  wp guar i (bind (on_producer_waiting q) k) Q x.
Proof. apply (wp_waiter i P q false). Qed.


Ltac pa_intro H := let Hok := fresh "Hok" in let Ht := fresh "Ht" in let Hh := fresh "Hh" in
  let Hc := fresh "Hc" in let Hch := fresh "Hch" in let Hr := fresh "Hr" in let Hl := fresh "Hl" in
  pose proof H as (Hok & Ht & Hh & Hc & ch & Hch & Hr & Hl);
  pose proof (ok_facts _ Hok); cbn [fst snd g_ph g_h g_t g_hist] in *.
Ltac ca_intro H := let Hok := fresh "Hok" in let Hph := fresh "Hph" in let Hh := fresh "Hh" in
  let Hg := fresh "Hg" in let Hc := fresh "Hc" in let Hct := fresh "Hct" in let Hr := fresh "Hr" in
  pose proof H as (Hok & Hph & Hh & Hg & Hc & Hct & Hr);
  pose proof (ok_facts _ Hok); cbn [fst snd g_ph g_h g_t g_hist] in *.

(** ** The producer's operations *)

(** Room for one more item as far as the cached head shows. *)
Definition pa_room (p : Producer) (t : Z) hist (x : st) : Prop :=
  pa p t hist x /\ exists ch, producer_cached_head p = wrap (base + ch) /\
    0 <= ch <= g_ph x.2 /\ zlength hist - ch < cap.

Lemma pa_room_owned p t hist : owned 0 (pa_room p t hist).
Proof.
  destruct (pa_owned p t hist) as (H1 & H2 & H3 & H4). split_and!; auto.
  - intros [r g] [r' g'] [Ha (ch & Hch & Hr & Hl)] Hy. split; [eapply H2; eauto|].
    apply rely_0 in Hy as (_ & _ & _ & L & _). cbn in *. exists ch. split_and!; auto; lia.
  - intros x [Ha _]. auto.
  - intros r r' g [Ha Hb] Hok. split; [eapply H4; eauto|done].
Qed.

(** Loading the published head refreshes the cached head. *)
Lemma pa_refresh p t hist r g :
  pa p t hist (r, g) ->
  pa (mkProducer (producer_cursor p) (ring_head r)) t hist (r, g) /\
  ((Ring_distance (producer_cursor p) (ring_head r) >=? cap) = false ->
   pa_room (mkProducer (producer_cursor p) (ring_head r)) t hist (r, g)).
Proof.
  intros Ha. pa_intro Ha. pose proof (ok_head _ _ _ _ _ _ _ Hok) as Eh. cbn in Eh.
  assert (Ha' : pa (mkProducer (producer_cursor p) (ring_head r)) t hist (r, g)).
  { split_and!; auto. exists (g_ph g). cbn. subst hist. split_and!; auto; lia. }
  split; [done|]. rewrite Hc, Eh, distance_wrap by (subst hist; lia). intros Hd.
  split; [by rewrite <- Hc, <- Eh|]. exists (g_ph g). cbn. split_and!; auto; lia.
Qed.

Lemma wp_full_check p t hist x :
  pa p t hist x ->
  wp guar 0 (if Ring_distance (producer_cursor p) (producer_cached_head p) >=? cap then
               let* h := load ring_head in
               Ret (Ring_distance (producer_cursor p) h >=? cap, h)
             else Ret (false, producer_cached_head p))
    (fun '(full, h) => if full : bool then pa (mkProducer (producer_cursor p) h) t hist
                       else pa_room (mkProducer (producer_cursor p) h) t hist) x.
Proof.
  intros Ha. destruct (_ >=? cap) eqn:E.
  - eapply wp_load; [apply pa_owned|exact Ha|]. intros r g Ha1.
    destruct (pa_refresh _ _ _ _ _ Ha1) as [H1 H2].
    destruct (Ring_distance (producer_cursor p) (ring_head r) >=? cap).
    + eapply wp_retP; [apply pa_owned|exact H1|done].
    + eapply wp_retP; [apply pa_room_owned|exact (H2 eq_refl)|done].
  - assert (Hb : pa_room (mkProducer (producer_cursor p) (producer_cached_head p)) t hist x).
    { destruct x as [r g]. pa_intro Ha. split; [by destruct p|]. exists ch. cbn. split_and!; auto; try lia.
      rewrite Hc, Hch, distance_wrap in E by (subst hist; lia). lia. }
    eapply wp_retP; [apply pa_room_owned|exact Hb|done].
Qed.

Lemma wp_Ring_capacity {B} i P (k : Z -> prog (Ring T) B) Q x :
  owned i P -> P x -> (forall y, P y -> wp guar i (k cap) Q y) ->
  wp guar i (bind Ring_capacity k) Q x.
Proof.
  intros HO Hx Hk. eapply wp_load; [exact HO|exact Hx|]. intros r g H.
  pose proof HO as (_ & _ & Hok & _).
  pose proof (ok_mask _ _ _ _ _ _ _ (Hok _ H)) as Em. cbn in Em. rewrite Em.
  replace (cap - 1 + 1) with cap by lia. auto.
Qed.

Lemma wp_Ring_index {B} i P a (k : Z -> prog (Ring T) B) Q x :
  owned i P -> P x -> (forall y, P y -> wp guar i (k ((base + a) mod cap)) Q y) ->
  wp guar i (bind (Ring_index (wrap (base + a))) k) Q x.
Proof.
  intros HO Hx Hk. eapply wp_load; [exact HO|exact Hx|]. intros r g H.
  pose proof HO as (_ & _ & Hok & _). pose proof (Hok _ H) as Ho.
  pose proof (ok_mask _ _ _ _ _ _ _ Ho) as Em. cbn in Em. rewrite Em, index_mod by apply Ho. auto.
Qed.

(** Writing the slot at the write position. *)
Lemma wp_slot_write {B} p t hist v (k : unit -> prog (Ring T) B) Q x :
  pa_room p t hist x ->
  (forall y, pa (mkProducer (wrap (base + (zlength hist + 1))) (producer_cached_head p)) t (hist ++ [v]) y ->
     wp guar 0 (k tt) Q y) ->
  wp guar 0 (bind (slot_write ((base + zlength hist) mod cap) v) k) Q x.
Proof.
  intros Hx Hk. eapply wp_act; [apply pa_room_owned|exact Hx|]. cbn [fst snd].
  intros r g [Ha (c0 & Hc0 & Hr0 & Hl0)]. pa_intro Ha.
  destruct (ring_ok_write cap base (g_ph g) (g_h g) (g_t g) (g_hist g) r v Hok) as [E1 E2].
  { cbn. subst hist. lia. }
  cbn in E1. rewrite Hh in E1, E2. destruct (zlookup (ring_buf r) _) eqn:Ez; [|done]. cbn [fst snd].
  exists (mkGhost (g_ph g) (g_h g) (g_t g) (hist ++ [v])). split.
  - split_and!; cbn; auto; try lia. rewrite Hh. by apply prefix_app_r.
  - apply Hk. split_and!; auto.
    + cbn. by rewrite zlength_snoc.
    + exists c0. rewrite zlength_snoc. cbn. split_and!; auto; lia.
Qed.

(** The write of a push that found room. *)
Lemma wp_push_write p t hist v x :
  pa_room p t hist x ->
  wp guar 0 (let* idx := Ring_index (producer_cursor p) in
             let* _ := slot_write idx v in
             Ret (Ok tt : result unit T, wrapping_add (producer_cursor p) 1, producer_cached_head p))
    (fun '(res, cur, hd) y => res = Ok tt /\ pa (mkProducer cur hd) t (hist ++ [v]) y) x.
Proof.
  intros Hy. assert (Hc : producer_cursor p = wrap (base + zlength hist)) by apply Hy. rewrite Hc.
  eapply wp_Ring_index; [apply pa_room_owned|exact Hy|]. intros z Hz.
  eapply wp_slot_write; [exact Hz|]. intros w Hw. rewrite cursor_add.
  eapply wp_retP; [apply pa_owned|exact Hw|done].
Qed.

Lemma wp_push_ring p t hist v x :
  pa p t hist x ->
  wp guar 0 (Ring_push (producer_cursor p) (producer_cached_head p) v)
    (fun '(res, cur, hd) y =>
       match res with
       | Ok _ => pa (mkProducer cur hd) t (hist ++ [v]) y
       | Err w => w = v /\ pa (mkProducer cur hd) t hist y
       end) x.
Proof.
  intros Ha. eapply wp_Ring_capacity; [apply pa_owned|exact Ha|]. clear x Ha. intros x Ha.
  eapply wp_call; [eapply wp_full_check, Ha|]. intros [full h] y Hy.
  destruct full.
  - eapply wp_retP; [apply pa_owned|exact Hy|]. auto.
  - eapply wp_mono; [|exact (wp_push_write (mkProducer (producer_cursor p) h) _ _ _ _ Hy)].
    intros [[res cur] hd] z [-> Hz]. exact Hz.
Qed.

Lemma wp_push p t hist v x :
  pa p t hist x ->
  wp guar 0 (Producer_push p v) (fun '(res, p') y =>
    match res with
    | Ok _ => pa p' t (hist ++ [v]) y
    | Err w => w = v /\ pa p' t hist y
    end) x.
Proof.
  intros Ha. eapply wp_call; [eapply wp_push_ring, Ha|].
  intros [[[[]|w] cur] hd] y Hy.
  - eapply wp_retP; [apply pa_owned|exact Hy|done].
  - destruct Hy as [-> Hy]. eapply wp_pw; [apply pa_owned|auto with fanring|exact Hy|].
    intros [] z Hz; cbn [negb].
    + eapply wp_call; [eapply wp_push_ring, Hz|]. intros [[[[]|w] cur'] hd'] u Hu.
      * eapply wp_retP; [apply pa_owned|exact Hu|done].
      * destruct Hu as [-> Hu]. eapply wp_retP; [apply pa_owned|exact Hu|auto].
    + eapply wp_retP; [apply pa_owned|exact Hz|auto].
Qed.

(** Publishing the cursor. *)
Lemma wp_store_tail {B} p t hist (k : unit -> prog (Ring T) B) Q x :
  pa p t hist x ->
  (forall y, pa p (zlength hist) hist y -> wp guar 0 (k tt) Q y) ->
  wp guar 0 (bind (store (set_tail (producer_cursor p))) k) Q x.
Proof.
  intros Hx Hk. eapply wp_act; [apply pa_owned|exact Hx|]. cbn [fst snd].
  intros r g Ha. pa_intro Ha.
  assert (Hok' : ok (set_tail (producer_cursor p) r, mkGhost (g_ph g) (g_h g) (zlength hist) hist)).
  { rewrite Hc. cbn. apply (ring_ok_set_tail _ _ _ _ (g_t g)); [by rewrite <- Hh|]. subst hist. cbn. lia. }
  exists (mkGhost (g_ph g) (g_h g) (zlength hist) hist). split.
  - split_and!; cbn; auto; [subst hist; lia|]. by rewrite Hh.
  - apply Hk. split_and!; auto. exists ch. cbn. auto.
Qed.

Lemma wp_flush p t hist x :
  pa p t hist x -> wp guar 0 (Producer_flush p) (fun _ => pa p (zlength hist) hist) x.
Proof.
  intros Ha. unfold Producer_flush.
  change (store (set_tail (producer_cursor p))) with
    (bind (store (S := Ring T) (set_tail (producer_cursor p))) (fun u => Ret u)).
  eapply wp_store_tail; [exact Ha|]. intros y Hy. eapply wp_retP; [apply pa_owned|exact Hy|done].
Qed.

Lemma wp_flush_and_check p t hist x :
  pa p t hist x ->
  wp guar 0 (Producer_flush_and_check p) (fun '(_, p') y => exists t', pa p' t' hist y) x.
Proof.
  intros Ha. apply wp_bind. unfold Ring_flush_to.
  eapply wp_cw; [apply pa_owned|auto with fanring|exact Ha|]. intros u1 x1 H1.
  eapply wp_load; [apply pa_owned|exact H1|]. intros r2 g2 H2.
  destruct (_ =? _).
  { apply wp_retP with (P := pa p t hist); [apply pa_owned|done|]. intros y Hy.
    destruct p. eapply wp_retP; [apply pa_owned|exact Hy|eauto]. }
  eapply wp_load; [apply pa_owned|exact H2|]. intros r3 g3 H3.
  destruct (pa_refresh _ _ _ _ _ H3) as [H4 _].
  eapply (wp_store_tail (mkProducer (producer_cursor p) (ring_head r3))); [exact H4|]. intros x5 H5.
  eapply wp_cw; [apply pa_owned|auto with fanring|exact H5|]. intros u6 x6 H6.
  eapply wp_retP; [apply pa_owned|exact H6|]. intros y Hy.
  eapply wp_retP; [apply pa_owned|exact Hy|eauto].
Qed.

Lemma wp_push_and_flush p t hist v x :
  pa p t hist x ->
  wp guar 0 (Producer_push_and_flush p v) (fun '(res, p') y => exists t',
    match res with
    | Ok _ => pa p' t' (hist ++ [v]) y
    | Err _ => pa p' t' hist y
    end) x.
Proof.
  intros Ha. eapply wp_call; [eapply wp_push, Ha|]. intros [[[]|w] p'] y Hy.
  - eapply wp_call; [eapply wp_flush, Hy|]. intros u z Hz.
    eapply wp_retP; [apply pa_owned|exact Hz|eauto].
  - destruct Hy as [-> Hy]. eapply wp_retP; [apply pa_owned|exact Hy|eauto].
Qed.

Lemma wp_Ring_is_full p t hist x :
  pa p t hist x ->
  wp guar 0 (Ring_is_full (producer_cursor p) (producer_cached_head p))
    (fun '(_, h) => pa (mkProducer (producer_cursor p) h) t hist) x.
Proof.
  intros Ha. eapply wp_Ring_capacity; [apply pa_owned|exact Ha|]. intros z Hz.
  eapply wp_mono; [|eapply wp_full_check, Hz]. intros [[] h] u Hu; [done|apply Hu].
Qed.

Lemma wp_is_full p t hist x :
  pa p t hist x -> wp guar 0 (Producer_is_full p) (fun '(_, p') => pa p' t hist) x.
Proof.
  intros Ha. eapply wp_call; [eapply wp_Ring_is_full, Ha|]. intros [full h] y Hy.
  destruct full; cbn [negb]; [|eapply wp_retP; [apply pa_owned|exact Hy|done]].
  eapply wp_pw; [apply pa_owned|auto with fanring|exact Hy|]. intros [] z Hz; cbn [negb].
  - eapply wp_call; [eapply wp_Ring_is_full, Hz|]. intros [full' h'] u Hu.
    eapply wp_retP; [apply pa_owned|exact Hu|done].
  - eapply wp_retP; [apply pa_owned|exact Hz|done].
Qed.

Lemma wp_producer_close p t hist x :
  pa p t hist x -> wp guar 0 (Producer_close p) (fun _ => pa p (zlength hist) hist) x.
Proof.
  intros Ha. eapply wp_call; [eapply wp_flush, Ha|]. intros u y Hy.
  change (store (set_producer_dropped true)) with
    (bind (store (S := Ring T) (set_producer_dropped true)) (fun u => Ret u)).
  eapply wp_flags; [apply pa_owned|exact Hy|done|]. intros z Hz.
  eapply wp_retP; [apply pa_owned|exact Hz|done].
Qed.

(** ** The consumer's operations *)

(** A window that is not used up has an item at the read position. *)
Lemma ca_window c ct ph h got x :
  ca c ct ph h got x ->
  (consumer_head c =? consumer_cached_tail c) = (h =? ct) /\
  wrapping_sub (consumer_cached_tail c) (consumer_head c) = ct - h /\ 0 <= ct - h <= cap.
Proof.
  destruct x as [r g]. intros Ha. ca_intro Ha. rewrite Hc, Hct.
  rewrite cursor_eqb_sym, wrapping_sub_wrap by lia. split_and!; lia.
Qed.

Lemma take_succ hist h v :
  0 <= h -> zlookup hist h = Some v -> take (Z.to_nat (h + 1)) hist = take (Z.to_nat h) hist ++ [v].
Proof.
  intros Hh Hv. unfold zlookup in Hv. destruct (Z.ltb_spec h 0); [lia|].
  replace (Z.to_nat (h + 1)) with (S (Z.to_nat h)) by lia. by apply take_S_r.
Qed.

Lemma wp_slot_take {B} c ct ph h got (k : T -> prog (Ring T) B) Q x :
  ca c ct ph h got x -> h < ct ->
  (forall v y, ca (mkConsumer (wrap (base + (h + 1))) (consumer_cached_tail c)) ct ph (h + 1) (got ++ [v]) y ->
     wp guar 1 (k v) Q y) ->
  wp guar 1 (bind (slot_take ((base + h) mod cap)) k) Q x.
Proof.
  intros Hx Hlt Hk. eapply wp_act; [apply ca_owned|exact Hx|]. cbn [fst snd].
  intros r g Ha. ca_intro Ha.
  destruct (zlookup_is_Some (g_hist g) h) as [v Hv]; [lia|].
  destruct (ring_ok_take cap base (g_ph g) (g_h g) (g_t g) (g_hist g) r v Hok) as [E1 E2];
    [cbn; lia|by rewrite Hh|].
  cbn in E1. rewrite Hh in E1, E2. pose proof (ok_slots _ _ _ _ _ _ _ Hok) as Hs. cbn in Hs.
  rewrite Hh in Hs. rewrite (slots_read _ _ _ _ _ (ok_cap _ _ _ _ _ _ _ Hok) Hs), Hv in *. cbn [fst snd] in *.
  exists (mkGhost (g_ph g) (h + 1) (g_t g) (g_hist g)). split.
  - split_and!; cbn; auto; lia.
  - cbn. apply Hk. split_and!; cbn; auto; try lia. rewrite (take_succ _ _ v) by (auto; lia). by rewrite Hg.
Qed.

Lemma wp_pop_exact c ct ph h got x :
  ca c ct ph h got x ->
  wp guar 1 (Consumer_pop c) (fun '(v, c') y =>
    match v with
    | Some v => h < ct /\ ca c' ct ph (h + 1) (got ++ [v]) y
    | None => h = ct /\ ca c' ct ph h got y
    end) x.
Proof.
  intros Ha. destruct (ca_window _ _ _ _ _ _ Ha) as (E & _ & _).
  unfold Consumer_pop, Ring_pop. rewrite E. destruct (Z.eqb_spec h ct).
  - cbn [bind]. eapply wp_retP; [apply ca_owned|exact Ha|]. intros y Hy. split; [done|]. by destruct c.
  - assert (Hc : consumer_head c = wrap (base + h)) by apply Ha. rewrite Hc. apply wp_bind.
    eapply wp_Ring_index; [apply ca_owned|exact Ha|]. intros z Hz.
    assert (h <= ct) by (destruct Hz as (_ & _ & _ & _ & _ & _ & ?); lia).
    eapply wp_slot_take; [exact Hz|lia|]. intros v u Hu. rewrite cursor_add.
    eapply wp_retP; [apply ca_owned|exact Hu|]. intros y Hy.
    eapply wp_retP; [apply ca_owned|exact Hy|]. intros w Hw. split; [lia|done].
Qed.

Lemma wp_pop c ct ph h got x :
  ca c ct ph h got x ->
  wp guar 1 (Consumer_pop c) (fun '(v, c') y => exists h',
    ca c' ct ph h' (got ++ match v with Some v => [v] | None => [] end) y) x.
Proof.
  intros Ha. eapply wp_mono; [|eapply wp_pop_exact, Ha]. intros [[v|] c'] y [_ Hy]; [eauto|].
  exists h. by rewrite app_nil_r.
Qed.

Lemma wp_move_slots n : forall c ct ph h got start x,
  ca c ct ph h got x -> (n <> O -> start = (base + h) mod cap) ->
  start + Z.of_nat n <= cap -> h + Z.of_nat n <= ct ->
  wp guar 1 (Ring_move_slots start n) (fun vs y => length vs = n /\
    ca (mkConsumer (wrap (base + (h + Z.of_nat n))) (consumer_cached_tail c)) ct ph (h + Z.of_nat n) (got ++ vs) y) x.
Proof.
  induction n as [|n IH]; intros c ct ph h got start x Ha Hst Hsum Hle.
  - eapply wp_retP; [apply ca_owned|exact Ha|]. intros y Hy. split; [done|].
    rewrite Z.add_0_r, app_nil_r. assert (Hc : consumer_head c = wrap (base + h)) by apply Hy.
    rewrite <- Hc. by destruct c.
  - assert (Hcap : valid_cap cap) by (destruct Ha as (Hok & _); apply Hok).
    pose proof (valid_cap_range _ Hcap).
    rewrite (Hst ltac:(done)) in *. cbn [Ring_move_slots].
    eapply wp_slot_take; [exact Ha|lia|]. intros v y Hy.
    eapply wp_call; [eapply (IH _ _ _ _ _ ((base + h) mod cap + 1) _ Hy); try lia|].
    { intros Hn. rewrite Z.add_assoc, mod_succ; lia. }
    intros vs z [Hl Hz]. cbn [consumer_cached_tail] in Hz.
    replace (h + 1 + Z.of_nat n) with (h + Z.of_nat (S n)) in Hz by lia.
    rewrite <- app_assoc in Hz.
    eapply wp_retP; [apply ca_owned|exact Hz|]. intros u Hu. split; [simpl; by rewrite Hl|done].
Qed.

Lemma wp_Ring_pop_into n c ct ph h got output x :
  ca c ct ph h got x -> h + Z.of_nat n <= ct ->
  wp guar 1 (Ring_pop_into (consumer_head c) (Z.of_nat n) output) (fun '(out, head) y =>
    exists vs, out = output ++ vs /\ length vs = n /\
      ca (mkConsumer head (consumer_cached_tail c)) ct ph (h + Z.of_nat n) (got ++ vs) y) x.
Proof.
  intros Ha Hn. assert (Hcap : valid_cap cap) by (destruct Ha as (Hok & _); apply Hok).
  pose proof (valid_cap_range _ Hcap). pose proof (index_range cap (base + h) Hcap) as Hi.
  destruct (ca_window _ _ _ _ _ _ Ha) as (_ & _ & Hw).
  eapply wp_Ring_capacity; [apply ca_owned|exact Ha|]. clear x Ha. intros x Ha.
  destruct (Z.leb_spec (Z.of_nat n) cap); [|lia]. cbn [negb].
  assert (Hc : consumer_head c = wrap (base + h)) by apply Ha. rewrite Hc.
  eapply wp_Ring_index; [apply ca_owned|exact Ha|]. clear x Ha. intros x Ha.
  set (first := Z.min (Z.of_nat n) (cap - (base + h) mod cap)).
  eapply wp_call; [eapply (wp_move_slots (Z.to_nat first) _ _ _ _ _ _ _ Ha); lia|].
  intros v1 y [L1 Hy].
  eapply wp_call; [eapply (wp_move_slots (Z.to_nat (Z.of_nat n - first)) _ _ _ _ _ 0 _ Hy); try lia|].
  { intros Hne. rewrite <- (mod_wrap_start base h cap) by lia. do 2 f_equal. lia. }
  intros v2 z [L2 Hz]. cbn [consumer_cached_tail] in Hz. rewrite cursor_add.
  replace (h + Z.of_nat (Z.to_nat first) + Z.of_nat (Z.to_nat (Z.of_nat n - first)))
    with (h + Z.of_nat n) in Hz by lia.
  rewrite <- app_assoc in Hz. eapply wp_retP; [apply ca_owned|exact Hz|]. intros u Hu. exists (v1 ++ v2).
  split; [done|]. split; [rewrite length_app; lia|done].
Qed.

Lemma wp_pop_into_exact c ct ph h got output limit x :
  0 <= limit -> ca c ct ph h got x ->
  wp guar 1 (Consumer_pop_into c output limit) (fun '(n, out, c') y => n = Z.min (ct - h) limit /\
    exists vs, zlength vs = n /\ out = output ++ vs /\ ca c' ct ph (h + n) (got ++ vs) y) x.
Proof.
  intros Hlim Ha. destruct (ca_window _ _ _ _ _ _ Ha) as (_ & Ew & Hw). unfold Consumer_pop_into.
  rewrite Ew. destruct (Z.eqb_spec (Z.min (ct - h) limit) 0) as [E|E].
  - eapply wp_retP; [apply ca_owned|exact Ha|]. intros y Hy. split; [done|]. exists []. by rewrite !app_nil_r, Z.add_0_r.
  - set (n := Z.min (ct - h) limit) in *. replace n with (Z.of_nat (Z.to_nat n)) by lia.
    eapply wp_call; [eapply wp_Ring_pop_into; [exact Ha|lia]|].
    intros [out head] y (vs & -> & Hl & Hy). eapply wp_retP; [apply ca_owned|exact Hy|]. intros z Hz.
    split; [lia|]. exists vs. split; [unfold zlength; lia|done].
Qed.

Lemma wp_pop_into c ct ph h got output limit x :
  0 <= limit -> ca c ct ph h got x ->
  wp guar 1 (Consumer_pop_into c output limit) (fun '(n, out, c') y => exists vs h',
    out = output ++ vs /\ ca c' ct ph h' (got ++ vs) y) x.
Proof.
  intros Hlim Ha. eapply wp_mono; [|by eapply wp_pop_into_exact]. intros [[n out] c'] y (_ & vs & _ & -> & Hy). eauto.
Qed.

(** Peeking at published items moves nothing. *)
Lemma wp_accepted_prefix (accepts : Adm -> T -> bool * Adm) n : forall adm acc c ct ph h got x,
  ca c ct ph h got x -> 0 <= acc -> h + acc + Z.of_nat n <= ct ->
  wp guar 1 (Ring_accepted_prefix accepts (consumer_head c) n acc adm) (fun '(cnt, _) y =>
    acc <= cnt <= acc + Z.of_nat n /\ ca c ct ph h got y) x.
Proof.
  induction n as [|n IH]; intros adm acc c ct ph h got x Ha Hacc Hle; cbn [Ring_accepted_prefix].
  - eapply wp_retP; [apply ca_owned|exact Ha|]. intros y Hy. split; [lia|done].
  - assert (Hc : consumer_head c = wrap (base + h)) by apply Ha.
    rewrite Hc at 1. rewrite cursor_add.
    eapply wp_Ring_index; [apply ca_owned|exact Ha|]. clear x Ha. intros x Ha. apply wp_bind.
    eapply wp_load; [apply ca_owned|exact Ha|]. clear x Ha. intros r g Ha. ca_intro Ha.
    destruct (zlookup_is_Some (g_hist g) (h + acc)) as [v Hv]; [lia|].
    pose proof (ok_slots _ _ _ _ _ _ _ Hok) as Hs. cbn in Hs. rewrite Hh in Hs.
    rewrite (slots_read_at _ _ _ _ _ _ Hs), Hv by lia. cbn [of_outcome].
    eapply wp_retP; [apply ca_owned|exact Ha|]. intros y Hy.
    destruct (accepts adm v) as [ok' adm']. destruct ok'; cbn [negb].
    + eapply wp_mono; [|eapply (IH adm' (acc + 1)); [exact Hy|lia|lia]].
      intros [cnt a] z [Hcnt Hz]. split; [lia|done].
    + eapply wp_retP; [apply ca_owned|exact Hy|]. intros z Hz. split; [lia|done].
Qed.

Lemma wp_pop_into_while_exact c ct ph h got output limit (accepts : Adm -> T -> bool * Adm) adm x :
  0 <= limit -> ca c ct ph h got x ->
  wp guar 1 (Consumer_pop_into_while c output limit accepts adm) (fun '(n, out, _, c') y => 0 <= n <= Z.min (ct - h) limit /\
    exists vs, zlength vs = n /\ out = output ++ vs /\ ca c' ct ph (h + n) (got ++ vs) y) x.
Proof.
  intros Hlim Ha. destruct (ca_window _ _ _ _ _ _ Ha) as (_ & Ew & Hw). unfold Consumer_pop_into_while.
  rewrite Ew. destruct (Z.eqb_spec (Z.min (ct - h) limit) 0) as [E|E].
  - eapply wp_retP; [apply ca_owned|exact Ha|]. intros y Hy. split; [lia|]. exists []. by rewrite !app_nil_r, Z.add_0_r.
  - eapply wp_call; [eapply (wp_accepted_prefix accepts _ adm 0); [exact Ha|lia|lia]|].
    intros [cnt adm'] y [Hcnt Hy]. destruct (Z.eqb_spec cnt 0) as [->|].
    + eapply wp_retP; [apply ca_owned|exact Hy|]. intros z Hz. split; [lia|]. exists []. by rewrite !app_nil_r, Z.add_0_r.
    + replace cnt with (Z.of_nat (Z.to_nat cnt)) by lia.
      eapply wp_call; [eapply wp_Ring_pop_into; [exact Hy|lia]|].
      intros [out head] z (vs & -> & Hl & Hz). eapply wp_retP; [apply ca_owned|exact Hz|]. intros u Hu.
      split; [lia|]. exists vs. split; [unfold zlength; lia|done].
Qed.

Lemma wp_pop_into_while c ct ph h got output limit (accepts : Adm -> T -> bool * Adm) adm x :
  0 <= limit -> ca c ct ph h got x ->
  wp guar 1 (Consumer_pop_into_while c output limit accepts adm) (fun '(n, out, _, c') y =>
    exists vs h', out = output ++ vs /\ ca c' ct ph h' (got ++ vs) y) x.
Proof.
  intros Hlim Ha. eapply wp_mono; [|by eapply wp_pop_into_while_exact]. intros [[[n out] a] c'] y (_ & vs & _ & -> & Hy). eauto.
Qed.

(** A store of the read cursor to the published head. *)
Lemma wp_store_head {B} c ct ph h got (k : unit -> prog (Ring T) B) Q x :
  ca c ct ph h got x ->
  (forall y, ca c ct h h got y -> wp guar 1 (k tt) Q y) ->
  wp guar 1 (bind (Consumer_release c) k) Q x.
Proof.
  intros Hx Hk. eapply wp_act; [apply ca_owned|exact Hx|]. cbn [fst snd].
  intros r g Ha. ca_intro Ha.
  assert (Hok' : ok (set_head (consumer_head c) r, mkGhost h h (g_t g) (g_hist g))).
  { rewrite Hc. cbn. apply (ring_ok_set_head _ _ (g_ph g)); [by rewrite <- Hh|]. cbn. lia. }
  exists (mkGhost h h (g_t g) (g_hist g)). split.
  - split_and!; cbn; auto; lia.
  - apply Hk. split_and!; cbn; auto; lia.
Qed.

Lemma wp_release c ct ph h got x :
  ca c ct ph h got x -> wp guar 1 (Consumer_release c) (fun _ => ca c ct h h got) x.
Proof.
  intros Ha. change (wp guar 1 (bind (Consumer_release c) (fun u => Ret u)) (fun _ => ca c ct h h got) x).
  eapply wp_store_head; [exact Ha|]. intros y Hy. eapply wp_retP; [apply ca_owned|exact Hy|done].
Qed.

(** A waiter operation at the end of an operation. *)
Lemma wp_pw_last {A} i P (q : prog Waiter A) x :
  owned i P -> no_fail q -> P x -> wp guar i (on_producer_waiting q) (fun _ => P) x.
Proof. intros HO Hq Hx. apply wp_lift_flags; auto. Qed.

Lemma wp_release_with_full c ct ph h got x :
  ca c ct ph h got x ->
  wp guar 1 (Consumer_release_with_full c) (fun _ y => exists ph', ca c ct ph' h got y) x.
Proof.
  intros Ha. eapply wp_pw; [apply ca_owned|auto with fanring|exact Ha|]. clear x Ha. intros u x Ha.
  eapply wp_load; [apply ca_owned|exact Ha|]. clear x Ha. intros r g Ha.
  destruct (_ =? _); [eapply wp_retP; [apply ca_owned|exact Ha|eauto]|].
  eapply wp_Ring_capacity; [apply ca_owned|exact Ha|]. clear Ha. intros x Ha.
  eapply wp_store_head; [exact Ha|]. clear x Ha. intros x Ha.
  eapply wp_mono; [|eapply wp_pw_last; [apply ca_owned|auto with fanring|exact Ha]]. intros b y Hy. by exists h.
Qed.

(** A fresh look sees everything published before it. *)
Lemma ca_from_owned c ct ph h got t0 : owned 1 (fun x => ca c ct ph h got x /\ t0 <= g_t x.2).
Proof.
  destruct (ca_owned c ct ph h got) as (H1 & H2 & H3 & H4). split_and!; auto.
  - intros x y [Ha Ht] Hy. split; [eauto|]. apply rely_1 in Hy as (_ & _ & _ & L & _). lia.
  - intros x [Ha _]. auto.
  - intros r r' g [Ha Ht] Hok. split; [eauto|done].
Qed.

(** Loading the published tail refreshes the window and counts what is new. *)
Lemma wp_Ring_prefetch {B} c ct ph h got t0 (k : Z * Z -> prog (Ring T) B) Q x :
  ca c ct ph h got x -> t0 <= g_t x.2 ->
  (forall tl ct' y, t0 <= ct' -> ca (mkConsumer (consumer_head c) tl) ct' ph h got y ->
     wp guar 1 (k (ct' - ct, tl)) Q y) ->
  wp guar 1 (bind (Ring_prefetch (consumer_cached_tail c)) k) Q x.
Proof.
  intros Ha Ht Hk. apply wp_bind. eapply wp_load; [apply (ca_from_owned c ct ph h got t0)|exact (conj Ha Ht)|].
  clear x Ha Ht. intros r g [Ha Ht].
  assert (Hb : ca (mkConsumer (consumer_head c) (ring_tail r)) (g_t g) ph h got (r, g) /\
               wrapping_sub (ring_tail r) (consumer_cached_tail c) = g_t g - ct).
  { ca_intro Ha. pose proof (ok_tail _ _ _ _ _ _ _ Hok) as Et. cbn in Et. split; [split_and!; cbn; auto; lia|].
    rewrite Et, Hct, wrapping_sub_wrap by lia. lia. }
  destruct Hb as [Hb ->]. eapply wp_retP; [apply ca_owned|exact Hb|]. intros y Hy. by eapply Hk.
Qed.

Lemma wp_prefetch_from c ct ph h got x :
  ca c ct ph h got x ->
  wp guar 1 (Consumer_prefetch c) (fun '(n, c') y =>
    exists ct', (h = ct -> n = ct' - h) /\ g_t x.2 <= ct' /\ ca c' ct' ph h got y) x.
Proof.
  intros Ha. eapply wp_Ring_prefetch; [exact Ha|reflexivity|]. set (t0 := g_t x.2). clearbody t0.
  clear x Ha. intros tl ct' x Ht Ha. pose proof (ca_window _ _ _ _ _ _ Ha) as (E & _ & _).
  cbv beta iota zeta. rewrite E. destruct (Z.eqb_spec h ct') as [->|_]; cbn [negb].
  2:{ eapply wp_retP; [apply ca_owned|exact Ha|]. intros y Hy. exists ct'. split_and!; [lia|done..]. }
  eapply wp_cw; [apply ca_owned|auto with fanring|exact Ha|]. clear x Ha E. intros reg x Ha.
  destruct (negb reg).
  { eapply wp_retP; [apply ca_owned|exact Ha|]. intros y Hy. exists ct'. split_and!; [lia|done..]. }
  eapply (wp_Ring_prefetch _ _ _ _ _ t0); [exact Ha|destruct Ha as (_ & _ & _ & _ & _ & _ & ?); lia|].
  clear x Ha. intros tl' ct'' x Ht' Ha. eapply wp_retP; [apply ca_owned|exact Ha|].
  intros y Hy. exists ct''. split_and!; [lia|done..].
Qed.

Lemma wp_prefetch c ct ph h got x :
  ca c ct ph h got x ->
  wp guar 1 (Consumer_prefetch c) (fun '(_, c') y => exists ct', ca c' ct' ph h got y) x.
Proof.
  intros Ha. eapply wp_mono; [|eapply wp_prefetch_from, Ha]. intros [n c'] y (ct' & _ & _ & Hy). eauto.
Qed.

Lemma wp_refill {B} c ct ph h got (k : Consumer -> prog (Ring T) B) Q x :
  ca c ct ph h got x ->
  (forall c' ct' y, ca c' ct' ph h got y -> wp guar 1 (k c') Q y) ->
  wp guar 1 (bind (if consumer_head c =? consumer_cached_tail c then
                     let* '(_, c) := Consumer_prefetch c in Ret c else Ret c) k) Q x.
Proof.
  intros Ha Hk. apply wp_bind. destruct (_ =? _).
  - eapply wp_call; [eapply wp_prefetch, Ha|]. intros [n c'] y (ct' & Hy).
    eapply wp_retP; [apply ca_owned|exact Hy|eauto].
  - eapply wp_retP; [apply ca_owned|exact Ha|eauto].
Qed.

Lemma wp_prefetch_and_pop c ct ph h got x :
  ca c ct ph h got x ->
  wp guar 1 (Consumer_prefetch_and_pop c) (fun '(v, c') y => exists ct' ph' h',
    ca c' ct' ph' h' (got ++ match v with Some v => [v] | None => [] end) y) x.
Proof.
  intros Ha. eapply wp_refill; [exact Ha|]. clear x Ha. intros c' ct' x Ha.
  eapply wp_call; [eapply wp_pop, Ha|]. clear x Ha. intros [[v|] c2] x (h' & Ha).
  - eapply wp_store_head; [exact Ha|]. intros y Hy. eapply wp_retP; [apply ca_owned|exact Hy|eauto].
  - eapply wp_retP; [apply ca_owned|exact Ha|eauto].
Qed.

Lemma wp_prefetch_and_pop_with_full c ct ph h got x :
  ca c ct ph h got x ->
  wp guar 1 (Consumer_prefetch_and_pop_with_full c) (fun '(v, c') y => exists ct' ph' h',
    ca c' ct' ph' h' (got ++ match v with Some (v, _) => [v] | None => [] end) y) x.
Proof.
  intros Ha. eapply wp_pw; [apply ca_owned|auto with fanring|exact Ha|]. clear x Ha. intros u x Ha.
  eapply wp_refill; [exact Ha|]. clear x Ha. intros c' ct' x Ha.
  eapply wp_Ring_capacity; [apply ca_owned|exact Ha|]. clear x Ha. intros x Ha.
  eapply wp_call; [eapply wp_pop, Ha|]. clear x Ha. intros [[v|] c2] x (h' & Ha).
  - eapply wp_store_head; [exact Ha|]. clear x Ha. intros x Ha.
    eapply wp_pw; [apply ca_owned|auto with fanring|exact Ha|]. intros w y Hy.
    eapply wp_retP; [apply ca_owned|exact Hy|eauto].
  - eapply wp_retP; [apply ca_owned|exact Ha|eauto].
Qed.

Lemma wp_is_empty c ct ph h got x :
  ca c ct ph h got x -> wp guar 1 (Consumer_is_empty c) (fun _ => ca c ct ph h got) x.
Proof.
  assert (He : forall x, ca c ct ph h got x ->
    wp guar 1 (Ring_consumer_is_empty (consumer_head c) (consumer_cached_tail c)) (fun _ => ca c ct ph h got) x).
  { intros y Hy. unfold Ring_consumer_is_empty. destruct (_ =? _).
    - eapply wp_load; [apply ca_owned|exact Hy|]. intros r g H.
      eapply wp_retP; [apply ca_owned|exact H|done].
    - eapply wp_retP; [apply ca_owned|exact Hy|done]. }
  intros Ha. eapply wp_call; [apply He, Ha|]. clear x Ha. intros e x Ha.
  destruct (negb e); [eapply wp_retP; [apply ca_owned|exact Ha|done]|].
  eapply wp_cw; [apply ca_owned|auto with fanring|exact Ha|]. clear x Ha. intros reg x Ha.
  destruct (negb reg); [eapply wp_retP; [apply ca_owned|exact Ha|done]|by apply He].
Qed.

Lemma wp_consumer_close c ct ph h got x :
  ca c ct ph h got x -> wp guar 1 (Consumer_close c) (fun _ => ca c ct h h got) x.
Proof.
  intros Ha. eapply wp_store_head; [exact Ha|]. clear x Ha. intros x Ha.
  change (store (set_consumer_dropped true)) with
    (bind (store (S := Ring T) (set_consumer_dropped true)) (fun u => Ret u)).
  eapply wp_flags; [apply ca_owned|exact Ha|done|]. intros z Hz.
  eapply wp_retP; [apply ca_owned|exact Hz|done].
Qed.

(** ** One operation of a thread *)

Ltac wp_read Ha := eapply wp_load; [first [apply pa_owned|apply ca_owned]|exact Ha|];
  let Hy := fresh "Hy" in intros ? ? Hy; eapply wp_retP; [first [apply pa_owned|apply ca_owned]|exact Hy|].

Lemma wp_producer_cmd cmd p c t hist x :
  is_producer_cmd cmd = true -> pa p t hist x ->
  wp guar 0 (exec_cmd cmd p c) (fun '(o, p', _) y => exists t',
    pa p' t' (hist ++ cmd_accepted cmd o) y) x.
Proof.
  intros Hcmd Ha. destruct cmd; try discriminate Hcmd; cbn [exec_cmd].
  - eapply wp_call; [eapply wp_push, Ha|]. intros [[[]|w] p'] y Hy.
    + eapply wp_retP; [apply pa_owned|exact Hy|eauto].
    + destruct Hy as [_ Hy]. eapply wp_retP; [apply pa_owned|exact Hy|]. cbn. rewrite app_nil_r. eauto.
  - eapply wp_call; [eapply wp_flush, Ha|]. intros u y Hy.
    eapply wp_retP; [apply pa_owned|exact Hy|]. cbn. rewrite app_nil_r. eauto.
  - eapply wp_call; [eapply wp_flush_and_check, Ha|]. intros [res p'] y [t' Hy].
    eapply wp_retP; [apply pa_owned|exact Hy|]. cbn. rewrite app_nil_r. eauto.
  - eapply wp_call; [eapply wp_push_and_flush, Ha|]. intros [[[]|w] p'] y [t' Hy].
    + eapply wp_retP; [apply pa_owned|exact Hy|eauto].
    + eapply wp_retP; [apply pa_owned|exact Hy|]. cbn. rewrite app_nil_r. eauto.
  - eapply wp_call; [eapply wp_is_full, Ha|]. intros [b p'] y Hy.
    eapply wp_retP; [apply pa_owned|exact Hy|]. cbn. rewrite app_nil_r. eauto.
  - wp_read Ha. cbn. rewrite app_nil_r. eauto.
  - wp_read Ha. cbn. rewrite app_nil_r. eauto.
  - wp_read Ha. cbn. rewrite app_nil_r. eauto.
  - eapply wp_call; [eapply wp_producer_close, Ha|]. intros u y Hy.
    eapply wp_retP; [apply pa_owned|exact Hy|]. cbn. rewrite app_nil_r. eauto.
  - wp_read Ha. cbn. rewrite app_nil_r. eauto.
Qed.

Lemma wp_consumer_cmd cmd p c ct ph h got x :
  is_consumer_cmd cmd = true -> cmd_ok cmd -> ca c ct ph h got x ->
  wp guar 1 (exec_cmd cmd p c) (fun '(o, _, c') y => exists ct' ph' h',
    ca c' ct' ph' h' (got ++ cmd_delivered cmd o) y) x.
Proof.
  intros Hcmd Hok Ha. destruct cmd; try discriminate Hcmd; cbn [exec_cmd cmd_ok] in *.
  - eapply wp_call; [eapply wp_prefetch, Ha|]. intros [n c'] y [ct' Hy].
    eapply wp_retP; [apply ca_owned|exact Hy|]. cbn. rewrite app_nil_r. eauto.
  - eapply wp_call; [eapply wp_pop, Ha|]. intros [[v|] c'] y [h' Hy];
      eapply wp_retP; [apply ca_owned|exact Hy|cbn; eauto|apply ca_owned|exact Hy|cbn; eauto].
  - eapply wp_call; [eapply wp_pop_into; eauto|]. intros [[n out] c'] y (vs & h' & -> & Hy).
    eapply wp_retP; [apply ca_owned|exact Hy|]. cbn. rewrite drop_app_length. eauto.
  - eapply wp_call; [eapply wp_pop_into_while; eauto|]. intros [[[n out] a'] c'] y (vs & h' & -> & Hy).
    eapply wp_retP; [apply ca_owned|exact Hy|]. cbn. rewrite drop_app_length. eauto.
  - eapply wp_call; [eapply wp_release, Ha|]. intros u y Hy.
    eapply wp_retP; [apply ca_owned|exact Hy|]. cbn. rewrite app_nil_r. eauto.
  - eapply wp_call; [eapply wp_release_with_full, Ha|]. intros b y [ph' Hy].
    eapply wp_retP; [apply ca_owned|exact Hy|]. cbn. rewrite app_nil_r. eauto.
  - eapply wp_call; [eapply wp_prefetch_and_pop, Ha|]. intros [[v|] c'] y (ct' & ph' & h' & Hy);
      eapply wp_retP; [apply ca_owned|exact Hy|cbn; eauto|apply ca_owned|exact Hy|cbn; eauto].
  - eapply wp_call; [eapply wp_prefetch_and_pop_with_full, Ha|].
    intros [[[v w]|] c'] y (ct' & ph' & h' & Hy);
      eapply wp_retP; [apply ca_owned|exact Hy|cbn; eauto|apply ca_owned|exact Hy|cbn; eauto].
  - eapply wp_call; [eapply wp_is_empty, Ha|]. intros b y Hy.
    eapply wp_retP; [apply ca_owned|exact Hy|]. cbn. rewrite app_nil_r. eauto.
  - eapply wp_load; [apply ca_owned|exact Ha|]. clear x Ha. intros r g Ha.
    destruct (ring_producer_dropped r); [wp_read Ha|eapply wp_retP; [apply ca_owned|exact Ha|]];
      cbn; rewrite app_nil_r; eauto.
  - wp_read Ha. cbn. rewrite app_nil_r. eauto.
  - wp_read Ha. cbn. rewrite app_nil_r. eauto.
  - eapply wp_call; [eapply wp_consumer_close, Ha|]. intros u y Hy.
    eapply wp_retP; [apply ca_owned|exact Hy|]. cbn. rewrite app_nil_r. eauto.
Qed.

(** ** Whole threads *)

Lemma accepted_cons cmd cmds o os :
  accepted (cmd :: cmds) (o :: os) = cmd_accepted cmd o ++ accepted cmds os.
Proof. done. Qed.
Lemma delivered_cons cmd cmds o os :
  delivered (cmd :: cmds) (o :: os) = cmd_delivered cmd o ++ delivered cmds os.
Proof. done. Qed.

Lemma wp_producer_cmds cmds : forall p c t hist x,
  Forall (fun cmd => is_producer_cmd cmd = true) cmds -> pa p t hist x ->
  wp guar 0 (exec_cmds cmds p c) (fun '(os, p', _) y => exists t',
    pa p' t' (hist ++ accepted cmds os) y) x.
Proof.
  induction cmds as [|cmd cmds IH]; intros p c t hist x Hc Ha; cbn [exec_cmds].
  - eapply wp_retP; [apply pa_owned|exact Ha|]. cbn. rewrite app_nil_r. eauto.
  - inversion Hc as [|? ? Hc1 Hc2]; subst.
    eapply wp_call; [eapply wp_producer_cmd; eauto|]. intros [[o p1] c1] y [t1 Hy].
    eapply wp_call; [eapply IH; eauto|]. intros [[os p2] c2] z [t2 Hz].
    eapply wp_retP; [apply pa_owned|exact Hz|].
    intros w Hw. exists t2. by rewrite accepted_cons, app_assoc.
Qed.

Lemma wp_consumer_cmds cmds : forall p c ct ph h got x,
  Forall (fun cmd => is_consumer_cmd cmd = true /\ cmd_ok cmd) cmds -> ca c ct ph h got x ->
  wp guar 1 (exec_cmds cmds p c) (fun '(os, _, c') y => exists ct' ph' h',
    ca c' ct' ph' h' (got ++ delivered cmds os) y) x.
Proof.
  induction cmds as [|cmd cmds IH]; intros p c ct ph h got x Hc Ha; cbn [exec_cmds].
  - eapply wp_retP; [apply ca_owned|exact Ha|]. cbn. rewrite app_nil_r. eauto.
  - inversion Hc as [|? ? [Hc1 Hc1'] Hc2]; subst.
    eapply wp_call; [eapply wp_consumer_cmd; eauto|]. intros [[o p1] c1] y (ct1 & ph1 & h1 & Hy).
    eapply wp_call; [eapply IH; eauto|]. intros [[os p2] c2] z (ct2 & ph2 & h2 & Hz).
    eapply wp_retP; [apply ca_owned|exact Hz|].
    intros w Hw. exists ct2, ph2, h2. by rewrite delivered_cons, app_assoc.
Qed.

(** ** From the end of both threads to the sequential relation *)

Lemma pa_ca_rep p c ct ph h t hist got x :
  pa p t hist x -> ca c ct ph h got x ->
  exists sp, ring_rep x.1 p c sp /\ hist = got ++ sp_items sp.
Proof.
  destruct x as [r g]. intros Ha Hb. pa_intro Ha. ca_intro Hb. subst.
  exists (mkSpec cap (g_h g - g_ph g) (seg (g_hist g) (g_h g) ct) (seg (g_hist g) ct (g_t g))
    (seg (g_hist g) (g_t g) (zlength (g_hist g))) (ring_consumer_waiting r) (ring_producer_waiting r)
    (ring_producer_dropped r) (ring_consumer_dropped r)).
  assert (Hit : drop (Z.to_nat (g_h g)) (g_hist g) =
    seg (g_hist g) (g_h g) ct ++ seg (g_hist g) ct (g_t g) ++ seg (g_hist g) (g_t g) (zlength (g_hist g))).
  { rewrite <- seg_app, <- seg_app by lia. unfold seg, zlength in *.
    rewrite take_ge; [done|]. rewrite length_drop. lia. }
  split; [|unfold sp_items; cbn; by rewrite <- Hit, take_drop].
  red. exists base, (g_ph g), ch, (g_hist g).
  split; cbn; auto; rewrite ?zlength_seg by lia; try lia.
  - eapply ring_ok_eq; [exact Hok|cbn; lia|cbn; lia].
  - rewrite <- Hit. do 2 f_equal. lia.
  - rewrite Hc0. f_equal. lia.
  - rewrite Hct. f_equal. lia.
Qed.

End conc.
Arguments ghost T : clear implicits.

Section pool.
Context {T Adm : Type}.

Definition spsc_pool (pcmds ccmds : list (spsc_cmd T Adm)) (p : Producer) (c : Consumer)
    : list (prog (Ring T) (list (spsc_out T Adm) * Producer * Consumer)) :=
  [exec_cmds pcmds p c; exec_cmds ccmds p c].

(** What a finished thread has. *)
Definition spsc_post (cap base : Z) (pcmds ccmds : list (spsc_cmd T Adm)) (i : nat)
    (a : list (spsc_out T Adm) * Producer * Consumer) (x : Ring T * ghost T) : Prop :=
  let '(os, p, c) := a in
  match i with
  | O => exists t, pa cap base p t (accepted pcmds os) x
  | _ => exists ct ph h, ca cap base c ct ph h (delivered ccmds os) x
  end.

Lemma spsc_pool_wp cap base pcmds ccmds r p c :
  Forall (fun cmd => is_producer_cmd cmd = true) pcmds ->
  Forall (fun cmd => is_consumer_cmd cmd = true /\ cmd_ok cmd) ccmds ->
  ring_rep_at base 0 0 [] r p c (spec_init cap) ->
  pool_wp (guar cap base) (spsc_post cap base pcmds ccmds) (spsc_pool pcmds ccmds p c)
    (r, mkGhost 0 0 0 []).
Proof.
  intros Hp Hc H. pose proof (rep_ok _ _ _ _ _ _ _ _ H) as Hok. cbn in Hok.
  pose proof (valid_cap_range _ (ok_cap _ _ _ _ _ _ _ Hok)).
  pose proof (rep_cursor _ _ _ _ _ _ _ _ H) as E1. pose proof (rep_cached_head _ _ _ _ _ _ _ _ H) as E2.
  pose proof (rep_chead _ _ _ _ _ _ _ _ H) as E3. pose proof (rep_cached_tail _ _ _ _ _ _ _ _ H) as E4.
  cbn in E1, E2, E3, E4. intros [|[|i]] q Hq; [| |by destruct i]; cbn in Hq; simplify_eq.
  - eapply wp_mono; [|eapply (wp_producer_cmds cap base pcmds p c 0 []); [done|]].
    + intros [[os p'] c'] y. cbn. auto.
    + split_and!; auto. exists 0. cbn. split_and!; auto; unfold zlength; simpl; lia.
  - eapply wp_mono; [|eapply (wp_consumer_cmds cap base ccmds p c 0 0 0 []); [done|]].
    + intros [[os p'] c'] y. cbn. auto.
    + split_and!; auto; cbn; lia.
Qed.

(** C5: for every capacity, starting cursor, and command list of each
    endpoint, every interleaving of the two endpoints' atomic accesses ends,
    none of its states is a fault or a deadlock, and in its final state the
    items the consumer received followed by the items the final drops dispose
    of are exactly the items whose push succeeded, in order. *)
Theorem spsc_interleaving_fifo (capacity cursor : Z) (pcmds ccmds : list (spsc_cmd T Adm)) (producer_first : bool) :
  0 < capacity <= 2 ^ 62 -> is_usize cursor ->
  Forall (fun cmd => is_producer_cmd cmd = true) pcmds ->
  Forall (fun cmd => is_consumer_cmd cmd = true /\ cmd_ok cmd) ccmds ->
  exists ring,
    let p := mkProducer cursor cursor in let c := mkConsumer cursor cursor in
    loom_spsc_with_cursors capacity cursor = Done (ring, p, c) /\
    Acc (flip pstep) (ring, spsc_pool pcmds ccmds p c) /\
    forall r' ps', rtc pstep (ring, spsc_pool pcmds ccmds p c) (r', ps') ->
      ((exists c', pstep (r', ps') c') \/
       exists os1 p1 c1 os2 p2 c2, ps' = [Ret (os1, p1, c1); Ret (os2, p2, c2)] /\
         runs (drop_endpoints producer_first p1 c2) r' (fun dropped r'' =>
           accepted pcmds os1 = delivered ccmds os2 ++ dropped /\
           run Ring_drop r'' = (Done [], r''))).
Proof.
  intros Hcap Hu Hp Hc. destruct (spsc_init_rep_at (T := T) capacity cursor Hcap Hu)
    as (cap & ring & _ & _ & E & _ & H).
  exists ring. cbn zeta. split; [done|]. split; [apply pstep_terminating|]. intros r' ps' Hr.
  destruct (pool_sound _ _ _ _ _ _ _ (spsc_pool_wp _ _ _ _ _ _ _ Hp Hc H) Hr) as [g' Hw].
  destruct (pool_progress _ _ _ _ Hw (r', ps') eq_refl) as [Hstep|Hfin]; [by left|right].
  apply pool_length in Hr. destruct ps' as [|q1 [|q2 []]]; try discriminate Hr.
  inversion Hfin as [|? ? [[[os1 p1] c1] ->] Hfin2]; subst.
  inversion Hfin2 as [|? ? [[[os2 p2] c2] ->] _]; subst.
  pose proof (pool_wp_ret _ _ _ _ 0 _ Hw eq_refl) as [t Ha].
  pose proof (pool_wp_ret _ _ _ _ 1 _ Hw eq_refl) as (ct & ph & h & Hb).
  destruct (pa_ca_rep _ _ _ _ _ _ _ _ _ _ _ Ha Hb) as (sp & Hrep & Hi).
  exists os1, p1, c1, os2, p2, c2. split; [done|].
  eapply runs_mono; [eapply drop_endpoints_items, Hrep|]. intros vs r'' [-> Hd]. auto.
Qed.

End pool.

(** A producer of three items and a consumer that takes them one by one and
    in bulk, on a ring of two starting at the top of the word. *)
Definition demo_pcmds : list (spsc_cmd nat unit) :=
  [CPush 1%nat; CFlushCheck; CPush 2%nat; CPushFlush 3%nat; CProducerClose].
Definition demo_ccmds : list (spsc_cmd nat unit) :=
  [CPrefetchPopFull; CPrefetch; CPopInto [] 2; CReleaseFull; CPrefetchPop].

Lemma spsc_interleaving_fifo_witness :
  exists ring,
    let p := mkProducer usize_max usize_max in let c := mkConsumer usize_max usize_max in
    loom_spsc_with_cursors 2 usize_max = Done (ring, p, c) /\
    Acc (flip pstep) (ring, spsc_pool demo_pcmds demo_ccmds p c) /\
    forall r' ps', rtc pstep (ring, spsc_pool demo_pcmds demo_ccmds p c) (r', ps') ->
      ((exists c', pstep (r', ps') c') \/
       exists os1 p1 c1 os2 p2 c2, ps' = [Ret (os1, p1, c1); Ret (os2, p2, c2)] /\
         runs (drop_endpoints true p1 c2) r' (fun dropped r'' =>
           accepted demo_pcmds os1 = delivered demo_ccmds os2 ++ dropped /\
           run Ring_drop r'' = (Done [], r''))).
Proof.
  apply (spsc_interleaving_fifo 2 usize_max demo_pcmds demo_ccmds true);
    [lia|usize|repeat constructor|repeat constructor; simpl; lia].
Defined.
