(* ===== verification/YRingClose.v ===== *)
(** * Closing a ring

    The ring's rely-guarantee argument (YRingConc) with the discipline of the
    closing flag that both channels rely on: only the sender closes its ring,
    closing publishes everything written, and nothing is written afterwards.
    A consumer that sees the flag and then an empty ring has received
    everything. *)

From S2P Require Import Prelude Prog YRing YRingInv YRingSpec YRingThm YRingConc.
Local Open Scope prog_scope.

(** Every ring operation but [Producer_close] leaves the closing flag alone. *)
Section open.
Context {T : Type}.
#[local] Abbreviation keeps_open := (keeps (ring_producer_dropped (T := T))).

Lemma open_load {R} (get : Ring T -> R) : keeps_open (load get).
Proof. by cbn. Qed.
Lemma open_store upd : (forall r : Ring T, ring_producer_dropped (upd r) = ring_producer_dropped r) -> keeps_open (store upd).
Proof. by cbn. Qed.
Lemma open_slot_take i : keeps_open (slot_take i).
Proof. cbn. split; [intros r; by destruct (zlookup _ _) as [[]|]|by intros []]. Qed.
Lemma open_slot_write i (v : T) : keeps_open (slot_write i v).
Proof. cbn. split; [intros r; by destruct (zlookup _ _)|by intros []]. Qed.
#[local] Hint Resolve open_load open_slot_take open_slot_write : fanring.
Lemma open_of_outcome {A} (o : outcome A) : keeps_open (of_outcome o).
Proof. by destruct o. Qed.
#[local] Hint Resolve open_of_outcome : fanring.

Lemma open_prefetch c : keeps_open (Consumer_prefetch c).
Proof. unfold Consumer_prefetch, Ring_prefetch. keeps_tac. Qed.
Lemma open_pop c : keeps_open (Consumer_pop c).
Proof. unfold Consumer_pop, Ring_pop, Ring_index. keeps_tac. Qed.
Lemma open_move_slots n : forall start, keeps_open (Ring_move_slots start n).
Proof. induction n; intros start; cbn [Ring_move_slots]; keeps_tac. Qed.
#[local] Hint Resolve open_move_slots : fanring.
Lemma open_pop_into c output limit : keeps_open (Consumer_pop_into c output limit).
Proof. unfold Consumer_pop_into, Ring_pop_into, Ring_capacity, Ring_index. keeps_tac. Qed.
Lemma open_accepted_prefix {Adm} (accepts : Adm -> T -> bool * Adm) n : forall head acc adm,
  keeps_open (Ring_accepted_prefix accepts head n acc adm).
Proof. induction n; intros head acc adm; cbn [Ring_accepted_prefix]; unfold Ring_index; keeps_tac. Qed.
#[local] Hint Resolve open_accepted_prefix : fanring.
Lemma open_pop_into_while {Adm} c output limit (accepts : Adm -> T -> bool * Adm) adm :
  keeps_open (Consumer_pop_into_while c output limit accepts adm).
Proof. unfold Consumer_pop_into_while, Ring_pop_into, Ring_capacity, Ring_index. keeps_tac. Qed.
Lemma open_release c : keeps_open (Consumer_release c).
Proof. by apply open_store. Qed.
#[local] Hint Resolve open_release : fanring.
Lemma open_consumer_close c : keeps_open (Consumer_close c).
Proof. apply keeps_bind; [apply open_release|]. intros. by apply open_store. Qed.
Lemma open_is_disconnected c : keeps_open (Consumer_is_disconnected c).
Proof. unfold Consumer_is_disconnected. keeps_tac. Qed.
Lemma open_push p (v : T) : keeps_open (Producer_push p v).
Proof. unfold Producer_push, Producer_push_after_full, Ring_push, Ring_capacity, Ring_index. keeps_tac. Qed.
Lemma open_flush p : keeps_open (Producer_flush p).
Proof. by apply open_store. Qed.
#[local] Hint Resolve open_push open_flush : fanring.
Lemma open_push_and_flush p (v : T) : keeps_open (Producer_push_and_flush p v).
Proof. unfold Producer_push_and_flush. keeps_tac. Qed.
Lemma open_is_full p : keeps_open (Producer_is_full p).
Proof. unfold Producer_is_full, Ring_is_full, Ring_capacity. keeps_tac. Qed.
End open.
#[export] Hint Resolve open_prefetch open_pop open_pop_into open_pop_into_while open_release open_consumer_close
  open_is_disconnected open_push open_flush open_push_and_flush open_is_full open_load : fanring.

Section close.
Context {T : Type}.

(** Whether the sender of a ring has closed it; nothing is written afterwards,
    and everything written is published. *)
Definition dropped (z : Ring T * ghost T) : bool := ring_producer_dropped z.1.
Definition closed_ok (z : Ring T * ghost T) : Prop :=
  dropped z = true -> g_t z.2 = zlength (g_hist z.2).
Definition close_step (r : nat) (z z' : Ring T * ghost T) : Prop :=
  match r with
  | O => dropped z = true -> dropped z' = true /\ g_t z'.2 = g_t z.2 /\ g_hist z'.2 = g_hist z.2
  | _ => dropped z' = dropped z
  end.

(** The ring's guarantee with the closing discipline. *)
Definition guarc (cap : Z) (r : nat) : relation (Ring T * ghost T) := fun z z' =>
  guar cap 0 r z z' /\ close_step r z z' /\ closed_ok z'.

(** A sender knows that its ring is open until it closes it. *)
Definition open_at (r : nat) (z : Ring T * ghost T) : Prop :=
  match r with O => dropped z = false | _ => True end.

Lemma close_step_refl r z : close_step r z z.
Proof. by destruct r. Qed.

Lemma guarc_refl cap r z : (r < 2)%nat -> ok cap 0 z -> closed_ok z -> guarc cap r z z.
Proof. intros. split; [|split; [apply close_step_refl|done]]. destruct z. by apply guar_refl. Qed.

Lemma relyc cap r z z' : rely (guarc cap) r z z' -> rely (guar cap 0) r z z' /\ closed_ok z' /\ (open_at r z -> open_at r z').
Proof.
  intros (j & Hj & Hg & Hc & Hok). split; [by exists j|]. split; [done|].
  destruct r as [|r]; [|done]. destruct j as [|[|]]; [done|cbn in *; congruence|done].
Qed.

Lemma relyc_rtc cap r z z' :
  rtc (rely (guarc cap) r) z z' -> closed_ok z -> open_at r z ->
  rtc (rely (guar cap 0) r) z z' /\ closed_ok z' /\ open_at r z'.
Proof.
  induction 1 as [z|z z1 z2 Hs _ IH]; intros Hc Ho; [by split_and!; [constructor|..]|].
  destruct (relyc _ _ _ _ Hs) as (H1 & H2 & H3). destruct (IH H2 (H3 Ho)) as (K1 & K2 & K3).
  split_and!; [|done..]. by econstructor.
Qed.

Lemma stablec cap r P : stable (guar cap 0) r P -> stable (guarc cap) r P.
Proof. intros H x y Hx Hy. apply relyc in Hy as [Hy _]. by eapply H. Qed.

(** A step of a ring operation that leaves the closing flag alone. *)
Lemma keeps_close_step r z z' cap :
  (r < 2)%nat -> guar cap 0 r z z' -> dropped z' = dropped z -> closed_ok z -> open_at r z ->
  guarc cap r z z' /\ open_at r z'.
Proof.
  intros Hr Hg E Hc Ho. destruct r as [|[|]]; [..|lia]; cbn in *.
  - split; [|congruence]. split_and!; [done|cbn; congruence|]. unfold closed_ok. congruence.
  - split; [|done]. split_and!; [done|done|]. destruct Hg as (_ & E1 & E2 & _). unfold closed_ok. rewrite E, E1, E2. done.
Qed.

(** A ring operation that does not close the ring keeps the discipline. *)
Lemma wp_keeps {A} cap r (q : prog (Ring T) A) Q z :
  (r < 2)%nat -> keeps ring_producer_dropped q -> wp (guar cap 0) r q Q z -> closed_ok z -> open_at r z ->
  wp (guarc cap) r q (fun a z' => Q a z' /\ open_at r z') z.
Proof.
  intros Hr. revert z. induction q as [a|R f c IH|e]; intros z Hk Hw Hc Ho y Hy;
    destruct (relyc_rtc _ _ _ _ Hy Hc Ho) as (Hy' & Hcy & Hoy).
  - split; [by apply Hw|done].
  - destruct (Hw y Hy') as (g' & Hg & Hk'). exists g'. destruct Hk as [Hd Hk]. specialize (Hd y.1).
    destruct (keeps_close_step r y ((f y.1).2, g') cap Hr Hg Hd Hcy Hoy) as [K1 K2].
    split; [exact K1|]. apply IH; [apply Hk|exact Hk'|apply K1|exact K2].
  - destruct (Hw y Hy').
Qed.

(** A consumer operation of the ring under the closing discipline. *)
Lemma wp_kept {A} cap (q : prog (Ring T) A) (Q : A -> Ring T * ghost T -> Prop) z :
  keeps ring_producer_dropped q -> closed_ok z -> wp (guar cap 0) 1 q Q z -> wp (guarc cap) 1 q Q z.
Proof.
  intros Hk Hc Hw. eapply wp_mono; [|apply (wp_keeps cap 1 q Q z); [lia|done..]]. by intros a y [].
Qed.

(** ** The consumer *)

(** The ring is closed and everything ever written to it is [got]. *)
Definition ended (got : list T) (z : Ring T * ghost T) : Prop := dropped z = true /\ g_hist z.2 = got.

Lemma ended_guarc cap r got z z' : (r < 2)%nat -> ended got z -> guarc cap r z z' -> ended got z'.
Proof.
  intros Hr [H1 H2] (Hg & Hc & _). destruct r as [|[|]]; [..|lia]; cbn in *.
  - destruct (Hc H1) as (E1 & E2 & E3). split; congruence.
  - split; [congruence|]. destruct Hg as (_ & _ & E & _). congruence.
Qed.

Lemma ended_stable cap r got : (r < 2)%nat -> stable (guarc cap) r (ended got).
Proof. intros Hr z z' H (j & Hj & Hg). destruct j as [|[|]]; [by eapply ended_guarc; [|done..]; lia..|by destruct Hg]. Qed.

Lemma wp_is_disconnected_ring cap c ct ph h got (z : Ring T * ghost T) :
  ca cap 0 c ct ph h got z -> closed_ok z ->
  wp (guarc cap) 1 (Consumer_is_disconnected c) (fun d z => ca cap 0 c ct ph h got z /\ (d = true -> ended got z)) z.
Proof.
  intros Ha Hc. assert (Hst : stable (guarc cap) 1 (fun z => ca cap 0 c ct ph h got z /\ closed_ok z)).
  { intros u v [H1 _] Hr. split; [by eapply (stablec cap 1); [apply ca_stable|..]|by apply relyc in Hr as (_ & ? & _)]. }
  eapply (wp_act _ _ _ _ _ _ _ Hst); [by split|]. intros r g [H Hcl]. exists g. cbn [fst snd].
  split; [apply guarc_refl; [lia|apply H|done]|]. destruct (ring_producer_dropped r) eqn:Ed.
  2:{ eapply wp_retP; [exact Hst|by split|]. by intros y [Hy _]. }
  assert (Hst2 : stable (guarc cap) 1 (fun z => (ca cap 0 c ct ph h got z /\ closed_ok z) /\ ended (g_hist g) z)).
  { apply stable_and; [done|apply ended_stable; lia]. }
  eapply (wp_act _ _ _ _ _ _ _ Hst2); [by split_and!|]. clear r H Hcl Ed. intros r g' [[H Hcl] [E1 E2]]. exists g'. cbn [fst snd] in *.
  split; [apply guarc_refl; [lia|apply H|done]|]. eapply wp_retP; [exact Hst2|by split_and!|].
  intros y [[Hy _] [K1 K2]]. split; [done|]. intros Heq. split; [done|]. rewrite K2, <- E2.
  destruct H as (Hok & Hph & Hh & Hg & Hhd & Htl & Hr). pose proof (ok_facts _ _ _ Hok) as Hf. cbn [fst snd] in *.
  specialize (Hcl E1). cbn in Hcl. pose proof (ok_tail _ _ _ _ _ _ _ Hok) as Et. cbn in Et.
  rewrite Hhd, Et in Heq. rewrite cursor_eqb_sym in Heq by lia. apply Z.eqb_eq in Heq.
  rewrite <- Hg, take_ge; [done|]. unfold zlength in *. lia.
Qed.

(** ** The producer *)

Lemma wp_closing_flush {B} cap p t acc (c : unit -> prog (Ring T) B) Q (z : Ring T * ghost T) :
  pa cap 0 p t acc z -> closed_ok z ->
  (forall z, pa cap 0 p (zlength acc) acc z -> closed_ok z -> wp (guarc cap) 0 (c tt) Q z) ->
  wp (guarc cap) 0 (bind (Producer_flush p) c) Q z.
Proof.
  intros Hz Hcl Hk. assert (HS : stable (guarc cap) 0 (fun z => pa cap 0 p t acc z /\ closed_ok z)).
  { intros u v [H1 _] Hr. split; [by eapply (stablec cap 0); [apply pa_stable|..]|by apply relyc in Hr as (_ & ? & _)]. }
  eapply (wp_act _ _ _ _ _ _ _ HS); [by split|]. clear z Hz Hcl. intros r g [Ha Hcl]. cbn [fst snd].
  pose proof Ha as (Hok & Ht & Hh & Hc & ch & Hch & Hr & Hl). pose proof (ok_facts _ _ _ Hok) as Hf. cbn [fst snd] in *.
  assert (Hok' : ok cap 0 (set_tail (producer_cursor p) r, mkGhost (g_ph g) (g_h g) (zlength acc) acc)).
  { rewrite Hc. cbn. apply (ring_ok_set_tail _ _ _ _ (g_t g)); [by rewrite <- Hh|]. subst acc. cbn in *. lia. }
  exists (mkGhost (g_ph g) (g_h g) (zlength acc) acc). split.
  - split; [split_and!; cbn; auto; [subst acc; lia|by rewrite Hh]|]. split; [|done].
    intros Hd. specialize (Hcl Hd). cbn in *. rewrite Hcl, Hh. done.
  - apply Hk; [|done]. split_and!; auto. exists ch. cbn. auto.
Qed.

Lemma wp_producer_closec cap p t acc (z : Ring T * ghost T) :
  pa cap 0 p t acc z -> closed_ok z ->
  wp (guarc cap) 0 (Producer_close p) (fun _ z => (exists t', pa cap 0 p t' acc z) /\ dropped z = true) z.
Proof.
  intros Hz Hcl. eapply wp_closing_flush; [exact Hz|exact Hcl|]. clear z Hz Hcl. intros z Hz Hcl.
  assert (HS : stable (guarc cap) 0 (fun z => pa cap 0 p (zlength acc) acc z /\ closed_ok z)).
  { intros u v [H1 _] Hr. split; [by eapply (stablec cap 0); [apply pa_stable|..]|by apply relyc in Hr as (_ & ? & _)]. }
  change (store (set_producer_dropped true)) with (bind (store (S := Ring T) (set_producer_dropped true)) (fun u => Ret u)).
  eapply (wp_act _ _ _ _ _ _ _ HS); [by split|]. clear z Hz Hcl. intros r g [Ha Hcl]. cbn [fst snd]. exists g.
  assert (Hok : ok cap 0 (set_producer_dropped true r, g)) by (eapply ring_ok_ext; [apply Ha|done..]).
  assert (Ha' : pa cap 0 p (zlength acc) acc (set_producer_dropped true r, g)) by (split; [done|apply Ha]).
  split.
  - split; [by apply guar_0_refl|]. split; [done|]. intros _. destruct Ha as (_ & E1 & E2 & _). cbn in *. by rewrite E1, E2.
  - eapply (wp_retP _ _ (fun z => (exists t', pa cap 0 p t' acc z) /\ dropped z = true)); [|by split; [exists (zlength acc)|]|done].
    intros u v [[t' Ht'] Hd] Hr. split; [exists t'; by eapply (stablec cap 0); [apply pa_stable|..]|].
    destruct Hr as (j & Hj & _ & Hc & _). destruct j as [|j]; [done|]. cbn in Hc. congruence.
Qed.

End close.
