(* ===== verification/YRingWake.v ===== *)
(** * No lost wakeups between the endpoints of the SPSC ring

    The wake hints of [flush_and_check] promise that a consumer which found
    the ring empty is signalled for what is published afterwards.  The client
    of this file is the protocol the crate documents: before it looks, the
    consumer clears an external signal; the producer sets it whenever a flush
    returns the hint.  The theorem covers every interleaving of the atomic
    accesses, whether or not the consumer's registration was enabled in time,
    armed, or raced with a notification.

    The proof extends the rely-guarantee argument of YRingConc by the phase of
    the consumer's registration and two flags of the producer: a publication
    whose [take] is still to come, and a hint that is not yet signalled. *)

From S2P Require Import Prelude Prog YRing YRingInv YRingSpec YRingThm YRingConc.
Local Open Scope prog_scope.

(** The ring and the external signal. *)
Definition sig_state (T : Type) : Type := Ring T * bool.
Definition put_ring {T} (r : Ring T) (s : sig_state T) : sig_state T := (r, s.2).
Definition on_ring {T A} (p : prog (Ring T) A) : prog (sig_state T) A := lift fst put_ring p.
Definition set_signal {T} (b : bool) : prog (sig_state T) unit := store (fun s => (s.1, b)).

Section client.
Context {T Adm : Type}.

(** The producer's publication: flush, then signal on the hint. *)
Definition flush_and_notify (p : Producer) : prog (sig_state T) (FlushResult * Producer) :=
  let* '(res, p) := on_ring (Producer_flush_and_check p) in
  match res with
  | Flushed n true => let* _ := set_signal true in Ret (res, p)
  | _ => Ret (res, p)
  end.

(** The consumer's last look before it would sleep. *)
Definition look_before_sleep (c : Consumer) : prog (sig_state T) (Z * Consumer) :=
  let* _ := set_signal false in
  on_ring (Consumer_prefetch c).

Inductive notify_cmd : Type :=
| NPush (v : T)
| NPublish.

(** The consumer's operations that do not look for published items. *)
Inductive sleep_cmd : Type :=
| SLook
| SPop
| SPopInto (output : list T) (limit : Z)
| SRelease
| SReleaseFull.

Definition exec_notify (cmd : notify_cmd) (p : Producer) : prog (sig_state T) Producer :=
  match cmd with
  | NPush v => let* '(_, p) := on_ring (Producer_push p v) in Ret p
  | NPublish => let* '(_, p) := flush_and_notify p in Ret p
  end.

Definition exec_sleep (cmd : sleep_cmd) (c : Consumer) : prog (sig_state T) Consumer :=
  match cmd with
  | SLook => let* '(_, c) := look_before_sleep c in Ret c
  | SPop => let* '(_, c) := on_ring (Consumer_pop c) in Ret c
  | SPopInto output limit => let* '(_, _, c) := on_ring (Consumer_pop_into c output limit) in Ret c
  | SRelease => let* _ := on_ring (Consumer_release c) in Ret c
  | SReleaseFull => let* _ := on_ring (Consumer_release_with_full c) in Ret c
  end.

Fixpoint notifier (cmds : list notify_cmd) (p : Producer) : prog (sig_state T) (Producer + Consumer) :=
  match cmds with
  | [] => Ret (inl p)
  | cmd :: cmds' => let* p := exec_notify cmd p in notifier cmds' p
  end.

(** Any operations, then the look that decides whether to sleep. *)
Fixpoint sleeper (cmds : list sleep_cmd) (c : Consumer) : prog (sig_state T) (Producer + Consumer) :=
  match cmds with
  | [] => let* '(_, c) := look_before_sleep c in Ret (inr c)
  | cmd :: cmds' => let* c := exec_sleep cmd c in sleeper cmds' c
  end.

Definition sleep_cmd_ok (cmd : sleep_cmd) : Prop :=
  match cmd with SPopInto _ limit => 0 <= limit | _ => True end.

(** The consumer decided to sleep: its window is used up. *)
Definition sleeps (c : Consumer) : bool := consumer_head c =? consumer_cached_tail c.

End client.
Arguments notify_cmd T : clear implicits.
Arguments sleep_cmd T : clear implicits.

(** A program that leaves the tail and the consumer's registration alone. *)
Fixpoint quiet {T A} (p : prog (Ring T) A) : Prop :=
  match p with
  | Ret _ | Fail _ => True
  | Act f k =>
      (forall r, ring_tail (f r).2 = ring_tail r /\
                 ring_consumer_waiting (f r).2 = ring_consumer_waiting r) /\
      forall a, quiet (k a)
  end.

Lemma quiet_bind {T A B} (p : prog (Ring T) A) (k : A -> prog (Ring T) B) :
  quiet p -> (forall a, quiet (k a)) -> quiet (bind p k).
Proof.
  intros Hp Hk. induction p as [a|R f c IH|e]; cbn; auto.
  destruct Hp as [H1 H2]. split; auto.
Qed.

Lemma quiet_load {T R} (get : Ring T -> R) : quiet (load get).
Proof. by cbn. Qed.

Lemma quiet_pw {T A} (q : prog Waiter A) : quiet (T := T) (on_producer_waiting q).
Proof.
  unfold on_producer_waiting. induction q as [a|R f k IH|e]; cbn; auto.
  split; [|auto]. intros r. by destruct (f _).
Qed.

Lemma quiet_slot_take {T} i : quiet (T := T) (slot_take i).
Proof.
  cbn. split.
  - intros r. by destruct (zlookup _ _) as [[]|].
  - by intros [].
Qed.

Lemma quiet_slot_write {T} i (v : T) : quiet (slot_write i v).
Proof.
  cbn. split.
  - intros r. by destruct (zlookup _ _).
  - by intros [].
Qed.

#[export] Hint Resolve quiet_load quiet_pw quiet_slot_take quiet_slot_write : fanring.

Ltac quiet_tac := repeat first [ exact I | apply quiet_load | apply quiet_pw
  | apply quiet_slot_take | apply quiet_slot_write | solve [auto with fanring]
  | apply quiet_bind | progress intros | case_match ].

Lemma quiet_Ring_push {T} a b (v : T) : quiet (Ring_push a b v).
Proof. unfold Ring_push, Ring_capacity, Ring_index. quiet_tac. Qed.

Lemma quiet_push {T} p (v : T) : quiet (Producer_push p v).
Proof.
  apply quiet_bind; [apply quiet_Ring_push|]. intros [[[] ?] ?]; [exact I|].
  unfold Producer_push_after_full. apply quiet_bind; [apply quiet_pw|]. intros []; [|exact I].
  apply quiet_bind; [apply quiet_Ring_push|]. by intros [[[] ?] ?].
Qed.

Lemma quiet_pop {T} c : quiet (T := T) (Consumer_pop c).
Proof. unfold Consumer_pop, Ring_pop, Ring_index. quiet_tac. Qed.

Lemma quiet_move_slots {T} n : forall i, quiet (T := T) (Ring_move_slots i n).
Proof. induction n as [|n IH]; intros i; [exact I|]. cbn [Ring_move_slots]. quiet_tac. Qed.
#[export] Hint Resolve quiet_move_slots : fanring.

Lemma quiet_pop_into {T} c (output : list T) limit : quiet (Consumer_pop_into c output limit).
Proof.
  unfold Consumer_pop_into, Ring_pop_into, Ring_capacity, Ring_index. quiet_tac.
Qed.

Lemma quiet_release {T} c : quiet (T := T) (Consumer_release c).
Proof. by cbn. Qed.
#[export] Hint Resolve quiet_release : fanring.

Lemma quiet_release_with_full {T} c : quiet (T := T) (Consumer_release_with_full c).
Proof.
  unfold Consumer_release_with_full, Ring_capacity, Ring_release. quiet_tac. done.
Qed.

(** ** The invariant of the registration *)

Inductive phase : Type := Active | Registered | Parked.

Record wghost : Type := mkW { w_phase : phase; w_mid : bool; w_flag : bool }.

Section wake.
Context {T : Type} (cap base : Z).

Definition wst : Type := sig_state T * (ghost T * wghost).
Definition proj (x : wst) : Ring T * ghost T := (x.1.1, x.2.1).
Definition cwait (x : wst) : Waiter := ring_consumer_waiting x.1.1.

(** A registration that is still up, or was taken by a notification that has
    been or will be signalled. *)
Definition held_wake (x : wst) : Prop :=
  waiter_waiting (cwait x) = true \/ x.1.2 = true \/ w_flag x.2.2 = true.

Definition J (x : wst) : Prop :=
  (waiter_enabled (cwait x) = false -> g_t x.2.1 = 0 /\ waiter_armed (cwait x) = false) /\
  match w_phase x.2.2 with
  | Active => True
  | Registered => held_wake x
  | Parked =>
      (waiter_armed (cwait x) = true -> held_wake x) /\
      (g_h x.2.1 < g_t x.2.1 -> x.1.2 = true \/ w_flag x.2.2 = true \/ w_mid x.2.2 = true)
  end.

Definition guar2 (i : nat) : relation wst := fun x y =>
  guar cap base i (proj x) (proj y) /\ J y /\
  match i with
  | O => w_phase y.2.2 = w_phase x.2.2 /\ waiter_armed (cwait y) = waiter_armed (cwait x) /\
         (waiter_enabled (cwait x) = true -> waiter_enabled (cwait y) = true)
  | _ => w_mid y.2.2 = w_mid x.2.2 /\ w_flag y.2.2 = w_flag x.2.2 /\
         waiter_enabled (cwait y) = waiter_enabled (cwait x) /\
         (waiter_armed (cwait x) = true -> waiter_armed (cwait y) = true)
  end.

Lemma rely2_proj i x y : rely guar2 i x y -> rely (guar cap base) i (proj x) (proj y).
Proof. intros (j & Hj & H & _). exists j. auto. Qed.

Lemma rely2_rtc i x y : rtc (rely guar2 i) x y -> rtc (rely (guar cap base) i) (proj x) (proj y).
Proof. induction 1; [done|]. eapply rtc_l; [eapply rely2_proj; eauto|done]. Qed.

Lemma rely2_0 x y : rely guar2 0 x y -> guar2 1 x y.
Proof. intros ([|[|j]] & Hj & H); [done|done|by destruct H]. Qed.
Lemma rely2_1 x y : rely guar2 1 x y -> guar2 0 x y.
Proof. intros ([|[|j]] & Hj & H); [done|done|by destruct H]. Qed.

(** What the producer knows: its cursors, where it is in a publication, and
    that the registration is enabled or armed. *)
Definition pw (en ar : bool) (m f : bool) (p : Producer) (t : Z) (hist : list T) (x : wst) : Prop :=
  pa cap base p t hist (proj x) /\ J x /\ w_mid x.2.2 = m /\ w_flag x.2.2 = f /\
  (en = true -> waiter_enabled (cwait x) = true) /\ (ar = true -> waiter_armed (cwait x) = true).

Lemma pw_stable en ar m f p t hist : stable guar2 0 (pw en ar m f p t hist).
Proof.
  intros x y (Ha & HJ & Hm & Hf & He & Hr) Hxy.
  pose proof (pa_stable cap base p t hist _ _ Ha (rely2_proj _ _ _ Hxy)) as Ha'.
  apply rely2_0 in Hxy as (_ & HJ' & E1 & E2 & E3 & E4). split_and!; auto; try congruence.
  rewrite E3. auto.
Qed.

Definition cw (ph : phase) (en : bool) (c : Consumer) (ct phd h : Z) (got : list T) (x : wst) : Prop :=
  ca cap base c ct phd h got (proj x) /\ J x /\ w_phase x.2.2 = ph /\
  (en = true -> waiter_enabled (cwait x) = true).

Lemma cw_stable ph en c ct phd h got : stable guar2 1 (cw ph en c ct phd h got).
Proof.
  intros x y (Ha & HJ & Hp & He) Hxy.
  pose proof (ca_stable cap base c ct phd h got _ _ Ha (rely2_proj _ _ _ Hxy)) as Ha'.
  apply rely2_1 in Hxy as (_ & HJ' & E1 & E2 & E3). split_and!; auto; congruence.
Qed.

(** The invariant alone, for a consumer between operations. *)
Definition cany (c : Consumer) (ct phd h : Z) (got : list T) (x : wst) : Prop :=
  ca cap base c ct phd h got (proj x) /\ J x.

Lemma cany_stable c ct phd h got : stable guar2 1 (cany c ct phd h got).
Proof.
  intros x y (Ha & HJ) Hxy.
  pose proof (ca_stable cap base c ct phd h got _ _ Ha (rely2_proj _ _ _ Hxy)) as Ha'.
  apply rely2_1 in Hxy as (_ & HJ' & _). by split.
Qed.

(** ** Lifting the proofs about quiet operations *)

Lemma tail_same (x y : Ring T * ghost T) i :
  ok cap base x -> ok cap base y -> guar cap base i x y ->
  ring_tail y.1 = ring_tail x.1 -> g_t y.2 = g_t x.2.
Proof.
  intros Hx Hy H E. pose proof (ok_facts _ _ _ Hx). pose proof (ok_facts _ _ _ Hy).
  rewrite (ok_tail _ _ _ _ _ _ _ Hx), (ok_tail _ _ _ _ _ _ _ Hy) in E.
  destruct i as [|[|]]; [|apply H|done]. destruct H as (_ & E1 & E2 & L & _).
  apply wrap_inj in E; lia.
Qed.

Lemma wp_quiet_0 {A} (p : prog (Ring T) A) (Q : A -> Ring T * ghost T -> Prop) x :
  wp (guar cap base) 0 p Q (proj x) -> quiet p ->
  ok cap base (proj x) -> J x -> w_mid x.2.2 = false -> w_flag x.2.2 = false ->
  wp guar2 0 (on_ring p) (fun a y => Q a (proj y) /\ ok cap base (proj y) /\ J y /\
    w_mid y.2.2 = false /\ w_flag y.2.2 = false) x.
Proof.
  unfold on_ring. revert x. induction p as [a|R f k IH|e]; intros x Hw Hq Hok HJ Hm Hf y Hy.
  all: assert (Hst : ok cap base (proj y) /\ J y /\ w_mid y.2.2 = false /\ w_flag y.2.2 = false)
    by (clear -Hy Hok HJ Hm Hf; induction Hy as [|x z y Hxz _ IH]; [done|];
        apply rely2_0 in Hxz as (Hg & HJ' & E1 & E2 & _); apply IH; try congruence; apply Hg).
  all: pose proof (rely2_rtc _ _ _ Hy) as Hy'; destruct Hst as (Hok' & HJ' & Hm' & Hf').
  - split_and!; auto; by apply Hw.
  - destruct (Hw _ Hy') as (g' & Hg & Hk). cbn in Hq. destruct Hq as [Hq1 Hq2].
    destruct y as [[r b] [g w]]. cbn [proj fst snd] in *.
    destruct (Hq1 r) as [Et Ew].
    assert (Eg : g_t g' = g_t g).
    { apply (tail_same (r, g) ((f r).2, g') 0); auto. apply Hg. }
    assert (Hok2 : ok cap base ((f r).2, g')) by apply Hg.
    assert (Eh : g_h g' = g_h g) by apply Hg.
    destruct (f r) as [a r'] eqn:Ef. cbn [fst snd] in *.
    assert (HJ2 : J (put_ring r' (r, b), (g', w))).
    { unfold J, held_wake, cwait, put_ring in *. cbn [fst snd] in *. rewrite Ew, Eg, Eh. done. }
    exists (g', w). split.
    + split; [exact Hg|]. split; [exact HJ2|]. unfold cwait. cbn. by rewrite Ew.
    + apply (IH a (put_ring r' (r, b), (g', w))); auto.
  - exact (Hw _ Hy').
Qed.

Lemma wp_quiet_1 {A} (p : prog (Ring T) A) (Q : A -> Ring T * ghost T -> Prop) x :
  wp (guar cap base) 1 p Q (proj x) -> quiet p -> ok cap base (proj x) -> J x ->
  wp guar2 1 (on_ring p) (fun a y => Q a (proj y) /\ ok cap base (proj y) /\ J y) x.
Proof.
  unfold on_ring. revert x. induction p as [a|R f k IH|e]; intros x Hw Hq Hok HJ y Hy.
  all: assert (Hst : ok cap base (proj y) /\ J y)
    by (clear -Hy Hok HJ; induction Hy as [|x z y Hxz _ IH]; [done|];
        apply rely2_1 in Hxz as (Hg & HJ' & _); apply IH; try congruence; apply Hg).
  all: pose proof (rely2_rtc _ _ _ Hy) as Hy'; destruct Hst as (Hok' & HJ').
  - split_and!; auto; by apply Hw.
  - destruct (Hw _ Hy') as (g' & Hg & Hk). cbn in Hq. destruct Hq as [Hq1 Hq2].
    destruct y as [[r b] [g w]]. cbn [proj fst snd] in *.
    destruct (Hq1 r) as [Et Ew].
    assert (Eg : g_t g' = g_t g) by apply Hg.
    assert (Hok2 : ok cap base ((f r).2, g')) by apply Hg.
    destruct (f r) as [a r'] eqn:Ef. cbn [fst snd] in *.
    assert (HJ2 : J (put_ring r' (r, b), (g', mkW Active (w_mid w) (w_flag w)))).
    { destruct HJ' as [HJ0 _]. split; [|done]. unfold cwait, put_ring in *. cbn [fst snd] in *.
      by rewrite Ew, Eg. }
    exists (g', mkW Active (w_mid w) (w_flag w)). split.
    + split; [exact Hg|]. split; [exact HJ2|]. unfold cwait. cbn. by rewrite Ew.
    + apply (IH a (put_ring r' (r, b), (g', mkW Active (w_mid w) (w_flag w)))); auto.
  - exact (Hw _ Hy').
Qed.

(** ** One access of a lifted ring operation *)

Lemma wp_on_ring {A R} i (P : wst -> Prop) (f : Ring T -> R * Ring T) (k : R -> prog (Ring T) A) Q x :
  stable guar2 i P -> P x ->
  (forall r b g w, P ((r, b), (g, w)) -> exists g' w',
     guar2 i ((r, b), (g, w)) (((f r).2, b), (g', w')) /\
     wp guar2 i (on_ring (k (f r).1)) Q (((f r).2, b), (g', w'))) ->
  wp guar2 i (on_ring (Act f k)) Q x.
Proof.
  intros HS Hx H. eapply wp_act; [exact HS|exact Hx|]. intros [r b] [g w] Hy.
  destruct (H r b g w Hy) as (g' & w' & Hg & Hw). exists (g', w').
  cbn [fst snd put_ring] in *. destruct (f r) as [a r']. auto.
Qed.

Lemma wp_on_ring_ret {A} i (P : wst -> Prop) (a : A) (Q : A -> wst -> Prop) x :
  stable guar2 i P -> P x -> (forall y, P y -> Q a y) -> wp guar2 i (on_ring (Ret a)) Q x.
Proof. intros HS Hx HQ y Hy. apply HQ. eapply stable_rtc; eauto. Qed.

Lemma wp_on_ring_bind {A B} i (p : prog (Ring T) A) (k : A -> prog (Ring T) B) Q x :
  wp guar2 i (on_ring p) (fun a => wp guar2 i (on_ring (k a)) Q) x ->
  wp guar2 i (on_ring (bind p k)) Q x.
Proof.
  revert x. induction p as [a|R f c IH|e]; intros x H.
  - apply (H x). constructor.
  - intros y Hy. destruct (H y Hy) as (g' & Hg & Hk). exists g'. split; [exact Hg|]. apply IH, Hk.
  - intros y Hy. exact (H y Hy).
Qed.

(** The producer's flag updates and reads leave the positions alone. *)
Lemma guar2_0_flags r r' b b' g w w' :
  ok cap base (r', g) -> J ((r', b'), (g, w')) -> w_phase w' = w_phase w ->
  waiter_armed (ring_consumer_waiting r') = waiter_armed (ring_consumer_waiting r) ->
  (waiter_enabled (ring_consumer_waiting r) = true -> waiter_enabled (ring_consumer_waiting r') = true) ->
  guar2 0 ((r, b), (g, w)) ((r', b'), (g, w')).
Proof.
  intros H1 H2 H3 H4 H5. split; [apply guar_refl; [lia|done]|]. split_and!; auto.
Qed.

Lemma guar2_1_flags r r' b b' g w w' :
  ok cap base (r', g) -> J ((r', b'), (g, w')) -> w_mid w' = w_mid w -> w_flag w' = w_flag w ->
  waiter_enabled (ring_consumer_waiting r') = waiter_enabled (ring_consumer_waiting r) ->
  (waiter_armed (ring_consumer_waiting r) = true -> waiter_armed (ring_consumer_waiting r') = true) ->
  guar2 1 ((r, b), (g, w)) ((r', b'), (g, w')).
Proof.
  intros H1 H2 H3 H4 H5 H6. split; [apply guar_refl; [lia|done]|]. split_and!; auto.
Qed.

Lemma ok_flags (r r' : Ring T) (g : ghost T) :
  ok cap base (r, g) -> ring_mask r' = ring_mask r -> ring_head r' = ring_head r ->
  ring_tail r' = ring_tail r -> ring_buf r' = ring_buf r -> ok cap base (r', g).
Proof. intros H. apply (ring_ok_ext _ _ _ _ _ _ _ _ H). Qed.

Lemma pw_weaken en ar m f p t hist x :
  pw en ar m f p t hist x -> pw false false m f p t hist x.
Proof. intros (H1 & H2 & H3 & H4 & H5 & H6). split_and!; auto; done. Qed.

(** The end of a publication: [Waiter::take] after the tail store. *)
Lemma wp_take_after_publish {A} obs p t hist (k : bool -> prog (Ring T) A) Q x :
  pw true false true false p t hist x ->
  (forall wake y, pw true false false wake p t hist y -> wp guar2 0 (on_ring (k wake)) Q y) ->
  wp guar2 0 (on_ring (bind (on_consumer_waiting (Waiter_take obs)) k)) Q x.
Proof.
  intros Hx Hk.
  assert (Hclear : forall x, pw true false true false p t hist x ->
    wp guar2 0 (on_ring (bind (on_consumer_waiting
      (let* _ := store (set_waiting false) in Ret true)) k)) Q x).
  { clear x Hx. intros x Hx. eapply wp_on_ring; [apply pw_stable|exact Hx|].
    cbn [fst snd]. intros r b g w (Ha & HJ & Hm & Hf & He & Hr). cbn [fst snd] in *.
    exists g, (mkW (w_phase w) false true).
    set (r' := set_consumer_waiting _ r).
    assert (Hok' : ok cap base (r', g)) by (eapply ok_flags; [apply Ha|done..]).
    assert (HJ' : J ((r', b), (g, mkW (w_phase w) false true))).
    { destruct HJ as [HJ0 HJ1]. split; [exact HJ0|]. unfold held_wake. cbn in *.
      destruct (w_phase w); auto. }
    split; [apply guar2_0_flags; done|].
    apply (Hk true). split_and!; cbn; auto. eapply (pa_owned cap base); [apply Ha|done]. }
  destruct obs; [by apply Hclear|].
  eapply wp_on_ring; [apply pw_stable|exact Hx|]. clear x Hx.
  cbn [fst snd]. intros r b g w Hx. exists g, w.
  assert (Er : set_consumer_waiting (ring_consumer_waiting r) r = r) by (by destruct r).
  rewrite Er.
  split; [apply guar2_0_flags; auto; apply Hx|].
  destruct (waiter_armed (ring_consumer_waiting r)) eqn:Ear.
  2: { exact (Hclear _ Hx). }
  assert (Hx' : pw true true true false p t hist ((r, b), (g, w))).
  { destruct Hx as (H1 & H2 & H3 & H4 & H5 & H6). split_and!; auto. }
  cbn [negb lift bind swap atomic]. clear Hx Ear Er.
  eapply wp_on_ring; [apply pw_stable|exact Hx'|]. clear r b g w Hx'.
  intros r b g w (Ha & HJ & Hm & Hf & He & Hr). cbn [fst snd] in *.
  destruct (waiter_waiting (ring_consumer_waiting r)) eqn:Ew.
  - exists g, (mkW (w_phase w) false true).
    set (r' := set_consumer_waiting _ r).
    assert (Hok' : ok cap base (r', g)) by (eapply ok_flags; [apply Ha|done..]).
    assert (HJ' : J ((r', b), (g, mkW (w_phase w) false true))).
    { destruct HJ as [HJ0 HJ1]. split; [exact HJ0|]. unfold held_wake. cbn in *.
      destruct (w_phase w); auto. }
    split; [apply guar2_0_flags; done|].
    apply (Hk true). split_and!; cbn; auto. eapply (pa_owned cap base); [apply Ha|done].
  - exists g, (mkW (w_phase w) false false).
    set (r' := set_consumer_waiting _ r).
    assert (Hok' : ok cap base (r', g)) by (eapply ok_flags; [apply Ha|done..]).
    assert (HJ' : J ((r', b), (g, mkW (w_phase w) false false))).
    { destruct HJ as [HJ0 HJ1]. split; [exact HJ0|]. unfold held_wake, cwait in *. cbn in *.
      rewrite Ew, Hf in *. specialize (Hr eq_refl).
      destruct (w_phase w); [done|tauto|].
      destruct HJ1 as [H1 H2]. specialize (H1 Hr). tauto. }
    split; [apply guar2_0_flags; done|].
    apply (Hk false). split_and!; cbn; auto. eapply (pa_owned cap base); [apply Ha|done].
Qed.

(** A read by the producer keeps what it knows. *)
Lemma wp_read_0 {A R} en ar m f p t hist (get : Ring T -> R) (k : R -> prog (Ring T) A) Q x :
  pw en ar m f p t hist x ->
  (forall r b g w, pw en ar m f p t hist ((r, b), (g, w)) ->
     wp guar2 0 (on_ring (k (get r))) Q ((r, b), (g, w))) ->
  wp guar2 0 (on_ring (bind (load get) k)) Q x.
Proof.
  intros Hx Hk. eapply wp_on_ring; [apply pw_stable|exact Hx|]. cbn [fst snd].
  intros r b g w Hy. exists g, w. split; [|by apply Hk].
  apply guar2_0_flags; auto; apply Hy.
Qed.

Lemma wp_enable_0 {A} p t hist (k : unit -> prog (Ring T) A) Q x :
  pw false false false false p t hist x ->
  (forall y, pw true false false false p t hist y -> wp guar2 0 (on_ring (k tt)) Q y) ->
  wp guar2 0 (on_ring (bind (on_consumer_waiting Waiter_enable) k)) Q x.
Proof.
  intros Hx Hk. eapply wp_on_ring; [apply pw_stable|exact Hx|]. cbn [fst snd]. clear x Hx.
  intros r b g w Hx. exists g, w.
  assert (Er : set_consumer_waiting (ring_consumer_waiting r) r = r) by (by destruct r).
  rewrite Er. split; [apply guar2_0_flags; auto; apply Hx|].
  destruct (waiter_enabled (ring_consumer_waiting r)) eqn:Ee.
  - apply Hk. destruct Hx as (H1 & H2 & H3 & H4 & H5 & H6). split_and!; auto.
  - cbn [negb lift bind store atomic]. clear Er Ee.
    eapply wp_on_ring; [apply pw_stable|exact Hx|]. cbn [fst snd]. clear r b g w Hx.
    intros r b g w (Ha & HJ & Hm & Hf & He & Hr). exists g, w. cbn [fst snd] in *.
    set (r' := set_consumer_waiting _ r).
    assert (Hok' : ok cap base (r', g)) by (eapply ok_flags; [apply Ha|done..]).
    assert (HJ' : J ((r', b), (g, w))) by (destruct HJ as [_ HJ1]; split; [by cbn|exact HJ1]).
    split; [apply guar2_0_flags; done|]. apply Hk. split_and!; cbn; auto.
    eapply (pa_owned cap base); [apply Ha|done].
Qed.

Lemma wp_publish_tail {A} p t hist (k : unit -> prog (Ring T) A) Q x :
  pw true false false false p t hist x ->
  (forall y, pw true false true false p (zlength hist) hist y -> wp guar2 0 (on_ring (k tt)) Q y) ->
  wp guar2 0 (on_ring (bind (store (set_tail (producer_cursor p))) k)) Q x.
Proof.
  intros Hx Hk. eapply wp_on_ring; [apply pw_stable|exact Hx|]. cbn [fst snd]. clear x Hx.
  intros r b g w (Ha & HJ & Hm & Hf & He & Hr). cbn [fst snd] in *.
  destruct (wp_store_tail cap base p t hist (fun _ => Ret tt) (fun _ => pa cap base p (zlength hist) hist)
    _ Ha (fun y Hy => wp_ret _ _ _ _ _ (pa_stable _ _ _ _ _) Hy) (r, g)) as (g' & Hg & Hw); [constructor|].
  cbn [fst snd] in Hg, Hw. specialize (Hw _ (rtc_refl _ _)).
  exists g', (mkW (w_phase w) true false).
  assert (HJ' : J ((set_tail (producer_cursor p) r, b), (g', mkW (w_phase w) true false))).
  { destruct HJ as [HJ0 HJ1]. split.
    - unfold cwait in *. cbn in *. rewrite (He eq_refl). done.
    - unfold held_wake, cwait in *. cbn in *. rewrite Hf in *.
      destruct (w_phase w); auto. split; [|auto]. apply HJ1. }
  split; [split; [exact Hg|]; split; [exact HJ'|done]|].
  apply Hk. split_and!; auto.
Qed.

Lemma wp_flush_and_check_0 p t hist x :
  pw false false false false p t hist x ->
  wp guar2 0 (on_ring (Producer_flush_and_check p)) (fun '(res, p') y => exists t',
    pw false false false (match res with Flushed _ wake => wake | _ => false end) p' t' hist y) x.
Proof.
  intros Hx. apply wp_on_ring_bind. unfold Ring_flush_to.
  eapply wp_enable_0; [exact Hx|]. clear x Hx. intros x Hx.
  eapply wp_read_0; [exact Hx|]. clear x Hx. intros r b g w Hx.
  destruct (producer_cursor p =? ring_tail r).
  { eapply wp_on_ring_ret; [apply pw_stable|exact Hx|]. intros y Hy.
    eapply wp_on_ring_ret; [apply pw_stable|exact Hy|]. intros z Hz. exists t.
    destruct p. eapply pw_weaken, Hz. }
  eapply wp_read_0; [exact Hx|]. clear Hx. intros r2 b2 g2 w2 Hx.
  assert (Hx' : pw true false false false (mkProducer (producer_cursor p) (ring_head r2)) t hist
    ((r2, b2), (g2, w2))).
  { destruct Hx as (H1 & H2). split; [|exact H2]. by destruct (pa_refresh cap base _ _ _ _ _ H1). }
  eapply (wp_publish_tail (mkProducer (producer_cursor p) (ring_head r2))); [exact Hx'|].
  clear Hx Hx'. intros x Hx.
  eapply wp_take_after_publish; [exact Hx|]. clear x Hx. intros wake x Hx.
  eapply wp_on_ring_ret; [apply pw_stable|exact Hx|]. intros y Hy.
  eapply wp_on_ring_ret; [apply pw_stable|exact Hy|]. intros z Hz. exists (zlength hist).
  eapply pw_weaken, Hz.
Qed.

Lemma wp_flush_and_notify p t hist x :
  pw false false false false p t hist x ->
  wp guar2 0 (flush_and_notify p) (fun '(_, p') y => exists t', pw false false false false p' t' hist y) x.
Proof.
  intros Hx. eapply wp_call; [eapply wp_flush_and_check_0, Hx|]. clear x Hx.
  intros [res p'] x [t' Hx].
  destruct res as [n []|]; [|eapply wp_retP; [apply pw_stable|exact Hx|eauto]..].
  eapply wp_act; [apply pw_stable|exact Hx|]. clear x Hx. cbn [fst snd].
  intros [r b] [g w] (Ha & HJ & Hm & Hf & He & Hr). cbn [fst snd] in *.
  exists (g, mkW (w_phase w) false false).
  assert (HJ' : J ((r, true), (g, mkW (w_phase w) false false))).
  { destruct HJ as [HJ0 HJ1]. split; [exact HJ0|]. unfold held_wake. cbn. destruct (w_phase w); auto. }
  split; [apply guar2_0_flags; auto; apply Ha|].
  eapply wp_retP; [apply pw_stable with (f := false) (m := false)| |].
  - split_and!; [exact Ha|exact HJ'|done..].
  - intros y Hy. by exists t'.
Qed.

(** ** The consumer's look *)

Lemma wp_step_1 {A R} ph en c ct phd h got (f : Ring T -> R * Ring T) (k : R -> prog (Ring T) A) Q x :
  cw ph en c ct phd h got x ->
  (forall r b g w, cw ph en c ct phd h got ((r, b), (g, w)) -> exists w' ph' en' c' ct',
     (ok cap base ((f r).2, g) /\ J (((f r).2, b), (g, w')) /\ w_mid w' = w_mid w /\ w_flag w' = w_flag w /\
      waiter_enabled (ring_consumer_waiting (f r).2) = waiter_enabled (ring_consumer_waiting r) /\
      (waiter_armed (ring_consumer_waiting r) = true -> waiter_armed (ring_consumer_waiting (f r).2) = true)) /\
     (cw ph' en' c' ct' phd h got (((f r).2, b), (g, w')) /\
      forall y, cw ph' en' c' ct' phd h got y -> wp guar2 1 (on_ring (k (f r).1)) Q y)) ->
  wp guar2 1 (on_ring (Act f k)) Q x.
Proof.
  intros Hx H. eapply wp_on_ring; [apply cw_stable|exact Hx|]. intros r b g w Hy.
  destruct (H _ _ _ _ Hy) as (w' & ph' & en' & c' & ct' & (H1 & H2 & H3 & H4 & H5 & H6) & Hc & Hk).
  exists g, w'. split; [by apply guar2_1_flags|]. by apply Hk.
Qed.

(** The end of a look: asleep only in the parked phase. *)
Lemma wp_look_end ph (n : Z) c ct phd h got x :
  (sleeps c = true -> ph = Parked) -> cw ph false c ct phd h got x ->
  wp guar2 1 (on_ring (T := T) (Ret (n, c))) (fun '(_, c') y => exists ct',
    cany c' ct' phd h got y /\ (sleeps c' = true -> w_phase y.2.2 = Parked)) x.
Proof.
  intros Hph Hy. eapply wp_on_ring_ret; [apply cw_stable|exact Hy|].
  intros z (H1 & H2 & H3 & _). exists ct. split; [by split|]. intros E. by rewrite H3, Hph.
Qed.

(** The second look, after the registration. *)
Lemma wp_recheck_1 c ct phd h got x :
  cw Registered true c ct phd h got x ->
  wp guar2 1 (on_ring (let* '(count, cached_tail) := Ring_prefetch (consumer_cached_tail c) in
                       Ret (count, mkConsumer (consumer_head c) cached_tail))) (fun '(_, c') y => exists ct',
    cany c' ct' phd h got y /\ (sleeps c' = true -> w_phase y.2.2 = Parked)) x.
Proof.
  intros Hx. unfold Ring_prefetch.
  eapply wp_step_1; [exact Hx|]. clear x Hx. cbn [fst snd]. intros r b g w (Ha & HJ & Hp & He).
  cbn [fst snd proj] in *.
  set (c' := mkConsumer (consumer_head c) (ring_tail r)).
  assert (Ha' : ca cap base c' (g_t g) phd h got (r, g)).
  { destruct Ha as (Hok & Hph & Hh & Hg & Hc & Hct & Hr). pose proof (ok_facts _ _ _ Hok).
    pose proof (ok_tail _ _ _ _ _ _ _ Hok) as Et. cbn in *. split_and!; cbn; auto; lia. }
  destruct (sleeps c') eqn:Es'.
  - assert (HJ' : J ((r, b), (g, mkW Parked (w_mid w) (w_flag w)))).
    { destruct HJ as [HJ0 HJ1]. split; [exact HJ0|]. cbn [fst snd] in HJ1; rewrite Hp in HJ1. split; [intros _; exact HJ1|].
      unfold sleeps in Es'. destruct (ca_window _ _ _ _ _ _ _ _ Ha') as [E _]. rewrite Es' in E.
      destruct Ha' as (_ & _ & Hh & _). cbn in *. lia. }
    exists (mkW Parked (w_mid w) (w_flag w)), Parked, false, c', (g_t g).
    split; [split_and!; auto; apply Ha|]. split; [by split_and!|].
    intros y Hy. by eapply wp_look_end.
  - assert (HJ' : J ((r, b), (g, mkW Active (w_mid w) (w_flag w)))).
    { destruct HJ as [HJ0 HJ1]. split; [exact HJ0|done]. }
    exists (mkW Active (w_mid w) (w_flag w)), Active, false, c', (g_t g).
    split; [split_and!; auto; apply Ha|]. split; [by split_and!|].
    intros y Hy. eapply wp_look_end; [|exact Hy]. by rewrite Es'.
Qed.

(** Registration, after the first look found nothing. *)
Lemma wp_prefetch_after_empty_1 c ct phd h got x :
  cw Active false c ct phd h got x -> sleeps c = true ->
  wp guar2 1 (on_ring (Consumer_prefetch_after_empty c)) (fun '(_, c') y => exists ct',
    cany c' ct' phd h got y /\ (sleeps c' = true -> w_phase y.2.2 = Parked)) x.
Proof.
  intros Hx Hsl.
  eapply wp_step_1; [exact Hx|]. clear x Hx. cbn [fst snd]. intros r b g w (Ha & HJ & Hp & _).
  assert (Er : set_consumer_waiting (ring_consumer_waiting r) r = r) by (by destruct r).
  rewrite Er. cbn [fst snd proj] in *. clear Er.
  destruct (waiter_enabled (ring_consumer_waiting r)) eqn:Ee; cbn [negb lift bind].
  2: { (* not enabled: no publication has happened *)
    assert (HJ' : J ((r, b), (g, mkW Parked (w_mid w) (w_flag w)))).
    { destruct HJ as [HJ0 _]. split; [exact HJ0|]. unfold cwait in *. cbn in *.
      destruct (HJ0 Ee) as [E1 E2]. rewrite E2. split; [done|].
      pose proof (ok_facts _ _ _ (proj1 Ha)). cbn in *. lia. }
    exists (mkW Parked (w_mid w) (w_flag w)), Parked, false, c, ct. split; [split_and!; auto; apply Ha|].
    split; [by split_and!|]. intros y Hy. by eapply wp_look_end. }
  (* the registration: [waiting], then [armed], then the second look *)
  exists w, Active, true, c, ct. split; [split_and!; auto; apply Ha|]. split; [by split_and!|].
  clear r b g w Ha HJ Hp Ee. intros x Hx.
  eapply wp_step_1; [exact Hx|]. clear x Hx. cbn [fst snd]. intros r b g w (Ha & HJ & Hp & He).
  cbn [fst snd proj cwait] in *. set (r' := set_consumer_waiting _ r).
  assert (Hok' : ok cap base (r', g)) by (eapply ok_flags; [apply Ha|done..]).
  assert (HJ' : J ((r', b), (g, mkW Registered (w_mid w) (w_flag w)))).
  { destruct HJ as [HJ0 _]. split; [exact HJ0|]. by left. }
  exists (mkW Registered (w_mid w) (w_flag w)), Registered, true, c, ct.
  split; [by split_and!|]. split; [split_and!; auto; by eapply (ca_owned cap base)|].
  clear r b g w Ha HJ Hp He r' Hok' HJ'. intros x Hx. cbn [bind lift].
  eapply wp_step_1; [exact Hx|]. clear x Hx. cbn [fst snd]. intros r b g w (Ha & HJ & Hp & He).
  cbn [fst snd proj] in *. set (r' := set_consumer_waiting _ r).
  assert (Hok' : ok cap base (r', g)) by (eapply ok_flags; [apply Ha|done..]).
  assert (HJ' : J ((r', b), (g, w))).
  { destruct HJ as [HJ0 HJ1]. split; [|cbn [fst snd] in *; rewrite Hp in *; exact HJ1].
    unfold cwait in *. cbn in *. rewrite (He eq_refl). done. }
  exists w, Registered, true, c, ct.
  split; [by split_and!|]. split; [split_and!; auto; by eapply (ca_owned cap base)|].
  clear r b g w Ha HJ Hp He r' Hok' HJ'. intros x Hx. exact (wp_recheck_1 _ _ _ _ _ _ Hx).
Qed.

Lemma wp_look c ct phd h got x :
  cany c ct phd h got x ->
  wp guar2 1 (look_before_sleep c) (fun '(_, c') y => exists ct',
    cany c' ct' phd h got y /\ (sleeps c' = true -> w_phase y.2.2 = Parked)) x.
Proof.
  intros Hx. eapply wp_act; [apply cany_stable|exact Hx|]. clear x Hx. cbn [fst snd].
  intros [r b] [g w] (Ha & HJ). cbn [fst snd proj] in *.
  exists (g, mkW Active (w_mid w) (w_flag w)).
  assert (HJ' : J ((r, false), (g, mkW Active (w_mid w) (w_flag w)))) by (split; [apply HJ|done]).
  split; [apply guar2_1_flags; auto; apply Ha|].
  assert (Hx : cw Active false c ct phd h got ((r, false), (g, mkW Active (w_mid w) (w_flag w)))).
  { by split_and!. }
  clear Ha HJ HJ'. eapply wp_step_1; [exact Hx|]. clear Hx r b g w. cbn [fst snd].
  intros r b g w (Ha & HJ & Hp & _). cbn [fst snd proj] in *.
  set (c' := mkConsumer (consumer_head c) (ring_tail r)).
  assert (Ha' : ca cap base c' (g_t g) phd h got (r, g)).
  { destruct Ha as (Hok & Hph & Hh & Hg & Hc & Hct & Hr). pose proof (ok_facts _ _ _ Hok).
    pose proof (ok_tail _ _ _ _ _ _ _ Hok) as Et. cbn in *. split_and!; cbn; auto; lia. }
  exists w, Active, false, c', (g_t g). split; [split_and!; auto; apply Ha|]. split; [by split_and!|].
  intros y Hy. cbn [bind]. fold c'. change (consumer_head c' =? consumer_cached_tail c') with (sleeps c').
  destruct (sleeps c') eqn:Es.
  - by apply (wp_prefetch_after_empty_1 c' (g_t g)).
  - eapply wp_look_end; [|exact Hy]. by rewrite Es.
Qed.

(** ** The two threads *)

Lemma wp_notifier cmds : forall p t hist x,
  pw false false false false p t hist x ->
  wp guar2 0 (notifier cmds p) (fun a y => exists p' t' hist', a = inl p' /\
    pw false false false false p' t' hist' y) x.
Proof.
  induction cmds as [|cmd cmds IH]; intros p t hist x Hx; cbn [notifier].
  - eapply wp_retP; [apply pw_stable|exact Hx|]. intros y Hy. eauto 10.
  - apply wp_bind.
    eapply (wp_mono _ _ _ (fun p' y => exists t' hist', pw false false false false p' t' hist' y)).
    { intros p' y (t' & hist' & Hy). by eapply IH. }
    destruct cmd as [v|]; cbn [exec_notify].
    + destruct Hx as (Ha & HJ & Hm & Hf & _). eapply wp_call.
      { eapply wp_quiet_0; [eapply wp_push, Ha|apply quiet_push|apply Ha|done..]. }
      intros [[[]|v'] p'] y (HQ & Hok & HJ' & Hm' & Hf').
      * eapply wp_retP; [apply (pw_stable false false false false p' t (hist ++ [v]))| |]; eauto.
        by split_and!.
      * destruct HQ as [_ HQ].
        eapply wp_retP; [apply (pw_stable false false false false p' t hist)| |]; eauto. by split_and!.
    + eapply wp_call; [eapply wp_flush_and_notify, Hx|]. intros [res p'] y [t' Hy].
      eapply wp_retP; [apply pw_stable|exact Hy|]. eauto.
Qed.

Lemma wp_sleeper cmds : forall c ct phd h got x,
  Forall sleep_cmd_ok cmds -> cany c ct phd h got x ->
  wp guar2 1 (sleeper cmds c) (fun a y => exists c' ct' phd' h' got', a = inr c' /\
    cany c' ct' phd' h' got' y /\ (sleeps c' = true -> w_phase y.2.2 = Parked)) x.
Proof.
  induction cmds as [|cmd cmds IH]; intros c ct phd h got x Hcmd Hx; cbn [sleeper].
  - eapply wp_call; [eapply wp_look, Hx|]. intros [n c'] y (ct' & Hy & Hp).
    intros z Hz. exists c', ct', phd, h, got. split; [done|]. split; [by eapply stable_rtc; [apply cany_stable|..]|].
    intros E. specialize (Hp E). clear -Hp Hz. induction Hz as [|y z' z H _ IH]; [done|]. apply IH.
    apply rely2_1 in H as (_ & _ & -> & _). done.
  - inversion Hcmd as [|? ? Hc Hcmds]; subst. apply wp_bind.
    eapply (wp_mono _ _ _ (fun c' y => exists ct' phd' h' got', cany c' ct' phd' h' got' y)).
    { intros c' y (ct' & phd' & h' & got' & Hy). by eapply IH. }
    assert (Hret : forall c' ct' phd' h' got' y, cany c' ct' phd' h' got' y ->
      wp guar2 1 (Ret c') (fun c' y => exists ct' phd' h' got', cany c' ct' phd' h' got' y) y).
    { intros c' ct' phd' h' got' y Hy. eapply wp_retP; [apply cany_stable|exact Hy|]. eauto. }
    destruct cmd as [| |out lim| |]; cbn [exec_sleep sleep_cmd_ok] in *.
    + eapply wp_call; [eapply wp_look, Hx|]. intros [n c'] y (ct' & Hy & _). eauto.
    + destruct Hx as [Ha HJ]. eapply wp_call.
      { eapply wp_quiet_1; [eapply wp_pop, Ha|apply quiet_pop|apply Ha|done]. }
      intros [v c'] y ([h' Hy] & _ & HJ'). eapply Hret. by split.
    + destruct Hx as [Ha HJ]. eapply wp_call.
      { eapply wp_quiet_1; [eapply wp_pop_into; eauto|apply quiet_pop_into|apply Ha|done]. }
      intros [[n o] c'] y ((vs & h' & _ & Hy) & _ & HJ'). eapply Hret. by split.
    + destruct Hx as [Ha HJ]. eapply wp_call.
      { eapply wp_quiet_1; [eapply wp_release, Ha|apply quiet_release|apply Ha|done]. }
      intros u y (Hy & _ & HJ'). eapply Hret. by split.
    + destruct Hx as [Ha HJ]. eapply wp_call.
      { eapply wp_quiet_1; [eapply wp_release_with_full, Ha|apply quiet_release_with_full|apply Ha|done]. }
      intros u y ([ph' Hy] & _ & HJ'). eapply Hret. by split.
Qed.

End wake.

(** ** The theorem *)

Definition wake_pool {T} (pcmds : list (notify_cmd T)) (ccmds : list (sleep_cmd T))
    (p : Producer) (c : Consumer) : list (prog (sig_state T) (Producer + Consumer)) :=
  [notifier pcmds p; sleeper ccmds c].

Section no_lost_wakeup.
Context {T : Type}.

Definition wake_post (cap base : Z) (i : nat) (a : Producer + Consumer) (x : wst (T := T)) : Prop :=
  match i with
  | O => exists p t hist, a = inl p /\ pw cap base false false false false p t hist x
  | _ => exists c ct phd h got, a = inr c /\ cany cap base c ct phd h got x /\
           (sleeps c = true -> w_phase x.2.2 = Parked)
  end.

Lemma wake_pool_wp cap base pcmds ccmds r p c :
  Forall sleep_cmd_ok ccmds ->
  ring_rep_at base 0 0 [] r p c (spec_init cap) ->
  pool_wp (guar2 cap base) (wake_post cap base) (wake_pool pcmds ccmds p c)
    ((r, false), (mkGhost 0 0 0 [], mkW Active false false)).
Proof.
  intros Hc H. pose proof (rep_ok _ _ _ _ _ _ _ _ H) as Hok. cbn in Hok.
  pose proof (valid_cap_range _ (ok_cap _ _ _ _ _ _ _ Hok)).
  pose proof (rep_cursor _ _ _ _ _ _ _ _ H) as E1. pose proof (rep_cached_head _ _ _ _ _ _ _ _ H) as E2.
  pose proof (rep_chead _ _ _ _ _ _ _ _ H) as E3. pose proof (rep_cached_tail _ _ _ _ _ _ _ _ H) as E4.
  pose proof (rep_cw _ _ _ _ _ _ _ _ H) as E5. cbn in E1, E2, E3, E4, E5.
  assert (HJ : J ((r, false), (mkGhost 0 0 0 [], mkW Active false false))).
  { split; [|done]. unfold cwait. cbn. by rewrite E5. }
  intros [|[|i]] q Hq; [| |by destruct i]; cbn in Hq; simplify_eq.
  - eapply (wp_notifier cap base pcmds p 0 []). split; [|by split_and!]. split_and!; auto.
    exists 0. cbn. split_and!; auto; unfold zlength; simpl; lia.
  - eapply (wp_sleeper cap base ccmds c 0 0 0 []); [done|]. split; [|done]. split_and!; auto; cbn; lia.
Qed.

(** C6: no lost wakeup.  For every capacity, starting cursor, sequence of
    pushes and publications, and sequence of consumer operations that ends in
    a look at the ring: in every interleaving, when the producer has finished
    and the consumer's last look found the ring empty, then either nothing is
    published that the consumer has not seen, or the signal is set. *)
Theorem spsc_no_lost_wakeup (capacity cursor : Z) (pcmds : list (notify_cmd T)) (ccmds : list (sleep_cmd T)) :
  0 < capacity <= 2 ^ 62 -> is_usize cursor -> Forall sleep_cmd_ok ccmds ->
  exists ring,
    let p := mkProducer cursor cursor in let c := mkConsumer cursor cursor in
    loom_spsc_with_cursors capacity cursor = Done (ring, p, c) /\
    forall r' signal ps', rtc pstep ((ring, false), wake_pool pcmds ccmds p c) ((r', signal), ps') ->
      (exists c', pstep ((r', signal), ps') c') \/
      exists p' c', ps' = [Ret (inl p'); Ret (inr c')] /\
        (consumer_head c' = consumer_cached_tail c' -> ring_tail r' <> consumer_head c' -> signal = true).
Proof.
  intros Hcap Hu Hc. destruct (spsc_init_rep_at (T := T) capacity cursor Hcap Hu)
    as (cap & ring & _ & _ & E & _ & H).
  exists ring. cbn zeta. split; [done|]. intros r' signal ps' Hr.
  destruct (pool_sound _ _ _ _ _ _ _ (wake_pool_wp _ _ pcmds _ _ _ _ Hc H) Hr) as [[g' w'] Hw].
  destruct (pool_progress _ _ _ _ Hw ((r', signal), ps') eq_refl) as [Hstep|Hfin]; [by left|right].
  apply pool_length in Hr. destruct ps' as [|q1 [|q2 []]]; try discriminate Hr.
  inversion Hfin as [|? ? [a1 ->] Hfin2]; subst. inversion Hfin2 as [|? ? [a2 ->] _]; subst.
  pose proof (pool_wp_ret _ _ _ _ 0 _ Hw eq_refl) as (p' & t & hist & -> & _ & _ & Hm & Hf & _).
  pose proof (pool_wp_ret _ _ _ _ 1 _ Hw eq_refl) as (c' & ct & phd & h & got & -> & [Ha [_ HJ]] & Hp).
  exists p', c'. split; [done|]. intros Es Ht. cbn [fst snd] in *.
  rewrite Hp in HJ by (unfold sleeps; lia). rewrite Hm, Hf in HJ. destruct HJ as [_ HJ].
  destruct HJ as [|[|]]; try done. destruct Ha as (Hok & _ & Hh & _ & Hch & _). cbn [proj fst snd] in *.
  pose proof (ok_facts _ _ _ Hok) as Hfacts. cbn [fst snd] in Hfacts.
  pose proof (ok_tail _ _ _ _ _ _ _ Hok) as Et. cbn in Et, Hh, Hfacts. rewrite Et, Hch in Ht.
  destruct (Z.eq_dec (g_t g') h) as [E'|]; [by rewrite E' in Ht|lia].
Qed.

End no_lost_wakeup.

Lemma spsc_no_lost_wakeup_witness :
  exists ring,
    let p := mkProducer usize_max usize_max in let c := mkConsumer usize_max usize_max in
    loom_spsc_with_cursors 2 usize_max = Done (ring, p, c) /\
    forall r' signal ps', rtc pstep ((ring, false),
        wake_pool [NPush 1%nat; NPublish; NPush 2%nat; NPublish] [SLook; SPop; SPopInto [] 3; SReleaseFull] p c)
        ((r', signal), ps') ->
      (exists c', pstep ((r', signal), ps') c') \/
      exists p' c', ps' = [Ret (inl p'); Ret (inr c')] /\
        (consumer_head c' = consumer_cached_tail c' -> ring_tail r' <> consumer_head c' -> signal = true).
Proof.
  apply (spsc_no_lost_wakeup 2 usize_max); [lia|usize|repeat constructor; simpl; lia].
Defined.
