(* ===== verification/Waker.v ===== *)
(** * Tasks, wakers and the atomic waker cell

    The async parts of both crates keep one [AtomicWaker] per waiting side.
    The cell comes from the crate [atomic_waker], which is not part of the
    sources: [AtomicWaker] is the interface the sources rely on, a cell whose
    [take] yields the waker registered last unless one was taken since.  The
    loom build of yring replaces the crate by a cell of its own
    ([src/yring/src/compat.rs]); [MutexWaker] models it and is an instance of
    the interface.

    What waking a task means is the business of an executor.  Here the outside
    world is the list of the wakers whose tasks are scheduled: [wake] adds a
    waker, and an executor removes it before it polls the task again. *)

From S2P Require Import Prelude Prog.
Local Open Scope prog_scope.

(** [std::task::Poll]. *)
Inductive Poll (A : Type) : Type :=
| Ready (a : A)
| Pending.
Arguments Ready {A} a.
Arguments Pending {A}.

Definition Poll_is_pending {A} (p : Poll A) : bool :=
  match p with Pending => true | Ready _ => false end.

(** The contract of the cell.  [aw_register] and [aw_take] are the atomic
    effects of [register] and [take]; [wake] takes the waker and then invokes
    it. *)
Class AtomicWaker (Waker : Type) : Type := {
  aw_cell : Type;
  aw_new : aw_cell;
  aw_register : Waker -> aw_cell -> aw_cell;
  aw_take : aw_cell -> option Waker * aw_cell;
  aw_take_new : (aw_take aw_new).1 = None;
  aw_take_register : forall k c, (aw_take (aw_register k c)).1 = Some k;
  aw_take_take : forall c, (aw_take (aw_take c).2).1 = None
}.

(** The waker a cell would yield. *)
Definition registered {Waker} `{AtomicWaker Waker} (c : aw_cell) : option Waker := (aw_take c).1.

Lemma registered_new {Waker} `{AtomicWaker Waker} : registered aw_new = None.
Proof. apply aw_take_new. Qed.
Lemma registered_register {Waker} `{AtomicWaker Waker} k c : registered (aw_register k c) = Some k.
Proof. apply aw_take_register. Qed.
Lemma registered_take {Waker} `{AtomicWaker Waker} c : registered (aw_take c).2 = None.
Proof. apply aw_take_take. Qed.

(** ** The cell of the loom build: a mutex around an optional waker *)

Section mutex_waker.
Context {Waker : Type}.

Record MutexWaker : Type := mkMutexWaker { mw_waker : option Waker }.

Definition MutexWaker_new : MutexWaker := mkMutexWaker None.

(** The section under the mutex: [replace] by a clone of the waker; the
    previous waker is dropped after the section. *)
Definition MutexWaker_register (w : Waker) (_ : MutexWaker) : MutexWaker := mkMutexWaker (Some w).

(** The section under the mutex of [wake]: [Option::take]. *)
Definition MutexWaker_take (c : MutexWaker) : option Waker * MutexWaker := (mw_waker c, mkMutexWaker None).

End mutex_waker.
Arguments MutexWaker Waker : clear implicits.

#[export] Instance MutexWaker_AtomicWaker (Waker : Type) : AtomicWaker Waker := {|
  aw_cell := MutexWaker Waker;
  aw_new := MutexWaker_new;
  aw_register := MutexWaker_register;
  aw_take := MutexWaker_take;
  aw_take_new := eq_refl;
  aw_take_register := fun _ _ => eq_refl;
  aw_take_take := fun _ => eq_refl
|}.

(** ** Waking *)

Section wake.
Context {S Waker : Type} `{AW : AtomicWaker Waker}.
Context (get : S -> aw_cell) (put : aw_cell -> S -> S) (schedule : Waker -> S -> S).

(** [register]: one step. *)
Definition AtomicWaker_register (w : Waker) : prog S unit :=
  store (fun s => put (aw_register w (get s)) s).

(** [take]: one step. *)
Definition AtomicWaker_take : prog S (option Waker) :=
  atomic (fun s => let '(o, c) := aw_take (get s) in (o, put c s)).

(** [wake]: the waker leaves the cell in one step and is invoked in a later
    one. *)
Definition AtomicWaker_wake : prog S unit :=
  let* o := AtomicWaker_take in
  match o with
  | Some w => store (schedule w)
  | None => Ret tt
  end.

End wake.
