(* ===== verification/YAsync.v ===== *)
(** * yring: the async endpoints

    Models [src/yring/src/async.rs].  The shared state is the ring with the
    two waker cells and the list of scheduled tasks; the private cursors of the
    endpoints are records, as in YRing.  A future is its state between polls:
    [PushFuture] holds the value it still has to push. *)

From S2P Require Import Prelude Prog YRing Waker.
Local Open Scope prog_scope.

(** The endpoints.  Unlike the synchronous consumer the async one remembers
    what it has released. *)
Record AsyncProducer : Type := mkAsyncProducer {
  ap_cursor : Z;
  ap_cached_head : Z
}.

Record AsyncConsumer : Type := mkAsyncConsumer {
  ac_head : Z;
  ac_cached_tail : Z;
  ac_released_head : Z
}.

Section async.
Context {T Waker : Type} `{AW : AtomicWaker Waker}.

Record AsyncRing : Type := mkAsyncRing {
  ar_ring : Ring T;
  ar_consumer_waker : aw_cell;
  ar_producer_waker : aw_cell
}.

(** The shared state and the scheduled tasks. *)
Definition AsyncState : Type := AsyncRing * list Waker.

Definition put_ar_ring (r : Ring T) (s : AsyncState) : AsyncState :=
  (mkAsyncRing r (ar_consumer_waker s.1) (ar_producer_waker s.1), s.2).
Definition put_consumer_waker (c : aw_cell) (s : AsyncState) : AsyncState :=
  (mkAsyncRing (ar_ring s.1) c (ar_producer_waker s.1), s.2).
Definition put_producer_waker (c : aw_cell) (s : AsyncState) : AsyncState :=
  (mkAsyncRing (ar_ring s.1) (ar_consumer_waker s.1) c, s.2).
Definition schedule (w : Waker) (s : AsyncState) : AsyncState := (s.1, w :: s.2).

Definition on_ar_ring {A} (p : prog (Ring T) A) : prog AsyncState A :=
  lift (fun s => ar_ring s.1) put_ar_ring p.

Definition consumer_waker_register (w : Waker) : prog AsyncState unit :=
  AtomicWaker_register (fun s => ar_consumer_waker s.1) put_consumer_waker w.
Definition consumer_waker_wake : prog AsyncState unit :=
  AtomicWaker_wake (fun s => ar_consumer_waker s.1) put_consumer_waker schedule.
Definition producer_waker_register (w : Waker) : prog AsyncState unit :=
  AtomicWaker_register (fun s => ar_producer_waker s.1) put_producer_waker w.
Definition producer_waker_wake : prog AsyncState unit :=
  AtomicWaker_wake (fun s => ar_producer_waker s.1) put_producer_waker schedule.

(** [impl Drop for AsyncRing]: the values it disposes of.  The drop of the
    inner ring follows. *)
Definition AsyncRing_drop : prog AsyncState (list T) :=
  let* vs := on_ar_ring Ring_drop_remaining in
  let* ws := on_ar_ring Ring_drop in
  Ret (vs ++ ws).

Definition async_spsc (capacity : Z) : outcome (AsyncState * AsyncProducer * AsyncConsumer) :=
  match Ring_new capacity with
  | Fault e => Fault e
  | Done ring => Done ((mkAsyncRing ring aw_new aw_new, []), mkAsyncProducer 0 0, mkAsyncConsumer 0 0 0)
  end.

(** ** The sending half *)

Definition AsyncProducer_push (p : AsyncProducer) (val : T) : prog AsyncState (result unit T * AsyncProducer) :=
  let* '(r, cursor, cached_head) := on_ar_ring (Ring_push (ap_cursor p) (ap_cached_head p) val) in
  Ret (r, mkAsyncProducer cursor cached_head).

Definition AsyncProducer_flush (p : AsyncProducer) : prog AsyncState unit :=
  let* _ := on_ar_ring (store (set_tail (ap_cursor p))) in
  consumer_waker_wake.

Definition AsyncProducer_push_and_flush (p : AsyncProducer) (val : T)
    : prog AsyncState (result unit T * AsyncProducer) :=
  let* '(r, p) := AsyncProducer_push p val in
  match r with
  | Err v => Ret (Err v, p)
  | Ok _ => let* _ := AsyncProducer_flush p in Ret (Ok tt, p)
  end.

Definition AsyncProducer_register_space_waker (w : Waker) : prog AsyncState unit :=
  let* _ := producer_waker_register w in
  let* _ := on_ar_ring (on_producer_waiting (swap waiter_waiting (set_waiting true))) in
  Ret tt.

Definition AsyncProducer_is_full (p : AsyncProducer) : prog AsyncState (bool * AsyncProducer) :=
  let* '(full, cached_head) := on_ar_ring (Ring_is_full (ap_cursor p) (ap_cached_head p)) in
  Ret (full, mkAsyncProducer (ap_cursor p) cached_head).

Definition AsyncProducer_is_consumer_dropped : prog AsyncState bool :=
  on_ar_ring (load ring_consumer_dropped).

(** [is_consumer_dropped() || !is_full()]. *)
Definition AsyncProducer_may_proceed (p : AsyncProducer) : prog AsyncState (bool * AsyncProducer) :=
  let* dropped := AsyncProducer_is_consumer_dropped in
  if dropped : bool then Ret (true, p)
  else
    let* '(full, p) := AsyncProducer_is_full p in
    Ret (negb full, p).

Definition AsyncProducer_poll_ready (w : Waker) (p : AsyncProducer) : prog AsyncState (Poll unit * AsyncProducer) :=
  let* '(go, p) := AsyncProducer_may_proceed p in
  if go : bool then Ret (Ready tt, p)
  else
    let* _ := AsyncProducer_register_space_waker w in
    let* '(go, p) := AsyncProducer_may_proceed p in
    Ret (if go then Ready tt else Pending, p).

Definition AsyncProducer_capacity : prog AsyncState Z := on_ar_ring Ring_capacity.
Definition AsyncProducer_len (p : AsyncProducer) : prog AsyncState Z :=
  on_ar_ring (Ring_producer_len (ap_cursor p)).
Definition AsyncProducer_is_empty (p : AsyncProducer) : prog AsyncState bool :=
  on_ar_ring (Ring_producer_is_empty (ap_cursor p)).

(** [impl Drop for AsyncProducer]. *)
Definition AsyncProducer_drop (p : AsyncProducer) : prog AsyncState unit :=
  let* _ := AsyncProducer_flush p in
  let* _ := on_ar_ring (store (set_producer_dropped true)) in
  consumer_waker_wake.

(** ** The future of an awaited push

    The future borrows the producer: the borrow is the endpoint passed to and
    returned from [poll]. *)

Record PushFuture : Type := mkPushFuture { pf_val : option T }.

Definition AsyncProducer_push_async (val : T) : PushFuture := mkPushFuture (Some val).

Definition PushFuture_poll (w : Waker) (f : PushFuture) (p : AsyncProducer)
    : prog AsyncState (Poll (result unit T) * PushFuture * AsyncProducer) :=
  match pf_val f with
  | None => Fail (Panic "PushFuture polled after completion")
  | Some val =>
    let* '(r, p) := AsyncProducer_push p val in
    match r with
    | Ok _ => Ret (Ready (Ok tt), mkPushFuture None, p)
    | Err returned =>
      let* dropped := on_ar_ring (load ring_consumer_dropped) in
      if dropped : bool then Ret (Ready (Err returned), mkPushFuture None, p)
      else
        let* _ := AsyncProducer_register_space_waker w in
        let* '(r, p) := AsyncProducer_push p returned in
        match r with
        | Ok _ => Ret (Ready (Ok tt), mkPushFuture None, p)
        | Err returned =>
          let* dropped := on_ar_ring (load ring_consumer_dropped) in
          if dropped : bool then Ret (Ready (Err returned), mkPushFuture None, p)
          else Ret (Pending, mkPushFuture (Some returned), p)
        end
    end
  end.

(** ** The receiving half *)

Definition AsyncConsumer_pop (c : AsyncConsumer) : prog AsyncState (option T * AsyncConsumer) :=
  let* '(v, head) := on_ar_ring (Ring_pop (ac_head c) (ac_cached_tail c)) in
  Ret (v, mkAsyncConsumer head (ac_cached_tail c) (ac_released_head c)).

Definition AsyncConsumer_release (c : AsyncConsumer) : prog AsyncState AsyncConsumer :=
  if ac_head c =? ac_released_head c then Ret c
  else
    let* _ := on_ar_ring (Ring_release (ac_head c)) in
    let c := mkAsyncConsumer (ac_head c) (ac_cached_tail c) (ac_head c) in
    let* waiting := on_ar_ring (on_producer_waiting (swap waiter_waiting (set_waiting false))) in
    let* _ := when waiting producer_waker_wake in
    Ret c.

Definition AsyncConsumer_prefetch (c : AsyncConsumer) : prog AsyncState (Z * AsyncConsumer) :=
  let* '(count, cached_tail) := on_ar_ring (Ring_prefetch (ac_cached_tail c)) in
  Ret (count, mkAsyncConsumer (ac_head c) cached_tail (ac_released_head c)).

(** [if self.head == self.cached_tail { self.prefetch(); }]. *)
Definition AsyncConsumer_refresh (c : AsyncConsumer) : prog AsyncState AsyncConsumer :=
  if ac_head c =? ac_cached_tail c then
    let* '(_, c) := AsyncConsumer_prefetch c in Ret c
  else Ret c.

Definition AsyncConsumer_prefetch_and_pop (c : AsyncConsumer) : prog AsyncState (option T * AsyncConsumer) :=
  let* c := AsyncConsumer_refresh c in
  let* '(val, c) := AsyncConsumer_pop c in
  match val with
  | Some v => let* c := AsyncConsumer_release c in Ret (Some v, c)
  | None => Ret (None, c)
  end.

Definition AsyncConsumer_is_empty (c : AsyncConsumer) : prog AsyncState bool :=
  on_ar_ring (Ring_consumer_is_empty (ac_head c) (ac_cached_tail c)).
Definition AsyncConsumer_capacity : prog AsyncState Z := on_ar_ring Ring_capacity.
Definition AsyncConsumer_len (c : AsyncConsumer) : prog AsyncState Z :=
  on_ar_ring (Ring_consumer_len (ac_head c)).

(** [impl Stream for AsyncConsumer]. *)
Definition AsyncConsumer_poll_next (w : Waker) (c : AsyncConsumer)
    : prog AsyncState (Poll (option T) * AsyncConsumer) :=
  let* c := AsyncConsumer_refresh c in
  let* '(val, c) := AsyncConsumer_pop c in
  match val with
  | Some v => let* c := AsyncConsumer_release c in Ret (Ready (Some v), c)
  | None =>
    let* c := AsyncConsumer_release c in
    let* _ := consumer_waker_register w in
    let* c := AsyncConsumer_refresh c in
    let* '(val, c) := AsyncConsumer_pop c in
    match val with
    | Some v => let* c := AsyncConsumer_release c in Ret (Ready (Some v), c)
    | None =>
      let* dropped := on_ar_ring (load ring_producer_dropped) in
      if dropped : bool then
        let* '(_, c) := AsyncConsumer_prefetch c in
        let* '(val, c) := AsyncConsumer_pop c in
        let* c := AsyncConsumer_release c in
        Ret (Ready val, c)
      else Ret (Pending, c)
    end
  end.

(** [impl Drop for AsyncConsumer]. *)
Definition AsyncConsumer_drop (c : AsyncConsumer) : prog AsyncState unit :=
  let* _ := AsyncConsumer_release c in
  let* _ := on_ar_ring (store (set_consumer_dropped true)) in
  producer_waker_wake.

End async.

Arguments AsyncRing T Waker {AW}.
Arguments AsyncState T Waker {AW}.
Arguments PushFuture T : clear implicits.
