(* ===== verification/YAsyncConc.v ===== *)
(** * The async endpoints under every interleaving

    The producer and the consumer of an async ring run as two tasks of an
    executor: a task is scheduled, the executor takes it off its list and
    polls it with its waker.  Every access of either endpoint to the ring, to a
    waker cell or to the executor's list is a step.

    The proof extends the rely-guarantee argument of YRingConc.  Each side has
    a phase (what its last registration was for and what it rechecked since),
    and the other side has flags for the accesses it still owes: a publication
    whose wake is to come, and a waker taken from its cell but not invoked. *)

From S2P Require Import Prelude Prog YRing YRingInv YRingSpec YRingThm YRingConc Waker YAsync.
Local Open Scope prog_scope.

(** ** Tasks over the endpoints *)

Section tasks.
Context {T Waker : Type} `{EqDecision Waker} `{AW : AtomicWaker Waker}.
#[local] Abbreviation State := (AsyncState T Waker).

(** The executor takes the task off its list before it polls it. *)
Definition unschedule (w : Waker) : prog State unit :=
  store (fun s => (s.1, filter (fun v => v <> w) s.2)).

Inductive async_pcmd : Type :=
| PPush (v : T) | PFlush | PPushFlush (v : T)
| PPollReady (w : Waker) | PPushAsync (v : T) (polls : list Waker)
| PIsFull | PIsConsumerDropped | PLen | PIsEmpty | PCapacity.

Inductive async_ccmd : Type :=
| NPop | NRelease | NPrefetch | NPrefetchPop | NPollNext (w : Waker)
| NIsEmpty | NLen | NCapacity.

(** How a task ends: it awaits, or it drops its endpoint. *)
Inductive async_pend : Type := EReady (w : Waker) | EPush (v : T) (w : Waker) | EPDrop.
Inductive async_cend : Type := ENext (w : Waker) | ECDrop.

Definition is_pushed (r : Poll (result unit T)) : bool :=
  match r with Ready (Ok _) => true | _ => false end.

(** One poll of a push future by the executor; the values it pushed. *)
Definition poll_push (w : Waker) (v : T) (f : PushFuture T) (p : AsyncProducer)
    : prog State (Poll (result unit T) * list T * PushFuture T * AsyncProducer) :=
  let* _ := unschedule w in
  let* '(r, f, p) := PushFuture_poll w f p in
  Ret (r, if is_pushed r then [v] else [], f, p).

(** A push future driven by polls with the given wakers; it is cancelled when
    it is still pending after the last one. *)
Fixpoint drive_push (polls : list Waker) (v : T) (f : PushFuture T) (p : AsyncProducer)
    : prog State (list T * AsyncProducer) :=
  match polls with
  | [] => Ret ([], p)
  | w :: polls' =>
      let* '(r, vs, f, p) := poll_push w v f p in
      match r with
      | Ready _ => Ret (vs, p)
      | Pending => drive_push polls' v f p
      end
  end.

(** The values an operation added to the ring. *)
Definition exec_pcmd (cmd : async_pcmd) (p : AsyncProducer) : prog State (list T * AsyncProducer) :=
  match cmd with
  | PPush v => let* '(r, p) := AsyncProducer_push p v in Ret (if is_ok r then [v] else [], p)
  | PFlush => let* _ := AsyncProducer_flush p in Ret ([], p)
  | PPushFlush v => let* '(r, p) := AsyncProducer_push_and_flush p v in Ret (if is_ok r then [v] else [], p)
  | PPollReady w =>
      let* _ := unschedule w in
      let* '(_, p) := AsyncProducer_poll_ready w p in Ret ([], p)
  | PPushAsync v polls => drive_push polls v (AsyncProducer_push_async v) p
  | PIsFull => let* '(_, p) := AsyncProducer_is_full p in Ret ([], p)
  | PIsConsumerDropped => let* _ := AsyncProducer_is_consumer_dropped in Ret ([], p)
  | PLen => let* _ := AsyncProducer_len p in Ret ([], p)
  | PIsEmpty => let* _ := AsyncProducer_is_empty p in Ret ([], p)
  | PCapacity => let* _ := AsyncProducer_capacity in Ret ([], p)
  end.

(** The values an operation took from the ring. *)
Definition exec_ccmd (cmd : async_ccmd) (c : AsyncConsumer) : prog State (list T * AsyncConsumer) :=
  match cmd with
  | NPop => let* '(v, c) := AsyncConsumer_pop c in Ret (option_list v, c)
  | NRelease => let* c := AsyncConsumer_release c in Ret ([], c)
  | NPrefetch => let* '(_, c) := AsyncConsumer_prefetch c in Ret ([], c)
  | NPrefetchPop => let* '(v, c) := AsyncConsumer_prefetch_and_pop c in Ret (option_list v, c)
  | NPollNext w =>
      let* _ := unschedule w in
      let* '(r, c) := AsyncConsumer_poll_next w c in
      Ret (match r with Ready o => option_list o | Pending => [] end, c)
  | NIsEmpty => let* _ := AsyncConsumer_is_empty c in Ret ([], c)
  | NLen => let* _ := AsyncConsumer_len c in Ret ([], c)
  | NCapacity => let* _ := AsyncConsumer_capacity in Ret ([], c)
  end.

(** What a finished task hands back: the values moved, the waker it awaits
    with if its last poll was pending, the endpoint, and whether it was
    dropped. *)
Record task_result (E : Type) : Type := mkTaskResult {
  tr_values : list T;
  tr_awaits : option Waker;
  tr_endpoint : E;
  tr_dropped : bool
}.

Definition end_producer (e : async_pend) (vs : list T) (p : AsyncProducer)
    : prog State (task_result AsyncProducer) :=
  match e with
  | EReady w =>
      let* _ := unschedule w in
      let* '(r, p) := AsyncProducer_poll_ready w p in
      Ret (mkTaskResult _ vs (if Poll_is_pending r then Some w else None) p false)
  | EPush v w =>
      let* '(r, ws, f, p) := poll_push w v (AsyncProducer_push_async v) p in
      Ret (mkTaskResult _ (vs ++ ws) (if Poll_is_pending r then Some w else None) p false)
  | EPDrop => let* _ := AsyncProducer_drop p in Ret (mkTaskResult _ vs None p true)
  end.

Fixpoint producer_task (cmds : list async_pcmd) (e : async_pend) (vs : list T) (p : AsyncProducer)
    : prog State (task_result AsyncProducer) :=
  match cmds with
  | [] => end_producer e vs p
  | cmd :: cmds' => let* '(ws, p) := exec_pcmd cmd p in producer_task cmds' e (vs ++ ws) p
  end.

Definition end_consumer (e : async_cend) (vs : list T) (c : AsyncConsumer)
    : prog State (task_result AsyncConsumer) :=
  match e with
  | ENext w =>
      let* _ := unschedule w in
      let* '(r, c) := AsyncConsumer_poll_next w c in
      Ret (mkTaskResult _ (vs ++ match r with Ready o => option_list o | Pending => [] end)
             (if Poll_is_pending r then Some w else None) c false)
  | ECDrop => let* _ := AsyncConsumer_drop c in Ret (mkTaskResult _ vs None c true)
  end.

Fixpoint consumer_task (cmds : list async_ccmd) (e : async_cend) (vs : list T) (c : AsyncConsumer)
    : prog State (task_result AsyncConsumer) :=
  match cmds with
  | [] => end_consumer e vs c
  | cmd :: cmds' => let* '(ws, c) := exec_ccmd cmd c in consumer_task cmds' e (vs ++ ws) c
  end.

(** The wakers a task is polled with. *)
Definition pcmd_wakers (cmd : async_pcmd) : list Waker :=
  match cmd with PPollReady w => [w] | PPushAsync _ polls => polls | _ => [] end.
Definition ccmd_wakers (cmd : async_ccmd) : list Waker :=
  match cmd with NPollNext w => [w] | _ => [] end.
Definition pend_wakers (e : async_pend) : list Waker :=
  match e with EReady w | EPush _ w => [w] | EPDrop => [] end.
Definition cend_wakers (e : async_cend) : list Waker :=
  match e with ENext w => [w] | ECDrop => [] end.
Definition producer_wakers (cmds : list async_pcmd) (e : async_pend) : list Waker :=
  (cmds ≫= pcmd_wakers) ++ pend_wakers e.
Definition consumer_wakers (cmds : list async_ccmd) (e : async_cend) : list Waker :=
  (cmds ≫= ccmd_wakers) ++ cend_wakers e.

End tasks.
Arguments async_pcmd T Waker : clear implicits.
Arguments async_ccmd Waker : clear implicits.
Arguments async_pend T Waker : clear implicits.
Arguments async_cend Waker : clear implicits.
Arguments task_result T Waker E : clear implicits.
Arguments mkTaskResult {T Waker E}.
Arguments tr_values {T Waker E}.
Arguments tr_awaits {T Waker E}.
Arguments tr_endpoint {T Waker E}.
Arguments tr_dropped {T Waker E}.

(** ** Programs that touch none of the words the wakeups depend on *)

Definition same_words {T} (r r' : Ring T) : Prop :=
  ring_head r' = ring_head r /\ ring_tail r' = ring_tail r /\
  ring_producer_waiting r' = ring_producer_waiting r /\
  ring_producer_dropped r' = ring_producer_dropped r /\
  ring_consumer_dropped r' = ring_consumer_dropped r.

Fixpoint wordless {T A} (p : prog (Ring T) A) : Prop :=
  match p with
  | Ret _ | Fail _ => True
  | Act f k => (forall r, same_words r (f r).2) /\ forall a, wordless (k a)
  end.

Lemma wordless_bind {T A B} (p : prog (Ring T) A) (k : A -> prog (Ring T) B) :
  wordless p -> (forall a, wordless (k a)) -> wordless (bind p k).
Proof.
  intros Hp Hk. induction p as [a|R f c IH|e]; cbn; auto.
  destruct Hp as [H1 H2]. split; auto.
Qed.

Lemma wordless_load {T R} (get : Ring T -> R) : wordless (load get).
Proof. by cbn. Qed.

Lemma wordless_slot_take {T} i : wordless (T := T) (slot_take i).
Proof.
  cbn. split.
  - intros r. by destruct (zlookup _ _) as [[]|].
  - by intros [].
Qed.

Lemma wordless_slot_write {T} i (v : T) : wordless (slot_write i v).
Proof.
  cbn. split.
  - intros r. by destruct (zlookup _ _).
  - by intros [].
Qed.

#[export] Hint Resolve wordless_load wordless_slot_take wordless_slot_write : fanring.

Ltac wordless_tac := repeat first [ exact I | solve [auto with fanring]
  | apply wordless_bind | progress intros | case_match ].

Lemma wordless_push {T} a b (v : T) : wordless (Ring_push a b v).
Proof. unfold Ring_push, Ring_capacity, Ring_index. wordless_tac. Qed.
Lemma wordless_is_full {T} a b : wordless (T := T) (Ring_is_full a b).
Proof. unfold Ring_is_full, Ring_capacity. wordless_tac. Qed.
Lemma wordless_pop {T} a b : wordless (T := T) (Ring_pop a b).
Proof. unfold Ring_pop, Ring_index. wordless_tac. Qed.
Lemma wordless_prefetch {T} a : wordless (T := T) (Ring_prefetch a).
Proof. unfold Ring_prefetch. wordless_tac. Qed.
#[export] Hint Resolve wordless_push wordless_is_full wordless_pop wordless_prefetch : fanring.

(** ** The invariant of the registrations *)

Section inv.
Context {T Waker : Type} `{EqDecision Waker} `{AW : AtomicWaker Waker} (cap base : Z).

(** The wakers of the consumer's task, as opposed to the producer's. *)
Context (consumer_side : Waker -> bool).

(** What the consumer waits for since its last registration: [items] after it
    found no published item, [open] after it found the producer alive. *)
Inductive cphase : Type := CIdle | CWait (w : Waker) (items open : bool).
(** The same for the producer, whose registration has two steps. *)
Inductive pphase : Type := PIdle | PRegistered (w : Waker) | PWait (w : Waker) (space open : bool).

Record aghost : Type := mkA {
  a_g : ghost T;
  a_c : cphase;
  a_p : pphase;
  (* the producer has to wake the consumer; the waker it took *)
  a_cwake : bool;
  a_cfly : option Waker;
  (* the consumer has to look at [waiting]; to wake the producer; the waker it took *)
  a_plook : bool;
  a_pwake : bool;
  a_pfly : option Waker
}.

Definition ast : Type := AsyncState T Waker * aghost.
Definition aproj (x : ast) : Ring T * ghost T := (ar_ring x.1.1, a_g x.2).

Definition full (g : ghost T) : Prop := g_ph g + cap <= zlength (g_hist g).

Definition JC (s : AsyncState T Waker) (a : aghost) : Prop :=
  match a_c a with
  | CIdle => True
  | CWait w items open =>
      consumer_side w = true /\
      (w ∈ s.2 \/ a_cfly a = Some w \/
       registered (ar_consumer_waker s.1) = Some w /\
       (a_cwake a = true \/
        (items = true -> g_t (a_g a) <= g_h (a_g a)) /\
        (open = true -> ring_producer_dropped (ar_ring s.1) = false)))
  end.

Definition JP (s : AsyncState T Waker) (a : aghost) : Prop :=
  match a_p a with
  | PIdle => True
  | PRegistered w =>
      consumer_side w = false /\
      (w ∈ s.2 \/ a_pfly a = Some w \/ registered (ar_producer_waker s.1) = Some w)
  | PWait w space open =>
      consumer_side w = false /\
      (w ∈ s.2 \/ a_pfly a = Some w \/
       registered (ar_producer_waker s.1) = Some w /\
       (a_pwake a = true \/
        waiter_waiting (ring_producer_waiting (ar_ring s.1)) = true /\
        (space = true -> full (a_g a) \/ a_plook a = true) /\
        (open = true -> ring_consumer_dropped (ar_ring s.1) = false)))
  end.

Definition AJ (x : ast) : Prop := ok cap base (aproj x) /\ JC x.1 x.2 /\ JP x.1 x.2.

Definition aguar (i : nat) : relation ast := fun x y =>
  guar cap base i (aproj x) (aproj y) /\ AJ y /\
  match i with
  | O => a_c y.2 = a_c x.2 /\ a_plook y.2 = a_plook x.2 /\ a_pwake y.2 = a_pwake x.2 /\
         a_pfly y.2 = a_pfly x.2
  | _ => a_p y.2 = a_p x.2 /\ a_cwake y.2 = a_cwake x.2 /\ a_cfly y.2 = a_cfly x.2
  end.

Lemma arely_proj i x y : rely aguar i x y -> rely (guar cap base) i (aproj x) (aproj y).
Proof. intros (j & Hj & H & _). exists j. auto. Qed.
Lemma arely_rtc i x y : rtc (rely aguar i) x y -> rtc (rely (guar cap base) i) (aproj x) (aproj y).
Proof. induction 1; [done|]. eapply rtc_l; [eapply arely_proj; eauto|done]. Qed.
Lemma arely_0 x y : rely aguar 0 x y -> aguar 1 x y.
Proof. intros ([|[|j]] & Hj & H); [done|done|by destruct H]. Qed.
Lemma arely_1 x y : rely aguar 1 x y -> aguar 0 x y.
Proof. intros ([|[|j]] & Hj & H); [done|done|by destruct H]. Qed.

(** What the producer knows: its cursors, its phase, what it owes. *)
Definition aprod (p : AsyncProducer) : Producer := mkProducer (ap_cursor p) (ap_cached_head p).
Definition acons (c : AsyncConsumer) : Consumer := mkConsumer (ac_head c) (ac_cached_tail c).

Definition known {A} (o : option A) (a : A) : Prop := match o with Some b => a = b | None => True end.

Definition PA (ph : option pphase) (wk : bool) (fly : option Waker) p t hist (x : ast) : Prop :=
  pa cap base (aprod p) t hist (aproj x) /\ AJ x /\ known ph (a_p x.2) /\
  a_cwake x.2 = wk /\ a_cfly x.2 = fly.

Definition CA (ph : option cphase) (lk wk : bool) (fly : option Waker) c ct phd h got (x : ast) : Prop :=
  ca cap base (acons c) ct phd h got (aproj x) /\ AJ x /\ known ph (a_c x.2) /\
  a_plook x.2 = lk /\ a_pwake x.2 = wk /\ a_pfly x.2 = fly /\ ac_released_head c = wrap (base + phd).

Lemma PA_stable ph wk fly p t hist : stable aguar 0 (PA ph wk fly p t hist).
Proof.
  intros x y (Ha & HJ & Hp & Hw & Hf) Hxy.
  pose proof (pa_stable _ _ _ _ _ _ _ Ha (arely_proj _ _ _ Hxy)) as Ha'.
  apply arely_0 in Hxy as (_ & HJ' & E1 & E2 & E3). split_and!; auto; congruence.
Qed.

Lemma CA_stable ph lk wk fly c ct phd h got : stable aguar 1 (CA ph lk wk fly c ct phd h got).
Proof.
  intros x y (Ha & HJ & Hp & Hl & Hw & Hf & Hr) Hxy.
  pose proof (ca_stable _ _ _ _ _ _ _ _ _ Ha (arely_proj _ _ _ Hxy)) as Ha'.
  apply arely_1 in Hxy as (_ & HJ' & E1 & E2 & E3 & E4). split_and!; auto; congruence.
Qed.

Lemma PA_any ph wk fly p t hist x : PA ph wk fly p t hist x -> PA None wk fly p t hist x.
Proof. intros (H1 & H2 & H3 & H4 & H5). by split_and!. Qed.
Lemma CA_any ph lk wk fly c ct phd h got x :
  CA ph lk wk fly c ct phd h got x -> CA None lk wk fly c ct phd h got x.
Proof. intros (H1 & H2 & H3 & H4 & H5 & H6 & H7). by split_and!. Qed.

(** *** Steps of either side *)

(** The ghost state after a step of the producer, of the consumer. *)
Definition pset (a : aghost) (g : ghost T) (ph : pphase) (wk : bool) (fly : option Waker) : aghost :=
  mkA g (a_c a) ph wk fly (a_plook a) (a_pwake a) (a_pfly a).
Definition cset (a : aghost) (g : ghost T) (ph : cphase) (lk wk : bool) (fly : option Waker) : aghost :=
  mkA g ph (a_p a) (a_cwake a) (a_cfly a) lk wk fly.

Lemma aguar_0_intro s a s' g ph wk fly :
  guar cap base 0 (ar_ring s.1, a_g a) (ar_ring s'.1, g) ->
  JC s' (pset a g ph wk fly) -> JP s' (pset a g ph wk fly) ->
  aguar 0 (s, a) (s', pset a g ph wk fly).
Proof. intros H1 H2 H3. split; [exact H1|]. split; [|done]. split; [apply H1|]. by split. Qed.

Lemma aguar_1_intro s a s' g ph lk wk fly :
  guar cap base 1 (ar_ring s.1, a_g a) (ar_ring s'.1, g) ->
  JC s' (cset a g ph lk wk fly) -> JP s' (cset a g ph lk wk fly) ->
  aguar 1 (s, a) (s', cset a g ph lk wk fly).
Proof. intros H1 H2 H3. split; [exact H1|]. split; [|done]. split; [apply H1|]. by split. Qed.

Lemma words_positions (x y : Ring T * ghost T) i :
  ok cap base x -> guar cap base i x y -> same_words x.1 y.1 ->
  g_t y.2 = g_t x.2 /\ g_ph y.2 = g_ph x.2.
Proof.
  intros Hx H (Eh & Et & _). assert (Hy : ok cap base y) by (destruct i as [|[|]]; [apply H..|done]).
  pose proof (ok_facts _ _ _ Hx). pose proof (ok_facts _ _ _ Hy).
  rewrite (ok_tail _ _ _ _ _ _ _ Hx), (ok_tail _ _ _ _ _ _ _ Hy) in Et.
  rewrite (ok_head _ _ _ _ _ _ _ Hx), (ok_head _ _ _ _ _ _ _ Hy) in Eh.
  destruct i as [|[|]]; [| |done].
  - destruct H as (_ & E1 & E2 & L & _). apply wrap_inj in Et; lia.
  - destruct H as (_ & E1 & E2 & L1 & L2). apply wrap_inj in Eh; [lia|]. rewrite E2 in *. lia.
Qed.

Lemma AJ_rtc_0 x y :
  rtc (rely aguar 0) x y -> AJ x ->
  AJ y /\ a_p y.2 = a_p x.2 /\ a_cwake y.2 = a_cwake x.2 /\ a_cfly y.2 = a_cfly x.2.
Proof.
  induction 1 as [|x z y Hxz _ IH]; intros HJ; [done|].
  apply arely_0 in Hxz as (_ & HJ' & E1 & E2 & E3). destruct (IH HJ') as (? & ? & ? & ?).
  split_and!; congruence.
Qed.

Lemma AJ_rtc_1 x y :
  rtc (rely aguar 1) x y -> AJ x ->
  AJ y /\ a_c y.2 = a_c x.2 /\ a_plook y.2 = a_plook x.2 /\ a_pwake y.2 = a_pwake x.2 /\ a_pfly y.2 = a_pfly x.2.
Proof.
  induction 1 as [|x z y Hxz _ IH]; intros HJ; [done|].
  apply arely_1 in Hxz as (_ & HJ' & E1 & E2 & E3 & E4). destruct (IH HJ') as (? & ? & ? & ? & ?).
  split_and!; congruence.
Qed.

(** *** Lifting the proofs about wordless ring operations *)

Lemma wp_wordless_0 {A} (p : prog (Ring T) A) (Q : A -> Ring T * ghost T -> Prop) x :
  wp (guar cap base) 0 p Q (aproj x) -> wordless p ->
  AJ x -> a_cwake x.2 = false -> a_cfly x.2 = None ->
  wp aguar 0 (on_ar_ring p) (fun a y => Q a (aproj y) /\ AJ y /\ a_cwake y.2 = false /\ a_cfly y.2 = None) x.
Proof.
  unfold on_ar_ring. revert x. induction p as [a|R f k IH|e]; intros x Hw Hq HJ Hm Hf y Hy.
  all: destruct (AJ_rtc_0 _ _ Hy HJ) as (HJ' & _ & Em & Ef); rewrite Hm in Em; rewrite Hf in Ef.
  all: pose proof (arely_rtc _ _ _ Hy) as Hy'.
  - split_and!; auto; by apply Hw.
  - destruct (Hw _ Hy') as (g' & Hg & Hk). destruct Hq as [Hq1 Hq2].
    destruct y as [[r l] a]. cbn [aproj fst snd] in *. specialize (Hq1 (ar_ring r)).
    destruct HJ' as (Hok & HC & HP).
    destruct (words_positions _ _ _ Hok Hg Hq1) as [Et Eph]. cbn [fst snd] in Et, Eph.
    assert (Eh : g_h g' = g_h (a_g a)) by apply Hg.
    destruct Hq1 as (_ & _ & _ & Ed & _).
    destruct (f (ar_ring r)) as [b r'] eqn:E. cbn [fst snd] in *.
    exists (pset a g' PIdle false None). split.
    + rewrite <- Em, <- Ef. apply aguar_0_intro; [exact Hg| |done].
      unfold JC in *. cbn in *. destruct (a_c a); [done|]. rewrite Em, Ef, Et, Eh, Ed in *. exact HC.
    + apply IH; auto. split; [apply Hg|]. split; [|done].
      unfold JC in *. cbn in *. destruct (a_c a); [done|]. rewrite Em, Ef, Et, Eh, Ed in *. exact HC.
  - exact (Hw _ Hy').
Qed.

Lemma wp_wordless_1 {A} (p : prog (Ring T) A) (Q : A -> Ring T * ghost T -> Prop) x :
  wp (guar cap base) 1 p Q (aproj x) -> wordless p ->
  AJ x -> a_plook x.2 = false -> a_pwake x.2 = false -> a_pfly x.2 = None ->
  wp aguar 1 (on_ar_ring p) (fun a y => Q a (aproj y) /\ AJ y /\ a_plook y.2 = false /\
    a_pwake y.2 = false /\ a_pfly y.2 = None) x.
Proof.
  unfold on_ar_ring. revert x. induction p as [a|R f k IH|e]; intros x Hw Hq HJ Hl Hm Hf y Hy.
  all: destruct (AJ_rtc_1 _ _ Hy HJ) as (HJ' & _ & El & Em & Ef); rewrite Hl in El; rewrite Hm in Em; rewrite Hf in Ef.
  all: pose proof (arely_rtc _ _ _ Hy) as Hy'.
  - split_and!; auto; by apply Hw.
  - destruct (Hw _ Hy') as (g' & Hg & Hk). destruct Hq as [Hq1 Hq2].
    destruct y as [[r l] a]. cbn [aproj fst snd] in *. specialize (Hq1 (ar_ring r)).
    destruct HJ' as (Hok & HC & HP).
    destruct (words_positions _ _ _ Hok Hg Hq1) as [Et Eph]. cbn [fst snd] in Et, Eph.
    assert (Eh : g_hist g' = g_hist (a_g a)) by apply Hg.
    destruct Hq1 as (_ & _ & Ew & _ & Ed).
    destruct (f (ar_ring r)) as [b r'] eqn:E. cbn [fst snd] in *.
    assert (HP' : JP (put_ar_ring r' (r, l)) (cset a g' CIdle false false None)).
    { unfold JP, full in *. cbn in *. destruct (a_p a); [done|rewrite Ef in *; exact HP|].
      rewrite El, Em, Ef, Eph, Eh, Ed, Ew in *. exact HP. }
    exists (cset a g' CIdle false false None). split.
    + apply aguar_1_intro; [exact Hg|done|exact HP'].
    + apply IH; auto. split; [apply Hg|]. by split.
  - exact (Hw _ Hy').
Qed.

(** *** The producer's side *)

Lemma pa_same_ring ph wk fly p t hist s s' a ph' wk' fly' :
  PA ph wk fly p t hist (s, a) -> ok cap base (ar_ring s'.1, a_g a) ->
  JC s' (pset a (a_g a) ph' wk' fly') -> JP s' (pset a (a_g a) ph' wk' fly') ->
  aguar 0 (s, a) (s', pset a (a_g a) ph' wk' fly') /\
  PA (Some ph') wk' fly' p t hist (s', pset a (a_g a) ph' wk' fly').
Proof.
  intros (Ha & HJ & _) Hok HC HP. split.
  - apply aguar_0_intro; auto. by apply guar_0_refl.
  - split; [by eapply (pa_owned cap base)|]. by split_and!.
Qed.

Lemma PA_ok ph wk fly p t hist s a : PA ph wk fly p t hist (s, a) -> ok cap base (ar_ring s.1, a_g a).
Proof. intros (_ & (H & _) & _). exact H. Qed.

(** Waking the consumer ends what the producer owes it. *)
Lemma wp_consumer_wake p t hist x :
  PA None true None p t hist x ->
  wp aguar 0 consumer_waker_wake (fun _ => PA None false None p t hist) x.
Proof.
  intros Hx. eapply wp_act; [apply PA_stable|exact Hx|]. clear x Hx. intros s a Hx.
  destruct (aw_take (ar_consumer_waker s.1)) as [o c] eqn:E. cbn [fst snd].
  pose proof Hx as (_ & (Hok & HC & _) & _ & Hw & Hf).
  destruct (pa_same_ring _ _ _ _ _ _ _ (put_consumer_waker c s) a PIdle false o Hx) as [Hg Hy].
  { exact Hok. }
  { unfold JC, registered in *. cbn in *. rewrite Hf in HC. destruct (a_c a); [done|].
    destruct HC as [Hs HC]. split; [done|]. destruct HC as [HC|[HC|[HC _]]]; [by left|done|].
    right. left. by rewrite <- HC, E. }
  { done. }
  eexists. split; [exact Hg|]. clear Hg Hx Hok HC Hw Hf. destruct o as [w|].
  2:{ eapply wp_retP; [apply PA_stable|exact Hy|]. intros y. apply PA_any. }
  eapply wp_act; [apply PA_stable|exact Hy|]. clear s a c E Hy. intros s a Hx. cbn [fst snd].
  pose proof Hx as (_ & (Hok & HC & _) & _ & Hw & Hf).
  destruct (pa_same_ring _ _ _ _ _ _ _ (schedule w s) a PIdle false None Hx) as [Hg Hy].
  { exact Hok. }
  { unfold JC in *. cbn in *. rewrite Hf in HC. destruct (a_c a); [done|].
    destruct HC as [Hs HC]. split; [done|]. destruct HC as [HC|[HC|[HC HC']]].
    - left. by right.
    - simplify_eq. left. by left.
    - right. right. rewrite Hw in HC'. auto. }
  { done. }
  eexists. split; [exact Hg|]. eapply wp_retP; [apply PA_stable|exact Hy|]. intros y. apply PA_any.
Qed.

(** A step of the producer on the ring after which it owes a wake. *)
Lemma wp_async_flush ph p t hist x :
  PA ph false None p t hist x ->
  wp aguar 0 (AsyncProducer_flush p) (fun _ => PA None false None p (zlength hist) hist) x.
Proof.
  intros Hx. unfold AsyncProducer_flush. eapply wp_act; [apply PA_stable|exact Hx|]. clear x Hx.
  intros s a (Ha & (Hok & HC & HP) & _ & Hw & Hf). cbn [fst snd].
  destruct (wp_store_tail cap base (aprod p) t hist (fun _ => Ret tt) (fun _ => pa cap base (aprod p) (zlength hist) hist)
    _ Ha (fun y Hy => wp_ret _ _ _ _ _ (pa_stable _ _ _ _ _) Hy) (aproj (s, a))) as (g' & Hg & Hk); [constructor|].
  cbn [fst snd aproj] in Hg, Hk. specialize (Hk _ (rtc_refl _ _)).
  exists (pset a g' PIdle true None).
  assert (HC' : JC (put_ar_ring (set_tail (ap_cursor p) (ar_ring s.1)) s) (pset a g' PIdle true None)).
  { unfold JC in *. cbn in *. rewrite Hf in HC. destruct (a_c a); [done|]. destruct HC as [Hs HC].
    split; [done|]. destruct HC as [HC|[HC|[HC _]]]; auto. }
  split; [apply aguar_0_intro; [exact Hg|exact HC'|done]|].
  apply wp_consumer_wake. split; [exact Hk|]. split_and!; try done. split; [apply Hk|]. by split.
Qed.

Lemma wp_async_producer_drop ph p t hist x :
  PA ph false None p t hist x ->
  wp aguar 0 (AsyncProducer_drop p) (fun _ => PA None false None p (zlength hist) hist) x.
Proof.
  intros Hx. eapply wp_call; [eapply wp_async_flush, Hx|]. clear x Hx. intros u x Hx.
  eapply wp_act; [apply PA_stable|exact Hx|]. clear x Hx. intros s a Hx. cbn [fst snd].
  pose proof Hx as (_ & (Hok & HC & _) & _ & Hw & Hf).
  destruct (pa_same_ring _ _ _ _ _ _ _ (put_ar_ring (set_producer_dropped true (ar_ring s.1)) s) a PIdle true None Hx) as [Hg Hy].
  { eapply ring_ok_ext; [exact Hok|done..]. }
  { unfold JC in *. cbn in *. rewrite Hf in HC. destruct (a_c a); [done|]. destruct HC as [Hs HC].
    split; [done|]. destruct HC as [HC|[HC|[HC _]]]; auto. }
  { done. }
  eexists. split; [exact Hg|]. apply wp_consumer_wake. by eapply PA_any.
Qed.

(** The producer's executor takes the task off the list. *)
Lemma wp_unschedule_0 {B} ph w p t hist (k : unit -> prog (AsyncState T Waker) B) Q x :
  consumer_side w = false -> PA ph false None p t hist x ->
  (forall y, PA (Some PIdle) false None p t hist y -> wp aguar 0 (k tt) Q y) ->
  wp aguar 0 (bind (unschedule w) k) Q x.
Proof.
  intros Hs Hx Hk. eapply wp_act; [apply PA_stable|exact Hx|]. clear x Hx. intros s a Hx. cbn [fst snd].
  pose proof Hx as (_ & (Hok & HC & _) & _ & Hw & Hf).
  destruct (pa_same_ring _ _ _ _ _ _ _ (s.1, filter (fun v => v <> w) s.2) a PIdle false None Hx) as [Hg Hy].
  { exact Hok. }
  { unfold JC in *. cbn in *. rewrite Hw, Hf in HC. destruct (a_c a); [done|]. destruct HC as [Hs' HC].
    split; [done|]. destruct HC as [HC|HC]; [|by right]. left. apply list_elem_of_filter. split; [|done].
    intros ->. congruence. }
  { done. }
  eexists. split; [exact Hg|]. by apply Hk.
Qed.

Lemma aguar_refl i x : (i < 2)%nat -> AJ x -> aguar i x x.
Proof.
  intros Hi HJ. destruct x as [s a]. split; [apply guar_refl; [done|apply HJ]|]. split; [done|].
  by destruct i as [|[|]]; [| |lia].
Qed.

(** A wordless operation of the producer. *)
Lemma wp_ring_0 {A} ph p t hist (q : prog (Ring T) A) (R : A -> Ring T * ghost T -> Prop) x :
  PA ph false None p t hist x -> wordless q -> wp (guar cap base) 0 q R (aproj x) ->
  wp aguar 0 (on_ar_ring q) (fun r y => R r (aproj y) /\ AJ y /\ a_cwake y.2 = false /\ a_cfly y.2 = None) x.
Proof. intros (_ & HJ & _ & Hw & Hf) Hq HR. by apply wp_wordless_0. Qed.

Lemma PA_intro p t hist x :
  pa cap base (aprod p) t hist (aproj x) -> AJ x /\ a_cwake x.2 = false /\ a_cfly x.2 = None ->
  PA None false None p t hist x.
Proof. intros H (HJ & Hw & Hf). by split_and!. Qed.

Lemma wp_async_push ph p t hist v x :
  PA ph false None p t hist x ->
  wp aguar 0 (AsyncProducer_push p v) (fun '(r, p') y =>
    match r with
    | Ok _ => PA None false None p' t (hist ++ [v]) y
    | Err w => w = v /\ PA None false None p' t hist y
    end) x.
Proof.
  intros Hx. eapply wp_call.
  { eapply wp_ring_0; [exact Hx|auto with fanring|]. apply (wp_push_ring cap base (aprod p)), Hx. }
  intros [[[[]|w] cur] hd] y [Hy HJ].
  - eapply wp_retP; [apply (PA_stable None)|apply (PA_intro (mkAsyncProducer cur hd)); [exact Hy|exact HJ]|done].
  - destruct Hy as [-> Hy].
    eapply wp_retP; [apply (PA_stable None)|apply (PA_intro (mkAsyncProducer cur hd)); [exact Hy|exact HJ]|done].
Qed.

Lemma wp_async_push_and_flush ph p t hist v x :
  PA ph false None p t hist x ->
  wp aguar 0 (AsyncProducer_push_and_flush p v) (fun '(r, p') y => exists t',
    PA None false None p' t' (hist ++ if is_ok r then [v] else []) y) x.
Proof.
  intros Hx. eapply wp_call; [eapply wp_async_push, Hx|]. clear x Hx. intros [[[]|w] p'] x Hx.
  - eapply wp_call; [eapply wp_async_flush, Hx|]. intros u y Hy.
    eapply wp_retP; [apply PA_stable|exact Hy|]. cbn. eauto.
  - destruct Hx as [-> Hx]. eapply wp_retP; [apply PA_stable|exact Hx|]. cbn. rewrite app_nil_r. eauto.
Qed.

(** A read by the producer keeps its phase. *)
Lemma wp_aread_0 {R B} ph wk fly p t hist (get : Ring T -> R) (k : R -> prog (Ring T) B) Q x :
  PA ph wk fly p t hist x ->
  (forall s a, PA ph wk fly p t hist (s, a) -> wp aguar 0 (on_ar_ring (k (get (ar_ring s.1)))) Q (s, a)) ->
  wp aguar 0 (on_ar_ring (bind (load get) k)) Q x.
Proof.
  intros Hx Hk. eapply wp_act; [apply PA_stable|exact Hx|]. intros s a Hy. cbn [fst snd].
  replace (put_ar_ring (ar_ring s.1) s) with s by (by destruct s as [[] l]).
  exists a. split; [|by apply Hk]. apply aguar_refl; [lia|apply Hy].
Qed.

(** Registering for space: the waker, then the flag. *)
Lemma wp_register_space {B} ph w p t hist (k : unit -> prog (AsyncState T Waker) B) Q x :
  consumer_side w = false -> PA ph false None p t hist x ->
  (forall y, PA (Some (PWait w false false)) false None p t hist y -> wp aguar 0 (k tt) Q y) ->
  wp aguar 0 (bind (AsyncProducer_register_space_waker w) k) Q x.
Proof.
  intros Hs Hx Hk. eapply wp_act; [apply PA_stable|exact Hx|]. clear x Hx. intros s a Hx. cbn [fst snd].
  pose proof Hx as (_ & (Hok & HC & _) & _ & Hw & Hf).
  destruct (pa_same_ring _ _ _ _ _ _ _ (put_producer_waker (aw_register w (ar_producer_waker s.1)) s) a
    (PRegistered w) false None Hx) as [Hg Hy].
  { exact Hok. }
  { unfold JC in *. cbn in *. by rewrite Hw, Hf in HC. }
  { split; [done|]. right. right. apply registered_register. }
  eexists. split; [exact Hg|]. clear Hg Hx Hok HC Hw Hf.
  eapply wp_act; [apply PA_stable|exact Hy|]. clear s a Hy. intros s a Hx. cbn [fst snd].
  pose proof Hx as (_ & (Hok & HC & HP) & Hp & Hw & Hf). cbn [known snd] in Hp.
  set (r' := set_producer_waiting _ _).
  destruct (pa_same_ring _ _ _ _ _ _ _ (put_ar_ring r' s) a (PWait w false false) false None Hx) as [Hg Hy].
  { eapply ring_ok_ext; [exact Hok|done..]. }
  { unfold JC in *. cbn in *. by rewrite Hw, Hf in HC. }
  { unfold JP in *. cbn in *. rewrite Hp in HP. destruct HP as [_ HP]. split; [done|].
    destruct HP as [HP|[HP|HP]]; auto. right. right. split; [done|]. right. by split_and!. }
  eexists. split; [exact Hg|]. by apply Hk.
Qed.

(** The recheck for space after the registration. *)
Definition PAroom p t hist (x : ast) : Prop :=
  PA None false None p t hist x /\ pa_room cap base (aprod p) t hist (aproj x).

Lemma PAroom_stable p t hist : stable aguar 0 (PAroom p t hist).
Proof.
  intros x y [H1 H2] Hxy. split; [by eapply PA_stable|].
  destruct (pa_room_owned cap base (aprod p) t hist) as (_ & HS & _). eapply HS; [exact H2|by apply arely_proj].
Qed.

Lemma wp_recheck_space w open p t hist x :
  PA (Some (PWait w false open)) false None p t hist x ->
  wp aguar 0 (on_ar_ring (if Ring_distance (ap_cursor p) (ap_cached_head p) >=? cap then
                 let* h := load ring_head in Ret (Ring_distance (ap_cursor p) h >=? cap, h)
               else Ret (false, ap_cached_head p)))
    (fun '(full, h) y => let p' := mkAsyncProducer (ap_cursor p) h in
       if full : bool then PA (Some (PWait w true open)) false None p' t hist y else PAroom p' t hist y) x.
Proof.
  intros Hx. destruct (_ >=? cap) eqn:E.
  - eapply wp_act; [apply PA_stable|exact Hx|]. clear x Hx. intros s a Hx. cbn [fst snd].
    replace (put_ar_ring (ar_ring s.1) s) with s by (by destruct s as [[] l]).
    pose proof Hx as (Ha & (Hok & HC & HP) & Hp & Hw & Hf). cbn [known snd] in Hp.
    destruct (pa_refresh cap base (aprod p) t hist _ _ Ha) as [H1 H2]. cbn [aprod producer_cursor] in H1, H2.
    destruct (Ring_distance (ap_cursor p) (ring_head (ar_ring s.1)) >=? cap) eqn:Ed.
    + set (p' := mkAsyncProducer (ap_cursor p) (ring_head (ar_ring s.1))).
      assert (Hx' : PA (Some (PWait w false open)) false None p' t hist (s, a)).
      { split; [exact H1|]. by split_and!. }
      destruct (pa_same_ring _ _ _ _ _ _ _ s a (PWait w true open) false None Hx') as [Hg Hy].
      { exact Hok. }
      { unfold JC in *. cbn in *. by rewrite Hw, Hf in HC. }
      { unfold JP in *. cbn in *. rewrite Hp in HP. destruct HP as [Hs HP]. split; [done|].
        destruct HP as [HP|[HP|[HP HP']]]; auto. right. right. split; [done|].
        destruct HP' as [|(Hwt & _ & Ho)]; [by left|right]. split_and!; auto. intros _. left.
        pose proof (ok_facts _ _ _ Hok) as Hfacts. pose proof (ok_head _ _ _ _ _ _ _ Hok) as Eh.
        destruct Ha as (_ & _ & Hh & Hc & _). cbn in Hfacts, Eh, Hh, Hc.
        rewrite Hc, Eh, distance_wrap in Ed by (rewrite <- Hh; lia). rewrite <- Hh in Ed.
        unfold full. cbn. lia. }
      eexists. split; [exact Hg|]. eapply wp_retP; [apply PA_stable|exact Hy|done].
    + exists a. split; [apply aguar_refl; [lia|by split_and!]|].
      eapply (wp_retP _ _ (PAroom (mkAsyncProducer (ap_cursor p) (ring_head (ar_ring s.1))) t hist));
        [apply PAroom_stable| |done].
      split; [by split_and!|]. exact (H2 Ed).
  - eapply (wp_retP _ _ (PAroom (mkAsyncProducer (ap_cursor p) (ap_cached_head p)) t hist)); [apply PAroom_stable| |done].
    pose proof Hx as (Ha & HJ & Hp & Hw & Hf).
    split; [by split_and!|]. pose proof Ha as (Hok & Ht & Hh & Hc & ch & Hch & Hr & Hl).
    split; [exact Ha|]. exists ch. split_and!; auto; try lia.
    pose proof (ok_facts _ _ _ Hok) as Hfacts. rewrite Hh in Hfacts. cbn in Hc, Hch.
    rewrite Hc, Hch, distance_wrap in E by lia. lia.
Qed.

(** The recheck for a live consumer after the registration. *)
Lemma wp_recheck_dropped {B} w space p t hist (k : bool -> prog (AsyncState T Waker) B) Q x :
  PA (Some (PWait w space false)) false None p t hist x ->
  (forall d y, PA (if d : bool then None else Some (PWait w space true)) false None p t hist y ->
     wp aguar 0 (k d) Q y) ->
  wp aguar 0 (bind (on_ar_ring (load ring_consumer_dropped)) k) Q x.
Proof.
  intros Hx Hk. eapply wp_act; [apply PA_stable|exact Hx|]. clear x Hx. intros s a Hx. cbn [fst snd].
  replace (put_ar_ring (ar_ring s.1) s) with s by (by destruct s as [[] l]).
  pose proof Hx as (Ha & (Hok & HC & HP) & Hp & Hw & Hf). cbn [known snd] in Hp.
  destruct (ring_consumer_dropped (ar_ring s.1)) eqn:Ed.
  - exists a. split; [apply aguar_refl; [lia|apply Hx]|]. cbn [lift bind]. apply Hk. by eapply PA_any.
  - destruct (pa_same_ring _ _ _ _ _ _ _ s a (PWait w space true) false None Hx) as [Hg Hy].
    { exact Hok. }
    { unfold JC in *. cbn in *. by rewrite Hw, Hf in HC. }
    { unfold JP in *. cbn in *. rewrite Hp in HP. destruct HP as [Hs HP]. split; [done|].
      destruct HP as [HP|[HP|[HP HP']]]; auto. right. right. split; [done|].
      destruct HP' as [|(Hwt & Hsp & _)]; [by left|right]. by split_and!. }
    eexists. split; [exact Hg|]. cbn [lift bind]. by apply Hk.
Qed.

Lemma on_ar_ring_bind {A B} i (p : prog (Ring T) A) (k : A -> prog (Ring T) B) Q x :
  wp aguar i (on_ar_ring p) (fun a => wp aguar i (on_ar_ring (k a)) Q) x ->
  wp aguar i (on_ar_ring (bind p k)) Q x.
Proof.
  revert x. induction p as [a|R f c IH|e]; intros x H.
  - apply (H x). constructor.
  - intros y Hy. destruct (H y Hy) as (g' & Hg & Hk). exists g'. split; [exact Hg|]. apply IH, Hk.
  - intros y Hy. exact (H y Hy).
Qed.

(** [is_full] outside and after a registration. *)
Lemma wp_async_is_full ph p t hist x :
  PA ph false None p t hist x ->
  wp aguar 0 (AsyncProducer_is_full p) (fun '(_, p') => PA None false None p' t hist) x.
Proof.
  intros Hx. eapply wp_call.
  { eapply wp_ring_0; [exact Hx|auto with fanring|].
    apply (wp_Ring_is_full cap base (aprod p)), Hx. }
  intros [b h] y [Hy HJ].
  eapply wp_retP; [apply (PA_stable None)|apply (PA_intro (mkAsyncProducer (ap_cursor p) h)); [exact Hy|exact HJ]|done].
Qed.

Lemma PA_mask ph wk fly p t hist s a :
  PA ph wk fly p t hist (s, a) -> ring_mask (ar_ring s.1) + 1 = cap.
Proof. intros H%PA_ok. pose proof (ok_mask _ _ _ _ _ _ _ H) as E. cbn in E. rewrite E. lia. Qed.

Lemma wp_recheck_full w open p t hist x :
  PA (Some (PWait w false open)) false None p t hist x ->
  wp aguar 0 (AsyncProducer_is_full p) (fun '(full, p') =>
    PA (if full : bool then Some (PWait w true open) else None) false None p' t hist) x.
Proof.
  intros Hx. apply wp_bind. unfold Ring_is_full. eapply wp_aread_0; [exact Hx|]. clear x Hx. intros s a Hx.
  rewrite (PA_mask _ _ _ _ _ _ _ _ Hx).
  eapply wp_mono; [|apply wp_recheck_space, Hx]. intros [[] h] y Hy.
  - eapply wp_retP; [apply PA_stable|exact Hy|done].
  - destruct Hy as [Hy _]. eapply wp_retP; [apply PA_stable|exact Hy|done].
Qed.

Lemma wp_dropped_read {B} ph p t hist (k : bool -> prog (AsyncState T Waker) B) Q x :
  PA ph false None p t hist x ->
  (forall d y, PA ph false None p t hist y -> wp aguar 0 (k d) Q y) ->
  wp aguar 0 (bind (on_ar_ring (load ring_consumer_dropped)) k) Q x.
Proof.
  intros Hx Hk. apply wp_bind. eapply wp_act; [apply PA_stable|exact Hx|]. clear x Hx. intros s a Hx. cbn [fst snd].
  replace (put_ar_ring (ar_ring s.1) s) with s by (by destruct s as [[] l]).
  exists a. split; [apply aguar_refl; [lia|apply Hx]|]. eapply wp_retP; [apply PA_stable|exact Hx|auto].
Qed.

Lemma wp_poll_ready ph w p t hist x :
  consumer_side w = false -> PA ph false None p t hist x ->
  wp aguar 0 (AsyncProducer_poll_ready w p) (fun '(r, p') =>
    PA (if Poll_is_pending r then Some (PWait w true true) else None) false None p' t hist) x.
Proof.
  intros Hs Hx. unfold AsyncProducer_poll_ready.
  eapply (wp_call _ _ _ _ (fun '(_, p') => PA None false None p' t hist)).
  { eapply wp_dropped_read; [exact Hx|]. clear x Hx. intros [] x Hx.
    - eapply wp_retP; [apply PA_stable|exact Hx|]. intros y. apply PA_any.
    - eapply wp_call; [eapply wp_async_is_full, Hx|]. intros [f p'] y Hy.
      eapply wp_retP; [apply PA_stable|exact Hy|done]. }
  clear x Hx. intros [go p'] x Hx. destruct go; [eapply wp_retP; [apply PA_stable|exact Hx|done]|].
  eapply wp_register_space; [done|exact Hx|]. clear x Hx. intros x Hx.
  eapply (wp_call _ _ _ _ (fun '(go, q) => PA (if go : bool then None else Some (PWait w true true)) false None q t hist)).
  { eapply wp_recheck_dropped; [exact Hx|]. clear x Hx. intros [] x Hx.
    - eapply wp_retP; [apply PA_stable|exact Hx|done].
    - eapply wp_call; [eapply wp_recheck_full, Hx|]. intros [[] q] y Hy;
        eapply wp_retP; [apply PA_stable|exact Hy|done|apply PA_stable|exact Hy|done]. }
  intros [[] q] y Hy; eapply wp_retP; [apply PA_stable|exact Hy|done|apply PA_stable|exact Hy|done].
Qed.

(** The push after a registration: pushed, or pending for space. *)
Lemma wp_repush w p t hist v x :
  PA (Some (PWait w false false)) false None p t hist x ->
  wp aguar 0 (AsyncProducer_push p v) (fun '(r, p') y =>
    match r with
    | Ok _ => PA None false None p' t (hist ++ [v]) y
    | Err u => u = v /\ PA (Some (PWait w true false)) false None p' t hist y
    end) x.
Proof.
  intros Hx. apply wp_bind. unfold Ring_push. eapply wp_aread_0; [exact Hx|]. clear x Hx. intros s a Hx.
  rewrite (PA_mask _ _ _ _ _ _ _ _ Hx). apply on_ar_ring_bind.
  eapply wp_mono; [|apply wp_recheck_space, Hx]. intros [[] h] y Hy.
  - eapply wp_retP; [apply PA_stable|exact Hy|]. intros z Hz.
    eapply wp_retP; [apply PA_stable|exact Hz|done].
  - destruct Hy as [Hy Hr].
    eapply wp_mono; [|eapply (wp_ring_0 _ _ _ _ _ _ _ Hy);
      [|exact (wp_push_write cap base (mkProducer (ap_cursor p) h) _ _ v _ Hr)]].
    + intros [[r cur] hd] z [[-> Hz] HJ].
      eapply wp_retP; [apply (PA_stable None)|apply (PA_intro (mkAsyncProducer cur hd)); [exact Hz|exact HJ]|done].
    + unfold Ring_index. wordless_tac.
Qed.

Lemma wp_push_future ph w p t hist v x :
  consumer_side w = false -> PA ph false None p t hist x ->
  wp aguar 0 (PushFuture_poll w (mkPushFuture (Some v)) p) (fun '(r, f, p') y =>
    match r with
    | Ready (Ok _) => PA None false None p' t (hist ++ [v]) y
    | Ready (Err _) => PA None false None p' t hist y
    | Pending => f = mkPushFuture (Some v) /\ PA (Some (PWait w true true)) false None p' t hist y
    end) x.
Proof.
  intros Hs Hx. cbn [PushFuture_poll pf_val].
  eapply wp_call; [eapply wp_async_push, Hx|]. clear x Hx. intros [[[]|u] p1] x Hx.
  { eapply wp_retP; [apply PA_stable|exact Hx|done]. }
  destruct Hx as [-> Hx]. eapply wp_dropped_read; [exact Hx|]. clear x Hx. intros [] x Hx.
  { eapply wp_retP; [apply PA_stable|exact Hx|done]. }
  eapply wp_register_space; [done|exact Hx|]. clear x Hx. intros x Hx.
  eapply wp_call; [eapply wp_repush, Hx|]. clear x Hx. intros [[[]|u] p2] x Hx.
  { eapply wp_retP; [apply PA_stable|exact Hx|done]. }
  destruct Hx as [-> Hx]. eapply wp_recheck_dropped; [exact Hx|]. clear x Hx. intros [] x Hx;
    eapply wp_retP; [apply PA_stable|exact Hx|done|apply PA_stable|exact Hx|done].
Qed.

(** *** The consumer's side *)

Lemma ca_same_ring ph lk wk fly c ct phd h got s s' a ph' lk' wk' fly' :
  CA ph lk wk fly c ct phd h got (s, a) -> ok cap base (ar_ring s'.1, a_g a) ->
  JC s' (cset a (a_g a) ph' lk' wk' fly') -> JP s' (cset a (a_g a) ph' lk' wk' fly') ->
  aguar 1 (s, a) (s', cset a (a_g a) ph' lk' wk' fly') /\
  CA (Some ph') lk' wk' fly' c ct phd h got (s', cset a (a_g a) ph' lk' wk' fly').
Proof.
  intros (Ha & HJ & _ & _ & _ & _ & Hr) Hok HC HP. split.
  - apply aguar_1_intro; auto. by apply guar_1_refl.
  - split; [by eapply (ca_owned cap base)|]. by split_and!.
Qed.

Lemma CA_intro c ct phd h got x :
  ca cap base (acons c) ct phd h got (aproj x) -> ac_released_head c = wrap (base + phd) ->
  AJ x /\ a_plook x.2 = false /\ a_pwake x.2 = false /\ a_pfly x.2 = None ->
  CA None false false None c ct phd h got x.
Proof. intros H Hr (HJ & Hl & Hw & Hf). by split_and!. Qed.

(** A wordless operation of the consumer. *)
Lemma wp_ring_1 {A} ph c ct phd h got (q : prog (Ring T) A) (R : A -> Ring T * ghost T -> Prop) x :
  CA ph false false None c ct phd h got x -> wordless q -> wp (guar cap base) 1 q R (aproj x) ->
  wp aguar 1 (on_ar_ring q) (fun r y => R r (aproj y) /\ AJ y /\ a_plook y.2 = false /\
    a_pwake y.2 = false /\ a_pfly y.2 = None) x.
Proof. intros (_ & HJ & _ & Hl & Hw & Hf & _) Hq HR. by apply wp_wordless_1. Qed.

Lemma wp_producer_wake c ct phd h got x :
  CA None false true None c ct phd h got x ->
  wp aguar 1 producer_waker_wake (fun _ => CA None false false None c ct phd h got) x.
Proof.
  intros Hx. eapply wp_act; [apply CA_stable|exact Hx|]. clear x Hx. intros s a Hx.
  destruct (aw_take (ar_producer_waker s.1)) as [o c'] eqn:E. cbn [fst snd].
  pose proof Hx as (_ & (Hok & _ & HP) & _ & Hl & Hw & Hf & _).
  destruct (ca_same_ring _ _ _ _ _ _ _ _ _ _ (put_producer_waker c' s) a CIdle false false o Hx) as [Hg Hy].
  { exact Hok. }
  { done. }
  { unfold JP, registered in *. cbn in *. rewrite Hf in HP. destruct (a_p a) as [|w|w sp op]; [done|..].
    - destruct HP as [Hs HP]. split; [done|]. destruct HP as [HP|[HP|HP]]; [by left|done|].
      right. left. by rewrite <- HP, E.
    - destruct HP as [Hs HP]. split; [done|]. destruct HP as [HP|[HP|[HP _]]]; [by left|done|].
      right. left. by rewrite <- HP, E. }
  eexists. split; [exact Hg|]. clear Hg Hx Hok HP Hl Hw Hf. destruct o as [w|].
  2:{ eapply wp_retP; [apply CA_stable|exact Hy|]. intros y. apply CA_any. }
  eapply wp_act; [apply CA_stable|exact Hy|]. clear s a c' E Hy. intros s a Hx. cbn [fst snd].
  pose proof Hx as (_ & (Hok & _ & HP) & _ & Hl & Hw & Hf & _).
  destruct (ca_same_ring _ _ _ _ _ _ _ _ _ _ (schedule w s) a CIdle false false None Hx) as [Hg Hy].
  { exact Hok. }
  { done. }
  { unfold JP in *. cbn in *. rewrite Hf in HP. destruct (a_p a) as [|w'|w' sp op]; [done|..].
    - destruct HP as [Hs HP]. split; [done|]. destruct HP as [HP|[HP|HP]]; [left; by right|simplify_eq; left; by left|auto].
    - destruct HP as [Hs HP]. split; [done|]. destruct HP as [HP|[HP|HP]]; [left; by right|simplify_eq; left; by left|].
      rewrite Hl, Hw in HP. auto. }
  eexists. split; [exact Hg|]. eapply wp_retP; [apply CA_stable|exact Hy|]. intros y. apply CA_any.
Qed.

Lemma wp_async_release ph c ct phd h got x :
  CA ph false false None c ct phd h got x ->
  wp aguar 1 (AsyncConsumer_release c) (fun c' y => ac_head c' = ac_head c /\
    ac_cached_tail c' = ac_cached_tail c /\ CA None false false None c' ct h h got y) x.
Proof.
  intros Hx. unfold AsyncConsumer_release. destruct (Z.eqb_spec (ac_head c) (ac_released_head c)) as [E|_].
  { eapply wp_retP; [apply CA_stable|exact Hx|]. intros y Hy. split_and!; [done..|].
    pose proof Hy as ((Hok & Hp & Hh & _ & Hc & _) & _ & _ & _ & _ & _ & Hr).
    assert (phd = h) as <-; [|by eapply CA_any].
    pose proof (ok_facts _ _ _ Hok). cbn in Hc. rewrite Hc, Hr in E.
    enough (base + h = base + phd) by lia. apply wrap_inj; [lia|done]. }
  eapply wp_act; [apply CA_stable|exact Hx|]. clear x Hx. intros s a Hx. cbn [fst snd].
  pose proof Hx as (Ha & (Hok & HC & HP) & _ & Hl & Hw & Hf & Hr).
  set (c' := mkAsyncConsumer (ac_head c) (ac_cached_tail c) (ac_head c)).
  destruct (wp_store_head cap base (acons c) ct phd h got (fun _ => Ret tt) (fun _ => ca cap base (acons c) ct h h got)
    _ Ha (fun y Hy => wp_ret _ _ _ _ _ (ca_stable _ _ _ _ _ _ _) Hy) (aproj (s, a))) as (g' & Hg & Hk); [constructor|].
  cbn [fst snd aproj] in Hg, Hk. specialize (Hk _ (rtc_refl _ _)).
  set (s' := put_ar_ring _ s). set (a' := cset a g' CIdle true false None).
  assert (HP' : JP s' a').
  { unfold JP in *. cbn in *. rewrite Hf, Hw in HP. destruct (a_p a); [done|done|].
    destruct HP as [Hs HP]. split; [done|]. destruct HP as [HP|[HP|[HP HP']]]; auto.
    right. right. split; [done|]. destruct HP' as [|(Hwt & _ & Ho)]; [done|]. right. by split_and!; auto. }
  exists a'. split; [apply aguar_1_intro; [exact Hg|done|exact HP']|].
  assert (Hy : CA (Some CIdle) true false None c' ct h h got (s', a')).
  { split; [exact Hk|]. split_and!; try done.
    - split; [apply Hk|]. by split.
    - destruct Ha as (_ & _ & _ & _ & Hc & _). exact Hc. }
  clearbody s' a'. clear s a g' Hx Ha Hok HC HP Hl Hw Hf Hr Hg Hk HP'.
  cbn [lift bind]. eapply wp_act; [apply CA_stable|exact Hy|]. clear s' a' Hy. intros s a Hx. cbn [fst snd].
  pose proof Hx as (_ & (Hok & _ & HP) & _ & Hl & Hw & Hf & _).
  set (wt := waiter_waiting (ring_producer_waiting (ar_ring s.1))) in *.
  destruct (ca_same_ring _ _ _ _ _ _ _ _ _ _ (put_ar_ring (set_producer_waiting (set_waiting false
    (ring_producer_waiting (ar_ring s.1))) (ar_ring s.1)) s) a CIdle false wt None Hx) as [Hg Hy].
  { eapply ring_ok_ext; [exact Hok|done..]. }
  { done. }
  { unfold JP in *. cbn in *. rewrite Hf, Hw in HP. fold wt in HP. destruct (a_p a); [done|done|].
    destruct HP as [Hs HP]. split; [done|]. destruct HP as [HP|[HP|[HP HP']]]; auto.
    right. right. split; [done|]. left. destruct HP' as [|(Hwt & _)]; done. }
  eexists. split; [exact Hg|]. clearbody wt. clear Hg Hx Hok HP Hl Hw Hf. destruct wt; cbn [when].
  - eapply wp_call; [eapply wp_producer_wake, CA_any, Hy|]. intros u y Hz.
    eapply wp_retP; [apply CA_stable|exact Hz|done].
  - eapply wp_retP; [apply CA_stable|exact Hy|]. intros y Hz. split_and!; [done..|]. by eapply CA_any.
Qed.

Lemma wp_async_consumer_drop ph c ct phd h got x :
  CA ph false false None c ct phd h got x ->
  wp aguar 1 (AsyncConsumer_drop c) (fun _ y => exists c', CA None false false None c' ct h h got y) x.
Proof.
  intros Hx. eapply wp_call; [eapply wp_async_release, Hx|]. clear x Hx. intros c' x (_ & _ & Hx).
  eapply wp_act; [apply CA_stable|exact Hx|]. clear x Hx. intros s a Hx. cbn [fst snd].
  pose proof Hx as (_ & (Hok & _ & HP) & _ & Hl & Hw & Hf & _).
  destruct (ca_same_ring _ _ _ _ _ _ _ _ _ _ (put_ar_ring (set_consumer_dropped true (ar_ring s.1)) s) a
    CIdle false true None Hx) as [Hg Hy].
  { eapply ring_ok_ext; [exact Hok|done..]. }
  { done. }
  { unfold JP in *. cbn in *. rewrite Hf in HP. destruct (a_p a); [done|done|]. destruct HP as [Hs HP].
    split; [done|]. destruct HP as [HP|[HP|[HP _]]]; auto. }
  eexists. split; [exact Hg|]. 
  eapply wp_mono; [|eapply wp_producer_wake, CA_any, Hy]. intros u y Hz. by exists c'.
Qed.

Lemma wp_unschedule_1 {B} ph w c ct phd h got (k : unit -> prog (AsyncState T Waker) B) Q x :
  consumer_side w = true -> CA ph false false None c ct phd h got x ->
  (forall y, CA (Some CIdle) false false None c ct phd h got y -> wp aguar 1 (k tt) Q y) ->
  wp aguar 1 (bind (unschedule w) k) Q x.
Proof.
  intros Hs Hx Hk. eapply wp_act; [apply CA_stable|exact Hx|]. clear x Hx. intros s a Hx. cbn [fst snd].
  pose proof Hx as (_ & (Hok & _ & HP) & _ & Hl & Hw & Hf & _).
  assert (Hkeep : forall w', consumer_side w' = false -> w' ∈ s.2 -> w' ∈ filter (fun v => v <> w) s.2).
  { intros w' Hs' Hin. apply list_elem_of_filter. split; [|done]. intros ->. congruence. }
  destruct (ca_same_ring _ _ _ _ _ _ _ _ _ _ (s.1, filter (fun v => v <> w) s.2) a CIdle false false None Hx) as [Hg Hy].
  { exact Hok. }
  { done. }
  { unfold JP in *. cbn in *. rewrite Hl, Hw, Hf in HP. destruct (a_p a); [done|..];
      destruct HP as [Hs' HP]; (split; [done|]); destruct HP as [HP|HP]; auto. }
  eexists. split; [exact Hg|]. by apply Hk.
Qed.

Lemma wp_Ring_pop c ct phd h (got : list T) x :
  ca cap base c ct phd h got x ->
  wp (guar cap base) 1 (Ring_pop (consumer_head c) (consumer_cached_tail c)) (fun '(v, head) y =>
    match v with
    | Some v => h < ct /\ ca cap base (mkConsumer head (consumer_cached_tail c)) ct phd (h + 1) (got ++ [v]) y
    | None => h = ct /\ ca cap base (mkConsumer head (consumer_cached_tail c)) ct phd h got y
    end) x.
Proof.
  intros Ha. eapply wp_mono; [|apply wp_bind_inv, (wp_pop_exact cap base c), Ha].
  intros [v head] y Hy. exact (Hy _ (rtc_refl _ _)).
Qed.

(** What a pop of the window yields. *)
Definition popped (o : option T) c ct phd h got (x : ast) : Prop :=
  match o with
  | Some v => CA None false false None c ct phd (h + 1) (got ++ [v]) x
  | None => h = ct /\ CA None false false None c ct phd h got x
  end.

Lemma popped_stable o c ct phd h got : stable aguar 1 (popped o c ct phd h got).
Proof.
  intros x y Hx Hy. destruct o; cbn in *; [by eapply CA_stable|].
  destruct Hx as [-> Hx]. split; [done|]. by eapply CA_stable.
Qed.

Lemma wp_async_pop ph c ct phd h got x :
  CA ph false false None c ct phd h got x ->
  wp aguar 1 (AsyncConsumer_pop c) (fun '(o, c') => popped o c' ct phd h got) x.
Proof.
  intros Hx. eapply wp_call.
  { eapply wp_ring_1; [exact Hx|auto with fanring|]. apply (wp_Ring_pop (acons c)), Hx. }
  assert (Hr : ac_released_head c = wrap (base + phd)) by apply Hx.
  intros [o head] y [Hy HJ].
  eapply (wp_retP _ _ (popped o (mkAsyncConsumer head (ac_cached_tail c) (ac_released_head c)) ct phd h got));
    [apply popped_stable| |done].
  destruct o; cbn.
  - destruct Hy as [_ Hy]. by apply CA_intro.
  - destruct Hy as [-> Hy]. split; [done|]. by apply CA_intro.
Qed.

Lemma wp_async_prefetch ph c ct phd h got x :
  CA ph false false None c ct phd h got x ->
  wp aguar 1 (AsyncConsumer_prefetch c) (fun '(_, c') y => exists ct',
    CA None false false None c' ct' phd h got y) x.
Proof.
  intros Hx. eapply wp_call.
  { eapply wp_ring_1; [exact Hx|auto with fanring|]. apply wp_bind_ret.
    eapply (wp_Ring_prefetch cap base (acons c) ct phd h got (g_t (aproj x).2) Ret); [apply Hx|done|].
    intros tl ct' y _ Hy. eapply (wp_retP _ _ _ _ (fun '(_, tl) y => exists ct',
      ca cap base (mkConsumer (ac_head c) tl) ct' phd h got y)); [apply ca_owned|exact Hy|eauto]. }
  assert (Hr : ac_released_head c = wrap (base + phd)) by apply Hx.
  intros [n tl] y [(ct' & Hy) HJ]. set (c' := mkAsyncConsumer (ac_head c) tl (ac_released_head c)).
  eapply (wp_retP _ _ (CA None false false None c' ct' phd h got)); [apply CA_stable|by apply CA_intro|eauto].
Qed.

Lemma wp_async_refresh ph c ct phd h got x :
  CA ph false false None c ct phd h got x ->
  wp aguar 1 (AsyncConsumer_refresh c) (fun c' y => exists ct',
    CA None false false None c' ct' phd h got y) x.
Proof.
  intros Hx. unfold AsyncConsumer_refresh. destruct (_ =? _).
  - eapply wp_call; [eapply wp_async_prefetch, Hx|]. intros [n c'] y [ct' Hy].
    eapply wp_retP; [apply CA_stable|exact Hy|eauto].
  - eapply wp_retP; [apply CA_stable|exact Hx|]. intros y Hy. exists ct. by eapply CA_any.
Qed.

(** A receive without registration: pop, and release what was popped. *)
Lemma wp_async_pop_release {B} ph c ct phd h got (k : option T -> AsyncConsumer -> prog (AsyncState T Waker) B) Q x :
  CA ph false false None c ct phd h got x ->
  (forall v c' phd' y, CA None false false None c' ct phd' phd' (got ++ [v]) y -> wp aguar 1 (k (Some v) c') Q y) ->
  (forall c' y, h = ct -> CA None false false None c' ct phd h got y -> wp aguar 1 (k None c') Q y) ->
  wp aguar 1 (let* '(val, c) := AsyncConsumer_pop c in
              match val with
              | Some v => let* c := AsyncConsumer_release c in k (Some v) c
              | None => k None c
              end) Q x.
Proof.
  intros Hx H1 H2. eapply wp_call; [eapply wp_async_pop, Hx|]. clear x Hx. intros [[v|] c'] x Hx; cbn in Hx.
  - eapply wp_call; [eapply wp_async_release, Hx|]. intros c2 y (_ & _ & Hy). by eapply H1.
  - destruct Hx as [E Hx]. by eapply H2.
Qed.

Lemma wp_async_prefetch_and_pop ph c ct phd h got x :
  CA ph false false None c ct phd h got x ->
  wp aguar 1 (AsyncConsumer_prefetch_and_pop c) (fun '(o, c') y => exists ct' phd' h',
    CA None false false None c' ct' phd' h' (got ++ option_list o) y) x.
Proof.
  intros Hx. eapply wp_call; [eapply wp_async_refresh, Hx|]. clear x Hx. intros c' x [ct' Hx].
  eapply (wp_async_pop_release _ _ _ _ _ _ (fun o c => Ret (o, c))); [exact Hx|..].
  - intros v c2 phd' y Hy. eapply wp_retP; [apply CA_stable|exact Hy|]. cbn. eauto.
  - intros c2 y _ Hy. eapply wp_retP; [apply CA_stable|exact Hy|]. cbn. rewrite app_nil_r. eauto.
Qed.

Lemma wp_register_items {B} ph w c ct phd h got (k : unit -> prog (AsyncState T Waker) B) Q x :
  consumer_side w = true -> CA ph false false None c ct phd h got x ->
  (forall y, CA (Some (CWait w false false)) false false None c ct phd h got y -> wp aguar 1 (k tt) Q y) ->
  wp aguar 1 (bind (consumer_waker_register w) k) Q x.
Proof.
  intros Hs Hx Hk. eapply wp_act; [apply CA_stable|exact Hx|]. clear x Hx. intros s a Hx. cbn [fst snd].
  pose proof Hx as (_ & (Hok & _ & HP) & _ & Hl & Hw & Hf & _).
  destruct (ca_same_ring _ _ _ _ _ _ _ _ _ _ (put_consumer_waker (aw_register w (ar_consumer_waker s.1)) s) a
    (CWait w false false) false false None Hx) as [Hg Hy].
  { exact Hok. }
  { split; [done|]. right. right. split; [apply registered_register|]. by right. }
  { unfold JP in *. cbn in *. by rewrite Hl, Hw, Hf in HP. }
  eexists. split; [exact Hg|]. by apply Hk.
Qed.

(** The recheck for items: the window it finds is empty only when nothing is
    published. *)
Lemma wp_recheck_items w c ct phd h got x :
  h = ct -> CA (Some (CWait w false false)) false false None c ct phd h got x ->
  wp aguar 1 (AsyncConsumer_refresh c) (fun c' y => exists ct',
    CA (if h =? ct' then Some (CWait w true false) else None) false false None c' ct' phd h got y) x.
Proof.
  intros -> Hx. unfold AsyncConsumer_refresh.
  destruct (ca_window _ _ _ _ _ _ _ _ (proj1 Hx)) as [E _]. cbn in E. rewrite E, Z.eqb_refl. clear E.
  apply wp_bind. apply wp_bind. eapply wp_act; [apply CA_stable|exact Hx|]. clear x Hx. intros s a Hx. cbn [fst snd].
  replace (put_ar_ring (ar_ring s.1) s) with s by (by destruct s as [[] l]).
  pose proof Hx as (Ha & (Hok & HC & HP) & Hp & Hl & Hw & Hf & Hr). cbn [known snd] in Hp.
  set (c' := mkAsyncConsumer (ac_head c) (ring_tail (ar_ring s.1)) (ac_released_head c)).
  assert (Ha' : ca cap base (acons c') (g_t (a_g a)) phd ct got (aproj (s, a))).
  { destruct Ha as (_ & H1 & H2 & H3 & H4 & H5 & H6). pose proof (ok_facts _ _ _ Hok).
    pose proof (ok_tail _ _ _ _ _ _ _ Hok) as Et. cbn in *. split_and!; cbn; auto; lia. }
  assert (Hx' : CA (Some (CWait w false false)) false false None c' (g_t (a_g a)) phd ct got (s, a)).
  { split; [exact Ha'|]. by split_and!. }
  assert (Hret : forall y, CA (if ct =? g_t (a_g a) then Some (CWait w true false) else None) false false None
      c' (g_t (a_g a)) phd ct got y ->
    wp aguar 1 (lift (fun s => ar_ring s.1) put_ar_ring
       (Ret (wrapping_sub (ring_tail (ar_ring s.1)) (ac_cached_tail c), ring_tail (ar_ring s.1))))
      (fun a0 => wp aguar 1 (let '(count, cached_tail) := a0 in
           Ret (count, mkAsyncConsumer (ac_head c) cached_tail (ac_released_head c)))
        (fun a1 => wp aguar 1 (let '(_, c0) := a1 in Ret c0) (fun c'0 y => exists ct',
          CA (if ct =? ct' then Some (CWait w true false) else None) false false None c'0 ct' phd ct got y))) y).
  { intros y Hy. eapply wp_retP; [apply CA_stable|exact Hy|]. clear y Hy. intros y Hy.
    eapply wp_retP; [apply CA_stable|exact Hy|]. clear y Hy. intros y Hy.
    eapply wp_retP; [apply CA_stable|exact Hy|eauto]. }
  destruct (Z.eqb_spec ct (g_t (a_g a))) as [Et|].
  - destruct (ca_same_ring _ _ _ _ _ _ _ _ _ _ s a (CWait w true false) false false None Hx') as [Hg Hy].
    { exact Hok. }
    { unfold JC in *. cbn in *. rewrite Hp in HC. destruct HC as [Hs HC]. split; [done|].
      destruct HC as [HC|[HC|[HC HC']]]; auto. right. right. split; [done|].
      destruct HC' as [|[_ Ho]]; [by left|right]. split; [|done]. intros _.
      destruct Ha as (_ & _ & H2 & _). cbn in H2. lia. }
    { unfold JP in *. cbn in *. by rewrite Hl, Hw, Hf in HP. }
    eexists. split; [exact Hg|]. by apply Hret.
  - exists a. split; [apply aguar_refl; [lia|by split_and!]|]. apply Hret. by eapply CA_any.
Qed.

Lemma wp_recheck_open {B} w c ct phd h got (k : bool -> prog (AsyncState T Waker) B) Q x :
  CA (Some (CWait w true false)) false false None c ct phd h got x ->
  (forall d y, CA (if d : bool then None else Some (CWait w true true)) false false None c ct phd h got y ->
     wp aguar 1 (k d) Q y) ->
  wp aguar 1 (bind (on_ar_ring (load ring_producer_dropped)) k) Q x.
Proof.
  intros Hx Hk. eapply wp_act; [apply CA_stable|exact Hx|]. clear x Hx. intros s a Hx. cbn [fst snd].
  replace (put_ar_ring (ar_ring s.1) s) with s by (by destruct s as [[] l]).
  pose proof Hx as (Ha & (Hok & HC & HP) & Hp & Hl & Hw & Hf & Hr). cbn [known snd] in Hp.
  destruct (ring_producer_dropped (ar_ring s.1)) eqn:Ed.
  - exists a. split; [apply aguar_refl; [lia|apply Hx]|]. cbn [lift bind]. apply Hk. by eapply CA_any.
  - destruct (ca_same_ring _ _ _ _ _ _ _ _ _ _ s a (CWait w true true) false false None Hx) as [Hg Hy].
    { exact Hok. }
    { unfold JC in *. cbn in *. rewrite Hp in HC. destruct HC as [Hs HC]. split; [done|].
      destruct HC as [HC|[HC|[HC HC']]]; auto. right. right. split; [done|].
      destruct HC' as [|[Hi _]]; [by left|right]. by split. }
    { unfold JP in *. cbn in *. by rewrite Hl, Hw, Hf in HP. }
    eexists. split; [exact Hg|]. cbn [lift bind]. by apply Hk.
Qed.

(** The pop after the recheck: an empty window keeps the phase. *)
Lemma wp_repop {B} w c ct phd h got (k : option T * AsyncConsumer -> prog (AsyncState T Waker) B) Q x :
  CA (if h =? ct then Some (CWait w true false) else None) false false None c ct phd h got x ->
  (forall v c' y, CA None false false None c' ct phd (h + 1) (got ++ [v]) y -> wp aguar 1 (k (Some v, c')) Q y) ->
  (CA (Some (CWait w true false)) false false None c ct phd h got x -> wp aguar 1 (k (None, c)) Q x) ->
  wp aguar 1 (bind (AsyncConsumer_pop c) k) Q x.
Proof.
  intros Hx H1 H2. destruct (ca_window _ _ _ _ _ _ _ _ (proj1 Hx)) as [E _].
  destruct (Z.eqb_spec h ct) as [->|Hne].
  - unfold AsyncConsumer_pop, Ring_pop. cbn in E. rewrite E. cbn. destruct c. by apply H2.
  - eapply wp_call; [eapply wp_async_pop, Hx|]. intros [[v|] c'] y Hy; cbn in Hy; [by apply H1|by destruct Hy].
Qed.

Lemma wp_poll_next ph w c ct phd h got x :
  consumer_side w = true -> CA ph false false None c ct phd h got x ->
  wp aguar 1 (AsyncConsumer_poll_next w c) (fun '(r, c') y => exists ct' phd' h',
    CA (if Poll_is_pending r then Some (CWait w true true) else None) false false None c' ct' phd' h'
      (got ++ match r with Ready o => option_list o | Pending => [] end) y) x.
Proof.
  intros Hs Hx. eapply wp_call; [eapply wp_async_refresh, Hx|]. clear x Hx ct. intros c1 x [ct Hx].
  eapply wp_call; [eapply wp_async_pop, Hx|]. clear x Hx. intros [[v|] c2] x Hx; cbn in Hx.
  { eapply wp_call; [eapply wp_async_release, Hx|]. intros c3 y (_ & _ & Hy).
    eapply wp_retP; [apply CA_stable|exact Hy|]. cbn. eauto. }
  destruct Hx as [E Hx]. eapply wp_call; [eapply wp_async_release, Hx|]. clear x Hx. intros c3 x (_ & _ & Hx).
  eapply wp_register_items; [done|exact Hx|]. clear x Hx. intros x Hx.
  eapply wp_call; [eapply wp_recheck_items; [exact E|exact Hx]|]. clear x Hx E ct. intros c4 x [ct Hx].
  eapply wp_repop; [exact Hx|..].
  { intros v c5 y Hy. eapply wp_call; [eapply wp_async_release, Hy|]. intros c6 z (_ & _ & Hz).
    eapply wp_retP; [apply CA_stable|exact Hz|]. cbn. eauto. }
  clear Hx. intros Hx. eapply wp_recheck_open; [exact Hx|]. clear x Hx. intros [] x Hx.
  - eapply wp_call; [eapply wp_async_prefetch, Hx|]. clear x Hx ct. intros [n c5] x [ct Hx].
    eapply wp_call; [eapply wp_async_pop, Hx|]. clear x Hx. intros [[v|] c6] x Hx; cbn in Hx.
    + eapply wp_call; [eapply wp_async_release, Hx|]. intros c7 y (_ & _ & Hy).
      eapply wp_retP; [apply CA_stable|exact Hy|]. cbn. eauto.
    + destruct Hx as [_ Hx]. eapply wp_call; [eapply wp_async_release, Hx|]. intros c7 y (_ & _ & Hy).
      eapply wp_retP; [apply CA_stable|exact Hy|]. cbn. rewrite app_nil_r. eauto.
  - eapply wp_retP; [apply CA_stable|exact Hx|]. cbn. rewrite app_nil_r. eauto.
Qed.

(** *** Whole tasks *)

(** Programs that only read the ring. *)
Fixpoint read_only {A} (q : prog (Ring T) A) : Prop :=
  match q with
  | Ret _ => True
  | Act f k => (forall r, (f r).2 = r) /\ forall a, read_only (k a)
  | Fail _ => False
  end.

Lemma wp_reads_0 {A B} ph (q : prog (Ring T) A) p t hist (k : A -> prog (AsyncState T Waker) B) Q x :
  read_only q -> PA ph false None p t hist x ->
  (forall a y, PA ph false None p t hist y -> wp aguar 0 (k a) Q y) ->
  wp aguar 0 (bind (on_ar_ring q) k) Q x.
Proof.
  intros Hq Hx Hk. apply wp_bind. unfold on_ar_ring. revert x Hx.
  induction q as [a|R f c IH|e]; intros x Hx; [|destruct Hq as [Hf Hq]|done].
  - eapply wp_retP; [apply PA_stable|exact Hx|eauto].
  - eapply wp_act; [apply PA_stable|exact Hx|]. clear x Hx. intros s a Hx. specialize (Hf (ar_ring s.1)).
    destruct (f (ar_ring s.1)) as [r r']. cbn [fst snd] in *. subst r'.
    replace (put_ar_ring (ar_ring s.1) s) with s by (by destruct s as [[] l]).
    exists a. split; [apply aguar_refl; [lia|apply Hx]|]. by apply IH.
Qed.

Lemma wp_reads_1 {A B} ph (q : prog (Ring T) A) c ct phd h got (k : A -> prog (AsyncState T Waker) B) Q x :
  read_only q -> CA ph false false None c ct phd h got x ->
  (forall a y, CA ph false false None c ct phd h got y -> wp aguar 1 (k a) Q y) ->
  wp aguar 1 (bind (on_ar_ring q) k) Q x.
Proof.
  intros Hq Hx Hk. apply wp_bind. unfold on_ar_ring. revert x Hx.
  induction q as [a|R f c' IH|e]; intros x Hx; [|destruct Hq as [Hf Hq]|done].
  - eapply wp_retP; [apply CA_stable|exact Hx|eauto].
  - eapply wp_act; [apply CA_stable|exact Hx|]. clear x Hx. intros s a Hx. specialize (Hf (ar_ring s.1)).
    destruct (f (ar_ring s.1)) as [r r']. cbn [fst snd] in *. subst r'.
    replace (put_ar_ring (ar_ring s.1) s) with s by (by destruct s as [[] l]).
    exists a. split; [apply aguar_refl; [lia|apply Hx]|]. by apply IH.
Qed.

Lemma wp_poll_push ph w v p t hist x :
  consumer_side w = false -> PA ph false None p t hist x ->
  wp aguar 0 (poll_push w v (mkPushFuture (Some v)) p) (fun '(r, vs, f, p') y =>
    (Poll_is_pending r = true -> f = mkPushFuture (Some v) /\ vs = []) /\
    PA (if Poll_is_pending r then Some (PWait w true true) else None) false None p' t (hist ++ vs) y) x.
Proof.
  intros Hs Hx. eapply wp_unschedule_0; [done|exact Hx|]. clear x Hx. intros x Hx.
  eapply wp_call; [eapply wp_push_future; [done|exact Hx]|]. clear x Hx.
  intros [[[[[]|u]|] f] p'] x Hx; cbn.
  - eapply wp_retP; [apply PA_stable|exact Hx|done].
  - eapply wp_retP; [apply PA_stable|exact Hx|]. intros y Hy. by rewrite app_nil_r.
  - destruct Hx as [-> Hx]. eapply wp_retP; [apply PA_stable|exact Hx|]. intros y Hy. by rewrite app_nil_r.
Qed.

Lemma wp_drive_push polls v : forall ph p t hist x,
  Forall (fun w => consumer_side w = false) polls -> PA ph false None p t hist x ->
  wp aguar 0 (drive_push polls v (mkPushFuture (Some v)) p) (fun '(vs, p') =>
    PA None false None p' t (hist ++ vs)) x.
Proof.
  induction polls as [|w polls IH]; intros ph p t hist x Hws Hx; cbn [drive_push].
  - eapply wp_retP; [apply PA_stable|exact Hx|]. intros y Hy. rewrite app_nil_r. by eapply PA_any.
  - apply Forall_cons in Hws as [Hw Hws]. eapply wp_call; [eapply wp_poll_push; [done|exact Hx]|]. clear x Hx.
    intros [[[[r|] vs] f] p'] x [Hf Hx]; cbn in Hx.
    + eapply wp_retP; [apply PA_stable|exact Hx|done].
    + destruct (Hf eq_refl) as [-> ->]. rewrite app_nil_r in Hx. by eapply IH.
Qed.

Lemma wp_pcmd ph cmd p t hist x :
  Forall (fun w => consumer_side w = false) (pcmd_wakers cmd) -> PA ph false None p t hist x ->
  wp aguar 0 (exec_pcmd cmd p) (fun '(vs, p') y => exists t', PA None false None p' t' (hist ++ vs) y) x.
Proof.
  assert (Hret : forall ph p t vs y, PA ph false None p t (hist ++ vs) y ->
    wp aguar 0 (Ret (vs, p)) (fun '(vs, p') y => exists t', PA None false None p' t' (hist ++ vs) y) y).
  { intros ph' p' t' vs y Hy. eapply wp_retP; [apply PA_stable|exact Hy|]. intros z Hz. exists t'. by eapply PA_any. }
  assert (Hnil : forall ph p t y, PA ph false None p t hist y ->
    wp aguar 0 (Ret ([], p)) (fun '(vs, p') y => exists t', PA None false None p' t' (hist ++ vs) y) y).
  { intros ph' p' t' y Hy. eapply (Hret ph' p' t'). by rewrite app_nil_r. }
  intros Hws Hx. destruct cmd; cbn [exec_pcmd pcmd_wakers] in *.
  - eapply wp_call; [eapply wp_async_push, Hx|]. intros [[[]|u] p'] y Hy; [eapply (Hret _ _ _ [_]), Hy|].
    destruct Hy as [_ Hy]. eapply Hnil, Hy.
  - eapply wp_call; [eapply wp_async_flush, Hx|]. intros u y Hy. eapply Hnil, Hy.
  - eapply wp_call; [eapply wp_async_push_and_flush, Hx|]. intros [r p'] y [t' Hy]. eapply Hret, Hy.
  - apply Forall_cons in Hws as [Hw _]. eapply wp_unschedule_0; [done|exact Hx|]. clear x Hx. intros x Hx.
    eapply wp_call; [eapply wp_poll_ready; [done|exact Hx]|]. intros [r p'] y Hy. eapply Hnil, Hy.
  - eapply wp_mono; [|by eapply wp_drive_push]. intros [vs p'] y Hy. eauto.
  - eapply wp_call; [eapply wp_async_is_full, Hx|]. intros [b p'] y Hy. eapply Hnil, Hy.
  - eapply wp_reads_0; [|exact Hx|intros b y Hy; eapply Hnil, Hy]. by cbn.
  - eapply wp_reads_0; [|exact Hx|intros b y Hy; eapply Hnil, Hy]. by cbn.
  - eapply wp_reads_0; [|exact Hx|intros b y Hy; eapply Hnil, Hy]. by cbn.
  - eapply wp_reads_0; [|exact Hx|intros b y Hy; eapply Hnil, Hy]. by cbn.
Qed.

Lemma wp_ccmd ph cmd c ct phd h got x :
  Forall (fun w => consumer_side w = true) (ccmd_wakers cmd) -> CA ph false false None c ct phd h got x ->
  wp aguar 1 (exec_ccmd cmd c) (fun '(vs, c') y => exists ct' phd' h',
    CA None false false None c' ct' phd' h' (got ++ vs) y) x.
Proof.
  assert (Hret : forall ph c ct phd h vs y, CA ph false false None c ct phd h (got ++ vs) y ->
    wp aguar 1 (Ret (vs, c)) (fun '(vs, c') y => exists ct' phd' h',
      CA None false false None c' ct' phd' h' (got ++ vs) y) y).
  { intros ph' c' ct' phd' h' vs y Hy. eapply wp_retP; [apply CA_stable|exact Hy|].
    intros z Hz. exists ct', phd', h'. by eapply CA_any. }
  assert (Hnil : forall ph c ct phd h y, CA ph false false None c ct phd h got y ->
    wp aguar 1 (Ret ([], c)) (fun '(vs, c') y => exists ct' phd' h',
      CA None false false None c' ct' phd' h' (got ++ vs) y) y).
  { intros ph' c' ct' phd' h' y Hy. eapply (Hret ph' c' ct'). by rewrite app_nil_r. }
  intros Hws Hx. destruct cmd; cbn [exec_ccmd ccmd_wakers] in *.
  - eapply wp_call; [eapply wp_async_pop, Hx|]. intros [[v|] c'] y Hy; cbn in Hy; [eapply (Hret _ _ _ _ _ [_]), Hy|].
    destruct Hy as [_ Hy]. eapply Hnil, Hy.
  - eapply wp_call; [eapply wp_async_release, Hx|]. intros c' y (_ & _ & Hy). eapply Hnil, Hy.
  - eapply wp_call; [eapply wp_async_prefetch, Hx|]. intros [n c'] y [ct' Hy]. eapply Hnil, Hy.
  - eapply wp_call; [eapply wp_async_prefetch_and_pop, Hx|]. intros [o c'] y (ct' & phd' & h' & Hy). eapply Hret, Hy.
  - apply Forall_cons in Hws as [Hw _]. eapply wp_unschedule_1; [done|exact Hx|]. clear x Hx. intros x Hx.
    eapply wp_call; [eapply wp_poll_next; [done|exact Hx]|]. intros [r c'] y (ct' & phd' & h' & Hy). eapply Hret, Hy.
  - eapply wp_reads_1; [|exact Hx|intros b y Hy; eapply Hnil, Hy].
    unfold Ring_consumer_is_empty. by destruct (_ =? _).
  - eapply wp_reads_1; [|exact Hx|intros b y Hy; eapply Hnil, Hy]. by cbn.
  - eapply wp_reads_1; [|exact Hx|intros b y Hy; eapply Hnil, Hy]. by cbn.
Qed.

(** What a finished task knows. *)
Definition producer_post (r : task_result T Waker AsyncProducer) (x : ast) : Prop :=
  exists t, (tr_dropped r = true -> t = zlength (tr_values r)) /\
    PA (match tr_awaits r with Some w => Some (PWait w true true) | None => None end)
      false None (tr_endpoint r) t (tr_values r) x.

Definition consumer_post (r : task_result T Waker AsyncConsumer) (x : ast) : Prop :=
  exists c ct phd h, (tr_dropped r = true -> phd = h) /\
    (tr_dropped r = true /\ tr_awaits r = None \/ c = tr_endpoint r) /\
    CA (match tr_awaits r with Some w => Some (CWait w true true) | None => None end)
      false false None c ct phd h (tr_values r) x.

Lemma wp_producer_task cmds e : forall ph vs p t x,
  Forall (fun w => consumer_side w = false) (producer_wakers cmds e) -> PA ph false None p t vs x ->
  wp aguar 0 (producer_task cmds e vs p) producer_post x.
Proof.
  induction cmds as [|cmd cmds IH]; intros ph vs p t x Hws Hx; cbn [producer_task].
  - destruct e as [w|v w|]; cbn [end_producer]; unfold producer_wakers in Hws; cbn in Hws.
    + apply Forall_cons in Hws as [Hw _]. eapply wp_unschedule_0; [done|exact Hx|]. clear x Hx. intros x Hx.
      eapply wp_call; [eapply wp_poll_ready; [done|exact Hx]|]. intros [[[]|] p'] y Hy;
        (eapply wp_retP; [apply PA_stable|exact Hy|]; intros z Hz; by exists t).
    + apply Forall_cons in Hws as [Hw _].
      eapply wp_call; [eapply wp_poll_push; [done|exact Hx]|]. intros [[[[r|] ws] f] p'] y [_ Hy];
        (eapply wp_retP; [apply PA_stable|exact Hy|]; intros z Hz; by exists t).
    + eapply wp_call; [eapply wp_async_producer_drop, Hx|]. intros u y Hy.
      eapply wp_retP; [apply PA_stable|exact Hy|]. intros z Hz. by exists (zlength vs).
  - unfold producer_wakers in Hws. cbn in Hws. rewrite <- app_assoc in Hws.
    apply Forall_app in Hws as [H1 H2].
    eapply wp_call; [eapply wp_pcmd; [done|exact Hx]|]. intros [ws p'] y [t' Hy]. by eapply IH.
Qed.

Lemma wp_consumer_task cmds e : forall ph vs c ct phd h x,
  Forall (fun w => consumer_side w = true) (consumer_wakers cmds e) -> CA ph false false None c ct phd h vs x ->
  wp aguar 1 (consumer_task cmds e vs c) consumer_post x.
Proof.
  induction cmds as [|cmd cmds IH]; intros ph vs c ct phd h x Hws Hx; cbn [consumer_task].
  - destruct e as [w|]; cbn [end_consumer]; unfold consumer_wakers in Hws; cbn in Hws.
    + apply Forall_cons in Hws as [Hw _]. eapply wp_unschedule_1; [done|exact Hx|]. clear x Hx. intros x Hx.
      eapply wp_call; [eapply wp_poll_next; [done|exact Hx]|]. intros [[o|] c'] y (ct' & phd' & h' & Hy);
        (eapply wp_retP; [apply CA_stable|exact Hy|]; intros z Hz; exists c', ct', phd', h'; split_and!; [done|by right|done]).
    + eapply wp_call; [eapply wp_async_consumer_drop, Hx|]. intros u y [c' Hy].
      eapply wp_retP; [apply CA_stable|exact Hy|]. intros z Hz. exists c', ct, h, h.
      split_and!; [done|by left|done].
  - unfold consumer_wakers in Hws. cbn in Hws. rewrite <- app_assoc in Hws.
    apply Forall_app in Hws as [H1 H2].
    eapply wp_call; [eapply wp_ccmd; [done|exact Hx]|]. intros [ws c'] y (ct' & phd' & h' & Hy). by eapply IH.
Qed.

End inv.
Arguments aghost T Waker : clear implicits.
