(* ===== verification/YAsyncThm.v ===== *)
(** * What the async endpoints promise

    Two theorems about every interleaving of a producer task and a consumer
    task on an async ring: the consumer gets what the producer pushed, in
    order, and what it did not get is disposed of once; a task whose last poll
    returned [Pending] has been scheduled again unless it still has to wait. *)

From S2P Require Import Prelude Prog YRing YRingInv YRingSpec YRingThm YRingConc Waker YAsync YAsyncConc.
Local Open Scope prog_scope.

Section theorems.
Context {T Waker : Type} `{EqDecision Waker} `{AW : AtomicWaker Waker}.
#[local] Abbreviation State := (AsyncState T Waker).

Definition async_pool (pcmds : list (async_pcmd T Waker)) (pe : async_pend T Waker)
    (ccmds : list (async_ccmd Waker)) (ce : async_cend Waker) (p : AsyncProducer) (c : AsyncConsumer)
    : list (prog State (task_result T Waker AsyncProducer + task_result T Waker AsyncConsumer)) :=
  [let* r := producer_task pcmds pe [] p in Ret (inl r);
   let* r := consumer_task ccmds ce [] c in Ret (inr r)].

(** Each endpoint belongs to a task of its own. *)
Definition separate_tasks (pcmds : list (async_pcmd T Waker)) (pe : async_pend T Waker)
    (ccmds : list (async_ccmd Waker)) (ce : async_cend Waker) : Prop :=
  Forall (fun w => w ∉ consumer_wakers ccmds ce) (producer_wakers pcmds pe).

(** What is left to do once both tasks have ended: drop the endpoints that
    were not dropped, then the ring. *)
Definition drop_rest (producer_first : bool) (rp : task_result T Waker AsyncProducer)
    (rc : task_result T Waker AsyncConsumer) : prog State (list T) :=
  let drop_p := when (negb (tr_dropped rp)) (AsyncProducer_drop (tr_endpoint rp)) in
  let drop_c := when (negb (tr_dropped rc)) (AsyncConsumer_drop (tr_endpoint rc)) in
  let* _ := (if producer_first then let* _ := drop_p in drop_c else let* _ := drop_c in drop_p) in
  AsyncRing_drop.

Definition async_post (cap : Z) (side : Waker -> bool) (i : nat)
    (a : task_result T Waker AsyncProducer + task_result T Waker AsyncConsumer) (x : State * aghost T Waker) : Prop :=
  match i with
  | O => exists r, a = inl r /\ producer_post cap 0 side r x
  | _ => exists r, a = inr r /\ consumer_post cap 0 side r x
  end.

Definition init_ghost : aghost T Waker := mkA (mkGhost 0 0 0 []) CIdle PIdle false None false false None.

Lemma async_pool_wp capacity pcmds pe ccmds ce :
  0 < capacity <= 2 ^ 62 -> separate_tasks pcmds pe ccmds ce ->
  exists cap s p c side, async_spsc capacity = Done (s, p, c) /\
    pool_wp (aguar cap 0 side) (async_post cap side) (async_pool pcmds pe ccmds ce p c) (s, init_ghost).
Proof.
  intros Hcap Hsep. destruct (spsc_init_rep_at (T := T) capacity 0 Hcap ltac:(usize))
    as (cap & ring & Hv & _ & _ & E & H). specialize (E eq_refl).
  exists cap, (mkAsyncRing ring aw_new aw_new, []), (mkAsyncProducer 0 0), (mkAsyncConsumer 0 0 0),
    (fun w => bool_decide (w ∈ consumer_wakers ccmds ce)).
  unfold spsc in E. unfold async_spsc. destruct (Ring_new capacity) as [r|]; [|done]. simplify_eq. split; [done|].
  pose proof (rep_ok _ _ _ _ _ _ _ _ H) as Hok. cbn in Hok. pose proof (valid_cap_range _ Hv).
  intros [|[|i]] q Hq; [| |by destruct i]; cbn in Hq; simplify_eq.
  - eapply wp_call; [eapply (wp_producer_task cap 0 _ pcmds pe None [] _ 0)|].
    + eapply Forall_impl; [exact Hsep|]. intros w Hw. by apply bool_decide_eq_false.
    + split; [|by split_and!]. split_and!; auto. exists 0. cbn. split_and!; auto; unfold zlength; simpl; lia.
    + intros r' y (t & Ht & Hy). eapply wp_retP; [apply PA_stable|exact Hy|].
      intros z Hz. exists r'. split; [done|]. by exists t.
  - eapply wp_call; [eapply (wp_consumer_task cap 0 _ ccmds ce None [] _ 0 0 0)|].
    + apply Forall_forall. intros w Hw. by apply bool_decide_eq_true.
    + split; [|by split_and!]. split_and!; auto; cbn; lia.
    + intros r' y (c' & ct & phd & h & H1 & H2 & Hy). eapply wp_retP; [apply CA_stable|exact Hy|].
      intros z Hz. exists r'. split; [done|]. by exists c', ct, phd, h.
Qed.

(** The end of every schedule of the pool. *)
Lemma async_pool_end capacity pcmds pe ccmds ce :
  0 < capacity <= 2 ^ 62 -> separate_tasks pcmds pe ccmds ce ->
  exists s p c, async_spsc capacity = Done (s, p, c) /\
    forall s' ps', rtc pstep (s, async_pool pcmds pe ccmds ce p c) (s', ps') ->
      (exists c', pstep (s', ps') c') \/
      exists rp rc cap side g, ps' = [Ret (inl rp); Ret (inr rc)] /\
        producer_post cap 0 side rp (s', g) /\ consumer_post cap 0 side rc (s', g).
Proof.
  intros Hcap Hsep. destruct (async_pool_wp capacity pcmds pe ccmds ce Hcap Hsep) as (cap & s & p & c & side & E & HW).
  exists s, p, c. split; [done|]. intros s' ps' Hr.
  destruct (pool_sound _ _ _ _ _ _ _ HW Hr) as [g Hw].
  destruct (pool_progress _ _ _ _ Hw (s', ps') eq_refl) as [Hstep|Hfin]; [by left|right].
  apply pool_length in Hr. destruct ps' as [|q1 [|q2 []]]; try discriminate Hr.
  inversion Hfin as [|? ? [a1 ->] Hfin2]; subst. inversion Hfin2 as [|? ? [a2 ->] _]; subst.
  destruct (pool_wp_ret _ _ _ _ 0 _ Hw eq_refl) as (rp & -> & Hp).
  destruct (pool_wp_ret _ _ _ _ 1 _ Hw eq_refl) as (rc & -> & Hc).
  by exists rp, rc, cap, side, g.
Qed.

(** Dropping one endpoint leaves what the other task knows. *)
Lemma run_producer_drop cap side rp c ct phd h ph (got : list T) (s : State) g :
  producer_post cap 0 side rp (s, g) -> CA cap 0 side ph false false None c ct phd h got (s, g) ->
  runs (when (negb (tr_dropped rp)) (AsyncProducer_drop (tr_endpoint rp))) s (fun _ s' => exists g',
    PA cap 0 side None false None (tr_endpoint rp) (zlength (tr_values rp)) (tr_values rp) (s', g') /\
    CA cap 0 side ph false false None c ct phd h got (s', g')).
Proof.
  intros (t & Ht & Hp) Hc. destruct (tr_dropped rp) eqn:E; cbn [negb when].
  - rewrite (Ht eq_refl) in Hp. exists g. split; [by eapply PA_any|done].
  - destruct (wp_run_guar _ _ _ _ _ _ (wp_async_producer_drop _ _ _ _ _ _ _ _ Hp)) as (u & s' & g' & Hr & HQ & Hg).
    eapply runs_intro; [exact Hr|]. exists g'. split; [exact HQ|].
    by eapply (stable_guar _ 0 1); [|apply CA_stable|exact Hc|exact Hg].
Qed.

Lemma run_consumer_drop cap side rc p t ph (hist : list T) (s : State) g :
  consumer_post cap 0 side rc (s, g) -> PA cap 0 side ph false None p t hist (s, g) ->
  runs (when (negb (tr_dropped rc)) (AsyncConsumer_drop (tr_endpoint rc))) s (fun _ s' => exists g' c ct h,
    CA cap 0 side None false false None c ct h h (tr_values rc) (s', g') /\
    PA cap 0 side ph false None p t hist (s', g')).
Proof.
  intros (c & ct & phd & h & H1 & H2 & Hc) Hp. destruct (tr_dropped rc) eqn:E; cbn [negb when].
  - rewrite (H1 eq_refl) in Hc. exists g, c, ct, h. split; [by eapply CA_any|done].
  - destruct H2 as [[]|<-]; [done|].
    destruct (wp_run_guar _ _ _ _ _ _ (wp_async_consumer_drop _ _ _ _ _ _ _ _ _ _ Hc)) as (u & s' & g' & Hr & [c' HQ] & Hg).
    eapply runs_intro; [exact Hr|]. exists g', c', ct, h. split; [exact HQ|].
    by eapply (stable_guar _ 1 0); [|apply PA_stable|exact Hp|exact Hg].
Qed.

(** The drop of the ring disposes of what was not received. *)
Lemma run_ring_drop cap side p c ct h (hist got : list T) (s : State) g :
  PA cap 0 side None false None p (zlength hist) hist (s, g) ->
  CA cap 0 side None false false None c ct h h got (s, g) ->
  runs AsyncRing_drop s (fun vs _ => hist = got ++ vs).
Proof.
  intros (Hp & _) (Hc & _). destruct Hp as (Hok & Ht & Hh & _). destruct Hc as (_ & Hph & Hgh & Hg & _).
  assert (Hr : ring_ok cap 0 h h (zlength hist) hist (ar_ring s.1)).
  { unfold ok, aproj in *. cbn in *. by rewrite Ht, Hh, Hph, Hgh in Hok. }
  assert (Hlift : forall A (q : prog (Ring T) A) (s : State),
    run (on_ar_ring q) s = let '(o, r) := run q (ar_ring s.1) in (o, put_ar_ring r s)).
  { intros A q s0. apply (run_lift (fun s : State => ar_ring s.1) put_ar_ring q); [done..|by intros [[] ?]]. }
  destruct (runs_elim _ _ _ (drop_remaining_ok _ _ _ _ _ Hr)) as (vs & r1 & E1 & Ev & Hr1).
  destruct (runs_elim _ _ _ (drop_remaining_ok _ _ _ _ _ Hr1)) as (ws & r2 & E2 & Ew & _).
  unfold AsyncRing_drop, Ring_drop. unfold runs.
  rewrite (run_bind_Done _ _ _ vs (put_ar_ring r1 s)) by (by rewrite Hlift, E1).
  rewrite (run_bind_Done _ _ _ ws (put_ar_ring r2 (put_ar_ring r1 s))) by (rewrite Hlift; cbn [put_ar_ring fst ar_ring]; by rewrite E2).
  cbn. subst vs ws. rewrite (drop_ge hist (Z.to_nat (zlength hist))) by (unfold zlength; lia).
  unfold aproj in *. cbn in *. rewrite Hh in Hg. by rewrite app_nil_r, <- Hg, take_drop.
Qed.

Lemma drop_rest_ok cap side b rp rc s g :
  producer_post cap 0 side rp (s, g) -> consumer_post cap 0 side rc (s, g) ->
  runs (drop_rest b rp rc) s (fun vs _ => tr_values rp = tr_values rc ++ vs).
Proof.
  intros Hp Hc. unfold drop_rest. apply runs_bind. destruct b; apply runs_bind.
  - pose proof Hc as (c & ct & phd & h & H1 & H2 & Hca).
    eapply runs_mono; [eapply run_producer_drop; eauto|]. intros u s1 (g1 & Hp1 & Hc1).
    eapply runs_mono; [eapply run_consumer_drop; [|exact Hp1]|].
    { exists c, ct, phd, h. split_and!; [done|done|exact Hc1]. }
    intros u2 s2 (g2 & c2 & ct2 & h2 & Hc2 & Hp2). by eapply run_ring_drop.
  - pose proof Hp as (t & Ht & Hpa).
    eapply runs_mono; [eapply run_consumer_drop; eauto|]. intros u s1 (g1 & c1 & ct1 & h1 & Hc1 & Hp1).
    eapply runs_mono; [eapply run_producer_drop; [|exact Hc1]|].
    { exists t. split; [done|exact Hp1]. }
    intros u2 s2 (g2 & Hp2 & Hc2). by eapply run_ring_drop.
Qed.

(** C22: for every capacity, every sequence of operations, polls and awaited
    pushes of the producer's task and of the consumer's task and every way the
    two tasks end, every interleaving of their accesses ends without a fault
    or a deadlock; then the values the consumer received, followed by what the
    remaining drops of the endpoints and the ring dispose of, are exactly the
    values that were pushed, in order. *)
Theorem async_interleaving_fifo (capacity : Z) pcmds pe ccmds ce (producer_first : bool) :
  0 < capacity <= 2 ^ 62 -> separate_tasks pcmds pe ccmds ce ->
  exists s p c, async_spsc capacity = Done (s, p, c) /\
    Acc (flip pstep) (s, async_pool pcmds pe ccmds ce p c) /\
    forall s' ps', rtc pstep (s, async_pool pcmds pe ccmds ce p c) (s', ps') ->
      (exists c', pstep (s', ps') c') \/
      exists rp rc, ps' = [Ret (inl rp); Ret (inr rc)] /\
        runs (drop_rest producer_first rp rc) s' (fun dropped _ => tr_values rp = tr_values rc ++ dropped).
Proof.
  intros Hcap Hsep. destruct (async_pool_end capacity pcmds pe ccmds ce Hcap Hsep) as (s & p & c & E & H).
  exists s, p, c. split; [done|]. split; [apply pstep_terminating|]. intros s' ps' Hr.
  destruct (H _ _ Hr) as [|(rp & rc & cap & side & g & -> & Hp & Hc)]; [by left|right].
  exists rp, rc. split; [done|]. by eapply drop_rest_ok.
Qed.

(** C23: no lost wakeup between async endpoints.  In every interleaving, when
    both tasks have ended: a consumer whose last [poll_next] returned
    [Pending] is scheduled, unless everything published has been received and
    the producer is alive; a producer whose last [poll_ready] or awaited push
    returned [Pending] is scheduled, unless the ring is full and the consumer
    is alive. *)
Theorem async_no_lost_wakeup (capacity : Z) pcmds pe ccmds ce :
  0 < capacity <= 2 ^ 62 -> separate_tasks pcmds pe ccmds ce ->
  exists s p c, async_spsc capacity = Done (s, p, c) /\
    forall s' ps', rtc pstep (s, async_pool pcmds pe ccmds ce p c) (s', ps') ->
      (exists c', pstep (s', ps') c') \/
      exists rp rc, ps' = [Ret (inl rp); Ret (inr rc)] /\
        let r := ar_ring s'.1 in
        (forall w, tr_awaits rc = Some w ->
           w ∈ s'.2 \/ ring_tail r = ac_head (tr_endpoint rc) /\ ring_producer_dropped r = false) /\
        (forall w, tr_awaits rp = Some w ->
           w ∈ s'.2 \/ ring_mask r + 1 <= wrapping_sub (ap_cursor (tr_endpoint rp)) (ring_head r) /\
                       ring_consumer_dropped r = false).
Proof.
  intros Hcap Hsep. destruct (async_pool_end capacity pcmds pe ccmds ce Hcap Hsep) as (s & p & c & E & H).
  exists s, p, c. split; [done|]. intros s' ps' Hr.
  destruct (H _ _ Hr) as [|(rp & rc & cap & side & g & -> & Hp & Hc)]; [by left|right].
  exists rp, rc. split; [done|]. cbn zeta.
  destruct Hp as (t & _ & Hpa & (Hok & HC & HP) & Hp1 & Hp2 & Hp3).
  destruct Hc as (c1 & ct & phd & h & _ & He & Hca & _ & Hc1 & Hc2 & Hc3 & Hc4 & _).
  pose proof (ok_facts _ _ _ Hok) as Hf. unfold aproj, ok in *. cbn [fst snd] in *.
  split; intros w Ew; rewrite Ew in *; cbn [known] in *.
  - destruct He as [[]|<-]; [done|]. unfold JC in HC. rewrite Hc1, Hp2, Hp3 in HC.
    destruct HC as [_ [|[|[_ [|[Hi Ho]]]]]]; [by left|done|done|]. right. split; [|auto].
    destruct Hca as (_ & _ & Hh & _ & Hhead & _). cbn in Hhead, Hh. rewrite Hhead.
    rewrite (ok_tail _ _ _ _ _ _ _ Hok). cbn. do 2 f_equal. specialize (Hi eq_refl). lia.
  - unfold JP in HP. rewrite Hp1, Hc2, Hc3, Hc4 in HP.
    destruct HP as [_ [|[|[_ [|(_ & Hi & Ho)]]]]]; [by left|done|done|]. right. split; [|auto].
    destruct (Hi eq_refl) as [Hfull|]; [|done]. unfold full in Hfull.
    destruct Hpa as (_ & _ & Hh & Hcur & _). cbn in Hcur, Hh. rewrite Hcur.
    rewrite (ok_head _ _ _ _ _ _ _ Hok), (ok_mask _ _ _ _ _ _ _ Hok). cbn.
    rewrite <- Hh, wrapping_sub_wrap by lia. lia.
Qed.

End theorems.

(** A producer that awaits a push of its fourth value into a ring of two, and
    a consumer that streams and then awaits, with the waker cell of the loom
    build; wakers are numbers. *)
Definition demo_async_p : list (async_pcmd nat nat) :=
  [PPushFlush 1%nat; PPush 2%nat; PPushAsync 3%nat [10%nat; 11%nat]; PFlush].
Definition demo_async_c : list (async_ccmd nat) := [NPollNext 20%nat; NPrefetchPop; NRelease].

Lemma async_interleaving_fifo_witness :
  exists s p c, async_spsc (T := nat) (Waker := nat) 2 = Done (s, p, c) /\
    Acc (flip pstep) (s, async_pool demo_async_p (EPush 4%nat 12%nat) demo_async_c (ENext 21%nat) p c) /\
    forall s' ps', rtc pstep (s, async_pool demo_async_p (EPush 4%nat 12%nat) demo_async_c (ENext 21%nat) p c) (s', ps') ->
      (exists c', pstep (s', ps') c') \/
      exists rp rc, ps' = [Ret (inl rp); Ret (inr rc)] /\
        runs (drop_rest true rp rc) s' (fun dropped _ => tr_values rp = tr_values rc ++ dropped).
Proof.
  apply (async_interleaving_fifo 2 demo_async_p (EPush 4%nat 12%nat) demo_async_c (ENext 21%nat) true);
    [lia|]. unfold separate_tasks. by apply (bool_decide_unpack _); vm_compute.
Defined.

Lemma async_no_lost_wakeup_witness :
  exists s p c, async_spsc (T := nat) (Waker := nat) 2 = Done (s, p, c) /\
    forall s' ps', rtc pstep (s, async_pool demo_async_p (EPush 4%nat 12%nat) demo_async_c (ENext 21%nat) p c) (s', ps') ->
      (exists c', pstep (s', ps') c') \/
      exists rp rc, ps' = [Ret (inl rp); Ret (inr rc)] /\
        let r := ar_ring s'.1 in
        (forall w, tr_awaits rc = Some w ->
           w ∈ s'.2 \/ ring_tail r = ac_head (tr_endpoint rc) /\ ring_producer_dropped r = false) /\
        (forall w, tr_awaits rp = Some w ->
           w ∈ s'.2 \/ ring_mask r + 1 <= wrapping_sub (ap_cursor (tr_endpoint rp)) (ring_head r) /\
                       ring_consumer_dropped r = false).
Proof.
  apply (async_no_lost_wakeup 2 demo_async_p (EPush 4%nat 12%nat) demo_async_c (ENext 21%nat));
    [lia|]. unfold separate_tasks. by apply (bool_decide_unpack _); vm_compute.
Defined.
