(* ===== verification/Ids.v ===== *)
(** * Identity counters

    Both crates hand out identities from process-wide counters that never wrap
    into reuse: channel ids ([allocate_channel_id] of [src/src/mpsc.rs]) and
    thread tokens ([allocate_thread_token] of [src/yring/src/producer.rs]) are
    the same compare-exchange loop on a 64-bit word.  The weak exchange may
    fail spuriously: an element of [spurious] says so for one iteration, and
    the length of the list bounds the iterations that are modelled.  A real
    failure means that another thread took an identity, so a list with more
    real attempts than there are allocations is never used up. *)

From S2P Require Import Prelude Prog.
Local Open Scope prog_scope.

Fixpoint allocate_id_loop (msg : string) (max current : Z) (spurious : list bool) : prog Z Z :=
  if current + 1 >? max then Fail (Panic msg)
  else
    match spurious with
    | [] => Fail (Panic "out of fuel")
    | fails :: spurious' =>
        let* r := atomic (fun c =>
          if negb fails && (c =? current) then (Ok tt, current + 1) else (Err c, c)) in
        match r with
        | Ok _ => Ret current
        | Err observed => allocate_id_loop msg max observed spurious'
        end
    end.

Definition allocate_channel_id (spurious : list bool) : prog Z Z :=
  let* current := load (fun c => c) in
  allocate_id_loop "MPSC channel IDs exhausted" (2 ^ 64 - 1) current spurious.

Definition allocate_thread_token (spurious : list bool) : prog Z Z :=
  let* next := load (fun c => c) in
  allocate_id_loop "ProducerOwner thread tokens exhausted" usize_max next spurious.

(** The two counters with the values they start from: thread token 0 stands
    for a thread that has none yet, so the tokens start from 1. *)
Inductive id_counter : Type := ChannelIds | ThreadTokens.

Definition NEXT_CHANNEL_ID : Z := 0.
Definition NEXT_THREAD_TOKEN : Z := 1.

Definition id_start (k : id_counter) : Z :=
  match k with ChannelIds => NEXT_CHANNEL_ID | ThreadTokens => NEXT_THREAD_TOKEN end.

Definition id_max (k : id_counter) : Z :=
  match k with ChannelIds => 2 ^ 64 - 1 | ThreadTokens => usize_max end.

Definition allocate_id (k : id_counter) (spurious : list bool) : prog Z Z :=
  match k with
  | ChannelIds => allocate_channel_id spurious
  | ThreadTokens => allocate_thread_token spurious
  end.

Definition exhausted (k : id_counter) : string :=
  match k with
  | ChannelIds => "MPSC channel IDs exhausted"
  | ThreadTokens => "ProducerOwner thread tokens exhausted"
  end.

(** ** Any number of threads allocating *)

(** The real attempts of a list of iterations. *)
Definition attempts (spurious : list bool) : Z := zlength (filter (fun b => b = false) spurious).

(** One thread's allocations, each with its spurious failures. *)
Fixpoint allocate_many (k : id_counter) (scripts : list (list bool)) : prog Z (list Z) :=
  match scripts with
  | [] => Ret []
  | spurious :: scripts' =>
      let* id := allocate_id k spurious in
      let* ids := allocate_many k scripts' in
      Ret (id :: ids)
  end.

Section ids.
(** The counter's first value and the number of allocations of each thread. *)
Context (c0 : Z) (quota : list nat).

Definition total : Z := Z.of_nat (sum_list quota).

(** The ghost state: which thread got each identity handed out so far. *)
Definition taken (i : nat) (log : list nat) : nat := length (filter (fun j => j = i) log).

Definition ids_ok (x : Z * list nat) : Prop :=
  x.1 = c0 + zlength x.2 /\ forall i, (taken i x.2 <= nth i quota 0)%nat.

Definition ids_guar (i : nat) : relation (Z * list nat) := fun x y =>
  ids_ok y /\ exists l, y.2 = x.2 ++ l /\ Forall (fun j => j = i) l.

Lemma ids_rely i x y : rely ids_guar i x y -> ids_ok y /\ taken i y.2 = taken i x.2 /\ x.2 `prefix_of` y.2.
Proof.
  intros (j & Hj & Hok & l & -> & Hl). split; [done|]. split; [|by exists l].
  unfold taken. rewrite filter_app, length_app. enough (filter (fun j => j = i) l = []) as ->; [cbn; lia|].
  induction Hl as [|? l -> _ IH]; [done|]. rewrite filter_cons_False by congruence. done.
Qed.

Lemma ids_refl i x : ids_ok x -> ids_guar i x x.
Proof. intros H. split; [done|]. exists []. by rewrite app_nil_r. Qed.

End ids.

Lemma sum_list_dec q j n :
  q !! j = Some (S n) -> sum_list q = S (sum_list (<[j := n]> q)).
Proof.
  revert j. induction q as [|a q IH]; intros [|j] H; simpl in H; simplify_eq; [done|].
  specialize (IH j H). change (a + sum_list q = S (a + sum_list (<[j:=n]> q)))%nat. lia.
Qed.

(** The log is no longer than the quotas together. *)
Lemma taken_total log : forall quota,
  (forall i, (taken i log <= nth i quota 0)%nat) -> (length log <= sum_list quota)%nat.
Proof.
  induction log as [|j log IH]; intros q Hq; cbn; [lia|].
  assert (Hj : (1 <= nth j q 0)%nat).
  { specialize (Hq j). unfold taken in Hq. rewrite filter_cons_True in Hq by done. cbn in Hq. lia. }
  destruct (q !! j) as [[|n]|] eqn:E.
  - rewrite nth_lookup, E in Hj. cbn in Hj. lia.
  - rewrite (sum_list_dec _ _ _ E). enough (length log <= sum_list (<[j:=n]> q))%nat by lia. apply IH.
    intros i. specialize (Hq i). unfold taken in *. rewrite !nth_lookup in *. destruct (decide (j = i)) as [->|Hne].
    + rewrite filter_cons_True in Hq by done. rewrite E in Hq.
      rewrite list_lookup_insert_eq by (by eapply lookup_lt_Some). cbn in *. lia.
    + rewrite filter_cons_False in Hq by done. by rewrite list_lookup_insert_ne.
  - rewrite nth_lookup, E in Hj. cbn in Hj. lia.
Qed.

Section alloc.
Context (c0 : Z) (quota : list nat).
#[local] Abbreviation guarI := (ids_guar c0 quota).
#[local] Abbreviation okI := (ids_ok c0 quota).

Lemma ids_bound i x : okI x -> (taken i x.2 < nth i quota 0)%nat -> x.1 < c0 + total quota.
Proof.
  intros [-> Hq] Hi. unfold total, zlength.
  enough (length (i :: x.2) <= sum_list quota)%nat by (cbn in *; lia).
  apply taken_total. intros j. unfold taken in *. destruct (decide (i = j)) as [->|Hne].
  - rewrite filter_cons_True by done. cbn. lia.
  - rewrite filter_cons_False by done. apply Hq.
Qed.

(** What thread [i] knows: how many identities it took, and which. *)
Definition ia (i : nat) (ids : list Z) (x : Z * list nat) : Prop :=
  okI x /\ taken i x.2 = length ids /\ NoDup ids /\
  Forall (fun id => c0 <= id /\ x.2 !! Z.to_nat (id - c0) = Some i) ids.

Lemma ia_stable i ids : stable guarI i (ia i ids).
Proof.
  intros x y (Hok & Ht & Hnd & Hids) (Hok' & E & [l Hp])%ids_rely. split_and!; [done|congruence|done|].
  eapply Forall_impl; [exact Hids|]. intros id [H1 H2]. split; [done|]. rewrite Hp.
  by apply lookup_app_l_Some.
Qed.

Lemma ia_ge_stable i ids c : stable guarI i (fun x => ia i ids x /\ c <= x.1).
Proof.
  intros x y [H Hc] Hxy. split; [by eapply ia_stable|].
  destruct H as ((E & _) & _). apply ids_rely in Hxy as ((E' & _) & _ & [l Hp]).
  rewrite Hp, zlength_app in E'. pose proof (zlength_nonneg l). lia.
Qed.

Lemma attempts_cons b l : attempts (b :: l) = (if b then 0 else 1) + attempts l.
Proof.
  unfold attempts. destruct b.
  - by rewrite filter_cons_False.
  - by rewrite filter_cons_True, zlength_cons.
Qed.

Lemma wp_allocate_loop i msg max ids spurious : forall current x,
  c0 + total quota <= max -> (length ids < nth i quota 0)%nat ->
  c0 + total quota - current < attempts spurious -> ia i ids x /\ current <= x.1 ->
  wp guarI i (allocate_id_loop msg max current spurious) (fun id => ia i (ids ++ [id])) x.
Proof.
  intros current x Hmax Hlen. revert current x.
  induction spurious as [|b spurious IH]; intros current x Hf Hx.
  { destruct Hx as [(Hok & Ht & _) Hc]. pose proof (ids_bound i _ Hok). cbn in Hf.
    rewrite Ht in *. change (attempts []) with 0 in Hf. lia. }
  cbn [allocate_id_loop].
  assert (Hb : current + 1 <= max).
  { destruct Hx as [(Hok & Ht & _) Hc]. pose proof (ids_bound i _ Hok). rewrite Ht in *. lia. }
  destruct (Z.gtb_spec (current + 1) max); [lia|].
  eapply wp_act; [apply (ia_ge_stable i ids current)|exact Hx|]. clear x Hx.
  intros c log [(Hok & Ht & Hnd & Hids) Hc]. cbn [fst snd] in *. rewrite attempts_cons in Hf.
  destruct b; cbn [negb andb].
  { exists log. split; [by apply ids_refl|]. apply IH; [lia|]. by split_and!. }
  destruct (Z.eqb_spec c current) as [->|Hne]; cbn [fst snd].
  - exists (log ++ [i]). destruct Hok as [E Hq]. cbn in E, Hq.
    assert (Htk : taken i (log ++ [i]) = S (taken i log)).
    { unfold taken. rewrite filter_app, length_app, filter_cons_True by done. cbn. lia. }
    assert (Hok' : okI (current + 1, log ++ [i])).
    { split; cbn [fst snd]; [rewrite zlength_snoc; lia|]. intros j. destruct (decide (i = j)) as [->|Hne].
      - rewrite Htk, Ht. lia.
      - unfold taken in *. rewrite filter_app, length_app, filter_cons_False by done. cbn. specialize (Hq j). lia. }
    split; [split; [done|]; exists [i]; split; [done|by constructor]|].
    eapply wp_retP; [apply ia_stable| |done]. split_and!; [done|..].
    + cbn [fst snd]. rewrite Htk, length_app, Ht. cbn. lia.
    + apply NoDup_app. split_and!; [done| |apply NoDup_singleton]. intros id Hin ->%list_elem_of_singleton.
      rewrite Forall_forall in Hids. destruct (Hids _ Hin) as [_ Hl%lookup_lt_Some]. unfold zlength in E. lia.
    + apply Forall_app. split.
      * eapply Forall_impl; [exact Hids|]. intros id [H1 H2]. split; [done|]. cbn. by apply lookup_app_l_Some.
      * constructor; [|done]. cbn. unfold zlength in E. split; [lia|].
        replace (Z.to_nat (current - c0)) with (length log) by lia. by apply list_lookup_middle.
  - exists log. split; [by apply ids_refl|]. apply IH; [lia|]. by split_and!.
Qed.

Lemma wp_allocate i msg max ids spurious x :
  c0 + total quota <= max -> (length ids < nth i quota 0)%nat -> total quota < attempts spurious ->
  ia i ids x ->
  wp guarI i (let* current := load (fun c => c) in allocate_id_loop msg max current spurious)
    (fun id => ia i (ids ++ [id])) x.
Proof.
  intros Hmax Hlen Hs Hx. eapply wp_act; [apply ia_stable|exact Hx|]. clear x Hx. intros c log Hx. cbn [fst snd].
  exists log. split; [apply ids_refl, Hx|]. pose proof Hx as ((E & _) & _). cbn in E.
  pose proof (zlength_nonneg log). apply wp_allocate_loop; [done|lia|lia|by split].
Qed.

Lemma wp_allocate_many k i scripts : forall ids x,
  c0 + total quota <= id_max k -> Forall (fun sp => total quota < attempts sp) scripts ->
  (length ids + length scripts <= nth i quota 0)%nat -> ia i ids x ->
  wp guarI i (allocate_many k scripts) (fun new x => length new = length scripts /\ ia i (ids ++ new) x) x.
Proof.
  induction scripts as [|sp scripts IH]; intros ids x Hmax Hsp Hlen Hx; cbn [allocate_many].
  - eapply wp_retP; [apply ia_stable|exact Hx|]. intros y. rewrite app_nil_r. auto.
  - apply Forall_cons in Hsp as [Hs Hsp]. cbn in Hlen.
    eapply (wp_call _ _ _ _ (fun id => ia i (ids ++ [id]))).
    { destruct k; (apply wp_allocate; [done|lia|done|done]). }
    clear x Hx. intros id x Hx.
    eapply wp_call; [apply (IH (ids ++ [id])); [done|done| |exact Hx]|].
    { rewrite length_app. cbn. lia. }
    intros new y [Hn Hy]. eapply wp_retP; [apply ia_stable|exact Hy|]. intros z. rewrite <- app_assoc. cbn. auto.
Qed.

End alloc.

(** ** The theorem *)

Definition ids_pool (k : id_counter) (scripts : list (list (list bool))) : list (prog Z (list Z)) :=
  allocate_many k <$> scripts.

Definition ids_post (c0 : Z) (scripts : list (list (list bool))) (i : nat) (ids : list Z) (x : Z * list nat) : Prop :=
  Some (length ids) = (length <$> scripts) !! i /\ ia c0 (length <$> scripts) i ids x.

Lemma ids_pool_wp k c0 scripts :
  let n := total (length <$> scripts) in
  0 <= c0 -> c0 + n <= id_max k -> Forall (Forall (fun sp => n < attempts sp)) scripts ->
  pool_wp (ids_guar c0 (length <$> scripts)) (ids_post c0 scripts) (ids_pool k scripts) (c0, []).
Proof.
  intros n H0 Hmax Hsp i p Hp. unfold ids_pool in Hp. rewrite list_lookup_fmap in Hp.
  destruct (scripts !! i) as [sc|] eqn:E; [|done]. simplify_eq/=.
  eapply wp_mono; [|apply (wp_allocate_many c0 (length <$> scripts) k i sc [])];
    [intros ids x [Hl Hx]; split; [by rewrite list_lookup_fmap, E, Hl|done]|..]; [done|by eapply Forall_lookup_1|..].
  - rewrite nth_lookup, list_lookup_fmap, E. cbn. lia.
  - split_and!; [|done|constructor|done]. split; [cbn; rewrite zlength_nil; lia|]. intros j. cbn. lia.
Qed.

(** A counter that is used up refuses, and stays as it is. *)
Lemma allocate_exhausted k spurious :
  run (allocate_id k spurious) (id_max k) = (Fault (Panic (exhausted k)), id_max k).
Proof. destruct k, spurious; reflexivity. Qed.

(** The identities of one thread, and of two threads. *)
Lemma ia_disjoint c0 q i j x ids1 ids2 id :
  ia c0 q i ids1 x -> ia c0 q j ids2 x -> id ∈ ids1 -> id ∈ ids2 -> i = j.
Proof.
  intros (_ & _ & _ & H1) (_ & _ & _ & H2) I1 I2. rewrite Forall_forall in H1, H2.
  destruct (H1 _ I1) as [_ E1], (H2 _ I2) as [_ E2]. congruence.
Qed.

(** Together the threads' identities are those the counter went through. *)
Lemma ia_all c0 q x (ids : list (list Z)) :
  (forall i l, ids !! i = Some l -> ia c0 q i l x) -> length <$> ids = q ->
  ids_ok c0 q x -> mjoin ids ≡ₚ seqZ c0 (total q) /\ x.1 = c0 + total q.
Proof.
  intros Hall Hlen Hok.
  assert (Hsum : length (mjoin ids) = sum_list q).
  { subst q. clear. induction ids as [|l ids IH]; [done|].
    change (length (l ++ mjoin ids) = length l + sum_list (length <$> ids))%nat. rewrite length_app. lia. }
  assert (Hnd : NoDup (mjoin ids)).
  { clear Hlen Hsum. assert (Hdis : forall i j l1 l2 id, ids !! i = Some l1 -> ids !! j = Some l2 -> id ∈ l1 -> id ∈ l2 -> i = j)
      by (intros; eapply ia_disjoint; eauto).
    assert (Hone : forall i l, ids !! i = Some l -> NoDup l) by (intros; eapply Hall; eauto).
    clear Hall. induction ids as [|l ids IH]; [constructor|]. cbn. apply NoDup_app. split_and!.
    - by apply (Hone O).
    - intros id H1 (l2 & H2 & (j & Hj)%list_elem_of_lookup)%list_elem_of_join.
      by specialize (Hdis O (S j) l l2 id eq_refl Hj H1 H2).
    - apply IH; [intros i j l1 l2 id Hi Hj H1 H2; by simplify_eq (Hdis (S i) (S j) l1 l2 id Hi Hj H1 H2)|].
      intros i l2 Hi. by apply (Hone (S i)). }
  assert (Hin : forall id, id ∈ mjoin ids -> c0 <= id < x.1).
  { intros id (l & H1 & (i & Hi)%list_elem_of_lookup)%list_elem_of_join.
    destruct (Hall _ _ Hi) as ((E & _) & _ & _ & Hl). rewrite Forall_forall in Hl.
    destruct (Hl _ H1) as [Hge Hlt%lookup_lt_Some]. unfold zlength in E. lia. }
  assert (Hx : c0 <= x.1 <= c0 + total q).
  { destruct Hok as [-> Hq]. apply taken_total in Hq. unfold total, zlength. lia. }
  assert (Hsub : mjoin ids ⊆+ seqZ c0 (x.1 - c0)).
  { apply NoDup_submseteq; [done|]. intros id Hid. apply elem_of_seqZ. specialize (Hin _ Hid). lia. }
  pose proof (submseteq_length _ _ Hsub) as Hle. rewrite Hsum, length_seqZ in Hle.
  assert (E : x.1 = c0 + total q) by (unfold total in *; lia). split; [|done].
  replace (total q) with (x.1 - c0) by lia. apply submseteq_length_Permutation; [done|].
  rewrite Hsum, length_seqZ. unfold total in E. lia.
Qed.

(** C27: both process-wide counters, the channel ids from 0 and the thread
    tokens from 1: for any number of threads that allocate from a counter any
    number of times each, with any pattern of spurious compare-exchange
    failures and after any earlier allocations, every interleaving ends without
    a fault as long as the counter does not reach its maximum; the identities
    handed out are exactly the values the counter went through, each to one
    thread once and none of them handed out before ([c0] and up); no thread
    gets token 0, which stands for a thread without one.  A counter at its
    maximum panics with its message and does not wrap. *)
Theorem ids_never_reused (k : id_counter) (c0 : Z) (scripts : list (list (list bool))) :
  let n := total (length <$> scripts) in
  id_start k <= c0 -> c0 + n <= id_max k -> Forall (Forall (fun sp => n < attempts sp)) scripts ->
  Acc (flip pstep) (c0, ids_pool k scripts) /\
  (forall c ps, rtc pstep (c0, ids_pool k scripts) (c, ps) ->
    (exists c', pstep (c, ps) c') \/
    exists ids, ps = Ret <$> ids /\ c = c0 + n /\ mjoin ids ≡ₚ seqZ c0 n /\ NoDup (mjoin ids) /\
      (k = ThreadTokens -> 0 ∉ mjoin ids)) /\
  forall spurious, run (allocate_id k spurious) (id_max k) = (Fault (Panic (exhausted k)), id_max k).
Proof.
  intros n Hstart Hmax Hsp. assert (H0 : 0 <= c0) by (destruct k; cbn in Hstart; unfold NEXT_CHANNEL_ID, NEXT_THREAD_TOKEN in *; lia).
  split_and!; [apply pstep_terminating| |apply allocate_exhausted]. intros c ps Hr.
  destruct (pool_sound _ _ _ _ _ _ _ (ids_pool_wp k c0 scripts H0 Hmax Hsp) Hr) as [log Hw].
  destruct (pool_progress _ _ _ _ Hw (c, ps) eq_refl) as [Hstep|Hfin]; [by left|right].
  destruct (finished_values _ _ Hfin) as [ids ->]. exists ids. split; [done|].
  pose proof (pool_length _ _ Hr) as Hlen. cbn in Hlen. unfold ids_pool in Hlen. rewrite !length_fmap in Hlen.
  enough (c = c0 + n /\ mjoin ids ≡ₚ seqZ c0 n) as [-> E].
  { split_and!; [done|done|rewrite E; apply NoDup_seqZ|]. intros ->. rewrite E, elem_of_seqZ.
    cbn in Hstart. unfold NEXT_THREAD_TOKEN in Hstart. lia. }
  assert (Hpost : forall i l, ids !! i = Some l -> ids_post c0 scripts i l (c, log)).
  { intros i l Hi. apply (pool_wp_ret _ _ _ _ _ _ Hw). by rewrite list_lookup_fmap, Hi. }
  destruct ids as [|l0 ids].
  - destruct scripts; [|done]. split; [|done]. subst n. cbn. rewrite Z.add_0_r.
    inversion Hr as [|? ? ? Hs]; [done|]. inversion Hs; subst. by rewrite lookup_nil in *.
  - destruct (ia_all c0 (length <$> scripts) (c, log) (l0 :: ids)); [| |apply (Hpost O l0); done|by split].
    + intros i l Hi. apply (Hpost _ _ Hi).
    + apply list_eq_same_length with (length scripts); rewrite ?length_fmap; [done|done|].
      intros i n1 n2 Hi H1 H2. rewrite list_lookup_fmap in H1. destruct ((l0 :: ids) !! i) as [l|] eqn:El; [|done].
      destruct (Hpost _ _ El) as [El' _]. rewrite H2 in El'. cbn in H1. congruence.
Qed.

(** Three threads, one of which allocates twice and has spurious failures. *)
Lemma ids_never_reused_witness :
  let scripts := [[replicate 5 false]; [true :: replicate 5 false; replicate 6 false]; [replicate 5 false]] in
  Acc (flip pstep) (1, ids_pool ThreadTokens scripts) /\
  (forall c ps, rtc pstep (1, ids_pool ThreadTokens scripts) (c, ps) ->
    (exists c', pstep (c, ps) c') \/
    exists ids, ps = Ret <$> ids /\ c = 5 /\ mjoin ids ≡ₚ seqZ 1 4 /\ NoDup (mjoin ids) /\
      (ThreadTokens = ThreadTokens -> 0 ∉ mjoin ids)) /\
  forall spurious, run (allocate_id ThreadTokens spurious) (id_max ThreadTokens) =
    (Fault (Panic (exhausted ThreadTokens)), id_max ThreadTokens).
Proof.
  intros scripts. apply (ids_never_reused ThreadTokens 1 scripts); [cbn; unfold NEXT_THREAD_TOKEN; lia|vm_compute; discriminate|].
  repeat constructor.
Defined.
