(* ===== verification/YOwner.v ===== *)
(** * yring: the owner handle of a producer

    Models [ProducerOwner] of [src/yring/src/producer.rs]: a producer shared
    by reference that binds itself to the first thread that uses it.  Thread
    tokens come from the process-wide counter of Ids; the token of a thread
    ([THREAD_TOKEN]) is private to it and passed in and out of every call, [0]
    while it has none.  [OnceLock::get_or_init] is one step.  The producer in
    the cell is read before and written after the operation on it: the handle
    promises that nobody else looks in between, which is what the theorem of
    this file shows. *)

From S2P Require Import Prelude Prog YRing YRingInv YRingSpec YRingThm YRingConc Ids.
Local Open Scope prog_scope.

Section owner.
Context {T : Type}.

(** The shared state: the ring, the handle's cell and lock, the counter. *)
Record OwnerState : Type := mkOwnerState {
  ow_ring : Ring T;
  ow_producer : Producer;
  ow_owner : option Z;
  ow_next_token : Z
}.

Definition put_ow_ring (r : Ring T) (s : OwnerState) : OwnerState :=
  mkOwnerState r (ow_producer s) (ow_owner s) (ow_next_token s).
Definition set_ow_producer (p : Producer) (s : OwnerState) : OwnerState :=
  mkOwnerState (ow_ring s) p (ow_owner s) (ow_next_token s).
Definition set_ow_owner (o : option Z) (s : OwnerState) : OwnerState :=
  mkOwnerState (ow_ring s) (ow_producer s) o (ow_next_token s).
Definition put_ow_next (n : Z) (s : OwnerState) : OwnerState :=
  mkOwnerState (ow_ring s) (ow_producer s) (ow_owner s) n.

(** [ProducerOwner::new], with the counter of the process. *)
Definition ProducerOwner_new (ring : Ring T) (producer : Producer) (next_token : Z) : OwnerState :=
  mkOwnerState ring producer None next_token.

(** The token and the value of the thread-local cell after the call. *)
Definition current_thread_token (token : Z) (spurious : list bool) : prog OwnerState (Z * Z) :=
  if negb (token =? 0) then Ret (token, token)
  else
    let* current := lift ow_next_token put_ow_next (allocate_thread_token spurious) in
    Ret (current, current).

(** [OnceLock::get_or_init(|| current)]. *)
Definition owner_get_or_init (current : Z) : prog OwnerState Z :=
  atomic (fun s => match ow_owner s with
                   | Some o => (o, s)
                   | None => (current, set_ow_owner (Some current) s)
                   end).

Definition ProducerOwner_with_producer {R} (f : Producer -> prog (Ring T) (R * Producer))
    (token : Z) (spurious : list bool) : prog OwnerState (R * Z) :=
  let* '(current, token) := current_thread_token token spurious in
  let* owner := owner_get_or_init current in
  if negb (owner =? current) then Fail (Panic "ProducerOwner accessed from multiple producer threads")
  else
    let* p := load ow_producer in
    let* '(r, p) := lift ow_ring put_ow_ring (f p) in
    let* _ := store (set_ow_producer p) in
    Ret (r, token).

Definition ProducerOwner_push (value : T) : Z -> list bool -> prog OwnerState (result unit T * Z) :=
  ProducerOwner_with_producer (fun p => Producer_push p value).

Definition ProducerOwner_push_flush (value : T) : Z -> list bool -> prog OwnerState (result unit T * Z) :=
  ProducerOwner_with_producer (fun p =>
    let* '(result, p) := Producer_push p value in
    let* _ := when (is_ok result) (Producer_flush p) in
    Ret (result, p)).

Definition ProducerOwner_flush : Z -> list bool -> prog OwnerState (unit * Z) :=
  ProducerOwner_with_producer (fun p => let* _ := Producer_flush p in Ret (tt, p)).

Definition ProducerOwner_is_full : Z -> list bool -> prog OwnerState (bool * Z) :=
  ProducerOwner_with_producer Producer_is_full.

Definition ProducerOwner_is_consumer_dropped : Z -> list bool -> prog OwnerState (bool * Z) :=
  ProducerOwner_with_producer (fun p => let* b := Producer_is_consumer_dropped in Ret (b, p)).

(** ** Threads that share a handle *)

Inductive owner_cmd : Type :=
| OwPush (v : T) | OwPushFlush (v : T) | OwFlush | OwIsFull | OwIsConsumerDropped.

(** The values an operation added to the ring. *)
Definition exec_owner (cmd : owner_cmd) (token : Z) (spurious : list bool) : prog OwnerState (list T * Z) :=
  match cmd with
  | OwPush v => let* '(r, token) := ProducerOwner_push v token spurious in Ret (if is_ok r then [v] else [], token)
  | OwPushFlush v => let* '(r, token) := ProducerOwner_push_flush v token spurious in Ret (if is_ok r then [v] else [], token)
  | OwFlush => let* '(_, token) := ProducerOwner_flush token spurious in Ret ([], token)
  | OwIsFull => let* '(_, token) := ProducerOwner_is_full token spurious in Ret ([], token)
  | OwIsConsumerDropped => let* '(_, token) := ProducerOwner_is_consumer_dropped token spurious in Ret ([], token)
  end.

Fixpoint owner_thread (cmds : list (owner_cmd * list bool)) (token : Z) (vs : list T) : prog OwnerState (list T) :=
  match cmds with
  | [] => Ret vs
  | (cmd, spurious) :: cmds' =>
      let* '(ws, token) := exec_owner cmd token spurious in
      owner_thread cmds' token (vs ++ ws)
  end.

End owner.
Arguments OwnerState T : clear implicits.
Arguments owner_cmd T : clear implicits.

(** ** The argument *)

Section exclusive.
Context {T : Type} (cap base n0 : Z) (quota : list nat).

Definition ost : Type := OwnerState T * (ghost T * list nat).
Definition rproj (x : ost) : Ring T * ghost T := (ow_ring x.1, x.2.1).
Definition nproj (x : ost) : Z * list nat := (ow_next_token x.1, x.2.2).
#[local] Abbreviation guarI := (ids_guar n0 quota).
#[local] Abbreviation iaI := (ia n0 quota).

(** The thread a token was handed to. *)
Definition belongs (log : list nat) (o : Z) (i : nat) : Prop :=
  n0 <= o /\ log !! Z.to_nat (o - n0) = Some i.

(** Until somebody owns the handle the cell holds the fresh producer. *)
Definition OJ (x : ost) : Prop :=
  ok cap base (rproj x) /\ ids_ok n0 quota (nproj x) /\
  match ow_owner x.1 with
  | None => pa cap base (ow_producer x.1) 0 [] (rproj x)
  | Some o => exists i, belongs x.2.2 o i
  end.

(** Thread [0] is the consumer; the others share the handle. *)
Definition oguar (i : nat) : relation ost := fun x y =>
  OJ y /\
  match i with
  | O => guar cap base 1 (rproj x) (rproj y) /\ ow_producer y.1 = ow_producer x.1 /\
         ow_owner y.1 = ow_owner x.1 /\ nproj y = nproj x
  | S _ =>
      (guarI i (nproj x) (nproj y) /\ rproj y = rproj x /\ ow_producer y.1 = ow_producer x.1 /\
       ow_owner y.1 = ow_owner x.1) \/
      (ow_owner x.1 = None /\ rproj y = rproj x /\ ow_producer y.1 = ow_producer x.1 /\ nproj y = nproj x /\
       exists o, ow_owner y.1 = Some o /\ belongs y.2.2 o i) \/
      (exists o, ow_owner x.1 = Some o /\ ow_owner y.1 = Some o /\ belongs x.2.2 o i /\ nproj y = nproj x /\
         guar cap base 0 (rproj x) (rproj y))
  end.

Lemma belongs_fun log o i j : belongs log o i -> belongs log o j -> i = j.
Proof. intros [_ H1] [_ H2]. congruence. Qed.

Lemma belongs_prefix log log' o i : log `prefix_of` log' -> belongs log o i -> belongs log' o i.
Proof. intros [l ->] [H1 H2]. split; [done|]. by apply lookup_app_l_Some. Qed.

(** What the consumer sees of the others. *)
Lemma orely_consumer x y :
  rely oguar 0 x y -> OJ y /\ rtc (rely (guar cap base) 1) (rproj x) (rproj y).
Proof.
  intros (j & Hj & HJ & H). split; [done|]. destruct j as [|j]; [done|].
  destruct H as [(_ & -> & _)|[(_ & -> & _)|(o & _ & _ & _ & _ & Hg)]]; [done|done|].
  apply rtc_once. exists O. by split.
Qed.

(** What a thread with the handle sees of the others. *)
Lemma orely_ids i x y :
  i <> O -> rely oguar i x y ->
  OJ y /\ rtc (rely guarI i) (nproj x) (nproj y) /\ x.2.2 `prefix_of` y.2.2 /\
  (ow_owner y.1 = ow_owner x.1 \/
   ow_owner x.1 = None /\ exists o j, j <> i /\ ow_owner y.1 = Some o /\ belongs y.2.2 o j).
Proof.
  intros Hi (j & Hj & HJ & H). split; [done|].
  assert (Hsame : nproj y = nproj x -> rtc (rely guarI i) (nproj x) (nproj y) /\ x.2.2 `prefix_of` y.2.2).
  { intros E. rewrite E. split; [done|]. injection E as _ E'. by rewrite E'. }
  destruct j as [|j].
  - destruct H as (_ & _ & Eo & En). destruct (Hsame En). auto.
  - destruct H as [(Hg & _ & _ & Eo)|[(Eo & _ & _ & En & o & Ey & Hb)|(o & Ex & Ey & _ & En & _)]].
    + split; [|split; [|by left]].
      * apply rtc_once. by exists (S j).
      * destruct Hg as (_ & l & E & _). by exists l.
    + destruct (Hsame En). split_and!; auto. right. split; [done|]. eauto.
    + destruct (Hsame En). split_and!; auto. left. congruence.
Qed.

(** A thread that has not used the handle yet. *)
Definition fresh_thread (i : nat) (ids : list Z) (x : ost) : Prop :=
  OJ x /\ iaI i ids (nproj x) /\ forall o, ow_owner x.1 = Some o -> ~ belongs x.2.2 o i.

Lemma fresh_stable i ids : i <> O -> stable oguar i (fresh_thread i ids).
Proof.
  intros Hi x y (HJ & Ha & Hn) Hxy. destruct (orely_ids i x y Hi Hxy) as (HJ' & Hr & Hp & Ho).
  split; [done|]. split; [eapply stable_rtc; [apply ia_stable|exact Ha|exact Hr]|].
  intros o Eo Hb. destruct Ho as [E|(_ & o' & j & Hj & E & Hb')].
  - rewrite E in Eo. apply (Hn o Eo). destruct HJ as (_ & _ & Hw). rewrite Eo in Hw. destruct Hw as [i' Hw].
    by rewrite (belongs_fun _ _ _ _ Hb (belongs_prefix _ _ _ _ Hp Hw)).
  - rewrite E in Eo. simplify_eq. by destruct (belongs_fun _ _ _ _ Hb Hb').
Qed.

(** The owner. *)
Definition owner_thread_is (i : nat) (tok : Z) (x : ost) : Prop :=
  OJ x /\ iaI i [tok] (nproj x) /\ ow_owner x.1 = Some tok.

Lemma owner_belongs i tok x : owner_thread_is i tok x -> belongs x.2.2 tok i.
Proof.
  intros (_ & (_ & _ & _ & H) & _). inversion H as [|? ? [H1 H2] _]; subst. by split.
Qed.

(** Whoever owns the handle has the producer's side of the ring to itself. *)
Lemma orely_owner i tok x y :
  i <> O -> owner_thread_is i tok x -> rely oguar i x y ->
  owner_thread_is i tok y /\ ow_producer y.1 = ow_producer x.1 /\
  rtc (rely (guar cap base) 0) (rproj x) (rproj y).
Proof.
  intros Hi Hx Hxy. destruct (orely_ids i x y Hi Hxy) as (HJ' & Hr & Hp & Ho).
  pose proof (owner_belongs _ _ _ Hx) as Hb. destruct Hx as (HJ & Ha & Eo). split.
  - split; [done|]. split; [eapply stable_rtc; [apply ia_stable|exact Ha|exact Hr]|].
    destruct Ho as [E|[E _]]; congruence.
  - destruct Hxy as (j & Hj & _ & H). destruct j as [|j].
    + destruct H as (Hg & E & _). split; [done|]. apply rtc_once. by exists 1%nat.
    + destruct H as [(_ & -> & E & _)|[(E & _)|(o & E & _ & Hb' & _)]]; [done|congruence|].
      rewrite Eo in E. simplify_eq. by destruct (belongs_fun _ _ _ _ Hb Hb').
Qed.

(** Between two operations of the owner. *)
Definition holds (i : nat) (tok : Z) (hist : list T) (x : ost) : Prop :=
  owner_thread_is i tok x /\ exists t, pa cap base (ow_producer x.1) t hist (rproj x).

Lemma bound_stable i tok hist : i <> O -> stable oguar i (holds i tok hist).
Proof.
  intros Hi x y [Hx [t Hp]] Hxy. destruct (orely_owner i tok x y Hi Hx Hxy) as (Hy & E & Hr).
  split; [done|]. exists t. rewrite E. by eapply stable_rtc; [apply pa_stable|..].
Qed.

(** Inside an operation the owner's producer is [p]. *)
Definition inside (i : nat) (tok : Z) (p : Producer) (t : Z) (hist : list T) (x : ost) : Prop :=
  owner_thread_is i tok x /\ pa cap base p t hist (rproj x).

Lemma inside_stable i tok p t hist : i <> O -> stable oguar i (inside i tok p t hist).
Proof.
  intros Hi x y [Hx Hp] Hxy. destruct (orely_owner i tok x y Hi Hx Hxy) as (Hy & _ & Hr).
  split; [done|]. by eapply stable_rtc; [apply pa_stable|..].
Qed.

(** The operations on the ring run in the owner's thread as in YRingConc. *)
Lemma owner_embeds i tok :
  i <> O ->
  embeds (guar cap base) oguar (fun s => ow_ring s) put_ow_ring fst (fun g1 g => (g1, g.2)) 0 i
    (owner_thread_is i tok).
Proof.
  intros Hi. split.
  - intros x y Hx Hxy. destruct (orely_owner i tok x y Hi Hx Hxy) as (Hy & _ & Hr). by split.
  - intros s [g log] r g1 Hx Hg. pose proof (owner_belongs _ _ _ Hx) as Hb.
    destruct Hx as ((Hok & Hids & Hw) & Ha & Eo). cbn in Eo.
    assert (HJ' : OJ (put_ow_ring r s, (g1, log))).
    { split; [apply Hg|]. split; [done|]. cbn. rewrite Eo in *. by exists i. }
    split; [|by split_and!]. split; [done|]. destruct i as [|i]; [done|]. right. right.
    exists tok. split_and!; auto.
Qed.

(** Another thread owns the handle. *)
Definition lost (i : nat) (x : ost) : Prop :=
  OJ x /\ exists o j, ow_owner x.1 = Some o /\ belongs x.2.2 o j /\ j <> i.

Lemma lost_stable i : i <> O -> stable oguar i (lost i).
Proof.
  intros Hi x y (HJ & o & j & Eo & Hb & Hj) Hxy. destruct (orely_ids i x y Hi Hxy) as (HJ' & _ & Hp & Ho).
  split; [done|]. exists o, j. split; [|split; [by eapply belongs_prefix|done]].
  destruct Ho as [E|[E _]]; congruence.
Qed.

(** Taking a token. *)
Lemma token_embeds i :
  i <> O ->
  embeds guarI oguar ow_next_token put_ow_next snd (fun log g => (g.1, log)) i i
    (fun x => OJ x /\ forall o, ow_owner x.1 = Some o -> ~ belongs x.2.2 o i).
Proof.
  intros Hi.
  assert (Hkeep : forall x log' o j, OJ x -> ow_owner x.1 = Some o -> x.2.2 `prefix_of` log' ->
    belongs log' o j -> belongs x.2.2 o j).
  { intros x log' o j (_ & _ & Hw) Eo Hp Hb. rewrite Eo in Hw. destruct Hw as [i' Hw].
    by rewrite (belongs_fun _ _ _ _ Hb (belongs_prefix _ _ _ _ Hp Hw)). }
  split.
  - intros x y [HJ Hn] Hxy. destruct (orely_ids i x y Hi Hxy) as (HJ' & Hr & Hp & Ho).
    split; [|exact Hr]. split; [done|]. intros o Eo Hb. destruct Ho as [E|(_ & o' & j & Hj & E & Hb')].
    + rewrite E in Eo. eapply Hn; [exact Eo|]. by eapply Hkeep.
    + rewrite E in Eo. simplify_eq. by destruct (belongs_fun _ _ _ _ Hb Hb').
  - intros s [g log] n log' [HJ Hn] Hg. pose proof Hg as (Hok' & l & E & Hl). cbn in E.
    assert (Hp : log `prefix_of` log') by (by exists l).
    pose proof HJ as (Hok & _ & Hw).
    assert (HJ' : OJ (put_ow_next n s, (g, log'))).
    { split; [done|]. split; [exact Hok'|]. cbn in *. destruct (ow_owner s); [|done].
      destruct Hw as [j Hw]. exists j. by eapply belongs_prefix. }
    split; [split; [exact HJ'|]|].
    + destruct i as [|i]; [done|]. left. split_and!; auto.
    + split; [done|]. intros o Eo Hb. eapply Hn; [exact Eo|]. by eapply (Hkeep (s, (g, log))).
Qed.

Lemma wp_token i spurious x :
  i <> O -> n0 + total quota <= usize_max -> (0 < nth i quota 0)%nat -> total quota < attempts spurious ->
  fresh_thread i [] x ->
  wp oguar i (lift ow_next_token put_ow_next (allocate_thread_token spurious))
    (fun tok => fresh_thread i [tok]) x.
Proof.
  intros Hi Hmax Hq Hs (HJ & Ha & Hn).
  eapply wp_mono; [|eapply (wp_embed _ _ ow_next_token put_ow_next snd (fun log g => (g.1, log)));
    [done|done|by apply token_embeds|by split|by apply (wp_allocate n0 quota i _ _ [])]].
  intros tok y (Hy & HJ' & Hn'). by split_and!.
Qed.

(** The first use of the handle takes it or panics. *)
Lemma wp_claim {B} i tok (k : Z -> prog (OwnerState T) B) Q x :
  i <> O -> fresh_thread i [tok] x ->
  (forall y, holds i tok [] y -> wp oguar i (k tok) Q y) ->
  (forall o y, o <> tok -> lost i y -> wp oguar i (k o) Q y) ->
  wp oguar i (bind (owner_get_or_init tok) k) Q x.
Proof.
  intros Hi Hx H1 H2. eapply wp_act; [by apply fresh_stable|exact Hx|]. clear x Hx.
  intros s [g log] (HJ & Ha & Hn). pose proof HJ as (Hok & Hids & Hw). cbn in Hw, Hn.
  assert (Hb : belongs log tok i).
  { destruct Ha as (_ & _ & _ & H). inversion H as [|? ? [? ?] _]; subst. by split. }
  destruct (ow_owner s) as [o|] eqn:Eo; cbn [fst snd].
  - exists (g, log). assert (Hg : oguar i (s, (g, log)) (s, (g, log))).
    { split; [done|]. destruct i as [|i]; [done|]. left. split_and!; auto. by apply ids_refl. }
    split; [exact Hg|]. destruct Hw as [j Hw]. apply H2.
    + intros ->. by apply (Hn tok).
    + split; [done|]. exists o, j. split_and!; auto. intros ->. by apply (Hn o).
  - exists (g, log). assert (HJ' : OJ (set_ow_owner (Some tok) s, (g, log))).
    { split; [done|]. split; [done|]. by exists i. }
    split.
    + split; [done|]. destruct i as [|i]; [done|]. right. left. split_and!; auto. by exists tok.
    + apply H1. split; [by split_and!|]. by exists 0.
Qed.

(** Later uses by the owner. *)
Lemma wp_reclaim {B} i tok hist (k : Z -> prog (OwnerState T) B) Q x :
  i <> O -> holds i tok hist x -> (forall y, holds i tok hist y -> wp oguar i (k tok) Q y) ->
  wp oguar i (bind (owner_get_or_init tok) k) Q x.
Proof.
  intros Hi Hx Hk. eapply wp_act; [by apply bound_stable|exact Hx|]. clear x Hx.
  intros s [g log] Hx. pose proof Hx as ((HJ & Ha & Eo) & _). cbn in Eo. rewrite Eo. cbn [fst snd].
  exists (g, log). split; [|by apply Hk]. split; [done|]. destruct i as [|i]; [done|].
  left. split_and!; auto. apply ids_refl, HJ.
Qed.

(** One operation on the producer by its owner. *)
Lemma wp_operate {R} i tok hist (f : Producer -> prog (Ring T) (R * Producer)) (acc : R -> list T) x :
  i <> O ->
  (forall p t hist x, pa cap base p t hist x -> wp (guar cap base) 0 (f p) (fun '(r, p') y => exists t',
     pa cap base p' t' (hist ++ acc r) y) x) ->
  holds i tok hist x ->
  wp oguar i (let* p := load ow_producer in
              let* '(r, p) := lift ow_ring put_ow_ring (f p) in
              let* _ := store (set_ow_producer p) in
              Ret (r, tok)) (fun '(r, tok') y => tok' = tok /\ holds i tok (hist ++ acc r) y) x.
Proof.
  intros Hi Hf Hx. eapply wp_act; [by apply bound_stable|exact Hx|]. clear x Hx.
  intros s g Hx. cbn [fst snd]. pose proof Hx as ((HJ & Ha & Eo) & t & Hp). exists g. split.
  { split; [done|]. destruct i as [|i]; [done|]. left. split_and!; auto. apply ids_refl, HJ. }
  eapply wp_call.
  { eapply (wp_embed _ _ (fun s => ow_ring s) put_ow_ring fst (fun g1 g => (g1, g.2)));
      [done|done|by apply owner_embeds|apply Hx|eapply Hf, Hp]. }
  clear s g Hx HJ Ha Eo t Hp. intros [r p] x [[t Hp] Hx].
  eapply wp_act; [by apply (inside_stable i tok p t (hist ++ acc r))|by split|]. clear x Hp Hx.
  intros s g [Hx Hp]. cbn [fst snd]. pose proof (owner_belongs _ _ _ Hx) as Hb.
  pose proof Hx as ((Hok & Hids & Hw) & Ha & Eo). cbn in Eo. exists g.
  assert (HJ' : OJ (set_ow_producer p s, g)).
  { split; [done|]. split; [done|]. cbn in *. by rewrite Eo in *. }
  split.
  - split; [done|]. destruct i as [|i]; [done|]. right. right. exists tok. split_and!; auto.
    by apply guar_0_refl.
  - eapply wp_retP; [by apply (bound_stable i tok (hist ++ acc r))| |by split]. split; [by split_and!|]. by exists t.
Qed.

(** A thread between two operations: it has not used the handle, or owns it. *)
Definition between (i : nat) (tok : Z) (vs : list T) (x : ost) : Prop :=
  tok = 0 /\ vs = [] /\ fresh_thread i [] x \/ tok <> 0 /\ holds i tok vs x.

Definition owner_panic : fault := Panic "ProducerOwner accessed from multiple producer threads".

(** What an operation of such a thread ends in. *)
Definition used (i : nat) {R} (acc : R -> list T) (vs : list T) (r : result (R * Z) fault) (x : ost) : Prop :=
  match r with
  | Ok (r, tok) => tok <> 0 /\ holds i tok (vs ++ acc r) x
  | Err e => e = owner_panic /\ vs = [] /\ lost i x
  end.

Context (n0_pos : 0 < n0) (enough : n0 + total quota <= usize_max).

Lemma fresh_token i tok x : fresh_thread i [tok] x -> tok <> 0.
Proof. intros (_ & (_ & _ & _ & H) & _). inversion H as [|? ? [? ?] _]; subst. lia. Qed.

Lemma wp_with_producer {R} i tok vs spurious (f : Producer -> prog (Ring T) (R * Producer)) (acc : R -> list T) x :
  i <> O -> (0 < nth i quota 0)%nat -> total quota < attempts spurious ->
  (forall p t hist x, pa cap base p t hist x -> wp (guar cap base) 0 (f p) (fun '(r, p') y => exists t',
     pa cap base p' t' (hist ++ acc r) y) x) ->
  between i tok vs x ->
  wp oguar i (catch (ProducerOwner_with_producer f tok spurious)) (used i acc vs) x.
Proof.
  intros Hi Hq Hs Hf Hx. unfold ProducerOwner_with_producer, current_thread_token.
  destruct Hx as [(-> & -> & Hx)|[Hne Hx]].
  - cbn [negb Z.eqb]. apply wp_catch_bind, wp_catch.
    eapply wp_call; [by apply wp_token|]. clear x Hx. intros t x Hx.
    pose proof (fresh_token _ _ _ Hx) as Hne.
    eapply wp_retP; [by apply fresh_stable|exact Hx|]. clear x Hx. intros x Hx. cbv beta iota zeta.
    change (catch (bind (owner_get_or_init t) ?k)) with (bind (owner_get_or_init (T := T) t) (fun o => catch (k o))).
    eapply wp_claim; [done|exact Hx|..]; clear x Hx.
    + intros x Hx. rewrite Z.eqb_refl. cbn [negb]. apply wp_catch.
      eapply wp_mono; [|eapply wp_operate; [done|exact Hf|exact Hx]]. intros [r tok'] y [-> Hy]. by split.
    + intros o x Ho Hx. destruct (Z.eqb_spec o t); [done|]. cbn [negb catch].
      eapply wp_retP; [by apply lost_stable|exact Hx|]. intros y Hy. by split_and!.
  - destruct (Z.eqb_spec tok 0); [done|]. cbn [negb bind].
    change (catch (bind (owner_get_or_init tok) ?k)) with (bind (owner_get_or_init (T := T) tok) (fun o => catch (k o))).
    eapply wp_reclaim; [done|exact Hx|]. clear x Hx. intros x Hx. rewrite Z.eqb_refl. cbn [negb].
    apply wp_catch. eapply wp_mono; [|eapply wp_operate; [done|exact Hf|exact Hx]]. intros [r tok'] y [-> Hy]. by split.
Qed.

(** The operations of the handle. *)
Lemma wp_exec_owner i cmd tok vs spurious x :
  i <> O -> (0 < nth i quota 0)%nat -> total quota < attempts spurious -> between i tok vs x ->
  wp oguar i (catch (exec_owner cmd tok spurious)) (used i (fun ws => ws) vs) x.
Proof.
  intros Hi Hq Hs Hx.
  assert (Hret : forall R (acc : R -> list T) (ws : R -> list T) q,
    (forall r, ws r = acc r) ->
    wp oguar i (catch q) (used i acc vs) x ->
    wp oguar i (catch (let* '(r, tok) := q in Ret (ws r, tok))) (used i (fun ws => ws) vs) x).
  { intros R acc ws q E Hq'. apply wp_catch_bind. eapply wp_mono; [|exact Hq'].
    intros [[r tok']|e] y Hy; [|exact Hy]. destruct Hy as [Hne Hy].
    eapply wp_retP; [by apply bound_stable|exact Hy|]. cbn. rewrite E. by split. }
  destruct cmd as [v|v| | |]; cbn [exec_owner].
  - apply (Hret _ (fun r => if is_ok r then [v] else []) (fun r => if is_ok r then [v] else [])); [done|].
    apply wp_with_producer; auto. intros p t hist y Hy. eapply wp_mono; [|eapply wp_push, Hy].
    intros [[[]|w] p'] z Hz; exists t; [done|]. destruct Hz as [_ Hz]. by rewrite app_nil_r.
  - apply (Hret _ (fun r => if is_ok r then [v] else []) (fun r => if is_ok r then [v] else [])); [done|].
    apply wp_with_producer; auto. intros p t hist y Hy. eapply wp_call; [eapply wp_push, Hy|].
    intros [[[]|w] p'] z Hz; cbn [is_ok when].
    + eapply wp_call; [eapply wp_flush, Hz|]. intros u w Hw. eapply wp_retP; [apply pa_owned|exact Hw|]. eauto.
    + destruct Hz as [_ Hz]. eapply wp_retP; [apply pa_owned|exact Hz|]. rewrite app_nil_r. eauto.
  - apply (Hret _ (fun _ => []) (fun _ => [])); [done|].
    apply wp_with_producer; auto. intros p t hist y Hy. eapply wp_call; [eapply wp_flush, Hy|]. intros u z Hz.
    eapply wp_retP; [apply pa_owned|exact Hz|]. rewrite app_nil_r. eauto.
  - apply (Hret _ (fun _ => []) (fun _ => [])); [done|].
    apply wp_with_producer; auto. intros p t hist y Hy. eapply wp_mono; [|eapply wp_is_full, Hy].
    intros [b p'] z Hz. rewrite app_nil_r. eauto.
  - apply (Hret _ (fun _ => []) (fun _ => [])); [done|].
    apply wp_with_producer; auto. intros p t hist y Hy. eapply wp_load; [apply pa_owned|exact Hy|]. intros r g Hz.
    eapply wp_retP; [apply pa_owned|exact Hz|]. rewrite app_nil_r. eauto.
Qed.

(** A finished thread: it owns the handle, or it panicked with nothing pushed,
    or it never used it. *)
Definition thread_post (i : nat) (used_it : bool) (r : result (list T) fault) (x : ost) : Prop :=
  match r with
  | Ok vs => (exists tok, holds i tok vs x) \/ used_it = false /\ vs = [] /\ fresh_thread i [] x
  | Err e => used_it = true /\ e = owner_panic /\ lost i x
  end.

Lemma wp_owner_thread i cmds : forall tok vs x,
  i <> O -> (0 < nth i quota 0)%nat -> Forall (fun c => total quota < attempts c.2) cmds ->
  between i tok vs x ->
  wp oguar i (catch (owner_thread cmds tok vs))
    (fun r y => thread_post i (negb (bool_decide (cmds = [])) || negb (tok =? 0)) r y) x.
Proof.
  induction cmds as [|[cmd sp] cmds IH]; intros tok vs x Hi Hq Hs Hx; cbn [owner_thread].
  - destruct Hx as [(-> & -> & Hx)|[Hne Hx]].
    + eapply wp_retP; [by apply fresh_stable|exact Hx|]. intros y Hy. right. by split_and!.
    + eapply wp_retP; [by apply bound_stable|exact Hx|]. intros y Hy. left. by exists tok.
  - apply Forall_cons in Hs as [Hs1 Hs]. apply wp_catch_bind.
    eapply wp_mono; [|by apply wp_exec_owner]. intros [[ws tok']|e] y Hy; cbn in Hy.
    + destruct Hy as [Hne Hy]. eapply wp_mono; [|apply (IH tok'); [done|done|done|by right]].
      intros r z Hz. destruct r as [vs'|e]; [|by destruct Hz as (_ & Hz)]. destruct Hz as [Hz|(E & _)]; [by left|].
      destruct (Z.eqb_spec tok' 0); [done|]. cbn in E. by rewrite orb_true_r in E.
    + destruct Hy as (-> & _ & Hy). by split_and!.
Qed.

End exclusive.

(** ** The theorem *)

Section theorem.
Context {T Adm : Type}.
#[local] Abbreviation thread_result := (list T + result (list T) fault)%type.

(** The consumer's operations, and the values it got. *)
Definition owner_consumer (ccmds : list (spsc_cmd T Adm)) (p : Producer) (c : Consumer)
    : prog (OwnerState T) thread_result :=
  let* '(os, _, _) := lift (fun s => ow_ring s) put_ow_ring (exec_cmds ccmds p c) in
  Ret (inl (delivered ccmds os)).

(** A thread that uses the handle; a panic ends that thread only. *)
Definition owner_user (cmds : list (owner_cmd T * list bool)) : prog (OwnerState T) thread_result :=
  let* r := catch (owner_thread cmds 0 []) in Ret (inr r).

Definition owner_pool (ccmds : list (spsc_cmd T Adm)) (scripts : list (list (owner_cmd T * list bool)))
    (p : Producer) (c : Consumer) : list (prog (OwnerState T) thread_result) :=
  owner_consumer ccmds p c :: (owner_user <$> scripts).

(** One token per thread that uses the handle, none for the consumer. *)
Definition tokens (n : nat) : list nat := O :: replicate n 1%nat.

Lemma sum_ones n : sum_list (replicate n 1%nat) = n.
Proof. induction n as [|n IH]; [done|]. change (1 + sum_list (replicate n 1%nat) = S n)%nat. lia. Qed.

Lemma tokens_total n : total (tokens n) = Z.of_nat n.
Proof. unfold total, tokens. change (sum_list (0%nat :: replicate n 1%nat)) with (0 + sum_list (replicate n 1%nat))%nat. by rewrite sum_ones. Qed.

Definition owner_post (cap n0 : Z) (scripts : list (list (owner_cmd T * list bool))) (i : nat)
    (a : thread_result) (x : ost (T := T)) : Prop :=
  match i with
  | O => exists c ct ph h got, a = inl got /\ ca cap 0 c ct ph h got (rproj x) /\ OJ cap 0 n0 (tokens (length scripts)) x
  | S k => exists r sc, a = inr r /\ scripts !! k = Some sc /\
             thread_post cap 0 n0 (tokens (length scripts)) i (negb (bool_decide (sc = []))) r x
  end.

Lemma consumer_embeds cap n0 q :
  embeds (guar cap 0) (oguar (T := T) cap 0 n0 q) (fun s => ow_ring s) put_ow_ring fst (fun g1 g => (g1, g.2)) 1 0
    (OJ cap 0 n0 q).
Proof.
  split.
  - intros x y _ Hxy. destruct (orely_consumer _ _ _ _ _ _ Hxy). by split.
  - intros s [g log] r g1 (Hok & Hids & Hw) Hg.
    assert (HJ' : OJ cap 0 n0 q (put_ow_ring r s, (g1, log))).
    { split; [apply Hg|]. split; [done|]. cbn in *. destruct (ow_owner s); [done|].
      eapply (pa_stable cap 0); [exact Hw|]. by exists 1%nat. }
    split; [|done]. by split_and!.
Qed.

Lemma owner_pool_wp capacity ccmds scripts n0 :
  0 < capacity <= 2 ^ 62 -> Forall (fun cmd => is_consumer_cmd cmd = true /\ cmd_ok cmd) ccmds ->
  0 < n0 -> n0 + zlength scripts <= usize_max ->
  Forall (Forall (fun c => zlength scripts < attempts c.2)) scripts ->
  exists cap ring p c, spsc capacity = Done (ring, p, c) /\
    pool_wp (oguar cap 0 n0 (tokens (length scripts))) (owner_post cap n0 scripts) (owner_pool ccmds scripts p c)
      (ProducerOwner_new ring p n0, (mkGhost 0 0 0 [], [])).
Proof.
  intros Hcap Hc Hn0 Hmax Hs. destruct (spsc_init_rep_at (T := T) capacity 0 Hcap ltac:(usize))
    as (cap & ring & Hv & _ & _ & E & H). specialize (E eq_refl).
  exists cap, ring, (mkProducer 0 0), (mkConsumer 0 0). split; [done|].
  pose proof (rep_ok _ _ _ _ _ _ _ _ H) as Hok. cbn in Hok. pose proof (valid_cap_range _ Hv).
  assert (HJ : OJ cap 0 n0 (tokens (length scripts)) (ProducerOwner_new ring (mkProducer 0 0) n0, (mkGhost 0 0 0 [], []))).
  { split; [done|]. split; [split; [cbn; rewrite zlength_nil; lia|intros i; cbn; lia]|].
    cbn. split_and!; auto. exists 0. cbn. split_and!; auto; unfold zlength; simpl; lia. }
  pose proof (tokens_total (length scripts)) as Ht. fold (zlength scripts) in Ht.
  intros [|i] q Hq.
  - cbn in Hq. simplify_eq. eapply wp_call.
    { eapply (wp_embed _ _ (fun s => ow_ring s) put_ow_ring fst (fun g1 g => (g1, g.2)));
        [done|done|apply consumer_embeds|exact HJ|].
      eapply (wp_consumer_cmds cap 0 ccmds _ _ 0 0 0 []); [done|]. split_and!; auto; cbn; lia. }
    intros [[os p'] c'] y [(ct & ph & h & Hy) HJ'].
    eapply (wp_retP _ _ (fun y => OJ cap 0 n0 (tokens (length scripts)) y /\ ca cap 0 c' ct ph h (delivered ccmds os) (rproj y))).
    + eapply (embeds_stable _ _ _ _ _ _ _ _ _ _ (consumer_embeds cap n0 _) (ca_stable _ _ _ _ _ _ _)).
    + by split.
    + intros z [Hz1 Hz2]. by exists c', ct, ph, h, (delivered ccmds os).
  - change ((owner_user <$> scripts) !! i = Some q) in Hq. rewrite list_lookup_fmap in Hq.
    destruct (scripts !! i) as [sc|] eqn:Ei; [|done]. injection Hq as <-.
    assert (Hlt : (i < length scripts)%nat) by (by eapply lookup_lt_Some).
    eapply wp_call.
    { apply (wp_owner_thread cap 0 n0 (tokens (length scripts))); [done|lia|done| | |].
      - cbn. rewrite nth_lookup, lookup_replicate_2 by done. cbn. lia.
      - rewrite Ht. by eapply Forall_lookup_1 in Hs.
      - left. split_and!; [done..|]. split; [done|]. split; [|done]. split_and!; [apply HJ|done|constructor|done]. }
    cbn. intros r y Hy. rewrite orb_false_r in Hy.
    assert (Hst : stable (oguar cap 0 n0 (tokens (length scripts))) (S i)
      (thread_post cap 0 n0 (tokens (length scripts)) (S i) (negb (bool_decide (sc = []))) r)).
    { intros z w Hz Hzw. destruct r as [vs|e].
      - destruct Hz as [(tok & Hz)|(E1 & E2 & Hz)]; [left; exists tok; by eapply bound_stable|].
        right. split_and!; auto. by eapply fresh_stable.
      - destruct Hz as (E1 & E2 & Hz). split_and!; auto. by eapply lost_stable. }
    eapply wp_retP; [exact Hst|exact Hy|]. intros z Hz. by exists r, sc.
Qed.

(** What a thread that uses the handle ends with, given who owns it. *)
Definition owner_result (owner : option nat) (vs : list T) (i : nat) (sc : list (owner_cmd T * list bool))
    : result (list T) fault :=
  if decide (owner = Some i) then Ok vs
  else match sc with [] => Ok [] | _ => Err owner_panic end.

(** The threads' postconditions agree on one owner. *)
Lemma posts_agree cap n0 scripts (rs : list (result (list T) fault)) x :
  length rs = length scripts -> OJ cap 0 n0 (tokens (length scripts)) x ->
  (forall i r sc, rs !! i = Some r -> scripts !! i = Some sc ->
     thread_post cap 0 n0 (tokens (length scripts)) (S i) (negb (bool_decide (sc = []))) r x) ->
  exists owner vs, g_hist x.2.1 = vs /\ (owner = None -> Forall (fun sc => sc = []) scripts /\ vs = []) /\
    forall i sc, scripts !! i = Some sc -> rs !! i = Some (owner_result owner vs i sc).
Proof.
  intros Hlen HJ Hpost. pose proof HJ as (Hok & Hids & Hw).
  assert (Hr : forall i sc, scripts !! i = Some sc -> exists r, rs !! i = Some r).
  { intros i sc Hi. apply lookup_lt_is_Some. rewrite Hlen. by eapply lookup_lt_Some. }
  destruct (ow_owner x.1) as [o|] eqn:Eo.
  - destruct Hw as [j Hb].
    assert (Hj : exists i0, j = S i0 /\ (i0 < length scripts)%nat).
    { destruct Hids as [_ Hq]. specialize (Hq j). destruct Hb as [_ Hb]. cbn [nproj snd] in Hb, Hq.
      assert (1 <= taken j x.2.2)%nat.
      { unfold taken. apply list_elem_of_lookup_2 in Hb.
        assert (j ∈ filter (fun k => k = j) x.2.2) as Hf by (by apply list_elem_of_filter).
        destruct (filter _ _); [by apply elem_of_nil in Hf|cbn; lia]. }
      unfold tokens in Hq. destruct j as [|i0]; cbn [nth] in Hq; [lia|]. exists i0. split; [done|].
      destruct (decide (i0 < length scripts)%nat) as [|Hge]; [done|].
      rewrite nth_lookup, lookup_ge_None_2 in Hq by (rewrite length_replicate; lia). cbn [default from_option] in Hq. lia. }
    destruct Hj as (i0 & -> & Hlt). destruct (lookup_lt_is_Some_2 scripts i0 Hlt) as [sc0 Hsc0].
    destruct (Hr _ _ Hsc0) as [r0 Hr0].
    exists (Some i0), (g_hist x.2.1). split; [done|]. split; [done|]. intros i sc Hi.
    destruct (Hr _ _ Hi) as [r Hri]. rewrite Hri. f_equal. pose proof (Hpost _ _ _ Hri Hi) as Hp.
    unfold owner_result. destruct r as [vs|e]; cbn in Hp.
    + destruct Hp as [(tok & Hh & t & Hpa)|(E & -> & Hf)].
      * pose proof (owner_belongs _ _ _ _ _ _ _ Hh) as Hb'. destruct Hh as (_ & _ & Eo'). rewrite Eo in Eo'. simplify_eq.
        pose proof (belongs_fun _ _ _ _ _ Hb Hb') as E. simplify_eq. rewrite decide_True by done.
        destruct Hpa as (_ & _ & Hh & _). by rewrite <- Hh.
      * destruct (decide (Some i0 = Some i)) as [Heq|_].
        -- simplify_eq. destruct Hf as (_ & _ & Hn). by destruct (Hn o Eo).
        -- apply negb_false_iff, bool_decide_eq_true in E. by subst sc.
    + destruct Hp as (E & -> & _ & o' & j' & Eo' & Hb' & Hne). rewrite Eo in Eo'. simplify_eq.
      pose proof (belongs_fun _ _ _ _ _ Hb Hb') as <-. rewrite decide_False by congruence.
      apply negb_true_iff, bool_decide_eq_false in E. by destruct sc.
  - exists None, []. destruct Hw as (_ & _ & Hh & _). split; [done|].
    assert (Hall : forall i r sc, rs !! i = Some r -> scripts !! i = Some sc -> sc = [] /\ r = Ok []).
    { intros i r sc Hri Hi. pose proof (Hpost _ _ _ Hri Hi) as Hp. destruct r as [vs|e]; cbn in Hp.
      - destruct Hp as [(tok & (_ & _ & Eo') & _)|(E & -> & _)]; [congruence|].
        apply negb_false_iff, bool_decide_eq_true in E. by split.
      - destruct Hp as (_ & _ & _ & o' & j' & Eo' & _). congruence. }
    split.
    + intros _. split; [|done]. apply Forall_lookup_2. intros i sc Hi. destruct (Hr _ _ Hi) as [r Hri]. by eapply Hall.
    + intros i sc Hi. destruct (Hr _ _ Hi) as [r Hri]. destruct (Hall _ _ _ Hri Hi) as [-> ->]. done.
Qed.

(** C26: a producer handle shared by any number of threads.  In every
    interleaving of their calls with the consumer, including the allocation of
    thread tokens with spurious exchange failures, nothing gets stuck; at the
    end exactly one of the threads that used the handle got its results and
    every other one panicked before touching the ring, and the consumer
    received a prefix of what the owner pushed. *)
Theorem producer_owner_exclusive (capacity n0 : Z) (ccmds : list (spsc_cmd T Adm))
    (scripts : list (list (owner_cmd T * list bool))) :
  0 < capacity <= 2 ^ 62 -> Forall (fun cmd => is_consumer_cmd cmd = true /\ cmd_ok cmd) ccmds ->
  0 < n0 -> n0 + zlength scripts <= usize_max ->
  Forall (Forall (fun c => zlength scripts < attempts c.2)) scripts ->
  exists ring p c, spsc capacity = Done (ring, p, c) /\
    Acc (flip pstep) (ProducerOwner_new ring p n0, owner_pool ccmds scripts p c) /\
    forall s ps, rtc pstep (ProducerOwner_new ring p n0, owner_pool ccmds scripts p c) (s, ps) ->
      (exists c', pstep (s, ps) c') \/
      exists got rs owner vs, ps = Ret (inl got) :: ((fun r => Ret (inr r)) <$> rs) /\
        got `prefix_of` vs /\ (owner = None -> Forall (fun sc => sc = []) scripts /\ vs = []) /\
        forall i sc, scripts !! i = Some sc -> rs !! i = Some (owner_result owner vs i sc).
Proof.
  intros Hcap Hc Hn0 Hmax Hs.
  destruct (owner_pool_wp capacity ccmds scripts n0 Hcap Hc Hn0 Hmax Hs) as (cap & ring & p & c & E & HW).
  exists ring, p, c. split; [done|]. split; [apply pstep_terminating|]. intros s ps Hr.
  destruct (pool_sound _ _ _ _ _ _ _ HW Hr) as [g Hw].
  destruct (pool_progress _ _ _ _ Hw (s, ps) eq_refl) as [Hstep|Hfin]; [by left|right].
  destruct (finished_values _ _ Hfin) as [as_ ->].
  pose proof (pool_length _ _ Hr) as Hlen. unfold owner_pool in Hlen.
  cbn [snd length] in Hlen. rewrite !length_fmap in Hlen. destruct as_ as [|a0 as_]; [done|]. cbn [length] in Hlen.
  destruct (pool_wp_ret _ _ _ _ 0 a0 Hw eq_refl) as (c' & ct & ph & h & got & -> & Hca & HJ).
  assert (Hpost : forall i a, as_ !! i = Some a -> owner_post cap n0 scripts (S i) a (s, g)).
  { intros i a Hi. apply (pool_wp_ret _ _ _ _ (S i) _ Hw). cbn.
    change ((Ret <$> as_) !! i = Some (Ret (S := OwnerState T) a)). by rewrite list_lookup_fmap, Hi. }
  assert (Hrs : exists rs, as_ = inr <$> rs).
  { apply list_all_inr. intros i a Hi. destruct (Hpost _ _ Hi) as (r & sc & -> & _). eauto. }
  destruct Hrs as [rs ->]. rewrite !length_fmap in Hlen.
  destruct (posts_agree cap n0 scripts rs (s, g)) as (owner & vs & Hh & Hnone & Hall); [lia|done|..].
  { intros i r sc Hi Hsc. destruct (Hpost i (inr r)) as (r' & sc' & E1 & E2 & Hp).
    - by rewrite list_lookup_fmap, Hi.
    - by simplify_eq. }
  exists got, rs, owner, vs. split_and!; auto.
  - cbn. f_equal. change (Ret <$> (inr <$> rs) = (fun r => Ret (S := OwnerState T) (A := thread_result) (inr r)) <$> rs).
    by rewrite <- list_fmap_compose.
  - destruct Hca as (_ & _ & _ & Hg & _). cbn in Hg, Hh. rewrite <- Hg, Hh. apply prefix_take.
Qed.

End theorem.

(** Two threads racing for the handle, the second with a spurious failure, and
    a thread that never uses it. *)
Definition demo_owner : list (list (owner_cmd nat * list bool)) :=
  [[(OwPush 1%nat, replicate 4 false); (OwFlush, replicate 4 false)];
   [(OwPushFlush 2%nat, true :: replicate 4 false); (OwIsFull, replicate 4 false)]; []].

Lemma producer_owner_exclusive_witness :
  exists ring p c, spsc 2 = Done (ring, p, c) /\
    let ccmds := [CPrefetchPop; CPrefetch; CPop] : list (spsc_cmd nat unit) in
    Acc (flip pstep) (ProducerOwner_new ring p 1, owner_pool ccmds demo_owner p c) /\
    forall s ps, rtc pstep (ProducerOwner_new ring p 1, owner_pool ccmds demo_owner p c) (s, ps) ->
      (exists c', pstep (s, ps) c') \/
      exists got rs owner vs, ps = Ret (inl got) :: ((fun r => Ret (inr r)) <$> rs) /\
        got `prefix_of` vs /\ (owner = None -> Forall (fun sc => sc = []) demo_owner /\ vs = []) /\
        forall i sc, demo_owner !! i = Some sc -> rs !! i = Some (owner_result owner vs i sc).
Proof.
  apply (producer_owner_exclusive 2 1 [CPrefetchPop; CPrefetch; CPop] demo_owner);
    [lia|repeat constructor|lia|vm_compute; discriminate|repeat constructor].
Defined.
