(* ===== verification/Handoff.v ===== *)
(** * The SPSC ownership handoff of fanring lanes

    Models [src/src/ring.rs]: the wrapper around a yring ring that implements
    the two teardown policies.  [HRing] is the allocation both halves share:
    the yring ring, the cleanup word and the handoff slot (present in both
    policies, used only by [Coordinated]).  Values a destructor runs on are
    appended to [hr_destroyed], so ownership of payloads can be accounted for.

    The handoff mutex is not modelled as a lock: its sections are written as
    their individual accesses, so the model has more interleavings than the
    code. *)

From S2P Require Import Prelude Prog Config YRing.
Local Open Scope prog_scope.

Definition ACTIVE : Z := 1.
Definition CLOSED : Z := 2.

Section handoff.
Context {T : Type}.

Record HRing : Type := mkHRing {
  hr_ring : Ring T;
  hr_state : Z;
  hr_slot : option Consumer;
  hr_destroyed : list T
}.

Definition set_hr_ring (r : Ring T) (s : HRing) : HRing :=
  mkHRing r (hr_state s) (hr_slot s) (hr_destroyed s).
Definition set_hr_state (z : Z) (s : HRing) : HRing :=
  mkHRing (hr_ring s) z (hr_slot s) (hr_destroyed s).
Definition set_hr_slot (o : option Consumer) (s : HRing) : HRing :=
  mkHRing (hr_ring s) (hr_state s) o (hr_destroyed s).
Definition add_destroyed (v : T) (s : HRing) : HRing :=
  mkHRing (hr_ring s) (hr_state s) (hr_slot s) (hr_destroyed s ++ [v]).

Definition on_hring {A} (p : prog (Ring T) A) : prog HRing A := lift hr_ring set_hr_ring p.

(** [drop(value)]: the payload's destructor. *)
Definition destroy (v : T) : prog HRing unit := store (add_destroyed v).

Record RProducer : Type := mkRProducer { rp_inner : Producer }.
Record RConsumer : Type := mkRConsumer { rc_inner : option Consumer }.

Definition ring_spsc (capacity : Z) : outcome (HRing * RProducer * RConsumer) :=
  match spsc capacity with
  | Fault e => Fault e
  | Done (ring, producer, consumer) =>
      Done (mkHRing ring 0 None [], mkRProducer producer, mkRConsumer (Some consumer))
  end.

(** ** Disposing of unread values *)

(** The loop pops until the window is used up: as many times as the cursors
    are apart. *)
Fixpoint discard_loop (fuel : nat) (c : Consumer) : prog HRing Consumer :=
  let* '(v, c) := on_hring (Consumer_pop c) in
  match v with
  | None => Ret c
  | Some value =>
      let* _ := destroy value in
      match fuel with
      | O => Fail (Panic "out of fuel")
      | S fuel' => discard_loop fuel' c
      end
  end.

Definition discard (c : Consumer) : prog HRing Consumer :=
  let* '(_, c) := on_hring (Consumer_prefetch c) in
  discard_loop (Z.to_nat (wrapping_sub (consumer_cached_tail c) (consumer_head c))) c.

(** ** Cleanup *)

Definition Cleanup_begin : prog HRing bool :=
  atomic (fun s => if hr_state s =? 0 then (true, set_hr_state ACTIVE s) else (false, s)).

(** The consumer dropped at the end of the scope that discards it. *)
Definition discard_and_drop (c : Consumer) : prog HRing unit :=
  let* c := discard c in on_hring (Consumer_drop c).

Definition Cleanup_close (consumer : Consumer) : prog HRing unit :=
  let* _ := store (set_hr_slot (Some consumer)) in
  let* previous := swap hr_state (fun s => set_hr_state (Z.lor (hr_state s) CLOSED) s) in
  if Z.land previous ACTIVE =? 0 then
    let* consumer := swap hr_slot (set_hr_slot None) in
    match consumer with
    | Some c => discard_and_drop c
    | None => Ret tt
    end
  else Ret tt.

(** [!ACTIVE] on an 8-bit word. *)
Definition SendGuard_drop : prog HRing unit :=
  let* previous := swap hr_state (fun s => set_hr_state (Z.land (hr_state s) (255 - ACTIVE)) s) in
  if negb (Z.land previous CLOSED =? 0) then
    let* consumer := swap hr_slot (set_hr_slot None) in
    match consumer with
    | Some c => discard_and_drop c
    | None => Ret tt
    end
  else Ret tt.

(** ** The sending half *)

Definition RProducer_push_deferred (p : RProducer) (value : T) : prog HRing (result unit T * RProducer) :=
  let* '(r, p) := on_hring (Producer_push (rp_inner p) value) in Ret (r, mkRProducer p).

Definition RProducer_flush (p : RProducer) : prog HRing unit :=
  on_hring (Producer_flush (rp_inner p)).

Definition RProducer_is_full (p : RProducer) : prog HRing (bool * RProducer) :=
  let* '(b, p) := on_hring (Producer_is_full (rp_inner p)) in Ret (b, mkRProducer p).

(** [push(value)?; flush(); Ok(())]. *)
Definition push_then_flush (p : RProducer) (value : T) : prog HRing (result unit T * RProducer) :=
  let* '(r, p) := on_hring (Producer_push (rp_inner p) value) in
  match r with
  | Err v => Ret (Err v, mkRProducer p)
  | Ok _ => let* _ := on_hring (Producer_flush p) in Ret (Ok tt, mkRProducer p)
  end.

Definition RProducer_push_and_flush (pol : Teardown) (p : RProducer) (value : T)
    : prog HRing (result unit T * RProducer) :=
  if negb (COORDINATED pol) then push_then_flush p value
  else
    let* begun := Cleanup_begin in
    if negb begun then Ret (Err value, p)
    else
      let* '(r, p) := push_then_flush p value in
      let* _ := SendGuard_drop in
      Ret (r, p).

Definition RProducer_capacity : prog HRing Z := on_hring Producer_capacity.

Definition RProducer_is_consumer_dropped (pol : Teardown) : prog HRing bool :=
  if COORDINATED pol then load (fun s => negb (Z.land (hr_state s) CLOSED =? 0))
  else on_hring Producer_is_consumer_dropped.

Definition RProducer_close (p : RProducer) : prog HRing unit := on_hring (Producer_close (rp_inner p)).

(** ** The receiving half *)

Definition with_open {A} (c : RConsumer) (k : Consumer -> prog HRing A) : prog HRing A :=
  match rc_inner c with
  | Some inner => k inner
  | None => Fail (Panic "consumer is open")
  end.

Definition RConsumer_pop (c : RConsumer) : prog HRing (option T * RConsumer) :=
  with_open c (fun i => let* '(v, i) := on_hring (Consumer_pop i) in Ret (v, mkRConsumer (Some i))).

Definition RConsumer_pop_into (c : RConsumer) (output : list T) (limit : Z)
    : prog HRing (Z * list T * RConsumer) :=
  with_open c (fun i =>
    let* '(n, out, i) := on_hring (Consumer_pop_into i output limit) in Ret (n, out, mkRConsumer (Some i))).

Definition RConsumer_pop_into_while {Adm} (c : RConsumer) (output : list T) (limit : Z)
    (accepts : Adm -> T -> bool * Adm) (adm : Adm) : prog HRing (Z * list T * Adm * RConsumer) :=
  with_open c (fun i =>
    let* '(n, out, adm, i) := on_hring (Consumer_pop_into_while i output limit accepts adm) in
    Ret (n, out, adm, mkRConsumer (Some i))).

Definition RConsumer_prefetch (c : RConsumer) : prog HRing (Z * RConsumer) :=
  with_open c (fun i => let* '(n, i) := on_hring (Consumer_prefetch i) in Ret (n, mkRConsumer (Some i))).

Definition RConsumer_release (c : RConsumer) : prog HRing unit :=
  with_open c (fun i => on_hring (Consumer_release i)).

Definition RConsumer_capacity (c : RConsumer) : prog HRing Z :=
  with_open c (fun i => on_hring Consumer_capacity).

Definition RConsumer_is_disconnected (c : RConsumer) : prog HRing bool :=
  with_open c (fun i => on_hring (Consumer_is_disconnected i)).

Definition RConsumer_close (pol : Teardown) (c : RConsumer) : prog HRing RConsumer :=
  match rc_inner c with
  | None => Ret c
  | Some consumer =>
      let* _ :=
        (if COORDINATED pol then
           let* consumer := discard consumer in Cleanup_close consumer
         else
           let* _ := on_hring (Consumer_close consumer) in on_hring (Consumer_drop consumer)) in
      Ret (mkRConsumer None)
  end.

(** [impl Drop for Consumer]. *)
Definition RConsumer_drop (pol : Teardown) (c : RConsumer) : prog HRing RConsumer := RConsumer_close pol c.

End handoff.
Arguments HRing T : clear implicits.
