(* ===== verification/HandoffSeq.v ===== *)
(** * One lane ring without interference

    Sequential runs of the operations of [src/src/ring.rs] on the abstract queue
    of YRingSpec: sending under both policies, disposing of unread values,
    closing the consumer, and what is left for the last owner of the ring; and
    the ring both channels start from. *)

From S2P Require Import Prelude Prog Config YRing YRingInv YRingSpec YRingThm YRingConc YRingClose Handoff.
Local Open Scope prog_scope.

Section sequential.
Context {T : Type}.
Implicit Types (hr : HRing T) (sp : spsc_spec T).

(** A ring whose channel is open on both sides: no send is in progress and the
    receiver has not handed its consumer over. *)
Definition open_rep (hr : HRing T) (p : Producer) (c : Consumer) sp : Prop :=
  ring_rep (hr_ring hr) p c sp /\ hr_state hr = 0 /\ hr_slot hr = None.

Lemma runs_hring {A} (q : prog (Ring T) A) hr p c sp Q :
  open_rep hr p c sp ->
  (ring_rep (hr_ring hr) p c sp -> runs q (hr_ring hr) Q) ->
  runs (on_hring q) hr (fun a hr' => exists r', hr' = set_hr_ring r' hr /\ Q a r' /\
    forall p' c' sp', ring_rep r' p' c' sp' -> open_rep hr' p' c' sp').
Proof.
  intros (Hr & Hst & Hsl) H. apply runs_elim in H as (a & r' & E & HQ); [|done].
  eapply runs_intro; [|exists r'; split_and!; [reflexivity|exact HQ|done]].
  unfold on_hring. rewrite run_lift, E; try done. by intros [].
Qed.

Lemma runs_hring_plain {A} (q : prog (Ring T) A) hr Q :
  runs q (hr_ring hr) Q -> runs (on_hring q) hr (fun a hr' => exists r', hr' = set_hr_ring r' hr /\ Q a r').
Proof.
  intros H. apply runs_elim in H as (a & r' & E & HQ). eapply runs_intro; [|eauto].
  unfold on_hring. rewrite run_lift, E; try done. by intros [].
Qed.

Lemma runs_push_then_flush hr p c sp v :
  ring_rep (hr_ring hr) p c sp ->
  runs (push_then_flush (mkRProducer p) v) hr (fun '(r, p') hr' => r = (spec_push_flush v sp).1 /\
    hr_state hr' = hr_state hr /\ hr_slot hr' = hr_slot hr /\ hr_destroyed hr' = hr_destroyed hr /\
    ring_rep (hr_ring hr') (rp_inner p') c (spec_push_flush v sp).2).
Proof.
  intros H. unfold push_then_flush, spec_push_flush. cbn [rp_inner].
  eapply runs_seq; [eapply runs_hring_plain, rep_push, H|].
  intros [r p'] hr1 (r1 & -> & -> & H1). destruct (spec_push v sp) as [[[]|e] sp1]; cbn [fst snd] in *.
  - eapply runs_seq; [eapply (runs_hring_plain _ (set_hr_ring r1 hr)), runs_flush, H1|].
    intros u hr2 (r2 & -> & H2). apply runs_ret. done.
  - apply runs_ret. done.
Qed.

(** Under both policies a send on an open ring is a push and a flush. *)
Lemma runs_send pol hr p c sp v :
  open_rep hr p c sp ->
  runs (RProducer_push_and_flush pol (mkRProducer p) v) hr (fun '(r, p') hr' =>
    r = (spec_push_flush v sp).1 /\ hr_destroyed hr' = hr_destroyed hr /\ open_rep hr' (rp_inner p') c (spec_push_flush v sp).2).
Proof.
  intros (Hr & Hst & Hsl). unfold RProducer_push_and_flush. destruct (COORDINATED pol); cbn [negb].
  - apply runs_bind. eapply runs_intro; [cbn; rewrite Hst; reflexivity|]. cbn [negb].
    eapply runs_seq; [by eapply (runs_push_then_flush (set_hr_state ACTIVE hr))|].
    intros [r p'] hr1 (-> & E1 & E2 & E3 & H1). cbn in E1, E2, E3.
    apply runs_bind. eapply runs_intro; [cbn; rewrite E1; reflexivity|]. apply runs_ret.
    split; [done|]. split; [done|]. split_and!; auto. cbn. congruence.
  - eapply runs_mono; [by eapply runs_push_then_flush|].
    intros [r p'] hr1 (-> & E1 & E2 & E3 & H1). split; [done|]. split; [done|]. split_and!; auto; congruence.
Qed.

(** ** Disposing of unread values *)

Lemma rep_window_length r p c sp : ring_rep r p c sp ->
  Z.to_nat (wrapping_sub (consumer_cached_tail c) (consumer_head c)) = length (sp_window sp).
Proof.
  intros (base & ph & ch & hist & H). rep_facts H. rewrite (rep_cached_tail _ _ _ _ _ _ _ _ H), (rep_chead _ _ _ _ _ _ _ _ H).
  rewrite wrapping_sub_wrap by lia. unfold zlength. lia.
Qed.

(** What an operation that only disposes of values leaves alone. *)
Definition same_handoff hr hr' : Prop := hr_state hr' = hr_state hr /\ hr_slot hr' = hr_slot hr.

Lemma discard_loop_ok p w : forall c hr sp,
  ring_rep (hr_ring hr) p c sp -> sp_window sp = w ->
  runs (discard_loop (length w) c) hr (fun c' hr' => same_handoff hr hr' /\ hr_destroyed hr' = hr_destroyed hr ++ w /\
    exists held, ring_rep (hr_ring hr') p c' (sp_with_lists held [] (sp_published sp) (sp_pending sp) sp)).
Proof.
  induction w as [|v w IH]; intros c hr sp H Ew; cbn [discard_loop length].
  all: eapply runs_seq; [eapply runs_hring_plain, rep_pop, H|]; intros [o c'] hr1 (r1 & -> & -> & H1); unfold spec_pop in *; rewrite Ew in *; cbn [fst snd] in *.
  - apply runs_ret. split; [done|]. split; [by rewrite app_nil_r|]. exists (sp_held sp). destruct sp; cbn in *. by subst.
  - apply runs_bind. eapply runs_intro; [reflexivity|]. cbn [fst snd].
    eapply runs_mono; [eapply (IH c' (add_destroyed v (set_hr_ring r1 hr))); [exact H1|done]|].
    intros c2 hr2 (E & ED & held & H2). split; [done|]. split; [|by exists held]. rewrite ED. cbn. by rewrite <- app_assoc.
Qed.

Lemma discard_ok p c hr sp :
  ring_rep (hr_ring hr) p c sp -> sp_pending sp = [] ->
  runs (discard c) hr (fun c' hr' => same_handoff hr hr' /\ hr_destroyed hr' = hr_destroyed hr ++ sp_items sp /\
    exists sp', ring_rep (hr_ring hr') p c' sp' /\ sp_items sp' = [] /\ sp_pending sp' = []).
Proof.
  intros H Ep. unfold discard. eapply runs_seq; [eapply runs_hring_plain, rep_prefetch, H|].
  intros [n c1] hr1 (r1 & -> & _ & H1). rewrite (rep_window_length _ _ _ _ H1).
  eapply runs_mono; [by apply (discard_loop_ok p _ c1 (set_hr_ring r1 hr))|].
  intros c2 hr2 (E & ED & held & H2). split; [done|].
  assert (E1 : sp_window (spec_prefetch sp).2 = sp_items sp /\ sp_published (spec_prefetch sp).2 = [] /\ sp_pending (spec_prefetch sp).2 = []).
  { unfold sp_items. rewrite Ep, app_nil_r. unfold spec_prefetch. cbn. by destruct (sp_window sp ++ sp_published sp). }
  destruct E1 as (E1 & E2 & E3). split; [by rewrite ED, E1|]. eexists. split; [exact H2|]. by rewrite E2, E3.
Qed.

(** ** The life of a ring nobody receives from *)

Definition fresh_consumer : RConsumer := mkRConsumer (Some (mkConsumer 0 0)).

(** [vs] was sent, nothing was received and nothing destroyed. *)
Definition filled (cap : Z) (p : RProducer) (vs : list T) hr : Prop :=
  exists sp, open_rep hr (rp_inner p) (mkConsumer 0 0) sp /\ sp_cap sp = cap /\ sp_held sp = 0 /\ sp_window sp = [] /\
    sp_published sp = vs /\ sp_pending sp = [] /\ sp_consumer_dropped sp = false /\ hr_destroyed hr = [].

Lemma filled_open pol cap p vs hr : filled cap p vs hr -> run (RProducer_is_consumer_dropped pol) hr = (Done false, hr).
Proof.
  intros (sp & ((base & ph & ch & hist & H) & Es & _) & _ & _ & _ & _ & _ & Ed & _). unfold RProducer_is_consumer_dropped.
  destruct (COORDINATED pol); [cbn; by rewrite Es|]. unfold on_hring. rewrite run_lift; [|by intros []..]. cbn.
  rewrite (rep_cd _ _ _ _ _ _ _ _ H), Ed. f_equal. by destruct hr.
Qed.

Lemma filled_send pol cap p vs v hr : filled cap p vs hr -> zlength vs < cap ->
  runs (RProducer_push_and_flush pol p v) hr (fun '(r, p') hr' => r = Ok tt /\ filled cap p' (vs ++ [v]) hr').
Proof.
  intros (sp & Ho & Ec & Eh & Ew & Ep & Eq & Ed & ED) Hn. destruct p as [p].
  assert (Hf : sp_full sp = false).
  { unfold sp_full, sp_size. rewrite Ec, Eh, Ew, Ep, Eq, !(zlength_nil (A := T)). rewrite Z.geb_leb. apply Z.leb_gt. lia. }
  eapply runs_mono; [by eapply runs_send|]. unfold spec_push_flush, spec_push. rewrite Hf.
  intros [r p'] hr' (-> & ED' & Ho'). split; [done|]. eexists. split; [exact Ho'|]. cbn. rewrite Ec, Eh, Ew, Ep, Eq, Ed, ED'. by split_and!.
Qed.

(** The receiver's side is closed: a coordinated lane has destroyed the unread
    values, a deferred one keeps them for the owner of the ring. *)
Definition unread (pol : Teardown) (p : RProducer) (vs : list T) hr : Prop :=
  hr_destroyed hr = (if COORDINATED pol then vs else []) /\
  run (RProducer_is_consumer_dropped pol) hr = (Done true, hr) /\
  exists c sp, ring_rep (hr_ring hr) (rp_inner p) c sp /\ sp_held sp = 0 /\ sp_pending sp = [] /\
    sp_items sp = (if COORDINATED pol then [] else vs).


Lemma consumer_drop_ok p c hr sp :
  ring_rep (hr_ring hr) p c sp -> runs (on_hring (Consumer_drop c)) hr (fun _ hr' => same_handoff hr hr' /\ hr_destroyed hr' = hr_destroyed hr /\
    ring_rep (hr_ring hr') p c (sp_with_drops (sp_producer_dropped sp) true (spec_release sp))).
Proof. intros H. eapply runs_mono; [eapply runs_hring_plain, rep_consumer_close, H|]. by intros u hr' (r' & -> & H'). Qed.

(** An idle coordinated lane: the closing side takes the consumer back from
    the handoff slot and looks once more. *)
Lemma cleanup_close_ok p c hr sp :
  ring_rep (hr_ring hr) p c sp -> sp_pending sp = [] -> sp_items sp = [] -> hr_state hr = 0 ->
  runs (Cleanup_close c) hr (fun _ hr' => hr_state hr' = CLOSED /\ hr_destroyed hr' = hr_destroyed hr /\
    exists c' sp', ring_rep (hr_ring hr') p c' sp' /\ sp_held sp' = 0 /\ sp_pending sp' = [] /\ sp_items sp' = []).
Proof.
  intros H Ep Ei Es. unfold Cleanup_close. do 2 (apply runs_bind; eapply runs_intro; [reflexivity|]). cbn [fst snd hr_state set_hr_slot].
  rewrite Es. cbn [Z.land Z.eqb]. apply runs_bind. eapply runs_intro; [reflexivity|]. cbn [fst snd hr_slot set_hr_slot set_hr_state].
  unfold discard_and_drop. eapply runs_seq; [by eapply discard_ok|]. rewrite Ei.
  intros c1 hr1 ([Es1 _] & ED1 & sp1 & H1 & Ei1 & Ep1). eapply runs_mono; [by eapply consumer_drop_ok|].
  intros u hr2 ([Es2 _] & ED2 & H2). cbn in Es1. split; [by rewrite Es2, Es1|]. split; [rewrite ED2, ED1; apply app_nil_r|].
  by exists c1, (sp_with_drops (sp_producer_dropped sp1) true (spec_release sp1)).
Qed.

Lemma filled_close pol cap p vs hr : filled cap p vs hr ->
  runs (RConsumer_close pol fresh_consumer) hr (fun c hr' => c = mkRConsumer None /\ unread pol p vs hr').
Proof.
  intros (sp & (Ho & Es & _) & _ & Eh & Ew & Ep & Eq & _ & ED). unfold RConsumer_close, unread, RProducer_is_consumer_dropped. cbn [rc_inner fresh_consumer].
  assert (Ei : sp_items sp = vs) by (unfold sp_items; by rewrite Ew, Ep, Eq, app_nil_r).
  destruct (COORDINATED pol); apply runs_bind.
  - eapply runs_seq; [by eapply discard_ok|]. intros c1 hr1 ([Es1 _] & ED1 & sp1 & H1 & Ei1 & Ep1).
    eapply runs_mono; [eapply cleanup_close_ok; [exact H1|done|done|congruence]|]. intros u hr2 (Es2 & ED2 & H2).
    apply runs_ret. split; [done|]. split; [rewrite ED2, ED1, ED; exact Ei|]. split; [|exact H2]. cbn. by rewrite Es2.
  - eapply runs_seq; [by eapply consumer_drop_ok|]. intros u hr1 (_ & ED1 & H1). eapply runs_mono; [by eapply consumer_drop_ok|].
    intros u' hr2 (_ & ED2 & H2). apply runs_ret. split; [done|]. split; [by rewrite ED2, ED1|]. split.
    + unfold on_hring. rewrite run_lift; [|by intros []..]. destruct H2 as (base & ph & ch & hist & H2). cbn.
      rewrite (rep_cd _ _ _ _ _ _ _ _ H2). cbn. f_equal. by destruct hr2.
    + eexists _, _. split; [exact H2|]. by split_and!.
Qed.

(** The sender goes: it publishes nothing, and the ring has no owner left. *)
Lemma unread_sender_drop pol p vs hr : unread pol p vs hr ->
  runs (RProducer_close p) hr (fun _ hr1 => runs (on_hring (Producer_drop (rp_inner p))) hr1 (fun _ hr' =>
    hr_destroyed hr' = (if COORDINATED pol then vs else []) /\ exists r', run Ring_drop (hr_ring hr') = (Done (if COORDINATED pol then [] else vs), r'))).
Proof.
  intros (ED & _ & c & sp & H & Eh & Ep & Ei). assert (Hstep : forall hr sp, ring_rep (hr_ring hr) (rp_inner p) c sp ->
    runs (on_hring (Producer_close (rp_inner p))) hr (fun _ hr' => hr_destroyed hr' = hr_destroyed hr /\
      ring_rep (hr_ring hr') (rp_inner p) c (sp_with_drops true (sp_consumer_dropped sp) (spec_flush sp)))).
  { intros hr0 sp0 H0. eapply runs_mono; [eapply runs_hring_plain, rep_producer_close, H0|]. by intros u hr' (r' & -> & H'). }
  eapply runs_mono; [by apply Hstep|]. intros u hr1 [ED1 H1]. eapply runs_mono; [by apply Hstep|]. intros u' hr2 [ED2 H2].
  split; [congruence|]. pose proof (ring_drop_items _ _ _ _ H2 Eh eq_refl) as HD. apply runs_elim in HD as (vs' & r' & E & -> & _).
  exists r'. rewrite E. do 2 f_equal. rewrite <- Ei. unfold sp_items. cbn. rewrite Ep. by rewrite !app_nil_r.
Qed.

End sequential.

(** ** A ring nobody has used

    The rings of both channels start empty, open and with cursors at zero:
    [Ring::new] and [spsc] of [src/yring/src/ring.rs], through the constructor
    the channels call. *)

Section fresh.
Context {T : Type}.

Definition ghost0 : ghost T := mkGhost 0 0 0 [].
Definition unused (cap : Z) (hr : HRing T) : Prop :=
  pa cap 0 (mkProducer 0 0) 0 [] (hr_ring hr, ghost0) /\ ca cap 0 (mkConsumer 0 0) 0 0 0 [] (hr_ring hr, ghost0) /\
  ring_producer_dropped (hr_ring hr) = false /\ filled cap (mkRProducer (mkProducer 0 0)) [] hr.

Lemma ring_spsc_unused capacity : 0 < capacity <= 2 ^ 62 ->
  exists cap hr, capacity <= cap < 2 * capacity /\
    ring_spsc (T := T) capacity = Done (hr, mkRProducer (mkProducer 0 0), mkRConsumer (Some (mkConsumer 0 0))) /\ unused cap hr.
Proof.
  intros Hc. destruct (spsc_init_rep_at (T := T) capacity 0 Hc ltac:(usize)) as (cap & ring & Hv & Hr & El & E & H).
  exists cap, (mkHRing ring 0 None []). split; [done|]. unfold ring_spsc. rewrite E by done. split; [done|].
  pose proof (rep_ok _ _ _ _ _ _ _ _ H) as Hok. pose proof (rep_cursor _ _ _ _ _ _ _ _ H) as E1.
  pose proof (rep_cached_head _ _ _ _ _ _ _ _ H) as E2. pose proof (rep_chead _ _ _ _ _ _ _ _ H) as E3.
  pose proof (rep_cached_tail _ _ _ _ _ _ _ _ H) as E4. cbn in Hok, E1, E2, E3, E4. pose proof (valid_cap_range _ Hv).
  split; [|split; [|split]].
  - split_and!; cbn; auto. exists 0. cbn. split_and!; auto; unfold zlength; cbn; lia.
  - split_and!; cbn; auto; lia.
  - destruct (Ring_new_ok (T := T) capacity Hc) as (cap' & _ & _ & En). unfold spsc in E. rewrite En in E.
    specialize (E eq_refl). by injection E as <-.
  - exists (spec_init cap). split; [|by split_and!]. split; [|by split]. by exists 0, 0, 0, [].
Qed.

Lemma unused_closed cap hr : unused cap hr -> closed_ok (T := T) (hr_ring hr, ghost0).
Proof. by intros (_ & _ & E & _) H. Qed.

End fresh.
