(* ===== verification/Teardown.v ===== *)
(** * The payload-lifetime probe

    [src/examples/teardown.rs] fills a channel, drops its receiver and then its
    sender, and counts the destroyed payloads after each step.  The probe is
    generic in the two handles, so it is written here against a class of
    channels, [Probed], and its theorems against the laws of the class,
    [ProbedLaws]: each operation of a channel does to the lane rings what the
    operations of [src/src/ring.rs] do.  MpscTeardown and MpmcTeardown give the
    instances. *)

From S2P Require Import Prelude Prog Config YRing YRingInv YRingSpec YRingThm Handoff HandoffSeq.
Local Open Scope prog_scope.

Class Probed (St T Tx Rx : Type) : Type := {
  try_send : Tx -> T -> prog St (result unit (TrySendError T) * Tx);
  drop_sender : Tx -> prog St unit;
  drop_receiver : Rx -> prog St unit;
  rings : St -> list (HRing T)
}.

Class ProbedLaws (pol : Teardown) (St T Tx Rx : Type) `{Probed St T Tx Rx} : Type := {
  (** The lane rings of a channel between operations, and whether it has a receiver. *)
  chan : bool -> list (HRing T) -> St -> Prop;
  is_sender : nat -> RProducer -> Tx -> Prop;
  is_receiver : Rx -> Prop;
  chan_rings alive rs s : chan alive rs s -> rings s = rs;
  chan_send k p tx v rs s hr p' hr' :
    chan true rs s -> is_sender k p tx -> rs !! k = Some hr ->
    run (RProducer_is_consumer_dropped pol) hr = (Done false, hr) ->
    run (RProducer_push_and_flush pol p v) hr = (Done (Ok tt, p'), hr') ->
    runs (try_send tx v) s (fun r s' => r.1 = Ok tt /\ is_sender k p' r.2 /\ chan true (<[k := hr']> rs) s');
  chan_refuse k p tx v rs s hr :
    chan false rs s -> is_sender k p tx -> rs !! k = Some hr ->
    run (RProducer_is_consumer_dropped pol) hr = (Done true, hr) ->
    runs (try_send tx v) s (fun r s' => r = (Err (TrySend_Disconnected v), tx) /\ chan false rs s');
  chan_drop_receiver rx rs rs' s :
    chan true rs s -> is_receiver rx ->
    Forall2 (fun hr hr' => run (RConsumer_close pol fresh_consumer) hr = (Done (mkRConsumer None), hr')) rs rs' ->
    runs (drop_receiver rx) s (fun _ s' => chan false rs' s');
  chan_drop_sender k p tx rs s hr hr1 hr' :
    chan false rs s -> is_sender k p tx -> rs !! k = Some hr ->
    run (RProducer_close p) hr = (Done tt, hr1) -> run (on_hring (Producer_drop (rp_inner p))) hr1 = (Done tt, hr') ->
    runs (drop_sender tx) s (fun _ s' => chan false (<[k := hr']> rs) s')
}.

Section probe.
Context {St T Tx Rx : Type} `{Probed St T Tx Rx}.
#[local] Abbreviation rings := (rings (T := T) (Tx := Tx) (Rx := Rx)).

(** [for _ in .. { tx.try_send(..).unwrap(); }] *)
Fixpoint send_all (payloads : list T) (tx : Tx) : prog St Tx :=
  match payloads with
  | [] => Ret tx
  | payload :: payloads' =>
      let* '(r, tx) := try_send tx payload in
      match r with
      | Ok _ => send_all payloads' tx
      | Err _ => Fail (Panic "called `Result::unwrap()` on an `Err` value")
      end
  end.

(** The closure [build] of [channel_probe!], for a channel with any number of
    senders. *)
Fixpoint fill (scripts : list (list T)) (txs : list Tx) : prog St (list Tx) :=
  match scripts, txs with
  | payloads :: scripts', tx :: txs' =>
      let* tx := send_all payloads tx in let* txs := fill scripts' txs' in Ret (tx :: txs)
  | _, _ => Ret txs
  end.

Fixpoint drop_senders (txs : list Tx) : prog St unit :=
  match txs with
  | [] => Ret tt
  | tx :: txs' => let* _ := drop_sender tx in drop_senders txs'
  end.

(** The last reference to each ring: nobody else sees the ring any more. *)
Fixpoint drop_rings (hrs : list (HRing T)) : prog St (list (list T)) :=
  match hrs with
  | [] => Ret []
  | hr :: hrs' =>
      match run Ring_drop (hr_ring hr) with
      | (Done vs, _) => let* vss := drop_rings hrs' in Ret (vs :: vss)
      | (Fault e, _) => Fail e
      end
  end.

(** The payloads whose destructor has run, by lane; [drops] counts them. *)
Definition destroyed : prog St (list (list T)) := load (fun s => fmap (M := list) (hr_destroyed (T := T)) (rings s)).
Definition drops (d : list (list T)) : Z := zlength (concat d).

(** The payloads destroyed when the receiver is gone, and at the end. *)
Definition probe (scripts : list (list T)) (txs : list Tx) (rx : Rx) : prog St (list (list T) * list (list T)) :=
  let* txs := fill scripts txs in
  let* early := destroyed in
  if negb (drops early =? 0) then Fail (Panic "unexpected early drop")
  else
    let* _ := drop_receiver rx in
    let* at_receiver_drop := destroyed in
    let* _ := drop_senders txs in
    let* hrs := load rings in
    let* rest := drop_rings hrs in
    let at_sender_drop := zip_with app (hr_destroyed <$> hrs) rest in
    if negb (drops at_sender_drop =? drops scripts) then Fail (Panic "exactly-once destruction")
    else Ret (at_receiver_drop, at_sender_drop).

(** Sends that follow the drop of the receiver, one of each sender. *)
Fixpoint send_each (late : list T) (txs : list Tx) : prog St (list (result unit (TrySendError T))) :=
  match late, txs with
  | v :: late', tx :: txs' =>
      let* '(r, _) := try_send tx v in let* rs := send_each late' txs' in Ret (r :: rs)
  | _, _ => Ret []
  end.

Definition late_sends (scripts : list (list T)) (late : list T) (txs : list Tx) (rx : Rx) : prog St (list (result unit (TrySendError T))) :=
  let* txs := fill scripts txs in
  let* _ := drop_receiver rx in
  send_each late txs.

End probe.

(** A ring has at least the slots that were asked for. *)
Lemma fit_rounded {T} (scripts : list (list T)) (capacities caps : list Z) :
  Forall2 (fun vs c => zlength vs <= c) scripts capacities -> Forall2 (fun c cap => c <= cap < 2 * c) capacities caps ->
  Forall2 (fun vs cap => zlength vs <= cap) scripts caps.
Proof.
  intros H. revert caps. induction H as [|vs c scripts capacities Hvs _ IH]; intros caps Hc.
  - by apply Forall2_nil_inv_l in Hc as ->.
  - apply Forall2_cons_inv_l in Hc as (cap & caps' & Hc & Hcs & ->). constructor; [lia|by apply IH].
Qed.

Section laws.
Context (pol : Teardown) {St T Tx Rx : Type} {HP : Probed St T Tx Rx} {HL : ProbedLaws pol St T Tx Rx}.
Implicit Types (rs : list (HRing T)) (s : St) (scripts : list (list T)) (txs : list Tx).

(** Lane [k] holds the unread values [vs]. *)
Definition lane_filled (k : nat) (tx : Tx) (cap : Z) (vs : list T) rs : Prop :=
  exists p hr, is_sender k p tx /\ rs !! k = Some hr /\ filled cap p vs hr.

Lemma send_all_ok k cap vs : forall vs0 tx rs s,
  chan true rs s -> lane_filled k tx cap vs0 rs -> zlength (vs0 ++ vs) <= cap ->
  runs (send_all vs tx) s (fun tx' s' => exists hr', chan true (<[k := hr']> rs) s' /\ lane_filled k tx' cap (vs0 ++ vs) (<[k := hr']> rs)).
Proof.
  induction vs as [|v vs IH]; intros vs0 tx rs s Hc (p & hr & Htx & Hk & Hf) Hn; cbn [send_all].
  { apply runs_ret. exists hr. rewrite list_insert_id, app_nil_r by done. split; [done|]. by exists p, hr. }
  rewrite (cons_middle v), app_assoc in Hn |- *. pose proof (zlength_nonneg vs) as Hv. rewrite zlength_app in Hn.
  assert (Hlt : zlength vs0 < cap) by (rewrite zlength_app in Hn; change (zlength [v]) with 1 in Hn; lia).
  destruct (runs_elim _ _ _ (filled_send pol cap p vs0 v hr Hf Hlt)) as ([r p'] & hr' & E & -> & Hf').
  eapply runs_seq; [by eapply chan_send; [..|eapply filled_open|]|]. intros [r tx'] s' (Er & Htx' & Hc'). cbn in Er, Htx'. subst r.
  eapply runs_mono; [eapply (IH (vs0 ++ [v])); [exact Hc'| |by rewrite zlength_app]|].
  { exists p', hr'. split_and!; [done| |done]. apply list_lookup_insert_eq. by eapply lookup_lt_Some. }
  intros tx2 s2 (hr2 & Hc2 & Hl2). exists hr2. by rewrite list_insert_insert_eq in Hc2, Hl2.
Qed.

Lemma lane_filled_frame k tx cap vs rs rs' : (rs' !! k = rs !! k) -> lane_filled k tx cap vs rs -> lane_filled k tx cap vs rs'.
Proof. intros E (p & hr & Htx & Hk & Hf). exists p, hr. by rewrite E. Qed.

(** The lanes from [k] on. *)
Definition lanes_filled (k : nat) txs (caps : list Z) scripts rs : Prop :=
  forall i tx, txs !! i = Some tx -> exists cap vs, caps !! i = Some cap /\ scripts !! i = Some vs /\ lane_filled (k + i) tx cap vs rs.

Lemma fill_ok scripts : forall k caps txs rs s,
  chan true rs s -> length scripts = length txs -> Forall2 (fun vs cap => zlength vs <= cap) scripts caps ->
  (forall i tx, txs !! i = Some tx -> exists cap, caps !! i = Some cap /\ lane_filled (k + i) tx cap [] rs) ->
  runs (fill scripts txs) s (fun txs' s' => exists rs', chan true rs' s' /\ length txs' = length txs /\ length rs' = length rs /\
    (forall j, (j < k)%nat -> rs' !! j = rs !! j) /\ lanes_filled k txs' caps scripts rs').
Proof.
  induction scripts as [|vs scripts IH]; intros k caps [|tx txs] rs s Hc Hl HF Hlanes; try done; cbn [fill].
  { apply runs_ret. exists rs. by split_and!. }
  apply Forall2_cons_inv_l in HF as (cap & caps' & Hn & HF & ->). destruct (Hlanes 0%nat tx eq_refl) as (cap' & [= <-] & Hz).
  rewrite Nat.add_0_r in Hz. eapply runs_seq; [by eapply (send_all_ok k cap vs []); [exact Hc|..]|]. cbn [app].
  intros tx' s1 (hr1 & Hc1 & H1). eapply runs_seq.
  { eapply (IH (S k) caps' txs (<[k := hr1]> rs) s1); [exact Hc1|by injection Hl|done|]. intros i tx2 Hi.
    destruct (Hlanes (S i) tx2 Hi) as (c2 & Ec2 & H2). exists c2. split; [done|]. rewrite Nat.add_succ_comm. eapply lane_filled_frame; [|exact H2].
    apply list_lookup_insert_ne. lia. }
  intros txs' s2 (rs2 & Hc2 & L1 & L2 & Hlow & Hf). apply runs_ret. exists rs2. rewrite length_insert in L2. split; [done|].
  split; [cbn; lia|]. split; [done|]. split.
  - intros j Hj. rewrite Hlow by lia. apply list_lookup_insert_ne. lia.
  - intros [|i] tx2 Hi; cbn in Hi.
    + injection Hi as <-. exists cap, vs. rewrite Nat.add_0_r. split; [done|]. split; [done|]. eapply lane_filled_frame; [|exact H1]. apply Hlow. lia.
    + destruct (Hf i tx2 Hi) as (c2 & v2 & E1 & E2 & H2). exists c2, v2. by rewrite Nat.add_succ_comm in H2.
Qed.

(** ** Dropping the receiver *)

Definition lanes_unread (k : nat) txs scripts rs : Prop :=
  forall i tx, txs !! i = Some tx -> exists p vs hr, is_sender (k + i) p tx /\ scripts !! i = Some vs /\ rs !! (k + i)%nat = Some hr /\ unread pol p vs hr.

Lemma drop_receiver_ok txs caps scripts rx rs s :
  chan true rs s -> is_receiver rx -> length rs = length txs -> lanes_filled 0 txs caps scripts rs ->
  runs (drop_receiver rx) s (fun _ s' => exists rs', chan false rs' s' /\ length rs' = length rs /\ lanes_unread 0 txs scripts rs').
Proof.
  intros Hc Hrx Hl Hf. set (close (hr : HRing T) := run (RConsumer_close pol fresh_consumer) hr).
  assert (Hclose : forall i hr, rs !! i = Some hr -> exists p vs tx, txs !! i = Some tx /\ is_sender i p tx /\ scripts !! i = Some vs /\
    close hr = (Done (mkRConsumer None), (close hr).2) /\ unread pol p vs (close hr).2).
  { intros i hr Hi. destruct (lookup_lt_is_Some_2 txs i) as [tx Htx]; [rewrite <- Hl; by eapply lookup_lt_Some|].
    destruct (Hf i tx Htx) as (cap & vs & _ & Hvs & p & hr' & Hp & Hi' & Hfill). cbn in Hp, Hi'. rewrite Hi in Hi'. injection Hi' as <-.
    destruct (runs_elim _ _ _ (filled_close pol cap p vs hr Hfill)) as (c & hr' & E & -> & Hu).
    exists p, vs, tx. unfold close. rewrite E. by split_and!. }
  eapply runs_mono; [eapply (chan_drop_receiver rx rs ((fun hr => (close hr).2) <$> rs)); [done|done|]|].
  { apply Forall2_fmap_r, Forall2_same_length_lookup_2; [done|]. intros i hr hr' Hi Hi'. rewrite Hi in Hi'. injection Hi' as <-.
    by destruct (Hclose i hr Hi) as (p & vs & tx & _ & _ & _ & E & _). }
  intros u s' Hc'. eexists. split; [exact Hc'|]. rewrite length_fmap. split; [done|]. intros i tx Htx. cbn.
  destruct (lookup_lt_is_Some_2 rs i) as [hr Hi]; [rewrite Hl; by eapply lookup_lt_Some|].
  destruct (Hclose i hr Hi) as (p & vs & tx' & Htx' & Hp & Hvs & _ & Hu). rewrite Htx in Htx'. injection Htx' as <-.
  exists p, vs, (close hr).2. split_and!; try done. by rewrite list_lookup_fmap, Hi.
Qed.

(** ** Dropping the senders, and the rings *)

Definition gone (vs : list T) (hr : HRing T) : Prop :=
  hr_destroyed hr = (if COORDINATED pol then vs else []) /\ exists r', run Ring_drop (hr_ring hr) = (Done (if COORDINATED pol then [] else vs), r').

Lemma drop_senders_ok txs : forall k scripts rs s,
  chan false rs s -> lanes_unread k txs scripts rs ->
  runs (drop_senders txs) s (fun _ s' => exists rs', chan false rs' s' /\ length rs' = length rs /\
    (forall j, (j < k)%nat -> rs' !! j = rs !! j) /\
    forall i, (i < length txs)%nat -> exists vs hr, scripts !! i = Some vs /\ rs' !! (k + i)%nat = Some hr /\ gone vs hr).
Proof.
  induction txs as [|tx txs IH]; intros k scripts rs s Hc Hu; cbn [drop_senders].
  { apply runs_ret. exists rs. split_and!; try done. cbn. intros i Hi. lia. }
  destruct (Hu 0%nat tx eq_refl) as (p & vs & hr & Hp & Hvs & Hk & Hun). rewrite Nat.add_0_r in Hp, Hk.
  destruct (runs_elim _ _ _ (unread_sender_drop pol p vs hr Hun)) as ([] & hr1 & E1 & H1). apply runs_elim in H1 as ([] & hr2 & E2 & Hg).
  eapply runs_seq; [by eapply chan_drop_sender|]. intros u s1 Hc1.
  eapply runs_mono; [eapply (IH (S k) (drop 1 scripts)); [exact Hc1|]|].
  { intros i tx2 Hi. destruct (Hu (S i) tx2 Hi) as (p2 & vs2 & hr3 & Hp2 & Hvs2 & Hk2 & Hun2). exists p2, vs2, hr3. rewrite lookup_drop, Nat.add_succ_comm.
    split_and!; try done. rewrite list_lookup_insert_ne; [done|lia]. }
  intros u' s2 (rs2 & Hc2 & L & Hlow & Hall). rewrite length_insert in L. exists rs2. split; [done|]. split; [done|]. split.
  - intros j Hj. rewrite Hlow by lia. apply list_lookup_insert_ne. lia.
  - intros [|i] Hi; cbn in Hi.
    + exists vs, hr2. rewrite Nat.add_0_r, Hlow by lia. split; [done|]. split; [|done]. apply list_lookup_insert_eq. by eapply lookup_lt_Some.
    + destruct (Hall i) as (vs2 & hr3 & Ev & Eh & Hg2); [lia|]. exists vs2, hr3. rewrite lookup_drop in Ev. by rewrite Nat.add_succ_comm in Eh.
Qed.

Lemma drop_rings_ok scripts hrs s : Forall2 gone scripts hrs ->
  runs (drop_rings hrs) s (fun vss _ => zip_with app (hr_destroyed (T := T) <$> hrs) vss = scripts).
Proof.
  induction 1 as [|vs hr scripts hrs [ED [r' E]] _ IH]; cbn [drop_rings]; [by apply runs_ret|]. rewrite E.
  eapply runs_seq; [exact IH|]. intros vss s' E'. apply runs_ret. cbn. rewrite E', ED. f_equal. by destruct (COORDINATED pol); rewrite ?app_nil_r.
Qed.

(** ** The probe *)

Definition at_drop scripts : list (list T) := if COORDINATED pol then scripts else (fun _ => []) <$> scripts.

Lemma unread_destroyed txs scripts rs : length rs = length txs -> length scripts = length txs -> lanes_unread 0 txs scripts rs ->
  hr_destroyed <$> rs = at_drop scripts.
Proof.
  intros L1 L2 Hu. assert (HF : Forall2 (fun vs hr => hr_destroyed hr = if COORDINATED pol then vs else []) scripts rs).
  { apply Forall2_same_length_lookup_2; [congruence|]. intros i vs hr Hvs Hi.
    destruct (lookup_lt_is_Some_2 txs i) as [tx Htx]; [rewrite <- L2; by eapply lookup_lt_Some|].
    destruct (Hu i tx Htx) as (p & vs' & hr' & _ & Evs & Ehr & [E _]). cbn in Ehr. by simplify_eq. }
  unfold at_drop. clear - HF. induction HF as [|vs hr scripts rs E _ IH]; cbn; [by destruct (COORDINATED pol)|].
  rewrite IH, E. by destruct (COORDINATED pol).
Qed.

Context (caps : list Z) (txs0 : list Tx) (rx : Rx) (rs0 : list (HRing T)) (s0 : St) (scripts : list (list T)).
Context (start : chan true rs0 s0) (start_rx : is_receiver rx) (start_len : length rs0 = length txs0 /\ length scripts = length txs0).
Context (start_fit : Forall2 (fun vs cap => zlength vs <= cap) scripts caps).
Context (start_lanes : forall i tx, txs0 !! i = Some tx -> exists cap, caps !! i = Some cap /\ lane_filled i tx cap [] rs0).

Lemma filled_destroyed txs rs : length rs = length txs -> lanes_filled 0 txs caps scripts rs -> concat (hr_destroyed <$> rs) = [].
Proof.
  intros L Hf. assert (HF : Forall (fun hr => hr_destroyed hr = []) rs).
  { apply Forall_lookup_2. intros i hr Hi. destruct (lookup_lt_is_Some_2 txs i) as [tx Htx]; [rewrite <- L; by eapply lookup_lt_Some|].
    destruct (Hf i tx Htx) as (cap & vs & _ & _ & p & hr' & _ & E & sp & Hsp). cbn in E. rewrite Hi in E. injection E as <-. apply Hsp. }
  clear - HF. induction HF as [|hr rs E _ IH]; [done|]. cbn. by rewrite E.
Qed.

Lemma probe_ok : runs (probe scripts txs0 rx) s0 (fun r _ => r = (at_drop scripts, scripts)).
Proof.
  destruct start_len as [L1 L2]. unfold probe. eapply runs_seq; [by eapply (fill_ok scripts 0 caps)|].
  intros txs s1 (rs1 & Hc1 & Lt & Lr & _ & Hf). apply runs_bind. eapply runs_intro; [reflexivity|]. cbn [fst snd].
  rewrite (chan_rings _ _ _ Hc1). unfold drops at 1. rewrite (filled_destroyed txs) by (done || lia). cbn [negb Z.eqb zlength length Z.of_nat].
  eapply runs_seq; [eapply (drop_receiver_ok txs caps scripts); [exact Hc1|done|lia|exact Hf]|]. intros u s2 (rs2 & Hc2 & L2' & Hu).
  apply runs_bind. eapply runs_intro; [reflexivity|]. cbn [fst snd]. rewrite (chan_rings _ _ _ Hc2), (unread_destroyed txs scripts) by (done || lia).
  eapply runs_seq; [by eapply drop_senders_ok|]. intros u' s3 (rs3 & Hc3 & L3 & _ & Hg).
  apply runs_bind. eapply runs_intro; [reflexivity|]. cbn [fst snd]. rewrite (chan_rings _ _ _ Hc3).
  eapply runs_seq; [apply (drop_rings_ok scripts)|].
  { apply Forall2_same_length_lookup_2; [lia|]. intros i vs hr Hvs Hi. destruct (Hg i) as (vs' & hr' & E1 & E2 & Hg'); [apply lookup_lt_Some in Hvs; lia|].
    cbn in E2. congruence. }
  intros vss s4 E. rewrite E, Z.eqb_refl. by apply runs_ret.
Qed.

Lemma send_each_ok late : forall txs k ss rs s,
  chan false rs s -> lanes_unread k txs ss rs -> length late = length txs ->
  runs (send_each late txs) s (fun r _ => r = (fun v => Err (TrySend_Disconnected v)) <$> late).
Proof.
  induction late as [|v late IH]; intros [|tx txs] k ss rs s Hc Hu Hl; try done; cbn [send_each].
  destruct (Hu 0%nat tx eq_refl) as (p & vs & hr & Hp & _ & Hk & _ & Hd & _). rewrite Nat.add_0_r in Hp, Hk.
  eapply runs_seq; [by eapply chan_refuse|]. intros [r tx'] s1 [[= -> ->] Hc1].
  eapply runs_seq; [eapply (IH txs (S k) (drop 1 ss)); [exact Hc1| |by injection Hl]|].
  - intros i tx2 Hi. destruct (Hu (S i) tx2 Hi) as (p2 & vs2 & hr2 & H2). exists p2, vs2, hr2. by rewrite lookup_drop, Nat.add_succ_comm.
  - intros rs' s2 ->. by apply runs_ret.
Qed.

Lemma late_sends_ok late : length late = length txs0 ->
  runs (late_sends scripts late txs0 rx) s0 (fun r _ => r = (fun v => Err (TrySend_Disconnected v)) <$> late).
Proof.
  intros Hl. destruct start_len as [L1 L2]. unfold late_sends. eapply runs_seq; [by eapply (fill_ok scripts 0 caps)|].
  intros txs s1 (rs1 & Hc1 & Lt & Lr & _ & Hf). eapply runs_seq; [eapply (drop_receiver_ok txs caps scripts); [exact Hc1|done|lia|exact Hf]|].
  intros u s2 (rs2 & Hc2 & _ & Hu). eapply send_each_ok; [exact Hc2|exact Hu|lia].
Qed.

End laws.
