(* ===== verification/HandoffConc.v ===== *)
(** * Coordinated teardown under every interleaving

    A sender and a receiver share a ring with the cleanup word and the
    handoff slot of [src/src/ring.rs].  When the receiver closes, ownership of
    the yring consumer stays with it if no send is in progress, and otherwise
    passes through the slot to the send that overlaps.  The argument adds to
    the ring's rely-guarantee argument (YRingConc) a ghost owner of the
    consumer; the theorem accounts for every payload. *)

From S2P Require Import Prelude Prog Config YRing YRingInv YRingSpec YRingThm YRingConc Handoff.
Local Open Scope prog_scope.

(** Who holds the consumer: the receiver, the handoff slot, or the sender. *)
Inductive owner : Type := OCons | OSlot | OProd.

Section handoff.
Context {T Adm : Type} (cap base : Z).
Implicit Types (hist got D : list T).

Record hghost : Type := mkHG { hg_ring : ghost T; hg_own : owner; hg_del : list T }.
Definition put_hg (g : ghost T) (h : hghost) : hghost := mkHG g (hg_own h) (hg_del h).

Definition hst : Type := HRing T * hghost.
Definition rg (x : hst) : Ring T * ghost T := (hr_ring x.1, hg_ring x.2).

#[local] Abbreviation rok := (ok (T := T) cap base).
#[local] Abbreviation rguar := (guar (T := T) cap base).
#[local] Abbreviation cons := (ca (T := T) cap base).
#[local] Abbreviation prod := (pa (T := T) cap base).

Definition idle (x : hst) : Prop := hr_state x.1 = 0 \/ hr_state x.1 = 2.
Definition active (x : hst) : Prop := hr_state x.1 = 1 \/ hr_state x.1 = 3.

(** The consumer in the slot, with what was taken from the ring so far. *)
Definition parked (x : hst) : Prop :=
  exists c ct ph h, hr_slot x.1 = Some c /\ cons c ct ph h (hg_del x.2 ++ hr_destroyed x.1) (rg x).

Record hinv (x : hst) : Prop := {
  hi_ok : rok (rg x);
  hi_word : idle x \/ active x;
  hi_slot : hr_state x.1 = 3 <-> hg_own x.2 = OSlot;
  hi_prod : hg_own x.2 = OProd -> hr_state x.1 = 2;
  hi_flushed : idle x -> g_t (hg_ring x.2) = zlength (g_hist (hg_ring x.2));
  hi_parked : hg_own x.2 = OSlot -> parked x
}.

(** The sender: ring steps as the producer (none that moves a position while
    no send is in progress), ring steps as the consumer once it owns it, and
    the transitions of the cleanup word. *)
Definition hguar0 (x y : hst) : Prop :=
  hg_del y.2 = hg_del x.2 /\
  ((hr_state y.1 = hr_state x.1 /\ hg_own y.2 = hg_own x.2 /\ hr_slot y.1 = hr_slot x.1 /\
    hr_destroyed y.1 = hr_destroyed x.1 /\ rguar 0 (rg x) (rg y) /\ (idle x -> hg_ring y.2 = hg_ring x.2)) \/
   (hg_own x.2 = OProd /\ hg_own y.2 = OProd /\ hr_state y.1 = hr_state x.1 /\ rguar 1 (rg x) (rg y)) \/
   (rg y = rg x /\ hr_slot y.1 = hr_slot x.1 /\ hr_destroyed y.1 = hr_destroyed x.1 /\
    ((hr_state x.1 = 0 /\ hr_state y.1 = 1 /\ hg_own y.2 = hg_own x.2) \/
     (hr_state x.1 = 1 /\ hr_state y.1 = 0 /\ hg_own y.2 = hg_own x.2) \/
     (hr_state x.1 = 3 /\ hr_state y.1 = 2 /\ hg_own y.2 = OProd)))).

(** The receiver: consumer steps while it owns the consumer, and closing. *)
Definition hguar1 (x y : hst) : Prop :=
  hg_own x.2 = OCons /\
  ((hg_own y.2 = OCons /\ hr_state y.1 = hr_state x.1 /\ rguar 1 (rg x) (rg y)) \/
   (rg y = rg x /\
    ((hr_state x.1 = 0 /\ hr_state y.1 = 2 /\ hg_own y.2 = OCons) \/
     (hr_state x.1 = 1 /\ hr_state y.1 = 3 /\ hg_own y.2 = OSlot)))).

Definition hguar (i : nat) : relation hst := fun x y =>
  hinv y /\ match i with O => hguar0 x y | 1%nat => hguar1 x y | _ => False end.

Lemma hrely_0 x y : rely hguar 0 x y -> hinv y /\ hguar1 x y.
Proof. intros ([|[|j]] & Hj & [Hi H]); done. Qed.
Lemma hrely_1 x y : rely hguar 1 x y -> hinv y /\ hguar0 x y.
Proof. intros ([|[|j]] & Hj & [Hi H]); done. Qed.

Lemma guar1_rely x y : rguar 1 x y -> rtc (rely rguar 0) x y.
Proof. intros H. apply rtc_once. by exists 1%nat. Qed.
Lemma guar0_rely x y : rguar 0 x y -> rtc (rely rguar 1) x y.
Proof. intros H. apply rtc_once. by exists 0%nat. Qed.

(** What the receiver's steps mean to the sender's view of the ring. *)
Lemma hguar1_ring x y : hguar1 x y -> rtc (rely rguar 0) (rg x) (rg y).
Proof. intros (_ & [(_ & _ & H)|[-> _]]); [by apply guar1_rely|done]. Qed.

(** ** Frames *)

#[local] Abbreviation hembeds := (embeds rguar hguar hr_ring set_hr_ring hg_ring put_hg).

(** A send in progress: the sender uses the ring as its producer. *)
Definition F_send (x : hst) : Prop := hinv x /\ active x.

Lemma embeds_send : hembeds 0 0 F_send.
Proof.
  split.
  - intros x y [Hx Ha] [Hy H]%hrely_0. split; [|by apply hguar1_ring]. split; [done|].
    unfold active in *. destruct H as (_ & [(_ & E & _)|[_ H]]); [by rewrite E|].
    destruct H as [(E & _)|(_ & E & _)]; [rewrite E in Ha; lia|auto].
  - intros s g r' g' [Hx Ha] H.
    assert (Hi : hinv (set_hr_ring r' s, put_hg g' g)).
    { destruct Hx as [Hok Hw Hs Hp Hf Hpk]. split; cbn; auto.
      - apply H.
      - intros Hid. exfalso. unfold idle, active in *. cbn in *. lia.
      - intros Ho. destruct (Hpk Ho) as (c & ct & ph & h & E & Hc). exists c, ct, ph, h. split; [done|].
        cbn. eapply ca_stable; [exact Hc|]. by exists 0%nat. }
    split; [|by split]. split; [done|]. split; [done|]. left. split_and!; try done.
    intros Hid. exfalso. unfold idle, active in *. cbn in *. lia.
Qed.

(** The receiver before it closes. *)
Definition F_open D (x : hst) : Prop :=
  hinv x /\ hg_own x.2 = OCons /\ hr_destroyed x.1 = D /\ (hr_state x.1 = 0 \/ hr_state x.1 = 1).

(** The receiver after it closed an idle ring: nothing moves any more. *)
Definition F_closed hist D (x : hst) : Prop :=
  hinv x /\ hg_own x.2 = OCons /\ hr_destroyed x.1 = D /\ hr_state x.1 = 2 /\ g_hist (hg_ring x.2) = hist.

(** The sender after it took the consumer over. *)
Definition F_taken (p : Producer) hist D del (x : hst) : Prop :=
  hinv x /\ hg_own x.2 = OProd /\ hr_destroyed x.1 = D /\ hr_state x.1 = 2 /\ hg_del x.2 = del /\
  prod p (zlength hist) hist (rg x).

(** A consumer's step keeps the invariant while no consumer is parked. *)
Lemma hinv_cons_step s g s' g' :
  hinv (s, g) -> hg_own g <> OSlot -> hr_state s' = hr_state s -> hg_own g' = hg_own g ->
  rguar 1 (hr_ring s, hg_ring g) (hr_ring s', hg_ring g') -> hinv (s', g').
Proof.
  intros [Hok Hw Hs Hp Hf Hpk] Ho E1 E2 H. cbn in *. destruct H as (Hok' & Et & Eh & _).
  split; unfold idle, active in *; cbn in *; rewrite ?E1, ?E2, ?Et, ?Eh in *; auto. done.
Qed.

Lemma embeds_open D : hembeds 1 1 (F_open D).
Proof.
  split.
  - intros x y (Hx & Ho & HD & Hw) [Hy (_ & H)]%hrely_1. unfold F_open.
    destruct H as [(E1 & E2 & E3 & E4 & H & _)|[(E & _)|(E1 & E2 & E3 & H)]].
    + split; [|by apply guar0_rely]. split_and!; congruence.
    + congruence.
    + fold (rg x) (rg y). rewrite E1. split; [|done].
      destruct H as [(_ & E & Eo)|[(_ & E & Eo)|(E & _)]]; [| |lia]; split_and!; auto; congruence.
  - intros s g r' g' (Hx & Ho & HD & Hw) H. cbn in *.
    assert (Hi : hinv (set_hr_ring r' s, put_hg g' g)).
    { eapply hinv_cons_step; [exact Hx|cbn; congruence|done..]. }
    split; [|by split_and!]. split; [done|]. split; [done|]. left. by split_and!.
Qed.

Lemma embeds_closed hist D : hembeds 1 1 (F_closed hist D).
Proof.
  split.
  - intros x y (Hx & Ho & HD & Hw & Hh) [Hy (_ & H)]%hrely_1. unfold F_closed.
    destruct H as [(E1 & E2 & E3 & E4 & H & Eg)|[(E & _)|(E1 & E2 & E3 & H)]].
    + split; [|by apply guar0_rely]. split_and!; try congruence. rewrite Eg; [done|]. by right.
    + congruence.
    + exfalso. lia.
  - intros s g r' g' (Hx & Ho & HD & Hw & Hh) H. cbn in *.
    assert (Hi : hinv (set_hr_ring r' s, put_hg g' g)).
    { eapply hinv_cons_step; [exact Hx|cbn; congruence|done..]. }
    split.
    + split; [done|]. split; [done|]. left. by split_and!.
    + destruct H as (_ & _ & Eh & _). cbn in Eh. split_and!; auto. cbn. congruence.
Qed.

Lemma embeds_taken p hist D del : hembeds 1 0 (F_taken p hist D del).
Proof.
  split.
  - intros x y (_ & Ho & _) [_ (E & _)]%hrely_0. congruence.
  - intros s g r' g' (Hx & Ho & HD & Hw & Hdel & Hp) H. cbn in *.
    assert (Hi : hinv (set_hr_ring r' s, put_hg g' g)).
    { eapply hinv_cons_step; [exact Hx|cbn; congruence|done..]. }
    split.
    + split; [done|]. split; [done|]. right. left. by split_and!.
    + split_and!; auto. cbn. eapply pa_stable; [exact Hp|]. by exists 1%nat.
Qed.

(** ** Disposing of the unread values, whoever owns the consumer *)

Section discard.
Context (j : nat) (F : list T -> hst -> Prop).
Context (F_embeds : forall D, hembeds 1 j (F D)).
Context (F_destroy : forall D v s g, F D (s, g) ->
  hguar j (s, g) (add_destroyed v s, g) /\ F (D ++ [v]) (add_destroyed v s, g)).

Lemma get_put_ring r (s : HRing T) : hr_ring (set_hr_ring r s) = r.
Proof. done. Qed.
Lemma gget_gput_ring g h : hg_ring (put_hg g h) = g.
Proof. done. Qed.

Lemma wp_cons {A} (q : prog (Ring T) A) D Q x :
  F D x -> wp rguar 1 q Q (rg x) -> wp hguar j (on_hring q) (fun a y => Q a (rg y) /\ F D y) x.
Proof. intros HF H. apply (wp_embed rguar hguar hr_ring set_hr_ring hg_ring put_hg get_put_ring gget_gput_ring 1 j (F D)); auto. Qed.

Lemma F_stable D c ct ph h got : stable hguar j (fun x => F D x /\ cons c ct ph h got (rg x)).
Proof. apply (embeds_stable rguar hguar hr_ring set_hr_ring hg_ring put_hg 1 j (F D)); [apply F_embeds|apply ca_stable]. Qed.

Lemma wp_destroy {B} v D c ct ph h got (k : unit -> prog (HRing T) B) Q x :
  F D x -> cons c ct ph h got (rg x) ->
  (forall y, F (D ++ [v]) y -> cons c ct ph h got (rg y) -> wp hguar j (k tt) Q y) ->
  wp hguar j (bind (destroy v) k) Q x.
Proof.
  intros HF Hc Hk. eapply wp_act; [apply (F_stable D c ct ph h got)|by split|].
  intros s g [HF1 Hc1]. destruct (F_destroy D v s g HF1) as [Hg HF2]. exists g. cbn [fst snd].
  split; [done|]. by apply Hk.
Qed.

(** The loop pops the whole window: as many values as its cursors are apart. *)
Lemma wp_discard_loop n : forall c D ct ph h got x,
  F D x -> cons c ct ph h got (rg x) -> ct - h <= Z.of_nat n ->
  wp hguar j (discard_loop n c) (fun c' y => exists vs,
    F (D ++ vs) y /\ cons c' ct ph ct (got ++ vs) (rg y)) x.
Proof.
  induction n as [|n IH]; intros c D ct ph h got x HF Hc Hn; cbn [discard_loop];
    (eapply wp_call; [eapply wp_cons; [exact HF|eapply wp_pop_exact, Hc]|]);
    intros [[v|] c'] y [[Hlt Hc'] HF'].
  - lia.
  - subst h. eapply wp_retP; [apply F_stable|split; [exact HF'|exact Hc']|].
    intros z [Hz1 Hz2]. exists []. by rewrite !app_nil_r.
  - eapply wp_destroy; [exact HF'|exact Hc'|]. intros z Hz Hcz.
    eapply wp_mono; [|eapply (IH c' _ _ _ _ _ _ Hz Hcz); lia].
    intros c2 w (vs & Hw & Hcw). exists (v :: vs). by rewrite <- !app_assoc in *.
  - subst h. eapply wp_retP; [apply F_stable|split; [exact HF'|exact Hc']|].
    intros z [Hz1 Hz2]. exists []. by rewrite !app_nil_r.
Qed.

Lemma wp_discard c D ct ph h got x :
  F D x -> cons c ct ph h got (rg x) ->
  wp hguar j (discard c) (fun c' y => exists ct' vs, g_t (hg_ring x.2) <= ct' /\
    F (D ++ vs) y /\ cons c' ct' ph ct' (got ++ vs) (rg y)) x.
Proof.
  intros HF Hc. unfold discard.
  eapply wp_call; [eapply wp_cons; [exact HF|eapply wp_prefetch_from, Hc]|].
  intros [n c'] y [(ct' & _ & Ht & Hc') HF']. destruct (ca_window _ _ _ _ _ _ _ _ Hc') as (_ & E & Hr).
  rewrite E. eapply wp_mono; [|eapply wp_discard_loop; [exact HF'|exact Hc'|lia]].
  intros c2 z (vs & Hz & Hcz). by exists ct', vs.
Qed.

Lemma wp_discard_and_drop c D ct ph h got x :
  F D x -> cons c ct ph h got (rg x) ->
  wp hguar j (discard_and_drop c) (fun _ y => exists c' ct' vs, g_t (hg_ring x.2) <= ct' /\
    F (D ++ vs) y /\ cons c' ct' ct' ct' (got ++ vs) (rg y)) x.
Proof.
  intros HF Hc. unfold discard_and_drop. eapply wp_call; [eapply wp_discard; [exact HF|exact Hc]|].
  intros c' y (ct' & vs & Ht & HF' & Hc'). unfold Consumer_drop.
  eapply wp_mono; [|eapply wp_cons; [exact HF'|eapply wp_consumer_close, Hc']].
  intros u z [Hz HFz]. by exists c', ct', vs.
Qed.

End discard.

(** ** The receiver *)

Inductive hrecv_cmd : Type :=
| HPop
| HPopInto (limit : Z)
| HPopIntoWhile (limit : Z) (accepts : Adm -> T -> bool * Adm) (adm : Adm)
| HPrefetch
| HRelease
| HIsDisconnected.

Definition hrecv_ok (cmd : hrecv_cmd) : Prop :=
  match cmd with HPopInto n => 0 <= n | HPopIntoWhile n _ _ => 0 <= n | _ => True end.

(** One operation of the receiver: the values it delivered. *)
Definition exec_hrecv (cmd : hrecv_cmd) (c : RConsumer) : prog (HRing T) (list T * RConsumer) :=
  match cmd with
  | HPop => let* '(v, c) := RConsumer_pop c in Ret (option_list v, c)
  | HPopInto n => let* '(_, out, c) := RConsumer_pop_into c [] n in Ret (out, c)
  | HPopIntoWhile n accepts adm =>
      let* '(_, out, _, c) := RConsumer_pop_into_while c [] n accepts adm in Ret (out, c)
  | HPrefetch => let* '(_, c) := RConsumer_prefetch c in Ret ([], c)
  | HRelease => let* _ := RConsumer_release c in Ret ([], c)
  | HIsDisconnected => let* _ := RConsumer_is_disconnected c in Ret ([], c)
  end.

Fixpoint exec_hrecvs (cmds : list hrecv_cmd) (c : RConsumer) : prog (HRing T) (list T * RConsumer) :=
  match cmds with
  | [] => Ret ([], c)
  | cmd :: cmds' =>
      let* '(d, c) := exec_hrecv cmd c in
      let* '(d', c) := exec_hrecvs cmds' c in
      Ret (d ++ d', c)
  end.

(** The receiver's thread: its operations, then the close. *)
Definition receiver_thread (cmds : list hrecv_cmd) (c : RConsumer) : prog (HRing T) (list T) :=
  let* '(d, c) := exec_hrecvs cmds c in
  let* _ := RConsumer_close Coordinated c in
  Ret d.

Definition receiving (c : RConsumer) got (x : hst) : Prop :=
  F_open [] x /\ exists ci ct ph h, rc_inner c = Some ci /\ cons ci ct ph h got (rg x).

Lemma F_open_destroy D v s g :
  F_open D (s, g) -> hguar 1 (s, g) (add_destroyed v s, g) /\ F_open (D ++ [v]) (add_destroyed v s, g).
Proof.
  intros (Hx & Ho & HD & Hw). assert (Hok : rok (rg (s, g))) by apply Hx.
  assert (Hi : hinv (add_destroyed v s, g)).
  { eapply hinv_cons_step; [exact Hx|cbn in *; congruence|done..|]. by apply guar_refl; [lia|]. }
  split.
  - split; [done|]. split; [done|]. left. split_and!; auto. apply guar_refl; [lia|done].
  - split_and!; auto. cbn in *. by rewrite HD.
Qed.

Lemma F_closed_destroy hist D v s g :
  F_closed hist D (s, g) -> hguar 1 (s, g) (add_destroyed v s, g) /\ F_closed hist (D ++ [v]) (add_destroyed v s, g).
Proof.
  intros (Hx & Ho & HD & Hw & Hh). assert (Hok : rok (rg (s, g))) by apply Hx.
  assert (Hi : hinv (add_destroyed v s, g)).
  { eapply hinv_cons_step; [exact Hx|cbn in *; congruence|done..|]. by apply guar_refl; [lia|]. }
  split.
  - split; [done|]. split; [done|]. left. split_and!; auto. apply guar_refl; [lia|done].
  - split_and!; auto. cbn in *. by rewrite HD.
Qed.

Lemma F_taken_destroy p hist del D v s g :
  F_taken p hist D del (s, g) ->
  hguar 0 (s, g) (add_destroyed v s, g) /\ F_taken p hist (D ++ [v]) del (add_destroyed v s, g).
Proof.
  intros (Hx & Ho & HD & Hw & Hdel & Hp). assert (Hok : rok (rg (s, g))) by apply Hx.
  assert (Hi : hinv (add_destroyed v s, g)).
  { eapply hinv_cons_step; [exact Hx|cbn in *; congruence|done..|]. by apply guar_refl; [lia|]. }
  split.
  - split; [done|]. split; [done|]. right; left. split_and!; auto. apply guar_refl; [lia|done].
  - split_and!; auto. cbn in *. by rewrite HD.
Qed.

(** An operation of the open receiver, from the ring's lemma about it. *)
Lemma wp_open {A B} (q : prog (Ring T) A) Q (k : A -> prog (HRing T) B) (R : B -> hst -> Prop) x :
  F_open [] x -> wp rguar 1 q Q (rg x) ->
  (forall a y, F_open [] y -> Q a (rg y) -> wp hguar 1 (k a) R y) ->
  wp hguar 1 (bind (on_hring q) k) R x.
Proof.
  intros HF H Hk. eapply wp_call; [eapply (wp_cons 1 F_open embeds_open); eauto|].
  intros a y [Ha HFy]. auto.
Qed.

Lemma receiving_stable c got : stable hguar 1 (receiving c got).
Proof.
  intros x y [HF (ci & ct & ph & h & E & Hc)] Hy.
  destruct (F_stable 1 F_open embeds_open [] ci ct ph h got x y (conj HF Hc) Hy) as [HF' Hc'].
  split; [done|]. by exists ci, ct, ph, h.
Qed.

Lemma receiving_intro c got x ct ph h :
  F_open [] x -> cons c ct ph h got (rg x) -> receiving (mkRConsumer (Some c)) got x.
Proof. intros HF Hc. split; [done|]. by exists c, ct, ph, h. Qed.

Lemma wp_exec_hrecv cmd c got x :
  hrecv_ok cmd -> receiving c got x ->
  wp hguar 1 (exec_hrecv cmd c) (fun '(d, c') => receiving c' (got ++ d)) x.
Proof.
  intros Hok [HF (ci & ct & ph & h & Ec & Hc)]. destruct c as [o]. cbn in Ec. subst o.
  destruct cmd as [|n|n accepts adm| | |]; cbn [exec_hrecv]; apply wp_bind; unfold RConsumer_pop,
    RConsumer_pop_into, RConsumer_pop_into_while, RConsumer_prefetch, RConsumer_release,
    RConsumer_is_disconnected, with_open; cbn [rc_inner].
  - eapply wp_open; [exact HF|eapply wp_pop, Hc|]. intros [v c'] y HFy [h' Hy].
    eapply wp_retP; [apply receiving_stable|by eapply receiving_intro|]. intros z Hz.
    eapply wp_retP; [apply receiving_stable|exact Hz|]. by destruct v.
  - eapply wp_open; [exact HF|by eapply wp_pop_into, Hc|]. intros [[m out] c'] y HFy (vs & h' & -> & Hy).
    eapply wp_retP; [apply receiving_stable|by eapply receiving_intro|]. intros z Hz.
    eapply wp_retP; [apply receiving_stable|exact Hz|done].
  - eapply wp_open; [exact HF|by eapply wp_pop_into_while, Hc|].
    intros [[[m out] adm'] c'] y HFy (vs & h' & -> & Hy).
    eapply wp_retP; [apply receiving_stable|by eapply receiving_intro|]. intros z Hz.
    eapply wp_retP; [apply receiving_stable|exact Hz|done].
  - eapply wp_open; [exact HF|eapply wp_prefetch, Hc|]. intros [m c'] y HFy [ct' Hy].
    eapply wp_retP; [apply receiving_stable|by eapply receiving_intro|]. intros z Hz.
    eapply wp_retP; [apply receiving_stable|exact Hz|]. by rewrite app_nil_r.
  - eapply wp_mono; [|eapply (wp_cons 1 F_open embeds_open); [exact HF|eapply wp_release, Hc]].
    intros u y [Hy HFy]. eapply wp_retP; [apply receiving_stable|by eapply receiving_intro|].
    by rewrite app_nil_r.
  - eapply wp_mono; [|eapply (wp_cons 1 F_open embeds_open _ _ (fun _ => cons ci ct ph h got)); [exact HF|]].
    + intros u y [Hy HFy]. eapply wp_retP; [apply receiving_stable|eapply receiving_intro; [exact HFy|exact Hy]|].
      by rewrite app_nil_r.
    + unfold Consumer_is_disconnected. eapply wp_load; [apply ca_owned|exact Hc|]. intros r g Ha.
      destruct (ring_producer_dropped r); [|eapply wp_retP; [apply ca_owned|exact Ha|done]].
      eapply wp_load; [apply ca_owned|exact Ha|]. intros r' g' Ha'. eapply wp_retP; [apply ca_owned|exact Ha'|done].
Qed.

Lemma wp_exec_hrecvs cmds : forall c got x,
  Forall hrecv_ok cmds -> receiving c got x ->
  wp hguar 1 (exec_hrecvs cmds c) (fun '(d, c') => receiving c' (got ++ d)) x.
Proof.
  induction cmds as [|cmd cmds IH]; intros c got x Hok Hx; cbn [exec_hrecvs].
  - eapply wp_retP; [apply receiving_stable|exact Hx|]. by rewrite app_nil_r.
  - inversion_clear Hok as [|? ? H1 H2]. eapply wp_call; [by eapply wp_exec_hrecv|].
    intros [d c'] y Hy. eapply wp_call; [by eapply IH|]. intros [d' c2] z Hz.
    eapply wp_retP; [apply receiving_stable|exact Hz|]. by rewrite app_assoc.
Qed.

(** ** Closing *)

(** Everything ever published was delivered or destroyed, in order. *)
Definition accounted del (x : hst) : Prop :=
  g_ph (hg_ring x.2) = zlength (g_hist (hg_ring x.2)) /\ g_h (hg_ring x.2) = zlength (g_hist (hg_ring x.2)) /\
  g_hist (hg_ring x.2) = del ++ hr_destroyed x.1.

(** What the receiver leaves: an idle closed ring it has emptied itself, or a
    consumer it handed over. *)
Definition closed del (x : hst) : Prop :=
  hinv x /\
  (hg_own x.2 = OCons /\ hr_state x.1 = 2 /\ accounted del x \/ hg_own x.2 <> OCons /\ hg_del x.2 = del).

Lemma closed_stable del : stable hguar 1 (closed del).
Proof.
  intros x y [Hx H] [Hy (Ed & Hs)]%hrely_1. split; [done|]. destruct H as [(Ho & Hw & Ha)|[Ho Hd]].
  - left. destruct Hs as [(E1 & E2 & E3 & E4 & H & Eg)|[(E & _)|(E1 & E2 & E3 & H)]].
    + unfold accounted in *. rewrite E1, E2, E4, Eg by (by right). auto.
    + congruence.
    + lia.
  - right. split; [|congruence]. destruct Hs as [(E1 & E2 & _)|[(_ & E & _)|(_ & _ & _ & H)]]; [congruence..|].
    destruct H as [(_ & _ & E)|[(_ & _ & E)|(_ & _ & E)]]; congruence.
Qed.

(** The receiver's last look at an idle closed ring finds everything. *)
Lemma wp_close_idle c del D ct ph h x :
  hinv x -> hg_own x.2 = OCons -> hr_destroyed x.1 = D -> hr_state x.1 = 2 ->
  cons c ct ph h (del ++ D) (rg x) ->
  wp hguar 1 (discard_and_drop c) (fun _ => closed del) x.
Proof.
  intros Hx Ho HD Hw Hc. set (hist := g_hist (hg_ring x.2)).
  assert (HF : F_closed hist D x) by (by split_and!).
  assert (Hfl : g_t (hg_ring x.2) = zlength hist) by (apply Hx; by right).
  eapply wp_mono; [|eapply (wp_discard_and_drop 1 (F_closed hist) (embeds_closed hist) (F_closed_destroy hist)); eauto].
  intros u y (c' & ct' & vs & Ht & (Hy & Ho' & HD' & Hw' & Hh') & Hc').
  split; [done|]. left. split_and!; auto.
  destruct Hc' as (Hok & E1 & E2 & E3 & _ & _ & Hr). cbn in *.
  pose proof (hi_flushed _ Hy (or_intror Hw')) as Hf. rewrite Hh' in *.
  assert (ct' = zlength hist) as -> by lia. unfold accounted. rewrite Hh', E1, E2, HD'. split_and!; auto.
  rewrite app_assoc, <- E3. symmetry. apply take_ge. unfold zlength. lia.
Qed.

(** The consumer in the slot, still the receiver's. *)
Definition offered c del (x : hst) : Prop :=
  hinv x /\ hg_own x.2 = OCons /\ (hr_state x.1 = 0 \/ hr_state x.1 = 1) /\ hr_slot x.1 = Some c /\
  exists ct ph h, cons c ct ph h (del ++ hr_destroyed x.1) (rg x).

Lemma offered_stable c del : stable hguar 1 (offered c del).
Proof.
  intros x y (Hx & Ho & Hw & Hs & ct & ph & h & Hc) Hy. pose proof Hy as [_ (_ & H)]%hrely_1.
  destruct (F_stable 1 F_open embeds_open (hr_destroyed x.1) c ct ph h (del ++ hr_destroyed x.1) x y)
    as [(Hy' & Ho' & HD' & Hw') Hc']; [by split_and!|done|].
  rewrite <- HD' in Hc'. split_and!; eauto.
  destruct H as [(_ & _ & E & _)|[(E & _)|(_ & E & _)]]; congruence.
Qed.

(** The same once the ring is closed and idle. *)
Definition reclaimed c del (x : hst) : Prop :=
  hinv x /\ hg_own x.2 = OCons /\ hr_state x.1 = 2 /\ hr_slot x.1 = Some c /\
  exists ct ph h, cons c ct ph h (del ++ hr_destroyed x.1) (rg x).

Lemma reclaimed_stable c del : stable hguar 1 (reclaimed c del).
Proof.
  intros x y (Hx & Ho & Hw & Hs & ct & ph & h & Hc) Hy. pose proof Hy as [_ (_ & H)]%hrely_1.
  destruct (F_stable 1 (F_closed (g_hist (hg_ring x.2))) (embeds_closed _) (hr_destroyed x.1) c ct ph h
    (del ++ hr_destroyed x.1) x y) as [(Hy' & Ho' & HD' & Hw' & _) Hc']; [by split_and!|done|].
  rewrite <- HD' in Hc'. split_and!; eauto.
  destruct H as [(_ & _ & E & _)|[(E & _)|(_ & E & _)]]; congruence.
Qed.

(** A change of the slot or the cleanup word keeps the ring. *)
Lemma hguar1_slot s g o :
  hinv (s, g) -> hg_own g = OCons -> hguar 1 (s, g) (set_hr_slot o s, g).
Proof.
  intros Hx Ho. assert (Hok : rok (rg (s, g))) by apply Hx. split.
  - eapply hinv_cons_step; [exact Hx|cbn in *; congruence|done..|]. by apply guar_refl; [lia|].
  - split; [done|]. left. split_and!; auto. apply guar_refl; [lia|done].
Qed.

Lemma wp_Cleanup_close c del D x ct ph h :
  F_open D x -> cons c ct ph h (del ++ D) (rg x) ->
  wp hguar 1 (Cleanup_close c) (fun _ => closed del) x.
Proof.
  intros HF Hc. unfold Cleanup_close.
  eapply wp_act; [apply (F_stable 1 F_open embeds_open D c ct ph h (del ++ D))|by split|].
  clear x HF Hc. intros s g [(Hx & Ho & HD & Hw) Hc]. exists g. cbn [fst snd] in *.
  split; [by apply hguar1_slot|].
  eapply wp_act; [apply (offered_stable c del)| |].
  { split_and!; auto; [|exists ct, ph, h; cbn in *; by rewrite HD].
    apply (hguar1_slot s g (Some c)); auto. }
  clear s g Hx Ho HD Hw Hc. intros s g (Hx & Ho & Hw & Hs & ct' & ph' & h' & Hc). cbn [fst snd] in *.
  destruct Hw as [Hw|Hw]; rewrite Hw; cbn [Z.land Z.eqb ACTIVE CLOSED].
  - set (s' := set_hr_state (Z.lor 0 2) s).
    assert (Hi : hinv (s', g)).
    { destruct Hx as [A B C E G H]. split; cbn in *; auto; try (left; by right); try congruence.
      - split; [done|congruence].
      - intros _. apply G. by left. }
    exists g. split. { split; [done|]. split; [done|]. right. split; [done|]. left. by split_and!. }
    eapply wp_act; [apply (reclaimed_stable c del)|split_and!; eauto|].
    clear s s' Hx Ho Hw Hs Hc Hi. intros s g' (Hx & Ho & Hw & Hs & ct2 & ph2 & h2 & Hc). cbn [fst snd] in *.
    exists g'. split; [by apply hguar1_slot|]. rewrite Hs.
    eapply wp_close_idle; [apply (hguar1_slot s g' None); auto|done|reflexivity|done|exact Hc].
  - set (s' := set_hr_state (Z.lor 1 2) s). set (g' := mkHG (hg_ring g) OSlot del).
    assert (Hi : hinv (s', g')).
    { destruct Hx as [A B C E G H]. split; cbn in *; auto; try (right; by right); try congruence.
      - done.
      - intros [Hd|Hd]; discriminate Hd.
      - intros _. exists c, ct', ph', h'. split; [done|]. exact Hc. }
    exists g'. split. { split; [done|]. split; [done|]. right. split; [done|]. right. by split_and!. }
    eapply wp_retP; [apply (closed_stable del)| |auto]. split; [done|]. right. split; [done|]. done.
Qed.

Lemma wp_receiver_thread cmds c x :
  Forall hrecv_ok cmds -> receiving c [] x ->
  wp hguar 1 (receiver_thread cmds c) (fun d => closed d) x.
Proof.
  intros Hok Hx. unfold receiver_thread. eapply wp_call; [by eapply wp_exec_hrecvs|].
  intros [d c'] y [HF (ci & ct & ph & h & Ec & Hc)]. cbn [app] in Hc. unfold RConsumer_close. rewrite Ec. cbn [COORDINATED].
  eapply (wp_call _ _ _ _ (fun _ => closed d)); [|intros u z Hz; eapply wp_retP; [apply closed_stable|exact Hz|auto]].
  eapply (wp_call _ _ _ _ (fun _ => closed d)); [|intros u z Hz; eapply wp_retP; [apply closed_stable|exact Hz|auto]].
  eapply wp_call; [eapply (wp_discard 1 F_open embeds_open F_open_destroy); [exact HF|exact Hc]|].
  intros c2 z (ct' & vs & _ & HF' & Hc'). cbn [app] in HF'. by eapply wp_Cleanup_close.
Qed.

(** ** The sender *)

Inductive hsend_cmd : Type :=
| HSend (v : T)
| HIsFull
| HIsDropped.

(** One operation of the sender: what was sent, with the result. *)
Definition exec_hsend (cmd : hsend_cmd) (p : RProducer) : prog (HRing T) (list (T * result unit T) * RProducer) :=
  match cmd with
  | HSend v => let* '(r, p) := RProducer_push_and_flush Coordinated p v in Ret ([(v, r)], p)
  | HIsFull => let* '(_, p) := RProducer_is_full p in Ret ([], p)
  | HIsDropped => let* _ := RProducer_is_consumer_dropped Coordinated in Ret ([], p)
  end.

Fixpoint exec_hsends (cmds : list hsend_cmd) (p : RProducer) : prog (HRing T) (list (T * result unit T) * RProducer) :=
  match cmds with
  | [] => Ret ([], p)
  | cmd :: cmds' =>
      let* '(o, p) := exec_hsend cmd p in
      let* '(o', p) := exec_hsends cmds' p in
      Ret (o ++ o', p)
  end.

(** The sender's thread: its operations, then the close of its drop. *)
Definition sender_thread (cmds : list hsend_cmd) (p : RProducer) : prog (HRing T) (list (T * result unit T)) :=
  let* '(o, p) := exec_hsends cmds p in
  let* _ := RProducer_close p in
  Ret o.

Definition sent_ok (o : list (T * result unit T)) : list T :=
  flat_map (fun '(v, r) => match r with Ok _ => [v] | Err _ => [] end) o.
Definition returned (o : list (T * result unit T)) : Prop :=
  Forall (fun '(v, r) => match r with Ok _ => True | Err v' => v' = v end) o.

(** Between its operations the sender has flushed everything, and if it took
    the consumer over it has disposed of everything. *)
Definition resting (p : RProducer) hist (x : hst) : Prop :=
  hinv x /\ idle x /\ prod (rp_inner p) (zlength hist) hist (rg x) /\
  (hg_own x.2 = OProd -> accounted (hg_del x.2) x).

Lemma resting_stable p hist : stable hguar 0 (resting p hist).
Proof.
  intros x y (Hx & Hid & Hp & Ha) [Hy H]%hrely_0.
  assert (Hp' : prod (rp_inner p) (zlength hist) hist (rg y)).
  { eapply stable_rtc; [apply pa_stable|exact Hp|]. by apply hguar1_ring. }
  split_and!; auto.
  - unfold idle in *. destruct H as (_ & [(_ & E & _)|[_ [(_ & E & _)|(E & _)]]]); [by rewrite E|auto|lia].
  - intros Ho. destruct H as (_ & [(E & _)|[_ [(_ & _ & E)|(_ & _ & E)]]]); congruence.
Qed.

(** A step of the sender that leaves the positions, the slot and the word. *)
Lemma hguar0_flags s g r' :
  hinv (s, g) -> rok (r', hg_ring g) -> hguar 0 (s, g) (set_hr_ring r' s, g) /\ hinv (set_hr_ring r' s, g).
Proof.
  intros Hx Hok. assert (Hi : hinv (set_hr_ring r' s, g)).
  { destruct Hx as [A B C E G H]. split; auto. intros Ho. destruct (H Ho) as (c & ct & ph & h & E1 & Hc).
    exists c, ct, ph, h. split; [done|]. destruct (ca_owned cap base c ct ph h (hg_del g ++ hr_destroyed s)) as (_ & _ & _ & Hf).
    by eapply Hf. }
  split; [|done]. split; [done|]. split; [done|]. left. split_and!; auto. apply guar_refl; [lia|done].
Qed.

(** Reads and flag updates between sends; [p'] is the producer with what the
    access returned. *)
Lemma wp_idle_act {R B} p (p' : R -> RProducer) hist (f : Ring T -> R * Ring T) (k : R -> prog (Ring T) B) Q x :
  resting p hist x ->
  (forall s g, resting p hist (s, g) -> rok ((f (hr_ring s)).2, hg_ring g) /\
     prod (rp_inner (p' (f (hr_ring s)).1)) (zlength hist) hist ((f (hr_ring s)).2, hg_ring g)) ->
  (forall r y, resting (p' r) hist y -> wp hguar 0 (on_hring (k r)) Q y) ->
  wp hguar 0 (on_hring (Act f k)) Q x.
Proof.
  intros Hx Hf Hk. eapply wp_act; [apply resting_stable|exact Hx|]. intros s g Hr.
  destruct (Hf s g Hr) as [Hok Hp].
  destruct (f (hr_ring s)) as [a r']. cbn [fst snd] in *. exists g.
  destruct Hr as (Hi & Hid & _ & Ha). destruct (hguar0_flags s g r' Hi Hok) as [Hg Hi'].
  split; [done|]. apply Hk. by split_and!.
Qed.

Lemma wp_idle_load {R B} p hist (get : Ring T -> R) (k : R -> prog (Ring T) B) Q x :
  resting p hist x -> (forall r y, resting p hist y -> wp hguar 0 (on_hring (k r)) Q y) ->
  wp hguar 0 (on_hring (bind (load get) k)) Q x.
Proof.
  intros Hx Hk. eapply (wp_idle_act p (fun _ => p) hist); [exact Hx| |exact Hk].
  intros s g (Hi & _ & Hp & _). split; [apply Hi|exact Hp].
Qed.

Lemma resting_flags p hist s g r' :
  resting p hist (s, g) -> ring_mask r' = ring_mask (hr_ring s) -> ring_head r' = ring_head (hr_ring s) ->
  ring_tail r' = ring_tail (hr_ring s) -> ring_buf r' = ring_buf (hr_ring s) ->
  rok (r', hg_ring g) /\ prod (rp_inner p) (zlength hist) hist (r', hg_ring g).
Proof.
  intros (Hi & _ & Hp & _) E1 E2 E3 E4. assert (Hok : rok (r', hg_ring g)).
  { eapply ring_ok_ext; [apply Hi|done..]. }
  split; [done|]. destruct (pa_owned cap base (rp_inner p) (zlength hist) hist) as (_ & _ & _ & Hf). by eapply Hf.
Qed.

Lemma wp_idle_register {B} p hist (k : bool -> prog (Ring T) B) Q x :
  resting p hist x ->
  (forall b y, resting p hist y -> wp hguar 0 (on_hring (k b)) Q y) ->
  wp hguar 0 (on_hring (bind (on_producer_waiting Waiter_register) k)) Q x.
Proof.
  intros Hx Hk.
  eapply (wp_idle_act p (fun _ => p)); [exact Hx|intros s g Hs; by eapply resting_flags|].
  intros e y Hy. destruct e; cbn [negb bind lift on_producer_waiting]; [|by apply Hk].
  eapply (wp_idle_act p (fun _ => p)); [exact Hy|intros s g Hs; by eapply resting_flags|]. intros r1 y1 Hy1.
  eapply (wp_idle_act p (fun _ => p)); [exact Hy1|intros s g Hs; by eapply resting_flags|]. intros r2 y2 Hy2.
  by apply Hk.
Qed.

Lemma wp_idle_is_full {B} p hist (k : bool * Z -> prog (Ring T) B) Q x :
  resting p hist x ->
  (forall b h y, resting (mkRProducer (mkProducer (producer_cursor (rp_inner p)) h)) hist y ->
     wp hguar 0 (on_hring (k (b, h))) Q y) ->
  wp hguar 0 (on_hring (bind (Ring_is_full (producer_cursor (rp_inner p)) (producer_cached_head (rp_inner p))) k)) Q x.
Proof.
  intros Hx Hk. unfold Ring_is_full, Ring_capacity. cbn [bind].
  eapply (wp_idle_load p hist); [exact Hx|]. intros n y Hy. cbn [bind].
  destruct (_ >=? _).
  - eapply (wp_idle_act p (fun h => mkRProducer (mkProducer (producer_cursor (rp_inner p)) h)) hist); [exact Hy| |].
    + intros s g (Hi & _ & Hp & _). cbn [fst snd rp_inner]. split; [apply Hi|].
      by destruct (pa_refresh cap base (rp_inner p) (zlength hist) hist (hr_ring s) (hg_ring g) Hp) as [Hp' _].
    + intros h z Hz. by apply Hk.
  - apply Hk. destruct p as [[cur hd]]. exact Hy.
Qed.

Lemma wp_is_full_idle p hist x :
  resting p hist x -> wp hguar 0 (RProducer_is_full p) (fun '(_, p') => resting p' hist) x.
Proof.
  intros Hx. unfold RProducer_is_full. apply wp_bind. unfold Producer_is_full.
  eapply (wp_idle_is_full p hist); [exact Hx|]. intros b h y Hy. cbv beta iota zeta.
  destruct b; cbn [negb].
  - eapply wp_idle_register; [exact Hy|]. intros reg z Hz. destruct reg; cbn [negb].
    + eapply (wp_idle_is_full (mkRProducer (mkProducer (producer_cursor (rp_inner p)) h))); [exact Hz|].
      intros b' h' w Hw. eapply wp_retP; [apply resting_stable|exact Hw|]. intros u Hu.
      eapply wp_retP; [apply resting_stable|exact Hu|done].
    + eapply wp_retP; [apply resting_stable|exact Hz|]. intros u Hu.
      eapply wp_retP; [apply resting_stable|exact Hu|done].
  - eapply wp_retP; [apply resting_stable|exact Hy|]. intros u Hu.
    eapply wp_retP; [apply resting_stable|exact Hu|done].
Qed.

Lemma wp_close_sender p hist x :
  resting p hist x -> wp hguar 0 (RProducer_close p) (fun _ => resting p hist) x.
Proof.
  intros Hx. unfold RProducer_close, Producer_close.
  eapply (wp_idle_act p (fun _ => p) hist); [exact Hx| |].
  - intros s g (Hi & Hid & Hp & _). cbn [fst snd].
    assert (Hok : rok (set_tail (producer_cursor (rp_inner p)) (hr_ring s), hg_ring g)).
    { destruct Hp as (Ho & Et & Eh & Ec & _). cbn in *. rewrite Ec. unfold ok in *. cbn in *.
      rewrite Et, <- Eh in *. apply (ring_ok_set_tail _ _ _ _ (zlength (g_hist (hg_ring g)))); [done|lia]. }
    split; [done|]. destruct (pa_owned cap base (rp_inner p) (zlength hist) hist) as (_ & _ & _ & Hf). by eapply Hf.
  - intros u y Hy. eapply (wp_idle_act p (fun _ => p) hist); [exact Hy|intros s g Hs; by eapply resting_flags|].
    intros u' z Hz. eapply wp_retP; [apply resting_stable|exact Hz|done].
Qed.

(** A send in progress whose values are all flushed. *)
Definition sending (p : RProducer) hist (x : hst) : Prop :=
  F_send x /\ prod (rp_inner p) (zlength hist) hist (rg x).

Lemma sending_stable p hist : stable hguar 0 (sending p hist).
Proof. apply (embeds_stable rguar hguar hr_ring set_hr_ring hg_ring put_hg 0 0); [apply embeds_send|apply pa_stable]. Qed.

Lemma wp_prod {A B} (q : prog (Ring T) A) Q (k : A -> prog (HRing T) B) (R : B -> hst -> Prop) x :
  F_send x -> wp rguar 0 q Q (rg x) ->
  (forall a y, F_send y -> Q a (rg y) -> wp hguar 0 (k a) R y) ->
  wp hguar 0 (bind (on_hring q) k) R x.
Proof.
  intros HF H Hk. eapply wp_call.
  - apply (wp_embed rguar hguar hr_ring set_hr_ring hg_ring put_hg get_put_ring gget_gput_ring 0 0 F_send);
      [apply embeds_send|exact HF|exact H].
  - intros a y [Ha HFy]. auto.
Qed.

Lemma wp_push_then_flush p v hist x :
  sending p hist x ->
  wp hguar 0 (push_then_flush p v) (fun '(r, p') y =>
    match r with Ok _ => sending p' (hist ++ [v]) y | Err v' => v' = v /\ sending p' hist y end) x.
Proof.
  intros [HF Hp]. unfold push_then_flush.
  eapply wp_prod; [exact HF|eapply wp_push, Hp|]. intros [[[]|w] p'] y HFy Hy; cbv beta iota in Hy.
  - eapply wp_prod; [exact HFy|eapply wp_flush, Hy|]. intros u z HFz Hz.
    eapply wp_retP; [apply (sending_stable (mkRProducer p') (hist ++ [v]))|by split|done].
  - destruct Hy as [-> Hy].
    eapply wp_retP; [apply (sending_stable (mkRProducer p') hist)|by split|done].
Qed.

(** The end of a send: the word goes back to idle, and a send that overlapped
    the close disposes of what is left. *)
Definition taken (p : RProducer) hist (x : hst) : Prop :=
  exists c ct ph h, hr_slot x.1 = Some c /\ cons c ct ph h (hg_del x.2 ++ hr_destroyed x.1) (rg x) /\
    F_taken (rp_inner p) hist (hr_destroyed x.1) (hg_del x.2) x.

Lemma taken_stable p hist : stable hguar 0 (taken p hist).
Proof.
  intros x y (c & ct & ph & h & _ & _ & (_ & Ho & _)) [_ (E & _)]%hrely_0. congruence.
Qed.

Lemma wp_taken p hist c ct ph h D del x :
  F_taken (rp_inner p) hist D del x -> cons c ct ph h (del ++ D) (rg x) ->
  wp hguar 0 (discard_and_drop c) (fun _ => resting p hist) x.
Proof.
  intros HF Hc.
  assert (Ht : g_t (hg_ring x.2) = zlength hist).
  { destruct HF as (_ & _ & _ & _ & _ & (_ & Et & _)). exact Et. }
  eapply wp_mono; [|eapply (wp_discard_and_drop 0 (fun D => F_taken (rp_inner p) hist D del)
    (fun D => embeds_taken (rp_inner p) hist D del) (F_taken_destroy (rp_inner p) hist del)); eauto].
  intros u y (c' & ct' & vs & Hle & (Hy & Ho & HD & Hw & Hdel & Hp) & Hc').
  split_and!; auto; [by right|]. intros _.
  destruct Hc' as (Hok & E1 & E2 & E3 & _ & _ & Hr). destruct Hp as (_ & Et & Eh & _). cbn in *.
  assert (ct' = zlength hist) as -> by lia. unfold accounted. rewrite Eh, E1, E2, HD, Hdel. split_and!; auto.
  rewrite app_assoc, <- E3, Eh. symmetry. apply take_ge. unfold zlength. lia.
Qed.

Lemma wp_SendGuard_drop p hist x :
  sending p hist x -> wp hguar 0 SendGuard_drop (fun _ => resting p hist) x.
Proof.
  intros Hx. unfold SendGuard_drop. eapply wp_act; [apply sending_stable|exact Hx|].
  clear x Hx. intros s g [[Hx Ha] Hp]. cbn [fst snd]. unfold active in Ha. cbn in Ha.
  assert (Et : g_t (hg_ring g) = zlength (g_hist (hg_ring g))).
  { destruct Hp as (_ & E1 & E2 & _). cbn in *. by rewrite E1, E2. }
  destruct Ha as [Ha|Ha]; rewrite Ha; cbn [Z.land Z.eqb negb ACTIVE CLOSED].
  - assert (Ho : hg_own g = OCons).
    { destruct Hx as [_ _ A B _ _]. cbn in *. destruct (hg_own g) eqn:Eo; [done| |specialize (B eq_refl); lia].
      destruct A as [_ A]. specialize (A eq_refl). lia. }
    set (s' := set_hr_state _ s). assert (Hs' : hr_state s' = 0) by (subst s'; cbn; done).
    assert (Hi : hinv (s', g)).
    { destruct Hx as [A B C E G H]. split; cbn [fst snd] in *; auto; try (left; left; done); try congruence.
      rewrite Hs', Ho. done. }
    exists g. split.
    { split; [done|]. split; [done|]. right; right. split_and!; auto. }
    eapply wp_retP; [apply (resting_stable p hist)| |done]. split_and!; auto; [by left|].
    cbn. congruence.
  - assert (Ho : hg_own g = OSlot) by (by apply Hx).
    destruct (hi_parked _ Hx Ho) as (c & ct & ph & h & Hs & Hc). cbn [fst snd] in *.
    set (s' := set_hr_state _ s). set (g' := mkHG (hg_ring g) OProd (hg_del g)).
    assert (Hs' : hr_state s' = 2) by (subst s'; cbn; done).
    assert (Hi : hinv (s', g')).
    { destruct Hx as [A B C E G H]. split; cbn [fst snd] in *; auto; try (left; right; done); try done. }
    exists g'. split.
    { split; [done|]. split; [done|]. right; right. split_and!; auto. }
    eapply wp_act; [apply (taken_stable p hist)| |].
    { exists c, ct, ph, h. split_and!; auto. by split_and!. }
    clear s g s' g' Hx Hp Ha Et Ho Hs Hc Hs' Hi ct ph h c.
    intros s g (c & ct & ph & h & Hs & Hc & (Hx & Ho & HD & Hw & Hd & Hp)). cbn [fst snd] in *.
    assert (Hok : rok (rg (s, g))) by apply Hx.
    assert (Hi : hinv (set_hr_slot None s, g)).
    { eapply hinv_cons_step; [exact Hx|cbn in *; congruence|done..|]. by apply guar_refl; [lia|]. }
    exists g. split.
    { split; [done|]. split; [done|]. right; left. split_and!; auto. apply guar_refl; [lia|done]. }
    rewrite Hs. eapply wp_taken; [|exact Hc]. by split_and!.
Qed.

Lemma wp_send p v hist x :
  resting p hist x ->
  wp hguar 0 (RProducer_push_and_flush Coordinated p v) (fun '(r, p') y =>
    match r with Ok _ => resting p' (hist ++ [v]) y | Err v' => v' = v /\ resting p' hist y end) x.
Proof.
  intros Hx. unfold RProducer_push_and_flush. cbn [COORDINATED negb]. unfold Cleanup_begin.
  eapply wp_act; [apply resting_stable|exact Hx|]. clear x Hx. intros s g (Hx & Hid & Hp & Ha). cbn [fst snd].
  destruct (Z.eqb_spec (hr_state s) 0) as [E|E]; cbn [fst snd negb bind].
  - assert (Hi : hinv (set_hr_state ACTIVE s, g)).
    { destruct Hx as [A B C F G H]. split; cbn [fst snd] in *; auto; try (right; left; done).
      - rewrite E in C. cbn. split; [done|]. intros Ho%C. done.
      - intros Ho%F. lia. }
    exists g. split. { split; [done|]. split; [done|]. right; right. split_and!; auto. }
    eapply wp_call; [eapply wp_push_then_flush; split; [split; [done|by left]|exact Hp]|].
    intros [[[]|w] p'] y Hy; cbv beta iota in Hy.
    + eapply wp_call; [eapply wp_SendGuard_drop, Hy|]. intros u z Hz.
      eapply wp_retP; [apply resting_stable|exact Hz|done].
    + destruct Hy as [-> Hy]. eapply wp_call; [eapply wp_SendGuard_drop, Hy|]. intros u z Hz.
      eapply wp_retP; [apply resting_stable|exact Hz|done].
  - exists g. split.
    { split; [done|]. split; [done|]. left. split_and!; auto. apply guar_refl; [lia|apply Hx]. }
    eapply wp_retP; [apply (resting_stable p hist)|by split_and!|done].
Qed.

Lemma wp_exec_hsends cmds : forall p hist x,
  resting p hist x ->
  wp hguar 0 (exec_hsends cmds p) (fun '(o, p') y => returned o /\ resting p' (hist ++ sent_ok o) y) x.
Proof.
  induction cmds as [|cmd cmds IH]; intros p hist x Hx; cbn [exec_hsends].
  - eapply wp_retP; [apply resting_stable|exact Hx|]. intros y Hy. split; [constructor|]. cbn. by rewrite app_nil_r.
  - eapply (wp_call _ _ _ _ (fun '(o, p') y => returned o /\ resting p' (hist ++ sent_ok o) y)).
    + destruct cmd as [v| |]; cbn [exec_hsend].
      * eapply wp_call; [eapply wp_send, Hx|]. intros [[[]|w] p'] y Hy; cbv beta iota in Hy.
        -- eapply wp_retP; [apply resting_stable|exact Hy|]. intros z Hz. split; [by repeat constructor|done].
        -- destruct Hy as [-> Hy]. eapply wp_retP; [apply resting_stable|exact Hy|]. intros z Hz.
           split; [by repeat constructor|]. cbn. by rewrite app_nil_r.
      * eapply wp_call; [eapply wp_is_full_idle, Hx|]. intros [b p'] y Hy.
        eapply wp_retP; [apply resting_stable|exact Hy|]. intros z Hz. split; [constructor|]. cbn. by rewrite app_nil_r.
      * unfold RProducer_is_consumer_dropped. cbn [COORDINATED].
        eapply wp_act; [apply resting_stable|exact Hx|]. intros s g Hr. exists g. cbn [fst snd bind]. split.
        { split; [apply Hr|]. split; [done|]. left. split_and!; auto. apply guar_refl; [lia|apply Hr]. }
        eapply wp_retP; [apply resting_stable|exact Hr|]. intros z Hz. split; [constructor|]. cbn. by rewrite app_nil_r.
    + intros [o p'] y [Ho Hy]. eapply wp_call; [eapply IH, Hy|]. intros [o' p2] z [Ho' Hz].
      eapply wp_retP; [apply resting_stable|exact Hz|]. intros w Hw. split; [by apply Forall_app|].
      unfold sent_ok in *. by rewrite flat_map_app, app_assoc.
Qed.

Lemma wp_sender_thread cmds p x :
  resting p [] x ->
  wp hguar 0 (sender_thread cmds p) (fun o y => returned o /\ exists p', resting p' (sent_ok o) y) x.
Proof.
  intros Hx. unfold sender_thread. eapply wp_call; [eapply wp_exec_hsends, Hx|].
  intros [o p'] y [Ho Hy]. eapply wp_call; [eapply wp_close_sender, Hy|]. intros u z Hz.
  eapply wp_retP; [apply resting_stable|exact Hz|]. intros w Hw. cbn in Hw. eauto.
Qed.

End handoff.

Section pool.
Context {T Adm : Type}.

(** The two threads over one ring; their results are tagged. *)
Definition handoff_pool (scmds : list (hsend_cmd (T := T))) (rcmds : list (hrecv_cmd (T := T) (Adm := Adm)))
    (p : RProducer) (c : RConsumer) : list (prog (HRing T) (list (T * result unit T) + list T)) :=
  [(let* o := sender_thread scmds p in Ret (inl o)); (let* d := receiver_thread rcmds c in Ret (inr d))].

Definition handoff_post (cap base : Z) (i : nat) (a : list (T * result unit T) + list T) (x : HRing T * hghost) : Prop :=
  match i, a with
  | O, inl o => returned o /\ exists p, resting cap base p (sent_ok o) x
  | 1%nat, inr d => closed cap base d x
  | _, _ => False
  end.

Lemma handoff_pool_wp cap base scmds rcmds r p c :
  Forall hrecv_ok rcmds -> ring_rep_at base 0 0 [] r p c (spec_init cap) ->
  pool_wp (hguar cap base) (handoff_post cap base)
    (handoff_pool scmds rcmds (mkRProducer p) (mkRConsumer (Some c)))
    (mkHRing r 0 None [], mkHG (mkGhost 0 0 0 []) OCons []).
Proof.
  intros Hc H. pose proof (rep_ok _ _ _ _ _ _ _ _ H) as Hok. cbn in Hok.
  pose proof (valid_cap_range _ (ok_cap _ _ _ _ _ _ _ Hok)).
  pose proof (rep_cursor _ _ _ _ _ _ _ _ H) as E1. pose proof (rep_cached_head _ _ _ _ _ _ _ _ H) as E2.
  pose proof (rep_chead _ _ _ _ _ _ _ _ H) as E3. pose proof (rep_cached_tail _ _ _ _ _ _ _ _ H) as E4.
  cbn in E1, E2, E3, E4. set (x := (_, _)).
  assert (Hi : hinv cap base x) by (split; cbn; auto; try (left; left; done); done).
  intros [|[|i]] q Hq; [| |by destruct i]; cbn in Hq; simplify_eq.
  - eapply wp_call; [eapply (wp_sender_thread cap base scmds (mkRProducer p))|].
    + split_and!; auto; [by left| |done]. split_and!; auto. exists 0. cbn.
      split_and!; auto; unfold zlength; simpl; lia.
    + intros o y [Ho [p' Hp]]. eapply wp_retP; [apply resting_stable|exact Hp|]. cbn. eauto.
  - eapply wp_call; [eapply (wp_receiver_thread cap base rcmds (mkRConsumer (Some c))); [done|]|].
    + split; [split_and!; auto|]. exists c, 0, 0, 0. split; [done|]. split_and!; auto; cbn; lia.
    + intros d y Hd. eapply wp_retP; [apply closed_stable|exact Hd|]. done.
Qed.

(** C12: coordinated teardown accounts for every payload.  For every capacity,
    any sequence of sends (with checks for fullness and disconnection) and any
    sequence of receiver operations followed by the close of the receiver:
    every interleaving of the atomic accesses of the two threads ends, no
    state of it is a fault or a deadlock (closing never waits for a paused
    send), and in its final state each accepted value was delivered or
    destroyed exactly once, in sending order, each rejected value was returned
    to its sender, and the ring's own destructor finds nothing left. *)
Theorem handoff_exactly_once (capacity : Z) (scmds : list (hsend_cmd (T := T))) (rcmds : list (hrecv_cmd (T := T) (Adm := Adm))) :
  0 < capacity <= 2 ^ 62 -> Forall hrecv_ok rcmds ->
  exists hr p c, ring_spsc capacity = Done (hr, p, c) /\
    Acc (flip pstep) (hr, handoff_pool scmds rcmds p c) /\
    forall hr' ps', rtc pstep (hr, handoff_pool scmds rcmds p c) (hr', ps') ->
      (exists c', pstep (hr', ps') c') \/
      exists o d, ps' = [Ret (inl o); Ret (inr d)] /\ returned o /\
        sent_ok o = d ++ hr_destroyed hr' /\
        runs Ring_drop (hr_ring hr') (fun left _ => left = []).
Proof.
  intros Hcap Hc. destruct (spsc_init_rep_at (T := T) capacity 0 Hcap ltac:(usize))
    as (cap & ring & _ & _ & _ & E & H).
  exists (mkHRing ring 0 None []), (mkRProducer (mkProducer 0 0)), (mkRConsumer (Some (mkConsumer 0 0))).
  split; [by unfold ring_spsc; rewrite E|]. split; [apply pstep_terminating|]. intros hr' ps' Hr.
  destruct (pool_sound _ _ _ _ _ _ _ (handoff_pool_wp _ _ scmds _ _ _ _ Hc H) Hr) as [g' Hw].
  destruct (pool_progress _ _ _ _ Hw (hr', ps') eq_refl) as [Hstep|Hfin]; [by left|right].
  apply pool_length in Hr. destruct ps' as [|q1 [|q2 []]]; try discriminate Hr.
  inversion Hfin as [|? ? [o ->] Hfin2]; subst. inversion Hfin2 as [|? ? [d ->] _]; subst.
  pose proof (pool_wp_ret _ _ _ _ 0 _ Hw eq_refl) as H0.
  pose proof (pool_wp_ret _ _ _ _ 1 _ Hw eq_refl) as H1.
  destruct o as [o|o]; [|done]. destruct d as [d|d]; [done|].
  destruct H0 as [Ho (p & Hi & Hid & Hp & Ha)]. destruct H1 as [_ Hd]. exists o, d. split; [done|]. split; [done|].
  assert (Hacc : accounted d (hr', g')).
  { destruct Hd as [(_ & _ & Hd)|[Hd1 Hd2]]; [done|]. rewrite <- Hd2. apply Ha.
    destruct (hg_own (hr', g').2) eqn:Eo; [done| |done].
    apply (hi_slot _ _ _ Hi) in Eo. unfold idle in Hid. lia. }
  destruct Hacc as (A1 & A2 & A3). destruct Hp as (Hok & _ & Eh & _). cbn in *. split; [congruence|].
  unfold Ring_drop. unfold ok in Hok. cbn in Hok. rewrite A1, A2 in Hok.
  pose proof (ok_order _ _ _ _ _ _ _ Hok) as Hord.
  assert (Et : g_t (hg_ring g') = zlength (g_hist (hg_ring g'))) by lia. rewrite Et in Hok.
  eapply runs_mono; [eapply drop_remaining_ok, Hok|]. intros vs r'' [-> _]. apply drop_ge. unfold zlength. lia.
Qed.

End pool.

(** A sender of three values against a receiver that takes one and closes. *)
Lemma handoff_exactly_once_witness :
  exists hr p c, ring_spsc 2 = Done (hr, p, c) /\
    let pool := handoff_pool [HSend 1%nat; HSend 2%nat; HIsFull; HSend 3%nat; HIsDropped]
                  [HPrefetch; HPop; HPopIntoWhile 4 (fun (b : nat) v => (Nat.ltb v 2, b)) O; HRelease] p c in
    Acc (flip pstep) (hr, pool) /\
    forall hr' ps', rtc pstep (hr, pool) (hr', ps') ->
      (exists c', pstep (hr', ps') c') \/
      exists o d, ps' = [Ret (inl o); Ret (inr d)] /\ returned o /\
        sent_ok o = d ++ hr_destroyed hr' /\
        runs Ring_drop (hr_ring hr') (fun left _ => left = []).
Proof.
  apply (handoff_exactly_once 2); [lia|]. repeat constructor; cbn; lia.
Defined.

(** One schedule of it: the receiver closes between the sender's reservation
    and its publication, and the send disposes of what it published. *)
Example handoff_overlap :
  match ring_spsc 2 with
  | Done (hr, p, c) =>
      let '(hr', ps) := sched (hr, handoff_pool [HSend 1%nat; HSend 2%nat] ([] : list (hrecv_cmd (Adm := unit))) p c)
                          (replicate 3 0%nat ++ replicate 30 1%nat ++ replicate 30 0%nat) in
      (ps, hr_destroyed hr')
  | Fault _ => ([], [])
  end = ([Ret (inl [(1%nat, Ok tt); (2%nat, Err 2%nat)]); Ret (inr [])], [1%nat]).
Proof. vm_compute. reflexivity. Qed.
