(* ===== verification/MpscLane.v ===== *)
(** * The receiver's lanes

    Models [src/src/mpsc/receiver/lane.rs] and the shared state of an MPSC
    channel ([src/src/mpsc.rs], [Shared], [Registry], [LaneKey], [LaneId]).
    Allocations behind an [Arc] are entries of the lists of [Shared] (the
    rings of the lanes, and the groups, pages and signals of the readiness
    index); an [Arc] is an index.  The teardown policy of the channel is the
    parameter [pol]. *)

From S2P Require Import Prelude Prog Config Wait Ready YRing Handoff.
Local Open Scope prog_scope.

Definition PREFETCH_LIMIT : Z := 64.
Definition READY_POLL_INTERVAL : Z := 64.
Definition MIN_RELEASE_BATCH : Z := 64.
Definition MAX_CAPACITY_PER_SENDER : Z := 2 ^ 62.

Record LaneKey : Type := mkLaneKey { key_slot : Z; key_generation : Z }.
Definition LaneKey_eqb (a b : LaneKey) : bool :=
  (key_slot a =? key_slot b) && (key_generation a =? key_generation b).

#[export] Instance LaneKey_eq_dec : EqDecision LaneKey.
Proof. solve_decision. Defined.

Record LaneId : Type := mkLaneId { id_key : LaneKey; id_channel : Z }.

Section lane.
Context {T : Type}.

Record PendingLane : Type := mkPendingLane {
  pl_key : LaneKey;
  pl_signal : Z;
  pl_ring : Z;
  pl_consumer : RConsumer
}.

Record Registry : Type := mkRegistry {
  reg_pending : list PendingLane;
  reg_free : list LaneKey;
  reg_groups : list Z;
  reg_pages : list Z;
  reg_next_slot : Z
}.

Record Shared : Type := mkShared {
  sh_rings : list (HRing T);
  sh_index : ready_store;
  sh_registry : Registry;
  sh_registry_generation : Z;
  sh_registered_lanes : Z;
  sh_live_senders : Z;
  sh_receiver_alive : bool;
  sh_data_waiter : WaitCell;
  sh_capacity_per_sender : Z;
  sh_channel_id : Z
}.

Definition set_sh_rings (x : list (HRing T)) (s : Shared) : Shared :=
  mkShared x (sh_index s) (sh_registry s) (sh_registry_generation s) (sh_registered_lanes s)
    (sh_live_senders s) (sh_receiver_alive s) (sh_data_waiter s) (sh_capacity_per_sender s) (sh_channel_id s).
Definition set_sh_index (x : ready_store) (s : Shared) : Shared :=
  mkShared (sh_rings s) x (sh_registry s) (sh_registry_generation s) (sh_registered_lanes s)
    (sh_live_senders s) (sh_receiver_alive s) (sh_data_waiter s) (sh_capacity_per_sender s) (sh_channel_id s).
Definition set_sh_registry (x : Registry) (s : Shared) : Shared :=
  mkShared (sh_rings s) (sh_index s) x (sh_registry_generation s) (sh_registered_lanes s)
    (sh_live_senders s) (sh_receiver_alive s) (sh_data_waiter s) (sh_capacity_per_sender s) (sh_channel_id s).
Definition set_sh_counts (gen lanes senders : Z) (s : Shared) : Shared :=
  mkShared (sh_rings s) (sh_index s) (sh_registry s) gen lanes
    senders (sh_receiver_alive s) (sh_data_waiter s) (sh_capacity_per_sender s) (sh_channel_id s).
Definition set_sh_receiver_alive (x : bool) (s : Shared) : Shared :=
  mkShared (sh_rings s) (sh_index s) (sh_registry s) (sh_registry_generation s) (sh_registered_lanes s)
    (sh_live_senders s) x (sh_data_waiter s) (sh_capacity_per_sender s) (sh_channel_id s).
Definition set_sh_data_waiter (x : WaitCell) (s : Shared) : Shared :=
  mkShared (sh_rings s) (sh_index s) (sh_registry s) (sh_registry_generation s) (sh_registered_lanes s)
    (sh_live_senders s) (sh_receiver_alive s) x (sh_capacity_per_sender s) (sh_channel_id s).

(** A lane's ring, the readiness index and the data cell as parts of the
    shared state. *)
Definition on_lane_ring {A} (h : Z) (p : prog (HRing T) A) : prog Shared A :=
  focus (fun s => zlookup (sh_rings s) h) (fun r s => set_sh_rings (zinsert (sh_rings s) h r) s) p.
Definition on_index {A} (p : prog ready_store A) : prog Shared A := lift sh_index set_sh_index p.
Definition on_data_waiter {A} (p : prog WaitCell A) : prog Shared A :=
  lift sh_data_waiter set_sh_data_waiter p.

Record Lane : Type := mkLane {
  lane_key : LaneKey;
  lane_signal : Z;
  lane_ring : Z;
  lane_consumer : RConsumer;
  cached_available : Z;
  unreleased : Z;
  release_batch : Z;
  burst : Z;
  fast_left : Z;
  queued : bool
}.

Definition set_consumer (c : RConsumer) (l : Lane) : Lane :=
  mkLane (lane_key l) (lane_signal l) (lane_ring l) c (cached_available l) (unreleased l)
    (release_batch l) (burst l) (fast_left l) (queued l).
Definition set_counters (cached unrel bst fast : Z) (l : Lane) : Lane :=
  mkLane (lane_key l) (lane_signal l) (lane_ring l) (lane_consumer l) cached unrel
    (release_batch l) bst fast (queued l).
Definition set_cached (n : Z) (l : Lane) : Lane :=
  set_counters n (unreleased l) (burst l) (fast_left l) l.
Definition set_burst (n : Z) (l : Lane) : Lane :=
  set_counters (cached_available l) (unreleased l) n (fast_left l) l.
Definition set_queued (b : bool) (l : Lane) : Lane :=
  mkLane (lane_key l) (lane_signal l) (lane_ring l) (lane_consumer l) (cached_available l) (unreleased l)
    (release_batch l) (burst l) (fast_left l) b.

Inductive EmptyLane : Type :=
| EmptyKeep (released : bool)
| EmptyIdle (disconnected released : bool).

Definition EmptyLane_released (e : EmptyLane) : bool :=
  match e with EmptyKeep released | EmptyIdle _ released => released end.

Inductive LanePoll : Type :=
| PollItem (value : T) (rotate released : bool)
| PollKeep (released : bool)
| PollIdle (disconnected released : bool)
| PollStale.

Definition Lane_new (key : LaneKey) (signal ring : Z) (consumer : RConsumer) : prog Shared Lane :=
  let* capacity := on_lane_ring ring (RConsumer_capacity consumer) in
  let release_batch := Z.min (Z.max (div_ceil capacity 2) MIN_RELEASE_BATCH) capacity in
  Ret (mkLane key signal ring consumer 0 0 release_batch 0 0 false).

(** Refunds the unpopped part of the fast window to the counters. *)
Definition Lane_close_fast (l : Lane) : prog Shared Lane :=
  if negb (fast_left l =? 0) then
    let* u := usub (unreleased l) (fast_left l) in
    let* b := usub (burst l) (fast_left l) in
    Ret (set_counters (cached_available l + fast_left l) u b 0 l)
  else Ret l.

Definition Lane_prefetch (l : Lane) : prog Shared Lane :=
  let* '(n, c) := on_lane_ring (lane_ring l) (RConsumer_prefetch (lane_consumer l)) in
  Ret (set_cached n (set_consumer c l)).

Definition Lane_grant_fast (l : Lane) (poll_budget : Z) : prog Shared Lane :=
  let* l := Lane_close_fast l in
  let* l := (if cached_available l =? 0 then Lane_prefetch l else Ret l) in
  let granted :=
    Z.min (Z.min (Z.min (cached_available l)
                    (saturating_sub (release_batch l) (unreleased l + 1)))
             (saturating_sub PREFETCH_LIMIT (burst l + 1))) poll_budget in
  let* cached := usub (cached_available l) granted in
  Ret (set_counters cached (unreleased l + granted) (burst l + granted) granted l).

Definition Lane_pop_fast (l : Lane) : prog Shared (option T * Lane) :=
  if fast_left l =? 0 then Ret (None, l)
  else
    let l := set_counters (cached_available l) (unreleased l) (burst l) (fast_left l - 1) l in
    let* '(v, c) := on_lane_ring (lane_ring l) (RConsumer_pop (lane_consumer l)) in
    match v with
    | None => Fail (Panic "a fast window holds prefetched values")
    | Some v => Ret (Some v, set_consumer c l)
    end.

Definition Lane_release_pending (l : Lane) : prog Shared (bool * Lane) :=
  let* l := Lane_close_fast l in
  if unreleased l =? 0 then Ret (false, l)
  else
    let* _ := on_lane_ring (lane_ring l) (RConsumer_release (lane_consumer l)) in
    Ret (true, set_counters (cached_available l) 0 (burst l) (fast_left l) l).

Definition Lane_settle_empty (l : Lane) : prog Shared (EmptyLane * Lane) :=
  let* '(released, l) := Lane_release_pending l in
  let* _ := on_index (LaneSignal_finish_drain (lane_signal l)) in
  let* l := Lane_prefetch l in
  let l := set_burst 0 l in
  if negb (cached_available l =? 0) then
    let* _ := on_index (LaneSignal_claim_after_empty (lane_signal l)) in
    Ret (EmptyKeep released, l)
  else
    let l := set_queued false l in
    let* disconnected := on_lane_ring (lane_ring l) (RConsumer_is_disconnected (lane_consumer l)) in
    Ret (EmptyIdle disconnected released, l).

Definition Lane_refill (l : Lane) : prog Shared (option EmptyLane * Lane) :=
  let* l := Lane_close_fast l in
  if cached_available l =? 0 then
    let* l := Lane_prefetch l in
    if cached_available l =? 0 then
      let* '(e, l) := Lane_settle_empty l in Ret (Some e, l)
    else Ret (None, l)
  else Ret (None, l).

(** Pop with the release at a full batch: the part [poll] and [pop_targeted]
    share.  [burst_step] is what the pop adds to the burst. *)
Definition Lane_pop_counted (l : Lane) (burst_step : Z) (msg : string) : prog Shared (T * bool * Lane) :=
  let* '(v, c) := on_lane_ring (lane_ring l) (RConsumer_pop (lane_consumer l)) in
  match v with
  | None => Fail (Panic msg)
  | Some value =>
      let l := set_consumer c l in
      let* cached := usub (cached_available l) 1 in
      let l := set_counters cached (unreleased l + 1) (burst l + burst_step) (fast_left l) l in
      let* '(released, l) :=
        (if unreleased l =? release_batch l then Lane_release_pending l else Ret (false, l)) in
      Ret (value, released, l)
  end.

Definition Lane_poll (FAIR : bool) (l : Lane) : prog Shared (LanePoll * Lane) :=
  let* '(empty, l) := Lane_refill l in
  match empty with
  | Some (EmptyKeep released) => Ret (PollKeep released, l)
  | Some (EmptyIdle disconnected released) => Ret (PollIdle disconnected released, l)
  | None =>
      let* '(value, released, l) :=
        Lane_pop_counted l 1 "cached_available guarantees prefetched data" in
      let rotate := FAIR || (burst l =? PREFETCH_LIMIT) in
      let l := if rotate then set_burst 0 l else l in
      Ret (PollItem value rotate released, l)
  end.

Definition Lane_pop_fair (l : Lane) (poll_budget : Z) : prog Shared (option T * Lane) :=
  let* l :=
    (if fast_left l =? 0 then Lane_grant_fast (set_burst 0 l) poll_budget else Ret l) in
  let* '(v, l) := Lane_pop_fast l in
  match v with
  | None => Ret (None, l)
  | Some value => Ret (Some value, set_burst (fast_left l) l)
  end.

Definition Lane_pop_targeted (l : Lane) : prog Shared (T * bool * Lane) :=
  if negb (fast_left l =? 0) then Fail (Panic "refill closes the fast window")
  else Lane_pop_counted l 0 "prefetched value".

Definition Lane_end_full_burst (l : Lane) : prog Shared (bool * Lane) :=
  if negb (fast_left l =? 0) then Fail (Panic "refill closes the fast window")
  else if negb (burst l =? PREFETCH_LIMIT) then Ret (false, l)
  else Ret (true, set_burst 0 l).

Definition Lane_reload_is_empty (l : Lane) : prog Shared (bool * Lane) :=
  let* l := Lane_close_fast l in
  let* l := (if cached_available l =? 0 then Lane_prefetch l else Ret l) in
  Ret (cached_available l =? 0, l).

Definition Lane_chunk_limit (l : Lane) : prog Shared Z :=
  if negb (fast_left l =? 0) then Fail (Panic "refill closes the fast window")
  else
    let* a := usub PREFETCH_LIMIT (burst l) in
    let* b := usub (release_batch l) (unreleased l) in
    Ret (Z.min (Z.min (cached_available l) a) b).

(** The admission of a bulk drain: [AdmitAll], or a predicate with the state
    it captures. *)
Inductive Admit (Adm : Type) : Type :=
| AdmitAll
| AdmitWhile (accepts : Adm -> T -> bool * Adm).
Arguments AdmitAll {Adm}.
Arguments AdmitWhile {Adm} accepts.

Definition Lane_move_chunk {Adm} (l : Lane) (output : list T) (take : Z) (admission : Admit Adm) (adm : Adm)
    : prog Shared (Z * list T * Adm * Lane) :=
  let* '(moved, output, adm, c) :=
    match admission with
    | AdmitAll =>
        let* '(moved, output, c) := on_lane_ring (lane_ring l) (RConsumer_pop_into (lane_consumer l) output take) in
        if negb (moved =? take) then Fail (Panic "prefetched window shorter than cached")
        else Ret (moved, output, adm, c)
    | AdmitWhile accepts =>
        on_lane_ring (lane_ring l) (RConsumer_pop_into_while (lane_consumer l) output take accepts adm)
    end in
  let l := set_consumer c l in
  let* cached := usub (cached_available l) moved in
  let l := set_counters cached (unreleased l + moved) (burst l + moved) (fast_left l) l in
  let* l :=
    (if unreleased l =? release_batch l then
       let* '(released, l) := Lane_release_pending l in
       if released then
         let* _ := on_index (LaneSignal_notify_space (lane_signal l)) in Ret l
       else Ret l
     else Ret l) in
  Ret (moved, output, adm, l).

End lane.
Arguments Shared T : clear implicits.
Arguments Admit T Adm : clear implicits.
Arguments LanePoll T : clear implicits.
Arguments AdmitAll {T Adm}.
Arguments AdmitWhile {T Adm} accepts.
