(* ===== verification/MpscLaneInv.v ===== *)
(** * The lane invariant of the MPSC receiver

    A lane's counters mirror the state of its ring: the cached window, the
    consumed and unreleased slots, the burst and the open fast window.
    [lane_rep] relates a lane, its ring and the readiness entry it signals on
    to the abstract queue of YRingSpec; the lemmas show that every lane
    operation keeps the relation and never reaches one of its panics. *)

From S2P Require Import Prelude Prog Config Wait Ready YRing YRingInv YRingSpec YRingThm Handoff HandoffSeq MpscLane.
Local Open Scope prog_scope.

Section rules.
Context {T : Type}.
Implicit Types (s : Shared T) (hr : HRing T) (sp : spsc_spec T).

(** ** Running the parts of the shared state *)

Lemma runs_lane_ring {A} (p : prog (HRing T) A) s h hr Q :
  zlookup (sh_rings s) h = Some hr -> runs p hr Q ->
  runs (on_lane_ring h p) s (fun a s' => exists hr',
    s' = set_sh_rings (zinsert (sh_rings s) h hr') s /\ Q a hr').
Proof.
  intros Hh H. apply runs_elim in H as (a & hr' & E & HQ). eapply runs_intro.
  - unfold on_lane_ring. rewrite (run_focus _ _ p) with (s1 := hr); [rewrite E; reflexivity|..|done].
    + intros s1 s1' s2 H2. cbn. by eapply zlookup_zinsert_same.
    + intros s1 s1' s2. unfold set_sh_rings; cbn. by rewrite zinsert_zinsert.
    + intros s1 s2 H2. unfold set_sh_rings. rewrite zinsert_same by done. by destruct s2.
  - eauto.
Qed.

Lemma runs_index {A} (p : prog ready_store A) s Q :
  runs p (sh_index s) Q -> runs (on_index p) s (fun a s' => exists i, s' = set_sh_index i s /\ Q a i).
Proof.
  intros H. apply runs_elim in H as (a & i & E & HQ). eapply runs_intro; [|eauto].
  unfold on_index. rewrite run_lift, E; try done. by intros [].
Qed.

Lemma run_usub {S} a b (s : S) : b <= a -> run (usub a b) s = (Done (a - b), s).
Proof. intros H. unfold usub. destruct (Z.ltb_spec a b); [lia|done]. Qed.

(** ** The lane invariant *)

Record lane_rep (s : Shared T) (l : Lane) (p : Producer) (sp : spsc_spec T) : Prop := {
  lr_ring : exists hr c, zlookup (sh_rings s) (lane_ring l) = Some hr /\
    rc_inner (lane_consumer l) = Some c /\ open_rep hr p c sp;
  lr_signal : exists g, zlookup (rs_signals (sh_index s)) (lane_signal l) = Some g;
  lr_index : index_ok (sh_index s);
  lr_window : zlength (sp_window sp) = cached_available l + fast_left l;
  lr_held : sp_held sp = unreleased l - fast_left l;
  lr_fast : 0 <= fast_left l /\ fast_left l <= burst l /\ fast_left l <= unreleased l;
  lr_cached : 0 <= cached_available l;
  lr_burst : burst l <= PREFETCH_LIMIT;
  lr_batch : 1 <= release_batch l <= sp_cap sp /\ unreleased l <= release_batch l
}.

(** Between operations neither a burst nor a release batch is complete. *)
Definition lane_rest (l : Lane) : Prop :=
  burst l < PREFETCH_LIMIT /\ unreleased l < release_batch l.

(** The fields of a lane no operation but its own changes. *)
Definition same_lane (l l' : Lane) : Prop :=
  lane_key l' = lane_key l /\ lane_signal l' = lane_signal l /\ lane_ring l' = lane_ring l /\
  release_batch l' = release_batch l.

(** What a lane operation does to the queue: it hands out [got]. *)
Definition sp_takes (got : list T) sp sp' : Prop :=
  sp_items sp = got ++ sp_items sp' /\ sp_cap sp' = sp_cap sp /\
  sp_producer_dropped sp' = sp_producer_dropped sp /\ sp_pending sp' = sp_pending sp.

Lemma sp_takes_refl sp : sp_takes [] sp sp.
Proof. done. Qed.

Lemma sp_takes_trans g1 g2 sp1 sp2 sp3 :
  sp_takes g1 sp1 sp2 -> sp_takes g2 sp2 sp3 -> sp_takes (g1 ++ g2) sp1 sp3.
Proof.
  intros (A1 & A2 & A3 & A4) (B1 & B2 & B3 & B4). split_and!; try congruence.
  by rewrite A1, B1, app_assoc.
Qed.

Lemma sp_takes_0_r g sp1 sp2 sp3 : sp_takes g sp1 sp2 -> sp_takes [] sp2 sp3 -> sp_takes g sp1 sp3.
Proof. intros H1 H2. rewrite <- (app_nil_r g). by eapply sp_takes_trans. Qed.

Lemma sp_takes_prefetch sp : sp_takes [] sp (spec_prefetch sp).2.
Proof.
  unfold spec_prefetch, sp_takes, sp_items. cbn.
  destruct (sp_window sp); [destruct (sp_published sp)|]; cbn; by rewrite <- ?app_assoc.
Qed.

Lemma sp_takes_pop v w sp : sp_window sp = v :: w -> sp_takes [v] sp (spec_pop sp).2.
Proof. intros E. unfold spec_pop, sp_takes, sp_items. rewrite E. done. Qed.

Lemma sp_takes_pop_n n sp : sp_takes (spec_pop_n n sp).1 sp (spec_pop_n n sp).2.
Proof.
  unfold spec_pop_n, sp_takes, sp_items. cbn. split; [|done].
  by rewrite (app_assoc (take _ _)), take_drop.
Qed.

(** The lane after its ring's consumer moved. *)
Lemma lane_rep_ring s l p sp hr' c' sp' l' :
  lane_rep s l p sp -> open_rep hr' p c' sp' -> same_lane l l' ->
  rc_inner (lane_consumer l') = Some c' ->
  zlength (sp_window sp') = cached_available l' + fast_left l' ->
  sp_held sp' = unreleased l' - fast_left l' ->
  0 <= fast_left l' /\ fast_left l' <= burst l' /\ fast_left l' <= unreleased l' ->
  0 <= cached_available l' -> burst l' <= PREFETCH_LIMIT -> sp_cap sp' = sp_cap sp ->
  unreleased l' <= release_batch l' ->
  lane_rep (set_sh_rings (zinsert (sh_rings s) (lane_ring l) hr') s) l' p sp'.
Proof.
  intros [(hr & c & Hh & Hc & Hr) Hs Hi Hw Hd Hf Hca Hb Hba] Hr' (E1 & E2 & E3 & E4) ? ? ? ? ? ? Ecap ?.
  split; cbn; auto.
  - exists hr', c'. rewrite E3. split_and!; auto. by eapply zlookup_zinsert_same.
  - by rewrite E2.
  - rewrite E4, Ecap in *. split; [apply Hba|lia].
Qed.

Lemma lane_rep_index s l p sp i :
  lane_rep s l p sp -> index_keeps (lane_signal l) (sh_index s) i -> lane_rep (set_sh_index i s) l p sp.
Proof. intros [] (H1 & H2 & _). split; auto. Qed.

Ltac lane_cbn :=
  cbn [lane_key lane_signal lane_ring lane_consumer cached_available unreleased release_batch burst
       fast_left queued set_consumer set_counters set_cached set_burst set_queued] in *;
  unfold PREFETCH_LIMIT in *.

Ltac lane_facts H :=
  let Hf := fresh "Hf" in pose proof (lr_fast _ _ _ _ H) as Hf;
  let Hw := fresh "Hw" in pose proof (lr_window _ _ _ _ H) as Hw;
  let Hh := fresh "Hh" in pose proof (lr_held _ _ _ _ H) as Hh;
  let Hc := fresh "Hca" in pose proof (lr_cached _ _ _ _ H) as Hc;
  let Hb := fresh "Hb" in pose proof (lr_burst _ _ _ _ H) as Hb;
  let Hb' := fresh "Hba" in pose proof (lr_batch _ _ _ _ H) as Hb'; unfold PREFETCH_LIMIT in *.

(** ** Operations *)

Lemma lane_close_fast s l p sp :
  lane_rep s l p sp ->
  runs (Lane_close_fast l) s (fun l' s' => s' = s /\ lane_rep s l' p sp /\ fast_left l' = 0 /\ same_lane l l' /\
    queued l' = queued l /\ burst l' = burst l - fast_left l /\ unreleased l' = unreleased l - fast_left l).
Proof.
  intros H. lane_facts H. unfold Lane_close_fast. destruct (Z.eqb_spec (fast_left l) 0) as [E|E]; cbn [negb].
  - apply runs_ret. split_and!; auto; try lia; done.
  - apply runs_bind. eapply runs_intro; [apply run_usub; lia|].
    apply runs_bind. eapply runs_intro; [apply run_usub; lia|]. apply runs_ret.
    split; [done|]. split; [|split_and!; lane_cbn; try done; lia]. destruct H. split; lane_cbn; auto; try split; try lia; by destruct lr_batch0.
Qed.

Lemma lane_prefetch s l p sp :
  lane_rep s l p sp -> fast_left l = 0 -> cached_available l = 0 ->
  runs (Lane_prefetch l) s (fun l' s' => lane_rep s' l' p (spec_prefetch sp).2 /\ same_lane l l' /\
    fast_left l' = 0 /\ cached_available l' = zlength (sp_published sp) /\ unreleased l' = unreleased l /\
    queued l' = queued l /\ burst l' = burst l).
Proof.
  intros H Hfl Hca. lane_facts H. destruct (lr_ring _ _ _ _ H) as (hr & c & Eh & Ec & Hr).
  assert (Hwin : sp_window sp = []).
  { destruct (sp_window sp); [done|]. rewrite zlength_cons in Hw. pose proof (zlength_nonneg l0). lia. }
  unfold Lane_prefetch. eapply runs_seq.
  - eapply runs_lane_ring; [exact Eh|]. unfold RConsumer_prefetch, with_open. rewrite Ec.
    eapply runs_seq; [eapply runs_hring; [exact Hr|apply rep_prefetch]|].
    intros [n c'] hr' (r' & -> & [-> Hr'] & Ho). apply runs_ret with (Q := fun '(n, c') hr' =>
      n = zlength (sp_published sp) /\ exists ci, rc_inner c' = Some ci /\ open_rep hr' p ci (spec_prefetch sp).2).
    split; [done|]. eexists. split; [reflexivity|]. by apply Ho.
  - intros [n c'] s' (hr' & -> & -> & ci & Eci & Hr'). apply runs_ret.
    assert (Hwp : zlength (sp_window (spec_prefetch sp).2) = zlength (sp_published sp)).
    { unfold spec_prefetch. cbn. rewrite Hwin. cbn. by destruct (sp_published sp). }
    assert (Hhp : sp_held (spec_prefetch sp).2 = sp_held sp).
    { unfold spec_prefetch. cbn. rewrite Hwin. cbn. by destruct (sp_published sp). }
    pose proof (sp_takes_prefetch sp) as (_ & Ecap & _).
    pose proof (zlength_nonneg (sp_published sp)).
    split_and!; try done.
    eapply lane_rep_ring; [exact H|exact Hr'|done|exact Eci|..]; lane_cbn; auto; lia.
Qed.

Lemma lane_release_pending s l p sp :
  lane_rep s l p sp ->
  runs (Lane_release_pending l) s (fun '(released, l') s' => exists sp', lane_rep s' l' p sp' /\ sp_takes [] sp sp' /\
    sp_window sp' = sp_window sp /\ sp_published sp' = sp_published sp /\ sp_held sp' = 0 /\
    same_lane l l' /\ fast_left l' = 0 /\ unreleased l' = 0 /\ released = negb (sp_held sp =? 0) /\
    queued l' = queued l /\ burst l' = burst l - fast_left l).
Proof.
  intros H. unfold Lane_release_pending. eapply runs_seq; [eapply lane_close_fast, H|].
  intros l1 s1 (-> & H1 & Hf1 & Hs1 & Hq1 & Hb1 & Hu1). lane_facts H1.
  destruct (Z.eqb_spec (unreleased l1) 0) as [E|E].
  - apply runs_ret. exists sp. split_and!; auto using sp_takes_refl; lia.
  - destruct (lr_ring _ _ _ _ H1) as (hr & c & Eh & Ec & Hr). eapply runs_seq.
    + eapply runs_lane_ring; [exact Eh|]. unfold RConsumer_release, with_open. rewrite Ec.
      eapply runs_hring; [exact Hr|apply rep_release].
    + intros u s' (hr' & -> & r' & -> & Hr' & Ho). apply runs_ret. exists (spec_release sp).
      destruct Hs1 as (S1 & S2 & S3 & S4).
      split_and!; try done; try lia.
      eapply (lane_rep_ring _ l1 _ _ (set_hr_ring r' hr)); [exact H1|by apply Ho|done|exact Ec|..];
        lane_cbn; auto; cbn; lia.
Qed.

(** A lane whose ring shows nothing settles: it leaves the rotation. *)
Lemma lane_settle_empty s l p sp :
  lane_rep s l p sp -> fast_left l = 0 -> sp_window sp = [] -> sp_published sp = [] ->
  runs (Lane_settle_empty l) s (fun '(e, l') s' => exists sp', lane_rep s' l' p sp' /\ sp_takes [] sp sp' /\
    same_lane l l' /\ e = EmptyIdle (sp_producer_dropped sp) (negb (sp_held sp =? 0)) /\
    sp_window sp' = [] /\ sp_published sp' = [] /\ queued l' = false /\ fast_left l' = 0 /\
    burst l' = 0 /\ unreleased l' = 0).
Proof.
  intros H Hfl Hwin Hpub. unfold Lane_settle_empty.
  eapply runs_seq; [eapply lane_release_pending, H|].
  intros [released l1] s1 (sp1 & H1 & Ht1 & Ew1 & Ep1 & Eh1 & Hs1 & Hf1 & Hu1 & -> & Hq1 & Hb1).
  destruct (lr_signal _ _ _ _ H1) as [g Hg].
  eapply runs_seq; [eapply runs_index, runs_finish_drain; [apply (lr_index _ _ _ _ H1)|exact Hg]|].
  intros u s2 (i2 & -> & Hi2). pose proof (lane_rep_index _ _ _ _ _ H1 Hi2) as H2.
  assert (Hc1 : cached_available l1 = 0).
  { lane_facts H1. rewrite Ew1, Hwin, zlength_nil in *. lia. }
  eapply runs_seq; [eapply lane_prefetch; [exact H2|done|done]|].
  intros l3 s3 (H3 & Hs3 & Hf3 & Hc3 & Hu3 & Hq3 & Hb3). cbv zeta. cbn [cached_available set_burst set_counters].
  rewrite Hc3, Ep1, Hpub, zlength_nil. cbn [Z.eqb negb].
  assert (Hw3 : sp_window (spec_prefetch sp1).2 = [] /\ sp_published (spec_prefetch sp1).2 = []).
  { unfold spec_prefetch. cbn. rewrite Ew1, Ep1, Hwin, Hpub. done. }
  assert (H4 : lane_rep s3 (set_queued false (set_burst 0 l3)) p (spec_prefetch sp1).2).
  { lane_facts H3. destruct H3. split; lane_cbn; auto; lia. }
  destruct (lr_ring _ _ _ _ H4) as (hr & c & Eh & Ec & Hr). cbn [lane_ring set_queued set_burst set_counters] in *.
  eapply runs_seq.
  { eapply runs_lane_ring; [exact Eh|]. unfold RConsumer_is_disconnected, with_open. cbn [lane_consumer set_queued set_burst set_counters] in *. rewrite Ec.
    eapply runs_hring; [exact Hr|]. intros Hr'. eapply runs_intro; [apply (rep_reads _ _ _ _ Hr')|].
    instantiate (1 := fun b r => b = sp_producer_dropped (spec_prefetch sp1).2 /\ r = hr_ring hr).
    split; [|done]. unfold sp_visible_empty. destruct Hw3 as [-> ->]. apply andb_true_r. }
  intros b s4 (hr4 & -> & r4 & -> & [-> ->] & _). apply runs_ret.
  pose proof (sp_takes_prefetch sp1) as Ht2.
  exists (spec_prefetch sp1).2. destruct Hs1 as (A1 & A2 & A3 & A4). destruct Hs3 as (B1 & B2 & B3 & B4).
  split_and!; try (cbn; congruence); try apply Hw3.
  - replace (set_sh_rings (zinsert (sh_rings s3) (lane_ring l3) (set_hr_ring (hr_ring hr) hr)) s3) with s3; [done|].
    unfold set_sh_rings. destruct hr. rewrite zinsert_same by (rewrite Eh; done). by destruct s3.
  - eapply sp_takes_0_r; eauto.
  - unfold same_lane; lane_cbn; split_and!; congruence.
  - f_equal. destruct Ht1 as (_ & _ & E1 & _). destruct Ht2 as (_ & _ & E2 & _). congruence.
Qed.

Lemma lane_refill s l p sp :
  lane_rep s l p sp ->
  runs (Lane_refill l) s (fun '(e, l') s' => exists sp', lane_rep s' l' p sp' /\ sp_takes [] sp sp' /\
    same_lane l l' /\ fast_left l' = 0 /\ (lane_rest l -> lane_rest l') /\
    if sp_visible_empty sp then e = Some (EmptyIdle (sp_producer_dropped sp) (negb (sp_held sp =? 0))) /\ queued l' = false
    else e = None /\ 0 < cached_available l' /\ queued l' = queued l).
Proof.
  intros H. unfold Lane_refill. eapply runs_seq; [eapply lane_close_fast, H|].
  intros l1 s1 (-> & H1 & Hf1 & Hs1 & Hq1 & Hb1 & Hu1). pose proof (lr_fast _ _ _ _ H) as HfH. pose proof (lr_window _ _ _ _ H1) as Hw1.
  pose proof (lr_cached _ _ _ _ H1) as Hc1. unfold sp_visible_empty.
  destruct (Z.eqb_spec (cached_available l1) 0) as [E|E].
  - assert (Hwin : sp_window sp = []).
    { destruct (sp_window sp) as [|x w]; [done|]. rewrite zlength_cons in Hw1. pose proof (zlength_nonneg w). lia. }
    rewrite Hwin. eapply runs_seq; [eapply lane_prefetch; [exact H1|done|done]|].
    intros l2 s2 (H2 & Hs2 & Hf2 & Hc2 & Hu2 & Hq2 & Hb2). destruct Hs1 as (A1 & A2 & A3 & A4). destruct Hs2 as (B1 & B2 & B3 & B4).
    rewrite Hc2. pose proof (sp_takes_prefetch sp) as Ht.
    destruct (sp_published sp) as [|y pub] eqn:Epub.
    + rewrite zlength_nil. cbn [Z.eqb].
      assert (Hw2 : sp_window (spec_prefetch sp).2 = [] /\ sp_published (spec_prefetch sp).2 = [] /\ sp_held (spec_prefetch sp).2 = sp_held sp).
      { unfold spec_prefetch. cbn. rewrite Hwin, Epub. done. }
      destruct Hw2 as (W1 & W2 & W3).
      eapply runs_seq; [eapply lane_settle_empty; [exact H2|done|done|done]|].
      intros [e l3] s3 (sp3 & H3 & Ht3 & (C1 & C2 & C3 & C4) & -> & _ & _ & Hq3 & Hf3 & Hb3 & Hu3). apply runs_ret. exists sp3.
      split_and!; try congruence.
      * eapply sp_takes_0_r; eauto.
      * unfold same_lane; split_and!; congruence.
      * unfold lane_rest, PREFETCH_LIMIT. rewrite Hb3, Hu3, C4, B4, A4. lia.
      * rewrite W3. destruct Ht as (_ & _ & -> & _). done.
    + rewrite zlength_cons. pose proof (zlength_nonneg pub). destruct (Z.eqb_spec (1 + zlength pub) 0); [lia|].
      apply runs_ret. exists (spec_prefetch sp).2. rewrite zlength_cons in Hc2.
      split_and!; try congruence; try lia; try done.
      * unfold same_lane; split_and!; congruence.
      * unfold lane_rest. rewrite Hb2, Hu2, B4, A4. lia.
  - assert (Hr1 : lane_rest l -> lane_rest l1).
    { unfold lane_rest. destruct Hs1 as (_ & _ & _ & ->). lia. }
    apply runs_ret. exists sp. split_and!; auto using sp_takes_refl. destruct (sp_window sp) as [|x w]; [cbn in Hw1; unfold zlength in Hw1; simpl in Hw1; lia|].
    split_and!; auto. lia.
Qed.


(** ** Taking values *)

Lemma lane_rep_burst s l p sp b :
  lane_rep s l p sp -> fast_left l <= b <= PREFETCH_LIMIT -> lane_rep s (set_burst b l) p sp.
Proof. intros H Hb. lane_facts H. destruct H. split; lane_cbn; auto; lia. Qed.

(** The window of a lane that shows [n] values starts with one. *)
Lemma lane_front s l p sp :
  lane_rep s l p sp -> 0 < cached_available l + fast_left l -> exists v w, sp_window sp = v :: w.
Proof.
  intros H Hp. lane_facts H. destruct (sp_window sp) as [|v w]; [|eauto].
  rewrite (zlength_nil (A:=T)) in Hw. lia.
Qed.

Lemma runs_lane_pop s l p sp v w :
  lane_rep s l p sp -> sp_window sp = v :: w ->
  runs (on_lane_ring (lane_ring l) (RConsumer_pop (lane_consumer l))) s (fun '(o, c) s' =>
    o = Some v /\ exists hr' ci, rc_inner c = Some ci /\
      s' = set_sh_rings (zinsert (sh_rings s) (lane_ring l) hr') s /\
      open_rep hr' p ci (spec_pop sp).2).
Proof.
  intros H Hwin. destruct (lr_ring _ _ _ _ H) as (hr & c & Eh & Ec & Hr).
  eapply runs_mono.
  - eapply runs_lane_ring; [exact Eh|]. unfold RConsumer_pop, with_open. rewrite Ec.
    eapply runs_seq; [eapply runs_hring; [exact Hr|apply rep_pop]|].
    intros [o c'] hr' (r' & -> & [-> Hr'] & Ho). apply runs_ret with (Q := fun '(o, c') hr' =>
      o = Some v /\ exists ci, rc_inner c' = Some ci /\ open_rep hr' p ci (spec_pop sp).2).
    split; [by unfold spec_pop; rewrite Hwin|]. eexists. split; [reflexivity|]. by apply Ho.
  - intros [o c'] s' (hr' & -> & -> & ci & Eci & Hr'). eauto 10.
Qed.

(** A popped value leaves the window and is held until the next release. *)
Lemma spec_pop_lengths v w sp :
  sp_window sp = v :: w ->
  zlength (sp_window (spec_pop sp).2) = zlength (sp_window sp) - 1 /\
  sp_held (spec_pop sp).2 = sp_held sp + 1 /\ sp_cap (spec_pop sp).2 = sp_cap sp.
Proof.
  intros E. unfold spec_pop. rewrite E, zlength_cons. cbn. split_and!; auto; lia.
Qed.

Lemma lane_pop_counted s l p sp step msg :
  lane_rep s l p sp -> fast_left l = 0 -> 0 < cached_available l -> unreleased l < release_batch l ->
  0 <= step -> burst l + step <= PREFETCH_LIMIT ->
  runs (Lane_pop_counted l step msg) s (fun '(v, released, l') s' => exists sp',
    lane_rep s' l' p sp' /\ sp_takes [v] sp sp' /\ same_lane l l' /\ fast_left l' = 0 /\
    cached_available l' = cached_available l - 1 /\ queued l' = queued l /\
    burst l' = burst l + step /\ unreleased l' < release_batch l' /\
    released = (unreleased l + 1 =? release_batch l) /\
    unreleased l' = (if released then 0 else unreleased l + 1)).
Proof.
  intros H Hfl Hca0 Hun Hst Hbs. lane_facts H.
  destruct (lane_front _ _ _ _ H) as (v & w & Hwin); [lia|].
  destruct (spec_pop_lengths _ _ _ Hwin) as (L1 & L2 & L3).
  unfold Lane_pop_counted. eapply runs_seq; [by eapply runs_lane_pop|].
  intros [o c] s1 (-> & hr' & ci & Eci & -> & Hr'). cbv zeta.
  cbn [cached_available set_consumer unreleased burst fast_left].
  apply runs_bind. eapply runs_intro; [apply run_usub; lia|].
  set (l1 := set_counters _ _ _ _ _).
  assert (H1 : lane_rep (set_sh_rings (zinsert (sh_rings s) (lane_ring l) hr') s) l1 p (spec_pop sp).2).
  { eapply lane_rep_ring; [exact H|exact Hr'|done|exact Eci|..]; subst l1; lane_cbn; auto; lia. }
  pose proof (sp_takes_pop _ _ _ Hwin) as Ht.
  assert (El1 : burst l1 = burst l + step /\ unreleased l1 = unreleased l + 1 /\
    release_batch l1 = release_batch l /\ fast_left l1 = 0 /\ cached_available l1 = cached_available l - 1 /\
    queued l1 = queued l /\ same_lane l l1) by (subst l1; lane_cbn; split_and!; done).
  clearbody l1. destruct El1 as (E1 & E2 & E3 & E4 & E5 & E6 & E7). rewrite E2, E3.
  destruct (Z.eqb_spec (unreleased l + 1) (release_batch l)) as [E|E].
  - eapply runs_seq; [eapply lane_release_pending, H1|].
    intros [rel l2] s2 (sp2 & H2 & Ht2 & Ew2 & _ & _ & Hs2 & Hf2 & Hu2 & -> & Hq2 & Hb2). apply runs_ret.
    assert (sp_held (spec_pop sp).2 <> 0) by lia.
    destruct (Z.eqb_spec (sp_held (spec_pop sp).2) 0); [done|]. exists sp2.
    destruct Hs2 as (S1 & S2 & S3 & S4). destruct E7 as (R1 & R2 & R3 & R4).
    pose proof (lr_window _ _ _ _ H2) as W2. rewrite Ew2, L1 in W2.
    split_and!; auto; try congruence; try lia.
    + by eapply sp_takes_0_r.
    + unfold same_lane; split_and!; congruence.
  - apply runs_ret. exists (spec_pop sp).2. split_and!; auto; lia.
Qed.

(** [poll] on a lane at rest: the front of the queue, or an idle lane exactly
    when nothing is visible. *)
Lemma lane_poll fair s l p sp :
  lane_rep s l p sp -> lane_rest l ->
  runs (Lane_poll fair l) s (fun '(r, l') s' => exists sp', lane_rep s' l' p sp' /\ lane_rest l' /\
    same_lane l l' /\ fast_left l' = 0 /\
    match r with
    | PollItem v rotate _ => sp_visible_empty sp = false /\ sp_takes [v] sp sp' /\
        queued l' = queued l /\ (fair = true -> rotate = true)
    | PollIdle disconnected released => sp_visible_empty sp = true /\ sp_takes [] sp sp' /\
        queued l' = false /\ disconnected = sp_producer_dropped sp /\ released = negb (sp_held sp =? 0)
    | _ => False
    end).
Proof.
  intros H Hrest. unfold Lane_poll. eapply runs_seq; [eapply lane_refill, H|].
  intros [e l1] s1 (sp1 & H1 & Ht1 & Hs1 & Hf1 & Hr1 & Hcase). specialize (Hr1 Hrest).
  destruct (sp_visible_empty sp) eqn:Ev.
  - destruct Hcase as [-> Hq]. apply runs_ret. exists sp1. split_and!; auto.
  - destruct Hcase as (-> & Hc & Hq). destruct Hr1 as [Hb1 Hu1]. unfold PREFETCH_LIMIT in *.
    eapply runs_seq; [eapply lane_pop_counted; eauto; unfold PREFETCH_LIMIT; lia|].
    intros [[v rel] l2] s2 (sp2 & H2 & Ht2 & Hs2 & Hf2 & Hc2 & Hq2 & Hb2 & Hu2 & _). cbv zeta.
    apply runs_ret. exists sp2. destruct Hs1 as (A1 & A2 & A3 & A4). destruct Hs2 as (B1 & B2 & B3 & B4).
    pose proof (lr_fast _ _ _ _ H2).
    assert (Hl : same_lane l l2) by (unfold same_lane; split_and!; congruence).
    assert (Ht : sp_takes [v] sp sp2) by (by apply (sp_takes_trans [] [v] _ sp1)).
    destruct (fair || (burst l2 =? 64)) eqn:Erot.
    + split_and!; auto; try congruence.
      * apply lane_rep_burst; [done|unfold PREFETCH_LIMIT; lia].
      * split; lane_cbn; lia.
      * lane_cbn; congruence.
    + apply orb_false_iff in Erot as [-> Eb%Z.eqb_neq].
      split_and!; auto; try congruence. unfold lane_rest, PREFETCH_LIMIT. lia.
Qed.

(** ** The fast window *)

Lemma lane_reload s l p sp :
  lane_rep s l p sp -> fast_left l = 0 ->
  runs (if cached_available l =? 0 then Lane_prefetch l else Ret l) s (fun l' s' => exists sp',
    lane_rep s' l' p sp' /\ sp_takes [] sp sp' /\ same_lane l l' /\ fast_left l' = 0 /\
    unreleased l' = unreleased l /\ burst l' = burst l /\ queued l' = queued l /\
    (cached_available l' = 0 <-> sp_visible_empty sp = true)).
Proof.
  intros H Hfl. lane_facts H. unfold sp_visible_empty. destruct (Z.eqb_spec (cached_available l) 0) as [E|E].
  - assert (Hwin : sp_window sp = []) by (destruct (sp_window sp) as [|x w]; [done|];
      rewrite zlength_cons in Hw; pose proof (zlength_nonneg w); lia).
    eapply runs_mono; [by eapply lane_prefetch|].
    intros l' s' (H' & Hs & Hf' & Hc' & Hu' & Hq' & Hb'). exists (spec_prefetch sp).2.
    split_and!; auto using sp_takes_prefetch. rewrite Hwin, Hc'.
    destruct (sp_published sp) as [|y q]; [done|]. rewrite zlength_cons. pose proof (zlength_nonneg q).
    split; [lia|done].
  - apply runs_ret. exists sp. split_and!; auto using sp_takes_refl; try done.
    destruct (sp_window sp) as [|x w]; [rewrite (zlength_nil (A:=T)) in Hw; lia|]. done.
Qed.

(** A grant opens a window over values the ring has published; with a
    positive budget it is empty only when nothing is visible or the counters
    leave no room before the next release or rotation. *)
Lemma lane_grant_fast s l p sp budget :
  lane_rep s l p sp -> lane_rest l -> 0 <= budget ->
  runs (Lane_grant_fast l budget) s (fun l' s' => exists sp', lane_rep s' l' p sp' /\ lane_rest l' /\
    sp_takes [] sp sp' /\ same_lane l l' /\ queued l' = queued l /\ fast_left l' <= budget /\
    (sp_visible_empty sp = true -> fast_left l' = 0)).
Proof.
  intros H [Hb0 Hu0] Hbud. unfold Lane_grant_fast. eapply runs_seq; [eapply lane_close_fast, H|].
  intros l1 s1 (-> & H1 & Hf1 & Hs1 & Hq1 & Hb1 & Hu1).
  eapply runs_seq; [eapply lane_reload; [exact H1|done]|].
  intros l2 s2 (sp2 & H2 & Ht2 & Hs2 & Hf2 & Hu2 & Hb2 & Hq2 & Hv). lane_facts H2. cbv zeta.
  destruct Hs1 as (A1 & A2 & A3 & A4). destruct Hs2 as (B1 & B2 & B3 & B4).
  pose proof (lr_fast _ _ _ _ H).
  set (g := Z.min (Z.min _ _) _).
  assert (Hg : 0 <= g <= cached_available l2 /\ g <= budget /\ (cached_available l2 = 0 -> g = 0) /\
    (g = 0 \/ g + burst l2 < 64 /\ g + unreleased l2 < release_batch l2)).
  { subst g. unfold saturating_sub, PREFETCH_LIMIT in *. lia. }
  clearbody g. apply runs_bind. eapply runs_intro; [apply run_usub; lia|]. apply runs_ret.
  exists sp2. split_and!; auto; try (lane_cbn; congruence); try (lane_cbn; lia).
  - destruct H2. split; lane_cbn; auto; lia.
  - split; lane_cbn; lia.
  - unfold same_lane; lane_cbn; split_and!; congruence.
  - lane_cbn. intros Ev. apply Hv in Ev. lia.
Qed.

Lemma lane_pop_fast s l p sp :
  lane_rep s l p sp ->
  runs (Lane_pop_fast l) s (fun '(o, l') s' => exists sp', lane_rep s' l' p sp' /\
    same_lane l l' /\ queued l' = queued l /\ burst l' = burst l /\ unreleased l' = unreleased l /\
    match o with
    | Some v => sp_takes [v] sp sp' /\ fast_left l' = fast_left l - 1
    | None => fast_left l = 0 /\ l' = l /\ s' = s /\ sp' = sp
    end).
Proof.
  intros H. lane_facts H. unfold Lane_pop_fast. destruct (Z.eqb_spec (fast_left l) 0) as [E|E].
  { apply runs_ret. exists sp. done. }
  destruct (lane_front _ _ _ _ H) as (v & w & Hwin); [lia|].
  destruct (spec_pop_lengths _ _ _ Hwin) as (L1 & L2 & L3). cbv zeta.
  cbn [lane_ring lane_consumer set_counters]. eapply runs_seq; [by eapply runs_lane_pop|].
  intros [o c] s1 (-> & hr' & ci & Eci & -> & Hr'). apply runs_ret. exists (spec_pop sp).2.
  split_and!; try done; [|by eapply sp_takes_pop].
  eapply lane_rep_ring; [exact H|exact Hr'|done|exact Eci|..]; lane_cbn; auto; lia.
Qed.

(** [pop_fair] takes the front of the queue or nothing. *)
Lemma lane_pop_fair s l p sp budget :
  lane_rep s l p sp -> lane_rest l -> 0 <= budget ->
  runs (Lane_pop_fair l budget) s (fun '(o, l') s' => exists sp', lane_rep s' l' p sp' /\ lane_rest l' /\
    same_lane l l' /\ queued l' = queued l /\ sp_takes (option_list o) sp sp').
Proof.
  intros H Hrest Hbud. pose proof Hrest as [R1 R2]. lane_facts H. unfold Lane_pop_fair.
  eapply (runs_seq _ _ _ (fun l1 s1 => exists sp1, lane_rep s1 l1 p sp1 /\ lane_rest l1 /\
    sp_takes [] sp sp1 /\ same_lane l l1 /\ queued l1 = queued l)).
  { destruct (Z.eqb_spec (fast_left l) 0) as [E|E].
    - eapply runs_mono; [eapply (lane_grant_fast _ (set_burst 0 l)); [apply lane_rep_burst|..]; eauto|].
      + unfold PREFETCH_LIMIT; lia.
      + split; lane_cbn; lia.
      + intros l1 s1 (sp1 & ? & ? & ? & Hs & ? & _). exists sp1. split_and!; auto.
    - apply runs_ret. exists sp. split_and!; auto using sp_takes_refl; done. }
  intros l1 s1 (sp1 & H1 & Hr1 & Ht1 & (A1 & A2 & A3 & A4) & Hq1).
  eapply runs_seq; [eapply lane_pop_fast, H1|]. pose proof (lr_fast _ _ _ _ H1). destruct Hr1 as [Q1 Q2].
  intros [[v|] l2] s2 (sp2 & H2 & (B1 & B2 & B3 & B4) & Hq2 & Hb2 & Hu2 & Hcase); apply runs_ret.
  - destruct Hcase as [Ht2 Hf2]. pose proof (lr_fast _ _ _ _ H2). exists sp2.
    split_and!; auto; try congruence.
    + apply lane_rep_burst; auto. unfold PREFETCH_LIMIT in *. lia.
    + split; lane_cbn; lia.
    + unfold same_lane; lane_cbn; split_and!; congruence.
    + lane_cbn; congruence.
    + cbn. by apply (sp_takes_trans [] [v] _ sp1).
  - destruct Hcase as (_ & -> & -> & ->). exists sp1. split_and!; auto; done.
Qed.

(** ** Targeted and bulk receives *)

Lemma lane_pop_targeted s l p sp :
  lane_rep s l p sp -> lane_rest l -> fast_left l = 0 -> 0 < cached_available l ->
  runs (Lane_pop_targeted l) s (fun '(v, released, l') s' => exists sp', lane_rep s' l' p sp' /\
    lane_rest l' /\ same_lane l l' /\ queued l' = queued l /\ sp_takes [v] sp sp').
Proof.
  intros H [R1 R2] Hfl Hc. unfold Lane_pop_targeted. rewrite Hfl. cbn [Z.eqb negb].
  unfold PREFETCH_LIMIT in *.
  eapply runs_mono; [eapply lane_pop_counted; eauto; unfold PREFETCH_LIMIT; lia|].
  intros [[v rel] l'] s' (sp' & H' & Ht & Hs & Hf & _ & Hq & Hb & Hu & _).
  exists sp'. split_and!; auto. split; unfold PREFETCH_LIMIT; lia.
Qed.

Lemma lane_end_full_burst s l p sp :
  lane_rep s l p sp -> fast_left l = 0 -> unreleased l < release_batch l ->
  runs (Lane_end_full_burst l) s (fun '(full, l') s' => s' = s /\ lane_rep s l' p sp /\ lane_rest l' /\
    same_lane l l' /\ fast_left l' = 0 /\ queued l' = queued l /\ full = (burst l =? PREFETCH_LIMIT)).
Proof.
  intros H Hfl Hu. lane_facts H. unfold Lane_end_full_burst, PREFETCH_LIMIT. rewrite Hfl. cbn [Z.eqb negb].
  destruct (Z.eqb_spec (burst l) 64) as [E|E]; cbn [negb]; apply runs_ret;
    split_and!; auto; try done.
  - apply lane_rep_burst; auto. unfold PREFETCH_LIMIT; lia.
  - split; lane_cbn; lia.
Qed.

Lemma lane_chunk_limit s l p sp :
  lane_rep s l p sp -> fast_left l = 0 ->
  runs (Lane_chunk_limit l) s (fun n s' => s' = s /\ 0 <= n <= cached_available l /\
    burst l + n <= PREFETCH_LIMIT /\ unreleased l + n <= release_batch l /\
    (lane_rest l -> 0 < cached_available l -> 0 < n)).
Proof.
  intros H Hfl. lane_facts H. unfold Lane_chunk_limit. rewrite Hfl. cbn [Z.eqb negb].
  apply runs_bind. eapply runs_intro; [apply run_usub; unfold PREFETCH_LIMIT; lia|].
  apply runs_bind. eapply runs_intro; [apply run_usub; lia|]. apply runs_ret.
  unfold lane_rest, PREFETCH_LIMIT. split; [done|]. lia.
Qed.

End rules.

(** How many values a bulk move of at most [limit] values takes, and the
    state its admission is left in. *)
Definition chunk_count {T Adm} (admission : Admit T Adm) (adm : Adm) (limit : Z) (window : list T) : nat * Adm :=
  match admission with
  | AdmitAll => (Z.to_nat limit, adm)
  | AdmitWhile accepts => accept_prefix accepts adm (take (Z.to_nat limit) window)
  end.

Section chunks.
Context {T Adm : Type}.
Implicit Types (s : Shared T) (sp : spsc_spec T) (admission : Admit T Adm).

Lemma chunk_count_le admission adm limit (w : list T) :
  0 <= limit <= zlength w ->
  (((chunk_count admission adm limit w).1 <= Z.to_nat limit) /\
   (chunk_count admission adm limit w).1 <= length w)%nat.
Proof.
  intros Hl. unfold zlength in Hl. destruct admission as [|accepts]; cbn; [lia|].
  pose proof (accept_prefix_le accepts adm (take (Z.to_nat limit) w)) as H. rewrite length_take in H. lia.
Qed.

(** The move itself, before the counters are brought up to date. *)
Lemma runs_move s l p sp output limit admission adm :
  lane_rep s l p sp -> fast_left l = 0 -> 0 <= limit <= cached_available l ->
  runs (match admission with
        | AdmitAll =>
            let* '(moved, output, c) :=
              on_lane_ring (lane_ring l) (RConsumer_pop_into (lane_consumer l) output limit) in
            if negb (moved =? limit) then Fail (Panic "prefetched window shorter than cached")
            else Ret (moved, output, adm, c)
        | AdmitWhile accepts =>
            on_lane_ring (lane_ring l) (RConsumer_pop_into_while (lane_consumer l) output limit accepts adm)
        end) s (fun '(moved, out, adm', c) s' =>
    let '(n, adm'') := chunk_count admission adm limit (sp_window sp) in
    moved = Z.of_nat n /\ out = output ++ take n (sp_window sp) /\ adm' = adm'' /\
    exists hr' ci, rc_inner c = Some ci /\ s' = set_sh_rings (zinsert (sh_rings s) (lane_ring l) hr') s /\
      open_rep hr' p ci (spec_pop_n n sp).2).
Proof.
  intros H Hfl Hl. pose proof (lr_window _ _ _ _ H) as Hw.
  destruct (lr_ring _ _ _ _ H) as (hr & c & Eh & Ec & Hr).
  assert (Hlw : 0 <= limit <= zlength (sp_window sp)) by lia.
  pose proof (chunk_count_le admission adm limit _ Hlw) as [Hn1 Hn2].
  destruct admission as [|accepts]; unfold RConsumer_pop_into, RConsumer_pop_into_while, with_open; rewrite Ec; cbn in Hn1, Hn2.
  - eapply runs_seq.
    { eapply runs_lane_ring; [exact Eh|].
      eapply runs_seq; [eapply runs_hring; [exact Hr|apply (rep_pop_into _ _ _ _ output limit); lia]|].
      intros [[n out] c'] hr' (r' & -> & (-> & -> & Hr') & Ho). apply runs_ret with (Q := fun '(n, out, c') hr' =>
        n = limit /\ out = output ++ take (Z.to_nat limit) (sp_window sp) /\
        exists ci, rc_inner c' = Some ci /\ open_rep hr' p ci (spec_pop_n (Z.to_nat limit) sp).2).
      unfold spec_pop_into in *. rewrite Nat.min_r in * by lia. split_and!; eauto.
      cbn. unfold zlength. rewrite length_take. lia. }
    intros [[n out] c'] s' (hr' & -> & -> & -> & ci & Eci & Hr'). rewrite Z.eqb_refl. apply runs_ret.
    cbn. split_and!; eauto 10. lia.
  - eapply runs_mono.
    { eapply runs_lane_ring; [exact Eh|].
      eapply runs_seq; [eapply runs_hring; [exact Hr|apply (rep_pop_into_while _ _ _ _ output limit accepts adm); lia]|].
      intros [[[n out] adm'] c'] hr' (r' & -> & Hr' & Ho). unfold spec_pop_into_while in Hr'.
      apply runs_ret with (Q := fun '(n, out, adm', c') hr' =>
        let '(m, adm'') := accept_prefix accepts adm (take (Z.to_nat limit) (sp_window sp)) in
        n = Z.of_nat m /\ out = output ++ take m (sp_window sp) /\ adm' = adm'' /\
        exists ci, rc_inner c' = Some ci /\ open_rep hr' p ci (spec_pop_n m sp).2).
      destruct (accept_prefix _ _ _) as [m adm'']. cbn in Hr', Hn1, Hn2. destruct Hr' as (-> & -> & -> & Hr').
      split_and!; eauto. unfold zlength. rewrite length_take. lia. }
    intros [[[n out] adm'] c'] s' (hr' & -> & Hq). cbn [chunk_count].
    destruct (accept_prefix _ _ _) as [m adm'']. destruct Hq as (-> & -> & -> & ci & Eci & Hr'). eauto 10.
Qed.

End chunks.
