(* ===== verification/MpscLaneThm.v ===== *)
(** * One lane as a FIFO queue

    A lane joins a sender's ring, the readiness entry it signals on and the
    receiver's counters.  The theorems run any sequence of sends and of the
    receiver's lane operations and show that no counter underflows, no
    [expect] of [lane.rs] fails, and the values come out in sending order. *)

From S2P Require Import Prelude Prog Config Wait Ready YRing YRingInv YRingSpec YRingThm Handoff HandoffSeq MpscLane MpscLaneInv.
Local Open Scope prog_scope.

Section lane_send.
Context {T : Type}.
Implicit Types (s : Shared T) (hr : HRing T) (sp : spsc_spec T).

(** ** Sending into a lane *)

(** What sending does to the queue of a lane. *)
Definition sp_sent (v : T) (r : result unit T) sp sp' : Prop :=
  match r with
  | Ok _ => sp_items sp' = sp_items sp ++ [v]
  | Err v' => v' = v /\ sp_items sp' = sp_items sp
  end /\ sp_cap sp' = sp_cap sp /\ sp_producer_dropped sp' = sp_producer_dropped sp.

Lemma spec_push_flush_facts v sp :
  sp_sent v (spec_push_flush v sp).1 sp (spec_push_flush v sp).2 /\
  ((spec_push_flush v sp).1 = Ok tt <-> sp_full sp = false) /\
  sp_window (spec_push_flush v sp).2 = sp_window sp /\ sp_held (spec_push_flush v sp).2 = sp_held sp /\
  sp_cap (spec_push_flush v sp).2 = sp_cap sp.
Proof.
  unfold spec_push_flush, spec_push. destruct (sp_full sp); [done|].
  split; [|done]. split; [|done]. unfold sp_items. cbn. by rewrite app_nil_r, !app_assoc.
Qed.

Lemma lane_rep_producer s l p sp hr' p' c' sp' :
  lane_rep s l p sp -> open_rep hr' p' c' sp' -> rc_inner (lane_consumer l) = Some c' ->
  sp_window sp' = sp_window sp -> sp_held sp' = sp_held sp -> sp_cap sp' = sp_cap sp ->
  lane_rep (set_sh_rings (zinsert (sh_rings s) (lane_ring l) hr') s) l p' sp'.
Proof.
  intros [(hr & c & Hh & Hc & Hr) Hs Hi Hw Hd Hf Hca Hb Hba] Hr' Ec E1 E2 E3.
  split; cbn; auto; rewrite ?E1, ?E2, ?E3; auto.
  exists hr', c'. split_and!; auto. by eapply zlookup_zinsert_same.
Qed.

Lemma lane_send pol s l p sp v :
  lane_rep s l p sp ->
  runs (on_lane_ring (lane_ring l) (RProducer_push_and_flush pol (mkRProducer p) v)) s (fun '(r, p') s' =>
    exists sp', lane_rep s' l (rp_inner p') sp' /\ sp_sent v r sp sp' /\ (r = Ok tt <-> sp_full sp = false)).
Proof.
  intros H. destruct (lr_ring _ _ _ _ H) as (hr & c & Eh & Ec & Hr).
  destruct (spec_push_flush_facts v sp) as (F1 & F2 & F3 & F4 & F5).
  eapply runs_mono; [eapply runs_lane_ring; [exact Eh|eapply runs_send, Hr]|].
  intros [r p'] s' (hr' & -> & -> & _ & Hr'). eexists. split_and!; [|done..].
  by eapply lane_rep_producer.
Qed.

End lane_send.

Section lane_chunk.
Context {T Adm : Type}.
Implicit Types (s : Shared T) (sp : spsc_spec T) (admission : Admit T Adm).

(** ** Bulk moves *)

Lemma lane_notify_space s l p sp :
  lane_rep s l p sp ->
  runs (on_index (LaneSignal_notify_space (lane_signal l))) s (fun _ s' => lane_rep s' l p sp).
Proof.
  intros H. destruct (lr_signal _ _ _ _ H) as [g Hg].
  eapply runs_mono; [eapply runs_index, runs_notify_space; [apply (lr_index _ _ _ _ H)|exact Hg]|].
  intros u s' (i & -> & Hi). by eapply lane_rep_index.
Qed.

(** The release at a full batch, with the wake of a blocked sender. *)
Lemma lane_release_full_batch s l p sp :
  lane_rep s l p sp -> fast_left l = 0 ->
  runs (if unreleased l =? release_batch l then
          let* '(released, l) := Lane_release_pending l in
          if released then let* _ := on_index (LaneSignal_notify_space (lane_signal l)) in Ret l else Ret l
        else Ret l) s (fun l' s' => exists sp', lane_rep s' l' p sp' /\ sp_takes [] sp sp' /\ same_lane l l' /\
    fast_left l' = 0 /\ unreleased l' < release_batch l' /\ burst l' = burst l /\ queued l' = queued l).
Proof.
  intros H Hfl. pose proof (lr_batch _ _ _ _ H) as [Hb1 Hb2].
  destruct (Z.eqb_spec (unreleased l) (release_batch l)) as [E|E].
  - eapply runs_seq; [eapply lane_release_pending, H|].
    intros [rel l1] s1 (sp1 & H1 & Ht & _ & _ & _ & Hs & Hf & Hu & _ & Hq & Hb).
    assert (Hpost : forall s2, lane_rep s2 l1 p sp1 -> exists sp', lane_rep s2 l1 p sp' /\ sp_takes [] sp sp' /\
      same_lane l l1 /\ fast_left l1 = 0 /\ unreleased l1 < release_batch l1 /\ burst l1 = burst l /\ queued l1 = queued l).
    { intros s2 H2. exists sp1. destruct (lr_batch _ _ _ _ H2). split_and!; auto; lia. }
    destruct rel; [|by apply runs_ret, Hpost].
    eapply runs_seq; [eapply lane_notify_space, H1|]. intros u s2 H2. by apply runs_ret, Hpost.
  - apply runs_ret. exists sp. split_and!; auto using sp_takes_refl; try done. lia.
Qed.

Lemma lane_move_chunk s l p sp output limit admission adm :
  lane_rep s l p sp -> fast_left l = 0 -> 0 <= limit <= cached_available l ->
  burst l + limit <= PREFETCH_LIMIT -> unreleased l + limit <= release_batch l ->
  runs (Lane_move_chunk l output limit admission adm) s (fun '(moved, out, adm', l') s' => exists sp' n,
    chunk_count admission adm limit (sp_window sp) = (n, adm') /\ moved = Z.of_nat n /\ 0 <= moved <= limit /\
    out = output ++ take n (sp_window sp) /\ lane_rep s' l' p sp' /\
    sp_takes (take n (sp_window sp)) sp sp' /\ same_lane l l' /\ fast_left l' = 0 /\
    unreleased l' < release_batch l' /\ burst l' = burst l + moved /\ queued l' = queued l).
Proof.
  intros H Hfl Hl Hbl Hul. pose proof (lr_window _ _ _ _ H) as Hw. pose proof (lr_held _ _ _ _ H) as Hh.
  pose proof (lr_fast _ _ _ _ H) as Hf.
  pose proof (chunk_count_le admission adm limit (sp_window sp) ltac:(lia)) as [Hn1 Hn2].
  unfold Lane_move_chunk. eapply runs_seq; [by eapply runs_move|].
  intros [[[moved out] adm'] c] s1. destruct (chunk_count _ _ _ _) as [n adm''] eqn:En. cbn [fst] in *.
  intros (-> & -> & -> & hr' & ci & Eci & -> & Hr'). cbv zeta.
  cbn [cached_available set_consumer unreleased burst fast_left].
  apply runs_bind. eapply runs_intro; [apply run_usub; lia|].
  set (l1 := set_counters _ _ _ _ _).
  assert (H1 : lane_rep (set_sh_rings (zinsert (sh_rings s) (lane_ring l) hr') s) l1 p (spec_pop_n n sp).2).
  { assert (zlength (sp_window (spec_pop_n n sp).2) = zlength (sp_window sp) - Z.of_nat n)
      by (cbn; unfold zlength; rewrite length_drop; unfold zlength in Hw; lia).
    assert (sp_held (spec_pop_n n sp).2 = sp_held sp + Z.of_nat n) by done.
    eapply lane_rep_ring; [exact H|exact Hr'|done|exact Eci|..]; subst l1;
      cbn [fast_left cached_available unreleased burst release_batch set_counters set_consumer];
      auto; try lia; done. }
  assert (El1 : burst l1 = burst l + Z.of_nat n /\ fast_left l1 = 0 /\ queued l1 = queued l /\ same_lane l l1)
    by (subst l1; split_and!; done).
  clearbody l1. destruct El1 as (E1 & E2 & E3 & (A1 & A2 & A3 & A4)).
  eapply runs_seq; [eapply lane_release_full_batch; [exact H1|done]|].
  intros l2 s2 (sp2 & H2 & Ht & (B1 & B2 & B3 & B4) & Hf2 & Hu2 & Hb2 & Hq2). apply runs_ret.
  exists sp2, n. split_and!; auto; try lia; try congruence.
  - eapply sp_takes_0_r; [|exact Ht]. apply (sp_takes_pop_n n sp).
  - unfold same_lane; split_and!; congruence.
Qed.

End lane_chunk.

(** ** Sessions

    The operations a sender and the receiver perform on one lane: the sender's
    three ways to send, and the lane part of every receiving operation. *)

Inductive lane_cmd (T Adm : Type) : Type :=
| LSend (v : T)
| LDefer (v : T)
| LFlush
| LPoll (fair : bool)
| LGrant (budget : Z)
| LFast
| LFair (budget : Z)
| LTargeted
| LChunk (limit : Z) (admission : Admit T Adm) (adm : Adm)
| LRelease.
Arguments LSend {T Adm} v.
Arguments LDefer {T Adm} v.
Arguments LFlush {T Adm}.
Arguments LPoll {T Adm} fair.
Arguments LGrant {T Adm} budget.
Arguments LFast {T Adm}.
Arguments LFair {T Adm} budget.
Arguments LTargeted {T Adm}.
Arguments LChunk {T Adm} limit admission adm.
Arguments LRelease {T Adm}.

Definition lane_cmd_ok {T Adm} (c : lane_cmd T Adm) : Prop :=
  match c with LGrant b | LFair b => 0 <= b | LChunk n _ _ => 0 <= n | _ => True end.

Section session.
Context {T Adm : Type} (pol : Teardown).
Implicit Types (s : Shared T) (sp : spsc_spec T) (c : lane_cmd T Adm).

Definition sent_list (v : T) (r : result unit T) : list T :=
  match r with Ok _ => [v] | Err _ => [] end.
Definition poll_list (r : LanePoll T) : list T :=
  match r with PollItem v _ _ => [v] | _ => [] end.

(** One operation: the values it accepted and the values it delivered. *)
Definition lane_exec c (p : RProducer) (l : Lane) : prog (Shared T) (list T * list T * RProducer * Lane) :=
  match c with
  | LSend v =>
      let* '(r, p) := on_lane_ring (lane_ring l) (RProducer_push_and_flush pol p v) in
      Ret (sent_list v r, [], p, l)
  | LDefer v =>
      let* '(r, p) := on_lane_ring (lane_ring l) (RProducer_push_deferred p v) in
      Ret (sent_list v r, [], p, l)
  | LFlush => let* _ := on_lane_ring (lane_ring l) (RProducer_flush p) in Ret ([], [], p, l)
  | LPoll fair => let* '(r, l) := Lane_poll fair l in Ret ([], poll_list r, p, l)
  | LGrant b => let* l := Lane_grant_fast l b in Ret ([], [], p, l)
  | LFast => let* '(o, l) := Lane_pop_fast l in Ret ([], option_list o, p, l)
  | LFair b => let* '(o, l) := Lane_pop_fair l b in Ret ([], option_list o, p, l)
  | LTargeted =>
      let* '(e, l) := Lane_refill l in
      match e with
      | Some (EmptyIdle _ _) => Ret ([], [], p, l)
      | _ => let* '(v, _, l) := Lane_pop_targeted l in Ret ([], [v], p, l)
      end
  | LChunk limit admission adm =>
      let* '(e, l) := Lane_refill l in
      match e with
      | Some _ => Ret ([], [], p, l)
      | None =>
          let* chunk := Lane_chunk_limit l in
          let* '(_, out, _, l) := Lane_move_chunk l [] (Z.min limit chunk) admission adm in
          let* '(_, l) := Lane_end_full_burst l in
          Ret ([], out, p, l)
      end
  | LRelease => let* '(_, l) := Lane_release_pending l in Ret ([], [], p, l)
  end.

Fixpoint lane_session (cs : list (lane_cmd T Adm)) (p : RProducer) (l : Lane)
    : prog (Shared T) (list T * list T * RProducer * Lane) :=
  match cs with
  | [] => Ret ([], [], p, l)
  | c :: cs' =>
      let* '(a, d, p, l) := lane_exec c p l in
      let* '(a', d', p, l) := lane_session cs' p l in
      Ret (a ++ a', d ++ d', p, l)
  end.

(** Polling [n] times. *)
Fixpoint lane_drain (n : nat) (l : Lane) : prog (Shared T) (list T * Lane) :=
  match n with
  | O => Ret ([], l)
  | S n' =>
      let* '(r, l) := Lane_poll false l in
      let* '(vs, l) := lane_drain n' l in
      Ret (poll_list r ++ vs, l)
  end.

(** The invariant of a session. *)
Definition lane_inv s l (p : RProducer) sp : Prop := lane_rep s l (rp_inner p) sp /\ lane_rest l.

(** An operation accepts [a] at the back and delivers [d] from the front. *)
Definition sp_moves (a d : list T) sp sp' : Prop :=
  sp_items sp ++ a = d ++ sp_items sp' /\ sp_cap sp' = sp_cap sp /\
  sp_producer_dropped sp' = sp_producer_dropped sp.

Lemma sp_moves_takes d sp sp' : sp_takes d sp sp' -> sp_moves [] d sp sp'.
Proof. intros (E & E1 & E2 & _). unfold sp_moves. by rewrite app_nil_r. Qed.

Lemma sp_moves_sent v r sp sp' : sp_sent v r sp sp' -> sp_moves (sent_list v r) [] sp sp'.
Proof.
  intros (E & E1 & E2). split_and!; auto. destruct r; cbn; [done|]. destruct E as [_ ->]. apply app_nil_r.
Qed.

Lemma lane_deferred s l p sp v :
  lane_rep s l p sp ->
  runs (on_lane_ring (lane_ring l) (RProducer_push_deferred (mkRProducer p) v)) s (fun '(r, p') s' =>
    exists sp', lane_rep s' l (rp_inner p') sp' /\ sp_moves (sent_list v r) [] sp sp').
Proof.
  intros H. destruct (lr_ring _ _ _ _ H) as (hr & c & Eh & Ec & Hr).
  eapply runs_mono.
  - eapply runs_lane_ring; [exact Eh|]. unfold RProducer_push_deferred. cbn [rp_inner].
    eapply runs_seq; [eapply runs_hring; [exact Hr|apply (rep_push _ _ _ _ v)]|].
    intros [r p'] hr' (r' & -> & [-> Hr'] & Ho). apply runs_ret with (Q := fun '(r, p') hr' =>
      r = (spec_push v sp).1 /\ open_rep hr' (rp_inner p') c (spec_push v sp).2).
    split; [done|]. by apply Ho.
  - intros [r p'] s' (hr' & -> & -> & Hr'). exists (spec_push v sp).2. split.
    + eapply lane_rep_producer; eauto; unfold spec_push; by destruct (sp_full sp).
    + unfold sp_moves, spec_push, sp_items. destruct (sp_full sp); cbn; rewrite ?app_nil_r; [done|].
      split; [|done]. by rewrite !app_assoc.
Qed.

Lemma lane_flush s l p sp :
  lane_rep s l p sp ->
  runs (on_lane_ring (lane_ring l) (RProducer_flush (mkRProducer p))) s (fun _ s' => lane_rep s' l p (spec_flush sp)).
Proof.
  intros H. destruct (lr_ring _ _ _ _ H) as (hr & c & Eh & Ec & Hr).
  eapply runs_mono.
  - eapply runs_lane_ring; [exact Eh|]. unfold RProducer_flush. cbn [rp_inner].
    eapply runs_hring; [exact Hr|apply runs_flush].
  - intros u s' (hr' & -> & r' & -> & Hr' & Ho). eapply lane_rep_producer; [exact H|by apply Ho|done..].
Qed.

Lemma sp_moves_flush sp : sp_moves [] [] sp (spec_flush sp).
Proof. unfold sp_moves. rewrite spec_flush_items. split; [apply app_nil_r|done]. Qed.

Lemma lane_exec_ok c s p l sp :
  lane_cmd_ok c -> lane_inv s l p sp ->
  runs (lane_exec c p l) s (fun '(a, d, p', l') s' => exists sp', lane_inv s' l' p' sp' /\ sp_moves a d sp sp').
Proof.
  intros Hok [H Hrest]. destruct p as [p]. cbn [rp_inner] in H. unfold lane_inv.
  destruct c as [v|v| |fair|b| |b| |limit admission adm|]; unfold lane_exec; cbn in Hok.
  - eapply runs_seq; [eapply lane_send, H|]. intros [r p'] s' (sp' & H' & Hs & _). apply runs_ret.
    exists sp'. split; [done|]. by apply sp_moves_sent.
  - eapply runs_seq; [eapply lane_deferred, H|]. intros [r p'] s' (sp' & H' & Hs). apply runs_ret. eauto.
  - eapply runs_seq; [eapply lane_flush, H|]. intros u s' H'. apply runs_ret.
    exists (spec_flush sp). split; [done|]. apply sp_moves_flush.
  - eapply runs_seq; [by eapply lane_poll|]. intros [r l'] s' (sp' & H' & Hr & _ & _ & Hc). apply runs_ret.
    exists sp'. split; [done|]. destruct r; try done; apply sp_moves_takes, Hc.
  - eapply runs_seq; [by eapply lane_grant_fast|]. intros l' s' (sp' & H' & Hr & Ht & _). apply runs_ret.
    eauto using sp_moves_takes.
  - eapply runs_seq; [by eapply lane_pop_fast|]. intros [o l'] s' (sp' & H' & Hs & _ & Eb & Eu & Ho). apply runs_ret.
    exists sp'. destruct Hs as (_ & _ & _ & E4). split.
    + split; [done|]. unfold lane_rest in *. rewrite Eb, Eu, E4. done.
    + apply sp_moves_takes. destruct o as [v|]; [apply Ho|]. by destruct Ho as (_ & _ & _ & ->).
  - eapply runs_seq; [by eapply lane_pop_fair|]. intros [o l'] s' (sp' & H' & Hr & _ & _ & Ht). apply runs_ret.
    eauto using sp_moves_takes.
  - eapply runs_seq; [by eapply lane_refill|].
    intros [e l1] s1 (sp1 & H1 & Ht1 & _ & Hf1 & Hr1 & Hcase). specialize (Hr1 Hrest).
    destruct (sp_visible_empty sp).
    + destruct Hcase as [-> _]. apply runs_ret. eauto using sp_moves_takes.
    + destruct Hcase as (-> & Hc & _). eapply runs_seq; [by eapply lane_pop_targeted|].
      intros [[v rel] l2] s2 (sp2 & H2 & Hr2 & _ & _ & Ht2). apply runs_ret. exists sp2. split; [done|].
      apply sp_moves_takes. by apply (sp_takes_trans [] [v] _ sp1).
  - eapply runs_seq; [by eapply lane_refill|].
    intros [e l1] s1 (sp1 & H1 & Ht1 & _ & Hf1 & Hr1 & Hcase). specialize (Hr1 Hrest).
    destruct (sp_visible_empty sp).
    + destruct Hcase as [-> _]. apply runs_ret. eauto using sp_moves_takes.
    + destruct Hcase as (-> & Hc & _). eapply runs_seq; [by eapply lane_chunk_limit|].
      intros chunk s1' (-> & Hn & Hbn & Hun & _).
      eapply runs_seq; [eapply lane_move_chunk; [exact H1|done|lia..]|].
      intros [[[moved out] adm'] l2] s2 (sp2 & n & _ & _ & _ & -> & H2 & Ht2 & _ & Hf2 & Hu2 & _).
      eapply runs_seq; [by eapply lane_end_full_burst|].
      intros [full l3] s3 (-> & H3 & Hr3 & _). apply runs_ret. exists sp2. split; [done|].
      apply sp_moves_takes. by apply (sp_takes_trans [] _ _ sp1).
  - eapply runs_seq; [by eapply lane_release_pending|].
    intros [rel l'] s' (sp' & H' & Ht & _ & _ & _ & (_ & _ & _ & E4) & _ & Eu & _ & _ & Eb). apply runs_ret.
    exists sp'. split; [split; [done|]|by apply sp_moves_takes].
    pose proof (lr_fast _ _ _ _ H). pose proof (lr_batch _ _ _ _ H). unfold lane_rest in *. lia.
Qed.

Lemma lane_session_ok cs : forall s p l sp,
  Forall lane_cmd_ok cs -> lane_inv s l p sp ->
  runs (lane_session cs p l) s (fun '(a, d, p', l') s' => exists sp', lane_inv s' l' p' sp' /\ sp_moves a d sp sp').
Proof.
  induction cs as [|c cs IH]; intros s p l sp Hok H; cbn [lane_session].
  - apply runs_ret. exists sp. split; [done|]. split; [apply app_nil_r|done].
  - inversion_clear Hok as [|? ? Hc Hcs]. eapply runs_seq; [by eapply lane_exec_ok|].
    intros [[[a d] p1] l1] s1 (sp1 & H1 & M1). eapply runs_seq; [by eapply IH|].
    intros [[[a' d'] p2] l2] s2 (sp2 & H2 & M2). apply runs_ret. exists sp2. split; [done|].
    destruct M1 as (M1 & C1 & D1), M2 as (M2 & C2 & D2).
    split; [by rewrite app_assoc, M1, <- app_assoc, M2, app_assoc|]. split; congruence.
Qed.

(** Draining a lane whose sender has flushed returns everything it holds. *)
Lemma lane_drain_ok n : forall s l p sp,
  lane_inv s l p sp -> sp_pending sp = [] -> length (sp_items sp) = n ->
  runs (lane_drain n l) s (fun '(vs, l') s' => exists sp', lane_inv s' l' p sp' /\ vs = sp_items sp /\
    sp_visible_empty sp' = true /\ sp_producer_dropped sp' = sp_producer_dropped sp).
Proof.
  induction n as [|n IH]; intros s l p sp [H Hrest] Hp Hn; cbn [lane_drain].
  - apply nil_length_inv in Hn. apply runs_ret. exists sp. split_and!; [done|by rewrite Hn| |done].
    unfold sp_items in Hn. apply app_eq_nil in Hn as [E1 [E2 _]%app_eq_nil]. unfold sp_visible_empty. by rewrite E1, E2.
  - eapply runs_seq; [by eapply lane_poll|]. intros [r l1] s1 (sp1 & H1 & Hr1 & _ & _ & Hc).
    assert (Hv : sp_visible_empty sp = false).
    { unfold sp_visible_empty. unfold sp_items in Hn. rewrite Hp, app_nil_r in Hn.
      destruct (sp_window sp), (sp_published sp); done. }
    destruct r as [v rot rel| |d rel|]; try done; [|destruct Hc; congruence].
    destruct Hc as (_ & (E1 & _ & E3 & E4) & _ & _).
    eapply runs_seq; [eapply (IH _ _ _ sp1); [done|congruence|]|].
    { rewrite E1 in Hn. cbn in Hn. by injection Hn. }
    intros [vs l2] s2 (sp2 & H2 & -> & Hv2 & E5). apply runs_ret. exists sp2. split_and!; auto. congruence.
Qed.

Lemma lane_rep_size s l p sp : lane_rep s l p sp -> zlength (sp_items sp) <= sp_cap sp.
Proof.
  intros H. destruct (lr_ring _ _ _ _ H) as (hr & c & _ & _ & (base & ph & ch & hist & Hr) & _).
  rep_facts Hr. unfold sp_items. rewrite !zlength_app. lia.
Qed.

(** ** A new lane *)

Lemma lane_new_rep capacity s key signal h hr p rc g :
  0 < capacity <= 2 ^ 62 -> ring_spsc capacity = Done (hr, p, rc) ->
  zlookup (sh_rings s) h = Some hr -> zlookup (rs_signals (sh_index s)) signal = Some g -> index_ok (sh_index s) ->
  runs (Lane_new key signal h rc) s (fun l s' => s' = s /\ exists cap, capacity <= cap < 2 * capacity /\
    lane_inv s l p (spec_init cap)).
Proof.
  intros Hc Er Hh Hs Hi. destruct (spsc_init_rep (T := T) capacity 0 Hc ltac:(usize))
    as (cap & ring & Hv & Hr & _ & E & H).
  unfold ring_spsc in Er. rewrite E in Er by done. injection Er as <- <- <-.
  assert (Hcap : run Consumer_capacity ring = (Done cap, ring)).
  { destruct H as (base & ph & ch & hist & H). pose proof (rep_ok _ _ _ _ _ _ _ _ H) as Hok.
    pose proof (ok_mask _ _ _ _ _ _ _ Hok) as Hm. cbn in Hm. unfold Consumer_capacity, Ring_capacity. cbn. rewrite Hm. do 2 f_equal. lia. }
  unfold Lane_new. eapply runs_seq.
  { eapply runs_lane_ring; [exact Hh|]. unfold RConsumer_capacity, with_open. cbn [rc_inner].
    eapply runs_hring_plain, (runs_intro _ _ _ _ (fun n r => n = cap /\ r = ring)); [exact Hcap|done]. }
  intros n s' (hr' & -> & r' & -> & -> & ->). apply runs_ret. split.
  { unfold set_sh_rings, set_hr_ring. cbn. rewrite zinsert_same by done. by destruct s. }
  exists cap. split; [lia|]. pose proof (valid_cap_range _ Hv).
  split; [|unfold lane_rest, PREFETCH_LIMIT, MIN_RELEASE_BATCH; cbn; lia].
  split; cbn; unfold MIN_RELEASE_BATCH, PREFETCH_LIMIT; auto; try (unfold zlength; cbn; lia); try lia; eauto.
  eexists _, _. split_and!; [exact Hh|reflexivity|]. done.
Qed.

(** ** Claims *)

(** C16: a lane is a bounded FIFO queue.  Build a lane over a fresh ring of any
    accepted capacity, with any valid readiness entry and either teardown
    policy, and run any sequence of sends (immediate or deferred), flushes,
    polls (fair or not), fast-window grants and pops, fair pops, targeted
    receives, bulk moves with any admission predicate, and releases: no
    operation panics (no counter underflows, no fast window or bulk move runs
    past the prefetched values).  Everything accepted is what was delivered,
    in order, followed by what a flush and that many polls then return; the
    next poll finds the lane idle. *)
Theorem lane_session_fifo (capacity : Z) s key signal h hr p rc g (cs : list (lane_cmd T Adm)) :
  0 < capacity <= 2 ^ 62 -> ring_spsc capacity = Done (hr, p, rc) ->
  zlookup (sh_rings s) h = Some hr -> zlookup (rs_signals (sh_index s)) signal = Some g -> index_ok (sh_index s) ->
  Forall lane_cmd_ok cs ->
  runs (let* l := Lane_new key signal h rc in lane_session cs p l) s
    (fun '(accepted, delivered, p', l') s' => exists rest,
       accepted = delivered ++ rest /\ zlength rest < 2 * capacity /\
       runs (let* _ := on_lane_ring (lane_ring l') (RProducer_flush p') in
             let* '(vs, l) := lane_drain (length rest) l' in
             let* '(r, _) := Lane_poll false l in Ret (vs, r)) s'
         (fun '(vs, r) _ => vs = rest /\ exists released, r = PollIdle false released)).
Proof.
  intros Hc Er Hh Hs Hi Hok. eapply runs_seq; [by eapply lane_new_rep|].
  intros l s1 (-> & cap & Hcap & Hinv). eapply runs_mono; [by eapply lane_session_ok|].
  intros [[[a d] p'] l'] s' (sp & [H Hrest] & M & Mc & Md). exists (sp_items sp). split; [done|].
  split. { pose proof (lane_rep_size _ _ _ _ H) as Hz. rewrite Mc in Hz. cbn in Hz. lia. }
  destruct p' as [p']. eapply runs_seq; [by eapply lane_flush|]. intros u s2 H2.
  eapply runs_seq; [eapply (lane_drain_ok _ _ _ (mkRProducer p')); [split; [exact H2|done]|done|]|].
  { by rewrite spec_flush_items. }
  intros [vs l3] s3 (sp3 & [H3 Hr3] & -> & Hv & Hd).
  eapply runs_seq; [by eapply lane_poll|]. intros [r l4] s4 (sp4 & _ & _ & _ & _ & Hc4). apply runs_ret.
  rewrite spec_flush_items. split; [done|].
  destruct r as [v rot rel| |dis rel|]; try done; [destruct Hc4; congruence|].
  destruct Hc4 as (_ & _ & _ & -> & _). exists rel. rewrite Hd. cbn. by rewrite Md.
Qed.

End session.

(** ** Witnesses *)

(** A shared state with one ring of four slots and one readiness entry. *)
Definition demo_index : ready_store :=
  mkReadyStore [ReadyGroup_new 0] [mkReadyPage 0 0 0 1] [LaneSignal_new 0 0].
Definition demo_hring : HRing nat :=
  mkHRing (mkRing [None; None; None; None] 3 0 0 (mkWaiter false false false) (mkWaiter false false false)
             false false) 0 None [].
Definition demo_shared : Shared nat :=
  mkShared [demo_hring] demo_index (mkRegistry [] [] [0] [0] 1) 0 1 1 true WaitCell_new 4 1.

Definition demo_lane_cmds : list (lane_cmd nat nat) :=
  [LSend 1%nat; LSend 2%nat; LDefer 3%nat; LPoll false; LGrant 8; LFlush; LFast; LSend 4%nat; LSend 5%nat;
   LTargeted; LChunk 5 (AdmitWhile (fun b v => (v <=? 4, b)%nat)) 0%nat; LSend 6%nat; LFair 3; LRelease; LSend 7%nat].

Lemma lane_session_fifo_witness :
  runs (let* l := Lane_new (mkLaneKey 0 1) 0 0 (mkRConsumer (Some (mkConsumer 0 0))) in
        lane_session Coordinated demo_lane_cmds (mkRProducer (mkProducer 0 0)) l) demo_shared
    (fun '(accepted, delivered, p', l') s' => exists rest,
       accepted = delivered ++ rest /\ zlength rest < 2 * 4 /\
       runs (let* _ := on_lane_ring (lane_ring l') (RProducer_flush p') in
             let* '(vs, l) := lane_drain (length rest) l' in
             let* '(r, _) := Lane_poll false l in Ret (vs, r)) s'
         (fun '(vs, r) _ => vs = rest /\ exists released, r = PollIdle false released)).
Proof.
  apply (lane_session_fifo Coordinated 4 demo_shared (mkLaneKey 0 1) 0 0 demo_hring
           (mkRProducer (mkProducer 0 0)) (mkRConsumer (Some (mkConsumer 0 0))) (LaneSignal_new 0 0)).
  - lia.
  - reflexivity.
  - reflexivity.
  - reflexivity.
  - split; repeat constructor; eexists; reflexivity.
  - repeat constructor; cbn; lia.
Defined.

Example demo_lane_outputs :
  match run (let* l := Lane_new (mkLaneKey 0 1) 0 0 (mkRConsumer (Some (mkConsumer 0 0))) in
             lane_session Coordinated demo_lane_cmds (mkRProducer (mkProducer 0 0)) l) demo_shared with
  | (Done (a, d, _, _), _) => (a, d)
  | _ => ([], [])
  end = ([1; 2; 3; 4; 6; 7], [1; 2; 3; 4; 6])%nat.
Proof. vm_compute. reflexivity. Qed.
