(* ===== verification/Mpsc.v ===== *)
(** * The MPSC channel

    Models [src/src/mpsc.rs] (construction, registration, the slot registry),
    [src/src/mpsc/sender.rs] and [src/src/mpsc/receiver.rs] with its modules
    [registry.rs], [lane_control.rs] and [batch.rs].  Senders and the receiver
    are the records [Sender] and [Receiver]; every operation takes its handle
    and returns the handle it leaves.  Loops take a fuel; the theorems say how
    much is enough.

    Atomics, the mutex-guarded registry and the wait cells are the parts of
    [Shared].  Blocking operations are in MpscBlocking, on top of these. *)

From S2P Require Import Prelude Prog Config Wait Ready YRing Handoff MpscLane.
Local Open Scope prog_scope.

Section mpsc.
Context {T : Type} (pol : Teardown).

Record Sender : Type := mkSender {
  snd_ring : Z;
  snd_producer : RProducer;
  snd_key : LaneKey;
  snd_signal : Z;
  snd_wait_strategy : WaitStrategy
}.

Record Receiver : Type := mkReceiver {
  rcv_lanes : list (option Lane);
  rcv_groups : list Z;
  rcv_pages : list Z;
  rcv_active : list LaneKey;
  rcv_paused : list bool;
  ready_group_cursor : Z;
  seen_registry_generation : Z;
  items_until_ready_poll : Z;
  fast_slot : Z;
  rcv_capacity_per_sender : Z;
  rcv_wait_strategy : WaitStrategy
}.

Definition set_lanes (x : list (option Lane)) (rx : Receiver) : Receiver :=
  mkReceiver x (rcv_groups rx) (rcv_pages rx) (rcv_active rx) (rcv_paused rx) (ready_group_cursor rx)
    (seen_registry_generation rx) (items_until_ready_poll rx) (fast_slot rx) (rcv_capacity_per_sender rx)
    (rcv_wait_strategy rx).
Definition set_active (x : list LaneKey) (rx : Receiver) : Receiver :=
  mkReceiver (rcv_lanes rx) (rcv_groups rx) (rcv_pages rx) x (rcv_paused rx) (ready_group_cursor rx)
    (seen_registry_generation rx) (items_until_ready_poll rx) (fast_slot rx) (rcv_capacity_per_sender rx)
    (rcv_wait_strategy rx).
Definition set_paused (x : list bool) (rx : Receiver) : Receiver :=
  mkReceiver (rcv_lanes rx) (rcv_groups rx) (rcv_pages rx) (rcv_active rx) x (ready_group_cursor rx)
    (seen_registry_generation rx) (items_until_ready_poll rx) (fast_slot rx) (rcv_capacity_per_sender rx)
    (rcv_wait_strategy rx).
Definition set_group_cursor (x : Z) (rx : Receiver) : Receiver :=
  mkReceiver (rcv_lanes rx) (rcv_groups rx) (rcv_pages rx) (rcv_active rx) (rcv_paused rx) x
    (seen_registry_generation rx) (items_until_ready_poll rx) (fast_slot rx) (rcv_capacity_per_sender rx)
    (rcv_wait_strategy rx).
Definition set_topology (groups pages : list Z) (seen : Z) (rx : Receiver) : Receiver :=
  mkReceiver (rcv_lanes rx) groups pages (rcv_active rx) (rcv_paused rx) (ready_group_cursor rx)
    seen (items_until_ready_poll rx) (fast_slot rx) (rcv_capacity_per_sender rx)
    (rcv_wait_strategy rx).
Definition set_poll_budget (x : Z) (rx : Receiver) : Receiver :=
  mkReceiver (rcv_lanes rx) (rcv_groups rx) (rcv_pages rx) (rcv_active rx) (rcv_paused rx)
    (ready_group_cursor rx) (seen_registry_generation rx) x (fast_slot rx) (rcv_capacity_per_sender rx)
    (rcv_wait_strategy rx).
Definition set_fast_slot (x : Z) (rx : Receiver) : Receiver :=
  mkReceiver (rcv_lanes rx) (rcv_groups rx) (rcv_pages rx) (rcv_active rx) (rcv_paused rx)
    (ready_group_cursor rx) (seen_registry_generation rx) (items_until_ready_poll rx) x
    (rcv_capacity_per_sender rx) (rcv_wait_strategy rx).
Definition Receiver_set_wait_strategy (strategy : WaitStrategy) (rx : Receiver) : Receiver :=
  mkReceiver (rcv_lanes rx) (rcv_groups rx) (rcv_pages rx) (rcv_active rx) (rcv_paused rx)
    (ready_group_cursor rx) (seen_registry_generation rx) (items_until_ready_poll rx) (fast_slot rx)
    (rcv_capacity_per_sender rx) strategy.

(** [lanes.get_mut(slot).and_then(Option::as_mut)]. *)
Definition get_lane (slot : Z) (rx : Receiver) : option Lane :=
  match zlookup (rcv_lanes rx) slot with Some (Some l) => Some l | _ => None end.
(** The same, filtered on the lane's key. *)
Definition get_lane_key (key : LaneKey) (rx : Receiver) : option Lane :=
  match get_lane (key_slot key) rx with
  | Some l => if LaneKey_eqb (lane_key l) key then Some l else None
  | None => None
  end.
Definition put_lane (l : Lane) (rx : Receiver) : Receiver :=
  set_lanes (zinsert (rcv_lanes rx) (key_slot (lane_key l)) (Some l)) rx.
(** [self.paused[slot]]. *)
Definition is_paused (slot : Z) (rx : Receiver) : bool :=
  match zlookup (rcv_paused rx) slot with Some b => b | None => false end.
Definition put_paused (slot : Z) (b : bool) (rx : Receiver) : Receiver :=
  set_paused (zinsert (rcv_paused rx) slot b) rx.
(** [active.retain(|key| *key != k)]. *)
Definition retain_active (k : LaneKey) (rx : Receiver) : Receiver :=
  set_active (filter (fun x => x <> k) (rcv_active rx)) rx.
(** [active.rotate_left(1)]. *)
Definition rotate_left (l : list LaneKey) : list LaneKey :=
  match l with [] => [] | k :: l' => l' ++ [k] end.

(** ** The registry (mpsc.rs) *)

(** The groups up to [group_id], allocating the missing ones. *)
Fixpoint grow_groups (fuel : nat) (group_id : Z) (reg : Registry) (idx : ready_store)
    : Registry * ready_store :=
  if group_id <? zlength (reg_groups reg) then (reg, idx)
  else
    match fuel with
    | O => (reg, idx)
    | S fuel' =>
        let h := zlength (rs_groups idx) in
        grow_groups fuel' group_id
          (mkRegistry (reg_pending reg) (reg_free reg) (reg_groups reg ++ [h]) (reg_pages reg) (reg_next_slot reg))
          (mkReadyStore (rs_groups idx ++ [ReadyGroup_new (zlength (reg_groups reg))]) (rs_pages idx) (rs_signals idx))
    end.

Fixpoint grow_pages (fuel : nat) (page_id : Z) (reg : Registry) (idx : ready_store)
    : outcome (Registry * ready_store) :=
  if page_id <? zlength (reg_pages reg) then Done (reg, idx)
  else
    match fuel with
    | O => Done (reg, idx)
    | S fuel' =>
        let id := zlength (reg_pages reg) in
        let group_id := id / PAGES_PER_GROUP in
        let '(reg, idx) := grow_groups (Z.to_nat (group_id + 1)) group_id reg idx in
        match zlookup (reg_groups reg) group_id with
        | None => Fault (Panic "index out of bounds")
        | Some gh =>
            match zlookup (rs_groups idx) gh with
            | None => Fault (UB "dangling group")
            | Some g =>
                match ReadyPage_new id gh g with
                | Fault e => Fault e
                | Done page =>
                    let h := zlength (rs_pages idx) in
                    grow_pages fuel' page_id
                      (mkRegistry (reg_pending reg) (reg_free reg) (reg_groups reg) (reg_pages reg ++ [h]) (reg_next_slot reg))
                      (mkReadyStore (rs_groups idx) (rs_pages idx ++ [page]) (rs_signals idx))
                end
            end
        end
    end.

(** [free.pop()] takes from the end of the vector; [next_slot += 1] is checked. *)
Definition Registry_take_key (reg : Registry) : outcome (LaneKey * Registry) :=
  match rev (reg_free reg) with
  | key :: rest =>
      Done (key, mkRegistry (reg_pending reg) (rev rest) (reg_groups reg) (reg_pages reg) (reg_next_slot reg))
  | [] =>
      match checked_add (reg_next_slot reg) 1 with
      | None => Fault (Panic "attempt to add with overflow")
      | Some next_slot =>
          Done (mkLaneKey (reg_next_slot reg) 0,
                mkRegistry (reg_pending reg) [] (reg_groups reg) (reg_pages reg) next_slot)
      end
  end.

Definition Registry_allocate_lane (reg : Registry) (idx : ready_store)
    : outcome (LaneKey * Z * Registry * ready_store) :=
  match Registry_take_key reg with
  | Fault e => Fault e
  | Done (key, reg) =>
      let page_id := key_slot key / LANES_PER_PAGE in
      match grow_pages (Z.to_nat (page_id + 1)) page_id reg idx with
      | Fault e => Fault e
      | Done (reg, idx) =>
          match zlookup (reg_pages reg) page_id with
          | None => Fault (Panic "index out of bounds")
          | Some h => Done (key, h, reg, idx)
          end
      end
  end.

Definition Registry_retire_lane (key : LaneKey) (reg : Registry) : Registry :=
  match checked_add (key_generation key) 1 with
  | Some generation =>
      mkRegistry (reg_pending reg) (reg_free reg ++ [mkLaneKey (key_slot key) generation])
        (reg_groups reg) (reg_pages reg) (reg_next_slot reg)
  | None => reg
  end.

(** [register_sender]'s locked section; [consumer] belongs to ring [ring]. *)
Definition register_locked (max_lanes ring : Z) (producer : RProducer) (consumer : RConsumer)
    (s : Shared T) : outcome (result (LaneKey * Z) TryRegisterBoundedError) * Shared T :=
  if negb (sh_receiver_alive s) then (Done (Err TryRegisterBounded_Disconnected), s)
  else if sh_registered_lanes s >=? max_lanes then (Done (Err TryRegisterBounded_AtCapacity), s)
  else
    match Registry_allocate_lane (sh_registry s) (sh_index s) with
    | Fault e => (Fault e, s)
    | Done (key, page, reg, idx) =>
        let signal := zlength (rs_signals idx) in
        let idx := mkReadyStore (rs_groups idx) (rs_pages idx)
                     (rs_signals idx ++ [LaneSignal_new page (key_slot key)]) in
        let reg := mkRegistry (reg_pending reg ++ [mkPendingLane key signal ring consumer])
                     (reg_free reg) (reg_groups reg) (reg_pages reg) (reg_next_slot reg) in
        (Done (Ok (key, signal)),
         set_sh_counts (wrapping_add (sh_registry_generation s) 1) (wrapping_add (sh_registered_lanes s) 1)
           (wrapping_add (sh_live_senders s) 1) (set_sh_registry reg (set_sh_index idx s)))
    end.

Definition Shared_register_sender (max_lanes capacity : Z)
    : prog (Shared T) (result (LaneKey * Z * Z * RProducer) TryRegisterBoundedError) :=
  let* alive := load sh_receiver_alive in
  if negb alive then Ret (Err TryRegisterBounded_Disconnected)
  else
    let* lanes := load sh_registered_lanes in
    if lanes >=? max_lanes then Ret (Err TryRegisterBounded_AtCapacity)
    else
      match ring_spsc (T := T) capacity with
      | Fault e => Fail e
      | Done (ring, producer, consumer) =>
          let* h := atomic (fun s => (zlength (sh_rings s), set_sh_rings (sh_rings s ++ [ring]) s)) in
          let* o := atomic (register_locked max_lanes h producer consumer) in
          let* r := of_outcome o in
          match r with
          | Err e => Ret (Err e)
          | Ok (key, signal) => Ret (Ok (key, signal, h, producer))
          end
      end.

Definition Shared_mark_ready (signal : Z) : prog (Shared T) bool := on_index (LaneSignal_mark signal).
Definition data_notify : prog (Shared T) unit := on_data_waiter WaitCell_notify.
(** [WaitSource::register]: receivers park on the channel's data cell. *)
Definition Shared_register : prog (Shared T) WaitRegistration := on_data_waiter WaitCell_prepare.

(** ** Construction *)

Definition build_channel (capacity_per_sender channel_id : Z) : outcome (Shared T * Sender * Receiver) :=
  match ring_spsc (T := T) capacity_per_sender with
  | Fault e => Fault e
  | Done (ring, producer, consumer) =>
      match ReadyPage_new 0 0 (ReadyGroup_new 0) with
      | Fault e => Fault e
      | Done page =>
          let key := mkLaneKey 0 0 in
          let shared := mkShared [ring] (mkReadyStore [ReadyGroup_new 0] [page] [LaneSignal_new 0 0])
            (mkRegistry [] [] [0] [0] 1) 0 1 1 true WaitCell_new capacity_per_sender channel_id in
          match run (Lane_new key 0 0 consumer) shared with
          | (Fault e, _) => Fault e
          | (Done lane, shared) =>
              Done (shared, mkSender 0 producer key 0 Park,
                mkReceiver [Some lane] [0] [0] [] [false] 0 0 READY_POLL_INTERVAL 0
                  (2 ^ Z.log2_up capacity_per_sender) Park)
          end
      end
  end.

Definition try_channel_with_policy (capacity_per_sender channel_id : Z)
    : outcome (result (Shared T * Sender * Receiver) ChannelError) :=
  match validate_capacity capacity_per_sender MAX_CAPACITY_PER_SENDER with
  | Err e => Done (Err e)
  | Ok _ =>
      match build_channel capacity_per_sender channel_id with
      | Fault e => Fault e
      | Done c => Done (Ok c)
      end
  end.

Definition channel_with_policy (capacity_per_sender channel_id : Z) : outcome (Shared T * Sender * Receiver) :=
  match try_channel_with_policy capacity_per_sender channel_id with
  | Fault e => Fault e
  | Done (Ok c) => Done c
  | Done (Err e) => Fault (Panic (ChannelError_fmt e))
  end.

(** The constructors with the default policy. *)
Definition try_channel (capacity_per_sender channel_id : Z)
    : outcome (result (Shared T * Sender * Receiver) ChannelError) :=
  try_channel_with_policy capacity_per_sender channel_id.

Definition channel (capacity_per_sender channel_id : Z) : outcome (Shared T * Sender * Receiver) :=
  match try_channel capacity_per_sender channel_id with
  | Fault e => Fault e
  | Done (Ok c) => Done c
  | Done (Err e) => Fault (Panic (ChannelError_fmt e))
  end.

(** ** The sender (sender.rs) *)

Definition Sender_lane (tx : Sender) : prog (Shared T) LaneId :=
  let* id := load sh_channel_id in Ret (mkLaneId (snd_key tx) id).

Definition Sender_set_wait_strategy (strategy : WaitStrategy) (tx : Sender) : Sender :=
  mkSender (snd_ring tx) (snd_producer tx) (snd_key tx) (snd_signal tx) strategy.

Definition with_producer (p : RProducer) (tx : Sender) : Sender :=
  mkSender (snd_ring tx) p (snd_key tx) (snd_signal tx) (snd_wait_strategy tx).

Definition Sender_register_with_capacity (tx : Sender) (max_lanes capacity : Z)
    : prog (Shared T) (result Sender TryRegisterBoundedError) :=
  let* r := Shared_register_sender max_lanes capacity in
  match r with
  | Err e => Ret (Err e)
  | Ok (key, signal, ring, producer) =>
      Ret (Ok (mkSender ring producer key signal (snd_wait_strategy tx)))
  end.

Definition Sender_try_register_bounded (tx : Sender) (max_lanes : Z)
    : prog (Shared T) (result Sender TryRegisterBoundedError) :=
  let* capacity := load sh_capacity_per_sender in
  Sender_register_with_capacity tx max_lanes capacity.

Definition map_register_error (r : result Sender TryRegisterBoundedError)
    : prog (Shared T) (result Sender TryRegisterError) :=
  match r with
  | Ok tx => Ret (Ok tx)
  | Err TryRegisterBounded_Disconnected => Ret (Err TryRegister_Disconnected)
  | Err TryRegisterBounded_AtCapacity => Fail (Panic "unreachable: unbounded registration")
  end.

Definition Sender_try_register (tx : Sender) : prog (Shared T) (result Sender TryRegisterError) :=
  let* r := Sender_try_register_bounded tx usize_max in map_register_error r.

Definition Sender_try_register_with_capacity (tx : Sender) (capacity : Z)
    : prog (Shared T) (result Sender TryRegisterError) :=
  match validate_capacity capacity MAX_CAPACITY_PER_SENDER with
  | Err e => Fail (Panic (ChannelError_fmt e))
  | Ok _ => let* r := Sender_register_with_capacity tx usize_max capacity in map_register_error r
  end.

Definition Sender_try_clone (tx : Sender) : prog (Shared T) (option Sender) :=
  let* r := Sender_try_register tx in
  match r with Ok tx => Ret (Some tx) | Err _ => Ret None end.

Definition Sender_registered_lanes : prog (Shared T) Z := load sh_registered_lanes.

Definition Sender_push_error (tx : Sender) (value : T) : prog (Shared T) (TrySendError T) :=
  let* alive := load sh_receiver_alive in
  let* gone :=
    (if negb alive then Ret true
     else on_lane_ring (snd_ring tx) (RProducer_is_consumer_dropped pol)) in
  Ret (if gone : bool then TrySend_Disconnected value else Full value).

Definition Sender_try_send_inner (tx : Sender) (value : T)
    : prog (Shared T) (result unit (TrySendError T) * bool * Sender) :=
  let* dropped := on_lane_ring (snd_ring tx) (RProducer_is_consumer_dropped pol) in
  if dropped : bool then Ret (Err (TrySend_Disconnected value), false, tx)
  else
    let* '(r, p) := on_lane_ring (snd_ring tx) (RProducer_push_and_flush pol (snd_producer tx) value) in
    let tx := with_producer p tx in
    match r with
    | Ok _ =>
        let* wake_receiver := Shared_mark_ready (snd_signal tx) in
        Ret (Ok tt, wake_receiver, tx)
    | Err value =>
        let* e := Sender_push_error tx value in Ret (Err e, false, tx)
    end.

Definition Sender_try_send (tx : Sender) (value : T)
    : prog (Shared T) (result unit (TrySendError T) * Sender) :=
  let* '(result, wake_receiver, tx) := Sender_try_send_inner tx value in
  let* _ := when wake_receiver data_notify in
  Ret (result, tx).

Definition Sender_try_send_unsignaled (tx : Sender) (value : T)
    : prog (Shared T) (result unit (TrySendError T) * Sender) :=
  let* dropped := on_lane_ring (snd_ring tx) (RProducer_is_consumer_dropped pol) in
  if dropped : bool then Ret (Err (TrySend_Disconnected value), tx)
  else
    let* '(r, p) := on_lane_ring (snd_ring tx) (RProducer_push_and_flush pol (snd_producer tx) value) in
    let tx := with_producer p tx in
    match r with
    | Ok _ => Ret (Ok tt, tx)
    | Err value => let* e := Sender_push_error tx value in Ret (Err e, tx)
    end.

Definition Sender_capacity (tx : Sender) : prog (Shared T) Z :=
  on_lane_ring (snd_ring tx) RProducer_capacity.

Definition Sender_is_full (tx : Sender) : prog (Shared T) (bool * Sender) :=
  let* '(b, p) := on_lane_ring (snd_ring tx) (RProducer_is_full (snd_producer tx)) in
  Ret (b, with_producer p tx).

Definition Sender_is_disconnected (tx : Sender) : prog (Shared T) bool :=
  let* alive := load sh_receiver_alive in
  if negb alive then Ret true
  else on_lane_ring (snd_ring tx) (RProducer_is_consumer_dropped pol).

Definition Sender_sender_count : prog (Shared T) Z := load sh_live_senders.
Definition Sender_receiver_count : prog (Shared T) Z := load (fun s => Z.b2z (sh_receiver_alive s)).

(** Deferred teardown only. *)
Definition Sender_flush (tx : Sender) : prog (Shared T) unit :=
  let* _ := on_lane_ring (snd_ring tx) (RProducer_flush (snd_producer tx)) in
  let* wake := Shared_mark_ready (snd_signal tx) in
  when wake data_notify.

Definition Sender_try_send_deferred (tx : Sender) (value : T)
    : prog (Shared T) (result unit (TrySendError T) * Sender) :=
  let* dropped := on_lane_ring (snd_ring tx) (RProducer_is_consumer_dropped pol) in
  if dropped : bool then Ret (Err (TrySend_Disconnected value), tx)
  else
    let* '(r, p) := on_lane_ring (snd_ring tx) (RProducer_push_deferred (snd_producer tx) value) in
    let tx := with_producer p tx in
    match r with
    | Ok _ => Ret (Ok tt, tx)
    | Err value =>
        let* _ := Sender_flush tx in
        let* gone := Sender_is_disconnected tx in
        Ret (Err (if gone : bool then TrySend_Disconnected value else Full value), tx)
    end.

Definition fetch_sub_live_senders : prog (Shared T) unit :=
  store (fun s => set_sh_counts (sh_registry_generation s) (sh_registered_lanes s)
                    (wrapping_sub (sh_live_senders s) 1) s).

(** [impl Drop for Sender], then the drop of the ring's producer. *)
Definition Sender_drop (tx : Sender) : prog (Shared T) unit :=
  let* _ := on_lane_ring (snd_ring tx) (RProducer_close (snd_producer tx)) in
  let* _ := Shared_mark_ready (snd_signal tx) in
  let* _ := fetch_sub_live_senders in
  let* _ := data_notify in
  on_lane_ring (snd_ring tx) (on_hring (Producer_drop (rp_inner (snd_producer tx)))).

(** ** The receiver's registry (receiver/registry.rs) *)

Fixpoint adopt_pending (pending : list PendingLane) (rx : Receiver) : prog (Shared T) Receiver :=
  match pending with
  | [] => Ret rx
  | p :: pending' =>
      let slot := key_slot (pl_key p) in
      let rx :=
        if zlength (rcv_lanes rx) <=? slot then
          set_paused (rcv_paused rx ++ replicate (Z.to_nat (slot + 1 - zlength (rcv_paused rx))) false)
            (set_lanes (rcv_lanes rx ++ replicate (Z.to_nat (slot + 1 - zlength (rcv_lanes rx))) None) rx)
        else rx in
      match zlookup (rcv_lanes rx) slot with
      | Some (Some _) => Fail (Panic "debug_assert: vacant slot")
      | _ =>
          let rx := put_paused slot false rx in
          let* lane := Lane_new (pl_key p) (pl_signal p) (pl_ring p) (pl_consumer p) in
          adopt_pending pending' (set_lanes (zinsert (rcv_lanes rx) slot (Some lane)) rx)
      end
  end.

Definition Receiver_refresh_registry (rx : Receiver) : prog (Shared T) Receiver :=
  let* generation := load sh_registry_generation in
  if generation =? seen_registry_generation rx then Ret rx
  else
    let* '(pending, groups, pages, seen) := atomic (fun s =>
      let reg := sh_registry s in
      ((reg_pending reg, reg_groups reg, reg_pages reg, sh_registry_generation s),
       set_sh_registry (mkRegistry [] (reg_free reg) (reg_groups reg) (reg_pages reg) (reg_next_slot reg)) s)) in
    let* rx := adopt_pending pending (set_topology groups pages (seen_registry_generation rx) rx) in
    Ret (set_topology (rcv_groups rx) (rcv_pages rx) seen rx).

(** The lanes of one claimed page word. *)
Fixpoint collect_lanes (fuel : nat) (page_id lane_bits : Z) (rx : Receiver) : prog (Shared T) Receiver :=
  if lane_bits =? 0 then Ret rx
  else
    match fuel with
    | O => Fail (Panic "out of fuel")
    | S fuel' =>
        let lane_bit := trailing_zeros lane_bits in
        let lane_bits := Z.land lane_bits (lane_bits - 1) in
        let slot := page_id * LANES_PER_PAGE + lane_bit in
        match get_lane slot rx with
        | None => collect_lanes fuel' page_id lane_bits rx
        | Some lane =>
            let* rx :=
              (if is_paused slot rx then Ret rx
               else
                 let* pending := on_index (LaneSignal_is_pending (lane_signal lane)) in
                 if pending && negb (queued lane) then
                   Ret (set_active (rcv_active rx ++ [lane_key lane]) (put_lane (set_queued true lane) rx))
                 else Ret rx) in
            collect_lanes fuel' page_id lane_bits rx
        end
    end.

(** The pages of one claimed group word. *)
Fixpoint collect_pages (fuel : nat) (group_index page_bits : Z) (rx : Receiver) : prog (Shared T) Receiver :=
  if page_bits =? 0 then Ret rx
  else
    match fuel with
    | O => Fail (Panic "out of fuel")
    | S fuel' =>
        let page_bit := trailing_zeros page_bits in
        let page_bits := Z.land page_bits (page_bits - 1) in
        let page_id := group_index * PAGES_PER_GROUP + page_bit in
        let* rx := Receiver_refresh_registry rx in
        match zlookup (rcv_pages rx) page_id with
        | None => collect_pages fuel' group_index page_bits rx
        | Some page =>
            let* lane_bits := on_index (ReadyPage_take page) in
            let* rx := Receiver_refresh_registry rx in
            let* rx := collect_lanes 64 page_id lane_bits rx in
            collect_pages fuel' group_index page_bits rx
        end
    end.

Fixpoint collect_groups (n : nat) (group_count next_group : Z) (all : bool) (rx : Receiver)
    : prog (Shared T) Receiver :=
  match n with
  | O => Ret rx
  | S n' =>
      let group_index := if next_group <? group_count then next_group else 0 in
      let next_group := group_index + 1 in
      match zlookup (rcv_groups rx) group_index with
      | None => Fail (Panic "index out of bounds")
      | Some g =>
          let* ready := on_index (ReadyGroup_has_ready g) in
          if negb ready then collect_groups n' group_count next_group all rx
          else
            let* page_bits := on_index (ReadyGroup_take_all g) in
            if page_bits =? 0 then collect_groups n' group_count next_group all rx
            else
              let* rx := collect_pages 64 group_index page_bits rx in
              let rx := set_group_cursor next_group rx in
              if negb all then Ret rx
              else collect_groups n' group_count next_group all rx
      end
  end.

Definition Receiver_collect_ready (all : bool) (rx : Receiver) : prog (Shared T) Receiver :=
  let* rx := Receiver_refresh_registry rx in
  let group_count := zlength (rcv_groups rx) in
  collect_groups (Z.to_nat group_count) group_count (ready_group_cursor rx) all rx.

Definition Receiver_retire_lane (key : LaneKey) (rx : Receiver) : prog (Shared T) Receiver :=
  match get_lane (key_slot key) rx with
  | None => Ret rx
  | Some lane =>
      let rx := set_lanes (zinsert (rcv_lanes rx) (key_slot key) None) rx in
      if negb (LaneKey_eqb (lane_key lane) key) then Fail (Panic "debug_assert_eq: lane key")
      else
        let rx := put_paused (key_slot key) false rx in
        let* _ := store (fun s => set_sh_counts (sh_registry_generation s)
                    (wrapping_sub (sh_registered_lanes s) 1) (sh_live_senders s) s) in
        let* _ := store (fun s => set_sh_registry (Registry_retire_lane key (sh_registry s)) s) in
        let* _ := on_lane_ring (lane_ring lane) (RConsumer_drop pol (lane_consumer lane)) in
        Ret rx
  end.

(** The scan of [retire_empty_paused_lanes] over the slots from [slot]. *)
Fixpoint retire_paused_from (n : nat) (slot : Z) (rx : Receiver) : prog (Shared T) Receiver :=
  match n with
  | O => Ret rx
  | S n' =>
      let* rx :=
        match get_lane slot rx with
        | Some lane =>
            if is_paused slot rx then
              let* '(empty, lane) := Lane_reload_is_empty lane in
              let rx := put_lane lane rx in
              if empty then Receiver_retire_lane (lane_key lane) rx else Ret rx
            else Ret rx
        | None => Ret rx
        end in
      retire_paused_from n' (slot + 1) rx
  end.

Definition Receiver_retire_empty_paused_lanes (rx : Receiver) : prog (Shared T) Receiver :=
  retire_paused_from (length (rcv_lanes rx)) 0 rx.

Definition Receiver_is_disconnected : prog (Shared T) bool :=
  let* n := load sh_live_senders in Ret (n =? 0).

Definition Receiver_is_drained (rx : Receiver) : prog (Shared T) (bool * Receiver) :=
  let* d := Receiver_is_disconnected in
  if negb d then Ret (false, rx)
  else
    let* n := load sh_registered_lanes in
    let* rx := (if negb (n =? 0) then Receiver_retire_empty_paused_lanes rx else Ret rx) in
    let* n := load sh_registered_lanes in
    Ret (n =? 0, rx).

(** ** Single receives (receiver.rs) *)

Definition Receiver_notify_released (released : option LaneKey) (rx : Receiver) : prog (Shared T) unit :=
  match released with
  | None => Ret tt
  | Some key =>
      match get_lane_key key rx with
      | Some lane => on_index (LaneSignal_notify_space (lane_signal lane))
      | None => Ret tt
      end
  end.

Definition Receiver_poll_lane (FAIR : bool) (key : LaneKey) (rx : Receiver)
    : prog (Shared T) (LanePoll T * Receiver) :=
  match get_lane_key key rx with
  | Some lane => let* '(p, lane) := Lane_poll FAIR lane in Ret (p, put_lane lane rx)
  | None => Ret (PollStale, rx)
  end.

Definition charge_poll_budget (rx : Receiver) : prog (Shared T) Receiver :=
  let* n := usub (items_until_ready_poll rx) 1 in Ret (set_poll_budget n rx).

(** The output views of a receive ([ReceiveOutput]): a plain value, or the
    value with its lane's identity. *)
Definition ItemOnly_item (channel_id : Z) (key : LaneKey) (value : T) : T := value.
Definition WithLaneIds_item (channel_id : Z) (key : LaneKey) (value : T) : LaneId * T :=
  (mkLaneId key channel_id, value).

Section output.
Context {Item : Type} (item : Z -> LaneKey -> T -> Item).

Definition output_item (key : LaneKey) (value : T) : prog (Shared T) Item :=
  let* id := load sh_channel_id in Ret (item id key value).

Definition empty_error (drained : bool) : TryRecvError :=
  if drained then TryRecv_Disconnected else TryRecv_Empty.

Fixpoint Receiver_try_recv_inner (FAIR : bool) (fuel : nat) (rx : Receiver)
    : prog (Shared T) (result Item TryRecvError * option LaneKey * Receiver) :=
  match fuel with
  | O => Fail (Panic "out of fuel")
  | S fuel' =>
      let* '(stop, rx) :=
        (match rcv_active rx with
         | [] =>
             let* rx := Receiver_collect_ready true rx in
             match rcv_active rx with
             | [] => let* '(d, rx) := Receiver_is_drained rx in Ret (Some (empty_error d), rx)
             | _ => Ret (None, rx)
             end
         | _ =>
             if items_until_ready_poll rx =? 0 then
               let* rx := Receiver_collect_ready false rx in
               Ret (None, set_poll_budget READY_POLL_INTERVAL rx)
             else Ret (None, rx)
         end) in
      match stop with
      | Some e => Ret (Err e, None, rx)
      | None =>
          match rcv_active rx with
          | [] => Fail (Panic "active lane present")
          | key :: rest =>
              let* '(poll, rx) := Receiver_poll_lane FAIR key (set_active rest rx) in
              match poll with
              | PollItem value rotate released =>
                  let rx := set_active (if rotate then rcv_active rx ++ [key] else key :: rcv_active rx) rx in
                  let* rx := charge_poll_budget rx in
                  let* it := output_item key value in
                  Ret (Ok it, if released : bool then Some key else None, rx)
              | PollKeep released =>
                  let rx := set_active (rcv_active rx ++ [key]) rx in
                  if released then Ret (Err TryRecv_Empty, Some key, rx)
                  else Receiver_try_recv_inner FAIR fuel' rx
              | PollIdle disconnected released =>
                  if disconnected then
                    let* rx := Receiver_retire_lane key rx in
                    Receiver_try_recv_inner FAIR fuel' rx
                  else if released then Ret (Err TryRecv_Empty, Some key, rx)
                  else Receiver_try_recv_inner FAIR fuel' rx
              | PollStale => Receiver_try_recv_inner FAIR fuel' rx
              end
          end
      end
  end.

(** The retry loop around [try_recv_inner]: repeat while the attempt only
    released slots. *)
Fixpoint Receiver_recv_retry (FAIR : bool) (fuel inner_fuel : nat) (rx : Receiver)
    : prog (Shared T) (result Item TryRecvError * Receiver) :=
  match fuel with
  | O => Fail (Panic "out of fuel")
  | S fuel' =>
      let* '(r, released, rx) := Receiver_try_recv_inner FAIR inner_fuel rx in
      let retry := match released, r with Some _, Err TryRecv_Empty => true | _, _ => false end in
      let* _ := Receiver_notify_released released rx in
      if retry then Receiver_recv_retry FAIR fuel' inner_fuel rx else Ret (r, rx)
  end.

Definition Receiver_try_recv_refill (fuel : nat) (rx : Receiver)
    : prog (Shared T) (result Item TryRecvError * Receiver) :=
  let* rx :=
    (if (items_until_ready_poll rx =? 0) && negb (match rcv_active rx with [] => true | _ => false end) then
       let* rx := Receiver_collect_ready false rx in Ret (set_poll_budget READY_POLL_INTERVAL rx)
     else Ret rx) in
  let* '(fast, rx) :=
    match rcv_active rx with
    | [] => Ret (None, rx)
    | key :: _ =>
        match get_lane_key key rx with
        | None => Ret (None, rx)
        | Some lane =>
            let* lane := Lane_grant_fast lane (items_until_ready_poll rx) in
            let* '(v, lane) := Lane_pop_fast lane in
            let rx := put_lane lane rx in
            match v with
            | None => Ret (None, rx)
            | Some value =>
                let* rx := charge_poll_budget rx in
                let* it := output_item key value in
                Ret (Some it, set_fast_slot (key_slot key) rx)
            end
        end
    end in
  match fast with
  | Some it => Ret (Ok it, rx)
  | None => Receiver_recv_retry false fuel fuel rx
  end.

Definition Receiver_try_recv_output (fuel : nat) (rx : Receiver)
    : prog (Shared T) (result Item TryRecvError * Receiver) :=
  let* '(fast, rx) :=
    match get_lane (fast_slot rx) rx with
    | None => Ret (None, rx)
    | Some lane =>
        let* '(v, lane') := Lane_pop_fast lane in
        match v with
        | None => Ret (None, rx)
        | Some value =>
            let* rx := charge_poll_budget (put_lane lane' rx) in
            let* it := output_item (lane_key lane') value in
            Ret (Some it, rx)
        end
    end in
  match fast with
  | Some it => Ret (Ok it, rx)
  | None => Receiver_try_recv_refill fuel rx
  end.

Fixpoint any_ready (groups : list Z) : prog (Shared T) bool :=
  match groups with
  | [] => Ret false
  | g :: groups' =>
      let* b := on_index (ReadyGroup_has_ready g) in
      if b : bool then Ret true else any_ready groups'
  end.

Definition Receiver_try_recv_fair_output (fuel : nat) (rx : Receiver)
    : prog (Shared T) (result Item TryRecvError * Receiver) :=
  let* gen := load sh_registry_generation in
  let* due :=
    (if negb (gen =? seen_registry_generation rx) then Ret true else any_ready (rcv_groups rx)) in
  let* rx := (if due : bool then Receiver_collect_ready true rx else Ret rx) in
  let rx := set_poll_budget READY_POLL_INTERVAL rx in
  let* '(fast, rx) :=
    match rcv_active rx with
    | [key] =>
        match get_lane_key key rx with
        | None => Ret (None, rx)
        | Some lane =>
            let* '(v, lane) := Lane_pop_fair lane (items_until_ready_poll rx) in
            let rx := put_lane lane rx in
            match v with
            | None => Ret (None, rx)
            | Some value =>
                let* rx := charge_poll_budget rx in
                let* it := output_item key value in
                Ret (Some it, set_fast_slot (key_slot key) rx)
            end
        end
    | _ => Ret (None, rx)
    end in
  match fast with
  | Some it => Ret (Ok it, rx)
  | None => Receiver_recv_retry true fuel fuel rx
  end.

End output.

Definition Receiver_try_recv := Receiver_try_recv_output ItemOnly_item.
Definition Receiver_try_recv_fair := Receiver_try_recv_fair_output ItemOnly_item.
Definition LaneReceiver_try_recv := Receiver_try_recv_output WithLaneIds_item.
Definition LaneReceiver_try_recv_fair := Receiver_try_recv_fair_output WithLaneIds_item.

Definition Receiver_sender_count : prog (Shared T) Z := load sh_live_senders.
Definition Receiver_receiver_count : prog (Shared T) Z := load (fun s => Z.b2z (sh_receiver_alive s)).

(** [impl Drop for Receiver]: close every adopted lane, then every pending
    one; then the fields drop. *)
Fixpoint close_lanes (lanes : list (option Lane)) : prog (Shared T) (list (option Lane)) :=
  match lanes with
  | [] => Ret []
  | None :: lanes' => let* ls := close_lanes lanes' in Ret (None :: ls)
  | Some l :: lanes' =>
      let* c := on_lane_ring (lane_ring l) (RConsumer_close pol (lane_consumer l)) in
      let* _ := on_index (LaneSignal_notify_space (lane_signal l)) in
      let* ls := close_lanes lanes' in Ret (Some (set_consumer c l) :: ls)
  end.

Fixpoint close_pending (pending : list PendingLane) : prog (Shared T) unit :=
  match pending with
  | [] => Ret tt
  | p :: pending' =>
      let* _ := on_lane_ring (pl_ring p) (RConsumer_close pol (pl_consumer p)) in
      let* _ := on_index (LaneSignal_notify_space (pl_signal p)) in
      close_pending pending'
  end.

Definition Receiver_drop (rx : Receiver) : prog (Shared T) Receiver :=
  let* _ := store (set_sh_receiver_alive false) in
  let* lanes := close_lanes (rcv_lanes rx) in
  let* pending := atomic (fun s =>
    let reg := sh_registry s in
    (reg_pending reg, set_sh_registry (mkRegistry [] (reg_free reg) (reg_groups reg) (reg_pages reg) (reg_next_slot reg)) s)) in
  let* _ := close_pending pending in
  Ret (set_lanes lanes rx).

(** ** Lane control (receiver/lane_control.rs) *)

Definition Receiver_lane_mut (id : LaneId) (rx : Receiver) : prog (Shared T) (option Lane * Receiver) :=
  let* channel := load sh_channel_id in
  if negb (channel =? id_channel id) then Ret (None, rx)
  else
    let* rx := Receiver_refresh_registry rx in
    Ret (get_lane_key (id_key id) rx, rx).

Definition Receiver_pause (id : LaneId) (rx : Receiver) : prog (Shared T) (result unit RecvError * Receiver) :=
  let* '(o, rx) := Receiver_lane_mut id rx in
  match o with
  | None => Ret (Err mkRecvError, rx)
  | Some lane =>
      let lane := set_queued false lane in
      let* '(released, lane) := Lane_release_pending lane in
      let* _ := when released (on_index (LaneSignal_notify_space (lane_signal lane))) in
      let rx := put_lane lane rx in
      if is_paused (key_slot (id_key id)) rx then Ret (Ok tt, rx)
      else Ret (Ok tt, retain_active (id_key id) (put_paused (key_slot (id_key id)) true rx))
  end.

Definition Receiver_resume (id : LaneId) (rx : Receiver) : prog (Shared T) (result unit RecvError * Receiver) :=
  let* '(o, rx) := Receiver_lane_mut id rx in
  match o with
  | None => Ret (Err mkRecvError, rx)
  | Some lane =>
      if negb (is_paused (key_slot (id_key id)) rx) then Ret (Ok tt, rx)
      else
        let rx := put_paused (key_slot (id_key id)) false rx in
        let* _ := on_index (LaneSignal_mark (lane_signal lane)) in
        let rx := put_lane (set_queued true lane) rx in
        let rx := set_active (rcv_active rx ++ [id_key id]) rx in
        let* _ := data_notify in
        Ret (Ok tt, rx)
  end.

Definition Receiver_try_recv_from (id : LaneId) (rx : Receiver)
    : prog (Shared T) (result T TryRecvError * Receiver) :=
  let* '(o, rx) := Receiver_lane_mut id rx in
  match o with
  | None => Ret (Err TryRecv_Disconnected, rx)
  | Some lane =>
      let* '(empty, lane) := Lane_refill lane in
      let rx := put_lane lane rx in
      let* _ := when (match empty with Some e => EmptyLane_released e | None => false end)
                  (on_index (LaneSignal_notify_space (lane_signal lane))) in
      match empty with
      | Some (EmptyIdle disconnected _) =>
          let rx := retain_active (id_key id) rx in
          if disconnected : bool then
            let* rx := Receiver_retire_lane (id_key id) rx in Ret (Err TryRecv_Disconnected, rx)
          else Ret (Err TryRecv_Empty, rx)
      | _ =>
          let* '(value, released, lane) := Lane_pop_targeted lane in
          let* _ := when released (on_index (LaneSignal_notify_space (lane_signal lane))) in
          let rx := put_lane lane rx in
          if negb (is_paused (key_slot (id_key id)) rx) && negb (queued lane) then
            let* _ := on_index (LaneSignal_mark (lane_signal lane)) in
            let rx := put_lane (set_queued true lane) rx in
            Ret (Ok value, set_active (rcv_active rx ++ [id_key id]) rx)
          else Ret (Ok value, rx)
      end
  end.

Definition Receiver_close_lane (id : LaneId) (rx : Receiver)
    : prog (Shared T) (result unit RecvError * Receiver) :=
  let* '(o, rx) := Receiver_lane_mut id rx in
  match o with
  | None => Ret (Err mkRecvError, rx)
  | Some lane =>
      let* c := on_lane_ring (lane_ring lane) (RConsumer_close pol (lane_consumer lane)) in
      let* _ := on_index (LaneSignal_notify_space (lane_signal lane)) in
      let rx := retain_active (id_key id) (put_lane (set_consumer c lane) rx) in
      let* rx := Receiver_retire_lane (id_key id) rx in
      Ret (Ok tt, rx)
  end.

(** ** Bulk receives (receiver/batch.rs) *)

Fixpoint release_lanes (lanes : list (option Lane)) : prog (Shared T) (list (option Lane)) :=
  match lanes with
  | [] => Ret []
  | None :: lanes' => let* ls := release_lanes lanes' in Ret (None :: ls)
  | Some l :: lanes' =>
      let* '(released, l) := Lane_release_pending l in
      let* _ := when released (on_index (LaneSignal_notify_space (lane_signal l))) in
      let* ls := release_lanes lanes' in Ret (Some l :: ls)
  end.

Definition Receiver_release_consumed (rx : Receiver) : prog (Shared T) Receiver :=
  let* lanes := release_lanes (rcv_lanes rx) in Ret (set_lanes lanes rx).

Definition Receiver_refresh_active (rx : Receiver) : prog (Shared T) (bool * Receiver) :=
  match rcv_active rx with
  | [] =>
      let* rx := Receiver_collect_ready true rx in
      Ret (negb (match rcv_active rx with [] => true | _ => false end), rx)
  | _ =>
      if items_until_ready_poll rx =? 0 then
        let* rx := Receiver_collect_ready false rx in
        Ret (true, set_poll_budget READY_POLL_INTERVAL rx)
      else Ret (true, rx)
  end.

Definition Receiver_settle_empty_front (key : LaneKey) (empty : EmptyLane) (rx : Receiver)
    : prog (Shared T) Receiver :=
  match empty with
  | EmptyKeep _ => Ret (set_active (rotate_left (rcv_active rx)) rx)
  | EmptyIdle disconnected _ =>
      let rx := set_active (tail (rcv_active rx)) rx in
      if disconnected : bool then Receiver_retire_lane key rx else Ret rx
  end.

Section drain.
Context {Adm : Type}.

Record Drained : Type := mkDrained { drained_received : Z; drained_rejected : bool }.

Fixpoint Receiver_drain_loop (fuel : nat) (received limit : Z) (output : list T)
    (admission : Admit T Adm) (adm : Adm) (rx : Receiver)
    : prog (Shared T) (Drained * list T * Adm * Receiver) :=
  if negb (received <? limit) then Ret (mkDrained received false, output, adm, rx)
  else
    match fuel with
    | O => Fail (Panic "out of fuel")
    | S fuel' =>
        let* '(more, rx) := Receiver_refresh_active rx in
        if negb more then Ret (mkDrained received false, output, adm, rx)
        else
          match rcv_active rx with
          | [] => Fail (Panic "active lane present")
          | key :: rest =>
              match get_lane_key key rx with
              | None => Receiver_drain_loop fuel' received limit output admission adm (set_active rest rx)
              | Some lane =>
                  let* '(empty, lane) := Lane_refill lane in
                  let rx := put_lane lane rx in
                  match empty with
                  | Some e =>
                      let* _ := when (EmptyLane_released e) (on_index (LaneSignal_notify_space (lane_signal lane))) in
                      let* rx := Receiver_settle_empty_front key e rx in
                      Receiver_drain_loop fuel' received limit output admission adm rx
                  | None =>
                      let* chunk := Lane_chunk_limit lane in
                      let take := Z.min (Z.min (limit - received) (items_until_ready_poll rx)) chunk in
                      let* '(moved, output, adm, lane) := Lane_move_chunk lane output take admission adm in
                      let* budget := usub (items_until_ready_poll rx) moved in
                      let rx := set_poll_budget budget rx in
                      let received := received + moved in
                      let* '(ended, lane) := Lane_end_full_burst lane in
                      let rx := put_lane lane rx in
                      let rx := if ended : bool then set_active (rotate_left (rcv_active rx)) rx else rx in
                      if moved <? take then Ret (mkDrained received true, output, adm, rx)
                      else Receiver_drain_loop fuel' received limit output admission adm rx
                  end
              end
          end
    end.

Definition Receiver_drain_into (fuel : nat) (limit : Z) (output : list T) (admission : Admit T Adm) (adm : Adm)
    (rx : Receiver) : prog (Shared T) (Drained * list T * Adm * Receiver) :=
  Receiver_drain_loop fuel 0 limit output admission adm rx.

Definition Receiver_try_recv_batch_into_while (fuel : nat) (output : list T) (limit : Z)
    (accepts : Adm -> T -> bool * Adm) (adm : Adm) (rx : Receiver)
    : prog (Shared T) (result Z TryRecvError * list T * Adm * Receiver) :=
  let* '(d, output, adm, rx) := Receiver_drain_into fuel limit output (AdmitWhile accepts) adm rx in
  let* rx := Receiver_release_consumed rx in
  if (drained_received d =? 0) && negb (limit =? 0) && negb (drained_rejected d) then
    let* '(dr, rx) := Receiver_is_drained rx in Ret (Err (empty_error dr), output, adm, rx)
  else Ret (Ok (drained_received d), output, adm, rx).

End drain.

Definition Receiver_try_recv_batch_into (fuel : nat) (output : list T) (limit : Z) (rx : Receiver)
    : prog (Shared T) (result Z TryRecvError * list T * Receiver) :=
  let* '(d, output, _, rx) := Receiver_drain_into fuel limit output AdmitAll tt rx in
  let* rx := Receiver_release_consumed rx in
  if (drained_received d =? 0) && negb (limit =? 0) then
    let* '(dr, rx) := Receiver_is_drained rx in Ret (Err (empty_error dr), output, rx)
  else Ret (Ok (drained_received d), output, rx).

Fixpoint poll_lanes_from (lanes : list (option Lane)) (slot : Z) (rx : Receiver) : Receiver :=
  match lanes with
  | [] => rx
  | None :: lanes' => poll_lanes_from lanes' (slot + 1) rx
  | Some lane :: lanes' =>
      let rx :=
        if negb (is_paused slot rx) && negb (queued lane) then
          set_active (rcv_active rx ++ [lane_key lane])
            (set_lanes (zinsert (rcv_lanes rx) slot (Some (set_queued true lane))) rx)
        else rx in
      poll_lanes_from lanes' (slot + 1) rx
  end.

Definition Receiver_poll_all_lanes (rx : Receiver) : prog (Shared T) Receiver :=
  let* rx := Receiver_refresh_registry rx in
  Ret (poll_lanes_from (rcv_lanes rx) 0 rx).

Definition Receiver_try_recv_scan_into_while {Adm : Type} (fuel : nat) (output : list T) (limit : Z)
    (accepts : Adm -> T -> bool * Adm) (adm : Adm) (rx : Receiver)
    : prog (Shared T) (result Z TryRecvError * list T * Adm * Receiver) :=
  let* rx := Receiver_poll_all_lanes rx in
  Receiver_try_recv_batch_into_while fuel output limit accepts adm rx.

End mpsc.
