(* ===== verification/MpscRegistry.v ===== *)
(** * The lane registry

    Slots are reused, identities are not: the registry hands out a
    [LaneKey] (slot and generation) at most once, two live lanes never share a
    slot, and the readiness page and bit a registration returns are the ones
    the slot's number names. *)

From S2P Require Import Prelude Prog Config Wait Ready YRing Handoff MpscLane Mpsc.
Local Open Scope prog_scope.

(** ** The readiness index of a registry *)

Record topo_ok (reg : Registry) (idx : ready_store) : Prop := {
  topo_groups : forall i h, zlookup (reg_groups reg) i = Some h ->
    exists g, zlookup (rs_groups idx) h = Some g /\ group_id g = i;
  topo_pages : forall i h, zlookup (reg_pages reg) i = Some h ->
    exists p, zlookup (rs_pages idx) h = Some p /\ page_id p = i /\
      page_group_bit p = Z.shiftl 1 (i mod PAGES_PER_GROUP) /\
      zlookup (reg_groups reg) (i / PAGES_PER_GROUP) = Some (page_group p)
}.

(** Growing only appends to the index and leaves the rest of the registry. *)
Definition reg_grown (reg reg' : Registry) (idx idx' : ready_store) : Prop :=
  reg_pending reg' = reg_pending reg /\ reg_free reg' = reg_free reg /\
  reg_next_slot reg' = reg_next_slot reg /\ rs_signals idx' = rs_signals idx /\
  rs_groups idx `prefix_of` rs_groups idx' /\ rs_pages idx `prefix_of` rs_pages idx'.

Lemma reg_grown_trans r1 r2 r3 i1 i2 i3 :
  reg_grown r1 r2 i1 i2 -> reg_grown r2 r3 i2 i3 -> reg_grown r1 r3 i1 i3.
Proof.
  intros (A & B & C & D & I & J) (E & F & G & H & K & L). split_and!; try congruence; by etransitivity.
Qed.

Lemma zlookup_snoc_cases {A} (l : list A) x i y :
  zlookup (l ++ [x]) i = Some y -> zlookup l i = Some y \/ i = zlength l /\ y = x.
Proof.
  intros H. pose proof (zlookup_Some_range _ _ _ H) as Hr. rewrite zlength_snoc in Hr.
  destruct (decide (i = zlength l)) as [->|].
  - right. rewrite zlookup_snoc in H. by simplify_eq.
  - left. by rewrite zlookup_app_l in H by lia.
Qed.

Lemma grow_groups_ok fuel : forall group_id reg idx,
  topo_ok reg idx -> (group_id + 1 - zlength (reg_groups reg) <= Z.of_nat fuel) ->
  topo_ok (grow_groups fuel group_id reg idx).1 (grow_groups fuel group_id reg idx).2 /\
  group_id < zlength (reg_groups (grow_groups fuel group_id reg idx).1) /\
  reg_pages (grow_groups fuel group_id reg idx).1 = reg_pages reg /\
  reg_grown reg (grow_groups fuel group_id reg idx).1 idx (grow_groups fuel group_id reg idx).2.
Proof.
  induction fuel as [|fuel IH]; intros gid reg idx H Hf; cbn [grow_groups];
    destruct (Z.ltb_spec gid (zlength (reg_groups reg))); try (cbn [fst snd]; split_and!; done); [lia|].
  match goal with |- context [grow_groups fuel gid ?r ?i] => set (reg1 := r); set (idx1 := i) end.
  assert (H1 : topo_ok reg1 idx1).
  { destruct H as [Hg Hp]. split; cbn.
    - intros i h [Hi|[-> ->]]%zlookup_snoc_cases.
      + destruct (Hg _ _ Hi) as (g & E & Eg). exists g. split; [|done].
        pose proof (zlookup_Some_range _ _ _ E). by rewrite zlookup_app_l by lia.
      + exists (ReadyGroup_new (zlength (reg_groups reg))). by rewrite zlookup_snoc.
    - intros i h Hi. destruct (Hp _ _ Hi) as (p & E & E1 & E2 & E3). exists p. split_and!; auto.
      pose proof (zlookup_Some_range _ _ _ E3). by rewrite zlookup_app_l by lia. }
  destruct (IH gid reg1 idx1 H1) as (A & B & C & D).
  { subst reg1. cbn. rewrite zlength_snoc. lia. }
  split_and!; auto. eapply reg_grown_trans; [|exact D]. split_and!; try done. cbn. by apply prefix_app_r.
Qed.

Lemma grow_pages_ok fuel : forall pid reg idx,
  topo_ok reg idx -> (pid + 1 - zlength (reg_pages reg) <= Z.of_nat fuel) ->
  exists reg' idx', grow_pages fuel pid reg idx = Done (reg', idx') /\ topo_ok reg' idx' /\
    pid < zlength (reg_pages reg') /\ reg_grown reg reg' idx idx'.
Proof.
  induction fuel as [|fuel IH]; intros pid reg idx H Hf; cbn [grow_pages];
    destruct (Z.ltb_spec pid (zlength (reg_pages reg))); try (by eexists _, _); [lia|].
  set (id := zlength (reg_pages reg)). set (gid := id / PAGES_PER_GROUP).
  assert (Hid : 0 <= id) by apply zlength_nonneg.
  assert (Hgid : 0 <= gid) by (apply Z.div_pos; [done|reflexivity]).
  pose proof (zlength_nonneg (reg_groups reg)) as Hgl.
  destruct (grow_groups_ok (Z.to_nat (gid + 1)) gid reg idx H) as (H1 & L1 & P1 & G1); [lia|].
  destruct (grow_groups _ gid reg idx) as [reg1 idx1]. cbn [fst snd] in *.
  destruct (zlookup_is_Some (reg_groups reg1) gid) as [gh Hgh]; [lia|]. rewrite Hgh.
  destruct (topo_groups _ _ H1 _ _ Hgh) as (g & Hg & Eg). rewrite Hg.
  unfold ReadyPage_new. rewrite Eg, Z.eqb_refl. cbn [negb].
  match goal with |- context [grow_pages fuel pid ?r ?i] => set (reg2 := r); set (idx2 := i) end.
  assert (H2 : topo_ok reg2 idx2).
  { destruct H1 as [Hgs Hps]. split; cbn; [exact Hgs|].
    intros i h [Hi|[-> ->]]%zlookup_snoc_cases.
    - destruct (Hps _ _ Hi) as (p & E & E1). exists p. split; [|done].
      pose proof (zlookup_Some_range _ _ _ E). by rewrite zlookup_app_l by lia.
    - eexists. rewrite zlookup_snoc. split; [done|]. cbn. rewrite P1. fold id. split_and!; auto. }
  destruct (IH pid reg2 idx2 H2) as (reg3 & idx3 & E3 & H3 & L3 & G3).
  { subst reg2. cbn. rewrite zlength_snoc, P1. lia. }
  exists reg3, idx3. split_and!; auto. eapply reg_grown_trans; [exact G1|]. eapply reg_grown_trans; [|exact G3].
  split_and!; try done. cbn. by apply prefix_app_r.
Qed.

(** ** The keys of a registry *)

(** [live] are the keys of the lanes in use, [issued] every key ever handed
    out. *)
Record keys_ok (reg : Registry) (live issued : list LaneKey) : Prop := {
  keys_next : 0 <= reg_next_slot reg;
  keys_slots : NoDup (key_slot <$> (live ++ reg_free reg));
  keys_range : Forall (fun k => 0 <= key_slot k < reg_next_slot reg /\ 0 <= key_generation k <= usize_max)
                 (issued ++ reg_free reg);
  keys_live : live ⊆ issued;
  keys_issued : NoDup issued;
  keys_free : forall k f, k ∈ issued -> f ∈ reg_free reg -> key_slot k = key_slot f ->
    key_generation k < key_generation f;
  keys_newest : forall k l, k ∈ issued -> l ∈ live -> key_slot k = key_slot l ->
    key_generation k <= key_generation l
}.

Lemma keys_NoDup_slot reg live issued (k f : LaneKey) :
  keys_ok reg live issued -> k ∈ live -> f ∈ reg_free reg -> key_slot k <> key_slot f.
Proof.
  intros H Hk Hf E. pose proof (keys_slots _ _ _ H) as Hs. rewrite fmap_app in Hs.
  apply NoDup_app in Hs as (_ & Hd & _). apply (Hd (key_slot k)); [by apply list_elem_of_fmap_2|].
  rewrite E. by apply list_elem_of_fmap_2.
Qed.

Lemma elem_snoc {A} (l : list A) (x y : A) : x ∈ l ++ [y] -> x ∈ l \/ x = y.
Proof. intros [H|H]%elem_of_app; [auto|]. apply list_elem_of_singleton in H. auto. Qed.

(** A slot that was never used. *)
Lemma keys_fresh_slot reg live issued :
  keys_ok reg live issued -> reg_free reg = [] ->
  forall reg', reg_free reg' = [] -> reg_next_slot reg' = reg_next_slot reg + 1 ->
  let k := mkLaneKey (reg_next_slot reg) 0 in
  keys_ok reg' (live ++ [k]) (issued ++ [k]) /\ k ∉ issued.
Proof.
  intros [Hn Hs Hr Hl Hi Hf Hw] Ef reg' Ef' En k. rewrite Ef, ?app_nil_r in *. rewrite Forall_forall in Hr.
  assert (Hfresh : forall x, x ∈ issued -> key_slot x <> key_slot k).
  { intros x Hx E. destruct (Hr _ Hx). subst k. cbn in E. lia. }
  assert (Hni : k ∉ issued) by (intros Hk; by apply (Hfresh _ Hk)).
  split; [|done]. split; rewrite ?Ef', ?En, ?app_nil_r; auto; try lia.
  - rewrite fmap_app. apply NoDup_app. split_and!; auto; [|apply NoDup_singleton].
    intros y Hy Hyk. apply list_elem_of_fmap in Hy as (x & -> & Hx). apply list_elem_of_singleton in Hyk.
    by apply (Hfresh x); auto.
  - apply Forall_forall. intros x [Hx|Hx]%elem_snoc; [destruct (Hr _ Hx); lia|]. subst x k. cbn. usize.
  - intros x [Hx|Hx]%elem_snoc; apply elem_of_app; [auto|right; subst; by left].
  - apply NoDup_app. split_and!; auto; [|apply NoDup_singleton].
    intros x Hx Hxk. apply list_elem_of_singleton in Hxk. by subst.
  - intros x f _ Hff. by apply elem_of_nil in Hff.
  - intros x l [Hx|Hx]%elem_snoc [Hl'|Hl']%elem_snoc E; subst; auto; try lia.
    + by destruct (Hfresh x).
    + by destruct (Hfresh l); auto.
Qed.

(** A slot taken from the free list. *)
Lemma keys_reuse_slot reg live issued k rest :
  keys_ok reg live issued -> reg_free reg = rest ++ [k] ->
  forall reg', reg_free reg' = rest -> reg_next_slot reg' = reg_next_slot reg ->
  keys_ok reg' (live ++ [k]) (issued ++ [k]) /\ k ∉ issued.
Proof.
  intros H Ef reg' Ef' En. assert (Hkf : k ∈ reg_free reg) by (rewrite Ef; apply elem_of_app; right; by left).
  pose proof (fun l => keys_NoDup_slot _ _ _ l k H) as Hd.
  destruct H as [Hn Hs Hr Hl Hi Hf Hw]. rewrite Forall_forall in Hr.
  assert (Hni : k ∉ issued) by (intros Hk; specialize (Hf k k Hk Hkf eq_refl); lia).
  assert (Hrest : forall f, f ∈ rest -> f ∈ reg_free reg) by (intros f Hff; rewrite Ef; apply elem_of_app; auto).
  assert (Hperm : live ++ reg_free reg ≡ₚ (live ++ [k]) ++ rest) by (rewrite Ef; solve_Permutation).
  assert (Hkr : forall f, f ∈ rest -> key_slot f <> key_slot k).
  { intros f Hff E. rewrite Ef, !fmap_app in Hs. apply NoDup_app in Hs as (_ & _ & Hs).
    apply NoDup_app in Hs as (_ & Hs & _). apply (Hs (key_slot f)); [by apply list_elem_of_fmap_2|].
    rewrite E. by left. }
  split; [|done]. split; rewrite ?Ef', ?En; auto.
  - by rewrite <- Hperm.
  - apply Forall_forall. intros x [[Hx|Hx]%elem_snoc|Hx]%elem_of_app; apply Hr, elem_of_app; subst; auto.
  - intros x [Hx|Hx]%elem_snoc; apply elem_of_app; [auto|right; subst; by left].
  - apply NoDup_app. split_and!; auto; [|apply NoDup_singleton].
    intros x Hx Hxk. apply list_elem_of_singleton in Hxk. by subst.
  - intros x f [Hx|Hx]%elem_snoc Hff E; [by auto|]. subst. by destruct (Hkr f).
  - intros x l [Hx|Hx]%elem_snoc [Hl'|Hl']%elem_snoc E; subst; auto; try lia.
    + specialize (Hf x k Hx Hkf E). lia.
    + by destruct (Hd l).
Qed.

Definition slots_exhausted : fault := Panic "attempt to add with overflow".

(** The slot counter is the only thing that can be used up. *)
Lemma Registry_take_key_ok reg live issued :
  keys_ok reg live issued ->
  match Registry_take_key reg with
  | Fault e => e = slots_exhausted /\ usize_max <= reg_next_slot reg
  | Done (k, reg') =>
      keys_ok reg' (live ++ [k]) (issued ++ [k]) /\ (k ∉ issued) /\
      reg_groups reg' = reg_groups reg /\ reg_pages reg' = reg_pages reg /\
      reg_pending reg' = reg_pending reg /\ reg_next_slot reg' <= reg_next_slot reg + 1
  end.
Proof.
  intros H. unfold Registry_take_key, checked_add. pose proof (rev_involutive (reg_free reg)) as Er.
  destruct (rev (reg_free reg)) as [|k rest]; cbn in Er.
  - destruct (Z.leb_spec (reg_next_slot reg + 1) usize_max); [|split; [done|lia]].
    destruct (keys_fresh_slot _ _ _ H (eq_sym Er)
      (mkRegistry (reg_pending reg) [] (reg_groups reg) (reg_pages reg) (reg_next_slot reg + 1))); [done..|].
    by split_and!; cbn; try lia.
  - destruct (keys_reuse_slot _ _ _ k (rev rest) H (eq_sym Er)
      (mkRegistry (reg_pending reg) (rev rest) (reg_groups reg) (reg_pages reg) (reg_next_slot reg))); [done..|].
    by split_and!; cbn; try lia.
Qed.

(** Retiring the [n]-th live lane frees its slot under a new generation, or
    not at all once the generations are used up. *)
Lemma Registry_retire_ok reg live issued n k :
  keys_ok reg live issued -> live !! n = Some k ->
  keys_ok (Registry_retire_lane k reg) (delete n live) issued.
Proof.
  intros H Hn. assert (Hkl : k ∈ live) by (by eapply list_elem_of_lookup_2).
  pose proof (fun f => keys_NoDup_slot _ _ _ k f H Hkl) as Hd.
  destruct H as [H0 Hs Hr Hl Hi Hf Hw].
  assert (Hperm : live ≡ₚ k :: delete n live) by (by apply delete_Permutation).
  assert (Hsub : forall x, x ∈ delete n live -> x ∈ live) by (intros x Hx; rewrite Hperm; by right).
  assert (Hkg : 0 <= key_slot k < reg_next_slot reg /\ 0 <= key_generation k <= usize_max).
  { rewrite Forall_forall in Hr. apply Hr, elem_of_app. auto. }
  unfold Registry_retire_lane, checked_add.
  destruct (Z.leb_spec (key_generation k + 1) usize_max) as [Hle|Hgt].
  - set (f0 := mkLaneKey (key_slot k) (key_generation k + 1)).
    split; cbn [reg_next_slot reg_free]; auto.
    + rewrite Hperm in Hs. cbn in Hs.
      assert (E : key_slot <$> delete n live ++ reg_free reg ++ [f0] ≡ₚ key_slot k :: (key_slot <$> delete n live ++ reg_free reg)).
      { rewrite !fmap_app. cbn. solve_Permutation. }
      by rewrite E.
    + rewrite app_assoc. apply Forall_app. split; [done|]. constructor; [|done]. subst f0. cbn. lia.
    + intros x Hx. auto.
    + intros x f Hx [Hff|Hff]%elem_snoc E; [by auto|]. subst f. cbn in *.
      specialize (Hw x k Hx Hkl E). lia.
  - split; auto.
    + rewrite Hperm in Hs. cbn in Hs. by apply NoDup_cons in Hs as [_ ?].
    + intros x Hx. auto.
Qed.

(** ** Registrations *)

(** The readiness entry a registration hands out: the bit of the slot in its
    page, and the bit of that page in its group. *)
Definition signal_addresses (idx : ready_store) (k : LaneKey) (signal : Z) : Prop :=
  exists sg pg gr,
    zlookup (rs_signals idx) signal = Some sg /\ signal_bit sg = Z.shiftl 1 (key_slot k mod LANES_PER_PAGE) /\
    zlookup (rs_pages idx) (signal_page sg) = Some pg /\ page_id pg = key_slot k / LANES_PER_PAGE /\
    page_group_bit pg = Z.shiftl 1 (page_id pg mod PAGES_PER_GROUP) /\
    zlookup (rs_groups idx) (page_group pg) = Some gr /\ group_id gr = page_id pg / PAGES_PER_GROUP.

Lemma signal_addresses_mono idx idx' k signal :
  rs_signals idx `prefix_of` rs_signals idx' -> rs_pages idx `prefix_of` rs_pages idx' ->
  rs_groups idx `prefix_of` rs_groups idx' -> signal_addresses idx k signal -> signal_addresses idx' k signal.
Proof.
  intros H1 H2 H3 (sg & pg & gr & E1 & E2 & E3 & E4 & E5 & E6 & E7).
  exists sg, pg, gr. split_and!; eauto using zlookup_prefix.
Qed.

Section registry.
Context {T : Type}.

(** What happens to the registry: a registration (its locked section), or the
    retirement of the [n]-th live lane. *)
Inductive reg_op : Type :=
| RegOpen (max_lanes ring : Z) (producer : RProducer) (consumer : RConsumer)
| RegClose (n : nat).

Definition registry_step (op : reg_op) (st : Shared T * list LaneKey)
    : outcome (list (LaneKey * Z) * (Shared T * list LaneKey)) :=
  let '(s, live) := st in
  match op with
  | RegOpen max_lanes ring producer consumer =>
      match register_locked max_lanes ring producer consumer s with
      | (Fault e, _) => Fault e
      | (Done (Err _), s) => Done ([], (s, live))
      | (Done (Ok (key, signal)), s) => Done ([(key, signal)], (s, live ++ [key]))
      end
  | RegClose n =>
      match live !! n with
      | None => Done ([], (s, live))
      | Some k =>
          let s := set_sh_counts (sh_registry_generation s) (wrapping_sub (sh_registered_lanes s) 1)
                     (sh_live_senders s) s in
          Done ([], (set_sh_registry (Registry_retire_lane k (sh_registry s)) s, delete n live))
      end
  end.

Fixpoint registry_run (ops : list reg_op) (st : Shared T * list LaneKey)
    : outcome (list (LaneKey * Z) * (Shared T * list LaneKey)) :=
  match ops with
  | [] => Done ([], st)
  | op :: ops' =>
      match registry_step op st with
      | Fault e => Fault e
      | Done (i, st) =>
          match registry_run ops' st with
          | Fault e => Fault e
          | Done (i', st) => Done (i ++ i', st)
          end
      end
  end.

Record registry_ok (s : Shared T) (live : list LaneKey) (issued : list (LaneKey * Z)) : Prop := {
  ro_topo : topo_ok (sh_registry s) (sh_index s);
  ro_keys : keys_ok (sh_registry s) live issued.*1;
  ro_signals : Forall (fun '(k, signal) => signal_addresses (sh_index s) k signal) issued
}.

Lemma allocate_lane_ok reg idx live issued :
  topo_ok reg idx -> keys_ok reg live issued ->
  (Registry_allocate_lane reg idx = Fault slots_exhausted /\ usize_max <= reg_next_slot reg) \/
  exists k h reg' idx', Registry_allocate_lane reg idx = Done (k, h, reg', idx') /\
    topo_ok reg' idx' /\ keys_ok reg' (live ++ [k]) (issued ++ [k]) /\ (k ∉ issued) /\
    zlookup (reg_pages reg') (key_slot k / LANES_PER_PAGE) = Some h /\
    rs_signals idx' = rs_signals idx /\ rs_groups idx `prefix_of` rs_groups idx' /\
    rs_pages idx `prefix_of` rs_pages idx' /\ reg_pending reg' = reg_pending reg /\ reg_next_slot reg' <= reg_next_slot reg + 1.
Proof.
  intros Ht Hk. unfold Registry_allocate_lane. pose proof (Registry_take_key_ok _ _ _ Hk) as H.
  destruct (Registry_take_key reg) as [[k reg1]|e]; [right|by destruct H as [-> ?]; left].
  destruct H as (Hk1 & Hni & Eg & Ep & Eq & En).
  assert (Ht1 : topo_ok reg1 idx).
  { destruct Ht as [A B]. split; rewrite ?Eg, ?Ep; auto. }
  assert (Hs : 0 <= key_slot k).
  { pose proof (keys_range _ _ _ Hk1) as Hr. rewrite Forall_forall in Hr.
    apply (Hr k). rewrite !elem_of_app. left. right. by left. }
  assert (Hpid : 0 <= key_slot k / LANES_PER_PAGE) by (apply Z.div_pos; [done|reflexivity]).
  pose proof (zlength_nonneg (reg_pages reg1)) as Hl.
  destruct (grow_pages_ok (Z.to_nat (key_slot k / LANES_PER_PAGE + 1)) (key_slot k / LANES_PER_PAGE) reg1 idx Ht1)
    as (reg2 & idx2 & E2 & Ht2 & L2 & (G1 & G2 & G3 & G4 & G5 & G6)); [lia|].
  rewrite E2. destruct (zlookup_is_Some (reg_pages reg2) (key_slot k / LANES_PER_PAGE)) as [h Hh]; [lia|].
  rewrite Hh. exists k, h, reg2, idx2. rewrite G3, G1. split_and!; auto.
  destruct Hk1 as [A B C D E F G]. split; rewrite ?G2, ?G3; auto.
Qed.

(** One operation takes at most one new slot. *)
Lemma registry_step_ok op s live issued :
  registry_ok s live issued ->
  match registry_step op (s, live) with
  | Fault e => e = slots_exhausted /\ usize_max <= reg_next_slot (sh_registry s)
  | Done (i, (s', live')) =>
      registry_ok s' live' (issued ++ i) /\ reg_next_slot (sh_registry s') <= reg_next_slot (sh_registry s) + 1
  end.
Proof.
  intros [Ht Hk Hs]. destruct op as [m r p c|n]; cbn [registry_step].
  - unfold register_locked. destruct (negb (sh_receiver_alive s)); [rewrite app_nil_r; split; [done|lia]|].
    destruct (sh_registered_lanes s >=? m); [rewrite app_nil_r; split; [done|lia]|].
    destruct (allocate_lane_ok _ _ _ _ Ht Hk) as [[E Hx]|(k & h & reg' & idx' & E & Ht' & Hk' & Hni & Hh & E1 & P1 & P2 & _ & En)];
      rewrite E; [done|]. cbn [sh_registry sh_index set_sh_counts set_sh_registry set_sh_index].
    split; [|exact En]. split.
    + destruct Ht' as [A B]. split; cbn; auto.
    + rewrite fmap_app. cbn. destruct Hk' as [A B C D F G I]. by split.
    + apply Forall_app. split.
      * eapply Forall_impl; [exact Hs|]. intros [k0 sg0]. apply signal_addresses_mono; cbn; auto.
        rewrite E1. by apply prefix_app_r.
      * constructor; [|done]. destruct (topo_pages _ _ Ht' _ _ Hh) as (pg & Q1 & Q2 & Q3 & Q4).
        destruct (topo_groups _ _ Ht' _ _ Q4) as (gr & Q5 & Q6).
        exists (LaneSignal_new h (key_slot k)), pg, gr. cbn. split_and!; auto; try congruence.
        by rewrite zlookup_snoc.
  - destruct (live !! n) as [k|] eqn:En; rewrite app_nil_r; [|split; [done|lia]].
    split; [split; cbn; auto|].
    + destruct Ht as [A B]. unfold Registry_retire_lane. destruct (checked_add _ _); by split.
    + by apply Registry_retire_ok.
    + cbn. unfold Registry_retire_lane. destruct (checked_add _ _); cbn; lia.
Qed.

Lemma registry_run_ok ops : forall s live issued,
  registry_ok s live issued ->
  match registry_run ops (s, live) with
  | Fault e => e = slots_exhausted /\ usize_max < reg_next_slot (sh_registry s) + zlength ops
  | Done (i, (s', live')) => registry_ok s' live' (issued ++ i)
  end.
Proof.
  induction ops as [|op ops IH]; intros s live issued H; cbn [registry_run].
  { by rewrite app_nil_r. }
  pose proof (registry_step_ok op _ _ _ H) as Hstep. rewrite zlength_cons. pose proof (zlength_nonneg ops).
  destruct (registry_step op (s, live)) as [[i [s1 live1]]|e]; [|destruct Hstep; split; [done|lia]].
  destruct Hstep as [H1 En]. specialize (IH _ _ _ H1).
  destruct (registry_run ops (s1, live1)) as [[i' [s2 live2]]|e]; [by rewrite app_assoc|].
  destruct IH; split; [done|lia].
Qed.

(** The registry and the index of a new channel. *)
Lemma topo_ok_new signals : topo_ok (mkRegistry [] [] [0] [0] 1) (mkReadyStore [ReadyGroup_new 0] [mkReadyPage 0 0 0 1] signals).
Proof.
  split; cbn.
  - intros i h Hi. destruct (zlookup_snoc_cases [] 0 i h Hi) as [Hn|[-> ->]]; [|eexists; done].
    pose proof (zlookup_Some_range _ _ _ Hn) as Hr. rewrite (zlength_nil (A:=Z)) in Hr. lia.
  - intros i h Hi. destruct (zlookup_snoc_cases [] 0 i h Hi) as [Hn|[-> ->]]; [|eexists; split_and!; done].
    pose proof (zlookup_Some_range _ _ _ Hn) as Hr. rewrite (zlength_nil (A:=Z)) in Hr. lia.
Qed.

Lemma build_channel_registry capacity id s tx rx :
  build_channel (T := T) capacity id = Done (s, tx, rx) ->
  registry_ok s [snd_key tx] [(snd_key tx, snd_signal tx)] /\ reg_next_slot (sh_registry s) = 1.
Proof.
  unfold build_channel, ring_spsc. destruct (spsc capacity) as [[[ring p] c]|]; [|done].
  cbn. intros [= <- <- _]. split; [|done]. split; cbn.
  - apply topo_ok_new.
  - split; cbn; try done; try apply NoDup_singleton.
    + constructor; [|done]. cbn. usize.
    + intros k f _ Hf. by apply elem_of_nil in Hf.
    + intros k l ->%list_elem_of_singleton ->%list_elem_of_singleton _. lia.
  - constructor; [|done]. eexists _, _, _. split_and!; reflexivity.
Qed.

(** ** Claims *)

(** C17: the registry never reuses an identity.  From a new channel, under any
    sequence of registrations and lane retirements, registration does not
    panic, every key handed out (the first sender's included) is different
    from all earlier ones even though slots are reused, live lanes occupy
    pairwise different slots, and every readiness entry handed out addresses
    the page [slot / 64], bit [slot % 64], of the group [page / 64].  The one
    way to fail is to use up the 64-bit slot counter, which takes at least
    2^64 - 1 operations and is a panic, not a reused slot. *)
Theorem registry_identities (capacity id : Z) (s : Shared T) tx rx (ops : list reg_op) :
  build_channel capacity id = Done (s, tx, rx) ->
  match registry_run ops (s, [snd_key tx]) with
  | Done (issued, (s', live')) =>
      NoDup (snd_key tx :: issued.*1) /\ NoDup (key_slot <$> live') /\
      live' ⊆ snd_key tx :: issued.*1 /\
      Forall (fun '(k, signal) => signal_addresses (sh_index s') k signal) issued
  | Fault e => e = slots_exhausted /\ usize_max <= zlength ops
  end.
Proof.
  intros [H En]%build_channel_registry. pose proof (registry_run_ok ops _ _ _ H) as Hrun.
  destruct (registry_run ops _) as [[i [s' live']]|e]; [|destruct Hrun; split; [done|lia]].
  destruct Hrun as [Ht [_ Hsl _ Hl Hi _ _] Hs]. rewrite fmap_app in *. cbn in *.
  split_and!; auto.
  - rewrite fmap_app in Hsl. by apply NoDup_app in Hsl as [? _].
  - by inversion_clear Hs.
Qed.

End registry.

(** ** Witnesses *)

Definition demo_reg_ops : list reg_op :=
  let open := RegOpen 4 0 (mkRProducer (mkProducer 0 0)) (mkRConsumer (Some (mkConsumer 0 0))) in
  [open; open; RegClose 0; RegClose 1; open; RegClose 1; open; open].

Definition demo_channel : outcome (Shared nat * Sender * Receiver) := build_channel 2 7.
Definition demo_channel_parts : Shared nat * Sender * Receiver :=
  match demo_channel with
  | Done c => c
  | Fault _ => (mkShared [] (mkReadyStore [] [] []) (mkRegistry [] [] [] [] 0) 0 0 0 false WaitCell_new 0 0,
                mkSender 0 (mkRProducer (mkProducer 0 0)) (mkLaneKey 0 0) 0 Park,
                mkReceiver [] [] [] [] [] 0 0 0 0 0 Park)
  end.

Lemma registry_identities_witness :
  let '(s, tx, _) := demo_channel_parts in
  match registry_run demo_reg_ops (s, [snd_key tx]) with
  | Done (issued, (s', live')) =>
      NoDup (snd_key tx :: issued.*1) /\ NoDup (key_slot <$> live') /\
      live' ⊆ snd_key tx :: issued.*1 /\
      Forall (fun '(k, signal) => signal_addresses (sh_index s') k signal) issued
  | Fault e => e = slots_exhausted /\ usize_max <= zlength demo_reg_ops
  end.
Proof.
  assert (H : demo_channel = Done demo_channel_parts) by reflexivity.
  destruct demo_channel_parts as [[s tx] rx]. by apply (registry_identities 2 7 s tx rx demo_reg_ops).
Defined.

(** Slot 2 and slot 0 come back with their next generation. *)
Example demo_registry_keys :
  match registry_run demo_reg_ops (demo_channel_parts.1.1, [snd_key demo_channel_parts.1.2]) with
  | Done (issued, _) => issued.*1
  | Fault _ => []
  end = [mkLaneKey 1 0; mkLaneKey 2 0; mkLaneKey 2 1; mkLaneKey 2 2; mkLaneKey 0 1].
Proof. vm_compute. reflexivity. Qed.
