(* ===== verification/MpscBlocking.v ===== *)
(** * Blocking operations of the MPSC channel

    Models the blocking sends of [src/src/mpsc/sender.rs], the blocking
    receives of [src/src/mpsc/receiver.rs], the blocking batch of
    [receiver/batch.rs] and the iterators of [receiver/iter.rs], on top of the
    loop of Blocking; and shows that both endpoints settle ([Settles]), so that
    their timed operations answer once the deadline has passed. *)

From S2P Require Import Prelude Prog ProgPartial Config Blocking Wait Ready YRing Handoff MpscLane Mpsc.
Local Open Scope prog_scope.

Section mpsc_blocking.
Context {T : Type} (pol : Teardown).

(** ** Sending *)

(** [impl Blocking<T> for Sender]: parks on its lane's capacity cell. *)
Definition Sender_blocking : Blocking (Shared T) Sender T (result unit T) bool WaitRegistration :=
  mkBlocking
    (fun tx value => let* '(r, tx) := Sender_try_send pol tx value in Ret (send_attempt r, tx))
    (fun tx value =>
       let* '(r, wake_receiver, tx) := Sender_try_send_inner pol tx value in
       Ret (send_recheck r wake_receiver, tx))
    (fun tx wake_receiver => let* _ := when wake_receiver data_notify in Ret tx)
    (fun tx => on_index (LaneSignal_register (snd_signal tx)))
    (fun tx r => on_index (LaneSignal_on_cell (snd_signal tx) WaitRegistration_drop))
    (fun tx r => on_index (LaneSignal_on_cell (snd_signal tx) (WaitRegistration_wait r)))
    (fun tx r timed_out => on_index (LaneSignal_on_cell (snd_signal tx) (WaitRegistration_wait_timeout r timed_out))).

Definition Sender_send_slow (env : wait_env) (tx : Sender) (value : T)
    : prog (Shared T) (option (result unit (SendError T)) * Sender) :=
  let spin := SpinWait_blocking (snd_wait_strategy tx) (env_now env) in
  let* '(o, tx) := block Sender_blocking (env_clock env) (env_rounds env) spin tx value in
  Ret (option_map (fun r => match r with Ok u => Ok u | Err v => Err (mkSendError v) end) o, tx).

Definition Sender_send (env : wait_env) (tx : Sender) (value : T)
    : prog (Shared T) (option (result unit (SendError T)) * Sender) :=
  let* '(r, tx) := Sender_try_send pol tx value in
  match r with
  | Ok _ => Ret (Some (Ok tt), tx)
  | Err (TrySend_Disconnected value) => Ret (Some (Err (mkSendError value)), tx)
  | Err (Full value) => Sender_send_slow env tx value
  end.

Definition Sender_send_deadline (env : wait_env) (tx : Sender) (value : T) (deadline : Z)
    : prog (Shared T) (option (result unit (SendTimeoutError T)) * Sender) :=
  let spin := SpinWait_deadline (snd_wait_strategy tx) deadline (env_now env) in
  let* '(o, tx) := block_until Sender_blocking (env_clock env) (env_rounds env) spin deadline tx value in
  Ret (option_map send_timeout_result o, tx).

Definition Sender_send_timeout (env : wait_env) (tx : Sender) (value : T) (timeout : Z)
    : prog (Shared T) (option (result unit (SendTimeoutError T)) * Sender) :=
  match Instant_checked_add (env_now env) timeout with
  | None =>
      let* '(o, tx) := Sender_send env tx value in
      Ret (option_map (fun r => match r with
                                | Ok u => Ok u
                                | Err (mkSendError v) => Err (SendTimeout_Disconnected v)
                                end) o, tx)
  | Some deadline => Sender_send_deadline env tx value deadline
  end.

(** ** Receiving *)

Section output.
Context {Item : Type} (item : Z -> LaneKey -> T -> Item).

(** [impl Blocking<PhantomData<O>> for Receiver]: parks on the channel's data
    cell. *)
Definition Receiver_blocking (fuel : nat)
    : Blocking (Shared T) Receiver unit (result Item RecvError) (option LaneKey) WaitRegistration :=
  mkBlocking
    (fun rx view =>
       let* '(r, rx) := Receiver_try_recv_output pol item fuel rx in Ret (recv_attempt r view, rx))
    (fun rx view =>
       let* '(r, released, rx) := Receiver_try_recv_inner pol item false fuel rx in
       Ret (match r with
            | Ok value => RecheckDone (Ok value) released
            | Err TryRecv_Disconnected => RecheckDone (Err mkRecvError) None
            | Err TryRecv_Empty =>
                match released with Some _ => RecheckProgressed view released | None => RecheckPending view end
            end, rx))
    (fun rx released => let* _ := Receiver_notify_released released rx in Ret rx)
    (fun rx => Shared_register)
    (fun rx r => on_data_waiter WaitRegistration_drop)
    (fun rx r => on_data_waiter (WaitRegistration_wait r))
    (fun rx r timed_out => on_data_waiter (WaitRegistration_wait_timeout r timed_out)).

Definition Receiver_recv_slow (fuel : nat) (env : wait_env) (rx : Receiver)
    : prog (Shared T) (option (result Item RecvError) * Receiver) :=
  let spin := SpinWait_blocking (rcv_wait_strategy rx) (env_now env) in
  block (Receiver_blocking fuel) (env_clock env) (env_rounds env) spin rx tt.

Fixpoint Receiver_recv_output (retries fuel : nat) (env : wait_env) (rx : Receiver)
    : prog (Shared T) (option (result Item RecvError) * Receiver) :=
  match retries with
  | O => Fail (Panic "out of fuel")
  | S retries' =>
      let* '(r, released, rx) := Receiver_try_recv_inner pol item false fuel rx in
      let retry := match released, r with Some _, Err TryRecv_Empty => true | _, _ => false end in
      let* _ := Receiver_notify_released released rx in
      match r with
      | Ok value => Ret (Some (Ok value), rx)
      | Err TryRecv_Disconnected => Ret (Some (Err mkRecvError), rx)
      | Err TryRecv_Empty =>
          if retry then Receiver_recv_output retries' fuel env rx else Receiver_recv_slow fuel env rx
      end
  end.

Definition Receiver_recv_deadline_output (fuel : nat) (env : wait_env) (rx : Receiver) (deadline : Z)
    : prog (Shared T) (option (result Item RecvTimeoutError) * Receiver) :=
  let spin := SpinWait_deadline (rcv_wait_strategy rx) deadline (env_now env) in
  let* '(o, rx) := block_until (Receiver_blocking fuel) (env_clock env) (env_rounds env) spin deadline rx tt in
  Ret (option_map recv_timeout_result o, rx).

Definition Receiver_recv_timeout_output (retries fuel : nat) (env : wait_env) (rx : Receiver) (timeout : Z)
    : prog (Shared T) (option (result Item RecvTimeoutError) * Receiver) :=
  match Instant_checked_add (env_now env) timeout with
  | None =>
      let* '(o, rx) := Receiver_recv_output retries fuel env rx in
      Ret (option_map (fun r => match r with Ok v => Ok v | Err _ => Err RecvTimeout_Disconnected end) o, rx)
  | Some deadline => Receiver_recv_deadline_output fuel env rx deadline
  end.

End output.

Definition Receiver_recv := Receiver_recv_output (@ItemOnly_item T).
Definition Receiver_recv_timeout := Receiver_recv_timeout_output (@ItemOnly_item T).
Definition Receiver_recv_deadline := Receiver_recv_deadline_output (@ItemOnly_item T).
Definition LaneReceiver_recv := Receiver_recv_output (@WithLaneIds_item T).
Definition LaneReceiver_recv_timeout := Receiver_recv_timeout_output (@WithLaneIds_item T).
Definition LaneReceiver_recv_deadline := Receiver_recv_deadline_output (@WithLaneIds_item T).

(** [recv_batch_into]: blocks for the first value only. *)
Definition Receiver_recv_batch_into (retries fuel : nat) (env : wait_env) (output : list T) (limit : Z) (rx : Receiver)
    : prog (Shared T) (option (result Z RecvError) * list T * Receiver) :=
  let* '(r, output, rx) :=
    (if limit =? 0 then Ret (Some (Ok 0), output, rx)
     else
       let* '(d, output, _, rx) := Receiver_drain_into pol fuel limit output AdmitAll tt rx in
       if drained_received d =? 0 then
         let* '(o, rx) := Receiver_recv retries fuel env rx in
         match o with
         | None => Ret (None, output, rx)
         | Some (Err e) => Ret (Some (Err e), output, rx)
         | Some (Ok first) =>
             let output := output ++ [first] in
             let* '(d, output, _, rx) := Receiver_drain_into pol fuel (limit - 1) output AdmitAll tt rx in
             Ret (Some (Ok (1 + drained_received d)), output, rx)
         end
       else Ret (Some (Ok (drained_received d)), output, rx)) in
  match r with
  | None => Ret (None, output, rx)
  | Some r => let* rx := Receiver_release_consumed rx in Ret (Some r, output, rx)
  end.

(** ** Iterators (receiver/iter.rs)

    [Iter] and [IntoIter] both call [recv]; [TryIter] calls [try_recv]. *)

Definition Iter_next (retries fuel : nat) (env : wait_env) (rx : Receiver)
    : prog (Shared T) (option (option T) * Receiver) :=
  let* '(o, rx) := Receiver_recv retries fuel env rx in
  Ret (option_map (fun r => match r with Ok v => Some v | Err _ => None end) o, rx).

Definition IntoIter_next := Iter_next.

Definition TryIter_next (fuel : nat) (rx : Receiver) : prog (Shared T) (option T * Receiver) :=
  let* '(r, rx) := Receiver_try_recv pol fuel rx in
  Ret (match r with Ok v => Some v | Err _ => None end, rx).

End mpsc_blocking.

(** ** What a receiver still has to release

    A recheck of a receive that finds nothing may have released slots of a
    lane; then it notifies that lane's sender and goes round again without
    parking.  It can do so only once for every lane that holds consumed slots
    ([owes]), so at most as often as there are lanes. *)

Definition owes (o : option Lane) : nat :=
  match o with
  | Some l => if (unreleased l =? 0) && (fast_left l =? 0) then 0 else 1
  | None => 0
  end.

Definition owing (lanes : list (option Lane)) : nat := sum_list (owes <$> lanes).

(** Every lane is at its slot. *)
Definition keyed (lanes : list (option Lane)) : Prop :=
  forall k l, lanes !! k = Some (Some l) -> Z.to_nat (key_slot (lane_key l)) = k.

Definition Owes (m : nat) (rx : Receiver) : Prop := keyed (rcv_lanes rx) /\ (owing (rcv_lanes rx) <= m)%nat.

(** A call with a deadline that [passes] with room for all lanes. *)
Definition settled (deadline : Z) (env : wait_env) (rx : Receiver) : Prop :=
  keyed (rcv_lanes rx) /\ passes deadline (length (rcv_lanes rx)) env.

Lemma owes_le o : (owes o <= 1)%nat.
Proof. destruct o as [l|]; cbn; [destruct (_ && _)|]; lia. Qed.

Lemma owing_le lanes : (owing lanes <= length lanes)%nat.
Proof.
  induction lanes as [|o lanes IH]; [done|]. change (owes o + owing lanes <= S (length lanes))%nat. pose proof (owes_le o). lia.
Qed.

Lemma owing_insert lanes k o o' :
  lanes !! k = Some o -> (owing (<[k := o']> lanes) + owes o = owing lanes + owes o')%nat.
Proof.
  revert k. induction lanes as [|a lanes IH]; intros [|k] H; cbn in H; simplify_eq.
  - change (owes o' + owing lanes + owes o = owes o + owing lanes + owes o')%nat. lia.
  - change (owes a + owing (<[k := o']> lanes) + owes o = owes a + owing lanes + owes o')%nat. specialize (IH k H). lia.
Qed.

Lemma keyed_insert lanes k o :
  keyed lanes -> (forall l, o = Some l -> Z.to_nat (key_slot (lane_key l)) = k) -> keyed (<[k := o]> lanes).
Proof.
  intros H Ho j l [(-> & E & _)|[_ E]]%list_lookup_insert_Some; [by apply Ho|by apply H].
Qed.

Lemma get_lane_lookup slot rx l : get_lane slot rx = Some l -> rcv_lanes rx !! Z.to_nat slot = Some (Some l).
Proof. unfold get_lane, zlookup. destruct (slot <? 0); [done|]. by destruct (_ !! _) as [[l'|]|]; intros; simplify_eq. Qed.

(** Putting a lane back that owes no more than it did, or [n] less. *)
Lemma Owes_put m n slot rx l l' :
  Owes m rx -> get_lane slot rx = Some l -> lane_key l' = lane_key l -> (owes (Some l') + n <= owes (Some l))%nat ->
  keyed (rcv_lanes (put_lane l' rx)) /\ (owing (rcv_lanes (put_lane l' rx)) + n <= m)%nat.
Proof.
  intros [Hk Hm] Hl%get_lane_lookup Ek Hn. pose proof (Hk _ _ Hl) as Es. unfold put_lane, zinsert. cbn [rcv_lanes set_lanes].
  rewrite Ek, Es. pose proof (owing_insert (rcv_lanes rx) (Z.to_nat slot) _ (Some l') Hl). split; [|lia].
  apply keyed_insert; [done|]. intros l0 [= <-]. by rewrite Ek.
Qed.

Lemma Owes_put_le m slot rx l l' :
  Owes m rx -> get_lane slot rx = Some l -> lane_key l' = lane_key l -> (owes (Some l') <= owes (Some l))%nat -> Owes m (put_lane l' rx).
Proof. intros H1 H2 H3 H4. destruct (Owes_put m 0 slot rx l l') as [K1 K2]; [done..|lia|]. split; [done|lia]. Qed.

Lemma Owes_lanes m rx rx' : rcv_lanes rx' = rcv_lanes rx -> Owes m rx -> Owes m rx'.
Proof. unfold Owes. by intros ->. Qed.

Section owing.
Context {T : Type} (pol : Teardown).
Implicit Types (rx : Receiver) (l : Lane).

(** A lane program that owes no more afterwards, and one less when it says
    that it released slots. *)
Definition same_lane_owes l l' : Prop := lane_key l' = lane_key l /\ (owes (Some l') <= owes (Some l))%nat.
Definition released_owes l (released : bool) l' : Prop :=
  lane_key l' = lane_key l /\ (owes (Some l') + Nat.b2n released <= owes (Some l))%nat.

Lemma same_lane_trans l1 l2 l3 : same_lane_owes l1 l2 -> same_lane_owes l2 l3 -> same_lane_owes l1 l3.
Proof. intros [E1 H1] [E2 H2]. split; [congruence|lia]. Qed.

Lemma yields_close_fast l :
  yields (Lane_close_fast (T := T) l) (fun l' => same_lane_owes l l' /\ fast_left l' = 0).
Proof.
  unfold Lane_close_fast. destruct (Z.eqb_spec (fast_left l) 0) as [E|E]; cbn [negb]; [by split; [split|]|].
  apply yields_skip. intros u. apply yields_skip. intros b. cbn. split; [|done]. split; [done|]. cbn.
  destruct (Z.eqb_spec (fast_left l) 0); [done|]. rewrite andb_false_r. destruct (_ && _); lia.
Qed.

Lemma yields_owes_prefetch l : yields (Lane_prefetch (T := T) l) (fun l' => same_lane_owes l l' /\ fast_left l' = fast_left l).
Proof. unfold Lane_prefetch. apply yields_skip. intros [n c]. by repeat split; cbn. Qed.

Lemma yields_release_pending l :
  yields (Lane_release_pending (T := T) l) (fun '(released, l') => released_owes l released l' /\ fast_left l' = 0).
Proof.
  unfold Lane_release_pending. eapply yields_bind; [apply yields_close_fast|]. intros l1 [[E1 H1] F1].
  destruct (Z.eqb_spec (unreleased l1) 0) as [E|E].
  { split; [|done]. split; [done|]. cbn [Nat.b2n]. lia. }
  apply yields_skip. intros _. split; [|done]. split; [done|]. cbn in *. rewrite F1. destruct (Z.eqb_spec (unreleased l1) 0); [done|].
  cbn in *. lia.
Qed.

Lemma yields_settle_empty l :
  yields (Lane_settle_empty (T := T) l) (fun '(e, l') => released_owes l (EmptyLane_released e) l').
Proof.
  unfold Lane_settle_empty. eapply yields_bind; [apply yields_release_pending|]. intros [released l1] [[E1 H1] _].
  apply yields_skip. intros _. eapply yields_bind; [apply yields_owes_prefetch|]. intros l2 [[E2 H2] _].
  assert (Hl : released_owes l released l2) by (split; [congruence|lia]).
  destruct (negb _); apply yields_skip; intros x; exact Hl.
Qed.

Lemma yields_refill l :
  yields (Lane_refill (T := T) l) (fun '(o, l') =>
    match o with Some e => released_owes l (EmptyLane_released e) l' | None => lane_key l' = lane_key l end).
Proof.
  unfold Lane_refill. eapply yields_bind; [apply yields_close_fast|]. intros l1 [[E1 H1] _].
  destruct (cached_available l1 =? 0); [|done]. eapply yields_bind; [apply yields_owes_prefetch|]. intros l2 [[E2 H2] _].
  destruct (cached_available l2 =? 0); [|by rewrite <- E1].
  eapply yields_bind; [apply yields_settle_empty|]. intros [e l3] [E3 H3]. split; [congruence|lia].
Qed.

(** A poll of a lane that finds no value. *)
Lemma yields_poll FAIR l :
  yields (Lane_poll (T := T) FAIR l) (fun '(p, l') =>
    match p with PollItem _ _ _ => True | PollKeep r | PollIdle _ r => released_owes l r l' | PollStale => False end).
Proof.
  unfold Lane_poll. eapply yields_bind; [apply yields_refill|]. intros [[[r|d r]|] l1] H1; [exact H1..|].
  apply yields_skip. by intros [[v r] l2].
Qed.

Lemma yields_reload_is_empty l : yields (Lane_reload_is_empty (T := T) l) (fun '(_, l') => same_lane_owes l l').
Proof.
  unfold Lane_reload_is_empty. eapply yields_bind; [apply yields_close_fast|]. intros l1 [H1 _].
  destruct (cached_available l1 =? 0); [|exact H1]. eapply yields_bind; [apply yields_owes_prefetch|]. intros l2 [H2 _].
  by eapply same_lane_trans.
Qed.

(** A fast window that opens yields its first value. *)
Lemma yields_grant_pop l budget {B} (k : option T * Lane -> prog (Shared T) B) P :
  (forall v l', yields (k (Some v, l')) P) -> (forall l', same_lane_owes l l' -> yields (k (None, l')) P) ->
  yields (let* l := Lane_grant_fast (T := T) l budget in bind (Lane_pop_fast l) k) P.
Proof.
  intros Hs Hn. eapply (yields_bind _ _ (fun l' => fast_left l' <> 0 \/ same_lane_owes l l')).
  - unfold Lane_grant_fast. eapply yields_bind; [apply yields_close_fast|]. intros l1 [H1 F1].
    eapply (yields_bind _ _ (fun l2 => same_lane_owes l l2 /\ fast_left l2 = 0)).
    { destruct (cached_available l1 =? 0); [|by split]. eapply yields_mono; [|apply yields_owes_prefetch].
      intros l2 [H2 F2]. split; [by eapply same_lane_trans|congruence]. }
    intros l2 [[E2 H2] F2]. apply yields_skip. intros cached. set (g := Z.min _ budget).
    destruct (Z.eq_dec g 0) as [E|E]; [right|by left].
    apply (same_lane_trans _ l2); [by split|]. split; [done|]. cbn. by rewrite E, Z.add_0_r, F2.
  - intros l1 Hl. unfold Lane_pop_fast. destruct (Z.eqb_spec (fast_left l1) 0) as [E|E].
    { apply Hn. by destruct Hl. }
    change (yields (bind (let* '(v, c) := on_lane_ring (lane_ring l1) (RConsumer_pop (lane_consumer l1)) in
      match v with None => Fail (Panic "a fast window holds prefetched values") | Some v => Ret (Some v, set_consumer c (set_counters (cached_available l1) (unreleased l1) (burst l1) (fast_left l1 - 1) l1)) end) k) P).
    eapply (yields_bind _ _ (fun r => exists v l', r = (Some v, l'))); [|by intros ? (v & l' & ->)].
    apply yields_skip. intros [[v|] c]; [by eexists _, _|done].
Qed.

(** ** The receiver between two answers *)

Lemma keyed_snoc lanes n : keyed lanes -> keyed (lanes ++ replicate n None).
Proof. intros H k l [Hk|[_ Hk]]%lookup_app_Some; [by apply H|]. by apply lookup_replicate in Hk as [? _]. Qed.

Lemma owing_vacant n : owing (replicate n None) = 0%nat.
Proof. induction n as [|n IH]; [done|]. exact IH. Qed.

Lemma owing_app lanes more : owing (lanes ++ more) = (owing lanes + owing more)%nat.
Proof. unfold owing. rewrite fmap_app. induction (owes <$> lanes) as [|a l IH]; [done|]. cbn in *. lia. Qed.

(** Filling a slot with a lane that owes nothing, or emptying it. *)
Lemma Owes_fill m k o rx :
  Owes m rx -> owes o = 0%nat -> (forall l, o = Some l -> Z.to_nat (key_slot (lane_key l)) = k) ->
  Owes m (set_lanes (<[k := o]> (rcv_lanes rx)) rx).
Proof.
  intros [Hk Hm] H0 Ho. split; cbn [rcv_lanes set_lanes]; [by apply keyed_insert|]. destruct (rcv_lanes rx !! k) as [o1|] eqn:E.
  - pose proof (owing_insert _ _ _ o E). lia.
  - rewrite list_insert_ge; [done|]. by apply lookup_ge_None.
Qed.

Lemma yields_adopt pending : forall m rx, Owes m rx -> yields (adopt_pending (T := T) pending rx) (Owes m).
Proof.
  induction pending as [|p pending IH]; intros m rx Hrx; cbn [adopt_pending]; [exact Hrx|]. set (rx1 := if _ <=? _ then _ else rx).
  assert (H1 : Owes m rx1).
  { unfold rx1. destruct (_ <=? _); [|done]. destruct Hrx as [Hk Hm]. split; cbn [rcv_lanes set_lanes set_paused]; [by apply keyed_snoc|].
    by rewrite owing_app, owing_vacant, Nat.add_0_r. }
  assert (Hgo : yields (let rx := put_paused (key_slot (pl_key p)) false rx1 in
    let* lane := Lane_new (T := T) (pl_key p) (pl_signal p) (pl_ring p) (pl_consumer p) in
    adopt_pending pending (set_lanes (zinsert (rcv_lanes rx) (key_slot (pl_key p)) (Some lane)) rx)) (Owes m)).
  { apply (yields_bind _ _ (fun l => owes (Some l) = 0%nat /\ lane_key l = pl_key p)).
    - unfold Lane_new. by apply yields_skip.
    - intros lane [H0 E]. apply IH. apply (Owes_fill m _ (Some lane) (put_paused _ _ rx1)); [exact H1|done|]. by intros l [= <-]; rewrite E. }
  destruct (zlookup _ _) as [[l|]|]; [done|exact Hgo..].
Qed.

Lemma yields_refresh m rx : Owes m rx -> yields (Receiver_refresh_registry (T := T) rx) (Owes m).
Proof.
  intros H. unfold Receiver_refresh_registry. apply yields_skip. intros g. destruct (g =? _); [exact H|].
  apply yields_skip. intros [[[pending groups] pages] seen]. eapply yields_bind; [by apply yields_adopt|]. intros rx1 H1. exact H1.
Qed.

Lemma yields_collect_lanes fuel page_id : forall bits m rx,
  Owes m rx -> yields (collect_lanes (T := T) fuel page_id bits rx) (Owes m).
Proof.
  induction fuel as [|fuel IH]; intros bits m rx H; cbn [collect_lanes]; destruct (bits =? 0); try done; try exact H.
  destruct (get_lane _ rx) as [lane|] eqn:El; [|by apply IH]. eapply (yields_bind _ _ (Owes m)); [|intros rx1 H1; by apply IH].
  destruct (is_paused _ rx); [exact H|]. apply yields_skip. intros pending. destruct (_ && _); [|exact H].
  apply (Owes_lanes m (put_lane (set_queued true lane) rx)); [done|]. by eapply Owes_put_le.
Qed.

Lemma yields_collect_pages fuel group : forall bits m rx,
  Owes m rx -> yields (collect_pages (T := T) fuel group bits rx) (Owes m).
Proof.
  induction fuel as [|fuel IH]; intros bits m rx H; cbn [collect_pages]; destruct (bits =? 0); try done; try exact H.
  eapply yields_bind; [by apply yields_refresh|]. intros rx1 H1. destruct (zlookup _ _) as [page|]; [|by apply IH].
  apply yields_skip. intros lane_bits. eapply yields_bind; [by apply yields_refresh|]. intros rx2 H2.
  eapply yields_bind; [by apply yields_collect_lanes|]. intros rx3 H3. by apply IH.
Qed.

#[local] Strategy opaque [collect_pages collect_lanes].

Lemma yields_collect_groups n count all : forall next m rx,
  Owes m rx -> yields (collect_groups (T := T) n count next all rx) (Owes m).
Proof.
  induction n as [|n IH]; intros next m rx H; cbn [collect_groups]; [exact H|].
  destruct (zlookup _ _) as [g|]; [|done]. apply yields_skip. intros [|]; cbn [negb]; [|by apply IH].
  apply yields_skip. intros bits. destruct (bits =? 0); [by apply IH|].
  eapply yields_bind; [by apply yields_collect_pages|]. intros rx1 H1. destruct all; cbn [negb]; [by apply IH|exact H1].
Qed.

Lemma yields_collect_ready all m rx : Owes m rx -> yields (Receiver_collect_ready (T := T) all rx) (Owes m).
Proof.
  intros H. unfold Receiver_collect_ready. eapply yields_bind; [by apply yields_refresh|].
  intros rx1 H1. by apply yields_collect_groups.
Qed.

Lemma yields_retire_lane key m rx : Owes m rx -> yields (Receiver_retire_lane (T := T) pol key rx) (Owes m).
Proof.
  intros H. unfold Receiver_retire_lane. destruct (get_lane _ rx); [|exact H]. destruct (negb _); [done|].
  do 3 (apply yields_skip; intros _). apply (Owes_fill m (Z.to_nat (key_slot key)) None rx); done.
Qed.

Lemma yields_retire_paused n : forall slot m rx, Owes m rx -> yields (retire_paused_from (T := T) pol n slot rx) (Owes m).
Proof.
  induction n as [|n IH]; intros slot m rx H; cbn [retire_paused_from]; [exact H|].
  eapply (yields_bind _ _ (Owes m)); [|intros rx1 H1; by apply IH]. destruct (get_lane slot rx) as [l|] eqn:El; [|exact H].
  destruct (is_paused slot rx); [|exact H]. eapply yields_bind; [apply yields_reload_is_empty|]. intros [empty l'] [E Hl].
  assert (H1 : Owes m (put_lane l' rx)) by by eapply Owes_put_le. destruct empty; [by apply yields_retire_lane|exact H1].
Qed.

Lemma yields_is_drained m rx : Owes m rx -> yields (Receiver_is_drained (T := T) pol rx) (fun r => Owes m r.2).
Proof.
  intros H. unfold Receiver_is_drained. apply yields_skip. intros d. destruct (negb d); [exact H|]. apply yields_skip. intros n.
  eapply (yields_bind _ _ (Owes m)); [|intros rx1 H1; by apply yields_skip].
  destruct (negb _); [|exact H]. by apply yields_retire_paused.
Qed.

Lemma get_lane_key_get key rx l : get_lane_key key rx = Some l -> get_lane (key_slot key) rx = Some l.
Proof. unfold get_lane_key. destruct (get_lane _ rx) as [l0|]; [|done]. by destruct (LaneKey_eqb _ _). Qed.

(** One less is owed after an answer that released slots. *)
Definition repaid (m : nat) (released : bool) rx : Prop :=
  if released then exists m', m = Datatypes.S m' /\ Owes m' rx else Owes m rx.

Lemma yields_poll_lane FAIR key m rx : Owes m rx ->
  yields (Receiver_poll_lane (T := T) FAIR key rx) (fun '(p, rx') =>
    match p with PollItem _ _ _ => True | PollKeep r | PollIdle _ r => repaid m r rx' | PollStale => Owes m rx' end).
Proof.
  intros H. unfold Receiver_poll_lane. destruct (get_lane_key key rx) as [l|] eqn:El; [|exact H]. apply get_lane_key_get in El.
  assert (Hput : forall r l', released_owes l r l' -> repaid m r (put_lane l' rx)).
  { intros r l' [E Hl]. destruct (Owes_put m (Nat.b2n r) _ rx l l' H El E Hl) as [K1 K2].
    destruct r; cbn [repaid Nat.b2n] in *; [|split; [done|lia]]. exists (m - 1)%nat. split; [lia|]. split; [done|lia]. }
  eapply yields_bind; [apply yields_poll|]. intros [[v rot r|r|d r|] l'] Hl; cbn; [done|by apply Hput..|done].
Qed.

Lemma repaid_lanes m r rx rx' : rcv_lanes rx' = rcv_lanes rx -> repaid m r rx -> repaid m r rx'.
Proof. intros E. destruct r; cbn; [intros (m' & -> & H); exists m'|intros H]; [split; [done|]|]; by eapply Owes_lanes. Qed.

Section item.
Context {Item : Type} (item : Z -> LaneKey -> T -> Item).

(** What an attempt leaves owed. *)
Definition owes_after {I} (m : nat) (r : result I TryRecvError) (released : bool) rx : Prop :=
  match r with Err TryRecv_Empty => repaid m released rx | _ => True end.

Lemma yields_try_recv_inner FAIR fuel : forall m rx, Owes m rx ->
  yields (Receiver_try_recv_inner pol item FAIR fuel rx) (fun '(r, released, rx') =>
    owes_after m r (bool_decide (is_Some released)) rx').
Proof.
  induction fuel as [|fuel IH]; intros m rx H; cbn [Receiver_try_recv_inner]; [done|].
  eapply (yields_bind _ _ (fun r => Owes m r.2)).
  { destruct (rcv_active rx).
    - eapply yields_bind; [by apply yields_collect_ready|]. intros rx1 H1. destruct (rcv_active rx1); [|exact H1].
      eapply yields_bind; [by apply yields_is_drained|]. intros [d rx2] H2. exact H2.
    - destruct (_ =? 0); [|exact H]. eapply yields_bind; [by apply yields_collect_ready|]. intros rx1 H1. exact H1. }
  intros [[e|] rx1] H1; cbn [snd] in H1; [by destruct e|]. destruct (rcv_active rx1) as [|key rest]; [done|].
  eapply yields_bind; [apply (yields_poll_lane FAIR key m (set_active rest rx1)), H1|].
  intros [[v rot r|r|d r|] rx2] H2.
  - apply yields_skip. intros rx3. by apply yields_skip.
  - destruct r; [exact H2|by apply IH].
  - assert (H3 : Owes m rx2).
    { destruct r; [|exact H2]. destruct H2 as (m' & -> & Hk & Hm). split; [done|lia]. }
    destruct d; [|destruct r; [exact H2|by apply IH]].
    eapply yields_bind; [by apply yields_retire_lane|]. intros rx3 H4. by apply IH.
  - by apply IH.
Qed.

Lemma yields_notify_released released m rx :
  Owes m rx -> yields (let* _ := Receiver_notify_released (T := T) released rx in Ret rx) (Owes m).
Proof. intros H. apply yields_skip. by intros _. Qed.

Lemma yields_recv_retry FAIR inner fuel : forall m rx, Owes m rx ->
  yields (Receiver_recv_retry pol item FAIR fuel inner rx) (fun '(r, rx') => owes_after m r false rx').
Proof.
  induction fuel as [|fuel IH]; intros m rx H; cbn [Receiver_recv_retry]; [done|].
  eapply yields_bind; [by apply yields_try_recv_inner|]. intros [[r released] rx1] H1. apply yields_skip. intros _.
  destruct r as [it|[]]; destruct released as [k|]; try exact I; [|exact H1].
  destruct H1 as (m' & -> & Hk & Hm). apply IH. split; [done|lia].
Qed.

Lemma yields_try_recv_output fuel m rx : Owes m rx ->
  yields (Receiver_try_recv_output pol item fuel rx) (fun '(r, rx') => owes_after m r false rx').
Proof.
  intros H. assert (Hrefill : forall rx, Owes m rx ->
    yields (Receiver_try_recv_refill pol item fuel rx) (fun '(r, rx') => owes_after m r false rx')).
  { clear rx H. intros rx H. unfold Receiver_try_recv_refill. eapply (yields_bind _ _ (Owes m)).
    { destruct (_ && _); [|exact H]. eapply yields_bind; [by apply yields_collect_ready|]. intros rx1 H1. exact H1. }
    clear rx H. intros rx H. eapply (yields_bind _ _ (fun r => r.1 = None -> Owes m r.2)).
    - destruct (rcv_active rx) as [|key rest]; [by intros _|]. destruct (get_lane_key key rx) as [l|] eqn:El; [|by intros _].
      apply get_lane_key_get in El. apply yields_grant_pop.
      + intros v l'. apply yields_skip. intros rx1. by apply yields_skip.
      + intros l' [E Hl] _. by eapply Owes_put_le.
    - intros [[it|] rx1] H1; [done|]. apply yields_recv_retry. by apply H1. }
  unfold Receiver_try_recv_output. eapply (yields_bind _ _ (fun r => r.1 = None -> Owes m r.2)).
  - destruct (get_lane _ rx) as [l|]; [|by intros _]. apply yields_skip. intros [[v|] l']; [|by intros _].
    apply yields_skip. intros rx1. by apply yields_skip.
  - intros [[it|] rx1] H1; [done|]. by apply Hrefill, H1.
Qed.

#[export] Instance Receiver_settles fuel : Settles (Receiver_blocking pol item fuel) Owes.
Proof.
  split; cbn [Receiver_blocking bl_attempt bl_recheck bl_notify].
  - intros m rx v H. eapply yields_bind; [by apply yields_try_recv_output|]. intros [[it|[]] rx1] H1; [done|exact H1|done].
  - intros m rx v H. eapply yields_bind; [by apply yields_try_recv_inner|].
    intros [[[it|[]] [k|]] rx1] H1; try done; exact H1.
  - intros m rx d H. by apply yields_notify_released.
Qed.

(** A receive with a deadline that passes answers. *)
Lemma yields_recv_deadline fuel env rx deadline :
  settled deadline env rx ->
  yields (Receiver_recv_deadline_output pol item fuel env rx deadline) (fun r => is_Some r.1).
Proof.
  intros [Hk [Hc Hm]]. unfold Receiver_recv_deadline_output.
  eapply yields_bind; [eapply (yields_block_until _ Owes); [exact Hc|exact Hm|]|].
  - split; [done|]. apply owing_le.
  - intros [o rx1] [r Ho]. cbn in *. subst o. by eexists.
Qed.

Lemma yields_recv_timeout retries fuel env rx timeout :
  keyed (rcv_lanes rx) -> times_out timeout (length (rcv_lanes rx)) env ->
  yields (Receiver_recv_timeout_output pol item retries fuel env rx timeout) (fun r => is_Some r.1).
Proof.
  intros Hk H. unfold Receiver_recv_timeout_output, times_out in *. destruct (Instant_checked_add _ _); [|done].
  by apply yields_recv_deadline.
Qed.

End item.

(** ** Sends *)

#[export] Instance Sender_settles : Settles (Sender_blocking (T := T) pol) (fun _ _ => True).
Proof.
  split; cbn [Sender_blocking bl_attempt bl_recheck bl_notify].
  - intros m tx v _. apply yields_skip. intros [r tx1]. by destruct (send_attempt r).
  - intros m tx v _. apply yields_skip. intros [[r wake] tx1]. by destruct r as [|[]].
  - intros m tx d _. by apply yields_skip.
Qed.

Lemma yields_send_deadline env tx (v : T) deadline :
  passes deadline 0 env -> yields (Sender_send_deadline pol env tx v deadline) (fun r => is_Some r.1).
Proof.
  intros [Hc Hm]. unfold Sender_send_deadline.
  eapply yields_bind; [by eapply (yields_block_until _ (fun _ _ => True)); [exact Hc|exact Hm|]|].
  intros [o tx1] [r Ho]. cbn in *. subst o. by eexists.
Qed.

Lemma yields_send_timeout env tx (v : T) timeout :
  times_out timeout 0 env -> yields (Sender_send_timeout pol env tx v timeout) (fun r => is_Some r.1).
Proof.
  intros H. unfold Sender_send_timeout, times_out in *. destruct (Instant_checked_add _ _); [|done].
  by apply yields_send_deadline.
Qed.

End owing.
