(* ===== verification/MpscPoll.v ===== *)
(** * The readiness poll budget of the MPSC receiver at its boundary

    [items_until_ready_poll] is reset when it is zero only on the branch of
    [Receiver_try_recv_inner] that finds active lanes; the branch that finds
    none collects readiness and goes on to decrement the budget.  Taking lanes
    off the rotation by [pause] or [close_lane] exactly when the budget is
    zero therefore makes the next ordinary receive underflow.  The theorem
    states this for every receiver and every state of the channel; the
    scenarios at the end run the whole channel from its construction. *)

From S2P Require Import Prelude Prog ProgPartial Config Wait Ready YRing Handoff MpscLane Mpsc.
Local Open Scope prog_scope.

(** ** The budget outside of the charging steps *)

Section budget.
Context {T : Type} (pol : Teardown).
Implicit Types (rx : Receiver) (s : Shared T).

(** Programs that leave the budget as it was. *)
Definition keeps_budget {A} (f : A -> Receiver) rx (p : prog (Shared T) A) : Prop :=
  yields p (fun a => items_until_ready_poll (f a) = items_until_ready_poll rx).

Lemma keeps_trans {A B} (f : A -> Receiver) (g : B -> Receiver) rx p (k : A -> prog (Shared T) B) :
  keeps_budget f rx p -> (forall a, keeps_budget g (f a) (k a)) -> keeps_budget g rx (bind p k).
Proof.
  intros Hp Hk. eapply yields_bind; [exact Hp|]. intros a E. specialize (Hk a). unfold keeps_budget in Hk. by rewrite E in Hk.
Qed.

Lemma adopt_pending_budget pending : forall rx, keeps_budget id rx (adopt_pending (T := T) pending rx).
Proof.
  induction pending as [|p pending IH]; intros rx; cbn [adopt_pending]; [done|].
  set (rx1 := if _ <=? _ then _ else rx).
  assert (E1 : items_until_ready_poll rx1 = items_until_ready_poll rx) by (unfold rx1; by destruct (_ <=? _)).
  assert (Hgo : keeps_budget id rx (let rx := put_paused (key_slot (pl_key p)) false rx1 in
    let* lane := Lane_new (pl_key p) (pl_signal p) (pl_ring p) (pl_consumer p) in
    adopt_pending pending (set_lanes (zinsert (rcv_lanes rx) (key_slot (pl_key p)) (Some lane)) rx))).
  { apply yields_skip. intros lane. unfold keeps_budget in *. rewrite <- E1.
    apply (IH (set_lanes _ (put_paused _ _ rx1))). }
  destruct (zlookup _ _) as [[l|]|]; [done|exact Hgo..].
Qed.

Lemma refresh_registry_budget rx : keeps_budget id rx (Receiver_refresh_registry (T := T) rx).
Proof.
  unfold Receiver_refresh_registry. apply yields_skip. intros g. destruct (g =? _); [done|].
  apply yields_skip. intros [[[pending groups] pages] seen].
  eapply yields_bind; [apply adopt_pending_budget|]. intros rx1 E. exact E.
Qed.

Lemma collect_lanes_budget fuel page_id : forall bits rx, keeps_budget id rx (collect_lanes (T := T) fuel page_id bits rx).
Proof.
  induction fuel as [|fuel IH]; intros bits rx; cbn [collect_lanes]; destruct (bits =? 0); try done.
  destruct (get_lane _ rx) as [lane|]; [|apply IH]. eapply (keeps_trans id); [|intros; apply IH].
  destruct (is_paused _ rx); [done|]. apply yields_skip. intros pending. by destruct (_ && _).
Qed.

Lemma collect_pages_budget fuel group : forall bits rx, keeps_budget id rx (collect_pages (T := T) fuel group bits rx).
Proof.
  induction fuel as [|fuel IH]; intros bits rx; cbn [collect_pages]; destruct (bits =? 0); try done.
  eapply (keeps_trans id); [apply refresh_registry_budget|]. intros rx1. destruct (zlookup _ _) as [page|]; [|apply IH].
  apply yields_skip. intros lane_bits. eapply (keeps_trans id); [apply refresh_registry_budget|]. intros rx2.
  eapply (keeps_trans id); [apply collect_lanes_budget|]. intros rx3. apply IH.
Qed.

#[local] Strategy opaque [collect_pages collect_lanes].

Lemma collect_groups_budget n count all : forall next rx, keeps_budget id rx (collect_groups (T := T) n count next all rx).
Proof.
  induction n as [|n IH]; intros next rx; cbn [collect_groups]; [done|].
  destruct (zlookup _ _) as [g|]; [|done]. apply yields_skip. intros [|]; cbn [negb]; [|apply IH].
  apply yields_skip. intros bits. destruct (bits =? 0); [apply IH|].
  eapply (keeps_trans id); [apply collect_pages_budget|]. intros rx1.
  destruct all; cbn [negb]; [|done]. exact (IH _ (set_group_cursor _ rx1)).
Qed.

Lemma collect_ready_budget all rx : keeps_budget id rx (Receiver_collect_ready (T := T) all rx).
Proof.
  unfold Receiver_collect_ready. eapply (keeps_trans id); [apply refresh_registry_budget|].
  intros rx1. apply collect_groups_budget.
Qed.

Lemma poll_lane_budget FAIR key rx : keeps_budget snd rx (Receiver_poll_lane (T := T) FAIR key rx).
Proof.
  unfold Receiver_poll_lane. destruct (get_lane_key key rx); [|done]. apply yields_skip. by intros [p lane].
Qed.

Lemma retire_lane_budget key rx : keeps_budget id rx (Receiver_retire_lane (T := T) pol key rx).
Proof.
  unfold Receiver_retire_lane. destruct (get_lane _ rx); [|done]. destruct (negb _); [done|].
  do 3 (apply yields_skip; intros _). done.
Qed.

Lemma lane_mut_budget id rx : keeps_budget snd rx (Receiver_lane_mut (T := T) id rx).
Proof.
  unfold Receiver_lane_mut. apply yields_skip. intros c. destruct (negb _); [done|].
  eapply yields_bind; [apply refresh_registry_budget|]. intros rx1 E. exact E.
Qed.

(** The operations that take a lane off the rotation. *)
Inductive lane_exit : Type := ExitPause | ExitClose.

Definition leave_lane (e : lane_exit) : LaneId -> Receiver -> prog (Shared T) (result unit RecvError * Receiver) :=
  match e with ExitPause => Receiver_pause | ExitClose => Receiver_close_lane pol end.

Lemma leave_lane_budget e id rx : keeps_budget snd rx (leave_lane e id rx).
Proof.
  destruct e; cbn [leave_lane]; unfold Receiver_pause, Receiver_close_lane;
    (eapply (keeps_trans snd); [apply lane_mut_budget|]); intros [[lane|] rx1]; try done.
  - apply yields_skip. intros [released l]. apply yields_skip. intros _. by destruct (is_paused _ _).
  - apply yields_skip. intros c. apply yields_skip. intros _.
    eapply yields_bind; [apply retire_lane_budget|]. intros rx2 E. exact E.
Qed.

(** ** The receive at the boundary *)

(** The receive after the collection found a lane that yields a value. *)
Lemma try_recv_inner_first FAIR fuel rx rx1 rx2 key rest value rotate released s s1 s2 :
  rcv_active rx = [] -> run (Receiver_collect_ready true rx) s = (Done rx1, s1) -> rcv_active rx1 = key :: rest ->
  run (Receiver_poll_lane FAIR key (set_active rest rx1)) s1 = (Done (PollItem value rotate released, rx2), s2) ->
  let rx3 := set_active (if rotate then rcv_active rx2 ++ [key] else key :: rcv_active rx2) rx2 in
  run (Receiver_try_recv_inner pol ItemOnly_item FAIR (S fuel) rx) s =
    if items_until_ready_poll rx <? 1 then (Fault (Panic "attempt to subtract with overflow"), s2)
    else (Done (Ok value, if released : bool then Some key else None, set_poll_budget (items_until_ready_poll rx - 1) rx3), s2).
Proof.
  intros E0 E1 E2 E3 rx3. pose proof (yields_run _ _ _ _ _ (collect_ready_budget true rx) E1) as B1.
  pose proof (yields_run _ _ _ _ _ (poll_lane_budget FAIR key (set_active rest rx1)) E3) as B2. cbn in B1, B2.
  cbn [Receiver_try_recv_inner]. rewrite E0, !run_bind, E1. cbn. rewrite E2. cbn. rewrite E2, run_bind, E3.
  fold rx3. rewrite run_bind. unfold charge_poll_budget, usub. rewrite run_bind.
  replace (items_until_ready_poll rx3) with (items_until_ready_poll rx) by (cbn; congruence).
  by destruct (_ <? 1).
Qed.

(** C25: the readiness poll budget at its boundary, for every receiver and
    channel.  When [pause] or [close_lane] leaves the rotation empty, then
    whatever happens to the channel until the next receive, if the lane that
    receive collects first yields a value, the receive panics with a
    subtraction overflow exactly when the budget was used up at the time of
    the pause or close; otherwise it returns the value and charges the budget
    by one. *)
Theorem pause_at_poll_boundary_underflows (e : lane_exit) (id : LaneId) (FAIR : bool) (fuel : nat)
    (rx rx1 rx2 rx3 : Receiver) (r : result unit RecvError) (key : LaneKey) (rest : list LaneKey)
    (value : T) (rotate released : bool) (s s1 s2 s3 s4 : Shared T) :
  run (leave_lane e id rx) s = (Done (r, rx1), s1) -> rcv_active rx1 = [] ->
  run (Receiver_collect_ready true rx1) s2 = (Done rx2, s3) -> rcv_active rx2 = key :: rest ->
  run (Receiver_poll_lane FAIR key (set_active rest rx2)) s3 = (Done (PollItem value rotate released, rx3), s4) ->
  0 <= items_until_ready_poll rx ->
  (items_until_ready_poll rx = 0 <->
    run (Receiver_try_recv_inner pol ItemOnly_item FAIR (S fuel) rx1) s2 =
      (Fault (Panic "attempt to subtract with overflow"), s4)) /\
  (0 < items_until_ready_poll rx -> exists rx4,
    run (Receiver_try_recv_inner pol ItemOnly_item FAIR (S fuel) rx1) s2 =
      (Done (Ok value, if released then Some key else None, rx4), s4) /\
    items_until_ready_poll rx4 = items_until_ready_poll rx - 1).
Proof.
  intros El E0 E1 E2 E3 Hb. pose proof (yields_run _ _ _ _ _ (leave_lane_budget e id rx) El) as B. cbn in B.
  rewrite (try_recv_inner_first _ _ _ _ _ _ _ _ _ _ _ _ _ E0 E1 E2 E3), B.
  destruct (Z.ltb_spec (items_until_ready_poll rx) 1); split.
  - split; [done|lia].
  - lia.
  - split; [lia|done].
  - intros _. by eexists.
Qed.

End budget.

(** ** Scenarios from the construction of a channel *)

(** [n] sends and [n] receives, keeping the results of the receives. *)
Definition send_many (n : nat) (v : nat) (tx : Sender) : prog (Shared nat) Sender :=
  Nat.iter n (fun p => let* tx := p in let* '(_, tx) := Sender_try_send Deferred tx v in Ret tx) (Ret tx).

Definition recv_many (n : nat) (rx : Receiver) : prog (Shared nat) (list (result nat TryRecvError) * Receiver) :=
  Nat.iter n (fun p => let* '(rs, rx) := p in
                       let* '(r, rx) := Receiver_try_recv Deferred 10 rx in
                       Ret (rs ++ [r], rx)) (Ret ([], rx)).

(** The first lane sends [70] values, the receiver takes [n] of them and then
    takes the lane off its rotation with [leave]; a second lane registers and
    sends one value, which the receiver then asks for. *)
Definition after_leaving (leave : LaneId -> Receiver -> prog (Shared nat) (result unit RecvError * Receiver))
    (n : nat) : outcome (result nat TryRecvError) :=
  match build_channel (T := nat) 128 1 with
  | Fault e => Fault e
  | Done (s, tx, rx) =>
    (run (let* tx := send_many 70 7 tx in
          let* '(_, rx) := recv_many n rx in
          let* id := Sender_lane tx in
          let* '(_, rx) := leave id rx in
          let* r := Sender_try_register tx in
          match r with
          | Err _ => Fail (Panic "registration refused")
          | Ok tx2 =>
            let* '(_, tx2) := Sender_try_send Deferred tx2 9%nat in
            let* '(r, rx) := Receiver_try_recv Deferred 10 rx in
            Ret r
          end) s).1
  end.

(** The state after [n] receives from the first lane: the receiver, the id of
    that lane and the channel with a value on a second lane. *)
Definition boundary (n : nat) : option (Receiver * LaneId * Shared nat) :=
  match build_channel (T := nat) 128 1 with
  | Fault e => None
  | Done (s, tx, rx) =>
    match run (let* tx := send_many 70 7 tx in
               let* '(_, rx) := recv_many n rx in
               let* id := Sender_lane tx in
               let* r := Sender_try_register tx in
               match r with
               | Err _ => Fail (Panic "registration refused")
               | Ok tx2 => let* _ := Sender_try_send Deferred tx2 9%nat in Ret (rx, id)
               end) s with
    | (Done (rx, id), s) => Some (rx, id, s)
    | (Fault _, _) => None
    end
  end.

(** One receive fewer or one more returns the value. *)
Example pause_boundary_scenario :
  after_leaving Receiver_pause 63 = Done (Ok 9%nat) /\
  (exists e, after_leaving Receiver_pause 64 = Fault (Panic e)) /\
  after_leaving Receiver_pause 65 = Done (Ok 9%nat).
Proof. split; [|split; [eexists|]]; vm_compute; reflexivity. Qed.

(** The same after [close_lane], which leaves the rotation empty too. *)
Example close_boundary_scenario :
  after_leaving (Receiver_close_lane Deferred) 63 = Done (Ok 9%nat) /\
  exists e, after_leaving (Receiver_close_lane Deferred) 64 = Fault (Panic e).
Proof. split; [|eexists]; vm_compute; reflexivity. Qed.

(** The sixty-fourth receive uses the budget up; the pause comes next. *)
Lemma pause_at_poll_boundary_underflows_witness :
  exists (rx rx1 : Receiver) (id : LaneId) (s s1 s4 : Shared nat),
    run (leave_lane Deferred ExitPause id rx) s = (Done (Ok tt, rx1), s1) /\ items_until_ready_poll rx = 0 /\
    run (Receiver_try_recv_inner Deferred ItemOnly_item false 1 rx1) s1 =
      (Fault (Panic "attempt to subtract with overflow"), s4).
Proof.
  let b := eval vm_compute in (boundary 64) in
  lazymatch b with Some (?rx, ?id, ?s) =>
    let o := eval vm_compute in (run (leave_lane Deferred ExitPause id rx) s) in
    lazymatch o with (Done (?r, ?rx1), ?s1) =>
      let o := eval vm_compute in (run (Receiver_collect_ready true rx1) s1) in
      lazymatch o with (Done ?rx2, ?s3) =>
        let active := eval vm_compute in (rcv_active rx2) in
        lazymatch active with ?key :: ?rest =>
          let o := eval vm_compute in (run (Receiver_poll_lane false key (set_active rest rx2)) s3) in
          lazymatch o with (Done (PollItem ?value ?rotate ?released, ?rx3), ?s4) =>
            exists rx, rx1, id, s, s1, s4; split_and!; [vm_compute; reflexivity|reflexivity|];
            apply (pause_at_poll_boundary_underflows Deferred ExitPause id false 0 rx rx1 rx2 rx3 r key rest
              value rotate released s s1 s1 s3 s4); vm_compute; try reflexivity; discriminate
          end end end end end.
Defined.
