(* ===== verification/MpscConc.v ===== *)
(** * Channels under every interleaving: the shared state

    Any number of senders and one receiver run as threads of a pool on the
    shared state of an MPSC channel.  Each sender owns the write side of its
    ring, the receiver owns the read side of all rings and the registry; the
    readiness index and the wait cells are changed by everybody.  This file
    lifts the ring's rely-guarantee argument (YRingConc) to the channel, for a
    channel whose lanes are registered before the threads start.

    Lane [k] has ring [k] and signal [k].  The ghost state has, per lane, the
    ring's ghost positions and how many times its sender may still mark the
    lane ready, which bounds the work of the receiver's loops. *)

From S2P Require Import Prelude Prog Config Wait Ready YRing YRingInv YRingSpec YRingThm YRingConc YRingClose Handoff MpscLane MpscLaneInv Mpsc.
Local Open Scope prog_scope.

Section conc.
Context {T : Type} (caps : list Z) (np ng : nat).
Implicit Types (s : Shared T) (hr : HRing T).

Record lghost : Type := mkLG { lg_ring : ghost T; lg_marks : nat }.

Definition cst : Type := Shared T * list lghost.

#[local] Abbreviation ns := (length caps).

(** Every word of the index has 64 bits. *)
Definition words_ok (i : ready_store) : Prop :=
  Forall (fun g => is_u64 (group_bits g)) (rs_groups i) /\
  Forall (fun p => is_u64 (page_bits p) /\ is_u64 (page_group_bit p)) (rs_pages i) /\
  Forall (fun l => is_u64 (signal_bit l)) (rs_signals i).

(** The index objects are fixed and every handle in them is valid. *)
Definition index_valid (i : ready_store) : Prop :=
  (index_ok i /\ words_ok i) /\ length (rs_signals i) = ns /\ length (rs_pages i) = np /\ length (rs_groups i) = ng.

Record cok (x : cst) : Prop := {
  co_rings : length (sh_rings x.1) = length caps;
  co_ghosts : length x.2 = length caps;
  co_ring : forall k cap hr g, caps !! k = Some cap -> sh_rings x.1 !! k = Some hr -> x.2 !! k = Some g ->
    ok cap 0 (hr_ring hr, lg_ring g) /\ closed_ok (hr_ring hr, lg_ring g);
  co_index : index_valid (sh_index x.1)
}.

(** What only the receiver changes. *)
Definition core s : Registry * Z * Z * bool * Z * Z :=
  (sh_registry s, sh_registry_generation s, sh_registered_lanes s, sh_receiver_alive s,
   sh_capacity_per_sender s, sh_channel_id s).

Definition sig_state (i : ready_store) (k : nat) : Z :=
  match rs_signals i !! k with Some l => signal_state l | None => IDLE end.

(** The state of one lane: its ring, its signal word, its sender's marks. *)
Definition at_lane (k : nat) (P : Z -> Ring T * ghost T -> Z -> nat -> Prop) (x : cst) : Prop :=
  exists cap hr g, caps !! k = Some cap /\ sh_rings x.1 !! k = Some hr /\ x.2 !! k = Some g /\
    P cap (hr_ring hr, lg_ring g) (sig_state (sh_index x.1) k) (lg_marks g).

(** What the receiver ([1]) and the sender ([0]) do to a lane's signal word:
    only a mark of the sender changes it from outside the receiver. *)
Definition sig_step (r : nat) (st : Z) (m : nat) (st' : Z) (m' : nat) : Prop :=
  match r with
  | O => (st' = st /\ m' = m) \/ (st' = PENDING /\ m = S m')
  | _ => m' = m
  end.

Definition lane_steps (r k : nat) (x y : cst) : Prop :=
  forall cap hr g hr' g', caps !! k = Some cap -> sh_rings x.1 !! k = Some hr -> x.2 !! k = Some g ->
    sh_rings y.1 !! k = Some hr' -> y.2 !! k = Some g' ->
    guarc cap r (hr_ring hr, lg_ring g) (hr_ring hr', lg_ring g') /\
    sig_step r (sig_state (sh_index x.1) k) (lg_marks g) (sig_state (sh_index y.1) k) (lg_marks g').

Definition same_at (k : nat) (x y : cst) : Prop :=
  sh_rings y.1 !! k = sh_rings x.1 !! k /\ y.2 !! k = x.2 !! k /\
  sig_state (sh_index y.1) k = sig_state (sh_index x.1) k.

(** Thread [0] is the receiver, thread [S k] the sender of lane [k]. *)
Definition cguar (i : nat) : relation cst := fun x y =>
  cok y /\
  match i with
  | O => forall k, lane_steps 1 k x y
  | S j => core y.1 = core x.1 /\ lane_steps 0 j x y /\ forall k, k <> j -> same_at k x y
  end.

Definition role (i : nat) : nat := match i with O => 1 | S _ => 0 end.
Definition acts_on (i k : nat) : Prop := match i with O => True | S j => k = j end.

(** What a thread of role [r] knows about a signal word and keeps although its
    peer moves. *)
Definition sig_stable (r : nat) (P : Z -> nat -> Prop) : Prop :=
  forall st m st' m', P st m -> sig_step (1 - r) st m st' m' -> P st' m'.

Definition lane_stable (r : nat) (P : Z -> Ring T * ghost T -> Z -> nat -> Prop) : Prop :=
  forall cap z st m z' st' m', P cap z st m -> guarc cap (1 - r) z z' -> sig_step (1 - r) st m st' m' ->
    P cap z' st' m'.

Lemma lane_stable_and r P S :
  (forall cap, stable (guarc cap) r (P cap)) -> (r < 2)%nat -> sig_stable r S ->
  lane_stable r (fun cap z st m => P cap z /\ S st m).
Proof.
  intros HP Hr HS cap z st m z' st' m' [H1 H2] Hg Hs. split; [|by eapply HS].
  eapply HP; [exact H1|]. exists (1 - r)%nat. split; [lia|done].
Qed.

Lemma cok_ring x k cap : cok x -> caps !! k = Some cap ->
  exists hr g, sh_rings x.1 !! k = Some hr /\ x.2 !! k = Some g /\
    ok cap 0 (hr_ring hr, lg_ring g) /\ closed_ok (hr_ring hr, lg_ring g).
Proof.
  intros H Hk. pose proof (lookup_lt_Some _ _ _ Hk) as Hl.
  destruct (lookup_lt_is_Some_2 (sh_rings x.1) k) as [hr Hhr]; [by rewrite (co_rings _ H)|].
  destruct (lookup_lt_is_Some_2 x.2 k) as [g Hg]; [by rewrite (co_ghosts _ H)|].
  exists hr, g. split; [done|]. split; [done|]. by eapply (co_ring _ H).
Qed.

Lemma rely_cok i x y : rely cguar i x y -> cok y.
Proof. intros (j & _ & H & _). exact H. Qed.

(** What a thread's peers do to a lane it acts on. *)
Lemma rely_at i k x y :
  acts_on i k -> rely cguar i x y -> lane_steps (1 - role i) k x y \/ same_at k x y.
Proof.
  intros Ha (j & Hj & _ & Hg). destruct j as [|j].
  - destruct i as [|i]; [done|]. left. apply (Hg k).
  - destruct Hg as (_ & Hst & Hsame). destruct (decide (k = j)) as [->|Hne]; [|right; by apply Hsame].
    destruct i as [|i]; [by left|cbn in Ha; lia].
Qed.

Lemma at_lane_stable i k P : acts_on i k -> lane_stable (role i) P -> stable cguar i (at_lane k P).
Proof.
  intros Ha HP x y (cap & hr & g & H1 & H2 & H3 & Hp) Hr.
  destruct (rely_at i k x y Ha Hr) as [Hst|(E1 & E2 & E3)].
  - destruct (cok_ring y k cap (rely_cok _ _ _ Hr) H1) as (hr' & g' & H4 & H5 & _).
    exists cap, hr', g'. split_and!; auto. destruct (Hst cap hr g hr' g' H1 H2 H3 H4 H5). by eapply HP.
  - exists cap, hr, g. rewrite E1, E2, E3. auto.
Qed.

(** Assertions a thread keeps while it works on lane [ko] or, without one, on
    the ready bits, the wait cells and the counters outside [core]. *)
Definition upd (ko : option nat) (x y : cst) : Prop :=
  core y.1 = core x.1 /\ forall j, ko <> Some j -> same_at j x y.

Record Frame (i : nat) (ko : option nat) (F : cst -> Prop) : Prop := {
  fr_stable : stable cguar i F;
  fr_cok : forall x, F x -> cok x;
  fr_upd : forall x y, F x -> cok y -> upd ko x y -> F y
}.

Lemma Frame_None i k F : Frame i (Some k) F -> Frame i None F.
Proof.
  intros [H1 H2 H3]. split; auto. intros x y Hx Hy [E1 E2]. eapply H3; [done..|]. split; [done|].
  intros j _. by apply E2.
Qed.

Lemma Frame_and i ko F G : Frame i ko F -> Frame i ko G -> Frame i ko (fun x => F x /\ G x).
Proof.
  intros [A1 A2 A3] [B1 B2 B3]. split.
  - by apply stable_and.
  - intros x [H _]. auto.
  - intros x y [H1 H2] Hy Hu. eauto.
Qed.

Lemma Frame_cok i ko : Frame i ko cok.
Proof. split; auto. intros x y _ H. by eapply rely_cok. Qed.

(** ** Steps outside the lanes *)

(** A program that never touches a lane's ring or signal word, nor the core,
    and keeps the index valid. *)
Fixpoint inert {A} (p : prog (Shared T) A) : Prop :=
  match p with
  | Ret _ => True
  | Act f k => forall s, index_valid (sh_index s) ->
      sh_rings (f s).2 = sh_rings s /\ core (f s).2 = core s /\ index_valid (sh_index (f s).2) /\
      (forall j, sig_state (sh_index (f s).2) j = sig_state (sh_index s) j) /\ inert (k (f s).1)
  | Fail _ => False
  end.

Lemma inert_bind {A B} (p : prog (Shared T) A) (k : A -> prog (Shared T) B) :
  inert p -> (forall a, inert (k a)) -> inert (bind p k).
Proof.
  intros Hp Hk. induction p as [a|R f c IH|e]; cbn in *; [apply Hk| |done].
  intros s Hs. destruct (Hp s Hs) as (H1 & H2 & H3 & H4 & H5). split_and!; auto.
Qed.

Lemma sig_step_refl r st m : sig_step r st m st m.
Proof. destruct r; [by left|done]. Qed.

Lemma cguar_inert i s s' g :
  cok (s, g) -> sh_rings s' = sh_rings s -> core s' = core s \/ i = 0%nat -> index_valid (sh_index s') ->
  (forall j, sig_state (sh_index s') j = sig_state (sh_index s) j) ->
  cguar i (s, g) (s', g) /\ cok (s', g).
Proof.
  intros H E1 E2 E3 E4. assert (Hc : cok (s', g)).
  { destruct H as [H1 H2 H3 H4]. split; cbn in *; rewrite ?E1; auto. }
  split; [|done]. split; [done|]. assert (Hst : forall r k, (r < 2)%nat -> lane_steps r k (s, g) (s', g)).
  { intros r k Hr cap hr gh hr' gh' K1 K2 K3 K4 K5. cbn in *. rewrite E1 in K4. simplify_eq. split.
    - apply guarc_refl; [done|by eapply (co_ring _ H)..].
    - rewrite E4. apply sig_step_refl. }
  destruct i as [|j]; [intros k; apply Hst; lia|]. destruct E2 as [E2|]; [|done].
  split; [done|]. split; [apply Hst; lia|]. intros k _. split_and!; cbn; [by rewrite E1|done|apply E4].
Qed.

Lemma wp_inert {A} i F (p : prog (Shared T) A) x :
  Frame i None F -> inert p -> F x -> wp cguar i p (fun _ => F) x.
Proof.
  intros HF. revert x. induction p as [a|R f k IH|e]; intros x Hp Hx.
  - apply wp_ret; [apply (fr_stable _ _ _ HF)|done].
  - eapply wp_act; [apply (fr_stable _ _ _ HF)|exact Hx|]. clear x Hx. intros s g Hx.
    pose proof (fr_cok _ _ _ HF _ Hx) as Hc. destruct (Hp s (co_index _ Hc)) as (E1 & E2 & E3 & E4 & E5).
    destruct (f s) as [r s'] eqn:Ef. cbn [fst snd] in *.
    destruct (cguar_inert i s s' g Hc E1 (or_introl E2) E3 E4) as [Hg Hc']. exists g. split; [done|]. apply IH; [done|].
    eapply (fr_upd _ _ _ HF); [exact Hx|done|]. split; [done|]. intros j _. split_and!; cbn; [by rewrite E1|done|apply E4].
  - done.
Qed.

(** ** Steps on a lane *)

(** A step that changes lane [k] only. *)
Lemma cguar_lane i k s g s' gh' cap hr gh hr' :
  acts_on i k -> cok (s, g) -> caps !! k = Some cap -> sh_rings s !! k = Some hr -> g !! k = Some gh ->
  sh_rings s' = <[k := hr']> (sh_rings s) -> core s' = core s -> index_valid (sh_index s') ->
  (forall j, j <> k -> sig_state (sh_index s') j = sig_state (sh_index s) j) ->
  guarc cap (role i) (hr_ring hr, lg_ring gh) (hr_ring hr', lg_ring gh') ->
  sig_step (role i) (sig_state (sh_index s) k) (lg_marks gh) (sig_state (sh_index s') k) (lg_marks gh') ->
  cguar i (s, g) (s', <[k := gh']> g) /\ upd (Some k) (s, g) (s', <[k := gh']> g).
Proof.
  intros Ha Hc Hk Hhr Hgh Er Ec Hi Hsig Hg Hss.
  pose proof (lookup_lt_Some _ _ _ Hhr) as L1. pose proof (lookup_lt_Some _ _ _ Hgh) as L2.
  assert (Hok : ok cap 0 (hr_ring hr', lg_ring gh') /\ closed_ok (hr_ring hr', lg_ring gh')) by (split; [destruct i as [|j]|]; apply Hg).
  assert (Hu : upd (Some k) (s, g) (s', <[k := gh']> g)).
  { split; [done|]. intros j Hj. assert (k <> j) by congruence. split_and!; cbn.
    - rewrite Er. by rewrite list_lookup_insert_ne.
    - by rewrite list_lookup_insert_ne.
    - by apply Hsig. }
  assert (Hst : forall j, role i = 1%nat \/ j = k -> lane_steps (role i) j (s, g) (s', <[k := gh']> g)).
  { intros j Hj c hr0 g0 hr1 g1 K1 K2 K3 K4 K5. cbn in *. rewrite Er in K4. destruct (decide (k = j)) as [<-|Hne].
    - rewrite list_lookup_insert_eq in K4 by done. rewrite list_lookup_insert_eq in K5 by done. simplify_eq. by split.
    - rewrite list_lookup_insert_ne in K4 by done. rewrite list_lookup_insert_ne in K5 by done. simplify_eq.
      destruct Hj as [Hj|Hj]; [|congruence]. rewrite Hj, Hsig by done. split; [|apply sig_step_refl].
      apply guarc_refl; [lia|by eapply (co_ring _ Hc)..]. }
  split; [|done]. split.
  - split; cbn.
    + rewrite Er, length_insert. apply Hc.
    + rewrite length_insert. apply Hc.
    + intros j c hr0 g0 K1 K2 K3. rewrite Er in K2. destruct (decide (k = j)) as [<-|Hne].
      * rewrite list_lookup_insert_eq in K2 by done. rewrite list_lookup_insert_eq in K3 by done. by simplify_eq.
      * rewrite list_lookup_insert_ne in K2 by done. rewrite list_lookup_insert_ne in K3 by done. by eapply (co_ring _ Hc).
    + done.
  - destruct i as [|j]; cbn in Ha; [intros j; apply Hst; by left|]. subst j.
    split; [done|]. split; [apply Hst; by right|]. intros j Hj. apply Hu. congruence.
Qed.

(** The ring's argument inside the channel. *)
Lemma wp_ring {A} i k (q : prog (Ring T) A) Q (S : Z -> nat -> Prop) F x :
  acts_on i k -> Frame i (Some k) F -> F x -> sig_stable (role i) S ->
  at_lane k (fun cap z st m => wp (guarc cap) (role i) q (Q cap) z /\ S st m) x ->
  wp cguar i (on_lane_ring (Z.of_nat k) (on_hring q))
    (fun a y => F y /\ at_lane k (fun cap z st m => Q cap a z /\ S st m) y) x.
Proof.
  intros Ha HF Hx0 HS Hx1. assert (Hrole : (role i < 2)%nat) by (destruct i; cbn; lia).
  assert (Hmove : forall (q : prog (Ring T) A) x y, F x ->
    at_lane k (fun cap z st m => wp (guarc cap) (role i) q (Q cap) z /\ S st m) x -> rtc (rely cguar i) x y ->
    F y /\ at_lane k (fun cap z st m => wp (guarc cap) (role i) q (Q cap) z /\ S st m) y).
  { clear x Hx0 Hx1. intros q0 x y H1 H2 Hr.
    eapply (stable_rtc _ i (fun y => F y /\ at_lane k _ y)); [|split; [exact H1|exact H2]|exact Hr].
    apply stable_and; [apply HF|]. apply at_lane_stable; [done|]. apply lane_stable_and; [|done|done].
    intros cap z z' Hz Hzz. eapply wp_rely; [exact Hz|]. by apply rtc_once. }
  revert x Hx0 Hx1. induction q as [a|R f c IH|e]; intros x Hx Hw y Hy;
    destruct (Hmove _ x y Hx Hw Hy) as [Hfy (cap & hr' & g' & K1 & K2 & K3 & Kw & Ks)].
  - split; [exact Hfy|]. exists cap, hr', g'. split_and!; auto. apply (Kw (hr_ring hr', lg_ring g')). constructor.
  - destruct (Kw (hr_ring hr', lg_ring g')) as (g1 & Hg1 & Hk); [constructor|].
    destruct y as [s gs]. cbn [fst snd] in *. rewrite zlookup_of_nat, K2. cbn.
    destruct (f (hr_ring hr')) as [r r1] eqn:Ef. cbn [fst snd] in *. rewrite zinsert_of_nat.
    set (s' := set_sh_rings _ s). set (g2 := mkLG g1 (lg_marks g')).
    destruct (cguar_lane i k s gs s' g2 cap hr' g' (set_hr_ring r1 hr') Ha (fr_cok _ _ _ HF _ Hfy) K1 K2 K3) as [Hcg Hu];
      [done|done|apply (co_index _ (fr_cok _ _ _ HF _ Hfy))|done|done|apply sig_step_refl|].
    exists (<[k := g2]> gs). split; [exact Hcg|]. apply IH.
    + eapply (fr_upd _ _ _ HF); [exact Hfy|apply Hcg|exact Hu].
    + exists cap, (set_hr_ring r1 hr'), g2. cbn.
      rewrite !list_lookup_insert_eq by (by eapply lookup_lt_Some). auto.
  - destruct (Kw (hr_ring hr', lg_ring g')). constructor.
Qed.

(** ** The index and the wait cells *)

(** A program of the index that keeps it valid and the signal words as they
    are, with what it returns. *)
Fixpoint index_post {A} (p : prog ready_store A) (R : A -> Prop) : Prop :=
  match p with
  | Ret a => R a
  | Act f k => forall i, index_valid i ->
      index_valid (f i).2 /\ (forall j, sig_state (f i).2 j = sig_state i j) /\ index_post (k (f i).1) R
  | Fail _ => False
  end.

Lemma index_post_bind {A B} (p : prog ready_store A) (k : A -> prog ready_store B) R R' :
  index_post p R -> (forall a, R a -> index_post (k a) R') -> index_post (bind p k) R'.
Proof.
  intros Hp Hk. induction p as [a|X f c IH|e]; cbn in *; [auto| |done].
  intros i Hi. destruct (Hp i Hi) as (? & ? & ?). auto.
Qed.

Lemma inert_index {A} (p : prog ready_store A) R : index_post p R -> inert (on_index (T := T) p).
Proof.
  induction p as [a|X f c IH|e]; cbn; intros H; [done| |done].
  intros s Hs. destruct (H (sh_index s) Hs) as (H1 & H2 & H3). destruct (f (sh_index s)) as [r i]. cbn in *.
  split_and!; [done..|]. by apply (IH r).
Qed.

(** The signal a lane's handle points to. *)
Lemma index_signal i k : index_valid i -> (k < ns)%nat ->
  exists l, rs_signals i !! k = Some l /\ zlookup (rs_signals i) (Z.of_nat k) = Some l /\
    (0 <= signal_page l < Z.of_nat np /\ is_u64 (signal_bit l)) /\ sig_state i k = signal_state l.
Proof.
  intros ([[H1 _] (_ & _ & W)] & H2 & H3 & H4) Hk. destruct (lookup_lt_is_Some_2 (rs_signals i) k) as [l Hl]; [lia|].
  exists l. rewrite zlookup_of_nat. unfold sig_state. rewrite Hl. rewrite Forall_forall in H1, W.
  destruct (H1 l (list_elem_of_lookup_2 _ _ _ Hl)) as [p Hp]. specialize (W l (list_elem_of_lookup_2 _ _ _ Hl)).
  apply zlookup_Some_range in Hp. unfold zlength in Hp. by split_and!; try lia; try apply W.
Qed.

Lemma index_valid_signal i k l l' :
  index_valid i -> rs_signals i !! k = Some l -> signal_page l' = signal_page l -> signal_bit l' = signal_bit l ->
  index_valid (set_signal_at (Z.of_nat k) l' i) /\
  (forall j, j <> k -> sig_state (set_signal_at (Z.of_nat k) l' i) j = sig_state i j) /\
  sig_state (set_signal_at (Z.of_nat k) l' i) k = signal_state l'.
Proof.
  intros ([H1 (W1 & W2 & W3)] & H2 & H3 & H4) Hl E Eb. unfold sig_state, index_valid. cbn. rewrite zinsert_of_nat, length_insert.
  split_and!; auto.
  - change (index_ok (set_signal_at (Z.of_nat k) l' i)). eapply index_ok_signal; [done|by rewrite zlookup_of_nat|done].
  - split_and!; auto. cbn. apply Forall_insert; [done|]. rewrite Eb. rewrite Forall_forall in W3.
    by eapply W3, list_elem_of_lookup_2.
  - intros j Hj. by rewrite list_lookup_insert_ne.
  - rewrite list_lookup_insert_eq; [done|]. by eapply lookup_lt_Some.
Qed.

Lemma index_on_page {R} k (f : ReadyPage -> R * ReadyPage) (Q : R -> Prop) :
  0 <= k < Z.of_nat np ->
  (forall p, 0 <= page_group p < Z.of_nat ng -> is_u64 (page_bits p) -> is_u64 (page_group_bit p) ->
     page_group (f p).2 = page_group p /\ page_group_bit (f p).2 = page_group_bit p /\ is_u64 (page_bits (f p).2) /\
     Q (f p).1) ->
  index_post (on_page k f) Q.
Proof.
  intros Hk Hf i ([H1 (W1 & W2 & W3)] & H2 & H3 & H4). cbn.
  destruct (zlookup_is_Some (rs_pages i) k) as [l Hl]; [unfold zlength; lia|]. rewrite Hl.
  assert (Hp : 0 <= page_group l < Z.of_nat ng).
  { destruct H1 as [_ H1]. rewrite Forall_forall in H1. destruct (H1 l (zlookup_elem _ _ _ Hl)) as [p Hp].
    apply zlookup_Some_range in Hp. unfold zlength in Hp. lia. }
  pose proof W2 as W2'. rewrite Forall_forall in W2'. destruct (W2' l (zlookup_elem _ _ _ Hl)) as [V1 V2].
  destruct (Hf l Hp V1 V2) as (E1 & E2 & E3 & E4). destruct (f l) as [r l']. cbn in *. split; [|done].
  split_and!; cbn; auto; [by eapply index_ok_page| |unfold zinsert; by rewrite length_insert].
  split_and!; auto. cbn. apply Forall_zinsert; [done|]. by rewrite E2.
Qed.

Lemma index_on_group {R} k (f : ReadyGroup -> R * ReadyGroup) (Q : R -> Prop) :
  0 <= k < Z.of_nat ng -> (forall g, is_u64 (group_bits g) -> is_u64 (group_bits (f g).2) /\ Q (f g).1) ->
  index_post (on_group k f) Q.
Proof.
  intros Hk Hf i ([H1 (W1 & W2 & W3)] & H2 & H3 & H4). cbn.
  destruct (zlookup_is_Some (rs_groups i) k) as [l Hl]; [unfold zlength; lia|]. rewrite Hl.
  pose proof W1 as W1'. rewrite Forall_forall in W1'. destruct (Hf l (W1' l (zlookup_elem _ _ _ Hl))) as [E1 E2].
  destruct (f l) as [r l']. cbn in *. split; [|done].
  split_and!; cbn; auto; [by apply index_ok_group| |unfold zinsert; by rewrite length_insert].
  split_and!; auto. cbn. by apply Forall_zinsert.
Qed.

Lemma index_page_mark page bit :
  0 <= page < Z.of_nat np -> is_u64 bit -> index_post (ReadyPage_mark page bit) (fun _ => True).
Proof.
  intros Hp Hb. eapply index_post_bind;
    [apply (index_on_page page _ (fun r => 0 <= r.1.2 < Z.of_nat ng /\ is_u64 r.2)); [done|];
     intros l Hl H1 H2; by split_and!; try apply is_u64_lor; try apply Hl|].
  intros [[o grp] gb] [Hg Hgb]. destruct (o =? 0); [|done]. apply index_on_group; [done|].
  intros g H. split; [by apply is_u64_lor|done].
Qed.

(** Operations on a lane's capacity cell. *)
Lemma index_cell {A} k (q : prog WaitCell A) :
  (k < ns)%nat -> no_fail q -> index_post (LaneSignal_on_cell (Z.of_nat k) q) (fun _ => True).
Proof.
  intros Hk. unfold LaneSignal_on_cell. induction q as [a|R f c IH|e]; cbn; intros H; [done| |done].
  intros i Hi. destruct (f (lane_cell (Z.of_nat k) i)) as [r w]. cbn.
  destruct (index_signal i k Hi Hk) as (l & Hl & Hz & _ & Es). unfold put_lane_cell. rewrite Hz.
  destruct (index_valid_signal i k l (with_space_waiter w l) Hi Hl eq_refl eq_refl) as (V1 & V2 & V3).
  split; [done|]. split; [|auto]. intros j. destruct (decide (j = k)) as [->|Hne]; [by rewrite V3, Es|by apply V2].
Qed.

Lemma no_fail_notify : no_fail WaitCell_notify.
Proof. intros r. cbn. by destruct (Z.land r WAITING =? 0). Qed.

Lemma index_notify_space k : (k < ns)%nat -> index_post (LaneSignal_notify_space (Z.of_nat k)) (fun _ => True).
Proof. intros Hk. apply (index_cell k WaitCell_notify Hk), no_fail_notify. Qed.

Lemma inert_waiter {A} (q : prog WaitCell A) : no_fail q -> inert (on_data_waiter (T := T) q).
Proof.
  induction q as [a|R f c IH|e]; cbn; intros H; [done| |done].
  intros s Hs. destruct (f (sh_data_waiter s)) as [r w]. cbn. split_and!; [done..|]. by apply (IH r).
Qed.

Lemma inert_load {R} (get : Shared T -> R) : inert (load get).
Proof. by intros s Hs. Qed.

(** An operation of the index, with what it returns. *)
Lemma wp_index {A} i F (p : prog ready_store A) R x :
  Frame i None F -> index_post p R -> F x -> wp cguar i (on_index p) (fun a y => F y /\ R a) x.
Proof.
  intros HF. revert x. induction p as [a|X f k IH|e]; intros x Hp Hx.
  - eapply wp_retP; [apply (fr_stable _ _ _ HF)|exact Hx|]. intros y Hy. by split.
  - eapply wp_act; [apply (fr_stable _ _ _ HF)|exact Hx|]. clear x Hx. intros s g Hx.
    pose proof (fr_cok _ _ _ HF _ Hx) as Hc. destruct (Hp (sh_index s) (co_index _ Hc)) as (E1 & E2 & E3).
    destruct (f (sh_index s)) as [r i'] eqn:Ef. cbn [fst snd] in *.
    destruct (cguar_inert i s (set_sh_index i' s) g Hc eq_refl (or_introl eq_refl) E1 E2) as [Hg Hc'].
    exists g. split; [done|]. apply IH; [done|].
    eapply (fr_upd _ _ _ HF); [exact Hx|done|]. split; [done|]. intros j _. split_and!; cbn; [done|done|apply E2].
  - done.
Qed.

(** ** Steps on a lane's signal word *)

(** One access to the signal of lane [k]: the thread knows [P] of the lane;
    after the access it knows [Q]. *)
Lemma wp_signal {R B} i k (f : LaneSignal -> R * LaneSignal) (c : R -> prog (Shared T) B) P Q F W x :
  acts_on i k -> Frame i (Some k) F -> F x -> at_lane k P x -> lane_stable (role i) P ->
  (forall l, signal_page (f l).2 = signal_page l /\ signal_bit (f l).2 = signal_bit l) ->
  (forall l cap z m, 0 <= signal_page l < Z.of_nat np /\ is_u64 (signal_bit l) -> P cap z (signal_state l) m ->
     exists m', sig_step (role i) (signal_state l) m (signal_state (f l).2) m' /\
       Q (f l).1 cap z (signal_state (f l).2) m') ->
  (forall r y, F y -> at_lane k (Q r) y -> wp cguar i (c r) W y) ->
  wp cguar i (bind (on_index (on_signal (Z.of_nat k) f)) c) W x.
Proof.
  intros Ha HF Hx Hp HP Hpage Hf Hc. unfold on_index, on_signal, atomic. cbn [bind lift].
  eapply (wp_act _ i (fun y => F y /\ at_lane k P y)).
  { apply stable_and; [apply HF|by apply at_lane_stable]. }
  { by split. }
  intros s g [HFs (cap & hr & gh & K1 & K2 & K3 & Kp)]. cbn [fst snd] in *.
  pose proof (fr_cok _ _ _ HF _ HFs) as Hok. pose proof (lookup_lt_Some _ _ _ K1) as Hlt.
  destruct (index_signal (sh_index s) k (co_index _ Hok) Hlt) as (l & Hl & Hz & Hpg & Es).
  rewrite Hz. rewrite Es in Kp. destruct (Hf l cap _ _ Hpg Kp) as (m' & Hs & HQ).
  specialize (Hpage l). destruct (f l) as [r l'] eqn:Ef. cbn [fst snd] in *.
  destruct (index_valid_signal (sh_index s) k l l' (co_index _ Hok) Hl (proj1 Hpage) (proj2 Hpage)) as (V1 & V2 & V3).
  set (s' := set_sh_index _ s). set (g2 := mkLG (lg_ring gh) m').
  destruct (cguar_lane i k s g s' g2 cap hr gh hr Ha Hok K1 K2 K3) as [Hcg Hu]; [|done|done|done| | |].
  { cbn. by rewrite list_insert_id. }
  { apply guarc_refl; [destruct i; cbn; lia|apply (co_ring _ Hok k cap hr gh K1 K2 K3)..]. }
  { cbn. by rewrite Es, V3. }
  exists (<[k := g2]> g). split; [exact Hcg|]. cbn [bind lift]. apply Hc.
  - eapply (fr_upd _ _ _ HF); [exact HFs|apply Hcg|exact Hu].
  - exists cap, hr, g2. cbn. rewrite list_lookup_insert_eq by (by eapply lookup_lt_Some). rewrite V3. auto.
Qed.

End conc.
Arguments lghost T : clear implicits.
Arguments cst T : clear implicits.
