(* ===== verification/MpscLaneConc.v ===== *)
(** * Lanes under every interleaving

    The receiver's lane operations ([src/src/mpsc/receiver/lane.rs]) while the
    lane's sender keeps sending: the lane's counters describe the window the
    receiver has prefetched and the slots it has not released, whatever the
    sender does, so no operation reaches one of its panics and every value is
    taken in order. *)

From S2P Require Import Prelude Prog Config Wait Ready YRing YRingInv YRingSpec YRingThm YRingConc YRingClose Handoff MpscLane MpscLaneInv Mpsc MpscConc.
Local Open Scope prog_scope.

Section lane.
Context {T : Type} (caps : list Z) (np ng : nat).
Implicit Types (s : Shared T) (l : Lane) (F : cst T -> Prop).
#[local] Abbreviation cok := (cok (T := T) caps np ng).
#[local] Abbreviation cguar := (cguar (T := T) caps np ng).
#[local] Abbreviation at_lane := (at_lane (T := T) caps).
#[local] Abbreviation Frame := (Frame (T := T) caps np ng).
#[local] Abbreviation cons := (ca (T := T)).

(** The counters of a lane whose consumer has a window of [w] values and
    [held] values not released. *)
Record counters l (w held : Z) : Prop := {
  cn_window : w = cached_available l + fast_left l;
  cn_held : held = unreleased l - fast_left l;
  cn_fast : 0 <= fast_left l /\ fast_left l <= burst l /\ fast_left l <= unreleased l;
  cn_cached : 0 <= cached_available l;
  cn_burst : burst l <= 64;
  cn_batch : unreleased l <= release_batch l
}.

(** The receiver's share of a lane's signal word: at most [b] more times can
    the lane be found pending, and it is pending now if [p]. *)
Definition credit (b : nat) (p : bool) (st : Z) (m : nat) : Prop :=
  (m + (if (st =? IDLE)%Z then 0 else 1) <= b)%nat /\ (p = true -> st <> IDLE).

Lemma credit_stable b p : sig_stable 1 (credit b p).
Proof.
  intros st m st' m' [H1 H2] [[-> ->]|[-> ->]]; [done|]. unfold credit. cbn.
  destruct (st =? IDLE); split; (done || lia).
Qed.

(** The receiver took [got] from lane [l] so far; its ring and signal are
    [k]. *)
Definition lane_ok (k b : nat) (p : bool) l (got : list T) (x : cst T) : Prop :=
  cok x /\ exists c ct ph h, lane_ring l = Z.of_nat k /\ lane_signal l = Z.of_nat k /\
    rc_inner (lane_consumer l) = Some c /\ counters l (ct - h) (h - ph) /\
    at_lane k (fun cap z st m => (1 <= release_batch l <= cap /\ cons cap 0 c ct ph h got z) /\ credit b p st m) x.

Lemma lane_pred_stable l c ct ph h got b p :
  lane_stable 1 (fun cap z st m => (1 <= release_batch l <= cap /\ cons cap 0 c ct ph h got z) /\ credit b p st m).
Proof.
  apply (lane_stable_and 1 (fun cap z => 1 <= release_batch l <= cap /\ cons cap 0 c ct ph h got z));
    [|lia|apply credit_stable]. intros cap. apply stable_pure, stablec, ca_stable.
Qed.

Lemma lane_ok_frame k b p l got j : j <> Some k -> Frame 0 j (lane_ok k b p l got).
Proof.
  intros Hj. split.
  - intros x y [Hc (c & ct & ph & h & H1 & H2 & H3 & H4 & H5)] Hr. split; [by eapply rely_cok|].
    exists c, ct, ph, h. split_and!; auto.
    eapply (at_lane_stable caps np ng 0 k); [done|apply lane_pred_stable|exact H5|exact Hr].
  - by intros x [].
  - intros x y [Hc (c & ct & ph & h & H1 & H2 & H3 & H4 & cap & hr & g & K1 & K2 & K3 & K4)] Hy [_ Hu].
    split; [done|]. exists c, ct, ph, h. split_and!; auto. destruct (Hu k Hj) as (E1 & E2 & E3).
    exists cap, hr, g. rewrite E1, E2, E3. auto.
Qed.

(** A lane and what the receiver keeps besides it. *)
Definition with_lane F k b p l got : cst T -> Prop := fun x => F x /\ lane_ok k b p l got x.

Lemma with_lane_frame F k b p l got : Frame 0 (Some k) F -> Frame 0 None (with_lane F k b p l got).
Proof. intros HF. apply Frame_and; [by eapply Frame_None|by apply lane_ok_frame]. Qed.

Lemma wp_ret_lane {A} F k b p l got (a : A) Q x :
  Frame 0 (Some k) F -> with_lane F k b p l got x -> (forall y, with_lane F k b p l got y -> Q a y) ->
  wp cguar 0 (Ret a) Q x.
Proof. intros HF Hx HQ. eapply wp_retP; [apply (with_lane_frame F k b p l got HF)|exact Hx|exact HQ]. Qed.

Lemma wp_lane_inert {A B} F k b p l got (q : prog (Shared T) A) (c : A -> prog (Shared T) B) Q x :
  Frame 0 (Some k) F -> inert caps np ng q -> with_lane F k b p l got x ->
  (forall a y, with_lane F k b p l got y -> wp cguar 0 (c a) Q y) -> wp cguar 0 (bind q c) Q x.
Proof.
  intros HF Hp Hx Hk. eapply wp_call; [eapply wp_inert; [by apply with_lane_frame|done|exact Hx]|]. auto.
Qed.

(** Other counters for the same window. *)
Lemma with_lane_counters F k b p l l' got x :
  with_lane F k b p l got x -> same_lane l l' -> lane_consumer l' = lane_consumer l ->
  (forall w held, counters l w held -> counters l' w held) -> with_lane F k b p l' got x.
Proof.
  intros [HF [Hc (c & ct & ph & h & H1 & H2 & H3 & H4 & cap & hr & g & K1 & K2 & K3 & K4)]] (E1 & E2 & E3 & E4) E5 Hn.
  split; [done|]. split; [done|]. exists c, ct, ph, h. rewrite E2, E3, E5. split_and!; auto.
  exists cap, hr, g. rewrite E4. auto.
Qed.

Lemma with_lane_key F k b p l got x : with_lane F k b p l got x ->
  (k < length caps)%nat /\ lane_signal l = Z.of_nat k /\ lane_ring l = Z.of_nat k.
Proof.
  intros [_ [_ (c & ct & ph & h & H1 & H2 & _ & _ & cap & hr & g & K1 & _)]].
  apply lookup_lt_Some in K1. auto.
Qed.

(** ** Operations on the lane's ring *)

(** [op] of an open consumer is the ring operation [q], with the result [f]. *)
Definition runs_as {A B} (op : RConsumer -> prog (HRing T) B) (q : Consumer -> prog (Ring T) A) (f : A -> B) : Prop :=
  forall c k Q y, wp cguar 0 (bind (on_lane_ring k (on_hring (q c))) (fun a => Ret (f a))) Q y ->
    wp cguar 0 (on_lane_ring k (op (mkRConsumer (Some c)))) Q y.

Lemma runs_as_bind {A B} op q f (kk : A -> prog (HRing T) B) :
  (forall c, op (mkRConsumer (Some c)) = bind (on_hring (q c)) kk) -> (forall a, kk a = Ret (f a)) -> runs_as op q f.
Proof.
  intros H1 H2 c k Q y Hw. rewrite H1. unfold on_lane_ring in *. apply wp_focus_bind.
  eapply wp_call; [exact (wp_bind_inv _ _ _ _ _ _ Hw)|]. intros a z Hz. by rewrite H2.
Qed.

Lemma runs_as_plain {A} op (q : Consumer -> prog (Ring T) A) :
  (forall c, op (mkRConsumer (Some c)) = on_hring (q c)) -> runs_as op q (fun a => a).
Proof. intros H1 c k Q y Hw. rewrite H1. by apply wp_bind_ret. Qed.

(** The lane after a ring operation: another consumer with another window. *)
Definition lane_view (k b : nat) (p : bool) l (P : Z -> Ring T * ghost T -> Prop) (y : cst T) : Prop :=
  cok y /\ at_lane k (fun cap z st m => (1 <= release_batch l <= cap /\ P cap z) /\ credit b p st m) y.

Lemma lane_view_ok F k b p l l' c ct ph h got y :
  F y -> lane_view k b p l (fun cap z => cons cap 0 c ct ph h got z) y -> same_lane l l' ->
  lane_ring l = Z.of_nat k -> lane_signal l = Z.of_nat k -> rc_inner (lane_consumer l') = Some c ->
  counters l' (ct - h) (h - ph) -> with_lane F k b p l' got y.
Proof.
  intros HF [Hc Hv] (E1 & E2 & E3 & E4) Hr Hs Ec Hn. split; [done|]. split; [done|]. exists c, ct, ph, h.
  rewrite E2, E3, E4. by split_and!.
Qed.

(** Run a consumer operation of the lane's ring. *)
Lemma wp_consumer {A B} F k b p l got (op : RConsumer -> prog (HRing T) B) (q : Consumer -> prog (Ring T) A)
    (f : A -> B) (Qr : Consumer -> Z -> Z -> Z -> Z -> A -> Ring T * ghost T -> Prop) Q x :
  Frame 0 (Some k) F -> with_lane F k b p l got x -> runs_as op q f ->
  (forall c ct ph h cap z, 0 <= h <= ct -> cons cap 0 c ct ph h got z -> closed_ok z ->
     wp (guarc cap) 1 (q c) (fun a z => Qr c ct ph h cap a z) z) ->
  (forall c ct ph h cap a, stable (guarc cap) 1 (Qr c ct ph h cap a)) ->
  (forall c ct ph h a y, lane_ring l = Z.of_nat k -> lane_signal l = Z.of_nat k ->
     rc_inner (lane_consumer l) = Some c -> counters l (ct - h) (h - ph) -> F y ->
     lane_view k b p l (fun cap z => Qr c ct ph h cap a z) y -> Q (f a) y) ->
  wp cguar 0 (on_lane_ring (lane_ring l) (op (lane_consumer l))) Q x.
Proof.
  intros HF [Hx [Hc (c & ct & ph & h & H1 & H1' & H2 & H3 & H4)]] Hop Hq Hs HQ. rewrite H1.
  replace (lane_consumer l) with (mkRConsumer (Some c)) by (destruct (lane_consumer l); cbn in *; by subst).
  apply Hop. set (P := fun a cap z => 1 <= release_batch l <= cap /\ Qr c ct ph h cap a z).
  assert (HP : forall a, stable cguar 0 (fun y => F y /\ at_lane k (fun cap z st m => P a cap z /\ credit b p st m) y)).
  { intros a. apply stable_and; [apply HF|]. apply (at_lane_stable caps np ng 0 k); [done|].
    apply lane_stable_and; [|cbn; lia|apply credit_stable]. intros cap. apply stable_pure, Hs. }
  eapply wp_call.
  - eapply (wp_ring caps np ng 0 k (q c) (fun cap a z => P a cap z) (credit b p) F x);
      [done|exact HF|exact Hx|apply credit_stable|].
    destruct H4 as (cap & hr & g & K1 & K2 & K3 & [K4 K5] & K6). exists cap, hr, g. split_and!; auto. cbn [role].
    eapply wp_mono; [|apply (Hq c ct ph h); [|exact K5|by eapply (co_ring _ _ _ _ Hc)]].
    + intros a z Hz. by split.
    + destruct K5 as (Kok & E1 & E2 & _ & _ & _ & E3). pose proof (ok_facts _ _ _ Kok). cbn in *. lia.
  - intros a y [Hy1 Hy2]. eapply wp_retP; [apply (HP a)|split; [exact Hy1|exact Hy2]|].
    intros z [Hz1 Hz2]. eapply HQ; eauto. split; [|exact Hz2]. by apply (fr_cok _ _ _ _ _ _ HF).
Qed.

Lemma wp_lane_pop F k b p l got x :
  Frame 0 (Some k) F -> with_lane F k b p l got x -> 0 < cached_available l + fast_left l ->
  wp cguar 0 (on_lane_ring (lane_ring l) (RConsumer_pop (lane_consumer l))) (fun r y =>
    exists v, r.1 = Some v /\ forall l', same_lane l l' -> lane_consumer l' = r.2 ->
      (forall w held, counters l w held -> counters l' (w - 1) (held + 1)) -> with_lane F k b p l' (got ++ [v]) y) x.
Proof.
  intros HF Hx Hw.
  eapply (wp_consumer F k b p l got RConsumer_pop Consumer_pop (fun a => (a.1, mkRConsumer (Some a.2)))
    (fun c ct ph h cap a z => match a.1 with
       | Some v => h < ct /\ cons cap 0 a.2 ct ph (h + 1) (got ++ [v]) z
       | None => h = ct /\ cons cap 0 a.2 ct ph h got z end)); [done|done| | | |].
  - eapply runs_as_bind; [reflexivity|]. by intros [].
  - intros c ct ph h cap z _ Ha Hcl. apply wp_kept; [auto with fanring|done|]. eapply wp_mono; [|eapply wp_pop_exact, Ha]. by intros [[v|] c'].
  - intros c ct ph h cap [[v|] c']; apply stable_pure, stablec, ca_stable.
  - intros c ct ph h [o c'] y Er Es _ Hn Hy [Hc (cap & hr & g & K1 & K2 & K3 & [K4 K5] & K6)]. cbn [fst snd] in *.
    pose proof (cn_window _ _ _ Hn). destruct o as [v|]; [|lia]. destruct K5 as [_ K5]. exists v. split; [done|].
    intros l' E Ec Hn'. apply (lane_view_ok F k b p l l' c' ct ph (h + 1)); try done.
    + split; [done|]. exists cap, hr, g. split_and!; (done || apply K4).
    + by rewrite Ec.
    + replace (ct - (h + 1)) with (ct - h - 1) by lia. replace (h + 1 - ph) with (h - ph + 1) by lia. auto.
Qed.

Lemma wp_lane_prefetch F k b p l got x :
  Frame 0 (Some k) F -> with_lane F k b p l got x -> cached_available l = 0 -> fast_left l = 0 ->
  wp cguar 0 (Lane_prefetch l) (fun l' y => with_lane F k b p l' got y /\ same_lane l l' /\ fast_left l' = 0 /\
    unreleased l' = unreleased l /\ burst l' = burst l /\ queued l' = queued l) x.
Proof.
  intros HF Hx E1 E2. unfold Lane_prefetch. eapply wp_call.
  - eapply (wp_consumer F k b p l got RConsumer_prefetch Consumer_prefetch (fun a => (a.1, mkRConsumer (Some a.2)))
      (fun c ct ph h cap a z => exists ct', (h = ct -> a.1 = ct' - h) /\ cons cap 0 a.2 ct' ph h got z) (fun r y =>
       forall l', l' = set_cached r.1 (set_consumer r.2 l) -> with_lane F k b p l' got y)); [done|done| | | |].
    + eapply runs_as_bind; [reflexivity|]. by intros [].
    + intros c ct ph h cap z _ Ha Hcl. apply wp_kept; [auto with fanring|done|]. eapply wp_mono; [|eapply wp_prefetch_from, Ha].
      intros [n c'] y (ct' & K1 & _ & K2). by exists ct'.
    + intros c ct ph h cap a. apply stable_ex. intros ct'. apply stable_pure, stablec, ca_stable.
    + intros c ct ph h [n c'] y Er Es _ Hn Hy [Hc (cap & hr & g & K1 & K2 & K3 & [K4 (ct' & K5 & K6)] & K7)]. cbn [fst snd] in *.
      intros l' ->. destruct Hn. assert (n = ct' - h) as -> by (apply K5; lia).
      assert (h <= ct') by (destruct K6 as (_ & _ & _ & _ & _ & _ & ?); lia).
      apply (lane_view_ok F k b p l _ c' ct' ph h); try done; [|split; cbn; lia].
      split; [done|]. exists cap, hr, g. split_and!; (done || apply K4).
  - intros [n c'] y Hy. specialize (Hy _ eq_refl). cbn [fst snd] in Hy.
    eapply wp_ret_lane; [exact HF|exact Hy|]. intros z Hz. cbn. by split_and!.
Qed.

Lemma wp_lane_release F k b p l got x :
  Frame 0 (Some k) F -> with_lane F k b p l got x ->
  wp cguar 0 (on_lane_ring (lane_ring l) (RConsumer_release (lane_consumer l))) (fun _ y =>
    forall l', same_lane l l' -> lane_consumer l' = lane_consumer l ->
      (forall w held, counters l w held -> counters l' w 0) -> with_lane F k b p l' got y) x.
Proof.
  intros HF Hx.
  eapply (wp_consumer F k b p l got RConsumer_release Consumer_release (fun a => a)
    (fun c ct ph h cap _ z => cons cap 0 c ct h h got z)); [done|done|by apply runs_as_plain| | |].
  - intros c ct ph h cap z _ Ha Hcl. apply wp_kept; [auto with fanring|done|]. by apply wp_release with (ph := ph).
  - intros c ct ph h cap a. apply stablec, ca_stable.
  - intros c ct ph h a y Er Es Ec Hn Hy Hv l' E E5 Hn'.
    apply (lane_view_ok F k b p l l' c ct h h); try done; [by rewrite E5|]. rewrite Z.sub_diag. eauto.
Qed.

Definition finished (k : nat) (got : list T) : cst T -> Prop := at_lane k (fun _ z _ _ => ended got z).

Lemma wp_lane_is_disconnected F k b p l got x :
  Frame 0 (Some k) F -> with_lane F k b p l got x ->
  wp cguar 0 (on_lane_ring (lane_ring l) (RConsumer_is_disconnected (lane_consumer l)))
    (fun d y => with_lane F k b p l got y /\ (d = true -> finished k got y)) x.
Proof.
  intros HF Hx.
  eapply (wp_consumer F k b p l got RConsumer_is_disconnected Consumer_is_disconnected (fun a => a)
    (fun c ct ph h cap d z => cons cap 0 c ct ph h got z /\ (d = true -> ended got z))); [done|done|by apply runs_as_plain| | |].
  - intros c ct ph h cap z _ Ha Hcl. by apply wp_is_disconnected_ring.
  - intros c ct ph h cap a. apply stable_and; [apply stablec, ca_stable|].
    intros u v Hu Hr Ha. eapply ended_stable; [|by apply Hu|exact Hr]. lia.
  - intros c ct ph h a y Er Es Ec Hn Hy [Hc (cap & hr & g & K1 & K2 & K3 & (K4 & K5 & K6) & K7)]. split.
    + apply (lane_view_ok F k b p l l c ct ph h); try done. split; [done|]. exists cap, hr, g. split_and!; (done || apply K4).
    + intros Hd. exists cap, hr, g. do 3 (split; [done|]). by apply K6.
Qed.

(** ** Operations on the lane's signal word *)

Lemma wp_lane_signal {R B} F k b p l got (f : LaneSignal -> R * LaneSignal) (c : R -> prog (Shared T) B) b' p' W x :
  Frame 0 (Some k) F -> with_lane F k b p l got x ->
  (forall sg, signal_page (f sg).2 = signal_page sg /\ signal_bit (f sg).2 = signal_bit sg) ->
  (forall sg m, credit b p (signal_state sg) m -> credit (b' (f sg).1) (p' (f sg).1) (signal_state (f sg).2) m) ->
  (forall r y, with_lane F k (b' r) (p' r) l got y -> wp cguar 0 (c r) W y) ->
  wp cguar 0 (bind (on_index (on_signal (lane_signal l) f)) c) W x.
Proof.
  intros HF [Hx [Hc (cc & ct & ph & h & H1 & H2 & H3 & H4 & H5)]] Hp Hcr Hk. rewrite H2.
  eapply (wp_signal caps np ng 0 k f c _ (fun r cap z st m =>
    (1 <= release_batch l <= cap /\ cons cap 0 cc ct ph h got z) /\ credit (b' r) (p' r) st m));
    [done|exact HF|exact Hx|exact H5|apply lane_pred_stable|done| |].
  - intros sg cap z m _ [K1 K2]. exists m. split; [done|]. split; [exact K1|by apply Hcr].
  - intros r y Hy Ha. apply Hk. split; [done|]. split; [by apply (fr_cok _ _ _ _ _ _ HF)|].
    exists cc, ct, ph, h. by split_and!.
Qed.

(** ** Lane operations *)

(** The lane with its fast window closed. *)
Definition closed l : Lane :=
  if fast_left l =? 0 then l
  else set_counters (cached_available l + fast_left l) (unreleased l - fast_left l) (burst l - fast_left l) 0 l.

Lemma closed_facts l :
  fast_left (closed l) = 0 /\ same_lane l (closed l) /\ lane_consumer (closed l) = lane_consumer l /\
  queued (closed l) = queued l /\ burst (closed l) = burst l - fast_left l /\
  unreleased (closed l) = unreleased l - fast_left l /\
  cached_available (closed l) = cached_available l + fast_left l.
Proof. unfold closed. destruct (Z.eqb_spec (fast_left l) 0); cbn; split_and!; (done || lia). Qed.

Lemma with_lane_closed F k b p l got x :
  with_lane F k b p l got x -> Lane_close_fast (T := T) l = Ret (closed l) /\ with_lane F k b p (closed l) got x.
Proof.
  intros Hx. pose proof Hx as [_ [_ (c & ct & ph & h & _ & _ & _ & Hn & _)]]. destruct Hn. split.
  - unfold Lane_close_fast, closed. destruct (Z.eqb_spec (fast_left l) 0); [done|]. cbn [negb].
    by rewrite !usub_ret by lia.
  - destruct (closed_facts l) as (E1 & E2 & E3 & E4 & E5 & E6 & E7).
    eapply with_lane_counters; [exact Hx|done|done|]. intros w held []. destruct E2 as (S1 & S2 & S3 & S4).
    split; rewrite ?E1, ?E5, ?E6, ?E7, ?S2, ?S4; lia.
Qed.

Lemma with_lane_nums F k b p l got x : with_lane F k b p l got x -> exists w held, counters l w held.
Proof. intros [_ [_ (c & ct & ph & h & _ & _ & _ & Hn & _)]]. eauto. Qed.

Ltac nums H := let w := fresh "w" in let held := fresh "held" in let Hn := fresh "Hn" in
  destruct (with_lane_nums _ _ _ _ _ _ _ H) as (w & held & Hn); destruct Hn.

Lemma wp_release_pending F k b p l got x :
  Frame 0 (Some k) F -> with_lane F k b p l got x ->
  wp cguar 0 (Lane_release_pending l) (fun r y => with_lane F k b p r.2 got y /\ same_lane l r.2 /\
    fast_left r.2 = 0 /\ unreleased r.2 = 0 /\ burst r.2 = burst l - fast_left l /\
    cached_available r.2 = cached_available l + fast_left l /\ queued r.2 = queued l /\
    (r.1 = true -> 0 < unreleased l)) x.
Proof.
  intros HF Hx. pose proof Hx as Hx0. nums Hx0. destruct (with_lane_closed F k b p l got x Hx) as [E Hx']. unfold Lane_release_pending. rewrite E. cbn [bind].
  destruct (closed_facts l) as (E1 & E2 & E3 & E4 & E5 & E6 & E7). pose proof E2 as (S1 & S2 & S3 & S4).
  destruct (Z.eqb_spec (unreleased (closed l)) 0) as [E0|E0].
  - eapply wp_ret_lane; [exact HF|exact Hx'|]. intros y Hy. cbn. by split_and!.
  - eapply wp_call; [eapply wp_lane_release; [exact HF|exact Hx']|]. intros u y Hy. cbn beta in Hy.
    set (l' := set_counters _ 0 _ _ _). assert (Hl' : with_lane F k b p l' got y).
    { apply Hy; [done|done|]. intros w1 held1 []. split; cbn; try lia. }
    eapply wp_ret_lane; [exact HF|exact Hl'|]. intros z Hz. cbn. split_and!; try done. intros _. lia.
Qed.

(** What a poll that found the ring empty leaves: the lane stays pending with a
    window, or it is idle and one of its credits is used. *)
Definition settled F k b (e : EmptyLane) l got (y : cst T) : Prop :=
  match e with
  | EmptyKeep _ => with_lane F k b true l got y /\ 0 < cached_available l /\ queued l = true
  | EmptyIdle d _ => (0 < b)%nat /\ (with_lane F k (b - 1) false l got y /\ (d = true -> finished k got y)) /\
                     queued l = false
  end.

Lemma finished_stable k got : stable cguar 0 (finished k got).
Proof.
  apply (at_lane_stable caps np ng 0 k); [done|]. intros cap z st m z' st' m' H Hg _. by eapply ended_guarc; [|done..]; cbn; lia.
Qed.

Lemma maybe_finished_stable F k b p l got (d : bool) :
  Frame 0 (Some k) F -> stable cguar 0 (fun y => with_lane F k b p l got y /\ (d = true -> finished k got y)).
Proof.
  intros HF. apply stable_and; [apply (with_lane_frame F k b p l got HF)|].
  intros u v Hu Hr Hd. eapply finished_stable; [by apply Hu|exact Hr].
Qed.


Lemma settled_stable F k b e l got : Frame 0 (Some k) F -> stable cguar 0 (settled F k b e l got).
Proof.
  intros HF. destruct e; cbn.
  - intros u v [K1 K2] Hr. split; [|done]. eapply (fr_stable _ _ _ _ _ _ (with_lane_frame F k b true l got HF)); eauto.
  - intros u v (K1 & K2 & K3) Hr. split; [done|]. split; [|done].
    eapply (maybe_finished_stable F k _ _ _ _ disconnected); eauto.
Qed.

Lemma credit_drain b st m : credit b true st m -> (0 < b)%nat /\ credit (b - 1) false IDLE m.
Proof.
  intros [H1 H2]. destruct (Z.eqb_spec st IDLE); [by destruct H2|]. unfold credit. cbn. split; [lia|]. split; [lia|done].
Qed.

Lemma credit_claim b st m : (0 < b)%nat -> credit (b - 1) false st m ->
  credit b true (if st =? IDLE then PENDING else st) m.
Proof.
  intros Hb [H1 _]. destruct (Z.eqb_spec st IDLE) as [->|H]; unfold credit; cbn; [split; [lia|done]|].
  destruct (Z.eqb_spec st IDLE); [done|]. split; [lia|done].
Qed.

Lemma wp_settle_empty F k b l got x :
  Frame 0 (Some k) F -> with_lane F k b true l got x -> cached_available l = 0 -> fast_left l = 0 -> queued l = true ->
  wp cguar 0 (Lane_settle_empty l) (fun r y => settled F k b r.1 r.2 got y /\ same_lane l r.2 /\
    fast_left r.2 = 0 /\ unreleased r.2 = 0 /\ burst r.2 = 0 /\
    (EmptyLane_released r.1 = true -> 0 < unreleased l)) x.
Proof.
  intros HF Hx Hc0 Hf0 Hq0. unfold Lane_settle_empty. nums Hx.
  eapply wp_call; [eapply wp_release_pending; [exact HF|exact Hx]|]. clear x Hx.
  intros [released l1] x (Hx & S1 & F1 & U1 & B1 & C1 & Q1 & R1). cbn [fst snd] in *.
  assert (Hb : (0 < b)%nat).
  { destruct Hx as [_ [_ (c & ct & ph & h & _ & _ & _ & _ & cap & hr & g & _ & _ & _ & _ & K)]].
    by apply credit_drain in K as []. }
  eapply (wp_lane_signal F k b true l1 got _ _ (fun _ => (b - 1)%nat) (fun _ => false)); [exact HF|exact Hx|by intros []| |].
  { intros sg m Hcr. cbn. by eapply credit_drain. }
  clear x Hx. intros [] x Hx.
  eapply wp_call; [eapply wp_lane_prefetch; [exact HF|exact Hx|lia|lia]|]. clear x Hx.
  intros l0 x (H0 & S0 & F0 & U0 & B0 & Q0). set (l2 := set_burst 0 l0).
  assert (Hx : with_lane F k (b - 1) false l2 got x).
  { eapply with_lane_counters; [exact H0|done|done|]. intros w' held' []. split; cbn; lia. }
  assert (S2 : same_lane l1 l2) by done. assert (F2 : fast_left l2 = 0) by done.
  assert (U2 : unreleased l2 = unreleased l1) by done. assert (B2 : burst l2 = 0) by done.
  assert (Q2 : queued l2 = queued l) by (cbn; congruence). clearbody l2. clear l0 H0 S0 F0 U0 B0 Q0.
  assert (S3 : same_lane l l2) by (destruct S1 as (? & ? & ? & ?), S2 as (? & ? & ? & ?); split_and!; congruence).
  destruct (Z.eqb_spec (cached_available l2) 0) as [C2|C2]; cbn [negb].
  - assert (Hq : with_lane F k (b - 1) false (set_queued false l2) got x).
    { eapply with_lane_counters; [exact Hx|done|done|]. intros w' held' []. by split. }
    eapply wp_call; [eapply (wp_lane_is_disconnected F k _ _ (set_queued false l2)); [exact HF|exact Hq]|].
    intros d y Hy. eapply wp_retP; [by apply (maybe_finished_stable F k (b - 1) false (set_queued false l2) got d)|exact Hy|].
    intros z Hz. cbn. split_and!; try (done || lia || apply Hz).
  - nums Hx. eapply (wp_lane_signal F k (b - 1) false l2 got _ _ (fun _ => b) (fun _ => true)); [exact HF|exact Hx| | |].
    { intros sg. by destruct (signal_state sg =? IDLE). }
    { intros sg m Hcr. pose proof (credit_claim b _ m Hb Hcr) as Hk. by destruct (signal_state sg =? IDLE). }
    intros r y Hy. eapply wp_ret_lane; [exact HF|exact Hy|]. intros z Hz. cbn. split_and!; (done || lia || congruence).
Qed.

Lemma wp_refill_lane F k b l got x :
  Frame 0 (Some k) F -> with_lane F k b true l got x -> queued l = true ->
  wp cguar 0 (Lane_refill l) (fun r y => same_lane l r.2 /\ fast_left r.2 = 0 /\
    unreleased r.2 <= unreleased l /\ burst r.2 <= burst l /\
    match r.1 with
    | None => with_lane F k b true r.2 got y /\ 0 < cached_available r.2 /\ queued r.2 = true
    | Some e => settled F k b e r.2 got y /\ cached_available l = 0 /\ unreleased r.2 = 0 /\
                (EmptyLane_released e = true -> 0 < unreleased l)
    end) x.
Proof.
  intros HF Hx Hq. nums Hx. destruct (with_lane_closed F k b true l got x Hx) as [E Hx']. unfold Lane_refill. rewrite E. cbn [bind].
  destruct (closed_facts l) as (E1 & E2 & E3 & E4 & E5 & E6 & E7).
  destruct (Z.eqb_spec (cached_available (closed l)) 0) as [C0|C0].
  2:{ eapply wp_ret_lane; [exact HF|exact Hx'|]. intros y Hy. cbn. split_and!; (done || lia || congruence). }
  eapply wp_call; [eapply wp_lane_prefetch; [exact HF|exact Hx'|done|done]|]. clear x Hx Hx'.
  intros l2 x (Hx & S2 & F2 & U2 & B2 & Q2).
  assert (S3 : same_lane l l2) by (destruct E2 as (? & ? & ? & ?), S2 as (? & ? & ? & ?); split_and!; congruence).
  destruct (Z.eqb_spec (cached_available l2) 0) as [C2|C2].
  - eapply wp_call; [eapply wp_settle_empty; [exact HF|exact Hx|done|done|congruence]|].
    intros [e l3] y (Hy & S4 & F4 & U4 & B4 & R4). cbn [fst snd] in *.
    assert (same_lane l l3) by (destruct S3 as (? & ? & ? & ?), S4 as (? & ? & ? & ?); split_and!; congruence).
    eapply (wp_retP _ 0 (settled F k b e l3 got)); [by apply settled_stable|exact Hy|].
    intros z Hz. cbn. split_and!; (done || lia || idtac). intros Hr. specialize (R4 Hr). lia.
  - pose proof Hx as Hx2. nums Hx2. eapply wp_ret_lane; [exact HF|exact Hx|]. intros z Hz. cbn.
    split_and!; (done || lia || congruence).
Qed.

Lemma wp_pop_counted F k b p l got step msg x :
  Frame 0 (Some k) F -> with_lane F k b p l got x -> fast_left l = 0 -> 0 < cached_available l ->
  unreleased l < release_batch l -> 0 <= step -> burst l + step <= 64 ->
  wp cguar 0 (Lane_pop_counted l step msg) (fun r y => with_lane F k b p r.2 (got ++ [r.1.1]) y /\ same_lane l r.2 /\
    fast_left r.2 = 0 /\ unreleased r.2 < release_batch r.2 /\ burst r.2 = burst l + step /\ queued r.2 = queued l) x.
Proof.
  intros HF Hx F0 C0 U0 Hs Hb. unfold Lane_pop_counted. nums Hx.
  eapply wp_call; [eapply wp_lane_pop; [exact HF|exact Hx|lia]|].
  intros [o rc] y (v & Ev & Hy). cbn [fst snd] in *. subst o. cbn [cached_available set_consumer set_counters].
  rewrite usub_ret by lia. cbn [bind unreleased release_batch set_consumer set_counters].
  set (l1 := set_counters (cached_available l - 1) (unreleased l + 1) (burst l + step) (fast_left l) (set_consumer rc l)).
  assert (H1 : with_lane F k b p l1 (got ++ [v]) y).
  { apply Hy; [done|done|]. intros w' held' []. split; cbn; lia. }
  assert (Ebatch : release_batch l1 = release_batch l) by done.
  destruct (Z.eqb_spec (unreleased l + 1) (release_batch l)).
  - eapply wp_call; [eapply wp_release_pending; [exact HF|exact H1]|].
    intros [rel l2] z (Hz & S2 & F2 & U2 & B2 & C2 & Q2 & _). cbn [fst snd] in *.
    eapply wp_ret_lane; [exact HF|exact Hz|]. intros u Hu. cbn [fst snd]. split_and!; try done.
    + destruct S2 as (_ & _ & _ & Eb2). rewrite U2, Eb2. cbn. lia.
    + rewrite B2. cbn. lia.
  - eapply wp_ret_lane; [exact HF|exact H1|]. intros z Hz. cbn. split_and!; (done || lia).
Qed.

Lemma wp_poll FAIR F k b l got x :
  Frame 0 (Some k) F -> with_lane F k b true l got x -> lane_rest l -> queued l = true ->
  wp cguar 0 (Lane_poll FAIR l) (fun r y => same_lane l r.2 /\ lane_rest r.2 /\
    match r.1 with
    | PollItem v _ _ => with_lane F k b true r.2 (got ++ [v]) y /\ queued r.2 = true /\ fast_left r.2 = 0
    | PollKeep rel => settled F k b (EmptyKeep rel) r.2 got y /\ fast_left r.2 = 0 /\
        cached_available l = 0 /\ unreleased r.2 = 0 /\ (rel = true -> 0 < unreleased l)
    | PollIdle d rel => settled F k b (EmptyIdle d rel) r.2 got y /\ fast_left r.2 = 0 /\
        cached_available l = 0 /\ unreleased r.2 = 0 /\ (rel = true -> 0 < unreleased l)
    | PollStale => False
    end) x.
Proof.
  intros HF Hx [R1 R2] Hq. unfold PREFETCH_LIMIT in R1. unfold Lane_poll.
  eapply wp_call; [eapply wp_refill_lane; [exact HF|exact Hx|exact Hq]|]. clear x Hx.
  intros [o l1] x (S1 & F1 & U1 & B1 & Hx). cbn [fst snd] in *. pose proof S1 as (_ & _ & _ & Eb).
  assert (Hrest : lane_rest l1) by (split; unfold PREFETCH_LIMIT; lia).
  destruct o as [e|].
  - destruct Hx as (Hx & C1 & U2 & Hrel).
    destruct e as [rel|d rel]; (eapply wp_retP; [by apply settled_stable|exact Hx|]); intros z Hz; cbn [fst snd]; by split_and!.
  - destruct Hx as (Hx & C1 & Q1).
    eapply wp_call; [eapply wp_pop_counted; [exact HF|exact Hx|lia..]|]. clear x Hx.
    intros [[v released] l2] x (Hx & S2 & F2 & U2 & B2 & Q2). cbn [fst snd] in *.
    assert (S3 : same_lane l l2) by (destruct S1 as (? & ? & ? & ?), S2 as (? & ? & ? & ?); split_and!; congruence).
    destruct (FAIR || (burst l2 =? PREFETCH_LIMIT)) eqn:Er.
    + assert (H2 : with_lane F k b true (set_burst 0 l2) (got ++ [v]) x).
      { eapply with_lane_counters; [exact Hx|done|done|]. intros w held []. split; cbn in *; lia. }
      eapply wp_ret_lane; [exact HF|exact H2|]. intros z Hz. cbn. split_and!; (done || congruence).
    + apply orb_false_iff in Er as [_ Er]. apply Z.eqb_neq in Er. unfold PREFETCH_LIMIT in Er.
      eapply wp_ret_lane; [exact HF|exact Hx|]. intros z Hz. cbn. split_and!; try (done || congruence).
      split; [unfold PREFETCH_LIMIT; lia|done].
Qed.

Lemma wp_grant_fast F k b p l got budget x :
  Frame 0 (Some k) F -> with_lane F k b p l got x -> lane_rest l -> 0 <= budget ->
  wp cguar 0 (Lane_grant_fast l budget) (fun l' y => with_lane F k b p l' got y /\ same_lane l l' /\ lane_rest l' /\
    fast_left l' <= budget /\ queued l' = queued l) x.
Proof.
  intros HF Hx [R1 R2] Hbud. unfold PREFETCH_LIMIT in R1.
  destruct (with_lane_closed F k b p l got x Hx) as [E Hx']. nums Hx. unfold Lane_grant_fast. rewrite E. cbn [bind].
  destruct (closed_facts l) as (E1 & E2 & E3 & E4 & E5 & E6 & E7).
  eapply (wp_call _ _ _ _ (fun l1 y => with_lane F k b p l1 got y /\ same_lane l l1 /\ fast_left l1 = 0 /\
    unreleased l1 = unreleased l - fast_left l /\ burst l1 = burst l - fast_left l /\ queued l1 = queued l)).
  { destruct (Z.eqb_spec (cached_available (closed l)) 0) as [C0|C0].
    - eapply wp_mono; [|eapply wp_lane_prefetch; [exact HF|exact Hx'|done|done]].
      intros l2 y (Hy & S2 & F2 & U2 & B2 & Q2).
      assert (same_lane l l2) by (destruct E2 as (? & ? & ? & ?), S2 as (? & ? & ? & ?); split_and!; congruence).
      split_and!; (done || lia || congruence).
    - eapply wp_ret_lane; [exact HF|exact Hx'|]. intros y Hy. split_and!; (done || lia). }
  clear x Hx Hx'. intros l1 x (Hx & S1 & F1 & U1 & B1 & Q1). nums Hx. pose proof S1 as (_ & _ & _ & Eb).
  set (granted := Z.min _ budget). unfold saturating_sub, PREFETCH_LIMIT in granted.
  rewrite usub_ret by lia. cbn [bind].
  set (l2 := set_counters _ _ _ _ _). assert (H2 : with_lane F k b p l2 got x).
  { eapply with_lane_counters; [exact Hx|done|done|]. intros w' held' []. split; cbn; lia. }
  eapply wp_ret_lane; [exact HF|exact H2|]. intros y Hy. split; [done|]. split; [done|].
  unfold lane_rest, PREFETCH_LIMIT. cbn. split_and!; (done || lia).
Qed.

Lemma wp_pop_fast F k b p l got x :
  Frame 0 (Some k) F -> with_lane F k b p l got x ->
  wp cguar 0 (Lane_pop_fast l) (fun r y => with_lane F k b p r.2 (got ++ option_list r.1) y /\ same_lane l r.2 /\
    burst r.2 = burst l /\ unreleased r.2 = unreleased l /\ queued r.2 = queued l /\
    match r.1 with Some _ => fast_left r.2 = fast_left l - 1 | None => r.2 = l /\ fast_left l = 0 end) x.
Proof.
  intros HF Hx. nums Hx. unfold Lane_pop_fast. destruct (Z.eqb_spec (fast_left l) 0) as [F0|F0].
  - eapply wp_ret_lane; [exact HF|exact Hx|]. intros y Hy. cbn. rewrite app_nil_r. by split_and!.
  - cbn [lane_ring lane_consumer set_counters].
    eapply wp_call; [eapply wp_lane_pop; [exact HF|exact Hx|lia]|].
    intros [o rc] y (v & Ev & Hy). cbn [fst snd] in *. subst o.
    set (l1 := set_consumer rc _). assert (H1 : with_lane F k b p l1 (got ++ [v]) y).
    { apply Hy; [done|done|]. intros w' held' []. split; cbn; lia. }
    eapply wp_ret_lane; [exact HF|exact H1|]. intros z Hz. cbn. by split_and!.
Qed.

Lemma wp_pop_fair F k b p l got budget x :
  Frame 0 (Some k) F -> with_lane F k b p l got x -> lane_rest l -> 0 <= budget ->
  wp cguar 0 (Lane_pop_fair l budget) (fun r y => with_lane F k b p r.2 (got ++ option_list r.1) y /\ same_lane l r.2 /\
    lane_rest r.2 /\ queued r.2 = queued l /\ (is_Some r.1 -> fast_left r.2 < budget \/ fast_left r.2 < fast_left l) /\ (r.1 = None -> fast_left r.2 = 0)) x.
Proof.
  intros HF Hx [R1 R2] Hbud. unfold PREFETCH_LIMIT in R1. nums Hx. unfold Lane_pop_fair.
  eapply (wp_call _ _ _ _ (fun l1 y => with_lane F k b p l1 got y /\ same_lane l l1 /\ lane_rest l1 /\
    queued l1 = queued l /\ (fast_left l1 <= budget \/ fast_left l1 = fast_left l))).
  { destruct (Z.eqb_spec (fast_left l) 0) as [F0|F0].
    - assert (H1 : with_lane F k b p (set_burst 0 l) got x).
      { eapply with_lane_counters; [exact Hx|done|done|]. intros w' held' []. split; cbn; lia. }
      eapply wp_mono; [|eapply wp_grant_fast; [exact HF|exact H1|by split|done]].
      intros l1 y (Hy & S1 & R & Hb1 & Q1). split_and!; auto.
    - eapply wp_ret_lane; [exact HF|exact Hx|]. intros y Hy. split_and!; auto; by split. }
  clear x Hx. intros l1 x (Hx & S1 & [R3 R4] & Q1 & Hb1). unfold PREFETCH_LIMIT in R3.
  eapply wp_call; [eapply wp_pop_fast; [exact HF|exact Hx]|]. clear x Hx.
  intros [o l2] x (Hx & S2 & B2 & U2 & Q2 & F2). cbn [fst snd] in *. nums Hx. pose proof S2 as (_ & _ & _ & Eb).
  assert (S3 : same_lane l l2) by (destruct S1 as (? & ? & ? & ?), S2 as (? & ? & ? & ?); split_and!; congruence).
  destruct o as [v|].
  - assert (H2 : with_lane F k b p (set_burst (fast_left l2) l2) (got ++ option_list (Some v)) x).
    { eapply with_lane_counters; [exact Hx|done|done|]. intros w' held' []. split; cbn; lia. }
    eapply wp_ret_lane; [exact HF|exact H2|]. intros y Hy. cbn. split_and!; try (done || congruence).
    + split; unfold PREFETCH_LIMIT; cbn; lia.
    + intros _. lia.
  - eapply wp_ret_lane; [exact HF|exact Hx|]. intros y Hy. cbn. split_and!; try (done || congruence).
    + split; unfold PREFETCH_LIMIT; lia.
    + intros _. by destruct F2 as [-> ?].
Qed.

End lane.
