(* ===== verification/MpscRecvConc.v ===== *)
(** * The MPSC receiver under every interleaving

    The receiver's own state next to the lanes of MpscLaneConc: which lanes it
    has adopted, which are queued on its rotation, the readiness poll budget
    and the fast window.  The invariant [rx_ok] is what keeps the receiver from
    its panics; [own] is what it knows about the rings, the signal words and
    the registry while the senders run.  A trace of (lane, value) pairs is what
    it has received.  The loops of a receive are bounded by the number of
    times senders can still mark lanes ready. *)

From stdpp Require Import functions.
From S2P Require Import Prelude Prog Config Wait Ready YRing YRingInv YRingSpec YRingThm YRingConc YRingClose Handoff MpscLane MpscLaneInv Mpsc MpscConc MpscLaneConc.
Local Open Scope prog_scope.

Section recv.
Context {T : Type} (caps : list Z) (np ng : nat).
Implicit Types (s : Shared T) (l : Lane) (rx : Receiver) (tr : list (nat * T)) (b : nat -> nat).
#[local] Abbreviation cok := (cok (T := T) caps np ng).
#[local] Abbreviation cguar := (cguar (T := T) caps np ng).
#[local] Abbreviation at_lane := (at_lane (T := T) caps).
#[local] Abbreviation Frame := (Frame (T := T) caps np ng).
#[local] Abbreviation cons := (ca (T := T)).
#[local] Abbreviation lane_ok := (lane_ok (T := T) caps np ng).
#[local] Abbreviation with_lane := (with_lane (T := T) caps np ng).
#[local] Abbreviation finished := (finished (T := T) caps).
#[local] Abbreviation n := (length caps).

(** ** What the receiver owns *)

(** The values of lane [k] in a trace. *)
Definition of_lane (k : nat) tr : list T := snd <$> filter (fun e => e.1 = k) tr.

Lemma of_lane_app k tr tr' : of_lane k (tr ++ tr') = of_lane k tr ++ of_lane k tr'.
Proof. unfold of_lane. by rewrite filter_app, fmap_app. Qed.
Lemma of_lane_same k (vs : list T) : of_lane k (pair k <$> vs) = vs.
Proof. unfold of_lane. induction vs as [|v vs IH]; [done|]. rewrite fmap_cons, filter_cons_True by done. cbn. by f_equal. Qed.
Lemma of_lane_other k j (vs : list T) : j <> k -> of_lane j (pair k <$> vs) = [].
Proof. intros H. unfold of_lane. induction vs as [|v vs IH]; [done|]. by rewrite fmap_cons, filter_cons_False by (cbn; congruence). Qed.

Definition lane_at (k : nat) : LaneKey := mkLaneKey (Z.of_nat k) 0.

(** A lane that is registered but not adopted. *)
Definition entry_ok (j bj : nat) (p : PendingLane) (x : cst T) : Prop :=
  pl_key p = lane_at j /\ pl_signal p = Z.of_nat j /\ pl_ring p = Z.of_nat j /\
  exists c, pl_consumer p = mkRConsumer (Some c) /\
    at_lane j (fun cap z st m => cons cap 0 c 0 0 0 [] z /\ credit bj false st m) x.

Implicit Types (lanes : list (option Lane)) (listed pend : list PendingLane).

Definition slot lanes pend (bj : nat) (got : list T) (j : nat) (x : cst T) : Prop :=
  match lanes !! j with
  | Some (Some l) => lane_ok j bj (queued l) l got x
  | Some None => finished j got x
  | None => got = [] /\ exists p, pend !! (j - length lanes)%nat = Some p /\ entry_ok j bj p x
  end.

Fixpoint live lanes : nat :=
  match lanes with
  | [] => 0
  | Some _ :: lanes' => S (live lanes')
  | None :: lanes' => live lanes'
  end.

(** The registry, which nobody else changes: the lanes not adopted yet (those
    it lists, or those the receiver has just taken from it), the number of
    lanes, the topology. *)
Definition regs lanes (seen : Z) (listed : list PendingLane) pend (s : Shared T) : Prop :=
  reg_pending (sh_registry s) = listed /\ (sh_registry_generation s = seen -> pend = []) /\
  sh_registered_lanes s = Z.of_nat (live lanes + length pend) /\
  (length lanes + length pend = n)%nat /\ Z.of_nat n < usize_mod /\
  (Forall (fun h => 0 <= h < Z.of_nat ng) (reg_groups (sh_registry s)) /\ length (reg_groups (sh_registry s)) = ng) /\
  Forall (fun h => 0 <= h < Z.of_nat np) (reg_pages (sh_registry s)).

(** Everything but lane [k]. *)
Definition rest (k : nat) lanes seen listed pend b tr (x : cst T) : Prop :=
  (cok x /\ regs lanes seen listed pend x.1) /\
  forall j, (j < n)%nat -> j <> k -> slot lanes pend (b j) (of_lane j tr) j x.

Definition own lanes seen listed pend b tr (x : cst T) : Prop :=
  (cok x /\ regs lanes seen listed pend x.1) /\ forall j, (j < n)%nat -> slot lanes pend (b j) (of_lane j tr) j x.

Lemma regs_core lanes seen listed pend s s' : core s' = core s -> regs lanes seen listed pend s -> regs lanes seen listed pend s'.
Proof. unfold core, regs. intros E. injection E as E1 E2 E3 _ _ _. by rewrite E1, E2, E3. Qed.

Lemma rely_core x y : rely cguar 0 x y -> core y.1 = core x.1.
Proof. intros ([|j] & Hj & H); [done|]. apply H. Qed.

Lemma regs_frame k lanes seen listed pend : Frame 0 k (fun x => cok x /\ regs lanes seen listed pend x.1).
Proof.
  split.
  - intros x y [H1 H2] Hr. split; [by eapply rely_cok|]. eapply regs_core; [by eapply rely_core|done].
  - by intros x [].
  - intros x y [H1 H2] Hy [E _]. split; [done|]. by eapply regs_core.
Qed.

(** A slot's assertion is about its ring and signal only. *)
Lemma slot_moves lanes pend bj got j x y :
  cok y -> same_at j x y -> slot lanes pend bj got j x -> slot lanes pend bj got j y.
Proof.
  intros Hy (E1 & E2 & E3). assert (Ha : forall P, at_lane j P x -> at_lane j P y).
  { intros P (cap & hr & g & K). exists cap, hr, g. by rewrite E1, E2, E3. }
  unfold slot. destruct (lanes !! j) as [[l|]|]; [|apply Ha|].
  - intros [_ (c & ct & ph & h & H1 & H2 & H3 & H4 & H5)]. split; [done|]. exists c, ct, ph, h. split_and!; auto.
  - intros (Eg & p & E & K2 & K3 & K4 & c & K5 & K6). split; [done|]. exists p. split; [done|]. split_and!; eauto.
Qed.

Lemma slot_frame lanes pend bj got j k : Some j <> k -> Frame 0 k (fun x => cok x /\ slot lanes pend bj got j x).
Proof.
  intros Hj. split; [|by intros x []|].
  - intros x y [K1 K2] Hr. split; [by eapply rely_cok|]. revert K2. unfold slot. destruct (lanes !! j) as [[l|]|].
    + intros K2. destruct (lane_ok_frame caps np ng j bj (queued l) l got k) as [H1 _ _]; [congruence|]. by eapply H1.
    + intros K2. by eapply finished_stable.
    + intros (Eg & p & E & K2 & K3 & K4 & c & K5 & K6). split; [done|]. exists p. split; [done|]. split_and!; auto.
      exists c. split; [done|]. eapply (at_lane_stable caps np ng 0 j); [done| |exact K6|exact Hr].
      apply (lane_stable_and 1 (fun cap z => cons cap 0 c 0 0 0 [] z)); [|cbn; lia|apply credit_stable].
      intros cap. apply stablec, ca_stable.
  - intros x y [K1 K2] Hy [_ Hu]. split; [done|]. eapply slot_moves; [done|apply Hu; congruence|done].
Qed.

(** Frames over a family of slots. *)
Lemma Frame_forall k (I : nat -> Prop) (P : nat -> cst T -> Prop) G :
  Frame 0 k G -> (forall j, I j -> Frame 0 k (fun x => cok x /\ P j x)) ->
  Frame 0 k (fun x => G x /\ forall j, I j -> P j x).
Proof.
  intros [G1 G2 G3] HP. split.
  - intros x y [HG H] Hr. split; [by eapply G1|]. intros j Hj. destruct (HP j Hj) as [P1 _ _].
    eapply (P1 x y); [split; [by apply G2|by apply H]|exact Hr].
  - intros x [HG _]. by apply G2.
  - intros x y [HG H] Hy Hu. split; [by eapply G3|]. intros j Hj. destruct (HP j Hj) as [_ _ P3].
    eapply (P3 x y); [split; [by apply G2|by apply H]|exact Hy|exact Hu].
Qed.

Lemma rest_frame k lanes seen listed pend b tr : Frame 0 (Some k) (rest k lanes seen listed pend b tr).
Proof.
  pose proof (Frame_forall (Some k) (fun j => (j < n)%nat /\ j <> k) (fun j => slot lanes pend (b j) (of_lane j tr) j)
    _ (regs_frame (Some k) lanes seen listed pend)) as [H1 H2 H3].
  { intros j [_ Hj]. apply slot_frame. congruence. }
  split; unfold rest in *.
  - intros x y [HG H] Hr. destruct (H1 x y) as [K1 K2]; [split; [done|]; intros j []; auto|done|]. split; [done|]. auto.
  - intros x [HG _]. apply HG.
  - intros x y [HG H] Hy Hu. destruct (H3 x y) as [K1 K2]; [split; [done|]; intros j []; auto|done|done|]. split; [done|]. auto.
Qed.

Lemma own_frame lanes seen listed pend b tr : Frame 0 None (own lanes seen listed pend b tr).
Proof.
  apply (Frame_forall None (fun j => (j < n)%nat) (fun j => slot lanes pend (b j) (of_lane j tr) j) _
    (regs_frame None lanes seen listed pend)). intros j _. by apply slot_frame.
Qed.

(** ** Working on one lane *)

Lemma slot_ext lanes lanes' pend bj bj' got got' j x :
  lanes' !! j = lanes !! j -> length lanes' = length lanes -> bj' = bj -> got' = got ->
  slot lanes pend bj got j x -> slot lanes' pend bj' got' j x.
Proof. intros E1 E2 -> ->. unfold slot. by rewrite E1, E2. Qed.

Lemma live_insert lanes k l l' : lanes !! k = Some (Some l) -> live (<[k := Some l']> lanes) = live lanes.
Proof.
  revert k. induction lanes as [|a lanes IH]; intros [|k] H; [done..| |]; cbn in *.
  - by injection H as ->.
  - destruct a; [apply (f_equal S)|]; exact (IH k H).
Qed.

Lemma live_retire lanes k l : lanes !! k = Some (Some l) -> S (live (<[k := None]> lanes)) = live lanes.
Proof.
  revert k. induction lanes as [|a lanes IH]; intros [|k] H; [done..| |]; cbn in *.
  - by injection H as ->.
  - destruct a; [apply (f_equal S)|]; exact (IH k H).
Qed.

Lemma live_le lanes : (live lanes <= length lanes)%nat.
Proof. induction lanes as [|[|] lanes IH]; cbn; lia. Qed.

Lemma own_lt lanes seen listed pend b tr x k o : own lanes seen listed pend b tr x -> lanes !! k = Some o -> (k < n)%nat.
Proof. intros [[_ (_ & _ & _ & E & _)] _] Hk. apply lookup_lt_Some in Hk. lia. Qed.

Lemma own_open lanes seen listed pend b tr x k l :
  own lanes seen listed pend b tr x -> lanes !! k = Some (Some l) ->
  with_lane (rest k lanes seen listed pend b tr) k (b k) (queued l) l (of_lane k tr) x.
Proof.
  intros H Hk. pose proof (own_lt _ _ _ _ _ _ _ _ _ H Hk) as Hn. destruct H as [H1 H2].
  split; [split; [done|]; auto|]. specialize (H2 k Hn). unfold slot in H2. by rewrite Hk in H2.
Qed.

Lemma own_close lanes seen listed pend b tr x k l l' bk got tr' :
  lanes !! k = Some (Some l) -> with_lane (rest k lanes seen listed pend b tr) k bk (queued l') l' got x ->
  of_lane k tr' = got -> (forall j, j <> k -> of_lane j tr' = of_lane j tr) ->
  own (<[k := Some l']> lanes) seen listed pend (<[k := bk]> b) tr' x.
Proof.
  intros Hk [[[Hc Hr] H2] Hl] Eg Ej. pose proof (lookup_lt_Some _ _ _ Hk) as Hlt. split; [split; [done|]|].
  - destruct Hr as (R1 & R2 & R3 & R4 & R5). unfold regs. rewrite length_insert.
    erewrite live_insert by exact Hk. split_and!; (done || apply R5).
  - intros j Hj. destruct (decide (j = k)) as [->|Hne].
    + unfold slot. rewrite list_lookup_insert_eq, fn_lookup_insert by done. by rewrite Eg.
    + eapply slot_ext; [| | | |by apply H2]; [by rewrite list_lookup_insert_ne|apply length_insert|by rewrite fn_lookup_insert_ne|auto].
Qed.

Lemma own_ext lanes seen listed pend b b' tr x :
  (forall j, b' j = b j) -> own lanes seen listed pend b tr x -> own lanes seen listed pend b' tr x.
Proof. intros E [H1 H2]. split; [done|]. intros j Hj. rewrite E. auto. Qed.

Lemma own_same lanes seen listed pend b tr x k l :
  lanes !! k = Some (Some l) -> with_lane (rest k lanes seen listed pend b tr) k (b k) (queued l) l (of_lane k tr) x ->
  own lanes seen listed pend b tr x.
Proof.
  intros Hk H. eapply own_close in H; [|done..]. rewrite list_insert_id in H by done.
  eapply own_ext; [|exact H]. intros j. destruct (decide (j = k)) as [->|]; [by rewrite fn_lookup_insert|by rewrite fn_lookup_insert_ne].
Qed.

(** ** The receiver's own invariant *)

Record rx_ok rx : Prop := {
  rx_lanes : forall k l, rcv_lanes rx !! k = Some (Some l) ->
    lane_key l = lane_at k /\ lane_rest l /\ (queued l = true <-> lane_at k ∈ rcv_active rx) /\
    fast_left l <= items_until_ready_poll rx /\
    (0 < fast_left l -> fast_slot rx = Z.of_nat k /\ head (rcv_active rx) = Some (lane_at k));
  rx_active : NoDup (rcv_active rx) /\
    forall key, key ∈ rcv_active rx -> exists k l, key = lane_at k /\ rcv_lanes rx !! k = Some (Some l);
  rx_budget : 0 <= items_until_ready_poll rx <= READY_POLL_INTERVAL /\ (rcv_active rx = [] -> 0 < items_until_ready_poll rx);
  rx_paused : Forall (eq false) (rcv_paused rx);
  rx_groups : Forall (fun h => 0 <= h < Z.of_nat ng) (rcv_groups rx) /\ (length (rcv_groups rx) <= ng)%nat;
  rx_pages : Forall (fun h => 0 <= h < Z.of_nat np) (rcv_pages rx);
  rx_cursor : 0 <= ready_group_cursor rx
}.

Lemma lane_at_inj j k : lane_at j = lane_at k -> j = k.
Proof. unfold lane_at. intros E. injection E. lia. Qed.

Lemma get_lane_at k rx : get_lane (Z.of_nat k) rx = match rcv_lanes rx !! k with Some (Some l) => Some l | _ => None end.
Proof. unfold get_lane. by rewrite zlookup_of_nat. Qed.

Lemma get_key_at k l rx : rcv_lanes rx !! k = Some (Some l) -> lane_key l = lane_at k -> get_lane_key (lane_at k) rx = Some l.
Proof. intros H E. unfold get_lane_key. cbn. rewrite get_lane_at, H, E. unfold LaneKey_eqb. cbn. by rewrite Z.eqb_refl. Qed.

Lemma put_lane_at k l rx : lane_key l = lane_at k -> put_lane l rx = set_lanes (<[k := Some l]> (rcv_lanes rx)) rx.
Proof. intros E. unfold put_lane. by rewrite E, <- zinsert_of_nat. Qed.

Lemma not_paused rx k : rx_ok rx -> is_paused k rx = false.
Proof.
  intros H. unfold is_paused. destruct (zlookup (rcv_paused rx) k) as [p|] eqn:E; [|done].
  apply zlookup_elem in E. pose proof (rx_paused _ H) as Hp. rewrite Forall_forall in Hp. by rewrite <- (Hp p E).
Qed.

(** The other lanes have no fast window while lane [k] is in front. *)
Lemma front_only rx k j rest0 l0 :
  rx_ok rx -> rcv_active rx = lane_at k :: rest0 -> rcv_lanes rx !! j = Some (Some l0) -> j <> k -> fast_left l0 <= 0.
Proof.
  intros H E Hj Hne. destruct (rx_lanes _ H j l0 Hj) as (_ & _ & _ & _ & Hf).
  destruct (Z.le_gt_cases (fast_left l0) 0) as [|Hgt]; [done|]. destruct (Hf ltac:(lia)) as [_ Hh].
  rewrite E in Hh. cbn in Hh. injection Hh as Hh. lia.
Qed.

Definition same_topology rx rx' : Prop :=
  rcv_paused rx' = rcv_paused rx /\ rcv_groups rx' = rcv_groups rx /\ rcv_pages rx' = rcv_pages rx /\
  ready_group_cursor rx' = ready_group_cursor rx /\ seen_registry_generation rx' = seen_registry_generation rx.

(** The front lane changes, and stays on the rotation or leaves it. *)
Lemma rx_ok_front rx rx' k l l' rest0 :
  rx_ok rx -> rcv_active rx = lane_at k :: rest0 -> rcv_lanes rx !! k = Some (Some l) ->
  same_topology rx rx' -> rcv_lanes rx' = <[k := Some l']> (rcv_lanes rx) -> same_lane l l' -> lane_rest l' ->
  (rcv_active rx' ≡ₚ lane_at k :: rest0 /\ queued l' = true \/ rcv_active rx' = rest0 /\ queued l' = false) ->
  0 <= items_until_ready_poll rx' <= READY_POLL_INTERVAL -> (rcv_active rx' = [] -> 0 < items_until_ready_poll rx') ->
  fast_left l' <= items_until_ready_poll rx' ->
  (0 < fast_left l' -> fast_slot rx' = Z.of_nat k /\ head (rcv_active rx') = Some (lane_at k)) -> rx_ok rx'.
Proof.
  intros H Ea Hk (T1 & T2 & T3 & T4 & _) El Hs Hr Hact Hb0 Hb Hfl Hf. pose proof (lookup_lt_Some _ _ _ Hk) as Hlt.
  destruct (rx_active _ H) as [Hnd Hin]. rewrite Ea in Hnd, Hin. apply NoDup_cons in Hnd as [Hk0 Hnd].
  assert (Hact' : forall key, key ∈ rcv_active rx' <-> key ∈ rest0 \/ key = lane_at k /\ queued l' = true).
  { clear - Hact. intros key. destruct Hact as [[Hp Hq]|[Hp Hq]]; rewrite Hp, Hq.
    - rewrite elem_of_cons. split; [intros [E|E]; auto|intros [E|[E _]]; auto].
    - split; [by left|]. by intros [E|[_ E]]. }
  split; rewrite ?T1, ?T2, ?T3, ?T4; try apply H; try done.
  - intros j l0 Hj. rewrite El in Hj. destruct (decide (j = k)) as [->|Hne].
    + rewrite list_lookup_insert_eq in Hj by done. injection Hj as <-.
      destruct (rx_lanes _ H k l Hk) as (K1 & _). destruct Hs as (S1 & _). split_and!; try done; [congruence|].
      rewrite Hact'. split; [by right|]. by intros [|[_ ?]].
    + rewrite list_lookup_insert_ne in Hj by done. destruct (rx_lanes _ H j l0 Hj) as (K1 & K2 & K3 & _).
      pose proof (front_only _ _ _ _ _ H Ea Hj Hne). split_and!; try done; [|lia|lia].
      rewrite Hact', K3, Ea, elem_of_cons. split; [intros [E|]|intros [|[E _]]]; auto; apply lane_at_inj in E; congruence.
  - split.
    + destruct Hact as [[Hp _]|[-> _]]; [rewrite Hp; by constructor|done].
    + intros key Hkey. rewrite Hact' in Hkey. destruct (Hin key) as (j & l0 & -> & Hj).
      { rewrite elem_of_cons. destruct Hkey as [|[-> _]]; auto. }
      exists j. rewrite El. destruct (decide (j = k)) as [->|Hne].
      * exists l'. by rewrite list_lookup_insert_eq.
      * exists l0. by rewrite list_lookup_insert_ne.
Qed.

(** The front lane is retired. *)
Lemma rx_ok_retire rx rx' k l rest0 :
  rx_ok rx -> rcv_active rx = lane_at k :: rest0 -> rcv_lanes rx !! k = Some (Some l) ->
  same_topology rx rx' -> rcv_lanes rx' = <[k := None]> (rcv_lanes rx) -> rcv_active rx' = rest0 ->
  items_until_ready_poll rx' = items_until_ready_poll rx -> 0 < items_until_ready_poll rx -> rx_ok rx'.
Proof.
  intros H Ea Hk (T1 & T2 & T3 & T4 & _) El Ea' Eb Hb. pose proof (lookup_lt_Some _ _ _ Hk) as Hlt.
  destruct (rx_active _ H) as [Hnd Hin]. rewrite Ea in Hnd, Hin. apply NoDup_cons in Hnd as [Hk0 Hnd].
  split; rewrite ?T1, ?T2, ?T3, ?T4, ?Ea', ?Eb; try apply H; try done; [..|destruct (rx_budget _ H); lia].
  - intros j l0 Hj. rewrite El in Hj. destruct (decide (j = k)) as [->|Hne].
    + rewrite list_lookup_insert_eq in Hj by done. done.
    + rewrite list_lookup_insert_ne in Hj by done. destruct (rx_lanes _ H j l0 Hj) as (K1 & K2 & K3 & _).
      pose proof (front_only _ _ _ _ _ H Ea Hj Hne). split_and!; try done; [|lia|lia].
      rewrite K3, Ea, elem_of_cons. split; [|by right]. intros [E|]; [apply lane_at_inj in E; congruence|done].
  - split; [done|]. intros key Hkey. destruct (Hin key) as (j & l0 & -> & Hj); [by constructor|].
    exists j, l0. rewrite El, list_lookup_insert_ne; [done|]. intros ->. done.
Qed.

(** A lane joins the rotation at its end. *)
Lemma rx_ok_queue rx k l :
  rx_ok rx -> rcv_lanes rx !! k = Some (Some l) -> queued l = false ->
  rx_ok (set_active (rcv_active rx ++ [lane_at k]) (put_lane (set_queued true l) rx)).
Proof.
  intros H Hk Hq. pose proof (lookup_lt_Some _ _ _ Hk) as Hlt. destruct (rx_lanes _ H k l Hk) as (K1 & K2 & K3 & K4 & K5).
  assert (Hna : lane_at k ∉ rcv_active rx) by (rewrite <- K3, Hq; done).
  assert (El : rcv_lanes (put_lane (set_queued true l) rx) = <[k := Some (set_queued true l)]> (rcv_lanes rx)).
  { by rewrite (put_lane_at k). }
  assert (Hh : forall j, head (rcv_active rx) = Some (lane_at j) -> head (rcv_active rx ++ [lane_at k]) = Some (lane_at j)).
  { intros j. by destruct (rcv_active rx). }
  split; cbn [rcv_active set_active rcv_lanes]; try apply H.
  - intros j l0 Hj. rewrite El in Hj. destruct (decide (j = k)) as [->|Hne].
    + rewrite list_lookup_insert_eq in Hj by done. injection Hj as <-. split_and!; try done.
      * split; [|done]. intros _. rewrite elem_of_app, list_elem_of_singleton. by right.
      * intros Hf. destruct (K5 Hf) as [E1 E2]. auto.
    + rewrite list_lookup_insert_ne in Hj by done. destruct (rx_lanes _ H j l0 Hj) as (J1 & J2 & J3 & J4 & J5).
      split_and!; try done.
      * rewrite J3, elem_of_app, list_elem_of_singleton. split; [by left|]. intros [|E]; [done|].
        apply lane_at_inj in E. congruence.
      * intros Hf. destruct (J5 Hf) as [E1 E2]. auto.
  - destruct (rx_active _ H) as [Hnd Hin]. split.
    + apply NoDup_app. split_and!; [done| |apply NoDup_singleton]. intros key Hkey Hs.
      apply list_elem_of_singleton in Hs as ->. done.
    + intros key. rewrite elem_of_app, list_elem_of_singleton. intros [Hkey| ->].
      * destruct (Hin key Hkey) as (j & l0 & -> & Hj). exists j. rewrite El.
        destruct (decide (j = k)) as [->|Hne]; [|exists l0; by rewrite list_lookup_insert_ne].
        exists (set_queued true l). by rewrite list_lookup_insert_eq.
      * exists k, (set_queued true l). split; [done|]. rewrite El. by rewrite list_lookup_insert_eq.
  - split; [apply H|]. intros E. by destruct (rcv_active rx).
Qed.

(** ** The receiver's assertion and its steps outside the lanes *)

Definition chan rx b tr (x : cst T) : Prop :=
  rx_ok rx /\ exists pend, own (rcv_lanes rx) (seen_registry_generation rx) pend pend b tr x.

Lemma chan_frame rx b tr : Frame 0 None (chan rx b tr).
Proof.
  split.
  - intros x y [H (pend & Ho)] Hr. split; [done|]. exists pend. by eapply (fr_stable _ _ _ _ _ _ (own_frame _ _ _ _ _ _)).
  - intros x [_ (pend & [[Hc _] _])]. done.
  - intros x y [H (pend & Ho)] Hy Hu. split; [done|]. exists pend. by eapply (fr_upd _ _ _ _ _ _ (own_frame _ _ _ _ _ _)).
Qed.

Lemma wp_chan_inert {A B} rx b tr (q : prog (Shared T) A) (c : A -> prog (Shared T) B) Q x :
  inert caps np ng q -> chan rx b tr x -> (forall a y, chan rx b tr y -> wp cguar 0 (c a) Q y) ->
  wp cguar 0 (bind q c) Q x.
Proof. intros Hq Hx Hk. eapply wp_call; [eapply wp_inert; [apply chan_frame|done|exact Hx]|]. auto. Qed.

Lemma wp_ret_chan {A} rx b tr (a : A) Q x :
  chan rx b tr x -> (forall y, chan rx b tr y -> Q a y) -> wp cguar 0 (Ret a) Q x.
Proof. intros Hx HQ. eapply wp_retP; [apply (chan_frame rx b tr)|exact Hx|exact HQ]. Qed.

(** An access of the receiver to the part of the state that only it changes. *)
Lemma wp_core {R B} (f : Shared T -> R * Shared T) (k : R -> prog (Shared T) B) P Q x :
  stable cguar 0 P -> (forall y, P y -> cok y) -> P x ->
  (forall s, sh_rings (f s).2 = sh_rings s /\ sh_index (f s).2 = sh_index s) ->
  (forall s g, P (s, g) -> cok ((f s).2, g) -> (forall j, same_at j (s, g) ((f s).2, g)) ->
     wp cguar 0 (k (f s).1) Q ((f s).2, g)) ->
  wp cguar 0 (bind (atomic f) k) Q x.
Proof.
  intros HS Hok Hx Hf Hk. eapply wp_act; [exact HS|exact Hx|]. intros s g Hp. exists g.
  destruct (Hf s) as [E1 E2]. destruct (cguar_inert caps np ng 0 s (f s).2 g) as [Hg Hc].
  - by apply Hok.
  - exact E1.
  - by right.
  - rewrite E2. exact (co_index _ _ _ _ (Hok _ Hp)).
  - intros j. by rewrite E2.
  - split; [exact Hg|]. apply Hk; [done|done|]. intros j. split_and!; cbn; [by rewrite E1|done|by rewrite E2].
Qed.

(** ** Adopting lanes *)

(** The receiver after lanes were adopted or queued: nothing else changed. *)
Definition refreshed rx rx' : Prop :=
  rcv_lanes rx `prefix_of` rcv_lanes rx' /\
  (forall k l, rcv_lanes rx !! k = None -> rcv_lanes rx' !! k = Some (Some l) -> cached_available l = 0) /\
  rcv_active rx' = rcv_active rx /\ items_until_ready_poll rx' = items_until_ready_poll rx /\
  fast_slot rx' = fast_slot rx /\ rcv_groups rx' = rcv_groups rx.

Lemma refreshed_refl rx : refreshed rx rx.
Proof. split; [done|]. split; [|done]. intros k l E1 E2. congruence. Qed.

Lemma refreshed_trans rx1 rx2 rx3 : refreshed rx1 rx2 -> refreshed rx2 rx3 -> refreshed rx1 rx3.
Proof.
  intros (A1 & A2 & A3 & A4 & A5 & A6) (B1 & B2 & B3 & B4 & B5 & B6). split_and!; try congruence; [by etrans|].
  intros k l H1 H2. destruct (rcv_lanes rx2 !! k) as [o|] eqn:E; [|eauto].
  pose proof (prefix_lookup_Some _ _ _ _ E B1). apply (A2 k); congruence.
Qed.

(** A lane appended to the receiver's. *)
Lemma rx_ok_adopt rx k l paused :
  rx_ok rx -> length (rcv_lanes rx) = k -> lane_key l = lane_at k -> lane_rest l -> queued l = false -> fast_left l = 0 ->
  Forall (eq false) paused -> rx_ok (set_paused paused (set_lanes (rcv_lanes rx ++ [Some l]) rx)).
Proof.
  intros H Hk K1 K2 K3 K4 Hp. split; cbn; try apply H; [| |done].
  - intros j l0 Hj. apply lookup_snoc_Some in Hj as [[_ Hj]|[Ej El]]; [by apply (rx_lanes _ H)|].
    injection El as <-. subst j. rewrite Hk. destruct (rx_budget _ H). split_and!; try done; [|lia|lia].
    rewrite K3. split; [done|]. intros Hin. destruct (rx_active _ H) as [_ Hact].
    destruct (Hact _ Hin) as (i & l0 & E & Hi). apply lane_at_inj in E as <-. apply lookup_lt_Some in Hi. lia.
  - destruct (rx_active _ H) as [Hnd Hact]. split; [done|]. intros key Hin. destruct (Hact _ Hin) as (i & l0 & E & Hi).
    exists i, l0. split; [done|]. by apply lookup_app_l_Some.
Qed.

Lemma wp_lane_new F j bj p x :
  Frame 0 (Some j) F -> F x -> entry_ok j bj p x ->
  wp cguar 0 (Lane_new (lane_at j) (pl_signal p) (pl_ring p) (pl_consumer p)) (fun l y =>
    (F y /\ lane_ok j bj false l [] y) /\ lane_key l = lane_at j /\ lane_rest l /\ queued l = false /\ fast_left l = 0 /\
    cached_available l = 0) x.
Proof.
  intros HF Hx (E1 & E2 & E3 & c & E4 & Ha). unfold Lane_new. rewrite E2, E3, E4. cbn [RConsumer_capacity with_open rc_inner].
  eapply wp_call.
  - eapply (wp_ring caps np ng 0 j Consumer_capacity (fun cap a z => a = cap /\ cons cap 0 c 0 0 0 [] z) (credit bj false) F);
      [done|exact HF|exact Hx|apply credit_stable|].
    destruct Ha as (cap & hr & g & K1 & K2 & K3 & K4 & K5). exists cap, hr, g. split_and!; auto. cbn [role].
    apply wp_kept; [split; done|by eapply (co_ring _ _ _ _ (fr_cok _ _ _ _ _ _ HF _ Hx))|].
    apply wp_bind_ret. eapply (wp_Ring_capacity cap 0 1 (cons cap 0 c 0 0 0 [])); [apply ca_owned|exact K4|].
    intros z Hz. eapply wp_retP; [apply ca_owned|exact Hz|done].
  - intros a y [HFy Hay]. set (l := mkLane _ _ _ _ _ _ _ _ _ _).
    assert (Hl : (F y /\ lane_ok j bj false l [] y) /\ 0 < release_batch l).
    { destruct Hay as (cap & hr & g & K1 & K2 & K3 & [-> K4] & K5). assert (Hcap : 0 < cap) by (destruct K4 as [Hok _]; apply ok_facts in Hok; lia).
      assert (Hb : 1 <= release_batch l <= cap).
      { subst l. cbn. unfold MIN_RELEASE_BATCH. lia. }
      split; [|lia]. split; [done|]. split; [by apply (fr_cok _ _ _ _ _ _ HF)|]. exists c, 0, 0, 0. split_and!; try done.
      - split; subst l; cbn; try lia. cbn in Hb. lia.
      - exists cap, hr, g. split_and!; (done || apply Hb). }
    destruct Hl as [Hl Hb]. eapply (wp_retP _ 0 (fun y => F y /\ lane_ok j bj false l [] y)); [|exact Hl|].
    + apply stable_and; [apply HF|]. apply (lane_ok_frame caps np ng j bj false l [] None). done.
    + intros z Hz. split; [done|]. by split_and!.
Qed.

Lemma wp_adopt_pending pend b tr : forall rx x,
  rx_ok rx -> own (rcv_lanes rx) (seen_registry_generation rx) [] pend b tr x ->
  wp cguar 0 (adopt_pending pend rx) (fun rx' y =>
    own (rcv_lanes rx') (seen_registry_generation rx') [] [] b tr y /\ rx_ok rx' /\ refreshed rx rx') x.
Proof.
  induction pend as [|p pend IH]; intros rx x Hrx Hx; cbn [adopt_pending].
  { eapply (wp_retP _ 0 (own (rcv_lanes rx) (seen_registry_generation rx) [] [] b tr)); [apply own_frame|exact Hx|].
    intros y Hy. split; [done|]. split; [done|apply refreshed_refl]. }
  set (k := length (rcv_lanes rx)). assert (Hk : (k < n)%nat).
  { destruct Hx as [[_ (_ & _ & _ & E & _)] _]. cbn in E. lia. }
  assert (Hlk : rcv_lanes rx !! k = None) by (apply lookup_ge_None; lia).
  assert (He : entry_ok k (b k) p x /\ of_lane k tr = []).
  { destruct Hx as [_ Hs]. specialize (Hs k Hk). unfold slot in Hs. rewrite Hlk in Hs. destruct Hs as (Eg & q & Eq & Hq).
    fold k in Eq. rewrite Nat.sub_diag in Eq. injection Eq as <-. done. }
  destruct He as [He Eg]. pose proof He as (Ek & _). rewrite Ek. cbn [key_slot lane_at].
  unfold zlength. fold k. rewrite Z.leb_refl. replace (Z.to_nat (Z.of_nat k + 1 - Z.of_nat k)) with 1%nat by lia.
  cbn [rcv_lanes set_lanes set_paused replicate]. rewrite zlookup_of_nat, lookup_app_r by done. fold k. rewrite Nat.sub_diag. cbn [lookup list_lookup].
  eapply wp_call.
  { eapply (wp_lane_new (rest k (rcv_lanes rx) (seen_registry_generation rx) [] (p :: pend) b tr)); [apply rest_frame| |exact He].
    destruct Hx as [H1 H2]. split; [done|]. auto. }
  clear x Hx He. intros l x [[Hx Hl] (K1 & K2 & K3 & K4 & K5)].
  set (rx1 := set_lanes _ (put_paused _ _ _)).
  assert (E : rx1 = set_paused (rcv_paused rx1) (set_lanes (rcv_lanes rx ++ [Some l]) rx)).
  { subst rx1. unfold put_paused. cbn [rcv_lanes set_lanes set_paused rcv_paused].
    by rewrite zinsert_of_nat, insert_app_r_alt, Nat.sub_diag by done. }
  assert (Hp : Forall (eq false) (rcv_paused rx1)).
  { subst rx1. cbn. unfold zinsert. apply Forall_insert; [|done]. apply Forall_app. split; [apply Hrx|by apply Forall_replicate]. }
  rewrite E. clearbody rx1. set (rx2 := set_paused _ _). assert (Hrx2 : rx_ok rx2) by by apply (rx_ok_adopt rx k).
  assert (Ho : own (rcv_lanes rx2) (seen_registry_generation rx2) [] pend b tr x).
  { destruct Hx as [[Hc (R1 & R2 & R3 & R4 & R5)] Hs]. split; [split; [done|]|].
    - split_and!; try apply R5; try done; cbn in *; rewrite ?length_app; cbn; [intros E0; by specialize (R2 E0)| |lia].
      rewrite R3. f_equal. clear. induction (rcv_lanes rx) as [|[|] ls IH']; cbn in *; lia.
    - intros j Hj. unfold slot. cbn [rcv_lanes rx2 set_paused set_lanes]. destruct (decide (j = k)) as [->|Hne].
      + rewrite lookup_app_r, Nat.sub_diag by done. cbn. by rewrite K3, Eg.
      + specialize (Hs j Hj Hne). unfold slot in Hs. destruct (decide (j < k)%nat) as [Hlt|Hge].
        * rewrite lookup_app_l by done. destruct (lookup_lt_is_Some_2 (rcv_lanes rx) j Hlt) as [o Eo]. by rewrite Eo in *.
        * rewrite lookup_ge_None_2 by (rewrite length_app; cbn; lia). rewrite lookup_ge_None_2 in Hs by lia.
          destruct Hs as (Eg' & q & Eq & Hq). split; [done|]. exists q. split; [|done]. rewrite length_app. cbn.
          replace (j - length (rcv_lanes rx))%nat with (S (j - (length (rcv_lanes rx) + 1)))%nat in Eq by lia. done. }
  eapply wp_mono; [|apply (IH rx2 x Hrx2 Ho)]. intros rx' y (Hy & Hrx' & Hr). split_and!; try done.
  eapply refreshed_trans; [|exact Hr]. split_and!; try done; [by eexists|].
  intros j l0 E0 E1. cbn in E1. apply lookup_snoc_Some in E1 as [[_ E1]|[_ E1]]; [congruence|]. by injection E1 as <-.
Qed.

(** The potential of a lane: how often polling it can still come out empty. *)
Definition weight lanes b (k : nat) : nat :=
  2 * b k + match lanes !! k with
            | Some (Some l) => if cached_available l =? 0 then 1 else 0
            | Some None => 0
            | None => 1
            end.

(** The receiver after a collection: lanes were adopted or queued. *)
Definition collected rx rx' : Prop :=
  (forall b k, (weight (rcv_lanes rx') b k <= weight (rcv_lanes rx) b k)%nat) /\
  rcv_active rx `prefix_of` rcv_active rx' /\ items_until_ready_poll rx' = items_until_ready_poll rx /\
  fast_slot rx' = fast_slot rx /\ (length (rcv_groups rx) <= length (rcv_groups rx'))%nat.

Lemma collected_refl rx : collected rx rx.
Proof. by split_and!. Qed.

Lemma collected_trans rx1 rx2 rx3 : collected rx1 rx2 -> collected rx2 rx3 -> collected rx1 rx3.
Proof.
  intros (A1 & A2 & A3 & A4 & A5) (B1 & B2 & B3 & B4 & B5). split_and!; try congruence; [|by etrans|lia].
  intros b k. specialize (A1 b k). specialize (B1 b k). lia.
Qed.

Lemma refreshed_collected rx rx' : refreshed rx rx' -> collected rx rx'.
Proof.
  intros (A1 & A2 & A3 & A4 & A5 & A6). split_and!; try done; [|by rewrite A3|by rewrite A6].
  intros b k. unfold weight. destruct (rcv_lanes rx !! k) as [o|] eqn:E.
  - by rewrite (prefix_lookup_Some _ _ _ _ E A1).
  - destruct (rcv_lanes rx' !! k) as [[l|]|] eqn:E'; [|lia..]. rewrite (A2 k l E E'). cbn. lia.
Qed.

Lemma wp_refresh rx b tr x :
  chan rx b tr x ->
  wp cguar 0 (Receiver_refresh_registry rx) (fun rx' y => chan rx' b tr y /\ collected rx rx') x.
Proof.
  intros [Hrx (pend & Hx)]. unfold Receiver_refresh_registry.
  set (P := own (rcv_lanes rx) (seen_registry_generation rx) pend pend b tr) in *.
  assert (HP : stable cguar 0 P) by apply own_frame.
  eapply wp_core; [exact HP|by intros y [[Hy _] _]|exact Hx|done|]. clear x Hx. intros s g Hx Hc _. cbn [fst snd].
  destruct (Z.eqb_spec (sh_registry_generation s) (seen_registry_generation rx)) as [Egen|Egen].
  { eapply (wp_retP _ 0 P); [done|exact Hx|]. intros y Hy. split; [|apply collected_refl]. split; [done|]. by exists pend. }
  assert (HP2 : stable cguar 0 (fun y => P y /\ sh_registry_generation y.1 <> seen_registry_generation rx)).
  { apply stable_and; [done|]. intros u v Hu Hr. pose proof (rely_core u v Hr) as E. unfold core in E. by injection E as _ -> _ _ _ _. }
  eapply wp_core; [exact HP2|by intros y [[[Hy _] _] _]|by split|by split|]. clear s g Hx Hc Egen.
  intros s g [[[Hc (R1 & R2 & R3 & R4 & R5 & R6 & R7)] Hs] Egen] Hc' Hsame. cbn [fst snd] in *. rewrite R1.
  set (rx0 := set_topology _ _ _ rx). assert (Hrx0 : rx_ok rx0) by (split; cbn; try apply Hrx; try done; split; [apply R6|]; destruct R6; lia).
  eapply wp_call; [apply (wp_adopt_pending pend b tr rx0); [done|]|].
  { split; [split; [done|split_and!; (done || apply R6)]|]. intros j Hj. eapply slot_moves; [done|apply Hsame|by apply Hs]. }
  intros rx1 y (Hy & Hrx1 & Hr). set (rx2 := set_topology _ _ _ rx1).
  eapply (wp_retP _ 0 (own (rcv_lanes rx1) (seen_registry_generation rx1) [] [] b tr)); [apply own_frame|exact Hy|].
  intros z [[Hz (S1 & S2 & S3)] Hz2]. split.
  - split; [split; apply Hrx1|]. exists []. split; [|done]. split; [done|]. split_and!; done || apply S3.
  - apply refreshed_collected in Hr. destruct Hr as (H1 & H2 & H3 & H4 & H5). split_and!; try done.
    cbn in *. pose proof (rx_groups _ Hrx) as [_ ?]. destruct R6. lia.
Qed.

(** ** Collecting ready lanes *)

Lemma own_put lanes seen listed pend b tr x k l l' got tr' :
  lanes !! k = Some (Some l) -> with_lane (rest k lanes seen listed pend b tr) k (b k) (queued l') l' got x ->
  of_lane k tr' = got -> (forall j, j <> k -> of_lane j tr' = of_lane j tr) ->
  own (<[k := Some l']> lanes) seen listed pend b tr' x.
Proof.
  intros Hk H E1 E2. eapply own_ext; [|by eapply own_close; [exact Hk|exact H|..]].
  intros j. destruct (decide (j = k)) as [->|]; [by rewrite fn_lookup_insert|by rewrite fn_lookup_insert_ne].
Qed.

(** Joining the rotation. *)
Lemma wp_queue_lane rx b tr k l x :
  chan rx b tr x -> rcv_lanes rx !! k = Some (Some l) ->
  wp cguar 0 (let* pending := on_index (LaneSignal_is_pending (lane_signal l)) in
              if pending && negb (queued l) then
                Ret (set_active (rcv_active rx ++ [lane_key l]) (put_lane (set_queued true l) rx))
              else Ret rx) (fun rx' y => chan rx' b tr y /\ collected rx rx') x.
Proof.
  intros [Hrx (pend & Hx)] Hk. destruct (rx_lanes _ Hrx k l Hk) as (K1 & _). pose proof (lookup_lt_Some _ _ _ Hk) as Hlt.
  apply (own_open _ _ _ _ _ _ _ k l) in Hx; [|done].
  eapply (wp_lane_signal caps np ng _ k (b k) (queued l) l _ _ _ (fun _ => b k) (fun r => r || queued l));
    [apply rest_frame|exact Hx|done| |].
  { intros sg m [C1 C2]. cbn. split; [done|]. destruct (Z.eqb_spec (signal_state sg) IDLE) as [E|E]; [exact C2|done]. }
  intros pending y Hy. destruct (pending && negb (queued l)) eqn:E.
  - apply andb_true_iff in E as [-> Eq]. apply negb_true_iff in Eq. rewrite Eq in Hy. cbn [orb] in Hy.
    assert (Hy' : with_lane (rest k (rcv_lanes rx) (seen_registry_generation rx) pend pend b tr) k (b k) true
      (set_queued true l) (of_lane k tr) y).
    { eapply with_lane_counters; [exact Hy|done|done|]. intros w held []. by split. }
    eapply own_put in Hy'; [|done..]. rewrite K1. set (rx' := set_active _ _).
    assert (El : rcv_lanes rx' = <[k := Some (set_queued true l)]> (rcv_lanes rx)).
    { subst rx'. cbn [rcv_lanes set_active]. by rewrite (put_lane_at k). }
    assert (Hc : chan rx' b tr y).
    { split; [by apply rx_ok_queue|]. exists pend. by rewrite El. }
    eapply wp_ret_chan; [exact Hc|]. intros z Hz. split; [done|]. split_and!; try done.
    + intros b0 j. unfold weight. rewrite El. destruct (decide (j = k)) as [->|].
      * rewrite list_lookup_insert_eq, Hk by done. cbn. lia.
      * by rewrite list_lookup_insert_ne.
    + by eexists.
  - assert (Hy' : with_lane (rest k (rcv_lanes rx) (seen_registry_generation rx) pend pend b tr) k (b k) (queued l) l (of_lane k tr) y).
    { destruct pending, (queued l); try done. }
    assert (Hc : chan rx b tr y) by (split; [done|]; exists pend; by eapply own_same).
    eapply wp_ret_chan; [exact Hc|]. intros z Hz. split; [done|apply collected_refl].
Qed.

Lemma wp_collect_lanes page fuel : forall bits rx b tr x,
  (fuel <= 64)%nat -> is_u64 bits -> (forall i, 0 <= i < 64 - Z.of_nat fuel -> Z.testbit bits i = false) ->
  chan rx b tr x ->
  wp cguar 0 (collect_lanes fuel page bits rx) (fun rx' y => chan rx' b tr y /\ collected rx rx') x.
Proof.
  induction fuel as [|fuel IH]; intros bits rx b tr x Hf Hb Hlow Hx; cbn [collect_lanes].
  { rewrite (u64_zero bits Hb) by (intros; apply Hlow; lia). cbn.
    eapply wp_ret_chan; [exact Hx|]. intros y Hy. split; [done|apply collected_refl]. }
  destruct (Z.eqb_spec bits 0) as [|Hne].
  { eapply wp_ret_chan; [exact Hx|]. intros y Hy. split; [done|apply collected_refl]. }
  destruct (trailing_zeros_spec bits Hb Hne) as (T1 & T2 & T3).
  assert (Ht : 64 - Z.of_nat (S fuel) <= trailing_zeros bits).
  { apply Z.le_ngt. intros Hlt. rewrite Hlow in T2 by lia. done. }
  destruct (clear_lowest bits _ Hb (proj1 T1) T2 T3) as [Hb' Hlow'].
  assert (Hnext : forall i, 0 <= i < 64 - Z.of_nat fuel -> Z.testbit (Z.land bits (bits - 1)) i = false).
  { intros i Hi. apply Hlow'. lia. }
  set (slot_id := page * LANES_PER_PAGE + _). unfold get_lane.
  destruct (zlookup (rcv_lanes rx) slot_id) as [[lane|]|] eqn:El; [|apply IH; (done || lia)..].
  pose proof (zlookup_Some_range _ _ _ El) as Hr. replace slot_id with (Z.of_nat (Z.to_nat slot_id)) in El by lia.
  rewrite zlookup_of_nat in El. rewrite (not_paused rx) by apply Hx.
  eapply wp_call; [by eapply (wp_queue_lane rx b tr _ lane)|]. intros rx1 y [Hy Hc].
  eapply wp_mono; [|apply (IH (Z.land bits (bits - 1))); (done || lia)].
  intros rx2 z [Hz Hc2]. split; [done|]. by eapply collected_trans.
Qed.

Lemma wp_chan_index {A B} rx b tr (q : prog ready_store A) R (c : A -> prog (Shared T) B) Q x :
  index_post caps np ng q R -> chan rx b tr x -> (forall a y, chan rx b tr y -> R a -> wp cguar 0 (c a) Q y) ->
  wp cguar 0 (bind (on_index q) c) Q x.
Proof.
  intros Hq Hx Hk. eapply wp_call; [eapply wp_index; [apply chan_frame|exact Hq|exact Hx]|]. intros a y [Hy Ha]. auto.
Qed.

Lemma wp_collect_pages group fuel : forall bits rx b tr x,
  (fuel <= 64)%nat -> is_u64 bits -> (forall i, 0 <= i < 64 - Z.of_nat fuel -> Z.testbit bits i = false) ->
  chan rx b tr x ->
  wp cguar 0 (collect_pages fuel group bits rx) (fun rx' y => chan rx' b tr y /\ collected rx rx') x.
Proof.
  induction fuel as [|fuel IH]; intros bits rx b tr x Hf Hb Hlow Hx; cbn [collect_pages].
  { rewrite (u64_zero bits Hb) by (intros; apply Hlow; lia). cbn.
    eapply wp_ret_chan; [exact Hx|]. intros y Hy. split; [done|apply collected_refl]. }
  destruct (Z.eqb_spec bits 0) as [|Hne].
  { eapply wp_ret_chan; [exact Hx|]. intros y Hy. split; [done|apply collected_refl]. }
  destruct (trailing_zeros_spec bits Hb Hne) as (T1 & T2 & T3).
  assert (Ht : 64 - Z.of_nat (S fuel) <= trailing_zeros bits).
  { apply Z.le_ngt. intros Hlt. rewrite Hlow in T2 by lia. done. }
  destruct (clear_lowest bits _ Hb (proj1 T1) T2 T3) as [Hb' Hlow'].
  assert (Hnext : forall i, 0 <= i < 64 - Z.of_nat fuel -> Z.testbit (Z.land bits (bits - 1)) i = false).
  { intros i Hi. apply Hlow'. lia. }
  eapply wp_call; [eapply wp_refresh, Hx|]. clear x Hx. intros rx1 x [Hx C1].
  assert (Hrest : forall rx2 y, chan rx2 b tr y -> collected rx rx2 ->
    wp cguar 0 (collect_pages fuel group (Z.land bits (bits - 1)) rx2) (fun rx' y => chan rx' b tr y /\ collected rx rx') y).
  { intros rx2 y Hy C2. eapply wp_mono; [|apply (IH (Z.land bits (bits - 1))); (done || lia)].
    intros rx3 z [Hz C3]. split; [done|]. by eapply collected_trans. }
  destruct (zlookup (rcv_pages rx1) _) as [page|] eqn:Ep; [|by apply Hrest].
  apply (zlookup_Forall (fun h => 0 <= h < Z.of_nat np)) in Ep; [|apply Hx].
  eapply (wp_chan_index rx1 b tr _ is_u64); [|exact Hx|].
  { apply index_on_page; [done|]. intros p H1 H2 H3. by split_and!; try apply H2. }
  clear x Hx. intros lane_bits x Hx Hlb. eapply wp_call; [eapply wp_refresh, Hx|]. clear x Hx. intros rx2 x [Hx C2].
  eapply wp_call; [eapply (wp_collect_lanes _ 64); [lia|exact Hlb|lia|exact Hx]|]. clear x Hx. intros rx3 x [Hx C3].
  apply Hrest; [done|]. eapply collected_trans; [exact C1|]. by eapply collected_trans.
Qed.

Lemma collected_cursor rx c : collected rx (set_group_cursor c rx).
Proof. by split_and!. Qed.

Lemma chan_cursor rx b tr c x : 0 <= c -> chan rx b tr x -> chan (set_group_cursor c rx) b tr x.
Proof. intros Hc [H Ho]. split; [split; cbn; try apply H; done|exact Ho]. Qed.

(** The groups the scan goes over stay although lanes are adopted meanwhile. *)
Lemma wp_collect_groups all count m : forall next rx b tr x,
  0 <= next -> count <= zlength (rcv_groups rx) -> (m = O \/ 0 < count) -> chan rx b tr x ->
  wp cguar 0 (collect_groups m count next all rx) (fun rx' y => chan rx' b tr y /\ collected rx rx') x.
Proof.
  induction m as [|m IH]; intros next rx b tr x Hnext Hcount Hm Hx; cbn [collect_groups].
  { eapply wp_ret_chan; [exact Hx|]. intros y Hy. split; [done|apply collected_refl]. }
  destruct Hm as [|Hm]; [done|]. set (group := if _ <? _ then _ else _).
  assert (Hg : 0 <= group < count) by (subst group; destruct (Z.ltb_spec next count); lia).
  destruct (zlookup_is_Some (rcv_groups rx) group) as [g Eg]; [lia|]. rewrite Eg.
  apply (zlookup_Forall (fun h => 0 <= h < Z.of_nat ng)) in Eg; [|apply Hx].
  eapply (wp_chan_index rx b tr _ (fun _ => True)); [|exact Hx|].
  { apply index_on_group; [done|]. by intros. }
  clear x Hx. intros ready x Hx _. destruct ready; cbn [negb]; [|apply IH; auto; lia].
  eapply (wp_chan_index rx b tr _ is_u64); [|exact Hx|].
  { apply index_on_group; [done|]. intros gr H. by split. }
  clear x Hx. intros bits x Hx Hb. destruct (bits =? 0); [apply IH; auto; lia|].
  eapply wp_call; [eapply (wp_collect_pages _ 64); [lia|exact Hb|lia|exact Hx]|]. clear x Hx. intros rx1 x [Hx C1].
  assert (Hx' : chan (set_group_cursor (group + 1) rx1) b tr x) by (apply chan_cursor; [lia|done]).
  assert (C2 : collected rx (set_group_cursor (group + 1) rx1)) by (eapply collected_trans; [exact C1|apply collected_cursor]).
  destruct all; cbn [negb].
  - eapply wp_mono; [|apply (IH (group + 1) _ b tr x); [lia| |auto|exact Hx']].
    + intros rx2 y [Hy C3]. split; [done|]. by eapply collected_trans.
    + destruct C2 as (_ & _ & _ & _ & C2). unfold zlength in *. lia.
  - eapply wp_ret_chan; [exact Hx'|]. by split.
Qed.

Lemma wp_collect_ready all rx b tr x :
  chan rx b tr x -> wp cguar 0 (Receiver_collect_ready all rx) (fun rx' y => chan rx' b tr y /\ collected rx rx') x.
Proof.
  intros Hx. unfold Receiver_collect_ready. eapply wp_call; [eapply wp_refresh, Hx|]. clear x Hx. intros rx1 x [Hx C1].
  eapply wp_mono; [|apply (wp_collect_groups all _ _ _ rx1 b tr x); [apply Hx|done| |exact Hx]].
  - intros rx2 y [Hy C2]. split; [done|]. by eapply collected_trans.
  - unfold zlength. lia.
Qed.

(** ** Retiring lanes *)

Lemma wp_close_ring cap c got (z : Ring T * ghost T) :
  (exists ct ph h, cons cap 0 c ct ph h got z) -> closed_ok z -> ended got z ->
  wp (guarc cap) 1 (Consumer_close c) (fun _ z => (exists ct ph h, cons cap 0 c ct ph h got z) /\ ended got z) z.
Proof.
  intros (ct & ph & h & Ha) Hc He.
  assert (Hw : wp (guarc cap) 1 (Consumer_close c) (fun _ => cons cap 0 c ct h h got) z).
  { apply wp_kept; [auto with fanring|done|]. by apply wp_consumer_close with (ph := ph). }
  eapply wp_mono; [|eapply (wp_inv _ 1 (ended got)); [|exact He|exact Hw]].
  - intros u y [Hy Hey]. split; [by exists ct, h, h|done].
  - intros j u v Hu Hg. destruct j as [|[|]]; [by eapply ended_guarc; [|exact Hu|exact Hg]; lia..|by destruct Hg].
Qed.

(** Dropping the consumer of a lane that is finished. *)
Lemma wp_drop_lane F k bk p l got x :
  Frame 0 (Some k) F -> with_lane F k bk p l got x -> finished k got x ->
  wp cguar 0 (on_lane_ring (lane_ring l) (RConsumer_drop Deferred (lane_consumer l))) (fun _ y => F y /\ finished k got y) x.
Proof.
  intros HF [Hx [Hc (c & ct & ph & h & H1 & H1' & H2 & H3 & H4)]] Hf. rewrite H1.
  replace (lane_consumer l) with (mkRConsumer (Some c)) by (destruct (lane_consumer l); cbn in *; by subst).
  unfold RConsumer_drop, RConsumer_close. cbn [rc_inner COORDINATED]. unfold on_lane_ring in *. apply wp_focus_bind.
  assert (Hstep : forall y, F y -> at_lane k (fun cap z _ _ => ((exists ct ph h, cons cap 0 c ct ph h got z) /\ ended got z) /\ True) y ->
    wp cguar 0 (on_lane_ring (Z.of_nat k) (on_hring (Consumer_close c)))
      (fun _ y => F y /\ at_lane k (fun cap z _ _ => ((exists ct ph h, cons cap 0 c ct ph h got z) /\ ended got z) /\ True) y) y).
  { intros y Hy Ha. eapply (wp_ring caps np ng 0 k (Consumer_close c)
      (fun cap _ z => (exists ct ph h, cons cap 0 c ct ph h got z) /\ ended got z) (fun _ _ => True)); [done|done|done|done|].
    destruct Ha as (cap & hr & g & K1 & K2 & K3 & [K4 K5] & _). exists cap, hr, g. split_and!; auto.
    apply wp_close_ring; [done| |done]. by eapply (co_ring _ _ _ _ (fr_cok _ _ _ _ _ _ HF _ Hy)). }
  eapply wp_call; [apply wp_focus_bind; eapply wp_call; [apply Hstep; [exact Hx|]|]|].
  - destruct H4 as (cap & hr & g & K1 & K2 & K3 & [_ K4] & _). destruct Hf as (cap' & hr' & g' & L1 & L2 & L3 & L4).
    simplify_eq. exists cap, hr, g. split_and!; eauto; apply L4.
  - intros u y [Hy1 Hy2]. by apply Hstep.
  - intros u y [Hy1 (cap & hr & g & K1 & K2 & K3 & [_ K4] & _)].
    eapply (wp_retP _ 0 (fun y => F y /\ finished k got y)); [|split; [exact Hy1|by exists cap, hr, g]|done].
    apply stable_and; [apply HF|apply finished_stable].
Qed.

Lemma wp_retire_lane rx k l pend b tr x :
  rcv_lanes rx !! k = Some (Some l) -> lane_key l = lane_at k ->
  own (rcv_lanes rx) (seen_registry_generation rx) pend pend b tr x -> finished k (of_lane k tr) x ->
  wp cguar 0 (Receiver_retire_lane Deferred (lane_at k) rx) (fun rx' y =>
    rx' = put_paused (Z.of_nat k) false (set_lanes (<[k := None]> (rcv_lanes rx)) rx) /\
    own (<[k := None]> (rcv_lanes rx)) (seen_registry_generation rx) pend pend b tr y) x.
Proof.
  intros Hk Ek Hx Hf. unfold Receiver_retire_lane. cbn [key_slot lane_at]. rewrite get_lane_at, Hk, Ek.
  unfold LaneKey_eqb. cbn [key_slot key_generation lane_at]. rewrite !Z.eqb_refl. cbn [andb negb].
  pose proof (lookup_lt_Some _ _ _ Hk) as Hlt. apply (own_open _ _ _ _ _ _ _ k l) in Hx; [|done].
  set (P0 := with_lane (rest k (rcv_lanes rx) (seen_registry_generation rx) pend pend b tr) k (b k) (queued l) l (of_lane k tr)) in *.
  set (P1 := with_lane (rest k (<[k := None]> (rcv_lanes rx)) (seen_registry_generation rx) pend pend b tr) k (b k) (queued l) l (of_lane k tr)).
  assert (HP : forall F, Frame 0 (Some k) F -> stable cguar 0 (fun y =>
    with_lane F k (b k) (queued l) l (of_lane k tr) y /\ finished k (of_lane k tr) y)).
  { intros F HF. apply stable_and; [apply (with_lane_frame caps np ng F k), HF|apply finished_stable]. }
  assert (Hmove : forall (y y' : cst T), cok y' -> (forall j, same_at j y y') ->
    lane_ok k (b k) (queued l) l (of_lane k tr) y -> finished k (of_lane k tr) y ->
    lane_ok k (b k) (queued l) l (of_lane k tr) y' /\ finished k (of_lane k tr) y').
  { intros y y' Hc Hs Hl Hfi. destruct (Hs k) as (E1 & E2 & E3). split.
    - destruct Hl as [_ (c & ct & ph & h & L1 & L2 & L3 & L4 & cap & hr & g & L5)]. split; [done|]. exists c, ct, ph, h.
      split_and!; auto. exists cap, hr, g. by rewrite E1, E2, E3.
    - destruct Hfi as (cap & hr & g & L5). exists cap, hr, g. by rewrite E1, E2. }
  eapply (wp_core _ _ (fun y => P0 y /\ finished k (of_lane k tr) y)); [apply HP, rest_frame|by intros y [[[[Hy _] _] _] _]|by split|done|]. clear x Hx Hf.
  intros s g [[[[Hc (R1 & R2 & R3 & R4 & R5)] Hs] Hl] Hfi] Hc' Hsame. cbn [fst snd] in *.
  destruct (Hmove _ _ Hc' Hsame Hl Hfi) as [Hl' Hfi'].
  assert (E3 : wrapping_sub (sh_registered_lanes s) 1 = Z.of_nat (live (<[k := None]> (rcv_lanes rx)) + length pend)).
  { pose proof (live_retire _ _ _ Hk) as El. pose proof (live_le (rcv_lanes rx)). destruct R5 as [R5 _].
    rewrite R3, <- El. unfold wrapping_sub. rewrite wrap_small; [lia|split; [lia|]]. assert (Z.of_nat (length (rcv_lanes rx) + length pend) < usize_mod) by (rewrite R4; exact R5). lia. }
  eapply (wp_core _ _ (fun y => P1 y /\ finished k (of_lane k tr) y)); [apply HP, rest_frame|by intros y [[[[Hy _] _] _] _]| |by split|].
  { split; [|done]. split; [|done]. split; [split; [done|]|].
    - unfold regs. rewrite length_insert. split_and!; (done || apply R5 || exact E3).
    - intros j Hj Hne. eapply slot_moves; [done|apply Hsame|].
      eapply slot_ext; [| | | |by apply Hs]; [by rewrite list_lookup_insert_ne|apply length_insert|done|done]. }
  clear s g Hc R1 R2 R3 R4 R5 Hs Hl Hfi Hc' Hsame Hl' Hfi' E3.
  intros s g [[[[Hc (R1 & R2 & R3 & R4 & R5)] Hs] Hl] Hfi] Hc' Hsame. cbn [fst snd] in *.
  destruct (Hmove _ _ Hc' Hsame Hl Hfi) as [Hl' Hfi'].
  eapply wp_call; [eapply (wp_drop_lane _ k (b k) (queued l) l (of_lane k tr)); [apply (rest_frame k (<[k := None]> (rcv_lanes rx)) (seen_registry_generation rx) pend pend b tr)| |done]|].
  { split; [|done]. split; [split; [done|]|].
    - unfold Registry_retire_lane. destruct (checked_add _ _); by split_and!; try apply R5.
    - intros j Hj Hne. eapply slot_moves; [done|apply Hsame|by apply Hs]. }
  intros u y [[Hr Hs'] Hfy].
  assert (Ho : own (<[k := None]> (rcv_lanes rx)) (seen_registry_generation rx) pend pend b tr y).
  { split; [done|]. intros j Hj. destruct (decide (j = k)) as [->|Hne]; [|by apply Hs']. unfold slot. by rewrite list_lookup_insert_eq. }
  eapply (wp_retP _ 0 (own _ _ _ _ _ _)); [apply own_frame|exact Ho|]. intros z Hz. split; [|done].
  by rewrite <- zinsert_of_nat.
Qed.

(** ** Disconnection *)

Lemma no_paused_lanes m rx : rx_ok rx -> forall i, retire_paused_from (T := T) Deferred m i rx = Ret rx.
Proof.
  intros H. induction m as [|m IH]; intros i; cbn [retire_paused_from]; [done|].
  rewrite (not_paused rx) by done. destruct (get_lane i rx); cbn [bind]; apply IH.
Qed.

Definition all_finished tr (x : cst T) : Prop := forall k, (k < n)%nat -> finished k (of_lane k tr) x.

Lemma live_0 lanes k : live lanes = 0%nat -> (k < length lanes)%nat -> lanes !! k = Some None.
Proof.
  revert k. induction lanes as [|[l|] lanes IH]; intros [|k] E Hk; cbn in *; try lia; [done|]. apply IH; [done|lia].
Qed.

Lemma own_drained lanes seen listed pend b tr x :
  own lanes seen listed pend b tr x -> sh_registered_lanes x.1 = 0 -> all_finished tr x.
Proof.
  intros [[Hc (R1 & R2 & R3 & R4 & R5)] Hs] E k Hk. specialize (Hs k Hk). rewrite E in R3.
  destruct pend; [|cbn in *; lia]. cbn in R4. unfold slot in Hs. rewrite live_0 in Hs; [done|lia|lia].
Qed.

Lemma finished_guar i k got x y : finished k got x -> cguar i x y -> finished k got y.
Proof.
  intros (cap & hr & g & K1 & K2 & K3 & K4) Hg. destruct (cok_ring caps np ng y k cap) as (hr' & g' & L1 & L2 & _); [apply Hg|done|].
  exists cap, hr', g'. do 3 (split; [done|]). destruct Hg as [_ Hg]. destruct i as [|i].
  - destruct (Hg k cap hr g hr' g' K1 K2 K3 L1 L2) as [Hst _]. eapply ended_guarc; [|exact K4|exact Hst]. lia.
  - destruct Hg as (_ & Hst & Hsame). destruct (decide (k = i)) as [->|Hne].
    + destruct (Hst cap hr g hr' g' K1 K2 K3 L1 L2) as [Hst' _]. eapply ended_guarc; [|exact K4|exact Hst']. lia.
    + destruct (Hsame k Hne) as (E1 & E2 & _). rewrite E1, K2 in L1. rewrite E2, K3 in L2. simplify_eq. apply K4.
Qed.

Lemma all_finished_stable tr : stable cguar 0 (all_finished tr).
Proof. intros x y H Hr k Hk. eapply finished_stable; [by apply H|exact Hr]. Qed.

Lemma wp_is_drained rx b tr x :
  chan rx b tr x ->
  wp cguar 0 (Receiver_is_drained Deferred rx) (fun r y => r.2 = rx /\ chan rx b tr y /\ (r.1 = true -> all_finished tr y)) x.
Proof.
  intros Hx. unfold Receiver_is_drained, Receiver_is_disconnected.
  eapply wp_chan_inert; [|exact Hx|].
  { apply inert_bind; [apply inert_load|]. by intros. }
  clear x Hx. intros d x Hx. destruct d; cbn [negb].
  2:{ eapply wp_ret_chan; [exact Hx|]. intros y Hy. by split_and!. }
  eapply wp_chan_inert; [apply inert_load|exact Hx|]. clear x Hx. intros m x Hx.
  assert (E : (if negb (m =? 0) then Receiver_retire_empty_paused_lanes Deferred rx else Ret rx) = Ret (S := Shared T) rx).
  { destruct (negb _); [|done]. apply no_paused_lanes, Hx. }
  rewrite E. cbn [bind]. clear E m. destruct Hx as [Hrx (pend & Hx)].
  eapply (wp_core _ _ (own (rcv_lanes rx) (seen_registry_generation rx) pend pend b tr)); [apply own_frame|by intros y [[Hy _] _]|exact Hx|done|].
  clear x Hx. intros s g Hx _ _. cbn [fst snd]. destruct (Z.eqb_spec (sh_registered_lanes s) 0) as [E|E].
  - eapply (wp_retP _ 0 (fun y => own (rcv_lanes rx) (seen_registry_generation rx) pend pend b tr y /\ all_finished tr y)).
    + apply stable_and; [apply own_frame|apply all_finished_stable].
    + split; [done|]. by eapply own_drained.
    + intros y [Hy Hf]. split; [done|]. split; [|done]. split; [done|by exists pend].
  - eapply (wp_retP _ 0 (own (rcv_lanes rx) (seen_registry_generation rx) pend pend b tr)); [apply own_frame|exact Hx|].
    intros y Hy. split; [done|]. split; [|done]. split; [done|by exists pend].
Qed.

End recv.
