(* ===== verification/MpscRecvLoop.v ===== *)
(** * Receives of the MPSC channel under every interleaving

    The single receives of [src/src/mpsc/receiver.rs] on top of MpscRecvConc:
    whatever the senders do meanwhile, they end without a panic within a number
    of rounds that the senders' remaining sends bound, append what they return
    to the trace, and report a disconnected channel only when every lane is
    closed and everything sent has been received. *)

From stdpp Require Import functions.
From S2P Require Import Prelude Prog Config Wait Ready YRing YRingInv YRingSpec YRingThm YRingConc YRingClose Handoff MpscLane MpscLaneInv Mpsc MpscConc MpscLaneConc MpscRecvConc.
Local Open Scope prog_scope.

(** The sum of [f] below [m]. *)
Fixpoint tally (f : nat -> nat) (m : nat) : nat :=
  match m with O => O | S m' => tally f m' + f m' end.

Lemma tally_le f g m : (forall k, (k < m)%nat -> (f k <= g k)%nat) -> (tally f m <= tally g m)%nat.
Proof. induction m as [|m IH]; intros H; cbn; [lia|]. pose proof (H m ltac:(lia)). pose proof (IH ltac:(auto)). lia. Qed.

Lemma tally_lt f g m j : (j < m)%nat -> (forall k, (k < m)%nat -> (f k <= g k)%nat) -> (f j < g j)%nat ->
  (tally f m < tally g m)%nat.
Proof.
  induction m as [|m IH]; intros Hj H Hlt; cbn; [lia|]. destruct (decide (j = m)) as [->|].
  - pose proof (tally_le f g m ltac:(auto)). lia.
  - pose proof (H m ltac:(lia)). pose proof (IH ltac:(lia) ltac:(auto) Hlt). lia.
Qed.

Section loop.
Context {T : Type} (caps : list Z) (np ng : nat).
Implicit Types (s : Shared T) (l : Lane) (rx : Receiver) (tr : list (nat * T)) (b : nat -> nat).
#[local] Abbreviation cok := (cok (T := T) caps np ng).
#[local] Abbreviation cguar := (cguar (T := T) caps np ng).
#[local] Abbreviation Frame := (Frame (T := T) caps np ng).
#[local] Abbreviation with_lane := (with_lane (T := T) caps np ng).
#[local] Abbreviation finished := (finished (T := T) caps).
#[local] Abbreviation chan := (chan (T := T) caps np ng).
#[local] Abbreviation own := (own (T := T) caps np ng).
#[local] Abbreviation rest := (rest (T := T) caps np ng).
#[local] Abbreviation rx_ok := (rx_ok np ng).
#[local] Abbreviation all_finished := (all_finished (T := T) caps).
#[local] Abbreviation n := (length caps).

(** The potential of the receiver: it bounds the rounds of a receive. *)
Definition pot rx b : nat := tally (weight (rcv_lanes rx) b) n.

(** Fewer credits. *)
Definition spent b b' : Prop := forall k, (b' k <= b k)%nat.

Lemma spent_refl b : spent b b.
Proof. by intros k. Qed.
Lemma spent_trans b1 b2 b3 : spent b1 b2 -> spent b2 b3 -> spent b1 b3.
Proof. intros H1 H2 k. specialize (H1 k). specialize (H2 k). lia. Qed.

Lemma collected_pot rx rx' b : collected rx rx' -> (pot rx' b <= pot rx b)%nat.
Proof. intros (H & _). apply tally_le. auto. Qed.

(** A bound for the potential that depends on the credits only. *)
Lemma pot_bound rx b : (pot rx b <= tally (fun k => 2 * b k + 1) n)%nat.
Proof. apply tally_le. intros k _. unfold weight. destruct (_ !! k) as [[l|]|]; [destruct (_ =? _)|..]; lia. Qed.

Lemma chan_budget rx b tr m x :
  items_until_ready_poll rx <= m -> 0 < m <= READY_POLL_INTERVAL -> chan rx b tr x -> chan (set_poll_budget m rx) b tr x.
Proof.
  intros H1 H2 [H Ho]. split; [|exact Ho]. split; cbn; try apply H; [|lia].
  intros k l Hk. destruct (rx_lanes _ _ _ H k l Hk) as (K1 & K2 & K3 & K4 & K5). split_and!; auto. lia.
Qed.

Lemma wp_notify_released key rx b tr x :
  chan rx b tr x -> wp cguar 0 (Receiver_notify_released key rx) (fun _ => chan rx b tr) x.
Proof.
  intros Hx. unfold Receiver_notify_released. destruct key as [key|]; [|by eapply wp_ret_chan].
  unfold get_lane_key, get_lane. destruct (zlookup (rcv_lanes rx) (key_slot key)) as [[l|]|] eqn:E; [|by eapply wp_ret_chan..].
  destruct (LaneKey_eqb _ _); [|by eapply wp_ret_chan].
  pose proof (zlookup_Some_range _ _ _ E) as Hr. replace (key_slot key) with (Z.of_nat (Z.to_nat (key_slot key))) in E by lia.
  rewrite zlookup_of_nat in E. set (k := Z.to_nat (key_slot key)) in *. clearbody k.
  assert (Es : (k < n)%nat /\ lane_signal l = Z.of_nat k).
  { destruct Hx as [_ (pend & Ho)]. apply (own_open _ _ _ _ _ _ _ _ _ _ k l) in Ho; [|done].
    by apply with_lane_key in Ho as (? & ? & _). }
  destruct Es as [Hk ->]. eapply wp_inert; [apply chan_frame|by eapply inert_index, index_notify_space|exact Hx].
Qed.

Section output.
Context {Item : Type} (item : Z -> LaneKey -> T -> Item).

(** ** One attempt *)

(** The first part of a round: it ends the attempt, or there is a lane to poll
    and budget to charge. *)
Lemma wp_round_start rx b tr x :
  chan rx b tr x ->
  wp cguar 0 (match rcv_active rx with
              | [] => let* rx := Receiver_collect_ready true rx in
                      match rcv_active rx with
                      | [] => let* '(d, rx) := Receiver_is_drained Deferred rx in Ret (Some (empty_error d), rx)
                      | _ => Ret (None, rx)
                      end
              | _ => if items_until_ready_poll rx =? 0 then
                       let* rx := Receiver_collect_ready false rx in
                       Ret (None, set_poll_budget READY_POLL_INTERVAL rx)
                     else Ret (None, rx)
              end)
    (fun r y => chan r.2 b tr y /\ (pot r.2 b <= pot rx b)%nat /\
       match r.1 with
       | Some e => e = TryRecv_Disconnected -> all_finished tr y
       | None => rcv_active r.2 <> [] /\ 0 < items_until_ready_poll r.2
       end) x.
Proof.
  intros Hx. pose proof Hx as [Hrx _]. destruct (rx_budget _ _ _ Hrx) as [Hb1 Hb2]. destruct (rcv_active rx) as [|key act] eqn:Ea.
  - eapply wp_call; [eapply wp_collect_ready, Hx|]. clear x Hx. intros rx1 x [Hx C]. pose proof (collected_pot _ _ b C) as Hp.
    destruct (rcv_active rx1) as [|key act] eqn:Ea1.
    + eapply wp_call; [eapply wp_is_drained, Hx|]. clear x Hx. intros [d rx2] x (E & Hx & Hf). cbn [fst snd] in *. subst rx2.
      eapply (wp_retP _ 0 (fun y => chan rx1 b tr y /\ (d = true -> all_finished tr y))); [|by split|].
      * apply stable_and; [apply chan_frame|]. intros u v Hu Hr Hd. eapply all_finished_stable; [by apply Hu|exact Hr].
      * intros y [Hy Hfy]. cbn. split_and!; [apply Hy..|done|]. destruct d; [auto|done].
    + eapply wp_ret_chan; [exact Hx|]. intros y Hy. cbn. split_and!; [apply Hy..|done|by rewrite Ea1|].
      destruct C as (_ & _ & -> & _). auto.
  - destruct (Z.eqb_spec (items_until_ready_poll rx) 0) as [E0|E0].
    + eapply wp_call; [eapply wp_collect_ready, Hx|]. clear x Hx. intros rx1 x [Hx C]. pose proof (collected_pot _ _ b C) as Hp.
      destruct C as (_ & [act' C] & Eb & _). rewrite Ea in C.
      assert (Hx' : chan (set_poll_budget READY_POLL_INTERVAL rx1) b tr x).
      { apply chan_budget; [rewrite Eb, E0|..]; done. }
      eapply wp_ret_chan; [exact Hx'|]. intros y Hy. cbn. split_and!; [apply Hy..|done| |done]. by rewrite C.
    + eapply wp_ret_chan; [exact Hx|]. intros y Hy. cbn. split_and!; [apply Hy..|done|by rewrite Ea|lia].
Qed.

(** What polling the front lane [k] leaves. *)
Definition polled rx k (l l' : Lane) pend b tr (r : LanePoll T) (y : cst T) : Prop :=
  let lanes := <[k := Some l']> (rcv_lanes rx) in
  let seen := seen_registry_generation rx in
  match r with
  | PollItem v _ _ => own lanes seen pend pend b (tr ++ [(k, v)]) y
  | PollKeep _ => own lanes seen pend pend b tr y
  | PollIdle d _ => own lanes seen pend pend (<[k := (b k - 1)%nat]> b) tr y /\ (d = true -> finished k (of_lane k tr) y)
  | PollStale => False
  end.

Definition poll_lane_ok b k (l l' : Lane) (r : LanePoll T) : Prop :=
  same_lane l l' /\ lane_rest l' /\ fast_left l' = 0 /\
  match r with
  | PollItem _ _ _ => queued l' = true
  | PollKeep _ => queued l' = true /\ cached_available l = 0 /\ 0 < cached_available l'
  | PollIdle _ _ => queued l' = false /\ (0 < b k)%nat
  | PollStale => False
  end.

Lemma polled_stable rx k l l' pend b tr r : stable cguar 0 (polled rx k l l' pend b tr r).
Proof.
  destruct r; cbn; [apply own_frame..| |by intros u v []].
  apply stable_and; [apply own_frame|]. intros u v Hu Hr Hd. eapply finished_stable; [by apply Hu|exact Hr].
Qed.

Lemma of_lane_snoc k j (v : T) tr : of_lane j (tr ++ [(k, v)]) = of_lane j tr ++ (if decide (j = k) then [v] else []).
Proof.
  rewrite of_lane_app. f_equal. change [(k, v)] with (pair k <$> [v]). destruct (decide (j = k)) as [->|];
    [apply of_lane_same|by apply of_lane_other].
Qed.

Lemma wp_poll_front FAIR rx k rest0 b tr x :
  chan rx b tr x -> rcv_active rx = lane_at k :: rest0 ->
  wp cguar 0 (Receiver_poll_lane FAIR (lane_at k) (set_active rest0 rx)) (fun r y => exists l l' pend,
    rcv_lanes rx !! k = Some (Some l) /\ r.2 = set_lanes (<[k := Some l']> (rcv_lanes rx)) (set_active rest0 rx) /\
    poll_lane_ok b k l l' r.1 /\ polled rx k l l' pend b tr r.1 y) x.
Proof.
  intros [Hrx (pend & Hx)] Ea. destruct (rx_active _ _ _ Hrx) as [_ Hact].
  destruct (Hact (lane_at k)) as (j & l & Ej & Hk); [rewrite Ea; by left|]. apply lane_at_inj in Ej as <-.
  destruct (rx_lanes _ _ _ Hrx k l Hk) as (K1 & K2 & K3 & _).
  assert (Hq : queued l = true) by (apply K3; rewrite Ea; by left).
  unfold Receiver_poll_lane. rewrite (get_key_at k l) by done.
  apply (own_open _ _ _ _ _ _ _ _ _ _ k l) in Hx; [|done]. rewrite Hq in Hx.
  eapply wp_call; [eapply wp_poll; [apply rest_frame|exact Hx|done|done]|]. clear x Hx.
  intros [r l'] x (S1 & R1 & Hx). cbn [fst snd] in *.
  assert (Hfl : fast_left l' = 0) by (destruct r; [apply Hx..|done]).
  assert (Hp : polled rx k l l' pend b tr r x /\ poll_lane_ok b k l l' r).
  { destruct r as [v rot rel|rel|d rel|]; cbn in Hx; [| | |done]; cbn.
    - destruct Hx as (Hx & Hq' & _). split; [|done]. eapply own_put; [exact Hk|by rewrite Hq'|..].
      + rewrite of_lane_snoc. by rewrite decide_True.
      + intros j Hj. rewrite of_lane_snoc, decide_False by done. by rewrite app_nil_r.
    - destruct Hx as ((Hx & Hc & Hq') & _ & Hc0 & _). split; [|done]. eapply own_put; [exact Hk|by rewrite Hq'|done..].
    - destruct Hx as ((Hb & (Hx & Hf) & Hq') & _). split; [|done]. split; [|done].
      eapply own_close; [exact Hk|by rewrite Hq'|done..]. }
  destruct Hp as [Hp Hl]. rewrite (put_lane_at k) by (destruct S1; congruence).
  eapply wp_retP; [apply (polled_stable rx k l l' pend b tr r)|exact Hp|]. intros y Hy. by exists l, l', pend.
Qed.

(** What an attempt that began with [rx] leaves. *)
Definition attempt rx b tr (r : result Item TryRecvError) (released : option LaneKey) rx' (y : cst T) : Prop :=
  exists b' tr', spent b b' /\ chan rx' b' tr' y /\
    match r with
    | Ok it => exists k v id, (k < n)%nat /\ it = item id (lane_at k) v /\ tr' = tr ++ [(k, v)]
    | Err e => tr' = tr /\ (e = TryRecv_Disconnected -> all_finished tr y) /\
               (is_Some released -> (pot rx' b' < pot rx b)%nat)
    end.

Lemma attempt_mono rx rx2 b b2 tr r released rx' y :
  spent b b2 -> (pot rx2 b2 <= pot rx b)%nat -> attempt rx2 b2 tr r released rx' y -> attempt rx b tr r released rx' y.
Proof.
  intros Hs Hp (b' & tr' & H1 & H2 & H3). exists b', tr'. split; [by eapply spent_trans|]. split; [done|].
  destruct r as [it|e]; [done|]. destruct H3 as (E & Hd & Hr). split_and!; auto. intros Hi. specialize (Hr Hi). lia.
Qed.

Lemma wp_charge {B} rx (c : Receiver -> prog (Shared T) B) Q x :
  0 < items_until_ready_poll rx -> wp cguar 0 (c (set_poll_budget (items_until_ready_poll rx - 1) rx)) Q x ->
  wp cguar 0 (bind (charge_poll_budget rx) c) Q x.
Proof. intros H Hw. unfold charge_poll_budget. by rewrite usub_ret by lia. Qed.

Lemma wp_item {B} rx b tr key v (c : Item -> prog (Shared T) B) Q x :
  chan rx b tr x -> (forall id y, chan rx b tr y -> wp cguar 0 (c (item id key v)) Q y) ->
  wp cguar 0 (bind (output_item item key v) c) Q x.
Proof.
  intros Hx Hk. eapply (wp_call _ _ _ _ (fun it y => exists id, it = item id key v /\ chan rx b tr y)).
  - eapply wp_chan_inert; [apply inert_load|exact Hx|]. intros id y Hy. eapply wp_ret_chan; [exact Hy|]. eauto.
  - intros it y (id & -> & Hy). by apply Hk.
Qed.

(** The receiver after the front lane yielded or kept its place, went idle, or
    was retired. *)
Lemma front_kept rx k l l' rest0 pend b tr act m x :
  rx_ok rx -> rcv_active rx = lane_at k :: rest0 -> rcv_lanes rx !! k = Some (Some l) ->
  same_lane l l' -> lane_rest l' -> fast_left l' = 0 -> queued l' = true -> act ≡ₚ lane_at k :: rest0 -> 0 <= m <= READY_POLL_INTERVAL ->
  own (<[k := Some l']> (rcv_lanes rx)) (seen_registry_generation rx) pend pend b tr x ->
  chan (set_poll_budget m (set_active act (set_lanes (<[k := Some l']> (rcv_lanes rx)) (set_active rest0 rx)))) b tr x.
Proof.
  intros Hrx Ea Hk S1 R1 F1 Q1 Hact Hm Ho. split; [|by exists pend].
  eapply (rx_ok_front _ _ rx _ k l l' rest0); try done; cbn; try lia; [by left|].
  intros E. rewrite E in Hact. by apply Permutation_nil_cons in Hact.
Qed.

Lemma front_idle rx k l l' rest0 pend b tr x :
  rx_ok rx -> rcv_active rx = lane_at k :: rest0 -> rcv_lanes rx !! k = Some (Some l) ->
  same_lane l l' -> lane_rest l' -> fast_left l' = 0 -> queued l' = false -> 0 < items_until_ready_poll rx ->
  own (<[k := Some l']> (rcv_lanes rx)) (seen_registry_generation rx) pend pend b tr x ->
  chan (set_lanes (<[k := Some l']> (rcv_lanes rx)) (set_active rest0 rx)) b tr x.
Proof.
  intros Hrx Ea Hk S1 R1 F1 Q1 Hm Ho. split; [|by exists pend]. destruct (rx_budget _ _ _ Hrx) as [Hb _].
  eapply (rx_ok_front _ _ rx _ k l l' rest0); try done; cbn; try lia. by right.
Qed.

Lemma front_retired rx k l rest0 pend b tr x :
  rx_ok rx -> rcv_active rx = lane_at k :: rest0 -> rcv_lanes rx !! k = Some (Some l) -> 0 < items_until_ready_poll rx ->
  own (<[k := None]> (rcv_lanes rx)) (seen_registry_generation rx) pend pend b tr x ->
  chan (put_paused (Z.of_nat k) false (set_lanes (<[k := None]> (rcv_lanes rx)) (set_active rest0 rx))) b tr x.
Proof.
  intros Hrx Ea Hk Hm Ho. split; [|by exists pend].
  assert (H : rx_ok (set_lanes (<[k := None]> (rcv_lanes rx)) (set_active rest0 rx))).
  { by eapply (rx_ok_retire _ _ rx _ k l rest0). }
  split; try apply H. cbn. unfold zinsert. apply Forall_insert; [apply Hrx|done].
Qed.

(** How the potential goes down. *)
Lemma pot_less rx rx' b b' k :
  (k < n)%nat -> (forall j, j <> k -> rcv_lanes rx' !! j = rcv_lanes rx !! j) -> (forall j, j <> k -> b' j = b j) ->
  (weight (rcv_lanes rx') b' k < weight (rcv_lanes rx) b k)%nat -> (pot rx' b' < pot rx b)%nat.
Proof.
  intros Hk H1 H2 Hlt. apply (tally_lt _ _ _ k); [done| |done]. intros j Hj. destruct (decide (j = k)) as [->|Hne]; [lia|].
  unfold weight. rewrite H1, H2 by done. lia.
Qed.

(** A round after which the attempt goes on, or returns [Empty] to have
    released slots announced. *)
Lemma attempt_empty rx b tr key rx2 b2 y :
  spent b b2 -> (pot rx2 b2 < pot rx b)%nat -> chan rx2 b2 tr y -> attempt rx b tr (Err TryRecv_Empty) (Some key) rx2 y.
Proof. intros Hs Hp Hy. exists b2, tr. by split_and!. Qed.

Lemma spent_insert b k m : (m <= b k)%nat -> spent b (<[k := m]> b).
Proof. intros H j. destruct (decide (j = k)) as [->|]; [by rewrite fn_lookup_insert|by rewrite fn_lookup_insert_ne]. Qed.

(** The weights around a poll of lane [k]. *)
Lemma weight_keep rx b k l l' :
  rcv_lanes rx !! k = Some (Some l) -> cached_available l = 0 -> 0 < cached_available l' ->
  (weight (<[k := Some l']> (rcv_lanes rx)) b k < weight (rcv_lanes rx) b k)%nat.
Proof.
  intros Hk C0 C1. unfold weight. rewrite list_lookup_insert_eq by (by eapply lookup_lt_Some). rewrite Hk, C0. cbn.
  destruct (Z.eqb_spec (cached_available l') 0); lia.
Qed.

Lemma weight_idle rx b k o o' :
  rcv_lanes rx !! k = Some o -> (0 < b k)%nat ->
  (weight (<[k := o']> (rcv_lanes rx)) (<[k := (b k - 1)%nat]> b) k < weight (rcv_lanes rx) b k)%nat.
Proof.
  intros Hk Hb. unfold weight. rewrite list_lookup_insert_eq by (by eapply lookup_lt_Some). rewrite Hk, fn_lookup_insert.
  destruct o' as [l'|]; [destruct (_ =? _)|]; lia.
Qed.

Lemma wp_try_recv_inner FAIR fuel : forall rx b tr x,
  chan rx b tr x -> (pot rx b < fuel)%nat ->
  wp cguar 0 (Receiver_try_recv_inner Deferred item FAIR fuel rx) (fun r y => attempt rx b tr r.1.1 r.1.2 r.2 y) x.
Proof.
  induction fuel as [|fuel IH]; intros rx0 b tr x Hx Hf; [lia|]. cbn [Receiver_try_recv_inner].
  eapply wp_call; [eapply wp_round_start, Hx|]. clear x Hx. intros [stop rx] x (Hx & Hp & Hstop). cbn [fst snd] in *.
  destruct stop as [e|].
  { eapply (wp_retP _ 0 (fun y => chan rx b tr y /\ (e = TryRecv_Disconnected -> all_finished tr y))); [|by split|].
    - apply stable_and; [apply chan_frame|]. intros u v Hu Hr He. eapply all_finished_stable; [by apply Hu|exact Hr].
    - intros y [Hy Hd]. exists b, tr. split; [apply spent_refl|]. split; [done|]. split_and!; auto. by intros []. }
  destruct Hstop as [Hne Hbud]. destruct (rcv_active rx) as [|key rest0] eqn:Ea; [done|].
  pose proof Hx as [Hrx (pend0 & Ho0)]. destruct (rx_active _ _ _ Hrx) as [_ Hact].
  destruct (Hact key) as (k & l0 & -> & Hk0); [rewrite Ea; by left|]. destruct (rx_budget _ _ _ Hrx) as [Hb64 _]. pose proof (own_lt _ _ _ _ _ _ _ _ _ _ _ _ Ho0 Hk0) as Hlt.
  eapply wp_call; [eapply wp_poll_front; [exact Hx|exact Ea]|]. clear x Hx pend0 Ho0.
  intros [poll rx1] x (l & l' & pend & Hk & E1 & (S1 & R1 & F1 & Hl) & Hx). cbn [fst snd] in *. subst rx1.
  rewrite Hk in Hk0. injection Hk0 as <-.
  set (lanes' := <[k := Some l']> (rcv_lanes rx)) in *. set (rx1 := set_lanes lanes' (set_active rest0 rx)).
  assert (Hother : forall rx2, rcv_lanes rx2 = lanes' -> forall j, j <> k -> rcv_lanes rx2 !! j = rcv_lanes rx !! j).
  { intros rx2 E j Hj. rewrite E. subst lanes'. by rewrite list_lookup_insert_ne. }
  destruct poll as [v rot rel|rel|d rel|]; [| | |done].
  - cbn in Hx. set (act := if rot then _ else _).
    assert (Hact' : act ≡ₚ lane_at k :: rest0) by (subst act; destruct rot; [by rewrite Permutation_app_comm|done]).
    apply wp_charge; [done|]. cbn [items_until_ready_poll rcv_active rx1 set_lanes set_active].
    set (rx2 := set_poll_budget _ _). assert (Hx2 : chan rx2 b (tr ++ [(k, v)]) x).
    { eapply front_kept; (done || lia). }
    eapply wp_item; [exact Hx2|]. intros id y Hy. eapply wp_ret_chan; [exact Hy|]. intros z Hz. cbn [fst snd].
    exists b, (tr ++ [(k, v)]). split; [apply spent_refl|]. split; [done|]. by exists k, v, id.
  - cbn in Hx. destruct Hl as (Q1 & C0 & C1). set (rx2 := set_active _ rx1).
    assert (Hx2 : chan rx2 b tr x).
    { assert (Hx3 : chan (set_poll_budget (items_until_ready_poll rx) (set_active (rest0 ++ [lane_at k]) rx1)) b tr x).
      { eapply front_kept; (done || lia || idtac). by rewrite Permutation_app_comm. }
      exact Hx3. }
    assert (Hpot : (pot rx2 b < pot rx b)%nat) by (eapply (pot_less rx rx2 b b k); [done|by apply Hother|done|by eapply weight_keep]).
    destruct rel.
    + eapply wp_ret_chan; [exact Hx2|]. intros y Hy. apply (attempt_empty rx0 b tr _ rx2 b y); [apply spent_refl|lia|done].
    + eapply wp_mono; [|apply (IH rx2 b tr x Hx2); lia]. intros r y. apply attempt_mono; [apply spent_refl|lia].
  - cbn in Hx. destruct Hx as [Hx Hfin]. destruct Hl as (Q1 & Hb). set (b2 := <[k := (b k - 1)%nat]> b) in *.
    assert (Hs : spent b b2) by (apply spent_insert; lia).
    assert (Hb2 : forall j, j <> k -> b2 j = b j) by (intros j Hj; subst b2; by rewrite fn_lookup_insert_ne).
    destruct d.
    + eapply wp_call.
      { eapply (wp_retire_lane _ _ _ rx1 k l' pend b2 tr x); [|destruct (rx_lanes _ _ _ Hrx k l Hk) as (K1 & _), S1; congruence|exact Hx|by apply Hfin].
        cbn. subst lanes'. rewrite list_lookup_insert_eq; [done|by eapply lookup_lt_Some]. }
      clear x Hx Hfin. intros rx2 x [-> Hx]. cbn [rcv_lanes rx1 set_lanes set_active seen_registry_generation] in Hx.
      subst lanes'. cbn [rcv_lanes rx1 set_lanes set_active]. rewrite list_insert_insert_eq in *.
      set (rx2 := put_paused _ _ _). assert (Hx2 : chan rx2 b2 tr x) by (by eapply (front_retired rx)).
      assert (Hpot : (pot rx2 b2 < pot rx b)%nat).
      { eapply (pot_less rx rx2 b b2 k); [done| |done|by eapply weight_idle]. intros j Hj. cbn. by rewrite list_lookup_insert_ne. }
      eapply wp_mono; [|apply (IH rx2 b2 tr x Hx2); lia]. intros r y. apply attempt_mono; [done|lia].
    + assert (Hx2 : chan rx1 b2 tr x) by (by eapply (front_idle rx)).
      assert (Hpot : (pot rx1 b2 < pot rx b)%nat) by (eapply (pot_less rx rx1 b b2 k); [done|by apply Hother|done|by eapply weight_idle]).
      destruct rel.
      * eapply wp_ret_chan; [exact Hx2|]. intros y Hy. apply (attempt_empty rx0 b tr _ rx1 b2 y); [done|lia|done].
      * eapply wp_mono; [|apply (IH rx1 b2 tr x Hx2); lia]. intros r y. apply attempt_mono; [done|lia].
Qed.

(** ** The receives *)

Definition received b tr (r : result Item TryRecvError) rx' (y : cst T) : Prop :=
  exists b' tr', spent b b' /\ chan rx' b' tr' y /\
    match r with
    | Ok it => exists k v id, (k < n)%nat /\ it = item id (lane_at k) v /\ tr' = tr ++ [(k, v)]
    | Err e => tr' = tr /\ (e = TryRecv_Disconnected -> all_finished tr y)
    end.

Lemma received_mono b b2 tr r rx' y : spent b b2 -> received b2 tr r rx' y -> received b tr r rx' y.
Proof. intros Hs (b' & tr' & H1 & H). exists b', tr'. split; [by eapply spent_trans|done]. Qed.

Lemma wp_recv_retry FAIR inner fuel : forall rx b tr x,
  chan rx b tr x -> (pot rx b < fuel)%nat -> (pot rx b < inner)%nat ->
  wp cguar 0 (Receiver_recv_retry Deferred item FAIR fuel inner rx) (fun r y => received b tr r.1 r.2 y) x.
Proof.
  induction fuel as [|fuel IH]; intros rx b tr x Hx Hf Hi; [lia|]. cbn [Receiver_recv_retry].
  eapply wp_call; [apply wp_try_recv_inner; [exact Hx|exact Hi]|]. clear x Hx.
  intros [[r released] rx1] x (b' & tr' & Hs & Hx & Hr). cbn [fst snd] in *.
  assert (Hn : wp cguar 0 (Receiver_notify_released released rx1) (fun _ y => chan rx1 b' tr' y /\
    (r = Err TryRecv_Disconnected -> all_finished tr y)) x).
  { assert (Hd : r = Err TryRecv_Disconnected \/ r <> Err TryRecv_Disconnected) by (destruct r as [it|[]]; auto).
    destruct Hd as [->|Hne].
    - destruct Hr as (-> & Hd & _). specialize (Hd eq_refl).
      eapply wp_mono; [|eapply (wp_inv _ 0 (all_finished tr)); [|exact Hd|eapply wp_notify_released, Hx]].
      + intros u y [Hy Hfy]. by split.
      + intros j u v Hu Hg k Hk. by eapply finished_guar; [apply Hu|exact Hg].
    - eapply wp_mono; [|eapply wp_notify_released, Hx]. intros u y Hy. by split. }
  assert (Hr' : match r with
    | Ok it => exists k v id, (k < n)%nat /\ it = item id (lane_at k) v /\ tr' = tr ++ [(k, v)]
    | Err e => tr' = tr /\ (is_Some released -> (pot rx1 b' < pot rx b)%nat) end) by (destruct r; [done|]; by destruct Hr as (? & _ & ?)).
  eapply wp_call; [exact Hn|]. clear Hr x Hx Hn. rename Hr' into Hr. intros u x [Hx Hd].
  assert (Hret : match released, r with Some _, Err TryRecv_Empty => false | _, _ => true end = true ->
    wp cguar 0 (Ret (r, rx1)) (fun r y => received b tr r.1 r.2 y) x).
  { intros _. eapply (wp_retP _ 0 (fun y => chan rx1 b' tr' y /\ (r = Err TryRecv_Disconnected -> all_finished tr y))); [|by split|].
    - apply stable_and; [apply chan_frame|]. intros p q Hp Hpq He. eapply all_finished_stable; [by apply Hp|exact Hpq].
    - intros y [Hy Hfy]. exists b', tr'. split; [done|]. split; [done|]. cbn. destruct r as [it|e]; [done|].
      destruct Hr as (E & _). split; [done|]. intros ->. auto. }
  destruct released as [key|]; [|by apply Hret]. destruct r as [it|[]]; [by apply Hret| |by apply Hret].
  destruct Hr as (-> & Hp). specialize (Hp ltac:(eauto)).
  eapply wp_mono; [|apply (IH rx1 b' tr x Hx); lia]. intros r y. by apply received_mono.
Qed.

Lemma received_item b tr k v id rx y :
  (k < n)%nat -> chan rx b (tr ++ [(k, v)]) y -> received b tr (Ok (item id (lane_at k) v)) rx y.
Proof. intros Hk H. exists b, (tr ++ [(k, v)]). split; [apply spent_refl|]. split; [done|]. by exists k, v, id. Qed.

(** The receiver after it took from the fast window of the front lane, or
    found it empty. *)
Lemma front_taken rx rx' k l l' rest0 pend b tr x :
  rx_ok rx -> rcv_active rx = lane_at k :: rest0 -> rcv_lanes rx !! k = Some (Some l) ->
  rcv_lanes rx' = <[k := Some l']> (rcv_lanes rx) -> rcv_active rx' = rcv_active rx -> same_topology rx rx' ->
  same_lane l l' -> lane_rest l' -> queued l' = true -> fast_left l' <= items_until_ready_poll rx' ->
  0 <= items_until_ready_poll rx' <= READY_POLL_INTERVAL -> (fast_slot rx' = Z.of_nat k \/ fast_left l' = 0) ->
  own (<[k := Some l']> (rcv_lanes rx)) (seen_registry_generation rx) pend pend b tr x -> chan rx' b tr x.
Proof.
  intros Hrx Ea Hk El Eact Ht S1 R1 Q1 Hf Hm Hs Ho. split.
  - eapply (rx_ok_front _ _ rx rx' k l l' rest0); try done; rewrite ?Eact, ?Ea; [by left|done|].
    intros Hp. destruct Hs as [Hs|Hs]; [done|lia].
  - exists pend. rewrite El. by destruct Ht as (_ & _ & _ & _ & ->).
Qed.

(** Popping the fast window of the front lane. *)
Lemma wp_pop_front lanes seen pend k l l1 bud b tr x :
  lanes !! k = Some (Some l) -> with_lane (rest k lanes seen pend pend b tr) k (b k) true l1 (of_lane k tr) x ->
  same_lane l l1 -> lane_rest l1 -> queued l1 = true -> fast_left l1 <= bud ->
  wp cguar 0 (Lane_pop_fast l1) (fun r y =>
    own (<[k := Some r.2]> lanes) seen pend pend b (tr ++ (pair k <$> option_list r.1)) y /\
    same_lane l r.2 /\ lane_rest r.2 /\ queued r.2 = true /\
    match r.1 with Some _ => 0 < bud /\ fast_left r.2 <= bud - 1 | None => r.2 = l1 /\ fast_left r.2 = 0 end) x.
Proof.
  intros Hk Hx S1 [R1 R2] Q1 Hf. eapply wp_mono; [|eapply wp_pop_fast; [apply rest_frame|exact Hx]].
  intros [o l2] y (Hy & S2 & B2 & U2 & Q2 & F2). cbn [fst snd] in *. destruct (with_lane_nums _ _ _ _ _ _ _ _ _ _ Hy) as (w & held & Hn). destruct Hn.
  pose proof S2 as (_ & _ & _ & Eb).
  assert (S3 : same_lane l l2) by (destruct S1 as (? & ? & ? & ?), S2 as (? & ? & ? & ?); split_and!; congruence).
  assert (R3 : lane_rest l2) by (split; [by rewrite B2|by rewrite U2, Eb]).
  split; [|split; [done|split; [done|split; [congruence|]]]].
  - eapply own_put; [exact Hk|by rewrite Q2, Q1| |].
    + by rewrite of_lane_app, of_lane_same.
    + intros j Hj. rewrite of_lane_app, of_lane_other by done. by rewrite app_nil_r.
  - destruct o; [lia|]. by destruct F2 as [-> ?].
Qed.

Definition bound b : nat := tally (fun k => 2 * b k + 1)%nat n.

(** The lane in front of the rotation. *)
Lemma chan_front rx b tr key rest0 x :
  chan rx b tr x -> rcv_active rx = key :: rest0 ->
  exists k l pend, key = lane_at k /\ rcv_lanes rx !! k = Some (Some l) /\ get_lane_key key rx = Some l /\
    lane_key l = lane_at k /\ lane_rest l /\ queued l = true /\ fast_left l <= items_until_ready_poll rx /\
    with_lane (rest k (rcv_lanes rx) (seen_registry_generation rx) pend pend b tr) k (b k) true l (of_lane k tr) x.
Proof.
  intros [Hrx (pend & Ho)] Ea. destruct (rx_active _ _ _ Hrx) as [_ Hact].
  destruct (Hact key) as (k & l & -> & Hk); [rewrite Ea; by left|]. destruct (rx_lanes _ _ _ Hrx k l Hk) as (K1 & K2 & K3 & K4 & _).
  assert (Hq : queued l = true) by (apply K3; rewrite Ea; by left). exists k, l, pend. split_and!; try done; try apply K2.
  - by apply get_key_at.
  - rewrite <- Hq. by apply own_open.
Qed.

(** The fast path of a refill, and of a fair receive with one active lane. *)
Definition fast_ok b tr (o : option Item) rx' (y : cst T) : Prop :=
  match o with
  | Some it => exists k v id, (k < n)%nat /\ it = item id (lane_at k) v /\ chan rx' b (tr ++ [(k, v)]) y
  | None => chan rx' b tr y
  end.

Lemma wp_fast_result rx k l l1 rest0 pend b tr (o : option T) x :
  rx_ok rx -> rcv_active rx = lane_at k :: rest0 -> rcv_lanes rx !! k = Some (Some l) ->
  own (<[k := Some l1]> (rcv_lanes rx)) (seen_registry_generation rx) pend pend b (tr ++ (pair k <$> option_list o)) x ->
  same_lane l l1 -> lane_rest l1 -> queued l1 = true -> lane_key l1 = lane_at k ->
  match o with Some _ => 0 < items_until_ready_poll rx /\ fast_left l1 <= items_until_ready_poll rx - 1 | None => fast_left l1 = 0 end ->
  wp cguar 0 (let rx := put_lane l1 rx in
              match o with
              | None => Ret (None, rx)
              | Some value =>
                  let* rx := charge_poll_budget rx in
                  let* it := output_item item (lane_at k) value in
                  Ret (Some it, set_fast_slot (key_slot (lane_at k)) rx)
              end) (fun r y => fast_ok b tr r.1 r.2 y) x.
Proof.
  intros Hrx Ea Hk Ho S1 R1 Q1 K1 Hf. destruct (rx_budget _ _ _ Hrx) as [Hb64 _]. rewrite (put_lane_at k) by done.
  assert (Hkn : (k < n)%nat).
  { eapply own_lt; [exact Ho|]. apply list_lookup_insert_eq. by eapply lookup_lt_Some. }
  destruct o as [v|]; cbn [option_list] in *.
  - destruct Hf as [Hb Hf]. apply wp_charge; [done|]. set (rx1 := set_poll_budget _ _).
    assert (Hx : chan (set_fast_slot (Z.of_nat k) rx1) b (tr ++ [(k, v)]) x).
    { eapply (front_taken rx _ k l l1 rest0); try done; [cbn; lia|by left]. }
    set (rx2 := set_fast_slot (Z.of_nat k) rx1) in *.
    eapply wp_item; [exact Hx|]. intros id y Hy. eapply wp_ret_chan; [exact Hy|]. intros z Hz. by exists k, v, id.
  - rewrite app_nil_r in Ho. assert (Hx : chan (set_lanes (<[k := Some l1]> (rcv_lanes rx)) rx) b tr x).
    { eapply (front_taken rx _ k l l1 rest0); try done; [cbn; lia|by right]. }
    eapply wp_ret_chan; [exact Hx|]. by intros z Hz.
Qed.

Lemma wp_try_recv_refill fuel rx b tr x :
  chan rx b tr x -> (bound b < fuel)%nat ->
  wp cguar 0 (Receiver_try_recv_refill Deferred item fuel rx) (fun r y => received b tr r.1 r.2 y) x.
Proof.
  intros Hx Hfuel. unfold Receiver_try_recv_refill.
  eapply (wp_call _ _ _ _ (fun rx1 y => chan rx1 b tr y)).
  { destruct (_ && _) eqn:E; [|by eapply wp_ret_chan].
    eapply wp_call; [eapply wp_collect_ready, Hx|]. intros rx1 y [Hy (_ & _ & Eb & _)].
    apply andb_true_iff in E as [E _]. apply Z.eqb_eq in E.
    assert (Hy' : chan (set_poll_budget READY_POLL_INTERVAL rx1) b tr y) by (apply chan_budget; [rewrite Eb, E|..]; done).
    by eapply wp_ret_chan. }
  clear rx x Hx. intros rx x Hx. eapply (wp_call _ _ _ _ (fun r y => fast_ok b tr r.1 r.2 y)).
  - destruct (rcv_active rx) as [|key rest0] eqn:Ea; [by eapply wp_ret_chan|].
    destruct (chan_front rx b tr key rest0 x Hx Ea) as (k & l & pend & -> & Hk & Eg & K1 & K2 & Q1 & K3 & Hl). rewrite Eg.
    pose proof Hx as [Hrx _]. destruct (rx_budget _ _ _ Hrx) as [Hb _].
    eapply wp_call; [eapply wp_grant_fast; [apply rest_frame|exact Hl|done|lia]|]. clear x Hx Hl.
    intros l1 x (Hl & S1 & R1 & F1 & Q2).
    eapply wp_call; [eapply (wp_pop_front (rcv_lanes rx) _ pend k l l1 (items_until_ready_poll rx)); [done|exact Hl|done|done|congruence|done]|].
    intros [o l2] y (Ho & S2 & R2 & Q3 & Hr). cbn [fst snd] in *.
    eapply (wp_fast_result rx k l l2 rest0 pend); try done; [destruct S2; congruence|]. destruct o; [done|apply Hr].
  - clear x Hx. intros [[it|] rx1] x Hx; cbn [fst snd fast_ok] in Hx.
    + destruct Hx as (k & v & id & Hkn & -> & Hx). eapply wp_ret_chan; [exact Hx|]. intros y Hy. by apply received_item.
    + pose proof (pot_bound rx1 b). eapply wp_recv_retry; [exact Hx|unfold bound in *; lia..].
Qed.

Lemma wp_try_recv_output fuel rx b tr x :
  chan rx b tr x -> (bound b < fuel)%nat ->
  wp cguar 0 (Receiver_try_recv_output Deferred item fuel rx) (fun r y => received b tr r.1 r.2 y) x.
Proof.
  intros Hx Hfuel. unfold Receiver_try_recv_output. eapply (wp_call _ _ _ _ (fun r y => fast_ok b tr r.1 r.2 y)).
  - unfold get_lane. destruct (zlookup (rcv_lanes rx) (fast_slot rx)) as [[l|]|] eqn:El; [|by eapply wp_ret_chan..].
    pose proof (zlookup_Some_range _ _ _ El) as Hr. set (k := Z.to_nat (fast_slot rx)).
    assert (Es : fast_slot rx = Z.of_nat k) by (subst k; lia). rewrite Es, zlookup_of_nat in El. clearbody k.
    pose proof Hx as [Hrx _]. destruct (rx_lanes _ _ _ Hrx k l El) as (K1 & K2 & K3 & K4 & K5). destruct (rx_budget _ _ _ Hrx) as [Hb _].
    destruct (Z.eq_dec (fast_left l) 0) as [F0|F0].
    { unfold Lane_pop_fast. rewrite (proj2 (Z.eqb_eq _ _) F0). by eapply wp_ret_chan. }
    destruct (Z.lt_ge_cases 0 (fast_left l)) as [Hpos|Hneg].
    2:{ exfalso. destruct Hx as [_ (pend & Ho)]. apply (own_open _ _ _ _ _ _ _ _ _ _ k l) in Ho; [|done].
        destruct (with_lane_nums _ _ _ _ _ _ _ _ _ _ Ho) as (w & held & Hn). destruct Hn. lia. }
    destruct (K5 Hpos) as [_ Hhd]. destruct (rcv_active rx) as [|key rest0] eqn:Ea; [done|]. injection Hhd as ->.
    destruct (chan_front rx b tr _ rest0 x Hx Ea) as (k' & l' & pend & Ek & Hk & _ & _ & _ & Q1 & _ & Hl).
    apply lane_at_inj in Ek as <-. rewrite El in Hk. injection Hk as <-.
    eapply wp_call; [eapply (wp_pop_front (rcv_lanes rx) _ pend k l l (items_until_ready_poll rx)); [done|exact Hl|done|done|done|done]|].
    assert (Hkn : (k < n)%nat) by (destruct Hx as [_ (pend0 & Ho0)]; by eapply own_lt).
    clear x Hx Hl. intros [o l2] x (Ho & S2 & R2 & Q3 & Hres). cbn [fst snd] in *. destruct o as [v|].
    + destruct Hres as [Hb1 Hf]. assert (K1' : lane_key l2 = lane_at k) by (destruct S2; congruence).
      rewrite (put_lane_at k), K1' by done. apply wp_charge; [done|]. set (rx1 := set_poll_budget _ _).
      assert (Hx : chan rx1 b (tr ++ [(k, v)]) x).
      { eapply (front_taken rx _ k l l2 rest0); try done; [cbn; lia|by left]. }
      eapply wp_item; [exact Hx|]. intros id y Hy. eapply wp_ret_chan; [exact Hy|]. intros z Hz. by exists k, v, id.
    + destruct Hres as [-> ?]. lia.
  - clear x Hx. intros [[it|] rx1] x Hx; cbn [fst snd fast_ok] in Hx.
    + destruct Hx as (k & v & id & Hkn & -> & Hx). eapply wp_ret_chan; [exact Hx|]. intros y Hy. by apply received_item.
    + by apply wp_try_recv_refill.
Qed.

Lemma wp_any_ready groups : forall rx b tr x,
  Forall (fun h => 0 <= h < Z.of_nat ng) groups -> chan rx b tr x ->
  wp cguar 0 (any_ready groups) (fun _ => chan rx b tr) x.
Proof.
  induction groups as [|g groups IH]; intros rx b tr x Hg Hx; cbn [any_ready]; [by eapply wp_ret_chan|].
  apply Forall_cons in Hg as [Hg Hgs]. eapply (wp_chan_index _ _ _ rx b tr _ (fun _ => True)); [|exact Hx|].
  { apply index_on_group; [done|]. by intros. }
  intros [] y Hy _; [by eapply wp_ret_chan|by apply IH].
Qed.

Lemma wp_try_recv_fair_output fuel rx b tr x :
  chan rx b tr x -> (bound b < fuel)%nat ->
  wp cguar 0 (Receiver_try_recv_fair_output Deferred item fuel rx) (fun r y => received b tr r.1 r.2 y) x.
Proof.
  intros Hx Hfuel. unfold Receiver_try_recv_fair_output.
  eapply wp_chan_inert; [apply inert_load|exact Hx|]. clear x Hx. intros gen x Hx.
  eapply (wp_call _ _ _ _ (fun _ y => chan rx b tr y)).
  { destruct (negb _); [by eapply wp_ret_chan|]. apply wp_any_ready; [apply Hx|exact Hx]. }
  clear x Hx. intros due x Hx. eapply (wp_call _ _ _ _ (fun rx1 y => chan rx1 b tr y)).
  { destruct due; [|by eapply wp_ret_chan]. eapply wp_mono; [|eapply wp_collect_ready, Hx]. by intros rx1 y [Hy _]. }
  clear rx x Hx. intros rx0 x Hx. pose proof Hx as [Hrx0 _]. destruct (rx_budget _ _ _ Hrx0) as [Hb0 _].
  assert (Hfl : forall k l, rcv_lanes rx0 !! k = Some (Some l) -> fast_left l <= READY_POLL_INTERVAL).
  { intros k l Hk. destruct (rx_lanes _ _ _ Hrx0 k l Hk) as (_ & _ & _ & K & _). lia. }
  apply (chan_budget _ _ _ READY_POLL_INTERVAL) in Hx; [|lia|done]. set (rx := set_poll_budget _ rx0) in *.
  eapply (wp_call _ _ _ _ (fun r y => fast_ok b tr r.1 r.2 y)).
  - destruct (rcv_active rx) as [|key [|]] eqn:Ea; [by eapply wp_ret_chan| |by eapply wp_ret_chan].
    destruct (chan_front rx b tr key [] x Hx Ea) as (k & l & pend & -> & Hk & Eg & K1 & K2 & Q1 & K3 & Hl). rewrite Eg.
    pose proof Hx as [Hrx _]. specialize (Hfl k l Hk).
    eapply wp_call; [eapply wp_pop_fair; [apply rest_frame|exact Hl|done|done]|]. clear x Hx Hl.
    intros [o l1] x (Hx & S1 & R1 & Q2 & Hs & Hn). cbn [fst snd] in *.
    assert (Ho : own (<[k := Some l1]> (rcv_lanes rx)) (seen_registry_generation rx) pend pend b (tr ++ (pair k <$> option_list o)) x).
    { eapply own_put; [exact Hk|by rewrite Q2, Q1| |].
      - by rewrite of_lane_app, of_lane_same.
      - intros j Hj. rewrite of_lane_app, of_lane_other by done. by rewrite app_nil_r. }
    eapply (wp_fast_result rx k l l1 [] pend); try done; [congruence|destruct S1; congruence|].
    destruct o; [|auto]. specialize (Hs ltac:(eauto)). change (items_until_ready_poll rx) with READY_POLL_INTERVAL in *. unfold READY_POLL_INTERVAL in *. lia.
  - clear x Hx. intros [[it|] rx1] x Hx; cbn [fst snd fast_ok] in Hx.
    + destruct Hx as (k & v & id & Hkn & -> & Hx). eapply wp_ret_chan; [exact Hx|]. intros y Hy. by apply received_item.
    + pose proof (pot_bound rx1 b). eapply wp_recv_retry; [exact Hx|unfold bound in *; lia..].
Qed.

End output.
(** ** Releasing consumed slots *)

(** A lane after its consumed slots were released. *)
Definition lane_released (o o' : option Lane) : Prop :=
  match o, o' with
  | Some l, Some l' => same_lane l l' /\ lane_rest l' /\ queued l' = queued l /\ fast_left l' = 0
  | None, None => True
  | _, _ => False
  end.

Lemma wp_release_lanes seen pend b tr todo : forall before x,
  Forall (fun o => match o with Some l => lane_rest l | None => True end) todo ->
  own (before ++ todo) seen pend pend b tr x ->
  wp cguar 0 (release_lanes todo) (fun ls y => own (before ++ ls) seen pend pend b tr y /\ Forall2 lane_released todo ls) x.
Proof.
  induction todo as [|o todo IH]; intros before x Hr Hx; cbn [release_lanes].
  { eapply wp_retP; [apply (own_frame caps np ng (before ++ []))|exact Hx|]. intros y Hy. by split. }
  apply Forall_cons in Hr as [Ho Hr].
  assert (Hnext : forall o' y, lane_released o o' -> own (before ++ o' :: todo) seen pend pend b tr y ->
    wp cguar 0 (let* ls := release_lanes todo in Ret (o' :: ls)) (fun ls y => own (before ++ ls) seen pend pend b tr y /\
      Forall2 lane_released (o :: todo) ls) y).
  { intros o' y Ho' Hy. eapply wp_call; [apply (IH (before ++ [o']) y Hr); by rewrite <- app_assoc|].
    intros ls z [Hz Hls]. rewrite <- app_assoc in Hz. eapply wp_retP; [apply (own_frame caps np ng (before ++ o' :: ls))|exact Hz|].
    intros u Hu. split; [done|]. by constructor. }
  destruct o as [l|]; [|by apply Hnext].
  assert (Hk : (before ++ Some l :: todo) !! length before = Some (Some l)) by (by rewrite lookup_app_r, Nat.sub_diag).
  apply (own_open _ _ _ _ _ _ _ _ _ _ (length before) l) in Hx; [|done].
  assert (Hnum : 0 <= fast_left l <= unreleased l).
  { destruct (with_lane_nums _ _ _ _ _ _ _ _ _ _ Hx) as (w & held & Hn). destruct Hn. lia. }
  eapply wp_call; [eapply wp_release_pending; [apply rest_frame|exact Hx]|]. clear x Hx.
  intros [released l'] x (Hx & S1 & F1 & U1 & B1 & C1 & Q1 & _). cbn [fst snd] in *.
  assert (Hkey : (length before < n)%nat /\ lane_signal l' = Z.of_nat (length before)) by (by apply with_lane_key in Hx as (? & ? & _)).
  assert (Hl : lane_released (Some l) (Some l')).
  { cbn. split; [done|]. split; [|by split]. destruct Ho as [O1 O2]. pose proof S1 as (_ & _ & _ & Eb).
    split; [rewrite B1|rewrite U1, Eb]; lia. }
  rewrite <- Q1 in Hx. eapply own_put in Hx; [|exact Hk|done..]. rewrite insert_app_r_alt, Nat.sub_diag in Hx by done. cbn in Hx.
  eapply (wp_call _ _ _ _ (fun _ y => own (before ++ Some l' :: todo) seen pend pend b tr y)); [|intros u y Hy; by apply Hnext].
  destruct released; [|by eapply wp_retP; [apply (own_frame caps np ng)|exact Hx|]].
  destruct Hkey as [Hlt ->]. eapply wp_inert; [apply own_frame|by eapply inert_index, index_notify_space|exact Hx].
Qed.

Lemma wp_release_consumed rx b tr x :
  chan rx b tr x -> wp cguar 0 (Receiver_release_consumed rx) (fun rx' y => chan rx' b tr y) x.
Proof.
  intros [Hrx (pend & Hx)]. unfold Receiver_release_consumed. eapply wp_call.
  - apply (wp_release_lanes (seen_registry_generation rx) pend b tr (rcv_lanes rx) [] x); [|exact Hx]. apply Forall_lookup. intros k [l|] Hk; [|done].
    by destruct (rx_lanes _ _ _ Hrx k l Hk) as (_ & ? & _).
  - clear x Hx. intros ls x [Hx Hls]. cbn in Hx.
    eapply (wp_retP _ 0 (own ls (seen_registry_generation rx) pend pend b tr)); [apply own_frame|exact Hx|].
    intros y Hy. split; [|by exists pend]. split; cbn; try apply Hrx.
    + intros k l' Hk. destruct (Forall2_lookup_r _ _ _ _ _ Hls Hk) as ([l|] & Hl & Hrel); [|done].
      destruct Hrel as (S1 & R1 & Q1 & F1). destruct (rx_lanes _ _ _ Hrx k l Hl) as (K1 & _ & K3 & _).
      destruct (rx_budget _ _ _ Hrx) as [Hb _]. split_and!; try done; [destruct S1; congruence|by rewrite Q1|lia|lia].
    + destruct (rx_active _ _ _ Hrx) as [Hnd Hact]. split; [done|]. intros key Hin. destruct (Hact key Hin) as (k & l & -> & Hk).
      destruct (Forall2_lookup_l _ _ _ _ _ Hls Hk) as ([l'|] & Hl' & Hrel); [|done]. by exists k, l'.
Qed.

End loop.
