(* ===== verification/MpscBatchConc.v ===== *)
(** * Bulk receives of the MPSC channel under every interleaving

    The drains of [src/src/mpsc/receiver/batch.rs] next to the single receives
    of MpscRecvLoop: chunks moved out of a lane, a drain over the rotation
    until its limit, and the batch receives built on it. *)

From stdpp Require Import functions.
From S2P Require Import Prelude Prog Config Wait Ready YRing YRingInv YRingSpec YRingThm YRingConc YRingClose Handoff MpscLane MpscLaneInv Mpsc MpscConc MpscLaneConc MpscRecvConc MpscRecvLoop.
Local Open Scope prog_scope.

Section batch.
Context {T Adm : Type} (caps : list Z) (np ng : nat).
Implicit Types (l : Lane) (rx : Receiver) (tr : list (nat * T)).
#[local] Abbreviation cok := (cok (T := T) caps np ng).
#[local] Abbreviation cguar := (cguar (T := T) caps np ng).
#[local] Abbreviation Frame := (Frame (T := T) caps np ng).
#[local] Abbreviation cons := (ca (T := T)).
#[local] Abbreviation with_lane := (with_lane (T := T) caps np ng).
#[local] Abbreviation finished := (finished (T := T) caps).
#[local] Abbreviation chan := (chan (T := T) caps np ng).
#[local] Abbreviation own := (own (T := T) caps np ng).
#[local] Abbreviation rest := (rest (T := T) caps np ng).
#[local] Abbreviation rx_ok := (rx_ok np ng).
#[local] Abbreviation all_finished := (all_finished (T := T) caps).
#[local] Abbreviation n := (length caps).

(** ** Chunks of a lane *)

(** What moving at most [limit] values out of the window of [l] leaves. *)
Definition moved_out F k b p l got output limit (moved : Z) (out : list T) (rc : RConsumer) (y : cst T) : Prop :=
  exists vs, zlength vs = moved /\ out = output ++ vs /\ moved <= limit /\ moved <= cached_available l + fast_left l /\
    forall l', same_lane l l' -> lane_consumer l' = rc ->
      (forall w held, counters l w held -> counters l' (w - moved) (held + moved)) -> with_lane F k b p l' (got ++ vs) y.

Lemma moved_out_intro F k b p l got output limit c c' ct ph h moved out y :
  lane_ring l = Z.of_nat k -> lane_signal l = Z.of_nat k -> rc_inner (lane_consumer l) = Some c ->
  counters l (ct - h) (h - ph) -> F y ->
  lane_view caps np ng k b p l (fun cap z => moved <= Z.min (ct - h) limit /\
    exists vs, zlength vs = moved /\ out = output ++ vs /\ cons cap 0 c' ct ph (h + moved) (got ++ vs) z) y ->
  moved_out F k b p l got output limit moved out (mkRConsumer (Some c')) y.
Proof.
  intros Er Es _ Hn Hy [Hc (cap & hr & g & K1 & K2 & K3 & [K4 (K5 & vs & K6 & K7 & K8)] & K9)].
  pose proof (cn_window _ _ _ Hn). exists vs. split; [done|]. split; [done|]. split; [lia|]. split; [lia|].
  intros l' E Ec Hn'. apply (lane_view_ok caps np ng F k b p l l' c' ct ph (h + moved)); try done.
  - split; [done|]. exists cap, hr, g. split_and!; (done || apply K4).
  - by rewrite Ec.
  - replace (ct - (h + moved)) with (ct - h - moved) by lia. replace (h + moved - ph) with (h - ph + moved) by lia. auto.
Qed.

Lemma wp_lane_pop_into F k b p l got output limit x :
  Frame 0 (Some k) F -> with_lane F k b p l got x -> 0 <= limit ->
  wp cguar 0 (on_lane_ring (lane_ring l) (RConsumer_pop_into (lane_consumer l) output limit)) (fun r y =>
    r.1.1 = Z.min (cached_available l + fast_left l) limit /\ moved_out F k b p l got output limit r.1.1 r.1.2 r.2 y) x.
Proof.
  intros HF Hx Hl.
  eapply (wp_consumer caps np ng F k b p l got (fun rc => RConsumer_pop_into rc output limit) (fun c => Consumer_pop_into c output limit)
    (fun a => (a.1, mkRConsumer (Some a.2)))
    (fun c ct ph h cap a z => (a.1.1 = Z.min (ct - h) limit) /\ exists vs, zlength vs = a.1.1 /\ a.1.2 = output ++ vs /\
       cons cap 0 a.2 ct ph (h + a.1.1) (got ++ vs) z)); [done|done| | | |].
  - eapply runs_as_bind; [reflexivity|]. by intros [[]].
  - intros c ct ph h cap z _ Ha Hcl. apply wp_kept; [auto with fanring|done|].
    eapply wp_mono; [|by eapply wp_pop_into_exact]. by intros [[m out] c'].
  - intros c ct ph h cap a. apply stable_pure, stable_ex. intros vs. do 2 apply stable_pure. apply stablec, ca_stable.
  - intros c ct ph h [[m out] c'] y Er Es Ec Hn Hy Hv. cbn [fst snd] in *. pose proof (cn_window _ _ _ Hn) as Hw.
    destruct Hv as [Hc (cap & hr & g & K1 & K2 & K3 & [K4 (K5 & K6)] & K7)]. split; [lia|].
    eapply moved_out_intro; [done|done|done|done|done|]. split; [done|]. exists cap, hr, g. split; [done|]. split; [done|]. split; [done|].
    split; [|done]. split; [done|]. split; [lia|done].
Qed.

Lemma wp_lane_pop_into_while F k b p l got output limit (accepts : Adm -> T -> bool * Adm) adm x :
  Frame 0 (Some k) F -> with_lane F k b p l got x -> 0 <= limit ->
  wp cguar 0 (on_lane_ring (lane_ring l) (RConsumer_pop_into_while (lane_consumer l) output limit accepts adm)) (fun r y =>
    0 <= r.1.1.1 /\ moved_out F k b p l got output limit r.1.1.1 r.1.1.2 r.2 y) x.
Proof.
  intros HF Hx Hl.
  eapply (wp_consumer caps np ng F k b p l got (fun rc => RConsumer_pop_into_while rc output limit accepts adm)
    (fun c => Consumer_pop_into_while c output limit accepts adm) (fun a => (a.1, mkRConsumer (Some a.2)))
    (fun c ct ph h cap a z => (0 <= a.1.1.1 <= Z.min (ct - h) limit) /\ exists vs, zlength vs = a.1.1.1 /\ a.1.1.2 = output ++ vs /\
       cons cap 0 a.2 ct ph (h + a.1.1.1) (got ++ vs) z)); [done|done| | | |].
  - eapply runs_as_bind; [reflexivity|]. by intros [[[]]].
  - intros c ct ph h cap z _ Ha Hcl. apply wp_kept; [auto with fanring|done|].
    eapply wp_mono; [|by eapply wp_pop_into_while_exact]. by intros [[[m out] a] c'].
  - intros c ct ph h cap a. apply stable_pure, stable_ex. intros vs. do 2 apply stable_pure. apply stablec, ca_stable.
  - intros c ct ph h [[[m out] a] c'] y Er Es Ec Hn Hy Hv. cbn [fst snd] in *.
    destruct Hv as [Hc (cap & hr & g & K1 & K2 & K3 & [K4 (K5 & K6)] & K7)]. split; [lia|].
    eapply moved_out_intro; [done|done|done|done|done|]. split; [done|]. exists cap, hr, g. split; [done|]. split; [done|]. split; [done|].
    split; [|done]. split; [done|]. split; [lia|done].
Qed.

(** How much of the window one chunk may take. *)
Definition chunk_of l : Z := Z.min (Z.min (cached_available l) (PREFETCH_LIMIT - burst l)) (release_batch l - unreleased l).

Lemma chunk_limit_ok l : fast_left l = 0 -> lane_rest l -> Lane_chunk_limit (T := T) l = Ret (chunk_of l).
Proof.
  intros F0 [R1 R2]. unfold Lane_chunk_limit. rewrite F0. cbn [negb Z.eqb]. by rewrite !usub_ret by lia.
Qed.

Definition chunk_moved F k b l got output take (r : Z * list T * Adm * Lane) (y : cst T) : Prop :=
  exists vs, zlength vs = r.1.1.1 /\ r.1.1.2 = output ++ vs /\ 0 <= r.1.1.1 <= take /\
    with_lane F k b true r.2 (got ++ vs) y /\ same_lane l r.2 /\ fast_left r.2 = 0 /\ queued r.2 = queued l /\
    burst r.2 <= PREFETCH_LIMIT /\ unreleased r.2 < release_batch r.2.

Lemma wp_chunk_counted F k b l got vs moved output (adm : Adm) take l1 x :
  Frame 0 (Some k) F -> with_lane F k b true l1 (got ++ vs) x -> zlength vs = moved -> 0 <= moved <= take -> same_lane l l1 ->
  fast_left l1 = 0 -> queued l1 = queued l -> burst l1 <= PREFETCH_LIMIT -> unreleased l1 <= release_batch l1 ->
  wp cguar 0 (let* l := (if unreleased l1 =? release_batch l1 then
                let* '(released, l) := Lane_release_pending l1 in
                if released then let* _ := on_index (LaneSignal_notify_space (lane_signal l)) in Ret l else Ret l
              else Ret l1) in Ret (moved, output ++ vs, adm, l))
    (fun r y => chunk_moved F k b l got output take r y /\ r.1.1.1 = moved) x.
Proof.
  intros HF Hx Hl Hm S1 F1 Q1 B1 U1.
  eapply (wp_call _ _ _ _ (fun l2 y => with_lane F k b true l2 (got ++ vs) y /\ same_lane l l2 /\ fast_left l2 = 0 /\
    queued l2 = queued l /\ burst l2 <= PREFETCH_LIMIT /\ unreleased l2 < release_batch l2)).
  - destruct (Z.eqb_spec (unreleased l1) (release_batch l1)) as [E|E].
    2:{ eapply wp_ret_lane; [exact HF|exact Hx|]. intros y Hy. split_and!; (done || lia). }
    destruct (with_lane_nums _ _ _ _ _ _ _ _ _ _ Hx) as (w & held & Hn). destruct Hn.
    assert (Hb : 1 <= release_batch l1) by (destruct Hx as [_ [_ (c & ct & ph & h & _ & _ & _ & _ & cap & hr & g & _ & _ & _ & [[? _] _] & _)]]; lia).
    eapply wp_call; [eapply wp_release_pending; [exact HF|exact Hx]|]. clear x Hx.
    intros [rel l2] x (Hx & S2 & F2 & U2 & B2 & C2 & Q2 & _). cbn [fst snd] in *.
    assert (S3 : same_lane l l2) by (destruct S1 as (? & ? & ? & ?), S2 as (? & ? & ? & ?); split_and!; congruence).
    pose proof S2 as (_ & _ & _ & Eb). destruct (with_lane_key _ _ _ _ _ _ _ _ _ _ Hx) as (Hk & Es & _).
    destruct rel.
    + rewrite Es. eapply wp_lane_inert; [exact HF|by eapply inert_index, index_notify_space|exact Hx|]. intros u y Hy.
      eapply wp_ret_lane; [exact HF|exact Hy|]. intros z Hz. split_and!; (done || lia || congruence).
    + eapply wp_ret_lane; [exact HF|exact Hx|]. intros z Hz. split_and!; (done || lia || congruence).
  - clear x Hx. intros l2 x (Hx & S2 & F2 & Q2 & B2 & U2). eapply wp_ret_lane; [exact HF|exact Hx|]. intros y Hy. split; [|done].
    exists vs. cbn. split; [done|]. split; [done|]. split; [done|]. by split_and!.
Qed.

Lemma wp_move_chunk F k b l got output take (admission : Admit T Adm) adm x :
  Frame 0 (Some k) F -> with_lane F k b true l got x -> fast_left l = 0 -> lane_rest l -> 0 <= take <= chunk_of l ->
  wp cguar 0 (Lane_move_chunk l output take admission adm) (fun r y => chunk_moved F k b l got output take r y) x.
Proof.
  intros HF Hx F0 [R1 R2] Ht. unfold chunk_of, PREFETCH_LIMIT in *. unfold Lane_move_chunk.
  eapply (wp_call _ _ _ _ (fun r y => 0 <= r.1.1.1 /\ moved_out F k b true l got output take r.1.1.1 r.1.1.2 r.2 y)).
  - destruct admission as [|accepts]; [|by apply wp_lane_pop_into_while; [..|lia]].
    eapply (wp_call _ _ _ _ _ _ _ (wp_lane_pop_into F k b true l got output take x HF Hx ltac:(lia))).
    intros [[m out] rc] y [Em Hm]. cbn [fst snd] in *. assert (m = take) as -> by lia. rewrite Z.eqb_refl. cbn [negb].
    eapply wp_retP; [|exact Hm|intros z Hz; split; [cbn; lia|exact Hz]].
    intros u v (vs & V1 & V2 & V3 & V4 & V5) Hr. exists vs. split_and!; auto. intros l' E1 E2 E3.
    eapply (fr_stable _ _ _ _ _ _ (with_lane_frame caps np ng F k b true l' (got ++ vs) HF)); [by apply V5|exact Hr].
  - clear x Hx. intros [[[m out] a] rc] x [Hm0 (vs & V1 & V2 & V3 & V4 & V5)]. cbn [fst snd] in *. subst out.
    cbn [cached_available set_consumer]. rewrite usub_ret by lia. cbn [bind]. set (l1 := set_counters _ _ _ _ _).
    assert (Hx : with_lane F k b true l1 (got ++ vs) x).
    { apply V5; [done|done|]. intros w held []. split; cbn; unfold PREFETCH_LIMIT in *; lia. }
    eapply wp_mono; [|apply (wp_chunk_counted F k b l got vs m output a take l1 x HF Hx V1); cbn; unfold PREFETCH_LIMIT; (done || lia)].
    by intros r y [].
Qed.

Lemma end_full_burst_ok l : fast_left l = 0 ->
  Lane_end_full_burst (T := T) l = Ret (burst l =? PREFETCH_LIMIT, if burst l =? PREFETCH_LIMIT then set_burst 0 l else l).
Proof. intros F0. unfold Lane_end_full_burst. rewrite F0. by destruct (burst l =? PREFETCH_LIMIT). Qed.


(** ** Draining the rotation *)

Lemma wp_refresh_active rx (b : nat -> nat) tr x :
  chan rx b tr x ->
  wp cguar 0 (Receiver_refresh_active rx) (fun r y => chan r.2 b tr y /\ (pot caps r.2 b <= pot caps rx b)%nat /\
    (r.1 = true -> rcv_active r.2 <> [] /\ 0 < items_until_ready_poll r.2)) x.
Proof.
  intros Hx. pose proof Hx as [Hrx _]. destruct (rx_budget _ _ _ Hrx) as [Hb1 Hb2]. unfold Receiver_refresh_active.
  destruct (rcv_active rx) as [|key act] eqn:Ea.
  - eapply wp_call; [eapply wp_collect_ready, Hx|]. clear x Hx. intros rx1 x [Hx C]. pose proof (collected_pot caps _ _ b C) as Hp.
    eapply wp_ret_chan; [exact Hx|]. intros y Hy. cbn. split; [done|]. split; [done|].
    destruct C as (_ & _ & -> & _). destruct (rcv_active rx1); [done|]. split; [done|auto].
  - destruct (Z.eqb_spec (items_until_ready_poll rx) 0) as [E0|E0].
    + eapply wp_call; [eapply wp_collect_ready, Hx|]. clear x Hx. intros rx1 x [Hx C]. pose proof (collected_pot caps _ _ b C) as Hp.
      destruct C as (_ & [act' C] & Eb & _). rewrite Ea in C.
      assert (Hx' : chan (set_poll_budget READY_POLL_INTERVAL rx1) b tr x) by (apply chan_budget; [rewrite Eb, E0|..]; done).
      eapply wp_ret_chan; [exact Hx'|]. intros y Hy. cbn. split; [done|]. split; [done|]. intros _. by rewrite C.
    + eapply wp_ret_chan; [exact Hx|]. intros y Hy. cbn. split; [done|]. split; [done|]. rewrite Ea. split; [done|lia].
Qed.

Lemma finished_frame k got : Frame 0 None (fun x => cok x /\ finished k got x).
Proof.
  split; [|by intros x []|].
  - intros x y [Hc Hf] Hr. split; [by eapply rely_cok|]. by eapply finished_stable.
  - intros x y [_ (cap & hr & g & K1 & K2 & K3 & K4)] Hy [_ Hu]. split; [done|]. destruct (Hu k) as (E1 & E2 & E3); [done|].
    exists cap, hr, g. by rewrite E1, E2.
Qed.

Lemma polled_frame rx k l l' pend (b : nat -> nat) tr (r : LanePoll T) : Frame 0 None (polled caps np ng rx k l l' pend b tr r).
Proof.
  destruct r as [v rot rel|rel|d rel|]; cbn; [apply own_frame..| |split; by intros x].
  destruct (own_frame caps np ng (<[k := Some l']> (rcv_lanes rx)) (seen_registry_generation rx) pend pend (<[k := (b k - 1)%nat]> b) tr) as [A1 A2 A3].
  destruct (finished_frame k (of_lane k tr)) as [B1 B2 B3]. split.
  - intros x y [Hx Hf] Hr. split; [by eapply A1|]. intros Hd. eapply (B1 x y); [split; [by apply A2|auto]|exact Hr].
  - intros x [Hx _]. by apply A2.
  - intros x y [Hx Hf] Hy Hu. split; [by eapply A3|]. intros Hd. eapply (B3 x y); [split; [by apply A2|auto]|exact Hy|exact Hu].
Qed.

Definition poll_of (e : EmptyLane) : LanePoll T :=
  match e with EmptyKeep rel => PollKeep rel | EmptyIdle d rel => PollIdle d rel end.

(** Refilling the front lane. *)
Lemma wp_refill_front rx k rest0 (b : nat -> nat) tr x :
  chan rx b tr x -> rcv_active rx = lane_at k :: rest0 ->
  exists l pend, get_lane_key (lane_at k) rx = Some l /\ rcv_lanes rx !! k = Some (Some l) /\
  wp cguar 0 (Lane_refill l) (fun r y => same_lane l r.2 /\ lane_rest r.2 /\ fast_left r.2 = 0 /\ lane_key r.2 = lane_at k /\
    lane_signal r.2 = Z.of_nat k /\ match r.1 with
    | Some e => poll_lane_ok b k l r.2 (poll_of e) /\ polled caps np ng rx k l r.2 pend b tr (poll_of e) y
    | None => 0 < cached_available r.2 /\ queued r.2 = true /\
              with_lane (rest k (rcv_lanes rx) (seen_registry_generation rx) pend pend b tr) k (b k) true r.2 (of_lane k tr) y
    end) x.
Proof.
  intros Hx Ea. destruct (chan_front caps np ng rx b tr _ rest0 x Hx Ea) as (k' & l & pend & Ek & Hk & Eg & K1 & [R1 R2] & Q1 & K3 & Hl).
  apply lane_at_inj in Ek as <-. exists l, pend. split; [done|]. split; [done|].
  destruct (with_lane_key _ _ _ _ _ _ _ _ _ _ Hl) as (_ & Es & _).
  assert (Hbatch : 1 <= release_batch l) by (destruct Hl as [_ [_ (c & ct & ph & h & _ & _ & _ & _ & cap & hr & g & _ & _ & _ & [[? _] _] & _)]]; lia).
  eapply wp_mono; [|eapply wp_refill_lane; [apply rest_frame|exact Hl|exact Q1]].
  intros [o l1] y (S1 & F1 & U1 & B1 & Hy). cbn [fst snd] in *. pose proof S1 as (E1 & E2 & _ & E4).
  assert (Hr : lane_rest l1) by (split; lia). split; [done|]. split; [done|]. split; [done|]. split; [congruence|]. split; [congruence|].
  destruct o as [e|]; [|destruct Hy as (H1 & H2 & H3); auto].
  destruct Hy as (Hy & C0 & U2 & _). destruct e as [rel|d rel]; cbn in Hy |- *.
  - destruct Hy as (Hy & C1 & Q2). split; [by split_and!|]. eapply own_put; [exact Hk|by rewrite Q2|done..].
  - destruct Hy as (Hb & (Hy & Hf) & Q2). split; [by split_and!|]. split; [|done].
    eapply own_close; [exact Hk|by rewrite Q2|done..].
Qed.

(** What a drain leaves that started with [received] values. *)
Definition drained_to (b : nat -> nat) tr (output : list T) (received limit : Z) (d : Drained) (out : list T) rx' (y : cst T) : Prop :=
  exists b' kvs, spent b b' /\ chan rx' b' (tr ++ kvs) y /\ out = output ++ (snd <$> kvs) /\
    Forall (fun e => (e.1 < n)%nat) kvs /\ drained_received d = received + zlength kvs /\ drained_received d <= limit.

Lemma drained_more b b' tr kvs output received limit d out rx' y :
  spent b b' -> Forall (fun e => (e.1 < n)%nat) kvs ->
  drained_to b' (tr ++ kvs) (output ++ (snd <$> kvs)) (received + zlength kvs) limit d out rx' y ->
  drained_to b tr output received limit d out rx' y.
Proof.
  intros Hs Hk (b2 & kvs2 & H1 & H2 & H3 & H4 & H5 & H6). exists b2, (kvs ++ kvs2). rewrite app_assoc, fmap_app, app_assoc, zlength_app.
  split; [by eapply spent_trans|]. split; [done|]. split; [done|]. split; [by apply Forall_app|]. split; [lia|done].
Qed.

Lemma drained_none b tr output received limit rejected rx y :
  received <= limit -> chan rx b tr y -> drained_to b tr output received limit (mkDrained received rejected) output rx y.
Proof.
  intros Hl Hy. exists b, []. cbn. rewrite !app_nil_r, Z.add_0_r. split; [apply spent_refl|]. by split_and!.
Qed.

(** The front lane had nothing: it keeps its place at the end of the rotation,
    goes idle or is retired. *)
Lemma wp_settle_front rx k l l1 e rest0 pend (b : nat -> nat) tr x :
  rx_ok rx -> rcv_active rx = lane_at k :: rest0 -> rcv_lanes rx !! k = Some (Some l) -> (k < n)%nat -> 0 < items_until_ready_poll rx ->
  lane_key l1 = lane_at k -> poll_lane_ok b k l l1 (poll_of e) -> polled caps np ng rx k l l1 pend b tr (poll_of e) x ->
  wp cguar 0 (Receiver_settle_empty_front Deferred (lane_at k) e (put_lane l1 rx)) (fun rx2 y =>
    exists b2, spent b b2 /\ chan rx2 b2 tr y /\ (pot caps rx2 b2 < pot caps rx b)%nat) x.
Proof.
  intros Hrx Ea Hk Hkn Hbud K1 (S1 & R1 & F1 & Hl) Hx. destruct (rx_budget _ _ _ Hrx) as [Hb64 _].
  pose proof (lookup_lt_Some _ _ _ Hk) as Hlt. rewrite (put_lane_at k) by done. unfold Receiver_settle_empty_front.
  set (lanes' := <[k := Some l1]> (rcv_lanes rx)) in *. set (rx1 := set_lanes lanes' rx).
  assert (Hother : forall j, j <> k -> lanes' !! j = rcv_lanes rx !! j) by (intros j Hj; subst lanes'; by rewrite list_lookup_insert_ne).
  destruct e as [rel|d rel]; cbn in Hl, Hx.
  - destruct Hl as (Q1 & C0 & C1). set (rx2 := set_active _ rx1).
    assert (Hx2 : chan rx2 b tr x).
    { assert (Hx3 : chan (set_poll_budget (items_until_ready_poll rx) (set_active (rest0 ++ [lane_at k]) (set_lanes lanes' (set_active rest0 rx)))) b tr x).
      { eapply front_kept; (done || lia || idtac). by rewrite Permutation_app_comm. }
      subst rx2 rx1. cbn [rcv_active set_lanes]. rewrite Ea. exact Hx3. }
    eapply wp_ret_chan; [exact Hx2|]. intros y Hy. exists b. split; [apply spent_refl|]. split; [done|].
    eapply (pot_less caps rx rx2 b b k); [done|done|done|by eapply weight_keep].
  - destruct Hx as [Hx Hfin]. destruct Hl as (Q1 & Hb). set (b2 := <[k := (b k - 1)%nat]> b) in *.
    assert (Hs : spent b b2) by (apply spent_insert; lia).
    assert (Hb2 : forall j, j <> k -> b2 j = b j) by (intros j Hj; subst b2; by rewrite fn_lookup_insert_ne).
    cbn [rcv_active set_lanes rx1]. rewrite Ea. cbn [tail]. set (rx2 := set_active rest0 rx1). destruct d.
    + eapply wp_mono; [|eapply (wp_retire_lane caps np ng rx2 k l1 pend b2 tr x); [cbn; subst lanes'; by rewrite list_lookup_insert_eq|done|exact Hx|by apply Hfin]].
      clear x Hx Hfin. intros rx3 x [-> Hx]. cbn [rcv_lanes rx2 rx1 set_lanes set_active seen_registry_generation] in Hx.
      subst lanes'. cbn [rcv_lanes rx2 rx1 set_lanes set_active]. rewrite list_insert_insert_eq in *.
      set (rx3 := put_paused _ _ _). assert (Hx3 : chan rx3 b2 tr x) by (by eapply (front_retired caps np ng rx)).
      exists b2. split; [done|]. split; [done|].
      eapply (pot_less caps rx rx3 b b2 k); [done| |done|by eapply weight_idle]. intros j Hj. cbn. by rewrite list_lookup_insert_ne.
    + assert (Hx2 : chan rx2 b2 tr x) by (by eapply (front_idle caps np ng rx)).
      eapply wp_ret_chan; [exact Hx2|]. intros y Hy. exists b2. split; [done|]. split; [done|].
      eapply (pot_less caps rx rx2 b b2 k); [done|done|done|by eapply weight_idle].
Qed.


Lemma tally_bump (f g : nat -> nat) m k :
  (forall j, j <> k -> (f j <= g j)%nat) -> (f k <= g k + 1)%nat -> (tally f m <= tally g m + 1)%nat.
Proof.
  intros H Hk. induction m as [|m IH]; cbn; [lia|]. destruct (decide (m = k)) as [->|Hne]; [|specialize (H m Hne); lia].
  assert (tally f k <= tally g k)%nat by (apply tally_le; intros j Hj; apply H; lia). lia.
Qed.

Lemma pot_chunk rx rx' (b : nat -> nat) k l l' :
  rcv_lanes rx !! k = Some (Some l) -> rcv_lanes rx' = <[k := Some l']> (rcv_lanes rx) -> (pot caps rx' b <= pot caps rx b + 1)%nat.
Proof.
  intros Hk E. pose proof (lookup_lt_Some _ _ _ Hk). apply (tally_bump _ _ _ k); intros; unfold weight; rewrite E.
  - by rewrite list_lookup_insert_ne by done.
  - rewrite list_lookup_insert_eq, Hk by done. destruct (_ =? _), (_ =? _); lia.
Qed.

(** The receiver after a chunk of the front lane was moved. *)
Lemma chunk_done rx k l l1 l2 rest0 pend (b : nat -> nat) tr vs moved act y :
  rx_ok rx -> rcv_active rx = lane_at k :: rest0 -> rcv_lanes rx !! k = Some (Some l) -> lane_key l1 = lane_at k ->
  same_lane l l1 -> same_lane l1 l2 -> fast_left l2 = 0 -> queued l2 = true -> burst l2 <= PREFETCH_LIMIT ->
  unreleased l2 < release_batch l2 -> 0 <= moved <= items_until_ready_poll rx -> act ≡ₚ lane_at k :: rest0 ->
  with_lane (rest k (rcv_lanes rx) (seen_registry_generation rx) pend pend b tr) k (b k) true l2 (of_lane k tr ++ vs) y ->
  let l3 := if burst l2 =? PREFETCH_LIMIT then set_burst 0 l2 else l2 in
  chan (set_active act (put_lane l3 (set_poll_budget (items_until_ready_poll rx - moved) (put_lane l1 rx)))) b (tr ++ (pair k <$> vs)) y /\
  lane_key l3 = lane_at k.
Proof.
  intros Hrx Ea Hk K1 S1 S2 F2 Q2 B2 U2 Hm Hact Hy l3. destruct (rx_budget _ _ _ Hrx) as [Hb64 _].
  assert (E3 : same_lane l2 l3 /\ lane_rest l3 /\ fast_left l3 = 0 /\ queued l3 = true /\ lane_consumer l3 = lane_consumer l2).
  { subst l3. destruct (Z.eqb_spec (burst l2) PREFETCH_LIMIT); cbn; [|unfold lane_rest]; split_and!; (done || unfold PREFETCH_LIMIT in *; lia). }
  destruct E3 as (S3 & R3 & F3 & Q3 & C3).
  assert (K3 : lane_key l3 = lane_at k) by (destruct S2 as (E & _), S3 as (E' & _); congruence).
  split; [|done].
  assert (Hy3 : with_lane (rest k (rcv_lanes rx) (seen_registry_generation rx) pend pend b tr) k (b k) (queued l3) l3 (of_lane k tr ++ vs) y).
  { rewrite Q3. eapply with_lane_counters; [exact Hy|done|done|]. intros w held []. subst l3.
    destruct (burst l2 =? PREFETCH_LIMIT); split; cbn; lia. }
  rewrite (put_lane_at k l1), (put_lane_at k l3) by done. cbn [rcv_lanes set_lanes set_poll_budget]. rewrite list_insert_insert_eq.
  assert (Hc : chan (set_poll_budget (items_until_ready_poll rx - moved)
    (set_active act (set_lanes (<[k := Some l3]> (rcv_lanes rx)) (set_active rest0 rx)))) b (tr ++ (pair k <$> vs)) y); [|exact Hc].
  eapply (front_kept caps np ng rx k l l3 rest0 pend); try done; [|lia|].
  - destruct S1 as (? & ? & ? & ?), S2 as (? & ? & ? & ?), S3 as (? & ? & ? & ?); split_and!; congruence.
  - eapply own_put; [exact Hk|exact Hy3| |].
    + by rewrite of_lane_app, of_lane_same.
    + intros j Hj. rewrite of_lane_app, of_lane_other by done. by rewrite app_nil_r.
Qed.

Lemma pairs_snd (k : nat) (vs : list T) : snd <$> (pair k <$> vs) = vs.
Proof. induction vs as [|v vs IH]; [done|]. cbn. f_equal. exact IH. Qed.

(** One chunk of the front lane, with what follows. *)
Lemma wp_chunk_front {B} rx k l l1 rest0 pend (b : nat -> nat) tr budget output (admission : Admit T Adm) adm
    (c : Z -> Z -> list T -> Adm -> Receiver -> prog (Shared T) B) Q x :
  rx_ok rx -> rcv_active rx = lane_at k :: rest0 -> rcv_lanes rx !! k = Some (Some l) -> same_lane l l1 -> lane_rest l1 ->
  fast_left l1 = 0 -> lane_key l1 = lane_at k -> 0 < cached_available l1 -> queued l1 = true ->
  0 < budget -> 0 < items_until_ready_poll rx ->
  with_lane (rest k (rcv_lanes rx) (seen_registry_generation rx) pend pend b tr) k (b k) true l1 (of_lane k tr) x ->
  (forall moved take vs adm' rx' y, chan rx' b (tr ++ (pair k <$> vs)) y -> zlength vs = moved -> 0 <= moved <= take -> 1 <= take <= budget ->
     (pot caps rx' b <= pot caps rx b + 1)%nat -> wp cguar 0 (c take moved (output ++ vs) adm' rx') Q y) ->
  wp cguar 0 (let rx := put_lane l1 rx in
              let* chunk := Lane_chunk_limit l1 in
              let take := Z.min (Z.min budget (items_until_ready_poll rx)) chunk in
              let* '(moved, output, adm, lane) := Lane_move_chunk l1 output take admission adm in
              let* budget := usub (items_until_ready_poll rx) moved in
              let rx := set_poll_budget budget rx in
              let* '(ended, lane) := Lane_end_full_burst lane in
              let rx := put_lane lane rx in
              let rx := if ended : bool then set_active (rotate_left (rcv_active rx)) rx else rx in
              c take moved output adm rx) Q x.
Proof.
  intros Hrx Ea Hk S1 R1 F1 K1 C1 Q1 Hbud0 Hbud Hx Hc. cbv zeta. rewrite chunk_limit_ok by done. cbn [bind].
  replace (items_until_ready_poll (put_lane l1 rx)) with (items_until_ready_poll rx) by (by rewrite (put_lane_at k)).
  set (take := Z.min _ (chunk_of l1)). assert (Ht : 1 <= take <= chunk_of l1).
  { subst take. unfold chunk_of in *. destruct R1. unfold PREFETCH_LIMIT in *. lia. }
  eapply wp_call; [eapply wp_move_chunk; [apply rest_frame|exact Hx|done|done|lia]|].
  clear x Hx. intros [[[moved out] adm'] l2] x (vs & V1 & V2 & Hm & Hx & S2 & F2 & Q2 & B2 & U2). cbn [fst snd] in *. subst out.
  rewrite usub_ret by lia. cbn [bind]. rewrite end_full_burst_ok by done. cbn [bind].
  set (l3 := if burst l2 =? PREFETCH_LIMIT then set_burst 0 l2 else l2). set (rx3 := put_lane l3 _).
  assert (Hd : forall act, act ≡ₚ lane_at k :: rest0 -> chan (set_active act rx3) b (tr ++ (pair k <$> vs)) x /\ lane_key l3 = lane_at k).
  { intros act Hact. eapply (chunk_done rx k l l1 l2 rest0 pend b tr vs moved act x); (done || congruence || lia). }
  destruct (Hd _ (reflexivity _)) as [_ K3].
  assert (E3 : rcv_active rx3 = lane_at k :: rest0 /\ rcv_lanes rx3 = <[k := Some l3]> (rcv_lanes rx)).
  { subst rx3. rewrite (put_lane_at k l1), (put_lane_at k l3) by done. cbn [rcv_lanes rcv_active set_lanes set_poll_budget].
    by rewrite list_insert_insert_eq. }
  destruct E3 as [Ea3 El3]. apply Hc; [|done|done|lia|].
  - destruct (burst l2 =? PREFETCH_LIMIT).
    + rewrite Ea3. apply Hd. cbn. by rewrite Permutation_app_comm.
    + destruct (Hd (rcv_active rx3)) as [Hd' _]; [by rewrite Ea3|]. by destruct rx3.
  - apply (pot_chunk rx _ b k l l3 Hk). by destruct (burst l2 =? PREFETCH_LIMIT).
Qed.

Lemma wp_drain_loop limit fuel : forall rx (b : nat -> nat) tr received output (admission : Admit T Adm) adm x,
  chan rx b tr x -> 0 <= received <= limit -> (2 * Z.to_nat (limit - received) + pot caps rx b < fuel)%nat ->
  wp cguar 0 (Receiver_drain_loop Deferred fuel received limit output admission adm rx)
    (fun r y => drained_to b tr output received limit r.1.1.1 r.1.1.2 r.2 y) x.
Proof.
  induction fuel as [|fuel IH]; intros rx0 b tr received output admission adm x Hx Hr Hf; [lia|]. cbn [Receiver_drain_loop].
  destruct (Z.ltb_spec received limit) as [Hlt|Hge]; cbn [negb].
  2:{ eapply wp_ret_chan; [exact Hx|]. intros y Hy. by apply drained_none; [lia|]. }
  eapply wp_call; [eapply wp_refresh_active, Hx|]. clear x Hx. intros [more rx] x (Hx & Hp & Hmore). cbn [fst snd] in *.
  destruct more; cbn [negb]; [|eapply wp_ret_chan; [exact Hx|]; intros y Hy; by apply drained_none; [lia|]].
  destruct (Hmore eq_refl) as [Hne Hbud]. destruct (rcv_active rx) as [|key rest0] eqn:Ea; [done|]. pose proof Hx as [Hrx _].
  destruct (rx_active _ _ _ Hrx) as [_ Hact]. destruct (Hact key) as (k & l0 & -> & Hk0); [rewrite Ea; by left|]. clear Hact.
  assert (Hkn : (k < n)%nat) by (destruct Hx as [_ (pend0 & Ho)]; by eapply own_lt).
  destruct (wp_refill_front rx k rest0 b tr x Hx Ea) as (l & pend & Eg & Hk & Hw). rewrite Eg.
  eapply wp_call; [exact Hw|]. clear x Hx Hw l0 Hk0. intros [o l1] x (S1 & R1 & F1 & K1 & Es & Hx). cbn [fst snd] in *.
  destruct o as [e|].
  - destruct Hx as [Hl Hx]. rewrite Es. eapply (wp_call _ _ _ _ (fun _ y => polled caps np ng rx k l l1 pend b tr (poll_of e) y)).
    { destruct (EmptyLane_released e); [|eapply wp_retP; [apply polled_stable|exact Hx|done]].
      eapply wp_inert; [apply polled_frame|by eapply inert_index, index_notify_space|exact Hx]. }
    clear x Hx. intros u x Hx. eapply wp_call; [by eapply wp_settle_front|]. clear x Hx. intros rx2 x (b2 & Hs & Hx & Hpot).
    eapply wp_mono; [|apply (IH rx2 b2 tr received output admission adm x Hx Hr); lia]. intros r y Hy.
    apply (drained_more b b2 tr [] output); [done|constructor|]. by rewrite !app_nil_r, Z.add_0_r.
  - destruct Hx as (C1 & Q1 & Hx).
    apply (wp_chunk_front rx k l l1 rest0 pend b tr (limit - received) output admission adm
      (fun take moved out adm rx => if moved <? take then Ret (mkDrained (received + moved) true, out, adm, rx)
                                    else Receiver_drain_loop Deferred fuel (received + moved) limit out admission adm rx)); try done; [lia|].
    clear x Hx. intros moved take vs adm' rx' x Hx V1 Hm Htake Hpot.
    assert (Hnext : forall r y, drained_to b (tr ++ (pair k <$> vs)) (output ++ vs) (received + moved) limit r.1.1.1 r.1.1.2 r.2 y ->
      drained_to b tr output received limit (r : Drained * list T * Adm * Receiver).1.1.1 r.1.1.2 r.2 y).
    { intros r y Hy. apply (drained_more b b tr (pair k <$> vs)); [apply spent_refl|by apply Forall_fmap, Forall_true|].
      rewrite pairs_snd. unfold zlength in *. by rewrite length_fmap, V1. }
    destruct (Z.ltb_spec moved take).
    + eapply wp_ret_chan; [exact Hx|]. intros y Hy. apply Hnext. cbn. apply drained_none; [lia|done].
    + eapply wp_mono; [apply Hnext|]. apply IH; [exact Hx|lia|lia].
Qed.


(** ** Batch receives *)

(** What a batch receive leaves: the values it appended, or an error with
    nothing received. *)
Definition batched (b : nat -> nat) tr (output : list T) (r : result Z TryRecvError) (out : list T) rx' (y : cst T) : Prop :=
  exists b' kvs, spent b b' /\ chan rx' b' (tr ++ kvs) y /\ out = output ++ (snd <$> kvs) /\ Forall (fun e => (e.1 < n)%nat) kvs /\
    match r with
    | Ok m => m = zlength kvs
    | Err e => kvs = [] /\ (e = TryRecv_Disconnected -> all_finished tr y)
    end.

Lemma wp_drain_into fuel limit rx (b : nat -> nat) tr output (admission : Admit T Adm) adm x :
  chan rx b tr x -> (2 * limit + bound caps b < fuel)%nat ->
  wp cguar 0 (Receiver_drain_into Deferred fuel (Z.of_nat limit) output admission adm rx)
    (fun r y => drained_to b tr output 0 (Z.of_nat limit) r.1.1.1 r.1.1.2 r.2 y) x.
Proof.
  intros Hx Hf. apply wp_drain_loop; [exact Hx|lia|]. pose proof (pot_bound caps rx b). unfold bound in *. lia.
Qed.

(** The end of a batch receive: release, and the reason when nothing came. *)
Lemma wp_batch_end {A} (cond : bool) (d : Drained) (b : nat -> nat) tr output limit out rx (f : result Z TryRecvError -> Receiver -> A)
    (proj : A -> result Z TryRecvError * list T * Receiver) x :
  (forall r rx, proj (f r rx) = (r, out, rx)) -> (cond = true -> drained_received d = 0) ->
  drained_to b tr output 0 limit d out rx x ->
  wp cguar 0 (let* rx := Receiver_release_consumed rx in
              if cond then let* '(dr, rx) := Receiver_is_drained Deferred rx in Ret (f (Err (empty_error dr)) rx)
              else Ret (f (Ok (drained_received d)) rx))
    (fun a y => batched b tr output (proj a).1.1 (proj a).1.2 (proj a).2 y) x.
Proof.
  intros Hf Hc (b' & kvs & H1 & H2 & H3 & H4 & H5 & H6). eapply wp_call; [eapply wp_release_consumed, H2|]. clear x rx H2.
  intros rx x Hx. destruct cond.
  - assert (kvs = []) as -> by (destruct kvs; [done|]; rewrite zlength_cons in H5; pose proof (zlength_nonneg kvs); specialize (Hc eq_refl); lia).
    rewrite app_nil_r in Hx. eapply wp_call; [eapply wp_is_drained, Hx|]. clear x Hx. intros [dr rx1] x (E & Hx & Hd). cbn [fst snd] in *. subst rx1.
    eapply (wp_retP _ 0 (fun y => chan rx b' tr y /\ (dr = true -> all_finished tr y))); [|by split|].
    + apply stable_and; [apply chan_frame|]. intros u v Hu Hr He. eapply all_finished_stable; [by apply Hu|exact Hr].
    + intros y [Hy Hfin]. rewrite Hf. exists b', []. rewrite app_nil_r. split; [done|]. split; [done|]. split; [done|]. split; [done|].
      split; [done|]. destruct dr; [auto|done].
  - eapply wp_ret_chan; [exact Hx|]. intros y Hy. rewrite Hf. exists b', kvs. split; [done|]. split; [done|]. split; [done|]. split; [done|].
    cbn. lia.
Qed.

Lemma wp_try_recv_batch_into_while fuel limit rx (b : nat -> nat) tr output accepts (adm : Adm) x :
  chan rx b tr x -> (2 * limit + bound caps b < fuel)%nat ->
  wp cguar 0 (Receiver_try_recv_batch_into_while Deferred fuel output (Z.of_nat limit) accepts adm rx)
    (fun r y => batched b tr output r.1.1.1 r.1.1.2 r.2 y) x.
Proof.
  intros Hx Hf. unfold Receiver_try_recv_batch_into_while. eapply wp_call; [by eapply wp_drain_into|]. clear x Hx.
  intros [[[d out] adm'] rx'] x Hx. cbn [fst snd] in *.
  apply (wp_batch_end _ d b tr output (Z.of_nat limit) out rx' (fun r rx => (r, out, adm', rx)) (fun a => (a.1.1.1, a.1.1.2, a.2))); [done| |done].
  intros Hc. apply andb_true_iff in Hc as [[Hc _]%andb_true_iff _]. by apply Z.eqb_eq.
Qed.

End batch.

Section batch_all.
Context {T : Type} (caps : list Z) (np ng : nat).

Lemma wp_try_recv_batch_into fuel limit rx (b : nat -> nat) tr (output : list T) x :
  chan caps np ng rx b tr x -> (2 * limit + bound caps b < fuel)%nat ->
  wp (cguar caps np ng) 0 (Receiver_try_recv_batch_into Deferred fuel output (Z.of_nat limit) rx)
    (fun r y => batched caps np ng b tr output r.1.1 r.1.2 r.2 y) x.
Proof.
  intros Hx Hf. unfold Receiver_try_recv_batch_into. eapply wp_call; [by eapply (wp_drain_into (Adm := unit))|]. clear x Hx.
  intros [[[d out] adm'] rx'] x Hx. cbn [fst snd] in *.
  apply (wp_batch_end caps np ng _ d b tr output (Z.of_nat limit) out rx' (fun r rx => (r, out, rx)) (fun a => a)); [done| |done].
  intros Hc. apply andb_true_iff in Hc as [Hc _]. by apply Z.eqb_eq.
Qed.

End batch_all.
