(* ===== verification/MpscSendConc.v ===== *)
(** * MPSC senders under every interleaving

    The sending operations of [src/src/mpsc/sender.rs] while the receiver and
    the other senders run.  A sender owns the write side of its ring and may
    mark its lane ready a bounded number of times; closing publishes everything
    it wrote and is final. *)

From S2P Require Import Prelude Prog Config Wait Ready YRing YRingInv YRingSpec YRingThm YRingConc YRingClose Handoff MpscLane MpscLaneInv Mpsc MpscConc MpscLaneConc.
Local Open Scope prog_scope.

Section send.
Context {T : Type} (caps : list Z) (np ng : nat).
Implicit Types (s : Shared T) (acc : list T) (x : cst T).
#[local] Abbreviation cok := (cok (T := T) caps np ng).
#[local] Abbreviation cguar := (cguar (T := T) caps np ng).
#[local] Abbreviation at_lane := (at_lane (T := T) caps).
#[local] Abbreviation Frame := (Frame (T := T) caps np ng).
#[local] Abbreviation prod := (pa (T := T)).

(** Sender [k] has written [acc] and may mark its lane [m] more times. *)
Definition send_ok (k : nat) (p : Producer) acc (closed : bool) (m : nat) x : Prop :=
  cok x /\ at_lane k (fun cap z _ mk => ((exists t, prod cap 0 p t acc z) /\ dropped z = closed) /\ (m <= mk)%nat) x.

Lemma send_stable k p acc closed m : stable cguar (S k) (send_ok k p acc closed m).
Proof.
  apply stable_and; [intros x y _ H; by eapply rely_cok|]. apply at_lane_stable; [done|].
  apply (lane_stable_and 0 (fun cap z => (exists t, prod cap 0 p t acc z) /\ dropped z = closed)); [|cbn; lia|].
  - intros cap z z' [[t Ht] Hd] Hr. split.
    + exists t. by eapply stablec; [apply pa_stable|exact Ht|exact Hr].
    + destruct Hr as (j & Hj & _ & Hc & _). destruct j as [|j]; [done|]. cbn in Hc. congruence.
  - intros st mk st' mk' H E. cbn in *. by subst.
Qed.

Lemma send_frame k p acc closed m : Frame (S k) None (send_ok k p acc closed m).
Proof.
  split; [apply send_stable|by intros x []|]. intros x y [_ (cap & hr & g & K1 & K2 & K3 & K4)] Hy [_ Hu].
  split; [done|]. destruct (Hu k) as (E1 & E2 & E3); [done|]. exists cap, hr, g. by rewrite E1, E2.
Qed.

Lemma send_lt k p acc closed m x : send_ok k p acc closed m x -> (k < length caps)%nat.
Proof. intros [_ (cap & hr & g & K1 & _)]. by eapply lookup_lt_Some. Qed.

Lemma wp_ret_send {A} k p acc closed m (a : A) Q x :
  send_ok k p acc closed m x -> (forall y, send_ok k p acc closed m y -> Q a y) -> wp cguar (S k) (Ret a) Q x.
Proof. intros Hx HQ. eapply wp_retP; [apply (send_stable k p acc closed m)|exact Hx|exact HQ]. Qed.

Lemma wp_send_inert {A B} k p acc closed m (q : prog (Shared T) A) (c : A -> prog (Shared T) B) Q x :
  inert caps np ng q -> send_ok k p acc closed m x ->
  (forall a y, send_ok k p acc closed m y -> wp cguar (S k) (c a) Q y) -> wp cguar (S k) (bind q c) Q x.
Proof. intros Hq Hx Hk. eapply wp_call; [eapply wp_inert; [apply send_frame|done|exact Hx]|]. auto. Qed.

(** An operation of the ring that does not close it. *)
Lemma wp_send_ring {A} k p acc m (q : prog (Ring T) A) (P : A -> Producer) (W : A -> list T) x :
  send_ok k p acc false m x -> keeps ring_producer_dropped q ->
  (forall cap z t, prod cap 0 p t acc z -> wp (guar cap 0) 0 q (fun a z => exists t', prod cap 0 (P a) t' (W a) z) z) ->
  wp cguar (S k) (on_lane_ring (Z.of_nat k) (on_hring q)) (fun a y => send_ok k (P a) (W a) false m y) x.
Proof.
  intros [Hc (cap & hr & g & K1 & K2 & K3 & [[t Ht] Hd] & Hm)] Hq Hw.
  eapply wp_mono; [|eapply (wp_ring caps np ng (S k) k q (fun cap a z => (exists t', prod cap 0 (P a) t' (W a) z) /\ open_at 0 z)
    (fun _ mk => (m <= mk)%nat) cok); [done|apply Frame_cok|done| |]].
  - intros a y [Hy (cap' & hr' & g' & L1 & L2 & L3 & [L4 L5] & L6)]. split; [done|]. by exists cap', hr', g'.
  - intros st mk st' mk' H E. cbn in *. by subst.
  - exists cap, hr, g. split_and!; auto. cbn [role]. apply wp_keeps; [lia|done|by eapply Hw| |done].
    by eapply (co_ring _ _ _ _ Hc).
Qed.

(** ** Closing the ring *)

Lemma wp_send_close k p acc closed m x :
  send_ok k p acc closed m x ->
  wp cguar (S k) (on_lane_ring (Z.of_nat k) (on_hring (Producer_close p))) (fun _ => send_ok k p acc true m) x.
Proof.
  intros [Hc (cap & hr & g & K1 & K2 & K3 & [[t Ht] Hd] & Hm)].
  eapply wp_mono; [|eapply (wp_ring caps np ng (S k) k (Producer_close p) (fun cap _ z => (exists t', prod cap 0 p t' acc z) /\ dropped z = true)
    (fun _ mk => (m <= mk)%nat) cok); [done|apply Frame_cok|done| |]].
  - intros a y [Hy Ha]. by split.
  - intros st mk st' mk' H E. cbn in *. by subst.
  - exists cap, hr, g. split_and!; auto. cbn [role]. eapply wp_producer_closec; [exact Ht|]. by eapply (co_ring _ _ _ _ Hc).
Qed.

(** ** Marking the lane ready *)

Lemma wp_mark_ready k p acc closed m x :
  send_ok k p acc closed (S m) x ->
  wp cguar (S k) (Shared_mark_ready (Z.of_nat k)) (fun _ => send_ok k p acc closed m) x.
Proof.
  intros Hx. unfold Shared_mark_ready, LaneSignal_mark, on_index. apply wp_lift_bind.
  set (P := fun (m : nat) (cap : Z) (z : Ring T * ghost T) (_ : Z) mk =>
    ((exists t, prod cap 0 p t acc z) /\ dropped z = closed) /\ (m <= mk)%nat).
  eapply (wp_signal caps np ng (S k) k (fun sg => ((signal_state sg, signal_page sg, signal_bit sg), with_signal_state PENDING sg)) _
    (P (S m)) (fun r cap z st mk => (0 <= r.1.2 < Z.of_nat np /\ is_u64 r.2) /\ P m cap z st mk)).
  - done.
  - apply (Frame_cok caps np ng (S k)).
  - apply Hx.
  - apply Hx.
  - apply (lane_stable_and 0 (fun cap z => (exists t, prod cap 0 p t acc z) /\ dropped z = closed)); [|cbn; lia|].
    + intros cap z z' [[t Ht] Hd] Hr. split.
      * exists t. by eapply stablec; [apply pa_stable|exact Ht|exact Hr].
      * destruct Hr as (j & Hj & _ & Hc & _). destruct j as [|j]; [done|]. cbn in Hc. congruence.
    + intros st mk st' mk' H E. cbn in *. by subst.
  - done.
  - intros sg cap z mk Hpg [H1 H2]. destruct mk as [|mk]; [lia|]. exists mk. split; [by right|]. split; [done|]. split; [done|lia].
  - intros [[old page] bit] y Hy (cap & hr & g & K1 & K2 & K3 & [[Hp Hb] K4]). cbn [fst snd] in *.
    assert (Hs : send_ok k p acc closed m y) by (split; [done|]; by exists cap, hr, g).
    destruct (old =? IDLE); [|by eapply wp_ret_send].
    eapply wp_mono; [|eapply (wp_inert caps np ng (S k) (send_ok k p acc closed m)); [apply send_frame| |exact Hs]]; [done|].
    apply (inert_index caps np ng _ (fun _ => True)). eapply index_post_bind; [by apply index_page_mark|done].
Qed.

Lemma inert_notify : inert caps np ng (data_notify (T := T)).
Proof. apply inert_waiter, no_fail_notify. Qed.

(** ** The operations of a sender *)

(** The handle of sender [k]. *)
Definition is_sender (k : nat) (p : Producer) (tx : Sender) : Prop :=
  snd_ring tx = Z.of_nat k /\ snd_signal tx = Z.of_nat k /\ snd_producer tx = mkRProducer p.

(** What an operation leaves: it wrote the values [ws] and used at most one
    mark. *)
Definition sent k acc m (ws : list T) (tx : Sender) x : Prop :=
  exists p, is_sender k p tx /\ send_ok k p (acc ++ ws) false m x.

Lemma sent_stable k acc m ws tx : stable cguar (S k) (sent k acc m ws tx).
Proof. intros x y (p & H1 & H2) Hr. exists p. split; [done|]. by eapply send_stable. Qed.

Lemma sent_nil k p acc m tx x : is_sender k p tx -> send_ok k p acc false m x -> sent k acc m [] tx x.
Proof. intros H1 H2. exists p. by rewrite app_nil_r. Qed.

Lemma wp_is_dropped {B} k p acc m (c : bool -> prog (Shared T) B) Q x :
  send_ok k p acc false m x -> (forall d y, send_ok k p acc false m y -> wp cguar (S k) (c d) Q y) ->
  wp cguar (S k) (bind (on_lane_ring (Z.of_nat k) (RProducer_is_consumer_dropped Deferred)) c) Q x.
Proof.
  intros Hx Hc. eapply wp_call; [|exact Hc].
  eapply (wp_send_ring k p acc m Producer_is_consumer_dropped (fun _ => p) (fun _ => acc)); [exact Hx|split; done|].
  intros cap z t Ht. change Producer_is_consumer_dropped with (bind (load (S := Ring T) ring_consumer_dropped) (fun u => Ret u)).
  eapply wp_load; [apply pa_owned|exact Ht|]. intros r g H. eapply wp_retP; [apply pa_owned|exact H|eauto].
Qed.

Lemma wp_push_error k p acc m tx v x :
  is_sender k p tx -> send_ok k p acc false m x ->
  wp cguar (S k) (Sender_push_error Deferred tx v) (fun _ => send_ok k p acc false m) x.
Proof.
  intros (E1 & _) Hx. unfold Sender_push_error. rewrite E1. eapply wp_send_inert; [apply inert_load|exact Hx|].
  clear x Hx. intros alive x Hx. destruct (negb alive).
  - eapply wp_ret_send; [exact Hx|]. by intros y Hy.
  - eapply wp_is_dropped; [exact Hx|]. intros d y Hy. eapply wp_ret_send; [exact Hy|done].
Qed.

Lemma wp_push_flush_lane k p acc m v x :
  send_ok k p acc false m x ->
  wp cguar (S k) (on_lane_ring (Z.of_nat k) (RProducer_push_and_flush Deferred (mkRProducer p) v)) (fun r y =>
    exists p', r.2 = mkRProducer p' /\ send_ok k p' (acc ++ if is_ok r.1 then [v] else []) false m y) x.
Proof.
  intros Hx. unfold RProducer_push_and_flush, push_then_flush. cbn [COORDINATED negb rp_inner]. unfold on_lane_ring. apply wp_focus_bind.
  eapply wp_call.
  { eapply (wp_send_ring k p acc m (Producer_push p v) snd (fun a => acc ++ if is_ok a.1 then [v] else [])); [exact Hx|auto with fanring|].
    intros cap z t Ht. eapply wp_mono; [|eapply wp_push, Ht]. intros [[[]|w] p'] y Hy; cbn [fst snd is_ok].
    - by exists t.
    - destruct Hy as [-> Hy]. exists t. by rewrite app_nil_r. }
  clear x Hx. intros [[[]|w] p'] x Hx; cbn [fst snd is_ok] in Hx.
  - apply wp_focus_bind. eapply wp_call.
    { eapply (wp_send_ring k p' (acc ++ [v]) m (Producer_flush p') (fun _ => p') (fun _ => acc ++ [v])); [exact Hx|auto with fanring|].
      intros cap z t Ht. eapply wp_mono; [|eapply wp_flush, Ht]. intros u y Hy. exists (zlength (acc ++ [v])). exact Hy. }
    clear x Hx. intros u x Hx. eapply wp_ret_send; [exact Hx|]. intros y Hy. by exists p'.
  - eapply wp_ret_send; [exact Hx|]. intros y Hy. by exists p'.
Qed.

Lemma is_sender_with k p p' tx : is_sender k p tx -> is_sender k p' (with_producer (mkRProducer p') tx).
Proof. by intros (E1 & E2 & _). Qed.

Lemma send_fewer k p acc closed m m' x : (m' <= m)%nat -> send_ok k p acc closed m x -> send_ok k p acc closed m' x.
Proof. intros H [Hc (cap & hr & g & K1 & K2 & K3 & K4 & K5)]. split; [done|]. exists cap, hr, g. split_and!; auto; [apply K4..|lia]. Qed.

(** A send that succeeded wrote its value and may have used a mark; one that
    failed did nothing. *)
Definition tried k acc m (v : T) (r : result unit (TrySendError T)) (tx : Sender) x : Prop :=
  if is_ok r then sent k acc m [v] tx x else sent k acc (S m) [] tx x.

Lemma tried_stable k acc m v r tx : stable cguar (S k) (tried k acc m v r tx).
Proof. unfold tried. destruct (is_ok r); apply sent_stable. Qed.

Lemma wp_try_send_inner k p acc m tx v x :
  is_sender k p tx -> send_ok k p acc false (S m) x ->
  wp cguar (S k) (Sender_try_send_inner Deferred tx v) (fun r y => tried k acc m v r.1.1 r.2 y) x.
Proof.
  intros Htx Hx. unfold Sender_try_send_inner. pose proof Htx as (E1 & E2 & E3). rewrite E1.
  eapply wp_is_dropped; [exact Hx|]. clear x Hx. intros d x Hx. destruct d.
  { eapply wp_ret_send; [exact Hx|]. intros y Hy. by eapply sent_nil. }
  rewrite E3. eapply wp_call; [eapply wp_push_flush_lane, Hx|]. clear x Hx. intros [r p1] x (p' & E & Hx). cbn [fst snd] in *. subst p1.
  destruct r as [[]|w]; cbn [is_ok] in Hx.
  - cbn [snd_signal with_producer]. rewrite E2. eapply wp_call; [eapply wp_mark_ready, Hx|]. clear x Hx. intros wake x Hx.
    eapply wp_ret_send; [exact Hx|]. intros y Hy. exists p'. split; [by eapply is_sender_with|done].
  - eapply wp_call; [eapply wp_push_error; [by eapply is_sender_with|exact Hx]|]. clear x Hx. intros e x Hx.
    eapply wp_ret_send; [exact Hx|]. intros y Hy. exists p'. split; [by eapply is_sender_with|done].
Qed.

Lemma wp_try_send_keep k p acc m tx v x :
  is_sender k p tx -> send_ok k p acc false (S m) x ->
  wp cguar (S k) (Sender_try_send Deferred tx v) (fun r y => tried k acc m v r.1 r.2 y) x.
Proof.
  intros Htx Hx. unfold Sender_try_send. eapply wp_call; [by eapply wp_try_send_inner|].
  clear x Hx. intros [[r wake] tx'] x Hx. cbn [fst snd] in *.
  eapply (wp_call _ _ _ _ (fun _ => tried k acc m v r tx')).
  - unfold tried in *. destruct (is_ok r); destruct Hx as (p' & Htx' & Hx);
      (eapply wp_mono; [|eapply wp_inert; [apply send_frame|destruct wake; [apply inert_notify|done]|exact Hx]]; intros u y Hy; by exists p').
  - intros u y Hy. eapply wp_retP; [apply (tried_stable k acc m v r tx')|exact Hy|done].
Qed.

Lemma wp_try_send k p acc m tx v x :
  is_sender k p tx -> send_ok k p acc false (S m) x ->
  wp cguar (S k) (Sender_try_send Deferred tx v) (fun r y => sent k acc m (if is_ok r.1 then [v] else []) r.2 y) x.
Proof.
  intros Htx Hx. eapply wp_mono; [|by eapply wp_try_send_keep]. intros [r tx'] y Hy. unfold tried in Hy. cbn [fst snd] in *.
  destruct (is_ok r); [done|]. destruct Hy as (p' & H1 & H2). exists p'. split; [done|]. by eapply send_fewer; [|exact H2]; lia.
Qed.

Lemma wp_try_send_unsignaled k p acc m tx v x :
  is_sender k p tx -> send_ok k p acc false m x ->
  wp cguar (S k) (Sender_try_send_unsignaled Deferred tx v) (fun r y => sent k acc m (if is_ok r.1 then [v] else []) r.2 y) x.
Proof.
  intros Htx Hx. unfold Sender_try_send_unsignaled. pose proof Htx as (E1 & E2 & E3). rewrite E1.
  eapply wp_is_dropped; [exact Hx|]. clear x Hx. intros d x Hx. destruct d.
  { eapply wp_ret_send; [exact Hx|]. intros y Hy. exists p. split; [done|]. cbn. by rewrite app_nil_r. }
  rewrite E3. eapply wp_call; [eapply wp_push_flush_lane, Hx|]. clear x Hx. intros [r p1] x (p' & E & Hx). cbn [fst snd] in *. subst p1.
  destruct r as [[]|w]; cbn [is_ok] in Hx.
  - eapply wp_ret_send; [exact Hx|]. intros y Hy. exists p'. split; [by eapply is_sender_with|done].
  - eapply wp_call; [eapply wp_push_error; [by eapply is_sender_with|exact Hx]|]. clear x Hx. intros e x Hx.
    eapply wp_ret_send; [exact Hx|]. intros y Hy. exists p'. split; [by eapply is_sender_with|done].
Qed.

Lemma wp_sender_flush k p acc m tx x :
  is_sender k p tx -> send_ok k p acc false (S m) x ->
  wp cguar (S k) (Sender_flush tx) (fun _ => send_ok k p acc false m) x.
Proof.
  intros (E1 & E2 & E3) Hx. unfold Sender_flush, RProducer_flush. rewrite E1, E2, E3. cbn [rp_inner]. eapply wp_call.
  { eapply (wp_send_ring k p acc (S m) (Producer_flush p) (fun _ => p) (fun _ => acc)); [exact Hx|auto with fanring|].
    intros cap z t Ht. eapply wp_mono; [|eapply wp_flush, Ht]. intros u y Hy. exists (zlength acc). exact Hy. }
  clear x Hx. intros u x Hx. eapply wp_call; [eapply wp_mark_ready, Hx|]. clear x Hx. intros wake x Hx.
  eapply wp_inert; [apply send_frame| |exact Hx]. destruct wake; [apply inert_notify|done].
Qed.

Lemma wp_sender_disconnected k p acc m tx x :
  is_sender k p tx -> send_ok k p acc false m x ->
  wp cguar (S k) (Sender_is_disconnected Deferred tx) (fun _ => send_ok k p acc false m) x.
Proof.
  intros (E1 & _) Hx. unfold Sender_is_disconnected. rewrite E1. eapply wp_send_inert; [apply inert_load|exact Hx|].
  intros alive y Hy. destruct (negb alive); [by eapply wp_ret_send|]. apply wp_bind_ret.
  eapply wp_is_dropped; [exact Hy|]. intros d z Hz. by eapply wp_ret_send.
Qed.

Lemma wp_try_send_deferred k p acc m tx v x :
  is_sender k p tx -> send_ok k p acc false (S m) x ->
  wp cguar (S k) (Sender_try_send_deferred Deferred tx v) (fun r y => sent k acc m (if is_ok r.1 then [v] else []) r.2 y) x.
Proof.
  intros Htx Hx. unfold Sender_try_send_deferred, RProducer_push_deferred. pose proof Htx as (E1 & E2 & E3). rewrite E1, E3. cbn [rp_inner].
  eapply wp_is_dropped; [exact Hx|]. clear x Hx. intros d x Hx. destruct d.
  { eapply wp_ret_send; [exact Hx|]. intros y Hy. exists p. split; [done|]. cbn. rewrite app_nil_r. by eapply send_fewer; [|exact Hy]; lia. }
  eapply (wp_call _ _ _ _ (fun r y => exists p', r.2 = mkRProducer p' /\ send_ok k p' (acc ++ if is_ok r.1 then [v] else []) false (S m) y)).
  { unfold on_lane_ring. apply wp_focus_bind. eapply wp_call.
    { eapply (wp_send_ring k p acc (S m) (Producer_push p v) snd (fun a => acc ++ if is_ok a.1 then [v] else [])); [exact Hx|auto with fanring|].
      intros cap z t Ht. eapply wp_mono; [|eapply wp_push, Ht]. intros [[[]|w] p'] y Hy; cbn [fst snd is_ok].
      - by exists t.
      - destruct Hy as [-> Hy]. exists t. by rewrite app_nil_r. }
    intros [r p'] y Hy. eapply wp_ret_send; [exact Hy|]. intros z Hz. by exists p'. }
  clear x Hx. intros [r p1] x (p' & E & Hx). cbn [fst snd] in *. subst p1. destruct r as [[]|w]; cbn [is_ok] in Hx.
  - eapply wp_ret_send; [exact Hx|]. intros y Hy. exists p'. split; [by eapply is_sender_with|]. cbn. by eapply send_fewer; [|exact Hy]; lia.
  - assert (Htx' : is_sender k p' (with_producer (mkRProducer p') tx)) by (by eapply is_sender_with).
    eapply wp_call; [eapply wp_sender_flush; [exact Htx'|exact Hx]|]. clear x Hx. intros u x Hx.
    eapply wp_call; [eapply wp_sender_disconnected; [exact Htx'|exact Hx]|]. clear x Hx. intros gone x Hx.
    eapply wp_ret_send; [exact Hx|]. intros y Hy. by exists p'.
Qed.

Lemma wp_sender_is_full k p acc m tx x :
  is_sender k p tx -> send_ok k p acc false m x ->
  wp cguar (S k) (Sender_is_full tx) (fun r y => sent k acc m [] r.2 y) x.
Proof.
  intros Htx Hx. unfold Sender_is_full, RProducer_is_full. pose proof Htx as (E1 & E2 & E3). rewrite E1, E3. cbn [rp_inner].
  eapply (wp_call _ _ _ _ (fun r y => exists p', r.2 = mkRProducer p' /\ send_ok k p' acc false m y)).
  - unfold on_lane_ring. apply wp_focus_bind. eapply wp_call.
    { eapply (wp_send_ring k p acc m (Producer_is_full p) snd (fun _ => acc)); [exact Hx|auto with fanring|].
      intros cap z t Ht. eapply wp_mono; [|eapply wp_is_full, Ht]. intros [f p'] y Hy. by exists t. }
    intros [r p'] y Hy. eapply wp_ret_send; [exact Hy|]. intros z Hz. by exists p'.
  - intros [r p1] y (p' & E & Hy). cbn [fst snd] in *. subst p1. eapply wp_ret_send; [exact Hy|]. intros z Hz.
    exists p'. split; [by eapply is_sender_with|]. by rewrite app_nil_r.
Qed.

Lemma wp_sender_drop k p acc m tx x :
  is_sender k p tx -> send_ok k p acc false (S m) x ->
  wp cguar (S k) (Sender_drop tx) (fun _ => send_ok k p acc true m) x.
Proof.
  intros (E1 & E2 & E3) Hx. unfold Sender_drop, RProducer_close. rewrite E1, E2, E3. cbn [rp_inner].
  eapply wp_call; [eapply wp_send_close, Hx|]. clear x Hx. intros u1 x Hx.
  eapply wp_call; [eapply wp_mark_ready, Hx|]. clear x Hx. intros u2 x Hx.
  eapply wp_send_inert; [by intros s|exact Hx|]. clear x Hx. intros u3 x Hx.
  eapply wp_send_inert; [apply inert_notify|exact Hx|]. clear x Hx. intros u4 x Hx.
  by eapply wp_send_close.
Qed.

End send.

(** ** Sender threads *)

(** The non-blocking operations of a sender that is dropped at the end. *)
Inductive send_cmd (T : Type) : Type :=
| STrySend (v : T) | SUnsignaled (v : T) | SDeferred (v : T) | SFlush | SIsFull | SIsDisconnected.
Arguments STrySend {T} v.
Arguments SUnsignaled {T} v.
Arguments SDeferred {T} v.
Arguments SFlush {T}.
Arguments SIsFull {T}.
Arguments SIsDisconnected {T}.

(** The values an operation had accepted, and the handle it leaves. *)
Definition exec_send {T} (cmd : send_cmd T) (tx : Sender) : prog (Shared T) (list T * Sender) :=
  match cmd with
  | STrySend v => let* '(r, tx) := Sender_try_send Deferred tx v in Ret (if is_ok r then [v] else [], tx)
  | SUnsignaled v => let* '(r, tx) := Sender_try_send_unsignaled Deferred tx v in Ret (if is_ok r then [v] else [], tx)
  | SDeferred v => let* '(r, tx) := Sender_try_send_deferred Deferred tx v in Ret (if is_ok r then [v] else [], tx)
  | SFlush => let* _ := Sender_flush tx in Ret ([], tx)
  | SIsFull => let* '(_, tx) := Sender_is_full tx in Ret ([], tx)
  | SIsDisconnected => let* _ := Sender_is_disconnected Deferred tx in Ret ([], tx)
  end.

Fixpoint sender_thread {T} (cmds : list (send_cmd T)) (acc : list T) (tx : Sender) : prog (Shared T) (list T) :=
  match cmds with
  | [] => let* _ := Sender_drop tx in Ret acc
  | cmd :: cmds' =>
      let* '(ws, tx) := exec_send cmd tx in
      sender_thread cmds' (acc ++ ws) tx
  end.

Section threads.
Context {T : Type} (caps : list Z) (np ng : nat).
#[local] Abbreviation cguar := (cguar (T := T) caps np ng).
#[local] Abbreviation send_ok := (send_ok (T := T) caps np ng).
#[local] Abbreviation sent := (sent (T := T) caps np ng).

Lemma wp_exec_send k p acc m cmd tx x :
  is_sender k p tx -> send_ok k p acc false (S m) x ->
  wp cguar (S k) (exec_send cmd tx) (fun r y => sent k acc m r.1 r.2 y) x.
Proof.
  intros Htx Hx. assert (Hret : forall ws tx' y, sent k acc m ws tx' y -> wp cguar (S k) (Ret (ws, tx')) (fun r y => sent k acc m r.1 r.2 y) y).
  { intros ws tx' y (p' & H1 & H2). eapply wp_ret_send; [exact H2|]. intros z Hz. by exists p'. }
  destruct cmd as [v|v|v| | |]; cbn [exec_send].
  - eapply wp_call; [eapply wp_try_send; [exact Htx|exact Hx]|]. intros [r tx'] y Hy. by apply Hret.
  - eapply wp_call; [eapply wp_try_send_unsignaled; [exact Htx|by eapply (send_fewer _ _ _ _ _ _ _ (S m) m); [lia|]]|]. intros [r tx'] y Hy. by apply Hret.
  - eapply wp_call; [eapply wp_try_send_deferred; [exact Htx|exact Hx]|]. intros [r tx'] y Hy. by apply Hret.
  - eapply wp_call; [eapply wp_sender_flush; [exact Htx|exact Hx]|]. intros u y Hy. apply Hret. exists p. by rewrite app_nil_r.
  - eapply wp_call; [eapply wp_sender_is_full; [exact Htx|by eapply (send_fewer _ _ _ _ _ _ _ (S m) m); [lia|]]|]. intros [r tx'] y Hy. by apply Hret.
  - eapply wp_call; [eapply wp_sender_disconnected; [exact Htx|by eapply (send_fewer _ _ _ _ _ _ _ (S m) m); [lia|]]|].
    intros u y Hy. apply Hret. exists p. by rewrite app_nil_r.
Qed.

(** A sender thread ends with its ring closed and its accepted values written. *)
Lemma wp_mpsc_sender_thread k cmds : forall p acc tx x,
  is_sender k p tx -> send_ok k p acc false (S (length cmds)) x ->
  wp cguar (S k) (sender_thread cmds acc tx) (fun ws y => exists p', send_ok k p' ws true 0 y) x.
Proof.
  induction cmds as [|cmd cmds IH]; intros p acc tx x Htx Hx; cbn [sender_thread length] in *.
  - eapply wp_call; [eapply wp_sender_drop; [exact Htx|exact Hx]|]. intros u y Hy. eapply wp_ret_send; [exact Hy|]. eauto.
  - eapply wp_call; [eapply wp_exec_send; [exact Htx|exact Hx]|]. intros [ws tx'] y (p' & Htx' & Hy). cbn [fst snd] in *.
    by eapply IH.
Qed.

End threads.
