(* ===== verification/MpscSetup.v ===== *)
(** * Channels with registered senders

    A channel built by [channel_with_policy] on which further senders were
    registered before anybody sends or receives: the state the interleavings
    of MpscThm start from.  Lane [k] has ring [k], signal [k] and slot [k]; the
    lanes but the first wait in the registry for the receiver. *)

From S2P Require Import Prelude Prog Config Wait Ready YRing YRingInv YRingSpec YRingThm YRingConc YRingClose Handoff HandoffSeq MpscLane MpscLaneInv Mpsc MpscRegistry MpscConc MpscLaneConc MpscRecvConc.
Local Open Scope prog_scope.

(** The handles of the registry and of the index are valid, its words have 64
    bits. *)
Definition shape (reg : Registry) (idx : ready_store) : Prop :=
  length (reg_groups reg) = length (rs_groups idx) /\
  Forall (fun h => 0 <= h < zlength (rs_groups idx)) (reg_groups reg) /\
  Forall (fun h => 0 <= h < zlength (rs_pages idx)) (reg_pages reg) /\
  index_ok idx /\ words_ok idx.

Lemma Forall_weaken_bound (l : list Z) (a b : Z) : a <= b -> Forall (fun h => 0 <= h < a) l -> Forall (fun h => 0 <= h < b) l.
Proof. intros H Hl. eapply Forall_impl; [exact Hl|]. cbn. lia. Qed.

Lemma index_ok_snoc_group idx g : index_ok idx -> index_ok (mkReadyStore (rs_groups idx ++ [g]) (rs_pages idx) (rs_signals idx)).
Proof.
  intros [H1 H2]. split; [done|]. cbn. eapply Forall_impl; [exact H2|]. intros p [g0 Hg]. exists g0.
  pose proof (zlookup_Some_range _ _ _ Hg). by rewrite zlookup_app_l by lia.
Qed.

Lemma grow_groups_shape fuel gid : forall reg idx,
  shape reg idx -> shape (grow_groups fuel gid reg idx).1 (grow_groups fuel gid reg idx).2.
Proof.
  induction fuel as [|fuel IH]; intros reg idx H; cbn [grow_groups]; destruct (_ <? _); try done.
  apply IH. destruct H as (L & G & P & I & W1 & W2 & W3).
  split; [|split; [|split; [|split; [|split; [|split]]]]]; cbn.
  - rewrite !length_app. cbn. lia.
  - rewrite zlength_snoc. apply Forall_app. split; [eapply Forall_weaken_bound; [|exact G]; lia|].
    constructor; [|done]. pose proof (zlength_nonneg (rs_groups idx)). lia.
  - done.
  - by apply index_ok_snoc_group.
  - apply Forall_app. split; [done|]. constructor; [|done]. done.
  - done.
  - done.
Qed.

Lemma grow_pages_shape fuel pid : forall reg idx reg' idx',
  shape reg idx -> grow_pages fuel pid reg idx = Done (reg', idx') -> shape reg' idx'.
Proof.
  induction fuel as [|fuel IH]; intros reg idx reg' idx' H; cbn [grow_pages]; destruct (_ <? _); try (intros [= <- <-]; done).
  set (gid := _ / _). pose proof (grow_groups_shape (Z.to_nat (gid + 1)) gid reg idx H) as H1.
  destruct (grow_groups _ gid reg idx) as [reg1 idx1]. cbn [fst snd] in H1.
  destruct (zlookup (reg_groups reg1) gid) as [gh|]; [|done]. destruct (zlookup (rs_groups idx1) gh) as [g|] eqn:Eg; [|done].
  unfold ReadyPage_new. destruct (negb _); [done|]. apply IH. clear IH.
  destruct H1 as (L & G & P & [I1 I2] & W1 & W2 & W3).
  split; [|split; [|split; [|split; [|split; [|split]]]]]; cbn.
  - done.
  - done.
  - rewrite zlength_snoc. apply Forall_app. split; [eapply Forall_weaken_bound; [|exact P]; lia|].
    constructor; [|done]. pose proof (zlength_nonneg (rs_pages idx1)). lia.
  - split; cbn.
    + eapply Forall_impl; [exact I1|]. intros l [p Hp]. exists p. pose proof (zlookup_Some_range _ _ _ Hp). by rewrite zlookup_app_l by lia.
    + apply Forall_app. split; [done|]. constructor; [|done]. cbn. eauto.
  - done.
  - apply Forall_app. split; [done|]. constructor; [|done]. cbn. split; [done|apply is_u64_shift].
  - done.
Qed.

(** No bit is set in the index. *)
Definition blank (idx : ready_store) : Prop :=
  Forall (fun g => group_bits g = 0) (rs_groups idx) /\ Forall (fun p => page_bits p = 0) (rs_pages idx).

Lemma grow_groups_blank fuel gid : forall reg idx,
  blank idx -> blank (grow_groups fuel gid reg idx).2 /\ reg_pages (grow_groups fuel gid reg idx).1 = reg_pages reg.
Proof.
  induction fuel as [|fuel IH]; intros reg idx H; cbn [grow_groups]; destruct (_ <? _); try done.
  match goal with |- context [grow_groups fuel gid ?r ?i] => destruct (IH r i) as [Hb E]; [|split; [exact Hb|exact E]] end.
  destruct H as [H1 H2]. split; [|done]. cbn. apply Forall_app. split; [done|by repeat constructor].
Qed.

Lemma grow_pages_blank fuel pid : forall reg idx reg' idx',
  blank idx -> grow_pages fuel pid reg idx = Done (reg', idx') -> blank idx' /\ reg_pages reg `prefix_of` reg_pages reg'.
Proof.
  induction fuel as [|fuel IH]; intros reg idx reg' idx' H; cbn [grow_pages]; destruct (_ <? _); try (intros [= <- <-]; done).
  set (gid := _ / _). destruct (grow_groups_blank (Z.to_nat (gid + 1)) gid reg idx H) as [[H1 H2] E].
  destruct (grow_groups _ gid reg idx) as [reg1 idx1]. cbn [fst snd] in *.
  destruct (zlookup (reg_groups reg1) gid) as [gh|]; [|done]. destruct (zlookup (rs_groups idx1) gh) as [g|]; [|done].
  unfold ReadyPage_new. destruct (negb _); [done|]. intros Eg. apply IH in Eg as [Hb Hp].
  - split; [done|]. etransitivity; [|exact Hp]. cbn. rewrite E. by apply prefix_app_r.
  - split; [done|]. cbn. apply Forall_app. split; [done|by repeat constructor].
Qed.

(** The signal of lane [k] names the page and the bit of its slot. *)
Definition signal_placed (reg : Registry) (k : nat) (sg : LaneSignal) : Prop :=
  signal_bit sg = Z.shiftl 1 (Z.of_nat k mod LANES_PER_PAGE) /\ zlookup (reg_pages reg) (Z.of_nat k / LANES_PER_PAGE) = Some (signal_page sg).

Section setup.
Context {T : Type}.
Implicit Types (s : Shared T) (caps : list Z).

(** [length caps] lanes are registered, only the first is the receiver's. *)
Record started caps s : Prop := {
  st_lanes : (0 < length caps)%nat /\ Z.of_nat (length caps) < usize_mod;
  st_rings : Forall2 unused caps (sh_rings s);
  st_signals : length (rs_signals (sh_index s)) = length caps /\
    Forall (fun l => signal_state l = IDLE) (rs_signals (sh_index s));
  st_shape : shape (sh_registry s) (sh_index s) /\ topo_ok (sh_registry s) (sh_index s);
  st_pending : reg_pending (sh_registry s) =
    (fun k => mkPendingLane (lane_at k) (Z.of_nat k) (Z.of_nat k) (mkRConsumer (Some (mkConsumer 0 0)))) <$> seq 1 (length caps - 1);
  st_slots : reg_free (sh_registry s) = [] /\ reg_next_slot (sh_registry s) = Z.of_nat (length caps);
  st_counts : sh_registry_generation s = Z.of_nat (length caps - 1) /\ sh_registered_lanes s = Z.of_nat (length caps) /\
    sh_live_senders s = Z.of_nat (length caps) /\ sh_receiver_alive s = true;
  st_blank : blank (sh_index s);
  st_placed : forall k sg, rs_signals (sh_index s) !! k = Some sg -> signal_placed (sh_registry s) k sg;
  st_first : length caps = 1%nat -> reg_pages (sh_registry s) = [0] /\ reg_groups (sh_registry s) = [0];
  st_cells : sh_data_waiter s = WaitCell_new /\ Forall (fun l => space_waiter l = WaitCell_new) (rs_signals (sh_index s))
}.

(** The handle of sender [k]. *)
Definition sender_at (w : WaitStrategy) (k : nat) : Sender :=
  mkSender (Z.of_nat k) (mkRProducer (mkProducer 0 0)) (lane_at k) (Z.of_nat k) w.

Lemma build_started capacity id : 0 < capacity <= 2 ^ 62 ->
  exists cap s lane rx, capacity <= cap < 2 * capacity /\ started [cap] s /\
    channel_with_policy (T := T) capacity id = Done (s, sender_at Park 0, rx) /\
    rx = mkReceiver [Some lane] [0] [0] [] [false] 0 0 READY_POLL_INTERVAL 0 (2 ^ Z.log2_up capacity) Park /\
    lane = mkLane (lane_at 0) 0 0 (mkRConsumer (Some (mkConsumer 0 0))) 0 0 (Z.min (Z.max (div_ceil cap 2) MIN_RELEASE_BATCH) cap) 0 0 false.
Proof.
  intros Hc. destruct (ring_spsc_unused (T := T) capacity Hc) as (cap & hr & Hr & E & Hu).
  unfold channel_with_policy, try_channel_with_policy, build_channel.
  rewrite (proj2 (validate_capacity_ok capacity MAX_CAPACITY_PER_SENDER ltac:(lia))) by (unfold MAX_CAPACITY_PER_SENDER; lia).
  rewrite E. assert (Em : ring_mask (hr_ring hr) + 1 = cap).
  { destruct Hu as ((Hok & _) & _). pose proof (ok_mask _ _ _ _ _ _ _ Hok) as Em. cbn in Em. lia. }
  cbn. unfold zlookup, zinsert. cbn. change (Z.to_nat 0) with 0%nat. cbn. rewrite Em. eexists cap, _, _, _. split; [done|]. split; [|split; [reflexivity|split; reflexivity]].
  split; cbn; try done.
  - split; [lia|done].
  - constructor; [exact Hu|constructor].
  - split; [done|]. by repeat constructor.
  - split.
    + split; [done|]. split; [by repeat constructor|]. split; [by repeat constructor|]. split.
      * split; repeat constructor; by eexists.
      * split; [|split]; repeat constructor; done.
    + apply topo_ok_new.
  - by split; repeat constructor.
  - intros [|k] sg Esg; [by injection Esg as <-|done].
  - by split; repeat constructor.
Qed.

(** Registering one more sender. *)
Lemma register_started caps s tx capacity :
  started caps s -> 0 < capacity <= 2 ^ 62 -> Z.of_nat (length caps) + 1 < usize_mod ->
  exists cap s', capacity <= cap < 2 * capacity /\ started (caps ++ [cap]) s' /\
    run (Sender_try_register_with_capacity tx capacity) s = (Done (Ok (sender_at (snd_wait_strategy tx) (length caps))), s').
Proof.
  intros H Hc Hn. destruct (ring_spsc_unused (T := T) capacity Hc) as (cap & hr & Hr & E & Hu).
  destruct H as [H1 H2 [H3 H3'] [H4 H4'] H5 [H6 H6'] (H7 & H8 & H9 & H10) H11 H12 _ [H13 H14]].
  unfold Sender_try_register_with_capacity.
  rewrite (proj2 (validate_capacity_ok capacity MAX_CAPACITY_PER_SENDER ltac:(lia))) by (unfold MAX_CAPACITY_PER_SENDER; lia).
  unfold Sender_register_with_capacity, Shared_register_sender. rewrite E. cbn. rewrite H10. cbn. rewrite H8.
  destruct (Z.of_nat (length caps) >=? usize_max) eqn:Em; [unfold usize_max in Em; lia|]. cbn. unfold register_locked. cbn. rewrite H10. cbn. rewrite H8, Em.
  unfold Registry_allocate_lane, Registry_take_key, checked_add. rewrite H6, H6'. cbn [rev].
  rewrite (proj2 (Z.leb_le _ _)) by (unfold usize_max; lia). set (n := length caps) in *. set (reg1 := mkRegistry _ _ _ _ _). cbn [key_slot].
  assert (Hpid : 0 <= Z.of_nat n / LANES_PER_PAGE) by (apply Z.div_pos; [lia|done]).
  destruct (grow_pages_ok (Z.to_nat (Z.of_nat n / LANES_PER_PAGE + 1)) (Z.of_nat n / LANES_PER_PAGE) reg1 (sh_index s))
    as (reg2 & idx2 & Eg & Ht & Hlt & Hgr).
  { destruct H4' as [A B]. by split. }
  { pose proof (zlength_nonneg (reg_pages reg1)). lia. }
  rewrite Eg. destruct (zlookup_is_Some (reg_pages reg2) (Z.of_nat n / LANES_PER_PAGE)) as [h Hh]; [lia|]. rewrite Hh. cbn.
  assert (Hs2 : shape reg2 idx2) by (eapply grow_pages_shape; [|exact Eg]; exact H4).
  destruct (grow_pages_blank _ _ _ _ _ _ H11 Eg) as [Hb2 Hp2]. cbn in Hp2.
  destruct Hgr as (G1 & G2 & G3 & G4 & _). cbn in G1, G2, G3.
  assert (El : zlength (sh_rings s) = Z.of_nat n) by (unfold zlength; by rewrite <- (Forall2_length _ _ _ H2)).
  assert (Es : zlength (rs_signals idx2) = Z.of_nat n) by (unfold zlength; by rewrite G4, H3).
  rewrite El, Es. eexists cap, _. split; [done|]. split; [|reflexivity].
  destruct Hs2 as (L & G & P & [I1 I2] & W1 & W2 & W3).
  split; cbn; rewrite ?length_app; fold n; cbn.
  - split; lia.
  - apply Forall2_app; [done|]. by constructor.
  - split; [by rewrite G4, H3|]. apply Forall_app. split; [by rewrite G4|]. by repeat constructor.
  - split.
    + split; [done|]. split; [done|]. split; [done|]. split; [split; cbn|split; [|split]; cbn]; try done.
      * apply Forall_app. split; [done|]. constructor; [|done]. cbn.
        apply zlookup_is_Some. by apply (zlookup_Forall (fun h => 0 <= h < zlength (rs_pages idx2)) _ _ _ P Hh).
      * apply Forall_app. split; [done|]. constructor; [|done]. apply is_u64_shift.
    + destruct Ht as [A B]. by split.
  - rewrite G1, H5. replace (n + 1 - 1)%nat with (S (n - 1)) by lia. rewrite seq_S, fmap_app. f_equal. cbn.
    replace (S (n - 1)) with n by lia. done.
  - split; [done|]. rewrite G3. lia.
  - rewrite H7, ?H8, H9. unfold wrapping_add. rewrite !wrap_small by (red; lia). split_and!; [lia..|done].
  - exact Hb2.
  - rewrite G4. intros k sg [Hk|[Hk Hk']]%lookup_app_Some.
    + destruct (H12 k sg Hk) as [P1 P2]. split; [done|]. by eapply zlookup_prefix.
    + rewrite H3 in Hk, Hk'. apply list_lookup_singleton_Some in Hk' as [Ek <-]. replace k with n by lia. by split.
  - lia.
  - split; [done|]. apply Forall_app. rewrite G4. split; [done|by repeat constructor].
Qed.

(** Senders registered one after the other. *)
Fixpoint register_all (tx : Sender) (capacities : list Z) : prog (Shared T) (list Sender) :=
  match capacities with
  | [] => Ret []
  | capacity :: rest =>
      let* r := Sender_try_register_with_capacity tx capacity in
      match r with
      | Err _ => Fail (Panic "registration refused")
      | Ok tx' => let* txs := register_all tx rest in Ret (tx' :: txs)
      end
  end.

(** A channel and its senders, the first of capacity [c0], the others of
    [capacities]. *)
Definition open_channel (c0 id : Z) (capacities : list Z) : outcome (Shared T * list Sender * Receiver) :=
  match channel_with_policy c0 id with
  | Fault e => Fault e
  | Done (s, tx, rx) =>
      match run (register_all tx capacities) s with
      | (Fault e, _) => Fault e
      | (Done txs, s) => Done (s, tx :: txs, rx)
      end
  end.

Lemma register_all_started w capacities : forall caps s tx,
  started caps s -> snd_wait_strategy tx = w -> Forall (fun c => 0 < c <= 2 ^ 62) capacities ->
  Z.of_nat (length caps + length capacities) < usize_mod ->
  exists more s', Forall2 (fun c cap => c <= cap < 2 * c) capacities more /\ started (caps ++ more) s' /\
    run (register_all tx capacities) s = (Done (sender_at w <$> seq (length caps) (length capacities)), s').
Proof.
  induction capacities as [|c cs IH]; intros caps s tx Hs Hw Hc Hn; cbn [register_all length] in *.
  { exists [], s. rewrite app_nil_r. done. }
  apply Forall_cons in Hc as [Hc Hcs]. destruct (register_started caps s tx c Hs Hc) as (cap & s1 & Hcap & H1 & E1); [lia|].
  rewrite run_bind, E1. destruct (IH (caps ++ [cap]) s1 tx H1 Hw Hcs) as (more & s2 & L & H2 & E2); [rewrite length_app; cbn; lia|].
  rewrite run_bind, E2. exists (cap :: more), s2. split; [by constructor|]. split; [by rewrite <- app_assoc in H2|].
  cbn. rewrite Hw, length_app. cbn. by replace (length caps + 1)%nat with (S (length caps)) by lia.
Qed.


(** ** The constructors *)

(** A registration with a valid capacity, on any channel whose registry is in
    order. *)
Definition registration_accepted (capacity cap : Z) (tx : Sender) (s : Shared T) (live : list LaneKey)
    (issued : list (LaneKey * Z)) : Prop :=
  exists tx' hr consumer s', run (Sender_try_register_with_capacity tx capacity) s = (Done (Ok tx'), s') /\
    sh_rings s' = sh_rings s ++ [hr] /\ unused cap hr /\ zlength (ring_buf (hr_ring hr)) = cap /\
    snd_ring tx' = zlength (sh_rings s) /\
    reg_pending (sh_registry s') = reg_pending (sh_registry s) ++ [mkPendingLane (snd_key tx') (snd_signal tx') (snd_ring tx') consumer] /\
    sh_registered_lanes s' = wrapping_add (sh_registered_lanes s) 1 /\
    sh_live_senders s' = wrapping_add (sh_live_senders s) 1 /\
    registry_ok s' (live ++ [snd_key tx']) (issued ++ [(snd_key tx', snd_signal tx')]).

Lemma unused_slots cap hr : unused (T := T) cap hr -> valid_cap cap /\ zlength (ring_buf (hr_ring hr)) = cap.
Proof. intros ((Hok & _) & _). cbn in Hok. split; [exact (ok_cap _ _ _ _ _ _ _ Hok)|apply (ok_slots _ _ _ _ _ _ _ Hok)]. Qed.

Lemma validate_in_range capacity : 0 < capacity <= 2 ^ 62 -> validate_capacity capacity MAX_CAPACITY_PER_SENDER = Ok tt.
Proof. intros H. apply validate_capacity_ok; unfold MAX_CAPACITY_PER_SENDER; lia. Qed.

Lemma register_accepts capacity tx s live issued :
  0 < capacity <= 2 ^ 62 -> registry_ok s live issued -> sh_receiver_alive s = true ->
  sh_registered_lanes s < usize_max -> reg_next_slot (sh_registry s) < usize_max ->
  exists cap, capacity <= cap < 2 * capacity /\ registration_accepted capacity cap tx s live issued.
Proof.
  intros Hc Hreg Ha Hl Hn. destruct (ring_spsc_unused (T := T) capacity Hc) as (cap & hr & Hr & E & Hu).
  exists cap. split; [done|]. set (p := mkRProducer (mkProducer 0 0)) in *. set (c := mkRConsumer (Some (mkConsumer 0 0))) in *.
  set (s1 := set_sh_rings (sh_rings s ++ [hr]) s).
  assert (H1 : registry_ok s1 live issued) by (destruct Hreg as [[A A'] B C]; split; [by split|exact B|exact C]).
  pose proof (registry_step_ok (RegOpen usize_max (zlength (sh_rings s)) p c) s1 live issued H1) as Hstep.
  destruct (allocate_lane_ok (sh_registry s) (sh_index s) live issued.*1) as [[_ ?]|(k & h & reg & idx & Ea & _ & _ & _ & _ & _ & _ & _ & Hp & _)]; [apply Hreg|apply Hreg|lia|].
  assert (El : register_locked usize_max (zlength (sh_rings s)) p c s1 =
    (Done (Ok (k, zlength (rs_signals idx))), (register_locked usize_max (zlength (sh_rings s)) p c s1).2)).
  { unfold register_locked. cbn. rewrite Ha. cbn. destruct (Z.geb_spec (sh_registered_lanes s) usize_max); [lia|]. by rewrite Ea. }
  exists (mkSender (zlength (sh_rings s)) p k (zlength (rs_signals idx)) (snd_wait_strategy tx)), hr, c,
    (register_locked usize_max (zlength (sh_rings s)) p c s1).2.
  cbn [registry_step] in Hstep. rewrite El in Hstep. destruct Hstep as [Hok _]. split.
  { unfold Sender_try_register_with_capacity. rewrite validate_in_range by done.
    unfold Sender_register_with_capacity, Shared_register_sender. cbn. rewrite Ha. cbn.
    destruct (Z.geb_spec (sh_registered_lanes s) usize_max); [lia|]. cbn. rewrite E. cbn. fold p c s1. by rewrite El. }
  clear El. cbn [snd_ring snd_key snd_signal]. unfold register_locked in *. cbn in *. rewrite Ha in *. cbn in *.
  destruct (Z.geb_spec (sh_registered_lanes s) usize_max); [lia|]. rewrite Ea in *. cbn in *.
  split_and!; try done; [by apply unused_slots|]. by rewrite Hp.
Qed.

(** C39: the constructors of the MPSC channel, and the registration of a sender
    with a capacity of its own, on every [usize].  Zero and capacities over
    2^62 are refused, by the fallible constructor with the error that says
    why, by the others with the panic message of that error and without
    touching the channel.  Every other capacity is accepted: the constructors
    give a channel with one lane whose ring has the next power of two of
    slots, the capacity the receiver reports; and on every channel whose
    registry is in order, which the new channel is and every registration
    keeps, with the receiver alive and fewer than 2^64 - 1 lanes, a
    registration returns a sender on a new empty ring of that size, counts it
    and leaves the lane for the receiver to pick up; once the receiver is gone
    it reports the disconnection and changes nothing. *)
Theorem mpsc_channel_capacities (capacity id : Z) :
  is_usize capacity ->
  let too_large := "capacity_per_sender must be <= 4611686018427387904"%string in
  if capacity =? 0 then
    try_channel (T := T) capacity id = Done (Err ZeroCapacity) /\
    channel (T := T) capacity id = Fault (Panic "capacity_per_sender must be > 0") /\
    forall tx s, run (Sender_try_register_with_capacity (T := T) tx capacity) s = (Fault (Panic "capacity_per_sender must be > 0"), s)
  else if capacity <=? 2 ^ 62 then
    exists cap, valid_cap cap /\ capacity <= cap < 2 * capacity /\
      (exists s hr tx rx,
        try_channel (T := T) capacity id = Done (Ok (s, tx, rx)) /\ channel (T := T) capacity id = Done (s, tx, rx) /\
        sh_rings s = [hr] /\ zlength (ring_buf (hr_ring hr)) = cap /\ rcv_capacity_per_sender rx = cap /\
        registry_ok s [snd_key tx] [(snd_key tx, snd_signal tx)]) /\
      forall tx s live issued, registry_ok (T := T) s live issued ->
        sh_registered_lanes s < usize_max -> reg_next_slot (sh_registry s) < usize_max ->
        if sh_receiver_alive s then registration_accepted capacity cap tx s live issued
        else run (Sender_try_register_with_capacity tx capacity) s = (Done (Err TryRegister_Disconnected), s)
  else
    try_channel (T := T) capacity id = Done (Err (CapacityTooLarge capacity (2 ^ 62))) /\
    channel (T := T) capacity id = Fault (Panic too_large) /\
    forall tx s, run (Sender_try_register_with_capacity (T := T) tx capacity) s = (Fault (Panic too_large), s).
Proof.
  intros [H0 Hm] too_large. unfold channel, try_channel.
  destruct (Z.eqb_spec capacity 0) as [->|Hne]; [done|]. destruct (Z.leb_spec capacity (2 ^ 62)) as [Hle|Hgt].
  - assert (Hc : 0 < capacity <= 2 ^ 62) by lia.
    destruct (build_started capacity id Hc) as (cap & s & lane & rx & Hr & Hs & E & Erx & _).
    pose proof (st_rings _ _ Hs) as Hrings. apply Forall2_cons_inv_l in Hrings as (hr & hrs & Hu & Hnil & Ers).
    apply Forall2_nil_inv_l in Hnil as ->. apply unused_slots in Hu as [Hv Hsl].
    assert (Ecap : 2 ^ Z.log2_up capacity = cap) by (apply capacity_rounded; [lia|done..]).
    exists cap. split_and!; [done|lia|lia| |].
    + unfold channel_with_policy, try_channel_with_policy in *. rewrite validate_in_range in * by done.
      destruct (build_channel capacity id) as [c|e] eqn:Eb; [|done]. injection E as ->.
      apply build_channel_registry in Eb as [Eb _]. exists s, hr, (sender_at Park 0), rx. by subst rx.
    + intros tx s0 live issued Hreg Hl Hn. destruct (sh_receiver_alive s0) eqn:Ha.
      * destruct (register_accepts capacity tx s0 live issued Hc Hreg Ha Hl Hn) as (cap' & Hr' & Hacc).
        assert (cap' = cap) as <-; [|exact Hacc]. destruct Hacc as (? & hr' & ? & ? & ? & ? & Hu' & ?).
        apply unused_slots in Hu' as [Hv' _]. rewrite <- Ecap. symmetry. apply capacity_rounded; [lia|done..].
      * unfold Sender_try_register_with_capacity. rewrite validate_in_range by done. cbn. rewrite Ha. done.
  - assert (Ev : validate_capacity capacity MAX_CAPACITY_PER_SENDER = Err (CapacityTooLarge capacity (2 ^ 62))).
    { unfold validate_capacity, MAX_CAPACITY_PER_SENDER. rewrite (proj2 (Z.eqb_neq _ _) Hne). by destruct (Z.gtb_spec capacity (2 ^ 62)); [|lia]. }
    unfold try_channel_with_policy, Sender_try_register_with_capacity. rewrite Ev. split; [done|]. split; [|intros tx s]; cbn -[fmt_usize]; done.
Qed.

End setup.

Lemma mpsc_channel_capacities_witness :
  exists cap, valid_cap cap /\ 5 <= cap < 2 * 5 /\
    (exists s hr tx rx,
      try_channel (T := nat) 5 0 = Done (Ok (s, tx, rx)) /\ channel (T := nat) 5 0 = Done (s, tx, rx) /\
      sh_rings s = [hr] /\ zlength (ring_buf (hr_ring hr)) = cap /\ rcv_capacity_per_sender rx = cap /\
      registry_ok s [snd_key tx] [(snd_key tx, snd_signal tx)]) /\
    forall tx s live issued, registry_ok (T := nat) s live issued ->
      sh_registered_lanes s < usize_max -> reg_next_slot (sh_registry s) < usize_max ->
      if sh_receiver_alive s then registration_accepted 5 cap tx s live issued
      else run (Sender_try_register_with_capacity tx 5) s = (Done (Err TryRegister_Disconnected), s).
Proof. apply (mpsc_channel_capacities (T := nat) 5 0). usize. Defined.
