(* ===== verification/MpscThm.v ===== *)
(** * The MPSC channel under every interleaving

    A channel with any number of senders: every sender runs a script of
    non-blocking sends on a thread of its own and is dropped at the end, the
    receiver runs a script of non-blocking receives on another.  The theorem of
    this file is about every interleaving of all their accesses to shared
    memory. *)

From stdpp Require Import functions.
From S2P Require Import Prelude Prog Config Wait Ready YRing YRingInv YRingSpec YRingThm YRingConc YRingClose Handoff HandoffSeq MpscLane MpscLaneInv Mpsc MpscRegistry MpscConc MpscLaneConc MpscRecvConc MpscRecvLoop MpscBatchConc MpscSendConc MpscSetup.
Local Open Scope prog_scope.

(** ** The receiver's thread *)

Inductive recv_cmd (T Adm : Type) : Type :=
| RTryRecv | RTryRecvFair | RLaneTryRecv | RLaneTryRecvFair
| RBatch (limit : nat) | RBatchWhile (limit : nat) (accepts : Adm -> T -> bool * Adm) (adm : Adm)
| RReleaseConsumed | RIsDisconnected | RSenderCount.
Arguments RTryRecv {T Adm}.
Arguments RTryRecvFair {T Adm}.
Arguments RLaneTryRecv {T Adm}.
Arguments RLaneTryRecvFair {T Adm}.
Arguments RBatch {T Adm} limit.
Arguments RBatchWhile {T Adm} limit accepts adm.
Arguments RReleaseConsumed {T Adm}.
Arguments RIsDisconnected {T Adm}.
Arguments RSenderCount {T Adm}.

(** The most values one operation of a script may move. *)
Definition cmd_limit {T Adm} (cmd : recv_cmd T Adm) : nat :=
  match cmd with RBatch limit | RBatchWhile limit _ _ => limit | _ => 0 end.
Definition batch_limit {T Adm} (cmds : list (recv_cmd T Adm)) : nat := max_list (cmd_limit <$> cmds).

(** What a receive returned; with the lane where the operation tells it. *)
Inductive recv_event (T : Type) : Type :=
| EvItem (lane : option LaneKey) (v : T)
| EvError (e : TryRecvError).
Arguments EvItem {T} lane v.
Arguments EvError {T} e.

Definition plain_event {T} (r : result T TryRecvError) : recv_event T :=
  match r with Ok v => EvItem None v | Err e => EvError e end.
Definition lane_event {T} (r : result (LaneId * T) TryRecvError) : recv_event T :=
  match r with Ok (id, v) => EvItem (Some (id_key id)) v | Err e => EvError e end.

(** What an operation that waits contributes; nothing when it gave up. *)
Definition waited_event {T Item} (ev : result Item TryRecvError -> recv_event T) (r : option (result Item RecvError)) : list (recv_event T) :=
  match r with
  | Some (Ok it) => [ev (Ok it)]
  | Some (Err _) => [EvError TryRecv_Disconnected]
  | None => []
  end.

(** The values of a batch stay in the vector also when it gave up. *)
Definition waited_batch {T} (r : option (result Z RecvError)) (out : list T) : list (recv_event T) :=
  (EvItem None <$> out) ++ match r with Some (Err _) => [EvError TryRecv_Disconnected] | _ => [] end.

Definition batch_events {T} (r : result Z TryRecvError) (out : list T) : list (recv_event T) :=
  (EvItem None <$> out) ++ match r with Ok _ => [] | Err e => [EvError e] end.

Definition exec_recv {T Adm} (fuel : nat) (cmd : recv_cmd T Adm) (rx : Receiver) : prog (Shared T) (list (recv_event T) * Receiver) :=
  match cmd with
  | RTryRecv => let* '(r, rx) := Receiver_try_recv Deferred fuel rx in Ret ([plain_event r], rx)
  | RTryRecvFair => let* '(r, rx) := Receiver_try_recv_fair Deferred fuel rx in Ret ([plain_event r], rx)
  | RLaneTryRecv => let* '(r, rx) := LaneReceiver_try_recv Deferred fuel rx in Ret ([lane_event r], rx)
  | RLaneTryRecvFair => let* '(r, rx) := LaneReceiver_try_recv_fair Deferred fuel rx in Ret ([lane_event r], rx)
  | RBatch limit =>
      let* '(r, out, rx) := Receiver_try_recv_batch_into Deferred fuel [] (Z.of_nat limit) rx in
      Ret (batch_events r out, rx)
  | RBatchWhile limit accepts adm =>
      let* '(r, out, _, rx) := Receiver_try_recv_batch_into_while Deferred fuel [] (Z.of_nat limit) accepts adm rx in
      Ret (batch_events r out, rx)
  | RReleaseConsumed => let* rx := Receiver_release_consumed rx in Ret ([], rx)
  | RIsDisconnected => let* _ := Receiver_is_disconnected in Ret ([], rx)
  | RSenderCount => let* _ := Receiver_sender_count in Ret ([], rx)
  end.

Fixpoint receiver_thread {T Adm} (fuel : nat) (cmds : list (recv_cmd T Adm)) (evs : list (recv_event T)) (rx : Receiver)
    : prog (Shared T) (list (recv_event T)) :=
  match cmds with
  | [] => Ret evs
  | cmd :: cmds' =>
      let* '(es, rx) := exec_recv fuel cmd rx in
      receiver_thread fuel cmds' (evs ++ es) rx
  end.

(** ** What the receiver saw *)

(** The items among the events agree with a trace of (lane, value) pairs. *)
Fixpoint traced {T} (evs : list (recv_event T)) (tr : list (nat * T)) : Prop :=
  match evs, tr with
  | [], [] => True
  | EvError _ :: evs', _ => traced evs' tr
  | EvItem lane v :: evs', (k, w) :: tr' =>
      v = w /\ (forall key, lane = Some key -> key = lane_at k) /\ traced evs' tr'
  | _, _ => False
  end.

Lemma traced_app {T} (evs evs' : list (recv_event T)) : forall tr tr',
  traced evs tr -> traced evs' tr' -> traced (evs ++ evs') (tr ++ tr').
Proof.
  induction evs as [|[lane v|e] evs IH]; intros tr tr' H H'; cbn in *.
  - by destruct tr.
  - destruct tr as [|[k w] tr]; [done|]. destruct H as (E1 & E2 & H). split_and!; auto.
  - auto.
Qed.

Lemma traced_items {T} (kvs : list (nat * T)) : traced (EvItem None <$> (snd <$> kvs)) kvs.
Proof. induction kvs as [|[k v] kvs IH]; [done|]. by split_and!. Qed.

Lemma traced_unsee {T} (evs : list (recv_event T)) e : forall tr, traced (evs ++ [EvError e]) tr -> traced evs tr.
Proof.
  induction evs as [|[lane v|e'] evs IH]; intros tr H; cbn in *; [by destruct tr| |auto].
  destruct tr as [|[k w] tr]; [done|]. destruct H as (E1 & E2 & H). split_and!; auto.
Qed.

Section thm.
Context {T Adm : Type} (caps : list Z) (np ng : nat).
Implicit Types (rx : Receiver) (tr : list (nat * T)) (b : nat -> nat).
#[local] Abbreviation cguar := (cguar (T := T) caps np ng).
#[local] Abbreviation chan := (chan (T := T) caps np ng).
#[local] Abbreviation all_finished := (all_finished (T := T) caps).
#[local] Abbreviation received := (received (T := T) caps np ng).
#[local] Abbreviation n := (length caps).

(** What the receiver's thread knows after the events [evs]. *)
Definition seen_so_far b rx (evs : list (recv_event T)) (x : cst T) : Prop :=
  exists b' tr, spent b b' /\ chan rx b' tr x /\ (traced evs tr /\ Forall (fun e => (e.1 < n)%nat) tr) /\
    (EvError TryRecv_Disconnected ∈ evs -> exists tr0, tr0 `prefix_of` tr /\ all_finished tr0 x).

Lemma all_finished_inv tr j x y : all_finished tr x -> cguar j x y -> all_finished tr y.
Proof. intros H Hg k Hk. eapply finished_guar; [by apply H|exact Hg]. Qed.

Lemma seen_stable b rx evs : stable cguar 0 (seen_so_far b rx evs).
Proof.
  intros x y (b' & tr & H1 & H2 & H3 & H4) Hr. exists b', tr. split; [done|]. split; [|split; [done|]].
  - by eapply (fr_stable _ _ _ _ _ _ (chan_frame caps np ng rx b' tr)).
  - intros Hin. destruct (H4 Hin) as (tr0 & Hp & Hf). exists tr0. split; [done|]. destruct Hr as (j & _ & Hg). by eapply all_finished_inv.
Qed.

(** An attempt that found nothing leaves no event. *)
Lemma seen_forget b rx evs e x : seen_so_far b rx (evs ++ [EvError e]) x -> seen_so_far b rx evs x.
Proof.
  intros (b' & tr & H1 & H2 & [H3 H4] & H5). exists b', tr. split; [done|]. split; [done|].
  split; [split; [by eapply traced_unsee|done]|]. intros Hin. apply H5, elem_of_app. by left.
Qed.

(** One operation: what was finished before stays so. *)
Lemma wp_seen {A} tr (evs : list (recv_event T)) (p : prog (Shared T) A) (Q : A -> cst T -> Prop) (R : A -> cst T -> Prop) x :
  (EvError TryRecv_Disconnected ∈ evs -> exists tr0, tr0 `prefix_of` tr /\ all_finished tr0 x) ->
  wp cguar 0 p R x ->
  (forall a y, R a y -> (EvError TryRecv_Disconnected ∈ evs -> exists tr0, tr0 `prefix_of` tr /\ all_finished tr0 y) -> Q a y) ->
  wp cguar 0 p Q x.
Proof.
  intros Hd Hp HQ.
  set (I := fun y => EvError TryRecv_Disconnected ∈ evs -> exists tr0, tr0 `prefix_of` tr /\ all_finished tr0 y).
  eapply wp_mono; [|apply (wp_inv _ 0 I p R x); [|exact Hd|exact Hp]].
  - intros a y [H1 H2]. by apply HQ.
  - intros j u v Hu Hg Hin. destruct (Hu Hin) as (tr0 & H1 & H2). exists tr0. split; [done|]. by eapply all_finished_inv.
Qed.

Lemma bound_spent b b' : spent b b' -> (bound caps b' <= bound caps b)%nat.
Proof. intros H. apply tally_le. intros k _. specialize (H k). lia. Qed.

(** A receive adds its event to what was seen. *)
Lemma wp_seen_receive {A Item} (item : Z -> LaneKey -> T -> Item) (ev : result Item TryRecvError -> recv_event T)
    (f : A -> result Item TryRecvError * Receiver) (p : prog (Shared T) A) b rx evs x :
  (forall id k v, exists lane, ev (Ok (item id (lane_at k) v)) = EvItem lane v /\ forall key, lane = Some key -> key = lane_at k) ->
  (forall e, ev (Err e) = EvError e) ->
  (forall b' tr y, spent b b' -> chan rx b' tr y -> wp cguar 0 p (fun a y => received item b' tr (f a).1 (f a).2 y) y) ->
  seen_so_far b rx evs x ->
  wp cguar 0 p (fun a y => seen_so_far b (f a).2 (evs ++ [ev (f a).1]) y) x.
Proof.
  intros Hok Herr Hp (b1 & tr & Hs & Hx & [Ht Hn] & Hd).
  eapply (wp_seen tr evs); [exact Hd|by apply Hp|]. cbn. clear x Hx Hd. intros a y (b2 & tr2 & Hs2 & Hy & Hr) Hd.
  destruct (f a) as [r rx']. cbn [fst snd] in *. exists b2, tr2. split; [by eapply spent_trans|]. split; [done|]. destruct r as [it|e].
  - destruct Hr as (k & v & id & Hk & -> & ->). destruct (Hok id k v) as (lane & -> & Hl). split.
    + split; [apply traced_app; [done|]; cbn; auto|]. apply Forall_app. split; [done|]. by repeat constructor.
    + intros Hin. apply elem_of_app in Hin as [Hin|Hin%list_elem_of_singleton]; [|done].
      destruct (Hd Hin) as (tr0 & H1 & H2). exists tr0. split; [by apply prefix_app_r|done].
  - destruct Hr as [-> Hf]. rewrite Herr. split.
    + split; [|done]. rewrite <- (app_nil_r tr). by apply traced_app.
    + intros Hin. apply elem_of_app in Hin as [Hin|Hin%list_elem_of_singleton]; [by apply Hd|].
      injection Hin as <-. exists tr. auto.
Qed.

(** An operation that leaves the channel as it is. *)
Lemma wp_seen_keep {A} (p : prog (Shared T) A) (f : A -> Receiver) b rx evs x :
  (forall b' tr y, spent b b' -> chan rx b' tr y -> wp cguar 0 p (fun a y => chan (f a) b' tr y) y) ->
  seen_so_far b rx evs x -> wp cguar 0 p (fun a y => seen_so_far b (f a) evs y) x.
Proof.
  intros Hp (b1 & tr & Hs & Hx & [Ht Hn] & Hd).
  eapply (wp_seen tr evs); [exact Hd|by apply Hp|]. cbn. intros a y Hy Hdy. by exists b1, tr.
Qed.

Lemma wp_seen_release b rx evs x :
  seen_so_far b rx evs x -> wp cguar 0 (Receiver_release_consumed rx) (fun rx' y => seen_so_far b rx' evs y) x.
Proof. apply (wp_seen_keep _ (fun rx' => rx')). intros b' tr y _ Hy. by apply wp_release_consumed. Qed.

(** Values that were moved in bulk, with the error when there were none. *)
Lemma seen_items b b1 b2 rx evs tr kvs (es : list (recv_event T)) y :
  spent b b1 -> spent b1 b2 -> traced evs tr -> Forall (fun e => (e.1 < n)%nat) (tr ++ kvs) -> chan rx b2 (tr ++ kvs) y ->
  (EvError TryRecv_Disconnected ∈ evs -> exists tr0, tr0 `prefix_of` tr /\ all_finished tr0 y) ->
  traced es [] -> (EvError TryRecv_Disconnected ∈ es -> kvs = [] /\ all_finished tr y) ->
  seen_so_far b rx (evs ++ (EvItem None <$> (snd <$> kvs)) ++ es) y.
Proof.
  intros H1 H2 Ht Hn Hy Hd He Hes. exists b2, (tr ++ kvs). split; [by eapply spent_trans|]. split; [done|]. split.
  { split; [|done]. apply traced_app; [done|]. rewrite <- (app_nil_r kvs) at 2. by apply traced_app; [apply traced_items|]. }
  intros Hin. apply elem_of_app in Hin as [Hin|Hin].
  { destruct (Hd Hin) as (tr0 & P1 & P2). exists tr0. split; [by apply prefix_app_r|done]. }
  apply elem_of_app in Hin as [(v & Hv & _)%list_elem_of_fmap|Hin]; [done|].
  destruct (Hes Hin) as [-> Hf]. exists tr. rewrite app_nil_r. auto.
Qed.

Lemma wp_seen_drain fuel limit output b rx evs x :
  (2 * limit + bound caps b < fuel)%nat -> seen_so_far b rx evs x ->
  wp cguar 0 (Receiver_drain_into Deferred fuel (Z.of_nat limit) output AdmitAll tt rx)
    (fun r y => exists vs, r.1.1.2 = output ++ vs /\ drained_received r.1.1.1 = zlength vs /\
       seen_so_far b r.2 (evs ++ (EvItem None <$> vs)) y) x.
Proof.
  intros Hf (b1 & tr & Hs & Hx & [Ht Hn] & Hd). pose proof (bound_spent b b1 Hs).
  eapply (wp_seen tr evs); [exact Hd|apply wp_drain_into; [exact Hx|lia]|]. cbn. clear x Hx Hd.
  intros [[[d out] []] rx'] y (b2 & kvs & Hs2 & Hy & Ho & Hk & Hr & _) Hd. cbn [fst snd] in *. exists (snd <$> kvs).
  split; [done|]. split; [unfold zlength in *; rewrite length_fmap; lia|].
  rewrite <- (app_nil_r (EvItem None <$> _)). eapply (seen_items b b1 b2); try done; [by apply Forall_app|].
  intros Hin. by apply elem_of_nil in Hin.
Qed.

Lemma wp_seen_batch {A} (p : prog (Shared T) A) (f : A -> result Z TryRecvError * list T * Receiver) b rx evs x :
  (forall b' tr y, spent b b' -> chan rx b' tr y -> wp cguar 0 p (fun a y => batched caps np ng b' tr [] (f a).1.1 (f a).1.2 (f a).2 y) y) ->
  seen_so_far b rx evs x ->
  wp cguar 0 p (fun a y => seen_so_far b (f a).2 (evs ++ batch_events (f a).1.1 (f a).1.2) y) x.
Proof.
  intros Hp (b1 & tr & Hs & Hx & [Ht Hn] & Hd).
  eapply (wp_seen tr evs); [exact Hd|by apply Hp|]. cbn. clear x Hx Hd. intros a y (b2 & kvs & Hs2 & Hy & Ho & Hk & Hr) Hd.
  rewrite Ho. eapply (seen_items b b1 b2); try done; [by apply Forall_app|by destruct (f a).1.1|].
  intros Hin. destruct (f a).1.1 as [m|e]; [by apply elem_of_nil in Hin|]. apply list_elem_of_singleton in Hin. injection Hin as <-.
  destruct Hr as [-> Hf]. auto.
Qed.

(** An operation of a script, from its events. *)
Lemma wp_events {A} (p : prog (Shared T) A) (es : A -> list (recv_event T)) (f : A -> Receiver) b evs x :
  wp cguar 0 p (fun a y => seen_so_far b (f a) (evs ++ es a) y) x ->
  wp cguar 0 (let* a := p in Ret (es a, f a)) (fun r y => seen_so_far b r.2 (evs ++ r.1) y) x.
Proof.
  intros Hp. eapply wp_call; [exact Hp|]. clear x Hp. intros a y Hy. eapply wp_retP; [apply seen_stable|exact Hy|]. done.
Qed.

Lemma plain_event_ok id k (v : T) :
  exists lane, plain_event (Ok (ItemOnly_item id (lane_at k) v)) = EvItem lane v /\ forall key, lane = Some key -> key = lane_at k.
Proof. by exists None. Qed.

Lemma lane_event_ok id k (v : T) :
  exists lane, lane_event (Ok (WithLaneIds_item id (lane_at k) v)) = EvItem lane v /\ forall key, lane = Some key -> key = lane_at k.
Proof. exists (Some (lane_at k)). split; [done|]. congruence. Qed.

Lemma wp_exec_recv fuel (cmd : recv_cmd T Adm) b rx evs x :
  (2 * cmd_limit cmd + bound caps b < fuel)%nat -> seen_so_far b rx evs x ->
  wp cguar 0 (exec_recv fuel cmd rx) (fun r y => seen_so_far b r.2 (evs ++ r.1) y) x.
Proof.
  intros Hf Hx. assert (Hf' : forall b', spent b b' -> (2 * cmd_limit cmd + bound caps b' < fuel)%nat).
  { intros b' Hs. pose proof (bound_spent b b' Hs). lia. }
  assert (Hf0 : forall b', spent b b' -> (bound caps b' < fuel)%nat) by (intros b' Hs; specialize (Hf' b' Hs); lia).
  assert (Hnil : forall {A} (p : prog (Shared T) A) (f : A -> Receiver),
    wp cguar 0 p (fun a y => seen_so_far b (f a) evs y) x ->
    wp cguar 0 (let* a := p in Ret ([], f a)) (fun r y => seen_so_far b r.2 (evs ++ r.1) y) x).
  { intros A p f Hp. apply (wp_events p (fun _ => [])). rewrite app_nil_r. exact Hp. }
  destruct cmd; cbn [exec_recv].
  - eapply wp_bind_ext; [|apply (wp_events _ (fun a => [plain_event a.1]) snd)]; [by intros []|].
    apply (wp_seen_receive ItemOnly_item plain_event (fun a => a) _ b rx); [apply plain_event_ok|done| |done]. intros b' tr y Hs Hy. apply wp_try_recv_output; auto.
  - eapply wp_bind_ext; [|apply (wp_events _ (fun a => [plain_event a.1]) snd)]; [by intros []|].
    apply (wp_seen_receive ItemOnly_item plain_event (fun a => a) _ b rx); [apply plain_event_ok|done| |done]. intros b' tr y Hs Hy. apply wp_try_recv_fair_output; auto.
  - eapply wp_bind_ext; [|apply (wp_events _ (fun a => [lane_event a.1]) snd)]; [by intros []|].
    apply (wp_seen_receive WithLaneIds_item lane_event (fun a => a) _ b rx); [apply lane_event_ok|done| |done]. intros b' tr y Hs Hy. apply wp_try_recv_output; auto.
  - eapply wp_bind_ext; [|apply (wp_events _ (fun a => [lane_event a.1]) snd)]; [by intros []|].
    apply (wp_seen_receive WithLaneIds_item lane_event (fun a => a) _ b rx); [apply lane_event_ok|done| |done]. intros b' tr y Hs Hy. apply wp_try_recv_fair_output; auto.
  - eapply wp_bind_ext; [|apply (wp_events _ (fun a => batch_events a.1.1 a.1.2) snd)]; [by intros [[]]|].
    apply (wp_seen_batch _ (fun a => a) b rx); [|done]. intros b' tr y Hs Hy. by apply wp_try_recv_batch_into; [|apply Hf'].
  - eapply wp_bind_ext; [|apply (wp_events _ (fun a => batch_events a.1.1.1 a.1.1.2) snd)]; [by intros [[[]]]|].
    apply (wp_seen_batch _ (fun a => (a.1.1.1, a.1.1.2, a.2)) b rx); [|done].
    intros b' tr y Hs Hy. by apply wp_try_recv_batch_into_while; [|apply Hf'].
  - by apply (Hnil _ _ (fun rx => rx)), wp_seen_release.
  - apply (Hnil _ _ (fun _ => rx)), (wp_seen_keep _ (fun _ => rx) b rx); [|done]. intros b' tr y _ Hy. eapply wp_inert; [apply chan_frame| |exact Hy].
    apply inert_bind; [apply inert_load|]. by intros.
  - apply (Hnil _ _ (fun _ => rx)), (wp_seen_keep _ (fun _ => rx) b rx); [|done]. intros b' tr y _ Hy. eapply wp_inert; [apply chan_frame|apply inert_load|exact Hy].
Qed.

Lemma wp_mpsc_receiver_thread fuel (cmds : list (recv_cmd T Adm)) : forall b rx evs x,
  (2 * batch_limit cmds + bound caps b < fuel)%nat -> seen_so_far b rx evs x ->
  wp cguar 0 (receiver_thread fuel cmds evs rx) (fun evs' y => exists rx', seen_so_far b rx' evs' y) x.
Proof.
  induction cmds as [|cmd cmds IH]; intros b rx evs x Hf Hx; cbn [receiver_thread].
  - eapply wp_retP; [apply (seen_stable b rx evs)|exact Hx|]. intros y Hy. by exists rx.
  - unfold batch_limit in *. cbn in Hf. eapply wp_call; [eapply wp_exec_recv; [|exact Hx]; lia|]. intros [es rx1] y Hy. apply IH; [lia|done].
Qed.

(** ** The end of a run *)

(** What was received of a lane was sent on it, in order. *)
Lemma chan_prefix rx b tr k x :
  chan rx b tr x -> (k < n)%nat -> at_lane caps k (fun _ (z : Ring T * ghost T) _ _ => of_lane k tr `prefix_of` g_hist z.2) x.
Proof.
  intros [_ (pend & [[Hc _] Hs])] Hk. specialize (Hs k Hk). unfold slot in Hs.
  destruct (rcv_lanes rx !! k) as [[l|]|].
  - destruct Hs as [_ (c & ct & ph & h & _ & _ & _ & _ & cap & hr & g & K1 & K2 & K3 & [_ K] & _)].
    exists cap, hr, g. split_and!; auto. destruct K as (_ & _ & _ & <- & _). apply prefix_take.
  - destruct Hs as (cap & hr & g & K1 & K2 & K3 & _ & K). exists cap, hr, g. split_and!; auto. by rewrite K.
  - destruct Hs as [-> (p & _ & _ & _ & _ & c & _ & cap & hr & g & K1 & K2 & K3 & _)].
    exists cap, hr, g. split_and!; auto. apply prefix_nil.
Qed.

Lemma send_hist k p (acc : list T) closed m x :
  send_ok caps np ng k p acc closed m x -> at_lane caps k (fun _ (z : Ring T * ghost T) _ _ => g_hist z.2 = acc) x.
Proof.
  intros [_ (cap & hr & g & K1 & K2 & K3 & [[t K] _] & _)]. exists cap, hr, g. split_and!; auto. by destruct K as (_ & _ & K & _).
Qed.

Lemma at_lane_agree k (P Q : Z -> Ring T * ghost T -> Z -> nat -> Prop) (R : Prop) x :
  at_lane caps k P x -> at_lane caps k Q x -> (forall cap z st m, P cap z st m -> Q cap z st m -> R) -> R.
Proof. intros (c1 & h1 & g1 & A1 & A2 & A3 & A4) (c2 & h2 & g2 & B1 & B2 & B3 & B4) H. simplify_eq. eauto. Qed.

(** What the receiver saw against what the senders had accepted. *)
Lemma seen_accepted b rx evs (accs : list (list T)) x :
  seen_so_far b rx evs x -> length accs = n ->
  (forall k acc, accs !! k = Some acc -> exists p closed, send_ok caps np ng k p acc closed 0 x) ->
  exists tr, traced evs tr /\ Forall (fun e => (e.1 < n)%nat) tr /\
    forall k acc, accs !! k = Some acc -> of_lane k tr `prefix_of` acc /\
      (EvError TryRecv_Disconnected ∈ evs -> of_lane k tr = acc).
Proof.
  intros (b' & tr & _ & Hx & [Ht Hn] & Hd) Hlen Hs. exists tr. split; [done|]. split; [done|].
  intros k acc Hk. assert (Hkn : (k < n)%nat) by (rewrite <- Hlen; by eapply lookup_lt_Some).
  destruct (Hs k acc Hk) as (p & closed & Hp). apply send_hist in Hp. pose proof (chan_prefix _ _ _ k _ Hx Hkn) as Hpre.
  assert (Hpa : of_lane k tr `prefix_of` acc) by (eapply (at_lane_agree k _ _ _ x Hpre Hp); by intros cap z st m H <-).
  split; [done|]. intros Hin. destruct (Hd Hin) as (tr0 & [tr1 ->] & Hf). specialize (Hf k Hkn).
  assert (E : of_lane k tr0 = acc) by (eapply (at_lane_agree k _ _ _ x Hf Hp); by intros cap z st m [_ H] <-).
  rewrite of_lane_app in *. rewrite E in *. apply prefix_length in Hpa as Hl. rewrite length_app in Hl.
  assert (of_lane k tr1 = []) as -> by (apply length_zero_iff_nil; lia). by rewrite app_nil_r.
Qed.

End thm.
(** ** The start of a run *)

Section start.
Context {T C : Type}.
Implicit Types (s : Shared T) (scripts : list (list C)).

(** Every sender may mark its lane once per operation and once when dropped. *)
Definition marks scripts (k : nat) : nat := S (length (nth k scripts [])).
Definition ghosts scripts : list (lghost T) := (fun sc => mkLG ghost0 (S (length sc))) <$> scripts.

Lemma ghosts_lookup scripts k g : ghosts scripts !! k = Some g -> g = mkLG ghost0 (marks scripts k).
Proof.
  unfold ghosts, marks. rewrite list_lookup_fmap. destruct (scripts !! k) as [sc|] eqn:E; [|done]. intros [= <-].
  by rewrite (nth_lookup_Some _ _ _ _ E).
Qed.

#[local] Abbreviation np s := (length (rs_pages (sh_index s))).
#[local] Abbreviation ng s := (length (rs_groups (sh_index s))).

Lemma start_lane caps s scripts k cap :
  started caps s -> length scripts = length caps -> caps !! k = Some cap ->
  exists hr, sh_rings s !! k = Some hr /\ unused cap hr /\ ghosts scripts !! k = Some (mkLG ghost0 (marks scripts k)) /\
    sig_state (sh_index s) k = IDLE.
Proof.
  intros H Hl Hk. pose proof (lookup_lt_Some _ _ _ Hk) as Hlt.
  destruct (Forall2_lookup_l _ _ _ _ _ (st_rings _ _ H) Hk) as (hr & Hhr & Hu). exists hr. split_and!; try done.
  - destruct (lookup_lt_is_Some_2 (ghosts scripts) k) as [g Hg]; [unfold ghosts; rewrite length_fmap; lia|].
    rewrite Hg. f_equal. by apply ghosts_lookup in Hg.
  - destruct (st_signals _ _ H) as [E Hs]. unfold sig_state.
    destruct (lookup_lt_is_Some_2 (rs_signals (sh_index s)) k) as [l Hsig]; [lia|]. rewrite Hsig. by eapply Forall_lookup_1 in Hs.
Qed.

Lemma start_cok caps s scripts :
  started caps s -> length scripts = length caps -> cok caps (np s) (ng s) (s, ghosts scripts).
Proof.
  intros H Hl. split; cbn.
  - symmetry. by eapply Forall2_length, H.
  - unfold ghosts. by rewrite length_fmap.
  - intros k cap hr g Hk Hhr Hg. destruct (start_lane _ _ scripts _ _ H Hl Hk) as (hr' & E1 & Hu & E2 & _). simplify_eq.
    split; [apply Hu|by eapply unused_closed].
  - destruct (st_shape _ _ H) as [(_ & _ & _ & H1 & H2) _]. split; [by split|]. split; [apply H|done].
Qed.

Lemma start_sender caps s scripts k cap :
  started caps s -> length scripts = length caps -> caps !! k = Some cap ->
  send_ok caps (np s) (ng s) k (mkProducer 0 0) [] false (marks scripts k) (s, ghosts scripts).
Proof.
  intros H Hl Hk. destruct (start_lane _ _ scripts _ _ H Hl Hk) as (hr & E1 & (Hp & _ & Hd & _) & E2 & _).
  split; [by apply start_cok|]. exists cap, hr, (mkLG ghost0 (marks scripts k)). cbn. split_and!; eauto.
Qed.

(** The consumer of a lane nobody has used. *)
Lemma start_consumer caps s scripts k cap :
  started caps s -> length scripts = length caps -> caps !! k = Some cap ->
  at_lane caps k (fun cap' z st m => (cap' = cap /\ ca cap' 0 (mkConsumer 0 0) 0 0 0 [] z) /\ credit (marks scripts k) false st m)
    (s, ghosts scripts).
Proof.
  intros H Hl Hk. destruct (start_lane _ _ scripts _ _ H Hl Hk) as (hr & E1 & (_ & Hc & _) & E2 & E3).
  exists cap, hr, (mkLG ghost0 (marks scripts k)). cbn [fst snd lg_ring lg_marks]. rewrite E3. split; [done|]. split; [done|]. split; [done|]. split; [done|].
  split; [cbn; unfold marks; lia|done].
Qed.

(** The topology is not empty. *)
Lemma start_topology caps s : started caps s -> (0 < np s)%nat /\ (0 < ng s)%nat.
Proof.
  intros H. destruct (st_signals _ _ H) as [El _]. destruct (st_lanes _ _ H) as [Hn _].
  destruct (st_shape _ _ H) as [(_ & _ & _ & [H1 H2] & _) _].
  destruct (rs_signals (sh_index s)) as [|l ls]; [cbn in El; lia|]. apply Forall_cons in H1 as [[p Hp] _].
  apply zlookup_elem in Hp as Hin. rewrite Forall_forall in H2. destruct (H2 p Hin) as [g Hg].
  apply zlookup_Some_range in Hp, Hg. unfold zlength in *. lia.
Qed.

(** The receiver of a channel that was just built. *)
Definition first_lane (cap : Z) : Lane :=
  mkLane (lane_at 0) 0 0 (mkRConsumer (Some (mkConsumer 0 0))) 0 0 (Z.min (Z.max (div_ceil cap 2) MIN_RELEASE_BATCH) cap) 0 0 false.
Definition first_receiver (cap capacity : Z) : Receiver :=
  mkReceiver [Some (first_lane cap)] [0] [0] [] [false] 0 0 READY_POLL_INTERVAL 0 (2 ^ Z.log2_up capacity) Park.

Lemma first_batch cap : 0 < cap -> 0 < release_batch (first_lane cap) <= cap.
Proof. intros H. change (0 < Z.min (Z.max (div_ceil cap 2) 64) cap <= cap). lia. Qed.

Lemma start_rx cap capacity s caps : 0 < cap -> started caps s -> rx_ok (np s) (ng s) (first_receiver cap capacity).
Proof.
  intros Hc H. destruct (start_topology _ _ H) as [Hp Hg]. split; cbn; try done.
  - intros [|k] l; [|by destruct k]. intros [= <-]. cbn. split_and!; try done.
    + split; [done|]. by apply first_batch.
    + split; [done|]. intros Hin. by apply elem_of_nil in Hin.
  - split; [constructor|]. intros key Hin. by apply elem_of_nil in Hin.
  - by repeat constructor.
  - split; [|lia]. repeat constructor; lia.
  - repeat constructor; lia.
Qed.

Lemma start_chan cap more capacity s scripts :
  0 < cap -> started (cap :: more) s -> length scripts = length (cap :: more) ->
  chan (cap :: more) (np s) (ng s) (first_receiver cap capacity) (marks scripts) [] (s, ghosts scripts).
Proof.
  intros Hc H Hl. split; [by eapply start_rx|]. cbn [rcv_lanes seen_registry_generation first_receiver].
  exists (reg_pending (sh_registry s)). split; [split; [by apply start_cok|]|].
  - destruct (st_shape _ _ H) as [(L & G & P & _) _]. destruct (st_counts _ _ H) as (C1 & C2 & _).
    pose proof (st_pending _ _ H) as Ep. destruct (st_lanes _ _ H) as [_ Hn].
    assert (Elen : length (reg_pending (sh_registry s)) = length more).
    { rewrite Ep, length_fmap, length_seq. cbn. lia. }
    split; [done|]. split; [|split; [|split; [|split; [done|split; [by split|exact P]]]]]; cbn.
    + cbn in C1. intros E. rewrite E in C1. destruct (reg_pending _); [done|]. cbn in *. lia.
    + rewrite C2, Elen. cbn. lia.
    + rewrite Elen. done.
  - intros j Hj. destruct (lookup_lt_is_Some_2 (cap :: more) j Hj) as [capj Hcapj].
    pose proof (start_consumer _ _ scripts _ _ H Hl Hcapj) as Ha. unfold slot. destruct j as [|j]; cbn [lookup list_lookup].
    + split; [by apply start_cok|]. exists (mkConsumer 0 0), 0, 0, 0. split_and!; try done.
      * pose proof (first_batch cap Hc). split; cbn in *; try lia.
      * destruct Ha as (c & hr & g & K1 & K2 & K3 & [-> K4] & K5). cbn in Hcapj. injection Hcapj as ->.
        exists capj, hr, g. pose proof (first_batch capj Hc). split_and!; auto; lia.
    + split; [done|]. exists (mkPendingLane (lane_at (S j)) (Z.of_nat (S j)) (Z.of_nat (S j)) (mkRConsumer (Some (mkConsumer 0 0)))).
      split.
      * rewrite (st_pending _ _ H), list_lookup_fmap. cbn. rewrite lookup_seq_lt by (cbn in *; lia). cbn. repeat f_equal; lia.
      * split_and!; try done. exists (mkConsumer 0 0). split; [done|].
        destruct Ha as (c & hr & g & K1 & K2 & K3 & [-> K4] & K5). exists capj, hr, g. auto.
Qed.

End start.

(** ** The theorem *)

Section theorem.
Context {T Adm : Type}.
Implicit Types (scripts : list (list (send_cmd T))).

(** A bound on the rounds of a receive: every sender can make the receiver
    look at its lane a bounded number of times. *)
Definition rounds {C} (scripts : list (list C)) : nat := tally (fun k => 2 * marks scripts k + 1)%nat (length scripts).

#[local] Abbreviation thread_result := (list (recv_event T) + list T)%type.

Definition mpsc_pool (fuel : nat) (cmds : list (recv_cmd T Adm)) scripts (txs : list Sender) (rx : Receiver)
    : list (prog (Shared T) thread_result) :=
  (let* evs := receiver_thread fuel cmds [] rx in Ret (inl evs)) ::
  zip_with (fun sc tx => let* acc := sender_thread sc [] tx in Ret (inr acc)) scripts txs.

(** What each thread ends with. *)
Definition mpsc_post caps np ng b : nat -> thread_result -> cst T -> Prop :=
  one_many (fun evs y => exists rx, seen_so_far caps np ng b rx evs y) (fun k acc y => exists p, send_ok caps np ng k p acc true 0 y).

Lemma open_channel_started c0 id capacities :
  Forall (fun c => 0 < c <= 2 ^ 62) (c0 :: capacities) -> Z.of_nat (length (c0 :: capacities)) < usize_mod ->
  exists cap more s, 0 < cap /\ Forall2 (fun c cap => c <= cap < 2 * c) (c0 :: capacities) (cap :: more) /\ started (cap :: more) s /\
    open_channel (T := T) c0 id capacities =
      Done (s, sender_at Park <$> seq 0 (length (c0 :: capacities)), first_receiver cap c0).
Proof.
  intros Hc Hn. apply Forall_cons in Hc as [Hc0 Hc]. cbn in Hn.
  destruct (build_started (T := T) c0 id Hc0) as (cap & s & lane & rx & Hcap & Hs & E & -> & ->).
  destruct (register_all_started Park capacities [cap] s (sender_at Park 0) Hs eq_refl Hc) as (more & s' & L & Hs' & E').
  { cbn. lia. }
  exists cap, more, s'. split; [lia|]. split; [by constructor|]. split; [done|]. unfold open_channel. by rewrite E, E'.
Qed.

Lemma mpsc_pool_wp fuel (cmds : list (recv_cmd T Adm)) scripts cap more c0 s :
  0 < cap -> started (cap :: more) s -> length scripts = length (cap :: more) -> (rounds scripts + 2 * batch_limit cmds < fuel)%nat ->
  let np := length (rs_pages (sh_index s)) in
  let ng := length (rs_groups (sh_index s)) in
  pool_wp (cguar (cap :: more) np ng) (mpsc_post (cap :: more) np ng (marks scripts))
    (mpsc_pool fuel cmds scripts (sender_at Park <$> seq 0 (length scripts)) (first_receiver cap c0)) (s, ghosts scripts).
Proof.
  intros Hc Hs Hl Hf np ng. intros [|i] q Hq; cbn [mpsc_pool lookup list_lookup] in Hq.
  - injection Hq as <-. eapply wp_call.
    + apply (wp_mpsc_receiver_thread (cap :: more) np ng fuel cmds (marks scripts)).
      * unfold bound. unfold rounds in Hf. rewrite <- Hl. lia.
      * exists (marks scripts), []. split; [apply spent_refl|]. split; [by apply start_chan|]. split; [by split|].
        intros Hin. by apply elem_of_nil in Hin.
    + intros evs y [rx Hy]. eapply (wp_retP _ _ (seen_so_far _ _ _ _ _ _)); [apply seen_stable|exact Hy|]. intros z Hz. exists evs. eauto.
  - change (zip_with (fun sc tx => let* acc := sender_thread sc [] tx in Ret (inr acc)) scripts
      (sender_at Park <$> seq 0 (length scripts)) !! i = Some q) in Hq.
    apply lookup_zip_with_Some in Hq as (sc & tx & -> & Hsc & Htx). pose proof (lookup_lt_Some _ _ _ Hsc) as Hlt.
    rewrite list_lookup_fmap, lookup_seq_lt in Htx by done. injection Htx as <-.
    destruct (lookup_lt_is_Some_2 (cap :: more) i) as [capi Hi]; [lia|].
    eapply wp_call.
    + apply (wp_mpsc_sender_thread (cap :: more) np ng i sc (mkProducer 0 0) [] (sender_at Park i)); [done|].
      pose proof (start_sender _ _ scripts _ _ Hs Hl Hi) as H. unfold marks in H. by rewrite (nth_lookup_Some _ _ _ _ Hsc) in H.
    + intros acc y [p Hy]. eapply wp_ret_send; [exact Hy|]. intros z Hz. exists acc. eauto.
Qed.

(** C1: an MPSC channel with any number of senders, each sending on a thread of
    its own and then dropped, and a receiver on another thread.  In every
    interleaving of their accesses to shared memory no operation, single or
    batch, panics or runs for ever, and the values received from a lane are a prefix of the values
    its sender had accepted, in the same order, whichever lanes the receiver
    takes them from; a lane id returned with a value is the id of the lane the
    value was sent on.  Once the receiver has been told that the channel is
    disconnected it has received everything that was accepted. *)
Theorem mpsc_interleaving_fifo (c0 id : Z) (capacities : list Z) scripts (cmds : list (recv_cmd T Adm)) (fuel : nat) :
  Forall (fun c => 0 < c <= 2 ^ 62) (c0 :: capacities) -> Z.of_nat (length (c0 :: capacities)) < usize_mod ->
  length scripts = length (c0 :: capacities) -> (rounds scripts + 2 * batch_limit cmds < fuel)%nat ->
  exists s txs rx, open_channel c0 id capacities = Done (s, txs, rx) /\ length txs = length scripts /\
    Acc (flip pstep) (s, mpsc_pool fuel cmds scripts txs rx) /\
    forall s' ps, rtc pstep (s, mpsc_pool fuel cmds scripts txs rx) (s', ps) ->
      (exists c', pstep (s', ps) c') \/
      exists evs accs tr, ps = Ret (inl evs) :: ((fun acc => Ret (inr acc)) <$> accs) /\ length accs = length scripts /\
        traced evs tr /\ Forall (fun e => (e.1 < length scripts)%nat) tr /\
        forall k acc, accs !! k = Some acc -> of_lane k tr `prefix_of` acc /\
          (EvError TryRecv_Disconnected ∈ evs -> of_lane k tr = acc).
Proof.
  intros Hc Hn Hl Hf. destruct (open_channel_started c0 id capacities Hc Hn) as (cap & more & s & Hcap & Lm & Hs & E).
  assert (Hl' : length scripts = length (cap :: more)) by (rewrite Hl; by eapply Forall2_length).
  eexists s, _, _. split; [exact E|]. split; [rewrite length_fmap, length_seq; lia|]. split; [apply pstep_terminating|].
  rewrite <- Hl. intros s' ps Hr.
  destruct (pool_one_many _ _ _ _ _ _ _ _ (mpsc_pool_wp fuel cmds scripts cap more c0 s Hcap Hs Hl' Hf) Hr)
    as [Hstep|(evs & accs & g & -> & Hlen & [rx Hseen] & Hpost)]; [done|by left|right].
  cbn [mpsc_pool length] in Hlen. rewrite length_zip_with, length_fmap, length_seq, Nat.min_id in Hlen.
  destruct (seen_accepted _ _ _ _ _ _ accs _ Hseen) as (tr & Ht & Hlt & Hall); [lia|intros k acc Hk; destruct (Hpost k acc Hk); eauto|].
  exists evs, accs, tr. split; [done|]. split; [lia|]. split; [done|]. split; [by rewrite Hl'|done].
Qed.

(** ** Types *)

(** The ring of a sender of capacity [capacity]: its buffer has the next power
    of two of slots, its cursors are machine words, and the published values
    fit into the buffer. *)
Definition ring_typed (capacity : Z) (hr : HRing T) : Prop :=
  let r := hr_ring hr in
  let cap := ring_mask r + 1 in
  valid_cap cap /\ capacity <= cap < 2 * capacity /\ zlength (ring_buf r) = cap /\
  is_usize (ring_head r) /\ is_usize (ring_tail r) /\ wrapping_sub (ring_tail r) (ring_head r) <= cap.

Lemma ok_typed capacity cap hr g : ok cap 0 (hr_ring hr, g) -> capacity <= cap < 2 * capacity -> ring_typed capacity hr.
Proof.
  intros [Hc Hm Ho Hh Ht [Hb _]] Hr. cbn [fst snd] in *. unfold ring_typed. pose proof (valid_cap_range _ Hc).
  rewrite Hm, Hh, Ht, wrapping_sub_wrap by lia. replace (cap - 1 + 1) with cap by lia. split; [done|]. split; [done|]. split; [done|].
  split; [apply wrap_range|]. split; [apply wrap_range|]. lia.
Qed.

Lemma cok_typed capacities caps np ng x :
  Forall2 (fun c cap => c <= cap < 2 * c) capacities caps -> cok caps np ng x -> Forall2 ring_typed capacities (sh_rings x.1).
Proof.
  intros Hc H. apply Forall2_same_length_lookup_2.
  - rewrite (Forall2_length _ _ _ Hc). symmetry. apply H.
  - intros k capacity hr Hk Hhr. destruct (Forall2_lookup_l _ _ _ _ _ Hc Hk) as (cap & Hcap & Hr).
    destruct (cok_ring _ _ _ _ _ _ H Hcap) as (hr' & g & E & _ & Hok & _). rewrite Hhr in E. injection E as <-.
    by eapply ok_typed.
Qed.

(** C38: the shared state stays well-formed in every state of every interleaving,
    not only at the end: each ring keeps the buffer it was built with and
    cursors of 64 bits whose distance fits it, every handle of the readiness
    index refers to an object of the index, every bit set is a 64-bit word, and
    no thread has panicked. *)
Theorem mpsc_reachable_typed (c0 id : Z) (capacities : list Z) scripts (cmds : list (recv_cmd T Adm)) (fuel : nat) :
  Forall (fun c => 0 < c <= 2 ^ 62) (c0 :: capacities) -> Z.of_nat (length (c0 :: capacities)) < usize_mod ->
  length scripts = length (c0 :: capacities) -> (rounds scripts + 2 * batch_limit cmds < fuel)%nat ->
  exists s txs rx, open_channel c0 id capacities = Done (s, txs, rx) /\
    forall s' ps, rtc pstep (s, mpsc_pool fuel cmds scripts txs rx) (s', ps) ->
      Forall2 ring_typed (c0 :: capacities) (sh_rings s') /\ index_ok (sh_index s') /\ words_ok (sh_index s') /\
      forall i e, ps !! i <> Some (Fail e).
Proof.
  intros Hc Hn Hl Hf. destruct (open_channel_started c0 id capacities Hc Hn) as (cap & more & s & Hcap & Lm & Hs & E).
  assert (Hl' : length scripts = length (cap :: more)) by (rewrite Hl; by eapply Forall2_length).
  eexists s, _, _. split; [exact E|]. rewrite <- Hl. intros s' ps Hr.
  destruct (pool_inv _ (cok (cap :: more) (length (rs_pages (sh_index s))) (length (rs_groups (sh_index s)))) _ _ _ _ _ _
    (fun i x y _ Hg => proj1 Hg) (start_cok _ _ _ Hs Hl') (mpsc_pool_wp fuel cmds scripts cap more c0 s Hcap Hs Hl' Hf) Hr)
    as (g & Hok & Hw).
  split; [by eapply cok_typed in Hok|]. destruct (co_index _ _ _ _ Hok) as [[H1 H2] _]. split; [done|]. split; [done|].
  intros i e Hi. by eapply pool_wp_not_fail.
Qed.

End theorem.

(** Three senders, one that never sends, against a receiver that mixes its
    operations. *)
Definition demo_senders : list (list (send_cmd nat)) :=
  [[STrySend 1; SDeferred 2; SFlush; STrySend 3]; []; [SUnsignaled 4; SIsFull; STrySend 5]]%nat.

Definition demo_receiver : list (recv_cmd nat nat) :=
  [RTryRecv; RLaneTryRecvFair; RBatch 2; RReleaseConsumed; RTryRecvFair; RLaneTryRecv; RIsDisconnected;
   RBatchWhile 3 (fun seen v => (seen + v <=? 5, seen + v))%nat 0%nat; RSenderCount; RTryRecv].

Lemma mpsc_interleaving_fifo_witness :
  exists s txs rx, open_channel 2 7 [1; 4] = Done (s, txs, rx) /\ length txs = length demo_senders /\
    Acc (flip pstep) (s, mpsc_pool 50 demo_receiver demo_senders txs rx) /\
    forall s' ps, rtc pstep (s, mpsc_pool 50 demo_receiver demo_senders txs rx) (s', ps) ->
      (exists c', pstep (s', ps) c') \/
      exists evs accs tr, ps = Ret (inl evs) :: ((fun acc => Ret (inr acc)) <$> accs) /\ length accs = length demo_senders /\
        traced evs tr /\ Forall (fun e => (e.1 < length demo_senders)%nat) tr /\
        forall k acc, accs !! k = Some acc -> of_lane k tr `prefix_of` acc /\
          (EvError TryRecv_Disconnected ∈ evs -> of_lane k tr = acc).
Proof.
  apply (mpsc_interleaving_fifo 2 7 [1; 4] demo_senders demo_receiver 50);
    [repeat constructor; lia|vm_compute; reflexivity|reflexivity|vm_compute; lia].
Defined.

Lemma mpsc_reachable_typed_witness :
  exists s txs rx, open_channel 2 7 [1; 4] = Done (s, txs, rx) /\
    forall s' ps, rtc pstep (s, mpsc_pool 50 demo_receiver demo_senders txs rx) (s', ps) ->
      Forall2 ring_typed [2; 1; 4] (sh_rings s') /\ index_ok (sh_index s') /\ words_ok (sh_index s') /\
      forall i e, ps !! i <> Some (Fail e).
Proof.
  apply (mpsc_reachable_typed 2 7 [1; 4] demo_senders demo_receiver 50);
    [repeat constructor; lia|vm_compute; reflexivity|reflexivity|vm_compute; lia].
Defined.
