(* ===== verification/MpscTeardown.v ===== *)
(** * The MPSC channel under the teardown probe

    The channel of Mpsc as an instance of the probed channels of Teardown: what
    its operations do to the lane rings when nothing interferes.  Lane 0 belongs
    to the receiver, the others still wait in the registry. *)

From S2P Require Import Prelude Prog Config Blocking Wait Ready YRing YRingInv YRingSpec YRingThm YRingConc YRingClose Handoff HandoffSeq Teardown MpscLane MpscLaneInv Mpsc MpscRegistry MpscConc MpscLaneConc MpscRecvConc MpscSetup MpscThm.
Local Open Scope prog_scope.

Section mpsc.
Context {T : Type} (pol : Teardown).
#[local] Abbreviation Sh := (Shared T).

#[export] Instance mpsc_probed : Probed Sh T Sender Receiver := {
  try_send := Sender_try_send pol;
  drop_sender := Sender_drop;
  drop_receiver rx := let* _ := Receiver_drop pol rx in Ret tt;
  rings := sh_rings
}.

(** ** The channel between operations *)

Definition pending_lanes (n : nat) : list PendingLane :=
  (fun k => mkPendingLane (lane_at k) (Z.of_nat k) (Z.of_nat k) fresh_consumer) <$> seq 1 (n - 1).

Record mpsc_core (alive : bool) (pend : list PendingLane) (rs : list (HRing T)) (s : Sh) : Prop := {
  mc_rings : sh_rings s = rs;
  mc_index : index_ok (sh_index s) /\ length (rs_signals (sh_index s)) = length rs;
  mc_alive : sh_receiver_alive s = alive;
  mc_pending : reg_pending (sh_registry s) = pend
}.
Definition mpsc_chan (alive : bool) (rs : list (HRing T)) (s : Sh) : Prop :=
  exists pend, mpsc_core alive pend rs s /\ (alive = true -> pend = pending_lanes (length rs) /\ (0 < length rs)%nat).

Definition mpsc_sender (k : nat) (p : RProducer) (tx : Sender) : Prop :=
  snd_ring tx = Z.of_nat k /\ snd_signal tx = Z.of_nat k /\ snd_producer tx = p.
Definition mpsc_receiver (rx : Receiver) : Prop :=
  exists l, rcv_lanes rx = [Some l] /\ lane_ring l = 0 /\ lane_signal l = 0 /\ lane_consumer l = fresh_consumer.

(** Access to one ring. *)
Lemma mc_ring {A} alive pend rs s k (p : prog (HRing T) A) hr a hr' :
  mpsc_core alive pend rs s -> rs !! k = Some hr -> run p hr = (Done a, hr') ->
  runs (on_lane_ring (Z.of_nat k) p) s (fun b s' => b = a /\ mpsc_core alive pend (<[k := hr']> rs) s').
Proof.
  intros [Hr [Hi Hl] Ha Hp] Hk E. subst rs. eapply runs_mono.
  - eapply (runs_lane_ring p s (Z.of_nat k) hr (fun b h => b = a /\ h = hr')); [by rewrite zlookup_of_nat|]. eapply runs_intro; [exact E|done].
  - intros b s' (h & -> & -> & ->). split; [done|]. rewrite zinsert_of_nat. split; cbn; rewrite ?length_insert; auto.
Qed.

(** Operations on the signal of a lane, and the wait cells. *)
Lemma mc_signal {A} alive pend rs s k (p : prog ready_store A) :
  mpsc_core alive pend rs s -> (k < length rs)%nat ->
  (forall i l, index_ok i -> zlookup (rs_signals i) (Z.of_nat k) = Some l -> runs p i (fun _ i' => index_keeps (Z.of_nat k) i i')) ->
  runs (on_index p) s (fun _ s' => mpsc_core alive pend rs s').
Proof.
  intros [Hr [Hi Hl] Ha Hp] Hk Hrun. destruct (lookup_lt_is_Some_2 (rs_signals (sh_index s)) k) as [l El]; [lia|].
  eapply runs_mono; [eapply runs_index, Hrun; [done|by rewrite zlookup_of_nat]|].
  intros b s' (i & -> & Hi' & _ & Hl'). split; cbn; auto. split; [done|congruence].
Qed.

Lemma mc_notify alive pend rs s : mpsc_core alive pend rs s -> runs data_notify s (fun _ s' => mpsc_core alive pend rs s').
Proof.
  intros [Hr Hi Ha Hp]. unfold data_notify, on_data_waiter. destruct (run WaitCell_notify (sh_data_waiter s)) as [o w] eqn:E.
  assert (o = Done tt) as ->.
  { unfold WaitCell_notify in E. cbn in E. destruct (negb _); cbn in E; by injection E. }
  eapply runs_intro; [rewrite run_lift, E; [reflexivity|by intros..|by intros []]|]. by split.
Qed.

(** ** The laws of a probed channel *)

Lemma mc_when_notify alive pend rs s (b : bool) : mpsc_core alive pend rs s -> runs (when b data_notify) s (fun _ s' => mpsc_core alive pend rs s').
Proof. intros H. destruct b; [by apply mc_notify|by apply runs_ret]. Qed.

Lemma mpsc_send pend k p tx v rs s hr p' hr' :
  mpsc_core true pend rs s -> mpsc_sender k p tx -> rs !! k = Some hr ->
  run (RProducer_is_consumer_dropped pol) hr = (Done false, hr) ->
  run (RProducer_push_and_flush pol p v) hr = (Done (Ok tt, p'), hr') ->
  runs (Sender_try_send pol tx v) s (fun r s' => r.1 = Ok tt /\ mpsc_sender k p' r.2 /\ mpsc_core true pend (<[k := hr']> rs) s').
Proof.
  intros Hc (Er & Es & Ep) Hk Ed Epush. pose proof (lookup_lt_Some _ _ _ Hk) as Hlt. unfold Sender_try_send, Sender_try_send_inner. rewrite Er, Ep.
  apply runs_bind. eapply runs_seq; [by eapply mc_ring|]. intros d s1 [-> Hc1]. rewrite list_insert_id in Hc1 by done.
  eapply runs_seq; [by eapply mc_ring|]. intros [r p2] s2 [[= -> ->] Hc2].
  eapply runs_seq; [eapply (mc_signal true pend _ _ k); [exact Hc2|by rewrite length_insert|]|].
  { cbn [snd_signal with_producer]. rewrite Es. intros i l. apply runs_mark. }
  intros w s3 Hc3. apply runs_ret. eapply runs_seq; [exact (mc_when_notify _ _ _ _ _ Hc3)|]. intros u s4 Hc4. apply runs_ret. by split_and!.
Qed.

Lemma mpsc_refuse pend k p tx v rs s hr :
  mpsc_core false pend rs s -> mpsc_sender k p tx -> rs !! k = Some hr ->
  run (RProducer_is_consumer_dropped pol) hr = (Done true, hr) ->
  runs (Sender_try_send pol tx v) s (fun r s' => r = (Err (TrySend_Disconnected v), tx) /\ mpsc_core false pend rs s').
Proof.
  intros Hc (Er & Es & Ep) Hk Ed. unfold Sender_try_send, Sender_try_send_inner. rewrite Er.
  apply runs_bind. eapply runs_seq; [by eapply mc_ring|]. intros d s1 [-> Hc1]. rewrite list_insert_id in Hc1 by done.
  do 2 apply runs_ret. by apply runs_ret.
Qed.

Lemma mpsc_drop_sender pend k p tx rs s hr hr1 hr' :
  mpsc_core false pend rs s -> mpsc_sender k p tx -> rs !! k = Some hr ->
  run (RProducer_close p) hr = (Done tt, hr1) -> run (on_hring (Producer_drop (rp_inner p))) hr1 = (Done tt, hr') ->
  runs (Sender_drop tx) s (fun _ s' => mpsc_core false pend (<[k := hr']> rs) s').
Proof.
  intros Hc (Er & Es & Ep) Hk E1 E2. pose proof (lookup_lt_Some _ _ _ Hk) as Hlt. unfold Sender_drop. rewrite Er, Es, Ep.
  eapply runs_seq; [by eapply mc_ring|]. intros u s1 [_ Hc1].
  eapply runs_seq; [eapply (mc_signal false pend _ _ k); [exact Hc1|by rewrite length_insert|intros i l; apply runs_mark]|]. intros w s2 Hc2.
  apply runs_bind. eapply runs_intro; [reflexivity|]. cbn [fst snd].
  eapply (runs_seq _ _ _ (fun _ s' => mpsc_core false pend (<[k := hr1]> rs) s')); [apply mc_notify; destruct Hc2; by split|].
  intros u2 s3 Hc3. eapply runs_mono; [eapply mc_ring; [exact Hc3|by apply list_lookup_insert_eq|exact E2]|].
  intros u3 s4 [_ Hc4]. by rewrite list_insert_insert_eq in Hc4.
Qed.

Lemma mc_close alive pend rs s k l_ring l_signal hr hr' :
  mpsc_core alive pend rs s -> l_ring = Z.of_nat k -> l_signal = Z.of_nat k -> rs !! k = Some hr ->
  run (RConsumer_close pol fresh_consumer) hr = (Done (mkRConsumer None), hr') ->
  runs (let* c := on_lane_ring l_ring (RConsumer_close pol fresh_consumer) in
        let* _ := on_index (LaneSignal_notify_space l_signal) in Ret c) s (fun _ s' => mpsc_core alive pend (<[k := hr']> rs) s').
Proof.
  intros Hc -> -> Hk E. eapply runs_seq; [by eapply mc_ring|]. intros c s1 [_ Hc1].
  eapply runs_seq; [eapply (mc_signal alive pend _ _ k); [exact Hc1|rewrite length_insert; by eapply lookup_lt_Some|intros i l; apply runs_notify_space]|].
  intros u s2 Hc2. by apply runs_ret.
Qed.

Lemma mc_close_pending pend n : forall k rs rs' s,
  mpsc_core false pend rs s -> (k + n = length rs)%nat -> length rs' = length rs ->
  (forall i hr hr', rs !! i = Some hr -> rs' !! i = Some hr' -> (k <= i)%nat -> run (RConsumer_close pol fresh_consumer) hr = (Done (mkRConsumer None), hr')) ->
  (forall i, (i < k)%nat -> rs !! i = rs' !! i) ->
  runs (close_pending pol ((fun k => mkPendingLane (lane_at k) (Z.of_nat k) (Z.of_nat k) fresh_consumer) <$> seq k n)) s (fun _ s' => mpsc_core false pend rs' s').
Proof.
  induction n as [|n IH]; intros k rs rs' s Hc Hkn Hl Hclose Hlow; cbn [seq fmap list_fmap close_pending].
  { apply runs_ret. replace rs' with rs; [done|]. apply list_eq_same_length with (length rs); [done|done|].
    intros i x y Hi Hx Hy. rewrite (Hlow i) in Hx by lia. congruence. }
  destruct (lookup_lt_is_Some_2 rs k) as [hr Hk]; [lia|]. destruct (lookup_lt_is_Some_2 rs' k) as [hr' Hk']; [lia|].
  pose proof (mc_close false pend rs s k _ _ hr hr' Hc eq_refl eq_refl Hk (Hclose k hr hr' Hk Hk' ltac:(lia))) as Hrun.
  apply runs_elim in Hrun as (c & s1 & E & Hc1). cbn [pl_ring pl_signal pl_consumer].
  assert (Hmain : runs (close_pending pol ((fun k => mkPendingLane (lane_at k) (Z.of_nat k) (Z.of_nat k) fresh_consumer) <$> seq (S k) n)) s1 (fun _ s' => mpsc_core false pend rs' s')).
  { apply (IH (S k) (<[k := hr']> rs)); rewrite ?length_insert; try done; [lia| |].
    - intros i h h' Hi Hi' Hle. rewrite list_lookup_insert_ne in Hi by lia. apply (Hclose i h h'); (done || lia).
    - intros i Hi. destruct (decide (i = k)) as [->|N]; [rewrite Hk'; apply list_lookup_insert_eq; lia|].
      rewrite list_lookup_insert_ne by done. apply Hlow. lia. }
  clear - E Hmain. unfold runs in *. rewrite !run_bind in *. destruct (run (on_lane_ring (Z.of_nat k) _) s) as [[c'|e] s2]; [|done].
  rewrite !run_bind in *. destruct (run (on_index _) s2) as [[u|e] s3]; [|done]. cbn in E. by injection E as _ ->.
Qed.


Lemma mc_alive_off alive pend rs s : mpsc_core alive pend rs s -> mpsc_core false pend rs (set_sh_receiver_alive false s).
Proof. intros [? ? ? ?]. by split. Qed.

Lemma mpsc_drop_receiver rx rs rs' s :
  mpsc_chan true rs s -> mpsc_receiver rx ->
  Forall2 (fun hr hr' => run (RConsumer_close pol fresh_consumer) hr = (Done (mkRConsumer None), hr')) rs rs' ->
  runs (let* _ := Receiver_drop pol rx in Ret tt) s (fun _ s' => mpsc_chan false rs' s').
Proof.
  intros (pend & Hc & Hp) (l & El & Er & Es & Ec) HF. destruct (Hp eq_refl) as [-> Hpos]. unfold Receiver_drop. rewrite El.
  pose proof (Forall2_length _ _ _ HF) as Hlen. destruct (lookup_lt_is_Some_2 rs 0%nat) as [hr Hk]; [lia|].
  destruct (Forall2_lookup_l _ _ _ _ _ HF Hk) as (hr' & Hk' & E).
  apply runs_bind, runs_bind. eapply runs_intro; [reflexivity|]. cbn [fst snd close_lanes].
  pose proof (mc_alive_off _ _ _ _ Hc) as Hc0. eapply (runs_seq _ _ _ (fun _ s' => mpsc_core false (pending_lanes (length rs)) (<[0%nat := hr']> rs) s')).
  { rewrite Er, Es, Ec. pose proof (mc_close false _ rs _ 0 0 0 hr hr' Hc0 eq_refl eq_refl Hk E) as Hrun. clear - Hrun.
    unfold runs in *. rewrite !run_bind in *. destruct (run (on_lane_ring _ _) _) as [[c|e] s1]; [|done].
    rewrite !run_bind in *. destruct (run (on_index _) s1) as [[u|e] s2]; [|done]. exact Hrun. }
  intros ls s1 Hc1. apply runs_bind. eapply runs_intro; [reflexivity|]. cbn [fst snd]. destruct Hc1 as [R1 I1 A1 P1]. rewrite P1.
  eapply runs_seq; [eapply (mc_close_pending [] (length rs - 1) 1 (<[0%nat := hr']> rs) rs'); rewrite ?length_insert; try done|].
  - lia.
  - intros i h h' Hi Hi' Hle. rewrite list_lookup_insert_ne in Hi by lia. by eapply (Forall2_lookup_lr _ _ _ _ _ _ HF).
  - intros i Hi. replace i with 0%nat by lia. rewrite Hk'. by apply list_lookup_insert_eq.
  - intros u s2 Hc2. do 2 apply runs_ret. exists []. by split.
Qed.

#[export] Instance mpsc_laws : ProbedLaws pol Sh T Sender Receiver.
Proof.
  refine {| Teardown.chan := mpsc_chan; Teardown.is_sender := mpsc_sender; Teardown.is_receiver := mpsc_receiver |}.
  - intros alive rs s (pend & [E _ _ _] & _). exact E.
  - intros k p tx v rs s hr p' hr' (pend & Hc & Hp) Htx Hk Ed E. eapply runs_mono; [by eapply mpsc_send|].
    intros r s' (Er & Htx' & Hc'). split; [done|]. split; [done|]. exists pend. by rewrite length_insert.
  - intros k p tx v rs s hr (pend & Hc & Hp) Htx Hk Ed. eapply runs_mono; [by eapply mpsc_refuse|].
    intros r s' [Er Hc']. split; [done|]. by exists pend.
  - apply mpsc_drop_receiver.
  - intros k p tx rs s hr hr1 hr' (pend & Hc & Hp) Htx Hk E1 E2. eapply runs_mono; [by eapply mpsc_drop_sender|].
    intros u s' Hc'. exists pend. by rewrite length_insert.
Defined.


(** ** A channel as its constructor leaves it *)

Lemma started_chan caps s : started caps s -> mpsc_chan true (sh_rings s) s.
Proof.
  intros H. pose proof (Forall2_length _ _ _ (st_rings _ _ H)) as Hl. destruct (st_lanes _ _ H) as [Hpos _].
  exists (pending_lanes (length (sh_rings s))). split; [|intros _; split; [done|lia]]. split; try done.
  - destruct (st_shape _ _ H) as [(_ & _ & _ & Hi & _) _]. split; [done|]. destruct (st_signals _ _ H) as [E _]. congruence.
  - apply H.
  - rewrite (st_pending _ _ H), <- Hl. done.
Qed.

Lemma started_lanes w caps s i tx : started caps s -> (sender_at w <$> seq 0 (length caps)) !! i = Some tx ->
  exists cap, caps !! i = Some cap /\ lane_filled pol i tx cap [] (sh_rings s).
Proof.
  intros H Hi. apply list_lookup_fmap_Some in Hi as (j & -> & Hj). apply lookup_seq in Hj as [-> Hj].
  destruct (lookup_lt_is_Some_2 caps i) as [cap Hcap]; [lia|]. destruct (Forall2_lookup_l _ _ _ _ _ (st_rings _ _ H) Hcap) as (hr & Hhr & Hu).
  exists cap. split; [done|]. exists (mkRProducer (mkProducer 0 0)), hr. split; [done|]. split; [done|]. apply Hu.
Qed.

Lemma mpsc_teardown c0 id capacities scripts late :
  Forall (fun c => 0 < c <= 2 ^ 62) (c0 :: capacities) -> Z.of_nat (S (length capacities)) < usize_mod ->
  Forall2 (fun vs c => zlength vs <= c) scripts (c0 :: capacities) -> length late = S (length capacities) ->
  exists s txs rx, open_channel (T := T) c0 id capacities = Done (s, txs, rx) /\
    runs (probe scripts txs rx) s (fun r _ => r = (at_drop pol scripts, scripts)) /\
    runs (late_sends scripts late txs rx) s (fun r _ => r = (fun v => Err (TrySend_Disconnected v)) <$> late).
Proof.
  intros Hc Hn Hfit Hlate. destruct (open_channel_started (T := T) c0 id capacities Hc Hn) as (cap & more & s & _ & Hcaps & Hs & E).
  eexists s, _, _. split; [exact E|]. pose proof (Forall2_length _ _ _ (st_rings _ _ Hs)) as Lr. pose proof (Forall2_length _ _ _ Hfit) as Lf.
  pose proof (Forall2_length _ _ _ Hcaps) as Lc. cbn [length] in *.
  pose proof (fit_rounded _ _ _ Hfit Hcaps) as Hfit'.
  assert (Hrx : mpsc_receiver (first_receiver cap c0)) by by eexists.
  split; [eapply probe_ok|eapply late_sends_ok]; rewrite ?length_fmap, ?length_seq; try done.
  1, 4: by eapply started_chan.
  1, 3: rewrite length_fmap, length_seq; cbn in *; lia.
  all: intros i tx Hi; eapply started_lanes; [done|]; cbn [length]; by rewrite <- Lc.
Qed.

End mpsc.
