(* ===== verification/MpscReady.v ===== *)
(** * No readiness is lost

    The values of a lane are found through the readiness index: a sender that
    publishes marks its lane, the receiver takes marks and polls the lanes it
    found.  This file follows the marks on their way from a sender to the
    receiver.  The ghost state says where a mark is: a sender swapped its
    signal word and still has to set the bit of its lane ([rg_flight]), or the
    bit of its page ([rg_announce]); the bits are set; the receiver took the
    bit of a page ([rg_claimed]) or of a lane ([rg_hand]); the lane is active
    ([rg_held]).  Retired lanes are [rg_gone].  A sender that marked its lane
    after it closed its ring ([rg_final]) changes nothing any more.

    The invariant [ready_inv] is about the part [rview] of the shared state.
    That the programs do not fault is the matter of MpscThm; here it is taken
    for granted ([wlp]). *)

From stdpp Require Import gmap.
From S2P Require Import Prelude Prog ProgPartial Config Wait Ready YRing Handoff MpscLane Mpsc.
Local Open Scope prog_scope.

Record rview : Type := mkRView {
  v_signals : list (Z * Z * Z);
  v_pages : list ReadyPage;
  v_groups : list ReadyGroup;
  v_rings : list (bool * Z);
  v_registry : Registry;
  v_generation : Z;
  v_registered : Z;
  v_live : Z
}.

Definition signal_view (l : LaneSignal) : Z * Z * Z := (signal_state l, signal_page l, signal_bit l).
Definition ring_view {T} (hr : HRing T) : bool * Z := (ring_producer_dropped (hr_ring hr), ring_tail (hr_ring hr)).

Definition view {T} (s : Shared T) : rview :=
  mkRView (signal_view <$> rs_signals (sh_index s)) (rs_pages (sh_index s)) (rs_groups (sh_index s))
    (ring_view <$> sh_rings s) (sh_registry s) (sh_registry_generation s) (sh_registered_lanes s) (sh_live_senders s).

Record rghost : Type := mkRG {
  rg_flight : gset nat;
  rg_announce : gset nat;
  rg_final : gset nat;
  rg_left : gset nat;
  rg_held : gset nat;
  rg_hand : gset nat;
  rg_claimed : gset Z;
  rg_window : gset nat;
  rg_gone : gset nat
}.

(** ** The invariant *)

Section inv.
Context (n : nat) (pages groups : list Z) (gen : Z).
Implicit Types (v w : rview) (g : rghost) (k : nat) (i h : Z).

(** The page and the bit of a lane, the group and the bit of a page. *)
Definition lane_page k : Z := Z.of_nat k / LANES_PER_PAGE.
Definition lane_bit k : Z := Z.of_nat k mod LANES_PER_PAGE.

Definition sig_word v k : Z := match v_signals v !! k with Some (st, _, _) => st | None => IDLE end.
Definition page_word v i : Z :=
  match zlookup pages i with
  | Some h => match zlookup (v_pages v) h with Some p => page_bits p | None => 0 end
  | None => 0
  end.
Definition group_word v i : Z :=
  match zlookup groups i with
  | Some h => match zlookup (v_groups v) h with Some gr => group_bits gr | None => 0 end
  | None => 0
  end.

(** The objects of the index refer to one another as the registry says; they
    do not change. *)
Record topo v : Prop := {
  tp_registry : reg_pages (v_registry v) = pages /\ reg_groups (v_registry v) = groups /\ v_generation v = gen;
  tp_signal : forall k, (k < n)%nat -> exists st h,
    v_signals v !! k = Some (st, h, Z.shiftl 1 (lane_bit k)) /\ zlookup pages (lane_page k) = Some h;
  tp_page : forall i h, zlookup pages i = Some h -> exists p, zlookup (v_pages v) h = Some p /\
    is_u64 (page_bits p) /\ page_group_bit p = Z.shiftl 1 (i mod PAGES_PER_GROUP) /\ zlookup groups (i / PAGES_PER_GROUP) = Some (page_group p);
  tp_group : forall i h, zlookup groups i = Some h -> exists gr, zlookup (v_groups v) h = Some gr /\
    is_u64 (group_bits gr) /\ group_id gr = i
}.

Record ready_inv v g : Prop := {
  ri_topo : topo v;
  (** A pending lane is known to the receiver, on its way, or its bit is set. *)
  ri_lane : forall k, (k < n)%nat -> sig_word v k <> IDLE ->
    k ∈ rg_held g \/ k ∈ rg_flight g \/ k ∈ rg_hand g \/ k ∈ rg_gone g \/ Z.testbit (page_word v (lane_page k)) (lane_bit k) = true;
  (** A page with bits is in the receiver's hand, announced, or its bit is set. *)
  ri_page : forall i, page_word v i <> 0 ->
    i ∈ rg_claimed g \/ (exists k, k ∈ rg_announce g /\ lane_page k = i) \/
    Z.testbit (group_word v (i / PAGES_PER_GROUP)) (i mod PAGES_PER_GROUP) = true;
  ri_small : forall k, k ∈ rg_announce g -> (k < n)%nat;
  (** The last mark of a sender leaves its lane pending until the receiver has
      seen the end of the lane. *)
  ri_final : forall k, (k < n)%nat -> k ∈ rg_final g -> (k ∉ rg_gone g) -> sig_word v k = IDLE -> k ∈ rg_window g;
  ri_closed : forall k, k ∈ rg_final g -> exists t, v_rings v !! k = Some (true, t);
  ri_registered : v_registered v = Z.of_nat n - Z.of_nat (size (rg_gone g)) /\ rg_gone g ⊆ set_seq 0 n;
  ri_live : v_live v = Z.of_nat n - Z.of_nat (size (rg_left g)) /\ rg_left g ⊆ set_seq 0 n
}.

(** What the receiver, thread [0], and the sender of lane [k], thread [S k],
    may do. *)
Definition send_ghosts g : gset nat * gset nat * gset nat * gset nat := (rg_flight g, rg_announce g, rg_final g, rg_left g).
Definition recv_ghosts g : gset nat * gset nat * gset Z * gset nat * gset nat :=
  (rg_held g, rg_hand g, rg_claimed g, rg_window g, rg_gone g).

Definition same_but k (a b : gset nat) : Prop := forall j, j <> k -> j ∈ b <-> j ∈ a.

Definition rest_but k v w : Prop := forall j, j <> k -> v_rings w !! j = v_rings v !! j /\ sig_word w j = sig_word v j.

Record send_step k v g w g' : Prop := {
  ss_recv : recv_ghosts g' = recv_ghosts g;
  ss_registry : v_registry w = v_registry v /\ v_registered w = v_registered v;
  ss_rest : rest_but k v w;
  ss_ghosts : same_but k (rg_flight g) (rg_flight g') /\ same_but k (rg_announce g) (rg_announce g') /\
    same_but k (rg_final g) (rg_final g') /\ same_but k (rg_left g) (rg_left g');
  ss_word : sig_word w k = sig_word v k \/ sig_word w k = PENDING;
  ss_final : k ∈ rg_final g -> k ∈ rg_final g' /\ v_rings w !! k = v_rings v !! k;
  ss_mark : k ∈ rg_final g' -> (k ∉ rg_final g) -> sig_word w k = PENDING;
  ss_left : k ∈ rg_left g -> k ∈ rg_left g' /\ v_live w = v_live v;
  ss_done : k ∈ rg_final g -> (k ∉ rg_flight g) -> (k ∉ rg_announce g) ->
    (k ∉ rg_flight g') /\ (k ∉ rg_announce g') /\
    v_signals w = v_signals v /\ v_pages w = v_pages v /\ v_groups w = v_groups v;
  ss_alien : (n <= k)%nat -> v_groups w = v_groups v
}.

Definition recv_step v g w g' : Prop :=
  send_ghosts g' = send_ghosts g /\ v_rings w = v_rings v /\ v_live w = v_live v.

Definition vguar (a : nat) (v : rview) g w g' : Prop :=
  ready_inv w g' /\ match a with O => recv_step v g w g' | S k => send_step k v g w g' end.

Lemma send_step_refl k v g : send_step k v g v g.
Proof. split; auto; try done. Qed.

Lemma vguar_refl a v g : ready_inv v g -> vguar a v g v g.
Proof. intros H. split; [done|]. destruct a; [done|apply send_step_refl]. Qed.

(** ** The words by number *)

Lemma groups_inj v i j h : topo v -> zlookup groups i = Some h -> zlookup groups j = Some h -> i = j.
Proof. intros H Hi Hj. destruct (tp_group _ H _ _ Hi) as (gr & E & _ & <-). destruct (tp_group _ H _ _ Hj) as (gr' & E' & _ & <-). congruence. Qed.

Lemma pages_inj v i j h : topo v -> zlookup pages i = Some h -> zlookup pages j = Some h -> i = j.
Proof.
  intros H Hi Hj. destruct (tp_page _ H _ _ Hi) as (p & E & _ & B & G). destruct (tp_page _ H _ _ Hj) as (p' & E' & _ & B' & G').
  rewrite E in E'. injection E' as <-. pose proof (groups_inj v _ _ _ H G G') as Ed.
  assert (Em : i mod PAGES_PER_GROUP = j mod PAGES_PER_GROUP).
  { rewrite B in B'. unfold PAGES_PER_GROUP in *. pose proof (Z.mod_pos_bound i 64 ltac:(lia)). pose proof (Z.mod_pos_bound j 64 ltac:(lia)).
    rewrite !Z.shiftl_1_l in B'. apply Z.pow_inj_r in B'; lia. }
  unfold PAGES_PER_GROUP in *. rewrite (Z.div_mod i 64), (Z.div_mod j 64) by lia. lia.
Qed.

Lemma testbit_shiftl_1 a b : 0 <= a -> Z.testbit (Z.shiftl 1 a) b = bool_decide (a = b).
Proof.
  intros Ha. rewrite Z.shiftl_1_l. destruct (decide (a = b)) as [->|Hne].
  - rewrite bool_decide_eq_true_2 by done. by apply Z.pow2_bits_true.
  - rewrite bool_decide_eq_false_2 by done. by apply Z.pow2_bits_false.
Qed.

End inv.

(** ** Programs and the view *)

Definition upd_signal (k : nat) (e : Z * Z * Z) (v : rview) : rview :=
  mkRView (<[k := e]> (v_signals v)) (v_pages v) (v_groups v) (v_rings v) (v_registry v) (v_generation v) (v_registered v) (v_live v).
Definition upd_page (h : Z) (p : ReadyPage) (v : rview) : rview :=
  mkRView (v_signals v) (zinsert (v_pages v) h p) (v_groups v) (v_rings v) (v_registry v) (v_generation v) (v_registered v) (v_live v).
Definition upd_group (h : Z) (gr : ReadyGroup) (v : rview) : rview :=
  mkRView (v_signals v) (v_pages v) (zinsert (v_groups v) h gr) (v_rings v) (v_registry v) (v_generation v) (v_registered v) (v_live v).
Definition upd_counts (registry : Registry) (registered live : Z) (v : rview) : rview :=
  mkRView (v_signals v) (v_pages v) (v_groups v) (v_rings v) registry (v_generation v) registered live.
Definition upd_ring (k : nat) (r : bool * Z) (v : rview) : rview :=
  mkRView (v_signals v) (v_pages v) (v_groups v) (<[k := r]> (v_rings v)) (v_registry v) (v_generation v) (v_registered v) (v_live v).

(** The tails of the rings are machine words: part of what MpscThm shows. *)
Definition tails_ok {T} (s : Shared T) : Prop := Forall (fun hr => is_usize (ring_tail (hr_ring hr))) (sh_rings s).

Section logic.
Context {T : Type} (n : nat) (pages groups : list Z) (gen : Z).
Implicit Types (P R : rview -> rghost -> Prop).
#[local] Abbreviation vguar := (vguar n pages groups gen).
#[local] Abbreviation inv := (ready_inv n pages groups gen).

Definition rguar (a : nat) : relation (Shared T * rghost) := fun x y => vguar a (view x.1) x.2 (view y.1) y.2.
#[local] Abbreviation wlp := (wlp (S := Shared T) tails_ok rguar).

Definition at_view P (x : Shared T * rghost) : Prop := P (view x.1) x.2.

(** Kept by the steps of the other threads. *)
Definition vstable (a : nat) P : Prop := forall b v g w g', b <> a -> P v g -> vguar b v g w g' -> P w g'.

Lemma vstable_stable a P : vstable a P -> stable rguar a (at_view P).
Proof. intros H x y Hx (b & Hb & Hg). by eapply H. Qed.

Lemma vstable_and a P R : vstable a P -> vstable a R -> vstable a (fun v g => P v g /\ R v g).
Proof. intros H1 H2 b v g w g' Hb [Hp Hr] Hg. split; [by eapply H1|by eapply H2]. Qed.

Lemma wlp_ret_view {A} a P (r : A) (Q : A -> Shared T * rghost -> Prop) x :
  vstable a P -> at_view P x -> (forall y, at_view P y -> Q r y) -> wlp a (Ret r) Q x.
Proof. intros HS Hx HQ. eapply wlp_ret; [by apply vstable_stable|exact Hx|exact HQ]. Qed.

(** A program that leaves the view alone. *)
Lemma wlp_calm {A} a P (p : prog (Shared T) A) (Y : A -> Prop) x :
  keeps view p -> yields p Y -> vstable a P -> (forall v g, P v g -> inv v g) -> at_view P x ->
  wlp a p (fun r y => Y r /\ at_view P y) x.
Proof.
  intros Hk Hy HS HI. revert x. induction p as [r|R f k IH|e]; intros x Hx; cbn in Hy.
  - eapply wlp_ret_view; [exact HS|exact Hx|]. by intros y.
  - destruct Hk as [H1 H2]. eapply wlp_act; [apply vstable_stable, HS|exact Hx|]. intros s g Hp _. exists g.
    assert (Hp' : at_view P ((f s).2, g)) by (unfold at_view; cbn; by rewrite H1).
    split; [unfold rguar; cbn; rewrite H1; by apply vguar_refl, HI|]. apply IH; auto.
  - done.
Qed.

(** The same with results that depend on the ends of the rings. *)
Lemma wlp_calm_in {A} a P (I : Shared T -> Prop) (p : prog (Shared T) A) (Y : A -> Prop) x :
  keeps view p -> yields_in I p Y -> (forall s g, at_view P (s, g) -> tails_ok s -> I s) ->
  vstable a P -> (forall v g, P v g -> inv v g) -> at_view P x ->
  wlp a p (fun r y => Y r /\ at_view P y) x.
Proof.
  intros Hk Hy HJ HS HI. revert x. induction p as [r|R f k IH|e]; intros x Hx; cbn in Hy.
  - eapply wlp_ret_view; [exact HS|exact Hx|]. by intros y.
  - destruct Hk as [H1 H2]. eapply wlp_act; [apply vstable_stable, HS|exact Hx|]. intros s g Hp Ht. exists g.
    assert (Hp' : at_view P ((f s).2, g)) by (unfold at_view; cbn; by rewrite H1).
    split; [unfold rguar; cbn; rewrite H1; by apply vguar_refl, HI|]. apply IH; eauto.
  - done.
Qed.

Lemma wlp_calm_call {A B} a P (p : prog (Shared T) A) (k : A -> prog (Shared T) B) (Y : A -> Prop) Q x :
  keeps view p -> yields p Y -> vstable a P -> (forall v g, P v g -> inv v g) -> at_view P x ->
  (forall r y, Y r -> at_view P y -> wlp a (k r) Q y) -> wlp a (bind p k) Q x.
Proof. intros H1 H2 H3 H4 H5 H6. eapply wlp_call; [by eapply wlp_calm|]. intros r y [Hr Hy] _. auto. Qed.

(** ** One access to an object of the index *)

Lemma view_signal k l (s : Shared T) :
  view (set_sh_index (set_signal_at (Z.of_nat k) l (sh_index s)) s) = upd_signal k (signal_view l) (view s).
Proof. unfold view, upd_signal, set_signal_at. cbn. by rewrite zinsert_of_nat, list_fmap_insert. Qed.

Lemma wlp_on_signal {X B} a P k (f : LaneSignal -> X * LaneSignal) (c : X -> prog (Shared T) B) Q x :
  vstable a P -> (forall v g, P v g -> inv v g) -> at_view P x ->
  (forall v g sg, P v g -> v_signals v !! k = Some (signal_view sg) ->
     exists g', vguar a v g (upd_signal k (signal_view (f sg).2) v) g' /\
       forall s, view s = upd_signal k (signal_view (f sg).2) v -> wlp a (c (f sg).1) Q (s, g')) ->
  wlp a (bind (on_index (on_signal (Z.of_nat k) f)) c) Q x.
Proof.
  intros HS HI Hx Hf. unfold on_index, on_signal. cbn. eapply wlp_act; [apply vstable_stable, HS|exact Hx|].
  intros s g Hp _. rewrite zlookup_of_nat. destruct (rs_signals (sh_index s) !! k) as [sg|] eqn:E; cbn.
  - destruct (Hf (view s) g sg Hp) as (g' & Hg & Hc); [unfold view; cbn; by rewrite list_lookup_fmap, E|].
    destruct (f sg) as [r sg'] eqn:Ef. cbn in *. exists g'. split; [unfold rguar; cbn; by rewrite view_signal|].
    apply Hc. by rewrite view_signal.
  - exists g. split; [|done]. by apply vguar_refl, HI.
Qed.

Lemma wlp_on_page {X B} a P h (f : ReadyPage -> X * ReadyPage) (c : X -> prog (Shared T) B) Q x :
  vstable a P -> (forall v g, P v g -> inv v g) -> at_view P x ->
  (forall v g p, P v g -> zlookup (v_pages v) h = Some p ->
     exists g', vguar a v g (upd_page h (f p).2 v) g' /\
       forall s, view s = upd_page h (f p).2 v -> wlp a (c (f p).1) Q (s, g')) ->
  wlp a (bind (on_index (on_page h f)) c) Q x.
Proof.
  intros HS HI Hx Hf. unfold on_index, on_page. cbn. eapply wlp_act; [apply vstable_stable, HS|exact Hx|].
  intros s g Hp _. destruct (zlookup (rs_pages (sh_index s)) h) as [p|] eqn:E; cbn.
  - destruct (Hf (view s) g p Hp E) as (g' & Hg & Hc). destruct (f p) as [r p'] eqn:Ef. cbn in *. exists g'. split; [exact Hg|].
    by apply Hc.
  - exists g. split; [|done]. by apply vguar_refl, HI.
Qed.

Lemma wlp_on_group {X B} a P h (f : ReadyGroup -> X * ReadyGroup) (c : X -> prog (Shared T) B) Q x :
  vstable a P -> (forall v g, P v g -> inv v g) -> at_view P x ->
  (forall v g gr, P v g -> zlookup (v_groups v) h = Some gr ->
     exists g', vguar a v g (upd_group h (f gr).2 v) g' /\
       forall s, view s = upd_group h (f gr).2 v -> wlp a (c (f gr).1) Q (s, g')) ->
  wlp a (bind (on_index (on_group h f)) c) Q x.
Proof.
  intros HS HI Hx Hf. unfold on_index, on_group. cbn. eapply wlp_act; [apply vstable_stable, HS|exact Hx|].
  intros s g Hp _. destruct (zlookup (rs_groups (sh_index s)) h) as [gr|] eqn:E; cbn.
  - destruct (Hf (view s) g gr Hp E) as (g' & Hg & Hc). destruct (f gr) as [r gr'] eqn:Ef. cbn in *. exists g'. split; [exact Hg|].
    by apply Hc.
  - exists g. split; [|done]. by apply vguar_refl, HI.
Qed.

End logic.

(** ** The words after a step *)

Section words.
Context (n : nat) (pages groups : list Z) (gen : Z).
#[local] Abbreviation topo := (topo n pages groups gen).
#[local] Abbreviation page_word := (page_word pages).
#[local] Abbreviation group_word := (group_word groups).
#[local] Abbreviation inv := (ready_inv n pages groups gen).
Implicit Types (v : rview) (g : rghost).

Lemma sig_word_upd v k e e' j : v_signals v !! k = Some e -> sig_word (upd_signal k e' v) j = if decide (j = k) then e'.1.1 else sig_word v j.
Proof.
  intros E. unfold sig_word, upd_signal. cbn. case_decide as Hj.
  - subst j. rewrite list_lookup_insert_eq by (by eapply lookup_lt_Some). by destruct e' as [[]].
  - by rewrite list_lookup_insert_ne.
Qed.

Lemma page_word_at v i h p : zlookup pages i = Some h -> zlookup (v_pages v) h = Some p -> page_word v i = page_bits p.
Proof. intros E1 E2. unfold MpscReady.page_word. by rewrite E1, E2. Qed.

Lemma group_word_at v i h gr : zlookup groups i = Some h -> zlookup (v_groups v) h = Some gr -> group_word v i = group_bits gr.
Proof. intros E1 E2. unfold MpscReady.group_word. by rewrite E1, E2. Qed.

Lemma page_word_upd v i h p p' j :
  topo v -> zlookup pages i = Some h -> zlookup (v_pages v) h = Some p ->
  page_word (upd_page h p' v) j = if decide (j = i) then page_bits p' else page_word v j.
Proof.
  intros Ht Ei Ep. pose proof (zlookup_Some_range _ _ _ Ep). unfold MpscReady.page_word, upd_page. cbn. case_decide as Hj.
  - subst j. rewrite Ei. by erewrite zlookup_zinsert_eq by done.
  - destruct (zlookup pages j) as [h'|] eqn:Ej; [|done]. rewrite zlookup_zinsert_ne; [done|lia|].
    intros <-. by eapply Hj, pages_inj.
Qed.

Lemma group_word_upd v i h gr gr' j :
  topo v -> zlookup groups i = Some h -> zlookup (v_groups v) h = Some gr ->
  group_word (upd_group h gr' v) j = if decide (j = i) then group_bits gr' else group_word v j.
Proof.
  intros Ht Ei Ep. pose proof (zlookup_Some_range _ _ _ Ep). unfold MpscReady.group_word, upd_group. cbn. case_decide as Hj.
  - subst j. rewrite Ei. by erewrite zlookup_zinsert_eq by done.
  - destruct (zlookup groups j) as [h'|] eqn:Ej; [|done]. rewrite zlookup_zinsert_ne; [done|lia|].
    intros <-. by eapply Hj, groups_inj.
Qed.

Lemma topo_upd_signal v k st st' h b : topo v -> v_signals v !! k = Some (st, h, b) -> topo (upd_signal k (st', h, b) v).
Proof.
  intros [H1 H2 H3 H4] E. split; [exact H1| |exact H3|exact H4]. intros j Hj. destruct (H2 j Hj) as (sj & hj & Ej & Hp).
  unfold upd_signal. cbn. destruct (decide (j = k)) as [->|Hne].
  - rewrite list_lookup_insert_eq by (by eapply lookup_lt_Some). rewrite E in Ej. injection Ej as -> -> ->. eauto.
  - rewrite list_lookup_insert_ne by done. eauto.
Qed.

Lemma topo_upd_page v h p b : topo v -> zlookup (v_pages v) h = Some p -> is_u64 b -> topo (upd_page h (with_page_bits b p) v).
Proof.
  intros [H1 H2 H3 H4] E Hb. split; [exact H1|exact H2| |exact H4]. intros i h' Hi. destruct (H3 i h' Hi) as (q & Eq & Hu & Hg & Hp).
  pose proof (zlookup_Some_range _ _ _ E). unfold upd_page. cbn. destruct (decide (h' = h)) as [->|Hne].
  - exists (with_page_bits b p). rewrite E in Eq. injection Eq as ->. split; [by eapply zlookup_zinsert_eq|done].
  - exists q. rewrite zlookup_zinsert_ne by (lia || done). done.
Qed.

Lemma topo_upd_group v h gr b : topo v -> zlookup (v_groups v) h = Some gr -> is_u64 b -> topo (upd_group h (with_group_bits b gr) v).
Proof.
  intros [H1 H2 H3 H4] E Hb. split; [exact H1|exact H2|exact H3|]. intros i h' Hi. destruct (H4 i h' Hi) as (q & Eq & Hu & Hg).
  pose proof (zlookup_Some_range _ _ _ E). unfold upd_group. cbn. destruct (decide (h' = h)) as [->|Hne].
  - exists (with_group_bits b gr). rewrite E in Eq. injection Eq as ->. split; [by eapply zlookup_zinsert_eq|done].
  - exists q. rewrite zlookup_zinsert_ne by (lia || done). done.
Qed.

(** A word with one more bit. *)
Lemma testbit_set w a b : 0 <= a -> Z.testbit (Z.lor w (Z.shiftl 1 a)) b = Z.testbit w b || bool_decide (a = b).
Proof. intros Ha. by rewrite Z.lor_spec, testbit_shiftl_1. Qed.

Lemma lane_bit_range k : 0 <= lane_bit k < 64.
Proof. unfold lane_bit, LANES_PER_PAGE. apply Z.mod_pos_bound. lia. Qed.

Lemma lane_inj j k : lane_page j = lane_page k -> lane_bit j = lane_bit k -> j = k.
Proof.
  unfold lane_page, lane_bit, LANES_PER_PAGE. intros H1 H2. pose proof (Z.div_mod (Z.of_nat j) 64). pose proof (Z.div_mod (Z.of_nat k) 64). lia.
Qed.

(** ** The senders' steps *)

Definition g_send (fl an fi le : gset nat) g : rghost :=
  mkRG fl an fi le (rg_held g) (rg_hand g) (rg_claimed g) (rg_window g) (rg_gone g).

(** The swap of the signal word, by a sender that closed its ring before if
    [last]. *)
Lemma inv_swap v g k st h b (last : bool) :
  inv v g -> v_signals v !! k = Some (st, h, b) -> (last = true -> exists t, v_rings v !! k = Some (true, t)) ->
  inv (upd_signal k (PENDING, h, b) v)
    (g_send (if st =? IDLE then {[k]} ∪ rg_flight g else rg_flight g) (rg_announce g)
            (if last then {[k]} ∪ rg_final g else rg_final g) (rg_left g) g).
Proof.
  intros [H1 H2 H3 Hs H4 H5 H6 H7] E Hl. split; try done.
  - by eapply topo_upd_signal.
  - intros j Hj. erewrite sig_word_upd by done. cbn. intros Hw. change (page_word (upd_signal k (PENDING, h, b) v)) with (page_word v).
    case_decide as Ejk; [subst j|destruct (H2 j Hj Hw) as [?|[?|[?|[?|?]]]]; auto; right; left; case_match; set_solver].
    destruct (Z.eqb_spec st IDLE) as [|Hne]; [right; left; set_solver|].
    apply H2; [done|]. unfold sig_word. by rewrite E.
  - intros j Hj Hin Hg. erewrite sig_word_upd by done. cbn. case_decide; [done|]. apply H4; [done| |done].
    cbn in Hin. destruct last; set_solver.
  - intros j Hin. cbn in Hin. change (v_rings (upd_signal k (PENDING, h, b) v)) with (v_rings v).
    destruct last; [|by apply H5]. apply elem_of_union in Hin as [->%elem_of_singleton|Hin]; auto.
Qed.

(** The sender sets the bit of its lane. *)
Lemma inv_set_bit v g k h p :
  inv v g -> (k < n)%nat -> zlookup pages (lane_page k) = Some h -> zlookup (v_pages v) h = Some p ->
  inv (upd_page h (with_page_bits (Z.lor (page_bits p) (Z.shiftl 1 (lane_bit k))) p) v)
    (g_send (rg_flight g ∖ {[k]}) (if page_bits p =? 0 then {[k]} ∪ rg_announce g else rg_announce g) (rg_final g) (rg_left g) g).
Proof.
  intros [H1 H2 H3 Hs H4 H5 H6 H7] Hk Eh Ep. pose proof (lane_bit_range k) as Hb.
  assert (Hu : is_u64 (Z.lor (page_bits p) (Z.shiftl 1 (lane_bit k)))).
  { destruct (tp_page _ _ _ _ _ H1 _ _ Eh) as (p' & E' & Hu & _). rewrite Ep in E'. injection E' as <-. apply is_u64_lor; [done|apply is_u64_shift]. }
  split; try done.
  - by apply topo_upd_page.
  - intros j Hj Hw. erewrite page_word_upd by done. cbn. specialize (H2 j Hj Hw). erewrite <- page_word_at by done.
    case_decide as Ep1.
    + rewrite testbit_set by lia. rewrite <- Ep1. destruct H2 as [?|[?|[?|[?| ->]]]]; auto.
      destruct (decide (j = k)) as [->|]; [|right; left; set_solver]. rewrite bool_decide_eq_true_2 by done. rewrite orb_true_r. auto.
    + destruct H2 as [?|[?|[?|[?|?]]]]; auto. right. left. set_solver.
  - intros i. erewrite page_word_upd by done. cbn. change (group_word (upd_page _ _ v)) with (group_word v). case_decide as Ei.
    + intros _. subst i. destruct (Z.eqb_spec (page_bits p) 0) as [|Hne]; [right; left; exists k; set_solver|].
      apply H3. by erewrite page_word_at by done.
    + intros Hw. destruct (H3 i Hw) as [?|[(k' & ? & ?)|?]]; auto. right. left. exists k'. case_match; set_solver.
  - intros j Hj. cbn in Hj. destruct (page_bits p =? 0); [|by apply Hs]. apply elem_of_union in Hj as [->%elem_of_singleton|Hj]; auto.
Qed.

(** The sender sets the bit of its page. *)
Lemma inv_set_group v g k gh gr :
  inv v g -> zlookup groups (lane_page k / PAGES_PER_GROUP) = Some gh -> zlookup (v_groups v) gh = Some gr ->
  inv (upd_group gh (with_group_bits (Z.lor (group_bits gr) (Z.shiftl 1 (lane_page k mod PAGES_PER_GROUP))) gr) v)
    (g_send (rg_flight g) (rg_announce g ∖ {[k]}) (rg_final g) (rg_left g) g).
Proof.
  intros [H1 H2 H3 Hs H4 H5 H6 H7] Eh Eg.
  assert (Hu : is_u64 (Z.lor (group_bits gr) (Z.shiftl 1 (lane_page k mod PAGES_PER_GROUP)))).
  { destruct (tp_group _ _ _ _ _ H1 _ _ Eh) as (g' & E' & Hu & _). rewrite Eg in E'. injection E' as <-. apply is_u64_lor; [done|apply is_u64_shift]. }
  assert (Hm : forall i, 0 <= i mod PAGES_PER_GROUP < 64) by (intros i; apply Z.mod_pos_bound; done).
  split; try done.
  - by apply topo_upd_group.
  - intros i Hi. erewrite group_word_upd by done. cbn. change (page_word (upd_group _ _ v)) with (page_word v) in Hi.
    erewrite <- group_word_at by done. case_decide as Ei.
    + rewrite testbit_set by apply Hm. rewrite <- Ei. destruct (H3 i Hi) as [?|[(j & Hj & Ej)| ->]]; auto.
      destruct (decide (j = k)) as [->|]; [|right; left; exists j; set_solver]. subst i. rewrite bool_decide_eq_true_2 by done. rewrite orb_true_r. auto.
    + destruct (H3 i Hi) as [?|[(j & Hj & Ej)|?]]; auto. right. left. exists j. split; [|done]. apply elem_of_difference. split; [done|].
      intros ->%elem_of_singleton. by subst i.
  - intros j Hj. apply Hs. cbn in Hj. set_solver.
Qed.

(** The sender leaves. *)
Lemma inv_leave v g k :
  inv v g -> (k < n)%nat -> (k ∉ rg_left g) -> Z.of_nat n < usize_mod ->
  inv (upd_counts (v_registry v) (v_registered v) (wrapping_sub (v_live v) 1) v)
    (g_send (rg_flight g) (rg_announce g) (rg_final g) ({[k]} ∪ rg_left g) g).
Proof.
  intros [H1 H2 H3 Hs H4 H5 H6 [H7 H8]] Hk Hl Hn. split; try done.
  - by destruct H1.
  - assert (Hsub : {[k]} ∪ rg_left g ⊆ set_seq 0 n) by (apply union_subseteq; split; [apply singleton_subseteq_l, elem_of_set_seq; lia|done]).
    split; [|done]. cbn. pose proof (subseteq_size _ _ Hsub) as Hsz. rewrite size_set_seq in Hsz.
    rewrite size_union in * by set_solver. rewrite size_singleton in *. rewrite H7. unfold wrapping_sub. rewrite wrap_small; [lia|]. usize.
Qed.

(** A sender that has not made its last mark may change its ring. *)
Lemma inv_ring v g k r : inv v g -> (k ∉ rg_final g) -> inv (upd_ring k r v) g.
Proof.
  intros [H1 H2 H3 Hs H4 H5 H6 H7] Hk. split; try done; [by destruct H1|]. intros j Hj. unfold upd_ring. cbn.
  rewrite list_lookup_insert_ne by set_solver. by apply H5.
Qed.

End words.
