(* ===== verification/MpscReadySend.v ===== *)
(** * The marks of senders

    Every operation of a sender brings its mark as far as the readiness index:
    between operations none of its marks is in flight.  The last mark, after
    the ring is closed, is final. *)

From stdpp Require Import gmap.
From S2P Require Import Prelude Prog ProgPartial Config Wait Ready YRing Handoff MpscLane Mpsc MpscConc MpscSendConc MpscReady.
Local Open Scope prog_scope.

Section send.
Context {T : Type} (n : nat) (pages groups : list Z) (gen : Z) (n_word : Z.of_nat n < usize_mod).
#[local] Abbreviation inv := (ready_inv n pages groups gen).
#[local] Abbreviation vguar := (vguar n pages groups gen).
#[local] Abbreviation rguar := (rguar (T := T) n pages groups gen).
#[local] Abbreviation wlp := (wlp (S := Shared T) tails_ok rguar).
#[local] Abbreviation vstable := (vstable n pages groups gen).
Implicit Types (v : rview) (g : rghost) (k : nat).

(** Where the marks of sender [k] are, and what it knows of its ring. *)
Record sender_at k (fl an fi le : bool) (ring : option (bool * Z)) v g : Prop := {
  sa_inv : inv v g;
  sa_lt : (k < n)%nat;
  sa_flight : k ∈ rg_flight g <-> fl = true;
  sa_announce : k ∈ rg_announce g <-> an = true;
  sa_final : k ∈ rg_final g <-> fi = true;
  sa_left : k ∈ rg_left g <-> le = true;
  sa_ring : forall r, ring = Some r -> v_rings v !! k = Some r
}.

Lemma sender_stable k fl an fi le ring : vstable (S k) (sender_at k fl an fi le ring).
Proof.
  intros b v g w g' Hb [H1 H2 H3 H4 H5 H6 H7] [Hi Hg]. destruct b as [|j].
  - destruct Hg as (E1 & E2 & _). unfold send_ghosts in E1. injection E1 as E3 E4 E5 E6. split; rewrite ?E2, ?E3, ?E4, ?E5, ?E6; auto.
  - assert (Hne : k <> j) by congruence. destruct Hg as [_ _ Hr (G1 & G2 & G3 & G4) _ _ _ _ _ _]. destruct (Hr k Hne) as [Er _].
    split; auto.
    + by rewrite (G1 k Hne).
    + by rewrite (G2 k Hne).
    + by rewrite (G3 k Hne).
    + by rewrite (G4 k Hne).
    + by rewrite Er.
Qed.

Lemma sender_inv k fl an fi le ring v g : sender_at k fl an fi le ring v g -> inv v g.
Proof. apply sa_inv. Qed.

(** The sender forgets what it knew of its ring. *)
Lemma sender_forget k fl an fi le ring v g : sender_at k fl an fi le ring v g -> sender_at k fl an fi le None v g.
Proof. intros [H1 H2 H3 H4 H5 H6 H7]. by split. Qed.

Lemma same_but_add k (a : gset nat) : same_but k a ({[k]} ∪ a).
Proof. intros j Hj. set_solver. Qed.
Lemma same_but_if k (b : bool) (a : gset nat) : same_but k a (if b then {[k]} ∪ a else a).
Proof. destruct b; [apply same_but_add|done]. Qed.
Lemma same_but_remove k (a : gset nat) : same_but k a (a ∖ {[k]}).
Proof. intros j Hj. set_solver. Qed.

(** ** The ring of the sender *)

Lemma view_ring k hr hr' (s : Shared T) :
  sh_rings s !! k = Some hr -> view (set_sh_rings (<[k := hr']> (sh_rings s)) s) = upd_ring k (ring_view hr') (view s).
Proof. intros _. unfold view, upd_ring. cbn. by rewrite list_fmap_insert. Qed.

Lemma send_ring_guar k v g r an fl le :
  sender_at k fl an false le None v g -> vguar (S k) v g (upd_ring k r v) g.
Proof.
  intros [H1 H2 H3 H4 H5 H6 _]. assert (Hf : k ∉ rg_final g) by (by rewrite H5).
  split; [by apply inv_ring|]. split; try done; auto.
  - intros j Hj. split; [|done]. unfold upd_ring. cbn. by rewrite list_lookup_insert_ne.
Qed.

Lemma sender_upd_ring k v g r an fl le :
  sender_at k fl an false le None v g -> sender_at k fl an false le None (upd_ring k r v) g.
Proof.
  intros H. pose proof H as [H1 H2 H3 H4 H5 H6 _]. split; auto; [|done]. apply inv_ring; [done|]. by rewrite H5.
Qed.

(** Before its last mark a sender may do anything to its ring. *)
Lemma wlp_own_ring {A} k fl an le (p : prog (HRing T) A) x :
  at_view (sender_at k fl an false le None) x ->
  wlp (S k) (on_lane_ring (Z.of_nat k) p) (fun _ => at_view (sender_at k fl an false le None)) x.
Proof.
  revert x. induction p as [a|R f c IH|e]; intros x Hx; cbn.
  - eapply wlp_ret_view; [apply sender_stable|exact Hx|done].
  - eapply wlp_act; [apply vstable_stable, sender_stable|exact Hx|]. intros s g Hp _. rewrite zlookup_of_nat.
    destruct (sh_rings s !! k) as [hr|] eqn:E; cbn.
    + destruct (f hr) as [r hr'] eqn:Ef. cbn. exists g. rewrite zinsert_of_nat.
      assert (Ev : view (set_sh_rings (<[k := hr']> (sh_rings s)) s) = upd_ring k (ring_view hr') (view s)) by (by eapply view_ring).
      split; [unfold MpscReady.rguar; cbn; rewrite Ev; by eapply send_ring_guar|].
      apply IH. unfold at_view. cbn. rewrite Ev. by apply sender_upd_ring.
    + exists g. split; [|done]. apply vguar_refl, Hp.
  - done.
Qed.

Lemma wlp_own_call {A B} k fl an le (p : prog (HRing T) A) (c : A -> prog (Shared T) B) Q x :
  at_view (sender_at k fl an false le None) x ->
  (forall a y, at_view (sender_at k fl an false le None) y -> wlp (S k) (c a) Q y) ->
  wlp (S k) (bind (on_lane_ring (Z.of_nat k) p) c) Q x.
Proof. intros Hx Hc. eapply wlp_call; [by eapply wlp_own_ring|]. intros a y Hy _. by apply Hc. Qed.

(** What does not touch the view. *)
Lemma wlp_sender_calm {A B} k fl an fi le ring (p : prog (Shared T) A) (c : A -> prog (Shared T) B) Q x :
  keeps view p -> at_view (sender_at k fl an fi le ring) x ->
  (forall a y, at_view (sender_at k fl an fi le ring) y -> wlp (S k) (c a) Q y) ->
  wlp (S k) (bind p c) Q x.
Proof.
  intros Hp Hx Hc. eapply wlp_calm_call; [done|apply yields_true|apply sender_stable|apply sender_inv|exact Hx|]. intros a y _ Hy. by apply Hc.
Qed.

Lemma wlp_sender_ret {A} k fl an fi le ring (a : A) (Q : A -> Shared T * rghost -> Prop) x :
  at_view (sender_at k fl an fi le ring) x -> (forall y, at_view (sender_at k fl an fi le ring) y -> Q a y) -> wlp (S k) (Ret a) Q x.
Proof. intros Hx HQ. eapply wlp_ret_view; [apply sender_stable|exact Hx|exact HQ]. Qed.

Lemma keeps_notify : keeps view (data_notify (T := T)).
Proof. apply keeps_lift. by intros. Qed.

(** ** Marks *)

Lemma wlp_group_mark k fi le ring gh x :
  zlookup groups (lane_page k / PAGES_PER_GROUP) = Some gh -> at_view (sender_at k false true fi le ring) x ->
  wlp (S k) (on_index (ReadyGroup_mark gh (Z.shiftl 1 (lane_page k mod PAGES_PER_GROUP))))
    (fun _ => at_view (sender_at k false false fi le ring)) x.
Proof.
  intros Eg Hx. unfold ReadyGroup_mark. eapply wlp_bind_ret. eapply wlp_on_group; [apply sender_stable|apply sender_inv|exact Hx|]. clear x Hx.
  intros v g gr Hp Egr. pose proof Hp as [H1 H2 H3 H4 H5 H6 H7]. cbn [fst snd].
  pose proof (inv_set_group n pages groups gen v g k gh gr H1 Eg Egr) as Hi. eexists. split.
  - split; [exact Hi|]. split; try done; auto.
    + split_and!; [done|apply same_but_remove|done|done].
    + intros Hfin Hfl Han. destruct Han. by apply H4.
    + lia.
  - intros s Ev. eapply wlp_sender_ret; [|by intros y Hy; exact Hy]. unfold at_view. cbn [fst snd]. rewrite Ev. split; auto.
    cbn. split; [|done]. set_solver.
Qed.

Lemma wlp_page_mark k fi le ring h x :
  zlookup pages (lane_page k) = Some h -> at_view (sender_at k true false fi le ring) x ->
  wlp (S k) (on_index (ReadyPage_mark h (Z.shiftl 1 (lane_bit k)))) (fun _ => at_view (sender_at k false false fi le ring)) x.
Proof.
  intros Eh Hx. unfold ReadyPage_mark. apply wlp_lift_bind. eapply wlp_on_page; [apply sender_stable|apply sender_inv|exact Hx|]. clear x Hx.
  intros v g p Hp Ep. pose proof Hp as [H1 H2 H3 H4 H5 H6 H7]. cbn [fst snd].
  pose proof (inv_set_bit n pages groups gen v g k h p H1 H2 Eh Ep) as Hi.
  destruct (tp_page _ _ _ _ _ (ri_topo _ _ _ _ _ _ H1) _ _ Eh) as (p' & Ep' & _ & Eb & Eg). rewrite Ep in Ep'. injection Ep' as <-.
  eexists. split.
  - split; [exact Hi|]. split; try done; auto.
    + split_and!; [apply same_but_remove|apply same_but_if|done|done].
    + intros Hfin Hfl. destruct Hfl. by apply H3.
  - intros s Ev. assert (Hy : at_view (sender_at k false (page_bits p =? 0) fi le ring) (s, g_send (rg_flight g ∖ {[k]})
        (if page_bits p =? 0 then {[k]} ∪ rg_announce g else rg_announce g) (rg_final g) (rg_left g) g)).
    { unfold at_view. cbn [fst snd]. rewrite Ev. split; auto; cbn.
      - split; [|done]. set_solver.
      - destruct (page_bits p =? 0); [set_solver|done]. }
    destruct (page_bits p =? 0).
    + rewrite Eb. by apply wlp_group_mark.
    + by eapply wlp_sender_ret.
Qed.

Lemma wlp_mark_ready k (last : bool) ring x :
  (last = true -> exists t, ring = Some (true, t)) -> at_view (sender_at k false false false false ring) x ->
  wlp (S k) (Shared_mark_ready (Z.of_nat k)) (fun _ => at_view (sender_at k false false last false ring)) x.
Proof.
  intros Hl Hx. unfold Shared_mark_ready, LaneSignal_mark. apply wlp_lift_bind.
  eapply wlp_on_signal; [apply sender_stable|apply sender_inv|exact Hx|]. clear x Hx.
  intros v g sg Hp Esg. pose proof Hp as [H1 H2 H3 H4 H5 H6 H7]. unfold signal_view in *. cbn [fst snd with_signal_state signal_state signal_page signal_bit] in *.
  destruct (tp_signal _ _ _ _ _ (ri_topo _ _ _ _ _ _ H1) k H2) as (st & h & Ek & Eh). rewrite Esg in Ek. injection Ek as <- <- Eb.
  assert (Hcl : last = true -> exists t, v_rings v !! k = Some (true, t)).
  { intros E. destruct (Hl E) as [t ->]. exists t. by apply H7. }
  pose proof (inv_swap n pages groups gen v g k _ _ _ last H1 Esg Hcl) as Hi. eexists. split.
  - split; [exact Hi|]. assert (Hw : sig_word (upd_signal k (PENDING, signal_page sg, signal_bit sg) v) k = PENDING).
    { erewrite sig_word_upd by done. by rewrite decide_True. }
    split; try done; auto.
    + intros j Hj. split; [done|]. erewrite sig_word_upd by done. by rewrite decide_False.
    + split_and!; [apply same_but_if|done|apply same_but_if|done].
    + intros Hfin. by apply H5 in Hfin.
    + intros Hfin. by apply H5 in Hfin.
  - intros s Ev. set (g' := g_send _ _ _ _ _) in *.
    assert (Hy : at_view (sender_at k (signal_state sg =? IDLE) false last false ring) (s, g')).
    { unfold at_view. cbn [fst snd]. rewrite Ev. split; auto; cbn; [destruct (signal_state sg =? IDLE); set_solver|destruct last; set_solver]. }
    destruct (signal_state sg =? IDLE).
    + apply wlp_lift_bind. eapply wlp_call; [rewrite Eb; by apply wlp_page_mark|]. intros u y Hy' _. eapply (wlp_sender_ret k false false last false ring true); [exact Hy'|done].
    + by eapply wlp_sender_ret.
Qed.

(** ** The operations *)

Definition tx_of k (tx : Sender) : Prop := snd_ring tx = Z.of_nat k /\ snd_signal tx = Z.of_nat k.
#[local] Abbreviation idle k := (sender_at k false false false false None).

Lemma tx_of_with k p tx : tx_of k tx -> tx_of k (with_producer p tx).
Proof. by intros [E1 E2]. Qed.

Lemma keeps_load {X} (get : Shared T -> X) : keeps view (load get).
Proof. by split. Qed.
#[local] Hint Resolve keeps_load keeps_notify tx_of_with : core.

Lemma wlp_idle_mark {B} k (c : bool -> prog (Shared T) B) Q x :
  at_view (idle k) x -> (forall b y, at_view (idle k) y -> wlp (S k) (c b) Q y) ->
  wlp (S k) (bind (Shared_mark_ready (Z.of_nat k)) c) Q x.
Proof. intros Hx Hc. eapply wlp_call; [by apply (wlp_mark_ready k false)|]. intros b y Hy _. by apply Hc. Qed.

Lemma wlp_push_error k tx (v : T) x :
  tx_of k tx -> at_view (idle k) x -> wlp (S k) (Sender_push_error Deferred tx v) (fun _ => at_view (idle k)) x.
Proof.
  intros [E1 _] Hx. unfold Sender_push_error. rewrite E1. eapply wlp_sender_calm; [auto|exact Hx|]. clear x Hx. intros alive x Hx.
  destruct (negb alive); [by eapply wlp_sender_ret|]. eapply wlp_own_call; [exact Hx|]. intros d y Hy. by eapply wlp_sender_ret.
Qed.

Lemma wlp_when_notify {B} k (wake : bool) (c : unit -> prog (Shared T) B) Q x :
  at_view (idle k) x -> (forall u y, at_view (idle k) y -> wlp (S k) (c u) Q y) -> wlp (S k) (bind (when wake data_notify) c) Q x.
Proof. intros Hx Hc. eapply wlp_sender_calm; [destruct wake; [auto|done]|exact Hx|exact Hc]. Qed.

Lemma wlp_try_send k tx (v : T) x :
  tx_of k tx -> at_view (idle k) x ->
  wlp (S k) (Sender_try_send Deferred tx v) (fun r y => tx_of k r.2 /\ at_view (idle k) y) x.
Proof.
  intros Htx Hx. unfold Sender_try_send. eapply (wlp_call _ _ _ _ _ (fun r y => tx_of k r.2 /\ at_view (idle k) y)).
  - unfold Sender_try_send_inner. pose proof Htx as [E1 E2]. rewrite E1. eapply wlp_own_call; [exact Hx|]. clear x Hx. intros d x Hx.
    destruct d; [by eapply wlp_sender_ret|]. eapply wlp_own_call; [exact Hx|]. clear x Hx. intros [[u|w] p] x Hx; cbn [snd_signal with_producer].
    + rewrite E2. eapply wlp_idle_mark; [exact Hx|]. intros b y Hy. eapply wlp_sender_ret; [exact Hy|]. cbn. auto.
    + eapply wlp_call; [eapply wlp_push_error; [by apply tx_of_with|exact Hx]|]. intros e y Hy _. eapply wlp_sender_ret; [exact Hy|]. cbn. auto.
  - intros [[r wake] tx'] y [Htx' Hy] _. cbn [fst snd] in *. eapply wlp_when_notify; [exact Hy|]. intros u z Hz. by eapply wlp_sender_ret.
Qed.

Lemma wlp_try_send_unsignaled k tx (v : T) x :
  tx_of k tx -> at_view (idle k) x ->
  wlp (S k) (Sender_try_send_unsignaled Deferred tx v) (fun r y => tx_of k r.2 /\ at_view (idle k) y) x.
Proof.
  intros Htx Hx. unfold Sender_try_send_unsignaled. pose proof Htx as [E1 E2]. rewrite E1. eapply wlp_own_call; [exact Hx|]. clear x Hx. intros d x Hx.
  destruct d; [by eapply wlp_sender_ret|]. eapply wlp_own_call; [exact Hx|]. clear x Hx. intros [[u|w] p] x Hx.
  - eapply wlp_sender_ret; [exact Hx|]. cbn. auto.
  - eapply wlp_call; [eapply wlp_push_error; [by apply tx_of_with|exact Hx]|]. intros e y Hy _. eapply wlp_sender_ret; [exact Hy|]. cbn. auto.
Qed.

Lemma wlp_flush k tx x :
  tx_of k tx -> at_view (idle k) x -> wlp (S k) (Sender_flush tx) (fun _ => at_view (idle k)) x.
Proof.
  intros [E1 E2] Hx. unfold Sender_flush. rewrite E1, E2. eapply wlp_own_call; [exact Hx|]. clear x Hx. intros u x Hx.
  eapply wlp_idle_mark; [exact Hx|]. intros b y Hy. eapply wlp_bind_ret, wlp_when_notify; [exact Hy|]. intros u' z Hz. by eapply wlp_sender_ret.
Qed.

Lemma wlp_is_disconnected k tx x :
  tx_of k tx -> at_view (idle k) x -> wlp (S k) (Sender_is_disconnected Deferred tx) (fun _ => at_view (idle k)) x.
Proof.
  intros [E1 _] Hx. unfold Sender_is_disconnected. rewrite E1. eapply wlp_sender_calm; [auto|exact Hx|]. intros alive y Hy.
  destruct (negb alive); [by eapply wlp_sender_ret|]. by apply wlp_own_ring.
Qed.

Lemma wlp_exec_send k (cmd : send_cmd T) tx x :
  tx_of k tx -> at_view (idle k) x -> wlp (S k) (exec_send cmd tx) (fun r y => tx_of k r.2 /\ at_view (idle k) y) x.
Proof.
  intros Htx Hx. pose proof Htx as [E1 E2]. destruct cmd as [v|v|v| | |]; cbn [exec_send].
  - eapply wlp_call; [by eapply wlp_try_send|]. intros [r tx'] y [Ht Hy] _. by eapply wlp_sender_ret.
  - eapply wlp_call; [by eapply wlp_try_send_unsignaled|]. intros [r tx'] y [Ht Hy] _. by eapply wlp_sender_ret.
  - unfold Sender_try_send_deferred. rewrite E1. eapply (wlp_call _ _ _ _ _ (fun r y => tx_of k r.2 /\ at_view (idle k) y)).
    2:{ intros [r tx'] y [Ht Hy] _. by eapply wlp_sender_ret. }
    eapply wlp_own_call; [exact Hx|]. clear x Hx. intros d x Hx. destruct d; [by eapply wlp_sender_ret|].
    eapply wlp_own_call; [exact Hx|]. clear x Hx. intros [[u|w] p] x Hx; [eapply wlp_sender_ret; [exact Hx|]; cbn; auto|].
    assert (Ht : tx_of k (with_producer p tx)) by auto.
    eapply wlp_call; [by eapply wlp_flush|]. intros u y Hy _. eapply wlp_call; [by eapply wlp_is_disconnected|]. intros gone z Hz _.
    eapply wlp_sender_ret; [exact Hz|]. cbn. auto.
  - eapply wlp_call; [by eapply wlp_flush|]. intros u y Hy _. eapply wlp_sender_ret; [exact Hy|]. cbn. auto.
  - unfold Sender_is_full. rewrite E1. apply wlp_bind. eapply wlp_own_call; [exact Hx|]. intros [b p] y Hy.
    eapply wlp_sender_ret; [exact Hy|]. intros z Hz _. eapply wlp_sender_ret; [exact Hz|]. cbn. auto.
  - eapply wlp_call; [by eapply wlp_is_disconnected|]. intros u y Hy _. eapply wlp_sender_ret; [exact Hy|]. cbn. auto.
Qed.

(** ** The end of a sender *)

(** Closing the ring: the tail is the sender's cursor. *)
Lemma wlp_close {B} k p (c : unit -> prog (Shared T) B) Q x :
  at_view (idle k) x ->
  (forall y, at_view (sender_at k false false false false (Some (true, producer_cursor p))) y -> wlp (S k) (c tt) Q y) ->
  wlp (S k) (bind (on_lane_ring (Z.of_nat k) (on_hring (Producer_close p))) c) Q x.
Proof.
  intros Hx Hc. unfold Producer_close, Producer_flush, on_lane_ring. cbn.
  eapply wlp_act; [apply vstable_stable, sender_stable|exact Hx|]. clear x Hx. intros s g Hp _. rewrite zlookup_of_nat.
  destruct (sh_rings s !! k) as [hr|] eqn:E; cbn; [|exists g; split; [apply vguar_refl, Hp|done]].
  exists g. rewrite zinsert_of_nat. set (hr1 := set_hr_ring _ hr). set (s1 := set_sh_rings _ s).
  assert (Ev : view s1 = upd_ring k (ring_view hr1) (view s)) by (by eapply view_ring).
  split; [unfold MpscReady.rguar; cbn; rewrite Ev; by eapply send_ring_guar|].
  assert (Hlen : (k < length (v_rings (view s)))%nat) by (unfold view; cbn; rewrite length_fmap; by eapply lookup_lt_Some).
  assert (H1 : at_view (sender_at k false false false false (Some (ring_view hr1))) (s1, g)).
  { unfold at_view. cbn [fst snd]. rewrite Ev. pose proof (sender_upd_ring k _ g (ring_view hr1) _ _ _ Hp) as [H1 H2 H3 H4 H5 H6 _].
    split; auto. intros r [= <-]. cbn. by apply list_lookup_insert_eq. }
  eapply wlp_act; [apply vstable_stable, sender_stable|exact H1|]. clear Hp Ev Hlen H1. intros s2 g2 Hp _. rewrite zlookup_of_nat.
  destruct (sh_rings s2 !! k) as [hr2|] eqn:E2; cbn; [|exists g2; split; [apply vguar_refl, Hp|done]].
  exists g2. rewrite zinsert_of_nat. set (hr3 := set_hr_ring _ hr2). set (s3 := set_sh_rings _ s2).
  assert (Ev : view s3 = upd_ring k (ring_view hr3) (view s2)) by (by eapply view_ring).
  pose proof (sender_forget _ _ _ _ _ _ _ _ Hp) as Hp'.
  split; [unfold MpscReady.rguar; cbn; rewrite Ev; by eapply send_ring_guar|].
  apply Hc. unfold at_view. cbn [fst snd]. rewrite Ev. pose proof (sender_upd_ring k _ g2 (ring_view hr3) _ _ _ Hp') as [H1 H2 H3 H4 H5 H6 _].
  split; auto. intros r [= <-]. cbn. rewrite list_lookup_insert_eq by (unfold view; cbn; rewrite length_fmap; by eapply lookup_lt_Some).
  pose proof (sa_ring _ _ _ _ _ _ _ _ Hp _ eq_refl) as Er. unfold view in Er. cbn in Er. rewrite list_lookup_fmap, E2 in Er. cbn in Er.
  injection Er as _ Et. unfold ring_view, hr3. cbn. by rewrite Et.
Qed.


(** Closing it again changes nothing. *)
Lemma view_ring_same k hr hr' (s : Shared T) :
  sh_rings s !! k = Some hr -> ring_view hr' = ring_view hr -> view (set_sh_rings (<[k := hr']> (sh_rings s)) s) = view s.
Proof.
  intros E Er. rewrite (view_ring k hr) by done. unfold upd_ring, view. cbn. f_equal. rewrite Er. apply list_insert_id.
  by rewrite list_lookup_fmap, E.
Qed.

Lemma wlp_close_step {B} k an le ring f (c : unit -> prog (HRing T) B) Q x :
  at_view (sender_at k false an true le (Some ring)) x ->
  (forall hr, ring_view hr = ring -> ring_view (set_hr_ring (f (hr_ring hr)) hr) = ring) ->
  (forall y, at_view (sender_at k false an true le (Some ring)) y -> wlp (S k) (on_lane_ring (Z.of_nat k) (c tt)) Q y) ->
  wlp (S k) (on_lane_ring (Z.of_nat k) (bind (on_hring (store f)) c)) Q x.
Proof.
  intros Hx Hf Hc. unfold on_lane_ring. cbn.
  eapply wlp_act; [apply vstable_stable, sender_stable|exact Hx|]. clear x Hx. intros s g Hp _. rewrite zlookup_of_nat.
  destruct (sh_rings s !! k) as [hr|] eqn:E; cbn; [|exists g; split; [apply vguar_refl, Hp|done]].
  exists g. rewrite zinsert_of_nat. pose proof (sa_ring _ _ _ _ _ _ _ _ Hp _ eq_refl) as Er. unfold view in Er. cbn in Er.
  rewrite list_lookup_fmap, E in Er. cbn in Er. injection Er as Er.
  assert (Ev : view (set_sh_rings (<[k := set_hr_ring (f (hr_ring hr)) hr]> (sh_rings s)) s) = view s).
  { eapply view_ring_same; [done|]. rewrite Hf by done. congruence. }
  split; [unfold MpscReady.rguar; cbn; rewrite Ev; apply vguar_refl, Hp|]. apply Hc. unfold at_view. cbn [fst snd]. by rewrite Ev.
Qed.

Lemma wlp_leave {B} k ring (c : unit -> prog (Shared T) B) Q x :
  at_view (sender_at k false false true false ring) x ->
  (forall y, at_view (sender_at k false false true true ring) y -> wlp (S k) (c tt) Q y) ->
  wlp (S k) (bind fetch_sub_live_senders c) Q x.
Proof.
  intros Hx Hc. unfold fetch_sub_live_senders. cbn.
  eapply wlp_act; [apply vstable_stable, sender_stable|exact Hx|]. clear x Hx. intros s g Hp _. cbn [fst snd].
  pose proof Hp as [H1 H2 H3 H4 H5 H6 H7]. cbn [fst snd] in *.
  pose proof (inv_leave n pages groups gen (view s) g k H1 H2 ltac:(by rewrite H6) n_word) as Hi. eexists. split.
  - unfold MpscReady.rguar. cbn [fst snd]. split; [exact Hi|]. split; try done; auto.
    + split_and!; [done..|apply same_but_add].
    + intros Hl. by apply H6 in Hl.
  - apply Hc. unfold at_view. cbn [fst snd]. split; auto. cbn. set_solver.
Qed.

Lemma wlp_sender_drop k tx x :
  tx_of k tx -> at_view (idle k) x ->
  wlp (S k) (Sender_drop tx) (fun _ => at_view (sender_at k false false true true None)) x.
Proof.
  intros [E1 E2] Hx. unfold Sender_drop, RProducer_close. rewrite E1, E2. set (p := rp_inner (snd_producer tx)).
  eapply wlp_close; [exact Hx|]. clear x Hx. intros x Hx. eapply wlp_call; [apply (wlp_mark_ready k true); [eauto|exact Hx]|].
  clear x Hx. intros b x Hx _. eapply wlp_leave; [exact Hx|]. clear x Hx. intros x Hx.
  eapply wlp_sender_calm; [auto|exact Hx|]. clear x Hx. intros u x Hx.
  unfold Producer_drop, Producer_close, Producer_flush. apply (wlp_close_step k false true (true, producer_cursor p) (set_tail (producer_cursor p))
    (fun _ => on_hring (store (set_producer_dropped true)))); [exact Hx| |].
  { intros hr [= Ed Et]. unfold ring_view. cbn. by rewrite Ed. }
  clear x Hx. intros x Hx. eapply (wlp_close_step k false true (true, producer_cursor p) (set_producer_dropped true) Ret); [exact Hx| |].
  { intros hr [= Ed Et]. unfold ring_view. cbn. by rewrite Et. }
  clear x Hx. intros x Hx. eapply wlp_sender_ret; [exact Hx|]. intros y Hy. by eapply sender_forget.
Qed.

Lemma wlp_sender_thread k (cmds : list (send_cmd T)) : forall acc tx x,
  tx_of k tx -> at_view (idle k) x ->
  wlp (S k) (sender_thread cmds acc tx) (fun _ => at_view (sender_at k false false true true None)) x.
Proof.
  induction cmds as [|cmd cmds IH]; intros acc tx x Htx Hx; cbn [sender_thread].
  - eapply wlp_call; [by eapply wlp_sender_drop|]. intros u y Hy _. eapply wlp_sender_ret; [exact Hy|done].
  - eapply wlp_call; [by eapply wlp_exec_send|]. intros [ws tx'] y [Ht Hy] _. by apply IH.
Qed.


End send.
