(* ===== verification/MpscReadyLane.v ===== *)
(** * The lanes of the receiver and the readiness of what they hold

    The lane operations touch the readiness index only when a lane runs empty:
    [Lane_settle_empty] gives the mark back, looks once more and either claims
    the lane again or lets it idle.  A lane whose sender has made its last mark
    is not let idle: it is kept while it has values and reported as finished
    otherwise. *)

From stdpp Require Import gmap.
From S2P Require Import Prelude Prog ProgPartial Config Wait Ready YRing Handoff MpscLane Mpsc MpscConc MpscRecvConc MpscReady.
Local Open Scope prog_scope.

(** ** What the operations of a consumer leave alone *)

Section ends.
Context {T : Type}.

Definition ring_ends (r : Ring T) : bool * Z := (ring_producer_dropped r, ring_tail r).
#[local] Abbreviation calm := (keeps ring_ends).

Lemma calm_load {X} (get : Ring T -> X) : calm (load get).
Proof. by split. Qed.
Lemma calm_take i : calm (slot_take (T := T) i).
Proof. cbn. split; [intros r; by destruct (zlookup _ _) as [[]|]|by intros []]. Qed.
Lemma calm_peek i : calm (slot_peek (T := T) i).
Proof. cbn. split; [by intros r|by intros []]. Qed.
#[local] Hint Resolve calm_load calm_take calm_peek : fanring.

Lemma calm_prefetch c : calm (Consumer_prefetch (T := T) c).
Proof. unfold Consumer_prefetch, Consumer_prefetch_after_empty, Ring_prefetch. keeps_tac. Qed.
Lemma calm_pop c : calm (Consumer_pop (T := T) c).
Proof. unfold Consumer_pop, Ring_pop, Ring_index. keeps_tac. Qed.
Lemma calm_move_slots m : forall start, calm (Ring_move_slots (T := T) start m).
Proof. induction m; intros start; cbn [Ring_move_slots]; [done|]. apply keeps_bind; [auto with fanring|]. intros v. apply keeps_bind; auto. by intros. Qed.
#[local] Hint Resolve calm_move_slots : fanring.
Lemma calm_pop_into c out limit : calm (Consumer_pop_into (T := T) c out limit).
Proof. unfold Consumer_pop_into, Ring_pop_into, Ring_capacity, Ring_index. keeps_tac. Qed.
Lemma calm_accepted {Adm} (accepts : Adm -> T -> bool * Adm) m : forall head acc adm, calm (Ring_accepted_prefix accepts head m acc adm).
Proof. induction m; intros head acc adm; cbn [Ring_accepted_prefix]; [done|]. unfold Ring_index. keeps_tac. Qed.
#[local] Hint Resolve calm_accepted : fanring.
Lemma calm_pop_into_while {Adm} c out limit (accepts : Adm -> T -> bool * Adm) adm : calm (Consumer_pop_into_while c out limit accepts adm).
Proof. unfold Consumer_pop_into_while, Ring_pop_into, Ring_capacity, Ring_index. keeps_tac. Qed.
Lemma calm_release c : calm (Consumer_release (T := T) c).
Proof. unfold Consumer_release, Ring_release. keeps_tac. Qed.
Lemma calm_is_disconnected c : calm (Consumer_is_disconnected (T := T) c).
Proof. unfold Consumer_is_disconnected. keeps_tac. Qed.
Lemma calm_consumer_drop c : calm (Consumer_drop (T := T) c).
Proof. unfold Consumer_drop, Consumer_close, Consumer_release, Ring_release. keeps_tac. Qed.

End ends.

(** ** The cursor of a consumer *)

Section cursor.
Context {T : Type}.

(** [total] values are prefetched. *)
Definition prefetched (c : Consumer) (total : Z) : Prop :=
  is_usize (consumer_head c) /\ wrapping_sub (consumer_cached_tail c) (consumer_head c) = total.

Lemma prefetched_range c total : prefetched c total -> 0 <= total < usize_mod.
Proof. intros [_ <-]. apply wrap_range. Qed.

Lemma prefetched_advance c total m :
  prefetched c total -> 0 <= m <= total -> prefetched (mkConsumer (wrapping_add (consumer_head c) m) (consumer_cached_tail c)) (total - m).
Proof.
  intros H Hm. pose proof (prefetched_range _ _ H). destruct H as [H1 H2]. split; cbn; [apply wrap_range|].
  unfold wrapping_sub, wrapping_add, wrap in *. rewrite Zminus_mod_idemp_r.
  replace (consumer_cached_tail c - (consumer_head c + m)) with ((consumer_cached_tail c - consumer_head c) - m) by lia.
  rewrite <- Zminus_mod_idemp_l, H2. apply Z.mod_small. lia.
Qed.

Lemma yields_pop c total :
  prefetched c total -> 0 < total ->
  yields (Consumer_pop (T := T) c) (fun r => forall v, r.1 = Some v -> prefetched r.2 (total - 1)).
Proof.
  intros H Ht. unfold Consumer_pop, Ring_pop. destruct (_ =? _); [done|]. cbn. intros s s'. destruct (zlookup _ _) as [[]|]; [|done..].
  cbn. intros v _. apply prefetched_advance; [done|lia].
Qed.

Lemma yields_pop_into c total out limit :
  prefetched c total -> 0 <= limit ->
  yields (Consumer_pop_into (T := T) c out limit) (fun r => 0 <= r.1.1 <= total /\ prefetched r.2 (total - r.1.1)).
Proof.
  intros H Hl. pose proof (prefetched_range _ _ H) as Hr. unfold Consumer_pop_into. pose proof H as [H1 H2]. rewrite H2.
  destruct (Z.eqb_spec (Z.min total limit) 0) as [E|E]; [cbn; rewrite Z.sub_0_r; split; [lia|done]|].
  unfold Ring_pop_into. eapply (yields_bind _ _ (fun r => r.2 = wrapping_add (consumer_head c) (Z.min total limit))).
  - cbn. intros s. destruct (negb _); [done|]. cbn. intros s'. eapply yields_bind; [apply yields_true|]. intros a _.
    eapply yields_bind; [apply yields_true|]. done.
  - intros [out' head] E'. cbn in *. subst head. split; [lia|]. apply prefetched_advance; [done|lia].
Qed.

Lemma yields_accepted {Adm} (accepts : Adm -> T -> bool * Adm) m : forall head acc adm,
  yields (Ring_accepted_prefix accepts head m acc adm) (fun r => acc <= r.1 <= acc + Z.of_nat m).
Proof.
  induction m as [|m IH]; intros head acc adm; cbn [Ring_accepted_prefix]; [cbn; lia|].
  unfold Ring_index. cbn. intros s s'. destruct (zlookup _ _) as [[]|]; [|done..]. cbn. destruct (accepts adm t) as [b adm'].
  destruct b; cbn; [|lia]. eapply yields_mono; [|apply IH]. cbn. lia.
Qed.

Lemma yields_pop_into_while {Adm} c total out limit (accepts : Adm -> T -> bool * Adm) adm :
  prefetched c total -> 0 <= limit ->
  yields (Consumer_pop_into_while c out limit accepts adm) (fun r => 0 <= r.1.1.1 <= total /\ prefetched r.2 (total - r.1.1.1)).
Proof.
  intros H Hl. pose proof (prefetched_range _ _ H) as Hr. unfold Consumer_pop_into_while. pose proof H as [H1 H2]. rewrite H2.
  destruct (Z.eqb_spec (Z.min total limit) 0) as [E|E]; [cbn; rewrite Z.sub_0_r; split; [lia|done]|].
  eapply yields_bind; [apply yields_accepted|]. intros [count adm'] Hc. cbn [fst snd] in *.
  destruct (Z.eqb_spec count 0) as [E'|E']; [cbn; rewrite Z.sub_0_r; split; [lia|done]|].
  unfold Ring_pop_into. eapply (yields_bind _ _ (fun r => r.2 = wrapping_add (consumer_head c) count)).
  - cbn. intros s. destruct (negb _); [done|]. cbn. intros s'. eapply yields_bind; [apply yields_true|]. intros a _.
    eapply yields_bind; [apply yields_true|]. done.
  - intros [out' head] Eh. cbn in *. subst head. split; [lia|]. apply prefetched_advance; [done|lia].
Qed.

(** Nothing prefetched: a prefetch returns what there is. *)
Lemma wrapping_sub_zero a b c : wrapping_sub b c = 0 -> wrapping_sub a b = wrapping_sub a c.
Proof.
  unfold wrapping_sub, wrap. intros H. replace (a - c) with ((a - b) + (b - c)) by lia.
  rewrite <- Zplus_mod_idemp_r, H. f_equal. lia.
Qed.

Lemma yields_prefetch c :
  prefetched c 0 -> yields (Consumer_prefetch (T := T) c) (fun r => prefetched r.2 r.1).
Proof.
  intros [H1 H2]. unfold Consumer_prefetch, Consumer_prefetch_after_empty, Ring_prefetch.
  eapply (yields_bind _ _ (fun r => r.1 = wrapping_sub r.2 (consumer_cached_tail c))); [done|]. intros [count t] E. cbn [fst snd] in E. subst count.
  cbn [consumer_head consumer_cached_tail]. destruct (Z.eqb_spec (consumer_head c) t) as [E|E]; cbn [negb].
  - eapply yields_bind; [apply yields_true|]. intros reg _. destruct reg; cbn.
    + intros s'. split; [done|]. cbn. by rewrite E.
    + split; [done|]. cbn. rewrite E. unfold wrapping_sub. by rewrite Z.sub_diag.
  - split; [done|]. cbn. symmetry. by apply wrapping_sub_zero.
Qed.

End cursor.

(** ** Lane operations that leave the view alone *)

Section lane.
Context {T : Type}.
Implicit Types (l : Lane) (k : nat).

Record lane_known k l : Prop := {
  lk_key : lane_key l = lane_at k;
  lk_signal : lane_signal l = Z.of_nat k;
  lk_ring : lane_ring l = Z.of_nat k;
  lk_count : 0 <= cached_available l /\ 0 <= fast_left l /\
    exists c, lane_consumer l = mkRConsumer (Some c) /\ prefetched c (cached_available l + fast_left l)
}.

(** A program that leaves the view alone and returns what [Y] says. *)
Definition calm_op {A} (p : prog (Shared T) A) (Y : A -> Prop) : Prop := keeps view p /\ yields p Y.

Lemma keeps_lane_ring {A} h (p : prog (HRing T) A) : keeps ring_view p -> keeps view (on_lane_ring h p).
Proof.
  intros Hp. eapply keeps_focus; [|exact Hp]. intros s hr hr' E Er. unfold view. cbn. f_equal. unfold zlookup in E. unfold zinsert.
  destruct (h <? 0); [done|]. rewrite list_fmap_insert, Er. apply list_insert_id. by rewrite list_lookup_fmap, E.
Qed.

Lemma keeps_hring {A} (q : prog (Ring T) A) : keeps ring_ends q -> keeps ring_view (on_hring q).
Proof. intros Hq. eapply keeps_lift_part; [|exact Hq]. intros hr r E. unfold ring_view. cbn. exact E. Qed.

Lemma known_counters k l c cached unrel bst fast :
  lane_known k l -> 0 <= cached -> 0 <= fast -> prefetched c (cached + fast) ->
  lane_known k (set_counters cached unrel bst fast (set_consumer (mkRConsumer (Some c)) l)).
Proof. intros [H1 H2 H3 _] Hc Hf Hp. split; cbn; eauto 6. Qed.

Lemma calm_usub a b (Y : Z -> Prop) : (b <= a -> Y (a - b)) -> calm_op (usub a b) Y.
Proof. intros H. unfold usub. destruct (Z.ltb_spec a b); [done|]. split; [done|]. by apply H. Qed.

Lemma keeps_usub a b : keeps (view (T := T)) (usub a b).
Proof. unfold usub. by destruct (_ <? _). Qed.

Ltac calm_ring := apply keeps_lane_ring; unfold RConsumer_pop, RConsumer_prefetch, RConsumer_release, RConsumer_pop_into, RConsumer_pop_into_while, RConsumer_is_disconnected, with_open;
  case_match; [|done]; repeat first [apply keeps_bind; [apply keeps_hring|by intros; repeat case_match] | apply keeps_hring];
  auto using calm_prefetch, calm_pop, calm_pop_into, calm_pop_into_while, calm_release, calm_is_disconnected.

(** *** Prefetching *)

Lemma keeps_close_fast l : keeps view (Lane_close_fast (T := T) l).
Proof. unfold Lane_close_fast. case_match; [|done]. repeat (apply keeps_bind; [apply keeps_usub|intros]). done. Qed.

Lemma calm_close_fast k l :
  lane_known k l -> calm_op (Lane_close_fast l) (fun l' => lane_known k l' /\ fast_left l' = 0 /\ queued l' = queued l).
Proof.
  intros H. split; [apply keeps_close_fast|]. unfold Lane_close_fast. destruct (Z.eqb_spec (fast_left l) 0); cbn [negb]; [done|].
  eapply yields_bind; [apply yields_true|]. intros u _. eapply yields_bind; [apply yields_true|]. intros b _. cbn.
  pose proof (lk_count _ _ H) as (Hc & Hf & c & Ec & Hp). split; [|done]. destruct H as [H1 H2 H3 _]. split; cbn; auto.
  split; [lia|]. split; [lia|]. exists c. by rewrite Z.add_0_r.
Qed.

Lemma keeps_prefetch l : keeps view (Lane_prefetch (T := T) l).
Proof. unfold Lane_prefetch. apply keeps_bind; [calm_ring|by intros []]. Qed.

Lemma calm_prefetch_lane k l :
  lane_known k l -> cached_available l = 0 -> fast_left l = 0 ->
  calm_op (Lane_prefetch l) (fun l' => lane_known k l' /\ fast_left l' = 0 /\ queued l' = queued l).
Proof.
  intros H E1 E2. split; [apply keeps_prefetch|]. destruct (lk_count _ _ H) as (Hc & Hf & c & Ec & Hp). rewrite E1, E2 in Hp.
  unfold Lane_prefetch. rewrite Ec. eapply (yields_bind _ _ (fun r => exists c', r.2 = mkRConsumer (Some c') /\ prefetched c' r.1)).
  - unfold RConsumer_prefetch, with_open. cbn [rc_inner]. apply yields_focus. eapply yields_bind; [apply yields_lift, yields_prefetch, Hp|].
    intros [m c'] Hm. cbn. eauto.
  - intros [m c'] (c'' & E & Hm). cbn [fst snd] in *. subst c'. pose proof (prefetched_range _ _ Hm). cbn. split; [|done].
    apply (known_counters k l c'' m (unreleased l) (burst l) (fast_left l) H); [lia|lia|]. by rewrite E2, Z.add_0_r.
Qed.

Lemma keeps_grant_fast l b : keeps view (Lane_grant_fast (T := T) l b).
Proof.
  unfold Lane_grant_fast. apply keeps_bind; [apply keeps_close_fast|]. intros l1. apply keeps_bind; [case_match; [apply keeps_prefetch|done]|].
  intros l2. apply keeps_bind; [apply keeps_usub|done].
Qed.

Lemma calm_grant_fast k l budget :
  lane_known k l -> 0 <= budget -> calm_op (Lane_grant_fast l budget) (fun l' => lane_known k l' /\ queued l' = queued l).
Proof.
  intros H Hb. split; [apply keeps_grant_fast|]. unfold Lane_grant_fast. eapply yields_bind; [apply (calm_close_fast k l H)|].
  intros l1 (H1 & F1 & Q1). eapply (yields_bind _ _ (fun l' => lane_known k l' /\ fast_left l' = 0 /\ queued l' = queued l)).
  - destruct (Z.eqb_spec (cached_available l1) 0); [|by cbn; rewrite F1, Q1]. eapply yields_mono; [|by apply (calm_prefetch_lane k l1)].
    intros l' (? & ? & ->). by rewrite Q1.
  - intros l2 (H2 & F2 & Q2). cbv zeta. set (granted := Z.min _ budget).
    destruct (lk_count _ _ H2) as (Hc & Hf & c & Ec & Hp). rewrite F2, Z.add_0_r in Hp.
    assert (Hg : 0 <= granted <= cached_available l2) by (unfold granted, saturating_sub; lia).
    unfold usub. destruct (Z.ltb_spec (cached_available l2) granted); [done|]. cbn. split; [|done]. destruct H2 as [K1 K2 K3 _].
    split; cbn; auto. split; [lia|]. split; [lia|]. exists c. split; [done|]. by replace (cached_available l2 - granted + granted) with (cached_available l2) by lia.
Qed.

(** *** Popping *)

Lemma keeps_pop_fast l : keeps view (Lane_pop_fast (T := T) l).
Proof. unfold Lane_pop_fast. case_match; [done|]. apply keeps_bind; [calm_ring|]. intros [[v|] c]; done. Qed.

Lemma yields_rpop k l c total (l' : Lane) :
  lane_known k l -> prefetched c total -> 0 < total -> lane_consumer l' = mkRConsumer (Some c) ->
  yields (on_lane_ring (lane_ring l') (RConsumer_pop (T := T) (lane_consumer l')))
    (fun r => forall v, r.1 = Some v -> exists c', r.2 = mkRConsumer (Some c') /\ prefetched c' (total - 1)).
Proof.
  intros H Hp Ht E. rewrite E. unfold RConsumer_pop, with_open. cbn [rc_inner]. apply yields_focus.
  eapply yields_bind; [apply yields_lift, yields_pop; [exact Hp|done]|]. intros [v c'] Hv. cbn. eauto.
Qed.

Lemma calm_pop_fast k l :
  lane_known k l -> calm_op (Lane_pop_fast l) (fun r => lane_known k r.2 /\ queued r.2 = queued l).
Proof.
  intros H. split; [apply keeps_pop_fast|]. destruct (lk_count _ _ H) as (Hc & Hf & c & Ec & Hp). unfold Lane_pop_fast.
  destruct (Z.eqb_spec (fast_left l) 0); [done|]. cbv zeta.
  eapply yields_bind; [eapply (yields_rpop k l c (cached_available l + fast_left l)); [done|done|lia|done]|].
  intros [[v|] c'] Hv; [|done]. destruct (Hv v eq_refl) as (c'' & E & Hp'). cbn [fst snd] in *. subst c'. cbn. split; [|done].
  destruct H as [H1 H2 H3 _]. split; cbn; auto. split; [lia|]. split; [lia|]. exists c''. split; [done|].
  by replace (cached_available l + (fast_left l - 1)) with (cached_available l + fast_left l - 1) by lia.
Qed.

Lemma keeps_release_pending l : keeps view (Lane_release_pending (T := T) l).
Proof.
  unfold Lane_release_pending. apply keeps_bind; [apply keeps_close_fast|]. intros l1. case_match; [done|]. apply keeps_bind; [calm_ring|done].
Qed.

Lemma calm_release_pending k l :
  lane_known k l -> calm_op (Lane_release_pending l) (fun r => lane_known k r.2 /\ fast_left r.2 = 0 /\ queued r.2 = queued l).
Proof.
  intros H. split; [apply keeps_release_pending|]. unfold Lane_release_pending. eapply yields_bind; [apply (calm_close_fast k l H)|].
  intros l1 (H1 & F1 & Q1). destruct (_ =? _); [done|]. eapply yields_bind; [apply yields_true|]. intros u _. cbn. split; [|done].
  destruct H1 as [K1 K2 K3 K4]. by split.
Qed.

(** The release keeps the counters of the window when there is no fast window. *)
Lemma yields_release_cached l :
  fast_left l = 0 -> yields (Lane_release_pending (T := T) l) (fun r => cached_available r.2 = cached_available l).
Proof.
  intros E. unfold Lane_release_pending, Lane_close_fast. rewrite E. cbn. destruct (_ =? _); [done|].
  eapply yields_bind; [apply yields_true|]. done.
Qed.

Lemma keeps_pop_counted l step msg : keeps view (Lane_pop_counted (T := T) l step msg).
Proof.
  unfold Lane_pop_counted. apply keeps_bind; [calm_ring|]. intros [[v|] c]; [|done]. apply keeps_bind; [apply keeps_usub|]. intros m.
  apply keeps_bind; [case_match; [apply keeps_release_pending|done]|]. by intros [].
Qed.

Lemma calm_pop_counted k l step msg :
  lane_known k l -> calm_op (Lane_pop_counted l step msg) (fun r => lane_known k r.2 /\ queued r.2 = queued l).
Proof.
  intros H. split; [apply keeps_pop_counted|]. destruct (lk_count _ _ H) as (Hc & Hf & c & Ec & Hp). unfold Lane_pop_counted.
  destruct (decide (cached_available l + fast_left l = 0)) as [E|E].
  - eapply yields_bind; [apply yields_true|]. intros [[v|] c'] _; [|done]. unfold usub. cbn.
    replace (cached_available l) with 0 by lia. done.
  - eapply yields_bind; [eapply (yields_rpop k l c (cached_available l + fast_left l)); [done|done|lia|done]|].
    intros [[v|] c'] Hv; [|done]. destruct (Hv v eq_refl) as (c'' & E' & Hp'). cbn [fst snd] in *. subst c'. cbv zeta.
    cbn [cached_available set_consumer]. unfold usub. destruct (Z.ltb_spec (cached_available l) 1); [done|]. cbn [bind].
    set (l2 := set_counters _ _ _ _ _). assert (H2 : lane_known k l2 /\ queued l2 = queued l).
    { split; [|done]. apply (known_counters k l c'' (cached_available l - 1)); [done|lia|done|]. cbn.
      by replace (cached_available l - 1 + fast_left l) with (cached_available l + fast_left l - 1) by lia. }
    eapply (yields_bind _ _ (fun r => lane_known k r.2 /\ queued r.2 = queued l)).
    + destruct (_ =? _); [|done]. eapply yields_mono; [|apply (calm_release_pending k l2), H2]. intros r (? & _ & ->). split; [done|apply H2].
    + intros [b l3] H3. done.
Qed.

Lemma keeps_pop_fair l b : keeps view (Lane_pop_fair (T := T) l b).
Proof.
  unfold Lane_pop_fair. apply keeps_bind; [case_match; [apply keeps_grant_fast|done]|]. intros l1. apply keeps_bind; [apply keeps_pop_fast|].
  by intros [[]].
Qed.

Lemma known_burst k l b : lane_known k l -> lane_known k (set_burst b l).
Proof. intros [H1 H2 H3 H4]. by split. Qed.

Lemma calm_pop_fair k l b :
  lane_known k l -> 0 <= b -> calm_op (Lane_pop_fair l b) (fun r => lane_known k r.2 /\ queued r.2 = queued l).
Proof.
  intros H Hb. split; [apply keeps_pop_fair|]. unfold Lane_pop_fair.
  eapply (yields_bind _ _ (fun l' => lane_known k l' /\ queued l' = queued l)).
  - destruct (_ =? _); [|done]. eapply yields_mono; [|apply (calm_grant_fast k); [by apply known_burst|done]]. done.
  - intros l1 [H1 Q1]. eapply yields_bind; [apply (calm_pop_fast k l1 H1)|]. intros [[v|] l2] [H2 Q2]; cbn in *; (split; [|congruence]); [by apply known_burst|done].
Qed.

(** *** The capacity cell and bulk moves *)

Lemma keeps_notify_space h : keeps (view (T := T)) (on_index (LaneSignal_notify_space h)).
Proof.
  unfold on_index. eapply (keeps_lift_part _ _ (fun i => (signal_view <$> rs_signals i, rs_pages i, rs_groups i))).
  - intros s i [= E1 E2 E3]. unfold view. cbn. by rewrite E1, E2, E3.
  - apply keeps_lift. intros w i. unfold put_lane_cell. destruct (zlookup (rs_signals i) h) as [sg|] eqn:E; [|done]. cbn.
    f_equal. f_equal. unfold zlookup in E. unfold zinsert. destruct (h <? 0); [done|]. rewrite list_fmap_insert. apply list_insert_id.
    by rewrite list_lookup_fmap, E.
Qed.

Lemma keeps_move_chunk {Adm} l out take (admission : Admit T Adm) adm : keeps view (Lane_move_chunk l out take admission adm).
Proof.
  unfold Lane_move_chunk. apply keeps_bind.
  - destruct admission as [|accepts]; [|calm_ring]. apply keeps_bind; [calm_ring|]. intros [[m o] c]. by destruct (negb _).
  - intros [[[m o] a] c]. apply keeps_bind; [apply keeps_usub|]. intros cached. apply keeps_bind; [|done]. case_match; [|done].
    apply keeps_bind; [apply keeps_release_pending|]. intros [[] l1]; [|done]. apply keeps_bind; [apply keeps_notify_space|done].
Qed.

Lemma calm_move_chunk {Adm} k l out take (admission : Admit T Adm) adm :
  lane_known k l -> 0 <= take -> calm_op (Lane_move_chunk l out take admission adm) (fun r => lane_known k r.2 /\ queued r.2 = queued l).
Proof.
  intros H Ht. split; [apply keeps_move_chunk|]. destruct (lk_count _ _ H) as (Hc & Hf & c & Ec & Hp). unfold Lane_move_chunk. rewrite Ec.
  set (total := cached_available l + fast_left l) in *.
  eapply (yields_bind _ _ (fun r => exists c', r.2 = mkRConsumer (Some c') /\ 0 <= r.1.1.1 /\ prefetched c' (total - r.1.1.1))).
  - destruct admission as [|accepts].
    + eapply (yields_bind _ _ (fun r => exists c', r.2 = mkRConsumer (Some c') /\ 0 <= r.1.1 /\ prefetched c' (total - r.1.1))).
      * unfold RConsumer_pop_into, with_open. cbn [rc_inner]. apply yields_focus. eapply yields_bind; [by apply yields_lift, yields_pop_into|].
        intros [[m o] c'] [Hm Hm']. cbn in *. exists c'. split; [done|]. split; [lia|done].
      * intros [[m o] c'] Hm. cbn [fst snd] in Hm. destruct (negb _); [done|]. exact Hm.
    + unfold RConsumer_pop_into_while, with_open. cbn [rc_inner]. apply yields_focus. eapply yields_bind; [by apply yields_lift, yields_pop_into_while|].
      intros [[[m o] a] c'] [Hm Hm']. cbn in *. exists c'. split; [done|]. split; [lia|done].
  - intros [[[m o] a] c'] (c'' & E & Hm0 & Hm). cbn [fst snd] in *. subst c'. cbv zeta. cbn [cached_available set_consumer].
    unfold usub. destruct (Z.ltb_spec (cached_available l) m); [done|]. cbn [bind]. set (l2 := set_counters _ _ _ _ _).
    assert (H2 : lane_known k l2 /\ queued l2 = queued l).
    { split; [|done]. apply (known_counters k l c'' (cached_available l - m)); [done|lia|done|]. cbn. unfold total in Hm.
      by replace (cached_available l - m + fast_left l) with (cached_available l + fast_left l - m) by lia. }
    eapply (yields_bind _ _ (fun l3 => lane_known k l3 /\ queued l3 = queued l)); [|by intros l3 H3].
    destruct (_ =? _); [|done]. eapply yields_bind; [apply (calm_release_pending k l2), H2|]. intros [[] l3] (H3 & _ & Q3); cbn [fst snd] in *.
    + eapply yields_bind; [apply yields_true|]. intros u _. cbn. split; [done|]. rewrite Q3. apply H2.
    + cbn. split; [done|]. rewrite Q3. apply H2.
Qed.


End lane.
