(* ===== verification/MpscReadyRecv.v ===== *)
(** * The receiver takes marks

    What the receiver's accesses to the readiness index do to the ghost state
    of MpscReady, and the operations built from them: collecting ready lanes,
    settling and retiring a lane.  Between operations the receiver holds no
    mark in its hand: every mark it took is a lane in its active list. *)

From stdpp Require Import gmap.
From S2P Require Import Prelude Prog ProgPartial Config Wait Ready YRing Handoff MpscLane Mpsc MpscConc MpscRecvConc MpscReady MpscReadyLane.
Local Open Scope prog_scope.

Section recv.
Context {T : Type} (n : nat) (pages groups : list Z) (gen : Z) (n_word : Z.of_nat n < usize_mod).
#[local] Abbreviation topo := (topo n pages groups gen).
#[local] Abbreviation inv := (ready_inv n pages groups gen).
#[local] Abbreviation vguar := (vguar n pages groups gen).
#[local] Abbreviation rguar := (rguar (T := T) n pages groups gen).
#[local] Abbreviation wlp := (wlp (S := Shared T) tails_ok rguar).
#[local] Abbreviation vstable := (vstable n pages groups gen).
#[local] Abbreviation page_word := (page_word pages).
#[local] Abbreviation group_word := (group_word groups).
Implicit Types (v : rview) (g : rghost) (k : nat) (hd hn wi go : gset nat) (cl zs : gset Z) (pd : list PendingLane) (d : bool).

(** Every sender has made its last mark and left; none is on its way. *)
Definition dormant g : Prop := forall k, (k < n)%nat -> k ∈ rg_final g /\ k ∈ rg_left g /\ (k ∉ rg_flight g) /\ (k ∉ rg_announce g).

(** What the receiver knows: its ghosts, the lanes that wait in the registry
    and, if all senders are gone ([d]), the groups [zs] without bits. *)
Record recv_at hd hn cl wi go pd zs d v g : Prop := {
  ra_inv : inv v g;
  ra_ghosts : recv_ghosts g = (hd, hn, cl, wi, go);
  ra_pending : reg_pending (v_registry v) = pd;
  ra_dormant : d = true -> dormant g /\ forall i, i ∈ zs -> group_word v i = 0
}.

Lemma recv_stable hd hn cl wi go pd zs d : vstable 0 (recv_at hd hn cl wi go pd zs d).
Proof.
  intros [|b] v g w g' Hb [H1 H2 H3 H4] [Hi Hg]; [done|]. destruct Hg as [E1 [E2 _] _ (G1 & G2 & G3 & G4) _ F1 _ F2 F3 F4].
  split; [done|congruence|congruence|]. intros Hd. destruct (H4 Hd) as [Hdo Hz]. clear H4. destruct (decide (b < n)%nat) as [Hlt|Hge].
  - destruct (Hdo b Hlt) as (D1 & D2 & D3 & D4). destruct (F3 D1 D3 D4) as (K1 & K2 & K3 & K4 & K5). split.
    + intros k Hk. destruct (decide (k = b)) as [->|Hne]; [split_and!; auto; [by apply F1|by apply F2]|].
      destruct (Hdo k Hk) as (? & ? & ? & ?). rewrite (G1 k Hne), (G2 k Hne), (G3 k Hne), (G4 k Hne). done.
    + intros i Hin. specialize (Hz i Hin). unfold MpscReady.group_word in *. by rewrite K5.
  - split.
    + intros k Hk. assert (Hne : k <> b) by lia. destruct (Hdo k Hk) as (? & ? & ? & ?). rewrite (G1 k Hne), (G2 k Hne), (G3 k Hne), (G4 k Hne). done.
    + intros i Hin. specialize (Hz i Hin). unfold MpscReady.group_word in *. by rewrite F4 by lia.
Qed.

Lemma recv_inv hd hn cl wi go pd zs d v g : recv_at hd hn cl wi go pd zs d v g -> inv v g.
Proof. apply ra_inv. Qed.

(** ** The receiver's steps *)

Definition g_recv hd hn cl wi go g : rghost := mkRG (rg_flight g) (rg_announce g) (rg_final g) (rg_left g) hd hn cl wi go.

(** The receiver gives the mark of a lane back. *)
Lemma inv_finish v g k st h b :
  inv v g -> v_signals v !! k = Some (st, h, b) ->
  inv (upd_signal k (IDLE, h, b) v)
    (g_recv (rg_held g ∖ {[k]}) (rg_hand g) (rg_claimed g) (if decide (k ∈ rg_final g) then {[k]} ∪ rg_window g else rg_window g) (rg_gone g) g).
Proof.
  intros [H1 H2 H3 Hs H4 H5 H6 H7] E. split; try done.
  - by eapply topo_upd_signal.
  - intros j Hj. erewrite sig_word_upd by done. cbn. case_decide as Ej; [done|]. intros Hw.
    destruct (H2 j Hj Hw) as [?|?]; [|auto]. left. set_solver.
  - intros j Hj Hf Hg. erewrite sig_word_upd by done. cbn [g_recv rg_final rg_gone rg_window] in *. destruct (decide (j = k)) as [->|Hne].
    + intros _. rewrite decide_True by done. set_solver.
    + intros Hw. specialize (H4 j Hj Hf Hg Hw). case_decide; set_solver.
Qed.

(** The receiver claims a lane again after it looked at it. *)
Lemma inv_claim v g k st h b :
  inv v g -> v_signals v !! k = Some (st, h, b) ->
  inv (upd_signal k (if st =? IDLE then PENDING else st, h, b) v)
    (g_recv ({[k]} ∪ rg_held g) (rg_hand g) (rg_claimed g) (rg_window g ∖ {[k]}) (rg_gone g) g).
Proof.
  intros [H1 H2 H3 Hs H4 H5 H6 H7] E. split; try done.
  - by eapply topo_upd_signal.
  - intros j Hj. erewrite sig_word_upd by done. cbn [g_recv rg_held]. case_decide as Ej; [intros _; left; set_solver|]. intros Hw.
    destruct (H2 j Hj Hw) as [?|?]; [left; set_solver|auto].
  - intros j Hj Hf Hg. erewrite sig_word_upd by done. cbn [g_recv rg_final rg_gone rg_window fst] in *. destruct (decide (j = k)) as [->|Hne].
    + intros Hw. by destruct (Z.eqb_spec st IDLE).
    + intros Hw. specialize (H4 j Hj Hf Hg Hw). set_solver.
Qed.

(** The receiver takes the word of a group: the pages whose bits are set are
    in its hand. *)
Definition claims gi w : gset Z :=
  list_to_set (filter (fun i => Z.testbit w (i mod PAGES_PER_GROUP) = true /\ is_Some (zlookup pages i))
    (seqZ (gi * PAGES_PER_GROUP) PAGES_PER_GROUP)).

Lemma elem_of_claims gi w i :
  i ∈ claims gi w <-> i / PAGES_PER_GROUP = gi /\ Z.testbit w (i mod PAGES_PER_GROUP) = true /\ is_Some (zlookup pages i).
Proof.
  clear n_word n. unfold claims. rewrite elem_of_list_to_set, list_elem_of_filter, elem_of_seqZ. unfold PAGES_PER_GROUP.
  pose proof (Z.div_mod i 64 ltac:(lia)). pose proof (Z.mod_pos_bound i 64 ltac:(lia)). split.
  - intros [[Hb Hs] Hr]. split; [|done]. symmetry. apply (Z.div_unique i 64 gi (i - gi * 64)); lia.
  - intros [E Hb]. split; [done|lia].
Qed.

Lemma page_word_Some v i : page_word v i <> 0 -> is_Some (zlookup pages i).
Proof. unfold MpscReady.page_word. destruct (zlookup pages i); [eauto|done]. Qed.

Lemma inv_take_group v g gi gh gr :
  inv v g -> zlookup groups gi = Some gh -> zlookup (v_groups v) gh = Some gr ->
  inv (upd_group gh (with_group_bits 0 gr) v)
    (g_recv (rg_held g) (rg_hand g) (claims gi (group_bits gr) ∪ rg_claimed g) (rg_window g) (rg_gone g) g).
Proof.
  intros [H1 H2 H3 Hs H4 H5 H6 H7] Eg Egr. split; try done.
  - by apply topo_upd_group.
  - intros i Hi. change (page_word (upd_group _ _ v)) with (page_word v) in Hi. erewrite group_word_upd by done.
    destruct (H3 i Hi) as [?|[?|Hb]]; [left; set_solver|auto|]. case_decide as Ei; [|auto]. left. cbn. apply elem_of_union. left.
    apply elem_of_claims. split; [done|]. split; [|by eapply page_word_Some]. rewrite Ei in Hb. by erewrite group_word_at in Hb.
Qed.

(** The receiver takes the word of a page: the lanes whose bits are set are in
    its hand. *)
Definition lanes_of i w : gset nat := filter (fun k => lane_page k = i /\ Z.testbit w (lane_bit k) = true) (set_seq 0 n).

Lemma elem_of_lanes i w k : k ∈ lanes_of i w <-> (k < n)%nat /\ lane_page k = i /\ Z.testbit w (lane_bit k) = true.
Proof. unfold lanes_of. rewrite elem_of_filter, elem_of_set_seq. split; [intros [[] []]|intros (? & ? & ?)]; split_and!; auto; lia. Qed.

Lemma inv_take_page v g i h p :
  inv v g -> zlookup pages i = Some h -> zlookup (v_pages v) h = Some p ->
  inv (upd_page h (with_page_bits 0 p) v)
    (g_recv (rg_held g) (lanes_of i (page_bits p) ∖ rg_gone g ∪ rg_hand g) (rg_claimed g ∖ {[i]}) (rg_window g) (rg_gone g) g).
Proof.
  intros [H1 H2 H3 Hs H4 H5 H6 H7] Eh Ep. split; try done.
  - by apply topo_upd_page.
  - intros j Hj Hw. erewrite page_word_upd by done. cbn [g_recv rg_held rg_flight rg_hand rg_gone].
    destruct (H2 j Hj Hw) as [?|[?|[?|[?|Hb]]]]; auto; [do 2 right; left; set_solver|]. case_decide as Ej; [|auto].
    destruct (decide (j ∈ rg_gone g)); [auto|]. right. right. left. apply elem_of_union. left. apply elem_of_difference. split; [|done].
    apply elem_of_lanes. split; [done|]. split; [done|]. rewrite Ej in Hb. by erewrite page_word_at in Hb.
  - intros j. erewrite page_word_upd by done. change (group_word (upd_page _ _ v)) with (group_word v).
    case_decide as Ej; [done|]. intros Hw. destruct (H3 j Hw) as [?|?]; [|auto]. left. cbn. set_solver.
Qed.

(** The receiver looks at a lane it has in its hand. *)
Lemma inv_look v g k :
  inv v g -> inv v (g_recv (if sig_word v k =? IDLE then rg_held g else {[k]} ∪ rg_held g) (rg_hand g ∖ {[k]}) (rg_claimed g) (rg_window g) (rg_gone g) g).
Proof.
  intros [H1 H2 H3 Hs H4 H5 H6 H7]. split; try done. intros j Hj Hw. cbn [g_recv rg_held rg_flight rg_hand rg_gone].
  destruct (decide (j = k)) as [->|Hne].
  - left. destruct (Z.eqb_spec (sig_word v k) IDLE); [done|set_solver].
  - destruct (H2 j Hj Hw) as [?|[?|[?|[?|Hb]]]]; auto; [left; case_match; set_solver|do 2 right; left; set_solver].
Qed.

(** The receiver retires a lane. *)
Lemma inv_retire v g k reg :
  inv v g -> (k < n)%nat -> (k ∉ rg_gone g) -> reg_pages reg = reg_pages (v_registry v) -> reg_groups reg = reg_groups (v_registry v) ->
  inv (upd_counts reg (wrapping_sub (v_registered v) 1) (v_live v) v)
    (g_recv (rg_held g) (rg_hand g) (rg_claimed g) (rg_window g ∖ {[k]}) ({[k]} ∪ rg_gone g) g).
Proof.
  intros [H1 H2 H3 Hs H4 H5 [H6 H6'] H7] Hk Hg E1 E2. split; try done.
  - destruct H1 as [K1 K2 K3 K4]. split; try done. cbn. by rewrite E1, E2.
  - intros j Hj Hw. cbn [g_recv rg_held rg_flight rg_hand rg_gone]. destruct (H2 j Hj Hw) as [?|[?|[?|[?|Hb]]]]; auto.
    do 3 right. left. set_solver.
  - intros j Hj Hf Hn Hw. cbn in *. specialize (H4 j Hj Hf). set_solver.
  - assert (Hsub : {[k]} ∪ rg_gone g ⊆ set_seq 0 n) by (apply union_subseteq; split; [apply singleton_subseteq_l, elem_of_set_seq; lia|done]).
    split; [|done]. cbn. pose proof (subseteq_size _ _ Hsub) as Hsz. rewrite size_set_seq in Hsz.
    rewrite size_union in * by set_solver. rewrite size_singleton in *. rewrite H6. unfold wrapping_sub. rewrite wrap_small; [lia|]. usize.
Qed.

(** The registry changes elsewhere. *)
Lemma inv_registry v g reg :
  inv v g -> reg_pages reg = reg_pages (v_registry v) -> reg_groups reg = reg_groups (v_registry v) ->
  inv (upd_counts reg (v_registered v) (v_live v) v) g.
Proof.
  intros [H1 H2 H3 Hs H4 H5 H6 H7] E1 E2. split; try done. destruct H1 as [K1 K2 K3 K4]. split; try done. cbn. by rewrite E1, E2.
Qed.

(** ** The receiver's accesses *)

Lemma recv_ghosts_g hd hn cl wi go g : recv_ghosts (g_recv hd hn cl wi go g) = (hd, hn, cl, wi, go).
Proof. done. Qed.

(** Knowledge that a step of the receiver keeps. *)
Lemma recv_at_step hd hn cl wi go pd zs d v g w g' hd' hn' cl' wi' go' pd' zs' :
  recv_at hd hn cl wi go pd zs d v g -> inv w g' -> send_ghosts g' = send_ghosts g ->
  recv_ghosts g' = (hd', hn', cl', wi', go') -> reg_pending (v_registry w) = pd' ->
  (d = true -> forall i, i ∈ zs' -> group_word w i = 0) ->
  recv_at hd' hn' cl' wi' go' pd' zs' d w g'.
Proof.
  intros [H1 H2 H3 H4] Hi Es Er Ep Hz. split; [done..|]. intros Hd. destruct (H4 Hd) as [Hdo _]. split; [|by apply Hz].
  unfold send_ghosts in Es. injection Es as E1 E2 E3 E4. intros k Hk. rewrite E1, E2, E3, E4. by apply Hdo.
Qed.

Lemma recv_ghosts_eq hd hn cl wi go pd zs d v g :
  recv_at hd hn cl wi go pd zs d v g ->
  rg_held g = hd /\ rg_hand g = hn /\ rg_claimed g = cl /\ rg_window g = wi /\ rg_gone g = go.
Proof. intros [_ H _ _]. unfold recv_ghosts in H. by injection H as -> -> -> -> ->. Qed.

(** The ring of a lane whose sender has made its last mark. *)
Definition final_ring k t v g : Prop := k ∈ rg_final g /\ v_rings v !! k = Some (true, t).

Lemma final_ring_stable k t : vstable 0 (final_ring k t).
Proof.
  intros [|b] v g w g' Hb [H1 H2] [_ Hg]; [done|]. destruct Hg as [_ _ Hr (_ & _ & G3 & _) _ F1 _ _ _ _].
  destruct (decide (k = b)) as [->|Hne].
  - destruct (F1 H1) as [H3 H4]. split; [done|]. by rewrite H4.
  - split; [by rewrite (G3 k Hne)|]. destruct (Hr k Hne) as [-> _]. done.
Qed.

Lemma wlp_finish {B} k hd hn cl go pd zs d (c : unit -> prog (Shared T) B) Q x :
  at_view (recv_at hd hn cl ∅ go pd zs d) x ->
  (forall t y, at_view (fun v g => recv_at (hd ∖ {[k]}) hn cl {[k]} go pd zs d v g /\ final_ring k t v g) y -> wlp 0 (c tt) Q y) ->
  (forall y, at_view (recv_at (hd ∖ {[k]}) hn cl ∅ go pd zs d) y -> wlp 0 (c tt) Q y) ->
  wlp 0 (bind (on_index (LaneSignal_finish_drain (Z.of_nat k))) c) Q x.
Proof.
  intros Hx H1 H2. eapply wlp_on_signal; [apply recv_stable|apply recv_inv|exact Hx|]. clear x Hx.
  intros v g sg Hp Es. pose proof (recv_inv _ _ _ _ _ _ _ _ _ _ Hp) as Hi.
  destruct (recv_ghosts_eq _ _ _ _ _ _ _ _ _ _ Hp) as (E1 & E2 & E3 & E4 & E5).
  pose proof (inv_finish v g k _ _ _ Hi Es) as Hi'. cbn [fst snd]. eexists. split; [split; [exact Hi'|by split_and!]|].
  intros s Es'. rewrite E1, E2, E3, E4, E5 in *. destruct (decide (k ∈ rg_final g)) as [Hf|Hf].
  - destruct (ri_closed _ _ _ _ _ _ Hi k Hf) as [t Ht]. apply (H1 t). unfold at_view. cbn [fst snd]. rewrite Es'. split; [|done].
    rewrite union_empty_r_L in *. eapply recv_at_step; [exact Hp|exact Hi'|done..|apply Hp|]. intros Hd. apply Hp, Hd.
  - apply H2. unfold at_view. cbn [fst snd]. rewrite Es'. eapply recv_at_step; [exact Hp|exact Hi'|done..|apply Hp|].
    intros Hd. apply Hp, Hd.
Qed.

Lemma wlp_claim {B} k hd hn cl wi go pd zs d (c : bool -> prog (Shared T) B) Q x :
  at_view (recv_at hd hn cl wi go pd zs d) x ->
  (forall b y, at_view (recv_at ({[k]} ∪ hd) hn cl (wi ∖ {[k]}) go pd zs d) y -> wlp 0 (c b) Q y) ->
  wlp 0 (bind (on_index (LaneSignal_claim_after_empty (Z.of_nat k))) c) Q x.
Proof.
  intros Hx H. eapply wlp_on_signal; [apply recv_stable|apply recv_inv|exact Hx|]. clear x Hx.
  intros v g sg Hp Es. pose proof (recv_inv _ _ _ _ _ _ _ _ _ _ Hp) as Hi.
  destruct (recv_ghosts_eq _ _ _ _ _ _ _ _ _ _ Hp) as (E1 & E2 & E3 & E4 & E5).
  pose proof (inv_claim v g k _ _ _ Hi Es) as Hi'.
  assert (Ev : upd_signal k (signal_view (if signal_state sg =? IDLE then (true, with_signal_state PENDING sg) else (false, sg)).2) v =
    upd_signal k (if signal_state sg =? IDLE then PENDING else signal_state sg, signal_page sg, signal_bit sg) v) by (by destruct (_ =? _)).
  rewrite Ev. eexists. split; [split; [exact Hi'|by split_and!]|].
  intros s Es'. apply H. unfold at_view. cbn [fst snd]. rewrite Es'. rewrite E1, E2, E3, E4, E5 in *.
  eapply recv_at_step; [exact Hp|exact Hi'|done..|apply Hp|]. intros Hd. apply Hp, Hd.
Qed.

Lemma wlp_look {B} k hd hn cl wi go pd zs d (c : bool -> prog (Shared T) B) Q x :
  at_view (recv_at hd hn cl wi go pd zs d) x ->
  (forall b y, at_view (recv_at (if b : bool then {[k]} ∪ hd else hd) (hn ∖ {[k]}) cl wi go pd zs d) y -> wlp 0 (c b) Q y) ->
  wlp 0 (bind (on_index (LaneSignal_is_pending (Z.of_nat k))) c) Q x.
Proof.
  intros Hx H. eapply wlp_on_signal; [apply recv_stable|apply recv_inv|exact Hx|]. clear x Hx.
  intros v g sg Hp Es. pose proof (recv_inv _ _ _ _ _ _ _ _ _ _ Hp) as Hi.
  destruct (recv_ghosts_eq _ _ _ _ _ _ _ _ _ _ Hp) as (E1 & E2 & E3 & E4 & E5).
  cbn [fst snd]. assert (Ev : upd_signal k (signal_view sg) v = v).
  { unfold upd_signal. rewrite list_insert_id by done. by destruct v. }
  rewrite Ev. pose proof (inv_look v g k Hi) as Hi'. eexists. split; [split; [exact Hi'|by split_and!]|].
  intros s Es'. apply H. unfold at_view. cbn [fst snd]. rewrite Es'. rewrite E1, E2, E3, E4, E5 in *.
  assert (Ew : sig_word v k = signal_state sg) by (unfold sig_word; by rewrite Es). rewrite Ew in *.
  eapply recv_at_step; [exact Hp|exact Hi'|done| |apply Hp|intros Hd; apply Hp, Hd]. rewrite recv_ghosts_g. by destruct (_ =? _).
Qed.

(** The first look at a group: without bits it is known to be empty. *)
Lemma wlp_has_ready {B} gi gh hd hn cl wi go pd zs d (c : bool -> prog (Shared T) B) Q x :
  zlookup groups gi = Some gh -> at_view (recv_at hd hn cl wi go pd zs d) x ->
  (forall b y, at_view (recv_at hd hn cl wi go pd (if b : bool then zs else {[gi]} ∪ zs) d) y -> wlp 0 (c b) Q y) ->
  wlp 0 (bind (on_index (ReadyGroup_has_ready gh)) c) Q x.
Proof.
  intros Eg Hx H. eapply wlp_on_group; [apply recv_stable|apply recv_inv|exact Hx|]. clear x Hx.
  intros v g gr Hp Er. cbn [fst snd].
  assert (Ev : upd_group gh gr v = v).
  { unfold upd_group. destruct v. cbn in *. f_equal. unfold zlookup, zinsert in *. destruct (gh <? 0); [done|]. by apply list_insert_id. }
  rewrite Ev. exists g. split; [by apply vguar_refl, Hp|]. intros s Es. apply H. unfold at_view. cbn [fst snd]. rewrite Es.
  destruct (Z.eqb_spec (group_bits gr) 0) as [E|E]; [|exact Hp]. destruct Hp as [H1 H2 H3 H4]. split; [done..|].
  intros Hd. destruct (H4 Hd) as [Hdo Hz]. split; [done|]. intros i [->%elem_of_singleton|Hi]%elem_of_union; [|by apply Hz].
  by erewrite group_word_at by done.
Qed.

Lemma wlp_take_all {B} gi gh hd hn cl wi go pd zs d (c : Z -> prog (Shared T) B) Q x :
  zlookup groups gi = Some gh -> at_view (recv_at hd hn cl wi go pd zs d) x ->
  (forall w y, is_u64 w -> at_view (recv_at hd hn (claims gi w ∪ cl) wi go pd ({[gi]} ∪ zs) d) y -> wlp 0 (c w) Q y) ->
  wlp 0 (bind (on_index (ReadyGroup_take_all gh)) c) Q x.
Proof.
  intros Eg Hx H. eapply wlp_on_group; [apply recv_stable|apply recv_inv|exact Hx|]. clear x Hx.
  intros v g gr Hp Er. cbn [fst snd]. pose proof (recv_inv _ _ _ _ _ _ _ _ _ _ Hp) as Hi.
  destruct (recv_ghosts_eq _ _ _ _ _ _ _ _ _ _ Hp) as (E1 & E2 & E3 & E4 & E5).
  pose proof (inv_take_group v g gi gh gr Hi Eg Er) as Hi'. eexists. split; [split; [exact Hi'|by split_and!]|].
  intros s Es. apply H.
  { destruct (tp_group _ _ _ _ _ (ri_topo _ _ _ _ _ _ Hi) _ _ Eg) as (gr' & Er' & Hu & _). rewrite Er in Er'. by injection Er' as <-. }
  unfold at_view. cbn [fst snd]. rewrite Es, E1, E2, E3, E4, E5 in *.
  eapply recv_at_step; [exact Hp|exact Hi'|done..|apply Hp|]. intros Hd i Hin.
  erewrite group_word_upd by (done || apply Hi). case_decide as Ei; [done|]. apply elem_of_union in Hin as [?%elem_of_singleton|Hin]; [done|].
  by apply Hp.
Qed.

Lemma wlp_take_page {B} i h hd hn cl wi go pd zs d (c : Z -> prog (Shared T) B) Q x :
  zlookup pages i = Some h -> at_view (recv_at hd hn cl wi go pd zs d) x ->
  (forall w y, is_u64 w -> at_view (recv_at hd (lanes_of i w ∖ go ∪ hn) (cl ∖ {[i]}) wi go pd zs d) y -> wlp 0 (c w) Q y) ->
  wlp 0 (bind (on_index (ReadyPage_take h)) c) Q x.
Proof.
  intros Eh Hx H. eapply wlp_on_page; [apply recv_stable|apply recv_inv|exact Hx|]. clear x Hx.
  intros v g p Hp Ep. cbn [fst snd]. pose proof (recv_inv _ _ _ _ _ _ _ _ _ _ Hp) as Hi.
  destruct (recv_ghosts_eq _ _ _ _ _ _ _ _ _ _ Hp) as (E1 & E2 & E3 & E4 & E5).
  pose proof (inv_take_page v g i h p Hi Eh Ep) as Hi'. eexists. split; [split; [exact Hi'|by split_and!]|].
  intros s Es. apply H.
  { destruct (tp_page _ _ _ _ _ (ri_topo _ _ _ _ _ _ Hi) _ _ Eh) as (p' & Ep' & Hu & _). rewrite Ep in Ep'. by injection Ep' as <-. }
  unfold at_view. cbn [fst snd]. rewrite Es, E1, E2, E3, E4, E5 in *.
  eapply recv_at_step; [exact Hp|exact Hi'|done..|apply Hp|]. intros Hd j Hin. by apply Hp.
Qed.

(** Loads of the counters. *)
Lemma wlp_recv_load {X B} (get : Shared T -> X) (Y : rview -> rghost -> X -> Prop) hd hn cl wi go pd zs d (c : X -> prog (Shared T) B) Q x :
  (forall s g, recv_at hd hn cl wi go pd zs d (view s) g -> Y (view s) g (get s)) ->
  at_view (recv_at hd hn cl wi go pd zs d) x ->
  (forall z y, at_view (recv_at hd hn cl wi go pd zs d) y -> Y (view y.1) y.2 z -> wlp 0 (c z) Q y) ->
  wlp 0 (bind (load get) c) Q x.
Proof.
  intros HY Hx H. cbn. eapply wlp_act; [apply vstable_stable, recv_stable|exact Hx|]. intros s g Hp _. exists g.
  split; [apply vguar_refl, Hp|]. cbn. apply H; [exact Hp|]. by apply HY.
Qed.

(** The receiver takes the lanes that wait in the registry. *)
Lemma wlp_take_pending {B} hd hn cl wi go pd zs d (c : list PendingLane * list Z * list Z * Z -> prog (Shared T) B) Q x :
  at_view (recv_at hd hn cl wi go pd zs d) x ->
  (forall y, at_view (recv_at hd hn cl wi go [] zs d) y -> wlp 0 (c (pd, groups, pages, gen)) Q y) ->
  wlp 0 (bind (atomic (fun s : Shared T =>
      let reg := sh_registry s in
      ((reg_pending reg, reg_groups reg, reg_pages reg, sh_registry_generation s),
       set_sh_registry (mkRegistry [] (reg_free reg) (reg_groups reg) (reg_pages reg) (reg_next_slot reg)) s))) c) Q x.
Proof.
  intros Hx H. cbn. eapply wlp_act; [apply vstable_stable, recv_stable|exact Hx|]. intros s g Hp _. unfold at_view in Hp. cbn in Hp.
  pose proof Hp as [Hi E1 E2 E3]. destruct (tp_registry _ _ _ _ _ (ri_topo _ _ _ _ _ _ Hi)) as (T1 & T2 & T3). cbn in T1, T2, T3, E2.
  cbn. exists g.
  set (reg := mkRegistry [] (reg_free (sh_registry s)) (reg_groups (sh_registry s)) (reg_pages (sh_registry s)) (reg_next_slot (sh_registry s))).
  pose proof (inv_registry (view s) g reg Hi eq_refl eq_refl) as Hi'. split.
  - split; [exact Hi'|by split_and!].
  - rewrite E2, T1, T2, T3. apply H. unfold at_view. cbn [fst snd]. eapply recv_at_step; [exact Hp|exact Hi'|done..|]. intros Hd. by apply Hp.
Qed.

(** The counters of a retired lane. *)
Lemma wlp_retire_counts {B} k hd hn cl wi go pd zs d (c : unit -> prog (Shared T) B) Q x :
  (k < n)%nat -> (k ∉ go) -> at_view (recv_at hd hn cl wi go pd zs d) x ->
  (forall y, at_view (recv_at hd hn cl (wi ∖ {[k]}) ({[k]} ∪ go) pd zs d) y -> wlp 0 (c tt) Q y) ->
  wlp 0 (bind (store (fun s : Shared T => set_sh_counts (sh_registry_generation s)
                    (wrapping_sub (sh_registered_lanes s) 1) (sh_live_senders s) s)) c) Q x.
Proof.
  intros Hk Hg Hx H. cbn. eapply wlp_act; [apply vstable_stable, recv_stable|exact Hx|]. intros s g Hp _. unfold at_view in Hp. cbn in Hp.
  pose proof (recv_inv _ _ _ _ _ _ _ _ _ _ Hp) as Hi. destruct (recv_ghosts_eq _ _ _ _ _ _ _ _ _ _ Hp) as (E1 & E2 & E3 & E4 & E5).
  pose proof (inv_retire (view s) g k (sh_registry s) Hi Hk ltac:(by rewrite E5) eq_refl eq_refl) as Hi'.
  cbn. eexists. split; [split; [exact Hi'|by split_and!]|]. apply H. unfold at_view. cbn [fst snd]. rewrite E1, E2, E3, E4, E5 in *.
  eapply recv_at_step; [exact Hp|exact Hi'|done..|apply Hp|]. intros Hd. by apply Hp.
Qed.

(** The slot of a retired lane. *)
Lemma wlp_retire_slot {B} key hd hn cl wi go pd zs d (c : unit -> prog (Shared T) B) Q x :
  at_view (recv_at hd hn cl wi go pd zs d) x ->
  (forall y, at_view (recv_at hd hn cl wi go pd zs d) y -> wlp 0 (c tt) Q y) ->
  wlp 0 (bind (store (fun s : Shared T => set_sh_registry (Registry_retire_lane key (sh_registry s)) s)) c) Q x.
Proof.
  intros Hx H. cbn. eapply wlp_act; [apply vstable_stable, recv_stable|exact Hx|]. intros s g Hp _. unfold at_view in Hp. cbn in Hp.
  pose proof (recv_inv _ _ _ _ _ _ _ _ _ _ Hp) as Hi.
  assert (Er : reg_pages (Registry_retire_lane key (sh_registry s)) = reg_pages (sh_registry s) /\
    reg_groups (Registry_retire_lane key (sh_registry s)) = reg_groups (sh_registry s) /\
    reg_pending (Registry_retire_lane key (sh_registry s)) = reg_pending (sh_registry s)).
  { unfold Registry_retire_lane. repeat case_match; done. }
  destruct Er as (R1 & R2 & R3). pose proof (inv_registry (view s) g _ Hi R1 R2) as Hi'.
  cbn. exists g. split; [split; [exact Hi'|by split_and!]|]. apply H. unfold at_view. cbn [fst snd].
  eapply recv_at_step; [exact Hp|exact Hi'|done|apply Hp| |intros Hd; by apply Hp]. cbn. rewrite R3. apply Hp.
Qed.


End recv.
