(* ===== verification/MpscReadyPoll.v ===== *)
(** * The receiver polls a lane

    A lane that runs empty gives its mark back.  If its sender had made its
    last mark before, the look that follows sees everything the sender has
    published and that it is gone: the lane is kept or reported as finished,
    never left idle. *)

From stdpp Require Import gmap.
From S2P Require Import Prelude Prog ProgPartial Config Wait Ready YRing Handoff MpscLane Mpsc MpscConc MpscRecvConc MpscReady MpscReadyLane MpscReadyRecv.
Local Open Scope prog_scope.

Lemma yields_and {S A} (p : prog S A) (P P' : A -> Prop) : yields p P -> yields p P' -> yields p (fun a => P a /\ P' a).
Proof. intros H1 H2. induction p as [a|R f c IH|e]; cbn in *; auto. Qed.

Lemma yields_in_and {S A} I (p : prog S A) (P P' : A -> Prop) : yields_in I p P -> yields_in I p P' -> yields_in I p (fun a => P a /\ P' a).
Proof. intros H1 H2. induction p as [a|R f c IH|e]; cbn in *; auto. Qed.

(** ** The last look at a closed ring *)

Section look.
Context {T : Type}.
Implicit Types (c : Consumer) (l : Lane) (k : nat) (t : Z).

Definition ends_at t (r : Ring T) : Prop := ring_ends r = (true, t).

Lemma last_prefetch c t : yields_in (ends_at t) (Consumer_prefetch (T := T) c) (fun r => consumer_cached_tail r.2 = t).
Proof.
  unfold Consumer_prefetch, Consumer_prefetch_after_empty, Ring_prefetch.
  eapply (yields_in_bind _ _ _ (fun r => r.2 = t)); [by intros r [= _ E]|]. intros [count t'] E. cbn [fst snd] in E. subst t'.
  cbn [consumer_head consumer_cached_tail]. destruct (negb _); [done|].
  eapply (yields_in_bind _ _ _ (fun _ => True)); [apply yields_yields_in, yields_true|]. intros reg _. destruct reg; cbn; [|done].
  by intros r [= _ E].
Qed.

Lemma last_disconnected c t : consumer_head c = t -> yields_in (ends_at t) (Consumer_is_disconnected (T := T) c) (fun b => b = true).
Proof. intros E r [= Ed _]. cbn. rewrite Ed. intros r' [= _ Et]. cbn. rewrite E, Et. apply Z.eqb_refl. Qed.

(** The ring of lane [k] in the shared state. *)
Definition lane_ends k t (s : Shared T) : Prop :=
  is_usize t /\ forall hr, zlookup (sh_rings s) (Z.of_nat k) = Some hr -> ring_view hr = (true, t).

Lemma last_on_ring {A B} k t (q : prog (Ring T) A) (f : A -> prog (HRing T) B) (Y : A -> Prop) (Y' : B -> Prop) :
  yields_in (ends_at t) q Y -> (forall a, Y a -> yields_in (fun _ => True) (f a) Y') ->
  yields_in (lane_ends k t) (on_lane_ring (Z.of_nat k) (let* a := on_hring q in f a)) Y'.
Proof.
  intros Hq Hf. eapply (yields_in_focus (fun hr => ring_view hr = (true, t))); [by intros s hr [_ H]; apply H|].
  eapply yields_in_bind; [eapply yields_in_lift; [|exact Hq]; by intros hr H|].
  intros a Ha. specialize (Hf a Ha). clear -Hf. induction (f a) as [b|R g c IH|e]; cbn in *; auto.
Qed.

Lemma last_prefetch_lane k t l : lane_known k l ->
  yields_in (lane_ends k t) (Lane_prefetch (T := T) l)
    (fun l' => exists c, lane_consumer l' = mkRConsumer (Some c) /\ consumer_cached_tail c = t).
Proof.
  intros H. destruct (lk_count _ _ H) as (_ & _ & c & Ec & _). unfold Lane_prefetch. rewrite Ec, (lk_ring _ _ H).
  eapply (yields_in_bind _ _ _ (fun r => exists c', r.2 = mkRConsumer (Some c') /\ consumer_cached_tail c' = t)).
  - eapply last_on_ring; [apply last_prefetch|]. intros [m c'] E. cbn in *. eauto.
  - intros [m c'] (c'' & E & Et). cbn [fst snd] in *. subst c'. cbn. eauto.
Qed.

Lemma last_head c t : is_usize t -> prefetched c 0 -> consumer_cached_tail c = t -> consumer_head c = t.
Proof.
  intros Ht [Hh E] <-. unfold wrapping_sub, wrap in E. apply Z.mod_divide in E as [m E]; [|done]. usize.
Qed.

End look.

Section poll.
Context {T : Type} (n : nat) (pages groups : list Z) (gen : Z) (n_word : Z.of_nat n < usize_mod).
#[local] Abbreviation inv := (ready_inv n pages groups gen).
#[local] Abbreviation rguar := (rguar (T := T) n pages groups gen).
#[local] Abbreviation wlp := (wlp (S := Shared T) tails_ok rguar).
#[local] Abbreviation vstable := (vstable n pages groups gen).
#[local] Abbreviation recv_at := (recv_at n pages groups gen).
Implicit Types (v : rview) (g : rghost) (k : nat) (hd hn wi go : gset nat) (cl zs : gset Z) (pd : list PendingLane) (d : bool) (l : Lane).

(** A lane operation that does not touch the index. *)
Lemma wlp_lane_op {A B} hd hn cl wi go pd zs d (p : prog (Shared T) A) (Y : A -> Prop) (c : A -> prog (Shared T) B) Q x :
  calm_op p Y -> at_view (recv_at hd hn cl wi go pd zs d) x ->
  (forall a y, Y a -> at_view (recv_at hd hn cl wi go pd zs d) y -> wlp 0 (c a) Q y) ->
  wlp 0 (bind p c) Q x.
Proof. intros [H1 H2] Hx H. eapply wlp_calm_call; [exact H1|exact H2|apply recv_stable|apply recv_inv|exact Hx|exact H]. Qed.

Lemma wlp_recv_ret {A} hd hn cl wi go pd zs d (r : A) (Q : A -> Shared T * rghost -> Prop) x :
  at_view (recv_at hd hn cl wi go pd zs d) x -> (forall y, at_view (recv_at hd hn cl wi go pd zs d) y -> Q r y) -> wlp 0 (Ret r) Q x.
Proof. intros Hx H. eapply wlp_ret_view; [apply recv_stable|exact Hx|exact H]. Qed.

(** What a lane that was found empty leaves behind. *)
Definition settled k hd hn cl go pd zs d (o : option EmptyLane) l l' (y : Shared T * rghost) : Prop :=
  lane_known k l' /\
  match o with
  | None => at_view (recv_at hd hn cl ∅ go pd zs d) y /\ queued l' = queued l /\ fast_left l' = 0
  | Some (EmptyKeep _) => at_view (recv_at ({[k]} ∪ hd ∖ {[k]}) hn cl ∅ go pd zs d) y /\ queued l' = queued l
  | Some (EmptyIdle disconnected _) =>
      queued l' = false /\ exists wi, wi ⊆ {[k]} /\ (disconnected = false -> wi = ∅) /\
        at_view (recv_at (hd ∖ {[k]}) hn cl wi go pd zs d) y
  end.

(** The look at the ring after the mark was given back. *)
Definition after_finish (released : bool) l : prog (Shared T) (EmptyLane * Lane) :=
  let* l := Lane_prefetch l in
  let l := set_burst 0 l in
  if negb (cached_available l =? 0) then
    let* _ := on_index (LaneSignal_claim_after_empty (lane_signal l)) in
    Ret (EmptyKeep released, l)
  else
    let l := set_queued false l in
    let* disconnected := on_lane_ring (lane_ring l) (RConsumer_is_disconnected (lane_consumer l)) in
    Ret (EmptyIdle disconnected released, l).

Lemma known_queued k l b : lane_known k l -> lane_known k (set_queued b l).
Proof. intros [H1 H2 H3 H4]. by split. Qed.

Lemma keeps_is_disconnected l : keeps view (on_lane_ring (lane_ring l) (RConsumer_is_disconnected (T := T) (lane_consumer l))).
Proof.
  apply keeps_lane_ring. unfold RConsumer_is_disconnected, with_open. case_match; [|done]. apply keeps_hring, calm_is_disconnected.
Qed.

Lemma wlp_after_finish k released hd hn cl go pd zs d l x :
  lane_known k l -> cached_available l = 0 -> fast_left l = 0 ->
  at_view (recv_at (hd ∖ {[k]}) hn cl ∅ go pd zs d) x ->
  wlp 0 (after_finish released l) (fun r y => settled k hd hn cl go pd zs d (Some r.1) l r.2 y) x.
Proof.
  intros Hl Hc Hf Hx. unfold after_finish. eapply wlp_lane_op; [by apply (calm_prefetch_lane k)|exact Hx|]. clear x Hx.
  intros l1 x (K1 & K2 & K3) Hx. cbn zeta. destruct (Z.eqb_spec (cached_available (set_burst 0 l1)) 0) as [E|E]; cbn [negb].
  - eapply (wlp_lane_op _ _ _ _ _ _ _ _ _ (fun _ => True)); [split; [apply keeps_is_disconnected|apply yields_true]|exact Hx|].
    clear x Hx. intros b x _ Hx. eapply wlp_recv_ret; [exact Hx|]. intros y Hy. split; [by apply known_queued, known_burst|].
    cbn. split; [done|]. exists ∅. split_and!; [apply empty_subseteq|done|exact Hy].
  - cbn [set_burst lane_signal set_counters]. rewrite (lk_signal _ _ K1). eapply wlp_claim; [exact n_word|exact Hx|]. clear x Hx. intros b x Hx.
    eapply wlp_recv_ret; [exact Hx|]. intros y Hy. split; [by apply known_burst|]. cbn.
    by replace (∅ ∖ {[k]}) with (∅ : gset nat) in Hy by set_solver.
Qed.

Lemma wlp_after_final k t released hd hn cl go pd zs d l x :
  lane_known k l -> cached_available l = 0 -> fast_left l = 0 ->
  at_view (fun v g => recv_at (hd ∖ {[k]}) hn cl {[k]} go pd zs d v g /\ final_ring k t v g) x ->
  wlp 0 (after_finish released l) (fun r y => settled k hd hn cl go pd zs d (Some r.1) l r.2 y) x.
Proof.
  intros Hl Hc Hf Hx. set (P := fun v g => recv_at (hd ∖ {[k]}) hn cl {[k]} go pd zs d v g /\ final_ring k t v g) in *.
  assert (HS : vstable 0 P) by (apply vstable_and; [apply recv_stable|apply final_ring_stable]).
  assert (HI : forall v g, P v g -> inv v g) by (intros v g [H _]; by eapply recv_inv).
  assert (HJ : forall (s : Shared T) g, at_view P (s, g) -> tails_ok s -> lane_ends k t s).
  { intros s g [_ [_ Hr]] Ht. cbn in Hr. rewrite list_lookup_fmap in Hr. destruct (sh_rings s !! k) as [hr|] eqn:E; [|done].
    cbn in Hr. injection Hr as Hr1 Hr2. split.
    - unfold tails_ok in Ht. rewrite Forall_lookup in Ht. rewrite <- Hr2. by eapply Ht.
    - intros hr' E'. rewrite zlookup_of_nat, E in E'. injection E' as <-. unfold ring_view. by rewrite Hr1, Hr2. }
  unfold after_finish. eapply wlp_call.
  { eapply (wlp_calm_in _ _ _ _ _ P (lane_ends k t)); [apply keeps_prefetch| |exact HJ|exact HS|exact HI|exact Hx].
    apply yields_in_and; [apply (last_prefetch_lane k t l Hl)|apply yields_yields_in, (calm_prefetch_lane k l Hl Hc Hf)]. }
  clear x Hx. intros l1 x [((c & Ec & Et) & K1 & K2 & K3) Hx] Jx. cbn zeta.
  destruct (Z.eqb_spec (cached_available (set_burst 0 l1)) 0) as [E|E]; cbn [negb].
  - cbn [set_burst set_queued set_counters lane_ring lane_consumer]. rewrite (lk_ring _ _ K1), Ec.
    assert (Eh : consumer_head c = t).
    { destruct x as [s g]. destruct (HJ s g Hx Jx) as [Hu _].
      destruct (lk_count _ _ K1) as (_ & _ & c' & Ec' & Hp). rewrite Ec in Ec'. injection Ec' as <-. cbn in E. rewrite E, K2 in Hp.
      by eapply last_head. }
    eapply wlp_call.
    { eapply (wlp_calm_in _ _ _ _ _ P (lane_ends k t) _ (fun b => b = true)); [|  |exact HJ|exact HS|exact HI|exact Hx].
      - apply keeps_lane_ring. unfold RConsumer_is_disconnected, with_open. cbn [rc_inner]. apply keeps_hring, calm_is_disconnected.
      - unfold RConsumer_is_disconnected, with_open. cbn [rc_inner].
        eapply (yields_in_focus (fun hr => ring_view hr = (true, t))); [by intros s hr [_ H]; apply H|].
        eapply yields_in_lift; [|by apply last_disconnected]. by intros hr H. }
    clear x Hx Jx. intros b x [-> Hx] _. eapply wlp_ret_view; [exact HS|exact Hx|]. intros y [Hy _].
    split; [by apply known_queued, known_burst|]. cbn. split; [done|]. exists {[k]}. split_and!; [done|done|exact Hy].
  - cbn [set_burst lane_signal set_counters]. rewrite (lk_signal _ _ K1). eapply wlp_claim; [exact n_word|exact (proj1 Hx)|]. clear x Hx Jx. intros b x Hx.
    eapply wlp_recv_ret; [exact Hx|]. intros y Hy. split; [by apply known_burst|]. cbn.
    rewrite difference_diag_L in Hy. done.
Qed.

Lemma wlp_settle_empty k hd hn cl go pd zs d l x :
  lane_known k l -> cached_available l = 0 -> fast_left l = 0 ->
  at_view (recv_at hd hn cl ∅ go pd zs d) x ->
  wlp 0 (Lane_settle_empty l) (fun r y => settled k hd hn cl go pd zs d (Some r.1) l r.2 y) x.
Proof.
  intros Hl Hc Hf Hx. unfold Lane_settle_empty.
  eapply (wlp_lane_op _ _ _ _ _ _ _ _ _ (fun r => (lane_known k r.2 /\ fast_left r.2 = 0 /\ queued r.2 = queued l) /\ cached_available r.2 = cached_available l));
    [split; [apply keeps_release_pending|]|exact Hx|].
  { apply yields_and; [by apply calm_release_pending|by apply yields_release_cached]. }
  clear x Hx. intros [released l1] x [(K1 & K2 & K3) K4] Hx. cbn [fst snd] in *. rewrite (lk_signal _ _ K1).
  assert (Hq : forall o l', settled k hd hn cl go pd zs d (Some o) l1 l' = settled k hd hn cl go pd zs d (Some o) l l').
  { intros o l'. unfold settled. by rewrite K3. }
  eapply (wlp_finish _ _ _ _ n_word k); [exact Hx| |]; clear x Hx.
  - intros t x Hx. eapply wlp_mono; [|eapply (wlp_after_final k t released hd _ _ _ _ _ _ l1); [done|congruence|done|exact Hx]].
    intros [o l'] y. cbn. by rewrite Hq.
  - intros x Hx. eapply wlp_mono; [|eapply (wlp_after_finish k released hd _ _ _ _ _ _ l1); [done|congruence|done|exact Hx]].
    intros [o l'] y. cbn. by rewrite Hq.
Qed.

Lemma wlp_refill k hd hn cl go pd zs d l x :
  lane_known k l -> at_view (recv_at hd hn cl ∅ go pd zs d) x ->
  wlp 0 (Lane_refill l) (fun r y => settled k hd hn cl go pd zs d r.1 l r.2 y) x.
Proof.
  intros Hl Hx. unfold Lane_refill. eapply wlp_lane_op; [by apply calm_close_fast|exact Hx|]. clear x Hx. intros l1 x (K1 & K2 & K3) Hx.
  assert (Hdone : forall l' y, lane_known k l' -> queued l' = queued l -> fast_left l' = 0 -> at_view (recv_at hd hn cl ∅ go pd zs d) y ->
    wlp 0 (Ret (None, l')) (fun r y => settled k hd hn cl go pd zs d r.1 l r.2 y) y).
  { intros l' y H1 H2 H3 Hy. eapply wlp_recv_ret; [exact Hy|]. intros z Hz. by split_and!. }
  destruct (Z.eqb_spec (cached_available l1) 0) as [E|E]; [|by apply Hdone].
  eapply wlp_lane_op; [by apply (calm_prefetch_lane k)|exact Hx|]. clear x Hx. intros l2 x (M1 & M2 & M3) Hx.
  destruct (Z.eqb_spec (cached_available l2) 0) as [E'|E']; [|apply Hdone; [done|congruence|done|exact Hx]].
  eapply wlp_call; [by apply (wlp_settle_empty k)|]. clear x Hx. intros [e l3] x Hs _. cbn [fst snd] in Hs.
  assert (Hs' : settled k hd hn cl go pd zs d (Some e) l l3 x) by (unfold settled in *; destruct e; by rewrite M3, K3 in Hs || exact Hs).
  clear Hs. destruct e as [rel|disc rel].
  - destruct Hs' as (H1 & H2 & H3). eapply wlp_recv_ret; [exact H2|]. intros y Hy. by split_and!.
  - destruct Hs' as (H1 & H2 & wi & W1 & W2 & H3). eapply wlp_recv_ret; [exact H3|]. intros y Hy. split; [done|]. cbn. eauto 10.
Qed.

(** What a poll leaves behind. *)
Definition polled k hd hn cl go pd zs d (p : LanePoll T) l l' (y : Shared T * rghost) : Prop :=
  lane_known k l' /\
  match p with
  | PollItem _ _ _ => at_view (recv_at hd hn cl ∅ go pd zs d) y /\ queued l' = queued l
  | PollKeep _ => at_view (recv_at ({[k]} ∪ hd ∖ {[k]}) hn cl ∅ go pd zs d) y /\ queued l' = queued l
  | PollIdle disconnected _ =>
      queued l' = false /\ exists wi, wi ⊆ {[k]} /\ (disconnected = false -> wi = ∅) /\
        at_view (recv_at (hd ∖ {[k]}) hn cl wi go pd zs d) y
  | PollStale => False
  end.

Lemma wlp_lane_poll k fair hd hn cl go pd zs d l x :
  lane_known k l -> at_view (recv_at hd hn cl ∅ go pd zs d) x ->
  wlp 0 (Lane_poll fair l) (fun r y => polled k hd hn cl go pd zs d r.1 l r.2 y) x.
Proof.
  intros Hl Hx. unfold Lane_poll. eapply wlp_call; [by apply (wlp_refill k)|]. clear x Hx. intros [o l1] x [K1 Hx] _. cbn [fst snd] in *.
  destruct o as [[rel|disc rel]|].
  - destruct Hx as [Hx Hq]. eapply wlp_recv_ret; [exact Hx|]. intros y Hy. by split_and!.
  - destruct Hx as (Hq & wi & W1 & W2 & Hx). eapply wlp_recv_ret; [exact Hx|]. intros y Hy. split; [done|]. cbn. eauto 10.
  - destruct Hx as (Hx & Hq & Hf). eapply wlp_lane_op; [by apply (calm_pop_counted k)|exact Hx|]. clear x Hx.
    intros [[value rel] l2] x [M1 M2] Hx. cbn [fst snd] in *. eapply wlp_recv_ret; [exact Hx|]. intros y Hy. cbn [fst snd].
    split; [by case_match; [apply known_burst|]|]. split; [done|]. case_match; cbn; congruence.
Qed.


End poll.
