(* ===== verification/MpscReadyCollect.v ===== *)
(** * The receiver collects ready lanes

    The receiver's private data against the ghost state: every lane it holds a
    mark of is in its list of active lanes, and every lane that is not retired
    is one of its lanes or waits in the registry.  A complete round of
    collecting leaves no mark in the receiver's hand, and if all senders are
    gone it leaves no bit set in any group. *)

From stdpp Require Import gmap.
From S2P Require Import Prelude Prog ProgPartial Config Wait Ready YRing Handoff MpscLane Mpsc MpscConc MpscRecvConc MpscReady MpscReadyLane MpscReadyRecv MpscReadyPoll.
Local Open Scope prog_scope.

Section collect.
Context {T : Type} (n : nat) (pages groups : list Z) (gen : Z) (n_word : Z.of_nat n < usize_mod).
#[local] Abbreviation rguar := (rguar (T := T) n pages groups gen).
#[local] Abbreviation wlp := (wlp (S := Shared T) tails_ok rguar).
#[local] Abbreviation recv_at := (recv_at n pages groups gen).
Implicit Types (v : rview) (g : rghost) (k : nat) (hd hn wi go : gset nat) (cl zs : gset Z) (pd : list PendingLane) (d : bool)
  (l : Lane) (rx : Receiver) (act : list LaneKey).

(** A lane that waits in the registry. *)
Definition waiting_lane k : PendingLane :=
  mkPendingLane (lane_at k) (Z.of_nat k) (Z.of_nat k) (mkRConsumer (Some (mkConsumer 0 0))).

(** The receiver's data; [act] are the lanes it will poll. *)
Record rx_ready hd go pd act rx : Prop := {
  rr_lane : forall k l, rcv_lanes rx !! k = Some (Some l) ->
    (k < n)%nat /\ (k ∉ go) /\ lane_known k l /\ (queued l = true -> k ∈ hd);
  rr_live : forall k, (k < n)%nat -> (k ∉ go) ->
    (exists l, rcv_lanes rx !! k = Some (Some l)) \/ waiting_lane k ∈ pd;
  rr_held : forall k, k ∈ hd -> lane_at k ∈ act /\ exists l, rcv_lanes rx !! k = Some (Some l);
  rr_paused : Forall (eq false) (rcv_paused rx);
  rr_budget : 0 <= items_until_ready_poll rx;
  rr_seen : seen_registry_generation rx = gen -> pd = [] /\ rcv_pages rx = pages /\ rcv_groups rx = groups;
  rr_pending : forall p, p ∈ pd -> exists k, (k < n)%nat /\ (k ∉ go) /\ p = waiting_lane k
}.

Lemma rr_not_paused hd go pd act rx slot : rx_ready hd go pd act rx -> is_paused slot rx = false.
Proof.
  intros H. unfold is_paused, zlookup. destruct (slot <? 0); [done|]. destruct (rcv_paused rx !! Z.to_nat slot) as [b|] eqn:E; [|done].
  pose proof (rr_paused _ _ _ _ _ H) as Hp. rewrite Forall_lookup in Hp. by rewrite <- (Hp _ _ E).
Qed.

(** Fields the argument does not depend on. *)
Lemma rr_same hd go pd act rx rx' :
  rx_ready hd go pd act rx -> rcv_lanes rx' = rcv_lanes rx -> rcv_groups rx' = rcv_groups rx -> rcv_pages rx' = rcv_pages rx ->
  rcv_paused rx' = rcv_paused rx -> seen_registry_generation rx' = seen_registry_generation rx -> 0 <= items_until_ready_poll rx' ->
  rx_ready hd go pd act rx'.
Proof. intros [H1 H2 H3 H4 H5 H6 H7] E1 E2 E3 E4 E5 E6. split; rewrite ?E1, ?E2, ?E3, ?E4, ?E5; auto. Qed.

Lemma rr_more hd go pd act act' rx : rx_ready hd go pd act rx -> act ⊆ act' -> rx_ready hd go pd act' rx.
Proof. intros [H1 H2 H3 H4 H5 H6 H7] Hs. split; auto. intros k Hk. destruct (H3 k Hk) as [? ?]. split; [by apply Hs|done]. Qed.

(** A lane is put back. *)
Lemma rr_put hd hd' go pd act act' rx k l l' :
  rx_ready hd go pd act rx -> rcv_lanes rx !! k = Some (Some l) -> lane_known k l' -> (queued l' = true -> k ∈ hd') ->
  (forall j, j <> k -> j ∈ hd <-> j ∈ hd') -> (forall j, j ∈ hd' -> lane_at j ∈ act') ->
  rx_ready hd' go pd act' (put_lane l' rx).
Proof.
  intros [H1 H2 H3 H4 H5 H6 H7] El Hl Hq Hh Ha. rewrite (put_lane_at k l' rx (lk_key _ _ Hl)).
  pose proof (lookup_lt_Some _ _ _ El) as Hlt. split; auto; cbn.
  - intros j m Ej. destruct (decide (j = k)) as [->|Hne].
    + rewrite list_lookup_insert_eq in Ej by done. injection Ej as <-. destruct (H1 k l El) as (? & ? & _). done.
    + rewrite list_lookup_insert_ne in Ej by done. destruct (H1 j m Ej) as (? & ? & ? & ?). split_and!; auto. intros Hm. apply Hh; auto.
  - intros j Hj Hg. destruct (decide (j = k)) as [->|Hne]; [left; exists l'; by apply list_lookup_insert_eq|].
    rewrite list_lookup_insert_ne by done. auto.
  - intros j Hj. split; [by apply Ha|]. destruct (decide (j = k)) as [->|Hne]; [exists l'; by apply list_lookup_insert_eq|].
    rewrite list_lookup_insert_ne by done. apply (H3 j). by apply Hh.
Qed.

(** ** The registry *)

Lemma rr_extend hd go pd act rx m m' :
  rx_ready hd go pd act rx ->
  rx_ready hd go pd act (set_paused (rcv_paused rx ++ replicate m' false) (set_lanes (rcv_lanes rx ++ replicate m None) rx)).
Proof.
  intros [H1 H2 H3 H4 H5 H6 H7].
  assert (Hl : forall k l, (rcv_lanes rx ++ replicate m None) !! k = Some (Some l) <-> rcv_lanes rx !! k = Some (Some l)).
  { intros k l. split; [|apply lookup_app_l_Some]. intros [E|[_ E]]%lookup_app_Some; [done|]. by apply lookup_replicate in E as [? _]. }
  split; auto; cbn.
  - intros k l E%Hl. auto.
  - intros k Hk Hg. setoid_rewrite Hl. auto.
  - intros k Hk. setoid_rewrite Hl. auto.
  - apply Forall_app. split; [done|]. by apply Forall_replicate.
Qed.

Lemma rr_adopt hd go k pd act rx l :
  rx_ready hd go (waiting_lane k :: pd) act rx -> lane_known k l -> queued l = false -> Z.of_nat k < zlength (rcv_lanes rx) ->
  rx_ready hd go pd act (set_lanes (zinsert (rcv_lanes rx) (Z.of_nat k) (Some l)) (put_paused (Z.of_nat k) false rx)).
Proof.
  intros [H1 H2 H3 H4 H5 H6 H7] Hl Hq Hlen. rewrite zinsert_of_nat. unfold put_paused. rewrite zinsert_of_nat.
  assert (Hlt : (k < length (rcv_lanes rx))%nat) by (unfold zlength in Hlen; lia).
  destruct (H7 (waiting_lane k)) as (k' & Hk & Hg & E); [set_solver|]. injection E as E. apply Nat2Z.inj in E as <-.
  split; auto; cbn.
  - intros j m Ej. destruct (decide (j = k)) as [->|Hne].
    + rewrite list_lookup_insert_eq in Ej by done. injection Ej as <-. split_and!; auto. by rewrite Hq.
    + rewrite list_lookup_insert_ne in Ej by done. auto.
  - intros j Hj Hgj. destruct (decide (j = k)) as [->|Hne]; [left; exists l; by apply list_lookup_insert_eq|].
    rewrite list_lookup_insert_ne by done. destruct (H2 j Hj Hgj) as [?|Hw]; [by left|right].
    apply elem_of_cons in Hw as [E|Hw]; [|done]. injection E as E. lia.
  - intros j Hj. destruct (H3 j Hj) as [Ha (m & Em)]. split; [done|].
    destruct (decide (j = k)) as [->|Hne]; [exists l; by apply list_lookup_insert_eq|]. rewrite list_lookup_insert_ne by done. eauto.
  - by apply Forall_insert.
  - intros E. by destruct (H6 E) as [? _].
  - intros p Hp. apply H7. set_solver.
Qed.

Lemma known_new k capacity :
  lane_known k (mkLane (lane_at k) (Z.of_nat k) (Z.of_nat k) (mkRConsumer (Some (mkConsumer 0 0))) 0 0 capacity 0 0 false).
Proof. clear n_word n. split; try done. cbn. split_and!; try lia. exists (mkConsumer 0 0). by split_and!. Qed.

Lemma keeps_capacity h c : keeps view (on_lane_ring h (RConsumer_capacity (T := T) c)).
Proof. apply keeps_lane_ring. unfold RConsumer_capacity, with_open. case_match; [|done]. apply keeps_hring. by split. Qed.

(** What adopting and collecting leave alone. *)
Definition kept rx rx' : Prop :=
  rcv_active rx' = rcv_active rx /\ items_until_ready_poll rx' = items_until_ready_poll rx /\
  ready_group_cursor rx' = ready_group_cursor rx /\
  rcv_groups rx' = rcv_groups rx /\ rcv_pages rx' = rcv_pages rx /\ seen_registry_generation rx' = seen_registry_generation rx.

Lemma wlp_adopt hd hn cl go zs d act : forall pd rx x,
  rx_ready hd go pd act rx -> at_view (recv_at hd hn cl ∅ go [] zs d) x ->
  wlp 0 (adopt_pending pd rx)
    (fun rx' y => at_view (recv_at hd hn cl ∅ go [] zs d) y /\ rx_ready hd go [] act rx' /\ kept rx rx') x.
Proof.
  induction pd as [|p pd IH]; intros rx x Hr Hx; cbn [adopt_pending].
  - eapply wlp_recv_ret; [exact Hx|]. intros y Hy. by split_and!.
  - destruct (rr_pending _ _ _ _ _ Hr p) as (k & Hk & Hg & ->); [set_solver|]. cbn [waiting_lane pl_key lane_at key_slot].
    set (rx1 := if zlength (rcv_lanes rx) <=? Z.of_nat k then _ else rx).
    assert (Hr1 : rx_ready hd go (waiting_lane k :: pd) act rx1 /\ kept rx rx1 /\ Z.of_nat k < zlength (rcv_lanes rx1)).
    { unfold rx1. destruct (Z.leb_spec (zlength (rcv_lanes rx)) (Z.of_nat k)); [|by split_and!].
      split; [by apply rr_extend|]. split; [by split_and!|]. cbn. unfold zlength in *. rewrite length_app, length_replicate. lia. }
    clearbody rx1. destruct Hr1 as (Hr1 & Hk1 & Hlen).
    assert (Hgo : wlp 0 (let* lane := Lane_new (lane_at k) (Z.of_nat k) (Z.of_nat k) (mkRConsumer (Some (mkConsumer 0 0))) in
      adopt_pending pd (set_lanes (zinsert (rcv_lanes (put_paused (Z.of_nat k) false rx1)) (Z.of_nat k) (Some lane)) (put_paused (Z.of_nat k) false rx1)))
      (fun rx' y => at_view (recv_at hd hn cl ∅ go [] zs d) y /\ rx_ready hd go [] act rx' /\ kept rx rx') x).
    { unfold Lane_new. apply wlp_bind, wlp_bind. eapply wlp_mono; [|eapply wlp_calm; [apply keeps_capacity|apply yields_true|apply recv_stable|apply recv_inv|exact Hx]].
      intros cap y [_ Hy] _. eapply wlp_recv_ret; [exact Hy|]. intros z Hz _. cbn [put_paused rcv_lanes set_paused].
      eapply wlp_mono; [|apply IH; [by apply rr_adopt; [|apply known_new| |]|exact Hz]]. intros rx' w (W1 & W2 & W3). split_and!; [done..|].
      unfold kept in *. cbn in W3. destruct Hk1 as (? & ? & ? & ? & ? & ?), W3 as (? & ? & ? & ? & ? & ?). split_and!; congruence. }
    cbn [waiting_lane pl_signal pl_ring pl_consumer]. destruct (zlookup (rcv_lanes rx1) (Z.of_nat k)) as [[l|]|]; [done|exact Hgo|exact Hgo].
Qed.

(** ** Refreshing *)

Definition refreshed2 rx rx' : Prop :=
  seen_registry_generation rx' = gen /\ rcv_active rx' = rcv_active rx /\
  items_until_ready_poll rx' = items_until_ready_poll rx /\ ready_group_cursor rx' = ready_group_cursor rx.

Lemma wlp_refresh hd hn cl go pd zs d act rx x :
  rx_ready hd go pd act rx -> at_view (recv_at hd hn cl ∅ go pd zs d) x ->
  wlp 0 (Receiver_refresh_registry rx)
    (fun rx' y => at_view (recv_at hd hn cl ∅ go [] zs d) y /\ rx_ready hd go [] act rx' /\ refreshed2 rx rx') x.
Proof.
  intros Hr Hx. unfold Receiver_refresh_registry.
  eapply (wlp_recv_load _ _ _ _ _ (fun _ _ z => z = gen)); [|exact Hx|].
  { intros s g H. by destruct (tp_registry _ _ _ _ _ (ri_topo _ _ _ _ _ _ (recv_inv _ _ _ _ _ _ _ _ _ _ _ _ _ _ H))) as (_ & _ & E). }
  clear x Hx. intros z x Hx ->. destruct (Z.eqb_spec gen (seen_registry_generation rx)) as [E|E].
  - destruct (rr_seen _ _ _ _ _ Hr (eq_sym E)) as (-> & _). eapply wlp_recv_ret; [exact Hx|]. intros y Hy. by split_and!.
  - eapply wlp_take_pending; [exact Hx|]. clear x Hx. intros x Hx.
    eapply wlp_call; [apply (wlp_adopt hd hn cl go zs d act pd); [|exact Hx]|].
    { destruct Hr as [H1 H2 H3 H4 H5 H6 H7]. split; auto. cbn. intros E'. by rewrite E' in E. }
    clear x Hx. intros rx1 x (Hx & Hr1 & Hk) _. cbn in Hk. destruct Hk as (K1 & K2 & K3 & K4 & K5 & K6).
    eapply wlp_recv_ret; [exact Hx|]. intros y Hy. split; [done|]. split; [|by split_and!].
    destruct Hr1 as [H1 H2 H3 H4 H5 H6 H7]. split; auto.
Qed.

(** ** The bits of a word one by one *)

(** [x & (x - 1)] keeps the other bits. *)
Lemma clear_lowest_keeps x t i :
  0 <= t -> Z.testbit x t = true -> (forall i, 0 <= i < t -> Z.testbit x i = false) -> t < i ->
  Z.testbit (Z.land x (x - 1)) i = Z.testbit x i.
Proof.
  intros Ht H1 H2 Hi. assert (Em : x mod 2 ^ (t + 1) = 2 ^ t).
  { apply Z.bits_inj'. intros m Hm. rewrite Z.pow2_bits_eqb by done. destruct (Z.lt_trichotomy t m) as [Hl|[->|Hl]].
    - rewrite Z.mod_pow2_bits_high by lia. symmetry. apply Z.eqb_neq. lia.
    - rewrite Z.mod_pow2_bits_low by lia. by rewrite H1, Z.eqb_refl.
    - rewrite Z.mod_pow2_bits_low by lia. rewrite H2 by lia. symmetry. apply Z.eqb_neq. lia. }
  assert (Hp : 0 < 2 ^ t) by (by apply Z.pow_pos_nonneg). assert (Hp' : 2 ^ (t + 1) = 2 * 2 ^ t) by (rewrite Z.pow_add_r by lia; lia).
  assert (Ed : (x - 1) / 2 ^ (t + 1) = x / 2 ^ (t + 1)).
  { symmetry. apply (Z.div_unique _ _ _ (2 ^ t - 1)); [lia|]. pose proof (Z.div_mod x (2 ^ (t + 1)) ltac:(lia)). lia. }
  assert (Eb : forall z, Z.testbit z i = Z.testbit (z / 2 ^ (t + 1)) (i - (t + 1))).
  { intros z. rewrite <- Z.shiftr_div_pow2 by lia. rewrite Z.shiftr_spec by lia. f_equal. lia. }
  rewrite Z.land_spec, (Eb (x - 1)), Ed, <- Eb. apply andb_diag.
Qed.

(** One round of a loop over the bits of a word. *)
Lemma next_bit x : is_u64 x -> x <> 0 ->
  0 <= trailing_zeros x < 64 /\ Z.testbit x (trailing_zeros x) = true /\ is_u64 (Z.land x (x - 1)) /\
  forall i, 0 <= i -> Z.testbit (Z.land x (x - 1)) i = true <-> Z.testbit x i = true /\ i <> trailing_zeros x.
Proof.
  intros Hx Hne. destruct (trailing_zeros_spec x Hx Hne) as (T1 & T2 & T3).
  destruct (clear_lowest x _ Hx (proj1 T1) T2 T3) as [Hu Hlow]. split_and!; [lia|lia|done|apply Hu|]. intros i Hi.
  destruct (Z.lt_trichotomy i (trailing_zeros x)) as [Hl|[->|Hl]].
  - rewrite Hlow, T3 by lia. split; [done|by intros [? _]].
  - rewrite Hlow by lia. split; [done|by intros [_ ?]].
  - rewrite (clear_lowest_keeps x (trailing_zeros x)) by (done || lia). split; [|by intros [? _]]. intros. split; [done|lia].
Qed.

Lemma lanes_of_zero i : lanes_of n i 0 = ∅.
Proof. apply elem_of_equiv_empty_L. intros k (_ & _ & H)%elem_of_lanes. by rewrite Z.testbit_0_l in H. Qed.

Lemma claims_zero i : claims pages i 0 = ∅.
Proof.
  apply elem_of_equiv_empty_L. intros k (_ & H & _)%elem_of_claims. by rewrite Z.testbit_0_l in H.
Qed.

Lemma lane_of_slot i b k : 0 <= b < 64 -> lane_page k = i /\ lane_bit k = b <-> Z.of_nat k = i * LANES_PER_PAGE + b.
Proof.
  intros Hb. unfold lane_page, lane_bit, LANES_PER_PAGE. split.
  - intros [<- <-]. pose proof (Z.div_mod (Z.of_nat k) 64). lia.
  - intros ->. split; [symmetry; apply (Z.div_unique _ _ _ b)|symmetry; apply (Z.mod_unique _ _ i)]; lia.
Qed.

(** The lanes of a word without its lowest bit. *)
Lemma lanes_next i x k :
  is_u64 x -> x <> 0 -> Z.of_nat k = i * LANES_PER_PAGE + trailing_zeros x ->
  lanes_of n i (Z.land x (x - 1)) = lanes_of n i x ∖ {[k]}.
Proof.
  intros Hx Hne Ek. destruct (next_bit x Hx Hne) as (B1 & B2 & B3 & B4). apply lane_of_slot in Ek as [E1 E2]; [|done].
  apply set_eq. intros j. rewrite elem_of_difference, !elem_of_lanes, not_elem_of_singleton, (B4 _ (proj1 (lane_bit_range j))). split.
  - intros (? & ? & ? & Hb). split; [done|]. intros ->. done.
  - intros [(? & Ej & ?) Hb]. split_and!; try done. intros Hj. apply Hb. apply lane_inj; congruence.
Qed.

(** What collecting leaves alone. *)
Definition collected2 rx rx' : Prop :=
  items_until_ready_poll rx' = items_until_ready_poll rx /\ seen_registry_generation rx' = gen.

Lemma wlp_collect_lanes i cl go zs d fuel : forall w rx hd x,
  0 <= i -> is_u64 w -> seen_registry_generation rx = gen -> rx_ready hd go [] (rcv_active rx) rx ->
  at_view (recv_at hd (lanes_of n i w ∖ go) cl ∅ go [] zs d) x ->
  wlp 0 (collect_lanes fuel i w rx)
    (fun rx' y => exists hd', at_view (recv_at hd' ∅ cl ∅ go [] zs d) y /\ rx_ready hd' go [] (rcv_active rx') rx' /\ collected2 rx rx') x.
Proof.
  induction fuel as [|fuel IH]; intros w rx hd x Hi Hw Hs Hr Hx; cbn [collect_lanes]; (destruct (Z.eqb_spec w 0) as [->|Hne];
    [rewrite lanes_of_zero in Hx; replace (∅ ∖ go) with (∅ : gset nat) in Hx by set_solver; eapply wlp_recv_ret; [exact Hx|];
     intros y Hy; exists hd; by split_and!|]); [done|].
  destruct (next_bit w Hw Hne) as (B1 & _ & B3 & _). set (slot := i * LANES_PER_PAGE + trailing_zeros w).
  assert (Es : Z.of_nat (Z.to_nat slot) = slot) by (unfold slot, LANES_PER_PAGE; lia). set (k := Z.to_nat slot) in *. clearbody k.
  pose proof (lanes_next i w k Hw Hne Es) as En. fold slot in Es |- *. clearbody slot. subst slot. rewrite get_lane_at.
  destruct (rcv_lanes rx !! k) as [[l|]|] eqn:El.
  2, 3: apply (IH _ rx hd); try done; rewrite En; replace ((lanes_of n i w ∖ {[k]}) ∖ go) with (lanes_of n i w ∖ go); [done|];
    apply set_eq; intros j; rewrite !elem_of_difference, elem_of_singleton; split; [|tauto]; intros [Hj Hg]; split_and!; try done; intros ->;
    destruct (rr_live _ _ _ _ _ Hr k) as [(l & El')|Hp]; [by apply elem_of_lanes in Hj as (? & _)|done|congruence|set_solver].
  destruct (rr_lane _ _ _ _ _ Hr _ _ El) as (Hk & Hg & Hl & Hq). rewrite (rr_not_paused _ _ _ _ _ _ Hr), (lk_signal _ _ Hl).
  eapply wlp_bind, wlp_look; [exact n_word|exact Hx|]. clear x Hx. intros b x Hx.
  assert (Hgo : forall rx' hd', rx_ready hd' go [] (rcv_active rx') rx' -> seen_registry_generation rx' = gen ->
    items_until_ready_poll rx' = items_until_ready_poll rx -> hd' = (if b then {[k]} ∪ hd else hd) ->
    wlp 0 (Ret rx') (fun a y => tails_ok y.1 -> wlp 0 (collect_lanes fuel i (Z.land w (w - 1)) a)
      (fun rx' y => exists hd', at_view (recv_at hd' ∅ cl ∅ go [] zs d) y /\ rx_ready hd' go [] (rcv_active rx') rx' /\ collected2 rx rx') y) x).
  { intros rx' hd' Hr' Hs' Hb' ->. eapply wlp_recv_ret; [exact Hx|]. intros y Hy _. eapply wlp_mono; [|eapply (IH _ rx'); [done|done|done|exact Hr'|]].
    - intros rx2 z (hd2 & Z1 & Z2 & Z3 & Z4). exists hd2. split; [done|]. split; [done|]. split; congruence.
    - rewrite En. replace ((lanes_of n i w ∖ {[k]}) ∖ go) with ((lanes_of n i w ∖ go) ∖ {[k]}) by set_solver. exact Hy. }
  destruct b; cbn [andb]; [|by eapply Hgo]. destruct (queued l) eqn:Eq; cbn [negb].
  - eapply Hgo; [|done..]. replace ({[k]} ∪ hd) with hd by set_solver. done.
  - eapply Hgo; [|done..]. rewrite (lk_key _ _ Hl). eapply (rr_same _ _ _ _ (put_lane (set_queued true l) rx)); [|done..|apply Hr].
    eapply (rr_put hd _ _ _ _ _ rx k l); [exact Hr|exact El|by apply known_queued|set_solver|set_solver|].
    intros j Hj. cbn. apply elem_of_union in Hj as [->%elem_of_singleton|Hj]; [set_solver|]. apply elem_of_app. left. by apply (rr_held _ _ _ _ _ Hr).
Qed.


Lemma page_of_slot gi b i : 0 <= b < 64 -> i / PAGES_PER_GROUP = gi /\ i mod PAGES_PER_GROUP = b <-> i = gi * PAGES_PER_GROUP + b.
Proof.
  intros Hb. unfold PAGES_PER_GROUP. split.
  - intros [<- <-]. pose proof (Z.div_mod i 64). lia.
  - intros ->. split; [symmetry; apply (Z.div_unique _ _ _ b)|symmetry; apply (Z.mod_unique _ _ gi)]; lia.
Qed.

Lemma claims_next gi x i :
  is_u64 x -> x <> 0 -> i = gi * PAGES_PER_GROUP + trailing_zeros x ->
  claims pages gi (Z.land x (x - 1)) = claims pages gi x ∖ {[i]}.
Proof.
  intros Hx Hne Ei. destruct (next_bit x Hx Hne) as (B1 & B2 & B3 & B4). apply page_of_slot in Ei as [E1 E2]; [|done].
  apply set_eq. intros j. assert (Hj : 0 <= j mod PAGES_PER_GROUP < 64) by (apply Z.mod_pos_bound; done).
  rewrite elem_of_difference, !elem_of_claims, not_elem_of_singleton, (B4 _ (proj1 Hj)). split.
  - intros (? & [? Hb] & ?). split; [done|]. intros ->. done.
  - intros [(Ej & ? & ?) Hb]. split_and!; try done. intros E. apply Hb.
    rewrite (proj1 (page_of_slot gi (trailing_zeros x) j B1)), (proj1 (page_of_slot gi (trailing_zeros x) i B1)); done.
Qed.

Lemma wlp_collect_pages gi go zs d fuel : forall w rx hd x,
  is_u64 w -> seen_registry_generation rx = gen -> rx_ready hd go [] (rcv_active rx) rx ->
  at_view (recv_at hd ∅ (claims pages gi w) ∅ go [] zs d) x ->
  wlp 0 (collect_pages fuel gi w rx)
    (fun rx' y => exists hd', at_view (recv_at hd' ∅ ∅ ∅ go [] zs d) y /\ rx_ready hd' go [] (rcv_active rx') rx' /\ collected2 rx rx') x.
Proof.
  induction fuel as [|fuel IH]; intros w rx hd x Hw Hs Hr Hx; cbn [collect_pages]; (destruct (Z.eqb_spec w 0) as [->|Hne];
    [rewrite claims_zero in Hx; eapply wlp_recv_ret; [exact Hx|]; intros y Hy; exists hd; by split_and!|]); [done|].
  destruct (next_bit w Hw Hne) as (_ & _ & B3 & _). set (i := gi * PAGES_PER_GROUP + trailing_zeros w).
  pose proof (claims_next gi w i Hw Hne eq_refl) as En. clearbody i.
  assert (Hgo : forall rx' hd' y, rx_ready hd' go [] (rcv_active rx') rx' -> collected2 rx rx' ->
    at_view (recv_at hd' ∅ (claims pages gi (Z.land w (w - 1))) ∅ go [] zs d) y ->
    wlp 0 (collect_pages fuel gi (Z.land w (w - 1)) rx')
      (fun rx' y => exists hd', at_view (recv_at hd' ∅ ∅ ∅ go [] zs d) y /\ rx_ready hd' go [] (rcv_active rx') rx' /\ collected2 rx rx') y).
  { intros rx' hd' y Hr' [C1 C2] Hy. eapply wlp_mono; [|eapply (IH _ rx'); [done|done|exact Hr'|exact Hy]].
    intros rx2 z (hd2 & Z1 & Z2 & Z3 & Z4). exists hd2. split; [done|]. split; [done|]. split; congruence. }
  eapply wlp_call; [by eapply wlp_refresh|]. clear x Hx. intros rx1 x (Hx & Hr1 & R1 & R2 & R3 & R4) _.
  destruct (rr_seen _ _ _ _ _ Hr1 R1) as (_ & Ep & _). rewrite Ep. rewrite <- R2 in Hr1.
  destruct (zlookup pages i) as [h|] eqn:Eh.
  - eapply wlp_take_page; [exact n_word|exact Eh|exact Hx|]. clear x Hx. intros w' x Hw' Hx. rewrite union_empty_r_L, <- En in Hx.
    eapply wlp_call; [by eapply wlp_refresh|]. clear x Hx. intros rx2 x (Hx & Hr2 & Q1 & Q2 & Q3 & Q4) _. rewrite <- Q2 in Hr2.
    eapply wlp_call; [eapply wlp_collect_lanes; [|exact Hw'|exact Q1|exact Hr2|exact Hx]|].
    { pose proof (zlookup_Some_range _ _ _ Eh). lia. }
    clear x Hx. intros rx3 x (hd3 & Hx & Hr3 & C1 & C2) _. eapply Hgo; [exact Hr3| |exact Hx]. split; [congruence|done].
  - eapply Hgo; [exact Hr1|by split|]. rewrite En. replace (claims pages gi w ∖ {[i]}) with (claims pages gi w); [exact Hx|].
    apply set_eq. intros j. rewrite elem_of_difference, elem_of_singleton. split; [|tauto]. intros Hj. split; [done|]. intros ->.
    apply elem_of_claims in Hj as (_ & _ & [? ?]). congruence.
Qed.

(** ** The groups in a circle *)

Definition every_group : gset Z := list_to_set (seqZ 0 (zlength groups)).

Lemma recv_at_fewer hd hn cl wi go pd zs zs' d v g :
  recv_at hd hn cl wi go pd zs d v g -> zs' ⊆ zs -> recv_at hd hn cl wi go pd zs' d v g.
Proof. clear n_word. intros [H1 H2 H3 H4] Hs. split; [done..|]. intros Hd. destruct (H4 Hd) as [Hdo Hz]. split; [done|]. intros i Hi. apply Hz. set_solver. Qed.

(** The first group a round visits. *)
Definition first_group (c : Z) : Z := if c <? zlength groups then c else 0.

Definition round_done (all : bool) hd' zs zs' go d rx rx' (y : Shared T * rghost) : Prop :=
  at_view (recv_at hd' ∅ ∅ ∅ go [] zs' d) y /\ rx_ready hd' go [] (rcv_active rx') rx' /\ collected2 rx rx' /\ zs ⊆ zs'.

Lemma wlp_collect_groups all go d m : forall c rx hd zs x,
  seen_registry_generation rx = gen -> rx_ready hd go [] (rcv_active rx) rx -> at_view (recv_at hd ∅ ∅ ∅ go [] zs d) x ->
  wlp 0 (collect_groups m (zlength groups) c all rx)
    (fun rx' y => exists hd' zs', round_done all hd' zs zs' go d rx rx' y /\
       (all = true -> forall j, (j < m)%nat -> (first_group c + Z.of_nat j) mod zlength groups ∈ zs')) x.
Proof.
  induction m as [|m IH]; intros c rx hd zs x Hs Hr Hx; cbn [collect_groups].
  { eapply wlp_recv_ret; [exact Hx|]. intros y Hy. exists hd, zs. split; [by split_and!|]. intros; lia. }
  fold (first_group c). destruct (rr_seen _ _ _ _ _ Hr Hs) as (_ & _ & Eg). rewrite Eg. set (gi := first_group c).
  destruct (zlookup groups gi) as [gh|] eqn:Eh; [|done]. pose proof (zlookup_Some_range _ _ _ Eh) as Hgi. change (Z.of_nat (length groups)) with (zlength groups) in Hgi.
  assert (Hgo : forall rx' hd' y, rx_ready hd' go [] (rcv_active rx') rx' -> collected2 rx rx' ->
    at_view (recv_at hd' ∅ ∅ ∅ go [] ({[gi]} ∪ zs) d) y ->
    wlp 0 (collect_groups m (zlength groups) (gi + 1) all rx')
      (fun rx' y => exists hd' zs', round_done all hd' zs zs' go d rx rx' y /\
         (all = true -> forall j, (j < S m)%nat -> (gi + Z.of_nat j) mod zlength groups ∈ zs')) y).
  { intros rx' hd' y Hr' [C1 C2] Hy. eapply wlp_mono; [|eapply (IH _ rx'); [done|exact Hr'|exact Hy]].
    intros rx2 z (hd2 & zs2 & (Z1 & Z2 & [Z3 Z4] & Z5) & Z6). exists hd2, zs2. split; [split_and!; [done|done|split; congruence|set_solver]|].
    intros Ha [|j] Hj; [rewrite Z.add_0_r, Z.mod_small by lia; set_solver|]. specialize (Z6 Ha j ltac:(lia)).
    replace ((gi + Z.of_nat (S j)) mod zlength groups) with ((first_group (gi + 1) + Z.of_nat j) mod zlength groups); [done|].
    unfold first_group. destruct (Z.ltb_spec (gi + 1) (zlength groups)); [f_equal; lia|].
    replace (gi + Z.of_nat (S j)) with (0 + Z.of_nat j + 1 * zlength groups) by lia. by rewrite Z.mod_add by lia. }
  eapply wlp_has_ready; [exact Eh|exact Hx|]. clear x Hx. intros [] x Hx; cbn [negb]; [|by eapply Hgo].
  eapply wlp_take_all; [exact n_word|exact Eh|exact Hx|]. clear x Hx. intros w x Hw Hx. rewrite union_empty_r_L in Hx.
  destruct (Z.eqb_spec w 0) as [->|Hne]; [rewrite claims_zero in Hx; by eapply Hgo|].
  eapply wlp_call; [by eapply wlp_collect_pages|]. clear x Hx. intros rx1 x (hd1 & Hx & Hr1 & C1 & C2) _.
  assert (Hr2 : rx_ready hd1 go [] (rcv_active (set_group_cursor (gi + 1) rx1)) (set_group_cursor (gi + 1) rx1)).
  { eapply rr_same; [exact Hr1|done..|apply Hr1]. }
  destruct all; cbn [negb]; [eapply Hgo; [exact Hr2|by split|exact Hx]|]. eapply wlp_recv_ret; [exact Hx|]. intros y Hy.
  exists hd1, ({[gi]} ∪ zs). split; [split_and!; [done|done|by split|set_solver]|done].
Qed.

(** A round: the receiver has nothing in its hand afterwards; a complete round
    without senders leaves no bit in any group. *)
Lemma wlp_collect_ready all hd go pd d rx x :
  rx_ready hd go pd (rcv_active rx) rx -> at_view (recv_at hd ∅ ∅ ∅ go pd ∅ d) x ->
  wlp 0 (Receiver_collect_ready all rx)
    (fun rx' y => exists hd', at_view (recv_at hd' ∅ ∅ ∅ go [] (if all : bool then every_group else ∅) d) y /\
       rx_ready hd' go [] (rcv_active rx') rx' /\ collected2 rx rx') x.
Proof.
  intros Hr Hx. unfold Receiver_collect_ready. eapply wlp_call; [by eapply wlp_refresh|]. clear x Hx.
  intros rx1 x (Hx & Hr1 & R1 & R2 & R3 & R4) _. destruct (rr_seen _ _ _ _ _ Hr1 R1) as (_ & _ & Eg). rewrite Eg. rewrite <- R2 in Hr1.
  eapply wlp_mono; [|by eapply wlp_collect_groups]. intros rx2 y (hd2 & zs2 & (Hy & Hr2 & [C1 C2] & _) & Ha). exists hd2.
  split; [|split; [done|split; congruence]]. eapply recv_at_fewer; [exact Hy|]. destruct all; [|set_solver]. intros i Hi.
  apply elem_of_list_to_set, elem_of_seqZ in Hi. set (c := first_group (ready_group_cursor rx1)) in *.
  specialize (Ha eq_refl (Z.to_nat ((i - c) mod zlength groups))). pose proof (Z.mod_pos_bound (i - c) (zlength groups) ltac:(lia)).
  rewrite Z2Nat.id, Zplus_mod_idemp_r in Ha by lia. replace (c + (i - c)) with i in Ha by lia.
  rewrite (Z.mod_small i) in Ha by lia. apply Ha. lia.
Qed.


End collect.
