(* ===== verification/MpscReadyTake.v ===== *)
(** * Without senders the receiver never sees an empty channel

    The operations of the receiver against the invariant of MpscReady.  When
    every sender has made its last mark and left, a receive that finds no
    active lane after a complete round knows that every lane is retired: it
    reports the channel as disconnected, not as empty. *)

From stdpp Require Import gmap.
From S2P Require Import Prelude Prog ProgPartial Config Wait Ready YRing Handoff MpscLane Mpsc MpscConc MpscRecvConc MpscReady MpscReadyLane MpscReadyRecv MpscReadyPoll MpscReadyCollect.
Local Open Scope prog_scope.

Section take.
Context {T : Type} (n : nat) (pages groups : list Z) (gen : Z) (n_word : Z.of_nat n < usize_mod).
#[local] Abbreviation inv := (ready_inv n pages groups gen).
#[local] Abbreviation rguar := (rguar (T := T) n pages groups gen).
#[local] Abbreviation wlp := (wlp (S := Shared T) tails_ok rguar).
#[local] Abbreviation recv_at := (recv_at n pages groups gen).
#[local] Abbreviation rx_ready := (rx_ready n pages groups gen).
#[local] Abbreviation every_group := (every_group groups).
Implicit Types (v : rview) (g : rghost) (k : nat) (hd hn wi go : gset nat) (cl zs : gset Z) (pd : list PendingLane) (d : bool)
  (l : Lane) (rx : Receiver) (act : list LaneKey).

(** ** Retiring a lane *)

Lemma rr_retire hd go act rx k :
  rx_ready hd go [] act rx -> (k ∉ hd) ->
  rx_ready hd ({[k]} ∪ go) [] act (put_paused (Z.of_nat k) false (set_lanes (zinsert (rcv_lanes rx) (Z.of_nat k) None) rx)).
Proof.
  intros [H1 H2 H3 H4 H5 H6 H7] Hk. unfold put_paused. rewrite !zinsert_of_nat. split; auto; cbn.
  - intros j m Ej. destruct (decide (j = k)) as [->|Hne].
    + apply list_lookup_insert_Some in Ej as [(_ & ? & _)|[? _]]; done.
    + rewrite list_lookup_insert_ne in Ej by done. destruct (H1 j m Ej) as (? & ? & ? & ?). split_and!; auto. set_solver.
  - intros j Hj Hg. assert (Hne : j <> k) by set_solver. rewrite list_lookup_insert_ne by done. apply H2; [done|set_solver].
  - intros j Hj. assert (Hne : j <> k) by set_solver. rewrite list_lookup_insert_ne by done. auto.
  - by apply Forall_insert.
  - intros p Hp. by apply elem_of_nil in Hp.
Qed.

Lemma keeps_consumer_drop h c : keeps view (on_lane_ring h (RConsumer_drop (T := T) Deferred c)).
Proof.
  apply keeps_lane_ring. unfold RConsumer_drop, RConsumer_close. case_match; [|done]. apply keeps_bind; [|done].
  apply keeps_bind; [|intros _]; apply keeps_hring; [|apply calm_consumer_drop]. apply calm_consumer_drop.
Qed.

Lemma wlp_retire_lane k hd wi go zs d act rx l x :
  rx_ready hd go [] act rx -> rcv_lanes rx !! k = Some (Some l) -> (k ∉ hd) -> wi ⊆ {[k]} ->
  at_view (recv_at hd ∅ ∅ wi go [] zs d) x ->
  wlp 0 (Receiver_retire_lane Deferred (lane_at k) rx)
    (fun rx' y => at_view (recv_at hd ∅ ∅ ∅ ({[k]} ∪ go) [] zs d) y /\ rx_ready hd ({[k]} ∪ go) [] act rx' /\
       rcv_active rx' = rcv_active rx /\ seen_registry_generation rx' = seen_registry_generation rx) x.
Proof.
  intros Hr El Hk Hwi Hx. unfold Receiver_retire_lane. cbn [lane_at key_slot]. rewrite get_lane_at, El.
  destruct (rr_lane _ _ _ _ _ _ _ _ _ Hr _ _ El) as (Hn & Hg & Hl & _). rewrite (lk_key _ _ Hl). unfold LaneKey_eqb. rewrite !Z.eqb_refl. cbn [negb andb].
  eapply wlp_retire_counts; [exact n_word|exact Hn|exact Hg|exact Hx|]. clear x Hx. intros x Hx.
  replace (wi ∖ {[k]}) with (∅ : gset nat) in Hx by set_solver.
  eapply wlp_retire_slot; [exact Hx|]. clear x Hx. intros x Hx.
  eapply wlp_lane_op; [split; [apply keeps_consumer_drop|apply yields_true]|exact Hx|]. clear x Hx. intros c x _ Hx.
  eapply wlp_recv_ret; [exact Hx|]. intros y Hy. split; [exact Hy|]. split; [by apply rr_retire|done].
Qed.

(** ** Drained *)

(** After a complete round without senders every lane is retired. *)
Lemma all_gone go v g :
  recv_at ∅ ∅ ∅ ∅ go [] every_group true v g -> go = set_seq 0 n /\ v_registered v = 0 /\ v_live v = 0.
Proof.
  intros Hp. pose proof Hp as [Hi _ _ Hd]. destruct (Hd eq_refl) as [Hdo Hz]. clear Hd.
  destruct (recv_ghosts_eq _ _ _ _ _ _ _ _ _ _ _ _ _ _ Hp) as (E1 & E2 & E3 & E4 & E5).
  assert (Hgo : go = set_seq 0 n).
  { apply set_eq. intros k. split.
    - destruct (ri_registered _ _ _ _ _ _ Hi) as [_ Hs]. rewrite E5 in Hs. apply Hs.
    - intros Hk%elem_of_set_seq. assert (Hk' : (k < n)%nat) by lia. destruct (decide (k ∈ go)) as [|Hg]; [done|exfalso].
      destruct (Hdo k Hk') as (D1 & D2 & D3 & D4).
      assert (Hw : sig_word v k <> IDLE).
      { intros Hw. pose proof (ri_final _ _ _ _ _ _ Hi k Hk' D1) as Hf. rewrite E4, E5 in Hf. set_solver. }
      destruct (ri_lane _ _ _ _ _ _ Hi k Hk' Hw) as [?|[?|[?|[?|Hb]]]]; [set_solver..|].
      assert (Hpw : page_word pages v (lane_page k) <> 0) by (intros E; by rewrite E, Z.testbit_0_l in Hb).
      destruct (ri_page _ _ _ _ _ _ Hi _ Hpw) as [?|[(j & Hj & _)|Hb']]; [set_solver| |].
      + by apply (Hdo j (ri_small _ _ _ _ _ _ Hi j Hj)).
      + assert (Ez : group_word groups v (lane_page k / PAGES_PER_GROUP) = 0); [|by rewrite Ez, Z.testbit_0_l in Hb'].
        destruct (zlookup groups (lane_page k / PAGES_PER_GROUP)) as [h|] eqn:Eh; [|unfold group_word; by rewrite Eh].
        apply Hz. pose proof (zlookup_Some_range _ _ _ Eh) as Hr. apply elem_of_list_to_set, elem_of_seqZ. unfold zlength in *. lia. }
  split; [done|]. destruct (ri_registered _ _ _ _ _ _ Hi) as [-> _]. destruct (ri_live _ _ _ _ _ _ Hi) as [-> Hs].
  replace (rg_left g) with (set_seq 0 n : gset nat).
  - rewrite E5, Hgo, size_set_seq. lia.
  - apply set_eq. intros k. split; [|apply Hs]. intros Hk%elem_of_set_seq. apply (Hdo k). lia.
Qed.

Lemma no_paused_retired rx : Forall (eq false) (rcv_paused rx) -> forall m slot, retire_paused_from (T := T) Deferred m slot rx = Ret rx.
Proof.
  intros H. assert (Hp : forall slot, is_paused slot rx = false).
  { intros slot. unfold is_paused, zlookup. destruct (slot <? 0); [done|]. destruct (rcv_paused rx !! Z.to_nat slot) as [b|] eqn:E; [|done].
    rewrite Forall_lookup in H. by rewrite <- (H _ _ E). }
  induction m as [|m IH]; intros slot; [done|]. cbn. destruct (get_lane slot rx); [rewrite Hp|]; cbn; apply IH.
Qed.

Lemma wlp_is_drained hd hn cl wi go pd zs d rx x :
  Forall (eq false) (rcv_paused rx) -> at_view (recv_at hd hn cl wi go pd zs d) x ->
  wlp 0 (Receiver_is_drained Deferred rx)
    (fun r y => r.2 = rx /\ at_view (recv_at hd hn cl wi go pd zs d) y /\
       ((forall v g, recv_at hd hn cl wi go pd zs d v g -> v_registered v = 0 /\ v_live v = 0) -> r.1 = true)) x.
Proof.
  intros Hp Hx. unfold Receiver_is_drained, Receiver_is_disconnected.
  set (all := forall v g, recv_at hd hn cl wi go pd zs d v g -> v_registered v = 0 /\ v_live v = 0).
  apply wlp_bind. eapply (wlp_recv_load _ _ _ _ sh_live_senders (fun _ _ z => all -> z = 0)); [|exact Hx|].
  { intros s g H Ha. by destruct (Ha _ _ H). }
  clear x Hx. intros z x Hx Hz. eapply wlp_recv_ret; [exact Hx|]. clear x Hx. intros x Hx _. destruct (Z.eqb_spec z 0) as [->|Hne]; cbn [negb].
  - eapply (wlp_recv_load _ _ _ _ sh_registered_lanes (fun _ _ _ => True)); [done|exact Hx|]. clear x Hx. intros m x Hx _.
    assert (E : (if negb (m =? 0) then Receiver_retire_empty_paused_lanes (T := T) Deferred rx else Ret rx) = Ret rx).
    { destruct (negb _); [|done]. by apply no_paused_retired. }
    rewrite E. cbn [bind]. eapply (wlp_recv_load _ _ _ _ sh_registered_lanes (fun _ _ z => all -> z = 0)); [|exact Hx|].
    { intros s g H Ha. by destruct (Ha _ _ H). }
    clear x Hx. intros r x Hx Hr. eapply wlp_recv_ret; [exact Hx|]. intros y Hy. split; [done|]. split; [done|]. intros Ha. cbn. by rewrite (Hr Ha).
  - eapply wlp_recv_ret; [exact Hx|]. intros y Hy. split; [done|]. split; [done|]. intros Ha. by apply Hz in Ha.
Qed.

(** ** Between operations *)

(** The receiver holds no mark in its hand; [act] are the lanes it will poll. *)
Definition quiet_view d act rx v g : Prop :=
  exists hd go pd, recv_at hd ∅ ∅ ∅ go pd ∅ d v g /\ rx_ready hd go pd act rx /\ (act <> [] -> seen_registry_generation rx = gen).
Definition quiet d act rx (x : Shared T * rghost) : Prop := at_view (quiet_view d act rx) x.

Lemma quiet_stable d act rx : vstable n pages groups gen 0 (quiet_view d act rx).
Proof. intros b v g w g' Hb (hd & go & pd & H1 & H2 & H3) Hg. exists hd, go, pd. split; [by eapply recv_stable|done]. Qed.

Lemma quiet_inv d act rx v g : quiet_view d act rx v g -> inv v g.
Proof. intros (hd & go & pd & H & _). by eapply recv_inv. Qed.

Lemma wlp_quiet_ret {A} d act rx (r : A) (Q : A -> Shared T * rghost -> Prop) x :
  quiet d act rx x -> (forall y, quiet d act rx y -> Q r y) -> wlp 0 (Ret r) Q x.
Proof. intros Hx H. eapply wlp_ret_view; [apply (quiet_stable d act rx)|exact Hx|exact H]. Qed.

(** A program that leaves the view alone. *)
Lemma wlp_quiet_op {A B} d act rx (p : prog (Shared T) A) (Y : A -> Prop) (c : A -> prog (Shared T) B) Q x :
  calm_op p Y -> quiet d act rx x -> (forall a y, Y a -> quiet d act rx y -> wlp 0 (c a) Q y) -> wlp 0 (bind p c) Q x.
Proof. intros [H1 H2] Hx H. eapply wlp_calm_call; [exact H1|exact H2|apply quiet_stable|apply quiet_inv|exact Hx|exact H]. Qed.

Lemma quiet_same d act rx rx' x :
  quiet d act rx x -> rcv_lanes rx' = rcv_lanes rx -> rcv_groups rx' = rcv_groups rx -> rcv_pages rx' = rcv_pages rx ->
  rcv_paused rx' = rcv_paused rx -> seen_registry_generation rx' = seen_registry_generation rx -> 0 <= items_until_ready_poll rx' ->
  quiet d act rx' x.
Proof.
  intros (hd & go & pd & H1 & H2 & H3) E1 E2 E3 E4 E5 E6. exists hd, go, pd. split; [done|]. split; [by eapply rr_same|]. by rewrite E5.
Qed.

Lemma quiet_more d act act' rx x : quiet d act rx x -> act ⊆ act' -> act <> [] -> quiet d act' rx x.
Proof. intros (hd & go & pd & H1 & H2 & H3) Hs Hne. exists hd, go, pd. split; [done|]. split; [by eapply rr_more|]. intros _. by apply H3. Qed.

Lemma quiet_budget d act rx x : quiet d act rx x -> 0 <= items_until_ready_poll rx.
Proof. intros (hd & go & pd & _ & H & _). apply H. Qed.

Lemma quiet_known d act rx k l x : quiet d act rx x -> rcv_lanes rx !! k = Some (Some l) -> lane_known k l.
Proof. intros (hd & go & pd & _ & H & _) El. by apply (rr_lane _ _ _ _ _ _ _ _ _ H) in El as (_ & _ & ? & _). Qed.

(** A lane that was changed by the receiver alone is put back. *)
Lemma quiet_put d act rx k l l' x :
  quiet d act rx x -> rcv_lanes rx !! k = Some (Some l) -> lane_known k l' -> queued l' = queued l -> quiet d act (put_lane l' rx) x.
Proof.
  intros (hd & go & pd & H1 & H2 & H3) El Hl Hq. exists hd, go, pd. split; [done|]. split; [|done].
  eapply rr_put; [exact H2|exact El|exact Hl| |done|apply H2]. intros Hqt. apply (rr_lane _ _ _ _ _ _ _ _ _ H2 _ _ El). congruence.
Qed.

(** A key that names a lane of the receiver. *)
Lemma get_key_known d act rx key l x :
  quiet d act rx x -> get_lane_key key rx = Some l -> exists k, key = lane_at k /\ rcv_lanes rx !! k = Some (Some l) /\ lane_known k l.
Proof.
  intros Hx E. unfold get_lane_key, get_lane in E. destruct (zlookup (rcv_lanes rx) (key_slot key)) as [[m|]|] eqn:El; [|done..].
  destruct (LaneKey_eqb (lane_key m) key) eqn:Ek; [|done]. injection E as ->. pose proof (zlookup_Some_range _ _ _ El).
  exists (Z.to_nat (key_slot key)). rewrite <- (Z2Nat.id (key_slot key)) in El by lia. rewrite zlookup_of_nat in El.
  pose proof (quiet_known _ _ _ _ _ _ Hx El) as Hl. split; [|done]. rewrite <- (lk_key _ _ Hl). symmetry.
  unfold LaneKey_eqb in Ek. apply andb_true_iff in Ek as [E1%Z.eqb_eq E2%Z.eqb_eq]. destruct (lane_key l), key. cbn in *. congruence.
Qed.

Lemma get_slot_known d act rx slot l x :
  quiet d act rx x -> get_lane slot rx = Some l -> exists k, rcv_lanes rx !! k = Some (Some l) /\ lane_known k l.
Proof.
  intros Hx E. unfold get_lane in E. destruct (zlookup (rcv_lanes rx) slot) as [[m|]|] eqn:El; [|done..]. injection E as ->.
  pose proof (zlookup_Some_range _ _ _ El). exists (Z.to_nat slot). rewrite <- (Z2Nat.id slot) in El by lia. rewrite zlookup_of_nat in El.
  split; [done|]. by eapply quiet_known.
Qed.

(** ** A complete round *)

Lemma wlp_quiet_collect all d rx x :
  quiet d (rcv_active rx) rx x ->
  wlp 0 (Receiver_collect_ready all rx)
    (fun rx' y => quiet d (rcv_active rx') rx' y /\ items_until_ready_poll rx' = items_until_ready_poll rx /\
       (all = true -> rcv_active rx' = [] -> exists go, at_view (recv_at ∅ ∅ ∅ ∅ go [] every_group d) y /\ rx_ready ∅ go [] [] rx')) x.
Proof.
  intros (hd & go & pd & Hx & Hr & _). eapply wlp_mono; [|by eapply wlp_collect_ready].
  intros rx' y (hd' & Hy & Hr' & C1 & C2). split; [|split; [done|]].
  - exists hd', go, []. split; [|done]. eapply recv_at_fewer; [exact Hy|set_solver].
  - intros -> Ea. rewrite Ea in Hr'. assert (hd' = ∅) as ->; [|eauto].
    apply elem_of_equiv_empty_L. intros k Hk. destruct (rr_held _ _ _ _ _ _ _ _ _ Hr' k Hk) as [Hin _]. by apply elem_of_nil in Hin.
Qed.

(** ** Polling *)

(** What a lane that was found empty leaves behind; the lanes to poll are [rest]
    and, if it is kept, the lane itself. *)
Definition empty_view d key rest (e : EmptyLane) rx' v g : Prop :=
  seen_registry_generation rx' = gen /\
  match e with
  | EmptyKeep _ => quiet_view d (key :: rest) rx' v g
  | EmptyIdle false _ => quiet_view d rest rx' v g
  | EmptyIdle true _ =>
      exists hd wi go k l, key = lane_at k /\ rcv_lanes rx' !! k = Some (Some l) /\ (k ∉ hd) /\ wi ⊆ {[k]} /\
        rx_ready hd go [] rest rx' /\ recv_at hd ∅ ∅ wi go [] ∅ d v g
  end.
Definition empty_left d key rest e rx' (y : Shared T * rghost) : Prop := at_view (empty_view d key rest e rx') y.

Lemma empty_stable d key rest e rx : vstable n pages groups gen 0 (empty_view d key rest e rx).
Proof.
  intros b v g w g' Hb [Hs H] Hg. split; [done|]. destruct e as [rel|[] rel]; [by eapply quiet_stable| |by eapply quiet_stable].
  destruct H as (hd & wi & go & k & l & H1 & H2 & H3 & H4 & H5 & H6). exists hd, wi, go, k, l. do 5 (split; [done|]). by eapply recv_stable.
Qed.

Lemma empty_inv d key rest e rx v g : empty_view d key rest e rx v g -> inv v g.
Proof.
  intros [_ H]. destruct e as [rel|[] rel]; [by eapply quiet_inv| |by eapply quiet_inv].
  destruct H as (hd & wi & go & k & l & _ & _ & _ & _ & _ & H). by eapply recv_inv.
Qed.

Lemma settled_left k hd go d rest e l l' rx y :
  settled n pages groups gen k hd ∅ ∅ go [] ∅ d (Some e) l l' y ->
  rx_ready hd go [] (lane_at k :: rest) rx -> rcv_lanes rx !! k = Some (Some l) -> seen_registry_generation rx = gen ->
  empty_left d (lane_at k) rest e (put_lane l' rx) y.
Proof.
  intros [Hl' Hs] Hr Ek Hgen. split; [done|]. destruct e as [rel|disc rel].
  - destruct Hs as [Hy Hq']. exists ({[k]} ∪ hd ∖ {[k]}), go, []. split; [exact Hy|]. split; [|done].
    eapply rr_put; [exact Hr|exact Ek|exact Hl'|set_solver|set_solver|].
    intros j Hj. destruct (decide (j = k)) as [->|]; [set_solver|]. apply (rr_held _ _ _ _ _ _ _ _ _ Hr). set_solver.
  - destruct Hs as (Hq' & wi & W1 & W2 & Hy).
    assert (Hr' : rx_ready (hd ∖ {[k]}) go [] rest (put_lane l' rx)).
    { eapply rr_put; [exact Hr|exact Ek|exact Hl'|by rewrite Hq'|set_solver|]. intros j Hj.
      destruct (rr_held _ _ _ _ _ _ _ _ _ Hr j) as [Hin _]; [set_solver|]. apply elem_of_cons in Hin as [E|Hin]; [|done].
      apply lane_at_inj in E. set_solver. }
    destruct disc.
    + exists (hd ∖ {[k]}), wi, go, k, l'. split; [done|]. split; [|split; [set_solver|done]].
      rewrite (put_lane_at k l' rx (lk_key _ _ Hl')). cbn. apply list_lookup_insert_eq. by eapply lookup_lt_Some.
    + rewrite (W2 eq_refl) in Hy. exists (hd ∖ {[k]}), go, []. auto.
Qed.

(** A key without a lane is dropped. *)
Lemma quiet_stale d key rest rx x :
  quiet d (key :: rest) rx x -> get_lane_key key rx = None -> seen_registry_generation rx = gen /\ quiet d rest rx x.
Proof.
  intros (hd & go & pd & Hy & Hr & Hs) El. specialize (Hs ltac:(done)). split; [done|]. exists hd, go, pd. split; [done|]. split; [|done].
  destruct Hr as [H1 H2 H3 H4 H5 H6 H7]. split; auto. intros k Hk. destruct (H3 k Hk) as [Hin (m & Em)]. split; [|eauto].
  apply elem_of_cons in Hin as [<-|Hin]; [|done]. exfalso. destruct (H1 _ _ Em) as (_ & _ & Hm & _).
  by rewrite (get_key_at k m rx Em (lk_key _ _ Hm)) in El.
Qed.

(** The front lane of the receiver. *)
Lemma quiet_front d key rest rx l x :
  quiet d (key :: rest) rx x -> get_lane_key key rx = Some l ->
  exists k hd go, key = lane_at k /\ rcv_lanes rx !! k = Some (Some l) /\ lane_known k l /\ seen_registry_generation rx = gen /\
    at_view (recv_at hd ∅ ∅ ∅ go [] ∅ d) x /\ rx_ready hd go [] (key :: rest) rx.
Proof.
  intros Hx El. destruct (get_key_known _ _ _ _ _ _ Hx El) as (k & -> & Ek & Hl). destruct Hx as (hd & go & pd & Hx & Hr & Hs).
  specialize (Hs ltac:(done)). destruct (rr_seen _ _ _ _ _ _ _ _ _ Hr Hs) as (-> & _). by exists k, hd, go.
Qed.

Definition poll_left d key rest rx (p : LanePoll T) rx' (y : Shared T * rghost) : Prop :=
  rcv_active rx' = rcv_active rx /\ items_until_ready_poll rx' = items_until_ready_poll rx /\
  match p with
  | PollItem _ _ _ => quiet d (key :: rest) rx' y
  | PollKeep rel => empty_left d key rest (EmptyKeep rel) rx' y
  | PollIdle disc rel => empty_left d key rest (EmptyIdle disc rel) rx' y
  | PollStale => seen_registry_generation rx' = gen /\ quiet d rest rx' y
  end.

Lemma wlp_poll_lane fair d key rest rx x :
  quiet d (key :: rest) rx x ->
  wlp 0 (Receiver_poll_lane fair key rx) (fun r y => poll_left d key rest rx r.1 r.2 y) x.
Proof.
  intros Hx. unfold Receiver_poll_lane. destruct (get_lane_key key rx) as [l|] eqn:El.
  - destruct (quiet_front _ _ _ _ _ _ Hx El) as (k & hd & go & -> & Ek & Hl & Hs & Hv & Hr). clear Hx.
    eapply wlp_call; [by eapply (wlp_lane_poll _ _ _ _ n_word k)|]. clear x Hv. intros [p l'] x [Hl' Hp] _. cbn [fst snd] in *.
    assert (Hempty : forall e wi hd', at_view (recv_at hd' ∅ ∅ wi go [] ∅ d) x ->
      (forall y : Shared T * rghost, at_view (recv_at hd' ∅ ∅ wi go [] ∅ d) y -> settled n pages groups gen k hd ∅ ∅ go [] ∅ d (Some e) l l' y) ->
      (forall y, empty_left d (lane_at k) rest e (put_lane l' rx) y -> poll_left d (lane_at k) rest rx p (put_lane l' rx) y) ->
      wlp 0 (Ret (p, put_lane l' rx)) (fun r y => poll_left d (lane_at k) rest rx r.1 r.2 y) x).
    { intros e wi hd' H1 H2 H3. eapply wlp_recv_ret; [exact H1|]. intros y Hy. apply H3. eapply settled_left; eauto. }
    destruct p as [value rot rel|rel|disc rel|]; [| | |done].
    + destruct Hp as [Hp Hq']. eapply wlp_recv_ret; [exact Hp|]. intros y Hy. split; [done|]. split; [done|].
      eapply quiet_put; [|exact Ek|exact Hl'|exact Hq']. exists hd, go, []. auto.
    + destruct Hp as [Hp Hq']. apply (Hempty (EmptyKeep rel) _ _ Hp); [|by intros y Hy]. intros y Hy. by split.
    + destruct Hp as (Hq' & wi & W1 & W2 & Hp). apply (Hempty (EmptyIdle disc rel) _ _ Hp); [|by intros y Hy]. intros y Hy. split; [done|]. eauto 10.
  - eapply wlp_quiet_ret; [exact Hx|]. intros y Hy. split; [done|]. split; [done|]. by eapply quiet_stale.
Qed.

(** A lane that was found finished is retired. *)
Lemma wlp_retire_left d key rest rx rel x :
  empty_left d key rest (EmptyIdle true rel) rx x -> rcv_active rx = rest ->
  wlp 0 (Receiver_retire_lane Deferred key rx) (fun rx' y => quiet d (rcv_active rx') rx' y) x.
Proof.
  intros (Hs & hd & wi & go & k & l & -> & El & Hk & Hwi & Hr & Hx) Ea.
  eapply wlp_mono; [|by eapply wlp_retire_lane]. intros rx2 y (Hy & Hr2 & Ea2 & Es2).
  exists hd, ({[k]} ∪ go), []. split; [exact Hy|]. rewrite Ea2, Ea, Es2. auto.
Qed.

(** ** Single receives *)

Lemma calm_charge rx : calm_op (charge_poll_budget (T := T) rx) (fun rx' => exists m, rx' = set_poll_budget m rx /\ 0 <= m).
Proof.
  split; [apply keeps_bind; [apply keeps_usub|done]|]. unfold charge_poll_budget, usub.
  destruct (Z.ltb_spec (items_until_ready_poll rx) 1); [done|]. cbn. eexists. split; [done|lia].
Qed.

Lemma keeps_load_channel : keeps (view (T := T)) (load sh_channel_id).
Proof. by split. Qed.

Section output.
Context {Item : Type} (item : Z -> LaneKey -> T -> Item).

(** The end of a successful receive. *)
Lemma wlp_item {A} d rx key value (f : Item -> Receiver -> A) (Q : A -> Shared T * rghost -> Prop) x :
  quiet d (rcv_active rx) rx x ->
  (forall it rx' y, quiet d (rcv_active rx') rx' y -> (exists m, rx' = set_poll_budget m rx) -> Q (f it rx') y) ->
  wlp 0 (let* rx := charge_poll_budget rx in let* it := output_item item key value in Ret (f it rx)) Q x.
Proof.
  intros Hx HQ. eapply wlp_quiet_op; [apply calm_charge|exact Hx|]. clear x Hx. intros rx' x (m & -> & Hm) Hx.
  unfold output_item. apply wlp_bind. eapply (wlp_quiet_op _ _ _ _ (fun _ => True)); [split; [apply keeps_load_channel|apply yields_true]|exact Hx|].
  clear x Hx. intros id x _ Hx. eapply wlp_quiet_ret; [exact Hx|]. clear x Hx. intros x Hx _. eapply wlp_quiet_ret; [exact Hx|]. intros y Hy.
  apply HQ; [|eauto]. by eapply quiet_same.
Qed.

(** Where a receive starts: there is an active lane, or none after a complete
    round, and then the result tells the truth about a channel without
    senders. *)
Lemma wlp_refresh_front d rx x :
  quiet d (rcv_active rx) rx x ->
  wlp 0 (match rcv_active rx with
         | [] =>
             let* rx := Receiver_collect_ready true rx in
             match rcv_active rx with
             | [] => let* '(d, rx) := Receiver_is_drained Deferred rx in Ret (Some (empty_error d), rx)
             | _ => Ret (None, rx)
             end
         | _ =>
             if items_until_ready_poll rx =? 0 then
               let* rx := Receiver_collect_ready false rx in
               Ret (None, set_poll_budget READY_POLL_INTERVAL rx)
             else Ret (None, rx)
         end)
    (fun r y => quiet d (rcv_active r.2) r.2 y /\ forall e, r.1 = Some e -> d = true -> e = TryRecv_Disconnected) x.
Proof.
  intros Hx. assert (Hnone : forall rx y, quiet d (rcv_active rx) rx y -> wlp 0 (Ret (None, rx))
    (fun r y => quiet d (rcv_active r.2) r.2 y /\ forall e, r.1 = Some e -> d = true -> e = TryRecv_Disconnected) y).
  { intros rx1 y Hy. eapply wlp_quiet_ret; [exact Hy|]. by intros z Hz. }
  destruct (rcv_active rx) as [|key rest] eqn:Ea.
  - rewrite <- Ea in Hx. eapply wlp_call; [by apply wlp_quiet_collect|]. clear x Hx. intros rx1 x (Hx & _ & Hall) _.
    destruct (rcv_active rx1) as [|key rest] eqn:Ea1; [|apply Hnone; by rewrite Ea1].
    destruct (Hall eq_refl eq_refl) as (go & Hv & Hr). clear Hall Hx.
    eapply wlp_call; [eapply wlp_is_drained; [apply Hr|exact Hv]|]. clear x Hv. intros [b rx2] x (E & Hx & Hb) _. cbn [fst snd] in *. subst rx2.
    eapply wlp_recv_ret; [exact Hx|]. intros y Hy. split.
    + cbn. rewrite Ea1. exists ∅, go, []. split; [eapply recv_at_fewer; [exact Hy|set_solver]|done].
    + intros e [= <-] ->. rewrite Hb; [done|]. intros v g H. apply (all_gone go v g H).
  - rewrite <- Ea in Hx. destruct (_ =? _); [|by apply Hnone]. eapply wlp_call; [by apply wlp_quiet_collect|]. clear x Hx.
    intros rx1 x (Hx & _ & _) _. apply Hnone. by eapply quiet_same.
Qed.

Lemma wlp_try_recv_inner fair fuel : forall d rx x,
  quiet d (rcv_active rx) rx x ->
  wlp 0 (Receiver_try_recv_inner Deferred item fair fuel rx)
    (fun r y => quiet d (rcv_active r.2) r.2 y /\ (d = true -> r.1.1 = Err TryRecv_Empty -> r.1.2 <> None)) x.
Proof.
  induction fuel as [|fuel IH]; intros d rx x Hx; cbn [Receiver_try_recv_inner]; [done|].
  eapply wlp_call; [by apply wlp_refresh_front|]. clear rx x Hx. intros [stop rx] x [Hx Hstop] _. cbn [fst snd] in *.
  destruct stop as [e|].
  { eapply wlp_quiet_ret; [exact Hx|]. intros y Hy. split; [done|]. intros Hd. rewrite (Hstop e eq_refl Hd). done. }
  clear Hstop. destruct (rcv_active rx) as [|key rest] eqn:Ea; [done|].
  eapply wlp_call; [apply (wlp_poll_lane fair d key rest (set_active rest rx))|].
  { by eapply (quiet_same _ _ rx); [| | | | | |apply (quiet_budget _ _ _ _ Hx)]. }
  clear x Hx. intros [p rx1] x (Ea1 & Eb1 & Hp) _. cbn [fst snd set_active rcv_active items_until_ready_poll] in *.
  assert (Hre : forall act y, quiet d act rx1 y -> quiet d act (set_active act rx1) y).
  { intros act y Hy. by eapply (quiet_same _ _ rx1); [| | | | | |apply (quiet_budget _ _ _ _ Hy)]. }
  destruct p as [value rot rel|rel|disc rel|].
  - rewrite Ea1. eapply (wlp_item d _ key value (fun it rx => (Ok it, if rel : bool then Some key else None, rx))).
    + cbn. apply Hre. eapply quiet_more; [exact Hp| |done]. destruct rot; set_solver.
    + intros it rx' y Hy _. by split.
  - destruct Hp as [_ Hp]. rewrite Ea1. assert (Hx : quiet d (rest ++ [key]) (set_active (rest ++ [key]) rx1) x).
    { apply Hre. eapply quiet_more; [exact Hp| |done]. set_solver. }
    destruct rel; [|apply IH; exact Hx]. eapply wlp_quiet_ret; [exact Hx|]. by intros y Hy.
  - destruct disc.
    + eapply wlp_call; [by eapply wlp_retire_left|]. clear x Hp. intros rx2 x Hx _. by apply IH.
    + destruct Hp as [Hs Hx]. rewrite <- Ea1 in Hx. destruct rel; [|by apply IH]. eapply wlp_quiet_ret; [exact Hx|]. by intros y Hy.
  - destruct Hp as [Hs Hx]. rewrite <- Ea1 in Hx. by apply IH.
Qed.

(** What every receive guarantees. *)
Definition truthful d (r : result Item TryRecvError * Receiver) (y : Shared T * rghost) : Prop :=
  quiet d (rcv_active r.2) r.2 y /\ (d = true -> r.1 <> Err TryRecv_Empty).

Lemma wlp_notify_released {B} d rx released (c : unit -> prog (Shared T) B) Q x :
  quiet d (rcv_active rx) rx x -> (forall y, quiet d (rcv_active rx) rx y -> wlp 0 (c tt) Q y) ->
  wlp 0 (bind (Receiver_notify_released released rx) c) Q x.
Proof.
  intros Hx H. eapply (wlp_quiet_op _ _ _ _ (fun _ => True)); [split; [|apply yields_true]|exact Hx|intros [] y _ Hy; by apply H].
  unfold Receiver_notify_released. repeat case_match; try done. apply keeps_notify_space.
Qed.

Lemma wlp_recv_retry fair inner fuel : forall d rx x,
  quiet d (rcv_active rx) rx x -> wlp 0 (Receiver_recv_retry Deferred item fair fuel inner rx) (truthful d) x.
Proof.
  induction fuel as [|fuel IH]; intros d rx x Hx; cbn [Receiver_recv_retry]; [done|].
  eapply wlp_call; [by apply wlp_try_recv_inner|]. clear rx x Hx. intros [[r released] rx] x [Hx Hr] _. cbn [fst snd] in *.
  eapply wlp_notify_released; [exact Hx|]. clear x Hx. intros x Hx.
  assert (Hend : (d = true -> r <> Err TryRecv_Empty) -> wlp 0 (Ret (r, rx)) (truthful d) x).
  { intros He. eapply wlp_quiet_ret; [exact Hx|]. by intros y Hy. }
  destruct released as [key|]; [destruct r as [it|[]]|]; [by apply Hend|by apply IH|by apply Hend|].
  apply Hend. intros Hd E. by apply (Hr Hd E).
Qed.

(** The lane at hand is changed by the receiver alone. *)
Lemma wlp_refill_output fuel d rx x :
  quiet d (rcv_active rx) rx x -> wlp 0 (Receiver_try_recv_refill Deferred item fuel rx) (truthful d) x.
Proof.
  intros Hx. unfold Receiver_try_recv_refill. eapply (wlp_call _ _ _ _ _ (fun rx y => quiet d (rcv_active rx) rx y)).
  { case_match; [|by eapply wlp_quiet_ret]. eapply wlp_call; [by apply wlp_quiet_collect|]. clear x Hx.
    intros rx1 x (Hx & _) _. eapply wlp_quiet_ret; [exact Hx|]. intros y Hy. by eapply quiet_same. }
  clear rx x Hx. intros rx x Hx _. eapply (wlp_call _ _ _ _ _ (fun r y => quiet d (rcv_active r.2) r.2 y)).
  - destruct (rcv_active rx) as [|key rest] eqn:Ea; [by eapply wlp_quiet_ret; [exact Hx|]; intros y Hy; cbn; rewrite Ea|].
    destruct (get_lane_key key rx) as [l|] eqn:El; [|by eapply wlp_quiet_ret; [exact Hx|]; intros y Hy; cbn; rewrite Ea].
    destruct (get_key_known _ _ _ _ _ _ Hx El) as (k & -> & Ek & Hl).
    eapply wlp_quiet_op; [apply (calm_grant_fast k); [done|by eapply quiet_budget]|exact Hx|]. clear x Hx. intros l1 x [Hl1 Q1] Hx.
    eapply wlp_quiet_op; [by apply (calm_pop_fast k)|exact Hx|]. clear x Hx. intros [v l2] x [Hl2 Q2] Hx. cbn [fst snd] in *.
    pose proof (quiet_put _ _ _ _ _ _ _ Hx Ek Hl2 ltac:(congruence)) as Hx2. clear Hx. destruct v as [value|].
    + eapply (wlp_item d (put_lane l2 rx) _ value (fun it rx => (Some it, set_fast_slot (key_slot (lane_at k)) rx))).
      * cbn. by rewrite Ea.
      * intros it rx' y Hy _. cbn. eapply quiet_same; [exact Hy|done..|apply (quiet_budget _ _ _ _ Hy)].
    + eapply wlp_quiet_ret; [exact Hx2|]. intros y Hy. cbn. by rewrite Ea.
  - clear x rx Hx. intros [[it|] rx] x Hx _; cbn [fst snd] in *; [|by apply wlp_recv_retry]. eapply wlp_quiet_ret; [exact Hx|]. by intros y Hy.
Qed.

Lemma wlp_try_recv_output fuel d rx x :
  quiet d (rcv_active rx) rx x -> wlp 0 (Receiver_try_recv_output Deferred item fuel rx) (truthful d) x.
Proof.
  intros Hx. unfold Receiver_try_recv_output. eapply (wlp_call _ _ _ _ _ (fun r y => quiet d (rcv_active r.2) r.2 y)).
  - destruct (get_lane (fast_slot rx) rx) as [l|] eqn:El; [|by eapply wlp_quiet_ret].
    destruct (get_slot_known _ _ _ _ _ _ Hx El) as (k & Ek & Hl).
    eapply wlp_quiet_op; [by apply (calm_pop_fast k)|exact Hx|]. clear x Hx. intros [v l2] x [Hl2 Q2] Hx. cbn [fst snd] in *.
    destruct v as [value|]; [|by eapply wlp_quiet_ret].
    eapply (wlp_item d (put_lane l2 rx) _ value (fun it rx => (Some it, rx))); [by eapply quiet_put|]. by intros it rx' y Hy _.
  - clear x rx Hx. intros [[it|] rx] x Hx _; cbn [fst snd] in *; [|by apply wlp_refill_output]. eapply wlp_quiet_ret; [exact Hx|]. by intros y Hy.
Qed.

End output.


End take.
