(* ===== verification/MpscReadyBatch.v ===== *)
(** * Fair and bulk receives against the invariant of the marks

    The remaining operations of the receiver, and its thread. *)

From stdpp Require Import gmap.
From S2P Require Import Prelude Prog ProgPartial Config Wait Ready YRing Handoff MpscLane Mpsc MpscConc MpscRecvConc MpscThm MpscReady MpscReadyLane MpscReadyRecv MpscReadyPoll MpscReadyCollect MpscReadyTake.
Local Open Scope prog_scope.

(** A look at a group. *)
Lemma keeps_has_ready {T} h : keeps (view (T := T)) (on_index (ReadyGroup_has_ready h)).
Proof.
  unfold on_index. eapply (keeps_lift_part _ _ (fun i => (signal_view <$> rs_signals i, rs_pages i, rs_groups i))).
  - intros s i [= E1 E2 E3]. unfold view. cbn. by rewrite E1, E2, E3.
  - split; [|intros [[]|]; done]. intros i. cbn. destruct (zlookup (rs_groups i) h) as [gr|] eqn:E; [|done]. cbn.
    f_equal. unfold zlookup in E. unfold zinsert. destruct (h <? 0); [done|]. by apply list_insert_id.
Qed.

Section batch.
Context {T : Type} (n : nat) (pages groups : list Z) (gen : Z) (n_word : Z.of_nat n < usize_mod).
#[local] Abbreviation rguar := (rguar (T := T) n pages groups gen).
#[local] Abbreviation wlp := (wlp (S := Shared T) tails_ok rguar).
#[local] Abbreviation rx_ready := (rx_ready n pages groups gen).
#[local] Abbreviation quiet := (quiet (T := T) n pages groups gen).
#[local] Abbreviation truthful := (truthful (T := T) n pages groups gen).
Implicit Types (k : nat) (hd go : gset nat) (pd : list PendingLane) (d : bool) (l : Lane) (rx : Receiver) (act : list LaneKey).

(** ** Fair receives *)

Lemma keeps_any_ready gs : keeps (view (T := T)) (any_ready gs).
Proof. induction gs as [|h gs IH]; cbn [any_ready]; [done|]. apply keeps_bind; [apply keeps_has_ready|]. by intros []. Qed.

Lemma wlp_try_recv_fair_output {Item} (item : Z -> LaneKey -> T -> Item) fuel d rx x :
  quiet d (rcv_active rx) rx x -> wlp 0 (Receiver_try_recv_fair_output Deferred item fuel rx) (truthful d) x.
Proof.
  intros Hx. unfold Receiver_try_recv_fair_output.
  eapply (wlp_quiet_op _ _ _ _ _ _ _ _ (fun _ => True)); [split; [by split|apply yields_true]|exact Hx|]. clear x Hx. intros g x _ Hx.
  eapply (wlp_quiet_op _ _ _ _ _ _ _ _ (fun _ => True)); [split; [|apply yields_true]|exact Hx|].
  { destruct (negb _); [done|apply keeps_any_ready]. }
  clear x Hx. intros due x _ Hx. eapply (wlp_call _ _ _ _ _ (fun rx y => quiet d (rcv_active rx) rx y)).
  { destruct due; [|by eapply wlp_quiet_ret]. eapply wlp_mono; [|by apply wlp_quiet_collect]. by intros rx' y (Hy & _). }
  clear rx x Hx. intros rx0 x Hx0 _. set (rx := set_poll_budget READY_POLL_INTERVAL rx0).
  assert (Hx : quiet d (rcv_active rx) rx x) by (by eapply quiet_same). clearbody rx. clear rx0 Hx0.
  eapply (wlp_call _ _ _ _ _ (fun r y => quiet d (rcv_active r.2) r.2 y)).
  - destruct (rcv_active rx) as [|key [|]] eqn:Ea; try (by eapply wlp_quiet_ret; [exact Hx|]; intros y Hy; cbn; rewrite Ea).
    destruct (get_lane_key key rx) as [l|] eqn:El; [|by eapply wlp_quiet_ret; [exact Hx|]; intros y Hy; cbn; rewrite Ea].
    destruct (get_key_known _ _ _ _ _ _ _ _ _ _ Hx El) as (k & -> & Ek & Hl).
    eapply wlp_quiet_op; [apply (calm_pop_fair k); [done|by eapply quiet_budget]|exact Hx|]. clear x Hx. intros [v l2] x [Hl2 Q2] Hx. cbn [fst snd] in *.
    pose proof (quiet_put _ _ _ _ _ _ _ _ _ _ _ Hx Ek Hl2 Q2) as Hx2. clear Hx. destruct v as [value|].
    + eapply (wlp_item _ _ _ _ _ d (put_lane l2 rx) _ value (fun it rx => (Some it, set_fast_slot (key_slot (lane_at k)) rx))).
      * cbn. by rewrite Ea.
      * intros it rx' y Hy _. cbn. eapply quiet_same; [exact Hy|done..|apply (quiet_budget _ _ _ _ _ _ _ _ Hy)].
    + eapply wlp_quiet_ret; [exact Hx2|]. intros y Hy. cbn. by rewrite Ea.
  - clear x rx Hx. intros [[it|] rx] x Hx _; cbn [fst snd] in *; [|by apply wlp_recv_retry]. eapply wlp_quiet_ret; [exact Hx|]. by intros y Hy.
Qed.

(** ** Releasing *)

Definition same_lane (o o' : option Lane) : Prop :=
  match o, o' with
  | Some l, Some l' => (forall k, lane_known k l -> lane_known k l') /\ queued l' = queued l
  | None, None => True
  | _, _ => False
  end.

Lemma keeps_release_lanes lanes : keeps view (release_lanes (T := T) lanes).
Proof.
  induction lanes as [|[l|] lanes IH]; cbn [release_lanes]; [done|..].
  - apply keeps_bind; [apply keeps_release_pending|]. intros [rel l']. apply keeps_bind; [destruct rel; [apply keeps_notify_space|done]|].
    intros u. by apply keeps_bind.
  - by apply keeps_bind.
Qed.

Lemma yields_release_lanes : forall lanes, (forall l, Some l ∈ lanes -> exists k, lane_known k l) ->
  yields (release_lanes (T := T) lanes) (fun lanes' => Forall2 same_lane lanes lanes').
Proof.
  induction lanes as [|[l|] lanes IH]; intros Hk; cbn [release_lanes]; [by constructor|..].
  - destruct (Hk l) as [k Hl]; [set_solver|]. eapply yields_bind; [by apply (calm_release_pending k)|]. intros [rel l'] (Hl' & _ & Hq). cbn [fst snd] in *.
    eapply yields_bind; [apply yields_true|]. intros u _. eapply yields_bind; [apply IH; set_solver|]. intros ls Hls. constructor; [|done]. split; [|done].
    intros j Hj. replace j with k; [done|]. apply lane_at_inj. by rewrite <- (lk_key _ _ Hl), <- (lk_key _ _ Hj).
  - eapply yields_bind; [apply IH; set_solver|]. intros ls Hls. by constructor.
Qed.

Lemma rr_same_lanes hd go pd act rx lanes' :
  rx_ready hd go pd act rx -> Forall2 same_lane (rcv_lanes rx) lanes' -> rx_ready hd go pd act (set_lanes lanes' rx).
Proof.
  intros [H1 H2 H3 H4 H5 H6 H7] HF.
  assert (Hfwd : forall k l, rcv_lanes rx !! k = Some (Some l) -> exists l', lanes' !! k = Some (Some l')).
  { intros k l E. destruct (Forall2_lookup_l _ _ _ _ _ HF E) as ([l'|] & E' & Hs); [eauto|done]. }
  split; auto; cbn.
  - intros k l' E'. destruct (Forall2_lookup_r _ _ _ _ _ HF E') as ([l|] & E & Hs); [|done]. destruct Hs as [Hs Hq].
    destruct (H1 k l E) as (? & ? & ? & ?). split_and!; auto. by rewrite Hq.
  - intros k Hk Hg. destruct (H2 k Hk Hg) as [(l & E)|?]; [left; by eapply Hfwd|by right].
  - intros k Hk. destruct (H3 k Hk) as [? (l & E)]. split; [done|by eapply Hfwd].
Qed.

Lemma wlp_release_consumed d rx x :
  quiet d (rcv_active rx) rx x -> wlp 0 (Receiver_release_consumed rx) (fun rx' y => quiet d (rcv_active rx') rx' y) x.
Proof.
  intros Hx. unfold Receiver_release_consumed. eapply wlp_quiet_op; [split; [apply keeps_release_lanes|apply yields_release_lanes]|exact Hx|].
  - intros l Hin. apply list_elem_of_lookup in Hin as [k E]. exists k. by eapply quiet_known.
  - clear x Hx. intros lanes' x HF Hx. eapply wlp_quiet_ret; [exact Hx|]. intros y (hd & go & pd & H1 & H2 & H3). exists hd, go, pd.
    split; [done|]. split; [by apply rr_same_lanes|done].
Qed.

(** ** Bulk receives *)

Lemma quiet_active d act rx act' x : quiet d act rx x -> quiet d act (set_active act' rx) x.
Proof. intros Hx. eapply quiet_same; [exact Hx|done..|apply (quiet_budget _ _ _ _ _ _ _ _ Hx)]. Qed.

Lemma empty_left_active d key rest e rx act (y : Shared T * rghost) :
  empty_left n pages groups gen d key rest e rx y -> empty_left n pages groups gen d key rest e (set_active act rx) y.
Proof.
  intros [Hs H]. split; [done|]. destruct e as [rel|[] rel]; [by apply quiet_active| |by apply quiet_active].
  destruct H as (hd & wi & go & k & l & H1 & H2 & H3 & H4 & H5 & H6). exists hd, wi, go, k, l. do 4 (split; [done|]).
  split; [|done]. eapply rr_same; [exact H5|done..|apply H5].
Qed.

Lemma wlp_refresh_active d rx x :
  quiet d (rcv_active rx) rx x -> wlp 0 (Receiver_refresh_active rx) (fun r y => quiet d (rcv_active r.2) r.2 y) x.
Proof.
  intros Hx. unfold Receiver_refresh_active. destruct (rcv_active rx) as [|key rest] eqn:Ea; rewrite <- Ea in Hx.
  - eapply wlp_call; [by apply wlp_quiet_collect|]. clear x Hx. intros rx1 x (Hx & _) _. by eapply wlp_quiet_ret.
  - destruct (_ =? _); [|by eapply wlp_quiet_ret]. eapply wlp_call; [by apply wlp_quiet_collect|]. clear x Hx. intros rx1 x (Hx & _) _.
    eapply wlp_quiet_ret; [exact Hx|]. intros y Hy. by eapply quiet_same.
Qed.

Lemma wlp_settle_empty_front d key rest e rx x :
  empty_left n pages groups gen d key rest e rx x -> rcv_active rx = key :: rest ->
  wlp 0 (Receiver_settle_empty_front Deferred key e rx) (fun rx' y => quiet d (rcv_active rx') rx' y) x.
Proof.
  intros Hx Ea. destruct e as [rel|[] rel]; cbn [Receiver_settle_empty_front]; rewrite Ea; cbn [rotate_left tail].
  - destruct Hx as [_ Hx]. eapply wlp_quiet_ret; [exact Hx|]. intros y Hy. cbn. apply quiet_active. eapply quiet_more; [exact Hy|set_solver|done].
  - eapply wlp_retire_left; [exact n_word|by apply empty_left_active|done].
  - destruct Hx as [_ Hx]. eapply wlp_quiet_ret; [exact Hx|]. intros y Hy. cbn. by apply quiet_active.
Qed.

Lemma calm_chunk_limit k l : lane_known k l -> calm_op (Lane_chunk_limit (T := T) l) (fun z => 0 <= z).
Proof.
  intros Hl. unfold Lane_chunk_limit, usub. split; (repeat case_match; try done); cbn. destruct (lk_count _ _ Hl) as (Hc & _). lia.
Qed.

Lemma calm_end_full_burst k l :
  lane_known k l -> calm_op (Lane_end_full_burst (T := T) l) (fun r => lane_known k r.2 /\ queued r.2 = queued l).
Proof. intros Hl. unfold Lane_end_full_burst. split; (repeat case_match; try done). split; [by apply known_burst|done]. Qed.

Section drain.
Context {Adm : Type}.

(** A chunk of the front lane. *)
Lemma wlp_drain_chunk {B} d key rest rx k l received limit output (admission : Admit T Adm) adm
    (c : Z -> Z -> list T -> Adm -> Receiver -> prog (Shared T) B) Q x :
  quiet d (key :: rest) rx x -> rcv_active rx = key :: rest -> rcv_lanes rx !! k = Some (Some l) -> lane_known k l -> received < limit ->
  (forall moved take output adm rx' y, quiet d (rcv_active rx') rx' y -> wlp 0 (c moved take output adm rx') Q y) ->
  wlp 0 (let* chunk := Lane_chunk_limit l in
         let take := Z.min (Z.min (limit - received) (items_until_ready_poll rx)) chunk in
         let* '(moved, output, adm, lane) := Lane_move_chunk l output take admission adm in
         let* budget := usub (items_until_ready_poll rx) moved in
         let rx := set_poll_budget budget rx in
         let* '(ended, lane) := Lane_end_full_burst lane in
         let rx := put_lane lane rx in
         let rx := if ended : bool then set_active (rotate_left (rcv_active rx)) rx else rx in
         c moved take output adm rx) Q x.
Proof.
  intros Hx Ea Ek Hl Hlim Hc. eapply wlp_quiet_op; [by apply (calm_chunk_limit k)|exact Hx|]. clear x Hx. intros chunk x Hch Hx. cbn in Hch. cbv zeta.
  pose proof (quiet_budget _ _ _ _ _ _ _ _ Hx) as Hb.
  eapply wlp_quiet_op; [apply (calm_move_chunk k); [done|lia]|exact Hx|]. clear x Hx. intros [[[moved out] adm'] l1] x [Hl1 Q1] Hx. cbn [fst snd] in *.
  eapply (wlp_quiet_op _ _ _ _ _ _ _ _ (fun z => 0 <= z)); [apply calm_usub; cbn; lia|exact Hx|]. clear x Hx. intros budget x Hbu Hx.
  eapply wlp_quiet_op; [by apply (calm_end_full_burst k)|exact Hx|]. clear x Hx. intros [ended l2] x [Hl2 Q2] Hx. cbn [fst snd] in *.
  apply Hc. assert (Hx2 : quiet d (key :: rest) (put_lane l2 (set_poll_budget budget rx)) x).
  { eapply quiet_put; [by eapply quiet_same|exact Ek|exact Hl2|congruence]. }
  destruct ended; cbn; rewrite Ea; [|exact Hx2]. apply quiet_active. eapply quiet_more; [exact Hx2|set_solver|done].
Qed.

Lemma wlp_drain_loop (admission : Admit T Adm) fuel : forall received limit output adm d rx x,
  quiet d (rcv_active rx) rx x ->
  wlp 0 (Receiver_drain_loop Deferred fuel received limit output admission adm rx) (fun r y => quiet d (rcv_active r.2) r.2 y) x.
Proof.
  induction fuel as [|fuel IH]; intros received limit output adm d rx x Hx; cbn [Receiver_drain_loop];
    (destruct (Z.ltb_spec received limit) as [Hlim|Hlim]; cbn [negb]; [|by eapply wlp_quiet_ret]); [done|].
  eapply wlp_call; [by apply wlp_refresh_active|]. clear rx x Hx. intros [more rx] x Hx _. cbn [fst snd] in *.
  destruct more; cbn [negb]; [|by eapply wlp_quiet_ret]. destruct (rcv_active rx) as [|key rest] eqn:Ea; [done|].
  destruct (get_lane_key key rx) as [l|] eqn:El.
  - destruct (quiet_front _ _ _ _ _ _ _ _ _ _ Hx El) as (k & hd & go & -> & Ek & Hl & Hs & Hv & Hr). clear Hx.
    eapply wlp_call; [by eapply (wlp_refill _ _ _ _ n_word k)|]. clear x Hv. intros [[e|] l1] x Hset _; cbn [fst snd] in *.
    + pose proof (settled_left _ _ _ _ n_word _ _ _ _ _ _ _ _ _ _ Hset Hr Ek Hs) as Hleft. clear Hset.
      eapply (wlp_calm_call _ _ _ _ _ _ _ _ (fun _ => True)); [|apply yields_true|apply empty_stable|apply empty_inv|exact Hleft|].
      { destruct (EmptyLane_released e); [apply keeps_notify_space|done]. }
      clear x Hleft. intros u x _ Hleft. eapply wlp_call; [by eapply wlp_settle_empty_front|]. clear x Hleft. intros rx2 x Hx _. by apply IH.
    + destruct Hset as (Hl1 & Hv & Hq & _). 
      eapply (wlp_drain_chunk d (lane_at k) rest (put_lane l1 rx) k l1 received limit output admission adm
        (fun moved take output adm rx' => if moved <? take then Ret (mkDrained (received + moved) true, output, adm, rx')
           else Receiver_drain_loop Deferred fuel (received + moved) limit output admission adm rx')); [|done| |done|done|].
      * eapply quiet_put; [|exact Ek|exact Hl1|exact Hq]. exists hd, go, []. auto.
      * rewrite (put_lane_at k l1 rx (lk_key _ _ Hl1)). cbn. apply list_lookup_insert_eq. by eapply lookup_lt_Some.
      * intros moved take out adm' rx' y Hy. destruct (moved <? take); [by eapply wlp_quiet_ret|]. by apply IH.
  - destruct (quiet_stale _ _ _ _ _ _ _ _ _ Hx El) as [_ Hx']. apply IH. by apply quiet_active.
Qed.

End drain.


Lemma wlp_batch_end d rx x :
  quiet d (rcv_active rx) rx x -> wlp 0 (Receiver_is_drained Deferred rx) (fun r y => quiet d (rcv_active r.2) r.2 y) x.
Proof.
  intros (hd & go & pd & Hx & Hr & Hs). eapply wlp_mono; [|by eapply wlp_is_drained; [apply Hr|]].
  intros [b rx'] y (E & Hy & _). cbn [fst snd] in *. subst rx'. exists hd, go, pd. auto.
Qed.

Lemma wlp_batch_into fuel output limit d rx x :
  quiet d (rcv_active rx) rx x ->
  wlp 0 (Receiver_try_recv_batch_into Deferred fuel output limit rx) (fun r y => quiet d (rcv_active r.2) r.2 y) x.
Proof.
  intros Hx. unfold Receiver_try_recv_batch_into, Receiver_drain_into. eapply wlp_call; [by apply wlp_drain_loop|]. clear rx x Hx.
  intros [[[dr out] adm] rx] x Hx _. cbn [fst snd] in *. eapply wlp_call; [by apply wlp_release_consumed|]. clear rx x Hx. intros rx x Hx _.
  destruct (_ && _); [|by eapply wlp_quiet_ret; [exact Hx|]].
  eapply wlp_call; [apply wlp_batch_end, Hx|]. clear rx x Hx. intros [b rx] x Hx _. eapply wlp_quiet_ret; [exact Hx|done].
Qed.

Lemma wlp_batch_into_while {Adm} fuel output limit (accepts : Adm -> T -> bool * Adm) adm d rx x :
  quiet d (rcv_active rx) rx x ->
  wlp 0 (Receiver_try_recv_batch_into_while Deferred fuel output limit accepts adm rx) (fun r y => quiet d (rcv_active r.2) r.2 y) x.
Proof.
  intros Hx. unfold Receiver_try_recv_batch_into_while, Receiver_drain_into. eapply wlp_call; [by apply wlp_drain_loop|]. clear rx x Hx.
  intros [[[dr out] adm'] rx] x Hx _. cbn [fst snd] in *. eapply wlp_call; [by apply wlp_release_consumed|]. clear rx x Hx. intros rx x Hx _.
  destruct (_ && _); [|by eapply wlp_quiet_ret; [exact Hx|]].
  eapply wlp_call; [apply wlp_batch_end, Hx|]. clear rx x Hx. intros [b rx] x Hx _. eapply wlp_quiet_ret; [exact Hx|done].
Qed.

(** ** The thread of the receiver *)

(** A command that receives one value. *)
Definition single {T' Adm} (cmd : recv_cmd T' Adm) : bool :=
  match cmd with RTryRecv | RTryRecvFair | RLaneTryRecv | RLaneTryRecvFair => true | _ => false end.

(** What a command leaves behind; without senders a single receive returns a
    value or the news that the channel is disconnected. *)
Definition told d {Adm} (cmd : recv_cmd T Adm) (r : list (recv_event T) * Receiver) (y : Shared T * rghost) : Prop :=
  quiet d (rcv_active r.2) r.2 y /\ (d = true -> single cmd = true -> exists ev, r.1 = [ev] /\ ev <> EvError TryRecv_Empty).

Lemma wlp_exec_recv {Adm} fuel (cmd : recv_cmd T Adm) d rx x :
  quiet d (rcv_active rx) rx x -> wlp 0 (exec_recv fuel cmd rx) (told d cmd) x.
Proof.
  intros Hx.
  assert (Hone : forall {Item} (item : Z -> LaneKey -> T -> Item) (ev : result Item TryRecvError -> recv_event T) p,
    (forall it, ev (Ok it) <> EvError TryRecv_Empty) -> (forall e, ev (Err e) = EvError e) -> wlp 0 p (truthful d) x ->
    wlp 0 (let* '(r, rx) := p in Ret ([ev r], rx)) (told d cmd) x).
  { intros Item item ev p Hok Herr Hp. eapply wlp_call; [exact Hp|]. clear rx x Hx Hp. intros [r rx] x [Hx Hr] _. cbn [fst snd] in *.
    eapply wlp_quiet_ret; [exact Hx|]. intros y Hy. split; [done|]. intros Hd _. exists (ev r). split; [done|].
    destruct r as [it|e]; [apply Hok|]. rewrite Herr. intros [= ->]. by apply (Hr Hd). }
  assert (Hrest : forall {A} (p : prog (Shared T) A) (f : A -> list (recv_event T) * Receiver), single cmd = false ->
    wlp 0 p (fun a y => quiet d (rcv_active (f a).2) (f a).2 y) x -> wlp 0 (let* a := p in Ret (f a)) (told d cmd) x).
  { intros A p f Hs Hp. eapply wlp_call; [exact Hp|]. intros a z Hz _. eapply wlp_quiet_ret; [exact Hz|]. intros y Hy.
    split; [done|]. by rewrite Hs. }
  destruct cmd; cbn [exec_recv].
  - by apply (Hone _ ItemOnly_item plain_event); [..|apply wlp_try_recv_output].
  - by apply (Hone _ ItemOnly_item plain_event); [..|apply wlp_try_recv_fair_output].
  - by apply (Hone _ WithLaneIds_item lane_event); [by intros []|..|apply wlp_try_recv_output].
  - by apply (Hone _ WithLaneIds_item lane_event); [by intros []|..|apply wlp_try_recv_fair_output].
  - eapply wlp_bind_ext; [|apply (Hrest _ _ (fun a => (batch_events a.1.1 a.1.2, a.2)) eq_refl)]; [by intros [[]]|]. by apply wlp_batch_into.
  - eapply wlp_bind_ext; [|apply (Hrest _ _ (fun a => (batch_events a.1.1.1 a.1.1.2, a.2)) eq_refl)]; [by intros [[[]]]|].
    by apply wlp_batch_into_while.
  - apply (Hrest _ _ (fun rx => ([], rx)) eq_refl). by apply wlp_release_consumed.
  - apply (Hrest _ _ (fun _ => ([], rx)) eq_refl). unfold Receiver_is_disconnected.
    eapply (wlp_quiet_op _ _ _ _ _ _ _ _ (fun _ => True)); [split; [by split|apply yields_true]|exact Hx|]. intros a y _ Hy. by eapply wlp_quiet_ret.
  - apply (Hrest _ _ (fun _ => ([], rx)) eq_refl). apply wlp_bind_ret.
    eapply (wlp_quiet_op _ _ _ _ _ _ _ _ (fun _ => True)); [split; [by split|apply yields_true]|exact Hx|]. intros a y _ Hy. by eapply wlp_quiet_ret.
Qed.


End batch.
