(* ===== verification/MpscDrain.v ===== *)
(** * A channel whose senders are gone is drained by receiving alone

    MpscThm says that what is received was sent, in order.  Here: nothing is
    left behind.  After any interleaving in which the senders sent and were
    dropped, the receiver on its own gets every value that was accepted, by
    single receives none of which reports an empty channel, and is then told
    that the channel is disconnected.

    The proof joins the argument of MpscThm, that no operation faults and the
    order is kept, with the one about the marks of the readiness index. *)

From stdpp Require Import gmap.
From S2P Require Import Prelude Prog ProgPartial Config Wait Ready YRing YRingInv YRingConc YRingClose Handoff MpscLane MpscLaneInv Mpsc MpscRegistry MpscConc MpscLaneConc MpscRecvConc MpscRecvLoop MpscSendConc MpscSetup MpscThm MpscReady MpscReadySend MpscReadyLane MpscReadyRecv MpscReadyPoll MpscReadyCollect MpscReadyTake MpscReadyBatch.
Local Open Scope prog_scope.

(** The receiver's thread, with the handle it leaves. *)
Fixpoint receiver_session {T Adm} (fuel : nat) (cmds : list (recv_cmd T Adm)) (evs : list (recv_event T)) (rx : Receiver)
    : prog (Shared T) (list (recv_event T) * Receiver) :=
  match cmds with
  | [] => Ret (evs, rx)
  | cmd :: cmds' =>
      let* '(es, rx) := exec_recv fuel cmd rx in
      receiver_session fuel cmds' (evs ++ es) rx
  end.

(** ** The marks at the start *)

Section start.
Context {T : Type}.
Implicit Types (s : Shared T).

Definition no_marks : rghost := mkRG ∅ ∅ ∅ ∅ ∅ ∅ ∅ ∅ ∅.

Section of_caps.
Context (caps : list Z) (s : Shared T) (started_s : started caps s).
#[local] Abbreviation n := (length caps).
#[local] Abbreviation pages := (reg_pages (sh_registry s)).
#[local] Abbreviation groups := (reg_groups (sh_registry s)).
#[local] Abbreviation gen := (sh_registry_generation s).

Lemma start_marks_topo : topo n pages groups gen (view s).
Proof.
  destruct (st_shape _ _ started_s) as [(_ & _ & _ & _ & W1 & W2 & _) [Tg Tp]]. split; [done| | |].
  - intros k Hk. destruct (st_signals _ _ started_s) as [El _]. destruct (lookup_lt_is_Some_2 (rs_signals (sh_index s)) k) as [sg Esg]; [lia|].
    destruct (st_placed _ _ started_s k sg Esg) as [P1 P2]. exists (signal_state sg), (signal_page sg). split; [|exact P2].
    cbn. rewrite list_lookup_fmap, Esg. cbn. unfold signal_view. by rewrite P1.
  - intros i h Hi. destruct (Tp i h Hi) as (p & Ep & _ & Eb & Eg). exists p. split; [done|].
    split; [|done]. by apply (zlookup_Forall _ _ _ _ W2 Ep).
  - intros i h Hi. destruct (Tg i h Hi) as (gr & Eg & Ei). exists gr. split; [done|]. split; [|done]. by apply (zlookup_Forall _ _ _ _ W1 Eg).
Qed.

Lemma start_ready_inv : ready_inv n pages groups gen (view s) no_marks.
Proof.
  destruct (st_counts _ _ started_s) as (_ & C2 & C3 & _). destruct (st_blank _ _ started_s) as [_ B2]. split.
  - apply start_marks_topo.
  - intros k Hk Hw. destruct Hw. destruct (st_signals _ _ started_s) as [_ Hs]. unfold sig_word. cbn. rewrite list_lookup_fmap.
    destruct (rs_signals (sh_index s) !! k) as [sg|] eqn:E; [|done]. cbn. by apply (Forall_lookup_1 _ _ _ _ Hs E).
  - intros i Hi. destruct Hi. unfold page_word. destruct (zlookup pages i) as [h|]; [|done]. cbn. destruct (zlookup (rs_pages (sh_index s)) h) as [p|] eqn:E; [|done].
    by apply (zlookup_Forall _ _ _ _ B2 E).
  - set_solver.
  - set_solver.
  - set_solver.
  - cbn. rewrite C2. split; [|set_solver]. rewrite size_empty. lia.
  - cbn. rewrite C3. split; [|set_solver]. rewrite size_empty. lia.
Qed.

Lemma start_sender_marks k : (k < n)%nat ->
  at_view (MpscReadySend.sender_at n pages groups gen k false false false false None) (s, no_marks).
Proof. intros Hk. split; [apply start_ready_inv|done|set_solver..|done]. Qed.

Lemma start_quiet cap capacity :
  quiet n pages groups gen false (rcv_active (first_receiver cap capacity)) (first_receiver cap capacity) (s, no_marks).
Proof.
  pose proof (st_pending _ _ started_s) as Ep. destruct (st_lanes _ _ started_s) as [Hn _].
  exists ∅, ∅, (reg_pending (sh_registry s)). split; [|split; [|done]].
  - split; [apply start_ready_inv|done|done|done].
  - split; cbn.
    + intros [|k] l El; [|by destruct k]. injection El as <-. split; [done|]. split; [set_solver|]. split; [apply known_new|done].
    + intros k Hk _. destruct k as [|k]; [left; by eexists|right]. rewrite Ep. apply list_elem_of_fmap. exists (S k). split; [done|].
      apply elem_of_seq. lia.
    + intros k Hk. by apply elem_of_empty in Hk.
    + by repeat constructor.
    + done.
    + intros E. destruct (st_counts _ _ started_s) as (C1 & _). assert (E1 : n = 1%nat) by lia.
      destruct (st_first _ _ started_s E1) as [-> ->]. rewrite Ep, E1. done.
    + intros p Hp. rewrite Ep in Hp. apply list_elem_of_fmap in Hp as (k & -> & Hk%elem_of_seq). exists k. split; [lia|]. split; [set_solver|done].
Qed.

End of_caps.

(** The machine words of the rings are part of what MpscThm shows. *)
Lemma cok_tails caps np ng (x : cst T) : cok caps np ng x -> tails_ok x.1.
Proof.
  intros H. apply Forall_lookup. intros k hr Hk. assert (Hlt : (k < length caps)%nat).
  { apply lookup_lt_Some in Hk. by rewrite <- (co_rings _ _ _ _ H). }
  destruct (lookup_lt_is_Some_2 caps k Hlt) as [cap Hcap].
  destruct (cok_ring _ _ _ _ _ _ H Hcap) as (hr' & g & E & _ & Hok & _). rewrite Hk in E. injection E as <-.
  destruct Hok as [_ _ _ _ Ht _]. cbn in Ht. rewrite Ht. apply wrap_range.
Qed.

End start.

(** ** The receiver's thread in both arguments *)

Section session.
Context {T Adm : Type} (caps : list Z) (np ng : nat) (pages groups : list Z) (gen : Z).
Context (n_word : Z.of_nat (length caps) < usize_mod).
Implicit Types (rx : Receiver) (evs : list (recv_event T)) (cmds : list (recv_cmd T Adm)) (d : bool).
#[local] Abbreviation n := (length caps).
#[local] Abbreviation cguar := (cguar (T := T) caps np ng).
#[local] Abbreviation rguar := (rguar (T := T) n pages groups gen).
#[local] Abbreviation both := (guar_both cguar rguar).
#[local] Abbreviation seen := (seen_so_far (T := T) caps np ng).
#[local] Abbreviation quiet := (quiet (T := T) n pages groups gen).

Lemma wp_session fuel cmds : forall b rx evs x,
  (2 * batch_limit cmds + bound caps b < fuel)%nat -> seen b rx evs x ->
  wp cguar 0 (receiver_session fuel cmds evs rx) (fun r y => seen b r.2 r.1 y) x.
Proof.
  induction cmds as [|cmd cmds IH]; intros b rx evs x Hf Hx; cbn [receiver_session].
  - eapply wp_retP; [apply (seen_stable _ _ _ b rx evs)|exact Hx|done].
  - unfold batch_limit in *. cbn in Hf. eapply wp_call; [eapply wp_exec_recv; [|exact Hx]; lia|]. intros [es rx1] y Hy. apply IH; [lia|done].
Qed.

(** What a session adds to the events; without senders single receives return
    values or the news that the channel is disconnected. *)
Definition session_told d cmds evs (r : list (recv_event T) * Receiver) : Prop :=
  d = true -> forallb single cmds = true -> exists es, r.1 = evs ++ es /\ length es = length cmds /\ (EvError TryRecv_Empty ∉ es).

Lemma wlp_session fuel d cmds : forall rx evs x,
  quiet d (rcv_active rx) rx x ->
  wlp tails_ok rguar 0 (receiver_session fuel cmds evs rx)
    (fun r y => quiet d (rcv_active r.2) r.2 y /\ session_told d cmds evs r) x.
Proof.
  induction cmds as [|cmd cmds IH]; intros rx evs x Hx; cbn [receiver_session].
  - eapply wlp_quiet_ret; [exact Hx|]. intros y Hy. split; [done|]. intros _ _. exists []. rewrite app_nil_r. split; [done|]. split; [done|].
    apply not_elem_of_nil.
  - eapply wlp_call; [by apply wlp_exec_recv|]. clear x Hx. intros [es rx1] y [Hy Ht] _. cbn [fst snd] in *.
    eapply wlp_mono; [|by apply IH]. intros [evs' rx2] z [Hz Hs]. split; [done|]. intros Hd Hc. apply andb_true_iff in Hc as [Hc1 Hc2].
    destruct (Ht Hd Hc1) as (ev & -> & Hev). destruct (Hs Hd Hc2) as (es' & E & Hl & Hn). cbn in *. exists (ev :: es').
    rewrite E, <- app_assoc. split; [done|]. cbn. split; [lia|]. by apply not_elem_of_cons.
Qed.

Definition both_know b d rx evs (y : Shared T * (list (lghost T) * rghost)) : Prop :=
  seen b rx evs (y.1, y.2.1) /\ quiet d (rcv_active rx) rx (y.1, y.2.2) /\ cok caps np ng (y.1, y.2.1).

(** A program both arguments are about. *)
Lemma wp_both {A} i (p : prog (Shared T) A) Q1 Q2 x :
  cok caps np ng (x.1, x.2.1) -> wp cguar i p Q1 (x.1, x.2.1) -> wlp tails_ok rguar i p Q2 (x.1, x.2.2) ->
  wp both i p (fun a y => Q1 a (y.1, y.2.1) /\ Q2 a (y.1, y.2.2) /\ cok caps np ng (y.1, y.2.1)) x.
Proof. apply wp_wlp; [apply cok_tails|]. by intros j y z _ [H _]. Qed.

Lemma wp_both_session fuel d cmds b rx evs x :
  (2 * batch_limit cmds + bound caps b < fuel)%nat -> both_know b d rx evs x ->
  wp both 0 (receiver_session fuel cmds evs rx) (fun r y => both_know b d r.2 r.1 y /\ session_told d cmds evs r) x.
Proof.
  intros Hf (H1 & H2 & H3). eapply wp_mono; [|apply wp_both; [exact H3|by apply wp_session|by apply wlp_session]].
  intros r y (Y1 & [Y2 Y3] & Y4). by split.
Qed.

(** ** The senders are gone *)

Definition sender_done k (acc : list T) (y : Shared T * (list (lghost T) * rghost)) : Prop :=
  (exists p, send_ok caps np ng k p acc true 0 (y.1, y.2.1)) /\
  at_view (MpscReadySend.sender_at n pages groups gen k false false true true None) (y.1, y.2.2).

Lemma done_stable k acc : stable both (S k) (sender_done k acc).
Proof.
  intros x y [[p H1] H2] (j & Hj & G1 & G2). split.
  - exists p. eapply (fr_stable _ _ _ _ _ _ (send_frame caps np ng k p acc true 0)); [exact H1|]. by exists j.
  - eapply sender_stable; [exact Hj|exact H2|exact G2].
Qed.

Lemma done_dormant (accs : list (list T)) y :
  length accs = n -> (forall k acc, accs !! k = Some acc -> sender_done k acc y) -> dormant n y.2.2.
Proof.
  clear n_word. intros Hl H k Hk. destruct (lookup_lt_is_Some_2 accs k) as [acc Ha]; [lia|]. destruct (H k acc Ha) as [_ [_ _ S1 S2 S3 S4 _]]. cbn in *.
  split; [by apply S3|]. split; [by apply S4|]. rewrite S1, S2. done.
Qed.

Lemma quiet_dormant act rx (x : Shared T * rghost) : quiet false act rx x -> dormant n x.2 -> quiet true act rx x.
Proof.
  clear n_word. intros (hd & go & pd & [R1 R2 R3 _] & H2 & H3) Hd. exists hd, go, pd. split; [|done]. split; [done..|]. intros _. split; [done|]. set_solver.
Qed.

End session.

(** ** Counting *)

Definition is_item {T} (e : recv_event T) : bool := match e with EvItem _ _ => true | EvError _ => false end.

Lemma traced_length {T} (evs : list (recv_event T)) : forall tr, traced evs tr -> length tr = length (List.filter is_item evs).
Proof.
  induction evs as [|[lane v|e] evs IH]; intros tr H; [by destruct tr|..].
  - destruct tr as [|[k w] tr]; [done|]. destruct H as (_ & _ & H). cbn. f_equal. by apply IH.
  - apply IH. by destruct tr.
Qed.

Lemma filter_all {A} (f : A -> bool) l : (forall x, x ∈ l -> f x = true) -> List.filter f l = l.
Proof. induction l as [|x l IH]; intros H; [done|]. cbn. rewrite H by set_solver. f_equal. apply IH. set_solver. Qed.

(** Single receives that outnumber the values report the end. *)
Lemma told_end {T} (evs es : list (recv_event T)) tr m :
  traced (evs ++ es) tr -> (length tr <= m)%nat -> (m < length es)%nat -> (EvError TryRecv_Empty ∉ es) -> EvError TryRecv_Disconnected ∈ es.
Proof.
  intros Ht Hm Hl Hn. apply traced_length in Ht. rewrite List.filter_app, length_app in Ht.
  destruct (decide (Exists (fun e => is_item e = false) es)) as [He|He].
  - apply Exists_exists in He as ([lane v|[]] & Hin & E); [done|by destruct Hn|done].
  - rewrite (filter_all is_item es) in Ht; [lia|]. intros e Hin. destruct (is_item e) eqn:E; [done|]. destruct He. apply Exists_exists. eauto.
Qed.

Lemma tally_add f g m : tally (fun k => f k + g k)%nat m = (tally f m + tally g m)%nat.
Proof. induction m as [|m IH]; cbn; lia. Qed.

Lemma tally_one j m : tally (fun k => if decide (j = k) then 1 else 0)%nat m = if decide (j < m)%nat then 1%nat else 0%nat.
Proof. induction m as [|m IH]; cbn; [done|]. rewrite IH. repeat case_decide; lia. Qed.

Lemma tally_ext f g m : (forall k, f k = g k) -> tally f m = tally g m.
Proof. intros H. induction m as [|m IH]; cbn; [done|]. by rewrite IH, H. Qed.

Lemma lanes_total {T} n (tr : list (nat * T)) :
  Forall (fun e => (e.1 < n)%nat) tr -> length tr = tally (fun k => length (of_lane k tr)) n.
Proof.
  induction 1 as [|[j v] tr Hj _ IH]; [induction n as [|n IHn]; cbn in *; lia|]. cbn [length fst] in *.
  rewrite (tally_ext _ (fun k => (if decide (j = k) then 1 else 0) + length (of_lane k tr))%nat).
  - rewrite tally_add, tally_one, decide_True by done. lia.
  - intros k. unfold of_lane. rewrite filter_cons. cbn. by case_decide.
Qed.

Lemma tally_concat {T} (accs : list (list T)) : tally (fun k => length (nth k accs [])) (length accs) = length (concat accs).
Proof.
  induction accs as [|acc accs IH] using rev_ind; [done|]. rewrite length_app, concat_app, length_app. cbn. rewrite Nat.add_1_r. cbn.
  rewrite app_nil_r, app_nth2, Nat.sub_diag by lia. cbn. rewrite <- IH. f_equal.
  clear IH. generalize (le_n (length accs)). generalize (length accs) at 1 3 4. intros m Hm. induction m as [|m IHm]; [done|]. cbn.
  rewrite IHm, app_nth1 by lia. done.
Qed.

Lemma received_at_most {T} n (accs : list (list T)) tr :
  length accs = n -> Forall (fun e => (e.1 < n)%nat) tr -> (forall k acc, accs !! k = Some acc -> of_lane k tr `prefix_of` acc) ->
  (length tr <= length (concat accs))%nat.
Proof.
  intros Hl Hn Hp. rewrite (lanes_total n tr Hn), <- tally_concat, Hl. apply tally_le. intros k Hk.
  destruct (lookup_lt_is_Some_2 accs k) as [acc Ha]; [lia|]. rewrite (nth_lookup_Some _ _ _ _ Ha). by apply prefix_length, Hp.
Qed.

(** ** The theorem *)

Section theorem.
Context {T Adm : Type}.
Implicit Types (scripts : list (list (send_cmd T))).
#[local] Abbreviation thread_result := (list (recv_event T) * Receiver + list T)%type.

(** The threads of MpscThm; the receiver's returns its handle too. *)
Definition session_pool (fuel : nat) (cmds : list (recv_cmd T Adm)) scripts (txs : list Sender) (rx : Receiver)
    : list (prog (Shared T) thread_result) :=
  (let* r := receiver_session fuel cmds [] rx in Ret (inl r)) ::
  zip_with (fun sc tx => let* acc := sender_thread sc [] tx in Ret (inr acc)) scripts txs.

#[local] Abbreviation np s := (length (rs_pages (sh_index s))).
#[local] Abbreviation ng s := (length (rs_groups (sh_index s))).
#[local] Abbreviation marks_of caps s f := (f (length caps) (reg_pages (sh_registry s)) (reg_groups (sh_registry s)) (sh_registry_generation s)).

Definition session_guar caps (s : Shared T) : nat -> relation (Shared T * (list (lghost T) * rghost)) :=
  guar_both (cguar caps (np s) (ng s)) (marks_of caps s (rguar (T := T))).
Definition session_know caps (s : Shared T) b d rx evs (y : Shared T * (list (lghost T) * rghost)) : Prop :=
  both_know caps (np s) (ng s) (reg_pages (sh_registry s)) (reg_groups (sh_registry s)) (sh_registry_generation s) b d rx evs y.
Definition session_done caps (s : Shared T) k acc (y : Shared T * (list (lghost T) * rghost)) : Prop :=
  sender_done caps (np s) (ng s) (reg_pages (sh_registry s)) (reg_groups (sh_registry s)) (sh_registry_generation s) k acc y.

Lemma know_stable caps s b d rx evs : stable (session_guar caps s) 0 (session_know caps s b d rx evs).
Proof.
  intros x y (H1 & H2 & H3) (j & Hj & G1 & G2). split; [eapply seen_stable; [exact H1|by exists j]|].
  split; [by eapply quiet_stable|apply G1].
Qed.

Lemma session_pool_wp fuel (cmds : list (recv_cmd T Adm)) scripts cap more c0 s :
  0 < cap -> started (cap :: more) s -> length scripts = length (cap :: more) -> (rounds scripts + 2 * batch_limit cmds < fuel)%nat ->
  pool_wp (session_guar (cap :: more) s)
    (one_many (fun r y => session_know (cap :: more) s (marks scripts) false r.2 r.1 y) (session_done (cap :: more) s))
    (session_pool fuel cmds scripts (MpscSetup.sender_at Park <$> seq 0 (length scripts)) (first_receiver cap c0))
    (s, (ghosts scripts, no_marks)).
Proof.
  intros Hc Hs Hl Hf. pose proof (start_cok _ _ _ Hs Hl) as Hok. destruct (st_lanes _ _ Hs) as [_ Hn].
  intros [|i] q Hq; cbn [session_pool lookup list_lookup] in Hq.
  - injection Hq as <-. eapply wp_call.
    + apply (wp_both_session (cap :: more) (np s) (ng s) _ _ _ Hn fuel false cmds (marks scripts)).
      * unfold bound. unfold rounds in Hf. rewrite <- Hl. lia.
      * split; [|split; [by apply start_quiet|done]]. exists (marks scripts), []. split; [apply spent_refl|]. split; [by apply start_chan|]. split; [by split|].
        intros Hin. by apply elem_of_nil in Hin.
    + intros r y [Hy _]. eapply (wp_retP _ _ (session_know (cap :: more) s (marks scripts) false r.2 r.1)); [apply know_stable|exact Hy|]. intros z Hz. exists r. eauto.
  - change (zip_with (fun sc tx => let* acc := sender_thread sc [] tx in Ret (inr acc)) scripts
      (MpscSetup.sender_at Park <$> seq 0 (length scripts)) !! i = Some q) in Hq.
    apply lookup_zip_with_Some in Hq as (sc & tx & -> & Hsc & Htx). pose proof (lookup_lt_Some _ _ _ Hsc) as Hlt.
    rewrite list_lookup_fmap, lookup_seq_lt in Htx by done. injection Htx as <-.
    destruct (lookup_lt_is_Some_2 (cap :: more) i) as [capi Hi]; [lia|].
    eapply wp_call.
    + apply (wp_both (cap :: more) (np s) (ng s)); [exact Hok| |].
      * apply (wp_mpsc_sender_thread (cap :: more) (np s) (ng s) i sc (mkProducer 0 0) [] (MpscSetup.sender_at Park i)); [done|].
        pose proof (start_sender _ _ scripts _ _ Hs Hl Hi) as H. unfold marks in H. by rewrite (nth_lookup_Some _ _ _ _ Hsc) in H.
      * apply (wlp_sender_thread _ _ _ _ Hn i sc [] (MpscSetup.sender_at Park i)); [done|]. apply start_sender_marks; [done|lia].
    + intros acc y ([p Hp] & Hm & _). eapply (wp_retP _ _ (session_done (cap :: more) s i acc)); [apply done_stable|by split; [exists p|]|].
      intros z Hz. exists acc. eauto.
Qed.

(** The receiver alone, after the threads. *)
Lemma drain_rest fuel caps (s s' : Shared T) b rx evs accs g (more : list (recv_cmd T Adm)) :
  Z.of_nat (length caps) < usize_mod -> length accs = length caps -> (bound caps b < fuel)%nat ->
  session_know caps s b false rx evs (s', g) -> (forall k acc, accs !! k = Some acc -> session_done caps s k acc (s', g)) ->
  forallb single more = true -> (length (concat accs) < length more)%nat ->
  exists es rx' s'' tr, run (receiver_session fuel more evs rx) s' = (Done (evs ++ es, rx'), s'') /\
    (EvError TryRecv_Empty ∉ es) /\ EvError TryRecv_Disconnected ∈ es /\ traced (evs ++ es) tr /\
    Forall (fun e => (e.1 < length caps)%nat) tr /\ forall k acc, accs !! k = Some acc -> of_lane k tr = acc.
Proof.
  intros Hn Hl Hf (K1 & K2 & K3) Hd Hm Hlen.
  assert (Hb : batch_limit more = 0%nat).
  { clear -Hm. unfold batch_limit. induction more as [|cmd more IH]; [done|]. apply andb_true_iff in Hm as [H1 H2]. cbn. rewrite IH by done.
    by destruct cmd. }
  assert (K : session_know caps s b true rx evs (s', g)).
  { split; [done|]. split; [|done]. apply quiet_dormant; [done|]. by eapply (done_dormant _ _ _ _ _ _ _ (s', g)). }
  destruct (wp_run_guar _ _ _ _ _ _ (wp_both_session _ _ _ _ _ _ Hn fuel true more b rx evs (s', g) ltac:(lia) K))
    as ([evs' rx'] & s'' & g' & Hrun & [(Hseen & _) Htold] & Hg).
  destruct (Htold eq_refl Hm) as (es & E & Hes & Hno). cbn in E. subst evs'.
  assert (Hd' : forall k acc, accs !! k = Some acc -> session_done caps s k acc (s'', g')).
  { intros k acc Ha. eapply (stable_guar _ 0 (S k)); [done|apply done_stable|by apply Hd|exact Hg]. }
  destruct (seen_accepted _ _ _ _ _ _ accs _ Hseen Hl) as (tr & Ht & Hlt & Hall).
  { intros k acc Ha. destruct (Hd' k acc Ha) as [[p Hp] _]. eauto. }
  assert (Hend : EvError TryRecv_Disconnected ∈ es).
  { eapply told_end; [exact Ht| |by rewrite Hes|exact Hno]. eapply received_at_most; [exact Hl|exact Hlt|]. intros k acc Ha. by apply Hall. }
  exists es, rx', s'', tr. do 5 (split; [done|]). intros k acc Ha. apply Hall; [done|]. apply elem_of_app. by right.
Qed.

(** C3: nothing that was accepted stays in the channel.  Senders on threads of
    their own send and are dropped, a receiver receives as it likes; in every
    interleaving that has come to its end, single receives by the receiver
    alone, more of them than values were accepted, return every accepted value
    in the order of its lane and then report that the channel is disconnected.
    None of them reports an empty channel: no wake-up of the readiness index
    was lost, whatever the order in which senders marked their lanes, bits of
    pages and groups were set and the receiver took them. *)
Theorem mpsc_drain_complete (c0 id : Z) (capacities : list Z) scripts (cmds : list (recv_cmd T Adm)) (fuel : nat) :
  Forall (fun c => 0 < c <= 2 ^ 62) (c0 :: capacities) -> Z.of_nat (length (c0 :: capacities)) < usize_mod ->
  length scripts = length (c0 :: capacities) -> (rounds scripts + 2 * batch_limit cmds < fuel)%nat ->
  exists s txs rx, open_channel c0 id capacities = Done (s, txs, rx) /\ length txs = length scripts /\
    Acc (flip pstep) (s, session_pool fuel cmds scripts txs rx) /\
    forall s' ps, rtc pstep (s, session_pool fuel cmds scripts txs rx) (s', ps) ->
      (exists c', pstep (s', ps) c') \/
      exists evs rx' accs, ps = Ret (inl (evs, rx')) :: ((fun acc => Ret (inr acc)) <$> accs) /\ length accs = length scripts /\
        forall more : list (recv_cmd T Adm), forallb single more = true -> (length (concat accs) < length more)%nat ->
          exists es rx'' s'' tr, run (receiver_session fuel more evs rx') s' = (Done (evs ++ es, rx''), s'') /\
            (EvError TryRecv_Empty ∉ es) /\ EvError TryRecv_Disconnected ∈ es /\ traced (evs ++ es) tr /\
            Forall (fun e => (e.1 < length scripts)%nat) tr /\ forall k acc, accs !! k = Some acc -> of_lane k tr = acc.
Proof.
  intros Hc Hn Hl Hf. destruct (open_channel_started (T := T) c0 id capacities Hc Hn) as (cap & more & s & Hcap & Lm & Hs & E).
  assert (Hl' : length scripts = length (cap :: more)) by (rewrite Hl; by eapply Forall2_length).
  eexists s, _, _. split; [exact E|]. split; [rewrite length_fmap, length_seq; lia|]. split; [apply pstep_terminating|].
  rewrite <- Hl. intros s' ps Hr.
  destruct (pool_one_many _ _ _ _ _ _ _ _ (session_pool_wp fuel cmds scripts cap more c0 s Hcap Hs Hl' Hf) Hr)
    as [Hstep|([evs rx'] & accs & g & -> & Hlen & Hknow & Hpost)]; [done|by left|right].
  cbn [session_pool length] in Hlen. rewrite length_zip_with, length_fmap, length_seq, Nat.min_id in Hlen.
  exists evs, rx', accs. split; [done|]. split; [lia|]. rewrite Hl'. intros rest Hone Hlong. destruct (st_lanes _ _ Hs) as [_ Hn'].
  apply (drain_rest fuel (cap :: more) s s' (marks scripts) rx' evs accs g rest); try done; [lia|].
  unfold bound. unfold rounds in Hf. rewrite <- Hl'. lia.
Qed.

End theorem.

Lemma mpsc_drain_complete_witness :
  exists s txs rx, open_channel 2 7 [1; 4] = Done (s, txs, rx) /\ length txs = length demo_senders /\
    Acc (flip pstep) (s, session_pool 50 demo_receiver demo_senders txs rx) /\
    forall s' ps, rtc pstep (s, session_pool 50 demo_receiver demo_senders txs rx) (s', ps) ->
      (exists c', pstep (s', ps) c') \/
      exists evs rx' accs, ps = Ret (inl (evs, rx')) :: ((fun acc => Ret (inr acc)) <$> accs) /\ length accs = length demo_senders /\
        forall more : list (recv_cmd nat nat), forallb single more = true -> (length (concat accs) < length more)%nat ->
          exists es rx'' s'' tr, run (receiver_session 50 more evs rx') s' = (Done (evs ++ es, rx''), s'') /\
            (EvError TryRecv_Empty ∉ es) /\ EvError TryRecv_Disconnected ∈ es /\ traced (evs ++ es) tr /\
            Forall (fun e => (e.1 < length demo_senders)%nat) tr /\ forall k acc, accs !! k = Some acc -> of_lane k tr = acc.
Proof.
  apply (mpsc_drain_complete 2 7 [1; 4] demo_senders demo_receiver 50);
    [repeat constructor; lia|vm_compute; reflexivity|reflexivity|vm_compute; lia].
Defined.
