(* ===== verification/MpscParked.v ===== *)
(** * Who is registered on a wait cell

    Every wait cell of an MPSC channel has one waiter: the receiver parks on
    the data cell, the sender of a lane on the lane's capacity cell.
    [WaitCell::prepare] asserts that nobody is registered yet.  This file adds
    to the guarantee of MpscConc that a thread changes the waiter bit of its
    own cell only, and shows that the operations that do not block change no
    waiter bit at all: they only notify. *)

From S2P Require Import Prelude Prog ProgPartial Config Wait Ready YRing YRingConc YRingClose Handoff MpscLane Mpsc MpscConc MpscSendConc MpscThm.
Local Open Scope prog_scope.

(** ** The waiter bit of a cell *)

Definition cell_waits (c : WaitCell) : bool := Z.odd (wc_state c).

Lemma odd_mod2 a b : a mod 2 = b mod 2 -> Z.odd a = Z.odd b.
Proof. rewrite !Zmod_odd. by destruct (Z.odd a), (Z.odd b). Qed.

Lemma waits_notify : keeps cell_waits WaitCell_notify.
Proof.
  split; [intros c; apply odd_mod2, notify_parity|]. intros r. cbn. case_match; [|done]. split; [|done].
  intros c. cbn. by case_match.
Qed.

Lemma odd_lor_waiting s : Z.odd (Z.lor s WAITING) = true.
Proof. unfold WAITING. by rewrite <- Z.bit0_odd, Z.lor_spec, orb_true_r. Qed.

Lemma odd_land_waiting s : Z.odd (Z.land s (usize_max - WAITING)) = false.
Proof. by rewrite <- Z.bit0_odd, Z.land_spec, andb_false_r. Qed.

Lemma land_waiting_odd s : (Z.land s WAITING =? 0) = negb (Z.odd s).
Proof. rewrite land_waiting, Zmod_odd. by destruct (Z.odd s). Qed.

(** Thread [j]'s cell: thread [0] is the receiver, thread [S k] the sender of
    lane [k]. *)
Definition index_parked (j : nat) (i : ready_store) : bool :=
  match j with O => false | S k => cell_waits (lane_cell (Z.of_nat k) i) end.
Definition parked {T} (j : nat) (s : Shared T) : bool :=
  match j with O => cell_waits (sh_data_waiter s) | S _ => index_parked j (sh_index s) end.

(** ** Operations that leave every waiter bit as it is *)

Section quiet.
Context {T : Type} (j : nat).
#[local] Abbreviation quiet := (keeps (parked (T := T) j)).
#[local] Abbreviation quiet_index := (keeps (index_parked j)).

Lemma quiet_ring {A} h (p : prog (HRing T) A) : quiet (on_lane_ring h p).
Proof. apply (keeps_focus _ _ (fun _ => tt)); [by destruct j|]. by induction p; cbn. Qed.

Lemma quiet_on_index {A} (p : prog ready_store A) : quiet_index p -> quiet (on_index p).
Proof. apply keeps_lift_part. by destruct j. Qed.

Lemma quiet_group {R} g (f : ReadyGroup -> R * ReadyGroup) : quiet_index (on_group g f).
Proof. split; [|by intros []]. intros i. cbn. destruct (zlookup _ _) as [gr|]; [|done]. destruct (f gr). by destruct j. Qed.

Lemma quiet_page {R} p (f : ReadyPage -> R * ReadyPage) : quiet_index (on_page p f).
Proof. split; [|by intros []]. intros i. cbn. destruct (zlookup _ _) as [pg|]; [|done]. destruct (f pg). by destruct j. Qed.

Lemma parked_set_signal l sg sg' i :
  zlookup (rs_signals i) l = Some sg -> cell_waits (space_waiter sg') = cell_waits (space_waiter sg) ->
  index_parked j (set_signal_at l sg' i) = index_parked j i.
Proof.
  intros Hl E. pose proof (zlookup_Some_range _ _ _ Hl) as Hr. destruct j as [|k]; [done|]. cbn. unfold lane_cell. cbn.
  destruct (Z.eq_dec l (Z.of_nat k)) as [->|]; [|by rewrite zlookup_zinsert_ne by lia].
  by rewrite zlookup_zinsert_eq, Hl.
Qed.

Lemma quiet_signal {R} l (f : LaneSignal -> R * LaneSignal) :
  (forall sg, space_waiter (f sg).2 = space_waiter sg) -> quiet_index (on_signal l f).
Proof.
  intros Hf. split; [|by intros []]. intros i. cbn. destruct (zlookup _ l) as [sg|] eqn:E; [|done].
  specialize (Hf sg). destruct (f sg) as [r sg']. cbn in *. apply (parked_set_signal l sg); [done|by rewrite Hf].
Qed.

Lemma quiet_notify_space l : quiet_index (LaneSignal_notify_space l).
Proof.
  eapply keeps_lift_part; [|apply waits_notify]. intros i w Hw. unfold put_lane_cell. unfold lane_cell in Hw.
  destruct (zlookup (rs_signals i) l) as [sg|] eqn:E; [|done]. by apply (parked_set_signal l sg).
Qed.

Lemma quiet_data_notify : quiet data_notify.
Proof. eapply keeps_lift_part; [|apply waits_notify]. by destruct j. Qed.

Lemma quiet_shared_load {R} (get : Shared T -> R) : quiet (load get).
Proof. by cbn. Qed.
Lemma quiet_counts (f : Shared T -> Shared T) :
  (forall s, sh_data_waiter (f s) = sh_data_waiter s) -> (forall s, sh_index (f s) = sh_index s) -> quiet (store f).
Proof. intros H1 H2. split; [|done]. intros s. destruct j; cbn; congruence. Qed.

Lemma quiet_usub a b : quiet (usub a b).
Proof. unfold usub. by case_match. Qed.
Lemma quiet_when b (p : prog (Shared T) unit) : quiet p -> quiet (when b p).
Proof. by destruct b. Qed.

#[local] Hint Resolve quiet_ring quiet_on_index quiet_group quiet_page quiet_notify_space quiet_data_notify quiet_shared_load quiet_usub quiet_when : fanring.

Lemma quiet_mark l : quiet_index (LaneSignal_mark l).
Proof. apply keeps_bind; [by apply quiet_signal|]. unfold ReadyPage_mark, ReadyGroup_mark. keeps_tac. Qed.
#[local] Hint Resolve quiet_mark : fanring.

(** ** Senders *)

Lemma quiet_is_disconnected pol tx : quiet (Sender_is_disconnected pol tx).
Proof. unfold Sender_is_disconnected. keeps_tac. Qed.
Lemma quiet_try_send_inner pol tx v : quiet (Sender_try_send_inner pol tx v).
Proof. unfold Sender_try_send_inner, Sender_push_error, Shared_mark_ready. keeps_tac. Qed.
#[local] Hint Resolve quiet_is_disconnected quiet_try_send_inner : fanring.
Lemma quiet_try_send pol tx v : quiet (Sender_try_send pol tx v).
Proof. unfold Sender_try_send. keeps_tac. Qed.
Lemma quiet_flush tx : quiet (Sender_flush tx).
Proof. unfold Sender_flush, Shared_mark_ready. keeps_tac. Qed.
#[local] Hint Resolve quiet_try_send quiet_flush : fanring.
Lemma quiet_exec_send cmd tx : quiet (exec_send cmd tx).
Proof.
  destruct cmd; cbn [exec_send];
    unfold Sender_try_send_unsignaled, Sender_try_send_deferred, Sender_push_error, Sender_is_full; keeps_tac.
Qed.
Lemma quiet_sender_drop tx : quiet (Sender_drop tx).
Proof. unfold Sender_drop, Shared_mark_ready, fetch_sub_live_senders. keeps_tac. all: by apply quiet_counts. Qed.

(** ** The receiver *)

Lemma quiet_lane_new key signal ring c : quiet (Lane_new key signal ring c).
Proof. unfold Lane_new. keeps_tac. Qed.
Lemma quiet_close_fast l : quiet (Lane_close_fast l).
Proof. unfold Lane_close_fast. keeps_tac. Qed.
Lemma quiet_prefetch l : quiet (Lane_prefetch l).
Proof. unfold Lane_prefetch. keeps_tac. Qed.
Lemma quiet_pop_fast l : quiet (Lane_pop_fast l).
Proof. unfold Lane_pop_fast. keeps_tac. Qed.
#[local] Hint Resolve quiet_lane_new quiet_close_fast quiet_prefetch quiet_pop_fast : fanring.
Lemma quiet_grant_fast l m : quiet (Lane_grant_fast l m).
Proof. unfold Lane_grant_fast. keeps_tac. Qed.
Lemma quiet_release_pending l : quiet (Lane_release_pending l).
Proof. unfold Lane_release_pending. keeps_tac. Qed.
Lemma quiet_reload_is_empty l : quiet (Lane_reload_is_empty l).
Proof. unfold Lane_reload_is_empty. keeps_tac. Qed.
#[local] Hint Resolve quiet_grant_fast quiet_release_pending quiet_reload_is_empty : fanring.
Lemma quiet_finish_drain l : quiet_index (LaneSignal_finish_drain l).
Proof. by apply quiet_signal. Qed.
Lemma quiet_claim l : quiet_index (LaneSignal_claim_after_empty l).
Proof. apply quiet_signal. intros sg. by case_match. Qed.
Lemma quiet_is_pending l : quiet_index (LaneSignal_is_pending l).
Proof. by apply quiet_signal. Qed.
#[local] Hint Resolve quiet_finish_drain quiet_claim quiet_is_pending : fanring.
Lemma quiet_refill l : quiet (Lane_refill l).
Proof. unfold Lane_refill, Lane_settle_empty. keeps_tac. Qed.
#[local] Hint Resolve quiet_refill : fanring.
Lemma quiet_lane_poll FAIR l : quiet (Lane_poll FAIR l).
Proof. unfold Lane_poll, Lane_pop_counted. keeps_tac. Qed.
Lemma quiet_pop_fair l m : quiet (Lane_pop_fair l m).
Proof. unfold Lane_pop_fair. keeps_tac. Qed.
Lemma quiet_move_chunk {Adm} l output take admission (adm : Adm) : quiet (Lane_move_chunk l output take admission adm).
Proof. unfold Lane_move_chunk. keeps_tac. Qed.
#[local] Hint Resolve quiet_lane_poll quiet_pop_fair quiet_move_chunk : fanring.

Lemma quiet_adopt pending : forall rx, quiet (adopt_pending pending rx).
Proof. induction pending; intros rx; cbn [adopt_pending]; keeps_tac. Qed.
#[local] Hint Resolve quiet_adopt : fanring.
Lemma quiet_refresh rx : quiet (Receiver_refresh_registry rx).
Proof. unfold Receiver_refresh_registry. keeps_tac. Qed.
#[local] Hint Resolve quiet_refresh : fanring.
Lemma quiet_collect_lanes fuel page : forall bits rx, quiet (collect_lanes fuel page bits rx).
Proof. induction fuel; intros bits rx; cbn [collect_lanes]; keeps_tac. Qed.
#[local] Hint Resolve quiet_collect_lanes : fanring.
Lemma quiet_collect_pages fuel group : forall bits rx, quiet (collect_pages fuel group bits rx).
Proof. induction fuel; intros bits rx; cbn [collect_pages]; unfold ReadyPage_take; keeps_tac. Qed.
#[local] Hint Resolve quiet_collect_pages : fanring.
Lemma quiet_collect_groups m count all : forall next rx, quiet (collect_groups m count next all rx).
Proof. induction m; intros next rx; cbn [collect_groups]; unfold ReadyGroup_has_ready, ReadyGroup_take_all; keeps_tac. Qed.
Lemma quiet_collect_ready all rx : quiet (Receiver_collect_ready all rx).
Proof. apply keeps_bind; [auto with fanring|]. intros. apply quiet_collect_groups. Qed.
#[local] Hint Resolve quiet_collect_ready : fanring.

Lemma quiet_retire pol key rx : quiet (Receiver_retire_lane pol key rx).
Proof. unfold Receiver_retire_lane. keeps_tac. all: by apply quiet_counts. Qed.
#[local] Hint Resolve quiet_retire : fanring.
Lemma quiet_retire_paused pol m : forall slot rx, quiet (retire_paused_from pol m slot rx).
Proof. induction m; intros slot rx; cbn [retire_paused_from]; keeps_tac. Qed.
#[local] Hint Resolve quiet_retire_paused : fanring.
Lemma quiet_is_drained pol rx : quiet (Receiver_is_drained pol rx).
Proof. unfold Receiver_is_drained, Receiver_is_disconnected, Receiver_retire_empty_paused_lanes. keeps_tac. Qed.
Lemma quiet_notify_released released rx : quiet (Receiver_notify_released released rx).
Proof. unfold Receiver_notify_released. keeps_tac. Qed.
#[local] Hint Resolve quiet_is_drained quiet_notify_released : fanring.

Lemma quiet_release_lanes lanes : quiet (release_lanes lanes).
Proof. induction lanes as [|[l|] lanes IH]; cbn [release_lanes]; keeps_tac. Qed.
#[local] Hint Resolve quiet_release_lanes : fanring.
Lemma quiet_release_consumed rx : quiet (Receiver_release_consumed rx).
Proof. unfold Receiver_release_consumed. keeps_tac. Qed.
#[local] Hint Resolve quiet_release_consumed : fanring.

Section output.
Context {Item : Type} (item : Z -> LaneKey -> T -> Item) (pol : Teardown).

Lemma quiet_item key v : quiet (output_item item key v).
Proof. unfold output_item. keeps_tac. Qed.
Lemma quiet_charge rx : quiet (charge_poll_budget rx).
Proof. unfold charge_poll_budget. keeps_tac. Qed.
#[local] Hint Resolve quiet_item quiet_charge : fanring.
Lemma quiet_try_recv_inner FAIR fuel : forall rx, quiet (Receiver_try_recv_inner pol item FAIR fuel rx).
Proof. induction fuel; intros rx; cbn [Receiver_try_recv_inner]; unfold Receiver_poll_lane; keeps_tac. Qed.
#[local] Hint Resolve quiet_try_recv_inner : fanring.
Lemma quiet_recv_retry FAIR fuel inner : forall rx, quiet (Receiver_recv_retry pol item FAIR fuel inner rx).
Proof. induction fuel; intros rx; cbn [Receiver_recv_retry]; keeps_tac. Qed.
#[local] Hint Resolve quiet_recv_retry : fanring.
Lemma quiet_try_recv fuel rx : quiet (Receiver_try_recv_output pol item fuel rx).
Proof. unfold Receiver_try_recv_output, Receiver_try_recv_refill. keeps_tac. Qed.
Lemma quiet_any_ready groups : quiet (any_ready groups).
Proof. induction groups; cbn [any_ready]; unfold ReadyGroup_has_ready; keeps_tac. Qed.
#[local] Hint Resolve quiet_any_ready : fanring.
Lemma quiet_try_recv_fair fuel rx : quiet (Receiver_try_recv_fair_output pol item fuel rx).
Proof. unfold Receiver_try_recv_fair_output. keeps_tac. Qed.
End output.
#[local] Hint Resolve quiet_try_recv quiet_try_recv_fair : fanring.

Lemma quiet_drain {Adm} pol fuel limit admission : forall received output (adm : Adm) rx,
  quiet (Receiver_drain_loop pol fuel received limit output admission adm rx).
Proof.
  induction fuel; intros received output adm rx; cbn [Receiver_drain_loop];
    unfold Receiver_refresh_active, Receiver_settle_empty_front, Lane_chunk_limit, Lane_end_full_burst; keeps_tac.
Qed.
#[local] Hint Resolve quiet_drain : fanring.

Lemma quiet_drain_into {Adm} pol fuel limit output admission (adm : Adm) rx :
  quiet (Receiver_drain_into pol fuel limit output admission adm rx).
Proof. apply quiet_drain. Qed.
#[local] Hint Resolve quiet_drain_into : fanring.

Lemma quiet_exec_recv {Adm} fuel (cmd : recv_cmd T Adm) rx : quiet (exec_recv fuel cmd rx).
Proof.
  destruct cmd; cbn [exec_recv];
    unfold Receiver_try_recv, Receiver_try_recv_fair, LaneReceiver_try_recv, LaneReceiver_try_recv_fair,
      Receiver_try_recv_batch_into, Receiver_try_recv_batch_into_while, Receiver_is_disconnected, Receiver_sender_count; keeps_tac.
Qed.


End quiet.

(** ** The guarantee with the waiter bits *)

Section guarantee.
Context {T : Type} (caps : list Z) (np ng : nat).
#[local] Abbreviation cok := (cok (T := T) caps np ng).
#[local] Abbreviation cguar := (cguar (T := T) caps np ng).
#[local] Abbreviation Frame := (Frame (T := T) caps np ng).
Implicit Types (x y : cst T) (F P : cst T -> Prop).

(** A thread changes the waiter bit of its own cell only. *)
Definition bguar (i : nat) : relation (cst T) :=
  fun x y => cguar i x y /\ forall j, j <> i -> parked j y.1 = parked j x.1.

(** An assertion together with the thread's own bit. *)
Definition with_bit (i : nat) P (b : bool) x : Prop := P x /\ parked i x.1 = b.

Lemma rely_bguar i x y : rely bguar i x y -> rely cguar i x y /\ parked i y.1 = parked i x.1.
Proof. intros (j & Hj & Hg & Hb). split; [by exists j|]. by apply Hb. Qed.

Lemma rtc_bguar i x y : rtc (rely bguar i) x y -> rtc (rely cguar i) x y /\ parked i y.1 = parked i x.1.
Proof.
  intros H. induction H as [|x y z Hr _ [IH E]]; [by split|]. destruct (rely_bguar _ _ _ Hr) as [H1 H2].
  split; [by eapply rtc_l|congruence].
Qed.

Lemma bit_stable i P b : stable cguar i P -> stable bguar i (with_bit i P b).
Proof. intros HS x y [Hx Hb] Hr. destruct (rely_bguar _ _ _ Hr) as [H1 H2]. split; [by eapply HS|congruence]. Qed.

(** A program that leaves the bits alone keeps its specification. *)
Lemma wp_quiet {A} i (p : prog (Shared T) A) Q b x :
  (forall j, keeps (parked j) p) -> wp cguar i p Q x -> parked i x.1 = b ->
  wp bguar i p (fun a => with_bit i (Q a) b) x.
Proof.
  revert x. induction p as [a|R f k IH|e]; intros x Hq Hw Hb y Hy; destruct (rtc_bguar _ _ _ Hy) as [Hr E].
  - split; [by apply Hw|congruence].
  - destruct (Hw y Hr) as (g' & Hg & Hk). exists g'. split.
    + split; [done|]. intros j _. apply Hq.
    + apply IH; [intros j; apply Hq|done|]. cbn. rewrite (proj1 (Hq i)). congruence.
  - exact (Hw y Hr).
Qed.

(** ** Operations on a thread's own cell *)

(** What an operation of a cell whose waiter bit is [b] ends with, the word
    being changed by notifications meanwhile. *)
Fixpoint cell_wp {A} (q : prog WaitCell A) (Q : A -> bool -> Prop) (b : bool) : Prop :=
  match q with
  | Ret a => Q a b
  | Act f k => forall c, cell_waits c = b -> cell_wp (k (f c).1) Q (cell_waits (f c).2)
  | Fail _ => False
  end.

Definition on_own_cell {A} (i : nat) (q : prog WaitCell A) : prog (Shared T) A :=
  match i with O => on_data_waiter q | S k => on_index (LaneSignal_on_cell (Z.of_nat k) q) end.

Definition own_cell (i : nat) (s : Shared T) : WaitCell :=
  match i with O => sh_data_waiter s | S k => lane_cell (Z.of_nat k) (sh_index s) end.
Definition put_own_cell (i : nat) (w : WaitCell) (s : Shared T) : Shared T :=
  match i with O => set_sh_data_waiter w s | S k => set_sh_index (put_lane_cell (Z.of_nat k) w (sh_index s)) s end.

Lemma parked_own i s : parked i s = cell_waits (own_cell i s).
Proof. by destruct i. Qed.

Lemma own_cell_step i s g (w : WaitCell) :
  cok (s, g) -> (i <= length caps)%nat ->
  let s' := put_own_cell i w s in
  bguar i (s, g) (s', g) /\ cok (s', g) /\ upd None (s, g) (s', g) /\ parked i s' = cell_waits w.
Proof.
  intros Hc Hi. destruct i as [|k]; cbn zeta; cbn [put_own_cell].
  - destruct (cguar_inert caps np ng 0 s (set_sh_data_waiter w s) g Hc) as [Hg Hc']; [done|by left|apply Hc|done|].
    split; [|done]. split; [done|]. by intros [|j] Hj.
  - destruct (index_signal caps np ng (sh_index s) k (co_index _ _ _ _ Hc) ltac:(lia)) as (l & Hl & Hz & _ & Es).
    destruct (index_valid_signal caps np ng (sh_index s) k l (with_space_waiter w l) (co_index _ _ _ _ Hc) Hl eq_refl eq_refl) as (V1 & V2 & V3).
    assert (E : put_lane_cell (Z.of_nat k) w (sh_index s) = set_signal_at (Z.of_nat k) (with_space_waiter w l) (sh_index s))
      by (unfold put_lane_cell; by rewrite Hz). rewrite E. set (s' := set_sh_index _ s).
    assert (Hsig : forall j, sig_state (sh_index s') j = sig_state (sh_index s) j).
    { intros j. destruct (decide (j = k)) as [->|Hne]; [cbn; by rewrite V3, Es|by apply V2]. }
    destruct (cguar_inert caps np ng (S k) s s' g Hc) as [Hg Hc']; [done|by left|done|done|].
    split; [|split; [done|split; [by split|]]].
    + split; [done|]. intros [|j] Hj; [done|]. cbn. unfold lane_cell. cbn. rewrite zlookup_zinsert_ne by lia. done.
    + cbn. unfold lane_cell. cbn. rewrite zlookup_zinsert_eq by (by eapply zlookup_Some_range). done.
Qed.

Lemma wp_own_cell {A} i F (q : prog WaitCell A) Q b x :
  Frame i None F -> (i <= length caps)%nat -> with_bit i F b x -> cell_wp q Q b ->
  wp bguar i (on_own_cell i q) (fun a y => exists b', with_bit i F b' y /\ Q a b') x.
Proof.
  intros HF Hi. revert b x. induction q as [a|R f k IH|e]; intros b x Hx Hq.
  - assert (E : forall y, with_bit i F b y -> exists b', with_bit i F b' y /\ Q a b') by eauto.
    destruct i; (eapply wp_retP; [apply bit_stable, HF|exact Hx|exact E]).
  - assert (Hstep : forall (p : R -> prog (Shared T) A), (forall r, p r = on_own_cell i (k r)) ->
      forall h, (forall s, h s = ((f (own_cell i s)).1, put_own_cell i (f (own_cell i s)).2 s)) ->
      wp bguar i (Act h p) (fun a y => exists b', with_bit i F b' y /\ Q a b') x).
    { intros p Ep h Eh. eapply wp_act; [apply bit_stable, HF|exact Hx|]. intros s g [Hs Hb]. rewrite Eh, Ep. cbn [fst snd] in *.
      destruct (own_cell_step i s g (f (own_cell i s)).2) as (Hg & Hc & Hu & E); [by eapply fr_cok|done|].
      exists g. split; [done|]. apply (IH _ (cell_waits (f (own_cell i s)).2)).
      - split; [by eapply fr_upd|done].
      - apply Hq. by rewrite <- parked_own. }
    destruct i as [|j]; apply Hstep; [done| |done|]; intros s; cbn; by destruct (f _).
  - done.
Qed.

(** Registering, parking and the drop of a registration. *)
Lemma cell_prepare : cell_wp WaitCell_prepare (fun _ b => b = true) false.
Proof.
  intros c Hc. cbn. rewrite land_waiting_odd. unfold cell_waits in *. rewrite Hc. cbn. apply odd_lor_waiting.
Qed.

Lemma cell_drop b : cell_wp WaitRegistration_drop (fun _ b => b = false) b.
Proof. intros c _. cbn. apply odd_land_waiting. Qed.

Lemma cell_wp_bind {A B} (q : prog WaitCell A) (k : A -> prog WaitCell B) Q b :
  cell_wp q (fun a => cell_wp (k a) Q) b -> cell_wp (bind q k) Q b.
Proof. revert b. induction q as [a|R f c IH|e]; intros b; cbn; auto. Qed.

Lemma cell_sleep {B} r (k : bool -> prog WaitCell B) Q b :
  (forall a, cell_wp (k a) Q b) ->
  cell_wp (let* asleep := WaitRegistration_wait_begin r in let* _ := when asleep WaitRegistration_wake in k asleep) Q b.
Proof.
  intros H. apply cell_wp_bind. intros c <-. cbn. destruct (WaitRegistration_is_current r c); cbn; [|apply H].
  intros c' Hc'. change (cell_waits (mkWaitCell (wc_state c') false)) with (cell_waits c'). rewrite Hc'. apply H.
Qed.

Lemma cell_wait r b : cell_wp (WaitRegistration_wait r) (fun _ b => b = false) b.
Proof. apply (cell_sleep r (fun _ => WaitRegistration_drop)). intros _. apply cell_drop. Qed.

Lemma cell_wait_timeout r timed_out b : cell_wp (WaitRegistration_wait_timeout r timed_out) (fun _ b => b = false) b.
Proof. apply (cell_sleep r (fun asleep => let* _ := WaitRegistration_drop in Ret (asleep && timed_out))). intros a. apply cell_drop. Qed.

End guarantee.
