(* ===== verification/MpscBlockingThm.v ===== *)
(** * Blocking operations of the MPSC channel under every interleaving

    Senders and a receiver whose threads block: the sends and receives of
    MpscBlocking, without a deadline or with one, mixed with the operations
    that do not wait.  The endpoints keep the contract of Blocking ([Keeps]),
    so what an attempt does is what the loop around it does: a send that timed
    out or was refused sent nothing, and a receive takes a value or nothing.

    Every call has its own readings of the clock and its own rounds of the
    parking loop ([wait_env]); a thread whose call still waits when the rounds
    are used up stays where it is, which a call with a deadline that passes
    does not ([send_comes_back], [recv_comes_back]). *)

From S2P Require Import Prelude Prog ProgPartial Config Blocking Wait Ready YRing YRingConc YRingClose Handoff MpscLane Mpsc MpscConc MpscRecvConc MpscRecvLoop MpscSendConc MpscSetup MpscThm MpscBlocking MpscParked.
Local Open Scope prog_scope.

(** What a failed operation hands back. *)
Definition map_err {A E F} (f : E -> F) (r : result A E) : result A F :=
  match r with Ok a => Ok a | Err e => Err (f e) end.

Section handed_back.
Context {T : Type} (pol : Teardown).

(** A failed push returns its value. *)
Definition returns (v : T) (r : result unit T) : Prop := match r with Ok _ => True | Err w => w = v end.
Definition returns_try (v : T) (r : result unit (TrySendError T)) : Prop :=
  match r with Ok _ => True | Err e => TrySendError_into_inner e = v end.

Lemma yields_push (p : Producer) (v : T) : yields (Producer_push p v) (fun r => returns v r.1).
Proof.
  assert (H : forall cur hd, yields (Ring_push cur hd v) (fun r => returns v r.1.1)).
  { intros cur hd. unfold Ring_push. apply yields_skip. intros cap. apply yields_skip. intros [full hd']. destruct full; [done|].
    apply yields_skip. intros idx. by apply yields_skip. }
  unfold Producer_push. eapply yields_bind; [apply H|]. intros [[[u|w] cur] hd] E; cbn in E; [done|]. subst w.
  unfold Producer_push_after_full. apply yields_skip. intros reg. destruct (negb reg); [done|].
  eapply yields_bind; [apply H|]. by intros [[r c] h].
Qed.

Lemma yields_push_and_flush p (v : T) : yields (RProducer_push_and_flush pol p v) (fun r => returns v r.1).
Proof.
  assert (H : forall p, yields (push_then_flush p v) (fun r => returns v r.1)).
  { intros p'. unfold push_then_flush. eapply yields_bind; [apply yields_lift, yields_push|]. intros [[u|w] q] E; [|done]. by apply yields_skip. }
  unfold RProducer_push_and_flush. destruct (negb _); [apply H|]. apply yields_skip. intros begun. destruct (negb begun); [done|].
  eapply yields_bind; [apply H|]. intros [r q] E. by apply yields_skip.
Qed.

Lemma yields_try_send_inner tx (v : T) : yields (Sender_try_send_inner pol tx v) (fun r => returns_try v r.1.1).
Proof.
  unfold Sender_try_send_inner. apply yields_skip. intros d. destruct d; [done|].
  eapply yields_bind; [apply yields_focus, yields_push_and_flush|]. intros [[u|w] q] E; cbn in E; [by apply yields_skip|]. subst w.
  apply (yields_bind _ _ (fun e => TrySendError_into_inner e = v)); [|by intros].
  unfold Sender_push_error. apply yields_skip. intros alive. apply yields_skip. by intros [].
Qed.

Lemma yields_try_send tx (v : T) : yields (Sender_try_send pol tx v) (fun r => returns_try v r.1).
Proof. unfold Sender_try_send. eapply yields_bind; [apply yields_try_send_inner|]. intros [[r w] tx'] E. by apply yields_skip. Qed.

End handed_back.

(** ** Senders *)

Section sending.
Context {T : Type} (caps : list Z) (np ng : nat) (k : nat).
#[local] Abbreviation cguar := (cguar (T := T) caps np ng).
#[local] Abbreviation bguar := (bguar (T := T) caps np ng).
#[local] Abbreviation send_ok := (send_ok (T := T) caps np ng).
#[local] Abbreviation sent := (sent (T := T) caps np ng).
#[local] Abbreviation bit := (with_bit (T := T) (S k)).
Implicit Types (x y : cst T) (acc : list T).

Lemma sent_frame acc m ws tx : Frame caps np ng (S k) None (sent k acc m ws tx).
Proof.
  split; [apply sent_stable| |].
  - intros x (p & _ & Hx). apply Hx.
  - intros x y (p & Htx & Hx) Hy Hu. exists p. split; [done|]. by eapply (fr_upd _ _ _ _ _ _ (send_frame caps np ng k p _ _ _)).
Qed.

Lemma sent_lt acc m ws tx x : sent k acc m ws tx x -> (S k <= length caps)%nat.
Proof. intros (p & _ & Hx). by eapply send_lt. Qed.

Section one_send.
Context (acc : list T) (m : nat) (v : T).

(** A send on the value [v]: while it waits nothing happened, and at the end
    the value was written or is handed back. *)
Definition send_done (tx : Sender) (r : result unit T) x : Prop :=
  match r with Ok _ => sent k acc m [v] tx x | Err w => w = v /\ sent k acc (S m) [] tx x end.

Definition send_contract : contract (S := Shared T) (E := Sender) (V := T) (Output := result unit T) (Deferred := bool) (Reg := WaitRegistration) (G := list (lghost T)) :=
  mkContract
    (fun tx w reg x => w = v /\ bit (sent k acc (S m) [] tx) (bool_decide (is_Some reg)) x)
    (fun tx r reg _ x => bit (send_done tx r) (bool_decide (is_Some reg)) x)
    (fun _ _ _ _ _ => False)
    (fun tx r x => bit (send_done tx r) false x).

Lemma done_frame tx r : Frame caps np ng (S k) None (send_done tx r).
Proof.
  destruct r as [u|w]; cbn; [apply sent_frame|]. destruct (sent_frame acc (S m) [] tx) as [H1 H2 H3]. split.
  - intros x y [-> Hx] Hr. split; [done|]. by eapply H1.
  - intros x [_ Hx]. auto.
  - intros x y [-> Hx] Hy Hu. split; [done|]. by eapply H3.
Qed.


(** An attempt of the send, with its result mapped for the loop. *)
Lemma wp_attempt {A B} (p : prog (Shared T) A) (h : A -> result unit (TrySendError T) * Sender) (c : A -> prog (Shared T) B) Q reg tx x :
  (forall j, keeps (parked j) p) -> yields p (fun a => returns_try v (h a).1) ->
  (forall q, is_sender k q tx -> send_ok k q acc false (S m) x -> wp cguar (S k) p (fun a y => tried caps np ng k acc m v (h a).1 (h a).2 y) x) ->
  bit (sent k acc (S m) [] tx) reg x ->
  (forall a y, bit (send_done (h a).2 (match (h a).1 with Ok _ => Ok tt | Err _ => Err v end)) reg y ->
     returns_try v (h a).1 -> wp bguar (S k) (c a) Q y) ->
  wp bguar (S k) (bind p c) Q x.
Proof.
  intros Hq He Hp [(q & Htx & Hx) Hb] Hc. rewrite app_nil_r in Hx.
  eapply wp_call; [apply wp_yields; [exact He|apply wp_quiet; [exact Hq|by eapply Hp|exact Hb]]|].
  intros a y [[Hy Hb'] Ha]. cbn beta in *. apply Hc; [|done]. split; [|done]. unfold tried in Hy.
  destruct (h a) as [[u|e] tx']; cbn [fst snd is_ok send_done] in *; [done|]. by split.
Qed.

(** Registering and parking on the lane's cell. *)
Lemma wp_space_cell {A} (q : prog WaitCell A) tx ws m' reg b P x :
  bit (fun y => P y) reg x -> Frame caps np ng (S k) None P -> (forall y, P y -> exists acc', sent k acc' m' ws tx y) ->
  cell_wp q (fun _ b' => b' = b) reg ->
  wp bguar (S k) (on_index (LaneSignal_on_cell (snd_signal tx) q)) (fun _ => bit P b) x.
Proof.
  intros [Hx Hb] HF Hs Hq. destruct (Hs x Hx) as (acc' & Hs'). pose proof (sent_lt _ _ _ _ _ Hs') as Hk.
  destruct Hs' as (p & (_ & -> & _) & _). eapply wp_mono; [|eapply (wp_own_cell caps np ng (S k) P q (fun _ b' => b' = b)); [exact HF|exact Hk|by split|exact Hq]].
  intros a y (b' & Hy & ->). exact Hy.
Qed.

#[export] Instance Sender_keeps : Keeps (Sender_blocking Deferred) bguar (S k) send_contract.
Proof.
  split; cbn [waiting finishing progressing finished send_contract Sender_blocking bl_attempt bl_recheck bl_notify bl_register bl_unregister bl_wait bl_wait_timeout].
  - intros tx w x y [-> Hx] Hr. split; [done|]. by eapply bit_stable; [apply sent_stable|..].
  - intros tx r. apply bit_stable, done_frame.
  - intros tx w x [-> Hx]. eapply (wp_attempt _ (fun a => a)); [intros; apply quiet_try_send|apply yields_try_send| |exact Hx|].
    { intros q H1 H2. by eapply wp_try_send_keep. }
    intros [r tx'] y Hy E. cbn [fst snd] in *.
    eapply (wp_retP _ _ (bit (send_done tx' _) false)); [apply bit_stable, done_frame|exact Hy|]. intros z Hz.
    destruct r as [u|[w|w]]; cbn in *; [done| |].
    + subst w. by destruct Hz as [[_ Hz] Hbz].
    + by subst w.
  - intros tx w x [-> Hx]. eapply wp_mono; [|eapply (wp_space_cell WaitCell_prepare tx [] (S m)); [exact Hx|apply sent_frame|eauto|apply cell_prepare]].
    intros r y Hy. by split.
  - intros tx w r x [-> Hx]. eapply (wp_attempt _ (fun a => (a.1.1, a.2))); [intros; apply quiet_try_send_inner|apply yields_try_send_inner| |exact Hx|].
    { intros q H1 H2. by eapply wp_try_send_inner. }
    intros [[o wake] tx'] y Hy E. cbn [fst snd] in *.
    eapply (wp_retP _ _ (bit (send_done tx' _) true)); [apply bit_stable, done_frame|exact Hy|]. intros z Hz.
    destruct o as [u|[w|w]]; cbn in *; [done| |].
    + subst w. by destruct Hz as [[_ Hz] Hbz].
    + by subst w.
  - intros tx w r x [-> Hx]. eapply wp_mono; [|eapply (wp_space_cell WaitRegistration_drop tx [] (S m)); [exact Hx|apply sent_frame|eauto|apply cell_drop]].
    intros u y Hy. by split.
  - intros tx o r d x Hx. destruct o as [u|w].
    + eapply (wp_space_cell WaitRegistration_drop tx [v] m); [exact Hx|apply (done_frame tx (Ok u))|cbn; eauto|apply cell_drop].
    + eapply (wp_space_cell WaitRegistration_drop tx [] (S m)); [exact Hx|apply (done_frame tx (Err w))| |apply cell_drop].
      intros y [_ Hy]. eauto.
  - done.
  - intros tx o d x [Hx Hb]. eapply wp_call.
    + apply wp_quiet; [intros j; apply quiet_when, quiet_data_notify| |exact Hb].
      eapply wp_inert; [apply (done_frame tx o)|destruct d; [apply inert_notify|done]|exact Hx].
    + intros u y Hy. eapply (wp_retP _ _ (bit (send_done tx o) false)); [apply bit_stable, done_frame|exact Hy|done].
  - done.
  - intros tx w r x [-> Hx]. eapply wp_mono; [|eapply (wp_space_cell (WaitRegistration_wait r) tx [] (S m)); [exact Hx|apply sent_frame|eauto|apply cell_wait]].
    intros u y Hy. by split.
  - intros tx w r b x [-> Hx]. eapply wp_mono; [|eapply (wp_space_cell (WaitRegistration_wait_timeout r b) tx [] (S m)); [exact Hx|apply sent_frame|eauto|apply cell_wait_timeout]].
    intros u y Hy. by split.
Qed.

(** ** The blocking sends *)

(** What a blocking send ended with, or that it still waits. *)
Definition send_waited (tx : Sender) (o : option (result unit T)) x : Prop :=
  match o with Some r => bit (send_done tx r) false x | None => bit (sent k acc (S m) [] tx) false x end.

Lemma waited_stable tx o : stable bguar (S k) (send_waited tx o).
Proof. destruct o; [apply bit_stable, done_frame|apply bit_stable, sent_stable]. Qed.

Lemma wp_ret_waited {A} (a : A) (f : A -> option (result unit T)) (g : A -> Sender) x :
  send_waited (g a) (f a) x -> wp bguar (S k) (Ret a) (fun r y => send_waited (g r) (f r) y) x.
Proof. intros Hx. eapply wp_retP; [apply waited_stable|exact Hx|done]. Qed.

Lemma wp_send_slow env tx x :
  bit (sent k acc (S m) [] tx) false x ->
  wp bguar (S k) (Sender_send_slow Deferred env tx v) (fun r y => send_waited r.2 (option_map (map_err SendError_into_inner) r.1) y) x.
Proof.
  intros Hx. unfold Sender_send_slow. eapply wp_call; [by apply (wp_block _ _ _ send_contract)|]. clear x Hx. intros [o tx'] x Hx.
  apply (wp_ret_waited _ (fun r => option_map (map_err SendError_into_inner) r.1) snd). cbn [fst snd].
  destruct o as [[u|w]|]; cbn in *; [by destruct u|done|apply Hx].
Qed.

Lemma wp_sender_send env tx x :
  bit (sent k acc (S m) [] tx) false x ->
  wp bguar (S k) (Sender_send Deferred env tx v) (fun r y => send_waited r.2 (option_map (map_err SendError_into_inner) r.1) y) x.
Proof.
  intros Hx. unfold Sender_send. eapply (wp_attempt _ (fun a => a)); [intros; apply quiet_try_send|apply yields_try_send| |exact Hx|].
  { intros q H1 H2. by eapply wp_try_send_keep. }
  intros [r tx'] y Hy E. cbn [fst snd] in *. destruct r as [u|[w|w]]; cbn in E; try subst w.
  - by apply (wp_ret_waited _ (fun r => option_map (map_err SendError_into_inner) r.1) snd).
  - apply wp_send_slow. by destruct Hy as [[_ Hy] Hb].
  - by apply (wp_ret_waited _ (fun r => option_map (map_err SendError_into_inner) r.1) snd).
Qed.

Lemma wp_send_deadline env tx deadline x :
  bit (sent k acc (S m) [] tx) false x ->
  wp bguar (S k) (Sender_send_deadline Deferred env tx v deadline)
    (fun r y => send_waited r.2 (option_map (map_err SendTimeoutError_into_inner) r.1) y) x.
Proof.
  intros Hx. unfold Sender_send_deadline, block_until. eapply wp_call; [by apply (wp_run_blocking _ _ _ send_contract)|].
  clear x Hx. intros [o tx'] x Hx. apply (wp_ret_waited _ (fun r => option_map (map_err SendTimeoutError_into_inner) r.1) snd). cbn [fst snd].
  unfold loop_post in Hx. destruct o as [[[u|w]|w]|]; cbn in *; [by destruct u|done| |apply Hx].
  destruct Hx as (-> & _ & _ & Hx). destruct Hx as [Hx Hb]. by split.
Qed.

Lemma wp_send_timeout env tx timeout x :
  bit (sent k acc (S m) [] tx) false x ->
  wp bguar (S k) (Sender_send_timeout Deferred env tx v timeout)
    (fun r y => send_waited r.2 (option_map (map_err SendTimeoutError_into_inner) r.1) y) x.
Proof.
  intros Hx. unfold Sender_send_timeout. destruct (Instant_checked_add _ _) as [d|]; [by apply wp_send_deadline|].
  eapply wp_call; [by apply wp_sender_send|]. clear x Hx. intros [o tx'] x Hx.
  apply (wp_ret_waited _ (fun r => option_map (map_err SendTimeoutError_into_inner) r.1) snd). by destruct o as [[u|[w]]|].
Qed.


End one_send.
End sending.

(** ** Sender threads *)

(** What a sender does: an operation that does not wait, a send that blocks,
    for ever, for some time or until some instant, or a change of its wait
    strategy. *)
Inductive wait_send_cmd (T : Type) : Type :=
| WSNow (cmd : send_cmd T)
| WSend (env : wait_env) (v : T)
| WSendTimeout (env : wait_env) (v : T) (timeout : Z)
| WSendDeadline (env : wait_env) (v : T) (deadline : Z)
| WSStrategy (strategy : WaitStrategy).
Arguments WSNow {T} cmd.
Arguments WSend {T} env v.
Arguments WSendTimeout {T} env v timeout.
Arguments WSendDeadline {T} env v deadline.
Arguments WSStrategy {T} strategy.

(** What came of it: the values that were accepted, or the value an error
    handed back. *)
Inductive send_event (T : Type) : Type :=
| Accepted (ws : list T)
| HandedBack (v : T).
Arguments Accepted {T} ws.
Arguments HandedBack {T} v.

Definition accepted {T} (evs : list (send_event T)) : list T :=
  concat ((fun ev => match ev with Accepted ws => ws | HandedBack _ => [] end) <$> evs).

Definition send_outcome {T} (v : T) (r : result unit T) : send_event T :=
  match r with Ok _ => Accepted [v] | Err w => HandedBack w end.

(** [None]: the call still waits. *)
Definition exec_wait_send {T} (cmd : wait_send_cmd T) (tx : Sender) : prog (Shared T) (option (send_event T) * Sender) :=
  match cmd with
  | WSNow cmd => let* '(ws, tx) := exec_send cmd tx in Ret (Some (Accepted ws), tx)
  | WSend env v =>
      let* '(o, tx) := Sender_send Deferred env tx v in
      Ret (option_map (fun r => send_outcome v (map_err SendError_into_inner r)) o, tx)
  | WSendTimeout env v timeout =>
      let* '(o, tx) := Sender_send_timeout Deferred env tx v timeout in
      Ret (option_map (fun r => send_outcome v (map_err SendTimeoutError_into_inner r)) o, tx)
  | WSendDeadline env v deadline =>
      let* '(o, tx) := Sender_send_deadline Deferred env tx v deadline in
      Ret (option_map (fun r => send_outcome v (map_err SendTimeoutError_into_inner r)) o, tx)
  | WSStrategy strategy => Ret (Some (Accepted []), Sender_set_wait_strategy strategy tx)
  end.

(** The events, and whether the sender came to its end and was dropped. *)
Fixpoint wait_sender_thread {T} (cmds : list (wait_send_cmd T)) (evs : list (send_event T)) (tx : Sender)
    : prog (Shared T) (list (send_event T) * bool) :=
  match cmds with
  | [] => let* _ := Sender_drop tx in Ret (evs, true)
  | cmd :: cmds' =>
      let* '(o, tx) := exec_wait_send cmd tx in
      match o with
      | None => Ret (evs, false)
      | Some ev => wait_sender_thread cmds' (evs ++ [ev]) tx
      end
  end.

(** The sends that cannot still be waiting: those that never wait, and those
    whose environment shows that their deadline has passed. *)
Definition send_comes_back {T} (cmd : wait_send_cmd T) : Prop :=
  match cmd with
  | WSNow _ | WSStrategy _ => True
  | WSend _ _ => False
  | WSendTimeout env _ timeout => times_out timeout 0 env
  | WSendDeadline env _ deadline => passes deadline 0 env
  end.

Lemma exec_wait_send_comes_back {T} (cmd : wait_send_cmd T) tx :
  yields (exec_wait_send cmd tx) (fun r => send_comes_back cmd -> is_Some r.1).
Proof.
  assert (Hmap : forall A (p : prog (Shared T) (option A * Sender)) (f : A -> send_event T) (P : Prop) `{!Decision P},
    (P -> yields p (fun r => is_Some r.1)) -> yields (let* '(o, tx) := p in Ret (option_map f o, tx)) (fun r => P -> is_Some r.1)).
  { intros A p f P HD Hp. destruct (decide P) as [HP|HP]; [|apply yields_skip; by intros [o tx1] ?].
    eapply yields_bind; [by apply Hp|]. intros [o tx1] [r Ho] _. cbn in *. subst o. by eexists. }
  destruct cmd; cbn [exec_wait_send send_comes_back].
  - apply yields_skip. intros [ws tx1] _. by eexists.
  - by apply Hmap; [apply _|].
  - apply Hmap; [apply _|]. by apply yields_send_timeout.
  - apply Hmap; [apply _|]. by apply yields_send_deadline.
  - by eexists.
Qed.

(** What the events say about the script: a blocking send had its value
    accepted or got it back. *)
Definition answers {T} (cmd : wait_send_cmd T) (ev : send_event T) : Prop :=
  match cmd with
  | WSNow _ => exists ws, ev = Accepted ws
  | WSend _ v | WSendTimeout _ v _ | WSendDeadline _ v _ => ev = Accepted [v] \/ ev = HandedBack v
  | WSStrategy _ => ev = Accepted []
  end.

(** A sender came to the end of its script, or its last call still waits. *)
Fixpoint answered {T} (cmds : list (wait_send_cmd T)) (evs : list (send_event T)) (ended : bool) : Prop :=
  match cmds, evs with
  | [], [] => ended = true
  | cmd :: _, [] => ended = false /\ ~ send_comes_back cmd
  | cmd :: cmds', ev :: evs' => answers cmd ev /\ answered cmds' evs' ended
  | [], _ :: _ => False
  end.

Section sender_threads.
Context {T : Type} (caps : list Z) (np ng : nat) (k : nat).
#[local] Abbreviation cguar := (cguar (T := T) caps np ng).
#[local] Abbreviation bguar := (bguar (T := T) caps np ng).
#[local] Abbreviation send_ok := (send_ok (T := T) caps np ng).
#[local] Abbreviation sent := (sent (T := T) caps np ng).
#[local] Abbreviation bit := (with_bit (T := T) (S k)).
Implicit Types (x y : cst T) (evs : list (send_event T)).

Lemma accepted_snoc evs ev : accepted (evs ++ [ev]) = accepted evs ++ match ev with Accepted ws => ws | HandedBack _ => [] end.
Proof. unfold accepted. rewrite fmap_app, concat_app. cbn. by rewrite app_nil_r. Qed.

(** After an operation: its event is among the accepted values, or it waits. *)
Definition send_step (acc : list T) m cmd (r : option (send_event T) * Sender) x : Prop :=
  match r.1 with
  | Some ev => answers cmd ev /\ bit (sent k (acc ++ match ev with Accepted ws => ws | HandedBack _ => [] end) m [] r.2) false x
  | None => bit (sent k acc m [] r.2) false x
  end.

Lemma send_step_stable acc m cmd r : stable bguar (S k) (send_step acc m cmd r).
Proof.
  unfold send_step. destruct r.1 as [ev|]; [|apply bit_stable, sent_stable]. intros x y [H Hx] Hr. split; [done|].
  by eapply bit_stable; [apply sent_stable|..].
Qed.

Lemma sent_app acc m ws tx x : sent k acc m ws tx x -> sent k (acc ++ ws) m [] tx x.
Proof. intros (p & H1 & H2). exists p. by rewrite app_nil_r. Qed.

Lemma sent_fewer acc m m' ws tx x : (m' <= m)%nat -> sent k acc m ws tx x -> sent k acc m' ws tx x.
Proof. intros Hm (p & H1 & H2). exists p. split; [done|]. by eapply send_fewer. Qed.

Lemma waited_step acc m v cmd tx o x :
  (forall ev, answers cmd ev <-> ev = Accepted [v] \/ ev = HandedBack v) ->
  send_waited caps np ng k acc m v tx o x -> send_step acc m cmd (option_map (send_outcome v) o, tx) x.
Proof.
  intros Hc Hx. unfold send_step, send_waited in *. destruct o as [[u|w]|]; cbn [option_map fst snd send_outcome] in *.
  - destruct Hx as [Hx Hb]. split; [apply Hc; by left|]. split; [|done]. by apply sent_app.
  - destruct Hx as [[-> Hx] Hb]. split; [apply Hc; by right|]. split; [|done]. rewrite app_nil_r. by eapply sent_fewer; [|exact Hx]; lia.
  - destruct Hx as [Hx Hb]. split; [|done]. by eapply sent_fewer; [|exact Hx]; lia.
Qed.

Lemma wp_waited {E} (inner : E -> T) acc m v cmd (p : prog (Shared T) (option (result unit E) * Sender)) x :
  (forall ev, answers cmd ev <-> ev = Accepted [v] \/ ev = HandedBack v) ->
  wp bguar (S k) p (fun r y => send_waited caps np ng k acc m v r.2 (option_map (map_err inner) r.1) y) x ->
  wp bguar (S k) (let* '(o, tx) := p in Ret (option_map (fun r => send_outcome v (map_err inner r)) o, tx)) (send_step acc m cmd) x.
Proof.
  intros Hc Hp. eapply wp_call; [exact Hp|]. clear x Hp. intros [o tx] x Hx. cbn [fst snd] in Hx.
  apply (waited_step acc m v cmd) in Hx; [|done].
  eapply wp_retP; [apply send_step_stable|exact Hx|]. by destruct o.
Qed.

Lemma wp_exec_wait_send acc m cmd tx x :
  bit (sent k acc (S m) [] tx) false x -> wp bguar (S k) (exec_wait_send cmd tx) (send_step acc m cmd) x.
Proof.
  intros Hx. destruct cmd as [cmd|env v|env v timeout|env v deadline|strategy]; cbn [exec_wait_send].
  - destruct Hx as [(p & Htx & Hx) Hb]. rewrite app_nil_r in Hx. eapply wp_call.
    + apply wp_quiet; [intros j; apply quiet_exec_send|by eapply wp_exec_send|exact Hb].
    + clear x Hx Hb. intros [ws tx'] x [Hx Hb]. cbn [fst snd] in *.
      assert (Hs : send_step acc m (WSNow cmd) (Some (Accepted ws), tx') x) by (split; [by eexists|split; [by apply sent_app|done]]).
      eapply wp_retP; [apply send_step_stable|exact Hs|done].
  - apply (wp_waited SendError_into_inner); [done|]. by apply wp_sender_send.
  - apply (wp_waited SendTimeoutError_into_inner); [done|]. by apply wp_send_timeout.
  - apply (wp_waited SendTimeoutError_into_inner); [done|]. by apply wp_send_deadline.
  - destruct Hx as [Hx Hb]. assert (Hs : send_step acc m (WSStrategy strategy) (Some (Accepted []), Sender_set_wait_strategy strategy tx) x).
    { split; [done|]. split; [|done]. rewrite app_nil_r. destruct Hx as (p & Htx & Hx). exists p. split; [exact Htx|].
      by eapply send_fewer; [|exact Hx]; lia. }
    eapply wp_retP; [apply send_step_stable|exact Hs|done].
Qed.

(** A sender thread ends dropped, or with a call that still waits. *)
Lemma wp_wait_sender cmds : forall evs tx x,
  bit (sent k (accepted evs) (S (length cmds)) [] tx) false x ->
  wp bguar (S k) (wait_sender_thread cmds evs tx) (fun r y => exists es, r.1 = evs ++ es /\ answered cmds es r.2 /\
    exists p, send_ok k p (accepted r.1) r.2 0 y) x.
Proof.
  induction cmds as [|cmd cmds IH]; intros evs tx x Hx; cbn [wait_sender_thread length] in *.
  - destruct Hx as [(p & Htx & Hx) Hb]. rewrite app_nil_r in Hx. eapply wp_call.
    + apply wp_quiet; [intros j; apply quiet_sender_drop|by eapply wp_sender_drop|exact Hb].
    + intros u y Hy. eapply wp_retP; [apply bit_stable, send_stable|exact Hy|]. intros z [Hz _]. exists [].
      cbn. rewrite app_nil_r. eauto.
  - eapply wp_call; [eapply wp_yields; [apply exec_wait_send_comes_back|by eapply wp_exec_wait_send]|].
    clear x Hx. intros [[ev|] tx'] x [Hx Hback]; cbn in Hx.
    + destruct Hx as [Ha Hx]. rewrite <- accepted_snoc in Hx. eapply wp_mono; [|by apply IH].
      intros [evs' closed] y (es & E & Hes & Hy). cbn [fst snd] in *. exists (ev :: es). split; [by rewrite E, <- app_assoc|by split].
    + destruct Hx as [(p & Htx & Hx) Hb]. rewrite app_nil_r in Hx.
      eapply wp_retP; [apply bit_stable, send_stable|split; [exact Hx|exact Hb]|]. intros z [Hz _]. exists [].
      cbn. rewrite app_nil_r. split; [done|]. split; [split; [done|]; intros H; by destruct (Hback H)|].
      exists p. by eapply send_fewer; [|exact Hz]; lia.
Qed.

End sender_threads.

(** ** The receiver *)

Section receiving.
Context {T : Type} (caps : list Z) (np ng : nat).
#[local] Abbreviation cguar := (cguar (T := T) caps np ng).
#[local] Abbreviation bguar := (bguar (T := T) caps np ng).
#[local] Abbreviation seen := (seen_so_far (T := T) caps np ng).
#[local] Abbreviation bit := (with_bit (T := T) 0).
Implicit Types (x y : cst T) (evs : list (recv_event T)).

Lemma seen_frame b rx evs : Frame caps np ng 0 None (seen b rx evs).
Proof.
  split; [apply seen_stable| |].
  - intros x (b' & tr & _ & Hx & _). by eapply (fr_cok _ _ _ _ _ _ (chan_frame caps np ng rx b' tr)).
  - intros x y (b' & tr & H1 & H2 & H3 & H4) Hy Hu. exists b', tr. split; [done|]. split; [|split; [done|]].
    + by eapply (fr_upd _ _ _ _ _ _ (chan_frame caps np ng rx b' tr)).
    + intros Hin. destruct (H4 Hin) as (tr0 & Hp & Hf). exists tr0. split; [done|]. intros j Hj.
      destruct (Hf j Hj) as (cap & hr & g & K1 & K2 & K3 & K4). destruct Hu as [_ Hu]. destruct (Hu j) as (E1 & E2 & E3); [done|].
      exists cap, hr, g. rewrite E1, E2. auto.
Qed.

Lemma wp_data_cell {A} (q : prog WaitCell A) b rx evs reg bt x :
  bit (seen b rx evs) reg x -> cell_wp q (fun _ b' => b' = bt) reg ->
  wp bguar 0 (on_data_waiter q) (fun _ => bit (seen b rx evs) bt) x.
Proof.
  intros Hx Hq. eapply wp_mono; [|eapply (wp_own_cell caps np ng 0 _ q (fun _ b' => b' = bt)); [apply (seen_frame b rx evs)|lia|exact Hx|exact Hq]].
  intros a y (b' & Hy & ->). exact Hy.
Qed.

Lemma wp_notify_seen b rx evs released reg x :
  bit (seen b rx evs) reg x ->
  wp bguar 0 (let* _ := Receiver_notify_released released rx in Ret rx) (fun rx' => bit (seen b rx' evs) reg) x.
Proof.
  intros [Hx Hb]. eapply wp_call.
  - apply wp_quiet; [intros; apply quiet_notify_released| |exact Hb].
    apply (wp_seen_keep caps np ng _ (fun _ => rx) b rx); [|exact Hx]. intros b' tr y _ Hy. by apply wp_notify_released.
  - intros u y Hy. eapply wp_retP; [apply bit_stable, (seen_stable caps np ng b rx evs)|exact Hy|done].
Qed.

Section one_recv.
Context {Item : Type} (item : Z -> LaneKey -> T -> Item) (ev : result Item TryRecvError -> recv_event T).
Context (ev_ok : forall id k v, exists lane, ev (Ok (item id (lane_at k) v)) = EvItem lane v /\ forall key, lane = Some key -> key = lane_at k).
Context (ev_err : forall e, ev (Err e) = EvError e).
Context (fuel : nat) (b : nat -> nat) (evs : list (recv_event T)) (enough : (bound caps b < fuel)%nat).

(** A receive takes nothing while it waits. *)
Definition recv_contract : contract (S := Shared T) (E := Receiver) (V := unit) (Output := result Item RecvError) (Deferred := option LaneKey) (Reg := WaitRegistration) (G := list (lghost T)) :=
  mkContract
    (fun rx _ reg x => bit (seen b rx evs) (bool_decide (is_Some reg)) x)
    (fun rx r reg _ x => bit (seen b rx (evs ++ waited_event ev (Some r))) (bool_decide (is_Some reg)) x)
    (fun rx _ reg _ x => bit (seen b rx evs) (bool_decide (is_Some reg)) x)
    (fun rx r x => bit (seen b rx (evs ++ waited_event ev (Some r))) false x).

(** An attempt, with what it saw. *)
Definition tried_recv (r : result Item TryRecvError) rx reg x : Prop :=
  match r with
  | Ok it => bit (seen b rx (evs ++ waited_event ev (Some (Ok it)))) reg x
  | Err TryRecv_Disconnected => bit (seen b rx (evs ++ waited_event (Item := Item) ev (Some (Err mkRecvError)))) reg x
  | Err TryRecv_Empty => bit (seen b rx evs) reg x
  end.

Lemma tried_recv_stable r rx reg : stable bguar 0 (tried_recv r rx reg).
Proof. unfold tried_recv. repeat case_match; apply bit_stable, seen_stable. Qed.

Lemma seen_tried r rx reg x : bit (seen b rx (evs ++ [ev r])) reg x -> tried_recv r rx reg x.
Proof.
  intros [Hx Hb]. unfold tried_recv. destruct r as [it|[]]; [by split|..]; rewrite ev_err in Hx; split; try done. by eapply seen_forget.
Qed.

Lemma wp_tried {A} (f : A -> result Item TryRecvError * Receiver) (p : prog (Shared T) A) rx reg x :
  (forall j, keeps (parked j) p) ->
  (forall b' tr y, spent b b' -> chan caps np ng rx b' tr y -> wp cguar 0 p (fun a y => received caps np ng item b' tr (f a).1 (f a).2 y) y) ->
  bit (seen b rx evs) reg x -> wp bguar 0 p (fun a y => tried_recv (f a).1 (f a).2 reg y) x.
Proof.
  intros Hq Hp [Hx Hb]. eapply wp_mono; [|apply wp_quiet; [exact Hq|by eapply (wp_seen_receive caps np ng item ev f)|exact Hb]].
  intros a y Hy. by apply seen_tried.
Qed.

Lemma fewer b' : spent b b' -> (bound caps b' < fuel)%nat.
Proof. intros Hs. pose proof (bound_spent caps b b' Hs). lia. Qed.

Lemma attempt_received rx b' tr r released rx' y :
  attempt caps np ng item rx b' tr r released rx' y -> received caps np ng item b' tr r rx' y.
Proof. intros (b2 & tr2 & H1 & H2 & H3). exists b2, tr2. split; [done|]. split; [done|]. destruct r; [done|]. by destruct H3 as (? & ? & _). Qed.

#[export] Instance Receiver_keeps : Keeps (Receiver_blocking Deferred item fuel) bguar 0 recv_contract.
Proof.
  split; cbn [waiting finishing progressing finished recv_contract Receiver_blocking bl_attempt bl_recheck bl_notify bl_register bl_unregister bl_wait bl_wait_timeout].
  - intros rx w. apply bit_stable, seen_stable.
  - intros rx r. apply bit_stable, seen_stable.
  - intros rx w x Hx. eapply wp_call; [eapply (wp_tried (fun a => a)); [intros; apply quiet_try_recv| |exact Hx]|].
    { intros b' tr y Hs Hy. apply wp_try_recv_output; [exact Hy|by apply fewer]. }
    intros [r rx'] y Hy. cbn [fst snd] in *. eapply wp_retP; [apply tried_recv_stable|exact Hy|]. intros z Hz. by destruct r as [it|[]].
  - intros rx w x Hx. by apply (wp_data_cell WaitCell_prepare b rx evs false true), cell_prepare.
  - intros rx w r x Hx. eapply wp_call; [eapply (wp_tried (fun a => (a.1.1, a.2))); [intros; apply quiet_try_recv_inner| |exact Hx]|].
    { intros b' tr y Hs Hy. pose proof (pot_bound caps rx b'). pose proof (fewer b' Hs). unfold bound in *.
      eapply wp_mono; [|eapply wp_try_recv_inner; [exact Hy|lia]]. intros [[o rel] rx'] z Hz. by eapply attempt_received. }
    intros [[o rel] rx'] y Hy. cbn [fst snd] in *. eapply wp_retP; [apply tried_recv_stable|exact Hy|]. intros z Hz.
    destruct o as [it|[]]; [done| |done]. by destruct rel.
  - intros rx w r x Hx. by apply (wp_data_cell WaitRegistration_drop b rx evs true false), cell_drop.
  - intros rx o r d x Hx. by apply (wp_data_cell WaitRegistration_drop b rx _ true false), cell_drop.
  - intros rx w r d x Hx. by apply (wp_data_cell WaitRegistration_drop b rx evs true false), cell_drop.
  - intros rx o d x Hx. by apply wp_notify_seen.
  - intros rx w d x Hx. by apply wp_notify_seen.
  - intros rx w r x Hx. by apply (wp_data_cell (WaitRegistration_wait r) b rx evs true false), cell_wait.
  - intros rx w r bt x Hx. by apply (wp_data_cell (WaitRegistration_wait_timeout r bt) b rx evs true false), cell_wait_timeout.
Qed.


(** ** The blocking receives *)

Definition recv_waited rx (o : option (result Item RecvError)) x : Prop := bit (seen b rx (evs ++ waited_event ev o)) false x.

Lemma wp_ret_recv {A} (a : A) (f : A -> option (result Item RecvError)) (g : A -> Receiver) x :
  recv_waited (g a) (f a) x -> wp bguar 0 (Ret a) (fun r y => recv_waited (g r) (f r) y) x.
Proof. intros Hx. eapply wp_retP; [apply bit_stable, seen_stable|exact Hx|done]. Qed.

Lemma waiting_recv rx x : bit (seen b rx evs) false x -> recv_waited rx None x.
Proof. unfold recv_waited. cbn. by rewrite app_nil_r. Qed.

Lemma wp_recv_slow env rx x :
  bit (seen b rx evs) false x ->
  wp bguar 0 (Receiver_recv_slow Deferred item fuel env rx) (fun r y => recv_waited r.2 r.1 y) x.
Proof.
  intros Hx. unfold Receiver_recv_slow. eapply wp_mono; [|by apply (wp_block _ _ _ recv_contract)].
  intros [[o|] rx'] y Hy; [done|]. by apply waiting_recv.
Qed.

(** The first part of [recv] is the loop of the non-blocking receives. *)
Lemma wp_recv_first env Q retries : forall rx x,
  wp bguar 0 (let* '(r, rx) := Receiver_recv_retry Deferred item false retries fuel rx in
              match r with
              | Ok value => Ret (Some (Ok value), rx)
              | Err TryRecv_Disconnected => Ret (Some (Err mkRecvError), rx)
              | Err TryRecv_Empty => Receiver_recv_slow Deferred item fuel env rx
              end) Q x ->
  wp bguar 0 (Receiver_recv_output Deferred item retries fuel env rx) Q x.
Proof.
  induction retries as [|retries IH]; intros rx x H; cbn [Receiver_recv_retry Receiver_recv_output] in *; [exact H|].
  apply wp_bind_inv, wp_bind_inv in H. eapply wp_call; [exact H|]. clear x H. intros [[r released] rx'] x H.
  apply wp_bind_inv in H. eapply wp_call; [exact H|]. clear x H. intros u x H.
  destruct r as [it|[]]; destruct released; cbn in *; try (apply (H x); constructor).
  apply IH. apply wp_bind. exact H.
Qed.

Lemma wp_recv retries env rx x :
  (bound caps b < retries)%nat -> bit (seen b rx evs) false x ->
  wp bguar 0 (Receiver_recv_output Deferred item retries fuel env rx) (fun r y => recv_waited r.2 r.1 y) x.
Proof.
  intros Hr Hx. apply wp_recv_first. eapply wp_call; [eapply (wp_tried (fun a => a)); [intros; apply quiet_recv_retry| |exact Hx]|].
  { intros b' tr y Hs Hy. pose proof (pot_bound caps rx b'). pose proof (bound_spent caps b b' Hs). unfold bound in *.
    apply wp_recv_retry; [exact Hy|lia..]. }
  clear x Hx. intros [[it|[]] rx'] x Hx; cbn [fst snd tried_recv] in Hx; [|by apply wp_recv_slow|];
    by apply (wp_ret_recv _ fst snd).
Qed.

(** A timeout gives up; the other answers are those of [recv]. *)
Definition timed (r : result Item RecvTimeoutError) : option (result Item RecvError) :=
  match r with Ok it => Some (Ok it) | Err RecvTimeout_Disconnected => Some (Err mkRecvError) | Err RecvTimeout_Timeout => None end.

Lemma wp_recv_deadline env rx deadline x :
  bit (seen b rx evs) false x ->
  wp bguar 0 (Receiver_recv_deadline_output Deferred item fuel env rx deadline) (fun r y => recv_waited r.2 (r.1 ≫= timed) y) x.
Proof.
  intros Hx. unfold Receiver_recv_deadline_output, block_until. eapply wp_call; [by apply (wp_run_blocking _ _ _ recv_contract)|].
  clear x Hx. intros [o rx'] x Hx. apply (wp_ret_recv _ (fun r => r.1 ≫= timed) snd). cbn [fst snd].
  unfold loop_post in Hx. destruct o as [[[it|[]]|u]|]; cbn in *; [done..|apply waiting_recv, Hx|by apply waiting_recv].
Qed.

Lemma wp_recv_timeout retries env rx timeout x :
  (bound caps b < retries)%nat -> bit (seen b rx evs) false x ->
  wp bguar 0 (Receiver_recv_timeout_output Deferred item retries fuel env rx timeout) (fun r y => recv_waited r.2 (r.1 ≫= timed) y) x.
Proof.
  intros Hr Hx. unfold Receiver_recv_timeout_output. destruct (Instant_checked_add _ _); [by apply wp_recv_deadline|].
  eapply wp_call; [by apply wp_recv|]. clear x Hx. intros [o rx'] x Hx.
  apply (wp_ret_recv _ (fun r => r.1 ≫= timed) snd). by destruct o as [[it|[]]|].
Qed.

End one_recv.
(** ** Batches *)

Lemma wp_bit_drain {B} fuel limit output b rx evs (c : Drained * list T * unit * Receiver -> prog (Shared T) B) Q x :
  (2 * limit + bound caps b < fuel)%nat -> bit (seen b rx evs) false x ->
  (forall d vs rx' y, drained_received d = zlength vs -> bit (seen b rx' (evs ++ (EvItem None <$> vs))) false y ->
     wp bguar 0 (c (d, output ++ vs, tt, rx')) Q y) ->
  wp bguar 0 (bind (Receiver_drain_into Deferred fuel (Z.of_nat limit) output AdmitAll tt rx) c) Q x.
Proof.
  intros Hf [Hx Hb] Hc. eapply wp_call; [apply wp_quiet; [intros; apply quiet_drain_into|by eapply wp_seen_drain|exact Hb]|].
  intros [[[d out] []] rx'] y [(vs & E1 & E2 & Hy) Hb']. cbn [fst snd] in *. subst out. by apply Hc.
Qed.

(** What a batch that appended [vs] leaves; it blocks for the first value only. *)
Definition batch_waited b (output : list T) evs (r : option (result Z RecvError) * list T * Receiver) x : Prop :=
  exists vs, r.1.2 = output ++ vs /\ bit (seen b r.2 (evs ++ waited_batch r.1.1 vs)) false x.

Lemma batch_waited_stable b output evs r : stable bguar 0 (batch_waited b output evs r).
Proof. intros x y (vs & E & Hx) Hr. exists vs. split; [done|]. by eapply bit_stable; [apply seen_stable|..]. Qed.

Lemma batch_values b output evs vs (n : Z) rx x :
  bit (seen b rx (evs ++ (EvItem None <$> vs))) false x -> batch_waited b output evs (Some (Ok n), output ++ vs, rx) x.
Proof. intros Hx. exists vs. split; [done|]. unfold waited_batch. cbn. by rewrite app_nil_r. Qed.

Lemma wp_recv_batch retries fuel env output limit b rx evs x :
  (bound caps b < retries)%nat -> (2 * limit + bound caps b < fuel)%nat -> bit (seen b rx evs) false x ->
  wp bguar 0 (Receiver_recv_batch_into Deferred retries fuel env output (Z.of_nat limit) rx) (batch_waited b output evs) x.
Proof.
  intros Hr Hf Hx. unfold Receiver_recv_batch_into. eapply (wp_call _ _ _ _ (batch_waited b output evs)).
  - assert (Hret : forall r y, batch_waited b output evs r y -> wp bguar 0 (Ret r) (batch_waited b output evs) y).
    { intros r y Hy. eapply wp_retP; [apply batch_waited_stable|exact Hy|done]. }
    destruct (Z.eqb_spec (Z.of_nat limit) 0) as [E|E].
    { apply Hret. exists []. cbn. by rewrite !app_nil_r. }
    eapply wp_bit_drain; [exact Hf|exact Hx|]. clear x Hx rx. intros d vs rx x Ed Hx.
    destruct (Z.eqb_spec (drained_received d) 0) as [E0|E0]; [|by apply Hret, batch_values].
    assert (vs = []) as -> by (destruct vs; [done|]; rewrite zlength_cons in Ed; pose proof (zlength_nonneg vs); lia).
    cbn in Hx. rewrite !app_nil_r in *.
    eapply wp_call; [eapply (wp_recv ItemOnly_item plain_event); [apply plain_event_ok|done| |exact Hr|exact Hx]; lia|].
    clear x Hx rx. intros [o rx] x Hx. unfold recv_waited in Hx. cbn [fst snd] in Hx. destruct o as [[first|[]]|].
    + replace (Z.of_nat limit - 1) with (Z.of_nat (limit - 1)) by lia. eapply wp_bit_drain; [|exact Hx|]; [lia|].
      clear x Hx rx. intros d' vs rx x Ed' Hx. apply Hret. cbn in Hx. rewrite <- !app_assoc in *. by apply (batch_values _ _ _ (first :: vs)).
    + apply Hret. exists []. by rewrite app_nil_r.
    + apply Hret. exists []. by rewrite app_nil_r.
  - clear x Hx rx. intros [[o out] rx] x Hx. destruct o as [r|]; [|by eapply wp_retP; [apply batch_waited_stable|exact Hx|]].
    destruct Hx as (vs & E & Hx & Hb). cbn [fst snd] in *. eapply wp_call.
    + apply wp_quiet; [intros; apply quiet_release_consumed|by apply wp_seen_release|exact Hb].
    + intros rx' y Hy. eapply wp_retP; [apply bit_stable, seen_stable|exact Hy|]. intros z Hz. by exists vs.
Qed.


End receiving.

(** ** The receiver's thread *)

(** What the receiver does: an operation that does not wait, a receive that
    blocks, for ever, for some time or until some instant, with or without the
    lane's identity, a blocking batch, or a change of its wait strategy. *)
Inductive wait_recv_cmd (T Adm : Type) : Type :=
| WRNow (cmd : recv_cmd T Adm)
| WRecv (env : wait_env) | WLaneRecv (env : wait_env)
| WRecvTimeout (env : wait_env) (timeout : Z) | WLaneRecvTimeout (env : wait_env) (timeout : Z)
| WRecvDeadline (env : wait_env) (deadline : Z) | WLaneRecvDeadline (env : wait_env) (deadline : Z)
| WRecvBatch (env : wait_env) (limit : nat)
| WRStrategy (strategy : WaitStrategy).
Arguments WRNow {T Adm} cmd.
Arguments WRecv {T Adm} env.
Arguments WLaneRecv {T Adm} env.
Arguments WRecvTimeout {T Adm} env timeout.
Arguments WLaneRecvTimeout {T Adm} env timeout.
Arguments WRecvDeadline {T Adm} env deadline.
Arguments WLaneRecvDeadline {T Adm} env deadline.
Arguments WRecvBatch {T Adm} env limit.
Arguments WRStrategy {T Adm} strategy.

Definition wait_limit {T Adm} (cmd : wait_recv_cmd T Adm) : nat :=
  match cmd with WRNow cmd => cmd_limit cmd | WRecvBatch _ limit => limit | _ => 0 end.
Definition waits_limit {T Adm} (cmds : list (wait_recv_cmd T Adm)) : nat := max_list (wait_limit <$> cmds).

(** The events, and whether the call came to its end. *)
Definition exec_wait_recv {T Adm} (fuel : nat) (cmd : wait_recv_cmd T Adm) (rx : Receiver)
    : prog (Shared T) (list (recv_event T) * bool * Receiver) :=
  match cmd with
  | WRNow cmd => let* '(es, rx) := exec_recv fuel cmd rx in Ret (es, true, rx)
  | WRecv env =>
      let* '(o, rx) := Receiver_recv Deferred fuel fuel env rx in
      Ret (waited_event plain_event o, bool_decide (is_Some o), rx)
  | WLaneRecv env =>
      let* '(o, rx) := LaneReceiver_recv Deferred fuel fuel env rx in
      Ret (waited_event lane_event o, bool_decide (is_Some o), rx)
  | WRecvTimeout env timeout =>
      let* '(o, rx) := Receiver_recv_timeout Deferred fuel fuel env rx timeout in
      Ret (waited_event plain_event (o ≫= timed), bool_decide (is_Some o), rx)
  | WLaneRecvTimeout env timeout =>
      let* '(o, rx) := LaneReceiver_recv_timeout Deferred fuel fuel env rx timeout in
      Ret (waited_event lane_event (o ≫= timed), bool_decide (is_Some o), rx)
  | WRecvDeadline env deadline =>
      let* '(o, rx) := Receiver_recv_deadline Deferred fuel env rx deadline in
      Ret (waited_event plain_event (o ≫= timed), bool_decide (is_Some o), rx)
  | WLaneRecvDeadline env deadline =>
      let* '(o, rx) := LaneReceiver_recv_deadline Deferred fuel env rx deadline in
      Ret (waited_event lane_event (o ≫= timed), bool_decide (is_Some o), rx)
  | WRecvBatch env limit =>
      let* '(o, out, rx) := Receiver_recv_batch_into Deferred fuel fuel env [] (Z.of_nat limit) rx in
      Ret (waited_batch o out, bool_decide (is_Some o), rx)
  | WRStrategy strategy => Ret ([], true, Receiver_set_wait_strategy strategy rx)
  end.

(** A receive that still waits is where the receiver stays: the events, and
    what is left of the script. *)
Fixpoint wait_receiver_thread {T Adm} (fuel : nat) (cmds : list (wait_recv_cmd T Adm)) (evs : list (recv_event T)) (rx : Receiver)
    : prog (Shared T) (list (recv_event T) * list (wait_recv_cmd T Adm)) :=
  match cmds with
  | [] => Ret (evs, [])
  | cmd :: cmds' =>
      let* '(es, ended, rx) := exec_wait_recv fuel cmd rx in
      if ended : bool then wait_receiver_thread fuel cmds' (evs ++ es) rx else Ret (evs ++ es, cmds)
  end.

(** The receives that cannot still be waiting on a channel of [lanes] lanes:
    each lane can have a recheck go round once more to release its slots. *)
Definition recv_comes_back {T Adm} (lanes : nat) (cmd : wait_recv_cmd T Adm) : Prop :=
  match cmd with
  | WRNow _ | WRStrategy _ => True
  | WRecv _ | WLaneRecv _ | WRecvBatch _ _ => False
  | WRecvTimeout env timeout | WLaneRecvTimeout env timeout =>
      times_out timeout lanes env
  | WRecvDeadline env deadline | WLaneRecvDeadline env deadline => passes deadline lanes env
  end.

(** What is left of a script: nothing, or it starts with a call that waits. *)
Definition stopped {T Adm} (lanes : nat) (cmds rest : list (wait_recv_cmd T Adm)) : Prop :=
  rest `suffix_of` cmds /\ match rest with [] => True | cmd :: _ => ~ recv_comes_back lanes cmd end.

Lemma exec_wait_recv_comes_back {T Adm} fuel lanes (cmd : wait_recv_cmd T Adm) rx :
  keyed (rcv_lanes rx) -> (length (rcv_lanes rx) <= lanes)%nat ->
  yields (exec_wait_recv fuel cmd rx) (fun r => recv_comes_back lanes cmd -> r.1.2 = true).
Proof.
  intros Hk Hl. assert (Hs : forall d env, passes d lanes env -> settled d env rx).
  { intros d env [H1 H2]. split; [done|]. split; [done|lia]. }
  assert (Ht : forall t env, times_out t lanes env -> times_out t (length (rcv_lanes rx)) env).
  { intros t env. unfold times_out. destruct (Instant_checked_add _ _); [apply Hs|done]. }
  assert (Hmap : forall A (p : prog (Shared T) (option A * Receiver)) (f : option A -> list (recv_event T)) (P : Prop) `{!Decision P},
    (P -> yields p (fun r => is_Some r.1)) ->
    yields (let* '(o, rx) := p in Ret (f o, bool_decide (is_Some o), rx)) (fun r => P -> r.1.2 = true)).
  { intros A p f P HD Hp. destruct (decide P) as [HP|HP]; [|apply yields_skip; by intros [o rx1] ?].
    eapply yields_bind; [by apply Hp|]. intros [o rx1] Ho _. by apply bool_decide_eq_true. }
  destruct cmd; cbn [exec_wait_recv recv_comes_back].
  - apply yields_skip. by intros [es rx1].
  - by apply (Hmap _ _ (waited_event plain_event)); [apply _|].
  - by apply (Hmap _ _ (waited_event lane_event)); [apply _|].
  - apply (Hmap _ _ (fun o => waited_event plain_event (o ≫= timed))); [apply _|]. intros H. apply yields_recv_timeout; [done|by apply Ht].
  - apply (Hmap _ _ (fun o => waited_event lane_event (o ≫= timed))); [apply _|]. intros H. apply yields_recv_timeout; [done|by apply Ht].
  - apply (Hmap _ _ (fun o => waited_event plain_event (o ≫= timed))); [apply _|]. intros H. by apply yields_recv_deadline, Hs.
  - apply (Hmap _ _ (fun o => waited_event lane_event (o ≫= timed))); [apply _|]. intros H. by apply yields_recv_deadline, Hs.
  - apply yields_skip. intros [[o out] rx1] [].
  - done.
Qed.

Section receiver_thread.
Context {T Adm : Type} (caps : list Z) (np ng : nat).
#[local] Abbreviation bguar := (bguar (T := T) caps np ng).
#[local] Abbreviation seen := (seen_so_far (T := T) caps np ng).
#[local] Abbreviation bit := (with_bit (T := T) 0).
Implicit Types (x y : cst T) (evs : list (recv_event T)).

Lemma wp_ret_events b rx es (ended : bool) evs x :
  bit (seen b rx (evs ++ es)) false x ->
  wp bguar 0 (Ret (es, ended, rx)) (fun r y => bit (seen b r.2 (evs ++ r.1.1)) false y) x.
Proof. intros Hx. eapply wp_retP; [apply bit_stable, (seen_stable caps np ng b rx (evs ++ es))|exact Hx|done]. Qed.

(** A receive that waits, as an operation of the script. *)
Lemma wp_waited_events {A Item} (ev : result Item TryRecvError -> recv_event T) (f : option A -> option (result Item RecvError))
    (p : prog (Shared T) (option A * Receiver)) b evs x :
  wp bguar 0 p (fun r y => recv_waited caps np ng ev b evs r.2 (f r.1) y) x ->
  wp bguar 0 (let* '(o, rx) := p in Ret (waited_event ev (f o), bool_decide (is_Some o), rx))
    (fun r y => bit (seen b r.2 (evs ++ r.1.1)) false y) x.
Proof. intros Hp. eapply wp_call; [exact Hp|]. intros [o rx] y Hy. by apply wp_ret_events. Qed.

Lemma wp_exec_wait_recv fuel (cmd : wait_recv_cmd T Adm) b rx evs x :
  (2 * wait_limit cmd + bound caps b < fuel)%nat -> bit (seen b rx evs) false x ->
  wp bguar 0 (exec_wait_recv fuel cmd rx) (fun r y => bit (seen b r.2 (evs ++ r.1.1)) false y) x.
Proof.
  intros Hf Hx. assert (Hf' : (bound caps b < fuel)%nat) by lia. destruct cmd; cbn [exec_wait_recv wait_limit] in *.
  - destruct Hx as [Hx Hb]. eapply wp_call; [apply wp_quiet; [intros; apply quiet_exec_recv|by apply wp_exec_recv|exact Hb]|].
    intros [es rx'] y Hy. by apply wp_ret_events.
  - apply (wp_waited_events plain_event (fun o => o)). by eapply (wp_recv caps np ng ItemOnly_item); [apply plain_event_ok|..].
  - apply (wp_waited_events lane_event (fun o => o)). by eapply (wp_recv caps np ng WithLaneIds_item); [apply lane_event_ok|..].
  - apply (wp_waited_events plain_event (fun o => o ≫= timed)). by eapply (wp_recv_timeout caps np ng ItemOnly_item); [apply plain_event_ok|..].
  - apply (wp_waited_events lane_event (fun o => o ≫= timed)). by eapply (wp_recv_timeout caps np ng WithLaneIds_item); [apply lane_event_ok|..].
  - apply (wp_waited_events plain_event (fun o => o ≫= timed)). by eapply (wp_recv_deadline caps np ng ItemOnly_item); [apply plain_event_ok|..].
  - apply (wp_waited_events lane_event (fun o => o ≫= timed)). by eapply (wp_recv_deadline caps np ng WithLaneIds_item); [apply lane_event_ok|..].
  - eapply wp_call; [by eapply wp_recv_batch|]. intros [[o out] rx'] y (vs & E & Hy). cbn in E. subst out. by apply wp_ret_events.
  - apply wp_ret_events. rewrite app_nil_r. destruct Hx as [(b' & tr & H1 & [Hrx Ho] & H2) Hb]. split; [|done].
    exists b', tr. split; [done|]. split; [|done]. split; [|exact Ho]. destruct Hrx. by split.
Qed.

(** The receiver's lanes are at their slots, and no more than the channel has. *)
Lemma seen_keyed b rx evs x : seen b rx evs x -> keyed (rcv_lanes rx) /\ (length (rcv_lanes rx) <= length caps)%nat.
Proof.
  intros (b' & tr & _ & [Hrx (pend & [_ (_ & _ & _ & Hn & _)] & _)] & _). split; [|lia].
  intros k l Hl. destruct (rx_lanes _ _ _ Hrx k l Hl) as (-> & _). cbn. by rewrite Nat2Z.id.
Qed.

Lemma wp_wait_receiver fuel (cmds : list (wait_recv_cmd T Adm)) b : forall rx evs x,
  (2 * waits_limit cmds + bound caps b < fuel)%nat -> bit (seen b rx evs) false x ->
  wp bguar 0 (wait_receiver_thread fuel cmds evs rx) (fun r y =>
    stopped (length caps) cmds r.2 /\ exists rx', seen b rx' r.1 y) x.
Proof.
  assert (Hret : forall (cmds rest : list (wait_recv_cmd T Adm)) rx evs x, stopped (length caps) cmds rest -> bit (seen b rx evs) false x ->
    wp bguar 0 (Ret (evs, rest)) (fun r y => stopped (length caps) cmds r.2 /\ exists rx', seen b rx' r.1 y) x).
  { intros cmds' rest rx evs x Hst Hx. eapply wp_retP; [apply bit_stable, (seen_stable caps np ng b rx evs)|exact Hx|].
    intros y [Hy _]. split; [done|]. by exists rx. }
  induction cmds as [|cmd cmds IH]; intros rx evs x Hf Hx; cbn [wait_receiver_thread]; [by eapply Hret|].
  unfold waits_limit in *. cbn in Hf. pose proof (seen_keyed b rx evs x (proj1 Hx)) as [Hk Hl].
  eapply wp_call; [eapply wp_yields; [by apply (exec_wait_recv_comes_back fuel (length caps))|eapply wp_exec_wait_recv; [|exact Hx]; lia]|].
  intros [[es ended] rx'] y [Hy Hback]. cbn [fst snd] in Hy, Hback. destruct ended.
  - eapply wp_mono; [|apply IH; [lia|exact Hy]]. intros [evs' rest] z [[Hr Hw] Hz]. split; [|done]. split; [by apply suffix_cons_r|done].
  - eapply Hret; [|exact Hy]. split; [done|]. intros H. by specialize (Hback H).
Qed.

End receiver_thread.

(** ** The theorem *)

Section theorem.
Context {T Adm : Type}.
#[local] Abbreviation sender_result := (list (send_event T) * bool)%type.
#[local] Abbreviation receiver_result := (list (recv_event T) * list (wait_recv_cmd T Adm))%type.
#[local] Abbreviation thread_result := (receiver_result + sender_result)%type.
Implicit Types (scripts : list (list (wait_send_cmd T))) (cmds : list (wait_recv_cmd T Adm)).

Definition wait_pool (fuel : nat) cmds scripts (txs : list Sender) (rx : Receiver) : list (prog (Shared T) thread_result) :=
  (let* r := wait_receiver_thread fuel cmds [] rx in Ret (inl r)) ::
  zip_with (fun sc tx => let* r := wait_sender_thread sc [] tx in Ret (inr r)) scripts txs.

Definition wait_post caps np ng b cmds scripts : nat -> thread_result -> cst T -> Prop :=
  one_many (fun r y => stopped (length caps) cmds r.2 /\ exists rx, seen_so_far caps np ng b rx r.1 y)
           (fun k r y => answered (nth k scripts []) r.1 r.2 /\ exists p, send_ok caps np ng k p (accepted r.1) r.2 0 y).

(** Nobody is registered on a cell of a channel that was just built. *)
Lemma started_parked caps (s : Shared T) j : started caps s -> parked j s = false.
Proof.
  intros Hs. destruct (st_cells _ _ Hs) as [E1 E2]. destruct j as [|k]; cbn; [by rewrite E1|]. unfold lane_cell. rewrite zlookup_of_nat.
  destruct (rs_signals (sh_index s) !! k) as [l|] eqn:E; [|done]. by rewrite (Forall_lookup_1 _ _ _ _ E2 E).
Qed.

Lemma wait_pool_wp fuel cmds scripts cap more c0 (s : Shared T) :
  0 < cap -> started (cap :: more) s -> length scripts = length (cap :: more) -> (rounds scripts + 2 * waits_limit cmds < fuel)%nat ->
  let np := length (rs_pages (sh_index s)) in
  let ng := length (rs_groups (sh_index s)) in
  pool_wp (bguar (cap :: more) np ng) (wait_post (cap :: more) np ng (marks scripts) cmds scripts)
    (wait_pool fuel cmds scripts (sender_at Park <$> seq 0 (length scripts)) (first_receiver cap c0)) (s, ghosts scripts).
Proof.
  intros Hc Hs Hl Hf np ng. intros [|i] q Hq; cbn [wait_pool lookup list_lookup] in Hq.
  - injection Hq as <-. eapply wp_call.
    + apply (wp_wait_receiver (cap :: more) np ng fuel cmds (marks scripts) (first_receiver cap c0) []).
      * unfold bound. unfold rounds in Hf. rewrite <- Hl. lia.
      * split; [|by eapply started_parked]. exists (marks scripts), []. split; [apply spent_refl|]. split; [by apply start_chan|].
        split; [by split|]. intros Hin. by apply elem_of_nil in Hin.
    + intros r y (Hst & rx & Hy). intros z Hz. exists r. split; [done|]. split; [done|]. exists rx. eapply stable_rtc; [apply seen_stable|exact Hy|by apply rtc_bguar].
  - change (zip_with (fun sc tx => let* r := wait_sender_thread sc [] tx in Ret (inr r)) scripts
      (sender_at Park <$> seq 0 (length scripts)) !! i = Some q) in Hq.
    apply lookup_zip_with_Some in Hq as (sc & tx & -> & Hsc & Htx). pose proof (lookup_lt_Some _ _ _ Hsc) as Hlt.
    rewrite list_lookup_fmap, lookup_seq_lt in Htx by done. injection Htx as <-.
    destruct (lookup_lt_is_Some_2 (cap :: more) i) as [capi Hi]; [lia|].
    eapply wp_call.
    + apply (wp_wait_sender (cap :: more) np ng i sc [] (sender_at Park i)). split; [|by eapply started_parked].
      exists (mkProducer 0 0). split; [done|]. pose proof (start_sender _ _ scripts _ _ Hs Hl Hi) as H. unfold marks in H.
      by rewrite (nth_lookup_Some _ _ _ _ Hsc) in H.
    + intros r y (es & E & Ha & p & Hy). cbn in E. subst es. intros z Hz. exists r. split; [done|].
      rewrite (nth_lookup_Some _ _ _ _ Hsc). split; [done|]. exists p. eapply stable_rtc; [apply send_stable|exact Hy|by apply rtc_bguar].
Qed.

(** A lane is finished only when its sender was dropped. *)
Lemma seen_closed caps np ng b rx evs k p acc closed m (x : cst T) :
  seen_so_far caps np ng b rx evs x -> EvError TryRecv_Disconnected ∈ evs -> send_ok caps np ng k p acc closed m x -> closed = true.
Proof.
  intros (b' & tr & _ & _ & _ & Hd) Hin Hs. destruct (Hd Hin) as (tr0 & _ & Hf). specialize (Hf k (send_lt _ _ _ _ _ _ _ _ _ Hs)).
  destruct Hs as [_ Hs]. eapply (at_lane_agree caps k _ _ _ x Hf Hs). by intros cap z st mk [E _] [[_ <-] _].
Qed.

(** C4: an MPSC channel whose senders and receiver block: sends and receives
    without a deadline, with a timeout and with a deadline, blocking batches,
    and operations that do not wait, each endpoint on a thread of its own, with
    any wait strategy and any finite record of what each call gets to see: its
    clock readings and the ways its sleeps end.  In every interleaving nothing
    panics, so that in particular no wait cell ever gets a second waiter and no
    wait without a deadline times out.  When no thread can move, each one has
    come to the end of its script or stopped in a call that still waits because
    its record is used up.  That can only be a call without a deadline, or one
    whose record does not let its deadline pass: a timed send whose clock shows
    the deadline once while it spins and once while it parks always answers,
    and so does a timed receive that sees it in one parking round more than
    there are lanes.  (How a notification ends a sleep is the claim on the wait
    cell; this one says nothing of the time an untimed call waits.)  A blocking
    send that answered had its value accepted or got that same value back, in
    which case it was not sent; the values received from a lane are a prefix,
    in order, of the accepted ones; and once a receive has ended in
    disconnection every sender was dropped and everything that was accepted has
    been received. *)
Theorem mpsc_blocking_fifo (c0 id : Z) (capacities : list Z) scripts cmds (fuel : nat) :
  Forall (fun c => 0 < c <= 2 ^ 62) (c0 :: capacities) -> Z.of_nat (length (c0 :: capacities)) < usize_mod ->
  length scripts = length (c0 :: capacities) -> (rounds scripts + 2 * waits_limit cmds < fuel)%nat ->
  exists s txs rx, open_channel c0 id capacities = Done (s, txs, rx) /\ length txs = length scripts /\
    Acc (flip pstep) (s, wait_pool fuel cmds scripts txs rx) /\
    forall s' ps, rtc pstep (s, wait_pool fuel cmds scripts txs rx) (s', ps) ->
      (exists c', pstep (s', ps) c') \/
      exists evs rest (rs : list sender_result) tr, ps = Ret (inl (evs, rest)) :: ((fun r => Ret (inr r)) <$> rs) /\
        stopped (length scripts) cmds rest /\ traced evs tr /\ Forall (fun e => (e.1 < length scripts)%nat) tr /\ length rs = length scripts /\
        forall k r, rs !! k = Some r -> answered (nth k scripts []) r.1 r.2 /\
          of_lane k tr `prefix_of` accepted r.1 /\
          (EvError TryRecv_Disconnected ∈ evs -> r.2 = true /\ of_lane k tr = accepted r.1).
Proof.
  intros Hc Hn Hl Hf. destruct (open_channel_started (T := T) c0 id capacities Hc Hn) as (cap & more & s & Hcap & Lm & Hs & E).
  assert (Hl' : length scripts = length (cap :: more)) by (rewrite Hl; by eapply Forall2_length).
  eexists s, _, _. split; [exact E|]. split; [rewrite length_fmap, length_seq; lia|]. split; [apply pstep_terminating|].
  rewrite <- Hl. intros s' ps Hr.
  destruct (pool_one_many _ _ _ _ _ _ _ _ (wait_pool_wp fuel cmds scripts cap more c0 s Hcap Hs Hl' Hf) Hr)
    as [Hstep|([evs rest] & rs & g & -> & Hlen & [Hstop [rx Hseen]] & Hpost)]; [done|by left|right].
  cbn [wait_pool length] in Hlen. rewrite length_zip_with, length_fmap, length_seq, Nat.min_id in Hlen.
  destruct (seen_accepted _ _ _ _ _ _ ((fun r => accepted r.1) <$> rs) _ Hseen) as (tr & Ht & Hlt & Hall); [rewrite length_fmap; lia| |].
  { intros k acc Hk. apply list_lookup_fmap_Some in Hk as (r & -> & Hk). destruct (Hpost k r Hk) as [_ [p Hp]]. eauto. }
  exists evs, rest, rs, tr. split; [done|]. split; [by rewrite Hl'|]. split; [done|]. split; [by rewrite Hl'|]. split; [lia|].
  intros k r Hk. destruct (Hpost k r Hk) as [Ha [p Hp]]. destruct (Hall k (accepted r.1)) as [H1 H2]; [by rewrite list_lookup_fmap, Hk|].
  split; [done|]. split; [done|]. intros Hin. split; [by eapply seen_closed|by apply H2].
Qed.

End theorem.

(** Two senders, one with a ring of one slot, against a receiver that blocks.
    A call of [patient] parks up to three times, one of [hasty] sees
    its deadline pass, a receive even once more than there are lanes. *)
Definition patient : wait_env := mkWaitEnv 0 [20000; 20001] [mkRound 5 false; mkRound 6 false; mkRound 7 true].
Definition hasty : wait_env := mkWaitEnv 0 [20000] [mkRound 5 true; mkRound 100 true; mkRound 101 false; mkRound 102 false].

Definition demo_wait_senders : list (list (wait_send_cmd nat)) :=
  [[WSend patient 1; WSendTimeout hasty 2 50; WSStrategy (SpinFor 10); WSNow (STrySend 3); WSend patient 4]; [WSendDeadline patient 5 30; WSNow SFlush]]%nat.
Definition demo_wait_receiver : list (wait_recv_cmd nat unit) :=
  [WRecv patient; WLaneRecvTimeout hasty 50; WRStrategy (SpinFor 10); WRecvBatch patient 2%nat; WRNow RTryRecvFair; WRecvDeadline patient 8; WLaneRecv patient].

Lemma mpsc_blocking_fifo_witness :
  exists s txs rx, open_channel 1 7 [2] = Done (s, txs, rx) /\ length txs = length demo_wait_senders /\
    Acc (flip pstep) (s, wait_pool 40 demo_wait_receiver demo_wait_senders txs rx) /\
    forall s' ps, rtc pstep (s, wait_pool 40 demo_wait_receiver demo_wait_senders txs rx) (s', ps) ->
      (exists c', pstep (s', ps) c') \/
      exists evs rest (rs : list (list (send_event nat) * bool)) tr, ps = Ret (inl (evs, rest)) :: ((fun r => Ret (inr r)) <$> rs) /\
        stopped (length demo_wait_senders) demo_wait_receiver rest /\ traced evs tr /\ Forall (fun e => (e.1 < length demo_wait_senders)%nat) tr /\ length rs = length demo_wait_senders /\
        forall k r, rs !! k = Some r -> answered (nth k demo_wait_senders []) r.1 r.2 /\
          of_lane k tr `prefix_of` accepted r.1 /\
          (EvError TryRecv_Disconnected ∈ evs -> r.2 = true /\ of_lane k tr = accepted r.1).
Proof.
  apply (mpsc_blocking_fifo 1 7 [2] demo_wait_senders demo_wait_receiver 40);
    [repeat constructor; lia|vm_compute; reflexivity|reflexivity|vm_compute; lia].
Defined.
