(* ===== verification/MpscAsync.v ===== *)
(** * The async operations of the MPSC channel

    Models [src/src/mpsc/asynchronous.rs] and what the feature [async] adds to
    [src/src/wait.rs].  With the feature every wait cell has a waker cell next
    to its condition variable, and [notify] wakes it between advancing the
    generation and signalling the condition variable.  The state of the channel
    is extended by the waker cells, one for the receiver and one per lane
    signal, and by the scheduled tasks (see Waker).

    The operations without futures are those of Mpsc: [with_wakers] is the
    program as the feature compiles it, the same accesses with the wake added
    after each access that advances a generation.  Nothing but [notify]
    advances one: registering and unregistering a waiter change the low bit of
    the word only.

    A future is its state between polls, with the polls and the drop as
    operations.  An [async] body that has not been polled has not run. *)

From stdpp Require Import functions.
From S2P Require Import Prelude Prog Config Wait Ready YRing Handoff MpscLane Mpsc Waker.
Local Open Scope prog_scope.

Section async.
Context {T Waker : Type} `{AW : AtomicWaker Waker} (pol : Teardown).

Record AShared : Type := mkAShared {
  as_chan : Shared T;
  as_data_waker : aw_cell;
  as_space_wakers : Z -> aw_cell;
  as_scheduled : list Waker
}.

Definition put_chan (c : Shared T) (s : AShared) : AShared :=
  mkAShared c (as_data_waker s) (as_space_wakers s) (as_scheduled s).
Definition put_data_waker (w : aw_cell) (s : AShared) : AShared :=
  mkAShared (as_chan s) w (as_space_wakers s) (as_scheduled s).
Definition put_space_waker (signal : Z) (w : aw_cell) (s : AShared) : AShared :=
  mkAShared (as_chan s) (as_data_waker s) (<[signal := w]> (as_space_wakers s)) (as_scheduled s).
Definition schedule (w : Waker) (s : AShared) : AShared :=
  mkAShared (as_chan s) (as_data_waker s) (as_space_wakers s) (w :: as_scheduled s).

(** A channel built with the feature has empty waker cells. *)
Definition with_waker_cells (c : Shared T) : AShared := mkAShared c aw_new (fun _ => aw_new) [].

(** ** Wait cells with a waker (wait.rs) *)

(** The cells of a channel: the receiver's and one per lane signal. *)
Inductive wait_ref : Type := DataCell | SpaceCell (signal : Z).

Definition get_waker (r : wait_ref) (s : AShared) : aw_cell :=
  match r with DataCell => as_data_waker s | SpaceCell k => as_space_wakers s k end.
Definition put_waker (r : wait_ref) (w : aw_cell) (s : AShared) : AShared :=
  match r with DataCell => put_data_waker w s | SpaceCell k => put_space_waker k w s end.

Definition WaitCell_wake (r : wait_ref) : prog AShared unit :=
  AtomicWaker_wake (get_waker r) (put_waker r) schedule.

(** The cells whose generation an access advanced. *)
Definition advanced (w w' : WaitCell) : bool := wc_state w' =? wrapping_add (wc_state w) NOTIFY_INCREMENT.
Fixpoint advanced_signals (k : Z) (ls ls' : list LaneSignal) : list wait_ref :=
  match ls, ls' with
  | l :: ls, l' :: ls' =>
      (if advanced (space_waiter l) (space_waiter l') then [SpaceCell k] else []) ++ advanced_signals (k + 1) ls ls'
  | _, _ => []
  end.
Definition advanced_cells (c c' : Shared T) : list wait_ref :=
  (if advanced (sh_data_waiter c) (sh_data_waiter c') then [DataCell] else []) ++
  advanced_signals 0 (rs_signals (sh_index c)) (rs_signals (sh_index c')).

Fixpoint wake_cells (rs : list wait_ref) : prog AShared unit :=
  match rs with
  | [] => Ret tt
  | r :: rs' => let* _ := WaitCell_wake r in wake_cells rs'
  end.

Fixpoint with_wakers {A} (p : prog (Shared T) A) : prog AShared A :=
  match p with
  | Ret a => Ret a
  | Fail e => Fail e
  | Act f k =>
      let* '(r, woken) := atomic (fun s =>
        let '(r, c) := f (as_chan s) in ((r, advanced_cells (as_chan s) c), put_chan c s)) in
      let* _ := wake_cells woken in
      with_wakers (k r)
  end.

(** [fetch_add(0)] leaves the word as it is. *)
Definition WaitCell_register_async (r : wait_ref) (waker : Waker) : prog AShared unit :=
  let* _ := AtomicWaker_register (get_waker r) (put_waker r) waker in
  load (fun _ => tt).

(** The waker taken out is dropped. *)
Definition WaitCell_cancel_async (r : wait_ref) : prog AShared unit :=
  let* _ := AtomicWaker_take (get_waker r) (put_waker r) in
  Ret tt.

(** ** The sender *)

(** [!self.is_disconnected() && self.producer.is_full()]. *)
Definition Sender_must_wait (tx : Sender) : prog AShared (bool * Sender) :=
  let* gone := with_wakers (Sender_is_disconnected pol tx) in
  if gone : bool then Ret (false, tx) else with_wakers (Sender_is_full tx).

Definition Sender_cancel_send_wait (tx : Sender) : prog AShared unit :=
  WaitCell_cancel_async (SpaceCell (snd_signal tx)).

Definition Sender_poll_ready (cx : Waker) (tx : Sender) : prog AShared (Poll (result unit (SendError unit)) * Sender) :=
  let* '(wait, tx) := Sender_must_wait tx in
  let* '(wait, tx) :=
    (if wait : bool then
       let* _ := WaitCell_register_async (SpaceCell (snd_signal tx)) cx in
       Sender_must_wait tx
     else Ret (false, tx)) in
  if wait : bool then Ret (Pending, tx)
  else
    let* _ := Sender_cancel_send_wait tx in
    let* gone := with_wakers (Sender_is_disconnected pol tx) in
    Ret (Ready (if gone : bool then Err (mkSendError tt) else Ok tt), tx).

(** The future holds the sender and the value until it is sent. *)
Record SendFuture : Type := mkSendFuture { sf_sender : Sender; sf_value : option T }.

Definition Sender_send_async (tx : Sender) (value : T) : SendFuture := mkSendFuture tx (Some value).

Definition SendFuture_poll (cx : Waker) (f : SendFuture) : prog AShared (Poll (result unit (SendError T)) * SendFuture) :=
  let* '(p, tx) := Sender_poll_ready cx (sf_sender f) in
  if Poll_is_pending p then Ret (Pending, mkSendFuture tx (sf_value f))
  else
    match sf_value f with
    | None => Fail (Panic "send polled after completion")
    | Some value =>
        let* '(r, tx) := with_wakers (Sender_try_send pol tx value) in
        Ret (Ready (match r with Ok u => Ok u | Err e => Err (mkSendError (TrySendError_into_inner e)) end), mkSendFuture tx None)
    end.

(** The drop gives the borrowed sender back and drops the value, if it is
    still there. *)
Definition SendFuture_drop (f : SendFuture) : prog AShared Sender :=
  let* _ := Sender_cancel_send_wait (sf_sender f) in
  Ret (sf_sender f).

(** ** The receiver *)

Definition Receiver_cancel_recv_wait : prog AShared unit := WaitCell_cancel_async DataCell.

Section output.
Context {Item : Type} (item : Z -> LaneKey -> T -> Item).

Definition Receiver_poll_recv_output (fuel : nat) (cx : Waker) (rx : Receiver)
    : prog AShared (Poll (result Item RecvError) * Receiver) :=
  let* '(r, rx) := with_wakers (Receiver_try_recv_output pol item fuel rx) in
  let* '(r, rx) :=
    match r with
    | Err TryRecv_Empty =>
        let* rx := with_wakers (Receiver_release_consumed rx) in
        let* _ := WaitCell_register_async DataCell cx in
        with_wakers (Receiver_try_recv_output pol item fuel rx)
    | _ => Ret (r, rx)
    end in
  let* rx := with_wakers (Receiver_release_consumed rx) in
  match r with
  | Ok value => let* _ := Receiver_cancel_recv_wait in Ret (Ready (Ok value), rx)
  | Err TryRecv_Disconnected => let* _ := Receiver_cancel_recv_wait in Ret (Ready (Err mkRecvError), rx)
  | Err TryRecv_Empty => Ret (Pending, rx)
  end.

(** The future of [recv_async_output]: before its first poll, waiting with the
    registration guard alive, or completed. *)
Inductive RecvFuture : Type := RecvUnpolled | RecvWaiting | RecvCompleted.

Definition RecvFuture_poll (fuel : nat) (cx : Waker) (f : RecvFuture) (rx : Receiver)
    : prog AShared (Poll (result Item RecvError) * RecvFuture * Receiver) :=
  match f with
  | RecvCompleted => Fail (Panic "`async fn` resumed after completion")
  | RecvUnpolled | RecvWaiting =>
      let* '(p, rx) := Receiver_poll_recv_output fuel cx rx in
      match p with
      | Pending => Ret (Pending, RecvWaiting, rx)
      | Ready r => let* _ := WaitCell_cancel_async DataCell in Ret (Ready r, RecvCompleted, rx)
      end
  end.

End output.

(** Dropping the future drops the registration guard, which exists while it
    waits. *)
Definition RecvFuture_drop (f : RecvFuture) : prog AShared unit :=
  match f with
  | RecvWaiting => WaitCell_cancel_async DataCell
  | RecvUnpolled | RecvCompleted => Ret tt
  end.

Definition Receiver_poll_recv := Receiver_poll_recv_output ItemOnly_item.
Definition LaneReceiver_poll_recv := Receiver_poll_recv_output WithLaneIds_item.
Definition LaneReceiver_cancel_recv_wait : prog AShared unit := Receiver_cancel_recv_wait.

Definition Receiver_recv_async : RecvFuture := RecvUnpolled.
Definition Receiver_recv_async_poll := RecvFuture_poll ItemOnly_item.
Definition LaneReceiver_recv_async_poll := RecvFuture_poll WithLaneIds_item.

(** The future of [recv_batch_into_async]: before its first poll, waiting for
    the first value, or completed. *)
Inductive BatchFuture : Type := BatchUnpolled | BatchWaiting (f : RecvFuture) | BatchCompleted.

Definition drain_all (fuel : nat) (limit : Z) (output : list T) (rx : Receiver) : prog AShared (Z * list T * Receiver) :=
  let* '(d, output, _, rx) := with_wakers (Receiver_drain_into pol fuel limit output AdmitAll tt rx) in
  Ret (drained_received d, output, rx).

(** The rest of the body once the first value is awaited with [f]. *)
Definition BatchFuture_await (fuel : nat) (cx : Waker) (limit : Z) (f : RecvFuture) (output : list T) (rx : Receiver)
    : prog AShared (Poll (result Z RecvError) * BatchFuture * list T * Receiver) :=
  let* '(p, f, rx) := Receiver_recv_async_poll fuel cx f rx in
  match p with
  | Pending => Ret (Pending, BatchWaiting f, output, rx)
  | Ready (Err e) =>
      let* rx := with_wakers (Receiver_release_consumed rx) in
      Ret (Ready (Err e), BatchCompleted, output, rx)
  | Ready (Ok first) =>
      let* '(n, output, rx) := drain_all fuel (limit - 1) (output ++ [first]) rx in
      let* rx := with_wakers (Receiver_release_consumed rx) in
      Ret (Ready (Ok (1 + n)), BatchCompleted, output, rx)
  end.

Definition BatchFuture_poll (fuel : nat) (cx : Waker) (limit : Z) (f : BatchFuture) (output : list T) (rx : Receiver)
    : prog AShared (Poll (result Z RecvError) * BatchFuture * list T * Receiver) :=
  match f with
  | BatchCompleted => Fail (Panic "`async fn` resumed after completion")
  | BatchWaiting f => BatchFuture_await fuel cx limit f output rx
  | BatchUnpolled =>
      if limit =? 0 then
        let* rx := with_wakers (Receiver_release_consumed rx) in
        Ret (Ready (Ok 0), BatchCompleted, output, rx)
      else
        let* '(n, output, rx) := drain_all fuel limit output rx in
        if n =? 0 then BatchFuture_await fuel cx limit Receiver_recv_async output rx
        else
          let* rx := with_wakers (Receiver_release_consumed rx) in
          Ret (Ready (Ok n), BatchCompleted, output, rx)
  end.

Definition BatchFuture_drop (f : BatchFuture) : prog AShared unit :=
  match f with BatchWaiting f => RecvFuture_drop f | _ => Ret tt end.

End async.
