(* ===== verification/MpscAsyncThm.v ===== *)
(** * The async MPSC channel under every interleaving

    Tasks that poll the futures of [src/src/mpsc/asynchronous.rs], mixed with
    the non-blocking operations: any number of sender tasks and a receiver task
    whose executors run on threads of their own.  A future is polled a number of
    times chosen by its task and dropped afterwards, so it may be cancelled
    before it completes.

    The waker cells add nothing to what the channel promises: every program of
    this file is the program of Mpsc with accesses to the waker cells in
    between, and its specification follows from the one of MpscThm. *)

From S2P Require Import Prelude Prog Config Wait Ready YRing YRingInv YRingSpec YRingConc YRingClose Handoff MpscLane MpscLaneInv Mpsc MpscRegistry MpscConc MpscLaneConc MpscRecvConc MpscRecvLoop MpscBatchConc MpscSendConc MpscSetup MpscThm Waker MpscAsync.
Local Open Scope prog_scope.

(** ** Steps that touch the waker cells only *)

Section wakers.
Context {T Waker : Type} `{AW : AtomicWaker Waker} (caps : list Z) (np ng : nat).
#[local] Abbreviation AShared := (AShared (T := T) (Waker := Waker)).
#[local] Abbreviation cguar := (cguar (T := T) caps np ng).
Implicit Types (x y : AShared * list (lghost T)).

Definition chan_part x : cst T := (as_chan x.1, x.2).

(** What a thread may do to the channel with its waker cells. *)
Definition aguar (i : nat) : relation (AShared * list (lghost T)) :=
  fun x y => cguar i (chan_part x) (chan_part y) \/ chan_part y = chan_part x.

Lemma rely_chan_part i x y : rely aguar i x y -> rtc (rely cguar i) (chan_part x) (chan_part y).
Proof. intros (j & Hj & [H| ->]); [|constructor]. apply rtc_once. by exists j. Qed.

Lemma rtc_chan_part i x y : rtc (rely aguar i) x y -> rtc (rely cguar i) (chan_part x) (chan_part y).
Proof. intros H. induction H as [|x y z H _ IH]; [constructor|]. etrans; [by eapply rely_chan_part|exact IH]. Qed.

Lemma stable_chan_part i P : stable cguar i P -> stable aguar i (fun x => P (chan_part x)).
Proof. intros HS x y Hx Hr. eapply stable_rtc; [exact HS|exact Hx|]. by apply rely_chan_part. Qed.

(** A program that leaves the channel alone. *)
Fixpoint silent {A} (p : prog AShared A) : Prop :=
  match p with
  | Ret _ => True
  | Fail _ => False
  | Act f k => forall s, as_chan (f s).2 = as_chan s /\ silent (k (f s).1)
  end.

Lemma silent_bind {A B} (p : prog AShared A) (k : A -> prog AShared B) :
  silent p -> (forall a, silent (k a)) -> silent (bind p k).
Proof.
  intros Hp Hk. induction p as [a|R f c IH|e]; cbn in *; [auto| |done].
  intros s. destruct (Hp s) as [E Hc]. auto.
Qed.

Lemma wp_silent {A B} i (p : prog AShared A) (k : A -> prog AShared B) Q x :
  silent p -> (forall a y, rtc (rely cguar i) (chan_part x) (chan_part y) -> wp aguar i (k a) Q y) ->
  wp aguar i (bind p k) Q x.
Proof.
  revert x. induction p as [a|R f c IH|e]; intros x Hp Hk; cbn in Hp; [|intros y Hy|done].
  - by apply Hk.
  - destruct (Hp y.1) as [E Hc]. exists y.2. assert (Ec : chan_part ((f y.1).2, y.2) = chan_part y) by (unfold chan_part; cbn; by rewrite E).
    split; [by right|]. apply IH; [done|]. intros a z Hz. apply Hk. rewrite Ec in Hz. etrans; [by apply rtc_chan_part|exact Hz].
Qed.

(** A stable assertion survives a silent program. *)
Lemma wp_silent_keep {A B} i (P : cst T -> Prop) (p : prog AShared A) (k : A -> prog AShared B) Q x :
  silent p -> stable cguar i P -> P (chan_part x) -> (forall a y, P (chan_part y) -> wp aguar i (k a) Q y) ->
  wp aguar i (bind p k) Q x.
Proof. intros Hp HS Hx Hk. apply wp_silent; [done|]. intros a y Hy. apply Hk. by eapply stable_rtc. Qed.

Lemma chan_put_waker r w (s : AShared) : as_chan (put_waker r w s) = as_chan s.
Proof. by destruct r. Qed.

Lemma silent_wake r : silent (WaitCell_wake (T := T) r).
Proof.
  intros s. cbn. destruct (aw_take (get_waker r s)) as [o c]; cbn. split; [apply chan_put_waker|]. by destruct o.
Qed.

Lemma silent_wake_cells rs : silent (wake_cells (T := T) rs).
Proof. induction rs as [|r rs IH]; [done|]. apply silent_bind; [apply silent_wake|done]. Qed.

Lemma silent_register r (w : Waker) : silent (WaitCell_register_async (T := T) r w).
Proof. intros s. cbn. by rewrite chan_put_waker. Qed.

Lemma silent_cancel r : silent (WaitCell_cancel_async (T := T) (Waker := Waker) r).
Proof. intros s. cbn. destruct (aw_take (get_waker r s)) as [o c]; cbn. by rewrite chan_put_waker. Qed.

(** ** The operations of the channel, compiled with wakers *)

Lemma wp_with_wakers {A} i (p : prog (Shared T) A) Q x :
  wp cguar i p Q (chan_part x) -> wp aguar i (with_wakers p) (fun a y => Q a (chan_part y)) x.
Proof.
  revert x. induction p as [a|R f k IH|e]; intros x H; cbn [with_wakers].
  - intros y Hy. apply H. by apply rtc_chan_part.
  - intros y Hy. destruct (H (chan_part y)) as (g' & Hg & Hk); [by apply rtc_chan_part|]. cbn in *.
    destruct (f (as_chan y.1)) as [r c] eqn:E. cbn in *. exists g'. split; [by left|].
    apply wp_silent; [apply silent_wake_cells|]. intros _ z Hz. apply IH. cbn in Hz. by eapply wp_rely.
  - intros y Hy. apply (H (chan_part y)). by apply rtc_chan_part.
Qed.

Lemma wp_call_wakers {A B} i (p : prog (Shared T) A) (k : A -> prog AShared B) R Q x :
  wp cguar i p R (chan_part x) -> (forall a y, R a (chan_part y) -> wp aguar i (k a) Q y) ->
  wp aguar i (bind (with_wakers p) k) Q x.
Proof. intros Hp Hk. eapply wp_call; [apply wp_with_wakers, Hp|]. exact Hk. Qed.

Lemma wp_ret_part {A} i (P : cst T -> Prop) (a : A) (Q : A -> AShared * list (lghost T) -> Prop) x :
  stable cguar i P -> P (chan_part x) -> (forall y, P (chan_part y) -> Q a y) -> wp aguar i (Ret a) Q x.
Proof. intros HS Hx HQ. eapply (wp_retP _ _ (fun y => P (chan_part y))); [by apply stable_chan_part|exact Hx|exact HQ]. Qed.

End wakers.

(** ** Sender tasks *)

(** What a sender task does: an operation without futures, a send awaited with
    one waker per poll and dropped after the last of them, or a manual poll of
    the capacity. *)
Inductive send_task (T Waker : Type) : Type :=
| TNow (cmd : send_cmd T)
| TSend (v : T) (polls : list Waker)
| TPollReady (cx : Waker) (cancel : bool).
Arguments TNow {T Waker} cmd.
Arguments TSend {T Waker} v polls.
Arguments TPollReady {T Waker} cx cancel.

Section tasks.
Context {T Waker : Type} `{AW : AtomicWaker Waker}.
#[local] Abbreviation AShared := (AShared (T := T) (Waker := Waker)).

(** Polls until the future completes or the wakers run out. *)
Fixpoint await_send (polls : list Waker) (f : SendFuture) : prog AShared (option (result unit (SendError T)) * SendFuture) :=
  match polls with
  | [] => Ret (None, f)
  | cx :: polls' =>
      let* '(p, f) := SendFuture_poll Deferred cx f in
      match p with
      | Ready r => Ret (Some r, f)
      | Pending => await_send polls' f
      end
  end.

Definition exec_send_task (task : send_task T Waker) (tx : Sender) : prog AShared (list T * Sender) :=
  match task with
  | TNow cmd => with_wakers (exec_send cmd tx)
  | TSend v polls =>
      let* '(r, f) := await_send polls (Sender_send_async tx v) in
      let* tx := SendFuture_drop f in
      Ret (match r with Some (Ok _) => [v] | _ => [] end, tx)
  | TPollReady cx cancel =>
      let* '(_, tx) := Sender_poll_ready Deferred cx tx in
      let* _ := when cancel (Sender_cancel_send_wait tx) in
      Ret ([], tx)
  end.

Fixpoint sender_task (tasks : list (send_task T Waker)) (acc : list T) (tx : Sender) : prog AShared (list T) :=
  match tasks with
  | [] => let* _ := with_wakers (Sender_drop tx) in Ret acc
  | task :: tasks' =>
      let* '(ws, tx) := exec_send_task task tx in
      sender_task tasks' (acc ++ ws) tx
  end.

End tasks.

Section send_tasks.
Context {T Waker : Type} `{AW : AtomicWaker Waker} (caps : list Z) (np ng : nat).
#[local] Abbreviation AShared := (AShared (T := T) (Waker := Waker)).
#[local] Abbreviation cguar := (cguar (T := T) caps np ng).
#[local] Abbreviation aguar := (aguar (T := T) (Waker := Waker) caps np ng).
#[local] Abbreviation send_ok := (send_ok (T := T) caps np ng).
#[local] Abbreviation sent := (sent (T := T) caps np ng).
Implicit Types (x y : AShared * list (lghost T)) (acc : list T).

Lemma wp_must_wait k acc m tx x :
  sent k acc m [] tx (chan_part x) ->
  wp aguar (S k) (Sender_must_wait Deferred tx) (fun r y => sent k acc m [] r.2 (chan_part y)) x.
Proof.
  intros (p & Htx & Hx). rewrite app_nil_r in Hx. unfold Sender_must_wait.
  eapply wp_call_wakers; [by eapply wp_sender_disconnected|]. clear x Hx. intros gone x Hx. cbn in Hx. destruct gone.
  - eapply wp_ret_part; [apply sent_stable|by eapply sent_nil|done].
  - apply (wp_with_wakers caps np ng (S k) _ (fun r c => sent k acc m [] r.2 c)). by eapply wp_sender_is_full.
Qed.

Lemma wp_sender_poll_ready k acc m cx tx x :
  sent k acc m [] tx (chan_part x) ->
  wp aguar (S k) (Sender_poll_ready Deferred cx tx) (fun r y => sent k acc m [] r.2 (chan_part y)) x.
Proof.
  intros Hx. unfold Sender_poll_ready. eapply wp_call; [by eapply wp_must_wait|]. clear x Hx tx. intros [w tx] x Hx. cbn [fst snd] in Hx.
  eapply (wp_call _ _ _ _ (fun r y => sent k acc m [] r.2 (chan_part y))).
  { destruct w; [|by eapply wp_ret_part; [apply sent_stable|exact Hx|]].
    eapply wp_silent_keep; [apply silent_register|apply sent_stable|exact Hx|]. intros _ y Hy. by apply wp_must_wait. }
  clear x Hx tx w. intros [w tx] x Hx. cbn [fst snd] in Hx. destruct w; [by eapply wp_ret_part; [apply sent_stable|exact Hx|]|].
  eapply wp_silent_keep; [apply silent_cancel|apply sent_stable|exact Hx|]. clear x Hx. intros _ x (p & Htx & Hx). rewrite app_nil_r in Hx.
  eapply wp_call_wakers; [by eapply wp_sender_disconnected|]. clear x Hx. intros gone x Hx. cbn in Hx.
  eapply wp_ret_part; [apply sent_stable|by eapply sent_nil|done].
Qed.

(** A future that still holds its value has sent nothing; one that completed
    sent it exactly if it says so. *)
Lemma wp_await_send k acc m v polls : forall f x,
  sf_value f = Some v -> sent k acc (S m) [] (sf_sender f) (chan_part x) ->
  wp aguar (S k) (await_send polls f)
    (fun r y => sent k acc m (match r.1 with Some (Ok _) => [v] | _ => [] end) (sf_sender r.2) (chan_part y)) x.
Proof.
  induction polls as [|cx polls IH]; intros f x Hv Hx; cbn [await_send].
  - eapply wp_ret_part; [apply sent_stable| |done]. cbn. destruct Hx as (p & Htx & Hx). exists p. split; [done|].
    by eapply send_fewer; [|exact Hx]; lia.
  - unfold SendFuture_poll. apply wp_bind. eapply wp_call; [by eapply wp_sender_poll_ready|]. clear x Hx. intros [r tx] x Hx. cbn [fst snd] in Hx.
    destruct (Poll_is_pending r).
    + eapply wp_ret_part; [apply (sent_stable caps np ng k acc (S m))|exact Hx|]. intros y Hy. by apply IH.
    + rewrite Hv. destruct Hx as (p & Htx & Hx). rewrite app_nil_r in Hx.
      eapply wp_call_wakers; [by eapply wp_try_send|]. clear x Hx. intros [[u|e] tx'] x Hx; cbn [fst snd is_ok] in Hx.
      * eapply wp_ret_part; [apply sent_stable|exact Hx|]. intros y Hy. by eapply wp_ret_part; [apply sent_stable|exact Hy|].
      * eapply wp_ret_part; [apply sent_stable|exact Hx|]. intros y Hy. by eapply wp_ret_part; [apply sent_stable|exact Hy|].
Qed.

Lemma wp_exec_send_task k p acc m task tx x :
  is_sender k p tx -> send_ok k p acc false (S m) (chan_part x) ->
  wp aguar (S k) (exec_send_task task tx) (fun r y => sent k acc m r.1 r.2 (chan_part y)) x.
Proof.
  intros Htx Hx. pose proof (sent_nil _ _ _ _ _ _ _ _ _ Htx Hx) as Hs. destruct task as [cmd|v polls|cx cancel]; cbn [exec_send_task].
  - apply (wp_with_wakers caps np ng (S k) _ (fun r c => sent k acc m r.1 r.2 c)). by eapply wp_exec_send.
  - eapply wp_call; [by eapply wp_await_send|]. clear x Hx Hs. intros [r f] x Hx. cbn [fst snd] in Hx. apply wp_bind.
    eapply wp_silent_keep; [apply silent_cancel|apply sent_stable|exact Hx|]. clear x Hx. intros _ x Hx.
    eapply wp_ret_part; [apply sent_stable|exact Hx|]. intros y Hy. by eapply wp_ret_part; [apply sent_stable|exact Hy|].
  - eapply wp_call; [by eapply wp_sender_poll_ready|]. clear x Hx Hs. intros [r tx'] x (p' & Htx' & Hx). cbn [fst snd] in *.
    assert (Hs : sent k acc m [] tx' (chan_part x)).
    { exists p'. split; [done|]. by eapply send_fewer; [|exact Hx]; lia. }
    eapply wp_silent_keep; [destruct cancel; [apply silent_cancel|done]|apply sent_stable|exact Hs|].
    intros _ y Hy. by eapply wp_ret_part; [apply sent_stable|exact Hy|].
Qed.

(** A sender task ends with its ring closed and its accepted values written. *)
Lemma wp_sender_task k tasks : forall p acc tx x,
  is_sender k p tx -> send_ok k p acc false (S (length tasks)) (chan_part x) ->
  wp aguar (S k) (sender_task tasks acc tx) (fun ws y => exists p', send_ok k p' ws true 0 (chan_part y)) x.
Proof.
  induction tasks as [|task tasks IH]; intros p acc tx x Htx Hx; cbn [sender_task length] in *.
  - eapply wp_call_wakers; [by eapply wp_sender_drop|]. intros u y Hy. cbn in Hy.
    eapply wp_ret_part; [apply (send_stable caps np ng)|exact Hy|]. eauto.
  - eapply wp_call; [eapply wp_exec_send_task; [exact Htx|exact Hx]|]. intros [ws tx'] y (p' & Htx' & Hy). cbn [fst snd] in *.
    by eapply IH.
Qed.

End send_tasks.

(** ** Receiver tasks *)

(** What the receiver's task does: an operation without futures, a receive of a
    value or of a batch awaited with one waker per poll and dropped after the
    last of them, or a manual poll. *)
Inductive recv_task (T Adm Waker : Type) : Type :=
| TRecvNow (cmd : recv_cmd T Adm)
| TRecv (polls : list Waker)
| TLaneRecv (polls : list Waker)
| TBatch (limit : nat) (polls : list Waker)
| TPollRecv (cx : Waker) (cancel : bool).
Arguments TRecvNow {T Adm Waker} cmd.
Arguments TRecv {T Adm Waker} polls.
Arguments TLaneRecv {T Adm Waker} polls.
Arguments TBatch {T Adm Waker} limit polls.
Arguments TPollRecv {T Adm Waker} cx cancel.

Definition task_limit {T Adm Waker} (task : recv_task T Adm Waker) : nat :=
  match task with TRecvNow cmd => cmd_limit cmd | TBatch limit _ => limit | _ => 0 end.
Definition tasks_limit {T Adm Waker} (tasks : list (recv_task T Adm Waker)) : nat := max_list (task_limit <$> tasks).

Definition poll_result {A} (p : Poll A) : option A := match p with Ready a => Some a | Pending => None end.

Section recv_tasks.
Context {T Adm Waker : Type} `{AW : AtomicWaker Waker}.
#[local] Abbreviation AShared := (AShared (T := T) (Waker := Waker)).

Fixpoint await_recv {Item} (item : Z -> LaneKey -> T -> Item) (fuel : nat) (polls : list Waker) (f : RecvFuture) (rx : Receiver)
    : prog AShared (option (result Item RecvError) * RecvFuture * Receiver) :=
  match polls with
  | [] => Ret (None, f, rx)
  | cx :: polls' =>
      let* '(p, f, rx) := RecvFuture_poll Deferred item fuel cx f rx in
      match p with
      | Ready r => Ret (Some r, f, rx)
      | Pending => await_recv item fuel polls' f rx
      end
  end.

Fixpoint await_batch (fuel : nat) (polls : list Waker) (limit : Z) (f : BatchFuture) (output : list T) (rx : Receiver)
    : prog AShared (option (result Z RecvError) * BatchFuture * list T * Receiver) :=
  match polls with
  | [] => Ret (None, f, output, rx)
  | cx :: polls' =>
      let* '(p, f, output, rx) := BatchFuture_poll Deferred fuel cx limit f output rx in
      match p with
      | Ready r => Ret (Some r, f, output, rx)
      | Pending => await_batch fuel polls' limit f output rx
      end
  end.

Definition exec_recv_task (fuel : nat) (task : recv_task T Adm Waker) (rx : Receiver)
    : prog AShared (list (recv_event T) * Receiver) :=
  match task with
  | TRecvNow cmd => with_wakers (exec_recv fuel cmd rx)
  | TRecv polls =>
      let* '(r, f, rx) := await_recv ItemOnly_item fuel polls Receiver_recv_async rx in
      let* _ := RecvFuture_drop f in
      Ret (waited_event plain_event r, rx)
  | TLaneRecv polls =>
      let* '(r, f, rx) := await_recv WithLaneIds_item fuel polls Receiver_recv_async rx in
      let* _ := RecvFuture_drop f in
      Ret (waited_event lane_event r, rx)
  | TBatch limit polls =>
      let* '(r, f, output, rx) := await_batch fuel polls (Z.of_nat limit) BatchUnpolled [] rx in
      let* _ := BatchFuture_drop f in
      Ret (waited_batch r output, rx)
  | TPollRecv cx cancel =>
      let* '(p, rx) := Receiver_poll_recv Deferred fuel cx rx in
      let* _ := when cancel Receiver_cancel_recv_wait in
      Ret (waited_event plain_event (poll_result p), rx)
  end.

Fixpoint receiver_task (fuel : nat) (tasks : list (recv_task T Adm Waker)) (evs : list (recv_event T)) (rx : Receiver)
    : prog AShared (list (recv_event T)) :=
  match tasks with
  | [] => Ret evs
  | task :: tasks' =>
      let* '(es, rx) := exec_recv_task fuel task rx in
      receiver_task fuel tasks' (evs ++ es) rx
  end.

End recv_tasks.

Section recv_thm.
Context {T Adm Waker : Type} `{AW : AtomicWaker Waker} (caps : list Z) (np ng : nat).
#[local] Abbreviation AShared := (AShared (T := T) (Waker := Waker)).
#[local] Abbreviation cguar := (cguar (T := T) caps np ng).
#[local] Abbreviation aguar := (aguar (T := T) (Waker := Waker) caps np ng).
#[local] Abbreviation seen := (seen_so_far (T := T) caps np ng).
Implicit Types (x y : AShared * list (lghost T)) (evs : list (recv_event T)).

Lemma wp_call_release {B} b rx evs (k : Receiver -> prog AShared B) Q x :
  seen b rx evs (chan_part x) -> (forall rx' y, seen b rx' evs (chan_part y) -> wp aguar 0 (k rx') Q y) ->
  wp aguar 0 (bind (with_wakers (Receiver_release_consumed rx)) k) Q x.
Proof. intros Hx Hk. eapply wp_call_wakers; [by eapply wp_seen_release|]. exact Hk. Qed.

(** A silent step, then the rest. *)
Lemma wp_seen_silent {A B} b rx evs (p : prog AShared A) (k : A -> prog AShared B) Q x :
  silent p -> seen b rx evs (chan_part x) -> (forall a y, seen b rx evs (chan_part y) -> wp aguar 0 (k a) Q y) ->
  wp aguar 0 (bind p k) Q x.
Proof. intros Hp Hx Hk. eapply wp_silent_keep; [done|apply (seen_stable caps np ng b rx evs)|exact Hx|exact Hk]. Qed.

Lemma wp_ret_seen {A} b rx evs (a : A) (Q : A -> AShared * list (lghost T) -> Prop) x :
  seen b rx evs (chan_part x) -> (forall y, seen b rx evs (chan_part y) -> Q a y) -> wp aguar 0 (Ret a) Q x.
Proof. intros Hx HQ. eapply wp_ret_part; [apply (seen_stable caps np ng b rx evs)|exact Hx|exact HQ]. Qed.

Section output.
Context {Item : Type} (item : Z -> LaneKey -> T -> Item) (ev : result Item TryRecvError -> recv_event T).
Context (ev_ok : forall id k v, exists lane, ev (Ok (item id (lane_at k) v)) = EvItem lane v /\ forall key, lane = Some key -> key = lane_at k).
Context (ev_err : forall e, ev (Err e) = EvError e).

Lemma wp_seen_try {B} fuel b rx evs (k : result Item TryRecvError * Receiver -> prog AShared B) Q x :
  (bound caps b < fuel)%nat -> seen b rx evs (chan_part x) ->
  (forall r rx' y, seen b rx' (evs ++ [ev r]) (chan_part y) -> wp aguar 0 (k (r, rx')) Q y) ->
  wp aguar 0 (bind (with_wakers (Receiver_try_recv_output Deferred item fuel rx)) k) Q x.
Proof.
  intros Hf Hx Hk. eapply wp_call_wakers.
  - apply (wp_seen_receive caps np ng item ev (fun a => a) _ b rx evs); [done|done| |exact Hx]. intros b' tr y Hs Hy. apply wp_try_recv_output; [exact Hy|].
    pose proof (bound_spent caps b b' Hs). lia.
  - intros [r rx'] y Hy. by apply Hk.
Qed.

Lemma wp_poll_recv_output fuel cx b rx evs x :
  (bound caps b < fuel)%nat -> seen b rx evs (chan_part x) ->
  wp aguar 0 (Receiver_poll_recv_output Deferred item fuel cx rx)
    (fun r y => seen b r.2 (evs ++ waited_event ev (poll_result r.1)) (chan_part y)) x.
Proof.
  intros Hf Hx. unfold Receiver_poll_recv_output. eapply wp_seen_try; [done|exact Hx|]. clear x Hx rx. intros r rx x Hx.
  eapply (wp_call _ _ _ _ (fun r y => seen b r.2 (evs ++ [ev r.1]) (chan_part y))).
  { destruct r as [it|[]]; try by eapply wp_ret_seen.
    rewrite ev_err in Hx. apply seen_forget in Hx. eapply wp_call_release; [exact Hx|]. clear x Hx rx. intros rx x Hx.
    eapply wp_seen_silent; [apply silent_register|exact Hx|]. clear x Hx. intros _ x Hx.
    apply wp_bind_ret. eapply wp_seen_try; [done|exact Hx|]. intros r rx' y Hy. by eapply wp_ret_seen. }
  clear x Hx rx r. intros [r rx] x Hx. cbn [fst snd] in Hx. eapply wp_call_release; [exact Hx|]. clear x Hx rx. intros rx x Hx.
  destruct r as [it|[]]; [..|rewrite ev_err in Hx].
  - eapply wp_seen_silent; [apply silent_cancel|exact Hx|]. intros _ y Hy. by eapply wp_ret_seen.
  - rewrite ev_err in Hx. apply seen_forget in Hx. eapply wp_ret_seen; [exact Hx|]. intros y Hy. cbn. by rewrite app_nil_r.
  - eapply wp_seen_silent; [apply silent_cancel|exact Hx|]. intros _ y Hy. by eapply wp_ret_seen.
Qed.

Lemma wp_recv_future_poll fuel cx f b rx evs x :
  f <> RecvCompleted -> (bound caps b < fuel)%nat -> seen b rx evs (chan_part x) ->
  wp aguar 0 (RecvFuture_poll Deferred item fuel cx f rx)
    (fun r y => (r.1.1 = Pending -> r.1.2 <> RecvCompleted) /\ seen b r.2 (evs ++ waited_event ev (poll_result r.1.1)) (chan_part y)) x.
Proof.
  intros Hn Hf Hx.
  assert (H : wp aguar 0 (let* '(p, rx) := Receiver_poll_recv_output Deferred item fuel cx rx in
      match p with
      | Pending => Ret (Pending, RecvWaiting, rx)
      | Ready r => let* _ := WaitCell_cancel_async DataCell in Ret (Ready r, RecvCompleted, rx)
      end)
    (fun r y => (r.1.1 = Pending -> r.1.2 <> RecvCompleted) /\ seen b r.2 (evs ++ waited_event ev (poll_result r.1.1)) (chan_part y)) x);
    [|by destruct f].
  eapply wp_call; [by eapply wp_poll_recv_output|]. clear x Hx rx. intros [[r|] rx] x Hx; cbn [fst snd] in Hx.
  - eapply wp_seen_silent; [apply silent_cancel|exact Hx|]. intros _ y Hy. by eapply wp_ret_seen.
  - by eapply wp_ret_seen.
Qed.

Lemma wp_await_recv fuel b polls : forall f rx evs x,
  f <> RecvCompleted -> (bound caps b < fuel)%nat -> seen b rx evs (chan_part x) ->
  wp aguar 0 (await_recv item fuel polls f rx) (fun r y => seen b r.2 (evs ++ waited_event ev r.1.1) (chan_part y)) x.
Proof.
  induction polls as [|cx polls IH]; intros f rx evs x Hn Hf Hx; cbn [await_recv].
  - eapply wp_ret_seen; [exact Hx|]. intros y Hy. cbn. by rewrite app_nil_r.
  - eapply wp_call; [by eapply wp_recv_future_poll|]. clear x Hx rx f Hn. intros [[[r|] f] rx] x [Hn Hx]; cbn [fst snd] in *.
    + by eapply wp_ret_seen.
    + cbn in Hx. rewrite app_nil_r in Hx. apply IH; auto.
Qed.

End output.

(** ** Batch futures *)

(** What a poll of a batch future leaves: the values it appended to the
    vector. *)
Definition batch_seen b (output : list T) evs (r : option (result Z RecvError)) (out : list T) rx x : Prop :=
  exists vs, out = output ++ vs /\ seen b rx (evs ++ waited_batch r vs) (chan_part x) /\
    match r with Some (Ok m) => m = zlength vs | _ => vs = [] end.

(** A future that may be polled; it waits only for a batch that is not empty. *)
Definition batch_live (limit : nat) (f : BatchFuture) : Prop :=
  match f with
  | BatchUnpolled => True
  | BatchWaiting f => f <> RecvCompleted /\ (0 < limit)%nat
  | BatchCompleted => False
  end.

Definition batch_polled (limit : nat) b (output : list T) evs (r : Poll (result Z RecvError) * BatchFuture * list T * Receiver) x : Prop :=
  (r.1.1.1 = Pending -> batch_live limit r.1.1.2) /\ batch_seen b output evs (poll_result r.1.1.1) r.1.2 r.2 x.

Lemma wp_drain_all {B} fuel limit output b rx evs (k : Z * list T * Receiver -> prog AShared B) Q x :
  (2 * limit + bound caps b < fuel)%nat -> seen b rx evs (chan_part x) ->
  (forall vs rx' y, seen b rx' (evs ++ (EvItem None <$> vs)) (chan_part y) -> wp aguar 0 (k (zlength vs, output ++ vs, rx')) Q y) ->
  wp aguar 0 (bind (drain_all Deferred fuel (Z.of_nat limit) output rx) k) Q x.
Proof.
  intros Hf Hx Hk. apply wp_bind. eapply wp_call_wakers; [by eapply wp_seen_drain|]. clear x Hx.
  intros [[[d out] u] rx'] x (vs & E1 & E2 & Hx). cbn [fst snd] in *. subst out. rewrite E2.
  eapply wp_ret_seen; [exact Hx|]. intros y Hy. by apply Hk.
Qed.

(** Release and return. *)
Lemma wp_batch_return limit b output evs vs m rx x :
  seen b rx (evs ++ (EvItem None <$> vs)) (chan_part x) -> m = zlength vs ->
  wp aguar 0 (let* rx := with_wakers (Receiver_release_consumed rx) in Ret (Ready (Ok m), BatchCompleted, output ++ vs, rx))
    (batch_polled limit b output evs) x.
Proof.
  intros Hx Hm. eapply wp_call_release; [exact Hx|]. clear x Hx. intros rx' x Hx.
  eapply wp_ret_seen; [exact Hx|]. intros y Hy. split; [done|]. exists vs. split; [done|]. split; [|done].
  unfold waited_batch. cbn. by rewrite app_nil_r.
Qed.

Lemma wp_batch_await fuel cx limit f output b rx evs x :
  f <> RecvCompleted -> (0 < limit)%nat -> (2 * limit + bound caps b < fuel)%nat -> seen b rx evs (chan_part x) ->
  wp aguar 0 (BatchFuture_await Deferred fuel cx (Z.of_nat limit) f output rx) (batch_polled limit b output evs) x.
Proof.
  intros Hn Hl Hf Hx. unfold BatchFuture_await, Receiver_recv_async_poll.
  eapply wp_call; [eapply (wp_recv_future_poll ItemOnly_item plain_event plain_event_ok); [done|exact Hn| |exact Hx]; lia|].
  clear x Hx rx f Hn. intros [[p f] rx] x [Hn Hx]. cbn [fst snd] in *. destruct p as [[first|[]]|]; cbn [poll_result waited_event] in Hx.
  - replace (Z.of_nat limit - 1) with (Z.of_nat (limit - 1)) by lia.
    eapply wp_drain_all; [|exact Hx|]; [lia|]. clear x Hx rx. intros vs rx x Hx. cbn.
    change (plain_event (Ok first)) with (EvItem (T := T) None first) in Hx. rewrite <- app_assoc in *.
    apply (wp_batch_return limit b output evs (first :: vs)); [exact Hx|]. rewrite zlength_cons. lia.
  - eapply wp_call_release; [exact Hx|]. clear x Hx rx. intros rx x Hx. eapply wp_ret_seen; [exact Hx|]. intros y Hy.
    split; [done|]. exists []. by rewrite app_nil_r.
  - rewrite app_nil_r in Hx. eapply wp_ret_seen; [exact Hx|]. intros y Hy. split; [by split; [apply Hn|]|]. exists [].
    unfold waited_batch. cbn. by rewrite !app_nil_r.
Qed.

Lemma wp_batch_poll fuel cx limit f output b rx evs x :
  batch_live limit f -> (2 * limit + bound caps b < fuel)%nat -> seen b rx evs (chan_part x) ->
  wp aguar 0 (BatchFuture_poll Deferred fuel cx (Z.of_nat limit) f output rx) (batch_polled limit b output evs) x.
Proof.
  intros Hn Hf Hx. destruct f as [|f|]; cbn [BatchFuture_poll batch_live] in *; [|destruct Hn; by apply wp_batch_await|done].
  destruct (Z.eqb_spec (Z.of_nat limit) 0).
  - rewrite <- (app_nil_r evs) in Hx. pose proof (wp_batch_return limit b output evs [] 0 rx x Hx eq_refl) as H. by rewrite app_nil_r in H.
  - eapply wp_drain_all; [done|exact Hx|]. clear x Hx rx. intros vs rx x Hx. cbn beta iota. destruct (Z.eqb_spec (zlength vs) 0) as [E|].
    + destruct vs; [|rewrite zlength_cons in E; pose proof (zlength_nonneg vs); lia].
      rewrite !app_nil_r in *. apply wp_batch_await; [done|lia|done|done].
    + by eapply wp_batch_return.
Qed.

Lemma wp_await_batch fuel b limit polls : forall f rx evs output x,
  batch_live limit f -> (2 * limit + bound caps b < fuel)%nat -> seen b rx evs (chan_part x) ->
  wp aguar 0 (await_batch fuel polls (Z.of_nat limit) f output rx)
    (fun r y => batch_seen b output evs r.1.1.1 r.1.2 r.2 y) x.
Proof.
  induction polls as [|cx polls IH]; intros f rx evs output x Hn Hf Hx; cbn [await_batch].
  - eapply wp_ret_seen; [exact Hx|]. intros y Hy. exists []. unfold waited_batch. cbn. by rewrite !app_nil_r.
  - eapply wp_call; [by eapply wp_batch_poll|]. clear x Hx rx f Hn. intros [[[[r|] f] out] rx] x [Hn (vs & E & Hx & Hm)]; cbn [fst snd poll_result] in *; subst out.
    + eapply wp_ret_seen; [exact Hx|]. intros y Hy. by exists vs.
    + subst vs. unfold waited_batch in Hx. cbn in Hx. rewrite !app_nil_r in *. apply IH; auto.
Qed.

(** ** The receiver's task *)

Lemma silent_recv_drop (f : RecvFuture) : silent (RecvFuture_drop (T := T) (Waker := Waker) f).
Proof. destruct f; [done|apply silent_cancel|done]. Qed.

Lemma silent_batch_drop (f : BatchFuture) : silent (BatchFuture_drop (T := T) (Waker := Waker) f).
Proof. destruct f; [done|apply silent_recv_drop|done]. Qed.

Lemma wp_exec_recv_task fuel (task : recv_task T Adm Waker) b rx evs x :
  (2 * task_limit task + bound caps b < fuel)%nat -> seen b rx evs (chan_part x) ->
  wp aguar 0 (exec_recv_task fuel task rx) (fun r y => seen b r.2 (evs ++ r.1) (chan_part y)) x.
Proof.
  intros Hf Hx. destruct task as [cmd|polls|polls|limit polls|cx cancel]; cbn [exec_recv_task task_limit] in *.
  - apply (wp_with_wakers caps np ng 0 _ (fun r c => seen b r.2 (evs ++ r.1) c)). by apply wp_exec_recv.
  - eapply wp_call; [eapply (wp_await_recv ItemOnly_item plain_event plain_event_ok); [done|done| |exact Hx]; lia|].
    intros [[r f] rx'] y Hy. cbn [fst snd] in Hy. eapply wp_seen_silent; [apply silent_recv_drop|exact Hy|]. intros _ z Hz. by eapply wp_ret_seen.
  - eapply wp_call; [eapply (wp_await_recv WithLaneIds_item lane_event lane_event_ok); [done|done| |exact Hx]; lia|].
    intros [[r f] rx'] y Hy. cbn [fst snd] in Hy. eapply wp_seen_silent; [apply silent_recv_drop|exact Hy|]. intros _ z Hz. by eapply wp_ret_seen.
  - eapply wp_call; [eapply wp_await_batch; [done|exact Hf|exact Hx]|].
    intros [[[r f] out] rx'] y (vs & E & Hy & _). cbn [fst snd] in *. subst out. eapply wp_seen_silent; [apply silent_batch_drop|exact Hy|].
    intros _ z Hz. by eapply wp_ret_seen.
  - eapply wp_call; [eapply (wp_poll_recv_output ItemOnly_item plain_event plain_event_ok); [done| |exact Hx]; lia|].
    intros [p rx'] y Hy. cbn [fst snd] in Hy. eapply wp_seen_silent; [destruct cancel; [apply silent_cancel|done]|exact Hy|].
    intros _ z Hz. by eapply wp_ret_seen.
Qed.

Lemma wp_receiver_task fuel (tasks : list (recv_task T Adm Waker)) : forall b rx evs x,
  (2 * tasks_limit tasks + bound caps b < fuel)%nat -> seen b rx evs (chan_part x) ->
  wp aguar 0 (receiver_task fuel tasks evs rx) (fun evs' y => exists rx', seen b rx' evs' (chan_part y)) x.
Proof.
  induction tasks as [|task tasks IH]; intros b rx evs x Hf Hx; cbn [receiver_task].
  - eapply wp_ret_seen; [exact Hx|]. intros y Hy. by exists rx.
  - unfold tasks_limit in *. cbn in Hf. eapply wp_call; [eapply wp_exec_recv_task; [|exact Hx]; lia|]. intros [es rx1] y Hy. apply IH; [lia|done].
Qed.

End recv_thm.

(** ** The theorem *)

Section theorem.
Context {T Adm Waker : Type} `{AW : AtomicWaker Waker}.
#[local] Abbreviation AShared := (AShared (T := T) (Waker := Waker)).
#[local] Abbreviation thread_result := (list (recv_event T) + list T)%type.
Implicit Types (scripts : list (list (send_task T Waker))) (tasks : list (recv_task T Adm Waker)).

Definition task_pool (fuel : nat) tasks scripts (txs : list Sender) (rx : Receiver) : list (prog AShared thread_result) :=
  (let* evs := receiver_task fuel tasks [] rx in Ret (inl evs)) ::
  zip_with (fun sc tx => let* acc := sender_task sc [] tx in Ret (inr acc)) scripts txs.

Definition task_post caps np ng b : nat -> thread_result -> AShared * list (lghost T) -> Prop :=
  one_many (fun evs y => exists rx, seen_so_far caps np ng b rx evs (chan_part y))
           (fun k acc y => exists p, send_ok caps np ng k p acc true 0 (chan_part y)).

Lemma task_pool_wp fuel tasks scripts cap more c0 (s : Shared T) :
  0 < cap -> started (cap :: more) s -> length scripts = length (cap :: more) -> (rounds scripts + 2 * tasks_limit tasks < fuel)%nat ->
  let np := length (rs_pages (sh_index s)) in
  let ng := length (rs_groups (sh_index s)) in
  pool_wp (aguar (cap :: more) np ng) (task_post (cap :: more) np ng (marks scripts))
    (task_pool fuel tasks scripts (sender_at Park <$> seq 0 (length scripts)) (first_receiver cap c0)) (with_waker_cells s, ghosts scripts).
Proof.
  intros Hc Hs Hl Hf np ng. intros [|i] q Hq; cbn [task_pool lookup list_lookup] in Hq.
  - injection Hq as <-. eapply wp_call.
    + apply (wp_receiver_task (cap :: more) np ng fuel tasks (marks scripts)).
      * unfold bound. unfold rounds in Hf. rewrite <- Hl. lia.
      * exists (marks scripts), []. split; [apply spent_refl|]. split; [by apply start_chan|]. split; [by split|].
        intros Hin. by apply elem_of_nil in Hin.
    + intros evs y [rx Hy]. eapply wp_ret_seen; [exact Hy|]. intros z Hz. exists evs. eauto.
  - change (zip_with (fun sc tx => let* acc := sender_task sc [] tx in Ret (inr acc)) scripts
      (sender_at Park <$> seq 0 (length scripts)) !! i = Some q) in Hq.
    apply lookup_zip_with_Some in Hq as (sc & tx & -> & Hsc & Htx). pose proof (lookup_lt_Some _ _ _ Hsc) as Hlt.
    rewrite list_lookup_fmap, lookup_seq_lt in Htx by done. injection Htx as <-.
    destruct (lookup_lt_is_Some_2 (cap :: more) i) as [capi Hi]; [lia|].
    eapply wp_call.
    + apply (wp_sender_task (cap :: more) np ng i sc (mkProducer 0 0) [] (sender_at Park i)); [done|].
      pose proof (start_sender _ _ scripts _ _ Hs Hl Hi) as H. unfold marks in H. by rewrite (nth_lookup_Some _ _ _ _ Hsc) in H.
    + intros acc y [p Hy]. eapply wp_ret_part; [apply (send_stable (cap :: more) np ng)|exact Hy|]. intros z Hz. exists acc. eauto.
Qed.

(** C24: an MPSC channel whose senders and receiver are tasks that poll the
    futures of the async API, may drop a future before it completes, and mix
    them with the operations that do not wait.  In every interleaving of their
    accesses to the channel and to the waker cells nothing panics or runs for
    ever, and the values received from a lane are a prefix, in order, of the
    values whose sends completed with success: a send that is cancelled leaves
    nothing behind, and a receive that is cancelled takes nothing.  Once a
    receive has ended in disconnection, everything that was accepted has been
    received. *)
Theorem mpsc_async_interleaving_fifo (c0 id : Z) (capacities : list Z) scripts tasks (fuel : nat) :
  Forall (fun c => 0 < c <= 2 ^ 62) (c0 :: capacities) -> Z.of_nat (length (c0 :: capacities)) < usize_mod ->
  length scripts = length (c0 :: capacities) -> (rounds scripts + 2 * tasks_limit tasks < fuel)%nat ->
  exists s txs rx, open_channel c0 id capacities = Done (s, txs, rx) /\ length txs = length scripts /\
    Acc (flip pstep) (with_waker_cells s, task_pool fuel tasks scripts txs rx) /\
    forall s' ps, rtc pstep (with_waker_cells s, task_pool fuel tasks scripts txs rx) (s', ps) ->
      (exists c', pstep (s', ps) c') \/
      exists evs accs tr, ps = Ret (inl evs) :: ((fun acc => Ret (inr acc)) <$> accs) /\ length accs = length scripts /\
        traced evs tr /\ Forall (fun e => (e.1 < length scripts)%nat) tr /\
        forall k acc, accs !! k = Some acc -> of_lane k tr `prefix_of` acc /\
          (EvError TryRecv_Disconnected ∈ evs -> of_lane k tr = acc).
Proof.
  intros Hc Hn Hl Hf. destruct (open_channel_started (T := T) c0 id capacities Hc Hn) as (cap & more & s & Hcap & Lm & Hs & E).
  assert (Hl' : length scripts = length (cap :: more)) by (rewrite Hl; by eapply Forall2_length).
  eexists s, _, _. split; [exact E|]. split; [rewrite length_fmap, length_seq; lia|]. split; [apply pstep_terminating|].
  rewrite <- Hl. intros s' ps Hr.
  destruct (pool_one_many _ _ _ _ _ _ _ _ (task_pool_wp fuel tasks scripts cap more c0 s Hcap Hs Hl' Hf) Hr)
    as [Hstep|(evs & accs & g & -> & Hlen & [rx Hseen] & Hpost)]; [done|by left|right].
  cbn [task_pool length] in Hlen. rewrite length_zip_with, length_fmap, length_seq, Nat.min_id in Hlen.
  destruct (seen_accepted _ _ _ _ _ _ accs _ Hseen) as (tr & Ht & Hlt & Hall); [lia|intros k acc Hk; destruct (Hpost k acc Hk); eauto|].
  exists evs, accs, tr. split; [done|]. split; [lia|]. split; [done|]. split; [by rewrite Hl'|done].
Qed.

End theorem.

(** Two senders, the first of them with a ring of one slot and a send that may
    be cancelled; wakers are numbers. *)
Definition demo_send_tasks : list (list (send_task nat nat)) :=
  [[TNow (STrySend 1); TSend 2 [7; 8]; TPollReady 7 true; TSend 3 [7]]; [TSend 4 []; TSend 5 [9; 9; 9]]]%nat.
Definition demo_recv_tasks : list (recv_task nat unit nat) :=
  [TRecv [1; 2]; TPollRecv 1 true; TBatch 3 [1; 1; 3]; TRecvNow RTryRecvFair; TLaneRecv [4]; TRecv [5; 5]]%nat.

Lemma mpsc_async_interleaving_fifo_witness :
  exists s txs rx, open_channel 1 7 [2] = Done (s, txs, rx) /\ length txs = length demo_send_tasks /\
    Acc (flip pstep) (with_waker_cells s, task_pool 40 demo_recv_tasks demo_send_tasks txs rx) /\
    forall s' ps, rtc pstep (with_waker_cells s, task_pool 40 demo_recv_tasks demo_send_tasks txs rx) (s', ps) ->
      (exists c', pstep (s', ps) c') \/
      exists evs accs tr, ps = Ret (inl evs) :: ((fun acc => Ret (inr acc)) <$> accs) /\ length accs = length demo_send_tasks /\
        traced evs tr /\ Forall (fun e => (e.1 < length demo_send_tasks)%nat) tr /\
        forall k acc, accs !! k = Some acc -> of_lane k tr `prefix_of` acc /\
          (EvError TryRecv_Disconnected ∈ evs -> of_lane k tr = acc).
Proof.
  apply (mpsc_async_interleaving_fifo 1 7 [2] demo_send_tasks demo_recv_tasks 40);
    [repeat constructor; lia|vm_compute; reflexivity|reflexivity|vm_compute; lia].
Defined.
