(* ===== verification/Work.v ===== *)
(** * Stealable work queues

    Models [src/src/mpmc/work.rs].  A [WorkQueue] is a handle (an index) into
    a store of queues; every operation of the source holds the queue's mutex
    for one critical section, which is one step of the model, and the
    operations that touch two queues ([steal_batch_into], [drain_into]) hold
    the two mutexes one after the other, as the source does.

    The second half runs the calls the receivers of a channel make, under every
    interleaving of their critical sections. *)

From S2P Require Import Prelude Prog.
Local Open Scope prog_scope.

Definition STEAL_BATCH_LIMIT : Z := 8.

Section work.
Context {T : Type}.

Record Queue : Type := mkQueue {
  q_values : list T;
  q_capacity : option Z
}.

Definition WorkQueue_bounded (capacity : Z) : Queue := mkQueue [] (Some capacity).
Definition WorkQueue_unbounded : Queue := mkQueue [] None.

(** One critical section on the queue of handle [h]. *)
Definition locked {R} (h : nat) (f : Queue -> R * Queue) : prog (list Queue) R :=
  focus (fun s => s !! h) (fun q s => <[h := q]> s) (atomic f).

(** The loop of [push_batch]: [None] is the [unreachable!] of a full queue. *)
Fixpoint push_values (cap : option Z) (values : list T) (queue : list T) : bool * list T :=
  match values with
  | [] => (true, queue)
  | value :: rest =>
      if match cap with Some c => c <=? zlength queue | None => false end then (false, queue)
      else push_values cap rest (queue ++ [value])
  end.

Definition WorkQueue_push_batch (h : nat) (values : list T) : prog (list Queue) unit :=
  let* fits := locked h (fun q =>
    let '(b, vs) := push_values (q_capacity q) values (q_values q) in (b, mkQueue vs (q_capacity q))) in
  if fits then Ret tt
  else Fail (Panic "work queue capacity matches the maximum staged batch").

Definition WorkQueue_pop (h : nat) : prog (list Queue) (option T) :=
  locked h (fun q =>
    match q_values q with
    | [] => (None, q)
    | v :: vs => (Some v, mkQueue vs (q_capacity q))
    end).

(** The critical section of [steal_batch_into] on the victim. *)
Definition steal_section (q : Queue) : option (T * list T) * Queue :=
  match q_values q with
  | [] => (None, q)
  | value :: source =>
      let transfer := Z.to_nat (Z.min (div_ceil (zlength source) 2) (STEAL_BATCH_LIMIT - 1)) in
      (Some (value, take transfer source), mkQueue (drop transfer source) (q_capacity q))
  end.

Definition WorkQueue_steal_batch_into (h destination : nat) : prog (list Queue) (option T) :=
  let* o := locked h steal_section in
  match o with
  | None => Ret None
  | Some (value, stolen) =>
      let* _ := WorkQueue_push_batch destination stolen in
      Ret (Some value)
  end.

Definition WorkQueue_drain_into (h destination : nat) : prog (list Queue) bool :=
  let* drained := locked h (fun q => (q_values q, mkQueue [] (q_capacity q))) in
  let moved := match drained with [] => false | _ => true end in
  let* _ := WorkQueue_push_batch destination drained in
  Ret moved.

Definition WorkQueue_len (h : nat) : prog (list Queue) Z :=
  locked h (fun q => (zlength (q_values q), q)).

End work.
Arguments Queue T : clear implicits.

(** ** The calls of a receiver

    [stage own orphaned victims batch] is what one [try_recv] of the receiver
    with queue [own] does to the work queues: its own queue, the orphaned
    work, a steal from each victim whose queue is not empty, and finally the
    values it took from a sender lane, the first of which it returns
    ([Receiver_pop_work] and [Receiver_take_batch]).  It returns the received
    value and the part of [batch] it did not take from the lane. *)

Section calls.
Context {T : Type}.

Fixpoint steal_from (own : nat) (victims : list nat) : prog (list (Queue T)) (option T) :=
  match victims with
  | [] => Ret None
  | v :: victims' =>
      if (v =? own)%nat then steal_from own victims' else
      let* n := WorkQueue_len v in
      if n =? 0 then steal_from own victims' else
      let* o := WorkQueue_steal_batch_into v own in
      match o with
      | Some x => Ret (Some x)
      | None => steal_from own victims'
      end
  end.

Definition stage (own orphaned : nat) (victims : list nat) (batch : list T)
    : prog (list (Queue T)) (option T * list T) :=
  let* o := WorkQueue_pop own in
  match o with
  | Some x => Ret (Some x, batch)
  | None =>
      let* o := WorkQueue_pop orphaned in
      match o with
      | Some x => Ret (Some x, batch)
      | None =>
          let* o := steal_from own victims in
          match o with
          | Some x => Ret (Some x, batch)
          | None =>
              match batch with
              | [] => Ret (None, [])
              | x :: rest => let* _ := WorkQueue_push_batch own rest in Ret (Some x, [])
              end
          end
      end
  end.

(** A receiver: a sequence of receives, then its drop, which leaves the staged
    work to the others.  The result is what it received and what it left in
    the lanes. *)
Fixpoint receiver_work (own orphaned : nat) (script : list (list nat * list T)) (got left : list T)
    : prog (list (Queue T)) (list T * list T) :=
  match script with
  | [] => let* _ := WorkQueue_drain_into own orphaned in Ret (got, left)
  | (victims, batch) :: script' =>
      let* r := stage own orphaned victims batch in
      receiver_work own orphaned script' (got ++ option_list r.1) (left ++ r.2)
  end.

End calls.

(** ** Every interleaving *)

Lemma concat_insert {A} (l : list (list A)) i a b :
  l !! i = Some a -> a ++ concat (<[i := b]> l) ≡ₚ b ++ concat l.
Proof.
  revert i. induction l as [|x l IH]; intros i Hi; [done|]. destruct i as [|i]; cbn in Hi |- *.
  - simplify_eq. rewrite !(assoc_L (++)). by rewrite (Permutation_app_comm a b).
  - specialize (IH i Hi). rewrite (Permutation_app_swap_app a x), IH. apply Permutation_app_swap_app.
Qed.

Lemma push_values_fits {T} cap (vs q : list T) :
  match cap with Some c => zlength q + zlength vs <= c | None => True end ->
  push_values cap vs q = (true, q ++ vs).
Proof.
  revert q. induction vs as [|v vs IH]; intros q Hc; cbn; [by rewrite app_nil_r|].
  rewrite zlength_cons in Hc. pose proof (zlength_nonneg vs).
  replace (match cap with Some c => c <=? zlength q | None => false end) with false.
  - rewrite IH; [by rewrite <- (assoc_L (++))|]. destruct cap; [rewrite zlength_snoc; lia|done].
  - destruct cap as [c|]; [|done]. symmetry. apply Z.leb_gt. lia.
Qed.

Section interleaving.
Context {T : Type} (n : nat) (limit : Z) (total : list T).
Context (limit_range : 7 <= limit).
Implicit Types (q : Queue T) (L : list T).

Definition wst : Type := list (Queue T) * list (list T).
Definition contents (x : wst) : list T := concat (q_values <$> x.1) ++ concat x.2.

(** A receiver's queue is bounded, the orphaned queue is not; no value is lost
    or duplicated; the queue of receiver [j] only shrinks under the others. *)
Record winv (x : wst) : Prop := {
  wi_total : contents x ≡ₚ total;
  wi_caps : q_capacity <$> x.1 = replicate n (Some limit) ++ [None];
  wi_held : length x.2 = n
}.

Definition wguar (i : nat) : relation wst := fun x y =>
  winv y /\ (forall j, j <> i -> y.2 !! j = x.2 !! j) /\
  (forall j q, j <> i -> j <> n -> x.1 !! j = Some q ->
     exists q', y.1 !! j = Some q' /\ (length (q_values q') <= length (q_values q))%nat).

(** What receiver [i] knows: it holds [L], and its queue is empty if [e]. *)
Definition holds (i : nat) (e : bool) L : wst -> Prop := fun x =>
  winv x /\ (exists L', x.2 !! i = Some L' /\ L' ≡ₚ L) /\
  (e = true -> exists q, x.1 !! i = Some q /\ q_values q = []).

Lemma holds_stable i e L : (i < n)%nat -> stable wguar i (holds i e L).
Proof.
  intros Hi x y (H1 & (L' & H2 & H3) & H4) (j & Hj & Hy & Hg & Hq). split; [done|]. split.
  - exists L'. by rewrite Hg.
  - intros E. destruct (H4 E) as (q & Hx & Hv).
    destruct (Hq i q ltac:(done) ltac:(lia) Hx) as (q' & Hy' & Hl).
    exists q'. split; [done|]. rewrite Hv in Hl. cbn in Hl. destruct (q_values q'); [done|cbn in Hl; lia].
Qed.

Lemma holds_perm i e L L' x : L ≡ₚ L' -> holds i e L x -> holds i e L' x.
Proof. intros E (H1 & (L0 & H2 & H3) & H4). split_and!; auto. exists L0. by rewrite <- E. Qed.

Lemma wp_ret_holds {A} i e L (a : A) Q x :
  (i < n)%nat -> holds i e L x -> (forall y, holds i e L y -> Q a y) -> wp wguar i (Ret a) Q x.
Proof. intros Hi Hx HQ. by apply (wp_retP _ i (holds i e L)); [apply holds_stable| |]. Qed.

Lemma holds_weaken i e L x : holds i e L x -> holds i false L x.
Proof. intros (H1 & H2 & H4). by split_and!. Qed.

Lemma winv_cap x h q : winv x -> x.1 !! h = Some q ->
  q_capacity q = (if (h <? n)%nat then Some limit else None) /\ (h <= n)%nat.
Proof.
  intros [_ Hc _] Hq. assert (E : (q_capacity <$> x.1) !! h = Some (q_capacity q)) by by rewrite list_lookup_fmap, Hq.
  rewrite Hc in E. pose proof (lookup_lt_Some _ _ _ E) as Hl. rewrite length_app, length_replicate in Hl. cbn in Hl.
  destruct (Nat.ltb_spec h n).
  - rewrite lookup_app_l in E by by rewrite length_replicate. rewrite lookup_replicate_2 in E by done.
    split; [congruence|lia].
  - rewrite lookup_app_r in E by (rewrite length_replicate; lia). rewrite length_replicate in E.
    replace (h - n)%nat with 0%nat in E by lia. cbn in E. split; [congruence|lia].
Qed.

Lemma winv_queue x h : winv x -> (h <= n)%nat -> exists q, x.1 !! h = Some q.
Proof.
  intros [_ Hc _] Hh. apply lookup_lt_is_Some_2.
  assert (E : length (q_capacity <$> x.1) = S n) by by rewrite Hc, length_app, length_replicate, Nat.add_1_r.
  rewrite length_fmap in E. lia.
Qed.

(** The step of receiver [i] on queue [h]: it replaces the queue's values by
    [vs] and what it holds by [L2], keeping the sum. *)
Lemma wguar_step i h x q vs L1 L2 :
  winv x -> (i < n)%nat -> x.1 !! h = Some q -> x.2 !! i = Some L1 ->
  vs ++ L2 ≡ₚ q_values q ++ L1 -> (h = i \/ h = n \/ (length vs <= length (q_values q))%nat) ->
  wguar i x (<[h := mkQueue vs (q_capacity q)]> x.1, <[i := L2]> x.2).
Proof.
  intros HI Hi Hq HL E Hh. split; [split|split].
  - cbn. rewrite <- (wi_total _ HI). unfold contents. cbn [fst snd]. rewrite list_fmap_insert. cbn.
    apply (Permutation_app_inv_l (q_values q ++ L1)).
    assert (E1 := concat_insert (q_values <$> x.1) h (q_values q) vs ltac:(by rewrite list_lookup_fmap, Hq)).
    assert (E2 := concat_insert x.2 i L1 L2 HL).
    transitivity ((q_values q ++ concat (<[h := vs]> (q_values <$> x.1))) ++ (L1 ++ concat (<[i := L2]> x.2))).
    { perm. }
    rewrite E1, E2, <- E. perm.
  - cbn. rewrite list_fmap_insert. cbn. rewrite list_insert_id; [apply HI|]. by rewrite list_lookup_fmap, Hq.
  - cbn. rewrite length_insert. apply HI.
  - intros j Hj. cbn. by rewrite list_lookup_insert_ne.
  - intros j q0 Hj Hn Hq0. cbn. destruct (decide (h = j)) as [->|Hne].
    + rewrite list_lookup_insert_eq by by eapply lookup_lt_Some. eexists. split; [done|]. cbn.
      simplify_eq. destruct Hh as [Hh|[Hh|Hh]]; lia.
    + rewrite list_lookup_insert_ne by done. eauto.
Qed.

(** A critical section on queue [h] of receiver [i]. *)
Lemma wp_locked {R} i h e L (f : Queue T -> R * Queue T) Q x :
  (i < n)%nat -> (h <= n)%nat -> holds i e L x ->
  (forall q, q_capacity q = (if (h <? n)%nat then Some limit else None) ->
     (h = i -> e = true -> q_values q = []) ->
     exists vs L2, (f q).2 = mkQueue vs (q_capacity q) /\ vs ++ L2 ≡ₚ q_values q ++ L /\
       (h = i \/ h = n \/ (length vs <= length (q_values q))%nat) /\
       forall y, holds i (if decide (h = i) then bool_decide (vs = []) else e) L2 y -> Q (f q).1 y) ->
  wp wguar i (locked h f) Q x.
Proof.
  intros Hi Hh Hx Hf. unfold locked, atomic. cbn [focus].
  eapply wp_act; [apply (holds_stable i e L Hi)|done|]. clear x Hx. intros s g Hx.
  pose proof Hx as (HI & (L1 & HL1 & HL) & He).
  destruct (winv_queue (s, g) h HI Hh) as [q Hq]. cbn in Hq, HL1, He. rewrite Hq.
  destruct (winv_cap (s, g) h q HI Hq) as [Hcap _].
  destruct (Hf q Hcap) as (vs & L2 & Ef & Ep & Hlen & HQ).
  { intros -> Ee. destruct (He Ee) as (q1 & Hq1 & Hv). congruence. }
  destruct (f q) as [r q'] eqn:Efq. cbn [fst snd] in *. subst q'.
  exists (<[i := L2]> g). rewrite <- HL in Ep.
  assert (Hg := wguar_step i h (s, g) q vs L1 L2 HI Hi Hq HL1 Ep Hlen). cbn in Hg. split; [done|].
  set (e' := if decide (h = i) then bool_decide (vs = []) else e) in *.
  apply (wp_retP _ i (holds i e' L2)); [by apply holds_stable| |exact HQ].
  split; [apply Hg|]. cbn. split.
  - exists L2. split; [|done]. apply list_lookup_insert_eq. by eapply lookup_lt_Some.
  - intros E. unfold e' in E. destruct (decide (h = i)) as [->|Hne].
    + apply bool_decide_eq_true in E. subst vs. rewrite list_lookup_insert_eq by by eapply lookup_lt_Some. eauto.
    + rewrite list_lookup_insert_ne by done. auto.
Qed.

Lemma wp_work_pop i h e L Q x :
  (i < n)%nat -> (h <= n)%nat -> holds i e L x ->
  (forall o y, holds i (if decide (h = i) then bool_decide (o = None) || e else e) (L ++ option_list o) y -> Q o y) ->
  wp wguar i (WorkQueue_pop h) Q x.
Proof.
  intros Hi Hh Hx HQ. eapply wp_locked; eauto. intros q _ Hempty.
  destruct q as [[|v vs] c]; cbn in *.
  - exists [], L. split_and!; [done|done|auto|]. intros y Hy. apply HQ. cbn. rewrite app_nil_r.
    by destruct (decide (h = i)).
  - exists vs, (L ++ [v]). split_and!; [done|perm|cbn; auto|].
    intros y Hy. apply HQ. cbn. destruct (decide (h = i)); [|done]. destruct e; [|by eapply holds_weaken].
    by specialize (Hempty ltac:(done) eq_refl).
Qed.

(** The owner pushes into its own empty queue; anyone pushes to the orphans. *)
Lemma wp_work_push i h e L vs L' Q x :
  (i < n)%nat -> (h = i /\ e = true /\ zlength vs <= limit) \/ h = n ->
  holds i e L x -> L ≡ₚ L' ++ vs ->
  (forall y, holds i (if decide (h = i) then false else e) L' y -> Q tt y) ->
  wp wguar i (WorkQueue_push_batch h vs) Q x.
Proof.
  intros Hi Hh Hx E HQ. unfold WorkQueue_push_batch.
  eapply (wp_call _ _ _ _ (fun b y => b = true /\ holds i (if decide (h = i) then false else e) L' y)).
  - eapply wp_locked; [done|lia|exact Hx|]. intros q Hc Hempty. destruct q as [qs c].
    cbn [q_values q_capacity] in *. assert (Hfit : match c with Some c => zlength qs + zlength vs <= c | None => True end).
    { rewrite Hc. destruct Hh as [(-> & He & Hl)| ->].
      - rewrite (proj2 (Nat.ltb_lt i n) Hi). rewrite (Hempty eq_refl He), zlength_nil. lia.
      - by rewrite Nat.ltb_irrefl. }
    rewrite (push_values_fits _ _ _ Hfit). cbn. exists (qs ++ vs), L'. split_and!; [done| | |].
    + rewrite E. perm.
    + destruct Hh as [(-> & _)| ->]; auto.
    + intros y Hy. split; [done|]. destruct (decide (h = i)); [by eapply holds_weaken|done].
  - intros b y [-> Hy]. apply (wp_ret_holds i (if decide (h = i) then false else e) L'); [done|done|exact HQ].
Qed.

Lemma wp_work_steal i h L Q x :
  (i < n)%nat -> (h < n)%nat -> h <> i -> holds i true L x ->
  (forall o y, holds i (bool_decide (o = None)) (L ++ option_list o) y -> Q o y) ->
  wp wguar i (WorkQueue_steal_batch_into h i) Q x.
Proof.
  intros Hi Hh Hne Hx HQ. unfold WorkQueue_steal_batch_into.
  eapply (wp_call _ _ _ _ (fun o y => match o with
     | None => holds i true L y
     | Some (v, st) => zlength st <= 7 /\ holds i true ((L ++ [v]) ++ st) y end)).
  - eapply wp_locked; [done|lia|exact Hx|]. intros [[|v vs] c] Hc _; cbn in *.
    + exists [], L. split_and!; [done|done|auto|]. by rewrite decide_False.
    + set (k := Z.to_nat _). exists (drop k vs), ((L ++ [v]) ++ take k vs). split_and!; [done| | |].
      * rewrite <- (take_drop k vs) at 3. perm.
      * rewrite length_drop. lia.
      * intros y Hy. rewrite decide_False in Hy by done. split; [|done].
        unfold zlength. rewrite length_take. unfold k, STEAL_BATCH_LIMIT. lia.
  - intros [[v st]|] y Hy.
    + destruct Hy as [Hlen Hy]. eapply wp_call.
      * eapply (wp_work_push i i true _ st (L ++ [v]) (fun _ => holds i false (L ++ [v]))); [done|left; split_and!; [done..|lia]|exact Hy|done|].
        intros z Hz. by rewrite decide_True in Hz.
      * intros [] z Hz. apply (wp_ret_holds i false (L ++ [v])); [done|done|].
        intros w Hw. by apply HQ.
    + apply (wp_ret_holds i true L); [done|done|].
      intros w Hw. apply HQ. cbn. by rewrite app_nil_r.
Qed.

Lemma wp_work_len i h e L Q x :
  (i < n)%nat -> (h <= n)%nat -> holds i e L x -> (forall k y, holds i e L y -> Q k y) ->
  wp wguar i (WorkQueue_len h) Q x.
Proof.
  intros Hi Hh Hx HQ. eapply wp_locked; eauto. intros [qs c] _ Hempty. cbn in *.
  exists qs, L. split_and!; [done..|auto|]. intros y Hy. apply HQ.
  destruct (decide (h = i)) as [->|]; [|done]. destruct e; [|by eapply holds_weaken].
  by rewrite bool_decide_eq_true_2 in Hy by auto.
Qed.

Lemma wp_work_drain i L Q x :
  (i < n)%nat -> holds i false L x ->
  (forall b y, holds i true L y -> Q b y) -> wp wguar i (WorkQueue_drain_into i n) Q x.
Proof.
  intros Hi Hx HQ. unfold WorkQueue_drain_into.
  eapply (wp_call _ _ _ _ (fun d y => holds i true (L ++ d) y)).
  - eapply wp_locked; [done|lia|exact Hx|]. intros [qs c] _ _. cbn.
    exists [], (L ++ qs). split_and!; [done|perm|auto|]. intros y Hy.
    by rewrite decide_True in Hy.
  - intros d y Hy. eapply wp_call.
    + eapply (wp_work_push i n true _ d L (fun _ => holds i true L)); [done|by right|exact Hy|done|].
      intros z Hz. by rewrite decide_False in Hz by lia.
    + intros [] z Hz. apply (wp_ret_holds i true L); [done|done|]. auto.
Qed.

Lemma wp_steal_from i victims L Q x :
  (i < n)%nat -> Forall (fun v => (v < n)%nat) victims -> holds i true L x ->
  (forall o y, holds i (bool_decide (o = None)) (L ++ option_list o) y -> Q o y) ->
  wp wguar i (steal_from i victims) Q x.
Proof.
  intros Hi Hv. revert x. induction Hv as [|v victims Hv _ IH]; intros x Hx HQ; cbn [steal_from].
  - apply (wp_ret_holds i true L); [done|done|].
    intros y Hy. apply HQ. cbn. by rewrite app_nil_r.
  - destruct (Nat.eqb_spec v i) as [_|Hne]; [by apply IH|].
    eapply (wp_call _ _ _ _ (fun _ => holds i true L)); [eapply wp_work_len; eauto with lia|].
    intros k y Hy. destruct (k =? 0); [by apply IH|].
    eapply (wp_call _ _ _ _ (fun o => holds i (bool_decide (o = None)) (L ++ option_list o))); [by eapply wp_work_steal; eauto|].
    intros [v0|] z Hz; cbn in Hz.
    + apply (wp_ret_holds i false (L ++ [v0])); [done|done|]. intros w Hw. by apply HQ.
    + rewrite app_nil_r in Hz. by apply IH.
Qed.

(** One receive: what receiver [i] holds afterwards, besides the value it
    returns and the values it left in the lane. *)
Lemma wp_stage i victims batch L Q x :
  (i < n)%nat -> Forall (fun v => (v < n)%nat) victims -> zlength batch <= limit ->
  holds i false (L ++ batch) x ->
  (forall r y, holds i false (L ++ option_list r.1 ++ r.2) y -> Q r y) ->
  wp wguar i (stage i n victims batch) Q x.
Proof.
  intros Hi Hv Hb Hx HQ. unfold stage.
  assert (Hdone : forall e v y, holds i e ((L ++ batch) ++ [v]) y -> wp wguar i (Ret (Some v, batch)) Q y).
  { intros e v y Hy. apply (wp_ret_holds i false ((L ++ batch) ++ [v])); [done|by apply (holds_weaken i e)|].
    intros z Hz. apply HQ. eapply holds_perm, Hz. cbn. perm. }
  set (R := fun o => holds i (bool_decide (o = None)) ((L ++ batch) ++ option_list o)).
  eapply (wp_call _ _ _ _ R).
  { eapply (wp_work_pop i i); [done|lia|exact Hx|]. intros o y Hy. rewrite decide_True, orb_false_r in Hy by done. exact Hy. }
  unfold R at 1. intros [v|] y Hy; [by eapply Hdone|]. cbn in Hy. rewrite app_nil_r in Hy.
  eapply (wp_call _ _ _ _ R).
  { eapply (wp_work_pop i n); [done|lia|exact Hy|]. intros o z Hz. rewrite decide_False in Hz by lia.
    destruct o; [by eapply holds_weaken|exact Hz]. }
  clear y Hy. unfold R at 1. intros [v|] y Hy; [by eapply Hdone|]. cbn in Hy. rewrite app_nil_r in Hy.
  eapply (wp_call _ _ _ _ R); [by eapply wp_steal_from; eauto|]. clear y Hy.
  unfold R. intros [v|] y Hy; [by eapply Hdone|]. cbn in Hy. rewrite app_nil_r in Hy.
  destruct batch as [|v rest].
  - apply (wp_ret_holds i true (L ++ [])); [done|done|].
    intros z Hz. apply HQ. by eapply holds_weaken.
  - eapply (wp_call _ _ _ _ (fun _ => holds i false (L ++ [v]))).
    + rewrite zlength_cons in Hb.
      eapply (wp_work_push i i true _ rest (L ++ [v])); [done|left; split_and!; [done..|lia]|exact Hy| |].
      * perm.
      * intros z Hz. by rewrite decide_True in Hz.
    + intros [] z Hz. apply (wp_ret_holds i false (L ++ [v])); [done|done|].
      intros w Hw. apply HQ. cbn. done.
Qed.

Definition script_ok (script : list (list nat * list T)) : Prop :=
  Forall (fun c => Forall (fun v => (v < n)%nat) c.1 /\ zlength c.2 <= limit) script.

Lemma wp_receiver_work i script got left x :
  (i < n)%nat -> script_ok script -> holds i false (got ++ left ++ concat (script.*2)) x ->
  wp wguar i (receiver_work i n script got left) (fun r => holds i true (r.1 ++ r.2)) x.
Proof.
  intros Hi Hs. revert got left x. induction Hs as [|[victims batch] script [Hv Hb] _ IH]; intros got left x Hx; cbn [receiver_work fst snd] in *.
  - cbn in Hx. rewrite app_nil_r in Hx.
    eapply (wp_call _ _ _ _ (fun _ => holds i true (got ++ left))); [by eapply wp_work_drain; eauto|].
    intros b y Hy. by apply (wp_ret_holds i true (got ++ left)).
  - eapply (wp_call _ _ _ _ (fun r => holds i false ((got ++ left ++ concat script.*2) ++ option_list r.1 ++ r.2))).
    + eapply (wp_stage i victims batch (got ++ left ++ concat script.*2)); [done..| |by intros r y Hy].
      eapply holds_perm, Hx. cbn. perm.
    + intros [o rest] y Hy. cbn [fst snd] in *. apply IH. eapply holds_perm, Hy.
      perm.
Qed.

End interleaving.

(** ** Conservation *)

Definition work_init {T} (n : nat) (limit : Z) : list (Queue T) :=
  replicate n (WorkQueue_bounded limit) ++ [WorkQueue_unbounded].

Definition work_pool {T} (n : nat) (scripts : list (list (list nat * list T))) : list (prog (list (Queue T)) (list T * list T)) :=
  imap (fun i s => receiver_work i n s [] []) scripts.

Definition work_ghost {T} (scripts : list (list (list nat * list T))) : list (list T) :=
  (fun s => concat s.*2) <$> scripts.

Lemma work_init_inv {T} n limit (scripts : list (list (list nat * list T))) :
  length scripts = n ->
  winv n limit (concat (work_ghost scripts)) (work_init n limit, work_ghost scripts).
Proof.
  intros Hn. split; cbn.
  - unfold contents, work_init. cbn. rewrite fmap_app, fmap_replicate, concat_app. cbn.
    rewrite app_nil_r. clear Hn. by induction n.
  - unfold work_init. by rewrite fmap_app, fmap_replicate.
  - unfold work_ghost. by rewrite length_fmap.
Qed.

(** The held values of finished receivers are what they returned. *)
Lemma held_results {T} n limit total (rs : list (list T * list T)) (x : @wst T) :
  length x.2 = length rs ->
  (forall i r, rs !! i = Some r -> holds n limit total i true (r.1 ++ r.2) x) ->
  concat x.2 ≡ₚ concat ((fun r => r.1 ++ r.2) <$> rs).
Proof.
  destruct x as [s g]. cbn. revert g. intros g Hl H.
  assert (HH : forall i r, rs !! i = Some r -> exists L, g !! i = Some L /\ L ≡ₚ r.1 ++ r.2).
  { intros i r Hr. destruct (H i r Hr) as (_ & (L & HL & HP) & _). eauto. }
  clear H. revert g Hl HH. induction rs as [|r rs IH]; intros [|L g] Hl HH; [done..|]. cbn in *.
  destruct (HH 0%nat r eq_refl) as (L' & [= ->] & HP). rewrite HP. apply Permutation_app_head.
  apply IH; [lia|]. intros i r' Hr. by apply (HH (S i)).
Qed.

Lemma work_pool_wp {T} n limit (scripts : list (list (list nat * list T))) :
  7 <= limit -> length scripts = n -> Forall (script_ok n limit) scripts ->
  pool_wp (wguar n limit (concat (work_ghost scripts)))
    (fun i r => holds n limit (concat (work_ghost scripts)) i true (r.1 ++ r.2))
    (work_pool n scripts) (work_init n limit, work_ghost scripts).
Proof.
  intros Hl Hn Hs i p Hp. unfold work_pool in Hp. rewrite list_lookup_imap in Hp.
  destruct (scripts !! i) as [s|] eqn:Ei; [|done]. cbn in Hp. simplify_eq.
  apply wp_receiver_work; [done|by eapply lookup_lt_Some|by eapply Forall_lookup_1|].
  split; [by apply work_init_inv|]. split; [|done]. exists (concat s.*2). split; [|done].
  cbn. unfold work_ghost. by rewrite list_lookup_fmap, Ei.
Qed.

(** Receivers whose queues are empty leave only the orphaned work. *)
Lemma contents_orphans {T} n (s : list (Queue T)) :
  length s = S n -> (forall i, (i < n)%nat -> exists q, s !! i = Some q /\ q_values q = []) ->
  exists q, s !! n = Some q /\ concat (q_values <$> s) = q_values q.
Proof.
  revert s. induction n as [|n IH]; intros [|q s] Hl H; cbn in Hl; try lia.
  - destruct s; [|cbn in Hl; lia]. exists q. cbn. by rewrite app_nil_r.
  - destruct (IH s) as (q' & Hq & E); [lia|intros i Hi; apply (H (S i)); lia|].
    exists q'. split; [done|]. cbn. rewrite E. destruct (H 0%nat ltac:(lia)) as (q0 & [= <-] & ->). done.
Qed.

Lemma finished_results {S A} (s : S) (ps : list (prog S A)) : finished (s, ps) -> exists rs, ps = Ret <$> rs.
Proof.
  unfold finished. cbn. induction 1 as [|p ps [a ->] _ [rs ->]]; [by exists []|]. by exists (a :: rs).
Qed.

(** C13: work stealing conserves the values.  Any number of receivers, each with
    its own bounded queue (of at least seven places) and a script of receives,
    pop, steal from each other, stage what they take from the lanes (at most
    [limit] values at once) and drop, leaving their staged work to the shared
    orphaned queue.  Under every interleaving of the critical sections no
    receiver ever finds its queue too small, every run ends, and at the end
    the receivers' queues are empty and every value is in exactly one place:
    received by one receiver, left in its lane, or in the orphaned queue. *)
Theorem work_conserved {T} (limit : Z) (scripts : list (list (list nat * list T))) :
  7 <= limit -> Forall (script_ok (length scripts) limit) scripts ->
  let c := (work_init (length scripts) limit, work_pool (length scripts) scripts) in
  Acc (flip pstep) c /\
  forall s' ps', rtc pstep c (s', ps') ->
    (exists c', pstep (s', ps') c') \/
    exists rs q, ps' = Ret <$> rs /\ s' !! length scripts = Some q /\
      (forall i, (i < length scripts)%nat -> exists q', s' !! i = Some q' /\ q_values q' = []) /\
      q_values q ++ concat ((fun r => r.1 ++ r.2) <$> rs) ≡ₚ concat (work_ghost scripts).
Proof.
  intros Hl Hs c. split; [apply pstep_terminating|]. intros s' ps' Hr.
  destruct (decide (scripts = [])) as [->|Hne].
  { right. assert (E : (s', ps') = c) by (inversion Hr as [|? ? ? Hx]; subst; [done|inversion Hx; done]).
    injection E as -> ->. exists [], WorkQueue_unbounded. split_and!; [done..|cbn; lia|done]. }
  destruct (pool_sound _ _ _ _ _ _ _ (work_pool_wp _ _ _ Hl eq_refl Hs) Hr) as [g' Hw].
  destruct (pool_progress _ _ _ _ Hw (s', ps') eq_refl) as [Hstep|Hfin]; [by left|right].
  apply finished_results in Hfin as [rs ->]. apply pool_length in Hr. cbn in Hr.
  unfold work_pool in Hr. rewrite length_fmap, length_imap in Hr.
  set (n := length scripts) in *. set (tot := concat (work_ghost scripts)) in *.
  assert (HQ : forall i r, rs !! i = Some r -> holds n limit tot i true (r.1 ++ r.2) (s', g')).
  { intros i r Hi. eapply (pool_wp_ret _ _ _ _ i r Hw). by rewrite list_lookup_fmap, Hi. }
  assert (Hinv : winv n limit tot (s', g')).
  { destruct rs as [|r rs]; [by destruct scripts|]. apply (HQ 0%nat r eq_refl). }
  assert (Hempty : forall i, (i < n)%nat -> exists q', s' !! i = Some q' /\ q_values q' = []).
  { intros i Hi. destruct (lookup_lt_is_Some_2 rs i) as [r Hri]; [lia|]. by apply (HQ i r Hri). }
  destruct (contents_orphans n s') as (q & Hq & E); [|done|].
  { rewrite <- (length_fmap q_capacity). pose proof (wi_caps _ _ _ _ Hinv) as Hc. cbn [fst] in Hc. rewrite Hc.
    rewrite length_app, length_replicate. cbn. lia. }
  exists rs, q. split_and!; [done..|]. rewrite <- E.
  rewrite <- (held_results n limit tot rs (s', g')); [apply (wi_total _ _ _ _ Hinv)| |done].
  rewrite (wi_held _ _ _ _ Hinv). lia.
Qed.

(** Two receivers: the second steals what the first staged. *)
Lemma work_conserved_witness :
  let scripts := [[([1%nat], [1%nat; 2%nat; 3%nat]); ([], [])]; [([0%nat], [4%nat]); ([0%nat], [])]] in
  let c := (work_init 2 64, work_pool 2 scripts) in
  Acc (flip pstep) c /\
  forall s' ps', rtc pstep c (s', ps') ->
    (exists c', pstep (s', ps') c') \/
    exists rs q, ps' = Ret <$> rs /\ s' !! 2%nat = Some q /\
      (forall i, (i < 2)%nat -> exists q', s' !! i = Some q' /\ q_values q' = []) /\
      q_values q ++ concat ((fun r => r.1 ++ r.2) <$> rs) ≡ₚ [1%nat; 2%nat; 3%nat; 4%nat].
Proof.
  intros scripts. apply (work_conserved 64 scripts); [lia|].
  unfold script_ok. cbn [length scripts].
  repeat (apply Forall_nil_2 || (apply Forall_cons_2; cbn [fst snd]) || split || lia || (unfold zlength; cbn [length])).
Defined.

(** One schedule of it: the second receiver takes [2] and [3] from the first. *)
Example work_steal_run :
  let scripts := [[([1%nat], [1%nat; 2%nat; 3%nat]); ([], [])]; [([0%nat], [4%nat]); ([0%nat], [])]] in
  (sched (work_init 2 64, work_pool 2 scripts) (replicate 4 0%nat ++ replicate 20 1%nat ++ replicate 20 0%nat)).2
    = [Ret ([1%nat], []); Ret ([2%nat; 3%nat], [4%nat])].
Proof. vm_compute. reflexivity. Qed.
