(* ===== verification/MpmcShared.v ===== *)
(** * The shared state of an MPMC channel

    Models [src/src/mpmc.rs] (the registry of lanes and receivers, the lane
    pages, the ready topology) and [src/src/mpmc/receiver/lane.rs].  As for
    the MPSC channel, allocations behind an [Arc] are entries of the lists of
    [Shared] and an [Arc] is an index; a lane token is owned by whoever holds
    it (a registry slot, a page's queue of ready lanes, or a receiver), so it
    is a value.

    The registry's mutex is not modelled as a lock: its sections are written as
    their individual accesses, each of which is a step.

    Two types come from crates outside the repository and are parameters:
    [ConcurrentQueue] (concurrent-queue's bounded queue) and [ArcSwap]
    (arc-swap's swappable pointer), each with the laws the channel relies on
    and an instance that satisfies them. *)

From S2P Require Import Prelude Prog Config Wait Ready YRing Handoff Publication Work.
Local Open Scope prog_scope.

(** ** Third-party containers *)

Class ConcurrentQueue (CQ : Type -> Type) : Type := {
  cq_bounded : forall {A}, Z -> CQ A;
  cq_push : forall {A}, A -> CQ A -> result unit A * CQ A;
  cq_pop : forall {A}, CQ A -> option A * CQ A;
  cq_is_empty : forall {A}, CQ A -> bool
}.

(** What concurrent-queue documents: a FIFO queue that refuses a push only
    when it is full. *)
Class ConcurrentQueueLaws (CQ : Type -> Type) `{ConcurrentQueue CQ} : Type := {
  cq_items : forall {A}, CQ A -> list A;
  cq_limit : forall {A}, CQ A -> Z;
  cq_bounded_spec : forall A c, cq_items (cq_bounded (A := A) c) = [] /\ cq_limit (cq_bounded (A := A) c) = c;
  cq_push_spec : forall A (x : A) q,
    zlength (cq_items q) < cq_limit q ->
    exists q', cq_push x q = (Ok tt, q') /\ cq_items q' = cq_items q ++ [x] /\ cq_limit q' = cq_limit q;
  cq_pop_spec : forall A (q : CQ A),
    exists q', cq_pop q = (head (cq_items q), q') /\ cq_items q' = tail (cq_items q) /\ cq_limit q' = cq_limit q;
  cq_is_empty_spec : forall A (q : CQ A), cq_is_empty q = bool_decide (cq_items q = [])
}.

Class ArcSwap (AS : Type -> Type) : Type := {
  as_new : forall {A}, A -> AS A;
  as_load : forall {A}, AS A -> A;
  as_store : forall {A}, A -> AS A -> AS A
}.

Class ArcSwapLaws (AS : Type -> Type) `{ArcSwap AS} : Prop := {
  as_load_new : forall A (x : A), as_load (as_new x) = x;
  as_load_store : forall A (x : A) c, as_load (as_store x c) = x
}.

(** Instances: a list with its capacity, and a plain cell. *)
Definition list_queue (A : Type) : Type := list A * Z.

#[export] Instance list_concurrent_queue : ConcurrentQueue list_queue := {
  cq_bounded A c := ([], c);
  cq_push A x q := if zlength q.1 <? q.2 then (Ok tt, (q.1 ++ [x], q.2)) else (Err x, q);
  cq_pop A q := (head q.1, (tail q.1, q.2));
  cq_is_empty A q := match q.1 with [] => true | _ => false end
}.

#[export] Instance list_concurrent_queue_laws : ConcurrentQueueLaws list_queue.
Proof.
  refine (Build_ConcurrentQueueLaws _ _ (fun A q => q.1) (fun A q => q.2) _ _ _ _).
  - by intros A c.
  - intros A x q Hq. cbn. apply Z.ltb_lt in Hq as ->. eauto.
  - intros A q. cbn. eauto.
  - intros A [[|x l] c]; reflexivity.
Defined.

Definition cell (A : Type) : Type := A.

#[export] Instance cell_arc_swap : ArcSwap cell := {
  as_new A x := x;
  as_load A c := c;
  as_store A x c := x
}.

#[export] Instance cell_arc_swap_laws : ArcSwapLaws cell.
Proof. by split. Qed.

(** ** Data *)

Definition MAX_CAPACITY_PER_SENDER : Z := 2 ^ 62.
Definition PREFETCH_LIMIT : Z := 64.
Definition TRY_RECV_RETRIES : Z := 1.

Record LaneKey : Type := mkLaneKey { key_slot : Z; key_generation : Z }.

#[export] Instance LaneKey_eq_dec : EqDecision LaneKey.
Proof. solve_decision. Defined.

Record Lane : Type := mkLane {
  lane_key : LaneKey;
  lane_signal : Z;
  lane_ring : Z;
  lane_consumer : RConsumer;
  cached_available : Z;
  unreleased : Z;
  release_batch : Z
}.

Definition set_consumer (c : RConsumer) (l : Lane) : Lane :=
  mkLane (lane_key l) (lane_signal l) (lane_ring l) c (cached_available l) (unreleased l) (release_batch l).
Definition set_counters (cached unrel : Z) (l : Lane) : Lane :=
  mkLane (lane_key l) (lane_signal l) (lane_ring l) (lane_consumer l) cached unrel (release_batch l).

Inductive FinishLane : Type :=
| FinishReady (lane : Lane)
| FinishParked
| FinishRetired (wake_all : bool).

Record Slot : Type := mkSlot { slot_generation : Z; slot_lane : option Lane }.

Record ReadyTopology : Type := mkTopology {
  top_ready_groups : list Z;
  top_work_groups : list Z;
  top_pages : list Z
}.

(** [reg_work_queues] has an entry per receiver id. *)
Record Registry : Type := mkRegistry {
  reg_slots : list Slot;
  reg_free : list LaneKey;
  reg_groups : list Z;
  reg_work_groups : list Z;
  reg_pages : list Z;
  reg_work_queues : list (option nat);
  reg_free_receivers : list Z
}.

Definition set_slots (x : list Slot) (r : Registry) : Registry :=
  mkRegistry x (reg_free r) (reg_groups r) (reg_work_groups r) (reg_pages r) (reg_work_queues r) (reg_free_receivers r).
Definition set_free (x : list LaneKey) (r : Registry) : Registry :=
  mkRegistry (reg_slots r) x (reg_groups r) (reg_work_groups r) (reg_pages r) (reg_work_queues r) (reg_free_receivers r).
Definition set_reg_groups (gs ws ps : list Z) (r : Registry) : Registry :=
  mkRegistry (reg_slots r) (reg_free r) gs ws ps (reg_work_queues r) (reg_free_receivers r).
Definition set_receivers (qs : list (option nat)) (free : list Z) (r : Registry) : Registry :=
  mkRegistry (reg_slots r) (reg_free r) (reg_groups r) (reg_work_groups r) (reg_pages r) qs free.

(** ** Receiver identities *)

(** [free_receivers.pop()] takes from the end; [None] is a failed index. *)
Definition Registry_register_receiver (work_queue : nat) (r : Registry) : outcome (Z * Registry) :=
  match rev (reg_free_receivers r) with
  | id :: rest =>
      match zlookup (reg_work_queues r) id with
      | None => Fault (Panic "index out of bounds")
      | Some (Some _) => Fault (Panic "debug_assert: vacant receiver id")
      | Some None =>
          Done (id, set_receivers (zinsert (reg_work_queues r) id (Some work_queue)) (rev rest) r)
      end
  | [] =>
      Done (zlength (reg_work_queues r), set_receivers (reg_work_queues r ++ [Some work_queue]) [] r)
  end.

Definition Registry_unregister_receiver (id : Z) (r : Registry) : outcome Registry :=
  match zlookup (reg_work_queues r) id with
  | None => Fault (Panic "index out of bounds")
  | Some None => Done r
  | Some (Some _) =>
      Done (set_receivers (zinsert (reg_work_queues r) id None) (reg_free_receivers r ++ [id]) r)
  end.

Fixpoint enumerate_queues (id : Z) (qs : list (option nat)) : list (Z * nat) :=
  match qs with
  | [] => []
  | Some q :: qs' => (id, q) :: enumerate_queues (id + 1) qs'
  | None :: qs' => enumerate_queues (id + 1) qs'
  end.

Definition Registry_clone_work_queues (r : Registry) : list (Z * nat) :=
  enumerate_queues 0 (reg_work_queues r).

Definition Registry_clone_ready_topology (r : Registry) : ReadyTopology :=
  mkTopology (reg_groups r) (reg_work_groups r) (reg_pages r).

(** ** Lane slots *)

Definition Registry_install_lane (lane : Lane) (r : Registry) : outcome Registry :=
  match zlookup (reg_slots r) (key_slot (lane_key lane)) with
  | None => Fault (Panic "index out of bounds")
  | Some slot =>
      if negb (slot_generation slot =? key_generation (lane_key lane)) then Fault (Panic "debug_assert_eq: slot generation")
      else
        match slot_lane slot with
        | Some _ => Fault (Panic "debug_assert: vacant slot")
        | None =>
            Done (set_slots (zinsert (reg_slots r) (key_slot (lane_key lane))
                               (mkSlot (slot_generation slot) (Some lane))) r)
        end
  end.

Definition Registry_retire_lane (key : LaneKey) (r : Registry) : outcome Registry :=
  match zlookup (reg_slots r) (key_slot key) with
  | None => Fault (Panic "index out of bounds")
  | Some slot =>
      if negb (slot_generation slot =? key_generation key) then Fault (Panic "debug_assert_eq: slot generation")
      else
        match slot_lane slot with
        | Some _ => Fault (Panic "debug_assert: vacant slot")
        | None =>
            let generation := wrapping_add (key_generation key) 1 in
            Done (set_free (reg_free r ++ [mkLaneKey (key_slot key) generation])
                    (set_slots (zinsert (reg_slots r) (key_slot key) (mkSlot generation None)) r))
        end
  end.

Definition Registry_take_all_lanes (r : Registry) : list Lane * Registry :=
  (omap slot_lane (reg_slots r),
   set_slots ((fun s => mkSlot (slot_generation s) None) <$> reg_slots r) r).

Section shared.
Context {T : Type} (pol : Teardown).
Context {CQ AS : Type -> Type} `{ConcurrentQueue CQ} `{ArcSwap AS}.

Record LanePage : Type := mkLanePage {
  lp_ready : Z;
  lp_work_group : Z;
  lp_work_bit : Z;
  lp_lanes : CQ Lane
}.

Record Shared : Type := mkShared {
  sh_rings : list (HRing T);
  sh_index : ready_store;
  sh_queues : list (Queue T);
  sh_pages : list LanePage;
  sh_registry : Registry;
  sh_work_queues : AS (list (Z * nat));
  sh_ready : AS ReadyTopology;
  sh_ready_generation : Z;
  sh_orphaned_work : nat;
  sh_publications : PublicationTracker;
  sh_registered_lanes : Z;
  sh_live_senders : Z;
  sh_live_receivers : Z;
  sh_receiver_alive : bool;
  sh_data_waiters : MultiWaitCell;
  sh_capacity_per_sender : Z
}.

Definition set_sh_rings x s : Shared :=
  mkShared x (sh_index s) (sh_queues s) (sh_pages s) (sh_registry s) (sh_work_queues s) (sh_ready s)
    (sh_ready_generation s) (sh_orphaned_work s) (sh_publications s) (sh_registered_lanes s) (sh_live_senders s)
    (sh_live_receivers s) (sh_receiver_alive s) (sh_data_waiters s) (sh_capacity_per_sender s).
Definition set_sh_index x s : Shared :=
  mkShared (sh_rings s) x (sh_queues s) (sh_pages s) (sh_registry s) (sh_work_queues s) (sh_ready s)
    (sh_ready_generation s) (sh_orphaned_work s) (sh_publications s) (sh_registered_lanes s) (sh_live_senders s)
    (sh_live_receivers s) (sh_receiver_alive s) (sh_data_waiters s) (sh_capacity_per_sender s).
Definition set_sh_queues x s : Shared :=
  mkShared (sh_rings s) (sh_index s) x (sh_pages s) (sh_registry s) (sh_work_queues s) (sh_ready s)
    (sh_ready_generation s) (sh_orphaned_work s) (sh_publications s) (sh_registered_lanes s) (sh_live_senders s)
    (sh_live_receivers s) (sh_receiver_alive s) (sh_data_waiters s) (sh_capacity_per_sender s).
Definition set_sh_pages x s : Shared :=
  mkShared (sh_rings s) (sh_index s) (sh_queues s) x (sh_registry s) (sh_work_queues s) (sh_ready s)
    (sh_ready_generation s) (sh_orphaned_work s) (sh_publications s) (sh_registered_lanes s) (sh_live_senders s)
    (sh_live_receivers s) (sh_receiver_alive s) (sh_data_waiters s) (sh_capacity_per_sender s).
Definition set_sh_registry x s : Shared :=
  mkShared (sh_rings s) (sh_index s) (sh_queues s) (sh_pages s) x (sh_work_queues s) (sh_ready s)
    (sh_ready_generation s) (sh_orphaned_work s) (sh_publications s) (sh_registered_lanes s) (sh_live_senders s)
    (sh_live_receivers s) (sh_receiver_alive s) (sh_data_waiters s) (sh_capacity_per_sender s).
Definition set_sh_work_queues x s : Shared :=
  mkShared (sh_rings s) (sh_index s) (sh_queues s) (sh_pages s) (sh_registry s) x (sh_ready s)
    (sh_ready_generation s) (sh_orphaned_work s) (sh_publications s) (sh_registered_lanes s) (sh_live_senders s)
    (sh_live_receivers s) (sh_receiver_alive s) (sh_data_waiters s) (sh_capacity_per_sender s).
Definition set_sh_ready x gen s : Shared :=
  mkShared (sh_rings s) (sh_index s) (sh_queues s) (sh_pages s) (sh_registry s) (sh_work_queues s) x
    gen (sh_orphaned_work s) (sh_publications s) (sh_registered_lanes s) (sh_live_senders s)
    (sh_live_receivers s) (sh_receiver_alive s) (sh_data_waiters s) (sh_capacity_per_sender s).
Definition set_sh_publications x s : Shared :=
  mkShared (sh_rings s) (sh_index s) (sh_queues s) (sh_pages s) (sh_registry s) (sh_work_queues s) (sh_ready s)
    (sh_ready_generation s) (sh_orphaned_work s) x (sh_registered_lanes s) (sh_live_senders s)
    (sh_live_receivers s) (sh_receiver_alive s) (sh_data_waiters s) (sh_capacity_per_sender s).
Definition set_sh_counts lanes senders receivers s : Shared :=
  mkShared (sh_rings s) (sh_index s) (sh_queues s) (sh_pages s) (sh_registry s) (sh_work_queues s) (sh_ready s)
    (sh_ready_generation s) (sh_orphaned_work s) (sh_publications s) lanes senders
    receivers (sh_receiver_alive s) (sh_data_waiters s) (sh_capacity_per_sender s).
Definition set_sh_receiver_alive x s : Shared :=
  mkShared (sh_rings s) (sh_index s) (sh_queues s) (sh_pages s) (sh_registry s) (sh_work_queues s) (sh_ready s)
    (sh_ready_generation s) (sh_orphaned_work s) (sh_publications s) (sh_registered_lanes s) (sh_live_senders s)
    (sh_live_receivers s) x (sh_data_waiters s) (sh_capacity_per_sender s).
Definition set_sh_data_waiters x s : Shared :=
  mkShared (sh_rings s) (sh_index s) (sh_queues s) (sh_pages s) (sh_registry s) (sh_work_queues s) (sh_ready s)
    (sh_ready_generation s) (sh_orphaned_work s) (sh_publications s) (sh_registered_lanes s) (sh_live_senders s)
    (sh_live_receivers s) (sh_receiver_alive s) x (sh_capacity_per_sender s).

Definition on_lane_ring {A} (h : Z) (p : prog (HRing T) A) : prog Shared A :=
  focus (fun s => zlookup (sh_rings s) h) (fun r s => set_sh_rings (zinsert (sh_rings s) h r) s) p.
Definition on_index {A} (p : prog ready_store A) : prog Shared A := lift sh_index set_sh_index p.
Definition on_queues {A} (p : prog (list (Queue T)) A) : prog Shared A := lift sh_queues set_sh_queues p.
Definition on_publications {A} (p : prog PublicationTracker A) : prog Shared A :=
  lift sh_publications set_sh_publications p.
Definition on_data_waiters {A} (p : prog MultiWaitCell A) : prog Shared A :=
  lift sh_data_waiters set_sh_data_waiters p.
(** One access to the queue of a lane page. *)
Definition on_page_queue {A} (h : Z) (f : CQ Lane -> A * CQ Lane) : prog Shared (A * LanePage) :=
  focus (fun s => zlookup (sh_pages s) h) (fun p s => set_sh_pages (zinsert (sh_pages s) h p) s)
    (atomic (fun p => let '(r, q) := f (lp_lanes p) in
       ((r, p), mkLanePage (lp_ready p) (lp_work_group p) (lp_work_bit p) q))).
(** One access to the registry, under its mutex. *)
Definition on_registry {A} (f : Registry -> outcome (A * Registry)) : prog Shared A :=
  let* o := atomic (fun s => match f (sh_registry s) with
                             | Done (a, r) => (Done a, set_sh_registry r s)
                             | Fault e => (Fault e, s)
                             end) in
  of_outcome o.

(** ** Lane pages *)

Definition LanePage_new (ready ready_id work_group : Z) : LanePage :=
  mkLanePage ready work_group (Z.shiftl 1 (ready_id mod PAGES_PER_GROUP)) (cq_bounded LANES_PER_PAGE).

Definition LanePage_push (h : Z) (lane : Lane) : prog Shared unit :=
  let* '(r, page) := on_page_queue h (cq_push lane) in
  match r with
  | Err _ => Fail (Panic "one ready token exists per lane")
  | Ok _ => on_index (ReadyGroup_mark (lp_work_group page) (lp_work_bit page))
  end.

Definition LanePage_pop_after_claim (h : Z) : prog Shared (option Lane) :=
  let* '(empty, page) := on_page_queue h (fun q => (cq_is_empty q, q)) in
  let* _ := when (negb empty) (on_index (ReadyGroup_mark (lp_work_group page) (lp_work_bit page))) in
  let* '(lane, _) := on_page_queue h cq_pop in
  Ret lane.

Definition LanePage_pop_direct (h : Z) : prog Shared (option Lane) :=
  let* '(lane, _) := on_page_queue h cq_pop in Ret lane.

Definition LanePage_is_empty (h : Z) : prog Shared bool :=
  let* '(empty, _) := on_page_queue h (fun q => (cq_is_empty q, q)) in Ret empty.

(** ** Lanes *)

Definition Lane_new (key : LaneKey) (signal ring : Z) (consumer : RConsumer) : prog Shared Lane :=
  let* capacity := on_lane_ring ring (RConsumer_capacity consumer) in
  Ret (mkLane key signal ring consumer 0 0 (Z.min capacity PREFETCH_LIMIT)).

Definition Lane_release_pending (l : Lane) : prog Shared (bool * Lane) :=
  if unreleased l =? 0 then Ret (false, l)
  else
    let* _ := on_lane_ring (lane_ring l) (RConsumer_release (lane_consumer l)) in
    Ret (true, set_counters (cached_available l) 0 l).

Definition Lane_prefetch (l : Lane) : prog Shared Lane :=
  let* '(n, c) := on_lane_ring (lane_ring l) (RConsumer_prefetch (lane_consumer l)) in
  Ret (set_counters n (unreleased l) (set_consumer c l)).

Definition close_lane (lane : Lane) : prog Shared unit :=
  let* c := on_lane_ring (lane_ring lane) (RConsumer_close pol (lane_consumer lane)) in
  let* _ := on_index (LaneSignal_notify_space (lane_signal lane)) in
  let* _ := on_lane_ring (lane_ring lane) (RConsumer_drop pol c) in
  Ret tt.

End shared.
