(* ===== verification/Mpmc.v ===== *)
(** * The MPMC channel

    Models [src/src/mpmc.rs] (construction, registration, the end of the last
    receiver), [src/src/mpmc/sender.rs], and [src/src/mpmc/receiver.rs] with
    its modules [drain.rs] and [iter.rs], on the shared state of MpmcShared.
    Handles are records; every operation takes its handle and returns the
    handle it leaves.  [weak] is what the weak compare-exchanges of a call do,
    [fuel] bounds the loops that wait for other threads. *)

From S2P Require Import Prelude Prog Config Blocking Wait Ready YRing Handoff Publication Work MpmcShared.
Local Open Scope prog_scope.

(** [a % b] on [usize]. *)
Definition urem {S} (a b : Z) : prog S Z :=
  if b =? 0 then Fail (Panic "attempt to calculate the remainder with a divisor of zero") else Ret (a mod b).

Definition option_or_fault {S A} (o : option A) (e : fault) : prog S A :=
  match o with Some a => Ret a | None => Fail e end.
Definition index_or_panic {S A} (l : list A) (i : Z) : prog S A :=
  option_or_fault (zlookup l i) (Panic "index out of bounds").

(** ** Wakes and effects (drain.rs) *)

Inductive Wake : Type := WakeNone | WakeOne | WakeAll.

Definition Wake_merge (a b : Wake) : Wake :=
  match a, b with
  | WakeAll, _ | _, WakeAll => WakeAll
  | WakeOne, _ | _, WakeOne => WakeOne
  | WakeNone, WakeNone => WakeNone
  end.

Record Effects : Type := mkEffects { released : option Z; wake : Wake; progressed : bool }.

Definition Effects_default : Effects := mkEffects None WakeNone false.
Definition Effects_progressed_if (b : bool) : Effects := mkEffects None WakeNone b.
Definition Effects_progressed : Effects := Effects_progressed_if true.
Definition Effects_has_effect (e : Effects) : bool :=
  match released e with Some _ => true | None => match wake e with WakeNone => false | _ => true end end.
Definition Effects_must_retry (e : Effects) : bool := Effects_has_effect e || progressed e.

Inductive LaneDrain (T : Type) : Type :=
| DrainItem (value : T) (effects : Effects)
| DrainEmpty (effects : Effects).
Arguments DrainItem {T} value effects.
Arguments DrainEmpty {T} effects.

Inductive WorkPop (T : Type) : Type :=
| WorkItem (value : T)
| WorkEmpty (generation : Z).
Arguments WorkItem {T} value.
Arguments WorkEmpty {T} generation.

Inductive EmptyScan : Type := ScanChanged | ScanPublishing | ScanOpen | ScanDrained.

Section mpmc.
Context {T : Type} (pol : Teardown).
Context {CQ AS : Type -> Type} `{ConcurrentQueue CQ} `{ArcSwap AS}.
#[local] Abbreviation Sh := (Shared (T := T) (CQ := CQ) (AS := AS)).
#[local] Abbreviation Page := (LanePage (CQ := CQ)).
#[local] Abbreviation on_lane_ring := (on_lane_ring (T := T) (CQ := CQ) (AS := AS)).
#[local] Abbreviation on_index := (on_index (T := T) (CQ := CQ) (AS := AS)).
#[local] Abbreviation on_queues := (on_queues (T := T) (CQ := CQ) (AS := AS)).
#[local] Abbreviation on_publications := (on_publications (T := T) (CQ := CQ) (AS := AS)).
#[local] Abbreviation on_data_waiters := (on_data_waiters (T := T) (CQ := CQ) (AS := AS)).
#[local] Abbreviation on_registry := (on_registry (T := T) (CQ := CQ) (AS := AS)).

Record Sender : Type := mkSender {
  snd_ring : Z;
  snd_producer : RProducer;
  snd_key : LaneKey;
  snd_signal : Z;
  snd_wait_strategy : WaitStrategy
}.

Record Receiver : Type := mkReceiver {
  rcv_id : Z;
  rcv_local : nat;
  rcv_private : list T;
  steal_cursor : Z;
  rcv_ready : ReadyTopology;
  seen_ready_generation : Z;
  ready_group_cursor : Z;
  ready_page_cursor : Z;
  direct_page_cursor : Z;
  prefer_work : bool;
  rcv_capacity_per_sender : Z;
  rcv_wait_strategy : WaitStrategy
}.

Definition set_private (x : list T) (rx : Receiver) : Receiver :=
  mkReceiver (rcv_id rx) (rcv_local rx) x (steal_cursor rx) (rcv_ready rx) (seen_ready_generation rx)
    (ready_group_cursor rx) (ready_page_cursor rx) (direct_page_cursor rx) (prefer_work rx)
    (rcv_capacity_per_sender rx) (rcv_wait_strategy rx).
Definition set_steal_cursor (x : Z) (rx : Receiver) : Receiver :=
  mkReceiver (rcv_id rx) (rcv_local rx) (rcv_private rx) x (rcv_ready rx) (seen_ready_generation rx)
    (ready_group_cursor rx) (ready_page_cursor rx) (direct_page_cursor rx) (prefer_work rx)
    (rcv_capacity_per_sender rx) (rcv_wait_strategy rx).
Definition set_ready (x : ReadyTopology) (gen : Z) (rx : Receiver) : Receiver :=
  mkReceiver (rcv_id rx) (rcv_local rx) (rcv_private rx) (steal_cursor rx) x gen
    (ready_group_cursor rx) (ready_page_cursor rx) (direct_page_cursor rx) (prefer_work rx)
    (rcv_capacity_per_sender rx) (rcv_wait_strategy rx).
Definition set_cursors (group page direct : Z) (rx : Receiver) : Receiver :=
  mkReceiver (rcv_id rx) (rcv_local rx) (rcv_private rx) (steal_cursor rx) (rcv_ready rx) (seen_ready_generation rx)
    group page direct (prefer_work rx) (rcv_capacity_per_sender rx) (rcv_wait_strategy rx).
Definition set_prefer_work (b : bool) (rx : Receiver) : Receiver :=
  mkReceiver (rcv_id rx) (rcv_local rx) (rcv_private rx) (steal_cursor rx) (rcv_ready rx) (seen_ready_generation rx)
    (ready_group_cursor rx) (ready_page_cursor rx) (direct_page_cursor rx) b
    (rcv_capacity_per_sender rx) (rcv_wait_strategy rx).
Definition Receiver_set_wait_strategy (x : WaitStrategy) (rx : Receiver) : Receiver :=
  mkReceiver (rcv_id rx) (rcv_local rx) (rcv_private rx) (steal_cursor rx) (rcv_ready rx) (seen_ready_generation rx)
    (ready_group_cursor rx) (ready_page_cursor rx) (direct_page_cursor rx) (prefer_work rx)
    (rcv_capacity_per_sender rx) x.

(** ** The registry (mpmc.rs) *)

(** The ready and work groups up to [group_id]. *)
Fixpoint grow_groups (fuel : nat) (group_id : Z) (reg : Registry) (idx : ready_store) : Registry * ready_store :=
  if group_id <? zlength (reg_groups reg) then (reg, idx)
  else
    match fuel with
    | O => (reg, idx)
    | S fuel' =>
        let h := zlength (rs_groups idx) in
        grow_groups fuel' group_id
          (set_reg_groups (reg_groups reg ++ [h]) (reg_work_groups reg ++ [h + 1]) (reg_pages reg) reg)
          (mkReadyStore (rs_groups idx ++ [ReadyGroup_new (zlength (reg_groups reg));
                                           ReadyGroup_new (zlength (reg_work_groups reg))])
             (rs_pages idx) (rs_signals idx))
    end.

Fixpoint grow_pages (fuel : nat) (page_id : Z) (reg : Registry) (idx : ready_store) (pages : list Page)
    : outcome (Registry * ready_store * list Page) :=
  if page_id <? zlength (reg_pages reg) then Done (reg, idx, pages)
  else
    match fuel with
    | O => Done (reg, idx, pages)
    | S fuel' =>
        let id := zlength (reg_pages reg) in
        let group_id := id / PAGES_PER_GROUP in
        let '(reg, idx) := grow_groups (Z.to_nat (group_id + 1)) group_id reg idx in
        match zlookup (reg_groups reg) group_id, zlookup (reg_work_groups reg) group_id with
        | Some gh, Some wh =>
            match zlookup (rs_groups idx) gh with
            | None => Fault (UB "dangling group")
            | Some g =>
                match ReadyPage_new id gh g with
                | Fault e => Fault e
                | Done page =>
                    let ph := zlength (rs_pages idx) in
                    grow_pages fuel' page_id
                      (set_reg_groups (reg_groups reg) (reg_work_groups reg) (reg_pages reg ++ [zlength pages]) reg)
                      (mkReadyStore (rs_groups idx) (rs_pages idx ++ [page]) (rs_signals idx))
                      (pages ++ [LanePage_new ph id wh])
                end
            end
        | _, _ => Fault (Panic "index out of bounds")
        end
    end.

Definition Registry_take_key (reg : Registry) : LaneKey * Registry :=
  match rev (reg_free reg) with
  | key :: rest => (key, set_free (rev rest) reg)
  | [] => (mkLaneKey (zlength (reg_slots reg)) 0, set_slots (reg_slots reg ++ [mkSlot 0 None]) reg)
  end.

(** Returns the key, the ready page and whether the topology changed. *)
Definition Registry_allocate_lane (reg : Registry) (idx : ready_store) (pages : list Page)
    : outcome (LaneKey * Z * bool * Registry * ready_store * list Page) :=
  let '(key, reg) := Registry_take_key reg in
  let page_id := key_slot key / LANES_PER_PAGE in
  let old_page_count := zlength (reg_pages reg) in
  match grow_pages (Z.to_nat (page_id + 1)) page_id reg idx pages with
  | Fault e => Fault e
  | Done (reg, idx, pages) =>
      match zlookup (reg_pages reg) page_id with
      | None => Fault (Panic "index out of bounds")
      | Some h =>
          match zlookup pages h with
          | None => Fault (UB "dangling page")
          | Some page => Done (key, lp_ready page, negb (zlength (reg_pages reg) =? old_page_count), reg, idx, pages)
          end
      end
  end.

(** The loop of [take_ready_lane] over the claimed bits of the page. *)
Fixpoint take_ready_bits (fuel : nat) (page page_id bits : Z) (selected : option Lane) : prog Sh (option Lane) :=
  if bits =? 0 then Ret selected
  else
    match fuel with
    | O => Fail (Panic "out of fuel")
    | S fuel' =>
        let bit := trailing_zeros bits in
        let bits := Z.land bits (bits - 1) in
        let slot_index := page_id * LANES_PER_PAGE + bit in
        let* lane := on_registry (fun reg =>
          match zlookup (reg_slots reg) slot_index with
          | None => Done (None, reg)
          | Some slot =>
              Done (slot_lane slot,
                    set_slots (zinsert (reg_slots reg) slot_index (mkSlot (slot_generation slot) None)) reg)
          end) in
        match lane with
        | None => take_ready_bits fuel' page page_id bits selected
        | Some lane =>
            let* pending := on_index (LaneSignal_is_pending (lane_signal lane)) in
            if pending : bool then
              match selected with
              | None => take_ready_bits fuel' page page_id bits (Some lane)
              | Some _ => let* _ := LanePage_push page lane in take_ready_bits fuel' page page_id bits selected
              end
            else
              let* _ := on_registry (fun reg =>
                match zlookup (reg_slots reg) slot_index with
                | None => Fault (Panic "index out of bounds")
                | Some slot =>
                    Done (tt, set_slots (zinsert (reg_slots reg) slot_index (mkSlot (slot_generation slot) (Some lane))) reg)
                end) in
              take_ready_bits fuel' page page_id bits selected
        end
    end.

Definition Registry_take_ready_lane (page_id : Z) : prog Sh (option Lane) :=
  let* page := on_registry (fun reg => Done (zlookup (reg_pages reg) page_id, reg)) in
  match page with
  | None => Ret None
  | Some h =>
      let* pg := load (fun s => zlookup (sh_pages s) h) in
      let* page := option_or_fault pg (UB "dangling page") in
      let* bits := on_index (ReadyPage_take (lp_ready page)) in
      take_ready_bits 64 h page_id bits None
  end.

(** ** Shared operations (mpmc.rs) *)

Definition data_notify_one : prog Sh unit := on_data_waiters MultiWaitCell_notify_one.
Definition data_notify_all : prog Sh unit := on_data_waiters MultiWaitCell_notify_all.
Definition begin_publication : prog Sh unit := on_publications PublicationTracker_begin.
Definition end_publication : prog Sh unit := on_publications Publication_drop.

(** The part of [register_sender] after both checks of [receiver_alive]. *)
Definition register_lane (ring : Z) (producer : RProducer) (consumer : RConsumer) : prog Sh (LaneKey * Z) :=
  let* o := atomic (fun s =>
    match Registry_allocate_lane (sh_registry s) (sh_index s) (sh_pages s) with
    | Fault e => (Fault e, s)
    | Done (key, page, topology_changed, reg, idx, pages) =>
        let signal := zlength (rs_signals idx) in
        (Done (key, signal, topology_changed),
         set_sh_registry reg
           (set_sh_index (mkReadyStore (rs_groups idx) (rs_pages idx)
                            (rs_signals idx ++ [LaneSignal_new page (key_slot key)]))
              (set_sh_pages pages s)))
    end) in
  let* '(key, signal, topology_changed) := of_outcome o in
  let* lane := Lane_new key signal ring consumer in
  let* _ := on_registry (fun reg => match Registry_install_lane lane reg with
                                    | Done reg => Done (tt, reg) | Fault e => Fault e end) in
  let* _ :=
    (if topology_changed : bool then
       let* _ := store (fun s => set_sh_ready (as_store (Registry_clone_ready_topology (sh_registry s)) (sh_ready s))
                                   (sh_ready_generation s) s) in
       store (fun s => set_sh_ready (sh_ready s) (wrapping_add (sh_ready_generation s) 1) s)
     else Ret tt) in
  let* _ := store (fun s => set_sh_counts (wrapping_add (sh_registered_lanes s) 1) (sh_live_senders s) (sh_live_receivers s) s) in
  let* _ := store (fun s => set_sh_counts (sh_registered_lanes s) (wrapping_add (sh_live_senders s) 1) (sh_live_receivers s) s) in
  Ret (key, signal).

Definition Shared_register_sender : prog Sh (result (LaneKey * Z * Z * RProducer) TryRegisterError) :=
  let* alive := load sh_receiver_alive in
  if negb alive then Ret (Err TryRegister_Disconnected)
  else
    let* capacity := load sh_capacity_per_sender in
    let* '(ring, producer, consumer) := of_outcome (ring_spsc (T := T) capacity) in
    let* h := atomic (fun s => (zlength (sh_rings s), set_sh_rings (sh_rings s ++ [ring]) s)) in
    let* alive := load sh_receiver_alive in
    if negb alive then
      (* the unused halves are dropped *)
      let* _ := on_lane_ring h (RConsumer_drop pol consumer) in
      let* _ := on_lane_ring h (on_hring (Producer_drop (rp_inner producer))) in
      Ret (Err TryRegister_Disconnected)
    else
      let* '(key, signal) := register_lane h producer consumer in
      Ret (Ok (key, signal, h, producer)).

Definition store_work_queues : prog Sh unit :=
  store (fun s => set_sh_work_queues (as_store (Registry_clone_work_queues (sh_registry s)) (sh_work_queues s)) s).

Definition Shared_register_receiver : prog Sh (Z * nat) :=
  let* local := atomic (fun s => (length (sh_queues s), set_sh_queues (sh_queues s ++ [WorkQueue_bounded PREFETCH_LIMIT]) s)) in
  let* id := on_registry (Registry_register_receiver local) in
  let* _ := store_work_queues in
  let* _ := store (fun s => set_sh_counts (sh_registered_lanes s) (sh_live_senders s) (wrapping_add (sh_live_receivers s) 1) s) in
  let* _ := on_publications PublicationTracker_notify_change in
  Ret (id, local).

Definition Shared_unregister_receiver (id : Z) : prog Sh unit :=
  let* _ := on_registry (fun reg => match Registry_unregister_receiver id reg with
                                    | Done reg => Done (tt, reg) | Fault e => Fault e end) in
  let* _ := store_work_queues in
  on_publications PublicationTracker_notify_change.

Fixpoint Shared_ready_snapshot (fuel : nat) : prog Sh (ReadyTopology * Z) :=
  let* generation := load sh_ready_generation in
  let* ready := load (fun s => as_load (sh_ready s)) in
  let* generation' := load sh_ready_generation in
  if generation =? generation' then Ret (ready, generation)
  else match fuel with O => Fail (Panic "out of fuel") | S fuel' => Shared_ready_snapshot fuel' end.

Definition Shared_mark_ready (signal : Z) : prog Sh bool := on_index (LaneSignal_mark signal).

Definition Shared_activate_page (page_id : Z) : prog Sh (option Lane) := Registry_take_ready_lane page_id.

Definition Shared_finish_empty_lane (lane : Lane) : prog Sh FinishLane :=
  let* _ := on_index (LaneSignal_finish_drain (lane_signal lane)) in
  let* lane := Lane_prefetch lane in
  if negb (cached_available lane =? 0) then
    let* _ := on_index (LaneSignal_claim_after_empty (lane_signal lane)) in
    Ret (FinishReady lane)
  else
    let* gone := on_lane_ring (lane_ring lane) (RConsumer_is_disconnected (lane_consumer lane)) in
    if gone : bool then
      let* _ := on_registry (fun reg => match Registry_retire_lane (lane_key lane) reg with
                                        | Done reg => Done (tt, reg) | Fault e => Fault e end) in
      let* lanes := swap sh_registered_lanes (fun s =>
        set_sh_counts (wrapping_sub (sh_registered_lanes s) 1) (sh_live_senders s) (sh_live_receivers s) s) in
      let* _ := on_lane_ring (lane_ring lane) (RConsumer_drop pol (lane_consumer lane)) in
      let* wake_all :=
        (if lanes =? 1 then let* n := load sh_live_senders in Ret (n =? 0) else Ret false) in
      Ret (FinishRetired wake_all)
    else
      let* _ := on_registry (fun reg => match Registry_install_lane lane reg with
                                        | Done reg => Done (tt, reg) | Fault e => Fault e end) in
      Ret FinishParked.

Fixpoint close_lanes (lanes : list Lane) : prog Sh unit :=
  match lanes with
  | [] => Ret tt
  | lane :: lanes' => let* _ := close_lane pol lane in close_lanes lanes'
  end.

Fixpoint close_page (fuel : nat) (page : Z) : prog Sh unit :=
  let* lane := LanePage_pop_direct page in
  match lane with
  | None => Ret tt
  | Some lane =>
      let* _ := close_lane pol lane in
      match fuel with O => Fail (Panic "out of fuel") | S fuel' => close_page fuel' page end
  end.

Fixpoint close_pages (fuel : nat) (pages : list Z) : prog Sh unit :=
  match pages with
  | [] => Ret tt
  | page :: pages' => let* _ := close_page fuel page in close_pages fuel pages'
  end.

(** [while self.orphaned_work.pop().is_some() {}]; the popped values are
    dropped. *)
Fixpoint drop_orphaned (fuel : nat) (orphaned : nat) : prog Sh unit :=
  let* o := on_queues (WorkQueue_pop orphaned) in
  match o with
  | None => Ret tt
  | Some _ => match fuel with O => Fail (Panic "out of fuel") | S fuel' => drop_orphaned fuel' orphaned end
  end.

Definition Shared_close_all_receivers (fuel : nat) : prog Sh unit :=
  let* _ := store (set_sh_receiver_alive false) in
  let* idle := on_registry (fun reg => Done (Registry_take_all_lanes reg)) in
  let* _ := close_lanes idle in
  let* ready := load (fun s => as_load (sh_ready s)) in
  let* _ := close_pages fuel (top_pages ready) in
  let* orphaned := load sh_orphaned_work in
  let* _ := drop_orphaned fuel orphaned in
  data_notify_all.

(** [WaitSource::register]: receivers park on the channel's data cell. *)
Definition Shared_register : prog Sh WaitRegistration := on_data_waiters MultiWaitCell_prepare.

(** ** Construction *)

(** [registry.install_lane] on the new registry; the ready group, the work
    group, the ready page, the lane page and the receiver's queue have index 0
    ([1] for the work group); queue [1] is the orphaned work. *)
Definition build_channel (capacity_per_sender : Z) : outcome (Sh * Sender * Receiver) :=
  match ring_spsc (T := T) capacity_per_sender with
  | Fault e => Fault e
  | Done (ring, producer, consumer) =>
      match ReadyPage_new 0 0 (ReadyGroup_new 0) with
      | Fault e => Fault e
      | Done page =>
          let key := mkLaneKey 0 0 in
          let registry := mkRegistry [mkSlot 0 None] [] [0] [1] [0] [Some 0%nat] [] in
          let ready := Registry_clone_ready_topology registry in
          let shared := mkShared [ring]
            (mkReadyStore [ReadyGroup_new 0; ReadyGroup_new 0] [page] [LaneSignal_new 0 0])
            [WorkQueue_bounded PREFETCH_LIMIT; WorkQueue_unbounded]
            [LanePage_new 0 0 1] registry (as_new [(0, 0%nat)]) (as_new ready) 0 1%nat
            PublicationTracker_new 1 1 1 true MultiWaitCell_new capacity_per_sender in
          match run (let* lane := Lane_new key 0 0 consumer in
                     on_registry (fun reg => match Registry_install_lane lane reg with
                                             | Done reg => Done (tt, reg) | Fault e => Fault e end)) shared with
          | (Fault e, _) => Fault e
          | (Done _, shared) =>
              Done (shared, mkSender 0 producer key 0 Park,
                mkReceiver 0 0%nat [] 0 ready 0 0 0 0 false (2 ^ Z.log2_up capacity_per_sender) Park)
          end
      end
  end.

Definition try_channel_with_policy (capacity_per_sender : Z) : outcome (result (Sh * Sender * Receiver) ChannelError) :=
  match validate_capacity capacity_per_sender MAX_CAPACITY_PER_SENDER with
  | Err e => Done (Err e)
  | Ok _ =>
      match build_channel capacity_per_sender with
      | Fault e => Fault e
      | Done c => Done (Ok c)
      end
  end.

Definition channel_with_policy (capacity_per_sender : Z) : outcome (Sh * Sender * Receiver) :=
  match try_channel_with_policy capacity_per_sender with
  | Fault e => Fault e
  | Done (Ok c) => Done c
  | Done (Err e) => Fault (Panic (ChannelError_fmt e))
  end.

(** The constructors with the default policy. *)
Definition try_channel (capacity_per_sender : Z) : outcome (result (Sh * Sender * Receiver) ChannelError) :=
  try_channel_with_policy capacity_per_sender.

Definition channel (capacity_per_sender : Z) : outcome (Sh * Sender * Receiver) :=
  match try_channel capacity_per_sender with
  | Fault e => Fault e
  | Done (Ok c) => Done c
  | Done (Err e) => Fault (Panic (ChannelError_fmt e))
  end.

(** ** The sender (sender.rs) *)

Definition Sender_set_wait_strategy (strategy : WaitStrategy) (tx : Sender) : Sender :=
  mkSender (snd_ring tx) (snd_producer tx) (snd_key tx) (snd_signal tx) strategy.
Definition with_producer (p : RProducer) (tx : Sender) : Sender :=
  mkSender (snd_ring tx) p (snd_key tx) (snd_signal tx) (snd_wait_strategy tx).

Definition Sender_try_register (tx : Sender) : prog Sh (result Sender TryRegisterError) :=
  let* r := Shared_register_sender in
  match r with
  | Err e => Ret (Err e)
  | Ok (key, signal, ring, producer) => Ret (Ok (mkSender ring producer key signal (snd_wait_strategy tx)))
  end.

Definition Sender_try_clone (tx : Sender) : prog Sh (option Sender) :=
  let* r := Sender_try_register tx in
  match r with Ok tx => Ret (Some tx) | Err _ => Ret None end.

Definition Sender_try_send_inner (tx : Sender) (value : T) : prog Sh (result unit (TrySendError T) * bool * Sender) :=
  let* alive := load sh_receiver_alive in
  if negb alive then Ret (Err (TrySend_Disconnected value), false, tx)
  else
    let* '(r, p) := on_lane_ring (snd_ring tx) (RProducer_push_and_flush pol (snd_producer tx) value) in
    let tx := with_producer p tx in
    match r with
    | Ok _ =>
        let* wake_receiver := Shared_mark_ready (snd_signal tx) in
        Ret (Ok tt, wake_receiver, tx)
    | Err value =>
        let* alive := load sh_receiver_alive in
        let* gone :=
          (if negb alive then Ret true
           else on_lane_ring (snd_ring tx) (RProducer_is_consumer_dropped pol)) in
        Ret (Err (if gone : bool then TrySend_Disconnected value else Full value), false, tx)
    end.

Definition Sender_try_send (tx : Sender) (value : T) : prog Sh (result unit (TrySendError T) * Sender) :=
  let* '(result, wake_receiver, tx) := Sender_try_send_inner tx value in
  let* _ := when wake_receiver data_notify_one in
  Ret (result, tx).

Definition Sender_lane_id (tx : Sender) : Z := key_slot (snd_key tx).
Definition Sender_capacity (tx : Sender) : prog Sh Z := on_lane_ring (snd_ring tx) RProducer_capacity.
Definition Sender_is_disconnected : prog Sh bool := let* alive := load sh_receiver_alive in Ret (negb alive).
Definition Sender_sender_count : prog Sh Z := load sh_live_senders.
Definition Sender_receiver_count : prog Sh Z := load sh_live_receivers.

(** [impl Drop for Sender], then the drop of the ring's producer. *)
Definition Sender_drop (tx : Sender) : prog Sh unit :=
  let* _ := on_lane_ring (snd_ring tx) (RProducer_close (snd_producer tx)) in
  let* _ := Shared_mark_ready (snd_signal tx) in
  let* previous := swap sh_live_senders (fun s =>
    set_sh_counts (sh_registered_lanes s) (wrapping_sub (sh_live_senders s) 1) (sh_live_receivers s) s) in
  let* _ := (if previous =? 1 then data_notify_all else data_notify_one) in
  on_lane_ring (snd_ring tx) (on_hring (Producer_drop (rp_inner (snd_producer tx)))).

(** ** The receiver's topology and staged work (receiver.rs) *)

Definition Receiver_refresh_ready_topology (fuel : nat) (rx : Receiver) : prog Sh Receiver :=
  let* generation := load sh_ready_generation in
  if generation =? seen_ready_generation rx then Ret rx
  else
    let* '(ready, generation) := Shared_ready_snapshot fuel in
    Ret (set_ready ready generation rx).

Definition Receiver_pop_staged (rx : Receiver) : prog Sh (option T * Receiver) :=
  match rcv_private rx with
  | v :: private => Ret (Some v, set_private private rx)
  | [] => let* o := on_queues (WorkQueue_pop (rcv_local rx)) in Ret (o, rx)
  end.

(** [groups.iter().any(|group| group.has_ready())]. *)
Fixpoint any_ready (groups : list Z) : prog Sh bool :=
  match groups with
  | [] => Ret false
  | g :: groups' => let* b := on_index (ReadyGroup_has_ready g) in if b : bool then Ret true else any_ready groups'
  end.

Definition Receiver_has_ready_lane (fuel : nat) (rx : Receiver) : prog Sh (bool * Receiver) :=
  let* rx := Receiver_refresh_ready_topology fuel rx in
  let* b := any_ready (top_ready_groups (rcv_ready rx)) in
  if b : bool then Ret (true, rx)
  else let* b := any_ready (top_work_groups (rcv_ready rx)) in Ret (b, rx).

(** The steal loop of [pop_work]: [count] victims are left from [offset]. *)
Fixpoint steal_loop (count : nat) (offset : Z) (queues : list (Z * nat)) (rx : Receiver) : prog Sh (option T * Receiver) :=
  match count with
  | O => Ret (None, rx)
  | S count' =>
      let* index := urem (steal_cursor rx + offset) (zlength queues) in
      let* '(id, queue) := index_or_panic queues index in
      let* skip :=
        (if id =? rcv_id rx then Ret true
         else let* n := on_queues (WorkQueue_len queue) in Ret (n =? 0)) in
      if skip : bool then steal_loop count' (offset + 1) queues rx
      else
        let* _ := begin_publication in
        let* stolen := on_queues (WorkQueue_steal_batch_into queue (rcv_local rx)) in
        let* _ := end_publication in
        match stolen with
        | Some value => Ret (Some value, set_steal_cursor (wrapping_add index 1) rx)
        | None => steal_loop count' (offset + 1) queues rx
        end
  end.

Definition Receiver_pop_work (fuel : nat) (rx : Receiver) : prog Sh (WorkPop T * Receiver) :=
  let* '(o, rx) := Receiver_pop_staged rx in
  match o with
  | Some value => Ret (WorkItem value, rx)
  | None =>
      let* generation := on_publications PublicationTracker_snapshot in
      let* orphaned := load sh_orphaned_work in
      let* o := on_queues (WorkQueue_pop orphaned) in
      match o with
      | Some value => Ret (WorkItem value, rx)
      | None =>
          let* '(ready, rx) := Receiver_has_ready_lane fuel rx in
          if ready : bool then Ret (WorkEmpty generation, rx)
          else
            let* queues := load (fun s => as_load (sh_work_queues s)) in
            let len := zlength queues in
            let* '(stolen, rx) := steal_loop (length queues) 0 queues rx in
            match stolen with
            | Some value => Ret (WorkItem value, rx)
            | None =>
                let* rx :=
                  (if negb (len =? 0) then
                     let* c := urem (wrapping_add (steal_cursor rx) 1) len in Ret (set_steal_cursor c rx)
                   else Ret rx) in
                Ret (WorkEmpty generation, rx)
            end
      end
  end.

Definition Receiver_is_disconnected : prog Sh bool := let* n := load sh_live_senders in Ret (n =? 0).

Definition Receiver_is_drained : prog Sh bool :=
  let* gone := Receiver_is_disconnected in
  if gone : bool then let* n := load sh_registered_lanes in Ret (n =? 0) else Ret false.

Definition Receiver_empty_scan_state (generation : Z) : prog Sh EmptyScan :=
  let* changed := on_publications (PublicationTracker_changed_since generation) in
  if changed : bool then Ret ScanChanged else
  let* flight := on_publications PublicationTracker_is_in_flight in
  if flight : bool then Ret ScanPublishing else
  let* drained := Receiver_is_drained in
  if negb drained then Ret ScanOpen else
  let* flight := on_publications PublicationTracker_is_in_flight in
  if flight : bool then Ret ScanPublishing else
  let* changed := on_publications (PublicationTracker_changed_since generation) in
  if changed : bool then Ret ScanChanged else Ret ScanDrained.

(** ** Acquiring and draining lanes (drain.rs)

    A publication is open from the claim of a lane until the caller drops it. *)

Section drain.
Context (weak : list bool) (fuel : nat).

(** The cursors after claiming [page_bit] of group [group_index]; returns the
    page's id. *)
Definition advance_cursors (group group_index group_count page_bit : Z) (rx : Receiver) : prog Sh (Z * Receiver) :=
  let* next_group := urem (group_index + 1) group_count in
  let next_page := (page_bit + 1) mod PAGES_PER_GROUP in
  let* id := on_index (on_group group (fun g => (group_id g, g))) in
  let page_id := id * PAGES_PER_GROUP + page_bit in
  let* direct := urem (page_id + 1) (zlength (top_pages (rcv_ready rx))) in
  Ret (page_id, set_cursors next_group next_page direct rx).

(** [ready.pages.get(page_id)], or the published topology's page. *)
Definition find_page (page_id : Z) (rx : Receiver) : prog Sh Z :=
  match zlookup (top_pages (rcv_ready rx)) page_id with
  | Some page => Ret page
  | None =>
      let* ready := load (fun s => as_load (sh_ready s)) in
      index_or_panic (top_pages ready) page_id
  end.

Fixpoint work_lane_loop (count : nat) (start offset page_start : Z) (rx : Receiver) : prog Sh (option Lane * Receiver) :=
  match count with
  | O => Ret (None, rx)
  | S count' =>
      let groups := top_work_groups (rcv_ready rx) in
      let* group_index := urem (start + offset) (zlength groups) in
      let* group := index_or_panic groups group_index in
      let* has := on_index (ReadyGroup_has_ready group) in
      if negb has then work_lane_loop count' start (offset + 1) page_start rx
      else
        let* _ := begin_publication in
        let* bit := on_index (ReadyGroup_take_one_from group page_start weak) in
        match bit with
        | None =>
            let* _ := end_publication in
            work_lane_loop count' start (offset + 1) page_start rx
        | Some page_bit =>
            let* '(page_id, rx) := advance_cursors group group_index (zlength groups) page_bit rx in
            let* page := find_page page_id rx in
            let* lane := LanePage_pop_after_claim page in
            match lane with
            | Some lane => Ret (Some lane, rx)
            | None =>
                let* _ := end_publication in
                work_lane_loop count' start (offset + 1) page_start rx
            end
        end
  end.

Definition Receiver_acquire_work_lane (rx : Receiver) : prog Sh (option Lane * Receiver) :=
  let groups := top_work_groups (rcv_ready rx) in
  let* start := urem (ready_group_cursor rx) (zlength groups) in
  work_lane_loop (length groups) start 0 (ready_page_cursor rx) rx.

Fixpoint ready_lane_loop (count : nat) (start offset page_start : Z) (rx : Receiver) : prog Sh (option Lane * Receiver) :=
  match count with
  | O => Ret (None, rx)
  | S count' =>
      let groups := top_ready_groups (rcv_ready rx) in
      let* group_index := urem (start + offset) (zlength groups) in
      let* group := index_or_panic groups group_index in
      let* has := on_index (ReadyGroup_has_ready group) in
      if negb has then ready_lane_loop count' start (offset + 1) page_start rx
      else
        let* _ := begin_publication in
        let* bit := on_index (ReadyGroup_take_one_from group page_start weak) in
        match bit with
        | None =>
            let* _ := end_publication in
            ready_lane_loop count' start (offset + 1) page_start rx
        | Some page_bit =>
            let* '(page_id, rx) := advance_cursors group group_index (zlength groups) page_bit rx in
            let* lane := Shared_activate_page page_id in
            match lane with
            | Some lane => Ret (Some lane, rx)
            | None =>
                let* _ := end_publication in
                ready_lane_loop count' start (offset + 1) page_start rx
            end
        end
  end.

Definition Receiver_acquire_ready_lane (rx : Receiver) : prog Sh (option Lane * Receiver) :=
  let groups := top_ready_groups (rcv_ready rx) in
  let* start := urem (ready_group_cursor rx) (zlength groups) in
  ready_lane_loop (length groups) start 0 (ready_page_cursor rx) rx.

(** The page the direct cursor points to. *)
Definition acquire_direct_lane (rx : Receiver) : prog Sh (option Lane * Receiver) :=
  let pages := top_pages (rcv_ready rx) in
  let* direct_page := urem (direct_page_cursor rx) (zlength pages) in
  let* page := index_or_panic pages direct_page in
  let* empty := LanePage_is_empty page in
  if empty : bool then Ret (None, rx)
  else
    let* _ := begin_publication in
    let* lane := LanePage_pop_direct page in
    match lane with
    | Some lane =>
        let* direct := urem (direct_page + 1) (zlength pages) in
        Ret (Some lane, set_cursors (ready_group_cursor rx) (ready_page_cursor rx) direct rx)
    | None => let* _ := end_publication in Ret (None, rx)
    end.

Definition Receiver_acquire_lane (rx : Receiver) : prog Sh (option Lane * Receiver) :=
  let* rx := Receiver_refresh_ready_topology fuel rx in
  let prefer := prefer_work rx in
  let rx := set_prefer_work (negb prefer) rx in
  let* '(lane, rx) := (if negb prefer then Receiver_acquire_ready_lane rx else Ret (None, rx)) in
  match lane with
  | Some lane => Ret (Some lane, rx)
  | None =>
      let* '(lane, rx) := acquire_direct_lane rx in
      match lane with
      | Some lane => Ret (Some lane, rx)
      | None =>
          let* '(lane, rx) := Receiver_acquire_work_lane rx in
          match lane with
          | Some lane => Ret (Some lane, rx)
          | None => if prefer then Receiver_acquire_ready_lane rx else Ret (None, rx)
          end
      end
  end.

Definition Receiver_requeue_lane (lane : Lane) (rx : Receiver) : prog Sh unit :=
  let* page := find_page (key_slot (lane_key lane) / LANES_PER_PAGE) rx in
  LanePage_push page lane.

Definition Receiver_finish_lane (lane : Lane) (rx : Receiver) : prog Sh (Wake * bool) :=
  let* f := Shared_finish_empty_lane lane in
  match f with
  | FinishReady lane => let* _ := Receiver_requeue_lane lane rx in Ret (WakeOne, false)
  | FinishParked => Ret (WakeNone, false)
  | FinishRetired wake_all => Ret (if wake_all then WakeAll else WakeNone, true)
  end.

Definition Receiver_settle_lane (lane : Lane) (rx : Receiver) : prog Sh (Wake * bool) :=
  if negb (cached_available lane =? 0) then
    let* _ := Receiver_requeue_lane lane rx in Ret (WakeOne, false)
  else Receiver_finish_lane lane rx.

Definition Lane_pop (lane : Lane) (msg : string) : prog Sh (T * Lane) :=
  let* '(v, c) := on_lane_ring (lane_ring lane) (RConsumer_pop (lane_consumer lane)) in
  match v with
  | None => Fail (Panic msg)
  | Some v => Ret (v, set_consumer c lane)
  end.

Fixpoint pop_rest (count : nat) (lane : Lane) (acc : list T) : prog Sh (list T * Lane) :=
  match count with
  | O => Ret (acc, lane)
  | S count' =>
      let* '(v, lane) := Lane_pop lane "batch is bounded by cached availability" in
      pop_rest count' lane (acc ++ [v])
  end.

(** The first value is returned, the rest is staged. *)
Definition Receiver_take_batch (lane : Lane) (batch : Z) (rx : Receiver) : prog Sh (T * Lane * Receiver) :=
  let* '(value, lane) := Lane_pop lane "cached_available guarantees prefetched data" in
  let* receivers := load sh_live_receivers in
  let* '(rest, lane) := pop_rest (Z.to_nat (batch - 1)) lane [] in
  if receivers =? 1 then Ret (value, lane, set_private (rcv_private rx ++ rest) rx)
  else let* _ := on_queues (WorkQueue_push_batch (rcv_local rx) rest) in Ret (value, lane, rx).

Definition Receiver_drain_lane (lane : Lane) (rx : Receiver) : prog Sh (LaneDrain T * Receiver) :=
  let* lane := (if cached_available lane =? 0 then Lane_prefetch lane else Ret lane) in
  if cached_available lane =? 0 then
    let* '(b, lane) := Lane_release_pending lane in
    let released := if b : bool then Some (lane_signal lane) else None in
    let* '(wake, retired) := Receiver_finish_lane lane rx in
    Ret (DrainEmpty (mkEffects released wake retired), rx)
  else
    let batch := Z.min (cached_available lane) PREFETCH_LIMIT in
    let* '(value, lane, rx) := Receiver_take_batch lane batch rx in
    let* cached := usub (cached_available lane) batch in
    let lane := set_counters cached (unreleased lane + batch) lane in
    let* '(b, lane) :=
      (if (release_batch lane <=? unreleased lane) || (cached_available lane =? 0)
       then Lane_release_pending lane else Ret (false, lane)) in
    let released := if b : bool then Some (lane_signal lane) else None in
    let staged := if 1 <? batch then WakeAll else WakeNone in
    let* '(wake, _) := Receiver_settle_lane lane rx in
    Ret (DrainItem value (mkEffects released (Wake_merge staged wake) false), rx).

(** ** Receiving (receiver.rs) *)

Definition Receiver_apply_effects (e : Effects) : prog Sh unit :=
  let* _ := (match released e with
             | Some signal => on_index (LaneSignal_notify_space signal)
             | None => Ret tt end) in
  match wake e with
  | WakeNone => Ret tt
  | WakeOne => data_notify_one
  | WakeAll => data_notify_all
  end.

(** [attempts] are left, the current one included. *)
Fixpoint recv_inner_loop (attempts : nat) (prog_flag : bool) (rx : Receiver)
    : prog Sh (result T TryRecvError * Effects * Receiver) :=
  match attempts with
  | O => Ret (Err TryRecv_Empty, Effects_progressed_if prog_flag, rx)
  | S attempts' =>
      let* '(w, rx) := Receiver_pop_work fuel rx in
      match w with
      | WorkItem value => Ret (Ok value, Effects_default, rx)
      | WorkEmpty work_generation =>
          let* '(lane, rx) := Receiver_acquire_lane rx in
          match lane with
          | None =>
              let* scan := Receiver_empty_scan_state work_generation in
              match scan with
              | ScanChanged =>
                  match attempts' with
                  | S _ => recv_inner_loop attempts' prog_flag rx
                  | O => Ret (Err TryRecv_Empty, Effects_progressed, rx)
                  end
              | ScanPublishing | ScanOpen => Ret (Err TryRecv_Empty, Effects_progressed_if prog_flag, rx)
              | ScanDrained => Ret (Err TryRecv_Disconnected, Effects_default, rx)
              end
          | Some lane =>
              let* '(drained, rx) := Receiver_drain_lane lane rx in
              let* _ := end_publication in
              match drained with
              | DrainItem value effects => Ret (Ok value, effects, rx)
              | DrainEmpty effects =>
                  if Effects_has_effect effects then Ret (Err TryRecv_Empty, effects, rx)
                  else recv_inner_loop attempts' (prog_flag || progressed effects) rx
              end
          end
      end
  end.

Definition Receiver_try_recv_inner (rx : Receiver) : prog Sh (result T TryRecvError * Effects * Receiver) :=
  recv_inner_loop (Z.to_nat (TRY_RECV_RETRIES + 1)) false rx.

Fixpoint recv_lanes_loop (attempts : nat) (rx : Receiver) : prog Sh (result T TryRecvError * Receiver) :=
  match attempts with
  | O => Fail (Panic "unreachable")
  | S attempts' =>
      let* '(result, effects, rx) := Receiver_try_recv_inner rx in
      let retry := Effects_has_effect effects && match result with Err TryRecv_Empty => true | _ => false end in
      let* _ := Receiver_apply_effects effects in
      if negb retry || (match attempts' with O => true | _ => false end) then Ret (result, rx)
      else recv_lanes_loop attempts' rx
  end.

Definition Receiver_try_recv_lanes (rx : Receiver) : prog Sh (result T TryRecvError * Receiver) :=
  recv_lanes_loop (Z.to_nat (TRY_RECV_RETRIES + 1)) rx.

Definition Receiver_try_recv (rx : Receiver) : prog Sh (result T TryRecvError * Receiver) :=
  let* '(o, rx) := Receiver_pop_staged rx in
  match o with
  | Some value => Ret (Ok value, rx)
  | None => Receiver_try_recv_lanes rx
  end.

Definition Receiver_sender_count : prog Sh Z := load sh_live_senders.
Definition Receiver_receiver_count : prog Sh Z := load sh_live_receivers.

(** [impl Clone for Receiver]: returns the new receiver and this one. *)
Definition Receiver_clone (rx : Receiver) : prog Sh (Receiver * Receiver) :=
  let* _ := begin_publication in
  let* _ := on_queues (WorkQueue_push_batch (rcv_local rx) (rcv_private rx)) in
  let rx := set_private [] rx in
  let* '(id, local) := Shared_register_receiver in
  let* _ := end_publication in
  let* '(ready, seen) := Shared_ready_snapshot fuel in
  Ret (mkReceiver id local [] 0 ready seen 0 0 0 false (rcv_capacity_per_sender rx) (rcv_wait_strategy rx), rx).

(** [impl Drop for Receiver]. *)
Definition Receiver_drop (rx : Receiver) : prog Sh unit :=
  let* _ := begin_publication in
  let published := match rcv_private rx with [] => false | _ => true end in
  let* orphaned := load sh_orphaned_work in
  let* _ := on_queues (WorkQueue_push_batch orphaned (rcv_private rx)) in
  let* drained := on_queues (WorkQueue_drain_into (rcv_local rx) orphaned) in
  let published := published || drained in
  let* _ := Shared_unregister_receiver (rcv_id rx) in
  let* _ := end_publication in
  let* previous := swap sh_live_receivers (fun s =>
    set_sh_counts (sh_registered_lanes s) (sh_live_senders s) (wrapping_sub (sh_live_receivers s) 1) s) in
  if previous =? 1 then Shared_close_all_receivers fuel
  else
    let* wake := (if published : bool then Ret true else Receiver_is_disconnected) in
    when wake data_notify_all.

End drain.

End mpmc.
