(* ===== verification/MpmcBlocking.v ===== *)
(** * Blocking operations of the MPMC channel

    Models the blocking sends of [src/src/mpmc/sender.rs], the blocking
    receives of [src/src/mpmc/receiver.rs] and the iterators of
    [src/src/mpmc/receiver/iter.rs], on top of the loop of Blocking. *)

From S2P Require Import Prelude Prog Config Blocking Wait Ready YRing Handoff Publication Work MpmcShared Mpmc.
Local Open Scope prog_scope.

Section mpmc_blocking.
Context {T : Type} (pol : Teardown).
Context {CQ AS : Type -> Type} `{ConcurrentQueue CQ} `{ArcSwap AS}.
#[local] Abbreviation Sh := (Shared (T := T) (CQ := CQ) (AS := AS)).
#[local] Abbreviation Rx := (Receiver (T := T)).

(** ** Sending *)

(** [impl Blocking<T> for Sender]: parks on its lane's capacity cell. *)
Definition Sender_blocking : Blocking Sh Sender T (result unit T) bool WaitRegistration :=
  mkBlocking
    (fun tx value => let* '(r, tx) := Sender_try_send pol tx value in Ret (send_attempt r, tx))
    (fun tx value =>
       let* '(r, wake_receiver, tx) := Sender_try_send_inner pol tx value in
       Ret (send_recheck r wake_receiver, tx))
    (fun tx wake_receiver => let* _ := when wake_receiver data_notify_one in Ret tx)
    (fun tx => on_index (LaneSignal_register (snd_signal tx)))
    (fun tx r => on_index (LaneSignal_on_cell (snd_signal tx) WaitRegistration_drop))
    (fun tx r => on_index (LaneSignal_on_cell (snd_signal tx) (WaitRegistration_wait r)))
    (fun tx r timed_out => on_index (LaneSignal_on_cell (snd_signal tx) (WaitRegistration_wait_timeout r timed_out))).

Definition Sender_send_slow (env : wait_env) (tx : Sender) (value : T)
    : prog Sh (option (result unit (SendError T)) * Sender) :=
  let spin := SpinWait_blocking (snd_wait_strategy tx) (env_now env) in
  let* '(o, tx) := block Sender_blocking (env_clock env) (env_rounds env) spin tx value in
  Ret (option_map (fun r => match r with Ok u => Ok u | Err v => Err (mkSendError v) end) o, tx).

Definition Sender_send (env : wait_env) (tx : Sender) (value : T)
    : prog Sh (option (result unit (SendError T)) * Sender) :=
  let* '(r, tx) := Sender_try_send pol tx value in
  match r with
  | Ok _ => Ret (Some (Ok tt), tx)
  | Err (TrySend_Disconnected value) => Ret (Some (Err (mkSendError value)), tx)
  | Err (Full value) => Sender_send_slow env tx value
  end.

Definition Sender_send_deadline (env : wait_env) (tx : Sender) (value : T) (deadline : Z)
    : prog Sh (option (result unit (SendTimeoutError T)) * Sender) :=
  let spin := SpinWait_deadline (snd_wait_strategy tx) deadline (env_now env) in
  let* '(o, tx) := block_until Sender_blocking (env_clock env) (env_rounds env) spin deadline tx value in
  Ret (option_map send_timeout_result o, tx).

Definition Sender_send_timeout (env : wait_env) (tx : Sender) (value : T) (timeout : Z)
    : prog Sh (option (result unit (SendTimeoutError T)) * Sender) :=
  match Instant_checked_add (env_now env) timeout with
  | None =>
      let* '(o, tx) := Sender_send env tx value in
      Ret (option_map (fun r => match r with
                                | Ok u => Ok u
                                | Err (mkSendError v) => Err (SendTimeout_Disconnected v)
                                end) o, tx)
  | Some deadline => Sender_send_deadline env tx value deadline
  end.

(** ** Receiving *)

(** [impl Blocking<()> for Receiver]: parks on the channel's data cell. *)
Definition Receiver_blocking (weak : list bool) (fuel : nat)
    : Blocking Sh Rx unit (result T RecvError) Effects WaitRegistration :=
  mkBlocking
    (fun rx input =>
       let* '(r, rx) := Receiver_try_recv pol weak fuel rx in Ret (recv_attempt r input, rx))
    (fun rx input =>
       let* '(r, effects, rx) := Receiver_try_recv_inner pol weak fuel rx in
       Ret (match r with
            | Ok value => RecheckDone (Ok value) effects
            | Err TryRecv_Disconnected => RecheckDone (Err mkRecvError) Effects_default
            | Err TryRecv_Empty =>
                if Effects_must_retry effects then RecheckProgressed input effects else RecheckPending input
            end, rx))
    (fun rx effects => let* _ := Receiver_apply_effects effects in Ret rx)
    (fun rx => Shared_register)
    (fun rx r => on_data_waiters MultiWaitRegistration_drop)
    (fun rx r => on_data_waiters (MultiWaitRegistration_wait r))
    (fun rx r timed_out => on_data_waiters (MultiWaitRegistration_wait_timeout r timed_out)).

Definition Receiver_recv_slow (weak : list bool) (fuel : nat) (env : wait_env) (rx : Rx)
    : prog Sh (option (result T RecvError) * Rx) :=
  let spin := SpinWait_blocking (rcv_wait_strategy rx) (env_now env) in
  block (Receiver_blocking weak fuel) (env_clock env) (env_rounds env) spin rx tt.

Definition Receiver_recv (weak : list bool) (fuel : nat) (env : wait_env) (rx : Rx)
    : prog Sh (option (result T RecvError) * Rx) :=
  let* '(r, rx) := Receiver_try_recv pol weak fuel rx in
  match r with
  | Ok value => Ret (Some (Ok value), rx)
  | Err TryRecv_Disconnected => Ret (Some (Err mkRecvError), rx)
  | Err TryRecv_Empty => Receiver_recv_slow weak fuel env rx
  end.

Definition Receiver_recv_deadline (weak : list bool) (fuel : nat) (env : wait_env) (rx : Rx) (deadline : Z)
    : prog Sh (option (result T RecvTimeoutError) * Rx) :=
  let spin := SpinWait_deadline (rcv_wait_strategy rx) deadline (env_now env) in
  let* '(o, rx) := block_until (Receiver_blocking weak fuel) (env_clock env) (env_rounds env) spin deadline rx tt in
  Ret (option_map recv_timeout_result o, rx).

Definition Receiver_recv_timeout (weak : list bool) (fuel : nat) (env : wait_env) (rx : Rx) (timeout : Z)
    : prog Sh (option (result T RecvTimeoutError) * Rx) :=
  match Instant_checked_add (env_now env) timeout with
  | None =>
      let* '(o, rx) := Receiver_recv weak fuel env rx in
      Ret (option_map (fun r => match r with Ok v => Ok v | Err _ => Err RecvTimeout_Disconnected end) o, rx)
  | Some deadline => Receiver_recv_deadline weak fuel env rx deadline
  end.

(** ** Iterators *)

Definition Iter_next (weak : list bool) (fuel : nat) (env : wait_env) (rx : Rx)
    : prog Sh (option (option T) * Rx) :=
  let* '(o, rx) := Receiver_recv weak fuel env rx in
  Ret (option_map (fun r => match r with Ok v => Some v | Err _ => None end) o, rx).

Definition IntoIter_next := Iter_next.

Definition TryIter_next (weak : list bool) (fuel : nat) (rx : Rx) : prog Sh (option T * Rx) :=
  let* '(r, rx) := Receiver_try_recv pol weak fuel rx in
  Ret (match r with Ok v => Some v | Err _ => None end, rx).

End mpmc_blocking.
