(* ===== verification/MpmcThm.v ===== *)
(** * Properties of the MPMC channel

    The identities of receivers, and runs of whole channels. *)

From S2P Require Import Prelude Prog Config Blocking Wait Ready YRing YRingInv Handoff Publication Work MpmcShared Mpmc MpmcBlocking.
Local Open Scope prog_scope.

(** ** Receiver identities

    [receiver_cmd] is a history of the receivers of a channel: a receiver
    registers with its work queue, or the [i]th live one unregisters. *)

Inductive receiver_cmd : Type :=
| RegisterReceiver (work_queue : nat)
| UnregisterReceiver (i : nat).

Definition exec_receiver_cmd (st : Registry * list (Z * nat)) (c : receiver_cmd) : outcome (Registry * list (Z * nat)) :=
  let '(r, live) := st in
  match c with
  | RegisterReceiver q =>
      match Registry_register_receiver q r with
      | Done (id, r) => Done (r, live ++ [(id, q)])
      | Fault e => Fault e
      end
  | UnregisterReceiver i =>
      match live !! i with
      | None => Done st
      | Some (id, _) =>
          match Registry_unregister_receiver id r with
          | Done r => Done (r, delete i live)
          | Fault e => Fault e
          end
      end
  end.

Fixpoint exec_receiver_cmds (st : Registry * list (Z * nat)) (cs : list receiver_cmd) : outcome (Registry * list (Z * nat)) :=
  match cs with
  | [] => Done st
  | c :: cs' =>
      match exec_receiver_cmd st c with
      | Done st => exec_receiver_cmds st cs'
      | Fault e => Fault e
      end
  end.

(** [Registry::new]. *)
Definition Registry_new (group work_group page : Z) (work_queue : nat) : Registry :=
  mkRegistry [mkSlot 0 None] [] [group] [work_group] [page] [Some work_queue] [].

Lemma elem_of_enumerate qs k id q :
  (id, q) ∈ enumerate_queues k qs <-> zlookup qs (id - k) = Some (Some q).
Proof.
  revert k. induction qs as [|o qs IH]; intros k; cbn [enumerate_queues].
  - split; [intros []%not_elem_of_nil|]. unfold zlookup. by destruct (id - k <? 0).
  - assert (Hk : zlookup (o :: qs) (id - k) = Some (Some q) <->
                 (id = k /\ o = Some q) \/ zlookup qs (id - (k + 1)) = Some (Some q)).
    { unfold zlookup. destruct (Z.ltb_spec (id - k) 0), (Z.ltb_spec (id - (k + 1)) 0); try lia.
      - split; [done|]. intros [[]|]; [lia|done].
      - replace (id - k) with 0 by lia. cbn. split; [intros [= ->]; left; split; [lia|done]|].
        intros [[_ ->]|]; done.
      - replace (Z.to_nat (id - k)) with (S (Z.to_nat (id - (k + 1)))) by lia. cbn.
        split; [auto|]. intros [[]|]; [lia|done]. }
    rewrite Hk. destruct o as [q'|]; [rewrite elem_of_cons|]; rewrite IH; intuition congruence.
Qed.

Lemma enumerate_ids qs k : NoDup (enumerate_queues k qs).*1.
Proof.
  revert k. induction qs as [|[q|] qs IH]; intros k; cbn; [constructor| |apply IH].
  constructor; [|apply IH]. intros ((id, q') & E & Hin)%list_elem_of_fmap. cbn in E. subst id.
  apply elem_of_enumerate, zlookup_Some_range in Hin. lia.
Qed.

(** The free identities are the vacant entries; the live receivers hold the
    others. *)
Record ids_ok (r : Registry) (live : list (Z * nat)) : Prop := {
  ids_free : NoDup (reg_free_receivers r);
  ids_vacant : forall id, id ∈ reg_free_receivers r <-> zlookup (reg_work_queues r) id = Some None;
  ids_nodup : NoDup (live.*1);
  ids_live : forall id q, (id, q) ∈ live <-> zlookup (reg_work_queues r) id = Some (Some q)
}.

Lemma live_ids_fresh r live id : ids_ok r live -> (forall q, zlookup (reg_work_queues r) id <> Some (Some q)) -> id ∉ live.*1.
Proof.
  intros H Hv ((id' & q) & E & Hin)%list_elem_of_fmap. cbn in E. subst id'.
  apply (ids_live _ _ H) in Hin. by apply Hv in Hin.
Qed.

Lemma register_ids_ok r live q : ids_ok r live ->
  exists id r', Registry_register_receiver q r = Done (id, r') /\ ids_ok r' (live ++ [(id, q)]).
Proof.
  intros HI. pose proof HI as [H1 H2 H3 H4]. unfold Registry_register_receiver.
  destruct (rev (reg_free_receivers r)) as [|id rest] eqn:E.
  - assert (E' : reg_free_receivers r = []) by by rewrite <- (rev_involutive (reg_free_receivers r)), E.
    eexists _, _. split; [done|]. split; cbn.
    + constructor.
    + intros id. rewrite zlookup_snoc_Some, <- H2, E'. split; [by intros ?%elem_of_nil|]. by intros [|[]].
    + rewrite fmap_app. apply NoDup_snoc; [done|]. eapply live_ids_fresh; [done|].
      cbn. intros q' Hq%zlookup_Some_range. lia.
    + intros id q'. rewrite elem_of_app, H4, list_elem_of_singleton, zlookup_snoc_Some. intuition congruence.
  - assert (E' : reg_free_receivers r = rev rest ++ [id]) by by rewrite <- (rev_involutive (reg_free_receivers r)), E.
    assert (Hid : zlookup (reg_work_queues r) id = Some None) by (apply H2; rewrite E', elem_of_app, list_elem_of_singleton; auto).
    pose proof (zlookup_Some_range _ _ _ Hid) as R. rewrite Hid. eexists _, _. split; [done|].
    rewrite E' in H1. apply NoDup_app in H1 as (N1 & N2 & _). split; cbn.
    + done.
    + intros j. rewrite zlookup_zinsert by done. destruct (decide (id = j)) as [<-|Hne].
      * split; [|done]. intros Hin. exfalso. apply (N2 id Hin). by apply list_elem_of_singleton.
      * rewrite <- H2, E', elem_of_app, list_elem_of_singleton. intuition congruence.
    + rewrite fmap_app. apply NoDup_snoc; [done|]. eapply live_ids_fresh; [done|]. cbn. intros q'. congruence.
    + intros j q'. rewrite elem_of_app, H4, list_elem_of_singleton, zlookup_zinsert by done.
      destruct (decide (id = j)) as [<-|Hne]; [|intuition congruence].
      rewrite Hid. split; [intros [|]; congruence|intros [= ->]; auto].
Qed.

Lemma unregister_ids_ok r live i id q : ids_ok r live -> live !! i = Some (id, q) ->
  exists r', Registry_unregister_receiver id r = Done r' /\ ids_ok r' (delete i live).
Proof.
  intros HI Hi. pose proof HI as [H1 H2 H3 H4].
  assert (Hid : zlookup (reg_work_queues r) id = Some (Some q)) by by apply H4, list_elem_of_lookup_2 with i.
  pose proof (zlookup_Some_range _ _ _ Hid) as R. unfold Registry_unregister_receiver. rewrite Hid.
  eexists. split; [done|].
  assert (E : live ≡ₚ (id, q) :: delete i live) by by apply delete_Permutation.
  assert (HN : NoDup (id :: (delete i live).*1)) by by rewrite E in H3.
  apply NoDup_cons in HN as [N1 N2]. split; cbn.
  - apply NoDup_snoc; [done|]. rewrite H2. congruence.
  - intros j. rewrite elem_of_app, list_elem_of_singleton, zlookup_zinsert, H2 by done.
    destruct (decide (id = j)) as [<-|Hne]; intuition congruence.
  - done.
  - intros j q'. rewrite zlookup_zinsert by done.
    assert (HE : (j, q') ∈ live <-> (j, q') = (id, q) \/ (j, q') ∈ delete i live) by (rewrite E at 1; by rewrite elem_of_cons).
    rewrite H4 in HE. destruct (decide (id = j)) as [<-|Hne].
    + split; [|done]. intros Hin. exfalso. apply N1. apply list_elem_of_fmap. by exists (id, q').
    + rewrite HE. intuition congruence.
Qed.

Lemma exec_receivers_ok cs r live : ids_ok r live ->
  exists r' live', exec_receiver_cmds (r, live) cs = Done (r', live') /\ ids_ok r' live'.
Proof.
  revert r live. induction cs as [|c cs IH]; intros r live HI; cbn [exec_receiver_cmds]; [eauto|].
  destruct c as [q|i]; cbn [exec_receiver_cmd].
  - destruct (register_ids_ok r live q HI) as (id & r' & -> & HI'). eauto.
  - destruct (live !! i) as [[id q]|] eqn:Ei; [|eauto].
    destruct (unregister_ids_ok r live i id q HI Ei) as (r' & -> & HI'). eauto.
Qed.

(** C14: receiver identities are unique and the published list of work queues is
    exact.  Whatever receivers register and unregister, in whatever order,
    neither operation panics, the live receivers have distinct ids, and the
    list a receiver steals from names exactly the live receivers, each with
    its own queue. *)
Theorem receiver_ids_exact (group work_group page : Z) (work_queue : nat) (cs : list receiver_cmd) :
  exists r live, exec_receiver_cmds (Registry_new group work_group page work_queue, [(0, work_queue)]) cs = Done (r, live) /\
    NoDup (live.*1) /\ Registry_clone_work_queues r ≡ₚ live.
Proof.
  destruct (exec_receivers_ok cs (Registry_new group work_group page work_queue) [(0, work_queue)])
    as (r & live & E & HI).
  { split; cbn.
    - constructor.
    - intros id. split; [by intros ?%elem_of_nil|]. intros H. pose proof (zlookup_Some_range _ _ _ H) as R.
      unfold zlength in R. cbn in R. assert (id = 0) as -> by lia. done.
    - apply NoDup_singleton.
    - intros id q. rewrite list_elem_of_singleton. split; [by intros [= -> ->]|].
      intros H. pose proof (zlookup_Some_range _ _ _ H) as R.
      unfold zlength in R. cbn in R. assert (id = 0) as -> by lia. change (Some (Some work_queue) = Some (Some q)) in H.
      congruence. }
  exists r, live. split_and!; [done|apply HI|]. apply NoDup_Permutation.
  - eapply NoDup_fmap_1, enumerate_ids.
  - eapply NoDup_fmap_1, (ids_nodup _ _ HI).
  - intros [id q]. unfold Registry_clone_work_queues. rewrite elem_of_enumerate, Z.sub_0_r. symmetry. apply HI.
Qed.

(** ** Runs of whole channels

    A channel of capacity 4 with two senders and two receivers: the second
    receiver takes the ready lane of the second sender, then steals what the
    first receiver staged; once the senders are gone and their lanes retired,
    receives report the end. *)

Definition recv_all (n : nat) (rx : Receiver (T := nat)) : prog (Shared (T := nat) (CQ := list_queue) (AS := cell)) (list (result nat TryRecvError) * Receiver (T := nat)) :=
  Nat.iter n (fun p => let* '(rs, rx) := p in
                       let* '(r, rx) := Receiver_try_recv Deferred [false] 4 rx in Ret (rs ++ [r], rx))
    (Ret ([], rx)).

Example mpmc_session :
  match build_channel (T := nat) (CQ := list_queue) (AS := cell) 4 with
  | Done (s, tx, rx) =>
      (run (let* r := Sender_try_register Deferred tx in
            match r with
            | Err _ => Fail (Panic "registration")
            | Ok tx2 =>
                let* '(_, tx) := Sender_try_send Deferred tx 1%nat in
                let* '(_, tx) := Sender_try_send Deferred tx 2%nat in
                let* '(_, tx2) := Sender_try_send Deferred tx2 3%nat in
                let* '(rx2, rx) := Receiver_clone 4 rx in
                let* '(a, rx) := recv_all 1 rx in
                let* '(b, rx2) := recv_all 2 rx2 in
                let* _ := Sender_drop tx in
                let* _ := Sender_drop tx2 in
                let* '(c, rx) := recv_all 2 rx in
                let* _ := Receiver_drop Deferred 4 rx in
                let* _ := Receiver_drop Deferred 4 rx2 in
                Ret (a, b, c)
            end) s).1
  | Fault e => Fault e
  end = Done ([Ok 1%nat], [Ok 3%nat; Ok 2%nat], [Err TryRecv_Disconnected; Err TryRecv_Disconnected]).
Proof. vm_compute. reflexivity. Qed.

(** ** The constructors *)

Section constructors.
Context {T : Type} {CQ AS : Type -> Type} `{ConcurrentQueue CQ} `{ArcSwap AS}.

Lemma ring_spsc_built capacity : 0 < capacity <= 2 ^ 62 ->
  exists cap r, valid_cap cap /\ capacity <= cap < 2 * capacity /\ ring_mask r = cap - 1 /\ zlength (ring_buf r) = cap /\
    ring_spsc (T := T) capacity = Done (mkHRing r 0 None [], mkRProducer (mkProducer 0 0), mkRConsumer (Some (mkConsumer 0 0))).
Proof.
  intros Hc. destruct (Ring_new_ok (T := T) capacity Hc) as (cap & Hv & Hr & E). pose proof (valid_cap_range _ Hv).
  eexists cap, _. split; [done|]. split; [lia|]. unfold ring_spsc, spsc. rewrite E. split; [|split; [|reflexivity]]; cbn; [done|].
  unfold zlength. rewrite length_replicate. lia.
Qed.

(** C40: the constructors of the MPMC channel on every [usize].  Zero and
    capacities over 2^62 are refused, by the fallible constructor with the
    error that says why and by the other with the panic message of that error;
    every other capacity gives a channel with one sender, one receiver and one
    lane whose ring has the next power of two of slots, the capacity the
    receiver reports. *)
Theorem mpmc_channel_capacities (capacity : Z) :
  is_usize capacity ->
  let try_channel := try_channel (T := T) (CQ := CQ) (AS := AS) in
  let channel := channel (T := T) (CQ := CQ) (AS := AS) in
  if capacity =? 0 then
    try_channel capacity = Done (Err ZeroCapacity) /\ channel capacity = Fault (Panic "capacity_per_sender must be > 0")
  else if capacity <=? 2 ^ 62 then
    exists cap s hr tx rx, valid_cap cap /\ capacity <= cap < 2 * capacity /\
      try_channel capacity = Done (Ok (s, tx, rx)) /\ channel capacity = Done (s, tx, rx) /\
      sh_rings s = [hr] /\ zlength (ring_buf (hr_ring hr)) = cap /\ rcv_capacity_per_sender rx = cap /\
      sh_live_senders s = 1 /\ sh_live_receivers s = 1
  else
    try_channel capacity = Done (Err (CapacityTooLarge capacity (2 ^ 62))) /\
    channel capacity = Fault (Panic "capacity_per_sender must be <= 4611686018427387904").
Proof.
  intros [Hlo Hhi] try_channel channel. subst try_channel channel. unfold channel, try_channel, try_channel_with_policy.
  destruct (Z.eqb_spec capacity 0) as [->|Hne]; [done|]. destruct (Z.leb_spec capacity (2 ^ 62)) as [Hle|Hgt].
  - destruct (ring_spsc_built capacity) as (cap & r & Hv & Hr & Em & Eb & E); [lia|].
    rewrite (proj2 (validate_capacity_ok capacity MAX_CAPACITY_PER_SENDER ltac:(lia))) by (unfold MAX_CAPACITY_PER_SENDER; lia).
    unfold build_channel. rewrite E. cbn. exists cap. do 4 eexists. split; [done|]. split; [done|].
    split; [reflexivity|]. split; [reflexivity|]. cbn. split; [reflexivity|]. split; [done|].
    split; [|done]. apply capacity_rounded; [lia|done..].
  - assert (Ev : validate_capacity capacity MAX_CAPACITY_PER_SENDER = Err (CapacityTooLarge capacity (2 ^ 62))).
    { unfold validate_capacity, MAX_CAPACITY_PER_SENDER. rewrite (proj2 (Z.eqb_neq _ _) Hne). by destruct (Z.gtb_spec capacity (2 ^ 62)); [|lia]. }
    rewrite Ev. split; done.
Qed.

End constructors.

Lemma mpmc_channel_capacities_witness :
  exists cap s hr tx rx, valid_cap cap /\ 5 <= cap < 2 * 5 /\
    try_channel (T := nat) (CQ := list_queue) (AS := cell) 5 = Done (Ok (s, tx, rx)) /\
    channel (T := nat) (CQ := list_queue) (AS := cell) 5 = Done (s, tx, rx) /\
    sh_rings s = [hr] /\ zlength (ring_buf (hr_ring hr)) = cap /\ rcv_capacity_per_sender rx = cap /\
    sh_live_senders s = 1 /\ sh_live_receivers s = 1.
Proof. apply (mpmc_channel_capacities (T := nat) (CQ := list_queue) (AS := cell) 5). usize. Defined.
