(* ===== verification/MpmcConc.v ===== *)
(** * The MPMC channel under every interleaving: the shared state

    Any number of receivers and senders run as threads of a pool on the shared
    state of an MPMC channel whose endpoints are registered before the threads
    start.  Receiver [j] is thread [j], the sender of lane [k] is thread
    [nr + k].  Lane [k] has ring, signal and slot [k]; page [p] has index [p].

    The ghost state has, per lane, the ring's ghost positions and where the
    lane token is; per receiver the values it holds (received or staged in its
    private queue); and per thread how many times it may still change a word
    of a ready group, which bounds the compare-exchange loops of the others.

    The invariant says that a token is in one place, that a token in the
    registry or in a page describes its ring, and that the values taken from
    the rings are exactly those held by receivers or staged in work queues. *)

From S2P Require Import Prelude Prog Config Wait Ready YRing YRingInv YRingSpec YRingThm YRingConc YRingClose Handoff Publication Work MpmcShared Mpmc.
Local Open Scope prog_scope.

(** The work queue of receiver [j]: queue [1] is the orphaned work. *)
Definition qh (j : nat) : nat := match j with O => O | S _ => S j end.

Lemma qh_inj i j : qh i = qh j -> i = j.
Proof. destruct i, j; cbn; lia. Qed.
Lemma qh_not_orphaned j : qh j <> 1%nat.
Proof. destruct j; cbn; lia. Qed.
Lemma qh_lt j nr : (j < nr)%nat -> (qh j < S nr)%nat.
Proof. destruct j; cbn; lia. Qed.

(** Where a lane token is. *)
Inductive place : Type :=
| Idle
| Queued
| With (j : nat)
| Gone (j : nat).

Definition owner (pl : place) : option nat :=
  match pl with With j | Gone j => Some j | _ => None end.

(** What a receiver knows of a token it holds: nothing more, that its ring is
    closed and empty, or that it has been retired as well. *)
Inductive stage : Type := Holding | Ended | Retired.

Record tok : Type := mkTok { tk : nat; tl : Lane; ta : Z; ts : stage }.

Definition tok_place (i : nat) (t : tok) : place :=
  match ts t with Retired => Gone i | _ => With i end.

Section conc.
Context {T : Type} {CQ AS : Type -> Type} {HCQ : ConcurrentQueue CQ} {LCQ : ConcurrentQueueLaws CQ} {HAS : ArcSwap AS}.
Context (caps : list Z) (nr np : nat) (ids : list Z) (tp : ReadyTopology) (gen : Z) (budget : nat).
#[local] Abbreviation Sh := (Shared (T := T) (CQ := CQ) (AS := AS)).
#[local] Abbreviation Page := (LanePage (CQ := CQ)).
#[local] Abbreviation ns := (length caps).
#[local] Abbreviation ringst := (Ring T * ghost T)%type.
Implicit Types (s : Sh) (z : ringst) (L : list T).

Record lghost : Type := mkLG { lg_ring : ghost T; lg_place : place }.
Record mghost : Type := mkMG { mg_lanes : list lghost; mg_held : list (list T); mg_credits : list nat }.

Definition mst : Type := Sh * mghost.
Implicit Types (x y : mst).

(** The values taken from a ring so far. *)
Definition taken (g : ghost T) : list T := take (Z.to_nat (g_h g)) (g_hist g).
Definition gots x : list (list T) := (fun g => taken (lg_ring g)) <$> mg_lanes x.2.

(** One lane: its capacity, its ring with the ghost positions, its token. *)
Definition view x (k : nat) : option (Z * ringst * place) :=
  match caps !! k, sh_rings x.1 !! k, mg_lanes x.2 !! k with
  | Some cap, Some hr, Some g => Some (cap, (hr_ring hr, lg_ring g), lg_place g)
  | _, _, _ => None
  end.

(** The token [t] describes the ring [z], from which [got] was taken. *)
Definition ring_tok (t : tok) (cap : Z) z (got : list T) : Prop :=
  lane_key (tl t) = mkLaneKey (Z.of_nat (tk t)) 0 /\ lane_signal (tl t) = Z.of_nat (tk t) /\ lane_ring (tl t) = Z.of_nat (tk t) /\
  (ts t <> Holding -> ended got z) /\
  exists c ct ph h, lane_consumer (tl t) = mkRConsumer (Some c) /\ ca cap 0 c ct ph h got z /\ ta t = ct - h.

(** A token that nobody holds: its counter is the window of its consumer. *)
Definition stored (k : nat) (l : Lane) (cap : Z) z : Prop :=
  exists got, ring_tok (mkTok k l (cached_available l) Holding) cap z got.

(** Receiver [i] holds the token [t]. *)
Definition has (i : nat) (t : tok) x : Prop :=
  exists cap z got, view x (tk t) = Some (cap, z, tok_place i t) /\ ring_tok t cap z got.

(** ** The index *)

(** Every bit of [bit] names a page of the group [gh]. *)
Definition named (gh bit : Z) : Prop :=
  is_u64 bit /\ exists id, zlookup ids gh = Some id /\ 0 <= id /\
    forall b, 0 <= b -> Z.testbit bit b = true -> id * PAGES_PER_GROUP + b < Z.of_nat np.

Record idx_ok (i : ready_store) : Prop := {
  ix_ids : group_id <$> rs_groups i = ids;
  ix_groups : forall gh g, zlookup (rs_groups i) gh = Some g -> named gh (group_bits g);
  ix_pages : length (rs_pages i) = np /\
    Forall (fun p => is_u64 (page_bits p) /\ named (page_group p) (page_group_bit p)) (rs_pages i);
  ix_signals : length (rs_signals i) = ns /\
    Forall (fun l => 0 <= signal_page l < Z.of_nat np /\ is_u64 (signal_bit l)) (rs_signals i)
}.

Definition words s : list Z := group_bits <$> rs_groups (sh_index s).

(** ** The invariant *)

Definition slot_ok (k : nat) (slot : Slot) (v : Z * ringst * place) : Prop :=
  let '(cap, z, pl) := v in
  ((forall j, pl <> Gone j) -> slot_generation slot = 0) /\
  forall l, slot_lane slot = Some l -> pl = Idle /\ stored k l cap z.

Definition queued_ok x (p : nat) (l : Lane) : Prop :=
  exists k cap z, key_slot (lane_key l) = Z.of_nat k /\ Z.of_nat k / LANES_PER_PAGE = Z.of_nat p /\
    view x k = Some (cap, z, Queued) /\ stored k l cap z.

Definition page_ok x (p : nat) (pg : Page) : Prop :=
  lp_ready pg = Z.of_nat p /\ named (lp_work_group pg) (lp_work_bit pg) /\ cq_limit (lp_lanes pg) = LANES_PER_PAGE /\
  NoDup ((fun l => key_slot (lane_key l)) <$> cq_items (lp_lanes pg)) /\ Forall (queued_ok x p) (cq_items (lp_lanes pg)).

(** What no thread changes. *)
Definition fixed s : Prop :=
  as_load (sh_ready s) = tp /\ sh_ready_generation s = gen /\ reg_pages (sh_registry s) = top_pages tp /\
  as_load (sh_work_queues s) = (fun j => (Z.of_nat j, qh j)) <$> seq 0 nr /\
  sh_orphaned_work s = 1%nat /\ sh_live_receivers s = Z.of_nat nr /\ sh_receiver_alive s = true.

Record mok x : Prop := {
  mo_lens : length (sh_rings x.1) = ns /\ length (mg_lanes x.2) = ns /\ length (reg_slots (sh_registry x.1)) = ns /\
    length (sh_pages x.1) = np /\ length (mg_held x.2) = nr /\ length (sh_queues x.1) = S nr;
  mo_ring : forall k cap z pl, view x k = Some (cap, z, pl) ->
    ok cap 0 z /\ closed_ok z /\ forall j, pl = Gone j -> ended (taken z.2) z;
  mo_slot : forall k slot v, reg_slots (sh_registry x.1) !! k = Some slot -> view x k = Some v -> slot_ok k slot v;
  mo_page : forall p pg, sh_pages x.1 !! p = Some pg -> page_ok x p pg;
  mo_index : idx_ok (sh_index x.1);
  mo_fixed : fixed x.1;
  mo_queues : forall h q, sh_queues x.1 !! h = Some q ->
    q_capacity q = if (h =? 1)%nat then None else Some PREFETCH_LIMIT;
  mo_total : concat (q_values <$> sh_queues x.1) ++ concat (mg_held x.2) ≡ₚ concat (gots x);
  mo_budget : (sum_list (mg_credits x.2) <= budget)%nat
}.

(** ** What a thread may do *)

Definition lane_step (i k : nat) (v v' : Z * ringst * place) : Prop :=
  let '(cap, z, pl) := v in
  let '(cap', z', pl') := v' in
  cap' = cap /\
  if decide (i < nr)%nat then guarc cap 1 z z' /\ (forall j, owner pl = Some j -> j <> i -> z' = z /\ pl' = pl)
  else pl' = pl /\ (if decide (i = nr + k)%nat then guarc cap 0 z z' else z' = z).

Definition credit_step (i : nat) x y : Prop :=
  (words y.1 = words x.1 \/ (sum_list (mg_credits y.2) < sum_list (mg_credits x.2))%nat) /\
  (sum_list (mg_credits y.2) <= sum_list (mg_credits x.2))%nat /\
  forall j, j <> i -> mg_credits y.2 !! j = mg_credits x.2 !! j.

Definition mguar (i : nat) : relation mst := fun x y =>
  mok y /\ (forall k v v', view x k = Some v -> view y k = Some v' -> lane_step i k v v') /\
  (forall j, j <> i -> mg_held y.2 !! j = mg_held x.2 !! j) /\
  (forall j q, j <> i -> (j < nr)%nat -> sh_queues x.1 !! qh j = Some q ->
     exists q', sh_queues y.1 !! qh j = Some q' /\ (length (q_values q') <= length (q_values q))%nat) /\
  credit_step i x y.

(** Receiver [i] may change a group word [n] more times, holds the values [L]
    and the tokens [K], and its queue is empty if [e]. *)
Definition own (i n : nat) L (e : bool) (K : list tok) x : Prop :=
  mok x /\ (exists L', mg_held x.2 !! i = Some L' /\ L' ≡ₚ L) /\
  (e = true -> exists q, sh_queues x.1 !! qh i = Some q /\ q_values q = []) /\
  (exists c, mg_credits x.2 !! i = Some c /\ (n <= c)%nat) /\
  NoDup (tk <$> K) /\ Forall (fun t => has i t x) K.

(** ** Views *)

Lemma view_is_Some x k : mok x -> (k < ns)%nat -> exists cap z pl, view x k = Some (cap, z, pl).
Proof.
  intros H Hk. destruct (mo_lens _ H) as (E1 & E2 & _). unfold view.
  destruct (lookup_lt_is_Some_2 caps k Hk) as [cap ->].
  destruct (lookup_lt_is_Some_2 (sh_rings x.1) k) as [hr ->]; [lia|].
  destruct (lookup_lt_is_Some_2 (mg_lanes x.2) k) as [g ->]; [lia|]. eauto.
Qed.

Lemma view_lt x k v : view x k = Some v -> (k < ns)%nat.
Proof. unfold view. destruct (caps !! k) eqn:E; [|done]. intros _. by eapply lookup_lt_Some. Qed.

Lemma view_inv x k cap z pl : view x k = Some (cap, z, pl) ->
  exists hr g, caps !! k = Some cap /\ sh_rings x.1 !! k = Some hr /\ mg_lanes x.2 !! k = Some g /\
    z = (hr_ring hr, lg_ring g) /\ pl = lg_place g.
Proof.
  unfold view. destruct (caps !! k); [|done]. destruct (sh_rings x.1 !! k) as [hr|]; [|done].
  destruct (mg_lanes x.2 !! k) as [g|]; [|done]. intros [= <- <- <-]. eauto 10.
Qed.

Lemma view_ext x y : sh_rings y.1 = sh_rings x.1 -> mg_lanes y.2 = mg_lanes x.2 -> forall k, view y k = view x k.
Proof. intros E1 E2 k. unfold view. by rewrite E1, E2. Qed.

(** Lane [k] changes, the others do not. *)
Lemma view_insert x y k cap hr g hr' g' :
  caps !! k = Some cap -> sh_rings x.1 !! k = Some hr -> mg_lanes x.2 !! k = Some g ->
  sh_rings y.1 = <[k := hr']> (sh_rings x.1) -> mg_lanes y.2 = <[k := g']> (mg_lanes x.2) ->
  view y k = Some (cap, (hr_ring hr', lg_ring g'), lg_place g') /\ forall j, j <> k -> view y j = view x j.
Proof.
  intros H1 H2 H3 E1 E2. apply lookup_lt_Some in H2, H3. split.
  - unfold view. by rewrite H1, E1, E2, !list_lookup_insert_eq.
  - intros j Hj. unfold view. by rewrite E1, E2, !list_lookup_insert_ne.
Qed.

(** ** Tokens and their rings *)

Lemma ring_tok_stable t cap got : stable (guarc cap) 1 (fun z => ring_tok t cap z got).
Proof.
  intros z z' (H1 & H2 & H3 & H4 & c & ct & ph & h & H5 & H6 & H7) Hr. split_and!; auto.
  - intros Hs. eapply ended_stable; [|by apply H4|exact Hr]. lia.
  - exists c, ct, ph, h. split_and!; auto. eapply stablec; [apply ca_stable|exact H6|exact Hr].
Qed.

Lemma ring_tok_sender t cap z z' got : guarc cap 0 z z' -> ring_tok t cap z got -> ring_tok t cap z' got.
Proof. intros Hg Ht. eapply ring_tok_stable; [exact Ht|]. by exists 0%nat. Qed.

Lemma stored_sender k l cap z z' : guarc cap 0 z z' -> stored k l cap z -> stored k l cap z'.
Proof. intros Hg [got H]. exists got. by eapply ring_tok_sender. Qed.

Lemma ring_tok_got t cap z got : ring_tok t cap z got -> got = taken z.2.
Proof. intros (_ & _ & _ & _ & c & ct & ph & h & _ & (_ & _ & <- & <- & _) & _). done. Qed.

(** What a sender does leaves the values taken alone. *)
Lemma taken_sender cap z z' : ok cap 0 z -> guarc cap 0 z z' -> taken z'.2 = taken z.2.
Proof.
  intros Hok ((_ & _ & E & _ & [l El]) & _). unfold taken. rewrite E, El, take_app_le; [done|].
  pose proof (ok_facts _ _ _ Hok). unfold zlength in *. lia.
Qed.

(** What a receiver does extends them. *)
Lemma taken_receiver cap z z' : ok cap 0 z -> guarc cap 1 z z' -> taken z.2 `prefix_of` taken z'.2.
Proof.
  intros Hok ((_ & _ & E & _ & Hh) & _). unfold taken. rewrite E. pose proof (ok_facts _ _ _ Hok).
  exists (seg (g_hist z.2) (g_h z.2) (g_h z'.2)). unfold seg.
  replace (Z.to_nat (g_h z'.2)) with (Z.to_nat (g_h z.2) + Z.to_nat (g_h z'.2 - g_h z.2))%nat by lia. symmetry. apply take_take_drop.
Qed.

Lemma taken_ended cap z z' r : (r < 2)%nat -> ok cap 0 z -> guarc cap r z z' -> ended (taken z.2) z -> ended (taken z'.2) z'.
Proof.
  intros Hr Hok Hg He. pose proof He as [_ E]. assert (He' : ended (taken z.2) z') by by eapply ended_guarc.
  replace (taken z'.2) with (taken z.2); [done|]. destruct r as [|[|]]; [by symmetry; eapply taken_sender| |lia].
  destruct (taken_receiver cap z z' Hok Hg) as [l El]. destruct He' as [_ E'].
  assert (length (taken z'.2) <= length (g_hist z'.2))%nat by (unfold taken; rewrite length_take; lia).
  rewrite El, length_app, E' in H. destruct l; [by rewrite El, app_nil_r|cbn in H; lia].
Qed.

(** ** Stability *)

Lemma lane_step_tok i j k t cap z got cap' z' pl' :
  (i < nr)%nat -> j <> i -> ring_tok t cap z got -> tk t = k ->
  lane_step j k (cap, z, tok_place i t) (cap', z', pl') -> cap' = cap /\ pl' = tok_place i t /\ ring_tok t cap z' got.
Proof.
  intros Hi Hj Ht Ek [-> Hs]. destruct (decide (j < nr)%nat).
  - destruct Hs as [_ Hs]. destruct (Hs i) as [-> ->]; [unfold tok_place; by destruct (ts t)|done|]. done.
  - destruct Hs as [-> Hs]. destruct (decide _); [|by subst]. split_and!; auto. by eapply ring_tok_sender.
Qed.

Lemma has_stable i t : (i < nr)%nat -> stable mguar i (has i t).
Proof.
  intros Hi x y (cap & z & got & Hv & Ht) (j & Hj & Hg & Hl & _).
  destruct (view_is_Some y (tk t) Hg (view_lt _ _ _ Hv)) as (cap' & z' & pl' & Hv').
  destruct (lane_step_tok i j (tk t) t cap z got cap' z' pl' Hi Hj Ht eq_refl (Hl _ _ _ Hv Hv')) as (-> & -> & Ht').
  exists cap, z', got. auto.
Qed.

Lemma own_stable i n L e K : (i < nr)%nat -> stable mguar i (own i n L e K).
Proof.
  intros Hi x y (H1 & (L' & H2 & H3) & H4 & (c & H5 & H6) & H7 & H8) Hr. pose proof Hr as (j & Hj & Hg & _ & Hh & Hq & _ & _ & Hc).
  assert (Hij : i <> j) by congruence.
  split; [done|]. split; [exists L'; by rewrite Hh|]. split.
  { intros He. destruct (H4 He) as (q & Hq0 & Ev). destruct (Hq i q Hij Hi Hq0) as (q' & Hq' & Hlen).
    exists q'. split; [done|]. rewrite Ev in Hlen. destruct (q_values q'); [done|cbn in Hlen; lia]. }
  split; [exists c; by rewrite Hc|]. split; [done|]. eapply Forall_impl; [exact H8|]. intros t Ht. exact (has_stable i t Hi x y Ht Hr).
Qed.

Lemma wp_ret_own {A} i n L e K (a : A) Q x :
  (i < nr)%nat -> own i n L e K x -> (forall y, own i n L e K y -> Q a y) -> wp mguar i (Ret a) Q x.
Proof. intros Hi Hx HQ. by apply (wp_retP _ i (own i n L e K)); [apply own_stable| |]. Qed.

Lemma own_weaken i n n' L L' e e' K x :
  own i n L e K x -> (n' <= n)%nat -> L ≡ₚ L' -> (e' = true -> e = true) -> own i n' L' e' K x.
Proof.
  intros (H1 & (L0 & H2 & H3) & H4 & (c & H5 & H6) & H7 & H8) Hn HL He. split_and!; auto.
  - exists L0. by rewrite <- HL.
  - exists c. split; [done|lia].
Qed.

Lemma own_forget i n L e t K x : own i n L e (t :: K) x -> own i n L e K x.
Proof.
  intros (H1 & H2 & H3 & H4 & H5 & H6). apply NoDup_cons in H5 as [_ H5]. apply Forall_cons in H6 as [_ H6]. by split_and!.
Qed.

(** ** Steps outside the lanes *)

(** [s'] differs from [s] in the index, the publication tracker, the counts of
    lanes and senders, and the wait cells only. *)
Definition near s s' : Prop :=
  sh_rings s' = sh_rings s /\ sh_queues s' = sh_queues s /\ sh_pages s' = sh_pages s /\ sh_registry s' = sh_registry s /\
  sh_work_queues s' = sh_work_queues s /\ sh_ready s' = sh_ready s /\ sh_ready_generation s' = sh_ready_generation s /\
  sh_orphaned_work s' = sh_orphaned_work s /\ sh_live_receivers s' = sh_live_receivers s /\
  sh_receiver_alive s' = sh_receiver_alive s.

Lemma page_ok_view x y p pg : (forall k, view y k = view x k) -> page_ok x p pg -> page_ok y p pg.
Proof.
  intros E (H1 & H2 & H3 & H4 & H5). split_and!; auto. eapply Forall_impl; [exact H5|].
  intros l (k & cap & z & K1 & K2 & K3 & K4). exists k, cap, z. by rewrite E.
Qed.

Lemma mok_near s s' g g' :
  mok (s, g) -> near s s' -> idx_ok (sh_index s') -> mg_lanes g' = mg_lanes g -> mg_held g' = mg_held g ->
  (sum_list (mg_credits g') <= sum_list (mg_credits g))%nat -> mok (s', g').
Proof.
  intros H (E1 & E2 & E3 & E4 & E5 & E6 & E7 & E8 & E9 & E10) Hi G1 G2 Hs.
  assert (Ev : forall k, view (s', g') k = view (s, g) k) by by apply view_ext.
  destruct H as [H1 H2 H3 H4 H5 (F1 & F2 & F3 & F4 & F5 & F6 & F7) H7 H8 H9]; cbn [fst snd] in *. split; cbn [fst snd].
  - by rewrite E1, E2, E3, E4, G1, G2.
  - intros k cap z pl. rewrite Ev. apply H2.
  - intros k slot v. rewrite E4, Ev. apply H3.
  - intros p pg. rewrite E3. intros Hp. eapply page_ok_view; [exact Ev|by apply H4].
  - done.
  - unfold fixed. rewrite E4, E5, E6, E7, E8, E9, E10. by split_and!.
  - by rewrite E2.
  - unfold gots in *. cbn in *. by rewrite E2, G1, G2.
  - lia.
Qed.

Lemma lane_step_refl i k cap z pl : ok cap 0 z -> closed_ok z -> lane_step i k (cap, z, pl) (cap, z, pl).
Proof.
  intros H1 H2. split; [done|]. destruct (decide _); [split; [apply guarc_refl; [lia|done..]|done]|].
  split; [done|]. destruct (decide _); [apply guarc_refl; [lia|done..]|done].
Qed.

Lemma lane_steps_view i x y k v v' : mok x -> view y k = view x k -> view x k = Some v -> view y k = Some v' -> lane_step i k v v'.
Proof.
  intros H E Hv Hv'. rewrite E, Hv in Hv'. injection Hv' as <-. destruct v as [[cap z] pl].
  destruct (mo_ring _ H k cap z pl Hv) as (H1 & H2 & _). by apply lane_step_refl.
Qed.

(** A step near the state that may use one credit. *)
Lemma mguar_near i s s' g g' :
  mok (s, g) -> near s s' -> idx_ok (sh_index s') -> mg_lanes g' = mg_lanes g -> mg_held g' = mg_held g ->
  credit_step i (s, g) (s', g') -> mguar i (s, g) (s', g').
Proof.
  intros H HN Hi G1 G2 Hc. pose proof HN as (E1 & E2 & _).
  assert (Hm : mok (s', g')) by (eapply mok_near; [exact H|done..|]; apply Hc).
  split; [done|]. split; [|split; [|split; [|done]]].
  - intros k v v' Hv Hv'. eapply lane_steps_view; [exact H| |exact Hv|exact Hv']. by apply view_ext.
  - intros j _. cbn. by rewrite G2.
  - intros j q _ _ Hq. exists q. cbn in *. by rewrite E2.
Qed.

(** What a thread knows, as a function of the credits it has left: its peers
    keep it, and so do its own steps near the state. *)
Record party (i : nat) (A : nat -> mst -> Prop) : Prop := {
  pt_stable : forall n, stable mguar i (A n);
  pt_ok : forall n x, A n x -> mok x;
  pt_credit : forall n x, A n x -> exists c, mg_credits x.2 !! i = Some c /\ (n <= c)%nat;
  pt_near : forall n n' s s' g g', A n (s, g) -> near s s' -> mok (s', g') -> mg_lanes g' = mg_lanes g ->
    mg_held g' = mg_held g -> (exists c, mg_credits g' !! i = Some c /\ (n' <= c)%nat) -> A n' (s', g')
}.

Lemma own_party i L e K : (i < nr)%nat -> party i (fun n => own i n L e K).
Proof.
  intros Hi. split; [intros n; by apply own_stable|by intros n x []|by intros n x (_ & _ & _ & H & _)|].
  intros n n' s s' g g' (H1 & H2 & H3 & H4 & H5 & H6) (E1 & E2 & _) Hm G1 G2 Hc. split; [done|]. cbn [fst snd] in *.
  rewrite G2, E2. split_and!; auto. eapply Forall_impl; [exact H6|]. intros t (cap & z & got & Hv & Ht).
  exists cap, z, got. split; [|done]. rewrite <- Hv. by apply view_ext.
Qed.

Lemma credit_step_refl i x y : words y.1 = words x.1 -> mg_credits y.2 = mg_credits x.2 -> credit_step i x y.
Proof. intros E1 E2. unfold credit_step. rewrite E2. split_and!; auto. Qed.

Lemma near_refl s : near s s.
Proof. by split_and!. Qed.

Section party.
Context (i : nat) (A : nat -> mst -> Prop) (HA : party i A).

(** A step that changes no group word, and one that may. *)
Lemma near_step n s s' g :
  A n (s, g) -> near s s' -> idx_ok (sh_index s') -> words s' = words s -> mguar i (s, g) (s', g) /\ A n (s', g).
Proof.
  intros H H1 H2 H3. assert (Hg : mguar i (s, g) (s', g)).
  { apply mguar_near; [by eapply (pt_ok _ _ HA)|done..|]. by apply credit_step_refl. }
  split; [done|]. eapply (pt_near _ _ HA); [exact H|done|apply Hg|done|done|]. by apply (pt_credit _ _ HA) in H.
Qed.

Lemma spend_step n s s' g :
  A (S n) (s, g) -> near s s' -> idx_ok (sh_index s') -> exists g', mguar i (s, g) (s', g') /\ A n (s', g').
Proof.
  intros H H1 H2. destruct (pt_credit _ _ HA _ _ H) as (cr & K4 & K5). cbn [snd] in K4.
  pose proof (sum_list_pred _ _ _ K4 ltac:(lia)) as Hlt.
  exists (mkMG (mg_lanes g) (mg_held g) (<[i := pred cr]> (mg_credits g))).
  assert (Hg : mguar i (s, g) (s', mkMG (mg_lanes g) (mg_held g) (<[i := pred cr]> (mg_credits g)))).
  { apply mguar_near; [by eapply (pt_ok _ _ HA)|done..|]. split; [by right|]. split; [cbn; lia|].
    intros j Hj. cbn. by rewrite list_lookup_insert_ne. }
  split; [done|]. eapply (pt_near _ _ HA); [exact H|done|apply Hg|done|done|]. cbn.
  rewrite list_lookup_insert_eq by by eapply lookup_lt_Some. exists (pred cr). split; [done|lia].
Qed.

Lemma wp_near {R B} n (f : Sh -> R * Sh) (c : R -> prog Sh B) Q x :
  A n x ->
  (forall s g, A n (s, g) -> near s (f s).2 /\ idx_ok (sh_index (f s).2) /\ words (f s).2 = words s /\
     forall y, A n y -> wp mguar i (c (f s).1) Q y) ->
  wp mguar i (Act f c) Q x.
Proof.
  intros Hx Hf. eapply (wp_act _ i _ _ _ _ _ (pt_stable _ _ HA n) Hx). intros s g H.
  destruct (Hf s g H) as (H1 & H2 & H3 & H4). exists g.
  destruct (near_step n s _ g H H1 H2 H3) as [Hg Hy]. auto.
Qed.

Lemma wp_spend {R B} n (f : Sh -> R * Sh) (c : R -> prog Sh B) Q x :
  A (S n) x ->
  (forall s g, A (S n) (s, g) -> near s (f s).2 /\ idx_ok (sh_index (f s).2) /\
     forall y, A n y -> wp mguar i (c (f s).1) Q y) ->
  wp mguar i (Act f c) Q x.
Proof.
  intros Hx Hf. eapply (wp_act _ i _ _ _ _ _ (pt_stable _ _ HA (S n)) Hx). intros s g H.
  destruct (Hf s g H) as (H1 & H2 & H4). destruct (spend_step n s _ g H H1 H2) as (g' & Hg & Hy). eauto.
Qed.

Lemma wp_ret_party {B} n (b : B) Q x : A n x -> (forall y, A n y -> Q b y) -> wp mguar i (Ret b) Q x.
Proof. intros Hx HQ. by apply (wp_retP _ i (A n)); [apply (pt_stable _ _ HA)| |]. Qed.

(** ** Programs near the state *)

(** A program of the index that keeps it valid and changes no group, with what
    it returns. *)
Fixpoint index_quiet {B} (p : prog ready_store B) (P : B -> Prop) : Prop :=
  match p with
  | Ret b => P b
  | Act f k => forall i, idx_ok i -> idx_ok (f i).2 /\ rs_groups (f i).2 = rs_groups i /\ index_quiet (k (f i).1) P
  | Fail _ => False
  end.

Lemma wp_index_quiet {B} n (p : prog ready_store B) P x :
  index_quiet p P -> A n x -> wp mguar i (on_index p) (fun b y => A n y /\ P b) x.
Proof.
  revert x. induction p as [b|R f k IH|e]; intros x Hp Hx.
  - by eapply wp_ret_party.
  - eapply wp_near; [exact Hx|]. intros s g H. pose proof (mo_index _ (pt_ok _ _ HA _ _ H)) as Hi. cbn [fst] in Hi.
    destruct (Hp _ Hi) as (H1 & H2 & H3). destruct (f (sh_index s)) as [r i']. cbn in *.
    split; [by split_and!|]. split; [done|]. split; [by unfold words; cbn; rewrite H2|]. intros y Hy. by apply IH.
  - done.
Qed.

Lemma wp_on_index_quiet {B C} n (p : prog ready_store B) P (c : B -> prog Sh C) Q x :
  index_quiet p P -> A n x -> (forall b y, A n y -> P b -> wp mguar i (c b) Q y) -> wp mguar i (bind (on_index p) c) Q x.
Proof. intros Hp Hx Hc. eapply wp_call; [by eapply wp_index_quiet|]. intros b y [Hy HP]. by apply Hc. Qed.

(** A program of a component outside the index, the rings, the queues, the
    pages and the registry. *)
Fixpoint aside {B} (p : prog Sh B) : Prop :=
  match p with
  | Ret _ => True
  | Act f k => (forall s, near s (f s).2 /\ sh_index (f s).2 = sh_index s) /\ forall r, aside (k r)
  | Fail _ => False
  end.

Lemma wp_aside {B} n (p : prog Sh B) x : aside p -> A n x -> wp mguar i p (fun _ => A n) x.
Proof.
  revert x. induction p as [b|R f k IH|e]; intros x Hp Hx.
  - by eapply wp_ret_party.
  - destruct Hp as [Hf Hk]. eapply wp_near; [exact Hx|]. intros s g H. destruct (Hf s) as [H1 H2]. split; [done|].
    split; [rewrite H2; exact (mo_index _ (pt_ok _ _ HA _ _ H))|]. split; [by unfold words; rewrite H2|].
    intros y Hy. by apply IH.
  - done.
Qed.

Lemma wp_on_aside {B C} n (p : prog Sh B) (c : B -> prog Sh C) Q x :
  aside p -> A n x -> (forall b y, A n y -> wp mguar i (c b) Q y) -> wp mguar i (bind p c) Q x.
Proof. intros Hp Hx Hc. eapply wp_call; [by eapply wp_aside|]. auto. Qed.

(** Loads of what no thread changes. *)
Lemma wp_load_fixed {R C} n (get : Sh -> R) (r : R) (c : R -> prog Sh C) Q x :
  (forall s, fixed s -> get s = r) -> A n x -> (forall y, A n y -> wp mguar i (c r) Q y) ->
  wp mguar i (bind (load get) c) Q x.
Proof.
  intros Hg Hx Hc. eapply wp_near; [exact Hx|]. intros s g H. pose proof (pt_ok _ _ HA _ _ H) as Hok.
  split; [apply near_refl|]. split; [apply Hok|]. split; [done|]. cbn. rewrite Hg by apply Hok. done.
Qed.

End party.

(** ** Counters, publications and wake-ups *)

Lemma aside_bind {B C} (p : prog Sh B) (c : B -> prog Sh C) : aside p -> (forall b, aside (c b)) -> aside (bind p c).
Proof. intros Hp Hc. induction p as [b|R f k IH|e]; cbn in *; [apply Hc| |done]. destruct Hp as [H1 H2]. split; auto. Qed.

Lemma aside_load {R} (get : Sh -> R) : aside (load get).
Proof. split; [|done]. intros s. split; [apply near_refl|done]. Qed.

Lemma aside_publications {B} (p : prog PublicationTracker B) : no_fail p -> aside (on_publications p).
Proof.
  induction p as [b|R f k IH|e]; cbn; intros H; [done| |done]. split; [|intros r; apply IH, H].
  intros s. by destruct (f (sh_publications s)).
Qed.

Lemma aside_waiters {B} (p : prog MultiWaitCell B) : no_fail p -> aside (on_data_waiters p).
Proof.
  induction p as [b|R f k IH|e]; cbn; intros H; [done| |done]. split; [|intros r; apply IH, H].
  intros s. by destruct (f (sh_data_waiters s)).
Qed.

Lemma aside_notify all : aside (on_data_waiters (MultiWaitCell_notify all)).
Proof. apply aside_waiters. intros r. cbn. by destruct (Z.land r WAITING =? 0). Qed.

Lemma aside_begin : aside begin_publication.
Proof. by apply aside_publications. Qed.
Lemma aside_end : aside end_publication.
Proof. by apply aside_publications. Qed.
Lemma aside_counts (f : Sh -> Z) : aside (swap f (fun s => set_sh_counts (wrapping_sub (sh_registered_lanes s) 1) (sh_live_senders s) (sh_live_receivers s) s)).
Proof. split; [|done]. by intros s. Qed.

(** ** Accesses to the index *)

Lemma idx_set_page i p l : idx_ok i -> is_u64 (page_bits l) -> named (page_group l) (page_group_bit l) -> idx_ok (set_page p l i).
Proof.
  intros [H1 H2 [H3 H3'] H4] Hb Hn. split; cbn; auto. unfold zinsert. rewrite length_insert. split; [done|].
  by apply Forall_insert.
Qed.

Lemma idx_set_signal i k l : idx_ok i -> 0 <= signal_page l < Z.of_nat np -> is_u64 (signal_bit l) -> idx_ok (set_signal_at k l i).
Proof.
  intros [H1 H2 H3 [H4 H4']] Hb Hn. split; cbn; auto. unfold zinsert. rewrite length_insert. split; [done|].
  by apply Forall_insert.
Qed.

Lemma idx_page i p : idx_ok i -> 0 <= p < Z.of_nat np -> exists l, zlookup (rs_pages i) p = Some l /\
  is_u64 (page_bits l) /\ named (page_group l) (page_group_bit l).
Proof.
  intros Hi Hp. destruct (ix_pages _ Hi) as [El Hf]. destruct (zlookup_is_Some (rs_pages i) p) as [l Hl]; [unfold zlength; lia|].
  exists l. split; [done|]. by apply (zlookup_Forall _ _ _ _ Hf Hl).
Qed.

Lemma idx_signal i k : idx_ok i -> (k < ns)%nat -> exists l, zlookup (rs_signals i) (Z.of_nat k) = Some l /\
  0 <= signal_page l < Z.of_nat np /\ is_u64 (signal_bit l).
Proof.
  intros Hi Hk. destruct (ix_signals _ Hi) as [El Hf]. destruct (zlookup_is_Some (rs_signals i) (Z.of_nat k)) as [l Hl]; [unfold zlength; lia|].
  exists l. split; [done|]. by apply (zlookup_Forall _ _ _ _ Hf Hl).
Qed.

Lemma idx_group i gh : idx_ok i -> 0 <= gh < zlength ids -> exists g, zlookup (rs_groups i) gh = Some g /\
  named gh (group_bits g) /\ zlookup ids gh = Some (group_id g).
Proof.
  intros Hi Hg. pose proof (ix_ids _ Hi) as E. destruct (zlookup_is_Some (rs_groups i) gh) as [g Eg].
  { rewrite <- E in Hg. unfold zlength in *. by rewrite length_fmap in Hg. }
  exists g. split; [done|]. split; [by eapply ix_groups|]. rewrite <- E. unfold zlookup in *. destruct (gh <? 0); [done|].
  by rewrite list_lookup_fmap, Eg.
Qed.

Lemma index_quiet_signal {R} k (f : LaneSignal -> R * LaneSignal) (P : R -> Prop) :
  (k < ns)%nat -> (forall l, signal_page (f l).2 = signal_page l /\ signal_bit (f l).2 = signal_bit l) ->
  (forall l, 0 <= signal_page l < Z.of_nat np -> is_u64 (signal_bit l) -> P (f l).1) ->
  index_quiet (on_signal (Z.of_nat k) f) P.
Proof.
  intros Hk Hf HP i Hi. cbn. destruct (idx_signal i k Hi Hk) as (l & Hl & H1 & H2). rewrite Hl. specialize (Hf l).
  specialize (HP l H1 H2). destruct (f l) as [r l']. cbn in *. destruct Hf as [E1 E2].
  split; [|done]. by apply idx_set_signal; rewrite ?E1, ?E2.
Qed.

Lemma index_quiet_page {R} p (f : ReadyPage -> R * ReadyPage) (P : R -> Prop) :
  0 <= p < Z.of_nat np ->
  (forall l, is_u64 (page_bits l) -> named (page_group l) (page_group_bit l) ->
     page_group (f l).2 = page_group l /\ page_group_bit (f l).2 = page_group_bit l /\ is_u64 (page_bits (f l).2) /\ P (f l).1) ->
  index_quiet (on_page p f) P.
Proof.
  intros Hp Hf i Hi. cbn. destruct (idx_page i p Hi Hp) as (l & Hl & H1 & H2). rewrite Hl.
  destruct (Hf l H1 H2) as (E1 & E2 & E3 & E4). destruct (f l) as [r l']. cbn in *.
  split; [|done]. by apply idx_set_page; rewrite ?E1, ?E2.
Qed.

Lemma set_group_id i gh g : zlookup (rs_groups i) gh = Some g -> set_group gh g i = i.
Proof.
  destruct i as [gs ps ss]. unfold set_group, zlookup. cbn. intros H. f_equal. apply list_insert_id. by destruct (gh <? 0).
Qed.

(** A read of a group. *)
Lemma index_quiet_group_read {R} gh (get : ReadyGroup -> R) (P : R -> Prop) :
  0 <= gh < zlength ids -> (forall g, named gh (group_bits g) -> zlookup ids gh = Some (group_id g) -> P (get g)) ->
  index_quiet (on_group gh (fun g => (get g, g))) P.
Proof.
  intros Hg HP i Hi. cbn [on_group bind atomic fst snd]. destruct (idx_group i gh Hi Hg) as (g & Hl & H1 & H2). rewrite Hl.
  rewrite (set_group_id _ _ _ Hl). cbn [fst snd]. split_and!; [done|done|]. cbn. auto.
Qed.

(** The capacity cell of a lane. *)
Lemma index_quiet_cell {B} k (q : prog WaitCell B) :
  (k < ns)%nat -> no_fail q -> index_quiet (LaneSignal_on_cell (Z.of_nat k) q) (fun _ => True).
Proof.
  intros Hk. unfold LaneSignal_on_cell. induction q as [b|R f c IH|e]; cbn; intros H; [done| |done].
  intros i Hi. destruct (f (lane_cell (Z.of_nat k) i)) as [r w]. cbn.
  destruct (idx_signal i k Hi Hk) as (l & Hl & H1 & H2). unfold put_lane_cell. rewrite Hl.
  split; [by apply idx_set_signal|]. split; [done|auto].
Qed.

(** ** Group words *)

Lemma named_lor gh a b : named gh a -> named gh b -> named gh (Z.lor a b).
Proof.
  intros [Ha (id & E & Hid & Na)] [Hb (id' & E' & _ & Nb)]. split; [by apply is_u64_lor|]. exists id. split_and!; auto.
  intros i Hi. rewrite Z.lor_spec. assert (id' = id) as -> by congruence. intros [|]%orb_true_iff; auto.
Qed.

Lemma named_clear gh a b : 0 <= b -> named gh a -> named gh (clear_bit a b).
Proof.
  intros Hb [Ha (id & E & Hid & Na)]. split.
  - unfold clear_bit, is_u64. replace (Z.ldiff a (Z.shiftl 1 b)) with (Z.ldiff a (Z.shiftl 1 b) mod 2 ^ 64); [by apply Z.mod_pos_bound|].
    apply Z.bits_inj'. intros n Hn. destruct (Z.lt_ge_cases n 64); [by rewrite Z.mod_pow2_bits_low|].
    rewrite Z.mod_pow2_bits_high by lia. by rewrite Z.ldiff_spec, (u64_high a n).
  - exists id. split_and!; auto. intros i Hi. unfold clear_bit. rewrite Z.ldiff_spec. intros [H _]%andb_true_iff. auto.
Qed.

Lemma idx_set_group i gh g b : idx_ok i -> zlookup (rs_groups i) gh = Some g -> named gh b ->
  idx_ok (set_group gh (with_group_bits b g) i).
Proof.
  intros [H1 H2 H3 H4] Hg Hb. pose proof (zlookup_Some_range _ _ _ Hg) as R. split; cbn; auto.
  - unfold zinsert. rewrite list_fmap_insert. cbn. rewrite list_insert_id; [done|]. rewrite list_lookup_fmap.
    unfold zlookup in Hg. destruct (gh <? 0); [done|]. by rewrite Hg.
  - intros gh' g'. rewrite zlookup_zinsert by done. destruct (decide (gh = gh')) as [<-|]; [|apply H2].
    by intros [= <-].
Qed.

Section party_groups.
Context (i : nat) (A : nat -> mst -> Prop) (HA : party i A).

Lemma wp_group_mark {C} n gh bit (c : unit -> prog Sh C) Q x :
  named gh bit -> A (S n) x -> (forall y, A n y -> wp mguar i (c tt) Q y) ->
  wp mguar i (bind (on_index (ReadyGroup_mark gh bit)) c) Q x.
Proof.
  intros Hb Hx Hc. cbn. eapply (wp_spend i A HA); [exact Hx|]. intros s g H.
  pose proof (mo_index _ (pt_ok _ _ HA _ _ H)) as Hi. cbn [fst] in Hi. destruct Hb as [Hb (id & E & Hid & Nb)].
  destruct (idx_group (sh_index s) gh Hi) as (gr & Hgr & Hn & _); [by apply zlookup_Some_range in E|]. rewrite Hgr. cbn.
  split; [by split_and!|]. split; [|done]. eapply idx_set_group; [done|done|]. apply named_lor; [done|]. split; [done|]. eauto.
Qed.

(** [bits] was the word of the group when the credits left were [m]. *)
Definition observed (gh bits : Z) (m : nat) x : Prop :=
  (zlookup (words x.1) gh = Some bits /\ (sum_list (mg_credits x.2) <= m)%nat) \/ (sum_list (mg_credits x.2) < m)%nat.

Lemma observed_stable gh bits m : stable mguar i (observed gh bits m).
Proof.
  intros x y Hx (j & _ & _ & _ & _ & _ & [Hw|Hw] & Hs & _); [|right; destruct Hx as [[]|]; lia].
  destruct Hx as [[H1 H2]|H]; [|right; lia]. left. rewrite Hw. split; [done|lia].
Qed.

Lemma words_group s gh g : zlookup (rs_groups (sh_index s)) gh = Some g -> zlookup (words s) gh = Some (group_bits g).
Proof. unfold zlookup, words. destruct (gh <? 0); [done|]. intros E. by rewrite list_lookup_fmap, E. Qed.

(** How many exchanges do not fail spuriously. *)
Fixpoint sure (spurious : list bool) : nat :=
  match spurious with [] => O | false :: l => S (sure l) | true :: l => sure l end.

(** A page of the group [gh]. *)
Definition page_of (gh bit : Z) : Prop :=
  0 <= bit < 64 /\ exists id, zlookup ids gh = Some id /\ 0 <= id * PAGES_PER_GROUP + bit < Z.of_nat np.

Lemma first_page gh bits start :
  named gh bits -> bits <> 0 -> 0 <= start < 64 -> page_of gh (first_from bits start) /\ 0 <= first_from bits start.
Proof.
  intros [Hu (id & E & Hid & Hn)] Hne Hs. destruct (first_from_spec bits start Hu Hne Hs) as (H1 & H2 & _).
  split; [|lia]. split; [done|]. exists id. split; [done|]. specialize (Hn (first_from bits start) ltac:(lia) H2). unfold PAGES_PER_GROUP in *. lia.
Qed.

Lemma wp_take_loop n gh start spurious : forall bits m x,
  0 <= gh < zlength ids -> 0 <= start < 64 -> named gh bits -> A (S n) x -> observed gh bits m x -> (m < sure spurious)%nat ->
  wp mguar i (on_index (ReadyGroup_take_loop gh start bits spurious)) (fun o y =>
    match o with None => A (S n) y | Some bit => page_of gh bit /\ A n y end) x.
Proof.
  induction spurious as [|fails spurious IH]; intros bits m x Hgh Hst Hn Hx Ho Hm; cbn [ReadyGroup_take_loop];
    (destruct (Z.eqb_spec bits 0) as [->|Hne]; [by apply (wp_ret_party i A HA (S n))|]); [cbn in Hm; lia|].
  cbn [on_index lift bind on_group atomic].
  eapply (wp_act _ i (fun x => A (S n) x /\ observed gh bits m x)); [apply stable_and; [apply (pt_stable _ _ HA)|apply observed_stable]|done|].
  clear x Hx Ho. intros s g [H Ho]. pose proof (mo_index _ (pt_ok _ _ HA _ _ H)) as Hi. cbn [fst] in Hi.
  destruct (idx_group (sh_index s) gh Hi Hgh) as (gr & Hgr & Hgn & _). rewrite Hgr.
  destruct (negb fails && (group_bits gr =? bits)) eqn:Ec; cbn [fst snd].
  - destruct (first_page gh bits start Hn Hne Hst) as [Hp Hp0].
    destruct (spend_step i A HA n s (set_sh_index (set_group gh (with_group_bits (clear_bit bits (first_from bits start)) gr) (sh_index s)) s) g H)
      as (g' & Hg & Hy); [by split_and!|by apply idx_set_group, named_clear|].
    exists g'. split; [exact Hg|]. apply (wp_ret_party i A HA n); [exact Hy|]. auto.
  - rewrite (set_group_id _ _ _ Hgr). destruct (near_step i A HA (S n) s (set_sh_index (sh_index s) s) g H) as [Hg Hy]; [by split_and!|done|done|].
    exists g. split; [exact Hg|]. pose proof (words_group _ _ _ Hgr) as Ew. set (m' := if fails then m else pred m).
    assert (Hlost : fails = false -> (sum_list (mg_credits g) < m)%nat).
    { intros ->. destruct Ho as [[Hw _]|Hs]; [|exact Hs]. cbn [fst] in Hw. rewrite Ew in Hw. injection Hw as Hw.
      by rewrite Hw, Z.eqb_refl in Ec. }
    assert (Hle : (sum_list (mg_credits g) <= m)%nat) by (destruct Ho as [[_ Hs]|Hs]; cbn [snd] in Hs; lia).
    apply (IH (group_bits gr) m'); [done|done|done|exact Hy| |].
    + left. split; [exact Ew|]. cbn [snd]. subst m'. destruct fails; [done|]. specialize (Hlost eq_refl). lia.
    + subst m'. destruct fails; cbn [sure] in Hm; [done|]. specialize (Hlost eq_refl). lia.
Qed.

Lemma wp_take_one {C} n gh start weak (c : option Z -> prog Sh C) Q x :
  0 <= gh < zlength ids -> 0 <= start < 64 -> (budget < sure weak)%nat -> A (S n) x ->
  (forall o y, match o with None => A (S n) y | Some bit => page_of gh bit /\ A n y end -> wp mguar i (c o) Q y) ->
  wp mguar i (bind (on_index (ReadyGroup_take_one_from gh start weak)) c) Q x.
Proof.
  intros Hgh Hst Hw Hx Hc. eapply wp_call; [|exact Hc]. unfold ReadyGroup_take_one_from.
  destruct (Z.ltb_spec start PAGES_PER_GROUP); [|unfold PAGES_PER_GROUP in *; lia]. cbn [negb on_index lift bind on_group atomic].
  eapply (wp_act _ i _ _ _ _ _ (pt_stable _ _ HA (S n)) Hx). clear x Hx. intros s g Hx.
  pose proof (pt_ok _ _ HA _ _ Hx) as Hok. destruct (idx_group (sh_index s) gh (mo_index _ Hok) Hgh) as (gr & Hgr & Hgn & _).
  cbn [fst] in Hgr. rewrite Hgr. cbn [fst snd].
  rewrite (set_group_id _ _ _ Hgr). destruct (near_step i A HA (S n) s (set_sh_index (sh_index s) s) g Hx) as [Hg Hy]; [by split_and!|apply Hok|done|].
  exists g. split; [exact Hg|]. apply (wp_take_loop n gh start weak (group_bits gr) budget); [done|done|done|exact Hy| |done].
  left. split; [by apply words_group|]. apply Hok.
Qed.

End party_groups.

End conc.
