(* ===== verification/MpmcTokens.v ===== *)
(** * Lane tokens under every interleaving

    A receiver that holds a lane token owns the read side of the lane's ring;
    it may put the token back into the registry or into its page, retire the
    lane, and take a token out of either.  The values it pops are its own from
    the step that pops them. *)

From S2P Require Import Prelude Prog Config Wait Ready YRing YRingInv YRingSpec YRingThm YRingConc YRingClose Handoff Publication Work MpmcShared Mpmc MpmcConc.
Local Open Scope prog_scope.

Section tokens.
Context {T : Type} {CQ AS : Type -> Type} {HCQ : ConcurrentQueue CQ} {LCQ : ConcurrentQueueLaws CQ} {HAS : ArcSwap AS}.
Context (caps : list Z) (nr np : nat) (ids : list Z) (tp : ReadyTopology) (gen : Z) (budget : nat).
#[local] Abbreviation Sh := (Shared (T := T) (CQ := CQ) (AS := AS)).
#[local] Abbreviation Page := (LanePage (CQ := CQ)).
#[local] Abbreviation ns := (length caps).
#[local] Abbreviation ringst := (Ring T * ghost T)%type.
#[local] Abbreviation mst := (mst (T := T) (CQ := CQ) (AS := AS)).
#[local] Abbreviation view := (view (T := T) (CQ := CQ) (AS := AS) caps).
#[local] Abbreviation mok := (mok (T := T) (CQ := CQ) (AS := AS) caps nr np ids tp gen budget).
#[local] Abbreviation mguar := (mguar (T := T) (CQ := CQ) (AS := AS) caps nr np ids tp gen budget).
#[local] Abbreviation own := (own (T := T) (CQ := CQ) (AS := AS) caps nr np ids tp gen budget).
#[local] Abbreviation page_ok := (page_ok (T := T) (CQ := CQ) (AS := AS) caps np ids).
#[local] Abbreviation queued_ok := (queued_ok (T := T) (CQ := CQ) (AS := AS) caps).
#[local] Abbreviation has := (has (T := T) (CQ := CQ) (AS := AS) caps).
Implicit Types (s : Sh) (z : ringst) (L : list T) (x y : mst).

(** ** A step on a ring *)

Lemma queued_ok_other x y k p l :
  (forall j, j <> k -> view y j = view x j) -> key_slot (lane_key l) <> Z.of_nat k -> queued_ok x p l -> queued_ok y p l.
Proof.
  intros E Hk (j & cap & z & H1 & H2 & H3 & H4). exists j, cap, z. split_and!; auto. rewrite E; [done|]. congruence.
Qed.

Lemma concat_extend {A} (l : list (list A)) k a extra :
  l !! k = Some a -> concat (<[k := a ++ extra]> l) ≡ₚ concat l ++ extra.
Proof.
  intros H. apply (Permutation_app_inv_l a). rewrite (concat_insert l k a (a ++ extra) H). perm.
Qed.

(** The ring of lane [k] moves, its token does not; the values taken join what
    receivers hold. *)
Lemma mok_ring s g k cap hr lg r' g1 held' extra :
  mok (s, g) -> caps !! k = Some cap -> sh_rings s !! k = Some hr -> mg_lanes g !! k = Some lg ->
  ok cap 0 (r', g1) -> closed_ok (r', g1) -> (forall j, lg_place lg = Gone j -> ended (taken g1) (r', g1)) ->
  (lg_place lg = Idle \/ lg_place lg = Queued -> forall l, stored k l cap (hr_ring hr, lg_ring lg) -> stored k l cap (r', g1)) ->
  taken g1 = taken (lg_ring lg) ++ extra -> concat held' ≡ₚ concat (mg_held g) ++ extra -> length held' = length (mg_held g) ->
  mok (set_sh_rings (<[k := set_hr_ring r' hr]> (sh_rings s)) s, mkMG (<[k := mkLG g1 (lg_place lg)]> (mg_lanes g)) held' (mg_credits g)).
Proof.
  intros H Hk Hhr Hlg Hok Hcl Hg Hst Ht Hh Hl. set (y := (_, _)).
  destruct (view_insert caps (s, g) y k cap hr lg (set_hr_ring r' hr) (mkLG g1 (lg_place lg)) Hk Hhr Hlg eq_refl eq_refl) as [Vk Vj].
  cbn [hr_ring set_hr_ring lg_ring lg_place] in Vk.
  assert (Vx : view (s, g) k = Some (cap, (hr_ring hr, lg_ring lg), lg_place lg)) by (unfold view; cbn; by rewrite Hk, Hhr, Hlg).
  destruct H as [H1 H2 H3 H4 H5 H6 H7 H8 H9]; cbn [fst snd] in *. split.
  - cbn. rewrite !length_insert. destruct H1 as (L1 & L2 & L3 & L4 & L5 & L6). split_and!; auto. lia.
  - intros j cap' z pl. destruct (decide (j = k)) as [->|Hne]; [|rewrite Vj by done; apply H2].
    rewrite Vk. intros [= <- <- <-]. by split_and!.
  - cbn [fst y set_sh_rings sh_registry]. intros j slot v Hs. destruct (decide (j = k)) as [->|Hne]; [|rewrite Vj by done; by apply H3].
    rewrite Vk. intros [= <-]. destruct (H3 _ _ _ Hs Vx) as [G1 G2]. split; [done|]. intros l Hl'.
    destruct (G2 l Hl') as [Ei Hs']. split; [done|]. apply Hst; auto.
  - cbn [fst y set_sh_rings sh_pages]. intros p pg Hp. destruct (H4 p pg Hp) as (P1 & P2 & P3 & P4 & P5). split_and!; auto.
    eapply Forall_impl; [exact P5|]. intros l Hq. destruct (decide (key_slot (lane_key l) = Z.of_nat k)) as [E|E];
      [|by eapply queued_ok_other]. destruct Hq as (j & cap' & z & K1 & K2 & K3 & K4).
    assert (j = k) as -> by lia. rewrite Vx in K3. injection K3 as <- <- Epl. exists k, cap, (r', g1). rewrite Vk, Epl.
    split_and!; auto.
  - exact H5.
  - exact H6.
  - exact H7.
  - unfold gots, y in *. cbn in *. rewrite list_fmap_insert. cbn. rewrite Ht, Hh, concat_extend by by rewrite list_lookup_fmap, Hlg.
    rewrite <- H8. perm.
  - exact H9.
Qed.

(** ** The ring of a token *)

(** Receiver [i] besides the token it works with: its credits, its queue and
    its other tokens. *)
Definition rest (i n : nat) (e : bool) (K : list tok) (k : nat) x : Prop :=
  mok x /\ (e = true -> exists q, sh_queues x.1 !! qh i = Some q /\ q_values q = []) /\
  (exists c, mg_credits x.2 !! i = Some c /\ (n <= c)%nat) /\
  NoDup (k :: (tk <$> K)) /\ Forall (fun t => has i t x) K.

(** The token's ring satisfies [P], and [L] with what was taken since [got] is
    what the receiver holds. *)
Definition working (i n : nat) L (e : bool) (K : list tok) (k : nat) (pl : place) (got : list T) (P : Z -> ringst -> Prop) x : Prop :=
  rest i n e K k x /\ exists cap z extra L', view x k = Some (cap, z, pl) /\ mg_held x.2 !! i = Some L' /\
    taken z.2 = got ++ extra /\ L' ≡ₚ L ++ extra /\ P cap z.

Lemma own_rest i n L e K x k : own i n L e K x -> k ∉ (tk <$> K) -> rest i n e K k x.
Proof. intros (H1 & H2 & H3 & H4 & H5 & H6) Hk. split_and!; auto. by constructor. Qed.

Lemma working_stable i n L e K k pl got P :
  (i < nr)%nat -> owner pl = Some i -> (forall cap, stable (guarc cap) 1 (P cap)) -> stable mguar i (working i n L e K k pl got P).
Proof.
  intros Hi Hpl HP x y [Hr (cap & z & extra & L' & Hv & Hh & Ht & HL & Hp)] Hxy.
  assert (Ho : own i n L' e K x).
  { destruct Hr as (R1 & R2 & R3 & R4 & R5). apply NoDup_cons in R4 as [_ R4]. split_and!; eauto. }
  pose proof (own_stable _ _ _ _ _ _ _ i n L' e K Hi x y Ho Hxy) as Ho'. destruct Hr as (R1 & R2 & R3 & R4 & R5).
  split; [eapply own_rest; [exact Ho'|by apply NoDup_cons in R4 as []]|].
  destruct Hxy as (j & Hj & Hg & Hl & Hhe & _). destruct (view_is_Some _ _ _ _ _ _ _ y k Hg (view_lt _ _ _ _ Hv)) as (cap' & z' & pl' & Hv').
  destruct (Hl _ _ _ Hv Hv') as [-> Hs]. exists cap, z'. rewrite Hv', Hhe by congruence. destruct (decide (j < nr)%nat).
  - destruct Hs as [_ Hs]. destruct (Hs i Hpl) as [-> ->]; [congruence|]. eauto 10.
  - destruct Hs as [-> Hs]. destruct (decide _); [|subst z'; eauto 10]. exists extra, L'. split_and!; auto.
    + rewrite <- Ht. apply (taken_sender cap z z'); [apply (mo_ring _ _ _ _ _ _ _ _ R1 _ _ _ _ Hv)|done].
    + eapply HP; [exact Hp|]. exists 0%nat. by split.
Qed.

(** A step of the ring by the holder of its token. *)
Lemma working_step i n L e K k pl got P s g :
  (i < nr)%nat -> owner pl = Some i -> working i n L e K k pl got P (s, g) ->
  exists hr lg cap, sh_rings s !! k = Some hr /\ P cap (hr_ring hr, lg) /\ closed_ok (hr_ring hr, lg) /\
    forall r' g1 P', guarc cap 1 (hr_ring hr, lg) (r', g1) -> P' cap (r', g1) ->
      exists g', mguar i (s, g) (set_sh_rings (<[k := set_hr_ring r' hr]> (sh_rings s)) s, g') /\
        working i n L e K k pl got P' (set_sh_rings (<[k := set_hr_ring r' hr]> (sh_rings s)) s, g').
Proof.
  intros Hi Hpl [Hr (cap & z & extra & L' & Hv & Hh & Ht & HL & Hp)]. pose proof Hr as (Hm & R2 & R3 & R4 & R5).
  destruct (view_inv _ _ _ _ _ _ Hv) as (hr & lg & Hk & Hhr & Hlg & -> & ->). cbn [fst snd] in *.
  destruct (mo_ring _ _ _ _ _ _ _ _ Hm _ _ _ _ Hv) as (Ho & Hc & He).
  exists hr, (lg_ring lg), cap. split_and!; auto. intros r' g1 P' Hg HP'.
  destruct (taken_receiver cap (hr_ring hr, lg_ring lg) (r', g1) Ho Hg) as [more Emore]. cbn [snd] in Emore.
  set (s' := set_sh_rings _ s). set (g' := mkMG (<[k := mkLG g1 (lg_place lg)]> (mg_lanes g)) (<[i := L' ++ more]> (mg_held g)) (mg_credits g)).
  assert (Hm' : mok (s', g')).
  { apply (mok_ring s g k cap hr lg r' g1 _ more); auto.
    - destruct Hg as [Hg _]. apply Hg.
    - apply Hg.
    - intros j Hj. eapply (taken_ended cap (hr_ring hr, lg_ring lg) (r', g1) 1); [lia|done|done|by eapply He].
    - intros [E|E]; rewrite E in Hpl; done.
    - by apply concat_extend.
    - by rewrite length_insert. }
  destruct (view_insert caps (s, g) (s', g') k cap hr lg (set_hr_ring r' hr) (mkLG g1 (lg_place lg)) Hk Hhr Hlg eq_refl eq_refl) as [Vk Vj].
  cbn [hr_ring set_hr_ring lg_ring lg_place] in Vk.
  exists g'. split.
  - split; [done|]. split; [|split; [|split; [|by apply credit_step_refl]]].
    + intros j v v' H1 H2. destruct (decide (j = k)) as [->|Hne].
      * rewrite Hv in H1. rewrite Vk in H2. injection H1 as <-. injection H2 as <-. split; [done|]. rewrite decide_True by done.
        split; [done|]. intros j Hj. congruence.
      * eapply (lane_steps_view _ _ _ _ _ _ _ i (s, g)); [exact Hm| |exact H1|exact H2]. by apply Vj.
    + intros j Hj. cbn. by rewrite list_lookup_insert_ne.
    + intros j q _ _ Hq. exists q. done.
  - split.
    + split; [done|]. split; [done|]. split; [done|]. split; [done|]. apply Forall_forall. intros t Hin.
      rewrite Forall_forall in R5. destruct (R5 t Hin) as (c0 & z0 & got0 & V0 & T0). exists c0, z0, got0. split; [|done].
      rewrite Vj; [done|]. apply NoDup_cons in R4 as [R4 _]. intros <-. apply R4. by apply list_elem_of_fmap_2.
    + exists cap, (r', g1), (extra ++ more), (L' ++ more). split; [done|]. split.
      { cbn. apply list_lookup_insert_eq. by eapply lookup_lt_Some. }
      split; [|split; [|done]]. { cbn. rewrite Emore. cbn in Ht. by rewrite Ht, app_assoc. }
      rewrite HL. perm.
Qed.

(** Run an operation of ring [k] by the thread in role [r] on it: [W P] says
    that the thread may act on the ring, which satisfies [P]. *)
Lemma wp_role {A} i k r (W : (Z -> ringst -> Prop) -> mst -> Prop) (q : prog (Ring T) A) (Q : Z -> A -> ringst -> Prop) x :
  (forall P, (forall cap, stable (guarc cap) r (P cap)) -> stable mguar i (W P)) ->
  (forall (P P' : Z -> ringst -> Prop) x, (forall cap z, P cap z -> P' cap z) -> W P x -> W P' x) ->
  (forall P s g, W P (s, g) -> exists hr lg cap, sh_rings s !! k = Some hr /\ P cap (hr_ring hr, lg) /\
     forall r' g1 P', guarc cap r (hr_ring hr, lg) (r', g1) -> P' cap (r', g1) ->
       exists g', mguar i (s, g) (set_sh_rings (<[k := set_hr_ring r' hr]> (sh_rings s)) s, g') /\
         W P' (set_sh_rings (<[k := set_hr_ring r' hr]> (sh_rings s)) s, g')) ->
  W (fun cap => wp (guarc cap) r q (Q cap)) x ->
  wp mguar i (on_lane_ring (Z.of_nat k) (on_hring q)) (fun a => W (fun cap => Q cap a)) x.
Proof.
  intros HS HM Hstep. assert (Hst : forall q, stable mguar i (W (fun cap => wp (guarc cap) r q (Q cap)))).
  { intros q0. apply HS. intros cap u v Hu Huv. eapply wp_rely; [exact Hu|]. by apply rtc_once. }
  revert x. induction q as [a|R f c IH|er]; intros x Hx y Hy; pose proof (stable_rtc _ _ _ _ _ (Hst _) Hx Hy) as Hw.
  - eapply HM; [|exact Hw]. intros cap z Hz. apply (Hz z). constructor.
  - destruct y as [s g]. destruct (Hstep _ s g Hw) as (hr & lg & cap & Hhr & Hp & Hdo).
    destruct (Hp (hr_ring hr, lg)) as (g1 & Hg1 & Hk1); [constructor|]. cbn [fst snd] in *.
    rewrite zlookup_of_nat, Hhr. destruct (f (hr_ring hr)) as [v r'] eqn:Ef. cbn [fst snd] in *.
    destruct (Hdo r' g1 (fun cap => wp (guarc cap) r (c v) (Q cap)) Hg1 Hk1) as (g' & Hg & Hw').
    exists g'. cbn [fst snd]. rewrite zinsert_of_nat. split; [exact Hg|]. apply IH. exact Hw'.
  - destruct y as [s g]. destruct (Hstep _ s g Hw) as (hr & lg & cap & _ & Hp & _). destruct (Hp (hr_ring hr, lg)). constructor.
Qed.

(** Run a ring operation of the holder of a token. *)
Lemma wp_working {A} i n L e K k pl got (q : prog (Ring T) A) (Q : Z -> A -> ringst -> Prop) x :
  (i < nr)%nat -> owner pl = Some i ->
  working i n L e K k pl got (fun cap z => wp (guarc cap) 1 q (Q cap) z) x ->
  wp mguar i (on_lane_ring (Z.of_nat k) (on_hring q)) (fun a => working i n L e K k pl got (fun cap z => Q cap a z)) x.
Proof.
  intros Hi Hpl. apply (wp_role i k 1 (working i n L e K k pl got)).
  - intros P HP. by apply working_stable.
  - intros P P' y HP [Hr (cap & z & extra & L' & H1 & H2 & H3 & H4 & H5)]. split; [done|]. exists cap, z, extra, L'. split_and!; auto.
  - intros P s g Hw. destruct (working_step i n L e K k pl got P s g Hi Hpl Hw) as (hr & lg & cap & H1 & H2 & _ & H3). eauto 10.
Qed.

Lemma owner_tok i t : owner (tok_place i t) = Some i.
Proof. unfold tok_place. by destruct (ts t). Qed.

(** An operation of the token's ring: from token [t] to token [tf a], taking
    the values [vs a]. *)
Lemma wp_tok_ring {A C} i n L e t K (q : prog (Ring T) A) (tf : A -> tok) (vs : A -> list T) (P : A -> Prop) (c : A -> prog Sh C) Q x :
  (i < nr)%nat -> own i n L e (t :: K) x ->
  (forall a, tk (tf a) = tk t /\ tok_place i (tf a) = tok_place i t) ->
  (forall cap z got, closed_ok z -> ring_tok t cap z got ->
     wp (guarc cap) 1 q (fun a z => ring_tok (tf a) cap z (got ++ vs a) /\ P a) z) ->
  (forall a y, own i n (L ++ vs a) e (tf a :: K) y -> P a -> wp mguar i (c a) Q y) ->
  wp mguar i (bind (on_lane_ring (Z.of_nat (tk t)) (on_hring q)) c) Q x.
Proof.
  intros Hi Hx Htf Hq Hc. pose proof Hx as (Hm & (L' & Hh & HL) & He & Hcr & HN & HF).
  apply NoDup_cons in HN as [HN1 HN2]. apply Forall_cons in HF as [(cap & z & got & Hv & Ht) HF].
  destruct (mo_ring _ _ _ _ _ _ _ _ Hm _ _ _ _ Hv) as (_ & Hcl & _). pose proof (ring_tok_got _ _ _ _ Ht) as Eg.
  eapply wp_call; [eapply (wp_working i n L e K (tk t) (tok_place i t) got q (fun cap a z => ring_tok (tf a) cap z (got ++ vs a) /\ P a)); [done|apply owner_tok|]|].
  - split; [split_and!; auto; by constructor|]. exists cap, z, [], L'. rewrite !app_nil_r. split_and!; auto.
  - intros a y [(R1 & R2 & R3 & R4 & R5) (cap' & z' & extra & L2 & H1 & H2 & H3 & H4 & H5 & H6)]. apply Hc; [|done].
    pose proof (ring_tok_got _ _ _ _ H5) as Eg'. rewrite <- Eg' in H3. apply app_inv_head in H3. subst extra.
    destruct (Htf a) as [E1 E2]. split_and!; auto.
    + exists L2. auto.
    + rewrite fmap_cons, E1. done.
    + constructor; [|done]. exists cap', z', (got ++ vs a). rewrite E1, E2. auto.
Qed.

(** ** Moving a token *)

Definition moved s g (k : nat) (lg : lghost (T := T)) (pl' : place) (reg' : Registry) (pages' : list Page) : mst :=
  (set_sh_registry reg' (set_sh_pages pages' s), mkMG (<[k := mkLG (lg_ring lg) pl']> (mg_lanes g)) (mg_held g) (mg_credits g)).

(** The items of a page after the token of lane [k] moved to [pl']. *)
Definition page_moved s (k : nat) (cap : Z) z (pl' : place) (p : nat) (pg' : Page) : Prop :=
  exists pg, sh_pages s !! p = Some pg /\ lp_ready pg' = lp_ready pg /\ lp_work_group pg' = lp_work_group pg /\
    lp_work_bit pg' = lp_work_bit pg /\ cq_limit (lp_lanes pg') = cq_limit (lp_lanes pg) /\
    NoDup ((fun l => key_slot (lane_key l)) <$> cq_items (lp_lanes pg')) /\
    Forall (fun l => (l ∈ cq_items (lp_lanes pg) /\ key_slot (lane_key l) <> Z.of_nat k) \/
      (pl' = Queued /\ key_slot (lane_key l) = Z.of_nat k /\ Z.of_nat k / LANES_PER_PAGE = Z.of_nat p /\ stored k l cap z))
      (cq_items (lp_lanes pg')).

(** What a move may do to the registry and the pages. *)
Record move_ok s g (i k : nat) (cap : Z) (hr : HRing T) (lg : lghost) (pl' : place) (reg' : Registry) (pages' : list Page) : Prop := {
  mv_lane : caps !! k = Some cap /\ sh_rings s !! k = Some hr /\ mg_lanes g !! k = Some lg;
  mv_owner : forall j, owner (lg_place lg) = Some j -> j = i;
  mv_lens : length (reg_slots reg') = ns /\ length pages' = np /\ reg_pages reg' = reg_pages (sh_registry s);
  mv_gone : forall j, pl' = Gone j -> ended (taken (lg_ring lg)) (hr_ring hr, lg_ring lg);
  mv_slots : forall j slot, reg_slots reg' !! j = Some slot -> j <> k -> reg_slots (sh_registry s) !! j = Some slot;
  mv_slot : forall slot, reg_slots reg' !! k = Some slot -> slot_ok k slot (cap, (hr_ring hr, lg_ring lg), pl');
  mv_pages : forall p pg', pages' !! p = Some pg' -> page_moved s k cap (hr_ring hr, lg_ring lg) pl' p pg'
}.

Lemma move_view s g i k cap hr lg pl' reg' pages' :
  move_ok s g i k cap hr lg pl' reg' pages' ->
  view (moved s g k lg pl' reg' pages') k = Some (cap, (hr_ring hr, lg_ring lg), pl') /\
  forall j, j <> k -> view (moved s g k lg pl' reg' pages') j = view (s, g) j.
Proof.
  intros H. destruct (mv_lane _ _ _ _ _ _ _ _ _ _ H) as (H1 & H2 & H3).
  apply (view_insert caps (s, g) (moved s g k lg pl' reg' pages') k cap hr lg hr (mkLG (lg_ring lg) pl')); auto.
  cbn. by rewrite list_insert_id.
Qed.

Lemma mok_move s g i k cap hr lg pl' reg' pages' :
  mok (s, g) -> move_ok s g i k cap hr lg pl' reg' pages' -> mok (moved s g k lg pl' reg' pages').
Proof.
  intros H Hmv. destruct (move_view _ _ _ _ _ _ _ _ _ _ Hmv) as [Vk Vj]. destruct Hmv as [(M1 & M2 & M3) _ (M4 & M5 & M6) M7 M8 M9 M10].
  assert (Vx : view (s, g) k = Some (cap, (hr_ring hr, lg_ring lg), lg_place lg)) by (unfold view; cbn; by rewrite M1, M2, M3).
  destruct H as [H1 H2 H3 H4 H5 H6 H7 H8 H9]; cbn [fst snd] in *. split.
  - cbn. rewrite length_insert. destruct H1 as (L1 & L2 & L3 & L4 & L5 & L6). by split_and!.
  - intros j c z pl. destruct (decide (j = k)) as [->|Hne]; [|rewrite Vj by done; apply H2].
    rewrite Vk. intros [= <- <- <-]. destruct (H2 _ _ _ _ Vx) as (O1 & O2 & _). by split_and!.
  - cbn [fst moved set_sh_registry sh_registry]. intros j slot v Hs. destruct (decide (j = k)) as [->|Hne].
    + rewrite Vk. intros [= <-]. by apply M9.
    + rewrite Vj by done. apply H3. by apply M8.
  - cbn [fst moved set_sh_registry sh_pages set_sh_pages]. intros p pg' Hp. destruct (M10 p pg' Hp) as (pg & P1 & P2 & P3 & P4 & P5 & P6 & P7).
    destruct (H4 p pg P1) as (Q1 & Q2 & Q3 & Q4 & Q5). unfold page_ok. rewrite P2, P3, P4, P5. split_and!; auto.
    eapply Forall_impl; [exact P7|]. intros l [[Hin Hne]|(-> & K2 & K3 & K4)].
    + rewrite Forall_forall in Q5. eapply queued_ok_other; [exact Vj|done|]. by apply Q5.
    + exists k, cap, (hr_ring hr, lg_ring lg). by split_and!.
  - exact H5.
  - unfold fixed in *. cbn. rewrite M6. exact H6.
  - exact H7.
  - unfold gots in *. cbn in *. rewrite list_fmap_insert. cbn. rewrite list_insert_id; [done|]. by rewrite list_lookup_fmap, M3.
  - exact H9.
Qed.

Lemma mguar_move s g i k cap hr lg pl' reg' pages' :
  (i < nr)%nat -> mok (s, g) -> move_ok s g i k cap hr lg pl' reg' pages' -> mguar i (s, g) (moved s g k lg pl' reg' pages').
Proof.
  intros Hi H Hmv. pose proof (mok_move _ _ _ _ _ _ _ _ _ _ H Hmv) as Hm. destruct (move_view _ _ _ _ _ _ _ _ _ _ Hmv) as [Vk Vj].
  destruct (mv_lane _ _ _ _ _ _ _ _ _ _ Hmv) as (M1 & M2 & M3).
  assert (Vx : view (s, g) k = Some (cap, (hr_ring hr, lg_ring lg), lg_place lg)) by (unfold view; cbn; by rewrite M1, M2, M3).
  split; [done|]. split; [|split; [done|split; [|by apply credit_step_refl]]].
  - intros j v v' H1 H2. destruct (decide (j = k)) as [->|Hne].
    + rewrite Vx in H1. rewrite Vk in H2. injection H1 as <-. injection H2 as <-. split; [done|]. rewrite decide_True by done.
      destruct (mo_ring _ _ _ _ _ _ _ _ H _ _ _ _ Vx) as (O1 & O2 & _). split; [apply guarc_refl; [lia|done..]|].
      intros j Hj Hne. by apply (mv_owner _ _ _ _ _ _ _ _ _ _ Hmv) in Hj.
    + eapply (lane_steps_view _ _ _ _ _ _ _ i (s, g)); [exact H| |exact H1|exact H2]. by apply Vj.
  - intros j q _ _ Hq. exists q. done.
Qed.

Lemma own_move i n L e K K' s g k cap hr lg pl' reg' pages' :
  own i n L e K (s, g) -> move_ok s g i k cap hr lg pl' reg' pages' -> NoDup (tk <$> K') ->
  Forall (fun t => (tk t <> k /\ t ∈ K) \/
    (tk t = k /\ tok_place i t = pl' /\ exists got, ring_tok t cap (hr_ring hr, lg_ring lg) got)) K' ->
  own i n L e K' (moved s g k lg pl' reg' pages').
Proof.
  intros (H1 & H2 & H3 & H4 & H5 & H6) Hmv HN HK. destruct (move_view _ _ _ _ _ _ _ _ _ _ Hmv) as [Vk Vj].
  split; [by eapply mok_move|]. split; [done|]. split; [done|]. split; [done|]. split; [done|].
  eapply Forall_impl; [exact HK|]. intros t [[Hne Hin]|(E1 & E2 & got & Ht)].
  - rewrite Forall_forall in H6. destruct (H6 t Hin) as (c & z & got & V & Ht). exists c, z, got. by rewrite Vj.
  - exists cap, (hr_ring hr, lg_ring lg), got. by rewrite E1, E2.
Qed.

(** The tokens of a receiver are not where others can find them. *)
Lemma own_not_here i n L e K x k cap z pl :
  own i n L e K x -> view x k = Some (cap, z, pl) -> owner pl <> Some i -> k ∉ (tk <$> K).
Proof.
  intros (_ & _ & _ & _ & _ & HF) Hv Ho (t & -> & Hin)%list_elem_of_fmap. rewrite Forall_forall in HF.
  destruct (HF t Hin) as (c & z' & got & V & _). rewrite V in Hv. injection Hv as _ _ <-. by rewrite owner_tok in Ho.
Qed.

(** Pages that a move of a token that was not queued leaves alone. *)
Lemma pages_kept s g k cap z pl pl' p pg :
  mok (s, g) -> view (s, g) k = Some (cap, z, pl) -> pl <> Queued -> sh_pages s !! p = Some pg -> page_moved s k cap z pl' p pg.
Proof.
  intros H Hv Hq Hp. destruct (mo_page _ _ _ _ _ _ _ _ H p pg Hp) as (Q1 & Q2 & Q3 & Q4 & Q5).
  exists pg. split_and!; auto. apply Forall_forall. intros l Hin. left. split; [done|]. intros E.
  rewrite Forall_forall in Q5. destruct (Q5 l Hin) as (j & c & z' & K1 & _ & K3 & _). assert (j = k) as -> by lia. congruence.
Qed.

(** ** The registry *)

Lemma moved_registry s g k lg pl' reg' :
  moved s g k lg pl' reg' (sh_pages s) =
    (set_sh_registry reg' s, mkMG (<[k := mkLG (lg_ring lg) pl']> (mg_lanes g)) (mg_held g) (mg_credits g)).
Proof. unfold moved. by destruct s. Qed.

Lemma moved_pages s g k lg pl' pages' :
  moved s g k lg pl' (sh_registry s) pages' =
    (set_sh_pages pages' s, mkMG (<[k := mkLG (lg_ring lg) pl']> (mg_lanes g)) (mg_held g) (mg_credits g)).
Proof. unfold moved. by destruct s. Qed.

(** An access to the registry by a receiver. *)
Lemma wp_registry {A C} i n L e K (f : Registry -> outcome (A * Registry)) (c : A -> prog Sh C) Q x :
  (i < nr)%nat -> own i n L e K x ->
  (forall s g, own i n L e K (s, g) -> exists a reg' g', f (sh_registry s) = Done (a, reg') /\
     mguar i (s, g) (set_sh_registry reg' s, g') /\ wp mguar i (c a) Q (set_sh_registry reg' s, g')) ->
  wp mguar i (bind (on_registry f) c) Q x.
Proof.
  intros Hi Hx Hf. unfold on_registry. cbn [bind atomic].
  eapply (wp_act _ i _ _ _ _ _ (own_stable _ _ _ _ _ _ _ i n L e K Hi) Hx). intros s g H.
  destruct (Hf s g H) as (a & reg' & g' & Ef & Hg & Hw). rewrite Ef. exists g'. auto.
Qed.

Lemma slot_view s g k slot : mok (s, g) -> reg_slots (sh_registry s) !! k = Some slot ->
  exists cap hr lg, caps !! k = Some cap /\ sh_rings s !! k = Some hr /\ mg_lanes g !! k = Some lg /\
    view (s, g) k = Some (cap, (hr_ring hr, lg_ring lg), lg_place lg) /\ slot_ok k slot (cap, (hr_ring hr, lg_ring lg), lg_place lg).
Proof.
  intros H Hs. pose proof (lookup_lt_Some _ _ _ Hs) as Hlt. destruct (mo_lens _ _ _ _ _ _ _ _ H) as (_ & _ & L3 & _). cbn [fst] in L3.
  destruct (view_is_Some _ _ _ _ _ _ _ (s, g) k H) as (cap & z & pl & Hv); [lia|]. destruct (view_inv _ _ _ _ _ _ Hv) as (hr & lg & E1 & E2 & E3 & -> & ->).
  exists cap, hr, lg. split_and!; auto. by apply (mo_slot _ _ _ _ _ _ _ _ H _ _ _ Hs Hv).
Qed.

(** A change of slot [k] that moves the token of lane [k]. *)
Lemma slot_move s g i k slot slot' free cap hr lg pl' :
  mok (s, g) -> reg_slots (sh_registry s) !! k = Some slot -> caps !! k = Some cap -> sh_rings s !! k = Some hr -> mg_lanes g !! k = Some lg ->
  lg_place lg <> Queued -> (forall j, owner (lg_place lg) = Some j -> j = i) ->
  (forall j, pl' = Gone j -> ended (taken (lg_ring lg)) (hr_ring hr, lg_ring lg)) ->
  slot_ok k slot' (cap, (hr_ring hr, lg_ring lg), pl') ->
  move_ok s g i k cap hr lg pl' (set_free free (set_slots (<[k := slot']> (reg_slots (sh_registry s))) (sh_registry s))) (sh_pages s).
Proof.
  intros H Hs E1 E2 E3 Hq Ho Hg Hok. pose proof (lookup_lt_Some _ _ _ Hs) as Hlt.
  destruct (mo_lens _ _ _ _ _ _ _ _ H) as (_ & _ & L3 & L4 & _). cbn [fst snd] in *.
  assert (Hv : view (s, g) k = Some (cap, (hr_ring hr, lg_ring lg), lg_place lg)) by (unfold view; cbn; by rewrite E1, E2, E3).
  split; auto; cbn.
  - by rewrite length_insert.
  - intros j sl Hj Hne. by rewrite list_lookup_insert_ne in Hj.
  - intros sl Hj. rewrite list_lookup_insert_eq in Hj by done. by injection Hj as <-.
  - intros p pg Hp. by eapply pages_kept.
Qed.

(** The accesses of [take_ready_lane] to slot [slot_index]: taking the lane
    out, and putting it back. *)
Lemma wp_page_slot_take {C} i n L e K idx (c : option Lane -> prog Sh C) Q x :
  (i < nr)%nat -> 0 <= idx -> own i n L e K x ->
  (forall y, own i n L e K y -> wp mguar i (c None) Q y) ->
  (forall k l y, idx = Z.of_nat k -> own i n L e (mkTok k l (cached_available l) Holding :: K) y -> wp mguar i (c (Some l)) Q y) ->
  wp mguar i (bind (on_registry (fun reg =>
    match zlookup (reg_slots reg) idx with
    | None => Done (None, reg)
    | Some slot => Done (slot_lane slot, set_slots (zinsert (reg_slots reg) idx (mkSlot (slot_generation slot) None)) reg)
    end)) c) Q x.
Proof.
  intros Hi Hidx Hx Hn Hs. eapply wp_registry; [done|exact Hx|]. clear x Hx. intros s g H. pose proof H as (Hm & _).
  assert (Hsame : forall a reg', reg' = sh_registry s -> (forall y, own i n L e K y -> wp mguar i (c a) Q y) ->
    exists g', mguar i (s, g) (set_sh_registry reg' s, g') /\ wp mguar i (c a) Q (set_sh_registry reg' s, g')).
  { intros a reg' -> Hc. destruct (near_step _ _ _ _ _ _ _ i _ (own_party _ _ _ _ _ _ _ i L e K Hi) n s (set_sh_registry (sh_registry s) s) g H) as [Hg Hy];
      [by split_and!|apply (mo_index _ _ _ _ _ _ _ _ Hm)|done|]. eauto. }
  replace idx with (Z.of_nat (Z.to_nat idx)) in * by lia. set (k := Z.to_nat idx) in *. rewrite zlookup_of_nat.
  destruct (reg_slots (sh_registry s) !! k) as [slot|] eqn:Es.
  2:{ destruct (Hsame None _ eq_refl Hn) as (g' & Hg & Hw). eauto 10. }
  rewrite zinsert_of_nat. destruct (slot_view s g k slot Hm Es) as (cap & hr & lg & E1 & E2 & E3 & Hv & Hok).
  destruct slot as [sgen [l|]]; cbn [slot_lane slot_generation] in *.
  - destruct Hok as [Hgen Hl]. destruct (Hl l eq_refl) as [Hidle Hst]. set (slot' := mkSlot sgen None).
    set (reg' := set_slots _ _). assert (Er : reg' = set_free (reg_free (sh_registry s)) reg') by by destruct (sh_registry s).
    assert (Hmv : move_ok s g i k cap hr lg (With i) reg' (sh_pages s)).
    { rewrite Er. apply (slot_move s g i k (mkSlot sgen (Some l))); [done..|by rewrite Hidle|by rewrite Hidle|done|].
      split; [|done]. intros _. apply Hgen. by rewrite Hidle. }
    pose proof (mguar_move _ _ _ _ _ _ _ _ _ _ Hi Hm Hmv) as Hg. rewrite moved_registry in Hg.
    eexists (Some l), reg', _. split; [done|]. split; [exact Hg|]. apply (Hs k l); [done|]. rewrite <- moved_registry.
    pose proof (own_not_here i n L e K _ _ _ _ _ H Hv ltac:(by rewrite Hidle)) as Hnk. pose proof H as (_ & _ & _ & _ & HN & _).
    eapply own_move; [exact H|exact Hmv|by constructor|]. constructor.
    + right. split; [done|]. split; [done|]. exact Hst.
    + apply Forall_forall. intros t Hin. left. split; [|done]. intros <-. apply Hnk. by apply list_elem_of_fmap_2.
  - destruct (Hsame None (set_slots (<[k := mkSlot sgen None]> (reg_slots (sh_registry s))) (sh_registry s))) as (g' & Hg & Hw); [|exact Hn|eauto 10].
    rewrite list_insert_id by done. by destruct (sh_registry s).
Qed.

(** The slot of a token in somebody's hands is vacant. *)
Lemma tok_slot i n L e t K s g :
  own i n L e (t :: K) (s, g) -> ts t <> Retired ->
  exists cap hr lg got, reg_slots (sh_registry s) !! tk t = Some (mkSlot 0 None) /\ caps !! tk t = Some cap /\
    sh_rings s !! tk t = Some hr /\ mg_lanes g !! tk t = Some lg /\ lg_place lg = With i /\
    view (s, g) (tk t) = Some (cap, (hr_ring hr, lg_ring lg), lg_place lg) /\ ring_tok t cap (hr_ring hr, lg_ring lg) got.
Proof.
  intros (Hm & _ & _ & _ & _ & HF) Hs. apply Forall_cons in HF as [(cap & z & got & Hv & Ht) _].
  destruct (view_inv _ _ _ _ _ _ Hv) as (hr & lg & E1 & E2 & E3 & -> & Epl).
  assert (Ew : lg_place lg = With i) by (rewrite <- Epl; unfold tok_place; by destruct (ts t)).
  destruct (mo_lens _ _ _ _ _ _ _ _ Hm) as (_ & _ & L3 & _). cbn [fst] in L3.
  destruct (lookup_lt_is_Some_2 (reg_slots (sh_registry s)) (tk t)) as [slot Hsl]; [apply view_lt in Hv; lia|].
  destruct (mo_slot _ _ _ _ _ _ _ _ Hm _ _ _ Hsl Hv) as [G1 G2]. rewrite Epl, Ew in G1, G2.
  exists cap, hr, lg, got. rewrite <- Epl. split_and!; auto; [|congruence]. destruct slot as [sgen [l|]]; cbn in *.
  - by destruct (G2 l eq_refl).
  - rewrite Hsl, G1 by done. done.
Qed.

Lemma own_tail i n L e t K s g cap hr lg pl' reg' pages' :
  own i n L e (t :: K) (s, g) -> move_ok s g i (tk t) cap hr lg pl' reg' pages' -> own i n L e K (moved s g (tk t) lg pl' reg' pages').
Proof.
  intros H Hmv. pose proof H as (_ & _ & _ & _ & HN & _). apply NoDup_cons in HN as [HN1 HN2].
  eapply own_move; [exact H|exact Hmv|done|]. apply Forall_forall. intros u Hin. left. split; [|by right].
  intros E. apply HN1. rewrite <- E. by apply list_elem_of_fmap_2.
Qed.

Lemma tok_unretired t cap z got l : ring_tok t cap z got -> l = tl t -> ta t = cached_available l -> stored (tk t) l cap z.
Proof. intros (H1 & H2 & H3 & H4 & H5) -> E. exists got. rewrite <- E. by split_and!. Qed.

(** Putting a token into its slot. *)
Lemma slot_put i n L e t K s g :
  (i < nr)%nat -> own i n L e (t :: K) (s, g) -> ts t <> Retired -> ta t = cached_available (tl t) ->
  reg_slots (sh_registry s) !! tk t = Some (mkSlot 0 None) /\
  exists g', let s' := set_sh_registry (set_slots (<[tk t := mkSlot 0 (Some (tl t))]> (reg_slots (sh_registry s))) (sh_registry s)) s in
    mguar i (s, g) (s', g') /\ own i n L e K (s', g').
Proof.
  intros Hi H Hs Ha. destruct (tok_slot i n L e t K s g H Hs) as (cap & hr & lg & got & Hsl & E1 & E2 & E3 & Ew & Hv & Ht).
  split; [done|]. set (reg' := set_slots _ _). pose proof H as (Hm & _).
  assert (Er : reg' = set_free (reg_free (sh_registry s)) reg') by by destruct (sh_registry s).
  assert (Hmv : move_ok s g i (tk t) cap hr lg Idle reg' (sh_pages s)).
  { rewrite Er. apply (slot_move s g i (tk t) (mkSlot 0 None)); [done..|by rewrite Ew|rewrite Ew; by intros j [= <-]|done|].
    split; [done|]. cbn. intros l [= <-]. split; [done|]. by eapply tok_unretired. }
  pose proof (mguar_move _ _ _ _ _ _ _ _ _ _ Hi Hm Hmv) as Hg. pose proof (own_tail _ _ _ _ _ _ _ _ _ _ _ _ _ _ H Hmv) as Ho.
  rewrite moved_registry in Hg, Ho. eauto.
Qed.

(** The write of [take_ready_lane] that puts a lane back. *)
Lemma wp_slot_back {C} i n L e t K idx (c : unit -> prog Sh C) Q x :
  (i < nr)%nat -> idx = Z.of_nat (tk t) -> ts t = Holding -> ta t = cached_available (tl t) -> own i n L e (t :: K) x ->
  (forall y, own i n L e K y -> wp mguar i (c tt) Q y) ->
  wp mguar i (bind (on_registry (fun reg =>
    match zlookup (reg_slots reg) idx with
    | None => Fault (Panic "index out of bounds")
    | Some slot => Done (tt, set_slots (zinsert (reg_slots reg) idx (mkSlot (slot_generation slot) (Some (tl t)))) reg)
    end)) c) Q x.
Proof.
  intros Hi -> Hs Ha Hx Hc. eapply wp_registry; [done|exact Hx|]. intros s g H.
  destruct (slot_put i n L e t K s g Hi H) as (Hsl & g' & Hg & Ho); [by rewrite Hs|done|].
  rewrite zlookup_of_nat, Hsl, zinsert_of_nat. cbn [slot_generation]. eauto 10.
Qed.

Lemma wp_install {C} i n L e t K (c : unit -> prog Sh C) Q x :
  (i < nr)%nat -> ts t <> Retired -> ta t = cached_available (tl t) -> own i n L e (t :: K) x ->
  (forall y, own i n L e K y -> wp mguar i (c tt) Q y) ->
  wp mguar i (bind (on_registry (fun reg => match Registry_install_lane (tl t) reg with
                                            | Done reg => Done (tt, reg) | Fault er => Fault er end)) c) Q x.
Proof.
  intros Hi Hs Ha Hx Hc. eapply wp_registry; [done|exact Hx|]. intros s g H.
  destruct (slot_put i n L e t K s g Hi H Hs Ha) as (Hsl & g' & Hg & Ho).
  destruct (tok_slot i n L e t K s g H Hs) as (cap & hr & lg & got & _ & _ & _ & _ & _ & _ & Hk & _).
  unfold Registry_install_lane. rewrite Hk. cbn [key_slot key_generation]. rewrite zlookup_of_nat, Hsl, zinsert_of_nat. cbn. eauto 10.
Qed.

(** The token of a retired lane stays with the receiver that retires it. *)
Definition retired (t : tok) : tok := mkTok (tk t) (tl t) (ta t) Retired.

Lemma wp_retire {C} i n L e t K (c : unit -> prog Sh C) Q x :
  (i < nr)%nat -> ts t = Ended -> own i n L e (t :: K) x ->
  (forall y, own i n L e (retired t :: K) y -> wp mguar i (c tt) Q y) ->
  wp mguar i (bind (on_registry (fun reg => match Registry_retire_lane (lane_key (tl t)) reg with
                                            | Done reg => Done (tt, reg) | Fault er => Fault er end)) c) Q x.
Proof.
  intros Hi Hs Hx Hc. eapply wp_registry; [done|exact Hx|]. intros s g H. pose proof H as (Hm & _ & _ & _ & HN & _).
  destruct (tok_slot i n L e t K s g H ltac:(by rewrite Hs)) as (cap & hr & lg & got & Hsl & E1 & E2 & E3 & Ew & Hv & Ht).
  pose proof Ht as (Hk & K2 & K3 & He & K5). unfold Registry_retire_lane. rewrite Hk. cbn [key_slot key_generation].
  rewrite zlookup_of_nat, Hsl, zinsert_of_nat. cbn [slot_generation slot_lane].
  set (reg' := set_free _ _). assert (Hmv : move_ok s g i (tk t) cap hr lg (Gone i) reg' (sh_pages s)).
  { apply (slot_move s g i (tk t) (mkSlot 0 None)); [done..|by rewrite Ew|rewrite Ew; by intros j [= <-]| |].
    - intros j _. replace (taken (lg_ring lg)) with got by (by apply ring_tok_got in Ht). apply He. by rewrite Hs.
    - split; [|done]. intros Hg. by destruct (Hg i). }
  pose proof (mguar_move _ _ _ _ _ _ _ _ _ _ Hi Hm Hmv) as Hg. rewrite moved_registry in Hg.
  eexists tt, reg', _. split; [done|]. split; [exact Hg|]. apply Hc. rewrite <- moved_registry.
  apply NoDup_cons in HN as [HN1 HN2]. eapply own_move; [exact H|exact Hmv|by constructor|]. constructor.
  - right. split; [done|]. split; [done|]. exists got. split_and!; auto. intros _. apply He. by rewrite Hs.
  - apply Forall_forall. intros u Hin. left. split; [|by right]. intros E. apply HN1. rewrite <- E. by apply list_elem_of_fmap_2.
Qed.

(** ** Lane pages *)

Definition with_lanes (pg : Page) (q : CQ Lane) : Page := mkLanePage (lp_ready pg) (lp_work_group pg) (lp_work_bit pg) q.

(** One access to the queue of page [p]. *)
Lemma wp_page_access {R C} i n L e K p (f : CQ Lane -> R * CQ Lane) (c : R * Page -> prog Sh C) Q x :
  (i < nr)%nat -> (p < np)%nat -> own i n L e K x ->
  (forall s g pg, own i n L e K (s, g) -> sh_pages s !! p = Some pg ->
     exists g', let s' := set_sh_pages (<[p := with_lanes pg (f (lp_lanes pg)).2]> (sh_pages s)) s in
       mguar i (s, g) (s', g') /\ wp mguar i (c ((f (lp_lanes pg)).1, pg)) Q (s', g')) ->
  wp mguar i (bind (on_page_queue (Z.of_nat p) f) c) Q x.
Proof.
  intros Hi Hp Hx Hf. unfold on_page_queue, atomic. cbn [focus bind].
  eapply (wp_act _ i _ _ _ _ _ (own_stable _ _ _ _ _ _ _ i n L e K Hi) Hx). intros s g H. pose proof H as (Hm & _).
  destruct (mo_lens _ _ _ _ _ _ _ _ Hm) as (_ & _ & _ & L4 & _). cbn [fst] in L4.
  destruct (lookup_lt_is_Some_2 (sh_pages s) p) as [pg Hpg]; [lia|]. rewrite zlookup_of_nat, Hpg.
  destruct (Hf s g pg H Hpg) as (g' & Hg & Hw). destruct (f (lp_lanes pg)) as [r q]. cbn [fst snd] in *.
  rewrite zinsert_of_nat. exists g'. auto.
Qed.

(** An access that leaves the tokens of the page as they are. *)
Lemma page_read i n L e K s g p pg q :
  (i < nr)%nat -> own i n L e K (s, g) -> sh_pages s !! p = Some pg ->
  cq_items q = cq_items (lp_lanes pg) -> cq_limit q = cq_limit (lp_lanes pg) ->
  let s' := set_sh_pages (<[p := with_lanes pg q]> (sh_pages s)) s in mguar i (s, g) (s', g) /\ own i n L e K (s', g).
Proof.
  intros Hi H Hpg E1 E2 s'. pose proof H as (Hm & H2 & H3 & H4 & H5 & H6). pose proof (lookup_lt_Some _ _ _ Hpg) as Hlt.
  assert (Ev : forall k, view (s', g) k = view (s, g) k) by by apply view_ext.
  assert (Hm' : mok (s', g)).
  { destruct Hm as [M1 M2 M3 M4 M5 M6 M7 M8 M9]. split; auto.
    - subst s'. cbn in *. by rewrite length_insert.
    - cbn [fst s' set_sh_pages sh_pages]. intros j pg' Hj. destruct (decide (p = j)) as [<-|Hne].
      + rewrite list_lookup_insert_eq in Hj by done. injection Hj as <-. destruct (M4 p pg Hpg) as (P1 & P2 & P3 & P4 & P5).
        unfold page_ok. cbn. rewrite E1, E2. by split_and!.
      + rewrite list_lookup_insert_ne in Hj by done. by apply M4. }
  split; [|by split_and!]. split; [done|]. split; [|split; [done|split; [|by apply credit_step_refl]]].
  - intros k v v' V1 V2. eapply (lane_steps_view _ _ _ _ _ _ _ i (s, g)); [exact Hm| |exact V1|exact V2]. apply Ev.
  - intros j q0 _ _ Hq. exists q0. done.
Qed.

Lemma wp_page_empty {C} i n L e K p (c : bool * Page -> prog Sh C) Q x :
  (i < nr)%nat -> (p < np)%nat -> own i n L e K x ->
  (forall b pg y, own i n L e K y -> named np ids (lp_work_group pg) (lp_work_bit pg) -> wp mguar i (c (b, pg)) Q y) ->
  wp mguar i (bind (on_page_queue (Z.of_nat p) (fun q => (cq_is_empty q, q))) c) Q x.
Proof.
  intros Hi Hp Hx Hc. eapply wp_page_access; [done|done|exact Hx|]. intros s g pg H Hpg. cbn [fst snd].
  destruct (page_read i n L e K s g p pg (lp_lanes pg) Hi H Hpg eq_refl eq_refl) as [Hg Ho]. exists g. split; [exact Hg|].
  apply Hc; [exact Ho|]. destruct H as (Hm & _). by destruct (mo_page _ _ _ _ _ _ _ _ Hm p pg Hpg) as (_ & ? & _).
Qed.

Lemma wp_page_pop {C} i n L e K p (c : option Lane * Page -> prog Sh C) Q x :
  (i < nr)%nat -> (p < np)%nat -> own i n L e K x ->
  (forall pg y, own i n L e K y -> wp mguar i (c (None, pg)) Q y) ->
  (forall k l pg y, own i n L e (mkTok k l (cached_available l) Holding :: K) y -> wp mguar i (c (Some l, pg)) Q y) ->
  wp mguar i (bind (on_page_queue (Z.of_nat p) cq_pop) c) Q x.
Proof.
  intros Hi Hp Hx Hn Hs. eapply wp_page_access; [done|done|exact Hx|]. clear x Hx. intros s g pg H Hpg.
  destruct (cq_pop_spec _ (lp_lanes pg)) as (q & -> & Eq & El). cbn [fst snd]. pose proof H as (Hm & _ & _ & _ & HN & _).
  pose proof (mo_page _ _ _ _ _ _ _ _ Hm p pg Hpg) as (P1 & P2 & P3 & P4 & P5). pose proof (lookup_lt_Some _ _ _ Hpg) as Hlt.
  destruct (cq_items (lp_lanes pg)) as [|l ls] eqn:Ei; cbn [head tail] in *.
  { destruct (page_read i n L e K s g p pg q Hi H Hpg) as [Hg Ho]; [by rewrite Ei|done|]. exists g. auto. }
  apply Forall_cons in P5 as [(k & cap & z & K1 & K2 & K3 & K4) P5]. apply NoDup_cons in P4 as [P4 P4'].
  destruct (view_inv _ _ _ _ _ _ K3) as (hr & lg & E1 & E2 & E3 & -> & Epl). cbn [fst snd] in *.
  set (pages' := <[p := _]> _). assert (Hmv : move_ok s g i k cap hr lg (With i) (sh_registry s) pages').
  { destruct (mo_lens _ _ _ _ _ _ _ _ Hm) as (_ & _ & L3 & L4 & _). cbn [fst] in *. split; auto.
    - by rewrite <- Epl.
    - split_and!; auto. subst pages'. by rewrite length_insert.
    - done.
    - intros slot Hsl. destruct (mo_slot _ _ _ _ _ _ _ _ Hm k slot _ Hsl K3) as [G1 G2]. split; [by intros _; apply G1|].
      intros l' Hl'. by destruct (G2 l' Hl').
    - intros j pg' Hj. subst pages'. destruct (decide (p = j)) as [<-|Hne].
      + rewrite list_lookup_insert_eq in Hj by done. injection Hj as <-. exists pg. cbn. rewrite Eq, Ei. split_and!; auto.
        apply Forall_forall. intros l' Hin. left. split; [by right|]. intros E. apply P4. rewrite K1, <- E. by apply (list_elem_of_fmap_2 (fun l => key_slot (lane_key l))).
      + rewrite list_lookup_insert_ne in Hj by done. pose proof (mo_page _ _ _ _ _ _ _ _ Hm j pg' Hj) as (Q1 & Q2 & Q3 & Q4 & Q5).
        exists pg'. split_and!; auto. apply Forall_forall. intros l' Hin. left. split; [done|]. intros E.
        rewrite Forall_forall in Q5. destruct (Q5 l' Hin) as (k' & ? & ? & J1 & J2 & _). assert (k' = k) as -> by lia. lia. }
  pose proof (mguar_move _ _ _ _ _ _ _ _ _ _ Hi Hm Hmv) as Hg. rewrite moved_pages in Hg.
  eexists. split; [exact Hg|]. apply (Hs k l). rewrite <- moved_pages.
  pose proof (own_not_here i n L e K _ _ _ _ _ H K3 ltac:(done)) as Hnk.
  eapply own_move; [exact H|exact Hmv|by constructor|]. constructor.
  - right. split; [done|]. split; [done|]. exact K4.
  - apply Forall_forall. intros t Hin. left. split; [|done]. intros <-. apply Hnk. by apply list_elem_of_fmap_2.
Qed.

(** A page has room for the token of one more of its lanes. *)
Lemma page_room (keys : list Z) p k :
  NoDup keys -> Forall (fun j => 0 <= j /\ j / LANES_PER_PAGE = p) keys -> 0 <= k -> k / LANES_PER_PAGE = p -> k ∉ keys ->
  zlength keys < LANES_PER_PAGE.
Proof.
  intros HN HF Hk Hp Hnin. unfold LANES_PER_PAGE in *. assert (H : (length (k :: keys) <= length (seqZ (64 * p) 64))%nat).
  { apply submseteq_length, NoDup_submseteq; [by constructor|]. intros j. rewrite elem_of_seqZ, elem_of_cons.
    assert (Hin64 : forall a, a / 64 = p -> 64 * p <= a < 64 * p + 64).
    { intros a <-. pose proof (Z.div_mod a 64 ltac:(lia)). pose proof (Z.mod_pos_bound a 64 ltac:(lia)). lia. }
    intros [->|Hin]; [by apply Hin64|]. rewrite Forall_forall in HF. destruct (HF j Hin). by apply Hin64. }
  rewrite length_seqZ in H. cbn in H. unfold zlength. lia.
Qed.

Lemma wp_page_push {C} i n L e t K p (c : result unit Lane * Page -> prog Sh C) Q x :
  (i < nr)%nat -> (p < np)%nat -> Z.of_nat (tk t) / LANES_PER_PAGE = Z.of_nat p -> ts t <> Retired ->
  ta t = cached_available (tl t) -> own i n L e (t :: K) x ->
  (forall pg y, own i n L e K y -> named np ids (lp_work_group pg) (lp_work_bit pg) -> wp mguar i (c (Ok tt, pg)) Q y) ->
  wp mguar i (bind (on_page_queue (Z.of_nat p) (cq_push (tl t))) c) Q x.
Proof.
  intros Hi Hp Hkp Hs Ha Hx Hc. eapply wp_page_access; [done|done|exact Hx|]. clear x Hx. intros s g pg H Hpg.
  pose proof H as (Hm & _). pose proof (mo_page _ _ _ _ _ _ _ _ Hm p pg Hpg) as (P1 & P2 & P3 & P4 & P5).
  destruct (tok_slot i n L e t K s g H Hs) as (cap & hr & lg & got & Hsl & E1 & E2 & E3 & Ew & Hv & Ht).
  pose proof Ht as (Hk & _). pose proof (lookup_lt_Some _ _ _ Hpg) as Hlt.
  assert (Hnin : Z.of_nat (tk t) ∉ ((fun l => key_slot (lane_key l)) <$> cq_items (lp_lanes pg))).
  { intros (l & El & Hin)%list_elem_of_fmap. rewrite Forall_forall in P5. destruct (P5 l Hin) as (j & c0 & z & K1 & _ & K3 & _).
    assert (j = tk t) as -> by lia. rewrite Hv in K3. congruence. }
  assert (Hroom : zlength (cq_items (lp_lanes pg)) < cq_limit (lp_lanes pg)).
  { rewrite P3. replace (zlength (cq_items (lp_lanes pg))) with (zlength ((fun l => key_slot (lane_key l)) <$> cq_items (lp_lanes pg)))
      by (unfold zlength; by rewrite length_fmap). eapply (page_room _ (Z.of_nat p) (Z.of_nat (tk t))); [done| |lia|done|done].
    apply Forall_fmap. eapply Forall_impl; [exact P5|]. intros l (j & c0 & z & K1 & K2 & _). cbn. rewrite K1. split; [lia|done]. }
  destruct (cq_push_spec _ (tl t) (lp_lanes pg) Hroom) as (q & -> & Eq & El). cbn [fst snd].
  set (pages' := <[p := _]> _). assert (Hmv : move_ok s g i (tk t) cap hr lg Queued (sh_registry s) pages').
  { destruct (mo_lens _ _ _ _ _ _ _ _ Hm) as (_ & _ & L3 & L4 & _). cbn [fst] in *. split; auto.
    - rewrite Ew. by intros j [= <-].
    - split_and!; auto. subst pages'. by rewrite length_insert.
    - done.
    - intros slot Hsl'. rewrite Hsl in Hsl'. injection Hsl' as <-. by split.
    - intros j pg' Hj. subst pages'. destruct (decide (p = j)) as [<-|Hne].
      + rewrite list_lookup_insert_eq in Hj by done. injection Hj as <-. exists pg. cbn. rewrite Eq, fmap_app. split_and!; auto.
        * cbn. rewrite Hk. cbn. by apply NoDup_snoc.
        * apply Forall_app. split; [|constructor; [|done]].
          -- apply Forall_forall. intros l Hin. left. split; [done|]. intros E. apply Hnin. rewrite <- E.
             by apply (list_elem_of_fmap_2 (fun l => key_slot (lane_key l))).
          -- right. rewrite Hk. cbn. split_and!; auto. by eapply tok_unretired.
      + rewrite list_lookup_insert_ne in Hj by done. eapply pages_kept; [exact Hm|exact Hv|by rewrite Ew|done]. }
  pose proof (mguar_move _ _ _ _ _ _ _ _ _ _ Hi Hm Hmv) as Hg. pose proof (own_tail _ _ _ _ _ _ _ _ _ _ _ _ _ _ H Hmv) as Ho.
  rewrite moved_pages in Hg, Ho. eexists. split; [exact Hg|]. by apply Hc.
Qed.

End tokens.
