(* ===== verification/MpmcLaneConc.v ===== *)
(** * Operations on a lane token under every interleaving

    The lane operations of [src/src/mpmc/receiver/lane.rs] and the parts of
    [src/src/mpmc/receiver/drain.rs] that pop a lane, park it, put it into its
    page or retire it, by the receiver that holds the token. *)

From S2P Require Import Prelude Prog Config Wait Ready YRing YRingInv YRingSpec YRingThm YRingConc YRingClose Handoff Publication Work MpmcShared Mpmc MpmcConc MpmcTokens.
Local Open Scope prog_scope.

Section lane.
Context {T : Type} {CQ AS : Type -> Type} {HCQ : ConcurrentQueue CQ} {LCQ : ConcurrentQueueLaws CQ} {HAS : ArcSwap AS}.
Context (caps : list Z) (nr np : nat) (ids : list Z) (tp : ReadyTopology) (gen : Z) (budget : nat).
#[local] Abbreviation Sh := (Shared (T := T) (CQ := CQ) (AS := AS)).
#[local] Abbreviation Page := (LanePage (CQ := CQ)).
#[local] Abbreviation ns := (length caps).
#[local] Abbreviation ringst := (Ring T * ghost T)%type.
#[local] Abbreviation mst := (mst (T := T) (CQ := CQ) (AS := AS)).
#[local] Abbreviation view := (view (T := T) (CQ := CQ) (AS := AS) caps).
#[local] Abbreviation mok := (mok (T := T) (CQ := CQ) (AS := AS) caps nr np ids tp gen budget).
#[local] Abbreviation mguar := (mguar (T := T) (CQ := CQ) (AS := AS) caps nr np ids tp gen budget).
#[local] Abbreviation own := (own (T := T) (CQ := CQ) (AS := AS) caps nr np ids tp gen budget).
Implicit Types (s : Sh) (z : ringst) (L : list T) (x y : mst).

(** The operation [op] of an open consumer is the ring operation [q], with the
    result [f]. *)
Definition does {A B} (op : RConsumer -> prog (HRing T) B) (q : Consumer -> prog (Ring T) A) (f : A -> B) : Prop :=
  forall c k i Q y, wp mguar i (bind (on_lane_ring k (on_hring (q c))) (fun a => Ret (f a))) Q y ->
    wp mguar i (on_lane_ring k (op (mkRConsumer (Some c)))) Q y.

Lemma does_bind {A B} op q f (kk : A -> prog (HRing T) B) :
  (forall c, op (mkRConsumer (Some c)) = bind (on_hring (q c)) kk) -> (forall a, kk a = Ret (f a)) -> does op q f.
Proof.
  intros H1 H2 c k i Q y Hw. rewrite H1. unfold on_lane_ring in *. apply wp_focus_bind.
  eapply wp_call; [exact (wp_bind_inv _ _ _ _ _ _ Hw)|]. intros a z Hz. by rewrite H2.
Qed.

Lemma does_plain {A} op (q : Consumer -> prog (Ring T) A) :
  (forall c, op (mkRConsumer (Some c)) = on_hring (q c)) -> does op q (fun a => a).
Proof. intros H1 c k i Q y Hw. rewrite H1. by apply wp_bind_ret. Qed.

(** What is known of a token without looking at the state. *)
Lemma own_tok i n L e t K x : own i n L e (t :: K) x ->
  exists c, lane_consumer (tl t) = mkRConsumer (Some c) /\ lane_key (tl t) = mkLaneKey (Z.of_nat (tk t)) 0 /\
    lane_signal (tl t) = Z.of_nat (tk t) /\ lane_ring (tl t) = Z.of_nat (tk t) /\ (tk t < ns)%nat /\ 0 <= ta t.
Proof.
  intros (_ & _ & _ & _ & _ & HF). apply Forall_cons in HF as [(cap & z & got & Hv & H1 & H2 & H3 & _ & c & ct & ph & h & H4 & H5 & H6) _].
  exists c. split_and!; auto; [by eapply view_lt|]. destruct H5 as (_ & _ & _ & _ & _ & _ & ?). lia.
Qed.

Lemma wp_tok_op {A B} i n L e t K (op : RConsumer -> prog (HRing T) B) (q : Consumer -> prog (Ring T) A) (f : A -> B)
    (tf : A -> tok) (vs : A -> list T) (P : A -> Prop) x :
  (i < nr)%nat -> own i n L e (t :: K) x -> does op q f ->
  (forall a, tk (tf a) = tk t /\ tok_place i (tf a) = tok_place i t) ->
  (forall c cap z got, lane_consumer (tl t) = mkRConsumer (Some c) -> closed_ok z -> ring_tok t cap z got ->
     wp (guarc cap) 1 (q c) (fun a z => ring_tok (tf a) cap z (got ++ vs a) /\ P a) z) ->
  wp mguar i (on_lane_ring (lane_ring (tl t)) (op (lane_consumer (tl t)))) (fun b y =>
    exists a, b = f a /\ P a /\ own i n (L ++ vs a) e (tf a :: K) y) x.
Proof.
  intros Hi Hx Hop Htf Hq. destruct (own_tok _ _ _ _ _ _ _ Hx) as (c & Ec & _ & _ & Er & _). rewrite Ec, Er.
  apply Hop. eapply (wp_tok_ring caps nr np ids tp gen budget i n L e t K (q c) tf vs P); [done|exact Hx|done| |].
  - intros cap z got. by apply Hq.
  - intros a y Hy HP. eapply wp_ret_own; [done|exact Hy|]. intros w Hw. by exists a.
Qed.

(** A consumer operation that leaves the closing flag alone, on a token that is
    not known to be empty. *)
Lemma wp_holding {A} cap (q : prog (Ring T) A) (R : A -> ringst -> Prop) t z got :
  keeps ring_producer_dropped q -> closed_ok z -> ring_tok t cap z got ->
  (forall c ct ph h, lane_consumer (tl t) = mkRConsumer (Some c) -> ca cap 0 c ct ph h got z -> ta t = ct - h ->
     wp (guar cap 0) 1 q R z) -> wp (guarc cap) 1 q R z.
Proof.
  intros Hk Hcl (_ & _ & _ & _ & c & ct & ph & h & H5 & H6 & H7) Hw. apply wp_kept; [done|done|]. by apply (Hw c ct ph h).
Qed.

Definition tok_with (l : Lane) (a : Z) (t : tok) : tok := mkTok (tk t) l a (ts t).

Lemma ring_tok_with t l a cap z got c ct ph h got' z' :
  ring_tok t cap z got -> ts t = Holding -> lane_key l = lane_key (tl t) -> lane_signal l = lane_signal (tl t) ->
  lane_ring l = lane_ring (tl t) -> lane_consumer l = mkRConsumer (Some c) -> ca cap 0 c ct ph h got' z' -> a = ct - h ->
  ring_tok (tok_with l a t) cap z' got'.
Proof.
  intros (H1 & H2 & H3 & H4 & _) Hs E1 E2 E3 E4 Hc Ha. unfold ring_tok, tok_with. cbn. rewrite E1, E2, E3. split_and!; auto; [done|].
  exists c, ct, ph, h. by split_and!.
Qed.

(** [lane] after its consumer popped. *)
Lemma wp_Lane_pop i n L e t K msg x :
  (i < nr)%nat -> own i n L e (t :: K) x -> ts t = Holding -> 0 < ta t ->
  wp mguar i (Lane_pop (tl t) msg) (fun r y => exists c, r.2 = set_consumer c (tl t) /\
    own i n (L ++ [r.1]) e (tok_with r.2 (ta t - 1) t :: K) y) x.
Proof.
  intros Hi Hx Hs Ha. unfold Lane_pop. eapply wp_call.
  - eapply (wp_tok_op i n L e t K RConsumer_pop Consumer_pop (fun a => (a.1, mkRConsumer (Some a.2)))
      (fun a => tok_with (set_consumer (mkRConsumer (Some a.2)) (tl t)) (ta t - 1) t) (fun a => option_list a.1)
      (fun a => is_Some a.1)); [done|exact Hx|eapply does_bind; [reflexivity|by intros []]|done|].
    intros c cap z got Ec Hcl Ht. eapply (wp_holding cap _ _ t); [auto with fanring|done|exact Ht|].
    intros c' ct ph h Ec' Hca Hta. rewrite Ec in Ec'. injection Ec' as <-.
    eapply wp_mono; [|eapply wp_pop_exact, Hca]. intros [[v|] c'] y [Hh Hy]; [|lia]. split; [|by eexists].
    eapply ring_tok_with; [exact Ht|done..|exact Hy|]. lia.
  - intros [o c] y ([o' c'] & [= -> ->] & [v Ev] & Hy). cbn [fst] in Ev. subst o'. cbn [fst snd option_list] in *.
    eapply (wp_ret_own caps nr np ids tp gen budget i n); [done|exact Hy|]. intros w Hw. cbn. eauto.
Qed.

Lemma wp_Lane_prefetch i n L e t K x :
  (i < nr)%nat -> own i n L e (t :: K) x -> ts t = Holding -> ta t = 0 ->
  wp mguar i (Lane_prefetch (tl t)) (fun l y => own i n L e (tok_with l (cached_available l) t :: K) y) x.
Proof.
  intros Hi Hx Hs Ha. unfold Lane_prefetch. eapply wp_call.
  - eapply (wp_tok_op i n L e t K RConsumer_prefetch Consumer_prefetch (fun a => (a.1, mkRConsumer (Some a.2)))
      (fun a => tok_with (set_counters a.1 (unreleased (tl t)) (set_consumer (mkRConsumer (Some a.2)) (tl t))) a.1 t) (fun a => [])
      (fun a => True)); [done|exact Hx|eapply does_bind; [reflexivity|by intros []]|done|].
    intros c cap z got Ec Hcl Ht. eapply (wp_holding cap _ _ t); [auto with fanring|done|exact Ht|].
    intros c' ct ph h Ec' Hca Hta. rewrite Ec in Ec'. injection Ec' as <-.
    eapply wp_mono; [|eapply wp_prefetch_from, Hca]. intros [m c'] y (ct' & Em & _ & Hy). split; [|done]. rewrite app_nil_r.
    eapply ring_tok_with; [exact Ht|done..|exact Hy|]. cbn. apply Em. lia.
  - intros [m c] y ([m' c'] & [= -> ->] & _ & Hy). rewrite app_nil_r in Hy. cbn [fst snd] in *.
    by eapply wp_ret_own.
Qed.

(** Counters do not matter to the ring. *)
Lemma own_counters i n L e t K cached unrel a x :
  own i n L e (t :: K) x -> a = ta t -> own i n L e (tok_with (set_counters cached unrel (tl t)) a t :: K) x.
Proof.
  intros (H1 & H2 & H3 & H4 & H5 & H6) ->. apply Forall_cons in H6 as [(cap & z & got & Hv & Ht) H6].
  split_and!; auto. constructor; [|done]. exists cap, z, got. split; [done|]. exact Ht.
Qed.

Lemma wp_Lane_release_pending i n L e t K x :
  (i < nr)%nat -> own i n L e (t :: K) x -> ts t = Holding -> ta t = cached_available (tl t) ->
  wp mguar i (Lane_release_pending (tl t)) (fun r y => own i n L e (tok_with r.2 (ta t) t :: K) y /\
    cached_available r.2 = ta t) x.
Proof.
  intros Hi Hx Hs Ha. unfold Lane_release_pending. destruct (Z.eqb_spec (unreleased (tl t)) 0).
  - eapply wp_ret_own; [done|exact Hx|]. intros y Hy. split; [|done]. by destruct t.
  - eapply wp_call.
    + eapply (wp_tok_op i n L e t K RConsumer_release Consumer_release (fun a => a) (fun _ => t) (fun a => []) (fun a => True));
        [done|exact Hx|by apply does_plain|done|].
      intros c cap z got Ec Hcl Ht. eapply (wp_holding cap _ _ t); [auto with fanring|done|exact Ht|].
      intros c' ct ph h Ec' Hca Hta. rewrite Ec in Ec'. injection Ec' as <-.
      eapply wp_mono; [|eapply wp_release, Hca]. intros [] y Hy. split; [|done]. rewrite app_nil_r.
      destruct Ht as (T1 & T2 & T3 & T4 & _). split_and!; auto; [by rewrite Hs|]. exists c, ct, h, h. by split_and!.
    + intros [] y (_ & _ & _ & Hy). rewrite app_nil_r in Hy. eapply wp_ret_own; [done|by apply (own_counters i n L e t K (cached_available (tl t)) 0 (ta t))|].
      intros w Hw. cbn. auto.
Qed.

(** A lane whose ring is closed and empty. *)
Lemma wp_tok_disconnected i n L e t K x :
  (i < nr)%nat -> own i n L e (t :: K) x -> ts t = Holding ->
  wp mguar i (on_lane_ring (lane_ring (tl t)) (RConsumer_is_disconnected (lane_consumer (tl t)))) (fun d y =>
    own i n L e (mkTok (tk t) (tl t) (ta t) (if d : bool then Ended else Holding) :: K) y) x.
Proof.
  intros Hi Hx Hs. eapply wp_mono; [|eapply (wp_tok_op i n L e t K RConsumer_is_disconnected Consumer_is_disconnected (fun a => a)
    (fun d => mkTok (tk t) (tl t) (ta t) (if d : bool then Ended else Holding)) (fun a => []) (fun a => True));
    [done|exact Hx|by apply does_plain| |]].
  - intros d y (d' & -> & _ & Hy). by rewrite app_nil_r in Hy.
  - intros d. split; [done|]. unfold tok_place. rewrite Hs. by destruct d.
  - intros c cap z got Ec Hcl Ht. pose proof Ht as (T1 & T2 & T3 & T4 & c' & ct & ph & h & T5 & T6 & T7). rewrite Ec in T5. injection T5 as <-.
    eapply wp_mono; [|by eapply wp_is_disconnected_ring]. intros d y [Hy Hd]. rewrite app_nil_r. split; [|done].
    split_and!; auto; [|by exists c, ct, ph, h]. cbn. destruct d; [auto|done].
Qed.

(** The consumer of a retired lane is dropped. *)
Lemma wp_tok_drop i n L e t K x :
  (i < nr)%nat -> own i n L e (t :: K) x -> ts t = Retired ->
  wp mguar i (on_lane_ring (lane_ring (tl t)) (RConsumer_drop Deferred (lane_consumer (tl t)))) (fun _ y => own i n L e K y) x.
Proof.
  intros Hi Hx Hs. destruct (own_tok _ _ _ _ _ _ _ Hx) as (c & Ec & _ & _ & Er & _). rewrite Ec, Er.
  unfold RConsumer_drop, RConsumer_close. cbn [rc_inner COORDINATED]. unfold on_lane_ring.
  assert (Hclose : forall {C} (k : unit -> prog Sh C) Q x, own i n L e (t :: K) x -> (forall y, own i n L e (t :: K) y -> wp mguar i (k tt) Q y) ->
    wp mguar i (bind (on_lane_ring (Z.of_nat (tk t)) (on_hring (Consumer_close c))) k) Q x).
  { clear x Hx. intros C k Q x Hx Hk. eapply (wp_tok_ring caps nr np ids tp gen budget i n L e t K _ (fun _ => t) (fun _ => []) (fun _ => True)); [done|exact Hx|done| |].
    - intros cap z got Hcl Ht. pose proof Ht as (T1 & T2 & T3 & T4 & c' & ct & ph & h & T5 & T6 & T7). rewrite Ec in T5. injection T5 as <-.
      eapply wp_mono; [|apply (wp_inv (guarc cap) 1 (ended got)); [|apply T4; by rewrite Hs|apply wp_kept; [auto with fanring|done|eapply wp_consumer_close, T6]]].
      + intros a y [Hy He]. rewrite app_nil_r. split; [|done]. split_and!; auto. exists c, ct, h, h. by split_and!.
      + intros [|[|j]] u v Hu Hg; [eapply (ended_guarc cap 0)|eapply (ended_guarc cap 1)|by destruct Hg]; (done || lia).
    - intros [] y Hy _. rewrite app_nil_r in Hy. by apply Hk. }
  apply wp_focus_bind. apply wp_bind. apply wp_focus_bind. apply Hclose; [exact Hx|]. clear x Hx. intros x Hx.
  apply wp_bind_ret, Hclose; [exact Hx|]. clear x Hx. intros x Hx. eapply (wp_ret_own _ _ _ _ _ _ _ i n L e (t :: K)); [done|exact Hx|].
  intros y Hy. eapply (wp_ret_own _ _ _ _ _ _ _ i n L e (t :: K)); [done|exact Hy|]. intros w Hw. by eapply own_forget.
Qed.


(** [t'] is [t] after [m] values were popped. *)
Definition popped (t t' : tok) (m : Z) : Prop :=
  tk t' = tk t /\ ts t' = Holding /\ ta t' = ta t - m /\ cached_available (tl t') = cached_available (tl t).

Lemma wp_pop_rest i n e K count : (i < nr)%nat -> forall L t acc x,
  own i n L e (t :: K) x -> ts t = Holding -> Z.of_nat count <= ta t ->
  wp mguar i (pop_rest count (tl t) acc) (fun r y => exists t' vs, r = (acc ++ vs, tl t') /\ length vs = count /\
    popped t t' (Z.of_nat count) /\ own i n (L ++ vs) e (t' :: K) y) x.
Proof.
  intros Hi. induction count as [|count IH]; intros L t acc x Hx Hs Ha; cbn [pop_rest].
  - eapply wp_ret_own; [done|exact Hx|]. intros y Hy. exists t, []. rewrite !app_nil_r. split_and!; [done|done| |done].
    split_and!; [done|done|lia|done].
  - eapply wp_call; [eapply wp_Lane_pop; [done|exact Hx|done|lia]|]. clear x Hx. intros [v l] x (c & E & Hx). cbn [fst snd] in *. subst l.
    set (t1 := tok_with _ _ t) in *. eapply wp_mono; [|apply (IH (L ++ [v]) t1 (acc ++ [v])); [exact Hx|done|cbn; lia]].
    intros r y (t' & vs & -> & E & (P1 & P2 & P3 & P4) & Hy). exists t', (v :: vs). rewrite <- !(assoc_L (++)) in *. split_and!; [done|cbn; lia| |done].
    split_and!; [done|done| |done]. rewrite P3. cbn. lia.
Qed.

End lane.

(** ** Claiming and returning lanes under every interleaving

    The lane pages and the activation of a ready page ([src/src/mpmc.rs]), and
    the end of a lane that was found empty ([Shared_finish_empty_lane]), by a
    receiver.  Marking a group costs one of the receiver's credits. *)

Section claim.
Context {T : Type} {CQ AS : Type -> Type} {HCQ : ConcurrentQueue CQ} {LCQ : ConcurrentQueueLaws CQ} {HAS : ArcSwap AS}.
Context (caps : list Z) (nr np : nat) (ids : list Z) (tp : ReadyTopology) (gen : Z) (budget : nat).
#[local] Abbreviation Sh := (Shared (T := T) (CQ := CQ) (AS := AS)).
#[local] Abbreviation Page := (LanePage (CQ := CQ)).
#[local] Abbreviation ns := (length caps).
#[local] Abbreviation ringst := (Ring T * ghost T)%type.
#[local] Abbreviation mst := (mst (T := T) (CQ := CQ) (AS := AS)).
#[local] Abbreviation view := (view (T := T) (CQ := CQ) (AS := AS) caps).
#[local] Abbreviation mok := (mok (T := T) (CQ := CQ) (AS := AS) caps nr np ids tp gen budget).
#[local] Abbreviation mguar := (mguar (T := T) (CQ := CQ) (AS := AS) caps nr np ids tp gen budget).
#[local] Abbreviation own := (own (T := T) (CQ := CQ) (AS := AS) caps nr np ids tp gen budget).
Implicit Types (s : Sh) (z : ringst) (L : list T) (x y : mst).

#[local] Abbreviation own_party := (own_party (T := T) (CQ := CQ) (AS := AS) caps nr np ids tp gen budget).
Context (pages_listed : top_pages tp = Z.of_nat <$> seq 0 np).

(** A token as it comes out of a page or a slot. *)
Definition fresh (k : nat) (l : Lane) : tok := mkTok k l (cached_available l) Holding.

(** The receiver has found a lane, or not. *)
Definition found (i n : nat) L (e : bool) (K : list tok) (o : option Lane) x : Prop :=
  match o with None => own i n L e K x | Some l => exists k, own i n L e (fresh k l :: K) x end.

Lemma found_own i n L e K o x : found i n L e K o x -> exists K', own i n L e K' x /\
  (forall n' y, own i n' L e K' y -> found i n' L e K o y) /\ (o = None -> K' = K).
Proof.
  destruct o as [l|]; cbn.
  - intros [k H]. exists (fresh k l :: K). split_and!; [done|by intros n' y Hy; exists k|done].
  - intros H. exists K. by split_and!.
Qed.

Lemma wp_ret_found {A} i n L e K o (a : A) Q x :
  (i < nr)%nat -> found i n L e K o x -> (forall y, found i n L e K o y -> Q a y) -> wp mguar i (Ret a) Q x.
Proof.
  intros Hi Hx HQ. destruct (found_own _ _ _ _ _ _ _ Hx) as (K' & H1 & H2 & _).
  eapply wp_ret_own; [done|exact H1|]. auto.
Qed.

(** ** Lane pages *)

Lemma wp_LanePage_push i n L e t K p x :
  (i < nr)%nat -> (p < np)%nat -> Z.of_nat (tk t) / LANES_PER_PAGE = Z.of_nat p -> ts t <> Retired ->
  ta t = cached_available (tl t) -> own i (S n) L e (t :: K) x ->
  wp mguar i (LanePage_push (Z.of_nat p) (tl t)) (fun _ => own i n L e K) x.
Proof.
  intros Hi Hp Hk Hs Ha Hx. unfold LanePage_push. eapply wp_page_push; [done..|exact Hx|]. intros pg y Hy Hn. cbn [fst].
  apply wp_bind_ret. eapply (wp_group_mark _ _ _ _ _ _ _ i _ (own_party i L e K Hi) n); [exact Hn|exact Hy|].
  intros z Hz. by eapply wp_ret_own.
Qed.

Lemma wp_LanePage_pop_direct i n L e K p x :
  (i < nr)%nat -> (p < np)%nat -> own i n L e K x ->
  wp mguar i (LanePage_pop_direct (Z.of_nat p)) (found i n L e K) x.
Proof.
  intros Hi Hp Hx. unfold LanePage_pop_direct. eapply wp_page_pop; [done|done|exact Hx| |].
  - intros pg y Hy. by eapply wp_ret_own.
  - intros k l pg y Hy. eapply wp_ret_own; [done|exact Hy|]. intros z Hz. by exists k.
Qed.

Lemma wp_LanePage_is_empty i n L e K p x :
  (i < nr)%nat -> (p < np)%nat -> own i n L e K x -> wp mguar i (LanePage_is_empty (Z.of_nat p)) (fun _ => own i n L e K) x.
Proof.
  intros Hi Hp Hx. unfold LanePage_is_empty. eapply wp_page_empty; [done|done|exact Hx|]. intros b pg y Hy _. by eapply wp_ret_own.
Qed.

Lemma wp_LanePage_pop_after_claim i n L e K p x :
  (i < nr)%nat -> (p < np)%nat -> own i (S n) L e K x ->
  wp mguar i (LanePage_pop_after_claim (Z.of_nat p)) (found i n L e K) x.
Proof.
  intros Hi Hp Hx. unfold LanePage_pop_after_claim. eapply wp_page_empty; [done|done|exact Hx|]. intros b pg y Hy Hn.
  eapply (wp_call _ _ _ _ (fun _ => own i n L e K)).
  - destruct b; cbn [negb when].
    + eapply wp_ret_own; [done|exact Hy|]. intros z Hz. eapply own_weaken; [exact Hz|lia|done..].
    + apply wp_bind_ret. eapply (wp_group_mark _ _ _ _ _ _ _ i _ (own_party i L e K Hi) n); [exact Hn|exact Hy|].
      intros z Hz. by eapply wp_ret_own.
  - intros u z Hz. by apply wp_LanePage_pop_direct.
Qed.

(** ** Activating a ready page *)

(** Every word in the model of a page holds 64 bits; [t] of them are done. *)
Lemma wp_take_ready_bits i L e K p n : (i < nr)%nat -> (p < np)%nat ->
  forall fuel bits t o x,
  is_u64 bits -> 0 <= t -> (forall b, 0 <= b < t -> Z.testbit bits b = false) -> 64 - t <= Z.of_nat fuel ->
  found i (fuel + n) L e K o x ->
  wp mguar i (take_ready_bits fuel (Z.of_nat p) (Z.of_nat p) bits o) (found i n L e K) x.
Proof.
  intros Hi Hp. induction fuel as [|fuel IH]; intros bits t o x Hu Ht Hlow Hf Hx; cbn [take_ready_bits];
    (destruct (Z.eqb_spec bits 0) as [->|Hne]; [eapply wp_ret_found; [done|exact Hx|]; intros y Hy;
      destruct (found_own _ _ _ _ _ _ _ Hy) as (K' & H1 & H2 & _); apply H2; eapply own_weaken; [exact H1|lia|done..]|]).
  { destruct Hne. apply u64_zero; [done|]. intros b Hb. apply Hlow. lia. }
  destruct (trailing_zeros_spec bits Hu Hne) as (T1 & T2 & T3). destruct (clear_lowest bits _ Hu (proj1 T1) T2 T3) as [Hu' Hlow'].
  assert (Hge : t <= trailing_zeros bits).
  { destruct (Z.le_gt_cases t (trailing_zeros bits)); [done|]. rewrite Hlow in T2 by lia. done. }
  set (idx := _ + trailing_zeros bits).
  assert (Hnext : forall o' y, found i (fuel + n) L e K o' y ->
    wp mguar i (take_ready_bits fuel (Z.of_nat p) (Z.of_nat p) (Z.land bits (bits - 1)) o') (found i n L e K) y).
  { intros o' y Hy. eapply (IH _ (trailing_zeros bits + 1)); [done|lia| |lia|exact Hy]. intros b Hb. apply Hlow'. lia. }
  destruct (found_own _ _ _ _ _ _ _ Hx) as (K' & Hx' & Hfnd & Ho). clear Hx.
  assert (Hle : forall y, own i (S fuel + n) L e K' y -> found i (fuel + n) L e K o y).
  { intros y Hy. apply Hfnd. eapply own_weaken; [exact Hy|lia|done..]. }
  eapply (wp_page_slot_take _ _ _ _ _ _ _ i _ L e K'); [done|unfold LANES_PER_PAGE in idx; lia|exact Hx'|auto|].
  clear x Hx'. intros k l x Hk Hx. fold (fresh k l) in Hx. cbn [option_rect].
  destruct (own_tok _ _ _ _ _ _ _ _ _ _ _ _ _ _ Hx) as (c & _ & _ & Esg & _ & Hlt & _). cbn [fresh tl tk] in Esg, Hlt. rewrite Esg.
  eapply (wp_on_index_quiet _ _ _ _ _ _ _ i _ (own_party i L e (fresh k l :: K') Hi) _ _ (fun _ => True)); [by apply index_quiet_signal|exact Hx|].
  clear x Hx. intros pend x Hx _. destruct pend.
  - destruct o as [l0|].
    + eapply wp_call.
      * eapply (wp_LanePage_push i (fuel + n) L e (fresh k l)); [done|done| |done|done|exact Hx]. cbn [fresh tk]. rewrite <- Hk. unfold idx, LANES_PER_PAGE.
        rewrite Z.div_add_l by lia. rewrite Z.div_small; lia.
      * intros u y Hy. by apply Hnext, Hfnd.
    + rewrite Ho in Hx by done. apply Hnext. exists k. eapply own_weaken; [exact Hx|lia|done..].
  - eapply (wp_slot_back _ _ _ _ _ _ _ i _ L e (fresh k l)); [done|done|done|done|exact Hx|]. auto.
Qed.

(** A read of the part of the registry that no thread changes. *)
Lemma wp_registry_read {A C} i n L e K (get : Registry -> A) (a : A) (c : A -> prog Sh C) Q x :
  (i < nr)%nat -> own i n L e K x -> (forall s, fixed nr tp gen s -> get (sh_registry s) = a) ->
  (forall y, own i n L e K y -> wp mguar i (c a) Q y) ->
  wp mguar i (bind (on_registry (fun reg => Done (get reg, reg))) c) Q x.
Proof.
  intros Hi Hx Hg Hc. eapply wp_registry; [done|exact Hx|]. intros s g H. pose proof H as (Hm & _).
  destruct (near_step _ _ _ _ _ _ _ i _ (own_party i L e K Hi) n s (set_sh_registry (sh_registry s) s) g H) as [H1 H2];
    [by split_and!|apply (mo_index _ _ _ _ _ _ _ _ Hm)|done|].
  rewrite (Hg s (mo_fixed _ _ _ _ _ _ _ _ Hm)). eauto 10.
Qed.

(** A page of the topology. *)
Lemma zlookup_topology p : (p < np)%nat -> zlookup (top_pages tp) (Z.of_nat p) = Some (Z.of_nat p).
Proof. intros Hp. rewrite pages_listed, zlookup_of_nat, list_lookup_fmap, lookup_seq_lt by done. done. Qed.

Lemma wp_take_ready_lane i n L e K p x :
  (i < nr)%nat -> (p < np)%nat -> own i (64 + n) L e K x ->
  wp mguar i (Registry_take_ready_lane (Z.of_nat p)) (found i n L e K) x.
Proof.
  intros Hi Hp Hx. unfold Registry_take_ready_lane. eapply wp_registry_read; [done|exact Hx| |].
  { intros s (_ & _ & -> & _). by apply zlookup_topology. }
  clear x Hx. intros x Hx. cbn [load bind].
  eapply (wp_near _ _ _ _ _ _ _ i _ (own_party i L e K Hi)); [exact Hx|]. clear x Hx. intros s g H. cbn [fst snd].
  pose proof H as (Hm & _). destruct (mo_lens _ _ _ _ _ _ _ _ Hm) as (_ & _ & _ & L4 & _). cbn [fst] in L4.
  split; [apply near_refl|]. split; [apply (mo_index _ _ _ _ _ _ _ _ Hm)|]. split; [done|]. intros x Hx.
  destruct (lookup_lt_is_Some_2 (sh_pages s) p) as [pg Hpg]; [lia|]. rewrite zlookup_of_nat, Hpg. cbn [option_or_fault bind].
  destruct (mo_page _ _ _ _ _ _ _ _ Hm p pg Hpg) as (-> & _).
  eapply (wp_on_index_quiet _ _ _ _ _ _ _ i _ (own_party i L e K Hi) _ _ is_u64); [|exact Hx|].
  - apply index_quiet_page; [lia|]. intros l H1 H2. by split_and!.
  - intros bits y Hy Hu. eapply (wp_take_ready_bits i L e K p n Hi Hp 64 bits 0 None); [done|done|lia|lia|exact Hy].
Qed.

(** ** The end of a lane that was found empty *)

Definition finished_lane (i n : nat) L (e : bool) (k : nat) (K : list tok) (f : FinishLane) x : Prop :=
  match f with
  | FinishReady l => own i n L e (fresh k l :: K) x
  | _ => own i n L e K x
  end.

Lemma wp_signal_op {R C} i n L e K k (f : LaneSignal -> R * LaneSignal) (c : R -> prog Sh C) Q x :
  (i < nr)%nat -> (k < ns)%nat -> own i n L e K x ->
  (forall l, signal_page (f l).2 = signal_page l /\ signal_bit (f l).2 = signal_bit l) ->
  (forall r y, own i n L e K y -> wp mguar i (c r) Q y) ->
  wp mguar i (bind (on_index (on_signal (Z.of_nat k) f)) c) Q x.
Proof.
  intros Hi Hk Hx Hf Hc. eapply (wp_on_index_quiet _ _ _ _ _ _ _ i _ (own_party i L e K Hi) _ _ (fun _ => True)); [by apply index_quiet_signal|exact Hx|auto].
Qed.

Lemma wp_finish_empty_lane i n L e t K x :
  (i < nr)%nat -> own i n L e (t :: K) x -> ts t = Holding -> ta t = 0 ->
  wp mguar i (Shared_finish_empty_lane Deferred (tl t)) (finished_lane i n L e (tk t) K) x.
Proof.
  intros Hi Hx Hs Ha. unfold Shared_finish_empty_lane.
  destruct (own_tok _ _ _ _ _ _ _ _ _ _ _ _ _ _ Hx) as (c & _ & _ & -> & _ & Hlt & _).
  eapply wp_signal_op; [done|done|exact Hx|done|]. clear x Hx. intros _ x Hx.
  eapply wp_call; [by eapply wp_Lane_prefetch|]. clear x Hx. intros l x Hx. destruct (own_tok _ _ _ _ _ _ _ _ _ _ _ _ _ _ Hx) as (_ & _ & _ & Esg & Er & _).
  set (t1 := tok_with l (cached_available l) t) in *. cbn [t1 tok_with tl] in Esg, Er.
  assert (Es : ts t1 = Holding) by done.
  destruct (negb (cached_available l =? 0)).
  - rewrite Esg. eapply wp_signal_op; [done|done|exact Hx|intros sg; by destruct (signal_state sg =? IDLE)|]. clear x Hx. intros _ x Hx.
    eapply wp_ret_own; [done|exact Hx|]. intros y Hy. cbn. unfold fresh. by rewrite <- Hs.
  - eapply wp_call; [apply (wp_tok_disconnected _ _ _ _ _ _ _ i n L e t1); [done|exact Hx|done]|].
    clear x Hx. intros [] x Hx.
    + eapply (wp_retire _ _ _ _ _ _ _ i n L e (mkTok (tk t1) (tl t1) (ta t1) Ended)); [done|done|exact Hx|].
      clear x Hx. intros x Hx. eapply (wp_on_aside _ _ _ _ _ _ _ i _ (own_party i L e _ Hi)); [apply aside_counts|exact Hx|].
      clear x Hx. intros lanes x Hx. eapply wp_call; [by apply (wp_tok_drop _ _ _ _ _ _ _ i n L e (retired (mkTok (tk t1) (tl t1) (ta t1) Ended)) K)|].
      clear x Hx. intros u x Hx. eapply (wp_on_aside _ _ _ _ _ _ _ i _ (own_party i L e K Hi)); [|exact Hx|].
      * destruct (lanes =? 1); [|done]. apply aside_bind; [apply aside_load|done].
      * intros b y Hy. by eapply wp_ret_own.
    + eapply (wp_install _ _ _ _ _ _ _ i n L e (mkTok (tk t1) (tl t1) (ta t1) Holding)); [done|done|done|exact Hx|].
      clear x Hx. intros x Hx. by eapply wp_ret_own.
Qed.

End claim.

(** ** Work queues of receivers under every interleaving

    The critical sections of [src/src/mpmc/work.rs] on the queues of an MPMC
    channel, by a receiver.  A receiver's own queue only shrinks under the
    others, so a batch fits when the receiver has seen its queue empty. *)

Section work.
Context {T : Type} {CQ AS : Type -> Type} {HCQ : ConcurrentQueue CQ} {LCQ : ConcurrentQueueLaws CQ} {HAS : ArcSwap AS}.
Context (caps : list Z) (nr np : nat) (ids : list Z) (tp : ReadyTopology) (gen : Z) (budget : nat).
#[local] Abbreviation Sh := (Shared (T := T) (CQ := CQ) (AS := AS)).
#[local] Abbreviation Page := (LanePage (CQ := CQ)).
#[local] Abbreviation ns := (length caps).
#[local] Abbreviation ringst := (Ring T * ghost T)%type.
#[local] Abbreviation mst := (mst (T := T) (CQ := CQ) (AS := AS)).
#[local] Abbreviation view := (view (T := T) (CQ := CQ) (AS := AS) caps).
#[local] Abbreviation mok := (mok (T := T) (CQ := CQ) (AS := AS) caps nr np ids tp gen budget).
#[local] Abbreviation mguar := (mguar (T := T) (CQ := CQ) (AS := AS) caps nr np ids tp gen budget).
#[local] Abbreviation own := (own (T := T) (CQ := CQ) (AS := AS) caps nr np ids tp gen budget).
Implicit Types (s : Sh) (z : ringst) (L : list T) (x y : mst).


(** Queue [h] has the values [vs] now, and receiver [i] holds [L2]. *)
Lemma queue_step i n L e K s g h q vs L2 :
  (i < nr)%nat -> own i n L e K (s, g) -> sh_queues s !! h = Some q -> vs ++ L2 ≡ₚ q_values q ++ L ->
  (h = qh i \/ h = 1%nat \/ (length vs <= length (q_values q))%nat) ->
  exists g', let s' := set_sh_queues (<[h := mkQueue vs (q_capacity q)]> (sh_queues s)) s in
    mguar i (s, g) (s', g') /\ own i n L2 (if decide (h = qh i) then bool_decide (vs = []) else e) K (s', g').
Proof.
  intros Hi H Hq Ep Hh. pose proof H as (Hm & (L1 & HL1 & HL) & He & Hc & HN & HF). rewrite <- HL in Ep.
  pose proof (lookup_lt_Some _ _ _ Hq) as Hlt. set (s' := set_sh_queues _ s).
  set (g' := mkMG (mg_lanes g) (<[i := L2]> (mg_held g)) (mg_credits g)). exists g'. cbn zeta.
  assert (Ev : forall k, view (s', g') k = view (s, g) k) by by apply view_ext.
  assert (Hm' : mok (s', g')).
  { destruct Hm as [M1 M2 M3 M4 M5 M6 M7 M8 M9]; cbn [fst snd] in *. split; cbn [fst snd]; auto.
    - cbn. by rewrite !length_insert.
    - intros h0 q0 Hq0. cbn in Hq0. destruct (decide (h = h0)) as [<-|Hne].
      + rewrite list_lookup_insert_eq in Hq0 by done. injection Hq0 as <-. exact (M7 _ _ Hq).
      + rewrite list_lookup_insert_ne in Hq0 by done. by apply M7.
    - unfold gots in *. cbn in *. rewrite <- M8, list_fmap_insert. cbn. apply (Permutation_app_inv_l (q_values q ++ L1)).
      assert (E1 := concat_insert (q_values <$> sh_queues s) h (q_values q) vs ltac:(by rewrite list_lookup_fmap, Hq)).
      assert (E2 := concat_insert (mg_held g) i L1 L2 HL1).
      transitivity ((q_values q ++ concat (<[h := vs]> (q_values <$> sh_queues s))) ++ (L1 ++ concat (<[i := L2]> (mg_held g)))).
      { perm. }
      rewrite E1, E2, <- Ep. perm. }
  split.
  - split; [done|]. split; [|split; [|split; [|by apply credit_step_refl]]].
    + intros k v v' V1 V2. eapply (lane_steps_view _ _ _ _ _ _ _ i (s, g)); [exact Hm|apply Ev|exact V1|exact V2].
    + intros j Hj. cbn. by rewrite list_lookup_insert_ne.
    + intros j q0 Hj Hjn Hq0. cbn in *. destruct (decide (h = qh j)) as [->|Hne].
      * rewrite list_lookup_insert_eq by done. eexists. split; [done|]. rewrite Hq in Hq0. injection Hq0 as <-. cbn.
        destruct Hh as [E|[E|E]]; [by apply qh_inj in E|by apply qh_not_orphaned in E|done].
      * rewrite list_lookup_insert_ne by done. eauto.
  - split; [done|]. split.
    { exists L2. split; [|done]. cbn. apply list_lookup_insert_eq. by eapply lookup_lt_Some. }
    split; [|split; [done|split; [done|]]].
    + intros E. cbn. destruct (decide (h = qh i)) as [->|Hne].
      * apply bool_decide_eq_true in E. subst vs. rewrite list_lookup_insert_eq by done. eauto.
      * rewrite list_lookup_insert_ne by done. auto.
    + eapply Forall_impl; [exact HF|]. intros t (cap & z & got & Hv & Ht). exists cap, z, got. by rewrite Ev.
Qed.

(** A critical section of receiver [i] on queue [h]. *)
Lemma wp_section {R} i n L e K h (f : Queue T -> R * Queue T) Q x :
  (i < nr)%nat -> (h <= nr)%nat -> own i n L e K x ->
  (forall q, q_capacity q = (if (h =? 1)%nat then None else Some PREFETCH_LIMIT) ->
     (h = qh i -> e = true -> q_values q = []) ->
     exists vs L2, (f q).2 = mkQueue vs (q_capacity q) /\ vs ++ L2 ≡ₚ q_values q ++ L /\
       (h = qh i \/ h = 1%nat \/ (length vs <= length (q_values q))%nat) /\
       forall y, own i n L2 (if decide (h = qh i) then bool_decide (vs = []) else e) K y -> Q (f q).1 y) ->
  wp mguar i (on_queues (locked h f)) Q x.
Proof.
  intros Hi Hh Hx Hf. unfold locked, atomic, on_queues. cbn [focus lift bind].
  eapply (wp_act _ i _ _ _ _ _ (own_stable _ _ _ _ _ _ _ i n L e K Hi) Hx). clear x Hx. intros s g H. cbn [fst snd].
  pose proof H as (Hm & _ & He & _). destruct (mo_lens _ _ _ _ _ _ _ _ Hm) as (_ & _ & _ & _ & _ & L6). cbn [fst] in L6.
  destruct (lookup_lt_is_Some_2 (sh_queues s) h) as [q Hq]; [lia|]. rewrite Hq.
  destruct (Hf q) as (vs & L2 & Ef & Ep & Hlen & HQ).
  { by apply (mo_queues _ _ _ _ _ _ _ _ Hm). }
  { intros -> Ee. destruct (He Ee) as (q1 & Hq1 & Hv). cbn in Hq1. congruence. }
  destruct (queue_step i n L e K s g h q vs L2 Hi H Hq Ep Hlen) as (g' & Hg & Hy).
  destruct (f q) as [r q'] eqn:Efq. cbn [fst snd] in *. subst q'. exists g'. split; [exact Hg|].
  eapply wp_ret_own; [done|exact Hy|exact HQ].
Qed.

Lemma wp_WorkQueue_pop i n L e K h x :
  (i < nr)%nat -> (h <= nr)%nat -> own i n L e K x ->
  wp mguar i (on_queues (WorkQueue_pop h)) (fun o y =>
    own i n (L ++ option_list o) (if decide (h = qh i) then bool_decide (o = None) || e else e) K y) x.
Proof.
  intros Hi Hh Hx. eapply wp_section; [done|done|exact Hx|]. intros [[|v vs] c] _ Hempty; cbn in *.
  - exists [], L. split_and!; [done|done|auto|]. intros y Hy. rewrite app_nil_r. by destruct (decide (h = qh i)).
  - exists vs, (L ++ [v]). split_and!; [done|perm|auto|]. intros y Hy. destruct (decide (h = qh i)); [|done].
    destruct e; [by specialize (Hempty ltac:(done) eq_refl)|]. eapply own_weaken; [exact Hy|done..].
Qed.

Lemma wp_WorkQueue_len i n L e K h x :
  (i < nr)%nat -> (h <= nr)%nat -> own i n L e K x ->
  wp mguar i (on_queues (WorkQueue_len h)) (fun _ => own i n L e K) x.
Proof.
  intros Hi Hh Hx. eapply wp_section; [done|done|exact Hx|]. intros [vs c] _ Hempty; cbn in *.
  exists vs, L. split_and!; [done|done|auto|]. intros y Hy. destruct (decide (h = qh i)); [|done].
  eapply own_weaken; [exact Hy|done..|]. intros ->. apply bool_decide_eq_true. auto.
Qed.

(** A receiver pushes into its own empty queue, or to the orphaned work. *)
Lemma wp_WorkQueue_push_batch i n L e K h vs L' x :
  (i < nr)%nat -> (h = qh i /\ e = true /\ zlength vs <= PREFETCH_LIMIT) \/ (h = 1%nat /\ (1 <= nr)%nat) ->
  own i n L e K x -> L ≡ₚ L' ++ vs ->
  wp mguar i (on_queues (WorkQueue_push_batch h vs)) (fun _ => own i n L' (if decide (h = qh i) then false else e) K) x.
Proof.
  intros Hi Hh Hx E. unfold WorkQueue_push_batch, on_queues. apply wp_lift_bind.
  eapply (wp_call _ _ _ _ (fun b y => b = true /\ own i n L' (if decide (h = qh i) then false else e) K y)).
  - eapply wp_section; [done|destruct Hh as [[-> _]|[-> ?]]; [pose proof (qh_lt i nr Hi)|]; lia|exact Hx|].
    intros [qs c] Hc Hempty. cbn [q_values q_capacity] in *.
    assert (Hfit : match c with Some c => zlength qs + zlength vs <= c | None => True end).
    { rewrite Hc. destruct Hh as [(-> & He & Hl)|[-> _]]; [|done]. rewrite (proj2 (Nat.eqb_neq _ _) (qh_not_orphaned i)).
      rewrite (Hempty eq_refl He), zlength_nil. lia. }
    rewrite (push_values_fits _ _ _ Hfit). cbn. exists (qs ++ vs), L'. split_and!; [done| | |].
    + rewrite E. perm.
    + destruct Hh as [(-> & _)|[-> _]]; auto.
    + intros y Hy. split; [done|]. destruct (decide (h = qh i)); [|done]. eapply own_weaken; [exact Hy|done..].
  - intros b y [-> Hy]. by eapply wp_ret_own.
Qed.

(** A steal into the receiver's own empty queue. *)
Lemma wp_WorkQueue_steal i n L K h x :
  (i < nr)%nat -> (h <= nr)%nat -> h <> qh i -> own i n L true K x ->
  wp mguar i (on_queues (WorkQueue_steal_batch_into h (qh i))) (fun o => own i n (L ++ option_list o) (bool_decide (o = None)) K) x.
Proof.
  intros Hi Hh Hne Hx. unfold WorkQueue_steal_batch_into, on_queues. apply wp_lift_bind.
  eapply (wp_call _ _ _ _ (fun o y => match o with
    | None => own i n L true K y | Some (v, l) => zlength l <= PREFETCH_LIMIT /\ own i n (L ++ [v] ++ l) true K y end)).
  - eapply wp_section; [done|done|exact Hx|]. intros [[|v vs] c] _ _; cbn [steal_section q_values q_capacity fst snd].
    + exists [], L. split_and!; [done|done|auto|]. intros y Hy. by rewrite decide_False in Hy.
    + set (m := Z.to_nat _). exists (drop m vs), (L ++ [v] ++ take m vs). split_and!; [done| | |].
      * rewrite <- (take_drop m vs) at 3. change (drop m vs ++ L ++ [v] ++ take m vs ≡ₚ ([v] ++ (take m vs ++ drop m vs)) ++ L). perm.
      * right. right. rewrite length_drop. cbn. lia.
      * intros y Hy. rewrite decide_False in Hy by done. split; [|done]. unfold zlength. rewrite length_take. subst m.
        unfold STEAL_BATCH_LIMIT, PREFETCH_LIMIT. lia.
  - intros [[v l]|] y; [intros [Hl Hy]|intros Hy].
    + apply wp_lift_bind. eapply wp_call.
      * eapply (wp_WorkQueue_push_batch i n _ true K (qh i) l (L ++ [v])); [done|auto|exact Hy|]. by rewrite (assoc_L (++)).
      * intros u z Hz. rewrite decide_True in Hz by done. by eapply wp_ret_own.
    + eapply wp_ret_own; [done|exact Hy|]. intros z Hz. cbn. by rewrite app_nil_r.
Qed.

End work.
