(* ===== verification/MpmcRecvConc.v ===== *)
(** * MPMC receivers under every interleaving

    The receiving operations of [src/src/mpmc/receiver.rs] and
    [src/src/mpmc/receiver/drain.rs] while the other receivers and the senders
    run: staged work, stealing, the scan for a ready lane and the drain of the
    lane that was found.  Each operation is given the number of group words it
    may change. *)

From S2P Require Import Prelude Prog Config Blocking Wait Ready YRing YRingInv YRingSpec YRingThm YRingConc YRingClose Handoff Publication Work MpmcShared Mpmc MpmcConc MpmcTokens MpmcLaneConc.
Local Open Scope prog_scope.

Lemma urem_ret {S} a b : 0 < b -> urem (S := S) a b = Ret (a mod b).
Proof. intros H. unfold urem. destruct (Z.eqb_spec b 0); [lia|done]. Qed.

(** Indexing round a list. *)
Lemma zlookup_mod {A} (P : A -> Prop) (l : list A) a : l <> [] -> Forall P l ->
  0 < zlength l /\ exists v, zlookup l (a mod zlength l) = Some v /\ P v.
Proof.
  intros Hl HP. assert (0 < zlength l) by (destruct l; [done|]; rewrite zlength_cons; pose proof (zlength_nonneg l); lia).
  split; [done|]. destruct (zlookup_is_Some l (a mod zlength l)) as [v Hv]; [by apply Z.mod_pos_bound|].
  exists v. split; [done|]. by eapply zlookup_Forall.
Qed.

(** What the receiving operations rely on in the channel's topology. *)
Record topology_ok (caps : list Z) (np : nat) (ids : list Z) (tp : ReadyTopology) : Prop := {
  to_pages : top_pages tp = Z.of_nat <$> seq 0 np;
  to_some : (0 < np)%nat /\ top_ready_groups tp <> [] /\ top_work_groups tp <> [];
  to_groups : Forall (fun gh => 0 <= gh < zlength ids) (top_ready_groups tp) /\
    Forall (fun gh => 0 <= gh < zlength ids) (top_work_groups tp);
  to_lanes : forall k, (k < length caps)%nat -> Z.of_nat k / LANES_PER_PAGE < Z.of_nat np
}.

Section recv.
Context {T : Type} {CQ AS : Type -> Type} {HCQ : ConcurrentQueue CQ} {LCQ : ConcurrentQueueLaws CQ} {HAS : ArcSwap AS}.
Context (caps : list Z) (nr np : nat) (ids : list Z) (tp : ReadyTopology) (gen : Z) (budget : nat).
#[local] Abbreviation Sh := (Shared (T := T) (CQ := CQ) (AS := AS)).
#[local] Abbreviation Page := (LanePage (CQ := CQ)).
#[local] Abbreviation ns := (length caps).
#[local] Abbreviation ringst := (Ring T * ghost T)%type.
#[local] Abbreviation mst := (mst (T := T) (CQ := CQ) (AS := AS)).
#[local] Abbreviation view := (view (T := T) (CQ := CQ) (AS := AS) caps).
#[local] Abbreviation mok := (mok (T := T) (CQ := CQ) (AS := AS) caps nr np ids tp gen budget).
#[local] Abbreviation mguar := (mguar (T := T) (CQ := CQ) (AS := AS) caps nr np ids tp gen budget).
#[local] Abbreviation own := (own (T := T) (CQ := CQ) (AS := AS) caps nr np ids tp gen budget).
Implicit Types (s : Sh) (z : ringst) (L : list T) (x y : mst).

#[local] Abbreviation own_party := (own_party (T := T) (CQ := CQ) (AS := AS) caps nr np ids tp gen budget).
#[local] Abbreviation found := (found (T := T) (CQ := CQ) (AS := AS) caps nr np ids tp gen budget).
Context (topo : topology_ok caps np ids tp) (weak : list bool) (enough : (budget < sure weak)%nat) (fuel : nat).

(** The handle of receiver [j], which knows the current topology if [cur]. *)
Definition is_rx (cur : bool) (j : nat) (rx : Receiver (T := T)) : Prop :=
  rcv_id rx = Z.of_nat j /\ rcv_local rx = qh j /\
  (if cur then rcv_ready rx = tp /\ seen_ready_generation rx = gen else seen_ready_generation rx = gen -> rcv_ready rx = tp) /\
  0 <= ready_page_cursor rx < 64.

(** Receiver [j] received [L], and its handle is [rx]; [o] is the lane it
    found. *)
Definition held (cur : bool) (j n : nat) L (e : bool) (o : option Lane) (rx : Receiver (T := T)) x : Prop :=
  is_rx cur j rx /\ found j n (L ++ rcv_private rx) e [] o x.

Lemma held_stable cur j n L e o rx : (j < nr)%nat -> stable mguar j (held cur j n L e o rx).
Proof.
  intros Hj x y [H1 H2] Hr. split; [done|]. destruct (found_own _ _ _ _ _ _ _ _ _ _ _ _ _ _ H2) as (K' & K1 & K2 & _).
  apply K2. by eapply own_stable.
Qed.

Lemma wp_ret_held {A} cur j n L e o rx (a : A) Q x :
  (j < nr)%nat -> held cur j n L e o rx x -> (forall y, held cur j n L e o rx y -> Q a y) -> wp mguar j (Ret a) Q x.
Proof. intros Hj Hx HQ. by apply (wp_retP _ j (held cur j n L e o rx)); [apply held_stable| |]. Qed.

Lemma held_weaken cur j n n' L e e' o rx x :
  held cur j n L e o rx x -> (n' <= n)%nat -> (e' = true -> e = true) -> held cur j n' L e' o rx x.
Proof.
  intros [H1 H2] Hn He. split; [done|]. destruct o as [l|]; cbn in *.
  - destruct H2 as [k H2]. exists k. by eapply own_weaken.
  - by eapply own_weaken.
Qed.

(** Accesses that no token depends on. *)
Lemma held_party cur j L e rx : (j < nr)%nat -> party caps nr np ids tp gen budget j (fun n => held cur j n L e None rx).
Proof.
  intros Hj. destruct (own_party j (L ++ rcv_private rx) e [] Hj) as [P1 P2 P3 P4]. split.
  - intros n. by apply held_stable.
  - intros n x [_ H]. by eapply P2.
  - intros n x [_ H]. by eapply P3.
  - intros n n' s s' g g' [H1 H2] H3 H4 H5 H6 H7. split; [done|]. by eapply P4.
Qed.

(** ** Topology *)

Lemma held_forget cur j n L e o rx x : held true j n L e o rx x -> held cur j n L e o rx x.
Proof. intros [(H1 & H2 & [H3 H4] & H5) H]. split; [|done]. split; [done|]. split; [done|]. split; [by destruct cur|done]. Qed.

(** Loads of the topology and of its generation. *)
Lemma wp_load_generation {C} cur j n L e rx (c : Z -> prog Sh C) Q x :
  (j < nr)%nat -> held cur j n L e None rx x -> (forall y, held cur j n L e None rx y -> wp mguar j (c gen) Q y) ->
  wp mguar j (bind (load sh_ready_generation) c) Q x.
Proof.
  intros Hj Hx Hc. eapply (wp_load_fixed _ _ _ _ _ _ _ j _ (held_party cur j L e rx Hj) _ _ gen); [|exact Hx|exact Hc].
  by intros s (_ & ? & _).
Qed.

Lemma wp_ready_snapshot cur j n L e rx f x :
  (j < nr)%nat -> held cur j n L e None rx x ->
  wp mguar j (Shared_ready_snapshot f) (fun r y => r = (tp, gen) /\ held cur j n L e None rx y) x.
Proof.
  intros Hj Hx. assert (H : forall p, p = Shared_ready_snapshot f -> wp mguar j p (fun r y => r = (tp, gen) /\ held cur j n L e None rx y) x); [|by apply H].
  intros p Ep. destruct f; cbn [Shared_ready_snapshot] in Ep; subst p.
  all: eapply wp_load_generation; [done|exact Hx|]; clear x Hx; intros x Hx.
  all: eapply (wp_load_fixed _ _ _ _ _ _ _ j _ (held_party cur j L e rx Hj) _ _ tp); [by intros s (? & _)|exact Hx|]; clear x Hx; intros x Hx.
  all: eapply wp_load_generation; [done|exact Hx|]; clear x Hx; intros x Hx.
  all: rewrite Z.eqb_refl; eapply (wp_ret_held cur j n L e None rx); [done|exact Hx|done].
Qed.

Lemma wp_mpmc_refresh {C} cur j n L e rx (c : Receiver -> prog Sh C) Q x :
  (j < nr)%nat -> held cur j n L e None rx x ->
  (forall rx y, held true j n L e None rx y -> wp mguar j (c rx) Q y) ->
  wp mguar j (bind (Receiver_refresh_ready_topology fuel rx) c) Q x.
Proof.
  intros Hj Hx Hc. eapply (wp_call _ _ _ _ (fun r => held true j n L e None r)); [|auto].
  unfold Receiver_refresh_ready_topology. eapply wp_load_generation; [done|exact Hx|]. clear x Hx. intros x Hx.
  destruct (Z.eqb_spec gen (seen_ready_generation rx)) as [E|E].
  - eapply (wp_ret_held true j n L e None rx); [done| |done]. destruct Hx as [(R1 & R2 & R3 & R4) Hf]. split; [|done].
    split; [done|]. split; [done|]. split; [|done]. destruct cur; [done|]. split; [by apply R3|done].
  - eapply wp_call; [by eapply wp_ready_snapshot|]. clear x Hx. intros r x [-> Hx].
    eapply (wp_ret_held true j n L e None (set_ready tp gen rx)); [done| |done]. by destruct Hx as [(R1 & R2 & R3 & R4) Hf].
Qed.

Lemma wp_has_ready {C} cur j n L e rx gh (c : bool -> prog Sh C) Q x :
  (j < nr)%nat -> 0 <= gh < zlength ids -> held cur j n L e None rx x ->
  (forall b y, held cur j n L e None rx y -> wp mguar j (c b) Q y) ->
  wp mguar j (bind (on_index (ReadyGroup_has_ready gh)) c) Q x.
Proof.
  intros Hj Hg Hx Hc. eapply (wp_on_index_quiet _ _ _ _ _ _ _ j _ (held_party cur j L e rx Hj) _ _ (fun _ => True)); [|exact Hx|auto].
  by apply index_quiet_group_read.
Qed.

Lemma wp_mpmc_any_ready cur j n L e rx groups x :
  (j < nr)%nat -> Forall (fun gh => 0 <= gh < zlength ids) groups -> held cur j n L e None rx x ->
  wp mguar j (any_ready groups) (fun _ => held cur j n L e None rx) x.
Proof.
  intros Hj HF. revert x. induction HF as [|gh groups Hg _ IH]; intros x Hx; cbn [any_ready].
  - by eapply wp_ret_held.
  - eapply wp_has_ready; [done|done|exact Hx|]. intros [] y Hy; [by eapply wp_ret_held|by apply IH].
Qed.

Lemma wp_has_ready_lane cur j n L e rx x :
  (j < nr)%nat -> held cur j n L e None rx x ->
  wp mguar j (Receiver_has_ready_lane fuel rx) (fun r => held true j n L e None r.2) x.
Proof.
  intros Hj Hx. unfold Receiver_has_ready_lane. eapply wp_mpmc_refresh; [done|exact Hx|]. clear x Hx rx. intros rx x Hx.
  pose proof Hx as [(_ & _ & [-> _] & _) _]. destruct (to_groups _ _ _ _ topo) as [G1 G2].
  eapply wp_call; [by apply (wp_mpmc_any_ready true j n L e rx)|]. clear x Hx. intros [] x Hx; [by apply (wp_ret_held true j n L e None rx)|].
  eapply wp_call; [by apply (wp_mpmc_any_ready true j n L e rx)|]. clear x Hx. intros b x Hx. by apply (wp_ret_held true j n L e None rx).
Qed.

(** ** Staged work *)

Lemma wp_pop_staged cur j n L e rx x :
  (j < nr)%nat -> held cur j n L e None rx x ->
  wp mguar j (Receiver_pop_staged rx) (fun r => held cur j n (L ++ option_list r.1) (bool_decide (r.1 = None)) None r.2) x.
Proof.
  intros Hj [Hrx Hx]. unfold Receiver_pop_staged. cbn [MpmcLaneConc.found] in Hx. destruct (rcv_private rx) as [|v vs] eqn:Ep.
  - pose proof Hrx as (_ & -> & _). rewrite app_nil_r in Hx. eapply wp_call.
    + eapply wp_WorkQueue_pop; [done|pose proof (qh_lt j nr Hj); lia|exact Hx].
    + intros o y Hy. cbn beta in Hy. rewrite decide_True in Hy by done. eapply (wp_ret_held cur j n _ (bool_decide (o = None)) None rx); [done| |done].
      split; [done|]. cbn. rewrite Ep, app_nil_r. eapply own_weaken; [exact Hy|done..|]. by intros ->.
  - eapply (wp_ret_held cur j n (L ++ [v]) false None (set_private vs rx)); [done| |done].
    split; [done|]. cbn. eapply own_weaken; [exact Hx|done| |done]. by rewrite <- (assoc_L (++)).
Qed.

(** The work queues, by the receiver's number. *)
Definition queue_table : list (Z * nat) := (fun j => (Z.of_nat j, qh j)) <$> seq 0 nr.

Lemma queue_table_lookup a : (0 < nr)%nat -> 0 < zlength queue_table /\
  exists k, (k < nr)%nat /\ zlookup queue_table (a mod zlength queue_table) = Some (Z.of_nat k, qh k).
Proof.
  intros Hn. destruct (zlookup_mod (fun p => exists k, (k < nr)%nat /\ p = (Z.of_nat k, qh k)) queue_table a) as (H1 & v & H2 & k & H3 & ->).
  - unfold queue_table. destruct nr; [lia|done].
  - apply Forall_fmap, Forall_forall. intros k Hk%elem_of_seq. exists k. split; [lia|done].
  - eauto.
Qed.

Lemma wp_held_aside {B C} cur j n L e rx (p : prog Sh B) (c : B -> prog Sh C) Q x :
  (j < nr)%nat -> aside p -> held cur j n L e None rx x ->
  (forall b y, held cur j n L e None rx y -> wp mguar j (c b) Q y) -> wp mguar j (bind p c) Q x.
Proof. intros Hj Hp Hx Hc. by eapply (wp_on_aside _ _ _ _ _ _ _ j _ (held_party cur j L e rx Hj)). Qed.

Lemma wp_steal_loop cur j n L count : (j < nr)%nat -> forall offset rx x,
  held cur j n L true None rx x ->
  wp mguar j (steal_loop count offset queue_table rx) (fun r =>
    held cur j n (L ++ option_list r.1) (bool_decide (r.1 = None)) None r.2) x.
Proof.
  intros Hj. induction count as [|count IH]; intros offset rx x Hx; cbn [steal_loop].
  { eapply (wp_ret_held cur j n L true None rx); [done|exact Hx|]. intros y Hy. cbn. by rewrite app_nil_r. }
  destruct (queue_table_lookup (steal_cursor rx + offset) ltac:(lia)) as (Hl & k & Hk & Ek). rewrite urem_ret by done. cbn [bind].
  unfold index_or_panic. rewrite Ek. cbn [option_or_fault bind].
  eapply (wp_call _ _ _ _ (fun b y => (b = false -> k <> j) /\ held cur j n L true None rx y)).
  { pose proof Hx as [(Eid & _) _]. rewrite Eid. destruct (Z.eqb_spec (Z.of_nat k) (Z.of_nat j)).
    - eapply (wp_ret_held cur j n L true None rx); [done|exact Hx|]. intros y Hy. by split.
    - destruct Hx as [Hrx Hx]. eapply wp_call; [eapply wp_WorkQueue_len; [done|pose proof (qh_lt k nr Hk); lia|exact Hx]|].
      intros len y Hy. eapply (wp_ret_held cur j n L true None rx); [done|by split|]. intros z Hz. split; [congruence|done]. }
  clear x Hx. intros [] x [Hne Hx]; [by apply IH|]. specialize (Hne eq_refl).
  eapply wp_held_aside; [done|apply aside_begin|exact Hx|]. clear x Hx. intros _ x [Hrx Hx]. pose proof Hrx as (_ & -> & _).
  eapply wp_call.
  { eapply (wp_WorkQueue_steal _ _ _ _ _ _ _ j n _ [] (qh k)); [done|pose proof (qh_lt k nr Hk); lia|by intros E%qh_inj|exact Hx]. }
  clear x Hx. intros o x Hx. assert (Hx' : held cur j n (L ++ option_list o) (bool_decide (o = None)) None rx x).
  { split; [done|]. cbn. eapply own_weaken; [exact Hx|done| |done]. perm. }
  eapply wp_held_aside; [done|apply aside_end|exact Hx'|]. clear x Hx Hx'. intros _ x Hx. destruct o as [v|].
  - eapply (wp_ret_held cur j n (L ++ [v]) false None (set_steal_cursor (wrapping_add ((steal_cursor rx + offset) mod zlength queue_table) 1) rx)); [done|exact Hx|done].
  - cbn in Hx. rewrite app_nil_r in Hx. by apply IH.
Qed.

(** What [pop_work] returns. *)
Definition work_value (w : WorkPop T) : option T := match w with WorkItem v => Some v | WorkEmpty _ => None end.

Lemma wp_pop_work cur j n L e rx x :
  (j < nr)%nat -> held cur j n L e None rx x ->
  wp mguar j (Receiver_pop_work fuel rx) (fun r =>
    held cur j n (L ++ option_list (work_value r.1)) (bool_decide (work_value r.1 = None)) None r.2) x.
Proof.
  intros Hj Hx. unfold Receiver_pop_work. eapply wp_call; [by eapply wp_pop_staged|]. clear x Hx. intros [o rx'] x Hx. cbn [fst snd] in *.
  destruct o as [v|].
  { eapply (wp_ret_held cur j n (L ++ [v]) false None rx'); [done|exact Hx|done]. }
  cbn in Hx. rewrite app_nil_r in Hx. clear rx. rename rx' into rx.
  eapply wp_held_aside; [done|apply aside_publications; by intros r|exact Hx|]. clear x Hx. intros g x Hx.
  eapply (wp_load_fixed _ _ _ _ _ _ _ j _ (held_party cur j L true rx Hj) _ _ 1%nat); [|exact Hx|].
  { by intros s (_ & _ & _ & _ & ? & _). }
  clear x Hx. intros x [Hrx Hx]. eapply wp_call; [eapply wp_WorkQueue_pop; [done|lia|exact Hx]|].
  clear x Hx. intros o x Hx. cbn beta in Hx. rewrite decide_False in Hx by (intros E; by apply (qh_not_orphaned j)).
  assert (Hx' : held cur j n (L ++ option_list o) true None rx x).
  { split; [done|]. cbn. eapply own_weaken; [exact Hx|done| |done]. perm. }
  clear Hx. destruct o as [v|].
  { eapply (wp_ret_held cur j n (L ++ [v]) false None rx); [done|by eapply held_weaken|done]. }
  cbn in Hx'. rewrite app_nil_r in Hx'. eapply wp_call; [by eapply wp_has_ready_lane|]. clear x Hx' Hrx rx. intros [ready rx] x Hx. apply (held_forget cur) in Hx. cbn [snd] in Hx.
  assert (Hempty : forall r x, held cur j n L true None r x -> wp mguar j (Ret (WorkEmpty g, r)) (fun r =>
    held cur j n (L ++ option_list (work_value r.1)) (bool_decide (work_value r.1 = None)) None r.2) x).
  { intros r y Hy. eapply (wp_ret_held cur j n L true None r); [done|exact Hy|]. intros z Hz. cbn. by rewrite app_nil_r. }
  destruct ready; [by apply Hempty|].
  eapply (wp_load_fixed _ _ _ _ _ _ _ j _ (held_party cur j L true rx Hj) _ _ queue_table); [|exact Hx|].
  { by intros s (_ & _ & _ & ? & _). }
  clear x Hx. intros x Hx. eapply wp_call; [by eapply wp_steal_loop|]. clear x Hx. intros [o rx'] x Hx. cbn [fst snd] in *.
  destruct o as [v|].
  { eapply (wp_ret_held cur j n (L ++ [v]) false None rx'); [done|exact Hx|done]. }
  cbn in Hx. rewrite app_nil_r in Hx. destruct (queue_table_lookup 0 ltac:(lia)) as (Hl & _).
  destruct (Z.eqb_spec (zlength queue_table) 0); [lia|]. cbn [negb]. rewrite urem_ret by done. cbn [bind]. apply Hempty.
  exact Hx.
Qed.

(** ** Acquiring a lane *)

Lemma wp_ret_found_lane {A} j n L e o rx rx' (a : A) Q x :
  (j < nr)%nat -> found j n (L ++ rcv_private rx) e [] o x -> is_rx true j rx' -> rcv_private rx' = rcv_private rx ->
  (forall y, held true j n L e o rx' y -> Q a y) -> wp mguar j (Ret a) Q x.
Proof.
  intros Hj Hx Hrx Ep HQ. eapply (wp_ret_held true j n L e o rx'); [done| |exact HQ]. split; [done|]. by rewrite Ep.
Qed.

(** The cursors after a page bit was claimed. *)
Lemma wp_advance {C} j n L e rx gh gi count bit (c : Z * Receiver -> prog Sh C) Q x :
  (j < nr)%nat -> held true j n L e None rx x -> 0 < count -> 0 <= gh < zlength ids -> page_of np ids gh bit ->
  (forall p rx' y, (p < np)%nat -> held true j n L e None rx' y -> wp mguar j (c (Z.of_nat p, rx')) Q y) ->
  wp mguar j (bind (advance_cursors gh gi count bit rx) c) Q x.
Proof.
  intros Hj Hx Hcnt Hg [Hb (id & Eid & Hp)] Hc. eapply (wp_call _ _ _ _ (fun r y => exists p, (p < np)%nat /\ r.1 = Z.of_nat p /\ held true j n L e None r.2 y)).
  - unfold advance_cursors. rewrite urem_ret by done. cbn [bind].
    eapply (wp_on_index_quiet _ _ _ _ _ _ _ j _ (held_party true j L e rx Hj) _ _ (fun i => i = id)); [|exact Hx|].
    { apply index_quiet_group_read; [done|]. intros g _ Hgid. congruence. }
    clear x Hx. intros i x Hx ->. pose proof Hx as [(R1 & R2 & [R3 R4] & R5) Hf]. rewrite R3.
    destruct (to_some _ _ _ _ topo) as (Hnp & _). assert (Hl : zlength (top_pages tp) = Z.of_nat np).
    { rewrite (to_pages _ _ _ _ topo). unfold zlength. by rewrite length_fmap, length_seq. }
    rewrite urem_ret by lia. cbn [bind]. set (rx' := set_cursors _ _ _ rx).
    eapply (wp_ret_found_lane j n L e None rx rx'); [done|exact Hf| |done|].
    + split_and!; auto; cbn; unfold PAGES_PER_GROUP; pose proof (Z.mod_pos_bound (bit + 1) 64); lia.
    + intros y Hy. cbn [fst snd]. exists (Z.to_nat (id * PAGES_PER_GROUP + bit)). split; [lia|]. split; [lia|]. exact Hy.
  - intros [pid rx'] y (p & Hlt & E & Hy). cbn [fst snd] in *. subst pid. eauto.
Qed.

Lemma wp_find_page {C} j n L e rx p (c : Z -> prog Sh C) Q x :
  held true j n L e None rx x -> (p < np)%nat -> wp mguar j (c (Z.of_nat p)) Q x -> wp mguar j (bind (find_page (Z.of_nat p) rx) c) Q x.
Proof.
  intros [(_ & _ & [E _] & _) _] Hp Hw. unfold find_page. by rewrite E, (zlookup_topology np tp (to_pages _ _ _ _ topo) p Hp).
Qed.

(** How many group words a scan for a lane may change. *)
Definition ready_cost (count : nat) : nat := (65 * count)%nat.
Definition work_cost (count : nat) : nat := (2 * count)%nat.
Definition acquire_cost : nat :=
  (ready_cost (length (top_ready_groups tp)) + work_cost (length (top_work_groups tp)))%nat.

Lemma wp_take_bit {C} j n L e rx gh start (c : option Z -> prog Sh C) Q x :
  (j < nr)%nat -> 0 <= gh < zlength ids -> 0 <= start < 64 -> held true j (S n) L e None rx x ->
  (forall o y, match o with None => held true j (S n) L e None rx y | Some bit => page_of np ids gh bit /\ held true j n L e None rx y end ->
     wp mguar j (c o) Q y) ->
  wp mguar j (bind (on_index (ReadyGroup_take_one_from gh start weak)) c) Q x.
Proof.
  intros Hj Hg Hs Hx Hc. by eapply (wp_take_one _ _ _ _ _ _ _ j _ (held_party true j L e rx Hj)).
Qed.

(** The group of an iteration of a scan. *)
Lemma pick_group (groups : list Z) a : groups <> [] -> Forall (fun gh => 0 <= gh < zlength ids) groups ->
  0 < zlength groups /\ exists gh, zlookup groups (a mod zlength groups) = Some gh /\ 0 <= gh < zlength ids.
Proof. intros. by apply (zlookup_mod (fun gh => 0 <= gh < zlength ids)). Qed.

Lemma wp_work_lane_loop j n L e start page_start count : (j < nr)%nat -> 0 <= page_start < 64 -> forall offset rx x,
  held true j (work_cost count + n) L e None rx x ->
  wp mguar j (work_lane_loop weak count start offset page_start rx) (fun r => held true j n L e r.1 r.2) x.
Proof.
  intros Hj Hps. induction count as [|count IH]; intros offset rx x Hx; cbn [work_lane_loop].
  { eapply (wp_ret_held true j n L e None rx); [done|exact Hx|done]. }
  assert (Hnext : forall m rx y, (work_cost count + n <= m)%nat -> held true j m L e None rx y ->
    wp mguar j (work_lane_loop weak count start (offset + 1) page_start rx) (fun r => held true j n L e r.1 r.2) y).
  { intros m r y Hm Hy. apply IH. by eapply held_weaken. }
  pose proof Hx as [(_ & _ & [-> _] & _) _]. destruct (to_some _ _ _ _ topo) as (_ & _ & Hne). destruct (to_groups _ _ _ _ topo) as [_ HF].
  destruct (pick_group (top_work_groups tp) (start + offset) Hne HF) as (Hl & gh & Eg & Hg). rewrite urem_ret by done. cbn [bind].
  unfold index_or_panic. rewrite Eg. cbn [option_or_fault bind]. eapply wp_has_ready; [done|done|exact Hx|]. clear x Hx. intros has x Hx.
  destruct has; cbn [negb]; [|eapply Hnext; [|exact Hx]; unfold work_cost; lia].
  eapply wp_held_aside; [done|apply aside_begin|exact Hx|]. clear x Hx. intros _ x Hx.
  replace (work_cost (S count) + n)%nat with (S (S (work_cost count + n))) in Hx by (unfold work_cost; lia).
  eapply wp_take_bit; [done|done|done|exact Hx|]. clear x Hx. intros [bit|] x Hx.
  - destruct Hx as [Hp Hx]. eapply wp_advance; [done|exact Hx|done|done|exact Hp|]. clear x Hx rx. intros p rx x Hlt Hx.
    eapply wp_find_page; [exact Hx|done|]. destruct Hx as [Hrx Hx].
    eapply wp_call; [eapply (wp_LanePage_pop_after_claim _ _ _ _ _ _ _ j); [done|done|exact Hx]|]. clear x Hx. intros [l|] x Hx.
    + eapply (wp_ret_found_lane j n L e (Some l) rx rx); [done| |done|done|done]. destruct Hx as [k Hx]. exists k. eapply own_weaken; [exact Hx|lia|done..].
    + eapply wp_held_aside; [done|apply aside_end|by split|]. clear x Hx. intros _ x Hx. by eapply Hnext; [|exact Hx].
  - eapply wp_held_aside; [done|apply aside_end|exact Hx|]. clear x Hx. intros _ x Hx. eapply Hnext; [|exact Hx]. lia.
Qed.

Lemma wp_ready_lane_loop j n L e start page_start count : (j < nr)%nat -> 0 <= page_start < 64 -> forall offset rx x,
  held true j (ready_cost count + n) L e None rx x ->
  wp mguar j (ready_lane_loop weak count start offset page_start rx) (fun r => held true j n L e r.1 r.2) x.
Proof.
  intros Hj Hps. induction count as [|count IH]; intros offset rx x Hx; cbn [ready_lane_loop].
  { eapply (wp_ret_held true j n L e None rx); [done|exact Hx|done]. }
  assert (Hnext : forall m rx y, (ready_cost count + n <= m)%nat -> held true j m L e None rx y ->
    wp mguar j (ready_lane_loop weak count start (offset + 1) page_start rx) (fun r => held true j n L e r.1 r.2) y).
  { intros m r y Hm Hy. apply IH. by eapply held_weaken. }
  pose proof Hx as [(_ & _ & [-> _] & _) _]. destruct (to_some _ _ _ _ topo) as (_ & Hne & _). destruct (to_groups _ _ _ _ topo) as [HF _].
  destruct (pick_group (top_ready_groups tp) (start + offset) Hne HF) as (Hl & gh & Eg & Hg). rewrite urem_ret by done. cbn [bind].
  unfold index_or_panic. rewrite Eg. cbn [option_or_fault bind]. eapply wp_has_ready; [done|done|exact Hx|]. clear x Hx. intros has x Hx.
  destruct has; cbn [negb]; [|eapply Hnext; [|exact Hx]; unfold ready_cost; lia].
  eapply wp_held_aside; [done|apply aside_begin|exact Hx|]. clear x Hx. intros _ x Hx.
  replace (ready_cost (S count) + n)%nat with (S (64 + (ready_cost count + n))) in Hx by (unfold ready_cost; lia).
  eapply wp_take_bit; [done|done|done|exact Hx|]. clear x Hx. intros [bit|] x Hx.
  - destruct Hx as [Hp Hx]. eapply wp_advance; [done|exact Hx|done|done|exact Hp|]. clear x Hx rx. intros p rx x Hlt [Hrx Hx].
    unfold Shared_activate_page. eapply wp_call; [eapply (wp_take_ready_lane _ _ _ _ _ _ _ (to_pages _ _ _ _ topo) j); [done|done|exact Hx]|].
    clear x Hx. intros [l|] x Hx.
    + eapply (wp_ret_found_lane j n L e (Some l) rx rx); [done| |done|done|done]. destruct Hx as [k Hx]. exists k. eapply own_weaken; [exact Hx|lia|done..].
    + eapply wp_held_aside; [done|apply aside_end|by split|]. clear x Hx. intros _ x Hx. by eapply Hnext; [|exact Hx].
  - eapply wp_held_aside; [done|apply aside_end|exact Hx|]. clear x Hx. intros _ x Hx. eapply Hnext; [|exact Hx]. lia.
Qed.

Lemma wp_acquire_ready_lane j n L e rx x :
  (j < nr)%nat -> held true j (ready_cost (length (top_ready_groups tp)) + n) L e None rx x ->
  wp mguar j (Receiver_acquire_ready_lane weak rx) (fun r => held true j n L e r.1 r.2) x.
Proof.
  intros Hj Hx. unfold Receiver_acquire_ready_lane. pose proof Hx as [(_ & _ & [-> _] & Hp) _].
  destruct (to_some _ _ _ _ topo) as (_ & Hne & _). destruct (to_groups _ _ _ _ topo) as [HF _].
  destruct (pick_group (top_ready_groups tp) 0 Hne HF) as (Hl & _). rewrite urem_ret by done. by apply wp_ready_lane_loop.
Qed.

Lemma wp_acquire_work_lane j n L e rx x :
  (j < nr)%nat -> held true j (work_cost (length (top_work_groups tp)) + n) L e None rx x ->
  wp mguar j (Receiver_acquire_work_lane weak rx) (fun r => held true j n L e r.1 r.2) x.
Proof.
  intros Hj Hx. unfold Receiver_acquire_work_lane. pose proof Hx as [(_ & _ & [-> _] & Hp) _].
  destruct (to_some _ _ _ _ topo) as (_ & _ & Hne). destruct (to_groups _ _ _ _ topo) as [_ HF].
  destruct (pick_group (top_work_groups tp) 0 Hne HF) as (Hl & _). rewrite urem_ret by done. by apply wp_work_lane_loop.
Qed.

Lemma wp_acquire_direct_lane j n L e rx x :
  (j < nr)%nat -> held true j n L e None rx x -> wp mguar j (acquire_direct_lane rx) (fun r => held true j n L e r.1 r.2) x.
Proof.
  intros Hj Hx. unfold acquire_direct_lane. pose proof Hx as [(_ & _ & [E _] & _) _]. rewrite E.
  destruct (to_some _ _ _ _ topo) as (Hnp & _).
  destruct (zlookup_mod (fun h => exists p, (p < np)%nat /\ h = Z.of_nat p) (top_pages tp) (direct_page_cursor rx)) as (Hl & h & Eh & p & Hp & ->).
  { rewrite (to_pages _ _ _ _ topo). destruct np; [lia|done]. }
  { rewrite (to_pages _ _ _ _ topo). apply Forall_fmap, Forall_forall. intros p Hp%elem_of_seq. exists p. split; [lia|done]. }
  rewrite urem_ret by done. cbn [bind]. unfold index_or_panic. rewrite Eh. cbn [option_or_fault bind].
  destruct Hx as [Hrx Hx]. eapply wp_call; [by eapply (wp_LanePage_is_empty _ _ _ _ _ _ _ j)|]. clear x Hx. intros [] x Hx.
  { eapply (wp_ret_held true j n L e None rx); [done|by split|done]. }
  eapply wp_held_aside; [done|apply aside_begin|by split|]. clear x Hx. intros _ x [_ Hx].
  eapply wp_call; [eapply (wp_LanePage_pop_direct _ _ _ _ _ _ _ j); [done|done|exact Hx]|]. clear x Hx. intros [l|] x Hx.
  - rewrite urem_ret by done. cbn [bind]. eapply (wp_ret_found_lane j n L e (Some l) rx); [done|exact Hx| | |intros y Hy; exact Hy]; done.
  - eapply wp_held_aside; [done|apply aside_end|by split|]. clear x Hx. intros _ x Hx. by apply (wp_ret_held true j n L e None rx).
Qed.

Lemma wp_acquire_lane cur j n L e rx x :
  (j < nr)%nat -> held cur j (acquire_cost + n) L e None rx x ->
  wp mguar j (Receiver_acquire_lane weak fuel rx) (fun r => held true j n L e r.1 r.2) x.
Proof.
  intros Hj Hx. unfold Receiver_acquire_lane. eapply wp_mpmc_refresh; [done|exact Hx|]. clear x Hx rx. intros rx x Hx.
  set (rc := ready_cost (length (top_ready_groups tp))). set (wc := work_cost (length (top_work_groups tp))).
  set (m := ((if prefer_work rx then rc else 0) + n)%nat).
  eapply (wp_call _ _ _ _ (fun r => held true j (wc + m) L e r.1 r.2)).
  { destruct (prefer_work rx); cbn [negb].
    - eapply (wp_ret_held true j (wc + m) L e None (set_prefer_work false rx)); [done| |done]. eapply held_weaken; [exact Hx| |done].
      unfold m, acquire_cost. fold rc wc. lia.
    - apply (wp_acquire_ready_lane j (wc + m) L e (set_prefer_work _ rx)); [done|]. eapply held_weaken; [exact Hx| |done].
      unfold m, acquire_cost. fold rc wc. lia. }
  assert (Hless : forall o r y n', held true j n' L e o r y -> (n <= n')%nat -> wp mguar j (Ret (o, r)) (fun r => held true j n L e r.1 r.2) y).
  { intros o r y n' Hy Hn. eapply (wp_ret_held true j n L e o r); [done|by eapply held_weaken|done]. }
  clear x Hx. intros [[l|] rx1] x Hx; cbn [fst snd] in Hx; [eapply Hless; [exact Hx|lia]|].
  eapply wp_call; [by eapply wp_acquire_direct_lane|]. clear x Hx. intros [[l|] rx2] x Hx; cbn [fst snd] in Hx; [eapply Hless; [exact Hx|lia]|].
  eapply wp_call; [by eapply wp_acquire_work_lane|]. clear x Hx. intros [[l|] rx3] x Hx; cbn [fst snd] in Hx; [eapply Hless; [exact Hx|lia]|].
  destruct (prefer_work rx); [by apply wp_acquire_ready_lane|]. eapply Hless; [exact Hx|lia].
Qed.

(** ** Draining a lane *)

Lemma wp_take_batch j n L t batch rx x :
  (j < nr)%nat -> is_rx true j rx -> own j n (L ++ rcv_private rx) true [t] x -> ts t = Holding -> 1 <= batch <= ta t -> batch <= PREFETCH_LIMIT ->
  wp mguar j (Receiver_take_batch (tl t) batch rx) (fun r y => exists t', r.1.2 = tl t' /\ popped t t' batch /\
    is_rx true j r.2 /\ own j n ((L ++ [r.1.1]) ++ rcv_private r.2) false [t'] y) x.
Proof.
  intros Hj Hrx Hx Hs Hb Hl. unfold Receiver_take_batch. eapply wp_call; [eapply wp_Lane_pop; [done|exact Hx|done|lia]|].
  clear x Hx. intros [v l] x (c & E & Hx). cbn [fst snd] in *. subst l. set (t1 := tok_with _ _ t) in *.
  eapply (wp_load_fixed _ _ _ _ _ _ _ j _ (own_party j _ true _ Hj) _ _ (Z.of_nat nr)); [|exact Hx|].
  { by intros s (_ & _ & _ & _ & _ & ? & _). }
  clear x Hx. intros x Hx. eapply wp_call; [apply (wp_pop_rest _ _ _ _ _ _ _ j n true [] (Z.to_nat (batch - 1)) Hj ((L ++ rcv_private rx) ++ [v]) t1 []); [exact Hx|done|cbn; lia]|].
  clear x Hx. intros r x (t' & vs & -> & Ev & (P1 & P2 & P3 & P4) & Hx). cbn [app].
  assert (Hpop : popped t t' batch) by (split_and!; [done|done|rewrite P3; cbn; lia|done]).
  destruct (Z.of_nat nr =? 1).
  - eapply wp_ret_own; [done|exact Hx|]. intros y Hy. exists t'. split_and!; [done|done..|]. cbn. eapply own_weaken; [exact Hy|done| |done]. perm.
  - pose proof Hrx as (_ & -> & _). eapply wp_call.
    + eapply (wp_WorkQueue_push_batch _ _ _ _ _ _ _ j n _ true [t'] (qh j) vs ((L ++ [v]) ++ rcv_private rx)); [done| |exact Hx|perm].
      left. split_and!; [done|done|]. unfold zlength. lia.
    + intros u y Hy. cbn beta in Hy. rewrite decide_True in Hy by done. eapply wp_ret_own; [done|exact Hy|]. intros z Hz. exists t'. by split_and!.
Qed.

(** A token that describes its lane as the lane itself does. *)
Definition settled (t : tok) : Prop := ts t = Holding /\ ta t = cached_available (tl t).

Lemma wp_requeue_lane j n L e t rx x :
  (j < nr)%nat -> is_rx true j rx -> own j (S n) L e [t] x -> settled t ->
  wp mguar j (Receiver_requeue_lane (tl t) rx) (fun _ => own j n L e []) x.
Proof.
  intros Hj Hrx Hx [Hs Ha]. unfold Receiver_requeue_lane. destruct (own_tok _ _ _ _ _ _ _ _ _ _ _ _ _ _ Hx) as (_ & _ & -> & _ & _ & Hlt & _).
  cbn [key_slot]. pose proof (to_lanes _ _ _ _ topo _ Hlt) as Hp. unfold find_page. pose proof Hrx as (_ & _ & [-> _] & _).
  assert (0 <= Z.of_nat (tk t) / LANES_PER_PAGE) by (apply Z.div_pos; unfold LANES_PER_PAGE; lia).
  replace (Z.of_nat (tk t) / LANES_PER_PAGE) with (Z.of_nat (Z.to_nat (Z.of_nat (tk t) / LANES_PER_PAGE))) by lia.
  rewrite (zlookup_topology np tp (to_pages _ _ _ _ topo)) by lia. cbn [bind].
  apply wp_LanePage_push; [done|lia|lia|by rewrite Hs|done|exact Hx].
Qed.

Lemma wp_finish_lane j n L e t rx x :
  (j < nr)%nat -> is_rx true j rx -> own j (S n) L e [t] x -> ts t = Holding -> ta t = 0 ->
  wp mguar j (Receiver_finish_lane Deferred (tl t) rx) (fun _ => own j n L e []) x.
Proof.
  intros Hj Hrx Hx Hs Ha. unfold Receiver_finish_lane. eapply wp_call; [by eapply wp_finish_empty_lane|]. clear x Hx.
  assert (Hret : forall (r : Wake * bool) y, own j (S n) L e [] y -> wp mguar j (Ret r) (fun _ => own j n L e []) y).
  { intros r y Hy. eapply wp_ret_own; [done|exact Hy|]. intros z Hz. eapply own_weaken; [exact Hz|lia|done..]. }
  intros [l| |w] x Hx; cbn [finished_lane] in Hx; [|by apply Hret..].
  eapply wp_call; [eapply (wp_requeue_lane j n L e (fresh (tk t) l) rx); [done|done|exact Hx|by split]|].
  clear x Hx. intros u x Hx. eapply wp_ret_own; [done|exact Hx|done].
Qed.

Lemma wp_settle_lane j n L e t rx x :
  (j < nr)%nat -> is_rx true j rx -> own j (S n) L e [t] x -> settled t ->
  wp mguar j (Receiver_settle_lane Deferred (tl t) rx) (fun _ => own j n L e []) x.
Proof.
  intros Hj Hrx Hx Ht. unfold Receiver_settle_lane. destruct (Z.eqb_spec (cached_available (tl t)) 0) as [E|E]; cbn [negb].
  - destruct Ht as [Hs Ha]. apply wp_finish_lane; [done|done|exact Hx|done|lia].
  - eapply wp_call; [by eapply wp_requeue_lane|]. clear x Hx. intros u x Hx. eapply wp_ret_own; [done|exact Hx|done].
Qed.

(** The effects name a lane. *)
Definition effects_ok (e : Effects) : Prop := forall sg, released e = Some sg -> exists k, (k < ns)%nat /\ sg = Z.of_nat k.

(** A drain that may have released slots of lane [k]. *)
Lemma wp_maybe_release j n L e t (b : bool) x :
  (j < nr)%nat -> own j n L e [t] x -> settled t ->
  wp mguar j (if b then Lane_release_pending (tl t) else Ret (false, tl t)) (fun r y =>
    exists t', r.2 = tl t' /\ settled t' /\ ta t' = ta t /\ lane_signal (tl t') = Z.of_nat (tk t) /\ (tk t < ns)%nat /\ own j n L e [t'] y) x.
Proof.
  intros Hj Hx [Hs Ha]. destruct (own_tok _ _ _ _ _ _ _ _ _ _ _ _ _ _ Hx) as (_ & _ & _ & Esg & _ & Hlt & _). destruct b.
  - eapply wp_mono; [|by eapply wp_Lane_release_pending]. intros [b l] y [Hy Ec]. cbn [fst snd] in *.
    destruct (own_tok _ _ _ _ _ _ _ _ _ _ _ _ _ _ Hy) as (_ & _ & _ & Esg' & _). exists (tok_with l (ta t) t). by split_and!.
  - eapply wp_ret_own; [done|exact Hx|]. intros y Hy. exists t. by split_and!.
Qed.

(** What a drain returns. *)
Definition drain_value (d : LaneDrain T) : option T := match d with DrainItem v _ => Some v | DrainEmpty _ => None end.
Definition drain_effects (d : LaneDrain T) : Effects := match d with DrainItem _ e => e | DrainEmpty e => e end.

Lemma wp_drain_lane j n L l rx x :
  (j < nr)%nat -> held true j (S n) L true (Some l) rx x ->
  wp mguar j (Receiver_drain_lane Deferred l rx) (fun r y =>
    held true j n (L ++ option_list (drain_value r.1)) false None r.2 y /\ effects_ok (drain_effects r.1)) x.
Proof.
  intros Hj [Hrx [k Hx]]. unfold Receiver_drain_lane.
  eapply (wp_call _ _ _ _ (fun l y => own j (S n) (L ++ rcv_private rx) true [fresh k l] y)).
  { destruct (Z.eqb_spec (cached_available l) 0) as [E|E].
    - eapply wp_mono; [|by apply (wp_Lane_prefetch _ _ _ _ _ _ _ j (S n) (L ++ rcv_private rx) true (fresh k l) [])]. done.
    - by eapply wp_ret_own. }
  clear x l Hx. intros l x Hx. set (t := fresh k l). assert (Ht : settled t) by done.
  assert (Heff : forall (b : bool) t' w p, lane_signal (tl t') = Z.of_nat k -> (k < ns)%nat ->
    effects_ok (mkEffects (if b then Some (lane_signal (tl t')) else None) w p)).
  { intros b t' w p E Hk s Hs. destruct b; [|done]. cbn in Hs. injection Hs as <-. eauto. }
  destruct (Z.eqb_spec (cached_available l) 0) as [E|E].
  - eapply wp_call; [apply (wp_maybe_release j (S n) (L ++ rcv_private rx) true t true); [done|exact Hx|done]|].
    clear x Hx. intros [b l'] x (t' & El & [Hs Ha'] & Ha & Esg & Hk & Hx). cbn [fst snd] in *. subst l'.
    eapply wp_call; [eapply wp_finish_lane; [done|done|exact Hx|done|by rewrite Ha]|]. clear x Hx. intros [w b'] x Hx.
    eapply (wp_ret_held true j n L false None rx); [done| |].
    + split; [done|]. eapply own_weaken; [exact Hx|done..].
    + intros y Hy. cbn. rewrite app_nil_r. split; [done|]. by apply Heff.
  - destruct (own_tok _ _ _ _ _ _ _ _ _ _ _ _ _ _ Hx) as (_ & _ & _ & _ & _ & _ & Hge). cbn [fresh ta] in Hge.
    set (batch := Z.min (cached_available l) PREFETCH_LIMIT). assert (Hb : 1 <= batch <= ta t /\ batch <= PREFETCH_LIMIT).
    { unfold batch, PREFETCH_LIMIT. cbn. lia. }
    eapply wp_call; [eapply (wp_take_batch j (S n) L t); [done|done|exact Hx|done|apply Hb..]|].
    clear x Hx. intros [[v l1] rx'] x (t1 & El & (P1 & P2 & P3 & P4) & Hrx' & Hx). cbn [fst snd] in *. subst l1.
    rewrite usub_ret by (rewrite P4; apply Hb). cbn [bind]. set (l2 := set_counters _ _ (tl t1)).
    set (t2 := tok_with l2 (ta t1) t1). assert (Ht2 : settled t2) by (split; [done|]; cbn; rewrite P3, P4; done).
    assert (Hx2 : own j (S n) ((L ++ [v]) ++ rcv_private rx') false [t2] x) by by apply own_counters.
    eapply wp_call; [apply (wp_maybe_release j (S n) ((L ++ [v]) ++ rcv_private rx') false t2); [done|exact Hx2|done]|].
    clear x Hx Hx2. intros [b l3] x (t3 & El & Ht3 & _ & Esg & Hk & Hx). cbn [fst snd] in *. subst l3. cbn [t2 tok_with tk] in Esg, Hk. rewrite P1 in Esg, Hk.
    eapply wp_call; [eapply wp_settle_lane; [done|exact Hrx'|exact Hx|done]|]. clear x Hx. intros [w b'] x Hx.
    eapply (wp_ret_held true j n (L ++ [v]) false None rx'); [done|by split|]. intros y Hy. split; [done|]. by apply Heff.
Qed.

(** ** Receiving *)

Lemma aside_when {B} (b : bool) (p q : prog Sh B) : aside p -> aside q -> aside (if b then p else q).
Proof. by destruct b. Qed.

Lemma aside_changed g : aside (on_publications (T := T) (CQ := CQ) (AS := AS) (PublicationTracker_changed_since g)).
Proof. apply aside_publications. by intros r. Qed.
Lemma aside_in_flight : aside (on_publications (T := T) (CQ := CQ) (AS := AS) PublicationTracker_is_in_flight).
Proof. apply aside_publications. by intros r. Qed.

Lemma aside_drained : aside (Receiver_is_drained (T := T) (CQ := CQ) (AS := AS)).
Proof.
  apply aside_bind; [apply aside_bind; [apply aside_load|done]|]. intros b. apply aside_when; [|done].
  apply aside_bind; [apply aside_load|done].
Qed.

Lemma aside_scan g : aside (Receiver_empty_scan_state (T := T) (CQ := CQ) (AS := AS) g).
Proof.
  apply aside_bind; [apply aside_changed|]. intros b. apply aside_when; [done|].
  apply aside_bind; [apply aside_in_flight|]. intros b1. apply aside_when; [done|].
  apply aside_bind; [apply aside_drained|]. intros b2. apply aside_when; [done|].
  apply aside_bind; [apply aside_in_flight|]. intros b3. apply aside_when; [done|].
  apply aside_bind; [apply aside_changed|]. intros b4. by apply aside_when.
Qed.

Lemma wp_apply_effects j n L e rx eff x :
  (j < nr)%nat -> effects_ok eff -> held false j n L e None rx x ->
  wp mguar j (Receiver_apply_effects eff) (fun _ => held false j n L e None rx) x.
Proof.
  intros Hj He Hx. unfold Receiver_apply_effects. eapply (wp_call _ _ _ _ (fun _ => held false j n L e None rx)).
  - destruct (released eff) as [sg|] eqn:Er; [|by eapply wp_ret_held]. destruct (He sg Er) as (k & Hk & ->).
    eapply wp_mono; [|eapply (wp_index_quiet _ _ _ _ _ _ _ j _ (held_party false j L e rx Hj) n _ (fun _ => True)); [|exact Hx]].
    + intros u y [Hy _]. exact Hy.
    + apply (index_quiet_cell _ _ _ k WaitCell_notify Hk). intros r. cbn. by destruct (Z.land r WAITING =? 0).
  - clear x Hx. intros u x Hx. eapply (wp_aside _ _ _ _ _ _ _ j _ (held_party false j L e rx Hj) n); [|exact Hx].
    destruct (wake eff); [done|apply aside_notify..].
Qed.

(** The value a receive returns. *)
Definition recv_value {E} (r : result T E) : list T := match r with Ok v => [v] | Err _ => [] end.

Definition attempts_cost (attempts : nat) : nat := (attempts * S acquire_cost)%nat.

Lemma wp_recv_inner_loop j L attempts : (j < nr)%nat -> forall n flag rx x,
  held false j (attempts_cost attempts + n) L false None rx x ->
  wp mguar j (recv_inner_loop Deferred weak fuel attempts flag rx) (fun r y =>
    held false j n (L ++ recv_value r.1.1) false None r.2 y /\ effects_ok r.1.2) x.
Proof.
  intros Hj. induction attempts as [|attempts IH]; intros n flag rx x Hx; cbn [recv_inner_loop].
  { eapply (wp_ret_held false j n L false None rx); [done|exact Hx|]. intros y Hy. cbn. by rewrite app_nil_r. }
  assert (Hret : forall m e rx (r : result T TryRecvError) eff y, effects_ok eff -> (n <= m)%nat ->
    held false j m (L ++ recv_value r) e None rx y ->
    wp mguar j (Ret (r, eff, rx)) (fun r y => held false j n (L ++ recv_value r.1.1) false None r.2 y /\ effects_ok r.1.2) y).
  { intros m e rx' r eff y He Hm Hy. eapply (wp_ret_held false j n _ false None rx'); [done|by eapply held_weaken|]. intros z Hz. by split. }
  assert (Hagain : forall m e flag rx y, (attempts_cost attempts + n <= m)%nat -> held false j m L e None rx y ->
    wp mguar j (recv_inner_loop Deferred weak fuel attempts flag rx) (fun r y =>
      held false j n (L ++ recv_value r.1.1) false None r.2 y /\ effects_ok r.1.2) y).
  { intros m e fl rx' y Hm Hy. apply IH. by eapply held_weaken. }
  eapply wp_call; [by eapply wp_pop_work|]. clear x Hx rx. intros [[v|g] rx] x Hx; cbn [fst snd work_value option_list] in Hx.
  { eapply Hret; [done| |exact Hx]. lia. }
  rewrite app_nil_r, bool_decide_true in Hx by done. replace (attempts_cost (S attempts) + n)%nat with (acquire_cost + S (attempts_cost attempts + n))%nat in Hx
    by (unfold attempts_cost; lia).
  eapply wp_call; [by eapply wp_acquire_lane|]. clear x Hx rx. intros [[l|] rx] x Hx; cbn [fst snd] in Hx.
  - eapply wp_call; [by eapply wp_drain_lane|]. clear x Hx rx. intros [d rx] x [Hx He]. cbn [fst snd] in *. apply (held_forget false) in Hx.
    eapply wp_held_aside; [done|apply aside_end|exact Hx|]. clear x Hx. intros _ x Hx.
    destruct d as [v eff|eff]; cbn [drain_value drain_effects option_list] in *; [eapply Hret; [done| |exact Hx]; lia|].
    rewrite app_nil_r in Hx. destruct (Effects_has_effect eff); [|by eapply Hagain; [|exact Hx]].
    eapply Hret; [done| |cbn; rewrite app_nil_r; exact Hx]. lia.
  - apply (held_forget false) in Hx. eapply wp_held_aside; [done|apply aside_scan|exact Hx|]. clear x Hx. intros scan x Hx.
    destruct scan; [destruct attempts as [|attempts]; [|eapply Hagain; [|exact Hx]; lia]|..];
      (eapply (Hret _ _ _ (Err _)); [done| |cbn; rewrite app_nil_r; exact Hx]; lia).
Qed.

Definition recv_cost : nat := (2 * attempts_cost 2)%nat.

Lemma wp_recv_lanes_loop j L attempts : (j < nr)%nat -> (0 < attempts)%nat -> forall n rx x,
  held false j (attempts * attempts_cost 2 + n) L false None rx x ->
  wp mguar j (recv_lanes_loop Deferred weak fuel attempts rx) (fun r => held false j n (L ++ recv_value r.1) false None r.2) x.
Proof.
  intros Hj. induction attempts as [|attempts IH]; intros Ha n rx x Hx; [lia|]. cbn [recv_lanes_loop].
  replace (S attempts * attempts_cost 2 + n)%nat with (attempts_cost 2 + (attempts * attempts_cost 2 + n))%nat in Hx by lia.
  eapply wp_call; [by eapply (wp_recv_inner_loop j L 2)|]. clear x Hx rx. intros [[r eff] rx] x [Hx He]. cbn [fst snd] in *.
  eapply wp_call; [by eapply wp_apply_effects|]. clear x Hx. intros u x Hx.
  destruct (Effects_has_effect eff && match r with Err TryRecv_Empty => true | _ => false end) eqn:Ere; cbn [negb orb].
  - destruct attempts as [|attempts].
    + eapply (wp_ret_held false j n _ false None rx); [done|by eapply held_weaken; [exact Hx|lia|]|done].
    + apply andb_true_iff in Ere as [_ Ere]. destruct r as [v|[]]; try done. cbn [recv_value] in Hx. rewrite app_nil_r in Hx.
      apply IH; [lia|exact Hx].
  - eapply (wp_ret_held false j n _ false None rx); [done|by eapply held_weaken; [exact Hx|lia|]|done].
Qed.

(** One receive. *)
Lemma wp_mpmc_try_recv j n L rx x :
  (j < nr)%nat -> held false j (recv_cost + n) L false None rx x ->
  wp mguar j (Receiver_try_recv Deferred weak fuel rx) (fun r => held false j n (L ++ recv_value r.1) false None r.2) x.
Proof.
  intros Hj Hx. unfold Receiver_try_recv. eapply wp_call; [by eapply wp_pop_staged|]. clear x Hx rx. intros [[v|] rx] x Hx; cbn [fst snd option_list] in Hx.
  - eapply (wp_ret_held false j n (L ++ [v]) false None rx); [done| |done]. eapply held_weaken; [exact Hx|lia|done].
  - rewrite app_nil_r in Hx. eapply (wp_recv_lanes_loop j L 2); [done|lia|]. by eapply held_weaken.
Qed.

End recv.
