(* ===== verification/MpmcSendConc.v ===== *)
(** * MPMC senders under every interleaving

    The sending operations of [src/src/mpmc/sender.rs] while the receivers and
    the other senders run.  A sender owns the write side of its ring, whoever
    holds the lane token; each operation that marks its lane costs one credit. *)

From S2P Require Import Prelude Prog Config Blocking Wait Ready YRing YRingInv YRingSpec YRingThm YRingConc YRingClose Handoff Publication Work MpmcShared Mpmc MpmcConc MpmcTokens.
Local Open Scope prog_scope.

Section send.
Context {T : Type} {CQ AS : Type -> Type} {HCQ : ConcurrentQueue CQ} {LCQ : ConcurrentQueueLaws CQ} {HAS : ArcSwap AS}.
Context (caps : list Z) (nr np : nat) (ids : list Z) (tp : ReadyTopology) (gen : Z) (budget : nat).
#[local] Abbreviation Sh := (Shared (T := T) (CQ := CQ) (AS := AS)).
#[local] Abbreviation Page := (LanePage (CQ := CQ)).
#[local] Abbreviation ns := (length caps).
#[local] Abbreviation ringst := (Ring T * ghost T)%type.
#[local] Abbreviation mst := (mst (T := T) (CQ := CQ) (AS := AS)).
#[local] Abbreviation view := (view (T := T) (CQ := CQ) (AS := AS) caps).
#[local] Abbreviation mok := (mok (T := T) (CQ := CQ) (AS := AS) caps nr np ids tp gen budget).
#[local] Abbreviation mguar := (mguar (T := T) (CQ := CQ) (AS := AS) caps nr np ids tp gen budget).
#[local] Abbreviation own := (own (T := T) (CQ := CQ) (AS := AS) caps nr np ids tp gen budget).
Implicit Types (s : Sh) (z : ringst) (L : list T) (x y : mst).

Implicit Types (acc : list T).
#[local] Abbreviation prod := (pa (T := T)).

(** The sender of lane [k] may change a group word [n] more times, and its ring
    satisfies [P]. *)
Definition sending (k n : nat) (P : Z -> ringst -> Prop) x : Prop :=
  mok x /\ (exists c, mg_credits x.2 !! (nr + k)%nat = Some c /\ (n <= c)%nat) /\
  exists cap z pl, view x k = Some (cap, z, pl) /\ P cap z.

Lemma mpmc_sending_stable k n P : (forall cap, stable (guarc cap) 0 (P cap)) -> stable mguar (nr + k) (sending k n P).
Proof.
  intros HP x y (H1 & (c & H2 & H3) & cap & z & pl & Hv & Hp) (j & Hj & Hg & Hl & _ & _ & _ & _ & Hc).
  split; [done|]. split; [exists c; by rewrite Hc|].
  destruct (view_is_Some _ _ _ _ _ _ _ y k Hg (view_lt _ _ _ _ Hv)) as (cap' & z' & pl' & Hv').
  destruct (Hl _ _ _ Hv Hv') as [-> Hs]. exists cap, z', pl'. split; [done|]. destruct (decide (j < nr)%nat).
  - destruct Hs as [Hs _]. eapply HP; [exact Hp|]. by exists 1%nat.
  - destruct Hs as [_ Hs]. rewrite decide_False in Hs by congruence. by subst z'.
Qed.

Lemma sending_step k n P s g :
  sending k n P (s, g) -> exists hr lg cap, sh_rings s !! k = Some hr /\ P cap (hr_ring hr, lg) /\
    forall r' g1 P', guarc cap 0 (hr_ring hr, lg) (r', g1) -> P' cap (r', g1) ->
      exists g', mguar (nr + k) (s, g) (set_sh_rings (<[k := set_hr_ring r' hr]> (sh_rings s)) s, g') /\
        sending k n P' (set_sh_rings (<[k := set_hr_ring r' hr]> (sh_rings s)) s, g').
Proof.
  intros (Hm & Hc & cap & z & pl & Hv & Hp). destruct (view_inv _ _ _ _ _ _ Hv) as (hr & lg & Hk & Hhr & Hlg & -> & ->). cbn [fst snd] in *.
  destruct (mo_ring _ _ _ _ _ _ _ _ Hm _ _ _ _ Hv) as (Ho & Hcl & He). exists hr, (lg_ring lg), cap. split_and!; auto.
  intros r' g1 P' Hg HP'. set (s' := set_sh_rings _ s). set (g' := mkMG (<[k := mkLG g1 (lg_place lg)]> (mg_lanes g)) (mg_held g) (mg_credits g)).
  assert (Hm' : mok (s', g')).
  { apply (mok_ring _ _ _ _ _ _ _ s g k cap hr lg r' g1 _ []); auto.
    - destruct Hg as [Hg _]. apply Hg.
    - apply Hg.
    - intros j Hj. eapply (taken_ended cap (hr_ring hr, lg_ring lg) (r', g1) 0); [lia|done|done|by eapply He].
    - intros _ l. by apply stored_sender.
    - rewrite app_nil_r. by apply (taken_sender cap (hr_ring hr, lg_ring lg) (r', g1)).
    - by rewrite app_nil_r. }
  destruct (view_insert caps (s, g) (s', g') k cap hr lg (set_hr_ring r' hr) (mkLG g1 (lg_place lg)) Hk Hhr Hlg eq_refl eq_refl) as [Vk Vj].
  cbn [hr_ring set_hr_ring lg_ring lg_place] in Vk.
  exists g'. split.
  - split; [done|]. split; [|split; [done|split; [|by apply credit_step_refl]]].
    + intros j v v' H1 H2. destruct (decide (j = k)) as [->|Hne].
      * rewrite Hv in H1. rewrite Vk in H2. injection H1 as <-. injection H2 as <-. split; [done|].
        rewrite decide_False by lia. rewrite decide_True by done. done.
      * eapply (lane_steps_view _ _ _ _ _ _ _ _ (s, g)); [exact Hm| |exact H1|exact H2]. by apply Vj.
    + intros j q _ _ Hq. exists q. done.
  - split; [done|]. split; [done|]. by exists cap, (r', g1), (lg_place lg).
Qed.

(** An operation of the sender's ring. *)
Lemma wp_sending {A} k n (q : prog (Ring T) A) (Q : Z -> A -> ringst -> Prop) x :
  sending k n (fun cap => wp (guarc cap) 0 q (Q cap)) x ->
  wp mguar (nr + k) (on_lane_ring (Z.of_nat k) (on_hring q)) (fun a => sending k n (fun cap => Q cap a)) x.
Proof.
  apply (wp_role _ _ _ _ _ _ _ (nr + k) k 0 (sending k n)).
  - intros P HP. by apply mpmc_sending_stable.
  - intros P P' y HP (H1 & H2 & cap & z & pl & H3 & H4). split; [done|]. split; [done|]. exists cap, z, pl. auto.
  - intros P s g. by apply sending_step.
Qed.

(** The sender of lane [k] has written [acc], and has closed the ring or not. *)
Definition written (p : Producer) acc (closed : bool) (cap : Z) z : Prop := (exists t, prod cap 0 p t acc z) /\ dropped z = closed.
Definition send_ok (k : nat) (p : Producer) acc (closed : bool) (n : nat) x : Prop := sending k n (written p acc closed) x.

Lemma written_stable p acc closed cap : stable (guarc cap) 0 (written p acc closed cap).
Proof.
  intros z z' [[t Ht] Hd] Hr. split; [exists t; by eapply (stablec cap 0); [apply pa_stable|..]|].
  destruct Hr as (j & Hj & _ & Hc & _). destruct j as [|j]; [done|]. cbn in Hc. congruence.
Qed.

Lemma mpmc_send_stable k p acc closed n : stable mguar (nr + k) (send_ok k p acc closed n).
Proof. apply mpmc_sending_stable. intros cap. apply written_stable. Qed.

Lemma send_party k p acc closed : party caps nr np ids tp gen budget (nr + k) (send_ok k p acc closed).
Proof.
  split; [intros n; apply mpmc_send_stable|by intros n x []|by intros n x (_ & H & _)|].
  intros n n' s s' g g' (H1 & H2 & cap & z & pl & H3 & H4) (E1 & _) Hm G1 G2 Hc. split; [done|]. split; [done|].
  exists cap, z, pl. split; [|done]. rewrite <- H3. by apply view_ext.
Qed.

Lemma wp_mpmc_ret_send {A} k p acc closed n (a : A) Q x :
  send_ok k p acc closed n x -> (forall y, send_ok k p acc closed n y -> Q a y) -> wp mguar (nr + k) (Ret a) Q x.
Proof. intros Hx HQ. by apply (wp_retP _ _ (send_ok k p acc closed n)); [apply mpmc_send_stable| |]. Qed.

Lemma mpmc_send_fewer k p acc closed n n' x : send_ok k p acc closed n x -> (n' <= n)%nat -> send_ok k p acc closed n' x.
Proof. intros (H1 & (c & H2 & H3) & H4) H. split; [done|]. split; [exists c; split; [done|lia]|done]. Qed.

Lemma wp_send_aside {B C} k p acc closed n (q : prog Sh B) (c : B -> prog Sh C) Q x :
  aside q -> send_ok k p acc closed n x -> (forall b y, send_ok k p acc closed n y -> wp mguar (nr + k) (c b) Q y) ->
  wp mguar (nr + k) (bind q c) Q x.
Proof. intros Hq Hx Hc. by eapply (wp_on_aside _ _ _ _ _ _ _ _ _ (send_party k p acc closed)). Qed.

(** An operation that does not close the ring. *)
Lemma wp_mpmc_send_ring {A} k p acc n (q : prog (Ring T) A) (P : A -> Producer) (W : A -> list T) x :
  send_ok k p acc false n x -> keeps ring_producer_dropped q ->
  (forall cap z t, prod cap 0 p t acc z -> wp (guar cap 0) 0 q (fun a z => exists t', prod cap 0 (P a) t' (W a) z) z) ->
  wp mguar (nr + k) (on_lane_ring (Z.of_nat k) (on_hring q)) (fun a y => send_ok k (P a) (W a) false n y) x.
Proof.
  intros (H1 & H2 & cap & z & pl & Hv & [t Ht] & Hd) Hk Hw.
  eapply wp_mono; [|apply (wp_sending k n q (fun cap a => written (P a) (W a) false cap))]; [done|].
  split; [done|]. split; [done|]. exists cap, z, pl. split; [done|].
  eapply wp_mono; [|apply wp_keeps; [lia|done|by eapply Hw| |done]]; [done|]. by apply (mo_ring _ _ _ _ _ _ _ _ H1 _ _ _ _ Hv).
Qed.

Lemma wp_mpmc_send_close k p acc closed n x :
  send_ok k p acc closed n x ->
  wp mguar (nr + k) (on_lane_ring (Z.of_nat k) (on_hring (Producer_close p))) (fun _ => send_ok k p acc true n) x.
Proof.
  intros (H1 & H2 & cap & z & pl & Hv & [t Ht] & Hd).
  eapply wp_mono; [|apply (wp_sending k n (Producer_close p) (fun cap _ => written p acc true cap))]; [done|].
  split; [done|]. split; [done|]. exists cap, z, pl. split; [done|]. eapply wp_producer_closec; [exact Ht|].
  by apply (mo_ring _ _ _ _ _ _ _ _ H1 _ _ _ _ Hv).
Qed.

(** ** Marking the lane ready *)

Lemma wp_page_mark k p acc closed n pg bit x :
  0 <= pg < Z.of_nat np -> is_u64 bit -> send_ok k p acc closed (S n) x ->
  wp mguar (nr + k) (on_index (ReadyPage_mark pg bit)) (fun _ => send_ok k p acc closed n) x.
Proof.
  intros Hp Hb Hx. unfold ReadyPage_mark, on_index. apply wp_lift_bind.
  eapply (wp_on_index_quiet _ _ _ _ _ _ _ _ _ (send_party k p acc closed) _ _ (fun r => named np ids r.1.2 r.2)); [|exact Hx|].
  - apply index_quiet_page; [done|]. intros l H1 H2. cbn. split_and!; [done|done|by apply is_u64_lor|done].
  - clear x Hx. intros [[old gh] gb] x Hx Hn. cbn [fst snd] in Hn. destruct (old =? 0).
    + apply wp_bind_ret. eapply (wp_group_mark _ _ _ _ _ _ _ _ _ (send_party k p acc closed)); [exact Hn|exact Hx|].
      intros y Hy. by eapply wp_mpmc_ret_send.
    + eapply wp_mpmc_ret_send; [exact Hx|]. intros y Hy. eapply mpmc_send_fewer; [exact Hy|lia].
Qed.

Lemma mpmc_send_lt k p acc closed n x : send_ok k p acc closed n x -> (k < ns)%nat.
Proof. intros (_ & _ & cap & z & pl & Hv & _). by eapply view_lt. Qed.

Lemma wp_mpmc_mark_ready k p acc closed n x :
  send_ok k p acc closed (S n) x ->
  wp mguar (nr + k) (Shared_mark_ready (Z.of_nat k)) (fun _ => send_ok k p acc closed n) x.
Proof.
  intros Hx. unfold Shared_mark_ready, LaneSignal_mark. unfold on_index at 1. apply wp_lift_bind.
  eapply (wp_on_index_quiet _ _ _ _ _ _ _ _ _ (send_party k p acc closed) _ _ (fun r => 0 <= r.1.2 < Z.of_nat np /\ is_u64 r.2)); [|exact Hx|].
  - apply index_quiet_signal; [by eapply mpmc_send_lt|done|]. by intros l H1 H2.
  - clear x Hx. intros [[old pg] bit] x Hx [Hp Hb]. cbn [fst snd] in *. destruct (old =? IDLE).
    + apply wp_lift_bind. eapply wp_call; [by eapply wp_page_mark|]. clear x Hx. intros u x Hx. eapply wp_mpmc_ret_send; [exact Hx|done].
    + eapply wp_mpmc_ret_send; [exact Hx|]. intros y Hy. eapply mpmc_send_fewer; [exact Hy|lia].
Qed.

(** ** The operations of a sender *)

(** The handle of sender [k]. *)
Definition is_sender (k : nat) (p : Producer) (tx : Sender) : Prop :=
  snd_ring tx = Z.of_nat k /\ snd_signal tx = Z.of_nat k /\ snd_producer tx = mkRProducer p.

Lemma wp_mpmc_push_flush_lane k p acc n v x :
  send_ok k p acc false n x ->
  wp mguar (nr + k) (on_lane_ring (Z.of_nat k) (RProducer_push_and_flush Deferred (mkRProducer p) v)) (fun r y =>
    exists p', r.2 = mkRProducer p' /\ send_ok k p' (acc ++ if is_ok r.1 then [v] else []) false n y) x.
Proof.
  intros Hx. unfold RProducer_push_and_flush, push_then_flush. cbn [COORDINATED negb rp_inner]. unfold on_lane_ring. apply wp_focus_bind.
  eapply wp_call.
  { eapply (wp_mpmc_send_ring k p acc n (Producer_push p v) snd (fun a => acc ++ if is_ok a.1 then [v] else [])); [exact Hx|auto with fanring|].
    intros cap z t Ht. eapply wp_mono; [|eapply wp_push, Ht]. intros [[[]|w] p'] y Hy; cbn [fst snd is_ok].
    - by exists t.
    - destruct Hy as [-> Hy]. exists t. by rewrite app_nil_r. }
  clear x Hx. intros [[[]|w] p'] x Hx; cbn [fst snd is_ok] in Hx.
  - apply wp_focus_bind. eapply wp_call.
    { eapply (wp_mpmc_send_ring k p' (acc ++ [v]) n (Producer_flush p') (fun _ => p') (fun _ => acc ++ [v])); [exact Hx|auto with fanring|].
      intros cap z t Ht. eapply wp_mono; [|eapply wp_flush, Ht]. intros u y Hy. exists (zlength (acc ++ [v])). exact Hy. }
    clear x Hx. intros u x Hx. eapply wp_mpmc_ret_send; [exact Hx|]. intros y Hy. by exists p'.
  - eapply wp_mpmc_ret_send; [exact Hx|]. intros y Hy. by exists p'.
Qed.

(** What a send leaves: it wrote [ws]. *)
Definition sent k acc n (ws : list T) (tx : Sender) x : Prop :=
  exists p, is_sender k p tx /\ send_ok k p (acc ++ ws) false n x.

Lemma wp_ret_sent {A} k p acc ws n tx (a : A) Q x :
  is_sender k p tx -> send_ok k p (acc ++ ws) false n x -> (forall y, sent k acc n ws tx y -> Q a y) -> wp mguar (nr + k) (Ret a) Q x.
Proof. intros Htx Hx HQ. eapply wp_mpmc_ret_send; [exact Hx|]. intros y Hy. apply HQ. by exists p. Qed.

Lemma wp_load_alive {C} k p acc n (c : bool -> prog Sh C) Q x :
  send_ok k p acc false n x -> (forall y, send_ok k p acc false n y -> wp mguar (nr + k) (c true) Q y) ->
  wp mguar (nr + k) (bind (load sh_receiver_alive) c) Q x.
Proof.
  intros Hx Hc. eapply (wp_load_fixed _ _ _ _ _ _ _ _ _ (send_party k p acc false) _ _ true); [|exact Hx|exact Hc].
  by intros s (_ & _ & _ & _ & _ & _ & ?).
Qed.

Lemma wp_mpmc_try_send_inner k p acc n tx v x :
  is_sender k p tx -> send_ok k p acc false (S n) x ->
  wp mguar (nr + k) (Sender_try_send_inner Deferred tx v) (fun r => sent k acc n (if is_ok r.1.1 then [v] else []) r.2) x.
Proof.
  intros Htx Hx. pose proof Htx as (E1 & E2 & E3). unfold Sender_try_send_inner.
  eapply wp_load_alive; [exact Hx|]. clear x Hx. intros x Hx. cbn [negb]. rewrite E1, E3.
  eapply wp_call; [eapply wp_mpmc_push_flush_lane, Hx|]. clear x Hx. intros [r p1] x (p' & E & Hx). cbn [fst snd] in *. subst p1.
  assert (Htx' : is_sender k p' (with_producer (mkRProducer p') tx)) by done.
  destruct r as [[]|w]; cbn [is_ok] in Hx.
  - cbn [snd_signal with_producer]. rewrite E2. eapply wp_call; [eapply wp_mpmc_mark_ready, Hx|]. clear x Hx. intros wake x Hx.
    eapply (wp_ret_sent k p' acc [v] n); [done|exact Hx|done].
  - rewrite app_nil_r in Hx. eapply wp_load_alive; [exact Hx|]. clear x Hx. intros x Hx. cbn [negb].
    eapply (wp_call _ _ _ _ (fun _ => send_ok k p' acc false (S n))).
    { cbn [snd_ring with_producer]. rewrite E1.
      eapply (wp_mpmc_send_ring k p' acc (S n) Producer_is_consumer_dropped (fun _ => p') (fun _ => acc)); [exact Hx|split; done|].
      intros cap z t Ht. change Producer_is_consumer_dropped with (bind (load (S := Ring T) ring_consumer_dropped) (fun u => Ret u)).
      eapply wp_load; [apply pa_owned|exact Ht|]. intros r g H. eapply wp_retP; [apply pa_owned|exact H|eauto]. }
    clear x Hx. intros gone x Hx. eapply (wp_ret_sent k p' acc [] n); [done| |done]. rewrite app_nil_r. eapply mpmc_send_fewer; [exact Hx|lia].
Qed.

Lemma wp_mpmc_try_send k p acc n tx v x :
  is_sender k p tx -> send_ok k p acc false (S n) x ->
  wp mguar (nr + k) (Sender_try_send Deferred tx v) (fun r => sent k acc n (if is_ok r.1 then [v] else []) r.2) x.
Proof.
  intros Htx Hx. unfold Sender_try_send. eapply wp_call; [by eapply wp_mpmc_try_send_inner|].
  clear x Hx p Htx. intros [[r wake] tx'] x (p & Htx & Hx). cbn [fst snd] in *.
  eapply wp_send_aside; [|exact Hx|].
  - destruct wake; [apply aside_notify|done].
  - intros u y Hy. eapply wp_ret_sent; [exact Htx|exact Hy|done].
Qed.

Lemma wp_mpmc_sender_drop k p acc n tx x :
  is_sender k p tx -> send_ok k p acc false (S n) x ->
  wp mguar (nr + k) (Sender_drop tx) (fun _ => send_ok k p acc true n) x.
Proof.
  intros (E1 & E2 & E3) Hx. unfold Sender_drop, RProducer_close. rewrite E1, E2, E3. cbn [rp_inner].
  eapply wp_call; [eapply wp_mpmc_send_close, Hx|]. clear x Hx. intros u1 x Hx.
  eapply wp_call; [eapply wp_mpmc_mark_ready, Hx|]. clear x Hx. intros u2 x Hx.
  eapply wp_send_aside; [by split|exact Hx|]. clear x Hx. intros u3 x Hx.
  eapply wp_send_aside; [|exact Hx|].
  - destruct (u3 =? 1); apply aside_notify.
  - clear x Hx. intros u4 x Hx. by eapply wp_mpmc_send_close.
Qed.

End send.
