(* ===== verification/MpmcSetup.v ===== *)
(** * MPMC channels with registered senders and receivers

    A channel built by [channel_with_policy] on which further senders were
    registered and further receivers cloned before anybody sends or receives:
    the state the interleavings of MpmcConcThm start from.  Lane [k] has ring
    [k], signal [k] and slot [k], where its token waits; page [p] has index
    [p]; the queue of receiver [j] is [qh j]. *)

From S2P Require Import Prelude Prog Config Blocking Wait Ready YRing YRingInv YRingSpec YRingThm YRingConc YRingClose Handoff HandoffSeq Publication Work MpmcShared Mpmc MpmcConc MpmcRecvConc.
Local Open Scope prog_scope.

Section grow.
Context {CQ : Type -> Type} {HCQ : ConcurrentQueue CQ} {LCQ : ConcurrentQueueLaws CQ}.
#[local] Abbreviation Page := (LanePage (CQ := CQ)).
Implicit Types (reg : Registry) (idx : ready_store) (pages : list Page).

(** The registry, the index and the lane pages before any lane is ready: page
    [p] belongs to the ready and the work group of its number, no bit is set
    and no lane is queued. *)
Record grown reg idx pages : Prop := {
  gr_groups : forall h a, zlookup (reg_groups reg) a = Some h \/ zlookup (reg_work_groups reg) a = Some h ->
    exists g, zlookup (rs_groups idx) h = Some g /\ group_id g = a;
  gr_some : (0 < length (reg_groups reg))%nat /\ length (reg_work_groups reg) = length (reg_groups reg);
  gr_pages : reg_pages reg = Z.of_nat <$> seq 0 (length pages) /\ length (rs_pages idx) = length pages;
  gr_ready : forall p pg, rs_pages idx !! p = Some pg -> page_bits pg = 0 /\
    zlookup (reg_groups reg) (Z.of_nat p / PAGES_PER_GROUP) = Some (page_group pg) /\
    page_group_bit pg = Z.shiftl 1 (Z.of_nat p mod PAGES_PER_GROUP);
  gr_lane : forall p pg, pages !! p = Some pg -> lp_ready pg = Z.of_nat p /\
    zlookup (reg_work_groups reg) (Z.of_nat p / PAGES_PER_GROUP) = Some (lp_work_group pg) /\
    lp_work_bit pg = Z.shiftl 1 (Z.of_nat p mod PAGES_PER_GROUP) /\
    cq_items (lp_lanes pg) = [] /\ cq_limit (lp_lanes pg) = LANES_PER_PAGE;
  gr_blank : Forall (fun g => group_bits g = 0 /\ 0 <= group_id g) (rs_groups idx)
}.

Lemma zinsert_snoc {A} (l : list A) x y : zinsert (l ++ [x]) (zlength l) y = l ++ [y].
Proof.
  unfold zinsert, zlength. rewrite Nat2Z.id. replace (length l) with (length l + 0)%nat by lia. by rewrite insert_app_r.
Qed.

(** What growing the topology leaves alone. *)
Definition rest_same reg reg' : Prop :=
  reg_slots reg' = reg_slots reg /\ reg_free reg' = reg_free reg /\ reg_work_queues reg' = reg_work_queues reg /\
  reg_free_receivers reg' = reg_free_receivers reg.

Lemma zlookup_snoc_old {A} (l : list A) x i y : zlookup l i = Some y -> zlookup (l ++ [x]) i = Some y.
Proof. intros H. apply zlookup_snoc_Some. by left. Qed.

Lemma grow_groups_grown pages fuel gid : forall reg idx,
  grown reg idx pages -> gid - zlength (reg_groups reg) < Z.of_nat fuel ->
  let r := grow_groups fuel gid reg idx in
  grown r.1 r.2 pages /\ zlength (reg_groups r.1) = Z.max (zlength (reg_groups reg)) (gid + 1) /\ rest_same reg r.1 /\ rs_signals r.2 = rs_signals idx.
Proof.
  induction fuel as [|fuel IH]; intros reg idx H Hf; cbn [grow_groups].
  { destruct (Z.ltb_spec gid (zlength (reg_groups reg))); [|lia]. split_and!; [done|cbn; lia|done..]. }
  destruct (Z.ltb_spec gid (zlength (reg_groups reg))) as [Hlt|Hge]; [split_and!; [done|cbn; lia|done..]|].
  match goal with |- context [grow_groups fuel gid ?r ?i] => destruct (IH r i) as (K1 & K2 & K3 & K4); [| |split_and!; [done| |done..]] end.
  3:{ rewrite K2. cbn. rewrite zlength_snoc. lia. }
  2:{ cbn. rewrite zlength_snoc. lia. }
  destruct H as [H1 [H2 H2'] H3 H4 H5 H6]. assert (Ew : zlength (reg_work_groups reg) = zlength (reg_groups reg)) by (unfold zlength; lia).
  change [ReadyGroup_new (zlength (reg_groups reg)); ReadyGroup_new (zlength (reg_work_groups reg))] with
    ([ReadyGroup_new (zlength (reg_groups reg))] ++ [ReadyGroup_new (zlength (reg_work_groups reg))]).
  split; cbn [reg_groups reg_work_groups reg_pages set_reg_groups rs_groups rs_pages]; rewrite ?(assoc_L (++)).
  - intros h a [Ha|Ha]; apply zlookup_snoc_Some in Ha as [Ha|[-> ->]].
    + destruct (H1 h a (or_introl Ha)) as (g & Hg & Eg). exists g. split; [|done]. by apply zlookup_snoc_old, zlookup_snoc_old.
    + eexists. split; [apply zlookup_snoc_old, zlookup_snoc|done].
    + destruct (H1 h a (or_intror Ha)) as (g & Hg & Eg). exists g. split; [|done]. by apply zlookup_snoc_old, zlookup_snoc_old.
    + eexists. split; [apply zlookup_snoc_Some; right; rewrite zlength_snoc; split; reflexivity|done].
  - rewrite !length_app. cbn. lia.
  - done.
  - intros p pg Hp. destruct (H4 p pg Hp) as (E1 & E2 & E3). split_and!; auto. by apply zlookup_snoc_old.
  - intros p pg Hp. destruct (H5 p pg Hp) as (E1 & E2 & E3 & E4 & E5). split_and!; auto. by apply zlookup_snoc_old.
  - rewrite !Forall_app, !Forall_singleton. split; [split|]; [done|split; [done|apply zlength_nonneg]..].
Qed.

(** How many groups the pages need. *)
Definition counted reg pages : Prop :=
  0 < zlength pages /\ zlength (reg_groups reg) = (zlength pages - 1) / PAGES_PER_GROUP + 1.

Lemma grown_pages reg idx pages : grown reg idx pages -> zlength (reg_pages reg) = zlength pages.
Proof. intros H. destruct (gr_pages _ _ _ H) as [-> _]. unfold zlength. by rewrite length_fmap, length_seq. Qed.

Lemma grow_pages_grown fuel pid : forall reg idx pages,
  grown reg idx pages -> pid - zlength (reg_pages reg) < Z.of_nat fuel ->
  exists reg' idx' pages', grow_pages fuel pid reg idx pages = Done (reg', idx', pages') /\ grown reg' idx' pages' /\
    zlength pages' = Z.max (zlength pages) (pid + 1) /\ (counted reg pages -> counted reg' pages') /\
    rest_same reg reg' /\ rs_signals idx' = rs_signals idx.
Proof.
  induction fuel as [|fuel IH]; intros reg idx pages H Hf; cbn [grow_pages].
  { destruct (Z.ltb_spec pid (zlength (reg_pages reg))); [|lia]. pose proof (grown_pages _ _ _ H). exists reg, idx, pages. split_and!; [done|done|lia|done..]. }
  destruct (Z.ltb_spec pid (zlength (reg_pages reg))) as [Hlt|Hge]; [pose proof (grown_pages _ _ _ H); exists reg, idx, pages; split_and!; [done|done|lia|done..]|].
  set (gid := _ / _). assert (Hgid : 0 <= gid) by (apply Z.div_pos; [apply zlength_nonneg|done]).
  destruct (grow_groups_grown pages (Z.to_nat (gid + 1)) gid reg idx H) as (G1 & G2 & G3 & G4).
  { pose proof (zlength_nonneg (reg_groups reg)). lia. }
  pose proof (grown_pages _ _ _ H) as Ep. unfold zlength in Ep at 2.
  destruct (grow_groups _ gid reg idx) as [reg1 idx1]. cbn [fst snd] in *.
  assert (Esame : zlength (reg_pages reg1) = zlength (reg_pages reg)).
  { by rewrite Ep, (grown_pages _ _ _ G1). }
  destruct (zlookup_is_Some (reg_groups reg1) gid) as [gh Hgh]; [lia|]. rewrite Hgh.
  destruct (zlookup_is_Some (reg_work_groups reg1) gid) as [wh Hwh]; [destruct (gr_some _ _ _ G1); unfold zlength in *; lia|]. rewrite Hwh.
  destruct (gr_groups _ _ _ G1 gh gid (or_introl Hgh)) as (g & Hg & Eg). rewrite Hg. unfold ReadyPage_new.
  rewrite Eg, Z.eqb_refl. cbn [negb].
  match goal with |- context [grow_pages fuel pid ?r ?i ?l] => destruct (IH r i l) as (reg' & idx' & pages' & E & K1 & K2 & K2' & K3 & K4) end.
  - destruct G1 as [H1 H2 [H3 H3'] H4 H5 H6]. assert (Epz : zlength pages = Z.of_nat (length pages)) by done.
    assert (Egid : gid = Z.of_nat (length pages) / PAGES_PER_GROUP) by (unfold gid; by rewrite Ep).
    split; cbn [reg_groups reg_work_groups reg_pages set_reg_groups rs_groups rs_pages]; auto.
    + split; [|rewrite !length_app; cbn; lia]. rewrite length_app. cbn. rewrite Nat.add_1_r, seq_S, fmap_app, H3. done.
    + intros p pg [Hp|[Hp Hp']]%lookup_app_Some; [by apply H4|]. apply list_lookup_singleton_Some in Hp' as [E <-].
      replace p with (length pages) by lia. cbn. rewrite <- Egid, Ep. by split_and!.
    + intros p pg [Hp|[Hp Hp']]%lookup_app_Some; [by apply H5|]. apply list_lookup_singleton_Some in Hp' as [E <-].
      replace p with (length pages) by lia. unfold LanePage_new. cbn. rewrite <- Egid, Ep. destruct (cq_bounded_spec Lane LANES_PER_PAGE) as [Q1 Q2].
      split_and!; auto. unfold zlength. by rewrite H3'.
  - cbn. rewrite zlength_snoc. lia.
  - exists reg', idx', pages'. split; [exact E|]. split; [done|]. destruct G3 as (S1 & S2 & S3 & S4), K3 as (R1 & R2 & R3 & R4). cbn in *.
    rewrite zlength_snoc in K2. split; [unfold zlength in *; lia|]. split; [|split; [split_and!; congruence|congruence]].
    intros [C1 C2]. apply K2'. split; [rewrite zlength_snoc; lia|]. cbn. rewrite zlength_snoc, G2, C2. unfold gid. rewrite Ep.
    replace (zlength pages + 1 - 1) with (Z.of_nat (length pages)) by (unfold zlength; lia).
    assert ((zlength pages - 1) / PAGES_PER_GROUP <= Z.of_nat (length pages) / PAGES_PER_GROUP) by (apply Z.div_le_mono; [done|unfold zlength; lia]). lia.
Qed.

End grow.

(** ** Building the channel *)

Section setup.
Context {T : Type} {CQ AS : Type -> Type} {HCQ : ConcurrentQueue CQ} {LCQ : ConcurrentQueueLaws CQ} {HAS : ArcSwap AS} {LAS : ArcSwapLaws AS}.
#[local] Abbreviation Sh := (Shared (T := T) (CQ := CQ) (AS := AS)).
Implicit Types (s : Sh) (caps : list Z).

(** The token of lane [k], and the handle of its sender. *)
Definition lane_at (k : nat) (batch : Z) : Lane :=
  mkLane (mkLaneKey (Z.of_nat k) 0) (Z.of_nat k) (Z.of_nat k) (mkRConsumer (Some (mkConsumer 0 0))) 0 0 batch.
Definition sender_at (w : WaitStrategy) (k : nat) : Sender :=
  mkSender (Z.of_nat k) (mkRProducer (mkProducer 0 0)) (mkLaneKey (Z.of_nat k) 0) (Z.of_nat k) w.

(** [length caps] lanes and [nr] receivers are registered. *)
Record started (capacity : Z) caps (nr : nat) s : Prop := {
  st_lanes : (0 < length caps)%nat /\ Z.of_nat (length caps) < usize_mod;
  st_receivers : (0 < nr)%nat /\ Z.of_nat nr < usize_mod;
  st_rings : Forall2 unused caps (sh_rings s);
  st_signals : length (rs_signals (sh_index s)) = length caps /\
    Forall (fun l => 0 <= signal_page l < Z.of_nat (length (sh_pages s)) /\ is_u64 (signal_bit l)) (rs_signals (sh_index s));
  st_grown : grown (sh_registry s) (sh_index s) (sh_pages s) /\
    counted (sh_registry s) (sh_pages s) /\ zlength (sh_pages s) = (Z.of_nat (length caps) - 1) / LANES_PER_PAGE + 1;
  st_slots : reg_free (sh_registry s) = [] /\ length (reg_slots (sh_registry s)) = length caps /\
    forall k slot, reg_slots (sh_registry s) !! k = Some slot -> exists b, slot = mkSlot 0 (Some (lane_at k b));
  st_topology : as_load (sh_ready s) = Registry_clone_ready_topology (sh_registry s) /\
    0 <= sh_ready_generation s < Z.of_nat (length caps) /\
    (sh_ready_generation s = 0 -> as_load (sh_ready s) = mkTopology [0] [1] [0]);
  st_queues : reg_free_receivers (sh_registry s) = [] /\
    reg_work_queues (sh_registry s) = (fun j => Some (qh j)) <$> seq 0 nr /\
    as_load (sh_work_queues s) = (fun j => (Z.of_nat j, qh j)) <$> seq 0 nr /\
    sh_queues s = WorkQueue_bounded PREFETCH_LIMIT :: WorkQueue_unbounded :: replicate (nr - 1) (WorkQueue_bounded PREFETCH_LIMIT);
  st_counts : sh_orphaned_work s = 1%nat /\ sh_live_receivers s = Z.of_nat nr /\ sh_receiver_alive s = true /\
    sh_capacity_per_sender s = capacity
}.

Lemma mpmc_build_started capacity : 0 < capacity <= 2 ^ 62 ->
  exists cap s, capacity <= cap < 2 * capacity /\ started capacity [cap] 1 s /\
    channel_with_policy (T := T) capacity = Done (s, sender_at Park 0,
      mkReceiver 0 0%nat [] 0 (mkTopology [0] [1] [0]) 0 0 0 0 false (2 ^ Z.log2_up capacity) Park).
Proof.
  intros Hc. destruct (ring_spsc_unused (T := T) capacity Hc) as (cap & hr & Hr & E & Hu).
  unfold channel_with_policy, try_channel_with_policy, build_channel.
  rewrite (proj2 (validate_capacity_ok capacity MAX_CAPACITY_PER_SENDER ltac:(lia))) by (unfold MAX_CAPACITY_PER_SENDER; lia).
  rewrite E. cbn. unfold zlookup, zinsert. cbn. change (Z.to_nat 0) with 0%nat. cbn. exists cap. eexists. split; [done|]. split; [|reflexivity].
  split; cbn.
  - split; [lia|done].
  - split; [lia|done].
  - by constructor.
  - split; [done|]. apply Forall_singleton. cbn. split; [lia|done].
  - split.
    + split; cbn.
      * intros h a. unfold zlookup. destruct (Z.ltb_spec a 0); [by intros []|].
        intros [Ha|Ha]; apply list_lookup_singleton_Some in Ha as [Ea <-]; assert (a = 0) as -> by lia; by eexists.
      * split; [lia|done].
      * done.
      * intros p pg [-> <-]%list_lookup_singleton_Some. done.
      * intros p pg [-> <-]%list_lookup_singleton_Some. unfold LanePage_new. cbn.
        destruct (cq_bounded_spec Lane LANES_PER_PAGE) as [Q1 Q2]. by split_and!.
      * by repeat apply Forall_cons_2.
    + by split_and!.
  - split; [done|]. split; [done|]. intros k slot [-> <-]%list_lookup_singleton_Some. by eexists.
  - rewrite as_load_new. split; [done|]. split; [lia|done].
  - rewrite as_load_new. by split_and!.
  - done.
Qed.


(** What a registration does to the topology. *)
Lemma grow_pages_changed fuel pid (reg : Registry) (idx : ready_store) (pages : list (LanePage (CQ := CQ))) :
  grown reg idx pages -> pid - zlength (reg_pages reg) < Z.of_nat fuel ->
  exists reg' idx' pages', grow_pages fuel pid reg idx pages = Done (reg', idx', pages') /\ grown reg' idx' pages' /\
    zlength pages' = Z.max (zlength pages) (pid + 1) /\ (counted reg pages -> counted reg' pages') /\
    rest_same reg reg' /\ rs_signals idx' = rs_signals idx /\ (zlength (reg_pages reg') = zlength (reg_pages reg) -> reg' = reg).
Proof.
  intros H Hf. destruct (decide (pid < zlength (reg_pages reg))) as [Hlt|Hge].
  - exists reg, idx, pages. pose proof (grown_pages _ _ _ H). split; [|split_and!; [done|lia|done..]].
    destruct fuel; cbn [grow_pages]; by destruct (Z.ltb_spec pid (zlength (reg_pages reg))); [|lia].
  - destruct (grow_pages_grown fuel pid reg idx pages H Hf) as (reg' & idx' & pages' & K1 & K2 & K3 & K4 & K5 & K6).
    exists reg', idx', pages'. split_and!; auto. rewrite (grown_pages _ _ _ H), (grown_pages _ _ _ K2) in *. lia.
Qed.

Lemma grown_slots reg idx (pages : list (LanePage (CQ := CQ))) slots : grown reg idx pages -> grown (set_slots slots reg) idx pages.
Proof. by intros [H1 H2 H3 H4 H5 H6]. Qed.

Lemma grown_signals reg idx (pages : list (LanePage (CQ := CQ))) sgs :
  grown reg idx pages -> grown reg (mkReadyStore (rs_groups idx) (rs_pages idx) sgs) pages.
Proof. by intros [H1 H2 H3 H4 H5 H6]. Qed.

(** Registering one more sender. *)
Lemma mpmc_register_started pol capacity caps nr s tx :
  started capacity caps nr s -> 0 < capacity <= 2 ^ 62 -> Z.of_nat (length caps) + 1 < usize_mod ->
  exists cap s', capacity <= cap < 2 * capacity /\ started capacity (caps ++ [cap]) nr s' /\
    run (Sender_try_register pol tx) s = (Done (Ok (sender_at (snd_wait_strategy tx) (length caps))), s').
Proof.
  intros H Hc Hn. destruct (ring_spsc_unused (T := T) capacity Hc) as (cap & hr & Hr & E & Hu).
  destruct H as [H1 H2 H3 [H4 H4'] [H5 [H5' Hnp]] [H6 [H6' H6'']] [H7 [H8 H8']] H9 (H10 & H11 & H12 & H13)].
  destruct s as [rings idx queues pages reg wqs ready gen orphaned pubs lanes senders receivers alive waiters capa]. cbn in *. subst alive capa.
  unfold Sender_try_register, Shared_register_sender. cbn. rewrite E. cbn.
  unfold Registry_allocate_lane, Registry_take_key. rewrite H6. cbn [rev].
  assert (Esl : zlength (reg_slots reg) = Z.of_nat (length caps)) by (unfold zlength; by rewrite H6').
  rewrite Esl. set (n := length caps) in *. set (reg1 := set_slots _ _). cbn [key_slot].
  assert (Hpid : 0 <= Z.of_nat n / LANES_PER_PAGE) by (apply Z.div_pos; [lia|done]).
  assert (Hg1 : grown reg1 idx pages) by by apply grown_slots.
  destruct (grow_pages_changed (Z.to_nat (Z.of_nat n / LANES_PER_PAGE + 1)) (Z.of_nat n / LANES_PER_PAGE) reg1 idx pages Hg1)
    as (reg2 & idx2 & pages2 & Eg & Hg2 & Hlen2 & Hcnt & (R1 & R2 & R3 & R4) & Esg & Hsame).
  { pose proof (zlength_nonneg (reg_pages reg1)). lia. }
  rewrite Eg. destruct (gr_pages _ _ _ Hg2) as [Ep2 Ep2']. set (pid := (Z.of_nat n / LANES_PER_PAGE)) in *.
  assert (Hpl : pid < Z.of_nat (length pages2) /\ (length pages <= length pages2)%nat) by (unfold zlength in Hlen2; lia).
  assert (Eh : zlookup (reg_pages reg2) pid = Some pid).
  { rewrite Ep2. replace pid with (Z.of_nat (Z.to_nat pid)) by lia. rewrite zlookup_of_nat, list_lookup_fmap, lookup_seq_lt by lia. done. }
  rewrite Eh. destruct (zlookup_is_Some pages2 pid) as [pg Hpg]; [unfold zlength; lia|]. rewrite Hpg.
  assert (Elp : lp_ready pg = pid).
  { replace pid with (Z.of_nat (Z.to_nat pid)) in Hpg |- * by lia. rewrite zlookup_of_nat in Hpg. by apply (gr_lane _ _ _ Hg2) in Hpg as (-> & _). }
  cbn [of_outcome run bind]. rewrite Elp. cbn.
  assert (Erl : zlength rings = Z.of_nat n) by (unfold zlength; by rewrite <- (Forall2_length _ _ _ H3)).
  rewrite zlookup_snoc. cbn. rewrite zinsert_snoc. replace (set_hr_ring (hr_ring hr) hr) with hr by by destruct hr.
  unfold Registry_install_lane. cbn [lane_key key_slot key_generation]. rewrite R1. cbn [reg1 set_slots reg_slots]. rewrite <- Esl.
  rewrite zlookup_snoc, zinsert_snoc. cbn. rewrite Erl, Esl. set (batch := Z.min _ _). rewrite Esg.
  replace (zlength (rs_signals idx)) with (Z.of_nat n) by (unfold zlength; by rewrite H4).
  set (reg3 := set_slots _ reg2). fold (lane_at n batch) in reg3.
  assert (Hst : forall s', sh_rings s' = rings ++ [hr] -> sh_queues s' = queues -> sh_pages s' = pages2 -> sh_registry s' = reg3 ->
    sh_index s' = mkReadyStore (rs_groups idx2) (rs_pages idx2) (rs_signals idx ++ [LaneSignal_new pid (Z.of_nat n)]) ->
    sh_work_queues s' = wqs -> sh_orphaned_work s' = orphaned -> sh_live_receivers s' = receivers -> sh_receiver_alive s' = true ->
    sh_capacity_per_sender s' = capacity -> as_load (sh_ready s') = Registry_clone_ready_topology reg3 ->
    0 <= sh_ready_generation s' < Z.of_nat (n + 1) -> (sh_ready_generation s' = 0 -> as_load (sh_ready s') = mkTopology [0] [1] [0]) ->
    started capacity (caps ++ [cap]) nr s').
  { intros s' B1 B2 B3 B4 B5 B6 B7 B8 B9 B10 A1 A2 A3. split; rewrite ?B1, ?B2, ?B3, ?B4, ?B5, ?B6, ?B7, ?B8, ?B9, ?B10; cbn; rewrite ?length_app; fold n.
    - cbn. lia.
    - done.
    - apply Forall2_app; [done|]. by constructor.
    - split; [cbn; lia|]. apply Forall_app. split.
      + eapply Forall_impl; [exact H4'|]. intros l [C1 C2]. split; [lia|done].
      + apply Forall_singleton. cbn. split; [lia|apply is_u64_shift].
    - split; [by apply grown_signals, grown_slots|]. split; [by apply Hcnt|].
      assert ((Z.of_nat n - 1) / LANES_PER_PAGE <= pid) by (apply Z.div_le_mono; [done|lia]).
      replace (Z.of_nat (n + length [cap]) - 1) with (Z.of_nat n) by (cbn; lia). fold pid. lia.
    - split; [by rewrite R2|]. split; [cbn; lia|]. intros k slot [Hk|[Hk Hk']]%lookup_app_Some; [by eapply H6''|].
      apply list_lookup_singleton_Some in Hk' as [Ek <-]. exists batch. by replace k with n by lia.
    - split; [exact A1|]. split; [cbn; lia|exact A3].
    - rewrite R3, R4. exact H9.
    - done. }
  destruct (Z.eqb_spec (zlength (reg_pages reg2)) (zlength (reg_pages reg))) as [Ez|Ez]; cbn.
  - exists cap. eexists. split; [done|]. split; [|reflexivity]. apply Hst; try reflexivity; cbn; [|lia|done].
    rewrite H7. subst reg3. by rewrite (Hsame Ez).
  - exists cap. eexists. split; [done|]. split; [|reflexivity]. apply Hst; try reflexivity; cbn; [by rewrite as_load_store|..];
      unfold wrapping_add; rewrite (wrap_small (gen + 1)) by (red; lia); lia.
Qed.


(** ** Receivers *)

Lemma enumerate_table n : forall b, enumerate_queues (Z.of_nat b) ((fun j => Some (qh j)) <$> seq b n) = (fun j => (Z.of_nat j, qh j)) <$> seq b n.
Proof.
  induction n as [|n IH]; intros b; [done|]. cbn. f_equal. rewrite <- IH. f_equal. lia.
Qed.

(** The handle of receiver [j] when it is cloned. *)
Definition receiver_at (rx : Receiver (T := T)) s (j : nat) : Receiver (T := T) :=
  mkReceiver (Z.of_nat j) (qh j) [] 0 (as_load (sh_ready s)) (sh_ready_generation s) 0 0 0 false
    (rcv_capacity_per_sender rx) (rcv_wait_strategy rx).

Lemma run_on_registry {A} (f : Registry -> outcome (A * Registry)) s a r :
  f (sh_registry s) = Done (a, r) -> run (on_registry f) s = (Done a, set_sh_registry r s).
Proof. intros E. unfold on_registry. cbn. by rewrite E. Qed.

(** Operations that change nothing here. *)
Lemma started_publications capacity caps nr s p : started capacity caps nr s -> started capacity caps nr (set_sh_publications p s).
Proof. by intros [H1 H2 H3 H4 H5 H6 H7 H8 H9]. Qed.

Lemma run_begin s : exists p, run begin_publication s = (Done tt, set_sh_publications p s).
Proof. eexists. reflexivity. Qed.
Lemma run_end s : exists p, run end_publication s = (Done tt, set_sh_publications p s).
Proof. eexists. by destruct s. Qed.

Lemma run_push_nothing capacity caps nr s : started capacity caps nr s -> run (on_queues (WorkQueue_push_batch 0 [])) s = (Done tt, s).
Proof.
  intros H. destruct (st_queues _ _ _ _ H) as (_ & _ & _ & Hq). destruct s as [rings idx queues pages reg wqs ready gen orphaned pubs lanes senders receivers alive waiters capa].
  cbn in *. by subst queues.
Qed.

Lemma run_ready_snapshot s fuel : run (Shared_ready_snapshot fuel) s = (Done (as_load (sh_ready s), sh_ready_generation s), s).
Proof. destruct fuel; cbn; by rewrite Z.eqb_refl. Qed.

(** Another receiver is registered. *)
Lemma mpmc_register_receiver_started capacity caps nr s :
  started capacity caps nr s -> Z.of_nat nr + 1 < usize_mod ->
  exists s', started capacity caps (nr + 1) s' /\ sh_ready s' = sh_ready s /\ sh_ready_generation s' = sh_ready_generation s /\
    run Shared_register_receiver s = (Done (Z.of_nat nr, qh nr), s').
Proof.
  intros H Hn. destruct H as [H1 [H2 H2'] H3 H4 [H5 H5'] H6 [H7 [H8 H8']] (H9 & H9' & H9'' & Hq) (H10 & H11 & H12 & H13)].
  assert (El : length (sh_queues s) = qh nr).
  { rewrite Hq. cbn. rewrite length_replicate. destruct nr; cbn; lia. }
  assert (Eid : zlength (reg_work_queues (sh_registry s)) = Z.of_nat nr) by (rewrite H9'; unfold zlength; by rewrite length_fmap, length_seq).
  set (reg' := set_receivers (reg_work_queues (sh_registry s) ++ [Some (qh nr)]) [] (sh_registry s)).
  assert (Etbl : reg_work_queues reg' = (fun j => Some (qh j)) <$> seq 0 (nr + 1)).
  { subst reg'. cbn. by rewrite H9', Nat.add_1_r, seq_S, fmap_app. }
  unfold Shared_register_receiver. rewrite run_bind. cbn [run atomic]. rewrite El. set (s1 := set_sh_queues _ s).
  rewrite run_bind, (run_on_registry _ s1 (Z.of_nat nr) reg').
  2:{ unfold Registry_register_receiver. cbn [s1 set_sh_queues sh_registry]. by rewrite H9, Eid. }
  eexists. split; [|split; [|split; [|reflexivity]]]; [|reflexivity..].
  split; cbn; auto.
  - lia.
  - split; [by destruct H5|done].
  - rewrite as_load_store. split; [done|]. split; [exact Etbl|]. split.
    + unfold Registry_clone_work_queues. cbn in Etbl. rewrite Etbl. by apply (enumerate_table (nr + 1) 0).
    + rewrite Hq. cbn. do 2 f_equal. replace (nr + 1 - 1)%nat with (nr - 1 + 1)%nat by lia. by rewrite replicate_add.
  - rewrite H11. unfold wrapping_add. rewrite wrap_small by (red; lia). split_and!; auto. lia.
Qed.

Lemma mpmc_clone_started capacity caps nr s rx fuel :
  started capacity caps nr s -> Z.of_nat nr + 1 < usize_mod -> rcv_local rx = 0%nat -> rcv_private rx = [] ->
  exists s', started capacity caps (nr + 1) s' /\ sh_ready s' = sh_ready s /\ sh_ready_generation s' = sh_ready_generation s /\
    run (Receiver_clone fuel rx) s = (Done (receiver_at rx s nr, rx), s').
Proof.
  intros H Hn El Ep. unfold Receiver_clone. rewrite El, Ep. replace (set_private [] rx) with rx by (destruct rx; cbn in *; by subst).
  destruct (run_begin s) as [p Eb]. pose proof (started_publications _ _ _ _ p H) as H1.
  rewrite run_bind, Eb, run_bind, (run_push_nothing _ _ _ _ H1), run_bind.
  destruct (mpmc_register_receiver_started _ _ _ _ H1 Hn) as (s2 & H2 & A1 & A2 & ->). rewrite run_bind.
  destruct (run_end s2) as [p' ->]. rewrite run_bind, run_ready_snapshot. eexists. split; [by apply started_publications|]. split; [exact A1|]. split; [exact A2|].
  cbn. unfold receiver_at. by rewrite A1, A2.
Qed.

(** ** Channels *)

(** Senders registered and receivers cloned one after the other. *)
Fixpoint register_all (pol : Teardown) (n : nat) (tx : Sender) : prog Sh (list Sender) :=
  match n with
  | O => Ret []
  | S n' =>
      let* r := Sender_try_register pol tx in
      match r with
      | Err _ => Fail (Panic "registration refused")
      | Ok tx' => let* txs := register_all pol n' tx in Ret (tx' :: txs)
      end
  end.

Fixpoint clone_all (fuel n : nat) (rx : Receiver) : prog Sh (list Receiver) :=
  match n with
  | O => Ret []
  | S n' =>
      let* '(rx', rx) := Receiver_clone fuel rx in
      let* rxs := clone_all fuel n' rx in Ret (rx' :: rxs)
  end.

(** A channel with [S lanes] senders and [S clones] receivers. *)
Definition open_channel (pol : Teardown) (capacity : Z) (fuel lanes clones : nat) : outcome (Sh * list Sender * list Receiver) :=
  match channel_with_policy capacity with
  | Fault e => Fault e
  | Done (s, tx, rx) =>
      match run (let* txs := register_all pol lanes tx in
                 let* rxs := clone_all fuel clones rx in Ret (tx :: txs, rx :: rxs)) s with
      | (Fault e, _) => Fault e
      | (Done (txs, rxs), s) => Done (s, txs, rxs)
      end
  end.

Lemma mpmc_register_all pol capacity lanes : forall caps nr s w,
  started capacity caps nr s -> 0 < capacity <= 2 ^ 62 -> Z.of_nat (length caps + lanes) < usize_mod ->
  exists more s', Forall (fun cap => capacity <= cap < 2 * capacity) more /\ length more = lanes /\ started capacity (caps ++ more) nr s' /\
    run (register_all pol lanes (sender_at w 0)) s = (Done (sender_at w <$> seq (length caps) lanes), s').
Proof.
  induction lanes as [|lanes IH]; intros caps nr s w Hs Hc Hn; cbn [register_all].
  { exists [], s. rewrite app_nil_r. done. }
  destruct (mpmc_register_started pol capacity caps nr s (sender_at w 0) Hs Hc) as (cap & s1 & Hcap & H1 & E1); [lia|].
  rewrite run_bind, E1. destruct (IH (caps ++ [cap]) nr s1 w H1 Hc) as (more & s2 & L & El & H2 & E2); [rewrite length_app; cbn; lia|].
  rewrite run_bind, E2. exists (cap :: more), s2. split; [by constructor|]. split; [by rewrite <- El|]. split; [by rewrite <- app_assoc in H2|].
  cbn. rewrite length_app. cbn. by replace (length caps + 1)%nat with (S (length caps)) by lia.
Qed.

Lemma mpmc_clone_all capacity caps fuel clones rx : rcv_local rx = 0%nat -> rcv_private rx = [] -> forall nr s,
  started capacity caps nr s -> Z.of_nat (nr + clones) < usize_mod ->
  exists s', started capacity caps (nr + clones) s' /\ sh_ready s' = sh_ready s /\ sh_ready_generation s' = sh_ready_generation s /\
    run (clone_all fuel clones rx) s = (Done (receiver_at rx s <$> seq nr clones), s').
Proof.
  intros El Ep. induction clones as [|clones IH]; intros nr s Hs Hn; cbn [clone_all].
  { exists s. by rewrite Nat.add_0_r. }
  destruct (mpmc_clone_started capacity caps nr s rx fuel Hs) as (s1 & H1 & A1 & A2 & E1); [lia|done|done|].
  rewrite run_bind, E1. destruct (IH (nr + 1)%nat s1 H1) as (s2 & H2 & B1 & B2 & E2); [lia|].
  rewrite run_bind, E2. exists s2. replace (nr + S clones)%nat with (nr + 1 + clones)%nat by lia. split; [done|]. split; [congruence|]. split; [congruence|].
  cbn. replace (S nr) with (nr + 1)%nat by lia. do 3 f_equal. apply list_fmap_ext. intros i j _. unfold receiver_at. by rewrite A1, A2.
Qed.

(** The handle of the first receiver. *)
Definition first_receiver (capacity : Z) : Receiver (T := T) :=
  mkReceiver 0 0%nat [] 0 (mkTopology [0] [1] [0]) 0 0 0 0 false (2 ^ Z.log2_up capacity) Park.

Lemma mpmc_open_channel_started pol capacity fuel lanes clones :
  0 < capacity <= 2 ^ 62 -> Z.of_nat (S lanes) < usize_mod -> Z.of_nat (S clones) < usize_mod ->
  exists caps s, length caps = S lanes /\ Forall (fun cap => capacity <= cap < 2 * capacity) caps /\ started capacity caps (S clones) s /\
    open_channel pol capacity fuel lanes clones =
      Done (s, sender_at Park <$> seq 0 (S lanes), first_receiver capacity :: (receiver_at (first_receiver capacity) s <$> seq 1 clones)).
Proof.
  intros Hc Hl Hn. destruct (mpmc_build_started capacity Hc) as (cap & s0 & Hcap & H0 & E0).
  destruct (mpmc_register_all pol capacity lanes [cap] 1 s0 Park H0 Hc) as (more & s1 & F & Elen & H1 & E1); [cbn; lia|].
  destruct (mpmc_clone_all capacity (cap :: more) fuel clones (first_receiver capacity) eq_refl eq_refl 1 s1 H1) as (s2 & H2 & A1 & A2 & E2); [lia|].
  exists (cap :: more), s2. split; [cbn; lia|]. split; [by constructor|]. split; [exact H2|].
  unfold open_channel. rewrite E0, run_bind, E1, run_bind. fold (first_receiver capacity). rewrite E2. cbn. do 3 f_equal.
  apply list_fmap_ext. intros i j _. unfold receiver_at. by rewrite A1, A2.
Qed.


(** ** The state the threads start from *)

Definition start_ghost (ns nr : nat) (credits : list nat) : mghost (T := T) :=
  mkMG (replicate ns (mkLG ghost0 Idle)) (replicate nr []) credits.

Lemma concat_nils {A} n : concat (replicate n (@nil A)) = [].
Proof. by induction n. Qed.

#[local] Abbreviation np s := (length (sh_pages s)).
#[local] Abbreviation ids s := (group_id <$> rs_groups (sh_index s)).

Lemma ids_lookup s gh g : zlookup (rs_groups (sh_index s)) gh = Some g -> zlookup (ids s) gh = Some (group_id g).
Proof. unfold zlookup. destruct (gh <? 0); [done|]. intros E. by rewrite list_lookup_fmap, E. Qed.

(** The bit of page [p] in a group with the page's number. *)
Lemma page_named s p gh : grown (sh_registry s) (sh_index s) (sh_pages s) -> (p < np s)%nat ->
  zlookup (reg_groups (sh_registry s)) (Z.of_nat p / PAGES_PER_GROUP) = Some gh \/
  zlookup (reg_work_groups (sh_registry s)) (Z.of_nat p / PAGES_PER_GROUP) = Some gh ->
  named (np s) (ids s) gh (Z.shiftl 1 (Z.of_nat p mod PAGES_PER_GROUP)).
Proof.
  intros H Hp Hg. destruct (gr_groups _ _ _ H _ _ Hg) as (g & Eg & Ei). split; [apply is_u64_shift|].
  exists (Z.of_nat p / PAGES_PER_GROUP). rewrite <- Ei at 1. split; [by apply ids_lookup|].
  assert (Hm : 0 <= Z.of_nat p mod PAGES_PER_GROUP < PAGES_PER_GROUP) by by apply Z.mod_pos_bound.
  split; [apply Z.div_pos; [lia|done]|]. intros b Hb. rewrite Z.shiftl_1_l, Z.pow2_bits_eqb by lia. intros <-%Z.eqb_eq.
  pose proof (Z.div_mod (Z.of_nat p) PAGES_PER_GROUP ltac:(done)). lia.
Qed.

Lemma start_index capacity caps nr s : started capacity caps nr s -> idx_ok caps (np s) (ids s) (sh_index s).
Proof.
  intros H. destruct (st_grown _ _ _ _ H) as [Hg _]. destruct (st_signals _ _ _ _ H) as [S1 S2]. split.
  - done.
  - intros gh g E. pose proof (zlookup_Forall _ _ _ _ (gr_blank _ _ _ Hg) E) as [-> Hi]. split; [done|].
    exists (group_id g). split; [by apply ids_lookup|]. split; [done|]. intros b _. by rewrite Z.testbit_0_l.
  - split; [apply (gr_pages _ _ _ Hg)|]. apply Forall_forall. intros pg (p & Hp)%list_elem_of_lookup.
    destruct (gr_ready _ _ _ Hg p pg Hp) as (-> & E1 & ->). split; [done|]. apply page_named; [done| |by left].
    apply lookup_lt_Some in Hp. by rewrite (proj2 (gr_pages _ _ _ Hg)) in Hp.
  - done.
Qed.

Lemma start_view capacity caps nr s credits k cap : started capacity caps nr s -> caps !! k = Some cap ->
  exists hr, sh_rings s !! k = Some hr /\ unused cap hr /\
    view caps (s, start_ghost (length caps) nr credits) k = Some (cap, (hr_ring hr, ghost0), Idle).
Proof.
  intros H Hk. destruct (Forall2_lookup_l _ _ _ _ _ (st_rings _ _ _ _ H) Hk) as (hr & Hhr & Hu). exists hr. split; [done|]. split; [done|].
  unfold view. cbn. rewrite Hk, Hhr, lookup_replicate_2 by by apply lookup_lt_Some in Hk. done.
Qed.

Lemma start_mok capacity caps nr s credits : started capacity caps nr s ->
  mok caps nr (np s) (ids s) (as_load (sh_ready s)) (sh_ready_generation s) (sum_list credits) (s, start_ghost (length caps) nr credits).
Proof.
  intros H. pose proof H as [H1 H2 H3 H4 [H5 [H5' Hnp]] [H6 [H6' H6'']] [H7 [H8 H8']] (H9 & H9' & H9'' & Hq) (H10 & H11 & H12 & H13)].
  assert (Hv : forall k v, view caps (s, start_ghost (length caps) nr credits) k = Some v ->
    exists cap hr, caps !! k = Some cap /\ unused cap hr /\ v = (cap, (hr_ring hr, ghost0), Idle)).
  { intros k v Hkv. destruct (caps !! k) as [cap|] eqn:Ek; [|unfold view in Hkv; by rewrite Ek in Hkv].
    destruct (start_view _ _ _ _ credits _ _ H Ek) as (hr & _ & Hu & E). rewrite E in Hkv. injection Hkv as <-. eauto. }
  split; cbn [fst snd].
  - cbn. rewrite !length_replicate, H6', <- (Forall2_length _ _ _ H3), Hq. cbn. rewrite length_replicate. split_and!; try done. lia.
  - intros k cap z pl Hk. destruct (Hv _ _ Hk) as (cap' & hr & _ & Hu & [= -> -> ->]). split; [apply Hu|]. split; [by eapply unused_closed|done].
  - intros k slot v Hs Hk. destruct (Hv _ _ Hk) as (cap & hr & _ & (_ & Hu & _) & ->). destruct (H6'' _ _ Hs) as [b ->]. split; [done|].
    intros l [= <-]. split; [done|]. exists []. split_and!; [done..|]. cbn. exists (mkConsumer 0 0), 0, 0, 0. by split_and!.
  - intros p pg Hp. destruct (gr_lane _ _ _ H5 p pg Hp) as (P1 & P2 & P3 & P4 & P5). unfold page_ok. rewrite P3, P4, P5.
    split; [done|]. split; [|split; [done|split; [constructor|done]]]. apply page_named; [done|by eapply lookup_lt_Some|by right].
  - by eapply start_index.
  - unfold fixed. split_and!; try done. rewrite H7. done.
  - intros h q Hh. rewrite Hq in Hh. destruct h as [|[|h]]; cbn in Hh; [by injection Hh as <-..|].
    apply lookup_replicate in Hh as [-> _]. done.
  - unfold gots. cbn. rewrite Hq. cbn. rewrite !fmap_replicate. cbn. change (taken ghost0) with (@nil T). by rewrite !concat_nils.
  - done.
Qed.

Lemma mpmc_start_topology capacity caps nr s : started capacity caps nr s ->
  topology_ok caps (np s) (ids s) (as_load (sh_ready s)).
Proof.
  intros H. pose proof H as [H1 H2 H3 H4 [H5 [[Hpos _] Hnp]] H6 [H7 _] H9 H10]. rewrite H7. unfold zlength in Hpos, Hnp. destruct (gr_some _ _ _ H5) as [G1 G2].
  assert (HF : forall l, l = reg_groups (sh_registry s) \/ l = reg_work_groups (sh_registry s) ->
    Forall (fun gh => 0 <= gh < zlength (ids s)) l).
  { intros l Hl. apply Forall_forall. intros gh (a & Ha)%list_elem_of_lookup. rewrite <- zlookup_of_nat in Ha.
    destruct (gr_groups _ _ _ H5 gh (Z.of_nat a)) as (g & Eg & _); [destruct Hl as [->| ->]; auto|].
    by apply ids_lookup, zlookup_Some_range in Eg. }
  split; cbn.
  - apply (gr_pages _ _ _ H5).
  - split; [lia|]. split; intros E; rewrite E in *; cbn in *; lia.
  - split; apply HF; auto.
  - intros k Hk. rewrite Hnp. assert (Z.of_nat k / LANES_PER_PAGE <= (Z.of_nat (length caps) - 1) / LANES_PER_PAGE); [|lia].
    apply Z.div_le_mono; [done|lia].
Qed.

(** How many groups of pages the lanes need. *)
Definition group_count (ns : nat) : nat := S (Z.to_nat ((Z.of_nat ns - 1) / LANES_PER_PAGE / PAGES_PER_GROUP)).

Lemma start_groups capacity caps nr s : started capacity caps nr s ->
  length (top_ready_groups (as_load (sh_ready s))) = group_count (length caps) /\
  length (top_work_groups (as_load (sh_ready s))) = group_count (length caps).
Proof.
  intros H. destruct (st_grown _ _ _ _ H) as [Hg [[Hpos Hc] Hnp]]. destruct (st_topology _ _ _ _ H) as [-> _]. cbn.
  destruct (gr_some _ _ _ Hg) as [_ ->]. rewrite Hnp in Hc. replace ((Z.of_nat (length caps) - 1) / LANES_PER_PAGE + 1 - 1)
    with ((Z.of_nat (length caps) - 1) / LANES_PER_PAGE) in Hc by lia. unfold zlength in Hc, Hpos, Hnp. unfold group_count.
  assert (0 <= (Z.of_nat (length caps) - 1) / LANES_PER_PAGE / PAGES_PER_GROUP) by (apply Z.div_pos; [lia|done]). lia.
Qed.

End setup.
