(* ===== verification/MpmcConcThm.v ===== *)
(** * MPMC: every interleaving of receivers and senders

    A channel with any number of lanes and receivers, all registered before the
    threads start.  A receiver thread receives a number of times and keeps its
    handle; a sender thread sends its values, each once, and is dropped.  The
    threads run one atomic access at a time, in any order. *)

From S2P Require Import Prelude Prog Config Blocking Wait Ready YRing YRingInv YRingSpec YRingThm YRingConc YRingClose Handoff HandoffSeq Publication Work MpmcShared Mpmc MpmcConc MpmcTokens MpmcLaneConc MpmcRecvConc MpmcSendConc MpmcSetup.
Local Open Scope prog_scope.

(** ** Threads *)

Section threads.
Context {T : Type} {CQ AS : Type -> Type} {HCQ : ConcurrentQueue CQ} {HAS : ArcSwap AS}.
#[local] Abbreviation Sh := (Shared (T := T) (CQ := CQ) (AS := AS)).

(** [weaks] has, for each receive, what its weak compare-exchanges do. *)
Fixpoint mpmc_receiver_thread (fuel : nat) (weaks : list (list bool)) (got : list T) (rx : Receiver (T := T))
    : prog Sh (list T * Receiver (T := T)) :=
  match weaks with
  | [] => Ret (got, rx)
  | weak :: weaks' =>
      let* '(r, rx) := Receiver_try_recv Deferred weak fuel rx in
      mpmc_receiver_thread fuel weaks' (got ++ recv_value r) rx
  end.

(** It returns the values that were accepted. *)
Fixpoint mpmc_sender_thread (script : list T) (acc : list T) (tx : Sender) : prog Sh (list T) :=
  match script with
  | [] => let* _ := Sender_drop tx in Ret acc
  | v :: script' =>
      let* '(r, tx) := Sender_try_send Deferred tx v in
      mpmc_sender_thread script' (acc ++ if is_ok r then [v] else []) tx
  end.

Definition mpmc_pool (fuel : nat) (weaks : list (list (list bool))) (scripts : list (list T)) (txs : list Sender)
    (rxs : list (Receiver (T := T))) : list (prog Sh ((list T * Receiver (T := T)) + list T)) :=
  zip_with (fun w rx => let* r := mpmc_receiver_thread fuel w [] rx in Ret (inl r)) weaks rxs ++
  zip_with (fun script tx => let* acc := mpmc_sender_thread script [] tx in Ret (inr acc)) scripts txs.

End threads.

(** How many times the threads may change a word of a ready group: a sender
    once per operation; a receive claims a page of each group at most four
    times, and may queue the 64 lanes of every page it activates. *)
Definition receive_changes (ns : nat) : nat := (4 * S (67 * group_count ns))%nat.
Definition thread_credits {T} (weaks : list (list (list bool))) (scripts : list (list T)) : list nat :=
  ((fun w => length w * receive_changes (length scripts))%nat <$> weaks) ++ ((fun script => S (length script)) <$> scripts).
Definition group_changes {T} (weaks : list (list (list bool))) (scripts : list (list T)) : nat :=
  sum_list (thread_credits weaks scripts).

Section wp.
Context {T : Type} {CQ AS : Type -> Type} {HCQ : ConcurrentQueue CQ} {LCQ : ConcurrentQueueLaws CQ} {HAS : ArcSwap AS}.
Context (caps : list Z) (nr np : nat) (ids : list Z) (tp : ReadyTopology) (gen : Z) (budget : nat).
#[local] Abbreviation Sh := (Shared (T := T) (CQ := CQ) (AS := AS)).
#[local] Abbreviation Page := (LanePage (CQ := CQ)).
#[local] Abbreviation ns := (length caps).
#[local] Abbreviation ringst := (Ring T * ghost T)%type.
#[local] Abbreviation mst := (mst (T := T) (CQ := CQ) (AS := AS)).
#[local] Abbreviation view := (view (T := T) (CQ := CQ) (AS := AS) caps).
#[local] Abbreviation mok := (mok (T := T) (CQ := CQ) (AS := AS) caps nr np ids tp gen budget).
#[local] Abbreviation mguar := (mguar (T := T) (CQ := CQ) (AS := AS) caps nr np ids tp gen budget).
#[local] Abbreviation own := (own (T := T) (CQ := CQ) (AS := AS) caps nr np ids tp gen budget).
Implicit Types (s : Sh) (z : ringst) (L : list T) (x y : mst).

#[local] Abbreviation held := (held (T := T) (CQ := CQ) (AS := AS) caps nr np ids tp gen budget).
#[local] Abbreviation send_ok := (send_ok (T := T) (CQ := CQ) (AS := AS) caps nr np ids tp gen budget).
Context (topo : topology_ok caps np ids tp).

Lemma wp_mpmc_receiver_thread j fuel weaks : (j < nr)%nat -> Forall (fun weak => (budget < sure weak)%nat) weaks ->
  forall got rx x, held false j (length weaks * recv_cost tp) got false None rx x ->
  wp mguar j (mpmc_receiver_thread fuel weaks got rx) (fun r => held false j 0 r.1 false None r.2) x.
Proof.
  intros Hj HF. induction HF as [|weak weaks Hw _ IH]; intros got rx x Hx; cbn [mpmc_receiver_thread length] in *.
  - by eapply (wp_ret_held _ _ _ _ _ _ _ false j 0 got false None rx).
  - eapply wp_call; [eapply (wp_mpmc_try_recv _ _ _ _ _ _ _ topo weak Hw); [done|exact Hx]|].
    intros [r rx'] y Hy. by apply IH.
Qed.

Lemma wp_mpmc_sender_thread k script : forall p acc tx x,
  is_sender k p tx -> send_ok k p acc false (S (length script)) x ->
  wp mguar (nr + k) (mpmc_sender_thread script acc tx) (fun ws y => exists p, send_ok k p ws true 0 y) x.
Proof.
  induction script as [|v script IH]; intros p acc tx x Htx Hx; cbn [mpmc_sender_thread length] in *.
  - eapply wp_call; [by eapply wp_mpmc_sender_drop|]. clear x Hx. intros u x Hx.
    eapply wp_mpmc_ret_send; [exact Hx|]. eauto.
  - eapply wp_call; [by eapply wp_mpmc_try_send|]. clear x Hx. intros [r tx'] x (p' & Htx' & Hx). by eapply IH.
Qed.

End wp.

(** ** The run *)

Section run.
Context {T : Type} {CQ AS : Type -> Type} {HCQ : ConcurrentQueue CQ} {LCQ : ConcurrentQueueLaws CQ} {HAS : ArcSwap AS} {LAS : ArcSwapLaws AS}.
#[local] Abbreviation Sh := (Shared (T := T) (CQ := CQ) (AS := AS)).
#[local] Abbreviation result := ((list T * Receiver (T := T)) + list T)%type.
Context (capacity : Z) (caps : list Z) (nr : nat) (s0 : Sh) (H0 : started capacity caps nr s0).
Context (fuel : nat) (weaks : list (list (list bool))) (scripts : list (list T)).
Context (weaks_len : length weaks = nr) (scripts_len : length scripts = length caps).
#[local] Abbreviation ns := (length caps).
#[local] Abbreviation np := (length (sh_pages s0)).
#[local] Abbreviation ids := (group_id <$> rs_groups (sh_index s0)).
#[local] Abbreviation tp := (as_load (sh_ready s0)).
#[local] Abbreviation gen := (sh_ready_generation s0).
#[local] Abbreviation credits := (thread_credits weaks scripts).
#[local] Abbreviation budget := (group_changes weaks scripts).
#[local] Abbreviation mst := (mst (T := T) (CQ := CQ) (AS := AS)).
#[local] Abbreviation mok := (mok (T := T) (CQ := CQ) (AS := AS) caps nr np ids tp gen budget).
#[local] Abbreviation mguar := (mguar (T := T) (CQ := CQ) (AS := AS) caps nr np ids tp gen budget).
#[local] Abbreviation held := (held (T := T) (CQ := CQ) (AS := AS) caps nr np ids tp gen budget).
#[local] Abbreviation send_ok := (send_ok (T := T) (CQ := CQ) (AS := AS) caps nr np ids tp gen budget).
#[local] Abbreviation x0 := (s0, start_ghost ns nr credits).
Context (exchanges : Forall (Forall (fun weak => (budget < sure weak)%nat)) weaks).
Implicit Types (x : mst).

Lemma receive_cost : recv_cost tp = receive_changes (length scripts).
Proof.
  destruct (start_groups _ _ _ _ H0) as [E1 E2]. unfold recv_cost, attempts_cost, acquire_cost, ready_cost, work_cost, receive_changes.
  rewrite E1, E2, scripts_len. lia.
Qed.

(** What the threads end with. *)
Definition thread_post (i : nat) (r : result) x : Prop :=
  if decide (i < nr)%nat then exists a, r = inl a /\ held false i 0 a.1 false None a.2 x
  else exists ws p, r = inr ws /\ send_ok (i - nr) p ws true 0 x.

Lemma mpmc_start_receiver j rx : (j < nr)%nat -> is_rx tp gen false j rx -> rcv_private rx = [] ->
  held false j (nth j credits 0%nat) [] false None rx x0.
Proof.
  intros Hj Hrx Ep. split; [done|]. cbn. rewrite Ep. split; [by eapply start_mok|]. cbn. split.
  { exists []. split; [by apply lookup_replicate_2|done]. }
  split; [done|]. split; [|split; constructor]. destruct (lookup_lt_is_Some_2 credits j) as [c Hc].
  { unfold thread_credits. rewrite length_app, length_fmap. lia. }
  exists c. split; [done|]. by rewrite (nth_lookup_Some _ _ _ _ Hc).
Qed.

Lemma mpmc_start_sender k cap : caps !! k = Some cap -> send_ok k (mkProducer 0 0) [] false (nth (nr + k) credits 0%nat) x0.
Proof.
  intros Hk. pose proof (lookup_lt_Some _ _ _ Hk) as Hlt. split; [by eapply start_mok|]. cbn. split.
  - destruct (lookup_lt_is_Some_2 credits (nr + k)) as [c Hc].
    { unfold thread_credits. rewrite length_app, !length_fmap. lia. }
    exists c. split; [done|]. by rewrite (nth_lookup_Some _ _ _ _ Hc).
  - destruct (start_view _ _ _ _ credits _ _ H0 Hk) as (hr & _ & (Hp & _ & Hd & _) & Hv). exists cap, (hr_ring hr, ghost0), Idle.
    split; [exact Hv|]. split; [by exists 0|done].
Qed.

(** The handles of the threads. *)
Definition receivers_ok (rxs : list (Receiver (T := T))) : Prop :=
  forall j rx, rxs !! j = Some rx -> is_rx tp gen false j rx /\ rcv_private rx = [].
Definition senders_ok (txs : list Sender) : Prop := forall k tx, txs !! k = Some tx -> is_sender k (mkProducer 0 0) tx.

Lemma mpmc_pool_wp txs rxs : receivers_ok rxs -> length rxs = nr -> senders_ok txs ->
  pool_wp mguar thread_post (mpmc_pool fuel weaks scripts txs rxs) x0.
Proof.
  intros Hrx Hlr Htx i p Hi. pose proof (mpmc_start_topology _ _ _ _ H0) as Ht. apply lookup_app_Some in Hi as [Hi|[Hge Hi]].
  - apply lookup_zip_with_Some in Hi as (w & rx & -> & Hw & Hr). pose proof (lookup_lt_Some _ _ _ Hw) as Hlt. rewrite weaks_len in Hlt.
    destruct (Hrx _ _ Hr) as [R1 R2]. pose proof (mpmc_start_receiver i rx Hlt R1 R2) as Hs.
    replace (nth i credits 0%nat) with (length w * recv_cost tp)%nat in Hs.
    2:{ rewrite receive_cost. symmetry. apply nth_lookup_Some. unfold thread_credits. apply lookup_app_l_Some. by rewrite list_lookup_fmap, Hw. }
    eapply wp_call; [apply (wp_mpmc_receiver_thread _ _ _ _ _ _ _ Ht); [done|by eapply Forall_lookup_1 in Hw|exact Hs]|].
    intros a y Hy. eapply (wp_ret_held _ _ _ _ _ _ _ false i 0 a.1 false None a.2); [done|exact Hy|].
    intros z Hz. unfold thread_post. rewrite decide_True by done. eauto.
  - rewrite length_zip_with, weaks_len, Hlr, Nat.min_id in Hge, Hi. set (k := (i - nr)%nat) in *. replace i with (nr + k)%nat by lia.
    apply lookup_zip_with_Some in Hi as (script & tx & -> & Hsc & Hk). pose proof (lookup_lt_Some _ _ _ Hsc) as Hlt. rewrite scripts_len in Hlt.
    destruct (lookup_lt_is_Some_2 caps k Hlt) as [cap Hcap]. pose proof (mpmc_start_sender k cap Hcap) as Hs.
    replace (nth (nr + k) credits 0%nat) with (S (length script)) in Hs.
    2:{ symmetry. apply nth_lookup_Some. unfold thread_credits. rewrite lookup_app_r; rewrite length_fmap; [|lia].
        replace (nr + k - length weaks)%nat with k by lia. by rewrite list_lookup_fmap, Hsc. }
    eapply wp_call; [eapply wp_mpmc_sender_thread; [by apply Htx|exact Hs]|].
    intros ws y [p Hy]. eapply wp_mpmc_ret_send; [exact Hy|]. intros z Hz. unfold thread_post. rewrite decide_False by lia.
    exists ws, p. replace (nr + k - nr)%nat with k by lia. done.
Qed.


(** ** The end of the run *)

Lemma sent_history s g k p ws : send_ok k p ws true 0 (s, g) ->
  exists cap z pl lg, view caps (s, g) k = Some (cap, z, pl) /\ mg_lanes g !! k = Some lg /\ z.2 = lg_ring lg /\ g_hist z.2 = ws.
Proof.
  intros (_ & _ & cap & z & pl & Hv & (t & _ & _ & Hh & _) & _). destruct (view_inv _ _ _ _ _ _ Hv) as (hr & lg & _ & _ & Hlg & -> & _).
  exists cap, (hr_ring hr, lg_ring lg), pl, lg. by split_and!.
Qed.

Lemma end_prefix s g wss : length wss = ns -> length (mg_lanes g) = ns ->
  (forall k ws, wss !! k = Some ws -> exists p, send_ok k p ws true 0 (s, g)) -> Forall2 prefix (gots (s, g)) wss.
Proof.
  intros Hl Hg Hs. apply Forall2_same_length_lookup_2; [unfold gots; cbn; by rewrite length_fmap, Hg, Hl|].
  intros k got ws Hgot Hws. unfold gots in Hgot. cbn in Hgot. rewrite list_lookup_fmap in Hgot.
  destruct (Hs k ws Hws) as [p Hp]. destruct (sent_history s g k p ws Hp) as (cap & z & pl & lg & _ & Hlg & Ez & <-).
  rewrite Hlg in Hgot. injection Hgot as <-. rewrite Ez. unfold taken. apply prefix_take.
Qed.

(** A lane that was retired has delivered everything. *)
Lemma end_retired s g wss k slot : mok (s, g) -> (forall k ws, wss !! k = Some ws -> exists p, send_ok k p ws true 0 (s, g)) ->
  length wss = ns -> reg_slots (sh_registry s) !! k = Some slot -> slot_generation slot <> 0 -> gots (s, g) !! k = wss !! k.
Proof.
  intros Hm Hs Hl Hslot Hgen. destruct (mo_lens _ _ _ _ _ _ _ _ Hm) as (_ & _ & L3 & _). cbn [fst] in L3.
  pose proof (lookup_lt_Some _ _ _ Hslot) as Hlt. destruct (lookup_lt_is_Some_2 wss k) as [ws Hws]; [lia|].
  destruct (Hs k ws Hws) as [p Hp]. destruct (sent_history s g k p ws Hp) as (cap & z & pl & lg & Hv & Hlg & Ez & Eh).
  destruct (mo_slot _ _ _ _ _ _ _ _ Hm _ _ _ Hslot Hv) as [Hz _]. destruct (mo_ring _ _ _ _ _ _ _ _ Hm _ _ _ _ Hv) as (_ & _ & He).
  unfold gots. cbn. rewrite list_lookup_fmap, Hlg, Hws. cbn. f_equal. rewrite <- Ez, <- Eh.
  destruct pl as [| | |j]; [destruct Hgen; by apply Hz..|]. destruct (He j eq_refl) as [_ E]. congruence.
Qed.

(** What the receivers hold. *)
Lemma end_held s g (rs : list (list T * Receiver (T := T))) : length (mg_held g) = length rs ->
  (forall j a, rs !! j = Some a -> held false j 0 a.1 false None a.2 (s, g)) ->
  concat (mg_held g) ≡ₚ concat (fst <$> rs) ++ concat ((fun a => rcv_private a.2) <$> rs).
Proof.
  intros Hl Hh. assert (HF : Forall2 (fun L a => L ≡ₚ a.1 ++ rcv_private a.2) (mg_held g) rs).
  { apply Forall2_same_length_lookup_2; [done|]. intros j L a HL Ha. destruct (Hh j a Ha) as [_ (_ & (L' & E & Hp) & _)].
    cbn in E. rewrite HL in E. by injection E as <-. }
  clear Hl Hh. induction HF as [|L a Ls rs E _ IH]; [done|]. cbn. rewrite E, IH. perm.
Qed.

(** Where the values are when every thread has returned. *)
Definition delivered (s : Sh) (rs : list (list T * Receiver (T := T))) (wss : list (list T)) : Prop :=
  exists taken, Forall2 prefix taken wss /\
    concat (fst <$> rs) ++ concat ((fun a => rcv_private a.2) <$> rs) ++ concat (q_values <$> sh_queues s) ≡ₚ concat taken /\
    forall k slot, reg_slots (sh_registry s) !! k = Some slot -> slot_generation slot <> 0 -> taken !! k = wss !! k.

Lemma end_delivered s g rs wss : (0 < nr)%nat -> length rs = nr -> length wss = ns ->
  (forall j a, rs !! j = Some a -> held false j 0 a.1 false None a.2 (s, g)) ->
  (forall k ws, wss !! k = Some ws -> exists p, send_ok k p ws true 0 (s, g)) -> delivered s rs wss.
Proof.
  intros Hn Hlr Hlw Hr Hs. destruct (lookup_lt_is_Some_2 rs 0%nat) as [a Ha]; [lia|]. destruct (Hr _ _ Ha) as [_ (Hm & _)].
  destruct (mo_lens _ _ _ _ _ _ _ _ Hm) as (_ & L2 & _ & _ & L5 & _). cbn [snd] in L2, L5.
  exists (gots (s, g)). split; [by apply end_prefix|]. split; [|intros k slot; by apply end_retired].
  rewrite <- (mo_total _ _ _ _ _ _ _ _ Hm). cbn [fst snd]. rewrite (end_held s g rs) by (done || lia). perm.
Qed.

End run.

(** A list of results, the first [n] of one kind. *)
Lemma list_split_sum {A B} n : forall l : list (A + B), (n <= length l)%nat ->
  (forall i r, l !! i = Some r -> if decide (i < n)%nat then exists a, r = inl a else exists b, r = inr b) ->
  exists rs ws, l = (inl <$> rs) ++ (inr <$> ws) /\ length rs = n.
Proof.
  induction n as [|n IH]; intros l Hl H.
  - destruct (list_all_inr l) as [ws ->]; [|by exists [], ws]. intros i r Hi. by apply (H i r).
  - destruct l as [|r l]; cbn in Hl; [lia|]. destruct (H 0%nat r eq_refl) as [a ->].
    destruct (IH l) as (rs & ws & -> & <-); [lia| |by exists (a :: rs), ws].
    intros i r Hi. specialize (H (S i) r Hi). destruct (decide (S i < S n)%nat), (decide (i < n)%nat); (done || lia).
Qed.

Section theorem.
Context {T : Type} {CQ AS : Type -> Type} {HCQ : ConcurrentQueue CQ} {LCQ : ConcurrentQueueLaws CQ} {HAS : ArcSwap AS} {LAS : ArcSwapLaws AS}.
#[local] Abbreviation Sh := (Shared (T := T) (CQ := CQ) (AS := AS)).

(** The handles of an open channel. *)
Lemma opened_receivers capacity caps clones (s : Sh) :
  started capacity caps (S clones) s ->
  receivers_ok s (first_receiver capacity :: (receiver_at (first_receiver capacity) s <$> seq 1 clones)).
Proof.
  intros H [|j] rx Hj; cbn in Hj.
  - injection Hj as <-. split; [|done]. split_and!; cbn; try (done || lia). intros E. symmetry. by apply (st_topology _ _ _ _ H).
  - apply list_lookup_fmap_Some in Hj as (i & -> & Hi). apply lookup_seq in Hi as [-> _]. split; [|done]. by split_and!.
Qed.

Lemma opened_senders n : senders_ok (sender_at Park <$> seq 0 n).
Proof. intros k tx Hk. apply list_lookup_fmap_Some in Hk as (i & -> & Hi). by apply lookup_seq in Hi as [-> _]. Qed.

(** C2: the MPMC channel delivers exactly once, under every interleaving.  With
    any number of senders and receivers, non-blocking operations and deferred
    teardown, however their atomic accesses interleave, no thread panics, no
    thread is stuck and every run ends.  When it has ended, the values received,
    those a receiver has staged privately and those in the work queues are, with
    multiplicity, what was taken from the lanes: a prefix of what each sender
    had accepted, and all of it for a lane that was retired.  Weak compare-exchanges may fail spuriously, as long
    as a call gets more of them through than the threads can change the words
    they race for. *)
Theorem mpmc_interleaving_exactly_once (capacity : Z) (fuel lanes clones : nat) (weaks : list (list (list bool))) (scripts : list (list T)) :
  0 < capacity <= 2 ^ 62 -> Z.of_nat (S lanes) < usize_mod -> Z.of_nat (S clones) < usize_mod ->
  length weaks = S clones -> length scripts = S lanes ->
  Forall (Forall (fun weak => (group_changes weaks scripts < sure weak)%nat)) weaks ->
  exists (s : Sh) txs rxs, open_channel Deferred capacity fuel lanes clones = Done (s, txs, rxs) /\ length txs = S lanes /\ length rxs = S clones /\
    Acc (flip pstep) (s, mpmc_pool fuel weaks scripts txs rxs) /\
    forall s' ps, rtc pstep (s, mpmc_pool fuel weaks scripts txs rxs) (s', ps) ->
      (exists c', pstep (s', ps) c') \/
      exists rs wss, ps = ((fun r => Ret (inl r)) <$> rs) ++ ((fun ws => Ret (inr ws)) <$> wss) /\
        length rs = S clones /\ length wss = S lanes /\ delivered s' rs wss.
Proof.
  intros Hc Hl Hn Hw Hs Hex. destruct (mpmc_open_channel_started (T := T) (CQ := CQ) (AS := AS) Deferred capacity fuel lanes clones Hc Hl Hn) as (caps & s & Elen & _ & Hst & E).
  eexists s, _, _. split; [exact E|]. rewrite length_fmap, length_seq. split; [done|]. split; [cbn; by rewrite length_fmap, length_seq|].
  split; [apply pstep_terminating|]. intros s' ps Hr. rewrite <- Elen in Hs.
  pose proof (mpmc_pool_wp capacity caps (S clones) s Hst fuel weaks scripts Hw Hs Hex _ _ (opened_receivers _ _ _ _ Hst)
    ltac:(cbn; by rewrite length_fmap, length_seq) (opened_senders (S lanes))) as Hwp.
  destruct (pool_sound _ _ _ _ _ _ _ Hwp Hr) as [g Hwp']. destruct (pool_progress _ _ _ _ Hwp' (s', ps) eq_refl) as [|Hfin]; [by left|right].
  destruct (finished_values _ _ Hfin) as [vs ->]. pose proof (pool_length _ _ Hr) as Hlen. cbn [snd] in Hlen. rewrite length_fmap in Hlen.
  unfold mpmc_pool in Hlen. rewrite length_app, !length_zip_with in Hlen. cbn [length] in Hlen. rewrite !length_fmap, !length_seq in Hlen.
  assert (Hpost : forall i r, vs !! i = Some r -> thread_post caps (S clones) s weaks scripts i r (s', g)).
  { intros i r Hi. apply (pool_wp_ret _ _ _ _ _ _ Hwp'). by rewrite list_lookup_fmap, Hi. }
  destruct (list_split_sum (S clones) vs) as (rs & wss & -> & Hrs); [lia| |].
  { intros i r Hi. specialize (Hpost i r Hi). unfold thread_post in Hpost. destruct (decide _); [destruct Hpost as (a & -> & _); eauto|].
    destruct Hpost as (ws & p & -> & _). eauto. }
  exists rs, wss. rewrite length_app, !length_fmap in Hlen. split; [by rewrite fmap_app, <- !list_fmap_compose|]. split; [done|]. split; [lia|].
  eapply (end_delivered caps (S clones) s weaks scripts Hw Hs s' g); [lia|done|lia|..].
  - intros j a Ha. specialize (Hpost j (inl a)). unfold thread_post in Hpost. rewrite decide_True in Hpost by (rewrite <- Hrs; by eapply lookup_lt_Some).
    destruct Hpost as (a' & [= <-] & H); [|done]. apply lookup_app_l_Some. by rewrite list_lookup_fmap, Ha.
  - intros k ws Hk. specialize (Hpost (S clones + k)%nat (inr ws)). unfold thread_post in Hpost. rewrite decide_False in Hpost by lia.
    destruct Hpost as (ws' & p & [= <-] & H); [|exists p; by replace (S clones + k - S clones)%nat with k in H by lia].
    rewrite lookup_app_r; rewrite length_fmap; [|lia]. replace (S clones + k - length rs)%nat with k by lia. by rewrite list_lookup_fmap, Hk.
Qed.

End theorem.

(** Three senders, one that never sends, and two receivers whose weak
    exchanges fail now and then. *)
Definition demo_scripts : list (list nat) := [[1; 2; 3]; []; [4; 5]]%nat.
Definition demo_weaks : list (list (list bool)) :=
  let w := true :: false :: true :: replicate 1400 false in [[w; w; w]; [w; w]].

Lemma mpmc_interleaving_exactly_once_witness :
  exists (s : Shared (T := nat) (CQ := list_queue) (AS := cell)) txs rxs, open_channel Deferred 2 3 2 1 = Done (s, txs, rxs) /\
    length txs = 3%nat /\ length rxs = 2%nat /\ Acc (flip pstep) (s, mpmc_pool 3 demo_weaks demo_scripts txs rxs) /\
    forall s' ps, rtc pstep (s, mpmc_pool 3 demo_weaks demo_scripts txs rxs) (s', ps) ->
      (exists c', pstep (s', ps) c') \/
      exists rs wss, ps = ((fun r => Ret (inl r)) <$> rs) ++ ((fun ws => Ret (inr ws)) <$> wss) /\
        length rs = 2%nat /\ length wss = 3%nat /\ delivered s' rs wss.
Proof.
  apply (mpmc_interleaving_exactly_once 2 3 2 1 demo_weaks demo_scripts); [lia|done|done|done|done|].
  repeat constructor; apply Nat.ltb_lt; reflexivity.
Defined.
