(* ===== verification/MpmcTeardown.v ===== *)
(** * The MPMC channel under the teardown probe

    The channel of Mpmc, with all its receivers, as an instance of the probed
    channels of Teardown: what its operations do to the lane rings when nothing
    interferes.  Dropping the receivers drops them one after the other; the
    last one closes the lanes. *)

From S2P Require Import Prelude Prog Config Blocking Wait Ready YRing YRingInv YRingSpec YRingThm YRingConc YRingClose Handoff HandoffSeq Teardown Publication Work MpmcShared Mpmc MpmcConc MpmcSetup.
Local Open Scope prog_scope.

Section mpmc.
Context {T : Type} {CQ AS : Type -> Type} {HCQ : ConcurrentQueue CQ} {LCQ : ConcurrentQueueLaws CQ} {HAS : ArcSwap AS} {LAS : ArcSwapLaws AS}.
Context (pol : Teardown) (fuel : nat).
#[local] Abbreviation Sh := (Shared (T := T) (CQ := CQ) (AS := AS)).
#[local] Abbreviation Receiver := (Receiver (T := T)).
Implicit Types (s : Sh) (rs : list (HRing T)).

Fixpoint drop_receivers (rxs : list Receiver) : prog Sh unit :=
  match rxs with
  | [] => Ret tt
  | rx :: rxs' => let* _ := Receiver_drop pol fuel rx in drop_receivers rxs'
  end.

#[export] Instance mpmc_probed : Probed Sh T Sender (list Receiver) := {
  try_send := Sender_try_send pol;
  drop_sender := Sender_drop;
  drop_receiver := drop_receivers;
  rings := sh_rings
}.

(** ** The channel between operations *)

(** No value was received: the pages and the work queues are empty, and the
    receivers from [d] on are registered. *)
Record open_rest (nr d : nat) (live : Z) s : Prop := {
  or_pages : Forall (fun pg => cq_items (lp_lanes pg) = []) (sh_pages s) /\
    Forall (fun h => 0 <= h < zlength (sh_pages s)) (top_pages (as_load (sh_ready s)));
  or_queues : sh_orphaned_work s = 1%nat /\ Forall (fun q => q_values q = []) (sh_queues s) /\ length (sh_queues s) = S nr /\ (0 < nr)%nat;
  or_receivers : length (reg_work_queues (sh_registry s)) = nr /\ sh_live_receivers s = live /\
    forall j, (d <= j < nr)%nat -> reg_work_queues (sh_registry s) !! j = Some (Some (qh j))
}.

(** Every lane is parked in its slot. *)
Definition parked_lanes (n : nat) s : Prop :=
  length (reg_slots (sh_registry s)) = n /\
  forall k slot, reg_slots (sh_registry s) !! k = Some slot -> exists b, slot = mkSlot 0 (Some (lane_at k b)).

(** [alive] is the flag of the channel, [known] says that the parts other than
    the rings are still as described. *)
Record mpmc_core (nr d : nat) (live : Z) (alive known : bool) rs s : Prop := {
  mm_rings : sh_rings s = rs;
  mm_index : index_ok (sh_index s) /\ length (rs_signals (sh_index s)) = length rs;
  mm_alive : sh_receiver_alive s = alive;
  mm_slots : alive = true -> parked_lanes (length rs) s;
  mm_rest : known = true -> open_rest nr d live s
}.
Definition mpmc_chan (nr : nat) (alive : bool) rs s : Prop := mpmc_core nr 0 (Z.of_nat nr) alive alive rs s.

Definition mpmc_sender (k : nat) (p : RProducer) (tx : Sender) : Prop :=
  snd_ring tx = Z.of_nat k /\ snd_signal tx = Z.of_nat k /\ snd_producer tx = p.
Definition mpmc_receivers (nr : nat) (rxs : list Receiver) : Prop :=
  length rxs = nr /\ (0 < nr)%nat /\ Z.of_nat nr < usize_mod /\
  forall j rx, rxs !! j = Some rx -> rcv_id rx = Z.of_nat j /\ rcv_local rx = qh j /\ rcv_private rx = [].

(** Access to one ring. *)
Lemma mm_ring {A} nr d live alive known rs s k (p : prog (HRing T) A) hr a hr' :
  mpmc_core nr d live alive known rs s -> rs !! k = Some hr -> run p hr = (Done a, hr') ->
  runs (on_lane_ring (Z.of_nat k) p) s (fun b s' => b = a /\ mpmc_core nr d live alive known (<[k := hr']> rs) s').
Proof.
  intros [Hr [Hi Hl] Ha Hs Hp] Hk E. subst rs. eapply runs_intro.
  - unfold on_lane_ring. rewrite (run_focus _ _ p) with (s1 := hr); [rewrite E; reflexivity|..|by rewrite zlookup_of_nat].
    + intros s1 s1' s2 H2. cbn. by eapply zlookup_zinsert_same.
    + intros s1 s1' s2. unfold set_sh_rings; cbn. by rewrite zinsert_zinsert.
    + intros s1 s2 H2. unfold set_sh_rings. rewrite zinsert_same by done. by destruct s2.
  - split; [done|]. rewrite zinsert_of_nat. split; cbn; rewrite ?length_insert; auto. intros E'. by destruct (Hp E').
Qed.

Lemma mm_signal {A} nr d live alive known rs s k (p : prog ready_store A) :
  mpmc_core nr d live alive known rs s -> (k < length rs)%nat ->
  (forall i l, index_ok i -> zlookup (rs_signals i) (Z.of_nat k) = Some l -> runs p i (fun _ i' => index_keeps (Z.of_nat k) i i')) ->
  runs (on_index p) s (fun _ s' => mpmc_core nr d live alive known rs s').
Proof.
  intros [Hr [Hi Hl] Ha Hs Hp] Hk Hrun. destruct (lookup_lt_is_Some_2 (rs_signals (sh_index s)) k) as [l El]; [lia|].
  assert (Hz : zlookup (rs_signals (sh_index s)) (Z.of_nat k) = Some l) by by rewrite zlookup_of_nat.
  destruct (runs_elim _ _ _ (Hrun _ _ Hi Hz)) as (a & i & E & Hi' & _ & Hl').
  eapply runs_intro; [unfold on_index; rewrite run_lift, E; [reflexivity|by intros..|by intros []]|].
  split; cbn; auto; [split; [done|congruence]|]. intros E'. by destruct (Hp E').
Qed.

Lemma mm_notify all nr d live alive known rs s : mpmc_core nr d live alive known rs s ->
  runs (on_data_waiters (MultiWaitCell_notify all)) s (fun _ s' => mpmc_core nr d live alive known rs s').
Proof.
  intros [Hr Hi Ha Hs Hp]. unfold on_data_waiters. destruct (run (MultiWaitCell_notify all) (sh_data_waiters s)) as [o w] eqn:E.
  assert (o = Done tt) as ->.
  { unfold MultiWaitCell_notify in E. cbn in E. destruct (_ =? 0); cbn in E; by injection E. }
  eapply runs_intro; [rewrite run_lift, E; [reflexivity|by intros..|by intros []]|]. split; try done. intros E'. by destruct (Hp E').
Qed.

(** ** Sending *)

Lemma mpmc_send nr live k p tx v rs s hr p' hr' :
  mpmc_core nr 0 live true true rs s -> mpmc_sender k p tx -> rs !! k = Some hr ->
  run (RProducer_push_and_flush pol p v) hr = (Done (Ok tt, p'), hr') ->
  runs (Sender_try_send pol tx v) s (fun r s' => r.1 = Ok tt /\ mpmc_sender k p' r.2 /\ mpmc_core nr 0 live true true (<[k := hr']> rs) s').
Proof.
  intros Hc (Er & Es & Ep) Hk Epush. pose proof (lookup_lt_Some _ _ _ Hk) as Hlt. unfold Sender_try_send, Sender_try_send_inner. rewrite Er, Ep.
  apply runs_bind, runs_bind. eapply runs_intro; [reflexivity|]. cbn [fst snd]. rewrite (mm_alive _ _ _ _ _ _ _ Hc). cbn [negb].
  eapply runs_seq; [by eapply mm_ring|]. intros [r p2] s2 [[= -> ->] Hc2].
  eapply runs_seq; [eapply (mm_signal nr 0 live true true _ _ k); [exact Hc2|by rewrite length_insert|]|].
  { cbn [snd_signal with_producer]. rewrite Es. intros i l. apply runs_mark. }
  intros w s3 Hc3. apply runs_ret. eapply (runs_seq _ _ _ (fun _ s' => mpmc_core nr 0 live true true (<[k := hr']> rs) s')).
  { destruct w; [exact (mm_notify false _ _ _ _ _ _ _ Hc3)|by apply runs_ret]. }
  intros u s4 Hc4. apply runs_ret. by split_and!.
Qed.

Lemma mpmc_refuse nr live tx v rs s : mpmc_core nr 0 live false false rs s ->
  runs (Sender_try_send pol tx v) s (fun r s' => r = (Err (TrySend_Disconnected v), tx) /\ mpmc_core nr 0 live false false rs s').
Proof.
  intros Hc. unfold Sender_try_send, Sender_try_send_inner. apply runs_bind, runs_bind. eapply runs_intro; [reflexivity|].
  cbn [fst snd]. rewrite (mm_alive _ _ _ _ _ _ _ Hc). cbn [negb]. apply runs_ret. by apply runs_ret.
Qed.

Lemma mpmc_drop_sender nr live k p tx rs s hr hr1 hr' :
  mpmc_core nr 0 live false false rs s -> mpmc_sender k p tx -> rs !! k = Some hr ->
  run (RProducer_close p) hr = (Done tt, hr1) -> run (on_hring (Producer_drop (rp_inner p))) hr1 = (Done tt, hr') ->
  runs (Sender_drop tx) s (fun _ s' => mpmc_core nr 0 live false false (<[k := hr']> rs) s').
Proof.
  intros Hc (Er & Es & Ep) Hk E1 E2. pose proof (lookup_lt_Some _ _ _ Hk) as Hlt. unfold Sender_drop. rewrite Er, Es, Ep.
  eapply runs_seq; [by eapply mm_ring|]. intros u s1 [_ Hc1].
  eapply runs_seq; [eapply (mm_signal nr 0 live false false _ _ k); [exact Hc1|by rewrite length_insert|intros i l; apply runs_mark]|]. intros w s2 Hc2.
  apply runs_bind. eapply runs_intro; [reflexivity|]. cbn [fst snd].
  eapply (runs_seq _ _ _ (fun _ s' => mpmc_core nr 0 live false false (<[k := hr1]> rs) s')).
  { destruct Hc2. destruct (_ =? 1); apply mm_notify; by split. }
  intros u2 s3 Hc3. eapply runs_mono; [eapply mm_ring; [exact Hc3|by apply list_lookup_insert_eq|exact E2]|].
  intros u3 s4 [_ Hc4]. by rewrite list_insert_insert_eq in Hc4.
Qed.

(** ** Dropping the receivers *)

Lemma mm_publications nr d live alive known rs s x : mpmc_core nr d live alive known rs s -> mpmc_core nr d live alive known rs (set_sh_publications x s).
Proof. intros [Hr Hi Ha Hs Hp]. split; try done. intros E. by destruct (Hp E). Qed.
Lemma mm_work_queues nr d live alive known rs s x : mpmc_core nr d live alive known rs s -> mpmc_core nr d live alive known rs (set_sh_work_queues x s).
Proof. intros [Hr Hi Ha Hs Hp]. split; try done. intros E. by destruct (Hp E). Qed.

(** Queues without values stay as they are. *)
Lemma run_locked {R} h (f : Queue T -> R * Queue T) qs q : qs !! h = Some q -> (f q).2 = q -> run (locked h f) qs = (Done (f q).1, qs).
Proof.
  intros Hq E. unfold locked. cbn. rewrite Hq. destruct (f q) as [r q']. cbn in *. subst q'. by rewrite list_insert_id.
Qed.

Lemma push_nothing h (qs : list (Queue T)) : (h < length qs)%nat -> run (WorkQueue_push_batch h []) qs = (Done tt, qs).
Proof.
  intros Hh. destruct (lookup_lt_is_Some_2 qs h Hh) as [q Hq]. unfold WorkQueue_push_batch.
  rewrite run_bind, (run_locked h _ qs q Hq); [done|by destruct q].
Qed.

Lemma drain_nothing h o (qs : list (Queue T)) : (h < length qs)%nat -> (o < length qs)%nat -> Forall (fun q => q_values q = []) qs ->
  run (WorkQueue_drain_into h o) qs = (Done false, qs).
Proof.
  intros Hh Ho HF. destruct (lookup_lt_is_Some_2 qs h Hh) as [q Hq]. pose proof (Forall_lookup_1 _ _ _ _ HF Hq) as Ev.
  unfold WorkQueue_drain_into. rewrite run_bind, (run_locked h _ qs q Hq); [|destruct q; cbn in *; by subst].
  cbn [fst]. rewrite Ev, run_bind, push_nothing by done. done.
Qed.

Lemma run_on_queues {A} (p : prog (list (Queue T)) A) s a : run p (sh_queues s) = (Done a, sh_queues s) -> run (on_queues p) s = (Done a, s).
Proof. intros E. unfold on_queues. rewrite run_lift, E; [|by intros..|by intros []]. f_equal. by destruct s. Qed.

Lemma mm_unregister nr d live rs s : mpmc_core nr d live true true rs s -> (d < nr)%nat ->
  runs (Shared_unregister_receiver (Z.of_nat d)) s (fun _ s' => mpmc_core nr (S d) live true true rs s').
Proof.
  intros [Hr Hi Ha Hs Hp] Hd. destruct (Hp eq_refl) as [S2 S3 (R1 & R2 & R3)]. unfold Shared_unregister_receiver.
  apply runs_bind. eapply runs_intro.
  { apply run_on_registry. unfold Registry_unregister_receiver. rewrite zlookup_of_nat, R3 by lia. reflexivity. }
  apply runs_bind. eapply runs_intro; [reflexivity|]. eapply runs_intro; [reflexivity|]. cbn [snd]. apply mm_publications, mm_work_queues.
  split; try done. intros _. split; try done. cbn. rewrite zinsert_of_nat, length_insert. split; [done|]. split; [done|].
  intros j Hj. rewrite list_lookup_insert_ne by lia. apply R3. lia.
Qed.

(** What every receiver does before it counts itself out. *)
Lemma mm_leave {A} nr d live rs s rx (c : bool -> prog Sh A) Q : mpmc_core nr d live true true rs s -> (d < nr)%nat ->
  rcv_id rx = Z.of_nat d -> rcv_local rx = qh d -> rcv_private rx = [] ->
  (forall s', mpmc_core nr (S d) live true true rs s' -> runs (c false) s' Q) ->
  runs (let* _ := begin_publication in
        let* orphaned := load sh_orphaned_work in
        let* _ := on_queues (WorkQueue_push_batch orphaned (rcv_private rx)) in
        let* drained := on_queues (WorkQueue_drain_into (rcv_local rx) orphaned) in
        let* _ := Shared_unregister_receiver (rcv_id rx) in
        let* _ := end_publication in c drained) s Q.
Proof.
  intros Hc Hd -> -> -> Hcont. apply runs_bind. eapply runs_intro; [reflexivity|]. cbn [snd].
  match goal with |- context [set_sh_publications ?x s] => apply (mm_publications _ _ _ _ _ _ _ x) in Hc end.
  destruct (or_queues _ _ _ _ (mm_rest _ _ _ _ _ _ _ Hc eq_refl)) as (Q1 & Q2 & Q3 & _).
  apply runs_bind. eapply runs_intro; [reflexivity|]. cbn [fst snd]. rewrite Q1.
  apply runs_bind. eapply runs_intro; [apply run_on_queues, push_nothing; lia|].
  apply runs_bind. eapply runs_intro; [apply run_on_queues, drain_nothing; [unfold qh; destruct d; lia|lia|done]|].
  eapply runs_seq; [by apply mm_unregister|]. intros u s2 Hc2. apply runs_bind. eapply runs_intro; [reflexivity|]. cbn [snd].
  apply Hcont. by repeat apply mm_publications.
Qed.


(** *** Closing the lanes *)

Lemma mm_close_lane nr d live alive known rs s k b hr hr' :
  mpmc_core nr d live alive known rs s -> rs !! k = Some hr ->
  run (RConsumer_close pol fresh_consumer) hr = (Done (mkRConsumer None), hr') ->
  runs (close_lane pol (lane_at k b)) s (fun _ s' => mpmc_core nr d live alive known (<[k := hr']> rs) s').
Proof.
  intros Hc Hk E. pose proof (lookup_lt_Some _ _ _ Hk) as Hlt. unfold close_lane. cbn [lane_ring lane_consumer lane_signal lane_at].
  eapply runs_seq; [by eapply mm_ring|]. intros c s1 [-> Hc1].
  eapply runs_seq; [eapply (mm_signal nr d live alive known _ _ k); [exact Hc1|by rewrite length_insert|intros i l; apply runs_notify_space]|].
  intros u s2 Hc2. eapply runs_seq; [eapply mm_ring; [exact Hc2|by apply list_lookup_insert_eq|reflexivity]|].
  intros c' s3 [_ Hc3]. apply runs_ret. by rewrite list_insert_insert_eq in Hc3.
Qed.

Lemma mm_close_lanes nr d live known lanes : forall k rs rs' s,
  mpmc_core nr d live false known rs s -> (k + length lanes = length rs)%nat -> length rs' = length rs ->
  (forall i l, lanes !! i = Some l -> exists b, l = lane_at (k + i) b) ->
  (forall i hr hr', rs !! i = Some hr -> rs' !! i = Some hr' -> (k <= i)%nat -> run (RConsumer_close pol fresh_consumer) hr = (Done (mkRConsumer None), hr')) ->
  (forall i, (i < k)%nat -> rs !! i = rs' !! i) ->
  runs (close_lanes pol lanes) s (fun _ s' => mpmc_core nr d live false known rs' s').
Proof.
  induction lanes as [|l lanes IH]; intros k rs rs' s Hc Hkn Hl Hlanes Hclose Hlow; cbn [close_lanes length] in *.
  { apply runs_ret. replace rs' with rs; [done|]. apply list_eq_same_length with (length rs); [done|done|].
    intros i x y Hi Hx Hy. rewrite (Hlow i) in Hx by lia. congruence. }
  destruct (lookup_lt_is_Some_2 rs k) as [hr Hk]; [lia|]. destruct (lookup_lt_is_Some_2 rs' k) as [hr' Hk']; [lia|].
  destruct (Hlanes 0%nat l eq_refl) as [b ->]. rewrite Nat.add_0_r.
  eapply runs_seq; [eapply mm_close_lane; [exact Hc|exact Hk|apply (Hclose k hr hr' Hk Hk' ltac:(lia))]|]. intros u s1 Hc1.
  eapply (IH (S k) (<[k := hr']> rs)); rewrite ?length_insert; try done; [lia|..].
  - intros i l Hi. destruct (Hlanes (S i) l Hi) as [b' ->]. exists b'. by rewrite Nat.add_succ_comm.
  - intros i h h' Hi Hi' Hle. rewrite list_lookup_insert_ne in Hi by lia. apply (Hclose i h h'); (done || lia).
  - intros i Hi. destruct (decide (i = k)) as [->|N]; [rewrite Hk'; apply list_lookup_insert_eq; lia|].
    rewrite list_lookup_insert_ne by done. apply Hlow. lia.
Qed.

Lemma parked_taken (slots : list Slot) : forall k,
  (forall i slot, slots !! i = Some slot -> exists b, slot = mkSlot 0 (Some (lane_at (k + i) b))) ->
  length (omap slot_lane slots) = length slots /\ forall i l, omap slot_lane slots !! i = Some l -> exists b, l = lane_at (k + i) b.
Proof.
  induction slots as [|slot slots IH]; intros k H; [done|]. destruct (H 0%nat slot eq_refl) as [b ->]. rewrite Nat.add_0_r. cbn.
  destruct (IH (S k)) as [L HL].
  { intros i sl Hi. destruct (H (S i) sl Hi) as [b' ->]. exists b'. by rewrite Nat.add_succ_comm. }
  split; [by rewrite <- L|]. intros [|i] l Hi; cbn in Hi; [injection Hi as <-; exists b; by rewrite Nat.add_0_r|].
  destruct (HL i l Hi) as [b' ->]. exists b'. by rewrite Nat.add_succ_comm.
Qed.

(** The pages and the orphaned work hold nothing. *)
Lemma mm_pop_direct nr d live alive rs s h : mpmc_core nr d live alive true rs s -> 0 <= h < zlength (sh_pages s) ->
  runs (LanePage_pop_direct h) s (fun o s' => o = None /\ mpmc_core nr d live alive true rs s' /\
    zlength (sh_pages s') = zlength (sh_pages s) /\ sh_ready s' = sh_ready s).
Proof.
  intros Hc Hh. destruct (zlookup_is_Some _ _ Hh) as [pg Hpg]. destruct Hc as [Hr Hi Ha Hs Hp]. destruct (Hp eq_refl) as [[P1 P2] Q R].
  pose proof (zlookup_Forall _ _ _ _ P1 Hpg) as Ep. destruct (cq_pop_spec _ (lp_lanes pg)) as (q & Eq & Eq' & _). rewrite Ep in Eq, Eq'.
  unfold LanePage_pop_direct. apply runs_bind. eapply runs_intro; [unfold on_page_queue; cbn; rewrite Hpg, Eq; cbn; reflexivity|].
  apply runs_ret. split; [done|]. split; [|split; [apply zlength_zinsert|done]]. split; try done. intros _. split; try done. cbn. rewrite zlength_zinsert.
  split; [|done]. apply Forall_zinsert; [done|]. by cbn.
Qed.

Lemma mm_close_pages nr d live alive rs pages : forall s, mpmc_core nr d live alive true rs s -> Forall (fun h => 0 <= h < zlength (sh_pages s)) pages ->
  runs (close_pages pol fuel pages) s (fun _ s' => mpmc_core nr d live alive true rs s').
Proof.
  induction pages as [|h pages IH]; intros s Hc HF; cbn [close_pages]; [by apply runs_ret|]. apply Forall_cons in HF as [Hh HF].
  eapply (runs_seq _ _ _ (fun _ s' => mpmc_core nr d live alive true rs s' /\ zlength (sh_pages s') = zlength (sh_pages s))).
  { destruct fuel; cbn [close_page]; (eapply runs_seq; [by apply mm_pop_direct|]); intros o s1 (-> & Hc1 & E1 & _); by apply runs_ret. }
  intros u s1 [Hc1 E1]. apply IH; [done|]. by rewrite E1.
Qed.

Lemma mm_drop_orphaned nr d live alive rs s : mpmc_core nr d live alive true rs s -> sh_orphaned_work s = 1%nat ->
  runs (drop_orphaned fuel 1) s (fun _ s' => mpmc_core nr d live alive true rs s').
Proof.
  intros Hc Eo. destruct (or_queues _ _ _ _ (mm_rest _ _ _ _ _ _ _ Hc eq_refl)) as (_ & Q2 & Q3 & Q4).
  assert (E : run (on_queues (WorkQueue_pop 1)) s = (Done None, s)).
  { destruct (lookup_lt_is_Some_2 (sh_queues s) 1) as [q Hq].
    { lia. }
    pose proof (Forall_lookup_1 _ _ _ _ Q2 Hq) as Ev. apply run_on_queues. unfold WorkQueue_pop. rewrite (run_locked _ _ _ q Hq); cbn; by rewrite Ev. }
  destruct fuel; cbn [drop_orphaned]; apply runs_bind; (eapply runs_intro; [exact E|]); by apply runs_ret.
Qed.


Lemma mm_close_all nr d live rs rs' s : mpmc_core nr d live true true rs s ->
  Forall2 (fun hr hr' => run (RConsumer_close pol fresh_consumer) hr = (Done (mkRConsumer None), hr')) rs rs' ->
  runs (Shared_close_all_receivers pol fuel) s (fun _ s' => mpmc_chan nr false rs' s').
Proof.
  intros Hc HF. destruct (mm_slots _ _ _ _ _ _ _ Hc eq_refl) as [L HL]. destruct (parked_taken _ 0 HL) as [L' HL'].
  unfold Shared_close_all_receivers. apply runs_bind. eapply runs_intro; [reflexivity|]. cbn [snd].
  apply runs_bind. eapply runs_intro; [by apply run_on_registry|]. pose proof (Forall2_length _ _ _ HF) as Hlen.
  eapply runs_seq; [eapply (mm_close_lanes nr d live true _ 0 rs rs')|].
  - destruct Hc as [Hr Hi Ha Hs Hp]. split; try done. intros _. by destruct (Hp eq_refl).
  - cbn. by rewrite L', L.
  - done.
  - exact HL'.
  - intros i hr hr' Hi Hi' _. by eapply (Forall2_lookup_lr _ _ _ _ _ _ HF).
  - intros i Hi. lia.
  - intros u s1 Hc1. pose proof (mm_rest _ _ _ _ _ _ _ Hc1 eq_refl) as [[_ P2] (Q1 & _) _].
    apply runs_bind. eapply runs_intro; [reflexivity|]. cbn [fst snd].
    eapply runs_seq; [by apply (mm_close_pages nr d live false rs')|]. intros u2 s2 Hc2.
    pose proof (mm_rest _ _ _ _ _ _ _ Hc2 eq_refl) as [_ (Q2 & _) _].
    apply runs_bind. eapply runs_intro; [reflexivity|]. cbn [fst snd]. rewrite Q2.
    eapply runs_seq; [by apply (mm_drop_orphaned nr d live false rs')|]. intros u3 s3 Hc3.
    eapply runs_mono; [exact (mm_notify true _ _ _ _ _ _ _ Hc3)|]. intros u4 s4 [Hr Hi Ha _ _]. by split.
Qed.

Lemma mm_count nr d live live' alive known rs s a b : mpmc_core nr d live alive known rs s ->
  mpmc_core nr d live' alive known rs (set_sh_counts a b live' s).
Proof.
  intros [Hr Hi Ha Hs Hp]. split; try done. intros E. destruct (Hp E) as [P Q (R1 & _ & R3)]. by split.
Qed.

(** A receiver that is not the last. *)
Lemma mm_drop_some nr d live rs s rx : mpmc_core nr d live true true rs s -> (d < nr)%nat -> 1 < live < usize_mod ->
  rcv_id rx = Z.of_nat d -> rcv_local rx = qh d -> rcv_private rx = [] ->
  runs (Receiver_drop pol fuel rx) s (fun _ s' => mpmc_core nr (S d) (live - 1) true true rs s').
Proof.
  intros Hc Hd Hl E1 E2 E3. unfold Receiver_drop. cbv zeta. eapply (mm_leave nr d live rs s rx (fun _ => _)); [done..|].
  intros s1 Hc1. destruct (or_receivers _ _ _ _ (mm_rest _ _ _ _ _ _ _ Hc1 eq_refl)) as (_ & R2 & _).
  apply runs_bind. eapply runs_intro; [reflexivity|]. cbn [fst snd]. rewrite R2, E3. destruct (Z.eqb_spec live 1); [lia|]. cbn [orb].
  assert (Ew : wrapping_sub live 1 = live - 1) by (unfold wrapping_sub, wrap; rewrite Z.mod_small; lia). rewrite Ew.
  apply (mm_count _ _ _ (live - 1) _ _ _ _ (sh_registered_lanes s1) (sh_live_senders s1)) in Hc1.
  eapply runs_seq; [eapply (runs_intro _ _ _ _ (fun _ s' => mpmc_core nr (S d) (live - 1) true true rs s')); [reflexivity|exact Hc1]|].
  intros [] s2 Hc2; [exact (mm_notify true _ _ _ _ _ _ _ Hc2)|by apply runs_ret].
Qed.

(** The last one. *)
Lemma mm_drop_last nr d rs rs' s rx : mpmc_core nr d 1 true true rs s -> (d < nr)%nat ->
  rcv_id rx = Z.of_nat d -> rcv_local rx = qh d -> rcv_private rx = [] ->
  Forall2 (fun hr hr' => run (RConsumer_close pol fresh_consumer) hr = (Done (mkRConsumer None), hr')) rs rs' ->
  runs (Receiver_drop pol fuel rx) s (fun _ s' => mpmc_chan nr false rs' s').
Proof.
  intros Hc Hd E1 E2 E3 HF. unfold Receiver_drop. cbv zeta. eapply (mm_leave nr d 1 rs s rx (fun _ => _)); [done..|].
  intros s1 Hc1. destruct (or_receivers _ _ _ _ (mm_rest _ _ _ _ _ _ _ Hc1 eq_refl)) as (_ & R2 & _).
  apply runs_bind. eapply runs_intro; [reflexivity|]. cbn [fst snd]. rewrite R2. eapply mm_close_all; [by eapply mm_count|done].
Qed.

Lemma drop_receivers_ok nr rs rs' :
  Forall2 (fun hr hr' => run (RConsumer_close pol fresh_consumer) hr = (Done (mkRConsumer None), hr')) rs rs' -> Z.of_nat nr < usize_mod ->
  forall rxs d s, mpmc_core nr d (Z.of_nat (length rxs)) true true rs s -> (d + length rxs = nr)%nat -> (0 < length rxs)%nat ->
  (forall j rx, rxs !! j = Some rx -> rcv_id rx = Z.of_nat (d + j) /\ rcv_local rx = qh (d + j) /\ rcv_private rx = []) ->
  runs (drop_receivers rxs) s (fun _ s' => mpmc_chan nr false rs' s').
Proof.
  intros HF Hn. induction rxs as [|rx rxs IH]; intros d s Hc Hd Hpos Hrx; cbn [length drop_receivers] in *; [lia|].
  destruct (Hrx 0%nat rx eq_refl) as (E1 & E2 & E3). rewrite Nat.add_0_r in E1, E2. destruct rxs as [|rx2 rxs].
  - eapply runs_seq; [eapply mm_drop_last; (done || lia)|]. intros u s1 Hc1. by apply runs_ret.
  - eapply runs_seq; [eapply mm_drop_some; [exact Hc|lia|cbn in *; lia|done..]|]. intros u s1 Hc1.
    apply (IH (S d) s1); [|cbn in *; lia|cbn; lia|].
    + replace (Z.of_nat (length (rx2 :: rxs))) with (Z.of_nat (S (length (rx2 :: rxs))) - 1) by lia. exact Hc1.
    + intros j rx' Hj. destruct (Hrx (S j) rx' Hj) as (F1 & F2 & F3). by rewrite Nat.add_succ_comm.
Qed.

#[export] Instance mpmc_laws (nr : nat) : ProbedLaws pol Sh T Sender (list Receiver).
Proof.
  refine {| Teardown.chan := mpmc_chan nr; Teardown.is_sender := mpmc_sender; Teardown.is_receiver := mpmc_receivers nr |}.
  - intros alive rs s [E _ _ _ _]. exact E.
  - intros k p tx v rs s hr p' hr' Hc Htx Hk _ E. by eapply mpmc_send.
  - intros k p tx v rs s hr Hc _ _ _. by eapply mpmc_refuse.
  - intros rxs rs rs' s Hc (Hl & Hpos & Hn & Hrx) HF. eapply (drop_receivers_ok nr rs rs' HF Hn rxs 0); [by rewrite Hl|done|by rewrite Hl|exact Hrx].
  - intros k p tx rs s hr hr1 hr' Hc Htx Hk E1 E2. by eapply mpmc_drop_sender.
Defined.


(** ** A channel as its constructors leave it *)

Lemma started_index_ok capacity caps nr s : started capacity caps nr s -> index_ok (sh_index s).
Proof.
  intros H. destruct (st_grown _ _ _ _ H) as [Hg _]. destruct (gr_pages _ _ _ Hg) as [_ Lp]. split.
  - destruct (st_signals _ _ _ _ H) as [_ HF]. eapply Forall_impl; [exact HF|]. intros l [Hl _]. apply zlookup_is_Some. unfold zlength. by rewrite Lp.
  - apply Forall_lookup_2. intros p pg Hp. destruct (gr_ready _ _ _ Hg p pg Hp) as (_ & E & _).
    destruct (gr_groups _ _ _ Hg _ _ (or_introl E)) as (g & Eg & _). by exists g.
Qed.

Lemma mpmc_started_chan capacity caps nr s : started capacity caps nr s -> mpmc_chan nr true (sh_rings s) s.
Proof.
  intros H. pose proof (Forall2_length _ _ _ (st_rings _ _ _ _ H)) as Hl. destruct (st_counts _ _ _ _ H) as (C1 & C2 & C3 & _).
  destruct (st_queues _ _ _ _ H) as (_ & Q2 & _ & Q4). destruct (st_grown _ _ _ _ H) as [Hg _]. destruct (st_receivers _ _ _ _ H) as [Hpos _].
  split; try done.
  - split; [by eapply started_index_ok|]. destruct (st_signals _ _ _ _ H) as [E _]. congruence.
  - intros _. destruct (st_slots _ _ _ _ H) as (_ & L & HL). split; [congruence|done].
  - intros _. split.
    + split; [apply Forall_lookup_2; intros p pg Hp; apply (gr_lane _ _ _ Hg p pg Hp)|]. destruct (st_topology _ _ _ _ H) as [-> _]. cbn.
      destruct (gr_pages _ _ _ Hg) as [-> _]. apply Forall_fmap, Forall_forall. intros i [_ Hi]%elem_of_seq. cbn. unfold zlength. lia.
    + rewrite Q4. split; [done|]. split; [|cbn; rewrite length_replicate; lia]. repeat constructor. by apply Forall_replicate.
    + rewrite Q2, length_fmap, length_seq. split; [done|]. split; [done|]. intros j Hj. by rewrite list_lookup_fmap, lookup_seq_lt by lia.
Qed.

Lemma mpmc_started_lanes w capacity caps nr s i tx : started capacity caps nr s -> (sender_at w <$> seq 0 (length caps)) !! i = Some tx ->
  exists cap, caps !! i = Some cap /\ lane_filled (HL := mpmc_laws nr) pol i tx cap [] (sh_rings s).
Proof.
  intros H Hi. apply list_lookup_fmap_Some in Hi as (j & -> & Hj). apply lookup_seq in Hj as [-> Hj].
  destruct (lookup_lt_is_Some_2 caps i) as [cap Hcap]; [lia|]. destruct (Forall2_lookup_l _ _ _ _ _ (st_rings _ _ _ _ H) Hcap) as (hr & Hhr & Hu).
  exists cap. split; [done|]. exists (mkRProducer (mkProducer 0 0)), hr. split; [done|]. split; [done|]. apply Hu.
Qed.

Lemma mpmc_teardown capacity lanes clones scripts late :
  0 < capacity <= 2 ^ 62 -> Z.of_nat (S lanes) < usize_mod -> Z.of_nat (S clones) < usize_mod ->
  length scripts = S lanes -> Forall (fun vs => zlength vs <= capacity) scripts -> length late = S lanes ->
  exists s txs rxs, open_channel pol capacity fuel lanes clones = Done (s, txs, rxs) /\
    runs (probe scripts txs rxs) s (fun r _ => r = (at_drop pol scripts, scripts)) /\
    runs (late_sends scripts late txs rxs) s (fun r _ => r = (fun v => Err (TrySend_Disconnected v)) <$> late).
Proof.
  intros Hc Hl Hn Hs Hfit Hlate. destruct (mpmc_open_channel_started (T := T) (CQ := CQ) (AS := AS) pol capacity fuel lanes clones Hc Hl Hn) as (caps & s & Lc & Hcaps & Hst & E).
  eexists s, _, _. split; [exact E|]. pose proof (Forall2_length _ _ _ (st_rings _ _ _ _ Hst)) as Lr.
  assert (Hfit' : Forall2 (fun vs cap => zlength vs <= cap) scripts caps).
  { apply Forall2_same_length_lookup_2; [lia|]. intros i vs cap Hi Hi'. pose proof (Forall_lookup_1 _ _ _ _ Hfit Hi). pose proof (Forall_lookup_1 _ _ _ _ Hcaps Hi'). cbn in *. lia. }
  assert (Hrx : mpmc_receivers (S clones) (first_receiver capacity :: (receiver_at (first_receiver capacity) s <$> seq 1 clones))).
  { split_and!; [cbn; by rewrite length_fmap, length_seq|lia|done|]. intros [|j] rx Hj; cbn in Hj; [by injection Hj as <-|].
    apply list_lookup_fmap_Some in Hj as (i & -> & Hi). by apply lookup_seq in Hi as [-> _]. }
  split; [eapply (probe_ok pol (HL := mpmc_laws (S clones)))|eapply (late_sends_ok pol (HL := mpmc_laws (S clones)))]; try done.
  1, 4: by eapply mpmc_started_chan.
  1, 3: rewrite length_fmap, length_seq; lia.
  1, 2: rewrite <- Lc; intros i tx Hi; by eapply mpmc_started_lanes.
  rewrite length_fmap, length_seq. lia.
Qed.

End mpmc.
