(* ===== verification/TeardownThm.v ===== *)
(** * When payloads are destroyed

    The claim of the teardown probe of [src/examples/teardown.rs] for both
    channels of fanring and both policies, for any capacity and any number of
    senders and receivers. *)

From S2P Require Import Prelude Prog Config YRing Handoff HandoffSeq Teardown MpscLane Mpsc MpscSetup MpscTeardown MpmcShared Mpmc MpmcSetup MpmcTeardown.
Local Open Scope prog_scope.

Section claim.
Context {T : Type} {CQ AS : Type -> Type} {HCQ : ConcurrentQueue CQ} {LCQ : ConcurrentQueueLaws CQ} {HAS : ArcSwap AS} {LAS : ArcSwapLaws AS}.

(** The probe of the MPSC channel, and of the MPMC channel with all its
    receivers. *)
Definition mpsc_probe (pol : Teardown) (scripts : list (list T)) (txs : list Mpsc.Sender) (rx : Mpsc.Receiver)
    : prog (MpscLane.Shared T) (list (list T) * list (list T)) := probe (H := mpsc_probed pol) scripts txs rx.
Definition mpmc_probe (pol : Teardown) (fuel : nat) (scripts : list (list T)) (txs : list Mpmc.Sender) (rxs : list (Mpmc.Receiver (T := T)))
    : prog (MpmcShared.Shared (T := T) (CQ := CQ) (AS := AS)) (list (list T) * list (list T)) := probe (H := mpmc_probed pol fuel) scripts txs rxs.

(** One more send of each sender once the receivers are gone. *)
Definition mpsc_late_sends (pol : Teardown) (scripts : list (list T)) (late : list T) (txs : list Mpsc.Sender) (rx : Mpsc.Receiver)
    : prog (MpscLane.Shared T) (list (result unit (TrySendError T))) := late_sends (H := mpsc_probed pol) scripts late txs rx.
Definition mpmc_late_sends (pol : Teardown) (fuel : nat) (scripts : list (list T)) (late : list T) (txs : list Mpmc.Sender)
    (rxs : list (Mpmc.Receiver (T := T))) : prog (MpmcShared.Shared (T := T) (CQ := CQ) (AS := AS)) (list (result unit (TrySendError T))) :=
  late_sends (H := mpmc_probed pol fuel) scripts late txs rxs.

(** C10: the teardown policies keep what they promise.  Fill a channel of any
    capacity with any number of senders (and, for MPMC, receivers), drop the
    receivers, then the senders: no payload is destroyed before the receivers
    are dropped; when the last receiver is gone, a [Coordinated] channel has
    destroyed every unread payload and a [Deferred] one none; when the senders
    are gone too, every payload was destroyed exactly once, in sending order
    per lane.  A send after the receivers are gone returns its value as
    disconnected.  No operation panics. *)
Theorem teardown_exactly_once (pol : Teardown) (capacity id : Z) (fuel lanes clones : nat) (scripts : list (list T)) (late : list T) :
  0 < capacity <= 2 ^ 62 -> Z.of_nat (S lanes) < usize_mod -> Z.of_nat (S clones) < usize_mod ->
  length scripts = S lanes -> length late = S lanes -> Forall (fun vs => zlength vs <= capacity) scripts ->
  let at_receiver_drop := if COORDINATED pol then scripts else (fun _ => []) <$> scripts in
  let refused := (fun v => Err (TrySend_Disconnected v)) <$> late in
  (exists s txs rx, MpscSetup.open_channel capacity id (replicate lanes capacity) = Done (s, txs, rx) /\
     (run (mpsc_probe pol scripts txs rx) s).1 = Done (at_receiver_drop, scripts) /\
     (run (mpsc_late_sends pol scripts late txs rx) s).1 = Done refused) /\
  (exists s txs rxs, MpmcSetup.open_channel pol capacity fuel lanes clones = Done (s, txs, rxs) /\
     (run (mpmc_probe pol fuel scripts txs rxs) s).1 = Done (at_receiver_drop, scripts) /\
     (run (mpmc_late_sends pol fuel scripts late txs rxs) s).1 = Done refused).
Proof.
  intros Hc Hl Hn Ls Ll Hfit at_receiver_drop refused. split.
  - destruct (mpsc_teardown pol capacity id (replicate lanes capacity) scripts late) as (s & txs & rx & E & H1 & H2).
    { change (capacity :: replicate lanes capacity) with (replicate (S lanes) capacity). by apply Forall_replicate. }
    { by rewrite length_replicate. }
    { change (capacity :: replicate lanes capacity) with (replicate (S lanes) capacity). by apply Forall2_replicate_r. }
    { by rewrite length_replicate. }
    exists s, txs, rx. split; [done|]. unfold mpsc_probe, mpsc_late_sends.
    destruct (runs_elim _ _ _ H1) as (a & s1 & -> & ->). by destruct (runs_elim _ _ _ H2) as (b & s2 & -> & ->).
  - destruct (mpmc_teardown (CQ := CQ) (AS := AS) pol fuel capacity lanes clones scripts late) as (s & txs & rxs & E & H1 & H2); [done..|].
    exists s, txs, rxs. split; [done|]. unfold mpmc_probe, mpmc_late_sends.
    destruct (runs_elim _ _ _ H1) as (a & s1 & -> & ->). by destruct (runs_elim _ _ _ H2) as (b & s2 & -> & ->).
Qed.

End claim.

(** The payloads of the probe, four in one lane, and a second sender that sent
    one; three receivers in the MPMC case. *)
Definition probe_payloads : list (list nat) := [[1; 2; 3; 4]; [5]]%nat.

Lemma teardown_exactly_once_witness :
  (exists s txs rx, MpscSetup.open_channel 4 7 [4] = Done (s, txs, rx) /\
     (run (mpsc_probe Coordinated probe_payloads txs rx) s).1 = Done (probe_payloads, probe_payloads) /\
     (run (mpsc_late_sends Coordinated probe_payloads [6; 7]%nat txs rx) s).1 = Done [Err (TrySend_Disconnected 6%nat); Err (TrySend_Disconnected 7%nat)]) /\
  (exists (s : MpmcShared.Shared (T := nat) (CQ := list_queue) (AS := cell)) txs rxs, MpmcSetup.open_channel Coordinated 4 1 1 2 = Done (s, txs, rxs) /\
     (run (mpmc_probe Coordinated 1 probe_payloads txs rxs) s).1 = Done (probe_payloads, probe_payloads) /\
     (run (mpmc_late_sends Coordinated 1 probe_payloads [6; 7]%nat txs rxs) s).1 = Done [Err (TrySend_Disconnected 6%nat); Err (TrySend_Disconnected 7%nat)]).
Proof.
  apply (teardown_exactly_once Coordinated 4 7 1 1 2 probe_payloads [6; 7]%nat); [lia|done|done|done|done|].
  repeat constructor; by vm_compute.
Defined.
