(* ===== verification/ChartStd.v ===== *)
(** * The standard-library data of the chart binary

    What [src/src/bin/chart] uses of Rust's standard library: the total orders
    of [usize], strings, tuples and options ([Cmp]); [BTreeMap] and [BTreeSet],
    whose iteration order is the order of their keys, as association lists kept
    sorted; the stable sorts; the string methods ([trim], [split_once],
    [split_whitespace], [replace], [lines], [match_indices], [starts_with]) and
    [str::parse::<u128>].  Strings are lists of bytes ([String.string]); what
    the program calls "white space" is ASCII here. *)
From Stdlib Require Import Ascii String Sorted.
From stdpp Require Import pretty.
From S2P Require Import Prelude.

(** ** Total orders *)

(** [Ord::cmp]. *)
Class Cmp (A : Type) := cmp : A → A → comparison.

(** The laws the maps rely on. *)
Class CmpLaws (A : Type) `{Cmp A} := {
  cmp_eq : ∀ a b : A, cmp a b = Eq ↔ a = b;
  cmp_flip : ∀ a b : A, cmp b a = CompOpp (cmp a b);
  cmp_trans : ∀ a b c : A, cmp a b = Lt → cmp b c = Lt → cmp a c = Lt;
}.

#[export] Instance cmp_Z : Cmp Z := Z.compare.
#[export] Instance cmp_string : Cmp string := String.compare.
#[export] Instance cmp_pair {A B} `{Cmp A, Cmp B} : Cmp (A * B) := λ p q,
  match cmp p.1 q.1 with Eq => cmp p.2 q.2 | c => c end.
#[export] Instance cmp_option {A} `{Cmp A} : Cmp (option A) := λ p q,
  match p, q with
  | None, None => Eq
  | None, Some _ => Lt
  | Some _, None => Gt
  | Some a, Some b => cmp a b
  end.

Section cmp_facts.
Context {A : Type} `{CmpLaws A}.
Implicit Types a b c : A.

Lemma cmp_refl a : cmp a a = Eq.
Proof. by apply cmp_eq. Qed.

Lemma cmp_gt a b : cmp a b = Gt → cmp b a = Lt.
Proof. intros E. by rewrite cmp_flip, E. Qed.

Lemma cmp_lt a b : cmp a b = Lt → cmp b a = Gt.
Proof. intros E. by rewrite cmp_flip, E. Qed.

Lemma cmp_lt_ne a b : cmp a b = Lt → a ≠ b.
Proof. intros E ->. by rewrite cmp_refl in E. Qed.

Lemma cmp_ne a b : a ≠ b → cmp a b ≠ Eq.
Proof. by intros N E%cmp_eq. Qed.
End cmp_facts.

#[export] Instance cmp_Z_laws : CmpLaws Z.
Proof.
  split; unfold cmp, cmp_Z.
  - apply Z.compare_eq_iff.
  - intros a b. apply Z.compare_antisym.
  - intros a b c. rewrite !Z.compare_lt_iff. lia.
Qed.

Lemma string_compare_trans (a b c : string) :
  String.compare a b = Lt → String.compare b c = Lt → String.compare a c = Lt.
Proof.
  revert b c. induction a as [|x a IH]; intros [|y b] [|z c]; cbn; try done.
  unfold Ascii.compare. intros H1 H2.
  destruct (N.compare_spec (N_of_ascii x) (N_of_ascii y)) as [E|L|L]; try done;
    destruct (N.compare_spec (N_of_ascii y) (N_of_ascii z)) as [E'|L'|L']; try done;
    destruct (N.compare_spec (N_of_ascii x) (N_of_ascii z)) as [E''|L''|L'']; try lia; eauto.
Qed.

#[export] Instance cmp_string_laws : CmpLaws string.
Proof.
  split; unfold cmp, cmp_string.
  - intros a b. split; [apply String.compare_eq_iff|intros ->].
    pose proof (String.compare_antisym b b). by destruct (String.compare b b).
  - intros a b. apply String.compare_antisym.
  - apply string_compare_trans.
Qed.

Lemma cmp_pair_unfold {A B} `{Cmp A, Cmp B} (a a' : A) (b b' : B) :
  cmp (a, b) (a', b') = match cmp a a' with Eq => cmp b b' | c => c end.
Proof. done. Qed.

#[export] Instance cmp_pair_laws {A B} `{CmpLaws A, CmpLaws B} : CmpLaws (A * B).
Proof.
  split.
  - intros [a b] [a' b']. rewrite cmp_pair_unfold. destruct (cmp a a') eqn:E.
    + apply cmp_eq in E as ->. rewrite cmp_eq. naive_solver.
    + apply cmp_lt_ne in E. naive_solver.
    + apply cmp_gt, cmp_lt_ne in E. naive_solver.
  - intros [a b] [a' b']. rewrite !cmp_pair_unfold, (cmp_flip a a').
    destruct (cmp a a'); cbn; [apply cmp_flip|done|done].
  - intros [a1 b1] [a2 b2] [a3 b3]. rewrite !cmp_pair_unfold.
    destruct (cmp a1 a2) eqn:E1; [apply cmp_eq in E1 as ->| |done];
      destruct (cmp a2 a3) eqn:E2; try done.
    + apply cmp_trans.
    + apply cmp_eq in E2 as ->. by rewrite E1.
    + by rewrite (cmp_trans _ _ _ E1 E2).
Qed.

#[export] Instance cmp_option_laws {A} `{CmpLaws A} : CmpLaws (option A).
Proof.
  split.
  - intros [a|] [b|]; cbn; try done. change (cmp a b = Eq ↔ Some a = Some b).
    rewrite cmp_eq. naive_solver.
  - intros [a|] [b|]; try done. apply (cmp_flip a b).
  - intros [a|] [b|] [c|]; try done. apply (cmp_trans a b c).
Qed.

(** ** [BTreeMap] and [BTreeSet] *)

Section btree.
Context {K V : Type} `{Cmp K}.

(** [map.get(&k)]. *)
Fixpoint bt_get (k : K) (m : list (K * V)) : option V :=
  match m with
  | [] => None
  | (k', v) :: m' =>
      match cmp k k' with Eq => Some v | Lt => None | Gt => bt_get k m' end
  end.

(** [*map.entry(k)]: the entry of [k] becomes [f] of what it was. *)
Fixpoint bt_entry (k : K) (f : option V → V) (m : list (K * V)) : list (K * V) :=
  match m with
  | [] => [(k, f None)]
  | (k', v) :: m' =>
      match cmp k k' with
      | Lt => (k, f None) :: m
      | Eq => (k', f (Some v)) :: m'
      | Gt => (k', v) :: bt_entry k f m'
      end
  end.

(** [map.insert(k, v)]. *)
Definition bt_insert (k : K) (v : V) : list (K * V) → list (K * V) :=
  bt_entry k (λ _, v).

(** [iter.collect::<BTreeMap<_, _>>()]: later entries replace earlier ones. *)
Definition bt_collect (l : list (K * V)) : list (K * V) :=
  foldl (λ m kv, bt_insert kv.1 kv.2 m) [] l.

(** Keys in increasing order. *)
Definition bt_sorted (m : list (K * V)) : Prop :=
  StronglySorted (λ a b, cmp a.1 b.1 = Lt) m.
End btree.

(** [set.insert(k)]. *)
Definition bs_insert {K} `{Cmp K} (k : K) (s : list (K * unit)) : list (K * unit) :=
  bt_insert k () s.

(** [set.contains(&k)]. *)
Definition bs_contains {K} `{Cmp K} (k : K) (s : list (K * unit)) : bool :=
  match bt_get k s with Some _ => true | None => false end.

(** [iter.collect::<BTreeSet<_>>()], in iteration order. *)
Definition bs_collect {K} `{Cmp K} (l : list K) : list K :=
  (bt_collect ((λ k, (k, ())) <$> l)).*1.

Section btree_facts.
Context {K V : Type} `{CmpLaws K}.
Implicit Types m : list (K * V).

Lemma bt_entry_keys k f m x : x ∈ (bt_entry k f m).*1 ↔ x = k ∨ x ∈ m.*1.
Proof.
  induction m as [|[k' v] m IH]; cbn; [set_solver|].
  destruct (cmp k k') eqn:E; cbn.
  - apply cmp_eq in E as ->. rewrite !elem_of_cons. tauto.
  - rewrite !elem_of_cons. tauto.
  - rewrite !elem_of_cons, IH. tauto.
Qed.

Lemma bt_entry_sorted k f m : bt_sorted m → bt_sorted (bt_entry k f m).
Proof.
  unfold bt_sorted. induction m as [|[k' v] m IH]; cbn; intros S.
  { repeat constructor. }
  apply StronglySorted_inv in S as [S L]. destruct (cmp k k') eqn:E.
  - by constructor.
  - constructor; [by constructor|]. constructor; [done|].
    eapply Forall_impl; [exact L|]. intros [] Q; cbn in *. by eapply cmp_trans.
  - constructor; [auto|]. apply Forall_forall. intros [x w] I.
    assert (x ∈ (bt_entry k f m).*1) as [->|J]%bt_entry_keys.
    { apply list_elem_of_fmap. by exists (x, w). }
    + by apply cmp_gt.
    + apply list_elem_of_fmap in J as ([? ?] & -> & J). rewrite Forall_forall in L.
      by apply (L _ J).
Qed.

Lemma bt_get_elem k v m : bt_sorted m → bt_get k m = Some v ↔ (k, v) ∈ m.
Proof.
  induction m as [|[k' v'] m IH]; cbn; intros S; [set_solver|].
  apply StronglySorted_inv in S as [S L]. rewrite elem_of_cons. destruct (cmp k k') eqn:E.
  - apply cmp_eq in E as ->. split; [naive_solver|]. intros [?|I]; [naive_solver|].
    rewrite Forall_forall in L. apply L in I; cbn in I. by rewrite cmp_refl in I.
  - split; [done|]. intros [?|I]; [simplify_eq; by rewrite cmp_refl in E|].
    rewrite Forall_forall in L. apply L in I; cbn in I.
    pose proof (cmp_trans _ _ _ E I) as Q. by rewrite cmp_refl in Q.
  - rewrite IH by done. split; [auto|]. intros [?|I]; [simplify_eq; by rewrite cmp_refl in E|done].
Qed.

Lemma bt_get_entry k f m x : bt_sorted m →
  bt_get x (bt_entry k f m) = match cmp x k with Eq => Some (f (bt_get k m)) | _ => bt_get x m end.
Proof.
  induction m as [|[k' v] m IH]; cbn; intros S; [by destruct (cmp x k)|].
  apply StronglySorted_inv in S as [S L]. destruct (cmp k k') eqn:E; cbn.
  - apply cmp_eq in E as ->. destruct (cmp x k'); done.
  - destruct (cmp x k) eqn:E'; try done. by rewrite (cmp_trans _ _ _ E' E).
  - rewrite IH by done. destruct (cmp x k) eqn:E'; try done.
    apply cmp_eq in E' as ->. by rewrite E.
Qed.

Lemma bt_get_entry_eq k f m : bt_sorted m → bt_get k (bt_entry k f m) = Some (f (bt_get k m)).
Proof. intros S. by rewrite bt_get_entry, cmp_refl. Qed.

Lemma bt_sorted_nil : bt_sorted ([] : list (K * V)).
Proof. constructor. Qed.

Lemma bt_sorted_NoDup m : bt_sorted m → NoDup m.*1.
Proof.
  induction m as [|[k v] m IH]; cbn; intros S; [constructor|].
  apply StronglySorted_inv in S as [S L]. constructor; [|auto].
  intros ([k' w] & -> & J)%list_elem_of_fmap. rewrite Forall_forall in L.
  apply L in J; cbn in J. by rewrite cmp_refl in J.
Qed.

Lemma bt_fold_sorted {A} (k : A → K) (f : A → option V → V) (l : list A) m :
  bt_sorted m → bt_sorted (foldl (λ m a, bt_entry (k a) (f a) m) m l).
Proof. revert m. induction l as [|a l IH]; cbn; intros m S; [done|]. by apply IH, bt_entry_sorted. Qed.

Lemma bt_fold_keys {A} (k : A → K) (f : A → option V → V) (l : list A) m x :
  x ∈ (foldl (λ m a, bt_entry (k a) (f a) m) m l).*1 ↔ x ∈ k <$> l ∨ x ∈ m.*1.
Proof.
  revert m. induction l as [|a l IH]; cbn; intros m; [set_solver|].
  rewrite IH, bt_entry_keys. set_solver.
Qed.

(** What a loop of [entry] calls leaves under a key: the fold of the calls
    made with this key. *)
Lemma bt_fold_get {A} (k : A → K) (f : A → option V → V) (l : list A) m x : bt_sorted m →
  bt_get x (foldl (λ m a, bt_entry (k a) (f a) m) m l) =
  foldl (λ o a, match cmp x (k a) with Eq => Some (f a o) | _ => o end) (bt_get x m) l.
Proof.
  revert m. induction l as [|a l IH]; cbn; intros m S; [done|].
  rewrite IH by by apply bt_entry_sorted. f_equal. rewrite bt_get_entry by done.
  destruct (cmp x (k a)) eqn:E; try done. by apply cmp_eq in E as ->.
Qed.

(** The elements a loop files under [x]. *)
Definition filed {A} (k : A → K) (x : K) (l : list A) : list A :=
  List.filter (λ a, match cmp x (k a) with Eq => true | _ => false end) l.

Lemma filed_fold {A} (k : A → K) (f : A → option V → V) (l : list A) o x :
  foldl (λ o a, match cmp x (k a) with Eq => Some (f a o) | _ => o end) o l =
  foldl (λ o a, Some (f a o)) o (filed k x l).
Proof.
  revert o. induction l as [|a l IH]; cbn; intros o; [done|]. rewrite IH.
  by destruct (cmp x (k a)).
Qed.

Lemma elem_of_filed {A} (k : A → K) x (l : list A) a : a ∈ filed k x l ↔ a ∈ l ∧ k a = x.
Proof.
  unfold filed. rewrite list_elem_of_In, filter_In, <- list_elem_of_In.
  destruct (cmp x (k a)) eqn:E.
  - apply cmp_eq in E as ->. tauto.
  - apply cmp_lt_ne in E. naive_solver.
  - apply cmp_gt, cmp_lt_ne in E. naive_solver.
Qed.

Lemma bt_loop_get {A} (k : A → K) (f : A → option V → V) (l : list A) x :
  bt_get x (foldl (λ m a, bt_entry (k a) (f a) m) [] l) =
  foldl (λ o a, Some (f a o)) None (filed k x l).
Proof. rewrite bt_fold_get by apply bt_sorted_nil. apply filed_fold. Qed.

Lemma bt_loop_sorted {A} (k : A → K) (f : A → option V → V) (l : list A) :
  bt_sorted (foldl (λ m a, bt_entry (k a) (f a) m) [] l).
Proof. apply bt_fold_sorted, bt_sorted_nil. Qed.
End btree_facts.

(** Grouping: the map from each key to the list of what has it. *)
Lemma bt_group_get {K A} `{CmpLaws K} (k : A → K) (l : list A) x :
  bt_get x (foldl (λ m a, bt_entry (k a) (λ o, default [] o ++ [a]) m) [] l) =
  match filed k x l with [] => None | g => Some g end.
Proof.
  rewrite (bt_loop_get k (λ a o, default [] o ++ [a]) l x).
  assert (∀ (g : list A) o, foldl (λ o a, Some (default [] o ++ [a])) o g =
    match g with [] => o | _ => Some (default [] o ++ g) end) as F.
  { clear. induction g as [|a g IH]; intros o; cbn; [done|]. rewrite IH.
    destruct g; cbn; [done|]. by rewrite <- app_assoc. }
  rewrite F. by destruct (filed k x l).
Qed.

(** ** [BTreeSet] *)
Section bset_facts.
Context {K : Type} `{CmpLaws K}.

Lemma bt_collect_loop {V} (l : list (K * V)) :
  bt_collect l = foldl (λ m kv, bt_entry kv.1 (λ _, kv.2) m) [] l.
Proof. done. Qed.

Lemma bt_collect_sorted {V} (l : list (K * V)) : bt_sorted (bt_collect l).
Proof. rewrite bt_collect_loop. apply (bt_loop_sorted fst (λ kv _, kv.2)). Qed.

Lemma elem_of_bs_collect (l : list K) x : x ∈ bs_collect l ↔ x ∈ l.
Proof.
  unfold bs_collect. rewrite bt_collect_loop.
  rewrite (bt_fold_keys fst (λ kv _, kv.2)), <- list_fmap_compose.
  change (fst ∘ (λ k : K, (k, ()))) with (λ k : K, k). rewrite list_fmap_id. set_solver.
Qed.

Lemma bs_collect_NoDup (l : list K) : NoDup (bs_collect l).
Proof. apply bt_sorted_NoDup, bt_collect_sorted. Qed.

Lemma bs_contains_spec (s : list (K * unit)) x :
  bt_sorted s → bs_contains x s = true ↔ x ∈ s.*1.
Proof.
  intros S. unfold bs_contains. destruct (bt_get x s) as [[]|] eqn:E.
  - apply bt_get_elem in E; [|done]. split; [|done]. intros _. apply list_elem_of_fmap. by exists (x, ()).
  - split; [done|]. intros ([y []] & -> & I)%list_elem_of_fmap.
    apply bt_get_elem in I; [|done]. cbn in E. by rewrite E in I.
Qed.
End bset_facts.

(** ** Stable sorting *)

Section sort.
Context {A : Type} (le : A → A → bool).

Fixpoint insert_by (a : A) (l : list A) : list A :=
  match l with
  | [] => [a]
  | b :: l' => if le a b then a :: l else b :: insert_by a l'
  end.

(** [slice.sort_by]: equal elements keep their order. *)
Definition sort_by (l : list A) : list A := foldr insert_by [] l.

Lemma insert_by_perm a l : insert_by a l ≡ₚ a :: l.
Proof. induction l as [|b l IH]; cbn; [done|]. case_match; [done|]. rewrite IH. constructor. Qed.

Lemma sort_by_perm l : sort_by l ≡ₚ l.
Proof. induction l as [|a l IH]; cbn; [done|]. by rewrite insert_by_perm, IH. Qed.

Context (le_total : ∀ a b, le a b = false → le b a = true).
Context (le_trans : ∀ a b c, le a b = true → le b c = true → le a c = true).

Lemma insert_by_sorted a l :
  StronglySorted (λ x y, le x y = true) l → StronglySorted (λ x y, le x y = true) (insert_by a l).
Proof.
  induction l as [|b l IH]; cbn; intros S; [repeat constructor|].
  pose proof S as [S' L]%StronglySorted_inv. case_match eqn:E.
  - constructor; [done|]. constructor; [done|]. eapply Forall_impl; [exact L|]. eauto.
  - constructor; [auto|]. rewrite insert_by_perm. constructor; auto.
Qed.

Lemma sort_by_sorted l : StronglySorted (λ x y, le x y = true) (sort_by l).
Proof. induction l; cbn; [constructor|]. by apply insert_by_sorted. Qed.
End sort.

(** ** Strings *)

(** [char::is_whitespace] on ASCII. *)
Definition is_ws (c : ascii) : bool :=
  let n := nat_of_ascii c in (n =? 32)%nat || ((9 <=? n) && (n <=? 13))%nat.

Fixpoint trim_start (s : string) : string :=
  match s with
  | EmptyString => EmptyString
  | String c s' => if is_ws c then trim_start s' else s
  end.

Fixpoint trim_end (s : string) : string :=
  match s with
  | EmptyString => EmptyString
  | String c s' =>
      match trim_end s' with
      | EmptyString => if is_ws c then EmptyString else String c EmptyString
      | r => String c r
      end
  end.

(** [str::trim]. *)
Definition trim (s : string) : string := trim_start (trim_end s).

(** [str::split_once] at a character. *)
Fixpoint split_once (d : ascii) (s : string) : option (string * string) :=
  match s with
  | EmptyString => None
  | String c s' =>
      if Ascii.eqb c d then Some (EmptyString, s')
      else '(a, b) ← split_once d s'; Some (String c a, b)
  end.

(** The pieces between the occurrences of a character. *)
Fixpoint split_char (d : ascii) (s : string) : list string :=
  match s with
  | EmptyString => [EmptyString]
  | String c s' =>
      if Ascii.eqb c d then EmptyString :: split_char d s'
      else match split_char d s' with
           | a :: l => String c a :: l
           | [] => [String c EmptyString]
           end
  end.

Definition newline : ascii := ascii_of_nat 10.
Definition carriage : ascii := ascii_of_nat 13.

(** A line without the carriage return before its end. *)
Fixpoint strip_carriage (s : string) : string :=
  match s with
  | EmptyString => EmptyString
  | String c EmptyString => if Ascii.eqb c carriage then EmptyString else s
  | String c s' => String c (strip_carriage s')
  end.

(** [str::lines]: a final line break starts no line.  A carriage return is
    part of the line break it precedes, not of the text after the last one. *)
Fixpoint line_list (l : list string) : list string :=
  match l with
  | [] | [EmptyString] => []
  | [s] => [s]
  | s :: l' => strip_carriage s :: line_list l'
  end.
Definition lines (s : string) : list string := line_list (split_char newline s).

(** [str::split_whitespace]. *)
Fixpoint words_go (s : string) : string * list string :=
  match s with
  | EmptyString => (EmptyString, [])
  | String c s' =>
      let '(w, ws) := words_go s' in
      if is_ws c then
        (EmptyString, match w with EmptyString => ws | _ => w :: ws end)
      else (String c w, ws)
  end.
Definition split_whitespace (s : string) : list string :=
  let '(w, ws) := words_go s in match w with EmptyString => ws | _ => w :: ws end.

(** [slice.join(sep)]. *)
Fixpoint join_with (sep : string) (l : list string) : string :=
  match l with
  | [] => EmptyString
  | [s] => s
  | s :: l' => s +:+ sep +:+ join_with sep l'
  end.

(** [str::replace] of a pattern that is not empty: [skip] bytes of a match are
    still to be passed over. *)
Fixpoint replace_go (pat rep : string) (skip : nat) (s : string) : string :=
  match s with
  | EmptyString => EmptyString
  | String c s' =>
      match skip with
      | S k => replace_go pat rep k s'
      | O =>
          if String.prefix pat s then rep +:+ replace_go pat rep (String.length pat - 1) s'
          else String c (replace_go pat rep 0 s')
      end
  end.
Definition replace (pat rep s : string) : string := replace_go pat rep 0 s.

(** [&s[offset..]] for the offsets of [s.match_indices(pat)]. *)
Fixpoint match_suffixes (pat : string) (skip : nat) (s : string) : list string :=
  match s with
  | EmptyString => []
  | String _ s' =>
      match skip with
      | S k => match_suffixes pat k s'
      | O =>
          if String.prefix pat s then s :: match_suffixes pat (String.length pat - 1) s'
          else match_suffixes pat 0 s'
      end
  end.

(** [str::to_uppercase] on ASCII. *)
Definition upper (c : ascii) : ascii :=
  let n := nat_of_ascii c in
  if ((97 <=? n) && (n <=? 122))%nat then ascii_of_nat (n - 32) else c.
Fixpoint to_uppercase (s : string) : string :=
  match s with EmptyString => EmptyString | String c s' => String (upper c) (to_uppercase s') end.

(** [str::parse::<u128>().ok()]: an optional plus sign, then digits, with the
    overflow checks of every step. *)
Definition u128_mod : Z := 2 ^ 128.
Definition digit (c : ascii) : option Z :=
  let n := Z.of_nat (nat_of_ascii c) in
  if (48 <=? n) && (n <=? 57) then Some (n - 48) else None.
Fixpoint parse_digits (acc : Z) (s : string) : option Z :=
  match s with
  | EmptyString => Some acc
  | String c s' =>
      d ← digit c;
      let n := acc * 10 + d in
      if n <? u128_mod then parse_digits n s' else None
  end.
Definition parse_u128 (s : string) : option Z :=
  match s with
  | EmptyString => None
  | String c EmptyString => d ← digit c; Some d
  | String c s' => if Ascii.eqb c (ascii_of_nat 43) then parse_digits 0 s' else parse_digits 0 s
  end.

(** [format!] of an integer. *)
Definition show_Z (n : Z) : string := pretty n.

Example parse_u128_ex : parse_u128 "+42" = Some 42 ∧ parse_u128 "run" = None ∧ parse_u128 "" = None.
Proof. done. Qed.
Example words_ex : split_whitespace "  Intel  Core i7 " = ["Intel"; "Core"; "i7"].
Proof. done. Qed.
Example replace_ex : replace "(R)" "" "Intel(R) Core(R)" = "Intel Core".
Proof. done. Qed.
