(* ===== verification/F64.v ===== *)
(** * [f64]

    The IEEE 754 double of the chart binary, as the [spec_float] of the Rocq
    library at precision 53 and maximal exponent 1024: every operation rounds
    to nearest, ties to even.  [spec_float] has one NaN, so a NaN's sign and
    payload are not kept.  [powf] and [log10], whose precision Rust leaves
    open, are arguments of what uses them. *)
From Stdlib Require Import SpecFloat.
From stdpp Require Import pretty.
From S2P Require Import Prelude ChartStd.

Definition f64 := spec_float.
Definition prec : Z := 53.
Definition emax : Z := 1024.

(** [n as f64] for an integer, and the literals that are integers. *)
Definition f64_of (n : Z) : f64 := binary_normalize prec emax n 0 false.
(** A decimal literal [n/10^k] whose numerator and denominator are exact. *)
Definition f64_dec (n k : Z) : f64 := SFdiv prec emax (f64_of n) (f64_of (10 ^ k)).

Definition f64_add : f64 → f64 → f64 := SFadd prec emax.
Definition f64_sub : f64 → f64 → f64 := SFsub prec emax.
Definition f64_mul : f64 → f64 → f64 := SFmul prec emax.
Definition f64_div : f64 → f64 → f64 := SFdiv prec emax.
Definition f64_abs : f64 → f64 := SFabs.
Definition f64_eqb : f64 → f64 → bool := SFeqb.
Definition f64_ltb : f64 → f64 → bool := SFltb.
Definition f64_leb : f64 → f64 → bool := SFleb.

Definition is_nan (x : f64) : bool := match x with S754_nan => true | _ => false end.

(** [f64::max] and [f64::min]: a NaN argument is ignored. *)
Definition f64_max (a b : f64) : f64 :=
  if is_nan a then b else if is_nan b then a else if f64_ltb a b then b else a.
Definition f64_min (a b : f64) : f64 :=
  if is_nan a then b else if is_nan b then a else if f64_ltb b a then b else a.

(** [f64::clamp]. *)
Definition f64_clamp (x lo hi : f64) : f64 :=
  let x := if f64_ltb x lo then lo else x in if f64_ltb hi x then hi else x.

(** The bits of a double without its sign. *)
Definition magnitude_bits (x : f64) : Z :=
  match x with
  | S754_zero _ => 0
  | S754_infinity _ => Z.shiftl 2047 52
  | S754_nan => Z.shiftl 2047 52 + Z.shiftl 1 51
  | S754_finite _ m e =>
      if (Zpos (digits2_pos m) <? 53)%Z then Zpos m
      else Z.shiftl (e + 1075) 52 + (Zpos m - Z.shiftl 1 52)
  end.
Definition sign_bit (x : f64) : bool :=
  match x with
  | S754_zero s | S754_infinity s | S754_finite s _ _ => s
  | S754_nan => false
  end.

(** The integer [f64::total_cmp] compares: the bits, with those of a negative
    number complemented. *)
Definition total_key (x : f64) : Z :=
  if sign_bit x then - magnitude_bits x - 1 else magnitude_bits x.
Definition total_le (a b : f64) : bool := (total_key a <=? total_key b)%Z.

(** [values.sort_by(f64::total_cmp)]. *)
Definition sort_total (l : list f64) : list f64 := sort_by total_le l.

(** [f64::midpoint]: the mean, computed without overflow. *)
Definition f64_max_half : f64 := S754_finite false 9007199254740991 970.
Definition f64_two_min : f64 := S754_finite false 4503599627370496 (-1073).
Definition f64_midpoint (a b : f64) : f64 :=
  let half x := f64_div x (f64_of 2) in
  if f64_leb (f64_abs a) f64_max_half && f64_leb (f64_abs b) f64_max_half
  then half (f64_add a b)
  else if f64_ltb (f64_abs a) f64_two_min then f64_add a (half b)
  else if f64_ltb (f64_abs b) f64_two_min then f64_add (half a) b
  else f64_add (half a) (half b).

(** The whole part of a magnitude and what [up] adds to it: [up q r d] for the
    quotient, the remainder and the divisor. *)
Definition f64_integral (up : bool → Z → Z → Z → bool) (x : f64) : f64 :=
  match x with
  | S754_finite s m e =>
      if (0 <=? e)%Z then x
      else
        let d := 2 ^ (- e) in
        let q := Zpos m / d in
        let r := Zpos m mod d in
        let n := if up s q r d then q + 1 else q in
        if (n =? 0)%Z then S754_zero s else if s then SFopp (f64_of n) else f64_of n
  | _ => x
  end.
(** [f64::round]: halves away from zero. *)
Definition f64_round : f64 → f64 := f64_integral (λ _ _ r d, d <=? 2 * r)%Z.
Definition f64_floor : f64 → f64 := f64_integral (λ s _ r _, s && negb (r =? 0)%Z).
Definition f64_ceil : f64 → f64 := f64_integral (λ s _ r _, negb s && negb (r =? 0)%Z).

(** [x as i32], [x as u8]: truncated towards zero and saturated. *)
Definition f64_trunc (x : f64) : Z :=
  match x with
  | S754_finite s m e =>
      let n := if (0 <=? e)%Z then Zpos m * 2 ^ e else Zpos m / 2 ^ (- e) in
      if s then - n else n
  | _ => 0
  end.
Definition f64_as (lo hi : Z) (x : f64) : Z :=
  match x with
  | S754_infinity s => if s then lo else hi
  | _ => Z.max lo (Z.min hi (f64_trunc x))
  end.
Definition as_i32 : f64 → Z := f64_as (- 2 ^ 31) (2 ^ 31 - 1).
Definition as_u8 : f64 → Z := f64_as 0 255.

(** [a.mul_add(b, c)]: one rounding of the exact [a * b + c]. *)
Definition f64_mul_add (a b c : f64) : f64 :=
  match a, b, c with
  | S754_finite sa ma ea, S754_finite sb mb eb, S754_finite sc mc ec =>
      let e := Z.min (ea + eb) ec in
      let p := cond_Zopp (xorb sa sb) (Zpos (ma * mb) * 2 ^ (ea + eb - e)) in
      let q := cond_Zopp sc (Zpos mc * 2 ^ (ec - e)) in
      binary_normalize prec emax (p + q) e false
  | S754_finite sa ma ea, S754_finite sb mb eb, S754_zero _ =>
      binary_normalize prec emax (cond_Zopp (xorb sa sb) (Zpos (ma * mb))) (ea + eb) false
  | _, _, _ => f64_add (f64_mul a b) c
  end.

(** [{:.n}]: the exact value rounded to [n] decimals, ties to even. *)
Definition round_half_even (num den : Z) : Z :=
  let q := num / den in
  let r := num mod den in
  match Z.compare (2 * r) den with
  | Lt => q
  | Gt => q + 1
  | Eq => if Z.even q then q else q + 1
  end.
Definition pad_left (n : nat) (s : string) : string :=
  String.string_of_list_ascii (repeat (Ascii.ascii_of_nat 48) (n - String.length s)) +:+ s.
Definition fmt_decimals (n : nat) (v : Z) : string :=
  match n with
  | O => show_Z v
  | S _ => show_Z (v / 10 ^ Z.of_nat n) +:+ "." +:+ pad_left n (show_Z (v mod 10 ^ Z.of_nat n))
  end.
Definition fmt_fixed (n : nat) (x : f64) : string :=
  let signed s t := if (s : bool) then "-" +:+ t else t in
  match x with
  | S754_nan => "NaN"
  | S754_infinity s => signed s "inf"
  | S754_zero s => signed s (fmt_decimals n 0)
  | S754_finite s m e =>
      let num := Zpos m * 10 ^ Z.of_nat n * 2 ^ Z.max 0 e in
      signed s (fmt_decimals n (round_half_even num (2 ^ Z.max 0 (- e))))
  end.

Example f64_fmt_ex :
  fmt_fixed 1 (f64_dec 1234 2) = "12.3" ∧ fmt_fixed 0 (f64_dec 25 1) = "2" ∧
  fmt_fixed 1 (f64_dec 5 2) = "0.1" ∧ fmt_fixed 0 (SFopp (f64_of 7)) = "-7".
Proof. vm_compute. done. Qed.
Example f64_round_ex :
  as_i32 (f64_round (f64_dec 25 1)) = 3 ∧ as_i32 (f64_floor (SFopp (f64_dec 25 1))) = -3 ∧
  as_u8 (f64_of 300) = 255 ∧ as_u8 (f64_mul_add (f64_of 72) (f64_dec 5 1) (f64_of 24)) = 60.
Proof. vm_compute. done. Qed.

(** [total_le] is a total preorder, so the sorts are sorted. *)
Lemma total_le_total a b : total_le a b = false → total_le b a = true.
Proof. unfold total_le. lia. Qed.

Lemma total_le_trans a b c : total_le a b = true → total_le b c = true → total_le a c = true.
Proof. unfold total_le. lia. Qed.
