(* ===== verification/ChartRow.v ===== *)
(** * Benchmark rows: selection of complete and comparable runs

    The data half of [src/src/bin/chart.rs] and all of [chart/support.rs]: the
    row of a result file, the errors, the expansion of cached measurements,
    and which rows of which runs a chart shows.  The effects of the binary are
    the monad [io]: a list of events and a [ChartResult].  [serde_json] is not
    part of the repository: what it yields for a line is a [RowFields], the
    row's fields with the defaulted ones optional, and [row_of_fields] applies
    the defaults the attributes of [Row] name. *)
From Stdlib Require Import Ascii String Sorted.
From S2P Require Import Prelude ChartStd F64.

Open Scope Z_scope.

(** ** Errors and effects *)

(** [std::io::Error]: whether its kind is [NotFound], and its message. *)
Record io_error := IoError { io_not_found : bool; io_message : string }.

Inductive ChartError :=
| EIo (path : string) (source : io_error)
| MissingResultsRoot
| Draw (error : string)
| NoRows (path : string)
| NoRenderableRows
| NoCompleteRun
| RunNotFound (run_id : string)
| RunIncomplete (run_id : string)
| InvalidTopology (topology : string).

Definition ChartResult (A : Type) : Type := result A ChartError.

(** [{s:?}] of a string without characters that [Debug] escapes. *)
Definition dquote : string := String (ascii_of_nat 34) EmptyString.
Definition quote (s : string) : string := dquote +:+ s +:+ dquote.

(** [Display for ChartError]. *)
Definition ChartError_fmt (e : ChartError) : string :=
  match e with
  | EIo path source => path +:+ ": " +:+ io_message source
  | MissingResultsRoot => "HOME must be set unless FANRING_BENCH_CACHE_DIR is set"
  | Draw error => "draw chart: " +:+ error
  | NoRows path => "no benchmark rows in " +:+ path
  | NoRenderableRows => "no benchmark rows to render"
  | NoCompleteRun => "no complete benchmark run found"
  | RunNotFound run_id => "benchmark run id not found: " +:+ run_id
  | RunIncomplete run_id => "benchmark run is incomplete: " +:+ run_id
  | InvalidTopology topology =>
      "invalid topology " +:+ quote topology +:+ "; expected mpsc or mpmc"
  end.

(** ** Rows *)

Record Row := mk_row {
  row_run_id : string;
  row_cpu : string;
  row_affinity : string;
  row_mode : string;
  row_implementation : string;
  row_payload : string;
  row_payload_bytes : Z;
  row_producers : Z;
  row_consumers : option Z;
  row_nominal_capacity : Z;
  row_capacity_model : option string;
  row_throughput_profile : string;
  row_low_watermark : Z;
  row_high_watermark : Z;
  row_items_per_sec : f64;
  row_relative_mad : option f64;
  row_sample : Z;
  row_samples : Z;
  row_expected_rows : Z;
}.

(** What the deserializer finds in a line: the fields with a default are
    optional, the aliases of [nominal_capacity] and [items_per_sec] are
    merged. *)
Record RowFields := mk_fields {
  rf_run_id : string;
  rf_cpu : option string;
  rf_affinity : option string;
  rf_mode : option string;
  rf_implementation : string;
  rf_payload : string;
  rf_payload_bytes : Z;
  rf_producers : Z;
  rf_consumers : option Z;
  rf_nominal_capacity : Z;
  rf_capacity_model : option string;
  rf_throughput_profile : option string;
  rf_low_watermark : option Z;
  rf_high_watermark : option Z;
  rf_items_per_sec : f64;
  rf_relative_mad : option f64;
  rf_sample : option Z;
  rf_samples : option Z;
  rf_expected_rows : option Z;
}.

Definition unknown_cpu : string := "unknown CPU".
Definition default_mode : string := "try".
Definition one_sample : Z := 1.
Definition legacy_profile : string := "uncontrolled".
Definition legacy_affinity : string := "off".
Definition DEFAULT_CHART_MODE : string := "try".

Definition row_of_fields (f : RowFields) : Row := {|
  row_run_id := rf_run_id f;
  row_cpu := default unknown_cpu (rf_cpu f);
  row_affinity := default legacy_affinity (rf_affinity f);
  row_mode := default default_mode (rf_mode f);
  row_implementation := rf_implementation f;
  row_payload := rf_payload f;
  row_payload_bytes := rf_payload_bytes f;
  row_producers := rf_producers f;
  row_consumers := rf_consumers f;
  row_nominal_capacity := rf_nominal_capacity f;
  row_capacity_model := rf_capacity_model f;
  row_throughput_profile := default legacy_profile (rf_throughput_profile f);
  row_low_watermark := default 0 (rf_low_watermark f);
  row_high_watermark := default 0 (rf_high_watermark f);
  row_items_per_sec := rf_items_per_sec f;
  row_relative_mad := rf_relative_mad f;
  row_sample := default 0 (rf_sample f);
  row_samples := default one_sample (rf_samples f);
  row_expected_rows := default 0 (rf_expected_rows f);
|}.

(** [u64::saturating_mul], [usize::saturating_mul]. *)
Definition saturating_mul (a b : Z) : Z := Z.min (a * b) usize_max.

Definition affinity_label (r : Row) : string :=
  match split_once ":"%char (row_affinity r) with
  | Some (a, _) =>
      if String.eqb a "physical-first" then "all workers pinned, physical cores first"
      else if String.eqb a "logical-order" then "all workers pinned in logical CPU order"
      else row_affinity r
  | None => row_affinity r
  end.

Definition throughput_profile_label (r : Row) : string :=
  if String.eqb (row_throughput_profile r) "saturated" && (0 <? row_nominal_capacity r)
  then
    let low := saturating_mul (row_low_watermark r) 100 / row_nominal_capacity r in
    let high := saturating_mul (row_high_watermark r) 100 / row_nominal_capacity r in
    "saturated occupancy " +:+ show_Z low +:+ "-" +:+ show_Z high +:+ "%"
  else if String.eqb (row_throughput_profile r) "uncontrolled" then "natural queue occupancy"
  else row_throughput_profile r.

(** ** Cached measurements *)

(** The row of one sample. *)
Definition sample_row (row : Row) (samples : Z) (delta : f64) (sample : Z) : Row := {|
  row_run_id := row_run_id row;
  row_cpu := row_cpu row;
  row_affinity := row_affinity row;
  row_mode := row_mode row;
  row_implementation := row_implementation row;
  row_payload := row_payload row;
  row_payload_bytes := row_payload_bytes row;
  row_producers := row_producers row;
  row_consumers := row_consumers row;
  row_nominal_capacity := row_nominal_capacity row;
  row_capacity_model := row_capacity_model row;
  row_throughput_profile := row_throughput_profile row;
  row_low_watermark := row_low_watermark row;
  row_high_watermark := row_high_watermark row;
  row_items_per_sec :=
    if samples mod 2 =? 0 then
      if sample <? samples / 2 then f64_sub (row_items_per_sec row) delta
      else f64_add (row_items_per_sec row) delta
    else
      match Z.compare sample (samples / 2) with
      | Lt => f64_sub (row_items_per_sec row) delta
      | Eq => row_items_per_sec row
      | Gt => f64_add (row_items_per_sec row) delta
      end;
  row_relative_mad := None;
  row_sample := sample;
  row_samples := row_samples row;
  row_expected_rows := saturating_mul (row_expected_rows row) samples;
|}.

Definition mad_delta (row : Row) (relative_mad : f64) : f64 :=
  f64_div (f64_mul (row_items_per_sec row) relative_mad) (f64_of 100).

Definition expand_row (row : Row) : list Row :=
  match row_relative_mad row with
  | None => [row]
  | Some relative_mad =>
      let samples := Z.max (row_samples row) 1 in
      let delta := mad_delta row relative_mad in
      sample_row row samples delta <$> seqZ 0 samples
  end.

Definition expand_cached_measurements (rows : list Row) : list Row :=
  concat (expand_row <$> rows).

(** ** Complete runs *)

(** The key of the map of [run_is_complete]. *)
Definition group_key (row : Row) : string * string * Z * option Z :=
  (row_implementation row, row_payload row, row_producers row, row_consumers row).

(** The map [run_is_complete] fills: per configuration the number of samples
    its first row announces and the set of the samples seen. *)
Definition sample_groups (rows : list Row)
    : list ((string * string * Z * option Z) * (Z * list (Z * unit))) :=
  foldl (λ m row,
    bt_entry (group_key row) (λ o,
      let '(expected, samples) := default (row_samples row, []) o in
      (expected, bs_insert (row_sample row) samples)) m) [] rows.

Definition run_is_complete (rows : list Row) : bool :=
  match rows with
  | [] => false
  | first :: _ =>
      let expected_rows := row_expected_rows first in
      if negb (expected_rows =? 0)
         && (negb (Z.of_nat (length rows) =? expected_rows)
             || existsb (λ row, negb (row_expected_rows row =? expected_rows)) rows)
      then false
      else
        forallb (λ '(_, (expected, samples)),
          negb (expected =? 0) && (Z.of_nat (length samples) =? expected)
          && bool_decide (samples.*1 = seqZ 0 expected)) (sample_groups rows)
  end.

(** ** Comparable groups *)

Record BenchmarkShape := mk_shape {
  shape_cpu : string;
  shape_affinity : string;
  shape_mode : string;
  shape_nominal_capacity : Z;
  shape_throughput_profile : string;
  shape_low_watermark : Z;
  shape_high_watermark : Z;
  shape_samples : Z;
  shape_configurations : list (string * Z * Z * option Z);
}.

#[export] Instance benchmark_shape_eq_dec : EqDecision BenchmarkShape.
Proof. solve_decision. Defined.

(** The condition of [benchmark_shape]: every setting but the configuration is
    that of the first row. *)
Definition same_settings (first row : Row) : bool :=
  String.eqb (row_cpu row) (row_cpu first)
  && String.eqb (row_affinity row) (row_affinity first)
  && String.eqb (row_mode row) (row_mode first)
  && (row_nominal_capacity row =? row_nominal_capacity first)
  && String.eqb (row_throughput_profile row) (row_throughput_profile first)
  && (row_low_watermark row =? row_low_watermark first)
  && (row_high_watermark row =? row_high_watermark first)
  && (row_samples row =? row_samples first).

Definition row_configuration (row : Row) : string * Z * Z * option Z :=
  (row_payload row, row_payload_bytes row, row_producers row, row_consumers row).

Definition benchmark_shape (rows : list Row) : option BenchmarkShape :=
  match rows with
  | [] => None
  | first :: _ =>
      if existsb (λ row, negb (same_settings first row)) rows then None
      else Some {|
        shape_cpu := row_cpu first;
        shape_affinity := row_affinity first;
        shape_mode := row_mode first;
        shape_nominal_capacity := row_nominal_capacity first;
        shape_throughput_profile := row_throughput_profile first;
        shape_low_watermark := row_low_watermark first;
        shape_high_watermark := row_high_watermark first;
        shape_samples := row_samples first;
        shape_configurations := bs_collect (row_configuration <$> rows);
      |}
  end.

(** The groups of rows of one implementation, by its name. *)
Definition implementation_map (rows : list Row) : list (string * list Row) :=
  foldl (λ m row, bt_entry (row_implementation row) (λ o, default [] o ++ [row]) m) [] rows.

Definition implementation_groups (rows : list Row) : list (list Row) :=
  (implementation_map rows).*2.

(** ** Selection *)

(** [mode.is_none_or(|mode| row.mode == mode)]. *)
Definition mode_matches (mode : option string) (row : Row) : bool :=
  match mode with None => true | Some m => String.eqb (row_mode row) m end.

(** The distinct run ids in the order of their first rows: the [seen] filter. *)
Fixpoint distinct_ids (seen : list (string * unit)) (ids : list string) : list string :=
  match ids with
  | [] => []
  | id :: ids' =>
      if bs_contains id seen then distinct_ids seen ids'
      else id :: distinct_ids (bs_insert id seen) ids'
  end.

(** [run_id.parse::<u128>().unwrap_or(0)], the sort key. *)
Definition run_key (run_id : string) : Z := default 0 (parse_u128 run_id).
Definition run_le (a b : string) : bool := run_key a <=? run_key b.

(** The run ids, oldest first. *)
Definition sorted_run_ids (rows : list Row) (mode : option string) : list string :=
  sort_by run_le (distinct_ids [] (row_run_id <$> List.filter (mode_matches mode) rows)).

Definition run_rows (rows : list Row) (mode : option string) (run_id : string) : list Row :=
  List.filter (λ row, String.eqb (row_run_id row) run_id && mode_matches mode row) rows.

Definition complete_runs (rows : list Row) (mode : option string) : list (list Row) :=
  List.filter run_is_complete (run_rows rows mode <$> sorted_run_ids rows mode).

(** The loop that looks for the reference shape: [None] when a group has no
    shape (the [?] of the source), otherwise the last of the shapes with the
    most configurations. *)
Fixpoint find_reference (reference : option BenchmarkShape) (groups : list (list Row))
    : option (option BenchmarkShape) :=
  match groups with
  | [] => Some reference
  | group :: groups' =>
      shape ← benchmark_shape group;
      find_reference
        (match reference with
         | None => Some shape
         | Some current =>
             if (length (shape_configurations current)
                 <=? length (shape_configurations shape))%nat
             then Some shape else Some current
         end) groups'
  end.

Definition has_shape (reference : BenchmarkShape) (group : list Row) : bool :=
  bool_decide (benchmark_shape group = Some reference).

Definition of_implementation (implementation : string) (rows : list Row) : list Row :=
  List.filter (λ row, String.eqb (row_implementation row) implementation) rows.

(** [iter().rev().find_map(..)]: the group of the newest run that has the
    reference shape. *)
Definition latest_group (runs : list (list Row)) (reference : BenchmarkShape)
    (implementation : string) : option (list Row) :=
  List.find (has_shape reference) (of_implementation implementation <$> rev runs).

(** The loop over the implementations, with its [?]. *)
Fixpoint combine_groups (runs : list (list Row)) (reference : BenchmarkShape)
    (implementations : list string) : option (list Row) :=
  match implementations with
  | [] => Some []
  | implementation :: rest =>
      group ← latest_group runs reference implementation;
      combined ← combine_groups runs reference rest;
      Some (group ++ combined)
  end.

(** [group[0].implementation], of a group that is not empty. *)
Definition group_name (group : list Row) : string :=
  match group with [] => EmptyString | row :: _ => row_implementation row end.

Definition combine_latest_runs (rows : list Row) (mode : option string) : option (list Row) :=
  let runs := complete_runs rows mode in
  let groups := concat (implementation_groups <$> runs) in
  reference ← find_reference None groups;
  reference ← reference;
  let implementations :=
    bs_collect (group_name <$> List.filter (has_shape reference) groups) in
  combine_groups runs reference implementations.

Definition select_run_with_default_mode (rows : list Row) (requested_run : option string)
    (default_mode : option string) : ChartResult (list Row) :=
  match requested_run with
  | None =>
      match combine_latest_runs rows default_mode with
      | Some combined => Ok combined
      | None => Err NoCompleteRun
      end
  | Some run_id =>
      let selected := List.filter (λ row, String.eqb (row_run_id row) run_id) rows in
      match selected with
      | [] => Err (RunNotFound run_id)
      | _ => if run_is_complete selected then Ok selected else Err (RunIncomplete run_id)
      end
  end.
