(* ===== verification/ChartPlot.v ===== *)
(** * Effects and drawing primitives of the chart binary

    [src/src/bin/chart/plot.rs], and the monad every effect of the binary runs
    in.  [io A] passes the list of events so far; an operation returns, fails
    with a [ChartError], or panics.  The [plotters] crate, the file system and
    the process environment are not part of the repository: they are the class
    [Host], whose answers may depend on the events so far.  What is handed to
    plotters is an [element]. *)
From Stdlib Require Import Ascii String.
From S2P Require Import Prelude ChartStd F64 ChartRow.

(** ** What is drawn *)

Record RGBColor := RGB { red : Z; green : Z; blue : Z }.

Inductive HPos := HLeft | HCenter | HRight.

Record TextStyle := mk_text_style {
  ts_size : Z; ts_color : RGBColor; ts_horizontal : HPos; ts_bold : bool; ts_rotated : bool }.

(** Filled, or a stroke of some width; [ss_mix] is the opacity. *)
Inductive fill_mode := Filled | Stroke (width : Z).
Record ShapeStyle := mk_shape_style { ss_color : RGBColor; ss_mix : f64; ss_fill : fill_mode }.

Inductive element :=
| EFill (color : RGBColor)
| EText (text : string) (position : Z * Z) (style : TextStyle)
| ERectangle (corners : (Z * Z) * (Z * Z)) (style : ShapeStyle)
| EPath (points : list (Z * Z)) (style : ShapeStyle)
| EPresent.

Inductive event :=
| Stdout (line : string)
| Stderr (line : string)
| CreatedDirs (path : string)
| Opened (path : string) (width height : Z)
| Drawn (e : element)
| Wrote (path contents : string).

(** ** The host *)

Class Host := {
  host_args : list string;
  host_var : string → option string;
  host_current_dir : option string;
  host_manifest_dir : string;
  host_parent : string → option string;
  host_ancestors : string → list string;
  host_path_le : string → string → bool;
  host_is_file : string → bool;
  host_read_dir : string → result (list (result string io_error)) io_error;
  host_lines : string → result (list (result string io_error)) io_error;
  host_read_to_string : list event → string → result string io_error;
  host_create_dir_all : list event → string → option io_error;
  host_write : list event → string → option io_error;
  host_draw : list event → element → option string;
  host_powf : f64 → f64 → f64;
  host_log10 : f64 → f64;
}.

(** ** The monad *)

Inductive io_res (A : Type) :=
| Ret (a : A)
| Raise (e : ChartError)
| Crash (f : fault).
Arguments Ret {A} a.
Arguments Raise {A} e.
Arguments Crash {A} f.

Definition io (A : Type) : Type := list event → io_res A * list event.

#[export] Instance io_ret : MRet io := λ A a l, (Ret a, l).
#[export] Instance io_bind : MBind io := λ A B k p l,
  match p l with
  | (Ret a, l') => k a l'
  | (Raise e, l') => (Raise e, l')
  | (Crash f, l') => (Crash f, l')
  end.

Definition raise {A} (e : ChartError) : io A := λ l, (Raise e, l).
Definition crash {A} (f : fault) : io A := λ l, (Crash f, l).
Definition emit (e : event) : io () := λ l, (Ret (), l ++ [e]).
Definition history : io (list event) := λ l, (Ret l, l).

(** [r?] *)
Definition of_result {A} (r : ChartResult A) : io A :=
  match r with Ok a => mret a | Err e => raise e end.
Definition io_of_outcome {A} (o : outcome A) : io A :=
  match o with Done a => mret a | Fault f => crash f end.

(** A [for] loop whose body can leave the function. *)
Fixpoint io_for {A} (l : list A) (f : A → io ()) : io () :=
  match l with
  | [] => mret ()
  | a :: l' => _ ← f a; io_for l' f
  end.

(** Computations that may panic. *)
#[export] Instance outcome_ret : MRet outcome := λ A a, Done a.
#[export] Instance outcome_bind : MBind outcome := λ A B k p,
  match p with Done a => k a | Fault f => Fault f end.

(** An [i32] operation of a debug build: it panics when it overflows.  Where
    one check covers several operations, none of them can overflow on the way
    to a result in range. *)
Definition i32_min : Z := - 2 ^ 31.
Definition i32_max : Z := 2 ^ 31 - 1.
Definition i32 (n : Z) : outcome Z :=
  if (i32_min <=? n) && (n <=? i32_max) then Done n
  else Fault (Panic "attempt to compute with overflow").

(** [usize_to_i32], [u32_to_i32]: [i32::try_from(value).expect(..)]. *)
Definition usize_to_i32 (value : Z) : outcome Z :=
  if value <=? i32_max then Done value else Fault (Panic "chart dimension fits i32").
Definition u32_to_i32 (value : Z) : outcome Z :=
  if value <=? i32_max then Done value else Fault (Panic "chart dimension fits i32").

(** [enumerate()]. *)
Definition enumerate {A} (l : list A) : list (Z * A) :=
  zip (seqZ 0 (Z.of_nat (length l))) l.

(** ** [plot.rs] *)

Definition BG : RGBColor := RGB 13 17 23.
Definition GRID : RGBColor := RGB 33 38 45.
Definition AXIS : RGBColor := RGB 48 54 61.
Definition TEXT : RGBColor := RGB 230 237 243.
Definition MUTED : RGBColor := RGB 125 133 144.

Record Plot := mk_plot {
  plot_left : f64; plot_right : f64; plot_top : f64; plot_bottom : f64; y_max : f64 }.

Definition Plot_y (p : Plot) (value : f64) : f64 :=
  f64_sub (plot_bottom p)
    (f64_mul (f64_div value (y_max p)) (f64_sub (plot_bottom p) (plot_top p))).

Record Bar := mk_bar { bar_x : f64; bar_width : f64; bar_color : RGBColor }.

Record Font := mk_font {
  font_size : Z; font_color : RGBColor; font_horizontal : HPos; font_bold : bool }.

Definition Font_regular (size : Z) (color : RGBColor) (horizontal : HPos) : Font :=
  mk_font size color horizontal false.
Definition Font_bold (size : Z) (color : RGBColor) (horizontal : HPos) : Font :=
  mk_font size color horizontal true.

Definition px (value : f64) : Z := as_i32 (f64_round value).

Definition f64_one : f64 := f64_of 1.

Section plot.
Context `{Host}.

(** [area.draw(..).chart()], [area.fill(..).chart()], [area.present().chart()]:
    an error of plotters becomes [ChartError::Draw] with its debug text. *)
Definition draw_element (e : element) : io () :=
  l ← history;
  match host_draw l e with
  | Some error => raise (Draw error)
  | None => emit (Drawn e)
  end.

(** [SVGBackend::new(path, (width, height)).into_drawing_area()]. *)
Definition open_area (path : string) (width height : Z) : io () :=
  emit (Opened path width height).

Definition text (value : string) (position : Z * Z) (font : Font) : io () :=
  draw_element (EText value position {|
    ts_size := font_size font; ts_color := font_color font;
    ts_horizontal := font_horizontal font; ts_bold := font_bold font; ts_rotated := false |}).

Definition rect (p1 p2 : f64 * f64) (color : RGBColor) : io () :=
  draw_element (ERectangle ((px p1.1, px p1.2), (px p2.1, px p2.2))
    (mk_shape_style color f64_one Filled)).

Definition line (p1 p2 : f64 * f64) (color : RGBColor) (width : Z) : io () :=
  draw_element (EPath [(px p1.1, px p1.2); (px p2.1, px p2.2)]
    (mk_shape_style color f64_one (Stroke width))).

Definition read_to_string (path : string) : io string :=
  l ← history;
  match host_read_to_string l path with
  | Ok s => mret s
  | Err source => raise (EIo path source)
  end.

Definition write_file (path contents : string) : io () :=
  l ← history;
  match host_write l path with
  | Some source => raise (EIo path source)
  | None => emit (Wrote path contents)
  end.

(** [str::replacen(pat, rep, 1)]. *)
Fixpoint replace_first (pat rep s : string) : string :=
  match s with
  | EmptyString => EmptyString
  | String c s' =>
      if String.prefix pat s
      then rep +:+ String.substring (String.length pat) (String.length s - String.length pat) s
      else String c (replace_first pat rep s')
  end.

(** The SVG header with its fixed size, and without. *)
Definition svg_sized (width height : Z) : string :=
  "<svg width=" +:+ quote (show_Z width) +:+ " height=" +:+ quote (show_Z height)
  +:+ " viewBox=" +:+ quote ("0 0 " +:+ show_Z width +:+ " " +:+ show_Z height).
Definition svg_scaled (width height : Z) : string :=
  "<svg viewBox=" +:+ quote ("0 0 " +:+ show_Z width +:+ " " +:+ show_Z height).
Definition svg_namespace : string := "xmlns=" +:+ quote "http://www.w3.org/2000/svg".

Definition finish_svg (path : string) (width height : Z) : io () :=
  svg ← read_to_string path;
  let svg := replace_first (svg_sized width height) (svg_scaled width height) svg in
  let svg := replace_first svg_namespace
    (svg_namespace +:+ " font-family=" +:+ quote "system-ui, -apple-system, sans-serif") svg in
  write_file path svg.
End plot.
