(* ===== verification/ChartHardware.v ===== *)
(** * The hardware label of a chart

    [src/src/bin/chart/hardware.rs]: the label comes from the environment or
    from a [.chart_hw] file of [key=value] lines, or else is the CPU name
    without its brand markers. *)
From Stdlib Require Import Ascii String.
From S2P Require Import Prelude ChartStd F64 ChartRow ChartPlot.

(** [PathBuf::join] on a path with [/] as separator: an absolute path replaces
    the whole, a relative one is appended after a separator. *)
Definition ends_with_slash (s : string) : bool :=
  match String.length s with
  | O => true
  | S n => bool_decide (String.get n s = Some "/"%char)
  end.
Definition path_join (base path : string) : string :=
  if String.prefix "/" path then path
  else if ends_with_slash base then base +:+ path
  else base +:+ "/" +:+ path.

(** The lines of a configuration file that are kept. *)
Definition is_setting (line : string) : bool :=
  negb (String.eqb line "") && negb (String.prefix "#" line).

(** The iterator chain over the file's contents. *)
Definition parse_chart_hardware (content : string) : list (string * string) :=
  bt_collect
    ((λ '(key, value), (trim key, trim value))
     <$> omap (split_once "="%char) (List.filter is_setting (trim <$> lines content))).

Definition join_hardware_parts (prefix postfix : option string) : option string :=
  match prefix, postfix with
  | Some prefix, Some postfix => Some (prefix +:+ ", " +:+ postfix)
  | Some prefix, None => Some prefix
  | None, Some postfix => Some postfix
  | None, None => None
  end.

Definition simplify_cpu_name (cpu : string) : string :=
  join_with " " (split_whitespace (replace "CPU " "" (replace "(TM)" "" (replace "(R)" "" cpu)))).

Section hardware.
Context `{Host}.

(** [read_to_string(path)] with its error ignored. *)
Definition read_chart_hardware_from (l : list event) (working_dir manifest_dir : string)
    : list (string * string) :=
  let path :=
    default (path_join manifest_dir ".chart_hw")
      (List.find host_is_file ((λ dir, path_join dir ".chart_hw") <$> host_ancestors working_dir)) in
  match host_read_to_string l path with
  | Ok content => parse_chart_hardware content
  | Err _ => []
  end.

(** [std::env::current_dir().unwrap_or_default()]. *)
Definition read_chart_hardware (l : list event) : list (string * string) :=
  read_chart_hardware_from l (default EmptyString host_current_dir) host_manifest_dir.

Definition nonempty_env (name : string) : option string :=
  value ← host_var name;
  if String.eqb (trim value) "" then None else Some value.

(** [a.or_else(|| b)]. *)
Definition or_else {A} (a b : option A) : option A :=
  match a with Some _ => a | None => b end.

Definition configured_hardware (l : list event) : option string :=
  let config := read_chart_hardware l in
  let label :=
    or_else (nonempty_env "FANRING_HW_LABEL")
      (value ← bt_get "label" config; if String.eqb value "" then None else Some value) in
  match label with
  | Some label => Some label
  | None =>
      let prefix := or_else (nonempty_env "FANRING_HW_PREFIX") (bt_get "prefix" config) in
      let postfix := or_else (nonempty_env "FANRING_HW_POSTFIX") (bt_get "postfix" config) in
      join_hardware_parts prefix postfix
  end.

Definition chart_hardware (fallback : string) : io string :=
  l ← history;
  mret (default (simplify_cpu_name fallback) (configured_hardware l)).
End hardware.

Example simplify_ex :
  simplify_cpu_name "Intel(R) Core(TM) i7 CPU @ 3.20GHz" = "Intel Core i7 @ 3.20GHz".
Proof. vm_compute. done. Qed.
Example parse_hardware_ex :
  parse_chart_hardware ("prefix=runtime host" +:+ String newline (" # note" +:+ String newline "postfix = turbo off"))
  = [("postfix", "turbo off"); ("prefix", "runtime host")].
Proof. vm_compute. done. Qed.
