(* ===== verification/ChartRender.v ===== *)
(** * The throughput heatmaps

    [src/src/bin/chart/render.rs]: medians and deviations per series, the
    layout of the tables, and what is drawn. *)
From Stdlib Require Import Ascii String.
From S2P Require Import Prelude ChartStd F64 ChartRow ChartPlot ChartHardware.

Definition BACKGROUND_COLOR : RGBColor := RGB 0 0 0.
Definition GRID_COLOR : RGBColor := RGB 55 65 81.
Definition TEXT_COLOR : RGBColor := RGB 229 231 235.
Definition MUTED_TEXT_COLOR : RGBColor := RGB 156 163 175.

Definition SERIES : list (string * string) := [
  ("fanring", "fanring Deferred");
  ("fanring-coordinated", "fanring Coordinated");
  ("fanring-mpmc", "fanring Deferred");
  ("fanring-coordinated-mpmc", "fanring Coordinated");
  ("crossbeam-channel", "crossbeam-channel 0.5.17");
  ("crossfire", "crossfire 3.1.20");
  ("crossfire-mpmc", "crossfire 3.1.20");
  ("concurrent-queue", "concurrent-queue 2.5.0");
  ("thingbuf", "thingbuf 0.1.6");
  ("flume", "flume 0.12.0");
  ("kanal", "kanal 0.1.1")
].

(** ** Measurements *)

Record Measurement := mk_measurement { m_median : f64; m_relative_mad : f64 }.

(** [values[i]]: a panic out of bounds. *)
Definition index_f64 (values : list f64) (i : Z) : outcome f64 :=
  match (if i <? 0 then None else values !! Z.to_nat i) with
  | Some v => Done v
  | None => Fault (Panic "index out of bounds")
  end.

Definition median_sorted (values : list f64) : outcome f64 :=
  let middle := Z.of_nat (length values) / 2 in
  if Z.of_nat (length values) mod 2 =? 0 then
    a ← index_f64 values (middle - 1);
    b ← index_f64 values middle;
    Done (f64_midpoint a b)
  else index_f64 values middle.

Definition measurement (values : list f64) : outcome Measurement :=
  let values := sort_total values in
  median ← median_sorted values;
  let deviations := sort_total ((λ value, f64_abs (f64_sub value median)) <$> values) in
  mad ← median_sorted deviations;
  Done {|
    m_median := median;
    m_relative_mad :=
      if f64_eqb median (f64_of 0) then f64_of 0
      else f64_mul (f64_div mad median) (f64_of 100);
  |}.

(** ** Rows and series *)

Definition payloads_by_size (rows : list Row) : list string :=
  let payloads := bt_collect ((λ row, (row_payload row, row_payload_bytes row)) <$> rows) in
  (sort_by (λ a b, a.2 <=? b.2) payloads).*1.

Definition distinct_producers (rows : list Row) : list Z :=
  bs_collect (row_producers <$> rows).

Definition million : f64 := f64_of 1000000.

(** The samples of every series, before they are summarised. *)
Definition series_samples (rows : list Row) : list ((string * (Z * Z)) * list f64) :=
  foldl (λ m row,
    bt_entry (row_implementation row, (row_producers row, default 0 (row_consumers row)))
      (λ o, default [] o ++ [f64_div (row_items_per_sec row) million]) m) [] rows.

(** [.map(|(key, values)| (key, measurement(values))).collect()]. *)
Fixpoint measure_all {K} (l : list (K * list f64)) : outcome (list (K * Measurement)) :=
  match l with
  | [] => Done []
  | (key, values) :: l' =>
      m ← measurement values;
      rest ← measure_all l';
      Done ((key, m) :: rest)
  end.

Definition values_by_series (rows : list Row) : outcome (list ((string * (Z * Z)) * Measurement)) :=
  measure_all (series_samples rows).

Definition winners_by_topology (values : list ((string * (Z * Z)) * Measurement))
    : list ((Z * Z) * f64) :=
  foldl (λ winners '((_, topology), m),
    bt_entry topology (λ o,
      match o with Some best => f64_max best (m_median m) | None => m_median m end) winners)
    [] values.

Definition present_series (rows : list Row) : list (string * string) :=
  let present := bs_collect (row_implementation <$> rows) in
  let series := List.filter (λ s, bool_decide (s.1 ∈ present)) SERIES in
  let known := bs_collect SERIES.*1 in
  series ++ ((λ i, (i, i)) <$> List.filter (λ i, negb (bool_decide (i ∈ known))) present).

(** ** Layout *)

Definition TABLE_LEFT : Z := 184.
Definition TABLE_RIGHT : Z := 24.

Record ChartLayout := mk_layout {
  width : Z; height : Z; header_height : Z; section_height : Z }.

(** A [u32] operation of a debug build, and [u32::try_from(n).expect(msg)]. *)
Definition u32_max : Z := 2 ^ 32 - 1.
Definition u32_or (msg : string) (n : Z) : outcome Z :=
  if (0 <=? n) && (n <=? u32_max) then Done n else Fault (Panic msg).

Definition ChartLayout_new (rows : list Row) (is_mpmc : bool) (payload_count : Z)
    : outcome ChartLayout :=
  let width := if is_mpmc then 1440 else 1024 in
  let series_count := Z.of_nat (length (present_series rows)) in
  let '(section_header, row_height) := if is_mpmc then (100, 29) else (78, 25) in
  series_count ← u32_or "series count fits u32" series_count;
  section_height ← u32_or "attempt to compute with overflow"
    (section_header + row_height * series_count);
  let header_height := 58 in
  let footer_height := 24 in
  payload_count ← u32_or "payload count fits u32" payload_count;
  height ← u32_or "chart height fits u32"
    (footer_height + (header_height + section_height * payload_count));
  Done (mk_layout width height header_height section_height).

Definition section_y (l : ChartLayout) (index : Z) : outcome Z :=
  header ← u32_to_i32 (header_height l);
  i ← usize_to_i32 index;
  section ← u32_to_i32 (section_height l);
  i32 (header + i * section).

Record HeatTable := mk_heat_table {
  producers : list Z;
  consumers : list Z;
  cell_width : Z;
  group_gap : Z;
  rows_top : Z;
  row_height : Z;
}.

Definition HeatTable_mpsc (rows : list Row) (y width : Z) : outcome HeatTable :=
  let producers := distinct_producers rows in
  n ← usize_to_i32 (Z.max (Z.of_nat (length producers)) 1);
  room ← i32 (width - TABLE_LEFT - TABLE_RIGHT);
  top ← i32 (y + 68);
  Done {|
    producers := producers; consumers := [0]; cell_width := Z.quot room n;
    group_gap := 0; rows_top := top; row_height := 25 |}.

Definition HeatTable_mpmc (rows : list Row) (y width : Z) : outcome HeatTable :=
  let producers := distinct_producers rows in
  let consumers := bs_collect (omap row_consumers rows) in
  let group_gap := 8 in
  let topology_count :=
    saturating_mul (Z.of_nat (length producers)) (Z.of_nat (length consumers)) in
  gaps ← usize_to_i32 (saturating_sub (Z.of_nat (length producers)) 1);
  total_gaps ← i32 (group_gap * gaps);
  room ← i32 (width - TABLE_LEFT - TABLE_RIGHT - total_gaps);
  n ← usize_to_i32 (Z.max topology_count 1);
  top ← i32 (y + 89);
  Done {|
    producers := producers; consumers := consumers; cell_width := Z.quot room n;
    group_gap := group_gap; rows_top := top; row_height := 29 |}.

Definition group_width (t : HeatTable) : outcome Z :=
  n ← usize_to_i32 (Z.of_nat (length (consumers t)));
  i32 (n * cell_width t).

Definition group_x (t : HeatTable) (producer_index : Z) : outcome Z :=
  i ← usize_to_i32 producer_index;
  w ← group_width t;
  step ← i32 (w + group_gap t);
  i32 (TABLE_LEFT + i * step).

Definition cell_x (t : HeatTable) (producer_index consumer_index : Z) : outcome Z :=
  x ← group_x t producer_index;
  i ← usize_to_i32 consumer_index;
  i32 (x + i * cell_width t).

Record Cell := mk_cell { cx : Z; cy : Z; cwidth : Z; cheight : Z }.

(** ** Colors, scales and texts *)

Definition lerp (from to : Z) (mix : f64) : Z :=
  as_u8 (f64_round (f64_mul_add (f64_sub (f64_of to) (f64_of from)) mix (f64_of from))).

Definition heat_color (intensity : f64) : RGBColor :=
  let mix := f64_clamp intensity (f64_of 0) (f64_of 1) in
  RGB (lerp 24 96 mix) (lerp 32 165 mix) (lerp 48 250 mix).

Definition fmt_mmsgs (v : f64) : string :=
  if f64_ltb (f64_abs (f64_sub v (f64_round v))) (f64_dec 5 2) then fmt_fixed 0 v
  else fmt_fixed 1 v.

Definition payload_title (rows : list Row) : string :=
  match rows with
  | row :: _ => row_payload row +:+ " (" +:+ show_Z (row_payload_bytes row) +:+ " B)"
  | [] => "payload"
  end.

Definition capacity_footnote (rows : list Row) (is_mpmc : bool) : string :=
  let models := bs_collect (omap row_capacity_model rows) in
  match models with
  | [] => "Legacy results: capacity model was not recorded"
  | _ =>
      if forallb (λ row, String.prefix "fanring" (row_implementation row)) rows then
        "Deferred retains unread ring payloads; Coordinated reclaims them during close or an overlapping send. Capacity: per-ring HWM"
        +:+ (if is_mpmc then " plus receiver staging" else "")
      else if is_mpmc then
        "Capacity: fanring uses per-ring HWM plus receiver staging; others use one shared bound"
      else "Capacity: fanring uses per-ring HWM; others use one shared bound"
  end.

Section render.
Context `{Host}.

Fixpoint first_step (max_val limit : f64) (steps : list f64) (otherwise : f64) : f64 :=
  match steps with
  | [] => otherwise
  | step :: steps' =>
      if f64_leb (f64_div max_val step) limit then step
      else first_step max_val limit steps' otherwise
  end.

Definition nice_step (max_val : f64) (target_lines : Z) : f64 :=
  if f64_leb max_val (f64_of 0) then f64_of 1
  else
    let raw := f64_div max_val (f64_of target_lines) in
    let mag := host_powf (f64_of 10) (f64_floor (host_log10 raw)) in
    first_step max_val (f64_add (f64_of target_lines) (f64_of 1))
      ((λ s, f64_mul s mag) <$> [f64_of 1; f64_of 2; f64_dec 25 1; f64_of 5; f64_of 10])
      (f64_mul mag (f64_of 10)).

Definition nice_axis_max (max_val : f64) (target_lines : Z) : f64 :=
  let step := nice_step max_val target_lines in
  f64_mul step (f64_max (f64_ceil (f64_div max_val step)) (f64_of 1)).

Definition chart_subtitle (rows : list Row) : io string :=
  match rows with
  | [] => mret "unknown CPU"
  | row :: _ =>
      hardware ← chart_hardware (row_cpu row);
      mret (hardware +:+ "; " +:+ affinity_label row +:+ "; " +:+ row_mode row
        +:+ " operations; " +:+ show_Z (row_samples row) +:+ " samples; nominal capacity "
        +:+ show_Z (row_nominal_capacity row) +:+ " items; " +:+ throughput_profile_label row)
  end.

(** ** Drawing *)

Definition style (size : Z) (color : RGBColor) (horizontal : HPos) : TextStyle :=
  mk_text_style size color horizontal false false.
Definition label_style (color : RGBColor) (horizontal : HPos) : TextStyle :=
  style 11 color horizontal.

(** The position is computed in [i32] before the call. *)
Definition draw_text (value : string) (position : Z * Z) (style : TextStyle) : io () :=
  x ← io_of_outcome (i32 position.1);
  y ← io_of_outcome (i32 position.2);
  draw_element (EText value (x, y) style).

Definition draw_separator (y width : Z) : io () :=
  y ← io_of_outcome (i32 y);
  draw_element (EPath [(24, y); (width - 24, y)] (mk_shape_style GRID_COLOR f64_one (Stroke 1))).

Definition draw_chart_title (rows : list Row) (is_mpmc : bool) (center : Z) : io () :=
  let profile :=
    match rows with
    | row :: _ =>
        if String.eqb (row_throughput_profile row) "saturated" then "saturated throughput"
        else "throughput"
    | [] => "throughput"
    end in
  _ ← draw_text ("fanring " +:+ (if is_mpmc then "MPMC" else "MPSC") +:+ " " +:+ profile
    +:+ " comparison") (center, 17) (style 15 TEXT_COLOR HCenter);
  subtitle ← chart_subtitle rows;
  draw_text subtitle (center, 35) (style 10 MUTED_TEXT_COLOR HCenter).

(** [area_width] is [area.dim_in_pixel().0]. *)
Definition draw_section_title (area_width : Z) (rows : list Row) (y : Z) (scale_max : f64)
    (suffix : string) : io () :=
  let title :=
    payload_title rows +:+ "; median M items/s (+/- MAD); color scale 0-" +:+ fmt_mmsgs scale_max
    +:+ suffix +:+ "; white outline = winner" in
  w ← io_of_outcome (u32_to_i32 area_width);
  draw_text title (Z.quot w 2, y + 15) (style 11 TEXT_COLOR HCenter).

Definition draw_heat_cell (cell : Cell) (measurement : option Measurement) (scale_max : f64)
    (winner : bool) : io () :=
  x0 ← io_of_outcome (i32 (cx cell + 2));
  y0 ← io_of_outcome (i32 (cy cell + 2));
  x1 ← io_of_outcome (i32 (cx cell + cwidth cell - 2));
  y1 ← io_of_outcome (i32 (cy cell + cheight cell - 2));
  let intensity :=
    match measurement with
    | None => f64_of 0
    | Some m => f64_clamp (f64_div (m_median m) scale_max) (f64_of 0) (f64_of 1)
    end in
  let fill := match measurement with None => RGB 17 24 39 | Some _ => heat_color intensity end in
  _ ← draw_element (ERectangle ((x0, y0), (x1, y1)) (mk_shape_style fill f64_one Filled));
  _ ← (if winner then
         draw_element (ERectangle ((x0, y0), (x1, y1))
           (mk_shape_style TEXT_COLOR f64_one (Stroke 2)))
       else mret ());
  let text_color := if f64_leb (f64_dec 68 2) intensity then BACKGROUND_COLOR else TEXT_COLOR in
  let center := (Z.quot (x0 + x1) 2, Z.quot (y0 + y1) 2) in
  match measurement with
  | Some m =>
      _ ← draw_text (fmt_fixed 1 (m_median m)) (center.1, center.2 - 4)
        (style 10 text_color HCenter);
      draw_text ("+/-" +:+ fmt_fixed 1 (m_relative_mad m) +:+ "%") (center.1, center.2 + 7)
        (style 7 text_color HCenter)
  | None => draw_text "-" center (style 11 text_color HCenter)
  end.

(** Whether a cell gets the outline. *)
Definition is_winner (measurement : option Measurement) (best : option f64) : bool :=
  match measurement, best with
  | Some m, Some best => f64_leb best (m_median m)
  | _, _ => false
  end.

Definition draw_series_rows (rows : list Row) (table : HeatTable) (scale_max : f64) : io () :=
  let series := present_series rows in
  values ← io_of_outcome (values_by_series rows);
  let winners := winners_by_topology values in
  io_for (enumerate series) (λ '(row_index, (key, label)),
    i ← io_of_outcome (usize_to_i32 row_index);
    row_y ← io_of_outcome (i32 (rows_top table + i * row_height table));
    let color := if String.prefix "fanring" key then RGB 250 204 21 else TEXT_COLOR in
    _ ← draw_text label (28, row_y + Z.quot (row_height table) 2) (label_style color HLeft);
    io_for (enumerate (producers table)) (λ '(producer_index, producer),
      io_for (enumerate (consumers table)) (λ '(consumer_index, consumer),
        let topology := (producer, consumer) in
        let measurement := bt_get (key, topology) values in
        let winner := is_winner measurement (bt_get topology winners) in
        x ← io_of_outcome (cell_x table producer_index consumer_index);
        draw_heat_cell (mk_cell x row_y (cell_width table) (row_height table))
          measurement scale_max winner))).

Definition draw_mpsc_heatmap (area_width : Z) (rows : list Row) (y width : Z) (scale_max : f64)
    : io () :=
  table ← io_of_outcome (HeatTable_mpsc rows y width);
  _ ← draw_section_title area_width rows y scale_max "";
  _ ← draw_text "implementation" (28, y + 46) (label_style MUTED_TEXT_COLOR HLeft);
  _ ← draw_text "producer threads" (Z.quot (TABLE_LEFT + width - TABLE_RIGHT) 2, y + 38)
    (label_style MUTED_TEXT_COLOR HCenter);
  _ ← io_for (enumerate (producers table)) (λ '(column, producer),
    x ← io_of_outcome (group_x table column);
    draw_text (show_Z producer) (x + Z.quot (cell_width table) 2, y + 56)
      (label_style TEXT_COLOR HCenter));
  _ ← draw_series_rows rows table scale_max;
  draw_separator (y + 260) width.

Definition draw_mpmc_heatmap (area_width : Z) (rows : list Row) (y width : Z) (scale_max : f64)
    : io () :=
  table ← io_of_outcome (HeatTable_mpmc rows y width);
  _ ← draw_section_title area_width rows y scale_max "";
  _ ← draw_text "producer threads" (TABLE_LEFT - 12, y + 39) (label_style MUTED_TEXT_COLOR HRight);
  _ ← draw_text "consumer threads" (TABLE_LEFT - 12, y + 61) (label_style MUTED_TEXT_COLOR HRight);
  _ ← draw_text "implementation" (28, y + 78) (label_style MUTED_TEXT_COLOR HLeft);
  _ ← io_for (enumerate (producers table)) (λ '(producer_index, producer),
    x ← io_of_outcome (group_x table producer_index);
    w ← io_of_outcome (group_width table);
    _ ← draw_text (show_Z producer) (x + Z.quot w 2, y + 39) (label_style TEXT_COLOR HCenter);
    io_for (enumerate (consumers table)) (λ '(consumer_index, consumer),
      x ← io_of_outcome (cell_x table producer_index consumer_index);
      draw_text (show_Z consumer) (x + Z.quot (cell_width table) 2, y + 61)
        (label_style TEXT_COLOR HCenter)));
  _ ← draw_series_rows rows table scale_max;
  draw_separator (y + 235) width.

Definition draw_chart (rows : list Row) (output : string) : io () :=
  match rows with
  | [] => raise NoRenderableRows
  | _ =>
      let payloads := payloads_by_size rows in
      let is_mpmc := existsb (λ row, bool_decide (is_Some (row_consumers row))) rows in
      layout ← io_of_outcome (ChartLayout_new rows is_mpmc (Z.of_nat (length payloads)));
      width_i32 ← io_of_outcome (u32_to_i32 (width layout));
      _ ← open_area output (width layout) (height layout);
      _ ← draw_element (EFill BACKGROUND_COLOR);
      _ ← draw_chart_title rows is_mpmc (Z.quot width_i32 2);
      _ ← io_for (enumerate payloads) (λ '(index, payload),
        let payload_rows := List.filter (λ row, String.eqb (row_payload row) payload) rows in
        values ← io_of_outcome (values_by_series payload_rows);
        let raw_max :=
          f64_max (foldl (λ acc kv, f64_max acc (m_median kv.2)) (f64_of 0) values) (f64_of 1) in
        let scale_max := nice_axis_max raw_max 5 in
        section ← io_of_outcome (section_y layout index);
        if is_mpmc then draw_mpmc_heatmap (width layout) payload_rows section width_i32 scale_max
        else draw_mpsc_heatmap (width layout) payload_rows section width_i32 scale_max);
      h ← io_of_outcome (u32_to_i32 (height layout));
      _ ← draw_text (capacity_footnote rows is_mpmc) (Z.quot width_i32 2, h - 9)
        (style 9 MUTED_TEXT_COLOR HCenter);
      draw_element EPresent
  end.
End render.
