(* ===== verification/ChartSummary.v ===== *)
(** * The summary bar chart

    [src/src/bin/chart/summary.rs]: two groups of bars, MPSC and MPMC, with one
    bar per known series. *)
From Stdlib Require Import Ascii String.
From S2P Require Import Prelude ChartStd F64 ChartRow ChartPlot ChartHardware ChartRender.

Definition FONT_BUMP : Z := 1.

Record Series := mk_series {
  mpsc_key : string; mpmc_key : option string; label : string; color : RGBColor }.

Definition SERIES : list Series := [
  mk_series "fanring" (Some "fanring-mpmc") "fanring Deferred" (RGB 248 113 113);
  mk_series "fanring-coordinated" (Some "fanring-coordinated-mpmc") "fanring Coordinated"
    (RGB 201 75 75);
  mk_series "crossbeam-channel" (Some "crossbeam-channel") "crossbeam-channel 0.5.17"
    (RGB 96 165 250);
  mk_series "crossfire" (Some "crossfire-mpmc") "crossfire 3.1.20" (RGB 34 211 238);
  mk_series "concurrent-queue" None "concurrent-queue 2.5.0" (RGB 74 222 128);
  mk_series "thingbuf" None "thingbuf 0.1.6" (RGB 167 139 250);
  mk_series "flume" (Some "flume") "flume 0.12.0" (RGB 244 114 182);
  mk_series "kanal" (Some "kanal") "kanal 0.1.1" (RGB 245 158 11)
].

(** A group label and the median throughput per series label. *)
Definition Group : Type := string * list (string * f64).

(** ** Values *)

Definition summary_capacity (mpsc_rows mpmc_rows : list Row) : ChartResult Z :=
  let rows := mpsc_rows ++ mpmc_rows in
  let profiles := bs_collect ((λ row, (row_affinity row, row_throughput_profile row,
    row_low_watermark row, row_high_watermark row)) <$> rows) in
  let capacities := bs_collect (row_nominal_capacity
    <$> List.filter (λ row, String.eqb (row_payload row) "u64" && (row_producers row =? 4)) rows) in
  match profiles, capacities with
  | [_], [capacity] => if capacity mod 4 =? 0 then Ok capacity else Err NoRenderableRows
  | _, _ => Err NoRenderableRows
  end.

(** The rows a bar summarises. *)
Definition in_bar (key : string) (mpmc : bool) (row : Row) : bool :=
  String.eqb (row_implementation row) key && String.eqb (row_payload row) "u64"
  && (row_producers row =? 4)
  && (if mpmc then bool_decide (row_consumers row = Some 4)
      else bool_decide (row_consumers row = None)).

(** The entry of one series, when it has rows. *)
Definition series_value (rows : list Row) (mpmc : bool) (series : Series)
    : outcome (option (string * f64)) :=
  match (if mpmc then mpmc_key series else Some (mpsc_key series)) with
  | None => Done None
  | Some key =>
      let values := (λ row, f64_div (row_items_per_sec row) million)
        <$> List.filter (in_bar key mpmc) rows in
      match values with
      | [] => Done None
      | _ => m ← measurement values; Done (Some (label series, m_median m))
      end
  end.

Fixpoint series_values (rows : list Row) (mpmc : bool) (series : list Series)
    : outcome (list (string * f64)) :=
  match series with
  | [] => Done []
  | s :: series' =>
      v ← series_value rows mpmc s;
      rest ← series_values rows mpmc series';
      Done (match v with Some kv => kv :: rest | None => rest end)
  end.

Definition summary_values (rows : list Row) (mpmc : bool) : outcome (list (string * f64)) :=
  l ← series_values rows mpmc SERIES;
  Done (bt_collect l).

Definition contains {V} (k : string) (m : list (string * V)) : bool :=
  match bt_get k m with Some _ => true | None => false end.

Definition summary_groups (mpsc_rows mpmc_rows : list Row)
    : outcome (ChartResult (list Group * bool)) :=
  mpsc ← summary_values mpsc_rows false;
  mpmc ← summary_values mpmc_rows true;
  let coordinated := contains "fanring Coordinated" mpsc in
  let missing := if coordinated then 0 else 1 in
  let expected_mpsc_series := Z.of_nat (length SERIES) - missing in
  let expected_mpmc_series :=
    Z.of_nat (length (List.filter (λ s, bool_decide (is_Some (mpmc_key s))) SERIES)) - missing in
  if negb (Bool.eqb coordinated (contains "fanring Coordinated" mpmc))
     || negb (Z.of_nat (length mpsc) =? expected_mpsc_series)
     || negb (Z.of_nat (length mpmc) =? expected_mpmc_series)
  then Done (Err NoRenderableRows)
  else Done (Ok ([("MPSC: 4 producers", mpsc); ("MPMC: 4 producers / 4 consumers", mpmc)],
                 coordinated)).

(** ** Drawing *)

Section summary.
Context `{Host}.

Definition root (path : string) (width height : Z) : io () :=
  _ ← open_area path width height;
  draw_element (EFill BG).

Definition text (value : string) (position : Z * Z) (font : Font) : io () :=
  ChartPlot.text value position
    (mk_font (font_size font + FONT_BUMP) (font_color font) (font_horizontal font) (font_bold font)).

Definition vtext (value : string) (position : Z * Z) (size : Z) (color : RGBColor) : io () :=
  draw_element (EText value position (mk_text_style (size + FONT_BUMP) color HCenter true true)).

Definition draw_bar (plot : Plot) (bar : Bar) (value : f64) : io () :=
  let y := Plot_y plot value in
  rect (bar_x bar, y) (f64_add (bar_x bar) (bar_width bar), plot_bottom plot) (bar_color bar).

(** [n as f64]. *)
Definition len_f64 {A} (l : list A) : f64 := f64_of (Z.of_nat (length l)).
Definition gaps_f64 {A} (l : list A) : f64 :=
  f64_of (saturating_sub (Z.of_nat (length l)) 1).

Definition draw_groups (plot : Plot) (groups : list Group) : io () :=
  let group_width := f64_div (f64_sub (plot_right plot) (plot_left plot)) (len_f64 groups) in
  let bar_width := f64_of 44 in
  let bar_gap := f64_of 2 in
  io_for (enumerate groups) (λ '(group_index, (group, values)),
    let active_series := List.filter (λ series, contains (label series) values) SERIES in
    let cluster_width :=
      f64_add (f64_mul (len_f64 active_series) bar_width)
        (f64_mul (gaps_f64 active_series) bar_gap) in
    let group_x :=
      f64_add (f64_add (plot_left plot) (f64_mul (f64_of group_index) group_width))
        (f64_div (f64_sub group_width cluster_width) (f64_of 2)) in
    _ ← io_for (enumerate active_series) (λ '(series_index, series),
      match bt_get (label series) values with
      | None => mret ()
      | Some value =>
          let bar := mk_bar
            (f64_add group_x (f64_mul (f64_of series_index) (f64_add bar_width bar_gap)))
            bar_width (color series) in
          draw_bar plot bar value
      end);
    text group (px (f64_add group_x (f64_div cluster_width (f64_of 2))),
                px (f64_add (plot_bottom plot) (f64_of 20))) (Font_bold 11 TEXT HCenter)).

Definition nice_step (max_value : f64) (target_lines : Z) : f64 :=
  if f64_leb max_value (f64_of 0) then f64_of 1
  else
    let raw := f64_div max_value (f64_of target_lines) in
    let magnitude :=
      host_powf (f64_of 10) (f64_floor (host_log10 (f64_max raw (f64_dec 1 9)))) in
    first_step max_value (f64_add (f64_of target_lines) (f64_of 1))
      ((λ m, f64_mul m magnitude) <$> [f64_of 1; f64_of 2; f64_of 5; f64_of 10])
      (f64_mul magnitude (f64_of 10)).

(** The [while value <= plot.y_max] loop; [fuel] bounds the iterations. *)
Fixpoint grid_lines (fuel : nat) (plot : Plot) (step value : f64) (show : f64 → string) : io () :=
  match fuel with
  | O => crash (Panic "out of fuel")
  | S fuel' =>
      if f64_leb value (y_max plot) then
        let y := Plot_y plot value in
        _ ← line (plot_left plot, y) (plot_right plot, y) GRID 1;
        _ ← text (show value) (px (f64_sub (plot_left plot) (f64_of 8)), px y)
          (Font_regular 10 MUTED HRight);
        grid_lines fuel' plot step (f64_add value step) show
      else mret ()
  end.

Definition draw_y_grid (fuel : nat) (plot : Plot) : io () :=
  let step := nice_step (y_max plot) 5 in
  _ ← grid_lines fuel plot step step (fmt_fixed 0);
  line (plot_left plot, plot_bottom plot) (plot_right plot, plot_bottom plot) AXIS 2.

Definition chart_header (width : Z) (title : string) (hardware : option string) (y : Z) : io () :=
  middle ← io_of_outcome (u32_to_i32 (width / 2));
  _ ← text title (middle, y) (Font_bold 14 TEXT HCenter);
  match hardware with
  | Some hardware => text hardware (middle, y + 18) (Font_regular 10 MUTED HCenter)
  | None => mret ()
  end.

Definition draw_legend (x y : f64) (nominal_capacity : Z) (coordinated : bool) : io () :=
  io_for (enumerate (List.filter
      (λ series, coordinated || negb (String.eqb (mpsc_key series) "fanring-coordinated")) SERIES))
    (λ '(index, series),
      let legend_x := f64_add x (f64_mul (f64_of (index mod 3)) (f64_of 230)) in
      let legend_y := f64_add y (f64_mul (f64_of (index / 3)) (f64_of 20)) in
      _ ← rect (legend_x, f64_sub legend_y (f64_of 6))
        (f64_add legend_x (f64_of 12), f64_add legend_y (f64_of 6)) (color series);
      text (if String.prefix "fanring" (mpsc_key series)
            then label series +:+ " (4 x " +:+ show_Z (nominal_capacity / 4) +:+ ")"
            else label series)
        (px (f64_add legend_x (f64_of 18)), px legend_y) (Font_regular 10 TEXT HLeft)).

Definition draw_summary_chart (fuel : nat) (mpsc_rows mpmc_rows : list Row) (output : string)
    : io () :=
  nominal_capacity ← of_result (summary_capacity mpsc_rows mpmc_rows);
  r ← io_of_outcome (summary_groups mpsc_rows mpmc_rows);
  '(groups, coordinated) ← of_result r;
  let width := 850 in
  let height := 430 in
  let max_value :=
    foldl f64_max (f64_of 0) (concat ((λ g : Group, g.2.*2) <$> groups)) in
  let plot := {|
    plot_left := f64_of 70; plot_right := f64_of 830; plot_top := f64_of 62;
    plot_bottom := f64_of 318;
    y_max := f64_max (f64_mul max_value (f64_dec 115 2)) (f64_of 1) |} in
  _ ← root output width height;
  let title :=
    "u64 channel throughput with capacity=" +:+ show_Z nominal_capacity
    +:+ " (higher is better)" in
  subtitle ← match mpsc_rows with
    | [] => mret None
    | row :: _ =>
        hardware ← chart_hardware (row_cpu row);
        mret (Some (hardware +:+ ", " +:+ affinity_label row +:+ ", "
          +:+ throughput_profile_label row))
    end;
  _ ← chart_header width title subtitle 22;
  _ ← vtext "million items/s"
    (22, px (f64_div (f64_add (plot_top plot) (plot_bottom plot)) (f64_of 2))) 11 TEXT;
  _ ← draw_y_grid fuel plot;
  _ ← draw_groups plot groups;
  _ ← draw_legend (f64_of 65) (f64_add (plot_bottom plot) (f64_of 52)) nominal_capacity coordinated;
  _ ← draw_element EPresent;
  finish_svg output width height.
End summary.
