(* ===== verification/ChartLatency.v ===== *)
(** * The wake-latency chart

    [src/src/bin/chart/latency.rs]: rows of wake latencies, the choice of one
    complete run per implementation, and what is drawn. *)
From Stdlib Require Import Ascii String.
From S2P Require Import Prelude ChartStd F64 ChartRow ChartPlot ChartHardware ChartRender.

Record Series := mk_series { key : string; label : string; color : RGBColor }.

Definition MPSC_SERIES : list Series := [
  mk_series "fanring" "fanring" (RGB 248 113 113);
  mk_series "fanring-spin" "fanring spin" (RGB 201 75 75);
  mk_series "crossbeam-channel" "crossbeam-channel 0.5.17" (RGB 96 165 250);
  mk_series "crossfire" "crossfire 3.1.20" (RGB 34 211 238);
  mk_series "thingbuf" "thingbuf 0.1.6" (RGB 167 139 250);
  mk_series "flume" "flume 0.12.0" (RGB 244 114 182);
  mk_series "kanal" "kanal 0.1.1*" (RGB 245 158 11)
].

Definition MPMC_SERIES : list Series := [
  mk_series "fanring-mpmc" "fanring" (RGB 248 113 113);
  mk_series "fanring-spin-mpmc" "fanring spin" (RGB 201 75 75);
  mk_series "crossbeam-channel" "crossbeam-channel 0.5.17" (RGB 96 165 250);
  mk_series "crossfire-mpmc" "crossfire 3.1.20" (RGB 34 211 238);
  mk_series "flume" "flume 0.12.0" (RGB 244 114 182);
  mk_series "kanal" "kanal 0.1.1*" (RGB 245 158 11)
].

Definition OPERATIONS : list (string * string) := [
  ("recv_wake", "blocked receiver"); ("send_wake", "blocked sender")].

Record LatencyRow := mk_latency_row {
  run_id : string;
  cpu : string;
  affinity : string;
  implementation : string;
  operation : string;
  spin_ns : option Z;
  capacity : Z;
  rounds : Z;
  settle_mode : string;
  settle_ns : Z;
  p50_ns : Z;
  p99_ns : Z;
}.

(** What the deserializer finds in a line; [affinity], [spin_ns] and [capacity]
    may be missing. *)
Record LatencyFields := mk_latency_fields {
  lf_run_id : string;
  lf_cpu : string;
  lf_affinity : option string;
  lf_implementation : string;
  lf_operation : string;
  lf_spin_ns : option Z;
  lf_capacity : option Z;
  lf_rounds : Z;
  lf_settle_mode : string;
  lf_settle_ns : Z;
  lf_p50_ns : Z;
  lf_p99_ns : Z;
}.

Definition one : Z := 1.

Definition latency_row_of_fields (f : LatencyFields) : LatencyRow := {|
  run_id := lf_run_id f; cpu := lf_cpu f; affinity := default EmptyString (lf_affinity f);
  implementation := lf_implementation f; operation := lf_operation f; spin_ns := lf_spin_ns f;
  capacity := default one (lf_capacity f); rounds := lf_rounds f;
  settle_mode := lf_settle_mode f; settle_ns := lf_settle_ns f;
  p50_ns := lf_p50_ns f; p99_ns := lf_p99_ns f |}.

Record LatencyShape := mk_latency_shape {
  ls_cpu : string;
  ls_affinity : string;
  ls_capacity : Z;
  ls_rounds : Z;
  ls_settle_mode : string;
  ls_settle_ns : Z;
}.

#[export] Instance latency_shape_eq_dec : EqDecision LatencyShape.
Proof. solve_decision. Defined.

Record ImplementationRun := mk_implementation_run {
  ir_implementation : string; ir_shape : LatencyShape; ir_rows : list LatencyRow }.

(** ** Selection *)

Definition latency_shape (row : LatencyRow) : LatencyShape := {|
  ls_cpu := cpu row; ls_affinity := affinity row; ls_capacity := capacity row;
  ls_rounds := rounds row; ls_settle_mode := settle_mode row; ls_settle_ns := settle_ns row |}.

Definition complete_implementation (rows : list LatencyRow) : option LatencyShape :=
  match rows with
  | [] => None
  | first :: _ =>
      if negb (length rows =? length OPERATIONS)%nat
         || existsb (λ row, negb (bool_decide (latency_shape row = latency_shape first))) rows
         || negb (forallb (λ op : string * string,
                    existsb (λ row, String.eqb (operation row) op.1) rows) OPERATIONS)
      then None
      else Some (latency_shape first)
  end.

Definition sorted_run_ids (rows : list LatencyRow) : list string :=
  sort_by run_le (distinct_ids [] (run_id <$> rows)).

(** The rows of one implementation in one run. *)
Definition candidate_rows (rows : list LatencyRow) (id : string) (candidate : Series)
    : list LatencyRow :=
  List.filter (λ row, String.eqb (run_id row) id && String.eqb (implementation row) (key candidate))
    rows.

(** The complete runs of the implementations, oldest first. *)
Definition implementation_runs (rows : list LatencyRow) (series : list Series)
    : list ImplementationRun :=
  concat ((λ id,
    omap (λ candidate,
      let selected := candidate_rows rows id candidate in
      shape ← complete_implementation selected;
      Some (mk_implementation_run (key candidate) shape selected)) series)
    <$> sorted_run_ids rows).

(** The newest run of an implementation with the given shape. *)
Definition latest_run (runs : list ImplementationRun) (reference : LatencyShape)
    (candidate : Series) : option ImplementationRun :=
  List.find (λ run, String.eqb (ir_implementation run) (key candidate)
                    && bool_decide (ir_shape run = reference)) (rev runs).

(** The inner loop: empty as soon as one implementation has no such run. *)
Fixpoint combine_reference (runs : list ImplementationRun) (reference : LatencyShape)
    (combined : list LatencyRow) (series : list Series) : list LatencyRow :=
  match series with
  | [] => combined
  | candidate :: series' =>
      match latest_run runs reference candidate with
      | None => []
      | Some run => combine_reference runs reference (combined ++ ir_rows run) series'
      end
  end.

Fixpoint first_combined (runs : list ImplementationRun) (series : list Series)
    (references : list LatencyShape) : option (list LatencyRow) :=
  match references with
  | [] => None
  | reference :: references' =>
      match combine_reference runs reference [] series with
      | [] => first_combined runs series references'
      | combined => Some combined
      end
  end.

Definition combine_latest_runs (rows : list LatencyRow) (series : list Series)
    : option (list LatencyRow) :=
  let runs := implementation_runs rows series in
  first_combined runs series (ir_shape <$> rev runs).

(** [series.iter().any(|candidate| candidate.key == row.implementation)]. *)
Definition known (series : list Series) (row : LatencyRow) : bool :=
  existsb (λ candidate, String.eqb (key candidate) (implementation row)) series.

Definition acceptable (first row : LatencyRow) : bool :=
  String.eqb (cpu row) (cpu first)
  && String.eqb (affinity row) (affinity first)
  && (rounds row =? rounds first)
  && (capacity row =? capacity first)
  && String.eqb (settle_mode row) (settle_mode first)
  && (settle_ns row =? settle_ns first)
  && existsb (λ op : string * string, String.eqb op.1 (operation row)) OPERATIONS.

(** The loop that fills [selected]; a row out of line or a second row for a
    cell ends it. *)
Fixpoint collect_complete (series : list Series) (first : LatencyRow)
    (selected : list ((string * string) * LatencyRow)) (rows : list LatencyRow)
    : option (list ((string * string) * LatencyRow)) :=
  match rows with
  | [] => Some selected
  | row :: rows' =>
      if negb (known series row) then collect_complete series first selected rows'
      else if negb (acceptable first row) then None
      else
        let k := (implementation row, operation row) in
        match bt_get k selected with
        | Some _ => None
        | None => collect_complete series first (bt_insert k row selected) rows'
        end
  end.

Definition complete_rows (rows : list LatencyRow) (series : list Series)
    : option (list LatencyRow) :=
  first ← List.find (known series) rows;
  selected ← collect_complete series first [] rows;
  let complete := forallb (λ candidate,
    forallb (λ op : string * string,
      match bt_get (key candidate, op.1) selected with Some _ => true | None => false end)
      OPERATIONS) series in
  if complete then Some selected.*2 else None.

Definition select_run (rows : list LatencyRow) (series : list Series)
    (requested_run : option string) : ChartResult (list LatencyRow) :=
  match requested_run with
  | Some id =>
      let selected := List.filter (λ row, String.eqb (run_id row) id) rows in
      match selected with
      | [] => Err (RunNotFound id)
      | _ =>
          match complete_rows selected series with
          | Some rows => Ok rows
          | None => Err (RunIncomplete id)
          end
      end
  | None =>
      match combine_latest_runs rows series with
      | Some rows => Ok rows
      | None => Err NoCompleteRun
      end
  end.

(** ** Drawing *)

(** The micro sign and the Greek mu, in UTF-8. *)
Definition micro : string := String (ascii_of_nat 194) (String (ascii_of_nat 181) EmptyString).
Definition mu : string := String (ascii_of_nat 206) (String (ascii_of_nat 188) EmptyString).

Definition format_duration (ns : f64) : string :=
  if f64_leb (f64_of 1000000) ns then fmt_fixed 0 (f64_div ns (f64_of 1000000)) +:+ " ms"
  else if f64_leb (f64_of 1000) ns then
    fmt_fixed 0 (f64_div ns (f64_of 1000)) +:+ " " +:+ micro +:+ "s"
  else fmt_fixed 0 ns +:+ " ns".

(** The legend text of a series: with the spin time where its row has one. *)
Definition legend_label (rows : list LatencyRow) (candidate : Series) : string :=
  match
    row ← List.find (λ row, String.eqb (implementation row) (key candidate)
                            && String.prefix "fanring-spin" (implementation row)) rows;
    spin_ns row
  with
  | None => label candidate
  | Some ns =>
      let duration := replace " " "" (replace micro mu (format_duration (f64_of ns))) in
      label candidate +:+ " (" +:+ duration +:+ ")"
  end.

Section latency.
Context `{Host}.

Definition draw_header (first : LatencyRow) (topology : string) (middle : Z) : io () :=
  _ ← text (to_uppercase topology +:+ " blocking wake latency (lower is better)")
    (middle, 20) (Font_bold 15 TEXT HCenter);
  hardware ← chart_hardware (cpu first);
  text (hardware +:+ "; capacity " +:+ show_Z (capacity first) +:+ "; " +:+ show_Z (rounds first)
    +:+ " rounds; " +:+ format_duration (f64_of (settle_ns first)) +:+ " " +:+ settle_mode first
    +:+ " settle") (middle, 40) (Font_regular 10 MUTED HCenter).

Definition translucent_rect (p1 p2 : f64 * f64) (color : RGBColor) : io () :=
  let corners := ((px p1.1, px p1.2), (px p2.1, px p2.2)) in
  _ ← draw_element (ERectangle corners (mk_shape_style color (f64_dec 3 1) Filled));
  draw_element (ERectangle corners (mk_shape_style color (f64_dec 7 1) (Stroke 1))).

Definition draw_bar (plot : Plot) (bar : Bar) (row : LatencyRow) : io () :=
  let p99_y := Plot_y plot (f64_of (p99_ns row)) in
  let right := f64_add (bar_x bar) (bar_width bar) in
  _ ← translucent_rect (bar_x bar, p99_y) (right, plot_bottom plot) (bar_color bar);
  let p50_y := Plot_y plot (f64_of (p50_ns row)) in
  rect (bar_x bar, p50_y) (right, plot_bottom plot) (bar_color bar).

Definition draw_bars (plot : Plot) (series : list Series) (rows : list LatencyRow) : io () :=
  let values := bt_collect ((λ row, ((implementation row, operation row), row)) <$> rows) in
  let n := f64_of (Z.of_nat (length series)) in
  let gaps := f64_of (saturating_sub (Z.of_nat (length series)) 1) in
  let group_width :=
    f64_div (f64_sub (plot_right plot) (plot_left plot)) (f64_of (Z.of_nat (length OPERATIONS))) in
  let bar_gap := f64_of 8 in
  let minimum_group_gap := f64_of 36 in
  let preferred_bar_width := f64_of 44 in
  let available_bar_width :=
    f64_div (f64_sub (f64_sub group_width minimum_group_gap) (f64_mul gaps bar_gap)) n in
  let bar_width := f64_min preferred_bar_width available_bar_width in
  let cluster_width := f64_add (f64_mul n bar_width) (f64_mul gaps bar_gap) in
  io_for (enumerate OPERATIONS) (λ '(operation_index, (operation, op_label)),
    let cluster_x :=
      f64_add (f64_add (plot_left plot) (f64_mul (f64_of operation_index) group_width))
        (f64_div (f64_sub group_width cluster_width) (f64_of 2)) in
    _ ← io_for (enumerate series) (λ '(series_index, candidate),
      match bt_get (key candidate, operation) values with
      | None => raise NoRenderableRows
      | Some row =>
          draw_bar plot (mk_bar
            (f64_add cluster_x (f64_mul (f64_of series_index) (f64_add bar_width bar_gap)))
            bar_width (color candidate)) row
      end);
    text op_label (px (f64_add cluster_x (f64_div cluster_width (f64_of 2))),
                   px (f64_add (plot_bottom plot) (f64_of 22))) (Font_bold 12 TEXT HCenter)).

Definition draw_footnotes (middle : Z) : io () :=
  io_for [("Solid bars reach p50; translucent extensions reach p99.", 400);
          ("* Kanal performs up to 256 sched_yield calls before parking", 420)]
    (λ '(footnote, y), text footnote (middle, y) (Font_regular 9 MUTED HCenter)).

Definition nice_step (max_value : f64) (target_lines : Z) : f64 :=
  let raw := f64_div max_value (f64_of target_lines) in
  let magnitude := host_powf (f64_of 10) (f64_floor (host_log10 (f64_max raw (f64_dec 1 9)))) in
  first_step max_value (f64_add (f64_of target_lines) (f64_of 1))
    ((λ m, f64_mul m magnitude) <$> [f64_of 1; f64_of 2; f64_of 5; f64_of 10])
    (f64_mul magnitude (f64_of 10)).

(** The [while value <= plot.y_max] loop; [fuel] bounds the iterations. *)
Fixpoint grid_lines (fuel : nat) (plot : Plot) (step value : f64) : io () :=
  match fuel with
  | O => crash (Panic "out of fuel")
  | S fuel' =>
      if f64_leb value (y_max plot) then
        let y := Plot_y plot value in
        _ ← line (plot_left plot, y) (plot_right plot, y) GRID 1;
        _ ← text (format_duration value) (px (f64_sub (plot_left plot) (f64_of 8)), px y)
          (Font_regular 10 MUTED HRight);
        grid_lines fuel' plot step (f64_add value step)
      else mret ()
  end.

Definition draw_y_grid (fuel : nat) (plot : Plot) : io () :=
  let step := nice_step (y_max plot) 5 in
  _ ← grid_lines fuel plot step step;
  line (plot_left plot, plot_bottom plot) (plot_right plot, plot_bottom plot) AXIS 2.

Definition draw_legend (series : list Series) (rows : list LatencyRow) (x y : f64) : io () :=
  io_for (enumerate series) (λ '(index, candidate),
    let legend_x := f64_add x (f64_mul (f64_of (index mod 4)) (f64_of 240)) in
    let legend_y := f64_add y (f64_mul (f64_of (index / 4)) (f64_of 20)) in
    _ ← rect (legend_x, f64_sub legend_y (f64_of 6))
      (f64_add legend_x (f64_of 12), f64_add legend_y (f64_of 6)) (color candidate);
    text (legend_label rows candidate)
      (px (f64_add legend_x (f64_of 18)), px legend_y) (Font_regular 10 TEXT HLeft)).

Definition draw (fuel : nat) (rows : list LatencyRow) (series : list Series) (topology output : string)
    : io () :=
  let width := 1024 in
  let height := 445 in
  _ ← open_area output width height;
  _ ← draw_element (EFill BG);
  match rows with
  | [] => raise NoRenderableRows
  | first :: _ =>
      middle ← io_of_outcome (u32_to_i32 (width / 2));
      _ ← draw_header first topology middle;
      let max_value := foldl f64_max (f64_of 0) ((λ row, f64_of (p99_ns row)) <$> rows) in
      let plot := {|
        plot_left := f64_of 70; plot_right := f64_of 1000; plot_top := f64_of 62;
        plot_bottom := f64_of 296;
        y_max := f64_max (f64_mul max_value (f64_dec 115 2)) (f64_of 1) |} in
      _ ← draw_y_grid fuel plot;
      _ ← draw_bars plot series rows;
      _ ← draw_legend series rows (f64_of 40) (f64_of 350);
      _ ← draw_footnotes middle;
      _ ← draw_element EPresent;
      finish_svg output width height
  end.

(** [read_rows]; [parse] is [serde_json::from_str] at [LatencyRow]. *)
Context (parse : string → result LatencyFields string).

Fixpoint read_lines (path : string) (index : Z) (rows : list LatencyRow)
    (ls : list (result string io_error)) : io (list LatencyRow) :=
  match ls with
  | [] => mret rows
  | Err source :: _ => raise (EIo path source)
  | Ok line :: ls' =>
      if String.eqb (trim line) "" then read_lines path (index + 1) rows ls'
      else
        match parse line with
        | Ok f => read_lines path (index + 1) (rows ++ [latency_row_of_fields f]) ls'
        | Err error =>
            _ ← emit (Stderr ("warning: ignored incomplete wake-latency row at " +:+ path +:+ ":"
              +:+ show_Z (index + 1) +:+ ": " +:+ error));
            read_lines path (index + 1) rows ls'
        end
  end.

Definition read_rows (path : string) : io (list LatencyRow) :=
  match host_lines path with
  | Err source => raise (EIo path source)
  | Ok ls => read_lines path 0 [] ls
  end.

Fixpoint read_all (inputs : list string) : io (list LatencyRow) :=
  match inputs with
  | [] => mret []
  | input :: inputs' =>
      rows ← read_rows input;
      rest ← read_all inputs';
      mret (rows ++ rest)
  end.

Definition draw_latency_chart (fuel : nat) (inputs : list string) (source output topology : string)
    (requested_run : option string) : io () :=
  series ← (if String.eqb topology "mpsc" then mret MPSC_SERIES
            else if String.eqb topology "mpmc" then mret MPMC_SERIES
            else raise (InvalidTopology topology));
  rows ← read_all inputs;
  match rows with
  | [] => raise (NoRows source)
  | _ =>
      rows ← of_result (select_run rows series requested_run);
      draw fuel rows series topology output
  end.
End latency.
