(* ===== verification/Chart.v ===== *)
(** * The chart binary

    The rest of [src/src/bin/chart.rs] and the arguments of
    [chart/support.rs]: where the results are, how the result files are read,
    and the three commands.  [main] maps the outcome to an exit status. *)
From Stdlib Require Import Ascii String.
From S2P Require Import Prelude ChartStd F64 ChartRow ChartPlot ChartHardware ChartRender ChartSummary ChartLatency.

(** ** Arguments *)

(** [arg_value]: the argument after the first one that is [name]. *)
Fixpoint arg_value_in (args : list string) (name : string) : option string :=
  match args with
  | [] => None
  | arg :: args' => if String.eqb arg name then head args' else arg_value_in args' name
  end.

Definition result_file_name (metric topology : string) : ChartResult string :=
  if String.eqb topology "mpsc" || String.eqb topology "mpmc"
  then Ok (metric +:+ "-" +:+ topology +:+ ".jsonl")
  else Err (InvalidTopology topology).

Section chart.
Context `{Host}.

Definition arg_value (name : string) : option string := arg_value_in host_args name.
Definition has_arg (name : string) : bool := existsb (String.eqb name) host_args.

(** ** Where the results are *)

Definition results_root : ChartResult string :=
  match arg_value "--results-dir" with
  | Some path => Ok path
  | None =>
      match host_var "FANRING_BENCH_CACHE_DIR" with
      | Some path => Ok path
      | None =>
          match host_var "HOME" with
          | Some home => Ok (path_join home ".cache/fanring")
          | None => Err MissingResultsRoot
          end
      end
  end.

(** The loop over the directory entries. *)
Fixpoint entry_inputs (root file_name : string) (entries : list (result string io_error))
    : ChartResult (list string) :=
  match entries with
  | [] => Ok []
  | Err source :: _ => Err (EIo root source)
  | Ok entry :: entries' =>
      match entry_inputs root file_name entries' with
      | Err e => Err e
      | Ok inputs =>
          let path := path_join entry file_name in
          Ok (if host_is_file path then path :: inputs else inputs)
      end
  end.

Definition result_inputs (explicit : option string) (file_name : string)
    : ChartResult (list string * string) :=
  match explicit with
  | Some path => Ok ([path], path)
  | None =>
      match results_root with
      | Err e => Err e
      | Ok root =>
          let source := path_join (path_join root "*") file_name in
          match host_read_dir root with
          | Err error =>
              if io_not_found error then Ok ([], source) else Err (EIo root error)
          | Ok entries =>
              match entry_inputs root file_name entries with
              | Err e => Err e
              | Ok inputs => Ok (sort_by host_path_le inputs, source)
              end
          end
      end
  end.

(** ** Reading *)

(** The text a row starts with. *)
Definition row_prefix : string := "{" +:+ quote "run_id".

(** [from_str] is [serde_json::from_str] at [Row], before its defaults. *)
Context (from_str : string → result RowFields string).

(** The rows that start inside a line that does not parse. *)
Definition recovered (line : string) : option Row :=
  last (omap (λ s, match from_str s with Ok f => Some (row_of_fields f) | Err _ => None end)
         (match_suffixes row_prefix 0 line)).

Fixpoint read_lines (path : string) (line_number : Z) (rows : list Row)
    (ls : list (result string io_error)) : io (list Row) :=
  match ls with
  | [] => mret rows
  | Err source :: _ => raise (EIo path source)
  | Ok line :: ls' =>
      if String.eqb (trim line) "" then read_lines path (line_number + 1) rows ls'
      else
        match from_str line with
        | Ok f => read_lines path (line_number + 1) (rows ++ [row_of_fields f]) ls'
        | Err error =>
            match recovered line with
            | Some row =>
                _ ← emit (Stderr ("warning: recovered appended benchmark row at " +:+ path +:+ ":"
                  +:+ show_Z line_number));
                read_lines path (line_number + 1) (rows ++ [row]) ls'
            | None =>
                _ ← emit (Stderr ("warning: ignored incomplete benchmark row at " +:+ path +:+ ":"
                  +:+ show_Z line_number +:+ ": " +:+ error));
                read_lines path (line_number + 1) rows ls'
            end
        end
  end.

Definition read_rows (path : string) : io (list Row) :=
  match host_lines path with
  | Err source => raise (EIo path source)
  | Ok ls => read_lines path 1 [] ls
  end.

Fixpoint read_rows_from (inputs : list string) : io (list Row) :=
  match inputs with
  | [] => mret []
  | input :: inputs' =>
      rows ← read_rows input;
      rest ← read_rows_from inputs';
      mret (expand_cached_measurements rows ++ rest)
  end.

Definition read_rows_for_run (inputs : list string) (source : string)
    (requested_run default_mode : option string) : io (list Row) :=
  rows ← read_rows_from inputs;
  match rows with
  | [] => raise (NoRows source)
  | _ => of_result (select_run_with_default_mode rows requested_run default_mode)
  end.

(** ** The commands *)

Definition prepare_output (output : string) : io () :=
  match host_parent output with
  | None => mret ()
  | Some parent =>
      l ← history;
      match host_create_dir_all l parent with
      | Some source => raise (EIo parent source)
      | None => emit (CreatedDirs parent)
      end
  end.

Context (latency_from_str : string → result LatencyFields string).
Context (fuel : nat).

Definition run_latency (topology : string) : io () :=
  file_name ← of_result (result_file_name "latency" topology);
  '(inputs, source) ← of_result (result_inputs (arg_value "--input") file_name);
  let output := default ("doc/charts/latency-" +:+ topology +:+ ".svg") (arg_value "--output") in
  _ ← prepare_output output;
  _ ← draw_latency_chart latency_from_str fuel inputs source output topology (arg_value "--run");
  emit (Stdout ("wrote " +:+ output)).

Definition run_detail : io () :=
  let topology := if has_arg "--mpmc" then "mpmc" else "mpsc" in
  file_name ← of_result (result_file_name "throughput" topology);
  '(inputs, source) ← of_result (result_inputs (arg_value "--input") file_name);
  let output := default ("doc/charts/throughput-" +:+ topology +:+ ".svg") (arg_value "--output") in
  let requested_run := arg_value "--run" in
  rows ← read_rows_from inputs;
  match rows with
  | [] => raise (NoRows source)
  | _ =>
      rows ← of_result (select_run_with_default_mode rows requested_run (Some DEFAULT_CHART_MODE));
      _ ← prepare_output output;
      _ ← draw_chart rows output;
      emit (Stdout ("wrote " +:+ output))
  end.

Definition run_summary : io () :=
  mpsc_name ← of_result (result_file_name "throughput" "mpsc");
  '(mpsc_inputs, mpsc_source) ← of_result (result_inputs (arg_value "--mpsc-input") mpsc_name);
  mpmc_name ← of_result (result_file_name "throughput" "mpmc");
  '(mpmc_inputs, mpmc_source) ← of_result (result_inputs (arg_value "--mpmc-input") mpmc_name);
  let output := default "doc/charts/throughput-summary.svg" (arg_value "--output") in
  let mpsc_run := arg_value "--mpsc-run" in
  let mpmc_run := arg_value "--mpmc-run" in
  mpsc_rows ← read_rows_for_run mpsc_inputs mpsc_source mpsc_run (Some DEFAULT_CHART_MODE);
  mpmc_rows ← read_rows_for_run mpmc_inputs mpmc_source mpmc_run (Some DEFAULT_CHART_MODE);
  _ ← prepare_output output;
  _ ← draw_summary_chart fuel mpsc_rows mpmc_rows output;
  emit (Stdout ("wrote " +:+ output)).

(** [run]. *)
Definition run_chart : io () :=
  match arg_value "--latency" with
  | Some topology => run_latency topology
  | None => if has_arg "--summary" then run_summary else run_detail
  end.

(** [main]: the exit status, [None] for a panic, and the events. *)
Definition main : option Z * list event :=
  match run_chart [] with
  | (Ret _, l) => (Some 0, l)
  | (Raise error, l) => (Some 1, l ++ [Stderr ("error: " +:+ ChartError_fmt error)])
  | (Crash _, l) => (None, l)
  end.
End chart.
