(* ===== verification/ChartRowThm.v ===== *)
(** * Theorems on the selection of benchmark rows

    When a run counts as complete, which rows a chart combines, and that
    expanding a cached measurement gives complete runs with the median that was
    cached. *)
From Stdlib Require Import Ascii String Sorted.
From stdpp Require Import sorting.
From S2P Require Import Prelude ChartStd F64 ChartRow ChartPlot ChartRender.

Lemma filter_ext_list {A} (f g : A → bool) (l : list A) :
  (∀ a, a ∈ l → f a = g a) → List.filter f l = List.filter g l.
Proof.
  induction l as [|a l IH]; cbn; intros E; [done|].
  rewrite (E a), IH by set_solver. done.
Qed.

Lemma elem_of_list_filter {A} (f : A → bool) (l : list A) a :
  a ∈ List.filter f l ↔ f a = true ∧ a ∈ l.
Proof. rewrite list_elem_of_In, filter_In, <- list_elem_of_In. tauto. Qed.

(** ** Complete runs *)

Section complete.
Implicit Types (rows : list Row) (r : Row).

(** The set of samples a configuration's rows leave in the map. *)
Lemma sample_fold (g : list Row) e s :
  foldl (λ o r, Some (let '(e, s) := default (row_samples r, []) o in
                      (e, bs_insert (row_sample r) s))) (Some (e, s)) g =
  Some (e, foldl (λ s r, bs_insert (row_sample r) s) s g).
Proof. revert s. induction g as [|r g IH]; intros s; cbn; [done|]. apply IH. Qed.

Definition samples_of (g : list Row) : list (Z * unit) :=
  foldl (λ s r, bs_insert (row_sample r) s) [] g.

Lemma sample_groups_get k rows :
  bt_get k (sample_groups rows) =
  match filed group_key k rows with
  | [] => None
  | f :: g => Some (row_samples f, samples_of (f :: g))
  end.
Proof.
  unfold sample_groups.
  rewrite (bt_loop_get group_key (λ r o,
    let '(e, s) := default (row_samples r, []) o in (e, bs_insert (row_sample r) s))).
  destruct (filed group_key k rows) as [|f g]; cbn; [done|]. apply sample_fold.
Qed.

Lemma sample_groups_sorted rows : bt_sorted (sample_groups rows).
Proof.
  apply (bt_loop_sorted group_key (λ r o,
    let '(e, s) := default (row_samples r, []) o in (e, bs_insert (row_sample r) s))).
Qed.

Lemma samples_of_sorted g : bt_sorted (samples_of g).
Proof. apply (bt_loop_sorted row_sample (λ _ _, ())). Qed.

Lemma elem_of_samples_of g i : i ∈ (samples_of g).*1 ↔ ∃ r, r ∈ g ∧ row_sample r = i.
Proof.
  unfold samples_of, bs_insert, bt_insert.
  rewrite (bt_fold_keys row_sample (λ _ _, ())), list_elem_of_fmap. set_solver.
Qed.

Lemma seqZ_sorted m n : StronglySorted Z.lt (seqZ m n).
Proof.
  destruct (Z_le_gt_dec n 0) as [|P]; [rewrite seqZ_nil by lia; constructor|].
  revert m. assert (0 ≤ n) as N by lia. revert n N P.
  refine (natlike_ind _ _ _); [lia|]. intros n N IH _ m.
  rewrite seqZ_cons by lia. constructor.
  - destruct (decide (n = 0)) as [->|]; [constructor|]. rewrite Z.pred_succ. apply IH. lia.
  - apply Forall_forall. intros i I%elem_of_seqZ. lia.
Qed.

(** A sorted list is [0..n] as soon as it has the same elements. *)
Lemma sorted_range (s : list (Z * unit)) n : bt_sorted s →
  s.*1 = seqZ 0 n ↔ ∀ i, i ∈ s.*1 ↔ 0 ≤ i < n.
Proof.
  intros S. split; [intros -> i; rewrite elem_of_seqZ; lia|]. intros E.
  assert (StronglySorted Z.lt s.*1) as L.
  { clear E. induction s as [|[k []] s IH]; cbn; [constructor|].
    apply StronglySorted_inv in S as [S F]. constructor; [auto|].
    rewrite Forall_fmap. eapply Forall_impl; [exact F|]. intros [? ?]; apply Z.compare_lt_iff. }
  assert (AntiSymm (=) Z.lt) as AS by (intros x y; lia).
  apply (StronglySorted_unique Z.lt); [done| |].
  - apply seqZ_sorted.
  - apply NoDup_Permutation; [by apply bt_sorted_NoDup|apply NoDup_seqZ|].
    intros i. rewrite E, elem_of_seqZ. lia.
Qed.

(** What [run_is_complete] means, without its maps. *)
Definition complete_spec (rows : list Row) : Prop :=
  ∃ first, head rows = Some first ∧
    (row_expected_rows first ≠ 0 →
       Z.of_nat (length rows) = row_expected_rows first ∧
       ∀ r, r ∈ rows → row_expected_rows r = row_expected_rows first) ∧
    ∀ k f, head (filed group_key k rows) = Some f →
      0 < row_samples f ∧
      ∀ i, (∃ r, r ∈ rows ∧ group_key r = k ∧ row_sample r = i) ↔ 0 ≤ i < row_samples f.

Lemma group_complete (rows : list Row) k f g : filed group_key k rows = f :: g →
  (negb (row_samples f =? 0) && (Z.of_nat (length (samples_of (f :: g))) =? row_samples f)
   && bool_decide ((samples_of (f :: g)).*1 = seqZ 0 (row_samples f))) = true ↔
  0 < row_samples f ∧
  ∀ i, (∃ r, r ∈ rows ∧ group_key r = k ∧ row_sample r = i) ↔ 0 ≤ i < row_samples f.
Proof.
  intros E. set (s := samples_of (f :: g)).
  assert (∀ i, (∃ r, r ∈ rows ∧ group_key r = k ∧ row_sample r = i) ↔ i ∈ s.*1) as M.
  { intros i. unfold s. rewrite elem_of_samples_of. setoid_rewrite <- E.
    setoid_rewrite elem_of_filed. naive_solver. }
  rewrite !andb_true_iff, bool_decide_eq_true, sorted_range by apply samples_of_sorted.
  setoid_rewrite M. split.
  - intros [[N L] Q]. split; [|done].
    assert (0 ≤ row_sample f < row_samples f); [|lia].
    apply Q. unfold s. apply elem_of_samples_of. exists f. set_solver.
  - intros [P Q]. split; [|done]. split; [lia|].
    assert (s.*1 = seqZ 0 (row_samples f)) as R by by apply sorted_range; [apply samples_of_sorted|].
    rewrite <- (length_fmap fst s), R, length_seqZ. apply Z.eqb_eq. lia.
Qed.

Lemma run_is_complete_iff rows : run_is_complete rows = true ↔ complete_spec rows.
Proof.
  unfold complete_spec. destruct rows as [|first rows]; [split; [done|by intros (? & ? & _)]|].
  set (l := first :: rows). cbn [run_is_complete head l].
  assert (forallb (λ '(_, (expected, samples)),
      negb (expected =? 0) && (Z.of_nat (length samples) =? expected)
      && bool_decide (samples.*1 = seqZ 0 expected)) (sample_groups l) = true ↔
    ∀ k f, head (filed group_key k l) = Some f → 0 < row_samples f ∧
      ∀ i, (∃ r, r ∈ l ∧ group_key r = k ∧ row_sample r = i) ↔ 0 ≤ i < row_samples f) as G.
  { rewrite forallb_forall. split.
    - intros F k f Hf. destruct (filed group_key k l) as [|f' g] eqn:E; [done|]. injection Hf as ->.
      apply (group_complete _ _ _ _ E). specialize (F (k, (row_samples f, samples_of (f :: g)))).
      apply F, list_elem_of_In, bt_get_elem; [apply sample_groups_sorted|].
      by rewrite sample_groups_get, E.
    - intros F [k [e s]] I%list_elem_of_In%bt_get_elem; [|apply sample_groups_sorted].
      rewrite sample_groups_get in I. destruct (filed group_key k l) as [|f g] eqn:E; [done|].
      injection I as <- <-. apply (group_complete _ _ _ _ E). apply F. by rewrite E. }
  fold l. case_match eqn:E.
  - split; [done|]. intros (? & [= <-] & H1 & _). exfalso.
    apply andb_true_iff in E as [N E]. destruct (H1 ltac:(lia)) as [H2 H3].
    apply orb_true_iff in E as [E|E]; [lia|]. apply existsb_exists in E as (r & I & E).
    apply list_elem_of_In in I. apply H3 in I. lia.
  - rewrite G. split; [|by intros (? & [= <-] & _ & F)]. intros F. exists first. split_and!; [done| |done].
    intros N. rewrite (proj2 (Z.eqb_neq _ _) N) in E. cbn [negb andb] in E.
    apply orb_false_iff in E as [E1 E2]. split; [by apply Z.eqb_eq, negb_false_iff|]. intros r I.
    destruct (Z.eq_dec (row_expected_rows r) (row_expected_rows first)) as [|N']; [done|].
    exfalso. apply not_true_iff_false in E2. apply E2, existsb_exists. exists r.
    split; [by apply list_elem_of_In|lia].
Qed.

(** C29: A run counts as complete exactly when it has rows, the number of rows
    its first row announces (when it announces one, and then all rows announce
    it), and for every configuration of implementation, payload, producers and
    consumers the samples are the numbers from zero to the count that the
    configuration's first row announces, which is not zero. *)
Theorem run_is_complete_spec rows : run_is_complete rows = true ↔ complete_spec rows.
Proof. apply run_is_complete_iff. Qed.
End complete.

(** ** Cached measurements *)

Section expand.
Implicit Types (rows : list Row) (r row : Row).

Lemma elem_of_expand rows r :
  r ∈ expand_cached_measurements rows ↔ ∃ row, row ∈ rows ∧ r ∈ expand_row row.
Proof.
  unfold expand_cached_measurements. rewrite list_elem_of_In, in_concat. split.
  - intros (l & (row & -> & I)%list_elem_of_In%list_elem_of_fmap & J). exists row.
    split; [done|by apply list_elem_of_In].
  - intros (row & I & J). exists (expand_row row).
    split; apply list_elem_of_In; [|done]. apply list_elem_of_fmap. by exists row.
Qed.

Lemma elem_of_expand_row row mad r : row_relative_mad row = Some mad →
  r ∈ expand_row row ↔
  ∃ i, 0 ≤ i < Z.max (row_samples row) 1 ∧
       r = sample_row row (Z.max (row_samples row) 1) (mad_delta row mad) i.
Proof.
  intros E. unfold expand_row. rewrite E, list_elem_of_fmap. setoid_rewrite elem_of_seqZ.
  split; intros (i & ? & ?); exists i; split; (done || lia).
Qed.

Lemma length_expand rows n : 0 ≤ n →
  (∀ row, row ∈ rows → length (expand_row row) = Z.to_nat n) →
  Z.of_nat (length (expand_cached_measurements rows)) = Z.of_nat (length rows) * n.
Proof.
  intros N. unfold expand_cached_measurements. induction rows as [|row rows IH]; intros F; [done|].
  cbn [fmap list_fmap concat]. rewrite length_app, (F row), Nat2Z.inj_add, IH by set_solver.
  cbn [length]. lia.
Qed.

(** The cached rows of a run of [n] samples each: one row per configuration,
    and every row announces their number. *)
Definition cached_run (n : Z) (rows : list Row) : Prop :=
  rows ≠ [] ∧ 1 ≤ n ∧ NoDup (group_key <$> rows) ∧
  Z.of_nat (length rows) * n ≤ usize_max ∧
  ∀ row, row ∈ rows →
    is_Some (row_relative_mad row) ∧ row_samples row = n ∧
    row_expected_rows row = Z.of_nat (length rows).

Lemma head_elem {A} (l : list A) a : head l = Some a → a ∈ l.
Proof. destruct l; cbn; [done|]. intros [= ->]. set_solver. Qed.

Lemma elem_of_cached n rows r : cached_run n rows → r ∈ expand_cached_measurements rows ↔
  ∃ row mad i, row ∈ rows ∧ row_relative_mad row = Some mad ∧ 0 ≤ i < n ∧
    r = sample_row row n (mad_delta row mad) i.
Proof.
  intros (_ & N & _ & _ & C). rewrite elem_of_expand. split.
  - intros (row & I & J). destruct (C row I) as ([mad M] & S & _).
    destruct (proj1 (elem_of_expand_row _ _ _ M) J) as (i & Hi & ->).
    rewrite S, Z.max_l in Hi by lia. rewrite S, Z.max_l by lia. eauto 10.
  - intros (row & mad & i & I & M & Hi & ->). exists row. split; [done|].
    destruct (C row I) as (_ & S & _). apply (elem_of_expand_row _ _ _ M). exists i.
    by rewrite S, Z.max_l by lia.
Qed.

Lemma expand_announces n rows r : cached_run n rows → r ∈ expand_cached_measurements rows →
  row_samples r = n ∧
  row_expected_rows r = Z.of_nat (length (expand_cached_measurements rows)).
Proof.
  intros CR I. pose proof CR as (_ & N & _ & B & C).
  apply (elem_of_cached _ _ _ CR) in I as (row & mad & i & I & M & Hi & ->).
  destruct (C row I) as (_ & S & E). cbn. split; [done|].
  rewrite (length_expand rows n); [|lia|].
  - rewrite E. unfold saturating_mul. lia.
  - intros row' I'. destruct (C row' I') as ([mad' M'] & S' & _).
    unfold expand_row. rewrite M', length_fmap, length_seqZ, S'. f_equal. lia.
Qed.

(** C30: A run that was cached as one median per configuration is complete again
    after the expansion: it has as many rows as they announce and every
    configuration has all its samples. *)
Theorem expand_complete n rows :
  cached_run n rows → run_is_complete (expand_cached_measurements rows) = true.
Proof.
  intros CR. pose proof CR as (NE & N & ND & B & C). apply run_is_complete_iff.
  assert (∃ first, head (expand_cached_measurements rows) = Some first) as [first F].
  { destruct (expand_cached_measurements rows) eqn:E; [|by eexists]. exfalso.
    destruct rows as [|row rows]; [done|]. destruct (C row ltac:(set_solver)) as ([mad M] & S & _).
    assert (sample_row row n (mad_delta row mad) 0 ∈ expand_cached_measurements (row :: rows)) as I.
    { apply (elem_of_cached n); [done|]. exists row, mad, 0. set_solver by lia. }
    rewrite E in I. set_solver. }
  exists first. split; [done|]. split.
  - intros _. destruct (expand_announces n rows first CR (head_elem _ _ F)) as [_ ->].
    split; [done|]. intros r I. by apply (expand_announces n).
  - intros k f Hf%head_elem%elem_of_filed. destruct Hf as [If <-].
    pose proof (expand_announces n rows f CR If) as [-> _]. split; [lia|]. intros i. split.
    + intros (r & I & _ & <-).
      by apply (elem_of_cached n) in I as (row & mad & j & _ & _ & Hj & ->).
    + intros Hi. apply (elem_of_cached n) in If as (row & mad & j & I & M & Hj & ->); [|done].
      exists (sample_row row n (mad_delta row mad) i). split; [|done].
      apply (elem_of_cached n); [done|]. eauto 10.
Qed.

(** ** The median survives *)

Lemma sorted_insert_by {A} (le : A → A → bool) a l :
  Forall (λ b, le a b = true) l → insert_by le a l = a :: l.
Proof. destruct l as [|b l]; cbn; [done|]. by intros [-> _]%Forall_cons. Qed.

Lemma sort_by_id {A} (le : A → A → bool) l :
  StronglySorted (λ a b, le a b = true) l → sort_by le l = l.
Proof.
  unfold sort_by. induction l as [|a l IH]; cbn; intros S; [done|].
  apply StronglySorted_inv in S as [S F]. rewrite IH by done. by apply sorted_insert_by.
Qed.

Lemma StronglySorted_app_intro {A} (R : A → A → Prop) l1 l2 :
  StronglySorted R l1 → StronglySorted R l2 → (∀ a b, a ∈ l1 → b ∈ l2 → R a b) →
  StronglySorted R (l1 ++ l2).
Proof.
  induction l1 as [|a l1 IH]; cbn; intros S1 S2 C; [done|]. apply StronglySorted_inv in S1 as [S1 F].
  constructor; [apply IH; set_solver|]. apply Forall_app. split; [done|].
  apply Forall_forall. intros b I. apply C; set_solver.
Qed.

Lemma sorted_replicate {A} (R : A → A → Prop) n a :
  R a a → StronglySorted R (replicate n a).
Proof. intros H. induction n; cbn; constructor; [done|]. by apply Forall_replicate. Qed.

Lemma fmap_const_seqZ {A} (f : Z → A) a m n :
  (∀ i, m ≤ i < m + n → f i = a) → f <$> seqZ m n = replicate (Z.to_nat n) a.
Proof.
  intros F. transitivity ((λ _, a) <$> seqZ m n).
  - apply list_fmap_ext. intros j i I%list_elem_of_lookup_2%elem_of_seqZ. apply F. lia.
  - erewrite const_fmap by done. by rewrite length_seqZ.
Qed.
(** The throughputs of the expansion of an odd number of samples. *)
Lemma expand_odd row mad k : row_relative_mad row = Some mad → 0 ≤ k →
  row_samples row = 2 * k + 1 →
  let x := row_items_per_sec row in
  let d := mad_delta row mad in
  row_items_per_sec <$> expand_row row =
  replicate (Z.to_nat k) (f64_sub x d) ++ x :: replicate (Z.to_nat k) (f64_add x d).
Proof.
  intros M K S x d. unfold expand_row. rewrite M, S, Z.max_l, <- list_fmap_compose by lia.
  replace (2 * k + 1) with (k + (k + 1)) at 2 by lia. rewrite seqZ_app, fmap_app by lia.
  replace (k + 1) with (Z.succ k) at 1 by lia. rewrite (seqZ_cons (0 + k)) by lia.
  assert ((2 * k + 1) mod 2 = 1) as O by (rewrite Z.add_comm, Z.mul_comm; apply Z.mod_add; lia).
  assert ((2 * k + 1) / 2 = k) as H by (rewrite Z.add_comm, Z.mul_comm, Z.div_add by lia; done).
  f_equal; [|cbn [fmap list_fmap]; f_equal].
  - apply fmap_const_seqZ. intros i Hi. cbn. rewrite O, H. cbn.
    by rewrite (proj2 (Z.compare_lt_iff _ _)) by lia.
  - cbn. rewrite O, H. cbn. by rewrite Z.compare_refl.
  - rewrite Z.pred_succ. apply fmap_const_seqZ. intros i Hi. cbn. rewrite O, H. cbn.
    by rewrite (proj2 (Z.compare_gt_iff _ _)) by lia.
Qed.

Lemma median_odd (l1 l2 : list f64) x : length l1 = length l2 →
  median_sorted (l1 ++ x :: l2) = Done x.
Proof.
  intros L. unfold median_sorted, index_f64. rewrite length_app. cbn [length].
  replace (Z.of_nat (length l1 + S (length l2))) with (1 + Z.of_nat (length l1) * 2) by lia.
  rewrite Z.mod_add, Z.div_add by lia. change (1 mod 2 =? 0) with false. change (1 / 2) with 0.
  rewrite Z.add_0_l. destruct (Z.ltb_spec (Z.of_nat (length l1)) 0); [lia|]. rewrite Nat2Z.id.
  by rewrite list_lookup_middle.
Qed.

Lemma median_total (l : list f64) : l ≠ [] → ∃ m, median_sorted l = Done m.
Proof.
  intros N. assert (0 < Z.of_nat (length l)) as P by (destruct l; [done|cbn; lia]).
  assert (∀ i, 0 ≤ i < Z.of_nat (length l) → ∃ v, index_f64 l i = Done v) as IX.
  { intros i Hi. unfold index_f64. destruct (Z.ltb_spec i 0); [lia|].
    destruct (lookup_lt_is_Some_2 l (Z.to_nat i)) as [v ->]; [lia|]. by eexists. }
  unfold median_sorted. pose proof (Z.div_mod (Z.of_nat (length l)) 2 ltac:(lia)) as D.
  pose proof (Z.mod_pos_bound (Z.of_nat (length l)) 2 ltac:(lia)).
  case_match eqn:E; [apply Z.eqb_eq in E|apply Z.eqb_neq in E].
  - destruct (IX (Z.of_nat (length l) / 2 - 1)) as [a ->]; [lia|].
    destruct (IX (Z.of_nat (length l) / 2)) as [b ->]; [lia|]. by eexists.
  - apply IX. lia.
Qed.

Lemma measurement_median (values : list f64) x :
  median_sorted (sort_total values) = Done x →
  ∃ m, measurement values = Done m ∧ m_median m = x.
Proof.
  intros E. unfold measurement. rewrite E. cbn.
  destruct (median_total (sort_total
    ((λ value, f64_abs (f64_sub value x)) <$> sort_total values))) as [mad ->].
  - intros N. unfold sort_total in N. pose proof (sort_by_perm total_le
      ((λ value, f64_abs (f64_sub value x)) <$> sort_by total_le values)) as P.
    rewrite N in P. apply Permutation_nil_l, eq_sym, fmap_nil_inv in P. unfold sort_total in E.
    by rewrite P in E.
  - by eexists.
Qed.

(** C31: The median of an odd number of samples survives the cache: measuring the
    samples that a cached row expands to gives the cached throughput, whenever
    the deviation keeps the samples below and above it in the order of
    [total_cmp]. *)
Theorem expand_measurement_roundtrip row mad :
  row_relative_mad row = Some mad →
  1 ≤ row_samples row → Z.odd (row_samples row) = true →
  let x := row_items_per_sec row in
  total_le (f64_sub x (mad_delta row mad)) x = true →
  total_le x (f64_add x (mad_delta row mad)) = true →
  ∃ m, measurement (row_items_per_sec <$> expand_row row) = Done m ∧ m_median m = x.
Proof.
  intros M P O x L U. apply Z.odd_spec in O as [k O].
  apply measurement_median. rewrite (expand_odd row mad k M) by lia.
  unfold sort_total. rewrite sort_by_id; [by apply median_odd; rewrite !length_replicate|].
  assert (∀ a, total_le a a = true) as R by (intros a; unfold total_le; lia).
  apply StronglySorted_app_intro.
  - by apply sorted_replicate.
  - constructor; [by apply sorted_replicate|]. by apply Forall_replicate.
  - intros a b [-> _]%elem_of_replicate [->|[-> _]%elem_of_replicate]%elem_of_cons; [done|].
    by eapply total_le_trans.
Qed.
End expand.

(** ** The combination of the latest runs *)

Section combine.
Implicit Types (rows run group : list Row) (r row : Row) (s reference : BenchmarkShape).

Lemma filed_implementation i rows : filed row_implementation i rows = of_implementation i rows.
Proof.
  unfold filed, of_implementation. apply filter_ext_list. intros r _.
  destruct (String.eqb_spec (row_implementation r) i) as [<-|N].
  - by rewrite cmp_refl.
  - apply not_eq_sym, cmp_ne in N. by destruct (cmp i (row_implementation r)).
Qed.

(** The groups of a run are the rows of each implementation that has some. *)
Lemma elem_of_groups rows group :
  group ∈ implementation_groups rows ↔
  ∃ i, group = of_implementation i rows ∧ group ≠ [].
Proof.
  unfold implementation_groups. rewrite list_elem_of_fmap.
  assert (bt_sorted (implementation_map rows)) as S
    by apply (bt_loop_sorted row_implementation (λ row o, default [] o ++ [row])).
  split.
  - intros ([i g] & -> & I). apply bt_get_elem in I; [|done]. exists i.
    unfold implementation_map in I. rewrite bt_group_get, filed_implementation in I. cbn.
    destruct (of_implementation i rows); by simplify_eq.
  - intros (i & -> & N). exists (i, of_implementation i rows). split; [done|].
    apply bt_get_elem; [done|]. unfold implementation_map.
    rewrite bt_group_get, filed_implementation. by destruct (of_implementation i rows).
Qed.

Lemma group_name_of i rows :
  of_implementation i rows ≠ [] → group_name (of_implementation i rows) = i.
Proof.
  intros N. destruct (of_implementation i rows) as [|r g] eqn:E; [done|].
  assert (r ∈ of_implementation i rows) as [H _]%elem_of_list_filter by (rewrite E; set_solver).
  by apply String.eqb_eq.
Qed.

Lemma shape_nonempty group s : benchmark_shape group = Some s → group ≠ [].
Proof. by destruct group. Qed.

(** The shapes of all groups when the search for the reference goes through,
    and that it is one of them with the most configurations. *)
Lemma find_reference_max groups o reference :
  find_reference o groups = Some (Some reference) →
  (o = Some reference ∨ ∃ g, g ∈ groups ∧ benchmark_shape g = Some reference) ∧
  (∀ g, g ∈ groups → ∃ s, benchmark_shape g = Some s ∧
     length (shape_configurations s) ≤ length (shape_configurations reference))%nat ∧
  (∀ s, o = Some s →
     length (shape_configurations s) ≤ length (shape_configurations reference))%nat.
Proof.
  revert o. induction groups as [|g groups IH]; cbn; intros o E.
  { simplify_eq. split_and!; [by left|set_solver|]. by intros s [= ->]. }
  destruct (benchmark_shape g) as [s|] eqn:G; cbn in E; [|done].
  apply IH in E as (H1 & H2 & H3).
  set (o' := match o with None => _ | Some _ => _ end) in *.
  assert (o' = Some s ∨ o' = o) as D by (unfold o'; repeat case_match; auto).
  assert (length (shape_configurations s) ≤ length (shape_configurations reference))%nat as L.
  { unfold o' in H3. destruct o as [c|]; [|by apply H3].
    destruct (Nat.leb_spec (length (shape_configurations c)) (length (shape_configurations s)));
      [by apply H3|]. specialize (H3 c eq_refl). lia. }
  split_and!.
  - destruct H1 as [H1|(g' & I & H1)]; [|right; set_solver].
    destruct D as [D|D]; [|left; congruence]. right. exists g. split; [set_solver|congruence].
  - intros g' [->|I]%elem_of_cons; eauto.
  - intros c ->. unfold o' in H3.
    destruct (Nat.leb_spec (length (shape_configurations c)) (length (shape_configurations s)));
      [specialize (H3 s eq_refl); lia|by apply H3].
Qed.

Lemma of_implementation_app i a b :
  of_implementation i (a ++ b) = of_implementation i a ++ of_implementation i b.
Proof. apply List.filter_app. Qed.

Lemma of_implementation_twice i j rows :
  of_implementation i (of_implementation j rows) =
  if decide (i = j) then of_implementation j rows else [].
Proof.
  unfold of_implementation. induction rows as [|r rows IH]; cbn; [by case_decide|].
  destruct (String.eqb_spec (row_implementation r) j) as [E|N]; cbn; [|done].
  rewrite IH, E. case_decide as D; subst.
  - by rewrite String.eqb_refl.
  - destruct (String.eqb_spec (row_implementation r) i); congruence.
Qed.

Lemma latest_group_Some runs reference i g : latest_group runs reference i = Some g →
  ∃ before run after, runs = before ++ run :: after ∧ g = of_implementation i run ∧
    has_shape reference g = true ∧
    ∀ run', run' ∈ after → has_shape reference (of_implementation i run') = false.
Proof.
  unfold latest_group. revert g. induction runs as [|run runs IH] using rev_ind; intros g; [done|].
  rewrite rev_app_distr. cbn. case_match eqn:E.
  - intros [= <-]. exists runs, run, []. split_and!; (done || set_solver).
  - intros (b & run' & a & -> & -> & H1 & H2)%IH. exists b, run', (a ++ [run]).
    split_and!; [by rewrite <- app_assoc|done..|].
    intros r [I| ->%list_elem_of_singleton]%elem_of_app; auto.
Qed.

Lemma combine_groups_of runs reference l c : combine_groups runs reference l = Some c → NoDup l →
  ∀ i, (i ∈ l → latest_group runs reference i = Some (of_implementation i c)) ∧
       (i ∉ l → of_implementation i c = []).
Proof.
  revert c. induction l as [|j l IH]; cbn; intros c E ND i; [simplify_eq; set_solver|].
  destruct (latest_group runs reference j) as [g|] eqn:G; cbn in E; [|done].
  destruct (combine_groups runs reference l) as [c'|]; cbn in E; [|done]. injection E as <-.
  apply NoDup_cons in ND as [NI ND]. destruct (IH c' eq_refl ND i) as [H1 H2].
  rewrite of_implementation_app. pose proof (latest_group_Some _ _ _ _ G) as (b & run & a & _ & -> & _).
  rewrite of_implementation_twice. case_decide as D.
  - subst j. split; [|set_solver]. intros _. rewrite G, (H2 NI), app_nil_r. done.
  - split; [|set_solver]. intros [?|I]%elem_of_cons; [done|]. by apply H1.
Qed.

Lemma distinct_ids_spec seen ids : bt_sorted seen →
  NoDup (distinct_ids seen ids) ∧
  ∀ x, x ∈ distinct_ids seen ids ↔ x ∈ ids ∧ x ∉ seen.*1.
Proof.
  revert seen. induction ids as [|id ids IH]; cbn; intros seen S; [split; [constructor|set_solver]|].
  destruct (bs_contains id seen) eqn:E.
  - apply bs_contains_spec in E; [|done]. destruct (IH seen S) as [N M]. split; [done|].
    intros x. rewrite M. set_solver.
  - assert (id ∉ seen.*1) as NE by (intros I%bs_contains_spec; [congruence|done]).
    destruct (IH (bs_insert id seen) (bt_entry_sorted _ _ _ S)) as [N M].
    unfold bs_insert, bt_insert in *. split.
    + constructor; [|done]. rewrite M, bt_entry_keys. tauto.
    + intros x. rewrite elem_of_cons, M, bt_entry_keys, elem_of_cons. split.
      * intros [->|[I J]]; tauto.
      * intros [[->|I] J]; [by left|]. destruct (decide (x = id)); tauto.
Qed.

Lemma elem_of_run_ids rows mode id :
  id ∈ sorted_run_ids rows mode ↔ ∃ r, r ∈ run_rows rows mode id.
Proof.
  unfold sorted_run_ids, run_rows. rewrite sort_by_perm.
  rewrite (proj2 (distinct_ids_spec [] _ bt_sorted_nil)), list_elem_of_fmap.
  setoid_rewrite elem_of_list_filter. setoid_rewrite andb_true_iff.
  setoid_rewrite String.eqb_eq. set_solver.
Qed.

Lemma run_le_sorted rows mode :
  StronglySorted (λ a b, run_le a b = true) (sorted_run_ids rows mode).
Proof. apply sort_by_sorted; unfold run_le; intros *; lia. Qed.

(** The complete runs come in the order of their keys. *)
Lemma complete_runs_split rows mode before run after :
  complete_runs rows mode = before ++ run :: after →
  ∃ id, run = run_rows rows mode id ∧ run_is_complete run = true ∧
    ∀ id', run_is_complete (run_rows rows mode id') = true →
      run_rows rows mode id' ∈ after ∨ run_key id' ≤ run_key id.
Proof.
  unfold complete_runs. intros E.
  assert (∀ ids, StronglySorted (λ a b, run_le a b = true) ids →
    ∀ before, List.filter run_is_complete (run_rows rows mode <$> ids) = before ++ run :: after →
    ∃ id, id ∈ ids ∧ run = run_rows rows mode id ∧ run_is_complete run = true ∧
      ∀ id', id' ∈ ids → run_is_complete (run_rows rows mode id') = true →
        run_rows rows mode id' ∈ after ∨ run_key id' ≤ run_key id) as G.
  { clear. induction ids as [|id ids IH]; cbn; intros S before E; [by destruct before|].
    apply StronglySorted_inv in S as [S F]. destruct (run_is_complete (run_rows rows mode id)) eqn:C.
    - destruct before as [|b before]; cbn in E; simplify_eq.
      + exists id. split_and!; [set_solver|done..|].
        intros id' [->|I]%elem_of_cons C'; [right; lia|left].
        apply elem_of_list_filter. split; [done|]. apply list_elem_of_fmap. by exists id'.
      + destruct (IH S before ltac:(done)) as (i & J & -> & Ci & K). exists i.
        split_and!; [set_solver|done..|]. intros id' [->|I]%elem_of_cons C'; [|by apply K]. right.
        rewrite Forall_forall in F. apply F in J. unfold run_le in J. lia.
    - destruct (IH S before E) as (i & J & -> & Ci & K). exists i.
      split_and!; [set_solver|done..|]. intros id' [->|I]%elem_of_cons C'; [congruence|by apply K]. }
  destruct (G _ (run_le_sorted rows mode) _ E) as (id & _ & -> & C & K). exists id. split_and!; [done..|].
  intros id' C'. apply K; [|done]. apply elem_of_run_ids.
  destruct (run_rows rows mode id') as [|r l]; [done|]. exists r. set_solver.
Qed.
Lemma elem_of_complete_runs rows mode run :
  run ∈ complete_runs rows mode ↔
  ∃ id, run = run_rows rows mode id ∧ run_is_complete run = true.
Proof.
  unfold complete_runs. rewrite elem_of_list_filter, list_elem_of_fmap. split.
  - intros (C & id & -> & _). by exists id.
  - intros (id & -> & C). split; [done|]. exists id. split; [done|]. apply elem_of_run_ids.
    destruct (run_rows rows mode id) as [|r l]; [done|]. exists r. set_solver.
Qed.

(** All groups of all complete runs. *)
Definition all_groups (rows : list Row) (mode : option string) : list (list Row) :=
  concat (implementation_groups <$> complete_runs rows mode).

Lemma elem_of_all_groups rows mode group :
  group ∈ all_groups rows mode ↔
  ∃ id i, run_is_complete (run_rows rows mode id) = true ∧
    group = of_implementation i (run_rows rows mode id) ∧ group ≠ [].
Proof.
  unfold all_groups. rewrite list_elem_of_In, in_concat. split.
  - intros (gs & (run & -> & R)%list_elem_of_In%list_elem_of_fmap & G%list_elem_of_In).
    apply elem_of_complete_runs in R as (id & -> & C). apply elem_of_groups in G as (i & -> & N). eauto.
  - intros (id & i & C & -> & N). exists (implementation_groups (run_rows rows mode id)).
    split; apply list_elem_of_In.
    + apply list_elem_of_fmap. eexists. split; [done|]. apply elem_of_complete_runs. eauto.
    + apply elem_of_groups. eauto.
Qed.

Lemma elem_of_reference_names rows mode reference i :
  i ∈ bs_collect (group_name <$> List.filter (has_shape reference) (all_groups rows mode)) ↔
  ∃ id, run_is_complete (run_rows rows mode id) = true ∧
    benchmark_shape (of_implementation i (run_rows rows mode id)) = Some reference.
Proof.
  rewrite elem_of_bs_collect, list_elem_of_fmap. setoid_rewrite elem_of_list_filter.
  setoid_rewrite elem_of_all_groups. unfold has_shape. setoid_rewrite bool_decide_eq_true. split.
  - intros (g & -> & S & id & j & C & -> & N). exists id. by rewrite group_name_of.
  - intros (id & C & S). pose proof (shape_nonempty _ _ S) as N.
    eexists. split; [by rewrite group_name_of|]. eauto 10.
Qed.

(** What the combination shows of implementation [i]: the rows of the complete
    run with the highest key in which it has the reference shape, or nothing
    when there is no such run. *)
Definition shows_latest (rows : list Row) (mode : option string) (reference : BenchmarkShape)
    (combined : list Row) (i : string) : Prop :=
  (∃ id, run_is_complete (run_rows rows mode id) = true ∧
     benchmark_shape (of_implementation i (run_rows rows mode id)) = Some reference ∧
     of_implementation i combined = of_implementation i (run_rows rows mode id) ∧
     ∀ id', run_is_complete (run_rows rows mode id') = true →
       benchmark_shape (of_implementation i (run_rows rows mode id')) = Some reference →
       run_key id' ≤ run_key id) ∨
  (of_implementation i combined = [] ∧
     ∀ id, run_is_complete (run_rows rows mode id) = true →
       benchmark_shape (of_implementation i (run_rows rows mode id)) ≠ Some reference).

Lemma combine_shows_latest rows mode reference combined i :
  combine_groups (complete_runs rows mode) reference
    (bs_collect (group_name <$> List.filter (has_shape reference) (all_groups rows mode)))
    = Some combined →
  shows_latest rows mode reference combined i.
Proof.
  intros E. pose proof (combine_groups_of _ _ _ _ E (bs_collect_NoDup _) i) as [H1 H2].
  set (names := bs_collect _) in *. destruct (decide (i ∈ names)) as [I|N].
  - left. specialize (H1 I). apply latest_group_Some in H1 as (b & run & a & R & G & S & L).
    apply complete_runs_split in R as (id & -> & C & K). exists id.
    unfold has_shape in *. apply bool_decide_eq_true in S. rewrite G in S |- *.
    split_and!; [done..|]. intros id' C' S'. destruct (K id' C') as [A|A]; [|done].
    apply L in A. by apply bool_decide_eq_false in A.
  - right. split; [by apply H2|]. intros id C S. apply N, elem_of_reference_names. by exists id.
Qed.

(** C28: When no run is requested, the chart shows one group of rows per
    implementation and all groups are comparable: there is a reference shape,
    that of some implementation in some complete run and with at least as many
    configurations as any other group of a complete run has, and every
    implementation is shown with the rows of its newest complete run of exactly
    that shape, or not at all when it has none. *)
Theorem combine_latest_runs_spec rows mode combined :
  combine_latest_runs rows mode = Some combined →
  ∃ reference,
    (∃ id i, run_is_complete (run_rows rows mode id) = true ∧
       benchmark_shape (of_implementation i (run_rows rows mode id)) = Some reference) ∧
    (∀ id i s, run_is_complete (run_rows rows mode id) = true →
       benchmark_shape (of_implementation i (run_rows rows mode id)) = Some s →
       (length (shape_configurations s) ≤ length (shape_configurations reference))%nat) ∧
    ∀ i, shows_latest rows mode reference combined i.
Proof.
  unfold combine_latest_runs. fold (all_groups rows mode). intros E.
  destruct (find_reference None (all_groups rows mode)) as [[reference|]|] eqn:F; cbn in E; try done.
  apply find_reference_max in F as ([?|(g & I & S)] & M & _); [done|]. exists reference. split_and!.
  - apply elem_of_all_groups in I as (id & i & C & -> & _). eauto.
  - intros id i s C S'. destruct (M (of_implementation i (run_rows rows mode id))) as (s' & S'' & L).
    { apply elem_of_all_groups. exists id, i. split_and!; [done..|]. by eapply shape_nonempty. }
    by rewrite S' in S''; simplify_eq.
  - intros i. by apply combine_shows_latest.
Qed.
End combine.

(** ** Witnesses *)

Definition demo_row (run_id mode implementation : string) (producers expected : Z) : Row := {|
  row_run_id := run_id; row_cpu := "cpu"; row_affinity := "physical-first:0,1"; row_mode := mode;
  row_implementation := implementation; row_payload := "u64"; row_payload_bytes := 8;
  row_producers := producers; row_consumers := None; row_nominal_capacity := 1;
  row_capacity_model := Some "per-ring-hwm"; row_throughput_profile := "saturated";
  row_low_watermark := 1; row_high_watermark := 1; row_items_per_sec := f64_of 100;
  row_relative_mad := Some (f64_of 10); row_sample := 0; row_samples := 5;
  row_expected_rows := expected |}.

Lemma expand_complete_witness :
  run_is_complete (expand_cached_measurements
    [demo_row "7" "try" "fanring" 1 2; demo_row "7" "try" "fanring" 2 2]) = true.
Proof.
  apply (expand_complete 5). split; [done|]. split; [lia|]. split.
  { refine (bool_decide_unpack (NoDup _) _). vm_compute. exact I. }
  split; [vm_compute; discriminate|]. intros row [->| ->%list_elem_of_singleton]%elem_of_cons; cbn; eauto.
Defined.

Lemma expand_measurement_roundtrip_witness :
  ∃ m, measurement (row_items_per_sec <$> expand_row (demo_row "7" "try" "fanring" 1 2)) = Done m
       ∧ m_median m = f64_of 100.
Proof.
  apply (expand_measurement_roundtrip (demo_row "7" "try" "fanring" 1 2) (f64_of 10));
    vm_compute; (reflexivity || discriminate).
Defined.

(** Two runs: the newer one has only one implementation. *)
Definition demo_rows : list Row := expand_cached_measurements [
  demo_row "3" "try" "fanring" 1 4; demo_row "3" "try" "fanring" 2 4;
  demo_row "3" "try" "flume" 1 4; demo_row "3" "try" "flume" 2 4;
  demo_row "12" "try" "fanring" 1 2; demo_row "12" "try" "fanring" 2 2].

Lemma combine_latest_runs_spec_witness : ∃ combined,
  (∃ reference, ∀ i, shows_latest demo_rows (Some "try") reference combined i) ∧
  (length combined = 20)%nat ∧
  Forall (λ row, row_run_id row = if String.eqb (row_implementation row) "fanring" then "12" else "3")
    combined.
Proof.
  destruct (combine_latest_runs demo_rows (Some "try")) as [combined|] eqn:E;
    [|vm_compute in E; discriminate].
  exists combined. split.
  - destruct (combine_latest_runs_spec _ _ _ E) as (reference & _ & _ & H). by exists reference.
  - revert E. vm_compute. intros [= <-]. split; [reflexivity|]. repeat constructor.
Defined.
