(* ===== verification/ChartThm.v ===== *)
(** * Theorems on the charts

    The cells of a heatmap fit their table and do not overlap; every
    implementation with rows gets a row of the table; a selected set of
    latency rows has one row for every bar; a configuration file reads back
    what was written; every line of a result file is accounted for. *)
From Stdlib Require Import Ascii String Sorted.
From S2P Require Import Prelude ChartStd F64 ChartRow ChartPlot ChartHardware ChartRender ChartRowThm ChartLatency Chart.

(** ** Heatmap geometry *)

Section geometry.

(** A table whose cells have room in [width] pixels. *)
Definition fits (t : HeatTable) (width : Z) : Prop :=
  let np := Z.of_nat (length (producers t)) in
  let nc := Z.of_nat (length (consumers t)) in
  0 ≤ cell_width t ∧ 0 ≤ group_gap t ∧ width + group_gap t ≤ i32_max ∧
  np - 1 ≤ i32_max ∧
  (0 < np → nc ≤ i32_max ∧ TABLE_LEFT + np * (nc * cell_width t) + (np - 1) * group_gap t + TABLE_RIGHT ≤ width).

Lemma i32_done n : i32_min ≤ n ≤ i32_max → i32 n = Done n.
Proof. unfold i32. intros [H1 H2]. apply Z.leb_le in H1 as ->. by apply Z.leb_le in H2 as ->. Qed.

Lemma usize_to_i32_done n : n ≤ i32_max → usize_to_i32 n = Done n.
Proof. unfold usize_to_i32. by intros ->%Z.leb_le. Qed.

(** Where the cell of producer column [p] and consumer column [c] starts. *)
Definition cell_left (t : HeatTable) (p c : Z) : Z :=
  TABLE_LEFT + p * (Z.of_nat (length (consumers t)) * cell_width t + group_gap t)
  + c * cell_width t.

Lemma cell_left_bounds t w p c : fits t w →
  0 ≤ p < Z.of_nat (length (producers t)) → 0 ≤ c < Z.of_nat (length (consumers t)) →
  TABLE_LEFT ≤ cell_left t p c ∧ cell_left t p c + cell_width t ≤ w - TABLE_RIGHT.
Proof.
  intros (W & G & _ & _ & F) Hp Hc. destruct (F ltac:(lia)) as [_ F']; clear F; rename F' into F. unfold cell_left.
  set (np := Z.of_nat (length (producers t))) in *. set (nc := Z.of_nat (length (consumers t))) in *.
  assert (p * (nc * cell_width t) ≤ (np - 1) * (nc * cell_width t)) by (apply Z.mul_le_mono_nonneg_r; nia).
  assert (p * group_gap t ≤ (np - 1) * group_gap t) by (apply Z.mul_le_mono_nonneg_r; lia).
  assert ((c + 1) * cell_width t ≤ nc * cell_width t) by (apply Z.mul_le_mono_nonneg_r; lia).
  nia.
Qed.

Lemma cell_x_done t w p c : fits t w →
  0 ≤ p < Z.of_nat (length (producers t)) → 0 ≤ c < Z.of_nat (length (consumers t)) →
  cell_x t p c = Done (cell_left t p c).
Proof.
  intros F Hp Hc. pose proof (cell_left_bounds t w p c F Hp Hc) as [L U].
  pose proof (cell_left_bounds t w p 0 F Hp ltac:(lia)) as [L0 U0].
  pose proof F as (W & G & I & M & F'). destruct (F' ltac:(lia)) as [N F'']; clear F'.
  unfold cell_x, group_x, group_width, cell_left in *. rewrite Z.mul_0_l, Z.add_0_r in L0, U0.
  set (np := Z.of_nat (length (producers t))) in *. set (nc := Z.of_nat (length (consumers t))) in *.
  assert (0 ≤ nc * cell_width t) by nia.
  assert (nc * cell_width t ≤ np * (nc * cell_width t)) by nia.
  assert (0 ≤ (np - 1) * group_gap t) by nia.
  assert (0 ≤ p * (nc * cell_width t + group_gap t)) by nia.
  assert (0 ≤ c * cell_width t) by nia.
  unfold TABLE_LEFT, TABLE_RIGHT, i32_max in *.
  repeat first [rewrite usize_to_i32_done by (unfold i32_max; lia)
               | rewrite i32_done by (unfold i32_min, i32_max; lia)
               | progress cbn [mbind outcome_bind]].
  done.
Qed.

Lemma quot_room room n : 0 ≤ room → 1 ≤ n → 0 ≤ Z.quot room n ∧ n * Z.quot room n ≤ room.
Proof.
  intros R N. rewrite Z.quot_div_nonneg by lia.
  split; [apply Z.div_pos; lia|apply Z.mul_div_le; lia].
Qed.

Lemma outcome_bind_done {A B} (o : outcome A) (k : A → outcome B) b :
  (o ≫= k) = Done b → ∃ a, o = Done a ∧ k a = Done b.
Proof. destruct o; cbn; [eauto|done]. Qed.

Lemma i32_inv n m : i32 n = Done m → m = n ∧ i32_min ≤ n ≤ i32_max.
Proof. unfold i32. case_match eqn:E; [|done]. intros [= <-]. lia. Qed.

Lemma usize_to_i32_inv n m : usize_to_i32 n = Done m → m = n ∧ n ≤ i32_max.
Proof. unfold usize_to_i32. case_match eqn:E; [|done]. intros [= <-]. lia. Qed.

Ltac outcome_inv :=
  repeat match goal with
  | H : (_ ≫= _) = Done _ |- _ => apply outcome_bind_done in H as (? & ? & H)
  | H : i32 _ = Done _ |- _ => apply i32_inv in H as [-> ?]
  | H : usize_to_i32 _ = Done _ |- _ => apply usize_to_i32_inv in H as [-> ?]
  | H : Done _ = Done _ |- _ => injection H as <-
  end.

Lemma mpsc_fits rows y w t : HeatTable_mpsc rows y w = Done t →
  TABLE_LEFT + TABLE_RIGHT ≤ w ≤ i32_max → fits t w.
Proof.
  unfold HeatTable_mpsc. intros H W. outcome_inv. unfold fits. cbn.
  destruct (quot_room (w - TABLE_LEFT - TABLE_RIGHT)
    (Z.max (Z.of_nat (length (distinct_producers rows))) 1)) as [Q1 Q2]; [lia..|].
  unfold i32_max in *. split_and!; lia.
Qed.

Lemma mpmc_fits rows y w t : HeatTable_mpmc rows y w = Done t →
  TABLE_LEFT + TABLE_RIGHT + 8 * (Z.of_nat (length (distinct_producers rows)) - 1) ≤ w →
  TABLE_LEFT + TABLE_RIGHT ≤ w → w + 8 ≤ i32_max → fits t w.
Proof.
  unfold HeatTable_mpmc. intros H W1 W2 W3. outcome_inv. unfold fits. cbn.
  set (np := Z.of_nat (length (distinct_producers rows))) in *.
  set (nc := Z.of_nat (length (bs_collect (omap row_consumers rows)))) in *.
  unfold saturating_sub in *.
  destruct (quot_room (w - TABLE_LEFT - TABLE_RIGHT - 8 * Z.max 0 (np - 1))
    (Z.max (saturating_mul np nc) 1)) as [Q1 Q2]; [lia..|].
  set (cw := Z.quot _ _) in *. assert (0 ≤ np ∧ 0 ≤ nc) as [P1 P2] by lia.
  unfold saturating_mul, usize_max in *. rewrite usize_mod_eq in *.
  unfold i32_max in *. assert (0 ≤ np * nc) by nia.
  split; [lia|]. split; [lia|]. split; [lia|]. split; [lia|]. intros P.
  assert (nc ≤ np * nc) by nia. split; [lia|].
  assert (np * nc * cw ≤ Z.max (Z.min (np * nc) (18446744073709551616 - 1)) 1 * cw)
    by (apply Z.mul_le_mono_nonneg_r; lia). lia.
Qed.

(** What a table promises about its cells. *)
Definition cells_ok (t : HeatTable) (w : Z) : Prop :=
  ∀ p c, 0 ≤ p < Z.of_nat (length (producers t)) → 0 ≤ c < Z.of_nat (length (consumers t)) →
  ∃ x, cell_x t p c = Done x ∧ TABLE_LEFT ≤ x ∧ x + cell_width t ≤ w - TABLE_RIGHT ∧
    ∀ p' c', 0 ≤ p' < Z.of_nat (length (producers t)) →
      0 ≤ c' < Z.of_nat (length (consumers t)) → p < p' ∨ p = p' ∧ c < c' →
      ∃ x', cell_x t p' c' = Done x' ∧ x + cell_width t ≤ x'.

Lemma fits_cells_ok t w : fits t w → cells_ok t w.
Proof.
  intros F p c Hp Hc. exists (cell_left t p c).
  pose proof (cell_left_bounds t w p c F Hp Hc) as [L U].
  split_and!; [by apply (cell_x_done t w)|done..|]. intros p' c' Hp' Hc' O.
  exists (cell_left t p' c'). split; [by apply (cell_x_done t w)|].
  destruct F as (W & G & _). unfold cell_left.
  set (nc := Z.of_nat (length (consumers t))) in *.
  assert ((c + 1) * cell_width t ≤ nc * cell_width t) by (apply Z.mul_le_mono_nonneg_r; lia).
  destruct O as [O|[-> O]].
  - assert ((p + 1) * (nc * cell_width t + group_gap t) ≤ p' * (nc * cell_width t + group_gap t))
      by (apply Z.mul_le_mono_nonneg_r; nia). nia.
  - assert ((c + 1) * cell_width t ≤ c' * cell_width t) by (apply Z.mul_le_mono_nonneg_r; lia). nia.
Qed.

(** C35: The cells of a heatmap lie side by side inside the table: for every
    producer and consumer column the position is computed without a panic, the
    cell starts at or right of the table's left edge and ends left of the right
    margin, and it ends before the next cell in reading order starts.  This
    holds for both kinds of table as long as the gaps between the groups leave
    room in the chart's width. *)
Theorem heat_cells_inside rows y w t :
  (HeatTable_mpsc rows y w = Done t ∧ TABLE_LEFT + TABLE_RIGHT ≤ w ≤ i32_max) ∨
  (HeatTable_mpmc rows y w = Done t ∧
     TABLE_LEFT + TABLE_RIGHT + 8 * (Z.of_nat (length (distinct_producers rows)) - 1) ≤ w ∧
     TABLE_LEFT + TABLE_RIGHT ≤ w ∧ w + 8 ≤ i32_max) →
  cells_ok t w.
Proof.
  intros [[H W]|(H & W1 & W2 & W3)]; apply fits_cells_ok.
  - by eapply mpsc_fits.
  - by eapply mpmc_fits.
Qed.

Lemma heat_cells_inside_witness :
  ∃ t, HeatTable_mpsc [demo_row "7" "try" "fanring" 1 2; demo_row "7" "try" "fanring" 2 2] 58 1024
       = Done t ∧ cells_ok t 1024 ∧ cell_width t = 408.
Proof.
  eexists. split; [vm_compute; reflexivity|]. split; [|reflexivity].
  apply (heat_cells_inside [demo_row "7" "try" "fanring" 1 2; demo_row "7" "try" "fanring" 2 2] 58).
  left. split; [vm_compute; reflexivity|]. vm_compute. split; discriminate.
Defined.
End geometry.

(** ** The rows of the table *)

Section series.

Lemma SERIES_NoDup : NoDup SERIES.*1.
Proof. refine (bool_decide_unpack (NoDup _) _). vm_compute. exact I. Qed.

Lemma NoDup_filter_fst {A B} (f : A * B → bool) (l : list (A * B)) :
  NoDup l.*1 → NoDup (List.filter f l).*1.
Proof.
  induction l as [|[a b] l IH]; cbn; intros N; [done|]. apply NoDup_cons in N as [NI N].
  case_match; cbn; [|auto]. constructor; [|auto].
  intros ([a' b'] & -> & [_ I]%elem_of_list_filter)%list_elem_of_fmap.
  apply NI, list_elem_of_fmap. by exists (a', b').
Qed.

Lemma elem_of_filter_fst {A B} (f : A * B → bool) (P : A → Prop) (l : list (A * B)) a :
  (∀ s, f s = true ↔ P s.1) → a ∈ (List.filter f l).*1 ↔ P a ∧ a ∈ l.*1.
Proof.
  intros E. rewrite !list_elem_of_fmap. split.
  - intros ([a' b] & -> & [H I]%elem_of_list_filter). apply E in H. split; [done|]. by exists (a', b).
  - intros (H & [a' b] & -> & I). exists (a', b). split; [done|]. apply elem_of_list_filter.
    split; [by apply E|done].
Qed.

(** C36: A chart has exactly one table row per implementation that occurs in its
    rows, under the label of the known series or, for an unknown
    implementation, under its own name. *)
Theorem present_series_exact rows :
  NoDup (present_series rows).*1 ∧
  (∀ i, i ∈ (present_series rows).*1 ↔ i ∈ row_implementation <$> rows) ∧
  ∀ k l, (k, l) ∈ present_series rows → (k, l) ∈ SERIES ∨ k ∉ SERIES.*1 ∧ l = k.
Proof.
  unfold present_series. set (present := bs_collect _).
  assert (∀ i, i ∈ present ↔ i ∈ row_implementation <$> rows) as P
    by (intros i; apply elem_of_bs_collect).
  assert (((λ i : string, (i, i)) <$>
    List.filter (λ i, negb (bool_decide (i ∈ bs_collect SERIES.*1))) present).*1 =
    List.filter (λ i, negb (bool_decide (i ∈ bs_collect SERIES.*1))) present) as U.
  { rewrite <- list_fmap_compose. apply list_fmap_id. }
  assert (∀ i, i ∈ List.filter (λ i, negb (bool_decide (i ∈ bs_collect SERIES.*1))) present ↔
    i ∈ present ∧ i ∉ SERIES.*1) as V.
  { intros i. rewrite elem_of_list_filter, negb_true_iff, bool_decide_eq_false, elem_of_bs_collect.
    tauto. }
  assert (∀ i, i ∈ (List.filter (λ s, bool_decide (s.1 ∈ present)) SERIES).*1 ↔
    i ∈ present ∧ i ∈ SERIES.*1) as K.
  { intros i. apply (elem_of_filter_fst _ (λ i, i ∈ present)). intros s. apply bool_decide_eq_true. }
  split; [|split].
  - rewrite fmap_app, U. apply NoDup_app. split_and!.
    + apply NoDup_filter_fst, SERIES_NoDup.
    + intros i I J. apply K in I as [_ I]. by apply V in J as [_ J].
    + apply NoDup_ListNoDup, List.NoDup_filter, NoDup_ListNoDup, bs_collect_NoDup.
  - intros i. rewrite fmap_app, U, elem_of_app, V.
    rewrite K, P. destruct (decide (i ∈ SERIES.*1)); tauto.
  - intros k l [[_ I]%elem_of_list_filter|I]%elem_of_app; [by left|]. right.
    apply list_elem_of_fmap in I as (i & [= -> ->] & [_ J]%V). done.
Qed.
End series.

(** ** Latency rows *)

Section latency.
Implicit Types (rows sel : list LatencyRow) (r row : LatencyRow).

(** The bar of a row. *)
Definition bar_of (r : LatencyRow) : string * string := (implementation r, operation r).

(** Rows that fill every bar of a chart, once, and compare like with like. *)
Definition fills_bars (series : list Series) (rows sel : list LatencyRow) : Prop :=
  (∀ r, r ∈ sel → r ∈ rows) ∧
  (∀ r r', r ∈ sel → r' ∈ sel → latency_shape r = latency_shape r') ∧
  NoDup (bar_of <$> sel) ∧
  ∀ i o, (i, o) ∈ bar_of <$> sel ↔ i ∈ key <$> series ∧ o ∈ OPERATIONS.*1.

Lemma known_spec series r : known series r = true ↔ implementation r ∈ key <$> series.
Proof.
  unfold known. rewrite existsb_exists, list_elem_of_fmap. setoid_rewrite <- list_elem_of_In.
  setoid_rewrite String.eqb_eq. naive_solver.
Qed.

Lemma acceptable_spec first r : acceptable first r = true →
  latency_shape r = latency_shape first ∧ operation r ∈ OPERATIONS.*1.
Proof.
  unfold acceptable. rewrite !andb_true_iff, !String.eqb_eq, !Z.eqb_eq, existsb_exists.
  intros ((((((H1 & H2) & H3) & H4) & H5) & H6) & (op & I & E)). split.
  - unfold latency_shape. congruence.
  - apply String.eqb_eq in E as <-. apply list_elem_of_fmap. exists op. split; [done|].
    by apply list_elem_of_In.
Qed.

(** What the loop of [complete_rows] has selected. *)
Definition selected_ok (series : list Series) (first : LatencyRow) rows
    (m : list ((string * string) * LatencyRow)) : Prop :=
  bt_sorted m ∧ ∀ k r, (k, r) ∈ m →
    k = bar_of r ∧ r ∈ rows ∧ known series r = true ∧
    latency_shape r = latency_shape first ∧ operation r ∈ OPERATIONS.*1.

Lemma elem_of_bt_insert {K V} `{CmpLaws K} (m : list (K * V)) k v k' v' : bt_sorted m →
  (k', v') ∈ bt_insert k v m → (k' = k ∧ v' = v) ∨ (k', v') ∈ m.
Proof.
  intros S I. apply bt_get_elem in I; [|by apply bt_entry_sorted].
  unfold bt_insert in I. destruct (cmp k' k) eqn:E.
  - apply cmp_eq in E as ->. rewrite bt_get_entry_eq in I by done. left. by simplify_eq.
  - rewrite bt_get_entry, E in I by done. right. by apply bt_get_elem.
  - rewrite bt_get_entry, E in I by done. right. by apply bt_get_elem.
Qed.

Lemma collect_complete_ok series first rows todo m m' :
  (∀ r, r ∈ todo → r ∈ rows) → selected_ok series first rows m →
  collect_complete series first m todo = Some m' → selected_ok series first rows m'.
Proof.
  revert m. induction todo as [|r todo IH]; cbn; intros m T OK E; [by simplify_eq|].
  destruct (known series r) eqn:K; cbn in E; [|apply IH in E; set_solver].
  destruct (acceptable first r) eqn:A; cbn in E; [|done].
  destruct (bt_get (implementation r, operation r) m) eqn:G; [done|].
  eapply IH; [set_solver| |exact E]. destruct OK as [S OK]. apply acceptable_spec in A as [A1 A2].
  split; [by apply bt_entry_sorted|]. intros k r' [[-> ->]|I]%elem_of_bt_insert; [|by apply OK|done].
  split_and!; (done || set_solver).
Qed.

Lemma complete_rows_ok series rows sel : complete_rows rows series = Some sel →
  fills_bars series rows sel.
Proof.
  unfold complete_rows. intros E. destruct (List.find (known series) rows) as [first|]; cbn [mbind option_bind] in E; [|done].
  destruct (collect_complete series first [] rows) as [m|] eqn:C; cbn [mbind option_bind] in E; [|done].
  case_match eqn:A; [|done]. injection E as <-.
  apply (collect_complete_ok _ _ rows) in C as [S OK]; [|done|split; [constructor|set_solver]].
  assert (bar_of <$> m.*2 = m.*1) as B.
  { rewrite <- list_fmap_compose. apply list_fmap_ext. intros j [k r] I%list_elem_of_lookup_2.
    cbn. by apply OK in I as [-> _]. }
  split_and!.
  - intros r ([k r'] & -> & I)%list_elem_of_fmap. by apply OK in I as (_ & ? & _).
  - intros r r' ([k1 r1] & -> & I1)%list_elem_of_fmap ([k2 r2] & -> & I2)%list_elem_of_fmap. cbn.
    apply OK in I1 as (_ & _ & _ & -> & _). by apply OK in I2 as (_ & _ & _ & -> & _).
  - rewrite B. by apply bt_sorted_NoDup.
  - intros i o. rewrite B. split.
    + intros ([k r] & E' & I)%list_elem_of_fmap. apply OK in I as (E & _ & K & _ & O).
      cbn in E'. subst k. unfold bar_of in E. simplify_eq. by apply known_spec in K.
    + intros [(c & -> & Ic)%list_elem_of_fmap ([o' l] & -> & Io)%list_elem_of_fmap].
      rewrite forallb_forall in A. specialize (A c (proj1 (list_elem_of_In _ _) Ic)).
      cbv beta in A. rewrite forallb_forall in A. specialize (A (o', l) (proj1 (list_elem_of_In _ _) Io)). cbn in A.
      destruct (bt_get (key c, o') m) as [r|] eqn:G; [|done]. apply bt_get_elem in G; [|done].
      apply list_elem_of_fmap. by exists (key c, o', r).
Qed.

Lemma complete_implementation_ok rows s : complete_implementation rows = Some s →
  (∀ r, r ∈ rows → latency_shape r = s) ∧ operation <$> rows ≡ₚ OPERATIONS.*1.
Proof.
  unfold complete_implementation. destruct rows as [|a rows]; [done|].
  case_match eqn:E; [done|]. intros [= <-].
  apply orb_false_iff in E as [[L S]%orb_false_iff O%negb_false_iff].
  apply negb_false_iff, Nat.eqb_eq in L. destruct rows as [|b [|]]; try done. split.
  - intros r I. apply not_true_iff_false in S. destruct (decide (latency_shape r = latency_shape a));
      [done|]. exfalso. apply S, existsb_exists. exists r. split; [by apply list_elem_of_In|].
    by apply negb_true_iff, bool_decide_eq_false.
  - cbn in O. rewrite !orb_false_r, !andb_true_iff, !orb_true_iff, !String.eqb_eq in O.
    destruct O as ([O1|O1] & [O2|O2] & _); cbn; rewrite O1, O2 in *; try congruence; [done|].
    apply Permutation_swap.
Qed.

Lemma latest_run_ok runs reference c run : latest_run runs reference c = Some run →
  run ∈ runs ∧ ir_implementation run = key c ∧ ir_shape run = reference.
Proof.
  unfold latest_run. intros [I H]%find_some.
  apply andb_true_iff in H as [H1%String.eqb_eq H2%bool_decide_eq_true].
  split_and!; [|done..]. by apply list_elem_of_In, in_rev.
Qed.

Lemma implementation_runs_ok rows series run : run ∈ implementation_runs rows series →
  (∀ r, r ∈ ir_rows run → r ∈ rows ∧ implementation r = ir_implementation run ∧
     latency_shape r = ir_shape run) ∧
  operation <$> ir_rows run ≡ₚ OPERATIONS.*1.
Proof.
  unfold implementation_runs. rewrite list_elem_of_In, in_concat.
  intros (l & (id & -> & _)%list_elem_of_In%list_elem_of_fmap & I%list_elem_of_In).
  apply list_elem_of_omap in I as (c & _ & E).
  destruct (complete_implementation (candidate_rows rows id c)) as [s|] eqn:C; cbn in E; [|done].
  injection E as <-. cbn. apply complete_implementation_ok in C as [S P]. split; [|done].
  intros r I. split_and!; [| |by apply S].
  - by apply elem_of_list_filter in I as [_ I].
  - apply elem_of_list_filter in I as [[_ H]%andb_true_iff _]. by apply String.eqb_eq.
Qed.

Lemma combine_reference_ok rows series0 reference acc series :
  let runs := implementation_runs rows series0 in
  let c := combine_reference runs reference acc series in
  c = [] ∨ ∃ l, c = acc ++ l ∧
    (∀ r, r ∈ l → r ∈ rows ∧ latency_shape r = reference) ∧
    (NoDup (key <$> series) → NoDup (bar_of <$> l)) ∧
    ∀ i o, (i, o) ∈ bar_of <$> l ↔ i ∈ key <$> series ∧ o ∈ OPERATIONS.*1.
Proof.
  intros runs. revert acc. induction series as [|c series IH]; cbn; intros acc.
  { right. exists []. rewrite app_nil_r. split_and!; [done|set_solver|constructor|set_solver]. }
  destruct (latest_run runs reference c) as [run|] eqn:L; [|by left].
  apply latest_run_ok in L as (I & N & S).
  apply implementation_runs_ok in I as [R P].
  destruct (IH (acc ++ ir_rows run)) as [->|(l & -> & H1 & H2 & H3)]; [by left|].
  assert (bar_of <$> ir_rows run = pair (key c) <$> (operation <$> ir_rows run)) as B.
  { rewrite <- list_fmap_compose. apply list_fmap_ext. intros j r Ir%list_elem_of_lookup_2. cbn.
    unfold bar_of. apply R in Ir as (_ & -> & _). by rewrite N. }
  right. exists (ir_rows run ++ l). rewrite fmap_app, B. split_and!.
  - by rewrite app_assoc.
  - intros r [Ir|Ir]%elem_of_app; [|by apply H1]. apply R in Ir as (? & _ & ->). by rewrite S.
  - intros [NI ND]%NoDup_cons. apply NoDup_app. split_and!; [| |by apply H2].
    + apply NoDup_fmap; [by intros ? ? [= ->]|]. rewrite P.
      refine (bool_decide_unpack (NoDup _) _). vm_compute. exact I.
    + intros [i o] (o' & [= -> ->] & _)%list_elem_of_fmap [J _]%H3. done.
  - intros i o. rewrite elem_of_app, H3, P, elem_of_cons.
    rewrite list_elem_of_fmap. naive_solver.
Qed.

(** C33: The rows a latency chart is drawn from fill it: whether a run was
    requested or the newest comparable runs were combined, the selected rows
    come from the input, all have the same CPU, affinity, capacity, number of
    rounds and settling, and there is exactly one row for every series and
    operation and none for anything else. *)
Theorem select_run_fills_bars rows series requested sel :
  NoDup (key <$> series) →
  select_run rows series requested = Ok sel → fills_bars series rows sel.
Proof.
  intros ND. unfold select_run. destruct requested as [id|].
  - intros E. destruct (List.filter _ rows) as [|r0 l] eqn:F; [done|].
    destruct (complete_rows (r0 :: l) series) as [sel'|] eqn:C; [|done]. injection E as ->.
    apply complete_rows_ok in C as (H1 & H2 & H3 & H4). split_and!; [|done..].
    intros r I%H1. rewrite <- F in I. by apply elem_of_list_filter in I as [_ I].
  - unfold combine_latest_runs. set (runs := implementation_runs rows series).
    generalize (ir_shape <$> rev runs). induction l as [|reference l IH]; cbn; [done|].
    destruct (combine_reference_ok rows series reference [] series) as [E|(c & E & H1 & H2 & H3)].
    + fold runs in E. by rewrite E.
    + fold runs in E. rewrite E. cbn. destruct c as [|r0 c]; [done|]. intros [= <-].
      split_and!; [by intros r [? _]%H1| |by apply H2|done].
      intros r r' [_ ->]%H1 [_ ->]%H1. done.
Qed.
End latency.

(** The latency rows of one run. *)
Definition demo_latency (id : string) : list LatencyRow :=
  concat ((λ s, (λ op : string * string,
    mk_latency_row id "cpu" "" (key s) op.1 None 1 100 "sleep" 50000 1000 2000) <$> OPERATIONS)
  <$> MPSC_SERIES).

Lemma select_run_fills_bars_witness : ∃ sel,
  select_run (demo_latency "4" ++ demo_latency "11") MPSC_SERIES None = Ok sel ∧
  fills_bars MPSC_SERIES (demo_latency "4" ++ demo_latency "11") sel ∧
  Forall (λ r, run_id r = "11") sel.
Proof.
  destruct (select_run (demo_latency "4" ++ demo_latency "11") MPSC_SERIES None) as [sel|] eqn:E;
    [|vm_compute in E; discriminate].
  exists sel. split; [reflexivity|]. split.
  - apply (select_run_fills_bars _ MPSC_SERIES None); [|exact E].
    refine (bool_decide_unpack (NoDup _) _). vm_compute. exact I.
  - revert E. vm_compute. intros [= <-]. repeat constructor.
Defined.

(** ** The hardware file *)

Section hardware.
#[local] Arguments String.append : simpl nomatch.

(** Whether a character occurs in a string. *)
Fixpoint occurs (d : ascii) (s : string) : bool :=
  match s with EmptyString => false | String c s' => Ascii.eqb c d || occurs d s' end.

(** The file with one [key=value] line per setting. *)
Fixpoint print_settings (m : list (string * string)) : string :=
  match m with
  | [] => EmptyString
  | (k, v) :: m' => k +:+ String "=" (v +:+ String newline (print_settings m'))
  end.

(** Keys and values that a line can hold. *)
Definition printable (kv : string * string) : Prop :=
  trim kv.1 = kv.1 ∧ trim kv.2 = kv.2 ∧
  occurs "=" kv.1 = false ∧ String.prefix "#" kv.1 = false ∧
  occurs newline kv.1 = false ∧ occurs newline kv.2 = false.

Lemma app_String c s t : String c s +:+ t = String c (s +:+ t).
Proof. done. Qed.

Lemma split_once_app d a b : occurs d a = false → split_once d (a +:+ String d b) = Some (a, b).
Proof.
  induction a as [|c a IH]; cbn; [by rewrite Ascii.eqb_refl|].
  intros [E O]%orb_false_iff. by rewrite E, IH.
Qed.

Lemma split_char_app d a b : occurs d a = false →
  split_char d (a +:+ String d b) = a :: split_char d b.
Proof.
  induction a as [|c a IH]; cbn; [by rewrite Ascii.eqb_refl|].
  intros [E O]%orb_false_iff. by rewrite E, IH.
Qed.

Lemma occurs_app d a b : occurs d (a +:+ b) = occurs d a || occurs d b.
Proof. induction a as [|c a IH]; cbn; [done|]. by rewrite IH, orb_assoc. Qed.

Lemma trim_start_length s : (String.length (trim_start s) ≤ String.length s)%nat.
Proof. induction s; cbn; [done|]. case_match; cbn; lia. Qed.

Lemma trim_end_length s : (String.length (trim_end s) ≤ String.length s)%nat.
Proof. induction s as [|c s IH]; cbn; [done|]. destruct (trim_end s); cbn in *; [case_match; cbn; lia|lia]. Qed.

Lemma trim_end_id s : String.length (trim_end s) = String.length s → trim_end s = s.
Proof.
  induction s as [|c s IH]; cbn; [done|]. pose proof (trim_end_length s).
  destruct (trim_end s) as [|c' s']; cbn in *.
  - case_match; cbn; [done|]. intros [= E]. by rewrite <- IH.
  - intros [= E]. by rewrite IH.
Qed.

(** A trimmed string has no white space at either end. *)
Lemma trim_fixed s : trim s = s → trim_end s = s ∧ trim_start s = s.
Proof.
  unfold trim. intros E. pose proof (trim_start_length (trim_end s)) as L1.
  pose proof (trim_end_length s) as L2. rewrite E in L1.
  assert (trim_end s = s) as E' by (apply trim_end_id; lia). split; [done|]. by rewrite E' in E.
Qed.

Lemma trim_end_app a b : trim_end b ≠ EmptyString → trim_end (a +:+ b) = a +:+ trim_end b.
Proof.
  intros N. induction a as [|c a IH]; cbn; [done|]. rewrite IH.
  destruct (a +:+ trim_end b) as [|? ?] eqn:E; [|done]. destruct a; cbn in E; [done|discriminate].
Qed.

(** A line is not changed by trimming it. *)
Lemma trim_setting k v : trim k = k → trim v = v →
  trim (k +:+ String "=" v) = k +:+ String "=" v.
Proof.
  intros [_ K]%trim_fixed [V _]%trim_fixed.
  assert (trim_end (String "=" v) = String "=" v) as E.
  { cbn. rewrite V. by destruct v. }
  unfold trim. rewrite trim_end_app, E by by rewrite E. destruct k as [|c k]; cbn in *; [done|].
  destruct (is_ws c) eqn:W; [|done]. exfalso. pose proof (trim_start_length k) as L. rewrite K in L.
  cbn in L. lia.
Qed.

Lemma strip_carriage_setting k v : trim v = v →
  strip_carriage (k +:+ String "=" v) = k +:+ String "=" v.
Proof.
  intros [V _]%trim_fixed. induction k as [|c k IH].
  - cbn. assert (∀ c s, trim_end s = s → (s = EmptyString → Ascii.eqb c carriage = false) →
      strip_carriage (String c s) = String c s) as G.
    { clear. intros c s. revert c. induction s as [|c' s IH]; intros c E N; cbn.
      - by rewrite N.
      - f_equal. apply IH.
        + cbn in E. destruct (trim_end s) eqn:T; [case_match; by simplify_eq|by simplify_eq].
        + intros ->. cbn in E. destruct (is_ws c') eqn:W; [done|].
          destruct (Ascii.eqb_spec c' carriage) as [->|]; [by vm_compute in W|done]. }
    by apply (G "="%char v V).
  - rewrite app_String. cbn. rewrite IH. by destruct k.
Qed.

Lemma line_list_cons s t l : line_list (s :: t :: l) = strip_carriage s :: line_list (t :: l).
Proof. by destruct s. Qed.

Lemma lines_print m : Forall printable m →
  lines (print_settings m) = (λ kv : string * string, kv.1 +:+ String "=" kv.2) <$> m.
Proof.
  unfold lines. induction m as [|[k v] m IH]; intros F; [done|]. apply Forall_cons in F as [P F].
  destruct P as (P1 & P2 & P3 & P4 & P5 & P6); cbn in *.
  assert (k +:+ String "=" (v +:+ String newline (print_settings m)) =
    (k +:+ String "=" v) +:+ String newline (print_settings m)) as ->.
  { clear. induction k as [|c k IH]; [done|]. rewrite !app_String. by f_equal. }
  rewrite split_char_app by by rewrite occurs_app, P5; cbn.
  specialize (IH F). destruct (split_char newline (print_settings m)) as [|s l] eqn:S.
  { exfalso. clear -S. destruct (print_settings m); cbn in S; repeat case_match; done. }
  rewrite line_list_cons, IH. f_equal. by apply strip_carriage_setting.
Qed.

Lemma prefix_hash_app k v : String.prefix "#" k = false →
  String.prefix "#" (k +:+ String "=" v) = false.
Proof. destruct k as [|c k]; cbn; [done|]. case_match; [by destruct k|done]. Qed.

(** No line of the file is dropped. *)
Lemma kept_settings m : Forall printable m →
  List.filter is_setting (trim <$> ((λ kv : string * string, kv.1 +:+ String "=" kv.2) <$> m)) =
  (λ kv : string * string, kv.1 +:+ String "=" kv.2) <$> m.
Proof.
  induction m as [|[k v] m IH]; [done|]. intros [(P1 & P2 & _ & P4 & _) P]%Forall_cons.
  cbn [fst snd] in P1, P2, P4. cbn [fmap list_fmap List.filter fst snd].
  rewrite trim_setting by done.
  assert (is_setting (k +:+ String "=" v) = true) as ->.
  { unfold is_setting. rewrite prefix_hash_app by done. by destruct k. }
  by rewrite IH.
Qed.

(** Collecting sorted entries changes nothing. *)
Lemma bt_insert_last (m : list (string * string)) k v :
  Forall (λ a, cmp a.1 k = Lt) m → bt_insert k v m = m ++ [(k, v)].
Proof.
  unfold bt_insert. induction m as [|[k' v'] m IH]; cbn; intros F; [done|].
  apply Forall_cons in F as [L F]. cbn in L. by rewrite (cmp_lt _ _ L), IH.
Qed.

Lemma bt_collect_id (m : list (string * string)) : bt_sorted m → bt_collect m = m.
Proof.
  unfold bt_collect. induction m as [|[k v] m IH] using rev_ind; intros S; [done|].
  rewrite foldl_app. cbn.
  assert (bt_sorted m ∧ Forall (λ a : string * string, cmp a.1 k = Lt) m) as [S' F].
  { clear IH. induction m as [|a m IH]; [split; constructor|]. cbn in S.
    apply StronglySorted_inv in S as [S F]. destruct (IH S) as [S1 S2].
    apply Forall_app in F as [F1 F2]. apply Forall_cons in F2 as [F2 _].
    split; [by apply SSorted_cons|constructor; [exact F2|exact S2]]. }
  rewrite IH by done. by apply bt_insert_last.
Qed.

(** C32: A hardware file reads back what was written to it: for settings sorted
    by key without white space around keys and values, the parse of the file
    with one [key=value] line per setting is these settings. *)
Theorem chart_hardware_roundtrip m :
  bt_sorted m → Forall printable m → parse_chart_hardware (print_settings m) = m.
Proof.
  intros S P. unfold parse_chart_hardware. rewrite lines_print by done.
  rewrite kept_settings by done. transitivity (bt_collect m); [|by apply bt_collect_id].
  f_equal. clear S. induction m as [|[k v] m IH]; [done|]. apply Forall_cons in P as [Pk P].
  destruct Pk as (P1 & P2 & P3 & _). cbn [fst snd] in P1, P2, P3.
  cbn [fmap list_fmap omap list_omap fst snd]. rewrite split_once_app by done.
  cbn [fmap list_fmap]. by rewrite P1, P2, IH.
Qed.

Lemma chart_hardware_roundtrip_witness :
  parse_chart_hardware (print_settings [("postfix", "turbo off"); ("prefix", "runtime host")])
  = [("postfix", "turbo off"); ("prefix", "runtime host")].
Proof.
  apply chart_hardware_roundtrip.
  - repeat constructor.
  - repeat constructor.
Defined.
End hardware.

(** ** Reading *)

Section reading.
Context `{Host} (from_str : string → result RowFields string).

(** The row of a line, and the warning about it. *)
Definition line_row (line : string) : option Row :=
  if String.eqb (trim line) "" then None
  else match from_str line with
       | Ok f => Some (row_of_fields f)
       | Err _ => recovered from_str line
       end.

Definition line_warning (path : string) (numbered : Z * string) : list event :=
  let '(n, line) := numbered in
  if String.eqb (trim line) "" then []
  else match from_str line with
       | Ok _ => []
       | Err error =>
           [Stderr (match recovered from_str line with
              | Some _ => "warning: recovered appended benchmark row at " +:+ path +:+ ":" +:+ show_Z n
              | None => "warning: ignored incomplete benchmark row at " +:+ path +:+ ":" +:+ show_Z n
                        +:+ ": " +:+ error
              end)]
       end.

Lemma emit_bind {A} e (k : () → io A) l : (emit e ≫= k) l = k () (l ++ [e]).
Proof. done. Qed.

Lemma read_lines_all path n rows ls l :
  Chart.read_lines from_str path n rows (Ok <$> ls) l =
  (Ret (rows ++ omap line_row ls),
   l ++ concat (line_warning path <$> zip (seqZ n (Z.of_nat (length ls))) ls)).
Proof.
  revert n rows l. induction ls as [|line ls IH]; intros n rows l.
  { cbn. by rewrite !app_nil_r. }
  replace (Z.of_nat (length (line :: ls))) with (Z.succ (Z.of_nat (length ls))) by (cbn; lia).
  rewrite seqZ_cons, Z.pred_succ by lia.
  cbn [fmap list_fmap Chart.read_lines omap list_omap zip zip_with concat line_warning].
  change (Z.succ n) with (n + 1). unfold line_row at 1.
  destruct (String.eqb (trim line) ""); [by rewrite IH|].
  destruct (from_str line) as [f|error].
  { rewrite IH, <- app_assoc. done. }
  destruct (recovered from_str line) as [row|]; rewrite emit_bind, IH, <- !app_assoc; done.
Qed.

Lemma read_lines_broken path n rows ls source rest l :
  ∃ l', Chart.read_lines from_str path n rows ((Ok <$> ls) ++ Err source :: rest) l =
        (Raise (EIo path source), l').
Proof.
  revert n rows l. induction ls as [|line ls IH]; intros n rows l; cbn; [by eexists|].
  destruct (String.eqb (trim line) ""); [apply IH|].
  destruct (from_str line) as [f|error]; [apply IH|].
  destruct (recovered from_str line) as [row|]; cbn; apply IH.
Qed.

(** C34: Every line of a result file is accounted for.  When the file can be
    read, the rows are, in order, those of the lines that are not blank: the
    row the line holds, or the last complete row inside it; and each line that
    is not a row itself is reported once, with its number.  When reading fails
    part way, the command fails with that error. *)
Theorem read_rows_accounts path l :
  (∀ ls, host_lines path = Ok (Ok <$> ls) →
     Chart.read_rows from_str path l =
     (Ret (omap line_row ls),
      l ++ concat (line_warning path <$> zip (seqZ 1 (Z.of_nat (length ls))) ls))) ∧
  (∀ ls source rest, host_lines path = Ok ((Ok <$> ls) ++ Err source :: rest) →
     ∃ l', Chart.read_rows from_str path l = (Raise (EIo path source), l')) ∧
  (∀ source, host_lines path = Err source →
     Chart.read_rows from_str path l = (Raise (EIo path source), l)).
Proof.
  unfold Chart.read_rows. split_and!.
  - intros ls ->. apply (read_lines_all path 1 []).
  - intros ls source rest ->. apply read_lines_broken.
  - by intros source ->.
Qed.
End reading.

(** A host with one file: a row, a broken line with a row appended to it, a
    blank line and a line with nothing to recover. *)
Definition demo_host (ls : list string) : Host := {|
  host_args := []; host_var := λ _, None; host_current_dir := None; host_manifest_dir := "";
  host_parent := λ _, None; host_ancestors := λ _, []; host_path_le := λ _ _, true;
  host_is_file := λ _, true; host_read_dir := λ _, Ok []; host_lines := λ _, Ok (Ok <$> ls);
  host_read_to_string := λ _ _, Ok ""; host_create_dir_all := λ _ _, None;
  host_write := λ _ _, None; host_draw := λ _ _, None;
  host_powf := λ x _, x; host_log10 := λ x, x |}.

(** A deserializer that knows two rows by their text. *)
Definition demo_from_str (s : string) : result RowFields string :=
  let fields id := mk_fields id None None None "fanring" "u64" 8 1 None 1 None None None None
    (f64_of 1) None None None None in
  if String.eqb s (row_prefix +:+ ":1}") then Ok (fields "1")
  else if String.eqb s (row_prefix +:+ ":2}") then Ok (fields "2") else Err "eof".

Definition demo_lines : list string :=
  [row_prefix +:+ ":1}"; row_prefix +:+ ":" +:+ row_prefix +:+ ":2}"; " "; "{"].

Lemma read_rows_accounts_witness :
  let '(r, l) := Chart.read_rows (H := demo_host demo_lines) demo_from_str "f" [] in
  match r with
  | Ret rows => row_run_id <$> rows = ["1"; "2"]
  | _ => False
  end ∧
  l = [Stderr "warning: recovered appended benchmark row at f:2";
       Stderr "warning: ignored incomplete benchmark row at f:4: eof"].
Proof.
  rewrite (proj1 (read_rows_accounts (H := demo_host demo_lines) demo_from_str "f" [])
    demo_lines eq_refl).
  vm_compute. split; reflexivity.
Defined.
